(* ===== verification/_CoqProject ===== *)
-Q . S2P
Prelude.v
Conversions.v
Interfaces.v
Deque.v
DequeConcurrent.v
ThreadPool.v
GetTask.v
PoolTheorems.v
Waiting.v
Engine.v
WireFormat.v
Serializer.v
JSHeap.v
ObjectWriter.v
ObjectReader.v
WriterTheorems.v
ObjectGraphs.v
ObjectRoundtrip.v
ObjectCopies.v
ObjectParts.v
ObjectProperties.v
ObjectArrays.v
ObjectErrors.v
ObjectClones.v
ObjectTheorems.v
ObjectTypes.v
ReaderSafety.v
ReaderParts.v
ReaderTheorems.v
Deserialization.v
DeserializationExamples.v
SerializerFailures.v
WriterPaths.v
Instances.v
Channel.v
ChannelTheorems.v
MutexState.v
MutexTheorems.v
Tasks.v
ThreadBuiltins.v
ThreadTheorems.v
ParallelArray.v
ParallelTheorems.v
Microtasks.v
AutoParallel.v
MicrotaskTheorems.v
Checkpoints.v
Digits.v
DigitsLinear.v
DigitsMultiply.v
DigitDivision.v
DigitsDivide.v
DigitsBitwise.v
Karatsuba.v
Burnikel.v
CachedMod.v
BigIntObjects.v
BigIntTheorems.v
BigIntArithmetic.v
BigIntOperators.v
BigIntOperatorTheorems.v
BigIntProperties.v
BigIntDoubles.v
BigIntNumerals.v
BigIntPrinting.v
BigIntParsing.v
BigIntParts.v
BigIntStrings.v
BigIntStringTheorems.v
BigIntStringProperties.v
PlatformTime.v
ForegroundRunner.v
ForegroundTheorems.v
WorkersRunner.v
WorkersTheorems.v
Jobs.v
JobTheorems.v
TaskQueue.v
Platform.v
PlatformProperties.v
