(* ===== verification/Prelude.v ===== *)
(** * The multithreading extension of this V8 tree

    The program is V8 with threads for JavaScript: [Thread.spawn] and [join], channels,
    mutexes, parallel array methods, and promise reactions that run on a pool of worker
    threads. This library models that extension (src/src/threading, the builtins of
    src/src/builtins that expose it, src/src/execution/microtask-queue.cc) and the parts
    of V8 below it that decide its behaviour (structured cloning, the conversions of
    numbers, BigInts, the task runners of the default platform), and proves what makes each
    part correct, or where it fails.

    ** How the parts interact

    JavaScript calls a builtin; the builtin serializes its arguments, makes a ThreadTask and
    submits it to the pool; a worker takes the task (private queue, own deque, global queue,
    stealing), runs it on its isolate and sets the result; the result, a message or a lock
    goes back as another task to the worker that owns the isolate that waits ([route]: its
    private queue) or to the foreground task runner of that isolate, which the embedder pumps.
    Between tasks an isolate runs the microtasks of its queue in checkpoints.

    ** Files

    - Prelude: executions of labelled transition systems ([run]), forward simulations,
      masks, lists, tactics ([invert], [crush], [perm]), the hint database [v8].
    - Conversions: machine integers ([wrap], [swrap]); base::Double of
      base/numbers/double.h and the conversions of numbers/conversions-inl.h. A double is
      its 64 bits, so [DoubleToInt32] and the others are compared with exact truncation.
    - Interfaces: [WSDeque], the contract of a deque, against which the pool is proved.
    - Deque, DequeConcurrent (threading/work-stealing-deque.h): the circular array with its
      growth and shrinking, each operation alone; then one step per access to a shared
      variable, one owner and any number of thieves. Deque.v discharges [WSDeque].
    - ThreadPool, GetTask, PoolTheorems (threading/thread-pool.{h,cc}): queues, counters, the
      workers' loop as a program counter, the three submissions, Resize, Terminate, the
      destructor. A config also keeps the history of submitted and finished tasks. Waiting:
      the same executions when tasks end only after other tasks (the waiter of
      [Thread.join] in builtins/builtins-thread.cc, the waiting loop of ExecuteTask).
    - Engine: what the code asks of V8, as classes: values ([JSValue], [JSOps]), structured
      cloning ([Codec] with [CodecLaws]), execution of JavaScript ([Engine]); the records of
      threading/task.h; [route]. Instances: a concrete instance, on which the theorems are
      applied to concrete inputs.
    - WireFormat (objects/value-serializer.cc): tags, varints, zigzag, doubles, strings, the
      header, primitive values. Serializer (threading/serializer.{h,cc}): the delegates,
      with the heap of shared-pointer copies whose addresses are in the data.
    - JSHeap: the objects that can be cloned, a heap of them, properties and elements.
      ObjectWriter, ObjectReader (objects/value-serializer.cc): [WriteObject] and
      [ReadObject] with everything below them, over a state that keeps the heap, the
      identifiers, the buffer or the position, the remaining stack and the effects; both
      in monads with an outcome (a value, an exception, nothing, a failed CHECK).
    - WriterTheorems, WriterPaths: what the writer keeps; the fast path of objects and the
      path through the properties. ObjectGraphs, ObjectRoundtrip, ObjectCopies and the
      files Object{Parts,Properties,Arrays,Errors,Clones}, ObjectTheorems:
      the relation between a graph and its clone, then a reader lemma per kind of object,
      then the round trip.
    - ObjectTypes, ReaderSafety, ReaderParts, ReaderTheorems, Deserialization:
      the reader on arbitrary bytes: the values that can be made ([read_value]), a logic of
      postconditions ([runs]), a lemma per operation, and the theorems on a whole
      deserialization. DeserializationExamples, SerializerFailures: concrete inputs.
    - Channel, ChannelTheorems (threading/channel.{h,cc}); MutexState, MutexTheorems
      (threading/mutex.{h,cc}): the states, the JavaScript entry points with every check,
      the tasks for other isolates, and step relations whose steps are the sections of code
      under the object's lock, labelled with the call and its effects. ChannelTheorems also
      has the reference a channel refines: one queue of sends ([queue_run]). [Send] reads [closed] before it takes the lock, and so does
      the model.
    - Tasks (WorkerThread::ExecuteTask and SerializeAndSetResult of threading/thread-pool.cc),
      ThreadBuiltins and ThreadTheorems (builtins/builtins-thread.cc).
    - ParallelArray, ParallelTheorems (builtins/builtins-parallel-array.cc).
    - Microtasks, AutoParallel, MicrotaskTheorems (execution/microtask-queue.{h,cc} and
      builtins/builtins-microtask-queue-gen.cc): the ring buffer with the C++ and the
      generated enqueue, the run loop, garbage collection, completed callbacks, the circular
      list of queues; the interception of promise reactions, the task on the worker and the
      settling of the derived promise. Checkpoints (the same files and api/api.cc): one
      microtask of each kind, contexts, embedder data, hooks, the scopes that delay or
      suppress checkpoints; the code of a job or of a completed callback is a script of
      operations on the isolate that may depend on the whole state and on the history.
    - PlatformTime, ForegroundRunner, ForegroundTheorems (libplatform/
      default-foreground-task-runner.{h,cc} and the loops of default-platform.cc that pump);
      WorkersRunner, WorkersTheorems (default-worker-threads-task-runner.cc,
      delayed-task-queue.cc); Jobs, JobTheorems (default-job.{h,cc}); TaskQueue (task-queue.cc,
      worker-thread.cc); Platform (default-platform.{h,cc}); PlatformProperties: runners,
      threads and jobs as step relations under an arbitrary clock, and their properties.
    - Digits, DigitsLinear, DigitsMultiply, DigitDivision, DigitsDivide, DigitsBitwise
      (bigint/bigint-inl.h, vector-arithmetic-inl.h, div-helpers-inl.h, div-schoolbook.cc):
      BigInt digits as lists of 64-bit integers, least significant first, with [dval] their
      value; one file per group of routines, each with its specification. A routine that
      writes to a vector returns the new vector; the [Processor] keeps the work estimate, the
      status and the answers of the platform to interrupt requests.
    - Karatsuba (mul-karatsuba.cc), Burnikel (div-burnikel.cc and the dispatch of
      bigint-internal.cc), CachedMod (the remainder with a cached inverse): the algorithms
      with their scratch memory, which they get with arbitrary contents ([Allocate]).
    - BigIntObjects (objects/bigint.cc): BigInt objects, sign and digits; canonicalization,
      comparison, arithmetic, truncation, conversions. BigIntOperators
      (builtins/builtins-bigint.tq with the C functions it calls, and the cache of the
      remainder operator). BigIntTheorems ([value], [canonical]), BigIntArithmetic,
      BigIntOperatorTheorems: their specifications; BigIntProperties: the
      properties.
    - BigIntDoubles (objects/bigint.cc): comparison with numbers, FromNumber, ToNumber.
    - BigIntNumerals, BigIntPrinting (bigint/tostring.cc): tables and numerals; the algorithms
      that write the characters of a BigInt from its last. BigIntParsing (bigint/bigint-inl.h,
      bigint/fromstring.cc): the accumulator that reads characters into parts and the three
      ways to combine the parts; BigIntParts: their specifications.
      BigIntStrings (numbers/conversions.cc, objects/bigint.cc): BigInt(string), literals,
      ToString, comparison with strings; BigIntStringTheorems, with the grammar
      [StringIntegerLiteral] that the parser is compared with; BigIntStringProperties.

    Names are those of the C++ code where Rocq allows it; a handler returns the new state
    and the list of its effects (exceptions, settled promises, delivered tasks).

    ** What the theorems show

    - Refinement: the deque is linearizable and, alone, a list; the settlements of a channel
      are those of one bounded first-in first-out queue; the microtask ring buffer is a list; [Lock] is an execution of the steps,
      and PumpMessageLoop one of the steps of its runner.
    - Conservation and exclusion: the pool loses and duplicates no task, [active_tasks_] is
      exact, the promises of a channel are settled at most once and lost only with a deleted
      task, one critical section at a time, no lost update; the runners of the platform lose
      no task and no wake-up, jobs count their workers exactly; a checkpoint handles each
      microtask once and restores the contexts and the embedder data whatever the code does.
    - Function: spawn and join are a call; parallel map and filter, and reduce of an
      associative callback, are the sequential ones; an executed task sets one result; an intercepted reaction settles as its
      handler; [DoubleToInt32] is ToInt32; [GetTask] takes tasks in the documented order;
      BigInt operators, comparisons, truncations and powers are those of the integers, on
      canonical BigInts, and results are canonical; a result is refused (TooBig) exactly
      where the result length that the code asks for is above the limit. BigInts compare
      with numbers and strings as exact numbers, ToNumber rounds to nearest, ToString writes
      the numeral in a buffer that is long enough, and BigInt(string) reads its grammar.
    - Equivalence: Karatsuba with the schoolbook product, Burnikel-Ziegler and the cached
      remainder with Algorithm D, the Torque operators with the functions of bigint.cc, the
      half-digit arithmetic with the double-width one.
    - Termination and progress: the run loop, the waiting loop, [GetTask] alone, the holder of
      a mutex, the workers after [Terminate], the threads of the platform after theirs; a pool
      in which tasks wait only for earlier ones, and the deadlock of one in which they do not.
    - Round trips: graphs of objects with sharing and cycles (numbers, strings, BigInts,
      plain objects, dense and sparse arrays, dates, wrappers, maps, sets, regular
      expressions, buffers, views, errors), varints, handles, SharedArrayBuffers, messages;
      BigInts to text and back, to 64-bit integers and back, doubles to BigInts and back.
    - The reader on arbitrary bytes: it never reads outside its data and fails no CHECK
      (safety), the heap it leaves is well typed and so is its result (typing), and its
      loops end before their fuel does (termination). The writer reports a buffer that
      cannot grow, and its fast path writes what its slow path writes.
    - Failures of the code, as theorems: the lost wake-up of [Submit], tasks stranded by
      [Resize], the leak of [active_tasks_], the identifiers of transferred buffers, the mutex
      whose next waiter cannot be reached, the repeated initial value of parallelReduce,
      serialized handles that can be read once only, SharedArrayBuffers outside spawn; the
      second reading of version 13 that aliases objects, the shared objects that shift the
      references after them, the length of a BigInt that fails a CHECK; the text of a huge
      BigInt that cannot be read, embedder data that an exception leaves behind, async
      functions that block the pool, exceptions whose stack cannot be set, stale idle threads, lost posts and the 33rd worker of a job
      in the platform.

    ** Fuel and bounds

    Loops without structural measure have fuel. [GetTask] alone needs [2 * pool_size + 12]
    steps; the waiting loop k + 3 units when the promise is settled at its (k+1)-th
    iteration; the corrections of a quotient digit ([correct_quotient], [decrement_estimate])
    and of a remainder ([add_back], [add_divisor], [subtract_divisor]) 3 rounds, of which the
    specifications prove that at most two correct something; [halve] 32, since lengths have 32
    bits; [KaratsubaMain] the length of its operands and [KaratsubaChunk] the sum of the
    lengths, [D2n1n] the length of the divisor, all of which the recursions decrease;
    [power_loop] 32, since exponents are below 2^31; the digits of a chunk 64 characters;
    [classic_loop] three rounds per digit, since each takes 29 bits or more; [large_rounds] 32,
    since each halves the number of parts; [parse_loop] one more than there are characters;
    [move_expired] and [move_due] one more than there are delayed tasks; [first_zero] 32, the
    width of the ids of a job; a checkpoint more than a variant of the code, which each turn of
    its loop decreases (code that enqueues itself for ever never ends its checkpoint, in the
    program either), and two nested checkpoints, since an inner one is refused; the loop of microtasks what the list reference needs; a varint of w bits
    w / 7 + 1 rounds; the loop that halves the capacity of a ring buffer 64 rounds, since the
    capacity is below 2^63. The loops of the reader have one unit more than there are bytes
    left, since each round consumes one; [reader_loops_end] proves that this is enough. The
    fuel of [ReadObject] and [WriteObject] is the stack of the thread: where it ends the code
    throws a stack overflow, and so does the model. The round trip of graphs assumes data
    below 2^32 - 8 bytes, the safety of the reader below 2^27 - 8 bytes. [drain_deque] needs more fuel than there are queued tasks. Deque
    indices and the sizes of queues are unbounded integers: 2^63 operations are not reached.
    The digit algorithms assume vectors of at most [kMaxNumDigits] digits, which no BigInt
    exceeds; shifts by more than [kMaxBits] are refused before they are computed. Strings are
    read up to 16 * kMaxLength characters, below which no radix of the language meets the
    limit of the parser; the round trip through text takes BigInts of up to 2^21 digits,
    whose texts are below that.
    Sizes that come from JavaScript (array lengths, pool sizes, capacities, sleeping times)
    keep their width.

    ** What is not modelled

    Memory orders weaker than sequential consistency (the fences of the deque ask for that
    order where it matters); the execution of JavaScript, hidden classes and the garbage
    collector (where the serializer uses them, they are parameters: the transition of a map,
    the text of a number, UTF-8, the compiler of regular expressions, the allocator);
    WebAssembly modules and memories in clones; the position of a reader after it failed;
    [Resize] is one step, so that neither the workers that start before pool_size_ is set nor the
    reallocation of the vector of workers under readers is seen; the allocations of an intercepted
    reaction, between which the collector may move the microtask; creation and deletion of the workers' isolates; allocation failures other
    than those of promise resolvers; Toom-Cook, FFT, Barrett division and the fast conversion to
    strings (the advanced-algorithms build); the character categories of ICU, a parameter; the
    wrappers of the BigInt builtins that check types and throw; tracing, page allocators and
    the system threads of the platform; the libraries and tools of V8 that the extension does not
    change.

    ** Plan

    Next: Toom-Cook and Barrett division of the advanced-algorithms build; the wrappers of the
    BigInt builtins; conversions of numbers to and from strings. *)
From stdpp Require Export base tactics list numbers option gmap strings pretty.
From Stdlib Require Export ZArith Lia.

(** * Notation scope and automation of the development *)

Declare Scope v8_scope.
Delimit Scope v8_scope with v8.
#[global] Open Scope Z_scope.

Create HintDb v8.

(** Split conjunctions and existentials in the hypotheses, then simplify. *)
Ltac invert H := inversion H; clear H; simplify_eq/=.

Ltac split_all := repeat match goal with |- _ /\ _ => split end.

(** Case analysis on every match/if of the goal, then arithmetic or [done]. *)
Ltac crush := repeat (case_match || case_decide); simplify_eq/=; try done; try lia.

(** * Labelled transition systems

    Every concurrent component of the program is a step relation with labels
    for its externally visible events; [run] is a finite execution. *)

Section lts.
Context {S L : Type} (step : S -> L -> S -> Prop).

Inductive run : S -> list L -> S -> Prop :=
| run_nil s : run s [] s
| run_cons s l s' tr s'' : step s l s' -> run s' tr s'' -> run s (l :: tr) s''.

Lemma run_one s l s' : step s l s' -> run s [l] s'.
Proof. intros. eapply run_cons; [done | constructor]. Qed.

Lemma run_app s tr1 s' tr2 s'' :
  run s tr1 s' -> run s' tr2 s'' -> run s (tr1 ++ tr2) s''.
Proof. induction 1; simpl; intros; [done | econstructor; eauto]. Qed.

Lemma run_snoc s tr s' l s'' :
  run s tr s' -> step s' l s'' -> run s (tr ++ [l]) s''.
Proof. intros. eapply run_app; [done | by apply run_one]. Qed.

(** An inductive invariant holds along every execution. *)
Lemma run_invariant (I : S -> Prop) :
  (forall s l s', I s -> step s l s' -> I s') ->
  forall s tr s', I s -> run s tr s' -> I s'.
Proof. intros HI s tr s' Hs Hr. induction Hr; eauto. Qed.
End lts.

#[export] Hint Constructors run : v8.
#[export] Hint Resolve run_one run_app run_snoc : v8.

(** A forward simulation [R] maps each concrete label to the abstract labels it
    stands for (none, for an internal step). *)
Section simulation.
Context {S L A M : Type} (step : S -> L -> S -> Prop) (astep : A -> M -> A -> Prop).
Context (R : S -> A -> Prop) (obs : L -> list M).
Hypothesis sim : forall s a l s', R s a -> step s l s' ->
  exists a', run astep a (obs l) a' /\ R s' a'.

Lemma run_simulation s tr s' :
  run step s tr s' -> forall a, R s a ->
  exists a', run astep a (mjoin (obs <$> tr)) a' /\ R s' a'.
Proof.
  induction 1 as [s|s l s' tr s'' Hst Hr IH]; simpl; intros a Ha.
  - exists a. split; [constructor | done].
  - destruct (sim _ _ _ _ Ha Hst) as (a' & H1 & Ha').
    destruct (IH _ Ha') as (a'' & H2 & ?). exists a''. split; [|done].
    by eapply run_app.
Qed.
End simulation.

(** * Powers of two and masks *)

Lemma land_pow2_mask i k : 0 <= k -> Z.land i (2 ^ k - 1) = i mod 2 ^ k.
Proof. intros. rewrite <- Z.land_ones by done. by rewrite Z.ones_equiv, Z.sub_1_r. Qed.

(** Two indices closer than the modulus have different residues. *)
Lemma mod_near_inj i j m : 0 < m -> Z.abs (i - j) < m -> i mod m = j mod m -> i = j.
Proof.
  intros Hm Hij He.
  pose proof (Z.div_mod i m ltac:(lia)). pose proof (Z.div_mod j m ltac:(lia)).
  assert (i / m - j / m = 0); [|nia].
  assert (m * (i / m - j / m) = i - j) by nia. nia.
Qed.

Lemma pow2_log2_bounds k : 0 <= k -> 0 < 2 ^ k.
Proof. intros. by apply Z.pow_pos_nonneg. Qed.
#[export] Hint Resolve pow2_log2_bounds : v8.

(** * Multisets collected from the elements of a list *)

(** Updating one element changes only its own contribution. *)
Lemma bind_insert_perm {A B} (f : A -> list B) (l : list A) i x :
  l !! i = Some x ->
  exists rest, (l ≫= f) ≡ₚ f x ++ rest /\ forall y, (<[i := y]> l ≫= f) ≡ₚ f y ++ rest.
Proof.
  intros Hi. pose proof (lookup_lt_Some _ _ _ Hi) as Hlt.
  exists ((take i l ≫= f) ++ (drop (S i) l ≫= f)). split.
  - rewrite <- (take_drop_middle l i x Hi) at 1. rewrite bind_app. simpl.
    by rewrite Permutation_app_swap_app.
  - intros y. rewrite insert_take_drop by done. rewrite bind_app. simpl.
    by rewrite Permutation_app_swap_app.
Qed.

Lemma join_insert_perm {A} (ls : list (list A)) i l :
  ls !! i = Some l ->
  exists rest, mjoin ls ≡ₚ l ++ rest /\ forall l', mjoin (<[i := l']> ls) ≡ₚ l' ++ rest.
Proof.
  intros Hi. destruct (bind_insert_perm id ls i l Hi) as (rest & H1 & H2).
  exists rest. rewrite list_join_bind. split; [done|]. intros l'. by rewrite list_join_bind, H2.
Qed.

Lemma fmap_mjoin {A B} (f : A -> B) (ls : list (list A)) : mjoin (fmap f <$> ls) = f <$> mjoin ls.
Proof.
  induction ls as [|l ls IH]; [done|].
  change ((f <$> l) ++ mjoin (fmap f <$> ls) = f <$> (l ++ mjoin ls)).
  by rewrite IH, fmap_app.
Qed.

Lemma mjoin_singletons {A} (l : list A) : mjoin ((fun a => [a]) <$> l) = l.
Proof. induction l as [|a l IH]; [done|]. change (a :: mjoin ((fun a => [a]) <$> l) = a :: l). by rewrite IH. Qed.

(** A function that distributes over concatenation. *)
Lemma mjoin_morphism {A B} (g : list A -> list B) (ls : list (list A)) :
  (forall l1 l2, g (l1 ++ l2) = g l1 ++ g l2) -> mjoin (g <$> ls) = g (mjoin ls).
Proof.
  intros Hg. induction ls as [|l ls IH].
  - pose proof (f_equal length (Hg [] [])) as Hn. rewrite length_app in Hn. simpl in *.
    destruct (g []); simpl in *; [done|lia].
  - change (g l ++ mjoin (g <$> ls) = g (l ++ mjoin ls)). by rewrite Hg, IH.
Qed.

Lemma bind_singleton_nil {A B} (f : A -> list B) (l : list A) x :
  f x = [] -> (l ++ [x]) ≫= f = l ≫= f.
Proof. intros Hx. by rewrite bind_app, bind_singleton, Hx, app_nil_r. Qed.

(** Replacing one element of a list: what a sum and a concatenation over the list become. *)
Lemma list_sum_insert {A} (f : A -> nat) i x y (l : list A) : l !! i = Some x ->
  (list_sum (f <$> <[i := y]> l) + f x = list_sum (f <$> l) + f y)%nat.
Proof.
  intros Hi. rewrite <- (take_drop_middle l i x Hi) at 2. rewrite insert_take_drop by (by eapply lookup_lt_Some).
  rewrite !fmap_app, !list_sum_app. simpl. lia.
Qed.

Lemma bind_insert {A B} (f : A -> list B) i x y (l : list A) : l !! i = Some x ->
  exists l1 l2, l ≫= f = l1 ++ f x ++ l2 /\ <[i := y]> l ≫= f = l1 ++ f y ++ l2.
Proof.
  intros Hi. exists (take i l ≫= f), (drop (S i) l ≫= f).
  rewrite <- (take_drop_middle l i x Hi) at 1. rewrite insert_take_drop by (by eapply lookup_lt_Some). rewrite !bind_app. by simpl.
Qed.

(** Permutation goals and hypotheses over the same atoms, up to reordering. *)
Ltac perm := simpl in *; repeat match goal with
  | H : ?l ≡ₚ _ |- context [?l] => rewrite H; clear H
  end; simpl; solve_Permutation.
