(* ===== verification/Conversions.v ===== *)
(** Numbers: base::Double of src/src/base/numbers/double.h and the conversions of
    doubles to integers of src/src/numbers/conversions-inl.h.

    A double is its 64 bits; [value] is the number they stand for, as an integer times
    a power of two, so every comparison and rounding of the code is exact. *)
From S2P Require Import Prelude.

(** ** Machine integers *)

Definition wrap (w z : Z) : Z := z mod 2 ^ w.                                   (* unsigned *)
Definition swrap (w z : Z) : Z := (z + 2 ^ (w - 1)) mod 2 ^ w - 2 ^ (w - 1).    (* signed *)

Lemma swrap_id w z : 0 < w -> - 2 ^ (w - 1) <= z < 2 ^ (w - 1) -> swrap w z = z.
Proof.
  intros Hw Hz. unfold swrap. assert (2 ^ w = 2 * 2 ^ (w - 1)) as He.
  { rewrite <- Z.pow_succ_r by lia. f_equal. lia. }
  rewrite Z.mod_small; lia.
Qed.

Lemma swrap_eq w z z' : 0 <= w -> z mod 2 ^ w = z' mod 2 ^ w -> swrap w z = swrap w z'.
Proof.
  intros Hw He. unfold swrap. f_equal. rewrite <- (Z.add_mod_idemp_l z), <- (Z.add_mod_idemp_l z'), He; [done|..];
    pose proof (pow2_log2_bounds w Hw); lia.
Qed.

Lemma swrap_multiple w k : 0 < w -> swrap w (k * 2 ^ w) = 0.
Proof.
  intros Hw. pose proof (pow2_log2_bounds w ltac:(lia)). pose proof (pow2_log2_bounds (w - 1) ltac:(lia)).
  rewrite (swrap_eq w _ 0); [apply swrap_id; lia|lia|]. rewrite Z.mod_mul, Z.mod_0_l by lia. done.
Qed.

Lemma swrap_bounds w z : 0 < w -> - 2 ^ (w - 1) <= swrap w z < 2 ^ (w - 1).
Proof.
  intros Hw. unfold swrap. assert (2 ^ w = 2 * 2 ^ (w - 1)) as He.
  { rewrite <- Z.pow_succ_r by lia. f_equal. lia. }
  pose proof (Z.mod_pos_bound (z + 2 ^ (w - 1)) (2 ^ w) ltac:(apply pow2_log2_bounds; lia)). lia.
Qed.

(** ** base::Double *)

Definition kSignMask : Z := 0x8000000000000000.
Definition kExponentMask : Z := 0x7FF0000000000000.
Definition kSignificandMask : Z := 0x000FFFFFFFFFFFFF.
Definition kHiddenBit : Z := 0x0010000000000000.
Definition kPhysicalSignificandSize : Z := 52.
Definition kSignificandSize : Z := 53.
Definition kExponentBias : Z := 0x3FF + kPhysicalSignificandSize.
Definition kDenormalExponent : Z := - kExponentBias + 1.
Definition kMaxExponent : Z := 0x7FF - kExponentBias.
Definition kInfinity : Z := 0x7FF0000000000000.

Definition IsDenormal (d64 : Z) : bool := Z.land d64 kExponentMask =? 0.
Definition IsSpecial (d64 : Z) : bool := Z.land d64 kExponentMask =? kExponentMask.
Definition IsInfinite (d64 : Z) : bool :=
  (Z.land d64 kExponentMask =? kExponentMask) && (Z.land d64 kSignificandMask =? 0).

Definition Exponent (d64 : Z) : Z :=
  if IsDenormal d64 then kDenormalExponent
  else Z.shiftr (Z.land d64 kExponentMask) kPhysicalSignificandSize - kExponentBias.

Definition Significand (d64 : Z) : Z :=
  let significand := Z.land d64 kSignificandMask in
  if IsDenormal d64 then significand else significand + kHiddenBit.

Definition Sign (d64 : Z) : Z := if Z.land d64 kSignMask =? 0 then 1 else -1.

(** [DiyFp(f, e)] is [f * 2^e]; f is a uint64. *)
Definition AsDiyFp (d64 : Z) : Z * Z := (Significand d64, Exponent d64).

(** The three loops of [DiyFpToUint64] and [AsNormalizedDiyFp]; each shifts one bit per
    iteration of a 64-bit integer, so 64 iterations are enough. *)
Fixpoint shift_down (fuel : nat) (significand exponent : Z) : Z * Z :=
  match fuel with O => (significand, exponent) | S fuel =>
  if significand >? kHiddenBit + kSignificandMask
  then shift_down fuel (Z.shiftr significand 1) (exponent + 1) else (significand, exponent)
  end.

Fixpoint shift_up (fuel : nat) (significand exponent : Z) : Z * Z :=
  match fuel with O => (significand, exponent) | S fuel =>
  if (exponent >? kDenormalExponent) && (Z.land significand kHiddenBit =? 0)
  then shift_up fuel (wrap 64 (Z.shiftl significand 1)) (exponent - 1) else (significand, exponent)
  end.

Definition DiyFpToUint64 (diy_fp : Z * Z) : Z :=
  let '(significand, exponent) := shift_down 64 (fst diy_fp) (snd diy_fp) in
  if exponent >=? kMaxExponent then kInfinity
  else if exponent <? kDenormalExponent then 0
  else
    (* the loop ends after kMaxExponent - kDenormalExponent iterations at the latest *)
    let '(significand, exponent) := shift_up (Z.to_nat (exponent - kDenormalExponent)) significand exponent in
    let biased_exponent :=
      if (exponent =? kDenormalExponent) && (Z.land significand kHiddenBit =? 0) then 0
      else wrap 64 (exponent + kExponentBias) in
    Z.lor (Z.land significand kSignificandMask) (wrap 64 (Z.shiftl biased_exponent kPhysicalSignificandSize)).

(** Bits of the next greater double. *)
Definition NextDouble (d64 : Z) : Z :=
  if d64 =? kInfinity then kInfinity
  else if (Sign d64 <? 0) && (Significand d64 =? 0) then 0
  else if Sign d64 <? 0 then wrap 64 (d64 - 1) else wrap 64 (d64 + 1).

(** ** Comparisons and truncation of finite doubles *)

Definition isfinite (d64 : Z) : bool := negb (IsSpecial d64).

(** [value d * 2^1074] is an integer: doubles compare as these do. *)
Definition scaled (d64 : Z) : Z := Sign d64 * Significand d64 * 2 ^ (Exponent d64 - kDenormalExponent).
Definition unit : Z := 2 ^ (- kDenormalExponent).

Definition le_int (d64 n : Z) : bool := scaled d64 <=? n * unit.
Definition ge_int (d64 n : Z) : bool := n * unit <=? scaled d64.

(** [static_cast<int>] of a finite double in range: the integer part. *)
Definition trunc (d64 : Z) : Z := Z.quot (scaled d64) unit.

Definition INT_MAX : Z := 2 ^ 31 - 1.
Definition INT_MIN : Z := - 2 ^ 31.

(** ** conversions-inl.h *)

Definition DoubleToInt32 (x : Z) : Z :=
  if isfinite x && le_int x INT_MAX && ge_int x INT_MIN then trunc x
  else
    let exponent := Exponent x in
    if exponent <? 0 then
      if exponent <=? - kSignificandSize then 0
      else
        let bits := Z.shiftr (Significand x) (- exponent) in
        swrap 32 (swrap 64 (Sign x * swrap 64 bits))
    else if exponent >? 31 then 0
    else
      let bits := Z.land (wrap 64 (Z.shiftl (Significand x) exponent)) 0xFFFFFFFF in
      swrap 32 (swrap 64 (Sign x * swrap 64 bits)).

Definition DoubleToUint32 (x : Z) : Z := wrap 32 (DoubleToInt32 x).

Definition kMaxSafeInteger : Z := 2 ^ 53 - 1.
Definition kMinSafeInteger : Z := - kMaxSafeInteger.
Definition INT64_MIN : Z := - 2 ^ 63.
Definition INT64_MAX : Z := 2 ^ 63 - 1.

Definition DoubleToWebIDLInt64 (x : Z) : Z :=
  if isfinite x && le_int x kMaxSafeInteger && ge_int x kMinSafeInteger then trunc x
  else
    let exponent := Exponent x in
    if exponent <? 0 then
      if exponent <=? - kSignificandSize then 0
      else swrap 64 (Sign x * swrap 64 (Z.shiftr (Significand x) (- exponent)))
    else if exponent >? 63 then 0
    else
      let bits_int64 := swrap 64 (wrap 64 (Z.shiftl (Significand x) exponent)) in
      if bits_int64 =? INT64_MIN then bits_int64
      else swrap 64 (Sign x * bits_int64).

Definition DoubleToWebIDLUint64 (x : Z) : Z := wrap 64 (DoubleToWebIDLInt64 x).

Definition isnan (x : Z) : bool := IsSpecial x && negb (Z.land x kSignificandMask =? 0).

(** [NumberToInt64] of a heap number; the bound 2^63-1 rounds to the double 2^63, and an
    infinity is beyond both bounds. *)
Definition NumberToInt64 (x : Z) : Z :=
  if isnan x then 0
  else if (if isfinite x then ge_int x (2 ^ 63) else 0 <? Sign x) then INT64_MAX
  else if (if isfinite x then le_int x INT64_MIN else Sign x <? 0) then INT64_MIN
  else trunc x.

(** ** The fields of the 64 bits *)

Lemma land_field x k n :
  0 <= k -> 0 <= n -> Z.land x (Z.shiftl (Z.ones n) k) = Z.shiftl (Z.shiftr x k mod 2 ^ n) k.
Proof.
  intros Hk Hn. rewrite <- Z.land_ones by done. apply Z.bits_inj'. intros i Hi.
  rewrite Z.land_spec, !Z.shiftl_spec, Z.land_spec by done.
  destruct (Z.ltb_spec i k); [rewrite !(Z.testbit_neg_r _ (i - k)) by lia; by rewrite !andb_false_r|].
  rewrite Z.shiftr_spec by lia. by replace (i - k + k) with i by lia.
Qed.

Definition biased (x : Z) : Z := x / 2 ^ 52 mod 2 ^ 11.
Definition mantissa (x : Z) : Z := x mod 2 ^ 52.

Lemma land_exponent x : Z.land x kExponentMask = biased x * 2 ^ 52.
Proof.
  change kExponentMask with (Z.shiftl (Z.ones 11) 52).
  by rewrite land_field, Z.shiftl_mul_pow2, Z.shiftr_div_pow2 by lia.
Qed.

Lemma land_significand x : Z.land x kSignificandMask = mantissa x.
Proof. change kSignificandMask with (2 ^ 52 - 1). by apply land_pow2_mask. Qed.

Lemma land_sign x : 0 <= x < 2 ^ 64 -> Z.land x kSignMask = (x / 2 ^ 63) * 2 ^ 63.
Proof.
  intros Hx. change kSignMask with (Z.shiftl (Z.ones 1) 63).
  rewrite land_field, Z.shiftl_mul_pow2, Z.shiftr_div_pow2 by lia. f_equal. apply Z.mod_small.
  split; [apply Z.div_pos; lia|]. apply Z.div_lt_upper_bound; lia.
Qed.

Lemma biased_bounds x : 0 <= biased x < 2 ^ 11.
Proof. apply Z.mod_pos_bound. lia. Qed.
Lemma mantissa_bounds x : 0 <= mantissa x < 2 ^ 52.
Proof. apply Z.mod_pos_bound. lia. Qed.

Lemma fields x : 0 <= x < 2 ^ 64 -> x = (x / 2 ^ 63) * 2 ^ 63 + biased x * 2 ^ 52 + mantissa x.
Proof.
  intros Hx. unfold biased, mantissa.
  pose proof (Z.div_mod x (2 ^ 52) ltac:(lia)). pose proof (Z.div_mod (x / 2 ^ 52) (2 ^ 11) ltac:(lia)) as H2.
  rewrite Z.div_div in H2 by lia. change (2 ^ 52 * 2 ^ 11) with (2 ^ 63) in H2. lia.
Qed.

Lemma IsDenormal_biased x : IsDenormal x = (biased x =? 0).
Proof.
  unfold IsDenormal. rewrite land_exponent. pose proof (biased_bounds x).
  destruct (Z.eqb_spec (biased x) 0), (Z.eqb_spec (biased x * 2 ^ 52) 0); lia.
Qed.

Lemma IsSpecial_biased x : IsSpecial x = (biased x =? 2047).
Proof.
  unfold IsSpecial. rewrite land_exponent. change kExponentMask with (2047 * 2 ^ 52).
  destruct (Z.eqb_spec (biased x) 2047), (Z.eqb_spec (biased x * 2 ^ 52) (2047 * 2 ^ 52)); lia.
Qed.

Lemma Exponent_biased x : Exponent x = (if biased x =? 0 then 1 else biased x) - kExponentBias.
Proof.
  unfold Exponent. rewrite IsDenormal_biased, land_exponent. destruct (biased x =? 0); [reflexivity|].
  unfold kPhysicalSignificandSize. rewrite Z.shiftr_div_pow2, Z.div_mul by lia. reflexivity.
Qed.

Lemma Significand_biased x : Significand x = mantissa x + (if biased x =? 0 then 0 else 2 ^ 52).
Proof.
  unfold Significand. rewrite IsDenormal_biased, land_significand. change kHiddenBit with (2 ^ 52).
  destruct (biased x =? 0); lia.
Qed.

Lemma Significand_bounds x : 0 <= Significand x < 2 ^ 53.
Proof. rewrite Significand_biased. pose proof (mantissa_bounds x). destruct (biased x =? 0); lia. Qed.

Lemma Sign_cases x : Sign x = 1 \/ Sign x = -1.
Proof. unfold Sign. destruct (_ =? _); auto. Qed.

Lemma Exponent_bounds x : kDenormalExponent <= Exponent x <= 972.
Proof.
  rewrite Exponent_biased. pose proof (biased_bounds x). unfold kDenormalExponent, kExponentBias, kPhysicalSignificandSize.
  destruct (Z.eqb_spec (biased x) 0); lia.
Qed.

(** ** The integer part *)

Lemma trunc_nonneg x : 0 <= Exponent x -> trunc x = Sign x * Significand x * 2 ^ Exponent x.
Proof.
  intros He. unfold trunc, scaled, unit. change kDenormalExponent with (-1074). unfold Z.sub.
  rewrite Z.pow_add_r, Z.mul_assoc by lia.
  apply Z.quot_mul. done.
Qed.

Lemma trunc_neg x : Exponent x < 0 -> trunc x = Sign x * (Significand x / 2 ^ (- Exponent x)).
Proof.
  intros He. unfold trunc, scaled, unit. pose proof (Exponent_bounds x) as [Hlo _]. pose proof (Significand_bounds x).
  set (e := Exponent x) in *. set (k := kDenormalExponent) in *.
  replace (- k) with (- e + (e - k)) by lia. rewrite (Z.pow_add_r 2 (- e)) by lia.
  rewrite Z.quot_mul_cancel_r by (apply Z.pow_nonzero; lia).
  rewrite <- Z.quot_div_nonneg by (try apply Z.pow_pos_nonneg; lia).
  destruct (Sign_cases x) as [-> | ->].
  - by rewrite !Z.mul_1_l.
  - replace (-1 * Significand x) with (- Significand x) by lia.
    rewrite Z.quot_opp_l by (apply Z.pow_nonzero; lia). lia.
Qed.

Lemma trunc_bounds x lo hi :
  lo <= 0 <= hi -> le_int x hi = true -> ge_int x lo = true -> lo <= trunc x <= hi.
Proof.
  unfold le_int, ge_int, trunc. intros Hlh Hle%Z.leb_le Hge%Z.leb_le. assert (Hu : 0 < unit) by done.
  split; [apply Z.quot_le_lower_bound|apply Z.quot_le_upper_bound]; try done; lia.
Qed.

Lemma special_exponent x : isfinite x = false -> Exponent x = 972.
Proof.
  unfold isfinite. rewrite IsSpecial_biased, Exponent_biased. intros Hs%negb_false_iff%Z.eqb_eq. by rewrite Hs.
Qed.

Lemma wrap_shift_mod e sig w : 0 <= e -> 0 <= w <= 64 -> wrap 64 (Z.shiftl sig e) mod 2 ^ w = (sig * 2 ^ e) mod 2 ^ w.
Proof.
  intros He Hw. unfold wrap. rewrite Z.shiftl_mul_pow2 by done.
  replace (2 ^ 64) with (2 ^ w * 2 ^ (64 - w)) by (rewrite <- Z.pow_add_r by lia; f_equal; lia).
  pose proof (pow2_log2_bounds w ltac:(lia)). pose proof (pow2_log2_bounds (64 - w) ltac:(lia)).
  rewrite Z.rem_mul_r by lia. by rewrite (Z.mul_comm (2 ^ w)), Z.mod_add, Z.mod_mod by lia.
Qed.

Lemma mul_mod_eq w s a b : 0 <= w -> a mod 2 ^ w = b mod 2 ^ w -> (s * a) mod 2 ^ w = (s * b) mod 2 ^ w.
Proof.
  intros Hw He. pose proof (pow2_log2_bounds w Hw).
  by rewrite <- Z.mul_mod_idemp_r, He, Z.mul_mod_idemp_r by lia.
Qed.

Lemma swrap_mod w z k : 0 < k <= w -> swrap w z mod 2 ^ k = z mod 2 ^ k.
Proof.
  intros Hk. unfold swrap. pose proof (pow2_log2_bounds k ltac:(lia)). pose proof (pow2_log2_bounds (w - k) ltac:(lia)).
  assert (Hw : 2 ^ w = 2 ^ k * 2 ^ (w - k)) by (rewrite <- Z.pow_add_r by lia; f_equal; lia).
  rewrite <- (Zminus_mod_idemp_l ((z + 2 ^ (w - 1)) mod 2 ^ w)), Hw, Z.rem_mul_r by lia.
  rewrite (Z.mul_comm (2 ^ k)), Z.mod_add, Z.mod_mod, Zminus_mod_idemp_l by lia. f_equal. lia.
Qed.

Lemma significand_shifted x : Exponent x < 0 -> 0 <= Z.shiftr (Significand x) (- Exponent x) < 2 ^ 53.
Proof.
  intros He. pose proof (Significand_bounds x). rewrite Z.shiftr_div_pow2 by lia.
  pose proof (pow2_log2_bounds (- Exponent x) ltac:(lia)).
  split; [apply Z.div_pos; lia|]. apply Z.div_lt_upper_bound; nia.
Qed.

Lemma trunc_small x : Exponent x <= - kSignificandSize -> trunc x = 0.
Proof.
  change kSignificandSize with 53. intros He. pose proof (Significand_bounds x).
  rewrite trunc_neg, Z.div_small by (try lia; pose proof (Z.pow_le_mono_r 2 53 (- Exponent x)); lia). lia.
Qed.

(** [DoubleToInt32] computes ECMA-262 ToInt32 for every one of the 2^64 bit patterns:
    the integer part modulo 2^32, in the signed range, and 0 for the infinities and
    NaNs; no intermediate overflow changes the result. *)
Theorem DoubleToInt32_spec x :
  DoubleToInt32 x = if isfinite x then swrap 32 (trunc x) else 0.
Proof.
  unfold DoubleToInt32.
  destruct (isfinite x) eqn:Hf; simpl; [|by rewrite (special_exponent _ Hf)].
  destruct (le_int x INT_MAX && ge_int x INT_MIN) eqn:Hr.
  { apply andb_prop in Hr as [H1 H2]. symmetry. apply swrap_id; [lia|].
    pose proof (trunc_bounds x INT_MIN INT_MAX ltac:(done) H1 H2). unfold INT_MIN, INT_MAX in *. lia. }
  destruct (Z.ltb_spec (Exponent x) 0) as [He|He].
  - destruct (Z.leb_spec (Exponent x) (- kSignificandSize)); [by rewrite trunc_small|].
    pose proof (significand_shifted x He). rewrite trunc_neg by done.
    rewrite (swrap_id 64), (swrap_id 64), Z.shiftr_div_pow2 by (try lia; destruct (Sign_cases x) as [-> | ->]; try rewrite swrap_id; lia).
    done.
  - rewrite trunc_nonneg by done. rewrite <- Z.mul_assoc. destruct (Z.gtb_spec (Exponent x) 31).
    + replace (2 ^ Exponent x) with (2 ^ (Exponent x - 32) * 2 ^ 32) by (rewrite <- Z.pow_add_r by lia; f_equal; lia).
      rewrite !Z.mul_assoc. by rewrite swrap_multiple by lia.
    + change 0xFFFFFFFF with (2 ^ 32 - 1). rewrite land_pow2_mask by lia. apply swrap_eq; [lia|].
      rewrite swrap_mod by lia. apply mul_mod_eq; [lia|].
      rewrite swrap_mod by lia. rewrite Z.mod_mod by lia. by apply wrap_shift_mod.
Qed.

(** [DoubleToWebIDLInt64] is the integer part modulo 2^64 in the signed range (Web IDL
    ConvertToInt for [long long]), and 0 for the infinities and NaNs. *)
Theorem DoubleToWebIDLInt64_spec x :
  DoubleToWebIDLInt64 x = if isfinite x then swrap 64 (trunc x) else 0.
Proof.
  unfold DoubleToWebIDLInt64.
  destruct (isfinite x) eqn:Hf; simpl; [|by rewrite (special_exponent _ Hf)].
  destruct (le_int x kMaxSafeInteger && ge_int x kMinSafeInteger) eqn:Hr.
  { apply andb_prop in Hr as [H1 H2]. symmetry. apply swrap_id; [lia|].
    pose proof (trunc_bounds x kMinSafeInteger kMaxSafeInteger ltac:(done) H1 H2).
    unfold kMinSafeInteger, kMaxSafeInteger in *. lia. }
  destruct (Z.ltb_spec (Exponent x) 0) as [He|He].
  - destruct (Z.leb_spec (Exponent x) (- kSignificandSize)); [by rewrite trunc_small|].
    pose proof (significand_shifted x He). rewrite trunc_neg by done.
    rewrite (swrap_id 64 (Z.shiftr _ _)), Z.shiftr_div_pow2 by lia. done.
  - rewrite trunc_nonneg by done. rewrite <- Z.mul_assoc. destruct (Z.gtb_spec (Exponent x) 63).
    + replace (2 ^ Exponent x) with (2 ^ (Exponent x - 64) * 2 ^ 64) by (rewrite <- Z.pow_add_r by lia; f_equal; lia).
      rewrite !Z.mul_assoc. by rewrite swrap_multiple by lia.
    + set (b := swrap 64 _).
      assert (Hb : swrap 64 (Sign x * b) = swrap 64 (Sign x * (Significand x * 2 ^ Exponent x))).
      { apply swrap_eq; [lia|]. apply mul_mod_eq; [lia|]. unfold b. rewrite swrap_mod by lia. by apply wrap_shift_mod. }
      rewrite <- Hb. destruct (Z.eqb_spec b INT64_MIN) as [->|]; [|done].
      by destruct (Sign_cases x) as [-> | ->].
Qed.

(** [NumberToInt64] rounds toward zero and saturates: the integer part when it is an
    int64, the nearest bound otherwise, the bounds for the infinities, 0 for NaN. *)
Theorem NumberToInt64_saturates x :
  NumberToInt64 x =
    if isnan x then 0
    else if isfinite x then Z.max INT64_MIN (Z.min INT64_MAX (trunc x))
    else if Sign x <? 0 then INT64_MIN else INT64_MAX.
Proof.
  unfold NumberToInt64. destruct (isnan x); [done|]. destruct (isfinite x).
  - unfold ge_int, le_int, trunc. assert (Hu : 0 < unit) by done. unfold INT64_MIN, INT64_MAX in *.
    destruct (Z.leb_spec (2 ^ 63 * unit) (scaled x)) as [H1|H1].
    + pose proof (Z.quot_le_lower_bound (scaled x) unit (2 ^ 63) ltac:(lia) ltac:(lia)). lia.
    + destruct (Z.leb_spec (scaled x) (- 2 ^ 63 * unit)) as [H2|H2].
      * pose proof (Z.quot_le_upper_bound (scaled x) unit (- 2 ^ 63) ltac:(lia) ltac:(lia)). lia.
      * pose proof (Z.quot_le_lower_bound (scaled x) unit (- 2 ^ 63) ltac:(lia) ltac:(lia)).
        assert (Z.quot (scaled x) unit < 2 ^ 63); [|lia].
        destruct (Z.le_gt_cases 0 (scaled x)); [apply Z.quot_lt_upper_bound; lia|].
        pose proof (Z.quot_le_upper_bound (scaled x) unit 0 ltac:(lia) ltac:(lia)). lia.
  - by destruct (Sign_cases x) as [-> | ->].
Qed.

(** ** DiyFp *)

Lemma land_hidden f : 0 <= f < 2 ^ 53 -> (Z.land f kHiddenBit =? 0) = (f <? 2 ^ 52).
Proof.
  intros Hf. change kHiddenBit with (Z.shiftl (Z.ones 1) 52).
  rewrite land_field, Z.shiftl_mul_pow2, Z.shiftr_div_pow2 by lia.
  assert (f / 2 ^ 52 = 0 /\ f < 2 ^ 52 \/ f / 2 ^ 52 = 1 /\ 2 ^ 52 <= f) as [[-> ?]|[-> ?]].
  { pose proof (Z.div_mod f (2 ^ 52) ltac:(lia)). pose proof (Z.mod_pos_bound f (2 ^ 52) ltac:(lia)). lia. }
  - symmetry. by apply Z.ltb_lt.
  - symmetry. by apply Z.ltb_ge.
Qed.

Lemma lor_disjoint a b k : 0 <= k -> 0 <= a < 2 ^ k -> Z.lor a (b * 2 ^ k) = a + b * 2 ^ k.
Proof.
  intros Hk Ha. rewrite <- Z.shiftl_mul_pow2 by done.
  assert (Hl : Z.land a (Z.shiftl b k) = 0).
  { rewrite <- (Z.mod_small a (2 ^ k)), <- Z.land_ones by done. apply Z.bits_inj'. intros i Hi.
    rewrite !Z.land_spec, Z.shiftl_spec, Z.bits_0 by done. destruct (Z.ltb_spec i k).
    - rewrite (Z.testbit_neg_r b) by lia. by rewrite andb_false_r.
    - by rewrite Z.ones_spec_high, andb_false_r by lia. }
  by rewrite <- Z.lxor_lor, Z.add_nocarry_lxor.
Qed.

(** A finite non-negative double survives the trip through DiyFp: [DiyFpToUint64] of
    [AsDiyFp] gives its bits back, denormals included. *)
Theorem DiyFp_roundtrip x :
  0 <= x < 2 ^ 63 -> isfinite x = true -> DiyFpToUint64 (AsDiyFp x) = x.
Proof.
  intros Hx Hf. unfold isfinite in Hf. rewrite IsSpecial_biased in Hf. apply negb_true_iff, Z.eqb_neq in Hf.
  pose proof (biased_bounds x). pose proof (mantissa_bounds x). pose proof (Significand_bounds x) as Hs.
  pose proof (Exponent_biased x) as He. pose proof (Significand_biased x) as Hsb.
  unfold DiyFpToUint64, AsDiyFp. simpl fst. simpl snd.
  assert (shift_down 64 (Significand x) (Exponent x) = (Significand x, Exponent x)) as ->.
  { cbn [shift_down]. destruct (Z.gtb_spec (Significand x) (kHiddenBit + kSignificandMask)); [|done].
    change (kHiddenBit + kSignificandMask) with (2 ^ 53 - 1) in *. lia. }
  change kMaxExponent with 972. change kDenormalExponent with (-1074). change kExponentBias with 1075 in *.
  destruct (Z.geb_spec (Exponent x) 972); [destruct (Z.eqb_spec (biased x) 0); lia|].
  destruct (Z.ltb_spec (Exponent x) (-1074)); [destruct (Z.eqb_spec (biased x) 0); lia|].
  assert (Hup : forall n, shift_up n (Significand x) (Exponent x) = (Significand x, Exponent x)).
  { intros [|n]; [done|]. cbn [shift_up]. change kDenormalExponent with (-1074). rewrite land_hidden by done.
    destruct (Z.eqb_spec (biased x) 0); [replace (Exponent x >? -1074) with false by lia; done|].
    replace (Significand x <? 2 ^ 52) with false by lia. by rewrite andb_false_r. }
  rewrite Hup, land_hidden, land_significand by done.
  assert (mantissa (Significand x) = mantissa x) as ->.
  { rewrite Hsb. unfold mantissa. destruct (biased x =? 0); [rewrite Z.add_0_r; by rewrite Z.mod_mod|].
    by rewrite <- Z.add_mod_idemp_r, Z.mod_same, Z.add_0_r, Z.mod_mod. }
  assert (Hb : (if (Exponent x =? -1074) && (Significand x <? 2 ^ 52) then 0 else wrap 64 (Exponent x + 1075)) = biased x).
  { destruct (Z.eqb_spec (biased x) 0) as [E|E]; rewrite He, Hsb, ?E.
    - replace (mantissa x + 0 <? 2 ^ 52) with true by lia. done.
    - replace (mantissa x + 2 ^ 52 <? 2 ^ 52) with false by lia. rewrite andb_false_r. unfold wrap.
      replace (biased x - 1075 + 1075) with (biased x) by lia. apply Z.mod_small. lia. }
  rewrite Hb. unfold wrap, kPhysicalSignificandSize. rewrite Z.shiftl_mul_pow2, Z.mod_small, lor_disjoint by nia.
  rewrite (fields x) at 3 by lia. replace (x / 2 ^ 63) with 0 by (symmetry; apply Z.div_small; lia). lia.
Qed.

Lemma DiyFp_roundtrip_witness :
  DiyFpToUint64 (AsDiyFp 0x0000000000000123) = 0x123 /\ DiyFpToUint64 (AsDiyFp 0x4024000000000000) = 0x4024000000000000.
Proof. split; apply DiyFp_roundtrip; first [lia|reflexivity]. Defined.

(** ** Order *)

(** The magnitude of the double with bits [b], below the sign bit. *)
Definition magnitude (b : Z) : Z :=
  (mantissa b + (if biased b =? 0 then 0 else 2 ^ 52)) * 2 ^ ((if biased b =? 0 then 1 else biased b) - 1).

Lemma scaled_magnitude x : scaled x = Sign x * magnitude x.
Proof.
  unfold scaled, magnitude. rewrite Exponent_biased, Significand_biased, <- Z.mul_assoc. do 3 f_equal.
  unfold kDenormalExponent. lia.
Qed.

Lemma magnitude_nonneg b : 0 <= magnitude b.
Proof.
  unfold magnitude. pose proof (mantissa_bounds b). pose proof (biased_bounds b).
  apply Z.mul_nonneg_nonneg; [destruct (biased b =? 0); lia|]. apply Z.pow_nonneg. lia.
Qed.

Lemma magnitude_lt b c : 0 <= b < 2 ^ 63 -> 0 <= c < 2 ^ 63 -> b < c -> magnitude b < magnitude c.
Proof.
  intros Hb Hc Hlt. pose proof (fields b ltac:(lia)) as Eb. pose proof (fields c ltac:(lia)) as Ec.
  rewrite (Z.div_small b) in Eb by lia. rewrite (Z.div_small c) in Ec by lia.
  pose proof (mantissa_bounds b). pose proof (mantissa_bounds c). pose proof (biased_bounds b). pose proof (biased_bounds c).
  unfold magnitude. assert (biased b = biased c /\ mantissa b < mantissa c \/ biased b < biased c) as [[-> Hm]|Hl] by lia.
  - apply Z.mul_lt_mono_pos_r; [apply pow2_log2_bounds; destruct (Z.eqb_spec (biased c) 0); lia|lia].
  - destruct (Z.eqb_spec (biased c) 0) as [|_]; [lia|].
    assert (2 ^ 52 * 2 ^ (biased c - 1) <= (mantissa c + 2 ^ 52) * 2 ^ (biased c - 1)) as Hcl.
    { apply Z.mul_le_mono_nonneg_r; [apply Z.pow_nonneg|]; lia. }
    destruct (Z.eqb_spec (biased b) 0) as [_|Hnb].
    + assert (1 <= 2 ^ (biased c - 1)) by (pose proof (pow2_log2_bounds (biased c - 1) ltac:(lia)); lia).
      replace (2 ^ (1 - 1)) with 1 by done. nia.
    + assert ((mantissa b + 2 ^ 52) * 2 ^ (biased b - 1) < 2 ^ 53 * 2 ^ (biased b - 1)).
      { apply Z.mul_lt_mono_pos_r; [apply pow2_log2_bounds; lia|lia]. }
      assert (2 ^ 53 * 2 ^ (biased b - 1) = 2 ^ 52 * 2 ^ (biased b)).
      { rewrite <- !Z.pow_add_r by lia. f_equal. lia. }
      assert (2 ^ biased b <= 2 ^ (biased c - 1)) by (apply Z.pow_le_mono_r; lia). nia.
Qed.

Lemma Sign_bits x : 0 <= x < 2 ^ 64 -> Sign x = if x <? 2 ^ 63 then 1 else -1.
Proof.
  intros Hx. unfold Sign. rewrite land_sign by done. destruct (Z.ltb_spec x (2 ^ 63)).
  - by rewrite Z.div_small by lia.
  - assert (1 <= x / 2 ^ 63) by (apply Z.div_le_lower_bound; lia).
    destruct (Z.eqb_spec (x / 2 ^ 63 * 2 ^ 63) 0); [lia|done].
Qed.

(** The sign bit does not change the other fields. *)
Lemma magnitude_signed b : magnitude (2 ^ 63 + b) = magnitude b.
Proof.
  assert (biased (2 ^ 63 + b) = biased b /\ mantissa (2 ^ 63 + b) = mantissa b) as [Hbi Hma].
  { unfold biased, mantissa. change (2 ^ 63) with (2 ^ 11 * 2 ^ 52). split.
    - rewrite Z.div_add_l by lia. by rewrite <- Z.add_mod_idemp_l, Z.mod_same.
    - by rewrite Z.add_comm, Z.mod_add. }
  unfold magnitude. by rewrite Hbi, Hma.
Qed.

Lemma scaled_positive b : 0 <= b < 2 ^ 63 -> scaled b = magnitude b.
Proof. intros Hb. rewrite scaled_magnitude, Sign_bits by lia. replace (b <? 2 ^ 63) with true by lia. lia. Qed.

Lemma scaled_negative b : 0 <= b < 2 ^ 63 -> scaled (2 ^ 63 + b) = - magnitude b.
Proof.
  intros Hb. rewrite scaled_magnitude, Sign_bits, magnitude_signed by lia.
  replace (2 ^ 63 + b <? 2 ^ 63) with false by lia. lia.
Qed.

Lemma Sign_ltb x : 0 <= x < 2 ^ 64 -> (Sign x <? 0) = (2 ^ 63 <=? x).
Proof.
  intros Hx. rewrite Sign_bits by done. destruct (Z.ltb_spec x (2 ^ 63)); symmetry; [apply Z.leb_gt|apply Z.leb_le]; done.
Qed.

Lemma magnitude_zero_bits b : 0 <= b < 2 ^ 63 -> magnitude b = 0 -> b = 0.
Proof.
  intros Hb Hm. destruct (Z.eq_dec b 0) as [|Hne]; [done|].
  pose proof (magnitude_lt 0 b ltac:(lia) Hb ltac:(lia)). assert (magnitude 0 = 0) by done. lia.
Qed.

Lemma Significand_negative_zero b : 0 <= b < 2 ^ 63 -> (Significand (2 ^ 63 + b) =? 0) = (b =? 0).
Proof.
  intros Hb. destruct (Z.eqb_spec b 0) as [->|Hne]; [done|]. apply Z.eqb_neq. intros Hs. apply Hne.
  apply magnitude_zero_bits; [done|]. pose proof (scaled_negative b Hb) as Hsc. unfold scaled in Hsc. rewrite Hs in Hsc. lia.
Qed.

(** [NextDouble] of a finite double other than -0 is the least greater one, counting
    +infinity as the value after the largest; from -0 it goes to +0. *)
Theorem NextDouble_least x :
  0 <= x < 2 ^ 64 -> isfinite x = true ->
  (x = 2 ^ 63 -> NextDouble x = 0) /\
  (x <> 2 ^ 63 ->
    scaled x < scaled (NextDouble x) /\
    forall y, 0 <= y < 2 ^ 64 -> scaled x < scaled y -> scaled (NextDouble x) <= scaled y).
Proof.
  intros Hx Hf. split; [by intros ->|]. intros Hne. unfold NextDouble.
  assert ((x =? kInfinity) = false) as -> by (destruct (Z.eqb_spec x kInfinity) as [->|]; done).
  rewrite Sign_ltb by done. destruct (Z.leb_spec (2 ^ 63) x) as [Hneg|Hpos].
  - assert (exists b, x = 2 ^ 63 + b /\ 0 < b < 2 ^ 63) as (b & -> & Hb) by (exists (x - 2 ^ 63); lia).
    rewrite Significand_negative_zero by lia. replace (b =? 0) with false by lia. simpl andb. cbv iota.
    unfold wrap. rewrite Z.mod_small by lia. replace (2 ^ 63 + b - 1) with (2 ^ 63 + (b - 1)) by lia.
    rewrite !scaled_negative by lia. split; [pose proof (magnitude_lt (b - 1) b); lia|].
    intros y Hy. destruct (Z.le_gt_cases (2 ^ 63) y).
    + replace y with (2 ^ 63 + (y - 2 ^ 63)) by lia. rewrite scaled_negative by lia. intros Hlt.
      destruct (Z.eq_dec (y - 2 ^ 63) (b - 1)) as [->|]; [lia|].
      destruct (Z.lt_trichotomy (y - 2 ^ 63) (b - 1)) as [?|[?|?]]; [|lia|].
      * pose proof (magnitude_lt (y - 2 ^ 63) (b - 1)). lia.
      * destruct (Z.eq_dec (y - 2 ^ 63) b) as [E|]; [rewrite E in Hlt; lia|].
        pose proof (magnitude_lt b (y - 2 ^ 63)). lia.
    + rewrite scaled_positive by lia. pose proof (magnitude_nonneg y). pose proof (magnitude_nonneg (b - 1)). lia.
  - simpl andb. cbv iota. unfold wrap. rewrite Z.mod_small by lia.
    assert (x < kInfinity) as Hinf.
    { unfold isfinite in Hf. rewrite IsSpecial_biased in Hf. apply negb_true_iff, Z.eqb_neq in Hf.
      pose proof (fields x Hx) as Ex. rewrite Z.div_small in Ex by lia.
      pose proof (biased_bounds x). pose proof (mantissa_bounds x). change kInfinity with (2047 * 2 ^ 52). lia. }
    change kInfinity with (2047 * 2 ^ 52) in Hinf.
    rewrite !scaled_positive by lia. split; [apply magnitude_lt; lia|].
    intros y Hy. destruct (Z.le_gt_cases (2 ^ 63) y).
    + replace y with (2 ^ 63 + (y - 2 ^ 63)) by lia. rewrite scaled_negative by lia.
      pose proof (magnitude_nonneg x). pose proof (magnitude_nonneg (y - 2 ^ 63)). lia.
    + rewrite scaled_positive by lia. intros Hlt. destruct (Z.lt_trichotomy y (x + 1)) as [?|[->|?]]; [|lia|].
      * destruct (Z.eq_dec y x) as [->|]; [lia|]. pose proof (magnitude_lt y x). lia.
      * pose proof (magnitude_lt (x + 1) y). lia.
Qed.

Lemma NextDouble_least_witness :
  NextDouble 0x3FF0000000000000 = 0x3FF0000000000001 /\
  scaled 0x3FF0000000000000 < scaled (NextDouble 0x3FF0000000000000).
Proof.
  split; [reflexivity|].
  refine (proj1 (proj2 (NextDouble_least 0x3FF0000000000000 _ _) _)); [lia|reflexivity|lia].
Defined.
