(* ===== verification/Interfaces.v ===== *)
(** What the components of the program promise to each other.

    [WSDeque] is the contract of a work-stealing deque, the interface against
    which the thread pool is proved; Deque.v discharges it with the Chase-Lev
    implementation. *)
From S2P Require Import Prelude.

(** A deque [D] of items [T]: the owner pushes and pops at the back of the list
    it represents, thieves steal from the front. *)
Class WSDeque (T D : Type) := {
  dq_new : D;
  dq_push : T -> D -> D;
  dq_pop : D -> option T * D;
  dq_steal : D -> option T * D;
  dq_is_empty : D -> bool;
  dq_rep : D -> list T -> Prop;
}.

Class WSDequeLaws (T D : Type) `{WSDeque T D} : Prop := {
  dq_new_rep : dq_rep dq_new [];
  dq_push_rep d l x : dq_rep d l -> dq_rep (dq_push x d) (l ++ [x]);
  dq_pop_rep_empty d : dq_rep d [] -> exists d', dq_pop d = (None, d') /\ dq_rep d' [];
  dq_pop_rep d l x : dq_rep d (l ++ [x]) -> exists d', dq_pop d = (Some x, d') /\ dq_rep d' l;
  dq_steal_rep_empty d : dq_rep d [] -> exists d', dq_steal d = (None, d') /\ dq_rep d' [];
  dq_steal_rep d l x : dq_rep d (x :: l) -> exists d', dq_steal d = (Some x, d') /\ dq_rep d' l;
  dq_is_empty_rep d l : dq_rep d l -> dq_is_empty d = bool_decide (l = []);
}.
