(* ===== verification/Deque.v ===== *)
(** The Chase-Lev work-stealing deque of src/src/threading/work-stealing-deque.h.

    Section [deque] holds the circular array ([Array]), the deque object
    ([deque]) and its operations run without interference ([Push], [Pop],
    [Steal], [MaybeShrink], [Resize], [Size], [IsEmpty]), which agree with a list and
    implement the interface [WSDeque]; DequeConcurrent.v has the same operations one
    access to a shared variable at a time. *)
From S2P Require Import Prelude Interfaces.

Section deque.
Context {T : Type}.

(** ** struct Array

    [buffer_] is an array of atomics; an element that was never stored is
    [None]. Array objects live in a heap and are referred to by index, because
    thieves keep pointers to arrays that the owner has replaced. *)
Record Array := mkArray { cap_ : Z; mask_ : Z; buffer_ : list (option T) }.

Definition new_Array (cap : Z) : Array :=
  mkArray cap (cap - 1) (replicate (Z.to_nat cap) None).

Definition capacity (a : Array) : Z := cap_ a.

Definition Get (a : Array) (index : Z) : option T :=
  mjoin (buffer_ a !! Z.to_nat (Z.land index (mask_ a))).

Definition Set_ (a : Array) (index : Z) (val : option T) : Array :=
  mkArray (cap_ a) (mask_ a)
    (<[Z.to_nat (Z.land index (mask_ a)) := val]> (buffer_ a)).

(** The copy loop [for (i = t; i < b; ++i) new_arr->Set(i, old->Get(i))], as
    [n] iterations from [i]. *)
Fixpoint copy_loop (n : nat) (i : Z) (old new_arr : Array) : Array :=
  match n with
  | O => new_arr
  | S n => copy_loop n (i + 1) old (Set_ new_arr i (Get old i))
  end.

Definition copy_range (t b : Z) (old new_arr : Array) : Array :=
  copy_loop (Z.to_nat (b - t)) t old new_arr.

(** ** The deque object *)
Record deque := mkDeque {
  top_ : Z;
  bottom_ : Z;
  active_array_ : nat;
  obsolete_arrays_ : list nat;
  heap : list Array;
}.

Definition arr (d : deque) (a : nat) : Array := default (new_Array 1) (heap d !! a).
Definition active (d : deque) : Array := arr d (active_array_ d).

(** [while (cap < initial_capacity) cap <<= 1]; 64 iterations exhaust size_t. *)
Fixpoint round_up (fuel : nat) (cap initial_capacity : Z) : Z :=
  match fuel with
  | O => cap
  | S fuel => if cap <? initial_capacity
              then round_up fuel (Z.shiftl cap 1) initial_capacity else cap
  end.

Definition WorkStealingDeque (initial_capacity : Z) : deque :=
  mkDeque 0 0 0 [] [new_Array (round_up 64 1 initial_capacity)].

(** [active_array_.store(new_arr); obsolete_arrays_.push_back(old)] *)
Definition publish (d : deque) (new_arr : Array) : deque :=
  mkDeque (top_ d) (bottom_ d) (length (heap d))
    (obsolete_arrays_ d ++ [active_array_ d]) (heap d ++ [new_arr]).

Definition set_top (d : deque) (t : Z) : deque :=
  mkDeque t (bottom_ d) (active_array_ d) (obsolete_arrays_ d) (heap d).
Definition set_bottom (d : deque) (b : Z) : deque :=
  mkDeque (top_ d) b (active_array_ d) (obsolete_arrays_ d) (heap d).
Definition set_elem (d : deque) (a : nat) (i : Z) (v : option T) : deque :=
  mkDeque (top_ d) (bottom_ d) (active_array_ d) (obsolete_arrays_ d)
    (alter (fun x => Set_ x i v) a (heap d)).

Definition Resize (b t : Z) (old_arr : nat) (d : deque) : deque :=
  let new_cap := capacity (arr d old_arr) * 2 in
  publish d (copy_range t b (arr d old_arr) (new_Array new_cap)).

Definition Push (item : T) (d : deque) : deque :=
  let b := bottom_ d in
  let t := top_ d in
  let a := active_array_ d in
  let d := if b - t >? capacity (arr d a) - 1 then Resize b t a d else d in
  let a := active_array_ d in
  set_bottom (set_elem d a b (Some item)) (b + 1).

(** [MaybeShrink] after its loads of [bottom_] and [top_]. *)
Definition shrink_with (b t : Z) (d : deque) : deque :=
  let a := active_array_ d in
  let current_size := if b >? t then b - t else 0 in
  if (capacity (arr d a) >? 64) && (current_size <? capacity (arr d a) / 4) then
    let new_cap := Z.max 64 (capacity (arr d a) / 2) in
    publish d (copy_range t b (arr d a) (new_Array new_cap))
  else d.

Definition MaybeShrink (d : deque) : deque := shrink_with (bottom_ d) (top_ d) d.

(** [compare_exchange_strong(t, t + 1)] on [top_]. *)
Definition cas_top (t : Z) (d : deque) : bool * deque :=
  if decide (top_ d = t) then (true, set_top d (t + 1)) else (false, d).

Definition Pop (d : deque) : option T * deque :=
  let b := bottom_ d - 1 in
  let a := active_array_ d in
  let d := set_bottom d b in
  let t := top_ d in
  if t <=? b then
    let val := Get (arr d a) b in
    if t =? b then
      match cas_top t d with
      | (false, d) => (None, set_bottom d (b + 1))
      | (true, d) => (val, MaybeShrink (set_bottom d (b + 1)))
      end
    else (val, MaybeShrink d)
  else (None, MaybeShrink (set_bottom d (b + 1))).

Definition Steal (d : deque) : option T * deque :=
  let t := top_ d in
  let b := bottom_ d in
  if t <? b then
    let val := Get (arr d (active_array_ d)) t in
    let '(_, d) := cas_top t d in (val, d)
  else (None, d).

Definition Size (d : deque) : Z :=
  let b := bottom_ d in
  let t := top_ d in
  if b >? t then b - t else 0.

Definition IsEmpty (d : deque) : bool := Size d =? 0.

(** ** Circular arrays *)

Definition wf_array (a : Array) : Prop :=
  exists k, 0 <= k /\ cap_ a = 2 ^ k /\ mask_ a = cap_ a - 1 /\
            length (buffer_ a) = Z.to_nat (cap_ a).

Lemma wf_new_Array k : 0 <= k -> wf_array (new_Array (2 ^ k)).
Proof. intros. exists k. split_all; simpl; auto using length_replicate. Qed.

Lemma wf_cap a : wf_array a -> 0 < cap_ a.
Proof. intros (k & ? & -> & _). auto with v8. Qed.

Lemma wf_Set a i v : wf_array a -> wf_array (Set_ a i v).
Proof. intros (k & ? & ? & ? & ?). exists k. simpl. by rewrite length_insert. Qed.

Lemma wf_index a i : wf_array a -> Z.land i (mask_ a) = i mod cap_ a.
Proof. intros (k & ? & Hc & -> & ?). rewrite Hc. by apply land_pow2_mask. Qed.

Lemma Get_Set a i j v :
  wf_array a ->
  Get (Set_ a i v) j = if decide (i mod cap_ a = j mod cap_ a) then v else Get a j.
Proof.
  intros Hwf. unfold Get. simpl. rewrite !wf_index by done.
  pose proof (wf_cap _ Hwf) as Hc.
  pose proof (Z.mod_pos_bound i (cap_ a) Hc). pose proof (Z.mod_pos_bound j (cap_ a) Hc).
  destruct Hwf as (k & ? & ? & ? & Hl). case_decide as He.
  - rewrite He, list_lookup_insert_eq by lia. done.
  - by rewrite list_lookup_insert_ne by lia.
Qed.

Lemma Get_Set_eq a i v : wf_array a -> Get (Set_ a i v) i = v.
Proof. intros. rewrite Get_Set by done. by case_decide. Qed.

Lemma Get_Set_ne a i j v :
  wf_array a -> i <> j -> Z.abs (i - j) < cap_ a -> Get (Set_ a i v) j = Get a j.
Proof.
  intros Hwf Hne Hd. rewrite Get_Set by done. case_decide as He; [|done].
  destruct Hne. eapply mod_near_inj; eauto using wf_cap.
Qed.

Lemma wf_copy_loop n i old new_arr :
  wf_array new_arr ->
  wf_array (copy_loop n i old new_arr) /\
  cap_ (copy_loop n i old new_arr) = cap_ new_arr.
Proof.
  revert i new_arr. induction n as [|n IH]; intros i na Hwf; simpl; [done|].
  destruct (IH (i + 1) (Set_ na i (Get old i))) as [? ?]; auto using wf_Set.
Qed.

Lemma copy_loop_Get n i old new_arr j :
  wf_array new_arr -> Z.of_nat n <= cap_ new_arr ->
  (i <= j < i + Z.of_nat n -> Get (copy_loop n i old new_arr) j = Get old j) /\
  (i - cap_ new_arr + Z.of_nat n <= j < i -> Get (copy_loop n i old new_arr) j = Get new_arr j).
Proof.
  revert i new_arr. induction n as [|n IH]; intros i na Hwf Hn; simpl; [split; [lia|done]|].
  destruct (IH (i + 1) (Set_ na i (Get old i))) as [IH1 IH2]; [by apply wf_Set | simpl; lia |].
  split; intros Hj.
  - destruct (decide (i = j)) as [<-|]; [|apply IH1; lia].
    rewrite IH2 by (simpl; lia). by apply Get_Set_eq.
  - rewrite IH2 by (simpl; lia). apply Get_Set_ne; [done|lia|lia].
Qed.

(** Copying a range no longer than the new array preserves every element. *)
Lemma copy_range_Get t b old k j :
  0 <= k -> b - t <= 2 ^ k -> t <= j < b ->
  Get (copy_range t b old (new_Array (2 ^ k))) j = Get old j.
Proof.
  intros Hk Hb Hj. unfold copy_range. apply copy_loop_Get; [by apply wf_new_Array| |]; simpl; lia.
Qed.

Lemma wf_copy_range t b old k :
  0 <= k -> wf_array (copy_range t b old (new_Array (2 ^ k))) /\
  cap_ (copy_range t b old (new_Array (2 ^ k))) = 2 ^ k.
Proof.
  intros Hk. by apply (wf_copy_loop _ _ _ (new_Array (2 ^ k))), wf_new_Array.
Qed.
(** ** Representation of a list

    [models d E l]: the live indices of [d] are [top_ d .. E - 1] and the active
    array holds [l] there. [E] is [bottom_ d], except in the middle of a [Pop]. *)

Record wf (d : deque) : Prop := {
  wf_arrays : Forall wf_array (heap d);
  wf_active : (active_array_ d < length (heap d))%nat;
}.

Record models (d : deque) (E : Z) (l : list T) : Prop := {
  models_wf :> wf d;
  models_len : top_ d + Z.of_nat (length l) = E;
  models_cap : E - top_ d <= cap_ (active d);
  models_get : forall j x, l !! j = Some x -> Get (active d) (top_ d + Z.of_nat j) = Some x;
}.

Definition rep (d : deque) (l : list T) : Prop := models d (bottom_ d) l.

Lemma arr_wf d a : wf d -> (a < length (heap d))%nat -> wf_array (arr d a).
Proof.
  intros [Ha _] Hlt. unfold arr. destruct (lookup_lt_is_Some_2 _ _ Hlt) as [x Hx].
  rewrite Hx. eapply (Forall_lookup_1 _ _ _ _ Ha Hx).
Qed.

Lemma active_wf d : wf d -> wf_array (active d).
Proof. intros H. apply arr_wf; [done | apply H]. Qed.

Lemma arr_publish_old d na a : (a < length (heap d))%nat -> arr (publish d na) a = arr d a.
Proof. intros. unfold arr. simpl. by rewrite lookup_app_l. Qed.

Lemma active_publish d na : active (publish d na) = na.
Proof. unfold active, arr. simpl. by rewrite list_lookup_middle. Qed.

Lemma wf_publish d na : wf d -> wf_array na -> wf (publish d na).
Proof.
  intros [Ha Hl] Hn. split; simpl.
  - apply Forall_app. auto.
  - rewrite length_app. simpl. lia.
Qed.

Lemma active_set_elem d i v :
  wf d -> active (set_elem d (active_array_ d) i v) = Set_ (active d) i v.
Proof.
  intros [_ Hl]. unfold active, arr. simpl.
  destruct (lookup_lt_is_Some_2 _ _ Hl) as [x Hx].
  by rewrite list_lookup_alter_eq, Hx.
Qed.

Lemma arr_set_elem_ne d a a' i v : a <> a' -> arr (set_elem d a i v) a' = arr d a'.
Proof. intros. unfold arr. simpl. by rewrite list_lookup_alter_ne. Qed.

Lemma wf_set_elem d i v : wf d -> wf (set_elem d (active_array_ d) i v).
Proof.
  intros [Ha Hl]. split; simpl; [|by rewrite length_alter].
  apply Forall_alter; [done|]. intros. by apply wf_Set.
Qed.

Lemma models_set_bottom d E l b : models (set_bottom d b) E l <-> models d E l.
Proof. split; intros [[? ?] ? ? ?]; by repeat split. Qed.

(** Storing at the first free index changes nothing logically... *)
Lemma models_set_elem d E l v :
  models d E l -> E - top_ d < cap_ (active d) ->
  models (set_elem d (active_array_ d) E v) E l.
Proof.
  intros Hm Hc. pose proof (active_set_elem d E v Hm) as Ha.
  destruct Hm as [Hwf Hl Hcap Hg]. split; simpl; try done.
  - by apply wf_set_elem.
  - rewrite Ha. simpl. lia.
  - intros j x Hj. rewrite Ha. pose proof (lookup_lt_Some _ _ _ Hj).
    rewrite Get_Set_ne; auto using active_wf; lia.
Qed.

(** ... and advancing the end appends it. *)
Lemma models_extend d E l x :
  models d E l -> E - top_ d < cap_ (active d) -> Get (active d) E = Some x ->
  models d (E + 1) (l ++ [x]).
Proof.
  intros [Hwf Hl Hcap Hg] Hc Hx. split; try done.
  - rewrite length_app. simpl. lia.
  - lia.
  - intros j y Hj. apply lookup_app_Some in Hj as [Hj|[? Hj]]; [by apply Hg|].
    apply list_lookup_singleton_Some in Hj as [Hj <-]. rewrite <- Hx. f_equal. lia.
Qed.

Lemma models_pop_back d E l x : models d (E + 1) (l ++ [x]) -> models d E l.
Proof.
  intros [Hwf Hl Hcap Hg]. rewrite length_app in Hl. simpl in Hl. split; try done; try lia.
  intros j y Hj. apply Hg. by apply lookup_app_l_Some.
Qed.

Lemma models_last d E l x : models d (E + 1) (l ++ [x]) -> Get (active d) E = Some x.
Proof.
  intros [Hwf Hl Hcap Hg]. rewrite length_app in Hl. simpl in Hl.
  rewrite <- (Hg (length l) x) by (by rewrite list_lookup_middle). f_equal. lia.
Qed.

Lemma models_pop_front d E x l : models d E (x :: l) -> models (set_top d (top_ d + 1)) E l.
Proof.
  intros [Hwf Hl Hcap Hg]. simpl in Hl. split; simpl; [by destruct Hwf|lia| |].
  - unfold active, arr in *. simpl. lia.
  - intros j y Hj. rewrite <- (Hg (S j) y Hj). unfold active, arr. simpl. f_equal. lia.
Qed.

Lemma models_head d E x l : models d E (x :: l) -> Get (active d) (top_ d) = Some x.
Proof. intros [_ _ _ Hg]. rewrite <- (Hg 0%nat x eq_refl). f_equal. lia. Qed.

(** Publishing a copy of a range that covers the live indices. *)
Lemma models_publish d b l t k :
  0 <= k -> models d b l -> t <= top_ d -> b - t <= 2 ^ k ->
  models (publish d (copy_range t b (active d) (new_Array (2 ^ k)))) b l.
Proof.
  intros Hk [Hwf Hl Hcap Hg] Ht Hb.
  destruct (wf_copy_range t b (active d) k Hk) as [Hw Hc].
  split; simpl; rewrite ?active_publish, ?Hc; try done; try lia.
  - by apply wf_publish.
  - intros j x Hj. pose proof (lookup_lt_Some _ _ _ Hj).
    rewrite copy_range_Get; auto; lia.
Qed.

Lemma models_shrink d b l t :
  models d b l -> t <= top_ d -> models (shrink_with b t d) b l.
Proof.
  intros Hm Ht. unfold shrink_with, capacity.
  fold (active d). destruct (active_wf d Hm) as (k & Hk & Hc & _). rewrite Hc.
  destruct (2 ^ k >? 64) eqn:E1; simpl; [|done].
  assert (H64 : 6 < k) by (apply (Z.pow_lt_mono_r_iff 2); lia).
  assert (Hhalf : 2 ^ k = 2 * 2 ^ (k - 1)).
  { rewrite <- Z.pow_succ_r by lia. f_equal. lia. }
  destruct (_ <? 2 ^ k / 4) eqn:E2; [|done].
  rewrite Hhalf, Z.mul_comm, Z.div_mul by lia.
  assert (64 <= 2 ^ (k - 1)) by (change 64 with (2 ^ 6); apply Z.pow_le_mono_r; lia).
  rewrite Z.max_r by lia. apply models_publish; try done; try lia.
  pose proof (models_len _ _ _ Hm).
  assert (2 ^ k / 4 <= 2 ^ (k - 1)) by (apply Z.div_le_upper_bound; lia).
  destruct (Z.gtb_spec b t); lia.
Qed.

Lemma models_resize d b l t :
  models d b l -> t <= top_ d -> b - t <= cap_ (active d) ->
  models (Resize b t (active_array_ d) d) b l /\
  cap_ (active (Resize b t (active_array_ d) d)) = 2 * cap_ (active d).
Proof.
  intros Hm Ht Hb. unfold Resize, capacity. fold (active d).
  destruct (active_wf d Hm) as (k & Hk & Hc & _). rewrite Hc in *.
  rewrite Z.mul_comm, <- Z.pow_succ_r by done. rewrite active_publish. split.
  - apply models_publish; try done; try lia. rewrite Z.pow_succ_r; lia.
  - by apply wf_copy_range; lia.
Qed.

(** ** The operations without interference *)

Lemma round_up_pow2 fuel cap c :
  (exists k, 0 <= k /\ cap = 2 ^ k) -> exists k, 0 <= k /\ round_up fuel cap c = 2 ^ k.
Proof.
  revert cap. induction fuel as [|fuel IH]; intros cap (k & Hk & ->); simpl; [eauto|].
  case_match; [|eauto]. apply IH. exists (k + 1). split; [lia|].
  rewrite Z.shiftl_mul_pow2, <- Z.pow_add_r by lia. done.
Qed.

Lemma rep_new c : rep (WorkStealingDeque c) [].
Proof.
  unfold WorkStealingDeque. destruct (round_up_pow2 64 1 c) as (k & Hk & ->).
  { by exists 0. }
  repeat split; simpl; try lia; try done.
  repeat constructor. by apply wf_new_Array.
Qed.

Lemma rep_push d l x : rep d l -> rep (Push x d) (l ++ [x]).
Proof.
  unfold rep, Push, capacity. intros Hm. fold (active d).
  set (d' := if _ >? _ then _ else d).
  assert (models d' (bottom_ d) l /\ bottom_ d - top_ d' < cap_ (active d')) as [Hm' Hc].
  { unfold d'. destruct (Z.gtb_spec (bottom_ d - top_ d) (cap_ (active d) - 1)).
    - pose proof (models_cap _ _ _ Hm). pose proof (wf_cap _ (active_wf d Hm)).
      destruct (models_resize d (bottom_ d) l (top_ d)) as [? Hcap]; try done.
      split; [done|]. rewrite Hcap. simpl. lia.
    - split; [done | lia]. }
  simpl. rewrite models_set_bottom.
  apply models_extend; [by apply models_set_elem| |].
  - rewrite active_set_elem by apply Hm'. simpl. lia.
  - rewrite active_set_elem by apply Hm'. by apply Get_Set_eq, active_wf, Hm'.
Qed.

Lemma rep_shrink d l : rep d l -> rep (MaybeShrink d) l.
Proof.
  intros Hm. unfold MaybeShrink, rep.
  replace (bottom_ (shrink_with _ _ _)) with (bottom_ d).
  - by apply models_shrink.
  - unfold shrink_with. by case_match.
Qed.

Lemma rep_pop_empty d : rep d [] -> exists d', Pop d = (None, d') /\ rep d' [].
Proof.
  intros Hm. pose proof (models_len _ _ _ Hm) as Hl. simpl in Hl.
  unfold Pop. simpl. destruct (Z.leb_spec (top_ d) (bottom_ d - 1)); [lia|].
  eexists. split; [done|]. apply rep_shrink. unfold rep.
  rewrite !models_set_bottom. simpl. by rewrite Z.sub_add.
Qed.

Lemma rep_pop d l x : rep d (l ++ [x]) -> exists d', Pop d = (Some x, d') /\ rep d' l.
Proof.
  unfold rep. intros Hm. pose proof (models_len _ _ _ Hm) as Hl.
  rewrite length_app in Hl. simpl in Hl.
  assert (Hm' : models d ((bottom_ d - 1) + 1) (l ++ [x])) by (by rewrite Z.sub_add).
  pose proof (models_last _ _ _ _ Hm') as Hx. pose proof (models_pop_back _ _ _ _ Hm') as Hb.
  unfold Pop, cas_top. simpl. change (arr (set_bottom _ _) _) with (active d). rewrite Hx.
  destruct (Z.leb_spec (top_ d) (bottom_ d - 1)); [|lia].
  destruct (Z.eqb_spec (top_ d) (bottom_ d - 1)) as [Ht|Ht]; simpl.
  - rewrite decide_True by done. eexists. split; [done|]. apply rep_shrink. unfold rep.
    destruct l as [|y l]; [|simpl in Hl; lia]. simpl in *.
    rewrite !models_set_bottom. simpl.
    change (set_top (set_bottom d (bottom_ d - 1)) (top_ d + 1))
      with (set_bottom (set_top d (top_ d + 1)) (bottom_ d - 1)).
    rewrite models_set_bottom. rewrite Z.sub_add. by apply (models_pop_front _ _ x).
  - eexists. split; [done|]. apply rep_shrink. unfold rep. by rewrite models_set_bottom.
Qed.

Lemma rep_steal_empty d : rep d [] -> Steal d = (None, d).
Proof.
  intros Hm. pose proof (models_len _ _ _ Hm) as Hl. simpl in Hl.
  unfold Steal. destruct (Z.ltb_spec (top_ d) (bottom_ d)); [lia | done].
Qed.

Lemma rep_steal d l x : rep d (x :: l) -> exists d', Steal d = (Some x, d') /\ rep d' l.
Proof.
  intros Hm. pose proof (models_len _ _ _ Hm) as Hl. simpl in Hl.
  unfold Steal, cas_top. fold (active d). rewrite (models_head _ _ _ _ Hm).
  destruct (Z.ltb_spec (top_ d) (bottom_ d)); [|lia].
  rewrite decide_True by done. eexists. split; [done|]. by apply (models_pop_front _ _ x).
Qed.

Lemma rep_is_empty d l : rep d l -> IsEmpty d = bool_decide (l = []).
Proof.
  intros Hm. pose proof (models_len _ _ _ Hm) as Hl. unfold IsEmpty, Size.
  destruct l as [|x l]; simpl in Hl.
  - destruct (Z.gtb_spec (bottom_ d) (top_ d)); [lia | done].
  - destruct (Z.gtb_spec (bottom_ d) (top_ d)); [|lia].
    destruct (Z.eqb_spec (bottom_ d - top_ d) 0); [lia|]. by rewrite bool_decide_false.
Qed.

Lemma rep_size d l : rep d l -> Size d = Z.of_nat (length l).
Proof.
  intros Hm. pose proof (models_len _ _ _ Hm) as Hl. unfold Size.
  destruct (Z.gtb_spec (bottom_ d) (top_ d)); lia.
Qed.
(** ** Whole histories of operations *)

Inductive op := OpPush (x : T) | OpPop | OpSteal.

Definition apply_op (d : deque) (o : op) : option T * deque :=
  match o with
  | OpPush x => (None, Push x d)
  | OpPop => Pop d
  | OpSteal => Steal d
  end.

Definition list_op (l : list T) (o : op) : option T * list T :=
  match o with
  | OpPush x => (None, l ++ [x])
  | OpPop => (last l, take (pred (length l)) l)
  | OpSteal => (head l, tail l)
  end.

Fixpoint results {D} (f : D -> op -> option T * D) (d : D) (ops : list op) : list (option T) :=
  match ops with
  | [] => []
  | o :: ops => let '(r, d) := f d o in r :: results f d ops
  end.

Lemma apply_op_rep d l o :
  rep d l -> exists d', apply_op d o = (fst (list_op l o), d') /\ rep d' (snd (list_op l o)).
Proof.
  intros Hr. destruct o as [x| |]; simpl.
  - eauto using rep_push.
  - destruct l as [|x l _] using rev_ind; [by apply rep_pop_empty|].
    rewrite last_snoc, length_app, Nat.add_comm. simpl. rewrite take_app_length.
    by apply rep_pop.
  - destruct l as [|x l]; [|by apply rep_steal].
    exists d. by rewrite rep_steal_empty.
Qed.

Lemma results_rep ops d l : rep d l -> results apply_op d ops = results list_op l ops.
Proof.
  revert d l. induction ops as [|o ops IH]; simpl; intros d l Hr; [done|].
  destruct (apply_op_rep d l o Hr) as (d' & -> & Hr'). destruct (list_op l o). f_equal; auto.
Qed.

(** Whatever the initial capacity, every history of [Push], [Pop] and [Steal]
    calls returns exactly what a list returns, the owner working at its back and
    thieves taking from its front, through every growth and shrinking of the
    circular array and every reuse of its slots. *)
Theorem deque_ops_refine_list initial_capacity ops :
  results apply_op (WorkStealingDeque initial_capacity) ops = results list_op [] ops.
Proof. apply results_rep, rep_new. Qed.
End deque.

Arguments deque : clear implicits.
Arguments Array : clear implicits.
#[export] Hint Resolve rep_new rep_push rep_shrink : v8.

(** The deque discharges the contract the thread pool relies on. *)
#[export] Instance ChaseLev (T : Type) : WSDeque T (deque T) := {|
  dq_new := WorkStealingDeque 64;
  dq_push := Push; dq_pop := Pop; dq_steal := Steal; dq_is_empty := IsEmpty; dq_rep := rep;
|}.

#[export] Instance ChaseLev_laws (T : Type) : WSDequeLaws T (deque T).
Proof.
  split; simpl.
  - apply rep_new.
  - intros. by apply rep_push.
  - apply rep_pop_empty.
  - apply rep_pop.
  - intros d H. exists d. by rewrite rep_steal_empty.
  - apply rep_steal.
  - apply rep_is_empty.
Qed.
