(* ===== verification/DequeConcurrent.v ===== *)
(** Concurrent semantics of the work-stealing deque of
    src/src/threading/work-stealing-deque.h: one owner and any number of thieves.

    Every access to a variable another thread may write is one step ([top_] for
    the owner; [top_], [bottom_], [active_array_] and the buffers for a thief);
    the owner's reads of variables only it writes are folded into the next step.
    Executions are interleavings of these steps (the sequentially consistent
    order the fences of the code ask for). The theorem is a linearizability
    statement against [spec_step], a deque of values. *)
From S2P Require Import Prelude Interfaces Deque.

Section concurrent.
Context {T : Type}.

(** ** Program counters *)

(** Where the owner is in [Push], [Pop] and [MaybeShrink]. *)
Inductive owner_pc :=
| OIdle
| OPush (item : T) (b t : Z)        (* b, t loaded; next: the capacity check *)
| OPushSet (item : T) (b : Z)       (* next: a->Set(b, item) *)
| OPushPub (item : T) (b : Z)       (* next: bottom_.store(b + 1) *)
| OPop (b : Z)                      (* bottom_ stored; next: load top_ *)
| OPopCas (b : Z) (val : option T)  (* one element left; next: the CAS *)
| OPopWon (b : Z) (val : option T)  (* next: bottom_.store(b + 1), MaybeShrink *)
| OPopLost (b : Z)                  (* next: bottom_.store(b + 1), return false *)
| OPopEmpty (b : Z)                 (* next: bottom_.store(b + 1), MaybeShrink *)
| OShrink (res : option T)          (* in MaybeShrink; next: load top_ *)
| OShrinkLoaded (res : option T) (t : Z). (* next: reallocate if sparse, return *)

(** Where a thief is in the loop of [Steal]. *)
Inductive thief_pc :=
| TIdle
| TStart                            (* next: load top_ *)
| TTop (t : Z)                      (* next: load bottom_ *)
| TNonEmpty (t : Z)                 (* t < b; next: load active_array_ *)
| TArray (t : Z) (a : nat)          (* next: a->Get(t) *)
| TCas (t : Z) (val : option T).    (* next: the CAS *)

Inductive event :=
| EPush (x : T)
| EPopCall
| EPop (r : option T)
| EPopRet (r : option T)
| ESteal (i : nat) (r : option T).

(** ** Steps of the code *)

Definition owner_step (m : deque T) (pc : owner_pc) : option (deque T * owner_pc * option event) :=
  match pc with
  | OIdle => None
  | OPush item b t =>
      let a := active_array_ m in
      Some (if b - t >? capacity (arr m a) - 1 then Resize b t a m else m, OPushSet item b, None)
  | OPushSet item b => Some (set_elem m (active_array_ m) b (Some item), OPushPub item b, None)
  | OPushPub item b => Some (set_bottom m (b + 1), OIdle, Some (EPush item))
  | OPop b =>
      let t := top_ m in
      if t <=? b then
        let val := Get (arr m (active_array_ m)) b in
        if t =? b then Some (m, OPopCas b val, None)
        else Some (m, OShrink val, Some (EPop val))
      else Some (m, OPopEmpty b, Some (EPop None))
  | OPopCas b val =>
      match cas_top b m with
      | (true, m) => Some (m, OPopWon b val, Some (EPop val))
      | (false, m) => Some (m, OPopLost b, Some (EPop None))
      end
  | OPopWon b val => Some (set_bottom m (b + 1), OShrink val, None)
  | OPopLost b => Some (set_bottom m (b + 1), OIdle, Some (EPopRet None))
  | OPopEmpty b => Some (set_bottom m (b + 1), OShrink None, None)
  | OShrink res => Some (m, OShrinkLoaded res (top_ m), None)
  | OShrinkLoaded res t => Some (shrink_with (bottom_ m) t m, OIdle, Some (EPopRet res))
  end.

Definition thief_step (i : nat) (m : deque T) (pc : thief_pc) :
    option (deque T * thief_pc * option event) :=
  match pc with
  | TIdle => None
  | TStart => Some (m, TTop (top_ m), None)
  | TTop t => if t <? bottom_ m then Some (m, TNonEmpty t, None)
              else Some (m, TIdle, Some (ESteal i None))
  | TNonEmpty t => Some (m, TArray t (active_array_ m), None)
  | TArray t a => Some (m, TCas t (Get (arr m a) t), None)
  | TCas t val =>
      match cas_top t m with
      | (true, m) => Some (m, TIdle, Some (ESteal i val))
      | (false, m) => Some (m, TStart, None)
      end
  end.

Record config := mkConfig { mem : deque T; owner : owner_pc; thieves : list thief_pc }.

Inductive step : config -> option event -> config -> Prop :=
| step_push m ths x :
    step (mkConfig m OIdle ths) None (mkConfig m (OPush x (bottom_ m) (top_ m)) ths)
| step_pop m ths :
    step (mkConfig m OIdle ths) (Some EPopCall)
         (mkConfig (set_bottom m (bottom_ m - 1)) (OPop (bottom_ m - 1)) ths)
| step_owner m pc ths m' pc' e :
    owner_step m pc = Some (m', pc', e) ->
    step (mkConfig m pc ths) e (mkConfig m' pc' ths)
| step_steal m pc ths i :
    ths !! i = Some TIdle ->
    step (mkConfig m pc ths) None (mkConfig m pc (<[i := TStart]> ths))
| step_thief m pc ths i tpc m' tpc' e :
    ths !! i = Some tpc -> thief_step i m tpc = Some (m', tpc', e) ->
    step (mkConfig m pc ths) e (mkConfig m' pc (<[i := tpc']> ths)).

Definition initial (capacity : Z) (n_thieves : nat) : config :=
  mkConfig (WorkStealingDeque capacity) OIdle (replicate n_thieves TIdle).

(** ** The specification: a deque of values *)

(** The owner's [Pop]: not running, called, or decided with a result to return. *)
Inductive phase := Ready | Popping | Popped (r : option T).

Definition spec := (list T * phase)%type.

Inductive spec_step : spec -> event -> spec -> Prop :=
| spec_push l x : spec_step (l, Ready) (EPush x) (l ++ [x], Ready)
| spec_pop_call l : spec_step (l, Ready) EPopCall (l, Popping)
| spec_pop l x : spec_step (l ++ [x], Popping) (EPop (Some x)) (l, Popped (Some x))
| spec_pop_empty : spec_step ([], Popping) (EPop None) ([], Popped None)
| spec_pop_ret l r : spec_step (l, Popped r) (EPopRet r) (l, Ready)
| spec_steal l ph i x : spec_step (x :: l, ph) (ESteal i (Some x)) (l, ph)
| spec_steal_empty ph i : spec_step ([], ph) (ESteal i None) ([], ph)
  (* a thief may also find nothing while the owner is popping the last item *)
| spec_steal_busy x i : spec_step ([x], Popping) (ESteal i None) ([x], Popping).

(** ** Invariant *)

(** The end of the live indices: in the middle of [Pop] [bottom_] is one less. *)
Definition mid_pop (pc : owner_pc) : bool :=
  match pc with
  | OPop _ | OPopCas _ _ | OPopWon _ _ | OPopLost _ | OPopEmpty _ => true
  | _ => false
  end.

Definition live_end (m : deque T) (pc : owner_pc) : Z :=
  bottom_ m + if mid_pop pc then 1 else 0.

Definition owner_inv (m : deque T) (pc : owner_pc) (ph : phase) : Prop :=
  match pc with
  | OIdle => ph = Ready
  | OPush _ b t => bottom_ m = b /\ t <= top_ m /\ b - t <= cap_ (active m) /\ ph = Ready
  | OPushSet _ b => bottom_ m = b /\ b - top_ m < cap_ (active m) /\ ph = Ready
  | OPushPub x b => bottom_ m = b /\ b - top_ m < cap_ (active m) /\
                    Get (active m) b = Some x /\ ph = Ready
  | OPop b => bottom_ m = b /\ ph = Popping
  | OPopCas b val => bottom_ m = b /\ b <= top_ m /\ val = Get (active m) b /\ ph = Popping
  | OPopWon b val => bottom_ m = b /\ b < top_ m /\ ph = Popped val
  | OPopLost b | OPopEmpty b => bottom_ m = b /\ b < top_ m /\ ph = Popped None
  | OShrink r => ph = Popped r
  | OShrinkLoaded r t => t <= top_ m /\ ph = Popped r
  end.

(** A thief whose CAS can still succeed holds an index that is live and reads
    there what the active array holds. *)
Definition thief_inv (m : deque T) (E : Z) (pc : thief_pc) : Prop :=
  match pc with
  | TIdle | TStart => True
  | TTop t => t <= top_ m
  | TNonEmpty t => t <= top_ m /\ (t = top_ m -> t < E)
  | TArray t a => t <= top_ m /\ (a < length (heap m))%nat /\
                  (t = top_ m -> t < E /\ Get (arr m a) t = Get (active m) t)
  | TCas t val => t <= top_ m /\ (t = top_ m -> t < E /\ val = Get (active m) t)
  end.

Record inv (c : config) (s : spec) : Prop := {
  inv_models : models (mem c) (live_end (mem c) (owner c)) (fst s);
  inv_owner : owner_inv (mem c) (owner c) (snd s);
  inv_thieves : Forall (thief_inv (mem c) (live_end (mem c) (owner c))) (thieves c);
}.

(** What a step of another thread may do to the memory a thief relies on. *)
Record evolves (m : deque T) (E : Z) (m' : deque T) (E' : Z) : Prop := {
  ev_top : top_ m <= top_ m';
  ev_heap : (length (heap m) <= length (heap m'))%nat;
  ev_live : top_ m = top_ m' -> top_ m < E ->
    top_ m < E' /\ Get (active m') (top_ m) = Get (active m) (top_ m) /\
    (forall a, (a < length (heap m))%nat -> Get (arr m a) (top_ m) = Get (active m) (top_ m) ->
               Get (arr m' a) (top_ m) = Get (active m) (top_ m));
}.

Lemma thief_inv_evolves m E m' E' pc :
  evolves m E m' E' -> thief_inv m E pc -> thief_inv m' E' pc.
Proof.
  intros [Ht Hh Hl] Hi. destruct pc as [| |t|t|t a|t val]; simpl in *; try done; try lia.
  - destruct Hi as (? & ? & Hi). split_all; [lia..|]. intros He.
    assert (t = top_ m /\ top_ m = top_ m') as [-> Heq] by lia. destruct (Hi eq_refl).
    destruct Hl as (? & Hg & Ha); [done..|]. split; [done|]. rewrite Hg. by apply Ha.
  - destruct Hi as (? & Hi). split; [lia|]. intros He.
    assert (t = top_ m /\ top_ m = top_ m') as [-> Heq] by lia. destruct (Hi eq_refl).
    destruct Hl as (? & Hg & Ha); [done..|]. split; [done|]. congruence.
Qed.

Lemma thieves_evolve m E m' E' ths :
  evolves m E m' E' -> Forall (thief_inv m E) ths -> Forall (thief_inv m' E') ths.
Proof. intros He Hf. eapply Forall_impl; [exact Hf|]. intros. by eapply thief_inv_evolves. Qed.

Lemma evolves_same m E E' : (top_ m < E -> top_ m < E') -> evolves m E m E'.
Proof. split; auto; lia. Qed.

Lemma evolves_set_bottom m E b E' : (top_ m < E -> top_ m < E') -> evolves m E (set_bottom m b) E'.
Proof. split; simpl; auto; lia. Qed.

Lemma evolves_set_top m E E' t : top_ m < t -> evolves m E (set_top m t) E'.
Proof. intros. split; simpl; auto; lia. Qed.

Lemma evolves_set_elem m E l v :
  models m E l -> E - top_ m < cap_ (active m) ->
  evolves m E (set_elem m (active_array_ m) E v) E.
Proof.
  intros Hm Hc. split; simpl; [lia | by rewrite length_alter |]. intros _ Ht.
  assert (Hg : Get (active (set_elem m (active_array_ m) E v)) (top_ m) = Get (active m) (top_ m)).
  { rewrite active_set_elem by apply Hm. apply Get_Set_ne; [by apply active_wf, Hm|lia|lia]. }
  split_all; [done..|]. intros a Ha Hga. destruct (decide (a = active_array_ m)) as [->|Hne].
  - exact Hg.
  - by rewrite arr_set_elem_ne.
Qed.

Lemma evolves_publish m E na :
  (top_ m < E -> Get na (top_ m) = Get (active m) (top_ m)) -> evolves m E (publish m na) E.
Proof.
  intros Hg. split; simpl; [lia | rewrite length_app; lia |]. intros _ Ht.
  rewrite active_publish. split_all; auto. intros a Ha ?. by rewrite arr_publish_old.
Qed.

Lemma evolves_resize m b l t :
  models m b l -> t <= top_ m -> b - t <= cap_ (active m) ->
  evolves m b (Resize b t (active_array_ m) m) b.
Proof.
  intros Hm Ht Hb. unfold Resize, capacity. fold (active m).
  destruct (active_wf m Hm) as (k & Hk & Hc & _). rewrite Hc in *.
  rewrite Z.mul_comm, <- Z.pow_succ_r by done. apply evolves_publish. intros.
  apply copy_range_Get; [lia | rewrite Z.pow_succ_r; lia | lia].
Qed.

Lemma evolves_shrink m b l t :
  models m b l -> t <= top_ m -> evolves m b (shrink_with b t m) b.
Proof.
  intros Hm Ht. unfold shrink_with, capacity. fold (active m).
  case_match eqn:E1; [|by apply evolves_same]. apply andb_prop in E1 as [E1 E2].
  destruct (active_wf m Hm) as (k & Hk & Hc & _). rewrite Hc in *.
  assert (H64 : 6 < k) by (apply (Z.pow_lt_mono_r_iff 2); lia).
  apply evolves_publish. intros Hlt.
  assert (Hhalf : 2 ^ k = 2 ^ (k - 1) * 2).
  { rewrite Z.mul_comm, <- Z.pow_succ_r by lia. f_equal. lia. }
  assert (2 ^ k / 4 <= 2 ^ (k - 1)) by (apply Z.div_le_upper_bound; lia).
  rewrite Hhalf, Z.div_mul by lia.
  assert (64 <= 2 ^ (k - 1)) by (change 64 with (2 ^ 6); apply Z.pow_le_mono_r; lia).
  rewrite Z.max_r by lia. apply copy_range_Get; [lia| |lia].
  destruct (Z.gtb_spec b t); lia.
Qed.

(** ** Preservation *)

Definition obs (e : option event) : list event := option_list e.

(** [s] can do the events [e] and end in a state that represents [c]. *)
Definition matched (s : spec) (e : option event) (c : config) : Prop :=
  exists s', run spec_step s (obs e) s' /\ inv c s'.

(** Internal steps leave the specification where it is; visible ones move it. *)
Lemma matched_silent s m pc ths E E' m0 :
  live_end m pc = E' -> models m E' (fst s) -> owner_inv m pc (snd s) ->
  evolves m0 E m E' -> Forall (thief_inv m0 E) ths ->
  matched s None (mkConfig m pc ths).
Proof.
  intros HE Hm Ho Hev Hf. exists s. split; [constructor|].
  split; simpl; rewrite ?HE; [done..|]. by eapply thieves_evolve.
Qed.

Lemma matched_event s s' e m pc ths E E' m0 :
  spec_step s e s' ->
  live_end m pc = E' -> models m E' (fst s') -> owner_inv m pc (snd s') ->
  evolves m0 E m E' -> Forall (thief_inv m0 E) ths ->
  matched s (Some e) (mkConfig m pc ths).
Proof.
  intros Hs HE Hm Ho Hev Hf. exists s'. split; [by apply run_one|].
  split; simpl; rewrite ?HE; [done..|]. by eapply thieves_evolve.
Qed.

Lemma step_check_capacity m x b t ths l :
  models m b l -> bottom_ m = b -> t <= top_ m -> b - t <= cap_ (active m) ->
  Forall (thief_inv m b) ths ->
  matched (l, Ready) None
    (mkConfig (if b - t >? capacity (active m) - 1 then Resize b t (active_array_ m) m else m)
       (OPushSet x b) ths).
Proof.
  intros Hm Hb Ht Hc Hf. pose proof (models_cap _ _ _ Hm). unfold capacity.
  destruct (Z.gtb_spec (b - t) (cap_ (active m) - 1)).
  - destruct (models_resize m b l t Hm Ht Hc) as [Hm' Hc'].
    pose proof (wf_cap _ (active_wf m Hm)).
    eapply matched_silent; [|exact Hm'| |by eapply evolves_resize|done].
    + unfold live_end. simpl. lia.
    + simpl. split_all; [done | | done].
      change (top_ (Resize _ _ _ _)) with (top_ m). rewrite Hc'. lia.
  - eapply matched_silent; [|exact Hm| |by apply evolves_same|done].
    + unfold live_end. simpl. lia.
    + simpl. split_all; [done|lia|done].
Qed.

Lemma step_set m x b ths l :
  models m b l -> bottom_ m = b -> b - top_ m < cap_ (active m) ->
  Forall (thief_inv m b) ths ->
  matched (l, Ready) None
    (mkConfig (set_elem m (active_array_ m) b (Some x)) (OPushPub x b) ths).
Proof.
  intros Hm Hb Hc Hf.
  eapply matched_silent; [| by apply models_set_elem | | by eapply evolves_set_elem | done].
  - unfold live_end. simpl. lia.
  - simpl. rewrite active_set_elem by apply Hm. split_all; try done.
    by apply Get_Set_eq, active_wf, Hm.
Qed.

Lemma step_publish m x b ths l :
  models m b l -> bottom_ m = b -> b - top_ m < cap_ (active m) ->
  Get (active m) b = Some x -> Forall (thief_inv m b) ths ->
  matched (l, Ready) (Some (EPush x)) (mkConfig (set_bottom m (b + 1)) OIdle ths).
Proof.
  intros Hm Hb Hc Hx Hf. eapply matched_event; [constructor | | | | |exact Hf].
  - unfold live_end. simpl. by rewrite Z.add_0_r.
  - simpl. apply models_set_bottom. by apply models_extend.
  - done.
  - apply evolves_set_bottom. lia.
Qed.

(** A non-empty list ends with the element at [E - 1]. *)
Lemma models_snoc (m : deque T) b l :
  models m (b + 1) l -> top_ m <= b ->
  exists l' x, l = l' ++ [x] /\ Get (active m) b = Some x /\ models m b l'.
Proof.
  intros Hm Ht. pose proof (models_len _ _ _ Hm) as Hl.
  destruct l as [|x l _] using rev_ind; [simpl in Hl; lia|].
  exists l, x. eauto using models_last, models_pop_back.
Qed.

Lemma models_nil (m : deque T) b l : models m (b + 1) l -> b < top_ m -> l = [].
Proof. intros Hm Ht. pose proof (models_len _ _ _ Hm). destruct l; simpl in *; [done|lia]. Qed.

Lemma step_pop_load m b ths l :
  models m (b + 1) l -> bottom_ m = b -> Forall (thief_inv m (b + 1)) ths ->
  forall m' pc' e, owner_step m (OPop b) = Some (m', pc', e) ->
  matched (l, Popping) e (mkConfig m' pc' ths).
Proof.
  intros Hm Hb Hf m' pc' e. simpl. fold (active m).
  destruct (Z.leb_spec (top_ m) b) as [Hle|Hgt].
  - destruct (models_snoc _ _ _ Hm Hle) as (l' & x & -> & Hx & Hm').
    destruct (Z.eqb_spec (top_ m) b); intros; simplify_eq.
    + eapply matched_silent; [| exact Hm | | by apply evolves_same | done].
      * unfold live_end. simpl. lia.
      * simpl. split_all; [done|lia|done..].
    + rewrite Hx. eapply matched_event; [constructor | | exact Hm' | done | |exact Hf].
      * unfold live_end. simpl. lia.
      * apply evolves_same. lia.
  - intros; simplify_eq. pose proof (models_nil _ _ _ Hm Hgt) as ->.
    eapply matched_event; [constructor | | exact Hm | done | by apply evolves_same | done].
    unfold live_end. simpl. lia.
Qed.

Lemma step_pop_cas m b val ths l :
  models m (b + 1) l -> bottom_ m = b -> b <= top_ m -> val = Get (active m) b ->
  Forall (thief_inv m (b + 1)) ths ->
  forall m' pc' e, owner_step m (OPopCas b val) = Some (m', pc', e) ->
  matched (l, Popping) e (mkConfig m' pc' ths).
Proof.
  intros Hm Hb Ht -> Hf m' pc' e. simpl. unfold cas_top. case_decide as Htb.
  - intros; simplify_eq.
    destruct (models_snoc _ _ _ Hm) as (l' & x & -> & Hx & Hm'); [lia|].
    destruct l' as [|]; [|pose proof (models_len _ _ _ Hm'); simpl in *; lia].
    rewrite Hx, <- Htb in *. eapply matched_event; [apply (spec_pop []) | | | | | exact Hf].
    + unfold live_end. simpl. reflexivity.
    + apply (models_pop_front _ _ x). by rewrite <- Htb.
    + simpl. split_all; [done|lia|done].
    + apply evolves_set_top. lia.
  - intros; simplify_eq. assert (l = []) as -> by (eapply models_nil; [done|lia]).
    eapply matched_event; [constructor | | exact Hm | | by apply evolves_same | done].
    + unfold live_end. simpl. lia.
    + simpl. split_all; [done|lia|done].
Qed.

(** [bottom_.store(b + 1)] at the end of a [Pop]: the live end does not move. *)
Lemma step_restore m b ths l ph pc e s' :
  models m (b + 1) l -> Forall (thief_inv m (b + 1)) ths ->
  mid_pop pc = false -> run spec_step (l, ph) (obs e) (l, s') ->
  owner_inv (set_bottom m (b + 1)) pc s' ->
  matched (l, ph) e (mkConfig (set_bottom m (b + 1)) pc ths).
Proof.
  intros Hm Hf Hpc Hr Ho. exists (l, s'). split; [done|].
  assert (Hl : live_end (set_bottom m (b + 1)) pc = b + 1).
  { unfold live_end. rewrite Hpc. simpl. lia. }
  split; simpl; rewrite ?Hl; [by apply models_set_bottom | done |].
  eapply thieves_evolve; [|done]. by apply evolves_set_bottom.
Qed.

Lemma owner_step_inv m pc ths m' pc' e s :
  inv (mkConfig m pc ths) s -> owner_step m pc = Some (m', pc', e) ->
  matched s e (mkConfig m' pc' ths).
Proof.
  destruct s as [l ph]. intros [Hm Ho Ht] Hst. unfold live_end in *. simpl in *.
  destruct pc as [|x b t|x b|x b|b|b val|b val|b|b|r|r t]; simpl in Ho, Hm, Ht;
    destruct_and?; subst; rewrite ?Z.add_0_r in *; try done.
  - injection Hst as <- <- <-. by apply step_check_capacity.
  - injection Hst as <- <- <-. by apply step_set.
  - injection Hst as <- <- <-. by apply step_publish.
  - by eapply step_pop_load.
  - by eapply step_pop_cas.
  - injection Hst as <- <- <-. by eapply step_restore; [..|constructor|].
  - injection Hst as <- <- <-. eapply step_restore; [done..|apply run_one; constructor|done].
  - injection Hst as <- <- <-. by eapply step_restore; [..|constructor|].
  - injection Hst as <- <- <-. eapply matched_silent; [|exact Hm| |by apply evolves_same|done].
    + unfold live_end. simpl. lia.
    + simpl. split; [lia|done].
  - injection Hst as <- <- <-.
    assert (bottom_ (shrink_with (bottom_ m) t m) = bottom_ m) as Hb.
    { unfold shrink_with. by case_match. }
    eapply matched_event; [constructor | | by apply models_shrink | done | by eapply evolves_shrink | done].
    unfold live_end. rewrite Hb. simpl. lia.
Qed.

Lemma thieves_insert m E ths i pc :
  Forall (thief_inv m E) ths -> thief_inv m E pc -> Forall (thief_inv m E) (<[i := pc]> ths).
Proof. intros. by apply Forall_insert. Qed.

(** A thief step that only moves its own program counter. *)
Lemma step_thief_local c s i pc :
  inv c s -> thief_inv (mem c) (live_end (mem c) (owner c)) pc ->
  matched s None (mkConfig (mem c) (owner c) (<[i := pc]> (thieves c))).
Proof.
  intros [Hm Ho Ht] Hpc. exists s. split; [constructor|].
  split; simpl; auto using thieves_insert.
Qed.

(** The owner is not disturbed by a thief that takes the item at [top_]. *)
Lemma owner_inv_steal m pc l x ph :
  models m (live_end m pc) (x :: l) -> owner_inv m pc ph ->
  owner_inv (set_top m (top_ m + 1)) pc ph.
Proof.
  intros Hm Ho. pose proof (models_len _ _ _ Hm) as Hl. unfold live_end in Hl.
  destruct pc; simpl in *; unfold active, arr in *; simpl in *;
    destruct_and?; subst; split_all; try done; try lia.
Qed.

Lemma step_thief_cas c s i t val :
  inv c s -> thief_inv (mem c) (live_end (mem c) (owner c)) (TCas t val) ->
  forall m' pc' e, thief_step i (mem c) (TCas t val) = Some (m', pc', e) ->
  matched s e (mkConfig m' (owner c) (<[i := pc']> (thieves c))).
Proof.
  intros Hi [Htt Hlive] m' pc' e. simpl. unfold cas_top. case_decide as Heq.
  - intros; simplify_eq. destruct (Hlive eq_refl) as [Hlt ->].
    destruct s as [l ph], Hi as [Hm Ho Ht]. simpl in *.
    pose proof (models_len _ _ _ Hm) as Hl.
    destruct l as [|x l]; [simpl in Hl; lia|].
    rewrite (models_head _ _ _ _ Hm).
    exists (l, ph). split; [apply run_one; constructor|].
    split; simpl.
    + by apply (models_pop_front _ _ x).
    + by eapply owner_inv_steal.
    + apply thieves_insert; [|done]. eapply thieves_evolve; [|done].
      apply evolves_set_top. lia.
  - intros; simplify_eq. by apply step_thief_local.
Qed.

(** Finding the deque empty is right unless the owner is popping the last item. *)
Lemma step_thief_empty c s i t :
  inv c s -> t <= top_ (mem c) -> bottom_ (mem c) <= t ->
  matched s (Some (ESteal i None)) (mkConfig (mem c) (owner c) (<[i := TIdle]> (thieves c))).
Proof.
  intros Hi Ht Hb. destruct s as [l ph]. destruct Hi as [Hm Ho Hf]. simpl in *.
  exists (l, ph). split; [|by split; simpl; [| |apply thieves_insert]].
  apply run_one. pose proof (models_len _ _ _ Hm) as Hl. unfold live_end in Hl.
  destruct l as [|x [|y l]]; simpl in Hl; [constructor| |destruct (mid_pop (owner c)); lia].
  destruct (owner c); simpl in *; destruct_and?; subst; try lia; constructor.
Qed.

Lemma thief_step_inv m pc ths i tpc m' tpc' e s :
  inv (mkConfig m pc ths) s -> ths !! i = Some tpc ->
  thief_step i m tpc = Some (m', tpc', e) ->
  matched s e (mkConfig m' pc (<[i := tpc']> ths)).
Proof.
  intros Hi Htpc Hst. pose proof (Forall_lookup_1 _ _ _ _ (inv_thieves _ _ Hi) Htpc) as Ht.
  destruct tpc as [| |t|t|t a|t val]; simpl in Hst, Ht; simplify_eq.
  - apply (step_thief_local _ _ i (TTop _) Hi). simpl. lia.
  - destruct (Z.ltb_spec t (bottom_ m)); simplify_eq.
    + apply (step_thief_local _ _ i (TNonEmpty t) Hi). simpl. split; [done|].
      unfold live_end. destruct (mid_pop _); lia.
    + by apply (step_thief_empty _ _ i t Hi).
  - apply (step_thief_local _ _ i (TArray t _) Hi). simpl.
    destruct Ht as [? Hlt]. split_all; [done|apply Hi|]. intros Heq. auto.
  - apply (step_thief_local _ _ i (TCas t _) Hi). simpl.
    destruct Ht as (? & ? & Hl). auto.
  - by eapply (step_thief_cas _ _ i t val Hi).
Qed.

Lemma deque_step_inv c s e c' : inv c s -> step c e c' -> matched s e c'.
Proof.
  intros Hi Hst. destruct Hst as [m ths x|m ths|m pc ths m' pc' e Ho|m pc ths i Hth|
    m pc ths i tpc m' tpc' e Hth Hst].
  - destruct s as [l ph]. destruct Hi as [Hm Ho Ht]. unfold live_end in *. simpl in *.
    rewrite Z.add_0_r in *. subst ph.
    eapply matched_silent; [|exact Hm| |by apply evolves_same|done].
    + unfold live_end. simpl. lia.
    + simpl. split_all; [done|lia|apply Hm|done].
  - destruct s as [l ph]. destruct Hi as [Hm Ho Ht]. unfold live_end in *. simpl in *.
    rewrite Z.add_0_r in *. subst ph.
    eapply matched_event; [constructor| |by apply models_set_bottom|done| |done].
    + unfold live_end. simpl. lia.
    + by apply evolves_set_bottom.
  - by eapply owner_step_inv.
  - by apply (step_thief_local _ _ i TStart Hi).
  - by eapply thief_step_inv.
Qed.

Lemma deque_inv_initial capacity n : inv (initial capacity n) ([], Ready).
Proof.
  split; simpl; [|done|by apply Forall_replicate].
  exact (rep_new capacity).
Qed.

(** ** What the specification says about items *)

Definition pushed (tr : list event) : list T :=
  omap (fun e => match e with EPush x => Some x | _ => None end) tr.

Definition taken (tr : list event) : list T :=
  omap (fun e => match e with EPop r | ESteal _ r => r | _ => None end) tr.

Lemma spec_conservation s tr s' :
  run spec_step s tr s' -> fst s ++ pushed tr ≡ₚ taken tr ++ fst s'.
Proof.
  induction 1 as [s|s e s' tr s'' Hs _ IH]; [by rewrite app_nil_r|].
  destruct Hs; simpl in *; try exact IH.
  - rewrite <- IH. by rewrite <- (assoc_L (++)).
  - rewrite <- IH. rewrite <- (assoc_L (++)). simpl. symmetry. apply Permutation_middle.
  - by rewrite IH.
Qed.

(** ** A scheduler, to run the semantics *)

Inductive action := APush (x : T) | APop | AOwner | ASteal (i : nat) | AThief (i : nat).

Definition exec1 (a : action) (c : config) : option (option event * config) :=
  let '(mkConfig m pc ths) := c in
  match a, pc with
  | APush x, OIdle => Some (None, mkConfig m (OPush x (bottom_ m) (top_ m)) ths)
  | APop, OIdle => Some (Some EPopCall,
                         mkConfig (set_bottom m (bottom_ m - 1)) (OPop (bottom_ m - 1)) ths)
  | AOwner, _ => '(m', pc', e) ← owner_step m pc; Some (e, mkConfig m' pc' ths)
  | ASteal i, _ => match ths !! i with
                   | Some TIdle => Some (None, mkConfig m pc (<[i := TStart]> ths))
                   | _ => None
                   end
  | AThief i, _ => tpc ← ths !! i; '(m', tpc', e) ← thief_step i m tpc;
                   Some (e, mkConfig m' pc (<[i := tpc']> ths))
  | _, _ => None
  end.

Fixpoint exec (acts : list action) (c : config) : option (list (option event) * config) :=
  match acts with
  | [] => Some ([], c)
  | a :: acts => '(e, c) ← exec1 a c; '(tr, c) ← exec acts c; Some (e :: tr, c)
  end.

Lemma deque_exec1_step a c e c' : exec1 a c = Some (e, c') -> step c e c'.
Proof.
  destruct c as [m pc ths]. destruct a as [x| | |i|i]; simpl; intros H.
  - destruct pc; simplify_eq. constructor.
  - destruct pc; simplify_eq. constructor.
  - destruct (owner_step m pc) as [[[? ?] ?]|] eqn:Ho; simplify_eq/=. by constructor.
  - destruct (ths !! i) as [[]|] eqn:Hi; simplify_eq. by constructor.
  - destruct (ths !! i) as [tpc|] eqn:Hi; simplify_eq/=.
    destruct (thief_step i m tpc) as [[[? ?] ?]|] eqn:Ht; simplify_eq/=. by econstructor.
Qed.

Lemma deque_exec_run acts c tr c' : exec acts c = Some (tr, c') -> run step c tr c'.
Proof.
  revert c tr. induction acts as [|a acts IH]; simpl; intros c tr H; simplify_eq; [constructor|].
  destruct (exec1 a c) as [[e c1]|] eqn:E1; simplify_eq/=.
  destruct (exec acts c1) as [[tr1 c2]|] eqn:E2; simplify_eq/=.
  econstructor; eauto using deque_exec1_step.
Qed.

(** ** Correctness under concurrency *)

(** C1. Every interleaving of the owner's [Push], [Pop] (with the reallocations of
    [Resize] and [MaybeShrink]) with the steps of any number of thieves is an
    execution of a deque of values: each item comes off the end its operation
    takes it from, [Pop] returns the value it decided, a thief's value read
    through a stale array is the item it takes, and the live part of the active
    array is the content of the specification deque. *)
Theorem deque_linearizable capacity n_thieves tr c :
  run step (initial capacity n_thieves) tr c ->
  exists l ph, run spec_step ([], Ready) (mjoin (obs <$> tr)) (l, ph) /\
               models (mem c) (live_end (mem c) (owner c)) l.
Proof.
  intros Hr. destruct (run_simulation step spec_step inv obs) with (2 := Hr) (3 := deque_inv_initial capacity n_thieves)
    as ([l ph] & Hs & Hi).
  - intros s a e s' Hi Hst. by eapply deque_step_inv.
  - exists l, ph. split; [done | apply Hi].
Qed.

(** No item is lost and none is handed out twice: in every execution the items
    pushed are, as a multiset, the items that [Pop] and [Steal] took together with
    the items still in the active array, in order. *)
Theorem deque_conservation capacity n_thieves tr c :
  run step (initial capacity n_thieves) tr c ->
  exists l, pushed (mjoin (obs <$> tr)) ≡ₚ taken (mjoin (obs <$> tr)) ++ l /\
            models (mem c) (live_end (mem c) (owner c)) l.
Proof.
  intros Hr. destruct (run_simulation step spec_step inv obs) with (2 := Hr) (3 := deque_inv_initial capacity n_thieves)
    as ([l ph] & Hs & Hi).
  - intros s a e s' Hi Hst. by eapply deque_step_inv.
  - exists l. split; [by apply (spec_conservation _ _ _ Hs) | apply Hi].
Qed.

(** [Steal] is lock-free: when a thief's CAS fails and it retries, [top_] has
    moved past the index it read, so another thread took that item meanwhile. *)
Theorem steal_retry_progress capacity n_thieves tr c i t val :
  run step (initial capacity n_thieves) tr c ->
  thieves c !! i = Some (TCas t val) ->
  thief_step i (mem c) (TCas t val) = Some (mem c, TStart, None) ->
  t < top_ (mem c).
Proof.
  intros Hr Ht Hretry. destruct (run_simulation step spec_step inv obs) with (2 := Hr) (3 := deque_inv_initial capacity n_thieves)
    as (s & Hs & Hi).
  - intros s a e s' Hi Hst. by eapply deque_step_inv.
  - pose proof (Forall_lookup_1 _ _ _ _ (inv_thieves _ _ Hi) Ht) as [Hle _].
    simpl in Hretry. unfold cas_top in Hretry. case_decide; simplify_eq. lia.
Qed.
End concurrent.

Arguments config : clear implicits.
Arguments event : clear implicits.
Arguments action : clear implicits.

(** Two pushes; a thief reads the first item and is overtaken by a second thief;
    the owner pops the last one while the first thief retries. *)
Definition race : list (action nat) :=
  [APush 7%nat; AOwner; AOwner; AOwner; APush 8%nat; AOwner; AOwner; AOwner;
   ASteal 0; AThief 0; AThief 0; AThief 0; AThief 0;
   ASteal 1; AThief 1; AThief 1; AThief 1; AThief 1; AThief 1].

Definition race_end : list (option (event nat)) * config nat :=
  default ([], initial 64 2) (exec race (initial 64 2)).

Lemma deque_linearizable_witness :
  exists l ph, run spec_step ([], Ready) (mjoin (obs <$> fst race_end)) (l, ph) /\
    models (mem (snd race_end)) (live_end (mem (snd race_end)) (owner (snd race_end))) l.
Proof. apply (deque_linearizable 64 2), (deque_exec_run race). vm_compute. reflexivity. Defined.

Lemma deque_conservation_witness :
  exists l, pushed (mjoin (obs <$> fst race_end)) ≡ₚ taken (mjoin (obs <$> fst race_end)) ++ l /\
    models (mem (snd race_end)) (live_end (mem (snd race_end)) (owner (snd race_end))) l.
Proof. apply (deque_conservation 64 2), (deque_exec_run race). vm_compute. reflexivity. Defined.

Lemma steal_retry_progress_witness : 0 < top_ (mem (snd race_end)).
Proof.
  apply (steal_retry_progress 64 2 (fst race_end) (snd race_end) 0 0 (Some 7%nat)).
  - apply (deque_exec_run race). vm_compute. reflexivity.
  - vm_compute. reflexivity.
  - vm_compute. reflexivity.
Defined.
