(* ===== verification/ThreadPool.v ===== *)
(** The thread pool of src/src/threading/thread-pool.{h,cc}: queues, counters, the
    workers' [GetTask] loop, the three ways to submit, [Resize], [Terminate] and
    the destructor.

    Workers and submitting threads interleave one step per lock-protected block,
    deque operation or access to an atomic; the deques are used through the
    contract [WSDeque], which Deque.v discharges. A worker's running tasks form a
    stack, because a task that waits for a promise runs its worker's private
    tasks meanwhile. *)
From S2P Require Import Prelude Interfaces.

(** How a task treats private tasks of its worker while it waits for a promise:
    not at all, or running them and then decrementing the active-task count
    ([WorkerThread::ExecuteTask]) or not ([AutoParallelThreadTask::RunInternal]). *)
Inductive nesting := NoNesting | NestCounted | NestUncounted.

Class TaskKind (Task : Type) := nests : Task -> nesting.

Section pool.
Context {Task D : Type} `{WSDeque Task D} `{TaskKind Task}.

(** ** class ThreadPool *)

Record pool := mkPool {
  pool_size_ : nat;
  deques_ : list D;
  private_queues_ : list (list Task);
  global_queue_ : list Task;
  terminated_ : bool;
  sleeping_workers_ : Z;
  active_tasks_ : Z;
  pool_mutex_ : bool;                    (* held? *)
}.

Definition set_deque (w : nat) (d : D) (p : pool) : pool :=
  mkPool (pool_size_ p) (<[w := d]> (deques_ p)) (private_queues_ p) (global_queue_ p)
    (terminated_ p) (sleeping_workers_ p) (active_tasks_ p) (pool_mutex_ p).
Definition set_private (w : nat) (q : list Task) (p : pool) : pool :=
  mkPool (pool_size_ p) (deques_ p) (<[w := q]> (private_queues_ p)) (global_queue_ p)
    (terminated_ p) (sleeping_workers_ p) (active_tasks_ p) (pool_mutex_ p).
Definition set_global (q : list Task) (p : pool) : pool :=
  mkPool (pool_size_ p) (deques_ p) (private_queues_ p) q
    (terminated_ p) (sleeping_workers_ p) (active_tasks_ p) (pool_mutex_ p).
Definition add_sleeping (n : Z) (p : pool) : pool :=
  mkPool (pool_size_ p) (deques_ p) (private_queues_ p) (global_queue_ p)
    (terminated_ p) (sleeping_workers_ p + n) (active_tasks_ p) (pool_mutex_ p).
Definition add_active (n : Z) (p : pool) : pool :=
  mkPool (pool_size_ p) (deques_ p) (private_queues_ p) (global_queue_ p)
    (terminated_ p) (sleeping_workers_ p) (active_tasks_ p + n) (pool_mutex_ p).
Definition set_mutex (b : bool) (p : pool) : pool :=
  mkPool (pool_size_ p) (deques_ p) (private_queues_ p) (global_queue_ p)
    (terminated_ p) (sleeping_workers_ p) (active_tasks_ p) b.
Definition set_terminated (p : pool) : pool :=
  mkPool (pool_size_ p) (deques_ p) (private_queues_ p) (global_queue_ p)
    true (sleeping_workers_ p) (active_tasks_ p) (pool_mutex_ p).

Definition ThreadPool (pool_size : nat) : pool :=
  mkPool pool_size (replicate pool_size dq_new) (replicate pool_size []) [] false 0 0 false.

Definition HasActiveTasks (p : pool) : bool := active_tasks_ p >? 0.

Definition private_queue (p : pool) (w : nat) : list Task := default [] (private_queues_ p !! w).
Definition deque_at (p : pool) (w : nat) : D := default dq_new (deques_ p !! w).

(** Pop the front of worker [w]'s private queue, under its mutex. *)
Definition PopPrivateTask (w : nat) (p : pool) : option Task * pool :=
  match private_queue p w with
  | t :: q => (Some t, set_private w q p)
  | [] => (None, p)
  end.

Definition pop_local (w : nat) (p : pool) : option Task * pool :=
  let '(t, d) := dq_pop (deque_at p w) in (t, set_deque w d p).

Definition pop_global (p : pool) : option Task * pool :=
  match global_queue_ p with
  | t :: q => (Some t, set_global q p)
  | [] => (None, p)
  end.

Definition steal_target (w i : nat) (p : pool) : nat := (w + 1 + i) mod pool_size_ p.

Definition steal_from (target : nat) (p : pool) : option Task * pool :=
  let '(t, d) := dq_steal (deque_at p target) in (t, set_deque target d p).

(** ** Workers *)

(** A task being executed, and whether finishing it decrements [active_tasks_]. *)
Record frame := mkFrame { ftask : Task; fcounted : bool }.

(** Where a worker is in [WorkerThread::Run] and [ThreadPool::GetTask]. *)
Inductive worker_pc :=
| WLoop                    (* next: while (!terminated_) *)
| WPrivate                 (* 1. private queue *)
| WLocal                   (* 2. own deque *)
| WGlobal                  (* 3. global queue *)
| WSteal (i : nat)         (* 4. i-th round of stealing *)
| WLock                    (* 5. next: lock pool_mutex_ *)
| WLocked                  (* terminated_ || worker_index >= pool_size_ *)
| WHasPrivate              (* HasWork, first block *)
| WHasGlobal               (* HasWork, second block *)
| WHasDeque (i : nat)      (* HasWork, i-th deque *)
| WSleep                   (* next: sleeping_workers_.fetch_add(1) *)
| WEnterWait               (* next: work_cv_.Wait releases the mutex *)
| WWaiting                 (* blocked on work_cv_ *)
| WWoken                   (* notified; next: reacquire pool_mutex_ *)
| WAwake                   (* next: sleeping_workers_.fetch_sub(1), unlock *)
| WRun (stack : list frame)
| WExit.

Definition found (t : option Task) (otherwise : worker_pc) : worker_pc :=
  match t with Some t => WRun [mkFrame t true] | None => otherwise end.

(** One step of worker [w] outside task execution; [None] when it is blocked. *)
Definition worker_step (w : nat) (p : pool) (pc : worker_pc) : option (pool * worker_pc) :=
  match pc with
  | WLoop => Some (p, if terminated_ p then WExit else WPrivate)
  | WPrivate => let '(t, p) := PopPrivateTask w p in Some (p, found t WLocal)
  | WLocal => let '(t, p) := pop_local w p in Some (p, found t WGlobal)
  | WGlobal => let '(t, p) := pop_global p in Some (p, found t (WSteal 0))
  | WSteal i =>
      if decide (i < pool_size_ p)%nat then
        let target := steal_target w i p in
        if decide (target = w) then Some (p, WSteal (S i))
        else let '(t, p) := steal_from target p in Some (p, found t (WSteal (S i)))
      else Some (p, WLock)
  | WLock => if pool_mutex_ p then None else Some (set_mutex true p, WLocked)
  | WLocked =>
      if terminated_ p || bool_decide (pool_size_ p <= w)%nat
      then Some (set_mutex false p, WExit) else Some (p, WHasPrivate)
  | WHasPrivate =>
      match private_queue p w with
      | [] => Some (p, WHasGlobal)
      | _ => Some (set_mutex false p, WLoop)
      end
  | WHasGlobal =>
      match global_queue_ p with
      | [] => Some (p, WHasDeque 0)
      | _ => Some (set_mutex false p, WLoop)
      end
  | WHasDeque i =>
      if decide (i < pool_size_ p)%nat then
        if dq_is_empty (deque_at p i) then Some (p, WHasDeque (S i))
        else Some (set_mutex false p, WLoop)
      else Some (p, WSleep)
  | WSleep => Some (add_sleeping 1 p, WEnterWait)
  | WEnterWait => Some (set_mutex false p, WWaiting)
  | WWaiting => None
  | WWoken => if pool_mutex_ p then None else Some (set_mutex true p, WAwake)
  | WAwake => Some (set_mutex false (add_sleeping (-1) p), WLoop)
  | WRun _ | WExit => None
  end.

(** The innermost running task finishes: [delete task], [DecrementActiveTasks]. *)
Definition finish_task (p : pool) (stack : list frame) : option (Task * pool * worker_pc) :=
  match stack with
  | [] => None
  | f :: rest =>
      Some (ftask f, if fcounted f then add_active (-1) p else p,
            match rest with [] => WLoop | _ => WRun rest end)
  end.

(** The innermost running task waits for a promise and pops a private task. *)
Definition nest_task (w : nat) (p : pool) (stack : list frame) : option (pool * worker_pc) :=
  match stack, PopPrivateTask w p with
  | f :: _, (Some t, p) =>
      match nests (ftask f) with
      | NoNesting => None
      | NestCounted => Some (p, WRun (mkFrame t true :: stack))
      | NestUncounted => Some (p, WRun (mkFrame t false :: stack))
      end
  | _, _ => None
  end.

(** ** Submission *)

(** [Submit], [SubmitFromWorker] and [SubmitToWorker] *)
Inductive dest := ToGlobal | FromWorker (w : nat) | ToWorker (w : nat).

Inductive submit_pc :=
| SIncrement (d : dest) (t : Task)   (* next: IncrementActiveTasks *)
| SPush (d : dest) (t : Task)        (* next: push *)
| SLoad (d : dest)                   (* next: sleeping_workers_.load() > 0 *)
| SNotify (d : dest)                 (* next: lock pool_mutex_, notify *)
| SDone.

Definition push_task (d : dest) (t : Task) (p : pool) : pool :=
  match d with
  | ToGlobal => set_global (global_queue_ p ++ [t]) p
  | FromWorker w => set_deque w (dq_push t (deque_at p w)) p
  | ToWorker w => set_private w (private_queue p w ++ [t]) p
  end.

Definition submit_step (p : pool) (pc : submit_pc) : option (pool * submit_pc) :=
  match pc with
  | SIncrement d t => Some (add_active 1 p, SPush d t)
  | SPush d t => Some (push_task d t p, SLoad d)
  | SLoad d => Some (p, if sleeping_workers_ p >? 0 then SNotify d else SDone)
  | SNotify _ | SDone => None
  end.

(** [Resize] under [pool_mutex_]: the pool, the indices of the workers started,
    and whether [work_cv_] is notified. Deques and private queues are only added. *)
Definition Resize (new_pool_size : nat) (p : pool) : pool * list nat * bool :=
  if decide (new_pool_size = pool_size_ p) then (p, [], false)
  else
    let set_size ds qs :=
      mkPool new_pool_size ds qs (global_queue_ p) (terminated_ p) (sleeping_workers_ p)
        (active_tasks_ p) (pool_mutex_ p) in
    if decide (pool_size_ p < new_pool_size)%nat then
      let missing := (new_pool_size - length (deques_ p))%nat in
      (set_size (deques_ p ++ replicate missing dq_new)
                (private_queues_ p ++ replicate missing []),
       seq (pool_size_ p) (new_pool_size - pool_size_ p), false)
    else (set_size (deques_ p) (private_queues_ p), [], true).

(** [work_cv_.NotifyAll] on the workers *)
Definition wake (pc : worker_pc) : worker_pc :=
  match pc with WWaiting => WWoken | _ => pc end.

(** ** The whole pool *)

(** Where the thread that calls [Terminate] is. *)
Inductive terminate_pc := KIdle | KNotify | KJoin | KDone.

Record config := mkConfig {
  cpool : pool;
  workers : list (nat * worker_pc);      (* worker_index, pc *)
  submitters : list submit_pc;
  terminator : terminate_pc;
  (* history: tasks submitted, tasks finished, finished tasks that stayed counted *)
  submitted : list Task;
  finished : list Task;
  leaked : nat;
}.

Inductive label :=
| LWorker (i : nat) | LFinish (i : nat) | LNest (i : nat) | LSpurious (i : nat)
| LSubmit (t : Task) | LSubmitter (j : nat) | LResize (n : nat) | LTerminate.

Definition dest_ok (p : pool) (d : dest) : Prop :=
  match d with
  | ToGlobal => True
  | FromWorker w | ToWorker w => (w < length (deques_ p))%nat
  end.

Definition wake_all (ws : list (nat * worker_pc)) : list (nat * worker_pc) :=
  prod_map id wake <$> ws.

Inductive step : config -> label -> config -> Prop :=
| step_worker p ws ss k su fi le i w pc p' pc' :
    ws !! i = Some (w, pc) -> worker_step w p pc = Some (p', pc') ->
    step (mkConfig p ws ss k su fi le) (LWorker i)
         (mkConfig p' (<[i := (w, pc')]> ws) ss k su fi le)
| step_finish p ws ss k su fi le i w st t p' pc' :
    ws !! i = Some (w, WRun st) -> finish_task p st = Some (t, p', pc') ->
    step (mkConfig p ws ss k su fi le) (LFinish i)
         (mkConfig p' (<[i := (w, pc')]> ws) ss k su (fi ++ [t])
            (match st with mkFrame _ false :: _ => S le | _ => le end))
| step_nest p ws ss k su fi le i w st p' pc' :
    ws !! i = Some (w, WRun st) -> nest_task w p st = Some (p', pc') ->
    step (mkConfig p ws ss k su fi le) (LNest i)
         (mkConfig p' (<[i := (w, pc')]> ws) ss k su fi le)
| step_spurious p ws ss k su fi le i w :
    ws !! i = Some (w, WWaiting) ->
    step (mkConfig p ws ss k su fi le) (LSpurious i)
         (mkConfig p (<[i := (w, WWoken)]> ws) ss k su fi le)
| step_submit p ws ss k su fi le d t :
    dest_ok p d ->
    step (mkConfig p ws ss k su fi le) (LSubmit t)
         (mkConfig p ws (ss ++ [SIncrement d t]) k (su ++ [t]) fi le)
| step_submitter p ws ss k su fi le j pc p' pc' :
    ss !! j = Some pc -> submit_step p pc = Some (p', pc') ->
    step (mkConfig p ws ss k su fi le) (LSubmitter j)
         (mkConfig p' ws (<[j := pc']> ss) k su fi le)
| step_notify_all p ws ss k su fi le j d :
    ss !! j = Some (SNotify d) -> pool_mutex_ p = false ->
    (forall w, d <> FromWorker w) ->
    step (mkConfig p ws ss k su fi le) (LSubmitter j)
         (mkConfig p (wake_all ws) (<[j := SDone]> ss) k su fi le)
| step_notify_one p ws ss k su fi le j w ws' :
    ss !! j = Some (SNotify (FromWorker w)) -> pool_mutex_ p = false ->
    (ws' = ws /\ (forall i x, ws !! i = Some x -> snd x <> WWaiting) \/
     exists i w', ws !! i = Some (w', WWaiting) /\ ws' = <[i := (w', WWoken)]> ws) ->
    step (mkConfig p ws ss k su fi le) (LSubmitter j)
         (mkConfig p ws' (<[j := SDone]> ss) k su fi le)
| step_resize p ws ss k su fi le n p' started notify :
    pool_mutex_ p = false -> Resize n p = (p', started, notify) ->
    step (mkConfig p ws ss k su fi le) (LResize n)
         (mkConfig p' ((if notify then wake_all ws else ws) ++ ((., WLoop) <$> started))
            ss k su fi le)
| step_terminate p ws ss su fi le :
    step (mkConfig p ws ss KIdle su fi le) LTerminate
         (mkConfig (set_terminated p) ws ss KNotify su fi le)
| step_terminate_notify p ws ss su fi le :
    pool_mutex_ p = false ->
    step (mkConfig p ws ss KNotify su fi le) LTerminate
         (mkConfig p (wake_all ws) ss KJoin su fi le)
| step_joined p ws ss su fi le :
    Forall (fun x => snd x = WExit) ws ->
    step (mkConfig p ws ss KJoin su fi le) LTerminate (mkConfig p ws ss KDone su fi le).

Definition initial (n : nat) : config :=
  mkConfig (ThreadPool n) ((., WLoop) <$> seq 0 n) [] KIdle [] [] 0.

(** ** The destructor

    [~ThreadPool] after [Terminate]: every task it deletes first gets the result
    [{false, {}}]. The loop over the deques pops each one empty; [fuel] bounds the
    pops of one deque by the number of its elements. *)
Fixpoint drain_deque (fuel : nat) (d : D) : list Task * D :=
  match fuel with
  | O => ([], d)
  | S fuel => match dq_pop d with
              | (Some t, d) => let '(ts, d) := drain_deque fuel d in (t :: ts, d)
              | (None, d) => ([], d)
              end
  end.

Definition destroy (fuel : nat) (p : pool) : list Task :=
  global_queue_ p ++
  (seq 0 (pool_size_ p) ≫= (fun i => fst (drain_deque fuel (deque_at p i)))) ++
  (seq 0 (pool_size_ p) ≫= (fun i => private_queue p i)).

(** ** The singleton

    [g_thread_pool_instance] and [g_is_disposing]; the latter is never cleared, so a pool
    created after the tear-down settles no promise of another isolate. *)
Record globals := mkGlobals { g_thread_pool_instance : option pool; g_is_disposing : bool }.

Definition GetInstance (hardware_concurrency : nat) (g : globals) : pool * globals :=
  match g_thread_pool_instance g with
  | Some p => (p, g)
  | None =>
      let p := ThreadPool (Nat.max 1 hardware_concurrency) in (p, mkGlobals (Some p) (g_is_disposing g))
  end.

(** The tasks that the destructor completes, once the workers have left. *)
Definition GlobalTearDown (fuel : nat) (g : globals) : list Task * globals :=
  (match g_thread_pool_instance g with Some p => destroy fuel p | None => [] end, mkGlobals None true).

Definition IsDisposing (g : globals) : bool := g_is_disposing g.

(** ** Tasks in the queues *)

Definition queued (p : pool) (q : list Task) : Prop :=
  exists ds, Forall2 dq_rep (deques_ p) ds /\
    length (private_queues_ p) = length (deques_ p) /\
    q ≡ₚ mjoin ds ++ mjoin (private_queues_ p) ++ global_queue_ p.

(** Everything but the queues. *)
Definition same_counters (p p' : pool) : Prop :=
  pool_size_ p' = pool_size_ p /\ length (deques_ p') = length (deques_ p) /\
  terminated_ p' = terminated_ p /\ sleeping_workers_ p' = sleeping_workers_ p /\
  active_tasks_ p' = active_tasks_ p /\ pool_mutex_ p' = pool_mutex_ p.

(** [p'] is [p] with the task [r] (if any) taken from one of its queues. *)
Definition takes (p : pool) (r : option Task) (p' : pool) : Prop :=
  (forall q, queued p q -> exists q', queued p' q' /\ q ≡ₚ option_list r ++ q') /\
  same_counters p p'.

Lemma same_counters_refl p : same_counters p p.
Proof. repeat split. Qed.

Lemma takes_none p : takes p None p.
Proof. split; [eauto | apply same_counters_refl]. Qed.

Lemma takes_private w p : takes p (fst (PopPrivateTask w p)) (snd (PopPrivateTask w p)).
Proof.
  unfold PopPrivateTask, private_queue.
  destruct (private_queues_ p !! w) as [[|t l]|] eqn:Hw; simpl; try apply takes_none.
  split; [|repeat split]. intros q (ds & Hds & Hlen & Hq).
  destruct (join_insert_perm _ _ _ Hw) as (rest & Hold & Hnew).
  exists (mjoin ds ++ (l ++ rest) ++ global_queue_ p). split.
  - exists ds. simpl. rewrite length_insert. split_all; [done..|]. by rewrite Hnew.
  - rewrite Hq, Hold. solve_Permutation.
Qed.

Lemma takes_global p : takes p (fst (pop_global p)) (snd (pop_global p)).
Proof.
  unfold pop_global. destruct (global_queue_ p) as [|t l] eqn:Hg; simpl; [apply takes_none|].
  split; [|repeat split]. intros q (ds & Hds & Hlen & Hq).
  exists (mjoin ds ++ mjoin (private_queues_ p) ++ l). split.
  - by exists ds.
  - rewrite Hq, Hg. solve_Permutation.
Qed.

Context `{!WSDequeLaws Task D}.

Lemma deque_at_rep p w ds : Forall2 dq_rep (deques_ p) ds -> dq_rep (deque_at p w) (default [] (ds !! w)).
Proof.
  intros Hds. unfold deque_at. destruct (deques_ p !! w) as [d|] eqn:Hd.
  - destruct (Forall2_lookup_l _ _ _ _ _ Hds Hd) as (l & -> & ?). done.
  - apply lookup_ge_None in Hd. rewrite (Forall2_length _ _ _ Hds) in Hd.
    rewrite (lookup_ge_None_2 ds w) by done. apply dq_new_rep.
Qed.

(** Replacing a deque's content [x ++ l] (up to order) by [l]. *)
Lemma takes_deque p w d r :
  (forall l, dq_rep (deque_at p w) l -> exists l', dq_rep d l' /\ l ≡ₚ option_list r ++ l') ->
  takes p r (set_deque w d p).
Proof.
  intros Hd. split; [|repeat split; apply length_insert].
  intros q (ds & Hds & Hlen & Hq).
  destruct (Hd _ (deque_at_rep p w ds Hds)) as (l' & Hl' & Hperm).
  destruct (ds !! w) as [l|] eqn:Hw; simpl in Hperm.
  - destruct (join_insert_perm _ _ _ Hw) as (rest & Hold & Hnew).
    exists ((l' ++ rest) ++ mjoin (private_queues_ p) ++ global_queue_ p). split.
    + exists (<[w := l']> ds). simpl. rewrite length_insert. split_all; [|done|by rewrite Hnew].
      by apply Forall2_insert.
    + rewrite Hq, Hold, Hperm. solve_Permutation.
  - apply lookup_ge_None in Hw. rewrite <- (Forall2_length _ _ _ Hds) in Hw.
    symmetry in Hperm. apply Permutation_nil_r in Hperm.
    apply app_eq_nil in Hperm as [-> ->].
    exists q. split; [|done]. exists ds. unfold set_deque. simpl. by rewrite list_insert_ge.
Qed.

Lemma takes_local w p : takes p (fst (pop_local w p)) (snd (pop_local w p)).
Proof.
  unfold pop_local. destruct (dq_pop (deque_at p w)) as [r d] eqn:Hp. simpl.
  apply takes_deque. intros l Hl. destruct l as [|x l _] using rev_ind.
  - destruct (dq_pop_rep_empty _ Hl) as (d' & He & ?). rewrite He in Hp. simplify_eq. by exists [].
  - destruct (dq_pop_rep _ _ _ Hl) as (d' & He & ?). rewrite He in Hp. simplify_eq.
    exists l. split; [done|]. simpl. solve_Permutation.
Qed.

Lemma takes_steal w p : takes p (fst (steal_from w p)) (snd (steal_from w p)).
Proof.
  unfold steal_from. destruct (dq_steal (deque_at p w)) as [r d] eqn:Hp. simpl.
  apply takes_deque. intros [|x l] Hl.
  - destruct (dq_steal_rep_empty _ Hl) as (d' & He & ?). rewrite He in Hp. simplify_eq. by exists [].
  - destruct (dq_steal_rep _ _ _ Hl) as (d' & He & ?). rewrite He in Hp. simplify_eq.
    by exists l.
Qed.

(** ** Conservation of tasks and the active-task count *)

Definition frames_of (pc : worker_pc) : list frame :=
  match pc with WRun st => st | _ => [] end.

Definition running (ws : list (nat * worker_pc)) : list frame := ws ≫= (fun x => frames_of (snd x)).

(** Tasks whose submission has begun but that are not in a queue yet. *)
Definition inflight (ss : list submit_pc) : list Task :=
  ss ≫= (fun x => match x with SIncrement _ t | SPush _ t => [t] | _ => [] end).

(** Those of them already counted in [active_tasks_]. *)
Definition counted (ss : list submit_pc) : list Task :=
  ss ≫= (fun x => match x with SPush _ t => [t] | _ => [] end).

(** A pending push goes to an existing worker. *)
Definition pending_ok (p : pool) (pc : submit_pc) : Prop :=
  match pc with SIncrement d _ | SPush d _ => dest_ok p d | _ => True end.

Record inv (c : config) : Prop := {
  inv_queued : exists q, queued (cpool c) q /\
    submitted c ≡ₚ inflight (submitters c) ++ q ++ (ftask <$> running (workers c)) ++ finished c /\
    active_tasks_ (cpool c) =
      Z.of_nat (length (counted (submitters c)) + length q + length (running (workers c)) + leaked c);
  inv_dest : Forall (pending_ok (cpool c)) (submitters c);
}.

(** A step of the loop of [GetTask] moves at most one task from a queue to the worker. *)
Lemma worker_step_takes w p pc p' pc' :
  worker_step w p pc = Some (p', pc') ->
  frames_of pc = [] /\ active_tasks_ p' = active_tasks_ p /\
  length (deques_ p') = length (deques_ p) /\
  (forall q, queued p q -> exists q', queued p' q' /\ q ≡ₚ (ftask <$> frames_of pc') ++ q').
Proof.
  assert (Hsame : forall p' pc', frames_of pc' = [] ->
    deques_ p' = deques_ p -> private_queues_ p' = private_queues_ p ->
    global_queue_ p' = global_queue_ p -> active_tasks_ p' = active_tasks_ p ->
    active_tasks_ p' = active_tasks_ p /\ length (deques_ p') = length (deques_ p) /\
    (forall q, queued p q -> exists q', queued p' q' /\ q ≡ₚ (ftask <$> frames_of pc') ++ q')).
  { intros p1 pc1 Hf Hd Hp Hg Ha. rewrite Hd, Ha, Hf. split_all; [done..|].
    intros q Hq. exists q. split; [|done]. unfold queued in *. by rewrite Hd, Hp, Hg. }
  assert (Htake : forall r p' other, takes p r p' -> frames_of other = [] ->
    active_tasks_ p' = active_tasks_ p /\ length (deques_ p') = length (deques_ p) /\
    (forall q, queued p q -> exists q', queued p' q' /\ q ≡ₚ (ftask <$> frames_of (found r other)) ++ q')).
  { intros r p1 other [Hq (_ & Hl & _ & _ & Ha & _)] Ho. split_all; [done..|].
    destruct r; simpl; rewrite ?Ho; exact Hq. }
  intros Hst. destruct pc; simpl in Hst; (split; [done || (by repeat case_match)|]).
  all: try (repeat case_match; simplify_eq; apply Hsame; by try case_match).
  - pose proof (takes_private w p). destruct (PopPrivateTask w p). simplify_eq. by eapply Htake.
  - pose proof (takes_local w p). destruct (pop_local w p). simplify_eq. by eapply Htake.
  - pose proof (takes_global p). destruct (pop_global p). simplify_eq. by eapply Htake.
  - repeat (case_decide; simplify_eq); try by apply Hsame.
    pose proof (takes_steal (steal_target w i p) p).
    destruct (steal_from (steal_target w i p) p). simplify_eq. by eapply Htake.
Qed.

Lemma queued_push p d t q :
  dest_ok p d -> queued p q -> exists q', queued (push_task d t p) q' /\ q' ≡ₚ t :: q.
Proof.
  intros Hd (ds & Hds & Hlen & Hq). exists (t :: q). split; [|done].
  destruct d as [|w|w]; simpl in *.
  - exists ds. simpl. split_all; [done..|]. rewrite Hq. solve_Permutation.
  - rewrite (Forall2_length _ _ _ Hds) in Hd. destruct (lookup_lt_is_Some_2 _ _ Hd) as [l Hl].
    destruct (join_insert_perm _ _ _ Hl) as (rest & Hold & Hnew).
    exists (<[w := l ++ [t]]> ds). simpl. rewrite length_insert. split_all; [|done|].
    + apply Forall2_insert; [done|]. apply dq_push_rep.
      pose proof (deque_at_rep p w ds Hds) as Hr. by rewrite Hl in Hr.
    + rewrite Hnew, Hq, Hold. solve_Permutation.
  - rewrite <- Hlen in Hd. destruct (lookup_lt_is_Some_2 _ _ Hd) as [l Hl].
    destruct (join_insert_perm _ _ _ Hl) as (rest & Hold & Hnew).
    unfold private_queue. rewrite Hl. exists ds. simpl. rewrite length_insert.
    split_all; [done..|]. rewrite Hnew, Hq, Hold. simpl. solve_Permutation.
Qed.

Lemma push_task_length p d t : length (deques_ (push_task d t p)) = length (deques_ p).
Proof. destruct d; simpl; by rewrite ?length_insert. Qed.

Lemma queued_Resize n p p' started notify q :
  Resize n p = (p', started, notify) -> queued p q ->
  queued p' q /\ active_tasks_ p' = active_tasks_ p /\ (length (deques_ p) <= length (deques_ p'))%nat.
Proof.
  unfold Resize. intros HR (ds & Hds & Hlen & Hq).
  repeat case_decide; simplify_eq; simpl; (split; [|split; [done|rewrite ?length_app; lia]]).
  1, 3: by exists ds.
  set (m := (n - length (deques_ p))%nat). exists (ds ++ replicate m []). simpl.
  rewrite !length_app, !length_replicate. split_all; [|lia|].
  - apply Forall2_app; [done|]. apply Forall2_replicate, dq_new_rep.
  - assert (He : mjoin (replicate m ([] : list Task)) = []) by (by induction m).
    rewrite !join_app, He, !app_nil_r. done.
Qed.

Lemma pending_ok_mono p p' ss :
  Forall (pending_ok p) ss -> (length (deques_ p) <= length (deques_ p'))%nat ->
  Forall (pending_ok p') ss.
Proof.
  intros Hs Hl. eapply Forall_impl; [exact Hs|].
  intros [[|w|w] t|[|w|w] t|d|d|] Hx; simpl in *; auto; lia.
Qed.

Lemma running_wake ws : running (wake_all ws) = running ws.
Proof.
  unfold running, wake_all. induction ws as [|[w pc] ws IH]; [done|].
  rewrite fmap_cons, !bind_cons, IH. by destruct pc.
Qed.

Lemma running_app ws ws' : running (ws ++ ws') = running ws ++ running ws'.
Proof. apply bind_app. Qed.

Lemma running_started l : running ((., WLoop) <$> l) = [].
Proof. by induction l. Qed.

(** Replacing one worker's frames. *)
Lemma running_insert ws i w pc :
  ws !! i = Some (w, pc) -> exists rest, running ws ≡ₚ frames_of pc ++ rest /\
    forall pc', running (<[i := (w, pc')]> ws) ≡ₚ frames_of pc' ++ rest.
Proof.
  intros Hi. destruct (bind_insert_perm (fun x => frames_of (snd x)) _ _ _ Hi) as (rest & H1 & H2).
  exists rest. split; [done|]. intros pc'. apply (H2 (w, pc')).
Qed.

Lemma perm_len {A} (l l' : list A) : l ≡ₚ l' -> length l = length l'.
Proof. apply Permutation_length. Qed.

Lemma inv_worker p ws ss k su fi le i w pc p' pc' :
  inv (mkConfig p ws ss k su fi le) ->
  ws !! i = Some (w, pc) -> worker_step w p pc = Some (p', pc') ->
  inv (mkConfig p' (<[i := (w, pc')]> ws) ss k su fi le).
Proof.
  intros [(q & Hq & Hsu & Ha) Hd] Hi Hst. simpl in *.
  destruct (worker_step_takes _ _ _ _ _ Hst) as (Hf & Hact & Hlen & Hqueue).
  destruct (Hqueue q Hq) as (q' & Hq' & Hperm).
  destruct (running_insert _ _ _ _ Hi) as (rest & Hold & Hnew). rewrite Hf in Hold. simpl in Hold.
  split; simpl.
  - exists q'. split_all; [done| |].
    + rewrite Hsu, Hperm, (Hnew pc'), Hold, fmap_app. solve_Permutation.
    + rewrite Hact, Ha. apply perm_len in Hperm. apply perm_len in Hold.
      pose proof (perm_len _ _ (Hnew pc')) as Hn.
      rewrite length_app, ?length_fmap in *. lia.
  - eapply pending_ok_mono; [exact Hd|lia].
Qed.

Lemma inv_finish p ws ss k su fi le i w st t p' pc' :
  inv (mkConfig p ws ss k su fi le) ->
  ws !! i = Some (w, WRun st) -> finish_task p st = Some (t, p', pc') ->
  inv (mkConfig p' (<[i := (w, pc')]> ws) ss k su (fi ++ [t])
         (match st with mkFrame _ false :: _ => S le | _ => le end)).
Proof.
  intros [(q & Hq & Hsu & Ha) Hd] Hi Hst. simpl in *.
  destruct st as [|[t' c] st]; simpl in *; simplify_eq.
  destruct (running_insert _ _ _ _ Hi) as (rest & Hold & Hnew). simpl in Hold.
  set (pc1 := match st with [] => WLoop | _ => WRun st end).
  assert (Hf : frames_of pc1 = st) by (by destruct st).
  specialize (Hnew pc1). rewrite Hf in Hnew.
  pose proof (perm_len _ _ Hnew). pose proof (perm_len _ _ Hold).
  split; simpl.
  - exists q. split_all.
    + by destruct c.
    + rewrite Hsu, Hnew, Hold. rewrite !fmap_cons. simpl. rewrite fmap_app. solve_Permutation.
    + simpl in *. rewrite length_app in *. destruct c; simpl; lia.
  - eapply pending_ok_mono; [exact Hd|]. by destruct c.
Qed.

Lemma inv_nest p ws ss k su fi le i w st p' pc' :
  inv (mkConfig p ws ss k su fi le) ->
  ws !! i = Some (w, WRun st) -> nest_task w p st = Some (p', pc') ->
  inv (mkConfig p' (<[i := (w, pc')]> ws) ss k su fi le).
Proof.
  intros [(q & Hq & Hsu & Ha) Hd] Hi Hst. simpl in *.
  unfold nest_task in Hst. destruct st as [|f st]; [done|].
  destruct (takes_private w p) as [Htk (_ & Hl & _ & _ & Hact & _)].
  destruct (PopPrivateTask w p) as [[t|] p1]; simpl in *; [|done].
  destruct (Htk q Hq) as (q' & Hq' & Hperm).
  destruct (running_insert _ _ _ _ Hi) as (rest & Hold & Hnew).
  assert (exists b, p' = p1 /\ pc' = WRun (mkFrame t b :: f :: st)) as (b & -> & ->).
  { destruct (nests (ftask f)); simplify_eq; eauto. }
  specialize (Hnew (WRun (mkFrame t b :: f :: st))). simpl in Hold, Hnew.
  pose proof (perm_len _ _ Hnew). pose proof (perm_len _ _ Hold). pose proof (perm_len _ _ Hperm).
  split; simpl.
  - exists q'. split_all; [done| |simpl in *; lia].
    rewrite Hsu, Hperm, Hnew, Hold. rewrite !fmap_cons. simpl. solve_Permutation.
  - eapply pending_ok_mono; [exact Hd|lia].
Qed.

Lemma inv_submitter p ws ss k su fi le j pc p' pc' :
  inv (mkConfig p ws ss k su fi le) ->
  ss !! j = Some pc -> submit_step p pc = Some (p', pc') ->
  inv (mkConfig p' ws (<[j := pc']> ss) k su fi le).
Proof.
  intros [(q & Hq & Hsu & Ha) Hd] Hj Hst. simpl in *.
  pose proof (Forall_lookup_1 _ _ _ _ Hd Hj) as Hok.
  destruct (bind_insert_perm (fun x => match x with SIncrement _ t | SPush _ t => [t] | _ => [] end)
    _ _ _ Hj) as (r1 & Ho1 & Hn1). specialize (Hn1 pc').
  destruct (bind_insert_perm (fun x => match x with SPush _ t => [t] | _ => [] end)
    _ _ _ Hj) as (r2 & Ho2 & Hn2). specialize (Hn2 pc').
  pose proof (perm_len _ _ Ho2) as HL2. pose proof (perm_len _ _ Hn2) as HL2'.
  fold (inflight ss) in Ho1. fold (inflight (<[j:=pc']> ss)) in Hn1.
  fold (counted ss) in HL2. fold (counted (<[j:=pc']> ss)) in HL2'.
  destruct pc as [d t|d t|d|d|]; simpl in Hst, Hok, Ho1, HL2; simplify_eq; simpl in Hn1, HL2'.
  - split; simpl.
    + exists q. split_all; [done| |lia]. by rewrite Hn1, <- Ho1.
    + apply Forall_insert; [|by destruct d]. by eapply pending_ok_mono.
  - destruct (queued_push p d t q Hok Hq) as (q' & Hq' & Hperm).
    pose proof (perm_len _ _ Hperm) as Hlen. simpl in Hlen.
    assert (Hact : active_tasks_ (push_task d t p) = active_tasks_ p) by (by destruct d).
    split; simpl.
    + exists q'. split_all; [done| |rewrite Hact; lia].
      rewrite Hn1, Hsu, Ho1, Hperm. solve_Permutation.
    + apply Forall_insert; [|done]. eapply pending_ok_mono; [done|]. by rewrite push_task_length.
  - destruct (sleeping_workers_ p' >? 0); simpl in Hn1, HL2';
      (split; simpl; [|by apply Forall_insert]);
      exists q; (split_all; [done| |lia]); by rewrite Hn1, <- Ho1.
Qed.

(** Steps that touch neither queues nor counters. *)
Lemma inv_frame p ws ss k su fi le p' ws' ss' k' :
  inv (mkConfig p ws ss k su fi le) ->
  (forall q, queued p q -> queued p' q) -> active_tasks_ p' = active_tasks_ p ->
  (length (deques_ p) <= length (deques_ p'))%nat ->
  running ws' ≡ₚ running ws -> inflight ss' ≡ₚ inflight ss -> counted ss' ≡ₚ counted ss ->
  Forall (fun x => x ∈ ss \/ x = SDone) ss' ->
  inv (mkConfig p' ws' ss' k' su fi le).
Proof.
  intros [(q & Hq & Hsu & Ha) Hd] Hqq Hact Hl Hr Hi Hc Hs. simpl in *.
  pose proof (perm_len _ _ Hr). pose proof (perm_len _ _ Hc). split; simpl.
  - exists q. split_all; [auto| |rewrite Hact; lia]. rewrite Hi, Hr. done.
  - apply Forall_forall. intros x Hx.
    pose proof (pending_ok_mono p p' ss Hd Hl) as Hd'. rewrite Forall_forall in Hs, Hd'.
    destruct (Hs x Hx) as [|Hdone]; [auto|by rewrite Hdone].
Qed.

(** [SNotify] and [SDone] hold no task. *)
Lemma submitters_done ss j d :
  ss !! j = Some (SNotify d) ->
  inflight (<[j := SDone]> ss) ≡ₚ inflight ss /\ counted (<[j := SDone]> ss) ≡ₚ counted ss /\
  Forall (fun x => x ∈ ss \/ x = SDone) (<[j := SDone]> ss).
Proof.
  intros Hj. unfold inflight, counted. split_all.
  - destruct (bind_insert_perm (fun x => match x with SIncrement _ t | SPush _ t => [t] | _ => [] end)
      _ _ _ Hj) as (r & Ho & Hn). by rewrite Ho, Hn.
  - destruct (bind_insert_perm (fun x => match x with SPush _ t => [t] | _ => [] end)
      _ _ _ Hj) as (r & Ho & Hn). by rewrite Ho, Hn.
  - apply Forall_insert; [|by right]. apply Forall_forall. auto.
Qed.

Lemma self_elem (ss : list submit_pc) : Forall (fun x => x ∈ ss \/ x = SDone) ss.
Proof. apply Forall_forall. auto. Qed.

Lemma running_woken ws i w :
  ws !! i = Some (w, WWaiting) -> running (<[i := (w, WWoken)]> ws) ≡ₚ running ws.
Proof. intros Hi. destruct (running_insert _ _ _ _ Hi) as (r & -> & Hn). by rewrite Hn. Qed.

Local Ltac keep :=
  eapply inv_frame; [eassumption | by auto | done | simpl; lia | | try done | try done |
                     try apply self_elem; try done].

Lemma pool_step_inv c l c' : inv c -> step c l c' -> inv c'.
Proof.
  intros Hc Hst. destruct Hst as [| | |p ws ss k su fi le i w Hi|p ws ss k su fi le d t Hd|
    |p ws ss k su fi le j d Hj Hm Hd|p ws ss k su fi le j w ws' Hj Hm Hw|
    p ws ss k su fi le n p' st nt Hm HR| | |].
  - by eapply inv_worker.
  - by eapply inv_finish.
  - by eapply inv_nest.
  - keep. by apply running_woken.
  - destruct Hc as [(q & Hq & Hsu & Ha) Hds]. simpl in *. split; simpl.
    + exists q. unfold inflight, counted in *. rewrite !bind_app, !bind_singleton, app_nil_r.
      split_all; [done| |done]. rewrite Hsu. solve_Permutation.
    + apply Forall_app_2; [done|]. by repeat constructor.
  - by eapply inv_submitter.
  - destruct (submitters_done _ _ _ Hj) as (? & ? & ?). keep. by rewrite running_wake.
  - destruct (submitters_done _ _ _ Hj) as (? & ? & ?). keep.
    destruct Hw as [[-> _]|(i & w' & Hi & ->)]; [done|by apply running_woken].
  - assert (Hex : exists q, queued p q) by (destruct Hc as [(q & Hq & _) _]; eauto).
    destruct Hex as [q Hq]. destruct (queued_Resize n p p' st nt q HR Hq) as (_ & ? & ?).
    eapply inv_frame; [exact Hc| |done|done| |done|done|apply self_elem].
    + intros q' Hq'. by eapply queued_Resize.
    + rewrite running_app, running_started, app_nil_r. case_match; by rewrite ?running_wake.
  - keep. done.
  - keep. by rewrite running_wake.
  - keep. done.
Qed.

Lemma pool_inv_initial n : inv (initial n).
Proof.
  split; simpl; [|constructor]. exists []. split_all.
  - exists (replicate n []). simpl. rewrite !length_replicate. split_all; [|done|].
    + apply Forall2_replicate, dq_new_rep.
    + clear. by induction n.
  - by rewrite running_started.
  - by rewrite running_started.
Qed.

Lemma pool_reachable_inv n tr c : run step (initial n) tr c -> inv c.
Proof. apply (run_invariant step inv); eauto using pool_step_inv, pool_inv_initial. Qed.

(** ** pool_mutex_ and sleeping_workers_ *)

(** The worker holds [pool_mutex_]. *)
Definition holds_mutex (pc : worker_pc) : bool :=
  match pc with
  | WLocked | WHasPrivate | WHasGlobal | WHasDeque _ | WSleep | WEnterWait | WAwake => true
  | _ => false
  end.

(** The worker is counted in [sleeping_workers_]. *)
Definition asleep (pc : worker_pc) : bool :=
  match pc with WEnterWait | WWaiting | WWoken | WAwake => true | _ => false end.

Definition count (f : worker_pc -> bool) (ws : list (nat * worker_pc)) : Z :=
  Z.of_nat (length (ws ≫= (fun x => if f (snd x) then [tt] else []))).

Lemma count_insert f ws i w pc pc' :
  ws !! i = Some (w, pc) ->
  count f (<[i := (w, pc')]> ws) = count f ws - Z.b2z (f pc) + Z.b2z (f pc').
Proof.
  intros Hi. unfold count.
  destruct (bind_insert_perm (fun x : nat * worker_pc => if f (snd x) then [tt] else []) _ _ _ Hi)
    as (r & Ho & Hn). specialize (Hn (w, pc')).
  apply perm_len in Ho. apply perm_len in Hn. rewrite length_app in *. simpl in *.
  destruct (f pc), (f pc'); simpl in *; lia.
Qed.

Lemma count_wake f ws :
  f WWaiting = f WWoken -> count f (wake_all ws) = count f ws.
Proof.
  intros Hf. unfold count, wake_all. do 2 f_equal.
  induction ws as [|[w pc] ws IH]; [done|].
  rewrite fmap_cons, !bind_cons, IH. destruct pc; simpl; by rewrite ?Hf.
Qed.

Lemma count_app f ws ws' : count f (ws ++ ws') = count f ws + count f ws'.
Proof. unfold count. rewrite bind_app, length_app. lia. Qed.

Lemma count_started f l : f WLoop = false -> count f ((., WLoop) <$> l) = 0.
Proof. intros Hf. unfold count. induction l; simpl; by rewrite ?Hf. Qed.

Definition sync_inv (c : config) : Prop :=
  count holds_mutex (workers c) = Z.b2z (pool_mutex_ (cpool c)) /\
  count asleep (workers c) = sleeping_workers_ (cpool c).

Definition sync_delta (p : pool) (pc : worker_pc) (p' : pool) (pc' : worker_pc) : Prop :=
  Z.b2z (holds_mutex pc') - Z.b2z (holds_mutex pc) = Z.b2z (pool_mutex_ p') - Z.b2z (pool_mutex_ p) /\
  Z.b2z (asleep pc') - Z.b2z (asleep pc) = sleeping_workers_ p' - sleeping_workers_ p.

Lemma worker_step_sync w p pc p' pc' :
  worker_step w p pc = Some (p', pc') -> (holds_mutex pc = true -> pool_mutex_ p = true) ->
  sync_delta p pc p' pc'.
Proof.
  assert (Htake : forall r p' other, takes p r p' -> holds_mutex other = false -> asleep other = false ->
    holds_mutex pc = false -> asleep pc = false -> sync_delta p pc p' (found r other)).
  { intros r p1 other [_ (_ & _ & _ & Hs & _ & Hm)] H1 H2 H3 H4. unfold sync_delta.
    rewrite Hs, Hm, H3, H4. destruct r; simpl; rewrite ?H1, ?H2; simpl; lia. }
  intros Hst Hlock. destruct pc; simpl in Hst, Hlock.
  all: first [specialize (Hlock eq_refl) | clear Hlock].
  all: try (repeat case_match; simplify_eq/=; unfold sync_delta; simpl;
            repeat match goal with E : pool_mutex_ _ = _ |- _ => rewrite E; clear E end;
            repeat case_match; simpl; split; (done || lia)).
  - pose proof (takes_private w p). destruct (PopPrivateTask w p). simplify_eq. by apply Htake.
  - pose proof (takes_local w p). destruct (pop_local w p). simplify_eq. by apply Htake.
  - pose proof (takes_global p). destruct (pop_global p). simplify_eq. by apply Htake.
  - repeat (case_decide; simplify_eq; try (split; simpl; lia)).
    pose proof (takes_steal (steal_target w i p) p).
    destruct (steal_from (steal_target w i p) p). simplify_eq. by apply Htake.
Qed.

Lemma count_nonneg f ws : 0 <= count f ws.
Proof. unfold count. lia. Qed.

Lemma count_pos f ws i w pc : ws !! i = Some (w, pc) -> f pc = true -> 0 < count f ws.
Proof.
  intros Hi Hf. pose proof (count_insert f ws i w pc WLoop Hi) as Hc. rewrite Hf in Hc.
  pose proof (count_nonneg f (<[i := (w, WLoop)]> ws)).
  unfold count in *. destruct (bind_insert_perm (fun x : nat * worker_pc => if f (snd x) then [tt] else [])
    _ _ _ Hi) as (r & Ho & _). apply perm_len in Ho. simpl in Ho. rewrite Hf in Ho. simpl in Ho. lia.
Qed.

Lemma sync_move p ws ss k su fi le i w pc p' pc' :
  sync_inv (mkConfig p ws ss k su fi le) -> ws !! i = Some (w, pc) -> sync_delta p pc p' pc' ->
  forall ss' k' su' fi' le', sync_inv (mkConfig p' (<[i := (w, pc')]> ws) ss' k' su' fi' le').
Proof.
  intros [Hm Hs] Hi [Hdm Hds] ss' k' su' fi' le'. unfold sync_inv in *. simpl in *.
  rewrite !(count_insert _ _ _ _ _ pc' Hi). lia.
Qed.

Lemma sync_unmoved p ws p' ws' :
  count holds_mutex ws = Z.b2z (pool_mutex_ p) /\ count asleep ws = sleeping_workers_ p ->
  pool_mutex_ p' = pool_mutex_ p -> sleeping_workers_ p' = sleeping_workers_ p ->
  count holds_mutex ws' = count holds_mutex ws -> count asleep ws' = count asleep ws ->
  forall ss k su fi le, sync_inv (mkConfig p' ws' ss k su fi le).
Proof.
  intros [? ?] Hm Hs Hh Ha ss k su fi le. unfold sync_inv. simpl. by rewrite Hm, Hs, Hh, Ha.
Qed.

Lemma sync_woken p : sync_delta p WWaiting p WWoken.
Proof. split; simpl; lia. Qed.

Lemma sync_step c l c' : sync_inv c -> step c l c' -> sync_inv c'.
Proof.
  intros Hc Hst. destruct Hst as [p ws ss k su fi le i w pc p' pc' Hi Hw
    |p ws ss k su fi le i w st t p' pc' Hi Hf|p ws ss k su fi le i w st p' pc' Hi Hn
    |p ws ss k su fi le i w Hi| |p ws ss k su fi le j pc p' pc' Hj Hs
    |p ws ss k su fi le j d Hj Hm Hd|p ws ss k su fi le j w ws' Hj Hm Hw|
    p ws ss k su fi le n p' st nt Hm HR| | |].
  - eapply sync_move; [done..|]. apply (worker_step_sync w); [done|]. intros Hh.
    destruct Hc as [Hm _]. simpl in Hm. pose proof (count_pos _ _ _ _ _ Hi Hh).
    destruct (pool_mutex_ p); [done|]. simpl in Hm. lia.
  - eapply sync_move; [done..|]. destruct st as [|[t' c] st]; simpl in Hf; simplify_eq.
    destruct st, c; split; simpl; lia.
  - eapply sync_move; [done..|]. destruct (takes_private w p) as [_ (_ & _ & _ & Hs & _ & Hmx)].
    unfold nest_task in Hn. destruct st as [|f st]; [done|].
    destruct (PopPrivateTask w p) as [[t|] p1]; simpl in *; [|done].
    destruct (nests (ftask f)); simplify_eq; split; simpl; rewrite ?Hs, ?Hmx; lia.
  - eapply sync_move; [done..|]. apply sync_woken.
  - exact Hc.
  - eapply sync_unmoved; [exact Hc|..|done|done];
      destruct pc as [d t|[] t|d|d|]; simpl in Hs; simplify_eq; done.
  - eapply sync_unmoved; [exact Hc|done|done|by apply count_wake..].
  - destruct Hw as [[-> _]|(i & w' & Hi & ->)]; [exact Hc|].
    eapply sync_move; [done..|]. apply sync_woken.
  - eapply sync_unmoved; [exact Hc|..];
      [unfold Resize in HR; repeat case_decide; by simplify_eq..| |];
      rewrite count_app, count_started, Z.add_0_r by done;
      (destruct nt; [by apply count_wake|done]).
  - eapply sync_unmoved; [exact Hc|done..].
  - eapply sync_unmoved; [exact Hc|done|done|by apply count_wake..].
  - exact Hc.
Qed.

Lemma sync_initial n : sync_inv (initial n).
Proof. unfold sync_inv. simpl. by rewrite !count_started. Qed.

Lemma reachable_sync n tr c : run step (initial n) tr c -> sync_inv c.
Proof. apply (run_invariant step sync_inv); eauto using sync_step, sync_initial. Qed.

(** ** Workers leave when the pool terminates *)

(** Between the test of [terminated_] and the return from [Wait]. *)
Definition past_check (pc : worker_pc) : bool :=
  match pc with
  | WHasPrivate | WHasGlobal | WHasDeque _ | WSleep | WEnterWait | WWaiting => true
  | _ => false
  end.

Definition term_ok (terminating : bool) (x : nat * worker_pc) : Prop :=
  snd x <> WRun [] /\ (terminating = true -> past_check (snd x) = false).

Definition joining (k : terminate_pc) : bool :=
  match k with KJoin | KDone => true | _ => false end.

Record term_inv (c : config) : Prop := {
  term_flag : terminator c <> KIdle -> terminated_ (cpool c) = true;
  term_workers : Forall (term_ok (joining (terminator c))) (workers c);
}.

Lemma worker_step_term w p pc p' pc' b :
  worker_step w p pc = Some (p', pc') -> (b = true -> terminated_ p = true) ->
  term_ok b (w, pc) -> terminated_ p' = terminated_ p /\ term_ok b (w, pc').
Proof.
  assert (Htake : forall r p' other, takes p r p' -> past_check other = false -> other <> WRun [] ->
    terminated_ p' = terminated_ p /\ term_ok b (w, found r other)).
  { intros r p1 other [_ (_ & _ & Ht & _)] H1 H2. split; [done|].
    destruct r; split; simpl; auto. }
  intros Hst Hb [_ Hpc]. destruct pc; simpl in Hst, Hpc.
  all: try (repeat case_match; simplify_eq; (split; [done|]); (split; simpl;
            [try done; by repeat case_match
            |intros ->; specialize (Hb eq_refl); specialize (Hpc eq_refl);
             repeat case_match; try done; by rewrite Hb in *])).
  - pose proof (takes_private w p). destruct (PopPrivateTask w p). simplify_eq. by apply Htake.
  - pose proof (takes_local w p). destruct (pop_local w p). simplify_eq. by apply Htake.
  - pose proof (takes_global p). destruct (pop_global p). simplify_eq. by apply Htake.
  - repeat (case_decide; simplify_eq; try (split; [done|split; done])).
    pose proof (takes_steal (steal_target w i p) p).
    destruct (steal_from (steal_target w i p) p). simplify_eq. by apply Htake.
Qed.

Lemma term_wake b ws : Forall (term_ok b) ws -> Forall (term_ok b) (wake_all ws).
Proof.
  intros Hf. apply Forall_fmap. eapply Forall_impl; [exact Hf|].
  intros [w pc] [H1 H2]. destruct pc; split; simpl in *; auto.
Qed.

Lemma term_insert b ws i x : Forall (term_ok b) ws -> term_ok b x -> Forall (term_ok b) (<[i := x]> ws).
Proof. intros. by apply Forall_insert. Qed.

(** Waking everyone with the mutex free leaves nobody past the check. *)
Lemma term_notified p ws ss su fi le :
  sync_inv (mkConfig p ws ss KNotify su fi le) -> pool_mutex_ p = false ->
  Forall (term_ok false) ws -> Forall (term_ok true) (wake_all ws).
Proof.
  intros [Hm _] Hfree Hf. simpl in Hm. rewrite Hfree in Hm. simpl in Hm.
  apply Forall_fmap, Forall_lookup. intros i [w pc] Hi.
  pose proof (Forall_lookup_1 _ _ _ _ Hf Hi) as [H1 _].
  assert (Hh : holds_mutex pc = false).
  { destruct (holds_mutex pc) eqn:E; [|done]. pose proof (count_pos _ _ _ _ _ Hi E). lia. }
  destruct pc; split; simpl in *; try done.
Qed.

Lemma term_step c l c' : sync_inv c -> term_inv c -> step c l c' -> term_inv c'.
Proof.
  intros Hsync [Hflag Hws] Hst. destruct Hst as [p ws ss k su fi le i w pc p' pc' Hi Hw
    |p ws ss k su fi le i w st t p' pc' Hi Hf|p ws ss k su fi le i w st p' pc' Hi Hn
    |p ws ss k su fi le i w Hi| |p ws ss k su fi le j pc p' pc' Hj Hs
    |p ws ss k su fi le j d Hj Hm Hd|p ws ss k su fi le j w ws' Hj Hm Hw|
    p ws ss k su fi le n p' st nt Hm HR|p ws ss su fi le|p ws ss su fi le Hm|]; simpl in *.
  - pose proof (Forall_lookup_1 _ _ _ _ Hws Hi) as Hok.
    assert (Hk : joining k = true -> terminated_ p = true).
    { intros Hj. apply Hflag. by destruct k. }
    destruct (worker_step_term w p pc p' pc' (joining k) Hw Hk Hok) as [Ht Hok'].
    split; simpl; [by rewrite Ht | by apply term_insert].
  - destruct st as [|[t' c] st]; simpl in Hf; simplify_eq. split; simpl.
    + intros Hk. destruct c; simpl; auto.
    + apply term_insert; [done|]. destruct st; by split.
  - unfold nest_task in Hn. destruct (takes_private w p) as [_ (_ & _ & Ht & _)].
    destruct st as [|f st]; [done|]. destruct (PopPrivateTask w p) as [[t|] p1]; simpl in *; [|done].
    split; simpl.
    + destruct (nests (ftask f)); simplify_eq; by rewrite Ht.
    + apply term_insert; [done|]. by destruct (nests (ftask f)); simplify_eq.
  - split; simpl; [done|]. by apply term_insert.
  - by split.
  - split; simpl; [|done]. destruct pc as [d t|[] t|d|d|]; simpl in Hs; by simplify_eq.
  - split; simpl; [done|]. by apply term_wake.
  - split; simpl; [done|]. destruct Hw as [[-> _]|(i & w' & Hi & ->)]; [done|]. by apply term_insert.
  - assert (Ht : terminated_ p' = terminated_ p).
    { unfold Resize in HR. repeat case_decide; by simplify_eq. }
    split; simpl; [by rewrite Ht|]. apply Forall_app_2.
    + destruct nt; [by apply term_wake|done].
    + apply Forall_fmap, Forall_true. intros x. by split.
  - by split.
  - split; simpl; [intros _; by apply Hflag|]. by eapply term_notified.
  - split; simpl; [intros _; by apply Hflag|done].
Qed.

Lemma reachable_term n tr c : run step (initial n) tr c -> term_inv c.
Proof.
  intros Hr. assert (Hc : sync_inv c /\ term_inv c); [|apply Hc].
  eapply (run_invariant step (fun c => sync_inv c /\ term_inv c)); [| |exact Hr].
  - intros s l s' [] ?. eauto using sync_step, term_step.
  - split; [apply sync_initial|]. split; simpl; [done|]. apply Forall_fmap, Forall_true.
    intros x. by split.
Qed.
End pool.

Arguments pool : clear implicits.
Arguments worker_pc : clear implicits.
Arguments submit_pc : clear implicits.
Arguments frame : clear implicits.
Arguments config : clear implicits.
Arguments label : clear implicits.
