(* ===== verification/GetTask.v ===== *)
(** [ThreadPool::GetTask] (src/src/threading/thread-pool.cc) without interference:
    the order in which a worker looks for work, the termination of its loops, and
    when it goes to sleep. *)
From S2P Require Import Prelude Interfaces Deque ThreadPool.

Section get_task.
Context {Task D : Type} `{WSDequeLaws Task D}.

(** The worker alone, until it runs a task, waits or leaves. *)
Fixpoint get_task (fuel : nat) (w : nat) (p : pool Task D) (pc : worker_pc Task) :
    pool Task D * worker_pc Task :=
  match fuel with
  | O => (p, pc)
  | S fuel => match worker_step w p pc with
              | Some (p, pc) => get_task fuel w p pc
              | None => (p, pc)
              end
  end.

(** The victims of worker [w], in the order they are tried. *)
Definition steal_order (w n : nat) : list nat :=
  filter (fun j => j <> w) ((fun i => (w + 1 + i) mod n)%nat <$> seq 0 n).

(** The front of the first victim's deque that has one. *)
Fixpoint first_front (ds : list (list Task)) (victims : list nat) : option Task :=
  match victims with
  | [] => None
  | j :: victims => match default [] (ds !! j) with
                    | t :: _ => Some t
                    | [] => first_front ds victims
                    end
  end.

(** The reference: what [GetTask] returns when the queues hold [ds], [qs], [g]. *)
Definition next_task (w n : nat) (ds qs : list (list Task)) (g : list Task) : option Task :=
  match default [] (qs !! w) with
  | t :: _ => Some t
  | [] =>
      match last (default [] (ds !! w)) with
      | Some t => Some t
      | None =>
          match g with
          | t :: _ => Some t
          | [] => first_front ds (steal_order w n)
          end
      end
  end.

(** The queues of [p], as lists. *)
Record holds (p : pool Task D) (ds qs : list (list Task)) (g : list Task) : Prop := {
  holds_deques : Forall2 dq_rep (deques_ p) ds;
  holds_private : private_queues_ p = qs;
  holds_global : global_queue_ p = g;
}.

Lemma holds_set_deque p ds qs g w d :
  holds p ds qs g -> (dq_rep d (default [] (ds !! w))) -> holds (set_deque w d p) ds qs g.
Proof.
  intros [Hds Hq Hg] Hd. split; [|done..]. simpl.
  destruct (ds !! w) as [l|] eqn:Hw; simpl in Hd.
  - rewrite <- (list_insert_id ds w l Hw). by apply Forall2_insert.
  - apply lookup_ge_None in Hw. rewrite <- (Forall2_length _ _ _ Hds) in Hw.
    by rewrite list_insert_ge.
Qed.

Lemma pop_local_none p ds qs g w :
  holds p ds qs g -> default [] (ds !! w) = [] ->
  exists p', pop_local w p = (None, p') /\ holds p' ds qs g /\ same_counters p p'.
Proof.
  intros Hh He. pose proof (deque_at_rep p w ds (holds_deques _ _ _ _ Hh)) as Hr. rewrite He in Hr.
  destruct (dq_pop_rep_empty _ Hr) as (d' & Hp & Hr'). unfold pop_local. rewrite Hp.
  eexists. split_all; [done|apply holds_set_deque; [done|by rewrite He]|].
  repeat split. apply length_insert.
Qed.

Lemma pop_local_some p ds qs g w t :
  holds p ds qs g -> last (default [] (ds !! w)) = Some t -> fst (pop_local w p) = Some t.
Proof.
  intros Hh Hl. pose proof (deque_at_rep p w ds (holds_deques _ _ _ _ Hh)) as Hr.
  apply last_Some in Hl as [l Hl]. rewrite Hl in Hr.
  destruct (dq_pop_rep _ _ _ Hr) as (d' & Hp & _). unfold pop_local. by rewrite Hp.
Qed.

Lemma steal_none p ds qs g j :
  holds p ds qs g -> default [] (ds !! j) = [] ->
  exists p', steal_from j p = (None, p') /\ holds p' ds qs g /\ same_counters p p'.
Proof.
  intros Hh He. pose proof (deque_at_rep p j ds (holds_deques _ _ _ _ Hh)) as Hr. rewrite He in Hr.
  destruct (dq_steal_rep_empty _ Hr) as (d' & Hp & Hr'). unfold steal_from. rewrite Hp.
  eexists. split_all; [done|apply holds_set_deque; [done|by rewrite He]|].
  repeat split. apply length_insert.
Qed.

Lemma steal_some p ds qs g j t l :
  holds p ds qs g -> default [] (ds !! j) = t :: l -> fst (steal_from j p) = Some t.
Proof.
  intros Hh He. pose proof (deque_at_rep p j ds (holds_deques _ _ _ _ Hh)) as Hr. rewrite He in Hr.
  destruct (dq_steal_rep _ _ _ Hr) as (d' & Hp & _). unfold steal_from. by rewrite Hp.
Qed.

Lemma get_task_run fuel w p stack : get_task fuel w p (WRun stack) = (p, WRun stack).
Proof. by destruct fuel. Qed.

Lemma get_task_step fuel w p pc p' pc' :
  worker_step w p pc = Some (p', pc') -> get_task (S fuel) w p pc = get_task fuel w p' pc'.
Proof. intros Hs. simpl. by rewrite Hs. Qed.

(** Every other worker is a victim. *)
Lemma elem_of_steal_order w n j : (w < n)%nat -> j ∈ steal_order w n <-> (j < n)%nat /\ j <> w.
Proof.
  intros Hw. unfold steal_order. rewrite list_elem_of_filter, list_elem_of_fmap. split.
  - intros [? (i & -> & _)]. split; [|done]. apply Nat.mod_upper_bound. lia.
  - intros [Hj Hne]. split; [done|].
    destruct (decide (w < j)%nat).
    + exists (j - w - 1)%nat. rewrite elem_of_seq. split; [|lia].
      rewrite Nat.mod_small by lia. lia.
    + exists (j + n - w - 1)%nat. rewrite elem_of_seq. split; [|lia].
      replace (w + 1 + (j + n - w - 1))%nat with (j + 1 * n)%nat by lia.
      rewrite Nat.Div0.mod_add. by rewrite Nat.mod_small.
Qed.

(** The stealing loop from round [i] on. *)
Definition victims_from (i w n : nat) : list nat :=
  filter (fun j => j <> w) ((fun i => (w + 1 + i) mod n)%nat <$> seq i (n - i)).

Lemma steal_loop k i w p ds qs g fuel :
  holds p ds qs g -> (i + k = pool_size_ p)%nat -> (k < fuel)%nat ->
  match first_front ds (victims_from i w (pool_size_ p)) with
  | Some t => exists p', get_task fuel w p (WSteal i) = (p', WRun [mkFrame t true])
  | None => exists p', get_task fuel w p (WSteal i) = get_task (fuel - S k) w p' WLock /\
                       holds p' ds qs g /\ same_counters p p'
  end.
Proof.
  revert i p fuel. induction k as [|k IH]; intros i p [|fuel] Hh Hk Hf; try lia.
  - unfold victims_from. replace (pool_size_ p - i)%nat with 0%nat by lia. simpl.
    rewrite decide_False by lia. exists p. rewrite Nat.sub_0_r. split_all; [done|done|apply same_counters_refl].
  - unfold victims_from. replace (pool_size_ p - i)%nat with (S k) by lia.
    rewrite <- cons_seq, fmap_cons, filter_cons.
    replace (seq (S i) k) with (seq (S i) (pool_size_ p - S i)) by (f_equal; lia).
    fold (victims_from (S i) w (pool_size_ p)).
    destruct (decide ((w + 1 + i) mod pool_size_ p <> w)%nat) as [Hne|Heq].
    + assert (Hstep : worker_step w p (WSteal i) =
        let '(t, p') := steal_from ((w + 1 + i) mod pool_size_ p)%nat p in Some (p', found t (WSteal (S i)))).
      { simpl. rewrite decide_True by lia. unfold steal_target. by rewrite decide_False. }
      simpl first_front. destruct (default [] (ds !! ((w + 1 + i) mod pool_size_ p)%nat)) as [|t l] eqn:Hv.
      * destruct (steal_none _ _ _ _ _ Hh Hv) as (p' & Hs & Hh' & Hc). rewrite Hs in Hstep.
        rewrite (get_task_step _ _ _ _ _ _ Hstep). simpl found. destruct Hc as (Hsz & Hrest).
        specialize (IH (S i) p' fuel Hh'). rewrite Hsz in IH. specialize (IH ltac:(lia) ltac:(lia)).
        case_match; [done|]. destruct IH as (p2 & Hg & ? & Hc2). exists p2. rewrite Hg.
        split_all; [done..|]. unfold same_counters in *. destruct_and?. split_all; congruence.
      * pose proof (steal_some _ _ _ _ _ _ _ Hh Hv) as Hs.
        destruct (steal_from _ p) as [o p'] eqn:Hst. simpl in Hs. subst o.
        rewrite (get_task_step _ _ _ _ _ _ Hstep). exists p'. simpl found. by rewrite get_task_run.
    + assert (Hstep : worker_step w p (WSteal i) = Some (p, WSteal (S i))).
      { simpl. rewrite decide_True by lia. unfold steal_target. rewrite decide_True; [done|].
        by destruct (decide ((w + 1 + i) mod pool_size_ p = w)%nat). }
      rewrite (get_task_step _ _ _ _ _ _ Hstep).
      specialize (IH (S i) p fuel Hh ltac:(lia) ltac:(lia)). done.
Qed.

(** [HasWork]'s scan of the deques finds nothing when they are empty. *)
Lemma has_work_loop k i w p ds qs g fuel :
  holds p ds qs g -> (i + k = pool_size_ p)%nat -> (k < fuel)%nat ->
  (forall j, (j < pool_size_ p)%nat -> default [] (ds !! j) = []) ->
  get_task fuel w p (WHasDeque i) = get_task (fuel - S k) w p WSleep.
Proof.
  intros Hh. revert i fuel. induction k as [|k IH]; intros i [|fuel] Hk Hf He; try lia; simpl.
  - rewrite decide_False by lia. by rewrite Nat.sub_0_r.
  - rewrite decide_True by lia.
    pose proof (deque_at_rep p i ds (holds_deques _ _ _ _ Hh)) as Hr.
    rewrite (He i) in Hr by lia. rewrite (dq_is_empty_rep _ _ Hr). simpl.
    apply IH; [lia|lia|done].
Qed.

Lemma first_front_none ds l j : first_front ds l = None -> j ∈ l -> default [] (ds !! j) = [].
Proof.
  induction l as [|x l IH]; intros He Hj; [by apply not_elem_of_nil in Hj|].
  simpl in He. destruct (default [] (ds !! x)) as [|t l'] eqn:Hx; [|done].
  apply elem_of_cons in Hj as [->|]; auto.
Qed.

Lemma get_task_sleep n w p ds qs g fuel :
  holds p ds qs g -> terminated_ p = false -> pool_mutex_ p = false -> (w < pool_size_ p)%nat ->
  pool_size_ p = n -> default [] (qs !! w) = [] -> g = [] ->
  (forall j, (j < n)%nat -> default [] (ds !! j) = []) ->
  get_task (n + 7 + fuel) w p WLock =
  (set_mutex false (add_sleeping 1 (set_mutex true p)), WWaiting).
Proof.
  intros Hh Ht Hm Hw Hn Hq Hg Hd. destruct p as [n' dq pq gq te sl ac mx]. simpl in *.
  destruct Hh as [Hds Hp Hgl]. simpl in *. subst.
  replace (n + 7 + fuel)%nat with (S (S (S (S (n + S (S (S fuel)))))))%nat by lia.
  set (pl := mkPool n dq qs [] false sl ac true).
  rewrite (get_task_step _ _ _ _ pl WLocked) by done.
  rewrite (get_task_step _ _ _ _ pl WHasPrivate) by (simpl; by rewrite bool_decide_false by lia).
  rewrite (get_task_step _ _ _ _ pl WHasGlobal).
  2: { simpl. unfold private_queue. simpl. by rewrite Hq. }
  rewrite (get_task_step _ _ _ _ pl (WHasDeque 0)) by done.
  rewrite (has_work_loop n 0 w pl ds qs [] (n + S (S (S fuel)))); [|by split|done|lia|done].
  replace (n + S (S (S fuel)) - S n)%nat with (S (S fuel)) by lia. simpl. by destruct fuel.
Qed.

(** Without interference [GetTask] terminates within [2 * pool_size + 12] steps and
    returns what the reference [next_task] says: its private queue's front first,
    else the back of its own deque, else the front of the global queue, else the
    front of the first non-empty deque of the other workers in cyclic order. When
    there is nothing, it ends up waiting on [work_cv_], counted as sleeping, with
    the mutex released, and all those queues are empty. *)
Theorem GetTask_alone p ds qs g w :
  holds p ds qs g -> terminated_ p = false -> pool_mutex_ p = false -> (w < pool_size_ p)%nat ->
  match next_task w (pool_size_ p) ds qs g with
  | Some t => exists p', get_task (2 * pool_size_ p + 12) w p WLoop = (p', WRun [mkFrame t true])
  | None => exists p', get_task (2 * pool_size_ p + 12) w p WLoop = (p', WWaiting) /\
      holds p' ds qs g /\ sleeping_workers_ p' = sleeping_workers_ p + 1 /\ pool_mutex_ p' = false /\
      default [] (qs !! w) = [] /\ g = [] /\
      (forall j, (j < pool_size_ p)%nat -> default [] (ds !! j) = [])
  end.
Proof.
  intros Hh Ht Hm Hw. set (n := pool_size_ p).
  replace (2 * n + 12)%nat with (S (S (S (S (n + 1 + (n + 7 + 0))))))%nat by lia.
  rewrite (get_task_step _ _ _ _ p WPrivate) by (simpl; by rewrite Ht).
  assert (Hstep1 : worker_step w p WPrivate =
    let '(t, p') := PopPrivateTask w p in Some (p', found t WLocal)) by done.
  unfold next_task, PopPrivateTask, private_queue in *. rewrite (holds_private _ _ _ _ Hh) in Hstep1.
  destruct (default [] (qs !! w)) as [|t l] eqn:Hqw.
  2: { rewrite (get_task_step _ _ _ _ _ _ Hstep1). simpl found.
       by eexists; rewrite get_task_run. }
  rewrite (get_task_step _ _ _ _ _ _ Hstep1). simpl found.
  assert (Hstep2 : worker_step w p WLocal =
    let '(t, p') := pop_local w p in Some (p', found t WGlobal)) by done.
  destruct (last (default [] (ds !! w))) as [t|] eqn:Hlast.
  { pose proof (pop_local_some _ _ _ _ _ _ Hh Hlast) as Hp.
    destruct (pop_local w p) as [o p']. simpl in Hp. subst o.
    rewrite (get_task_step _ _ _ _ _ _ Hstep2). simpl found. by eexists; rewrite get_task_run. }
  apply last_None in Hlast.
  destruct (pop_local_none _ _ _ _ _ Hh Hlast) as (p1 & Hp & Hh1 & Hc1). rewrite Hp in Hstep2.
  rewrite (get_task_step _ _ _ _ _ _ Hstep2). simpl found.
  assert (Hstep3 : worker_step w p1 WGlobal =
    let '(t, p') := pop_global p1 in Some (p', found t (WSteal 0))) by done.
  unfold pop_global in Hstep3. rewrite (holds_global _ _ _ _ Hh1) in Hstep3.
  destruct g as [|t g].
  2: { rewrite (get_task_step _ _ _ _ _ _ Hstep3). simpl found. by eexists; rewrite get_task_run. }
  rewrite (get_task_step _ _ _ _ _ _ Hstep3). simpl found.
  destruct Hc1 as (Hsz & _ & Ht1 & Hs1 & _ & Hm1). fold n in Hsz.
  pose proof (steal_loop n 0 w p1 ds qs [] (n + 1 + (n + 7 + 0)) Hh1) as Hsteal.
  rewrite Hsz in Hsteal. specialize (Hsteal eq_refl ltac:(lia)).
  unfold victims_from in Hsteal. rewrite Nat.sub_0_r in Hsteal. fold (steal_order w n) in Hsteal.
  destruct (first_front ds (steal_order w n)) as [t|] eqn:Hhd; [done|].
  destruct Hsteal as (p2 & -> & Hh2 & (Hsz2 & _ & Ht2 & Hs2 & _ & Hm2)).
  replace (n + 1 + (n + 7 + 0) - S n)%nat with (n + 7 + 0)%nat by lia.
  assert (Hempty : forall j, (j < n)%nat -> default [] (ds !! j) = []).
  { intros j Hj. destruct (decide (j = w)) as [->|]; [done|].
    eapply first_front_none; [done|]. by apply elem_of_steal_order. }
  rewrite (get_task_sleep n w p2 ds qs [] 0) by (done || congruence || lia).
  eexists. split_all; [done|destruct Hh2; by split|simpl; congruence|done..].
Qed.
End get_task.

(** Worker 0 of a pool of two finds a task in the global queue. *)
Lemma GetTask_alone_witness :
  exists p', get_task 16 0 (set_global [7%nat] (ThreadPool (D := deque nat) 2)) WLoop =
             (p', WRun [mkFrame 7%nat true]).
Proof.
  apply (GetTask_alone (set_global [7%nat] (ThreadPool (D := deque nat) 2))
    (replicate 2 []) [[]; []] [7%nat] 0); [|done|done|simpl; lia].
  split; [|done|done]. apply Forall2_replicate, dq_new_rep.
Defined.
