(* ===== verification/PoolTheorems.v ===== *)
(** What the thread pool of src/src/threading/thread-pool.cc guarantees, and where
    it falls short: conservation of tasks, the active-task counter, the pool mutex,
    termination, the destructor; the lost wakeup of [Submit], tasks stranded by
    [Resize], and the counter leaked by [AutoParallelThreadTask]. *)
From S2P Require Import Prelude Interfaces Deque ThreadPool.

Section theorems.
Context {Task D : Type} `{WSDequeLaws Task D} `{TaskKind Task}.
Implicit Types c : config Task D.

(** C2. Conservation: at every moment of every execution (any number of workers and
    submitting threads, with stealing, nesting, resizing and termination) the tasks
    submitted so far are, as a multiset, those being pushed, those in the queues,
    those running and those finished. No task is lost or run twice. *)
Theorem pool_conservation n tr c :
  run step (initial n) tr c ->
  exists q, queued (cpool c) q /\
    submitted c ≡ₚ inflight (submitters c) ++ q ++ (ftask <$> running (workers c)) ++ finished c.
Proof.
  intros Hr. destruct (inv_queued _ (pool_reachable_inv n tr c Hr)) as (q & Hq & Hs & _). by exists q.
Qed.

(** Frames pushed by a task that decrements the counter are counted. *)
Definition counted_inv c : Prop :=
  leaked c = 0%nat /\ Forall (fun f : frame Task => fcounted f = true) (running (workers c)).

Lemma running_frames_insert P ws i w (pc pc' : worker_pc Task) :
  ws !! i = Some (w, pc) -> Forall P (running ws) ->
  (Forall P (frames_of pc) -> Forall P (frames_of pc')) -> Forall P (running (<[i := (w, pc')]> ws)).
Proof.
  intros Hi Hf Hpc. destruct (running_insert _ _ _ _ Hi) as (r & Ho & Hn).
  rewrite Ho in Hf. apply Forall_app in Hf as [? ?]. rewrite Hn. apply Forall_app; auto.
Qed.

Lemma worker_step_frames w p (pc : worker_pc Task) p' pc' :
  worker_step w p pc = Some (p', pc') -> Forall (fun f : frame Task => fcounted f = true) (frames_of pc').
Proof.
  assert (Hf : forall r other, frames_of other = [] ->
    Forall (fun f : frame Task => fcounted f = true) (frames_of (found r other))).
  { intros [t|] other Ho; simpl; [by repeat constructor|by rewrite Ho]. }
  intros Hst. destruct pc; simpl in Hst; repeat case_match; simplify_eq; try done;
    try (by apply Hf); by repeat case_match.
Qed.

Lemma counted_step c l c' :
  (forall t : Task, nests t <> NestUncounted) -> counted_inv c -> step c l c' -> counted_inv c'.
Proof.
  intros Hno [Hl Hf] Hst. destruct Hst as [p ws ss k su fi le i w pc p' pc' Hi Hw
    |p ws ss k su fi le i w st t p' pc' Hi Hfin|p ws ss k su fi le i w st p' pc' Hi Hn
    |p ws ss k su fi le i w Hi| |p ws ss k su fi le j pc p' pc' Hj Hs
    |p ws ss k su fi le j d Hj Hm Hd|p ws ss k su fi le j w ws' Hj Hm Hw|
    p ws ss k su fi le n p' st nt Hm HR|p ws ss su fi le|p ws ss su fi le Hm|]; split; simpl in *; try done.
  - eapply running_frames_insert; [done..|]. intros _. by eapply worker_step_frames.
  - destruct st as [|[t' b] st]; [done|]. destruct (running_insert _ _ _ _ Hi) as (r & Ho & _).
    rewrite Ho in Hf. apply Forall_app in Hf as [Hf _]. apply Forall_cons in Hf as [Hb _].
    simpl in Hb. by subst b.
  - eapply running_frames_insert; [done..|]. destruct st as [|f st]; simpl in *; simplify_eq.
    intros Hc. apply Forall_cons in Hc as [_ Hc]. by destruct st.
  - eapply running_frames_insert; [done..|]. intros Hc. unfold nest_task in Hn.
    destruct st as [|f st]; [done|]. destruct (PopPrivateTask w p) as [[t|] p1]; [|done].
    specialize (Hno (ftask f)). destruct (nests (ftask f)); simplify_eq; by constructor.
  - by eapply running_frames_insert.
  - by rewrite running_wake.
  - destruct Hw as [[-> _]|(i & w' & Hi & ->)]; [done|]. by eapply running_frames_insert.
  - rewrite running_app, running_started, app_nil_r. by destruct nt; rewrite ?running_wake.
  - by rewrite running_wake.
Qed.

(** C27. [active_tasks_] is exact as long as no [AutoParallelThreadTask] nests: it is the
    number of tasks counted but not pushed yet, queued or running, so
    [HasActiveTasks] answers whether there is any. *)
Theorem active_tasks_exact n tr c :
  (forall t : Task, nests t <> NestUncounted) ->
  run step (initial n) tr c ->
  exists q, queued (cpool c) q /\
    active_tasks_ (cpool c) =
      Z.of_nat (length (counted (submitters c) ++ q ++ (ftask <$> running (workers c)))) /\
    (HasActiveTasks (cpool c) = false <->
     counted (submitters c) = [] /\ q = [] /\ running (workers c) = []).
Proof.
  intros Hno Hr. destruct (inv_queued _ (pool_reachable_inv n tr c Hr)) as (q & Hq & _ & Ha).
  assert (Hl : leaked c = 0%nat).
  { assert (Hc : counted_inv c); [|apply Hc]. eapply (run_invariant step counted_inv); [| |exact Hr].
    - intros. by eapply counted_step.
    - split; simpl; [done|]. by rewrite running_started. }
  exists q. rewrite !length_app, length_fmap. split_all; [done|lia|].
  unfold HasActiveTasks. rewrite Ha, Hl.
  rewrite Z.gtb_ltb, Z.ltb_ge, <- !length_zero_iff_nil. lia.
Qed.

(** [pool_mutex_] is held by exactly one worker or by none, and
    [sleeping_workers_] is the number of workers between their increment and their
    decrement of it, in every execution. *)
Theorem pool_mutex_exclusive n tr c :
  run step (initial n) tr c ->
  count holds_mutex (workers c) = Z.b2z (pool_mutex_ (cpool c)) /\
  sleeping_workers_ (cpool c) = count asleep (workers c) /\
  (forall i j x y, workers c !! i = Some x -> workers c !! j = Some y ->
     holds_mutex (snd x) = true -> holds_mutex (snd y) = true -> i = j).
Proof.
  intros Hr. destruct (reachable_sync n tr c Hr) as [Hm Hs]. split_all; [done..|].
  intros i j [w pc] [w' pc'] Hi Hj Hx Hy. simpl in *. destruct (decide (i = j)) as [|Hne]; [done|].
  pose proof (count_insert holds_mutex _ _ _ _ WLoop Hi) as Hc. rewrite Hx in Hc. simpl in Hc.
  assert (Hj' : (<[i := (w, WLoop)]> (workers c)) !! j = Some (w', pc')) by (by rewrite list_lookup_insert_ne).
  pose proof (count_pos holds_mutex _ _ _ _ Hj' Hy). destruct (pool_mutex_ (cpool c)); simpl in *; lia.
Qed.

Lemma all_exited_or (ws : list (nat * worker_pc Task)) :
  Forall (fun x => snd x = WExit) ws \/
  exists i w pc, ws !! i = Some (w, pc) /\ pc <> WExit.
Proof.
  induction ws as [|[w pc] ws [IH|(i & w' & pc' & ? & ?)]]; [by left| |right; by exists (S i), w', pc'].
  assert (pc = WExit \/ pc <> WExit) as [->|] by (destruct pc; (by left) || by right);
    [left; by constructor|right; by exists 0%nat, w, pc].
Qed.

(** C34. [Terminate] cannot hang on a sleeping worker: once it has notified [work_cv_],
    as long as some worker has not left, some worker can take a step of its loop or
    finish its task, and none is blocked in [Wait]. *)
Theorem terminate_progress n tr c :
  run step (initial n) tr c -> terminator c = KJoin ->
  Forall (fun x => snd x <> WWaiting) (workers c) /\
  (Forall (fun x => snd x = WExit) (workers c) \/
   exists i c', step c (LWorker i) c' \/ step c (LFinish i) c').
Proof.
  intros Hr Hk. pose proof (reachable_sync n tr c Hr) as [Hm _].
  destruct (reachable_term n tr c Hr) as [_ Hws]. rewrite Hk in Hws. simpl in Hws.
  destruct c as [p ws ss k su fi le]. simpl in *. subst k. split.
  { eapply Forall_impl; [exact Hws|]. intros [w pc] [_ Hp] He.
    simpl in *. subst pc. by specialize (Hp eq_refl). }
  assert (Hgo : forall i w pc, ws !! i = Some (w, pc) -> worker_step w p pc <> None ->
    exists i c', step (mkConfig p ws ss KJoin su fi le) (LWorker i) c' \/
                 step (mkConfig p ws ss KJoin su fi le) (LFinish i) c').
  { intros i w pc Hi Hs. destruct (worker_step w p pc) as [[p' pc']|] eqn:E; [|done].
    exists i. eexists. left. by eapply step_worker. }
  destruct (decide (pool_mutex_ p = true)) as [Hheld|Hfree].
  - (* the holder can step *) right. rewrite Hheld in Hm. simpl in Hm.
    assert (exists i w pc, ws !! i = Some (w, pc) /\ holds_mutex pc = true) as (i & w & pc & Hi & Hh).
    { clear -Hm. induction ws as [|[w pc] ws IH]; [done|]. unfold count in Hm. rewrite bind_cons in Hm.
      simpl in Hm. destruct (holds_mutex pc) eqn:E; [by exists 0%nat, w, pc|].
      destruct IH as (i & w' & pc' & ? & ?); [done|]. by exists (S i), w', pc'. }
    apply (Hgo i w pc Hi). destruct pc; simpl in *; repeat case_match; done.
  - apply not_true_is_false in Hfree.
    destruct (all_exited_or ws) as [|(i & w & pc & Hi & Hpc)]; [by left|right].
    pose proof (Forall_lookup_1 _ _ _ _ Hws Hi) as [Hst Hp]. specialize (Hp eq_refl). simpl in *.
    destruct pc as [| | | |j| | | | | | | | | | |[|[t b] st]|];
      try done; try (apply (Hgo i _ _ Hi); simpl; rewrite ?Hfree; repeat case_match; done).
    exists i. eexists. right. by eapply step_finish.
Qed.

(** ** The destructor *)

Lemma drain_deque_rep fuel (d : D) l :
  dq_rep d l -> (length l < fuel)%nat -> fst (drain_deque fuel d) ≡ₚ l.
Proof.
  revert d l. induction fuel as [|fuel IH]; intros d l Hr Hf; [lia|]. simpl.
  destruct l as [|x l _] using rev_ind.
  - destruct (dq_pop_rep_empty _ Hr) as (d' & -> & _). done.
  - destruct (dq_pop_rep _ _ _ Hr) as (d' & -> & Hr'). rewrite length_app in Hf. simpl in Hf.
    specialize (IH d' l Hr' ltac:(lia)). destruct (drain_deque fuel d'). simpl in *.
    rewrite IH. solve_Permutation.
Qed.

Lemma seq_bind_join (ls : list (list Task)) (f : nat -> list Task) :
  (forall i l, ls !! i = Some l -> f i ≡ₚ l) -> seq 0 (length ls) ≫= f ≡ₚ mjoin ls.
Proof.
  induction ls as [|l ls IH] using rev_ind; intros Hf; [done|].
  rewrite length_app, Nat.add_comm. simpl length. rewrite seq_S, bind_app, join_app. simpl.
  rewrite !app_nil_r. rewrite IH; [|by intros i x Hi; apply Hf, lookup_app_l_Some].
  rewrite (Hf (length ls) l) by (by apply list_lookup_middle). done.
Qed.

(** The destructor gives a result to every queued task: when no worker was ever
    removed (every deque belongs to the current pool), the tasks it completes with
    [{false, {}}] are exactly those of the global queue, the deques and the private
    queues, so no future waits for a promise that is never set. [fuel] bounds the
    pops of one deque. *)
Theorem destructor_completes p q fuel :
  queued p q -> length (deques_ p) = pool_size_ p -> (length q < fuel)%nat ->
  destroy (Task := Task) (D := D) fuel p ≡ₚ q.
Proof.
  intros (ds & Hds & Hlen & Hq) Hsize Hf. unfold destroy. rewrite Hq, <- Hsize.
  pose proof (Forall2_length _ _ _ Hds) as Hl.
  rewrite <- Hlen at 2. rewrite (seq_bind_join (private_queues_ p)).
  2: { intros i l Hi. unfold private_queue. by rewrite Hi. }
  rewrite Hl, (seq_bind_join ds).
  2: { intros i l Hi. pose proof (deque_at_rep p i ds Hds) as Hr. rewrite Hi in Hr.
       apply drain_deque_rep; [done|]. eapply Nat.le_lt_trans; [|exact Hf].
       destruct (join_insert_perm _ _ _ Hi) as (r & Ho & _).
       rewrite (perm_len _ _ Hq), !length_app, (perm_len _ _ Ho), length_app. lia. }
  solve_Permutation.
Qed.

(** ** A scheduler, to run the semantics *)

Inductive action :=
| AWorker (i : nat) | AFinish (i : nat) | ANest (i : nat)
| ASubmit (d : dest) (t : Task) | ASubmitter (j : nat) | AResize (n : nat).

Definition exec1 (a : action) c : option (label Task * config Task D) :=
  let '(mkConfig p ws ss k su fi le) := c in
  match a with
  | AWorker i =>
      '(w, pc) ← ws !! i; '(p', pc') ← worker_step w p pc;
      Some (LWorker i, mkConfig p' (<[i := (w, pc')]> ws) ss k su fi le)
  | AFinish i =>
      '(w, pc) ← ws !! i;
      match pc with
      | WRun st => '(t, p', pc') ← finish_task p st;
          Some (LFinish i, mkConfig p' (<[i := (w, pc')]> ws) ss k su (fi ++ [t])
                  (match st with mkFrame _ false :: _ => S le | _ => le end))
      | _ => None
      end
  | ANest i =>
      '(w, pc) ← ws !! i;
      match pc with
      | WRun st => '(p', pc') ← nest_task w p st;
          Some (LNest i, mkConfig p' (<[i := (w, pc')]> ws) ss k su fi le)
      | _ => None
      end
  | ASubmit d t =>
      if match d with ToGlobal => true
         | FromWorker w | ToWorker w => bool_decide (w < length (deques_ p))%nat end
      then Some (LSubmit t, mkConfig p ws (ss ++ [SIncrement d t]) k (su ++ [t]) fi le) else None
  | ASubmitter j =>
      pc ← ss !! j; '(p', pc') ← submit_step p pc;
      Some (LSubmitter j, mkConfig p' ws (<[j := pc']> ss) k su fi le)
  | AResize n =>
      if pool_mutex_ p then None
      else let '(p', started, notify) := Resize n p in
           Some (LResize n, mkConfig p' ((if notify then wake_all ws else ws) ++ ((., WLoop) <$> started))
                              ss k su fi le)
  end.

Fixpoint exec (acts : list action) c : option (list (label Task) * config Task D) :=
  match acts with
  | [] => Some ([], c)
  | a :: acts => '(e, c) ← exec1 a c; '(tr, c) ← exec acts c; Some (e :: tr, c)
  end.

Lemma pool_exec1_step a c e c' : exec1 a c = Some (e, c') -> step c e c'.
Proof.
  destruct c as [p ws ss k su fi le]. destruct a as [i|i|i|d t|j|n]; simpl; intros He.
  - destruct (ws !! i) as [[w pc]|] eqn:Hi; simplify_eq/=.
    destruct (worker_step w p pc) as [[p' pc']|] eqn:Hs; simplify_eq/=. by eapply step_worker.
  - destruct (ws !! i) as [[w pc]|] eqn:Hi; simplify_eq/=. destruct pc; simplify_eq.
    destruct (finish_task p stack) as [[[t p'] pc']|] eqn:Hs; simplify_eq/=. by eapply step_finish.
  - destruct (ws !! i) as [[w pc]|] eqn:Hi; simplify_eq/=. destruct pc; simplify_eq.
    destruct (nest_task w p stack) as [[p' pc']|] eqn:Hs; simplify_eq/=. by eapply step_nest.
  - destruct d; [|case_bool_decide..]; simplify_eq; by constructor.
  - destruct (ss !! j) as [pc|] eqn:Hj; simplify_eq/=.
    destruct (submit_step p pc) as [[p' pc']|] eqn:Hs; simplify_eq/=. by eapply step_submitter.
  - destruct (pool_mutex_ p) eqn:Hm; [done|]. destruct (Resize n p) as [[p' st] nt] eqn:HR.
    simplify_eq. by eapply step_resize.
Qed.

Lemma pool_exec_run acts c tr c' : exec acts c = Some (tr, c') -> run step c tr c'.
Proof.
  revert c tr. induction acts as [|a acts IH]; simpl; intros c tr He; simplify_eq; [constructor|].
  destruct (exec1 a c) as [[e c1]|] eqn:E1; simplify_eq/=.
  destruct (exec acts c1) as [[tr1 c2]|] eqn:E2; simplify_eq/=.
  econstructor; eauto using pool_exec1_step.
Qed.

(** ** Tasks of a removed worker *)

(** [t] waits in the private queue of a worker index nobody serves. *)
Definition stranded (w : nat) (t : Task) c : Prop :=
  t ∈ private_queue (cpool c) w /\ (pool_size_ (cpool c) <= w)%nat /\
  Forall (fun x => fst x = w -> snd x = WExit) (workers c).

Definition is_resize (l : label Task) : bool := match l with LResize _ => true | _ => false end.

Lemma private_queue_take w w' p t :
  w <> w' -> t ∈ private_queue p w -> t ∈ private_queue (Task := Task) (D := D) (snd (PopPrivateTask w' p)) w.
Proof.
  intros Hne Ht. unfold PopPrivateTask, private_queue in *.
  destruct (default [] (private_queues_ p !! w')); simpl; [done|]. by rewrite list_lookup_insert_ne.
Qed.

Lemma worker_step_private w w' p (pc : worker_pc Task) p' pc' :
  worker_step w' p pc = Some (p', pc') -> w <> w' ->
  pool_size_ p' = pool_size_ p /\ forall t, t ∈ private_queue p w -> t ∈ private_queue p' w.
Proof.
  intros Hst Hne. destruct pc; simpl in Hst; try (repeat case_match; simplify_eq; by split).
  - pose proof (fun t => private_queue_take w w' p t Hne). destruct (takes_private w' p) as [_ [? _]].
    destruct (PopPrivateTask w' p). by simplify_eq.
  - unfold pop_local in Hst. destruct (dq_pop (deque_at p w')). by simplify_eq.
  - unfold pop_global in Hst. by destruct (global_queue_ p); simplify_eq.
  - unfold steal_from in Hst. repeat (case_decide; simplify_eq; try by split).
    destruct (dq_steal (deque_at p (steal_target w' i p))). by simplify_eq.
Qed.

Lemma stranded_workers_insert (ws : list (nat * worker_pc Task)) i w w' (pc pc' : worker_pc Task) :
  Forall (fun x => fst x = w -> snd x = WExit) ws -> ws !! i = Some (w', pc) -> pc <> WExit ->
  w <> w' /\ Forall (fun x => fst x = w -> snd x = WExit) (<[i := (w', pc')]> ws).
Proof.
  intros Hf Hi Hpc. pose proof (Forall_lookup_1 _ _ _ _ Hf Hi) as Hw. simpl in Hw.
  assert (Hne : w <> w') by (intros ->; auto). split; [done|].
  apply Forall_insert; [done|]. simpl. intros ->. done.
Qed.

Lemma stranded_wake ws w :
  Forall (fun x : nat * worker_pc Task => fst x = w -> snd x = WExit) ws ->
  Forall (fun x => fst x = w -> snd x = WExit) (wake_all ws).
Proof.
  intros Hf. apply Forall_fmap. eapply Forall_impl; [exact Hf|].
  intros [w' pc] Hx Hw. simpl in *. by rewrite (Hx Hw).
Qed.

Lemma stranded_step w t c l c' : stranded w t c -> step c l c' -> is_resize l = false -> stranded w t c'.
Proof.
  intros (Ht & Hsz & Hws) Hst Hr. destruct Hst as [p ws ss k su fi le i w' pc p' pc' Hi Hw
    |p ws ss k su fi le i w' st t' p' pc' Hi Hf|p ws ss k su fi le i w' st p' pc' Hi Hn
    |p ws ss k su fi le i w' Hi| |p ws ss k su fi le j pc p' pc' Hj Hs
    |p ws ss k su fi le j d Hj Hm Hd|p ws ss k su fi le j w' ws' Hj Hm Hw|
    p ws ss k su fi le n p' st nt Hm HR|p ws ss su fi le|p ws ss su fi le Hm|]; simpl in *; try done.
  - destruct (stranded_workers_insert _ _ _ _ _ pc' Hws Hi) as [Hne ?]; [by intros ->|].
    destruct (worker_step_private _ _ _ _ _ _ Hw Hne) as [Hp Hq].
    unfold stranded. simpl. rewrite Hp. auto.
  - destruct (stranded_workers_insert _ _ _ _ _ pc' Hws Hi) as [Hne ?]; [done|].
    destruct st as [|[t1 b] st]; simpl in Hf; simplify_eq. by destruct b.
  - destruct (stranded_workers_insert _ _ _ _ _ pc' Hws Hi) as [Hne ?]; [done|].
    destruct (takes_private w' p) as [_ [Hp _]]. pose proof (private_queue_take w w' p t Hne Ht) as Hq.
    unfold nest_task in Hn. destruct st as [|f st]; [done|].
    destruct (PopPrivateTask w' p) as [[t1|] p1]; [|done]. simpl in *. unfold stranded. simpl.
    destruct (nests (ftask f)); simplify_eq; rewrite Hp; auto.
  - by destruct (stranded_workers_insert _ _ _ _ _ WWoken Hws Hi) as [Hne ?].
  - unfold stranded. simpl. destruct pc as [d t1|[|w1|w1] t1|d|d|]; simpl in Hs; simplify_eq; try done.
    split_all; [|done..]. unfold private_queue in *. simpl. destruct (decide (w1 = w)) as [->|].
    + destruct (private_queues_ p !! w) as [l|] eqn:Hl; simpl in *; [|by apply not_elem_of_nil in Ht].
      rewrite list_lookup_insert_eq by (by eapply lookup_lt_Some). simpl. set_solver.
    + by rewrite list_lookup_insert_ne.
  - unfold stranded. simpl. auto using stranded_wake.
  - destruct Hw as [[-> _]|(i & w1 & Hi & ->)]; [done|].
    by destruct (stranded_workers_insert _ _ _ _ _ WWoken Hws Hi) as [Hne ?].
  - unfold stranded. simpl. auto using stranded_wake.
Qed.

Lemma stranded_run w t c tr c' :
  stranded w t c -> run step c tr c' -> Forall (fun l => is_resize l = false) tr -> stranded w t c'.
Proof.
  intros Hs Hr. induction Hr as [|c l c1 tr c2 Hst Hr IH]; [done|].
  intros Hf. apply Forall_cons in Hf as [? ?]. eauto using stranded_step.
Qed.
End theorems.

Arguments action : clear implicits.

(** ** Executions of the pool with Chase-Lev deques *)

(** A task known only by how it treats private tasks. *)
#[local] Instance nesting_kind : TaskKind nesting := fun x => x.

Definition worker0 (n : nat) {Task} : list (action Task) := replicate n (AWorker 0).
Definition submit {Task} (j : nat) (d : dest) (t : Task) : list (action Task) :=
  [ASubmit d t; ASubmitter j; ASubmitter j; ASubmitter j].

Definition end_of {Task} `{TaskKind Task} (n : nat) (acts : list (action Task)) :
    list (label Task) * config Task (deque Task) :=
  default ([], initial n) (exec acts (initial n)).

(** Labels that need the outside world: a spurious wake-up of the condition
    variable, or a new call into the pool. *)
Definition external {Task} (l : label Task) : bool :=
  match l with LSpurious _ | LSubmit _ | LResize _ | LTerminate => true | _ => false end.

(** Nothing moves by itself when every worker waits and every submission is done. *)
Lemma all_asleep_external {Task D} `{WSDeque Task D} `{TaskKind Task} (c : config Task D) l c' :
  Forall (fun x => snd x = WWaiting) (workers c) -> Forall (fun x => x = SDone) (submitters c) ->
  step c l c' -> external l = true.
Proof.
  intros Hws Hss Hst.
  destruct Hst; simpl in *; try done; exfalso;
    try (match goal with Hi : ?l !! _ = Some _, Hf : Forall _ ?l |- _ =>
           pose proof (Forall_lookup_1 _ _ _ _ Hf Hi) as Hx end; simpl in Hx; by simplify_eq).
Qed.

(** The worker scans the queues, a submission goes through, the worker sleeps. *)
Definition lost_wakeup_run (t : nesting) : list (action nesting) :=
  worker0 12 ++ submit 0 ToGlobal t ++ worker0 2.

(** C35. [Submit] can lose its wake-up: it reads [sleeping_workers_] without
    [pool_mutex_] while [GetTask] increments it only after [HasWork] found nothing.
    In this execution of a pool of one worker the submission has returned, the task
    is in the global queue, the only worker waits on [work_cv_], and nothing but a
    spurious wake-up or a new call into the pool can ever happen. *)
Theorem submit_lost_wakeup (t : nesting) :
  exists c, run step (initial 1) (fst (end_of 1 (lost_wakeup_run t))) c /\
    global_queue_ (cpool c) = [t] /\ workers c = [(0%nat, WWaiting)] /\ submitters c = [SDone] /\
    (forall l c', step c l c' -> external l = true).
Proof.
  exists (snd (end_of 1 (lost_wakeup_run t))). split_all; try (vm_compute; reflexivity).
  - apply (pool_exec_run (lost_wakeup_run t)). vm_compute. reflexivity.
  - intros l c'. apply all_asleep_external; vm_compute; repeat constructor.
Qed.

(** A task of the kind of [AutoParallelThreadTask] runs, is sent a private task and
    runs it while it waits. *)
Definition leak_run : list (action nesting) :=
  submit 0 ToGlobal NestUncounted ++ worker0 4 ++ submit 1 (ToWorker 0) NoNesting ++
  [ANest 0; AFinish 0; AFinish 0].

(** The active-task counter leaks: [AutoParallelThreadTask::RunInternal] runs the
    private tasks it pops without [DecrementActiveTasks], so an execution in which
    every submitted task has finished ends with [HasActiveTasks] still true. *)
Theorem uncounted_nesting_leaks :
  exists c, run step (initial 1) (fst (end_of 1 leak_run)) c /\
    submitted c = [NestUncounted; NoNesting] /\ finished c = [NoNesting; NestUncounted] /\
    running (workers c) = [] /\ submitters c = [SDone; SDone] /\
    active_tasks_ (cpool c) = 1 /\ HasActiveTasks (cpool c) = true.
Proof.
  exists (snd (end_of 1 leak_run)). split_all; try (vm_compute; reflexivity).
  apply (pool_exec_run leak_run). vm_compute. reflexivity.
Qed.

(** Worker 1 is removed and leaves; then something is submitted to it. *)
Definition strand_run (t : nesting) : list (action nesting) :=
  AResize 1 :: replicate 8 (AWorker 1) ++ submit 0 (ToWorker 1) t.

(** [Resize] strands tasks: after the pool shrinks from two workers to one and
    worker 1 leaves, [SubmitToWorker(1, t)] still queues [t] (the deques and private
    queues of removed workers are kept), and in every continuation without another
    [Resize] the task stays there and [HasActiveTasks] stays true. *)
Theorem resize_strands_task (t : nesting) :
  exists c, run step (initial 2) (fst (end_of 2 (strand_run t))) c /\ submitters c = [SDone] /\
    forall tr c', run step c tr c' -> Forall (fun l => is_resize l = false) tr ->
      t ∈ private_queue (cpool c') 1 /\ HasActiveTasks (cpool c') = true.
Proof.
  set (c := snd (end_of 2 (strand_run t))). exists c.
  assert (Hrun : run step (initial 2) (fst (end_of 2 (strand_run t))) c).
  { apply (pool_exec_run (strand_run t)). vm_compute. reflexivity. }
  split_all; [done|by vm_compute|]. intros tr c' Hr Hf.
  assert (Hs : stranded 1 t c).
  { unfold stranded. split_all; [vm_compute; by left|vm_compute; lia|]. vm_compute.
    rewrite !Forall_cons, Forall_nil. done. }
  destruct (stranded_run 1 t c tr c' Hs Hr Hf) as [Ht _]. split; [done|].
  pose proof (run_app _ _ _ _ _ _ Hrun Hr) as Hall.
  destruct (inv_queued _ (pool_reachable_inv _ _ _ Hall)) as (q & (ds & _ & _ & Hq) & _ & Ha).
  unfold HasActiveTasks. rewrite Ha, (perm_len _ _ Hq), !length_app.
  unfold private_queue in Ht. destruct (private_queues_ (cpool c') !! 1%nat) as [l|] eqn:Hl;
    [|by apply not_elem_of_nil in Ht].
  destruct (join_insert_perm _ _ _ Hl) as (r & Ho & _). rewrite (perm_len _ _ Ho), length_app.
  destruct l; [by apply not_elem_of_nil in Ht|]. simpl length. apply Z.gtb_lt. lia.
Qed.

(** ** Witnesses *)

(** A submission, stolen from nobody, run by worker 0 of a pool of two. *)
Definition plain_run : list (action nesting) := submit 0 ToGlobal NestCounted ++ worker0 4.
Definition plain_end := end_of 2 plain_run.

Lemma plain_end_run : run step (initial 2) (fst plain_end) (snd plain_end).
Proof. apply (pool_exec_run plain_run). vm_compute. reflexivity. Qed.

Lemma pool_conservation_witness :
  exists q, queued (cpool (snd plain_end)) q /\
    submitted (snd plain_end) ≡ₚ inflight (submitters (snd plain_end)) ++ q ++
      (ftask <$> running (workers (snd plain_end))) ++ finished (snd plain_end).
Proof. exact (pool_conservation 2 _ _ plain_end_run). Defined.

Lemma pool_mutex_exclusive_witness :
  count holds_mutex (workers (snd plain_end)) = Z.b2z (pool_mutex_ (cpool (snd plain_end))).
Proof. apply (pool_mutex_exclusive 2 _ _ plain_end_run). Defined.

(** The same with tasks that never nest uncounted. *)
Definition unit_kind : TaskKind unit := fun _ => NestCounted.

(** A task that worker 0 runs, one that it runs nested, and one in a queue. *)
Definition counted_run : list (action unit) :=
  submit 0 ToGlobal tt ++ worker0 4 ++ submit 1 (ToWorker 0) tt ++ [ANest 0] ++ submit 2 ToGlobal tt.
Definition counted_end := @end_of unit unit_kind 2 counted_run.

Lemma counted_end_run : run (@step unit (deque unit) _ unit_kind) (initial 2) (fst counted_end) (snd counted_end).
Proof. apply (pool_exec_run (H1 := unit_kind) counted_run). vm_compute. reflexivity. Qed.

Lemma active_tasks_exact_witness :
  length (running (workers (snd counted_end))) = 2%nat /\ HasActiveTasks (cpool (snd counted_end)) = true /\
  exists q, queued (cpool (snd counted_end)) q /\
    active_tasks_ (cpool (snd counted_end)) =
      Z.of_nat (length (counted (submitters (snd counted_end)) ++ q ++ (ftask <$> running (workers (snd counted_end))))) /\
    (HasActiveTasks (cpool (snd counted_end)) = false <->
     counted (submitters (snd counted_end)) = [] /\ q = [] /\ running (workers (snd counted_end)) = []).
Proof.
  split; [vm_compute; reflexivity|]. split; [vm_compute; reflexivity|].
  apply (active_tasks_exact (H1 := unit_kind) 2 (fst counted_end)); [done|exact counted_end_run].
Defined.

(** [Terminate] up to its joins, on an idle pool of one worker. *)
Definition terminated_end : config nesting (deque nesting) :=
  mkConfig (set_terminated (ThreadPool 1)) (wake_all ((., WLoop) <$> seq 0 1)) [] KJoin [] [] 0.

Lemma terminate_progress_witness :
  Forall (fun x => snd x <> WExit) (workers terminated_end) /\
  (Forall (fun x => snd x <> WWaiting) (workers terminated_end) /\
   (Forall (fun x => snd x = WExit) (workers terminated_end) \/
    exists i c', step terminated_end (LWorker i) c' \/ step terminated_end (LFinish i) c')).
Proof.
  split; [by repeat constructor|].
  apply (terminate_progress 1 [LTerminate; LTerminate]); [|done].
  eapply run_cons; [apply step_terminate|]. apply run_one. by apply step_terminate_notify.
Defined.

Lemma destructor_completes_witness :
  destroy 2 (push_task (D := deque nat) ToGlobal 7%nat (ThreadPool 2)) ≡ₚ [7%nat].
Proof.
  apply destructor_completes; [|done|simpl; lia].
  exists (replicate 2 []). split_all; [|done|done]. apply Forall2_replicate, dq_new_rep.
Defined.
