(* ===== verification/Waiting.v ===== *)
(** Tasks of the thread pool that wait for other tasks: the waiter of [Thread.join] and of the
    parallel array methods blocks its worker in [std::future::get], and the loop of
    [WorkerThread::ExecuteTask] that waits for a promise runs private tasks only.

    Tasks that wait for tasks submitted before them never stop the pool; a task that waits for
    tasks submitted after it can stop it for ever. *)
From S2P Require Import Prelude Interfaces Deque ThreadPool PoolTheorems.

(** The tasks whose results a task waits for before it ends, and where it is submitted. *)
Class WaitingTask (Task : Type) := { awaits : Task -> list Task; destination : Task -> dest }.

Section waiting.
Context {Task D : Type} `{WSDequeLaws Task D} `{TaskKind Task} `{WaitingTask Task}.
Implicit Types (c : config Task D) (t u : Task) (outers queue : list Task) (ws : list (nat * worker_pc Task)) (i j w : nat) (p : @pool Task D).

(** ** The steps *)

(** The innermost task of the worker [i] has the results it waits for. *)
Definition may_finish c (i : nat) : Prop :=
  forall w f st, workers c !! i = Some (w, WRun (f :: st)) -> forall u, u ∈ awaits (ftask f) -> u ∈ finished c.

(** Every submission is a new task, and a task ends when it has its results. *)
Definition waiting_step c (l : label Task) c' : Prop :=
  step c l c' /\
  match l with
  | LFinish i => may_finish c i
  | LSubmit t => t ∉ submitted c
  | _ => True
  end.

(** The worker has taken the task, or it is in the global queue: its [Submit] has returned, or
    is about to. *)
Definition begun c t : Prop := t ∈ finished c \/ t ∈ (ftask <$> running (workers c)).
Definition pushed c t : Prop := begun c t \/ t ∈ global_queue_ (cpool c).

(** In addition tasks are submitted after the tasks that they wait for. *)
Definition ordered_step c (l : label Task) c' : Prop :=
  waiting_step c l c' /\
  match l with
  | LSubmit t => submitters c' = submitters c ++ [SIncrement (destination t) t] /\ forall u, u ∈ awaits t -> pushed c u
  | _ => True
  end.

(** ** Facts about single steps *)

Lemma submitted_step c l c' : step c l c' -> submitted c' = submitted c ++ (match l with LSubmit t => [t] | _ => [] end).
Proof. intros Hs. destruct Hs; simpl; by rewrite ?app_nil_r. Qed.

Lemma waiting_NoDup c l c' : NoDup (submitted c) -> waiting_step c l c' -> NoDup (submitted c').
Proof.
  intros Hn [Hs Hl]. rewrite (submitted_step _ _ _ Hs). destruct l; rewrite ?app_nil_r; try done.
  apply NoDup_app. split_all; [done| |apply NoDup_singleton]. intros u Hu ->%list_elem_of_singleton. done.
Qed.

(** In a state of an execution each submitted task is in one place only. *)
Definition places c (q : list Task) : list Task :=
  inflight (submitters c) ++ q ++ (ftask <$> running (workers c)) ++ finished c.

Lemma inv_places c : inv c -> exists q, queued (cpool c) q /\ submitted c ≡ₚ places c q.
Proof. intros [(q & Hq & Hp & _) _]. by exists q. Qed.

Lemma queued_global p q t : queued (D := D) p q -> t ∈ global_queue_ p -> t ∈ q.
Proof. intros (ds & _ & _ & ->) Ht. rewrite !elem_of_app. auto. Qed.

Lemma global_not_finished c t : inv c -> NoDup (submitted c) -> t ∈ global_queue_ (cpool c) -> ~ begun c t.
Proof.
  intros Hc Hn Ht. destruct (inv_places c Hc) as (q & Hq & Hp). rewrite Hp in Hn.
  unfold places in Hn. rewrite !NoDup_app in Hn. destruct Hn as (_ & _ & _ & Hn & _).
  specialize (Hn t (queued_global _ _ _ Hq Ht)). intros [Hb|Hb]; apply Hn, elem_of_app; auto.
Qed.

Lemma running_not_finished c t : inv c -> NoDup (submitted c) -> t ∈ (ftask <$> running (workers c)) -> t ∉ finished c.
Proof.
  intros Hc Hn Ht. destruct (inv_places c Hc) as (q & Hq & Hp). rewrite Hp in Hn.
  unfold places in Hn. rewrite !NoDup_app in Hn. destruct Hn as (_ & _ & _ & _ & _ & Hn & _). by apply Hn.
Qed.

Lemma elem_of_running c i w st f : workers c !! i = Some (w, WRun st) -> f ∈ st -> ftask f ∈ (ftask <$> running (workers c)).
Proof.
  intros Hi Hf. apply list_elem_of_fmap. exists f. split; [done|]. unfold running. apply list_elem_of_bind.
  exists (w, WRun st). split; [done|]. by eapply list_elem_of_lookup_2.
Qed.

(** ** Workers that wait for queued tasks *)

(** The task that the worker took in its loop, under those that run nested in it. *)
Definition outermost (x : nat * worker_pc Task) : option Task :=
  match x.2 with WRun st => ftask <$> last st | _ => None end.

(** Every worker runs a task, [outers] in order, which waits for one of them or for a task of
    the global queue. *)
Definition stuck (outers queue : list Task) c : Prop :=
  outermost <$> workers c = Some <$> outers /\ queue `prefix_of` global_queue_ (cpool c) /\
  Forall (fun t => exists u, u ∈ awaits t /\ (u ∈ outers \/ u ∈ queue)) outers.

Lemma outermost_insert outers ws i w pc pc' : outermost <$> ws = Some <$> outers -> ws !! i = Some (w, pc) ->
  outermost (w, pc') = outermost (w, pc) -> outermost <$> <[i := (w, pc')]> ws = Some <$> outers.
Proof.
  intros Ho Hi He. rewrite <- Ho. rewrite list_fmap_insert, He. apply list_insert_id. by rewrite list_lookup_fmap, Hi.
Qed.

Lemma all_running outers ws i x : outermost <$> ws = Some <$> outers -> ws !! i = Some x ->
  exists st f, x.2 = WRun (st ++ [f]) /\ outers !! i = Some (ftask f).
Proof.
  intros Ho Hi. assert ((outermost <$> ws) !! i = Some (outermost x)) as Hl by (by rewrite list_lookup_fmap, Hi).
  rewrite Ho, list_lookup_fmap in Hl. destruct (outers !! i) as [t|] eqn:Ht; simplify_eq/=. destruct x as [w []]; unfold outermost in Hl; simplify_eq/=.
  destruct stack as [|f st _] using rev_ind; [done|]. rewrite last_snoc in Hl. simplify_eq/=. by exists st, f.
Qed.

Lemma wake_all_running outers ws : outermost <$> ws = Some <$> outers -> wake_all ws = ws.
Proof.
  intros Ho. apply list_eq. intros i. unfold wake_all. rewrite list_lookup_fmap. destruct (ws !! i) as [[w pc]|] eqn:Hi; [|done].
  destruct (all_running outers ws i _ Ho Hi) as (st & f & Hpc & _). simpl in Hpc. by subst pc.
Qed.

Lemma submit_step_global p pc p' pc' : submit_step p pc = Some (p', pc') -> global_queue_ p `prefix_of` global_queue_ (D := D) (Task := Task) p'.
Proof. destruct pc as [d t|d t|d|d|]; simpl; intros Hs; simplify_eq/=; try done. destruct d; simpl; try done. by apply prefix_app_r. Qed.

Lemma nest_task_running w p st p' pc' : nest_task (D := D) w p st = Some (p', pc') ->
  global_queue_ p' = global_queue_ p /\ exists t b, pc' = WRun (mkFrame t b :: st) /\ st <> [].
Proof.
  unfold nest_task, PopPrivateTask. destruct st as [|f st]; [done|]. destruct (private_queue p w) as [|t q]; [done|].
  destruct (nests (ftask f)); intros Hs; simplify_eq/=; split; try done; eauto.
Qed.

Lemma stuck_finish outers queue c i w f st : inv c -> NoDup (submitted c) -> stuck outers queue c ->
  workers c !! i = Some (w, WRun (f :: st)) -> may_finish c i -> st <> [].
Proof.
  intros Hc Hn (Ho & Hq & Hw) Hi Hm ->. destruct (all_running _ _ _ _ Ho Hi) as (st & g & Hpc & Ht).
  destruct st as [|? [|? ?]]; simplify_eq/=. rewrite Forall_lookup in Hw. destruct (Hw i _ Ht) as (u & Hu & Hpl).
  pose proof (Hm _ _ _ Hi u Hu) as Hf. destruct Hpl as [Hpl|Hpl].
  - apply list_elem_of_lookup in Hpl as [j Hj]. assert ((outermost <$> workers c) !! j = Some (Some u)) as Hb by (by rewrite Ho, list_lookup_fmap, Hj).
    rewrite list_lookup_fmap in Hb. destruct (workers c !! j) as [[w' pc']|] eqn:Hj'; simplify_eq/=.
    destruct (all_running _ _ _ _ Ho Hj') as (st & h & Hpc' & Hh). simpl in Hpc'. subst pc'. simplify_eq.
    by apply (running_not_finished c (ftask h)); [done|done|eapply elem_of_running; [done|apply elem_of_app; right; by left]|].
  - apply (global_not_finished c u); [done|done| |by left]. destruct Hq as [k ->]. apply elem_of_app. by left.
Qed.

Lemma stuck_step outers queue c l c' : inv c -> NoDup (submitted c) -> stuck outers queue c -> waiting_step c l c' ->
  is_resize l = false -> stuck outers queue c'.
Proof.
  intros Hc Hn Hst [Hs Hl] Hr. pose proof Hst as (Ho & Hq & Hw).
  assert (forall p ws ss k su fi le, outermost <$> ws = Some <$> outers -> queue `prefix_of` global_queue_ p -> stuck outers queue (mkConfig p ws ss k su fi le)) as Hk by done.
  destruct Hs as [p ws ss k su fi le i w pc p' pc' Hi Hw'|p ws ss k su fi le i w st t p' pc' Hi Hfin|p ws ss k su fi le i w st p' pc' Hi Hne
    |p ws ss k su fi le i w Hi| |p ws ss k su fi le j pc p' pc' Hj Hs|p ws ss k su fi le j d Hj Hm Hd|p ws ss k su fi le j w ws' Hj Hm Hx| | | |]; simpl in *.
  - destruct (all_running _ _ _ _ Ho Hi) as (st & f & Hpc & _). simpl in Hpc. by subst pc.
  - destruct st as [|f st]; [done|]. pose proof (stuck_finish _ _ _ _ _ _ _ Hc Hn Hst Hi Hl) as Hne. simpl in Hfin. destruct st as [|g st]; [done|]. simplify_eq.
    apply Hk; [by eapply outermost_insert|]. by destruct (fcounted f).
  - destruct (nest_task_running _ _ _ _ _ Hne) as (Hg & t & b & -> & Hst'). apply Hk; [|by rewrite Hg]. eapply outermost_insert; [done..|].
    unfold outermost. simpl. by destruct st.
  - destruct (all_running _ _ _ _ Ho Hi) as (st & f & Hpc & _). done.
  - by apply Hk.
  - apply Hk; [done|]. etrans; [exact Hq|]. by eapply submit_step_global.
  - apply Hk; [|done]. by rewrite (wake_all_running _ _ Ho).
  - apply Hk; [|done]. destruct Hx as [[-> _]|(i & w' & Hi & ->)]; [done|]. destruct (all_running _ _ _ _ Ho Hi) as (st & f & Hpc & _). done.
  - done.
  - by apply Hk.
  - apply Hk; [|done]. by rewrite (wake_all_running _ _ Ho).
  - by apply Hk.
Qed.

Lemma stuck_run outers queue c tr c' : inv c -> NoDup (submitted c) -> stuck outers queue c -> run waiting_step c tr c' ->
  Forall (fun l => is_resize l = false) tr -> inv c' /\ NoDup (submitted c') /\ stuck outers queue c'.
Proof.
  intros Hc Hn Hs Hr. induction Hr as [c|c l c1 tr c' Hst Hr IH]; intros Hf; [done|]. apply Forall_cons in Hf as [Hl Hf].
  apply IH; [by eapply pool_step_inv; [|apply Hst]|by eapply waiting_NoDup|by eapply stuck_step|done].
Qed.

Lemma stuck_unfinished outers queue c t : inv c -> NoDup (submitted c) -> stuck outers queue c -> t ∈ outers \/ t ∈ queue -> t ∉ finished c.
Proof.
  intros Hc Hn (Ho & Hq & _) [Ht|Ht].
  - apply list_elem_of_lookup in Ht as [j Hj]. assert ((outermost <$> workers c) !! j = Some (Some t)) as Hb by (by rewrite Ho, list_lookup_fmap, Hj).
    rewrite list_lookup_fmap in Hb. destruct (workers c !! j) as [[w' pc']|] eqn:Hj'; simplify_eq/=.
    destruct (all_running _ _ _ _ Ho Hj') as (st & h & Hpc' & Hh). simpl in Hpc'. subst pc'. simplify_eq.
    apply running_not_finished; [done|done|]. eapply elem_of_running; [done|apply elem_of_app; right; by left].
  - intros Hf. apply (global_not_finished c t); [done|done| |by left]. destruct Hq as [k ->]. apply elem_of_app. by left.
Qed.

(** ** Tasks that wait for earlier tasks *)

(** [u] comes before [t] on its way through the pool. *)
Definition before c u t : Prop :=
  begun c u \/
  (exists i j, (i < j)%nat /\ global_queue_ (cpool c) !! i = Some u /\ global_queue_ (cpool c) !! j = Some t) \/
  (u ∈ global_queue_ (cpool c) /\ t ∈ inflight (submitters c)).

Definition as_destined (pc : submit_pc Task) : Prop :=
  match pc with SIncrement d t | SPush d t => d = destination t | _ => True end.

(** The tasks that run nested in another task of the worker. *)
Definition nested (x : nat * worker_pc Task) : list Task :=
  match x.2 with WRun st => ftask <$> removelast st | _ => [] end.

Record ordered c : Prop := {
  o_inv : inv c;
  o_nodup : NoDup (submitted c);
  o_destined : Forall as_destined (submitters c);
  o_before t u : t ∈ submitted c -> u ∈ awaits t -> before c u t;
  o_order l t l' u : submitted c = l ++ t :: l' -> u ∈ awaits t -> u ∈ l;
  o_private w t : t ∈ private_queue (cpool c) w -> awaits t = [];
  o_nested i x t : workers c !! i = Some x -> t ∈ nested x -> awaits t = []
}.

Lemma worker_step_global w p pc p' pc' : worker_step w p pc = Some (p', pc') ->
  (exists r, global_queue_ p = option_list r ++ global_queue_ p' /\ (forall t, r = Some t -> t ∈ ftask <$> frames_of pc')) /\
  (forall w' t, t ∈ private_queue p' w' -> t ∈ private_queue p w') /\ nested (w, pc') = [].
Proof.
  assert (forall (q q' : @pool Task D) pc1, nested (w, pc1) = [] -> global_queue_ q' = global_queue_ q -> private_queues_ q' = private_queues_ q ->
    (exists r, global_queue_ q = option_list r ++ global_queue_ q' /\ (forall t, r = Some t -> t ∈ ftask <$> frames_of pc1)) /\
    (forall w' t, t ∈ private_queue q' w' -> t ∈ private_queue q w') /\ nested (w, pc1) = []) as Hsame.
  { intros q q' pc1 Hn Hg Hq. unfold private_queue. rewrite Hq. split_all; [by exists None; rewrite Hg|done|done]. }
  assert (forall r other, nested (w, other) = [] -> nested (w, found r other) = []) as Hfound by (by intros [t|] other Ho).
  intros Hs. destruct pc; simpl in Hs; try (by simplify_eq); try (by repeat case_match; simplify_eq; apply Hsame).
  - unfold PopPrivateTask in Hs. destruct (private_queue p w) as [|t q] eqn:Hq; simplify_eq; [by apply Hsame|]. split_all; [by exists None| |done].
    intros w' t'. unfold private_queue in *. simpl. destruct (decide (w = w')) as [->|Hne]; [|by rewrite list_lookup_insert_ne].
    destruct (private_queues_ p !! w') as [l|] eqn:Hl; simplify_eq/=. rewrite list_lookup_insert_eq by (by eapply lookup_lt_Some). simpl. intros Ht. by right.
  - unfold pop_local in Hs. destruct (dq_pop (deque_at p w)) as [r d]. simplify_eq. split_all; [by exists None|done|by apply Hfound].
  - unfold pop_global in Hs. destruct (global_queue_ p) as [|t q] eqn:Hg; simplify_eq; [split_all; [by exists None; rewrite Hg|done|done]|].
    split_all; [|done|done]. exists (Some t). split; [done|]. intros t' Ht. simplify_eq/=. by left.
  - repeat case_decide; simplify_eq; try (by apply Hsame). unfold steal_from in Hs. destruct (dq_steal (deque_at p (steal_target w i p))) as [r d]. simplify_eq.
    split_all; [by exists None|done|by apply Hfound].
  - destruct (global_queue_ p) eqn:Hg; simplify_eq; (split_all; [exists None; simpl; by rewrite ?Hg|done|done]).
Qed.

Lemma before_take c c' r t u : before c u t -> (forall v, begun c v -> begun c' v) ->
  global_queue_ (cpool c) = option_list r ++ global_queue_ (cpool c') -> (forall v, r = Some v -> begun c' v) ->
  (t ∈ inflight (submitters c) -> t ∈ inflight (submitters c')) -> before c' u t.
Proof.
  intros Hb Hm Hg Hr Hi. destruct Hb as [Hb|[(i & j & Hlt & Hu & Ht)|[Hu Ht]]]; [left; by apply Hm|..]; rewrite Hg in *.
  - destruct r as [v|]; simpl in *; [|right; left; by exists i, j]. destruct i as [|i]; [left; apply Hr; by simplify_eq/=|].
    destruct j as [|j]; [lia|]. right. left. exists i, j. split_all; [lia|done|done].
  - apply elem_of_app in Hu as [Hu|Hu]; [|right; right; auto]. left. destruct r as [v|]; simpl in Hu; [|by apply not_elem_of_nil in Hu].
    apply list_elem_of_singleton in Hu as ->. by apply Hr.
Qed.

Lemma before_push c c' l t u : before c u t -> (forall v, begun c v -> begun c' v) ->
  global_queue_ (cpool c') = global_queue_ (cpool c) ++ l ->
  (t ∈ inflight (submitters c) -> t ∈ inflight (submitters c') \/ t ∈ l) -> before c' u t.
Proof.
  intros Hb Hm Hg Hi. destruct Hb as [Hb|[(i & j & Hlt & Hu & Ht)|[Hu Ht]]]; [left; by apply Hm|..].
  - right. left. exists i, j. rewrite Hg. split_all; [done|by apply lookup_app_l_Some|by apply lookup_app_l_Some].
  - destruct (Hi Ht) as [Ht'|Ht']; [right; right; rewrite Hg, elem_of_app; auto|]. right. left.
    apply list_elem_of_lookup in Hu as [i Hu]. apply list_elem_of_lookup in Ht' as [j Ht']. exists i, (length (global_queue_ (cpool c)) + j)%nat.
    rewrite Hg. pose proof (lookup_lt_Some _ _ _ Hu). split_all; [lia|by apply lookup_app_l_Some|]. rewrite lookup_app_r by lia. rewrite <- Ht'. f_equal. lia.
Qed.

(** A step that neither submits nor moves a task through the global queue forwards. *)
Lemma begun_insert p ws ss k su fi le i w pc p' pc' fi' le' : ws !! i = Some (w, pc) -> (forall v, v ∈ fi -> v ∈ fi') ->
  (forall v, v ∈ ftask <$> frames_of pc -> v ∈ ftask <$> frames_of pc' \/ v ∈ fi') ->
  forall v, begun (mkConfig p ws ss k su fi le) v -> begun (mkConfig p' (<[i := (w, pc')]> ws) ss k su fi' le') v.
Proof.
  intros Hi Hfi Hf v [Hv|Hv]; [left; by apply Hfi|]. simpl in *. destruct (running_insert _ _ _ _ Hi) as (rest & Ho & Hn).
  rewrite Ho, fmap_app, elem_of_app in Hv. destruct Hv as [Hv|Hv].
  - destruct (Hf v Hv) as [Hv'|Hv']; [right|by left]. simpl. rewrite Hn, fmap_app, elem_of_app. by left.
  - right. simpl. rewrite Hn, fmap_app, elem_of_app. by right.
Qed.

Lemma nested_finish w f g st t : t ∈ nested (w, WRun (g :: st)) -> t ∈ nested (w, WRun (f :: g :: st)).
Proof. unfold nested. simpl. intros Ht. by right. Qed.

Lemma nested_push w f st t : st <> [] -> t ∈ nested (w, WRun (f :: st)) -> t = ftask f \/ t ∈ nested (w, WRun st).
Proof. destruct st as [|g st]; [done|]. unfold nested. cbn [removelast snd]. rewrite fmap_cons, elem_of_cons. auto. Qed.

Lemma nested_insert ws i w pc' : (forall x t, ws !! i = Some x -> t ∈ nested (w, pc') -> t ∈ nested x \/ awaits t = []) ->
  (forall j x t, ws !! j = Some x -> t ∈ nested x -> awaits t = []) ->
  forall j x t, <[i := (w, pc')]> ws !! j = Some x -> t ∈ nested x -> awaits t = [].
Proof.
  intros Hi Hn j x t Hj Ht. destruct (decide (i = j)) as [->|Hne]; [|rewrite list_lookup_insert_ne in Hj by done; by eapply Hn].
  destruct (ws !! j) as [y|] eqn:Hy; [|rewrite list_insert_ge in Hj by (by apply lookup_ge_None); congruence].
  rewrite list_lookup_insert_eq in Hj by (by eapply lookup_lt_Some). simplify_eq. destruct (Hi y t eq_refl Ht) as [Hin|]; [by eapply Hn|done].
Qed.

(** ** The order is kept *)

Lemma ordered_keep c c' : ordered c -> inv c' -> submitted c' = submitted c -> Forall as_destined (submitters c') ->
  (forall t u, u ∈ awaits t -> before c u t -> before c' u t) ->
  (forall w t, t ∈ private_queue (cpool c') w -> t ∈ private_queue (cpool c) w \/ awaits t = []) ->
  (forall i x t, workers c' !! i = Some x -> t ∈ nested x -> awaits t = []) -> ordered c'.
Proof.
  intros [O1 O2 O3 O4 O5 O6 O7] Hi Hs Hd Hb Hp Hn. constructor; rewrite ?Hs; try done.
  - intros t u Ht Hu. apply Hb; [done|]. by apply O4.
  - intros w t Ht. destruct (Hp w t Ht); [by eapply O6|done].
Qed.

Hypothesis destination_global : forall t, awaits t <> [] -> destination t = ToGlobal.

Lemma private_push p d t w u : u ∈ private_queue (push_task d t p) w -> u ∈ private_queue p w \/ (u = t /\ d = ToWorker w).
Proof.
  destruct d as [|w'|w']; simpl; [auto|auto|]. unfold private_queue at 1. simpl. destruct (decide (w' = w)) as [->|Hne]; [|rewrite list_lookup_insert_ne by done; auto].
  unfold private_queue. destruct (private_queues_ p !! w) as [l|] eqn:Hl.
  - rewrite list_lookup_insert_eq by (by eapply lookup_lt_Some). simpl. rewrite elem_of_app, list_elem_of_singleton. intros [|]; auto.
  - rewrite list_insert_ge by (by apply lookup_ge_None). rewrite Hl. auto.
Qed.

Lemma pushed_submitted c u : inv c -> pushed c u -> u ∈ submitted c.
Proof.
  intros Hc Hp. destruct (inv_places c Hc) as (q & Hq & ->). unfold places. rewrite !elem_of_app.
  destruct Hp as [[Hp|Hp]|Hp]; [auto|auto|]. right. left. by eapply queued_global.
Qed.

Lemma ordered_submit p ws ss k su fi le d t : ordered (mkConfig p ws ss k su fi le) -> inv (mkConfig p ws (ss ++ [SIncrement d t]) k (su ++ [t]) fi le) ->
  t ∉ su -> d = destination t -> (forall u, u ∈ awaits t -> pushed (mkConfig p ws ss k su fi le) u) ->
  ordered (mkConfig p ws (ss ++ [SIncrement d t]) k (su ++ [t]) fi le).
Proof.
  intros [O1 O2 O3 O4 O5 O6 O7] Hi Ht Hd Ha. constructor; simpl in *; try done.
  - apply NoDup_app. split_all; [done| |apply NoDup_singleton]. intros u Hu ->%list_elem_of_singleton. done.
  - apply Forall_app_2; [done|by repeat constructor].
  - assert (forall v, v ∈ inflight ss -> v ∈ inflight (ss ++ [SIncrement d t])) as Hmono by (intros v Hv; unfold inflight; rewrite bind_app, elem_of_app; by left).
    intros v u Hv Hu. apply elem_of_app in Hv as [Hv| ->%list_elem_of_singleton].
    + eapply (before_push _ _ []); [by apply O4|done|by rewrite app_nil_r|]. simpl. auto.
    + destruct (Ha u Hu) as [Hb|Hg]; [by left|]. right. right. split; [done|]. simpl. unfold inflight. rewrite bind_app, elem_of_app, bind_singleton. right. by left.
  - intros l v l' u He Hu. destruct l' as [|x l' _] using rev_ind.
    + apply app_inj_tail in He as [<- <-]. by apply (pushed_submitted _ u O1), Ha.
    + rewrite app_comm_cons, app_assoc in He. apply app_inj_tail in He as [He _]. by eapply O5.
Qed.

Lemma ordered_submitter p ws ss k su fi le j pc p' pc' : ordered (mkConfig p ws ss k su fi le) ->
  inv (mkConfig p' ws (<[j := pc']> ss) k su fi le) -> ss !! j = Some pc -> submit_step p pc = Some (p', pc') ->
  ordered (mkConfig p' ws (<[j := pc']> ss) k su fi le).
Proof.
  intros Ho Hi Hj Hs. pose proof (o_destined _ Ho) as Hd. simpl in Hd.
  destruct (bind_insert_perm (fun x => match x with SIncrement _ t | SPush _ t => [t] | _ => [] end) _ _ _ Hj) as (r & Hold & Hnew). specialize (Hnew pc').
  fold (inflight ss) in Hold. fold (inflight (<[j:=pc']> ss)) in Hnew. pose proof (Forall_lookup_1 _ _ _ _ Hd Hj) as Hdj.
  assert (Forall as_destined (<[j := pc']> ss)) as Hd'.
  { apply Forall_insert; [done|]. destruct pc as [d t|d t|d|d|]; simpl in *; simplify_eq; try done. by destruct (sleeping_workers_ p' >? 0). }
  assert (forall p2, global_queue_ p2 = global_queue_ p -> private_queues_ p2 = private_queues_ p -> p' = p2 -> inflight (<[j := pc']> ss) ≡ₚ inflight ss ->
    ordered (mkConfig p' ws (<[j := pc']> ss) k su fi le)) as Hsame.
  { intros p2 Hg Hq -> Hf. eapply ordered_keep; [exact Ho|done|done|done| | |by apply (o_nested _ Ho)].
    - intros t u _ Hb. eapply (before_push _ _ []); [exact Hb|done|by rewrite app_nil_r|]. simpl. rewrite Hf. auto.
    - intros w t. unfold private_queue. simpl. rewrite Hq. auto. }
  destruct pc as [d t|d t|d|d|]; simpl in Hs, Hold, Hdj; try done.
  - eapply Hsame; [| |by simplify_eq|]; [done|done|]. simplify_eq. by rewrite Hnew, Hold.
  - simplify_eq/=. eapply ordered_keep; [exact Ho|done|done|done| | |by apply (o_nested _ Ho)].
    + intros v u Hu Hb. eapply (before_push _ _ (match destination t with ToGlobal => [t] | _ => [] end)); [exact Hb|done|by destruct (destination t); simpl; rewrite ?app_nil_r|].
      simpl. rewrite Hold, Hnew, elem_of_cons. intros [->|Hv]; [|auto]. right. rewrite destination_global by (intros He; by rewrite He in Hu; apply not_elem_of_nil in Hu). by left.
    + simpl. intros w v Hv. destruct (private_push _ _ _ _ _ Hv) as [Hold'|[-> Hw]]; [auto|]. right. destruct (awaits t) eqn:He; [done|].
      rewrite destination_global in Hw; [done|by rewrite He].
  - eapply Hsame; [| |by simplify_eq|]; [by simplify_eq|by simplify_eq|]. rewrite Hnew, Hold. by destruct (sleeping_workers_ p >? 0); simplify_eq.
Qed.

Lemma ordered_worker p ws ss k su fi le i w pc p' pc' : ordered (mkConfig p ws ss k su fi le) -> inv (mkConfig p' (<[i := (w, pc')]> ws) ss k su fi le) ->
  ws !! i = Some (w, pc) -> worker_step w p pc = Some (p', pc') -> ordered (mkConfig p' (<[i := (w, pc')]> ws) ss k su fi le).
Proof.
  intros Ho Hi Hw Hs. destruct (worker_step_global _ _ _ _ _ Hs) as ((r & Hg & Hr) & Hp & Hn). destruct (worker_step_takes _ _ _ _ _ Hs) as (Hf & _).
  eapply ordered_keep; [exact Ho|done|done|by apply (o_destined _ Ho)| | |].
  - intros t u _ Hb. eapply before_take; [exact Hb| |exact Hg| |done].
    + eapply begun_insert; [done|done|]. rewrite Hf. simpl. intros v Hv. by apply not_elem_of_nil in Hv.
    + intros v Hv. right. simpl. destruct (running_insert _ _ _ _ Hw) as (rest & _ & Hnew). rewrite Hnew, fmap_app, elem_of_app. left. by apply Hr.
  - simpl. auto.
  - simpl. apply nested_insert; [|by apply (o_nested _ Ho)]. intros x t _ Ht. rewrite Hn in Ht. by apply not_elem_of_nil in Ht.
Qed.

Lemma ordered_finish p ws ss k su fi le i w f st p' le' pc' : ordered (mkConfig p ws ss k su fi le) ->
  inv (mkConfig p' (<[i := (w, pc')]> ws) ss k su (fi ++ [ftask f]) le') ->
  ws !! i = Some (w, WRun (f :: st)) -> finish_task p (f :: st) = Some (ftask f, p', pc') ->
  ordered (mkConfig p' (<[i := (w, pc')]> ws) ss k su (fi ++ [ftask f]) le').
Proof.
  intros Ho Hi Hw Hs. simpl in Hs. injection Hs as Hp Hpc.
  assert (global_queue_ p' = global_queue_ p /\ private_queues_ p' = private_queues_ p) as [Hg Hq] by (rewrite <- Hp; by destruct (fcounted f)).
  assert (frames_of pc' = st) as Hf by (rewrite <- Hpc; by destruct st).
  eapply ordered_keep; [exact Ho|done|done|by apply (o_destined _ Ho)| | |].
  - intros t u _ Hb. eapply (before_push _ _ []); [exact Hb| |by rewrite app_nil_r|simpl; auto].
    eapply begun_insert; [done|intros v Hv; apply elem_of_app; by left|]. rewrite Hf. simpl. intros v [->|Hv]%elem_of_cons; [right|by left].
    apply elem_of_app. right. by left.
  - intros w' t. unfold private_queue. simpl. rewrite Hq. auto.
  - simpl. apply nested_insert; [|by apply (o_nested _ Ho)]. intros x t Hx Ht. left. rewrite Hw in Hx. injection Hx as <-. rewrite <- Hpc in Ht.
    destruct st as [|g st]; [by apply not_elem_of_nil in Ht|]. by apply nested_finish.
Qed.

Lemma ordered_nest p ws ss k su fi le i w st p' pc' : ordered (mkConfig p ws ss k su fi le) -> inv (mkConfig p' (<[i := (w, pc')]> ws) ss k su fi le) ->
  ws !! i = Some (w, WRun st) -> nest_task w p st = Some (p', pc') -> ordered (mkConfig p' (<[i := (w, pc')]> ws) ss k su fi le).
Proof.
  intros Ho Hi Hw Hs. destruct (nest_task_running _ _ _ _ _ Hs) as (Hg & t & b & -> & Hne).
  assert (t ∈ private_queue p w /\ forall w' v, v ∈ private_queue p' w' -> v ∈ private_queue p w') as [Ht Hp].
  { unfold nest_task in Hs. destruct st as [|f st]; [done|]. pose proof (worker_step_global w p WPrivate) as Hx. simpl in Hx.
    destruct (PopPrivateTask w p) as [[v|] q] eqn:Hpop; [|done]. destruct (Hx _ _ eq_refl) as (_ & Hx' & _).
    assert (v = t /\ q = p') as [-> ->] by (destruct (nests (ftask f)); by simplify_eq). split; [|done].
    unfold PopPrivateTask in Hpop. destruct (private_queue p w); simplify_eq. by left. }
  eapply ordered_keep; [exact Ho|done|done|by apply (o_destined _ Ho)| | |].
  - intros v u _ Hb. eapply (before_push _ _ []); [exact Hb| |by rewrite app_nil_r|simpl; auto].
    eapply begun_insert; [done|done|]. simpl. intros x Hx. left. by right.
  - simpl. auto.
  - simpl. apply nested_insert; [|by apply (o_nested _ Ho)]. intros x v Hx Hv. rewrite Hw in Hx. injection Hx as <-.
    destruct (nested_push _ _ _ _ Hne Hv) as [->|Hin]; [right|by left]. by apply (o_private _ Ho w).
Qed.

(** Steps of the threads that submit, resize or terminate. *)
Lemma ordered_frame p ws ss k su fi le p' ws' ss' k' : ordered (mkConfig p ws ss k su fi le) -> inv (mkConfig p' ws' ss' k' su fi le) ->
  global_queue_ p' = global_queue_ p -> (forall w, private_queue p' w = private_queue p w) ->
  running ws' ≡ₚ running ws -> inflight ss' ≡ₚ inflight ss -> Forall as_destined ss' ->
  (forall i x t, ws' !! i = Some x -> t ∈ nested x -> exists j y, ws !! j = Some y /\ t ∈ nested y) -> ordered (mkConfig p' ws' ss' k' su fi le).
Proof.
  intros Ho Hi Hg Hp Hr Hf Hd Hn. eapply ordered_keep; [exact Ho|done|done|done| | |].
  - intros t u _ Hb. eapply (before_push _ _ []); [exact Hb| |by rewrite app_nil_r|simpl; rewrite Hf; auto].
    intros v [Hv|Hv]; [by left|right]. simpl in *. by rewrite Hr.
  - simpl. intros w t. rewrite Hp. auto.
  - simpl. intros i x t Hx Ht. destruct (Hn i x t Hx Ht) as (j & y & Hy & Hty). by eapply (o_nested _ Ho).
Qed.

Lemma nested_wake ws i x t : wake_all ws !! i = Some x -> t ∈ nested x -> exists j y, ws !! j = Some y /\ t ∈ nested y.
Proof.
  unfold wake_all. rewrite list_lookup_fmap. destruct (ws !! i) as [[w pc]|] eqn:Hi; [|done]. simpl. intros Hx Ht. simplify_eq/=.
  exists i, (w, pc). split; [done|]. by destruct pc.
Qed.

Lemma nested_woken ws i w j x t : ws !! i = Some (w, WWaiting) -> <[i := (w, WWoken)]> ws !! j = Some x -> t ∈ nested x -> exists j' y, ws !! j' = Some y /\ t ∈ nested y.
Proof.
  intros Hi Hj Ht. destruct (decide (i = j)) as [->|Hne].
  - rewrite list_lookup_insert_eq in Hj by (by eapply lookup_lt_Some). simplify_eq. by apply not_elem_of_nil in Ht.
  - rewrite list_lookup_insert_ne in Hj by done. eauto.
Qed.

Lemma Resize_queues n p p' started b : Resize n p = (p', started, b) -> global_queue_ p' = global_queue_ p /\ forall w, private_queue p' w = private_queue p w.
Proof.
  unfold Resize. intros Hr. repeat case_decide; simplify_eq; (split; [done|]); intros w; try done. unfold private_queue. simpl.
  destruct (private_queues_ p !! w) as [q|] eqn:Hq; [by rewrite (lookup_app_l_Some _ _ _ _ Hq)|]. apply lookup_ge_None in Hq. rewrite lookup_app_r by done.
  destruct (replicate _ _ !! _) eqn:Hl; [|done]. by apply lookup_replicate in Hl as [-> _].
Qed.

Lemma destined_done ss j : Forall as_destined ss -> Forall as_destined (<[j := SDone]> ss).
Proof. intros Hs. by apply Forall_insert. Qed.

Lemma ordered_step_kept c l c' : ordered c -> ordered_step c l c' -> ordered c'.
Proof.
  intros Ho [[Hs Hl] Hl']. pose proof (pool_step_inv _ _ _ (o_inv _ Ho) Hs) as Hi. pose proof (o_destined _ Ho) as Hd.
  destruct Hs as [p ws ss k su fi le i w pc p' pc' Hw Hs|p ws ss k su fi le i w st t p' pc' Hw Hfin|p ws ss k su fi le i w st p' pc' Hw Hn
    |p ws ss k su fi le i w Hw|p ws ss k su fi le d t Hd'|p ws ss k su fi le j pc p' pc' Hj Hs|p ws ss k su fi le j d Hj Hm Hd'|p ws ss k su fi le j w ws' Hj Hm Hx
    |p ws ss k su fi le n p' st nt Hm HR|p ws ss su fi le|p ws ss su fi le Hm|]; simpl in *.
  - by eapply ordered_worker.
  - destruct st as [|f st]; [done|]. assert (t = ftask f) as -> by (simpl in Hfin; by simplify_eq). by eapply ordered_finish.
  - by eapply ordered_nest.
  - eapply ordered_frame; try done; [by apply running_woken|]. intros j x t. by apply nested_woken.
  - destruct Hl' as [Hx Ha]. apply app_inv_head in Hx. injection Hx as Hx. by apply ordered_submit.
  - by eapply ordered_submitter.
  - destruct (submitters_done _ _ _ Hj) as (? & _). eapply ordered_frame; try done; [by rewrite running_wake|by apply destined_done|by apply nested_wake].
  - destruct (submitters_done _ _ _ Hj) as (? & _). destruct Hx as [[-> _]|(i & w' & Hw & ->)]; eapply ordered_frame; try done; [by apply destined_done|eauto|by apply running_woken|by apply destined_done|].
    intros j' x t. by apply nested_woken.
  - destruct (Resize_queues _ _ _ _ _ HR) as [Hg Hp]. eapply ordered_frame; try done.
    + rewrite running_app, running_started, app_nil_r. case_match; by rewrite ?running_wake.
    + intros i x t Hx Ht. apply lookup_app_Some in Hx as [Hx|[_ Hx]]; [destruct nt; [by eapply nested_wake|eauto]|].
      rewrite list_lookup_fmap in Hx. destruct (st !! _); simplify_eq/=. by apply not_elem_of_nil in Ht.
  - eapply ordered_frame; try done. eauto.
  - eapply ordered_frame; try done; [by rewrite running_wake|by apply nested_wake].
  - eapply ordered_frame; try done. eauto.
Qed.

Lemma ordered_initial n : ordered (initial n).
Proof.
  constructor; simpl; [apply pool_inv_initial|apply NoDup_nil_2|apply Forall_nil_2| | | |].
  - intros t u Ht. by apply not_elem_of_nil in Ht.
  - intros [|x l] t l' u He; discriminate He.
  - intros w t. unfold private_queue. simpl. destruct (replicate _ _ !! w) eqn:Hl; simpl; [apply lookup_replicate in Hl as [-> _]|]; by intros ?%not_elem_of_nil.
  - intros i x t Hx Ht. rewrite list_lookup_fmap in Hx. destruct (seq 0 n !! i); simplify_eq/=. by apply not_elem_of_nil in Ht.
Qed.

Lemma reachable_ordered n tr c : run ordered_step (initial n) tr c -> ordered c.
Proof. apply (run_invariant ordered_step ordered); eauto using ordered_step_kept, ordered_initial. Qed.

(** ** Progress *)

Lemma begun_or c t u : ordered c -> t ∈ (ftask <$> running (workers c)) -> u ∈ awaits t -> begun c u.
Proof.
  intros Ho Ht Hu. pose proof Ho as [O1 O2 _ O4 _ _ _]. destruct (inv_places c O1) as (q & Hq & Hp).
  assert (t ∈ submitted c) as Hs by (rewrite Hp; unfold places; rewrite !elem_of_app; auto).
  destruct (O4 t u Hs Hu) as [Hb|[(i & j & _ & _ & Hj)|[_ Hf]]]; [done| |].
  - exfalso. apply (global_not_finished c t O1 O2); [by eapply list_elem_of_lookup_2|by right].
  - exfalso. rewrite Hp in O2. unfold places in O2. rewrite !NoDup_app in O2. destruct O2 as (_ & O2 & _).
    apply (O2 t Hf). rewrite !elem_of_app. auto.
Qed.

Lemma worker_of c t : t ∈ (ftask <$> running (workers c)) -> exists i w st f, workers c !! i = Some (w, WRun st) /\ f ∈ st /\ ftask f = t.
Proof.
  intros (f & -> & Hf)%list_elem_of_fmap. unfold running in Hf. apply list_elem_of_bind in Hf as ([w pc] & Hf & Hw).
  apply list_elem_of_lookup in Hw as [i Hi]. destruct pc; try by apply not_elem_of_nil in Hf. by exists i, w, stack, f.
Qed.

Context `{!EqDecision Task}.

(** Going back from a running task along what it waits for leads to one that can end. *)
Lemma finishable c t k : ordered c -> t ∈ (ftask <$> running (workers c)) -> (exists l l', submitted c = l ++ t :: l' /\ length l < k)%nat ->
  exists i w f st, workers c !! i = Some (w, WRun (f :: st)) /\ may_finish c i.
Proof.
  intros Ho. revert t. induction k as [|k IH]; intros t Ht (l & l' & Hl & Hk); [lia|].
  destruct (worker_of c t Ht) as (i & w & st & g & Hi & Hg & He). destruct st as [|f st]; [by apply not_elem_of_nil in Hg|].
  destruct (decide (Forall (fun u => u ∈ finished c) (awaits (ftask f)))) as [Ha|Ha].
  - exists i, w, f, st. split; [done|]. intros w' f' st' Hi' u Hu. rewrite Hi in Hi'. simplify_eq. rewrite Forall_forall in Ha. auto.
  - apply not_Forall_Exists in Ha; [|intros u; apply _]. apply Exists_exists in Ha as (u & Hu & Hf). destruct st as [|h st].
    + apply list_elem_of_singleton in Hg as ->. rewrite He in Hu. destruct (begun_or c t u Ho Ht Hu) as [Hb|Hb]; [done|].
      pose proof (o_order _ Ho _ _ _ _ Hl Hu) as Hin. apply list_elem_of_split in Hin as (l1 & l2 & ->). apply (IH u Hb).
      exists l1, (l2 ++ t :: l'). split; [rewrite Hl; by rewrite <- app_assoc|]. rewrite length_app in Hk. simpl in Hk. lia.
    + exfalso. assert (awaits (ftask f) = []) as Hn by (eapply (o_nested _ Ho); [exact Hi|unfold nested; simpl; by left]).
      rewrite Hn in Hu. by apply not_elem_of_nil in Hu.
Qed.

(** ** The theorems *)

(** C3. Tasks that wait do not stop the pool when they are submitted to the global queue, as the waiters of Thread.join are, and only once each task they wait for is in the global queue, running or finished (not in a private queue, nor in the hands of a call of Submit). In every such execution with any number of workers, nested private tasks, stealing, resizing and termination, as long as a task runs, a running task has the results it waits for and ends. *)
Theorem ordered_waiting_progress n tr c : run ordered_step (initial n) tr c -> running (workers c) <> [] ->
  exists i c', ordered_step c (LFinish i) c'.
Proof.
  intros Hr Hne. pose proof (reachable_ordered n tr c Hr) as Ho. destruct (running (workers c)) as [|g gs] eqn:Hg; [done|].
  assert (ftask g ∈ ftask <$> running (workers c)) as Ht by (rewrite Hg; by left).
  assert (ftask g ∈ submitted c) as Hs by (apply pushed_submitted; [apply o_inv, Ho|left; by right]).
  apply list_elem_of_split in Hs as (l & l' & Hl). destruct (finishable c (ftask g) (S (length l)) Ho Ht) as (i & w & f & st & Hi & Hm).
  { exists l, l'. split; [done|lia]. }
  destruct c as [p ws ss k su fi le]. simpl in Hi. eexists i, _. split; [|done]. split; [|exact Hm]. by eapply step_finish.
Qed.

(** C36. A pool can stop for ever: when every worker runs a task that waits for a task of the global queue or for the task of another worker, then whatever is submitted, sent to a worker or terminated later, without a resize none of these tasks and none of the tasks that were queued ever ends. *)
Theorem nested_waiting_deadlock n tr c outers queue tr' c' : run step (initial n) tr c -> NoDup (submitted c) -> stuck outers queue c ->
  run waiting_step c tr' c' -> Forall (fun l => is_resize l = false) tr' -> forall t, t ∈ outers \/ t ∈ queue -> t ∉ finished c'.
Proof.
  intros Hr Hn Hs Hr' Hf t. destruct (stuck_run outers queue c tr' c' (pool_reachable_inv n tr c Hr) Hn Hs Hr' Hf) as (Hc1 & Hc2 & Hc3).
  by apply stuck_unfinished.
Qed.

End waiting.

(** ** Witnesses *)

(** Two functions that each spawn a function and wait for it to be joined: 0 and 1 are the outer
    functions, 2 and 4 the inner ones, 3 and 5 the waiters of their joins. *)
#[local] Instance number_kind : TaskKind nat := fun _ => NestCounted.
#[local] Instance spawn_and_join : WaitingTask nat := {
  awaits t := match t with 0 => [3] | 1 => [5] | 3 => [2] | 5 => [4] | _ => [] end%nat;
  destination _ := ToGlobal }.

Definition nested_join_run : list (action nat) :=
  (submit 0 ToGlobal 0 ++ submit 1 ToGlobal 1 ++ replicate 4 (AWorker 0) ++ replicate 4 (AWorker 1) ++
  submit 2 ToGlobal 2 ++ submit 3 ToGlobal 3 ++ submit 4 ToGlobal 4 ++ submit 5 ToGlobal 5)%nat.

Example nested_waiting_deadlock_witness : exists c, run step (initial 2) (fst (end_of 2 nested_join_run)) c /\
  forall tr' c', run waiting_step c tr' c' -> Forall (fun l => is_resize l = false) tr' -> (0%nat ∉ finished c') /\ (2%nat ∉ finished c').
Proof.
  set (c := snd (end_of 2 nested_join_run)). exists c.
  assert (run step (initial 2) (fst (end_of 2 nested_join_run)) c) as Hr by (apply (pool_exec_run nested_join_run); vm_compute; reflexivity).
  split; [exact Hr|]. assert (stuck [0; 1]%nat [2; 3; 4; 5]%nat c) as Hs.
  { split; [vm_compute; reflexivity|split; [by exists []|]]. constructor; [exists 3%nat; split; [by left|right; set_solver]|].
    constructor; [exists 5%nat; split; [by left|right; set_solver]|constructor]. }
  intros tr' c' Hr' Hf. split; apply (nested_waiting_deadlock 2 _ c [0; 1]%nat [2; 3; 4; 5]%nat tr' c' Hr ltac:(by apply (bool_decide_unpack _); vm_compute) Hs Hr' Hf); set_solver.
Defined.

(** A function runs on the first worker and the waiter of its join on the second one. *)
Example ordered_waiting_progress_witness : exists tr c, run ordered_step (initial (D := deque nat) 2) tr c /\ (ftask <$> running (workers c)) = [2; 3]%nat /\
  exists i c', ordered_step c (LFinish i) c'.
Proof.
  assert (exists tr c, run ordered_step (initial (D := deque nat) 2) tr c /\ (ftask <$> running (workers c)) = [2; 3]%nat) as (tr & c & Hr & He).
  { exists ([LSubmit 2; LSubmitter 0; LSubmitter 0; LSubmitter 0] ++ replicate 4 (LWorker 0) ++ [LSubmit 3; LSubmitter 1; LSubmitter 1; LSubmitter 1] ++ replicate 4 (LWorker 1))%nat.
    eexists. split.
    - eapply run_cons; [split; [split; [by apply (step_submit _ _ _ _ _ _ _ ToGlobal)|apply not_elem_of_nil]|split; [done|]]|].
      { intros u Hu. by apply not_elem_of_nil in Hu. }
      do 3 (eapply run_cons; [split; [split; [by eapply step_submitter|exact I]|exact I]|]).
      do 4 (eapply run_cons; [split; [split; [by eapply step_worker|exact I]|exact I]|]).
      eapply run_cons; [split; [split; [by apply (step_submit _ _ _ _ _ _ _ ToGlobal)|by apply (bool_decide_unpack _); vm_compute]|split; [done|]]|].
      { intros u Hu. apply list_elem_of_singleton in Hu as ->. left. right. vm_compute. by left. }
      do 3 (eapply run_cons; [split; [split; [by eapply step_submitter|exact I]|exact I]|]).
      do 4 (eapply run_cons; [split; [split; [by eapply step_worker|exact I]|exact I]|]).
      constructor.
    - vm_compute. reflexivity. }
  exists tr, c. split; [exact Hr|split; [exact He|]]. assert (forall t : nat, awaits t <> [] -> destination t = ToGlobal) as Hd by done. apply (ordered_waiting_progress Hd 2 tr c Hr). intros Hz. rewrite Hz in He. discriminate.
Defined.
