(* ===== verification/Engine.v ===== *)
(** What the multithreading code uses of the engine that surrounds it.

    JavaScript values ([JSValue]), the value serializer ([Codec]), execution of
    JavaScript on a worker's isolate ([Engine]) and the platform's foreground task
    runners ([route]) are interfaces here: each class lists the operations the code
    under src/src/threading and src/src/builtins calls, and its laws class what the
    code relies on. [TaskResult] and the tasks' fields are from
    src/src/threading/task.h. *)
From S2P Require Import Prelude.

Abbreviation bytes := (list Z).

(** ** Values and errors *)

(** The constructors of v8::Exception the code uses. *)
Inductive error_kind := Error | TypeError | RangeError.

Class JSValue (V : Type) := {
  js_undefined : V;
  js_error : error_kind -> string -> V;
  (** the iterator result object [{ value, done }] *)
  js_iter_result : V -> bool -> V;
  (** [Array::New] and the elements that are set; the others are holes *)
  js_array : list (option V) -> V;
  (** [IsArray], with what [Get] gives at each index below [Length] ([None] when it
      throws) *)
  js_elements : V -> option (list (option V));
  (** [IsArrayBuffer], with the backing store *)
  js_array_buffer : V -> option nat;
}.

(** Reading back the elements of a new array. *)
Class JSValueLaws (V : Type) `{JSValue V} : Prop := {
  js_elements_array (vs : list V) : js_elements (js_array (Some <$> vs)) = Some (Some <$> vs);
}.

(** The loop that collects the arguments whose [Get] succeeds. *)
Definition present {V} (elems : list (option V)) : list V := omap id elems.

Lemma present_some {V} (vs : list V) : present (Some <$> vs) = vs.
Proof. unfold present. induction vs as [|v vs IH]; simpl; [done|]. by f_equal. Qed.

(** What the builtins ask of their arguments. *)
Class JSOps (V : Type) := {
  js_function : V -> bool;                       (* IsJSFunction *)
  fn_source : V -> option string;                (* Function::ToString *)
  js_number : V -> option Z;                     (* IsNumber; the bits of the double *)
  js_object : V -> bool;                         (* IsObject *)
  js_get : V -> string -> option V;              (* Get *)
}.

(** How a promise resolver is settled. *)
Inductive settlement (V : Type) := Resolve (v : V) | Reject (v : V).
Arguments Resolve {V} v.
Arguments Reject {V} v.

(** ** The value serializer

    [write_value transfer shared v] is [WriteHeader], [WriteValue] and [Release] of
    a serializer that was told [TransferArrayBuffer(id, buffer)] for each pair of
    [transfer]; with [shared] its delegate collects the backing stores of the
    SharedArrayBuffers it meets. [read_value stores shared b] is [ReadValue] of a
    deserializer that was told [TransferArrayBuffer(i, stores[i])] for each [i] and
    whose delegate knows the stores [shared]. Backing stores are numbers. *)
Class Codec (V : Type) := {
  write_value : list (nat * nat) -> bool -> V -> option (bytes * list nat);
  read_header : bytes -> bool;
  read_value : list nat -> list nat -> bytes -> option V;
}.

(** Structured cloning gives the value back when the receiver is handed the buffers
    under the identifiers the sender used: [0, 1, 2, ...]. [V] is the type of the values
    that can be read any number of times: data with a channel or a mutex is read once
    (Serializer.v). *)
Class CodecLaws (V : Type) `{Codec V} : Prop := {
  codec_roundtrip stores shared v b sab :
    write_value (imap (fun i s => (i, s)) stores) shared v = Some (b, sab) ->
    b <> [] /\ read_header b = true /\ read_value stores sab b = Some v;
  codec_unshared transfer v b sab : write_value transfer false v = Some (b, sab) -> sab = [];
}.

(** Serialization without transfer: what most call sites do. *)
Definition serialize {V} `{Codec V} (v : V) : option bytes := fst <$> write_value [] false v.
Definition deserialize {V} `{Codec V} (b : bytes) : option V :=
  if read_header b then read_value [] [] b else None.

Lemma imap_pair_snd {A} (f : nat -> nat) (l : list A) : (imap (fun i s => (f i, s)) l).*2 = l.
Proof. revert f. induction l as [|x l IH]; intros f; simpl; [done|]. f_equal. apply (IH (f ∘ S)). Qed.

Lemma codec_roundtrip_unshared {V} `{CodecLaws V} stores (v : V) b sab :
  write_value (imap (fun i s => (i, s)) stores) false v = Some (b, sab) ->
  b <> [] /\ read_header b = true /\ read_value stores [] b = Some v.
Proof.
  intros Hw. pose proof (codec_unshared _ _ _ _ Hw) as ->. exact (codec_roundtrip _ _ _ _ _ Hw).
Qed.

Lemma serialize_roundtrip {V} `{CodecLaws V} (v : V) b :
  serialize v = Some b -> b <> [] /\ deserialize b = Some v.
Proof.
  unfold serialize, deserialize. destruct (write_value [] false v) as [[b' sab]|] eqn:Hw; simpl; [|done].
  intros; simplify_eq. destruct (codec_roundtrip_unshared [] v b sab Hw) as (Hne & -> & ?). by split.
Qed.

(** ** Execution of JavaScript *)

Inductive outcome (V A : Type) :=
| Done (a : A)
| Threw (e : option V).       (* the exception the enclosing TryCatch caught, if any *)
Arguments Done {V A} a.
Arguments Threw {V A} e.

Inductive promise_state (V : Type) := Pending | Fulfilled (v : V) | Rejected (v : V).
Arguments Pending {V}.
Arguments Fulfilled {V} v.
Arguments Rejected {V} v.

(** [W] is the state of the isolate and of everything it shares. *)
Class Engine (V W : Type) := {
  script : Type;
  new_string : string -> W -> outcome V string * W;
  compile : string -> W -> outcome V script * W;
  run_script : script -> W -> outcome V V * W;
  call : V -> list V -> W -> outcome V V * W;
  is_function : V -> bool;
  is_promise : V -> bool;
  state_of : V -> W -> promise_state V;
  checkpoint : W -> W;                    (* PerformMicrotaskCheckpoint *)
  (** the exception a failed [ReadValue] or [WriteValue] leaves, if any *)
  read_exception : bytes -> option V;
  write_exception : V -> option V;
  sleep_1ms : W -> W;                     (* OS::Sleep *)
  (** the string in an exception object's "stack" property *)
  get_stack : V -> W -> option string * W;
  (** setting it: the object afterwards, or [None] when its setter throws *)
  set_stack : V -> string -> W -> option V * W;
}.

(** ** task.h *)

Record task_result := TaskResult { success : bool; data : bytes }.

(** The fields of a ThreadTask that carries a function to run. *)
Record thread_task := ThreadTask {
  function_source : string;
  serialized_arguments : bytes;
  backing_stores : list nat;
  shared_array_buffers : list nat;
  caller_stack_trace : string;
}.

(** ** Delivery to the isolate that waits

    The same choice ends every operation that settles a promise of another thread:
    the private queue of the pool worker that owns the isolate, or a task of the
    isolate's foreground task runner, or (no runner) the task is deleted. *)
Inductive delivery (T : Type) :=
| SubmittedToWorker (worker_index : nat) (t : T)
| PostedForeground (isolate : nat) (t : T)
| Deleted (t : T).
Arguments SubmittedToWorker {T} worker_index t.
Arguments PostedForeground {T} isolate t.
Arguments Deleted {T} t.

(** [worker_index] is -1 for a thread outside the pool; [runner] says which isolates
    have a foreground task runner. *)
Definition route {T} (runner : nat -> bool) (isolate : nat) (worker_index : Z) (t : T) : delivery T :=
  if decide (worker_index <> -1) then SubmittedToWorker (Z.to_nat worker_index) t
  else if runner isolate then PostedForeground isolate t
  else Deleted t.

Definition delivered {T} (d : delivery T) : bool :=
  match d with Deleted _ => false | _ => true end.

Lemma route_delivered {T} runner isolate worker_index (t : T) :
  delivered (route runner isolate worker_index t) = true <->
  worker_index <> -1 \/ runner isolate = true.
Proof.
  unfold route. case_decide; simpl; [split; auto|].
  destruct (runner isolate); simpl; split; auto; intros [?|?]; done.
Qed.
