(* ===== verification/WireFormat.v ===== *)
(** The wire format of structured clones: src/src/objects/value-serializer.cc.

    Tags, varints, zigzag integers, doubles, strings and the header, as the serializer
    writes and the deserializer reads them. A position in the data is the list of the
    bytes that are left; a write gives the bytes that it appends. The host is
    little-endian. *)
From S2P Require Import Prelude Conversions Engine.
From Stdlib Require Import Ascii.

Definition kLatestVersion : Z := 16.

(** ** Tags *)

Inductive SerializationTag :=
| kVersion | kPadding | kVerifyObjectCount | kTheHole | kUndefined | kNull | kTrue | kFalse
| kInt32 | kUint32 | kDouble | kBigInt | kUtf8String | kOneByteString | kTwoByteString
| kObjectReference | kBeginJSObject | kEndJSObject | kBeginSparseJSArray | kEndSparseJSArray
| kBeginDenseJSArray | kEndDenseJSArray | kDate | kTrueObject | kFalseObject | kNumberObject
| kBigIntObject | kStringObject | kRegExp | kBeginJSMap | kEndJSMap | kBeginJSSet | kEndJSSet
| kArrayBuffer | kImmutableArrayBuffer | kResizableArrayBuffer | kArrayBufferTransfer
| kArrayBufferView | kSharedArrayBuffer | kSharedObject | kWasmModuleTransfer | kHostObject
| kWasmMemoryTransfer | kError.

#[export] Instance SerializationTag_eq_dec : EqDecision SerializationTag.
Proof. solve_decision. Defined.

Definition char_code (c : ascii) : Z := Z.of_nat (nat_of_ascii c).

Definition tag_byte (t : SerializationTag) : Z :=
  match t with
  | kVersion => 0xFF | kPadding => 0 | kVerifyObjectCount => char_code "?"
  | kTheHole => char_code "-" | kUndefined => char_code "_" | kNull => char_code "0"
  | kTrue => char_code "T" | kFalse => char_code "F" | kInt32 => char_code "I" | kUint32 => char_code "U"
  | kDouble => char_code "N" | kBigInt => char_code "Z" | kUtf8String => char_code "S"
  | kOneByteString => 34 (* a double quote *) | kTwoByteString => char_code "c"
  | kObjectReference => char_code "^" | kBeginJSObject => char_code "o" | kEndJSObject => char_code "{"
  | kBeginSparseJSArray => char_code "a" | kEndSparseJSArray => char_code "@"
  | kBeginDenseJSArray => char_code "A" | kEndDenseJSArray => char_code "$" | kDate => char_code "D"
  | kTrueObject => char_code "y" | kFalseObject => char_code "x" | kNumberObject => char_code "n"
  | kBigIntObject => char_code "z" | kStringObject => char_code "s" | kRegExp => char_code "R"
  | kBeginJSMap => char_code ";" | kEndJSMap => char_code ":" | kBeginJSSet => char_code "'"
  | kEndJSSet => char_code "," | kArrayBuffer => char_code "B" | kImmutableArrayBuffer => char_code "C"
  | kResizableArrayBuffer => char_code "~" | kArrayBufferTransfer => char_code "t"
  | kArrayBufferView => char_code "V" | kSharedArrayBuffer => char_code "u" | kSharedObject => char_code "p"
  | kWasmModuleTransfer => char_code "w" | kHostObject => char_code "\" | kWasmMemoryTransfer => char_code "m"
  | kError => char_code "r"
  end.

Definition WriteTag (t : SerializationTag) : bytes := [tag_byte t].

(** The loops of [ReadTag] and [PeekTag] skip padding. A tag is its raw byte. *)
Fixpoint ReadTag (b : bytes) : option (Z * bytes) :=
  match b with
  | [] => None
  | byte :: b => if byte =? tag_byte kPadding then ReadTag b else Some (byte, b)
  end.

Definition PeekTag (b : bytes) : option Z := fst <$> ReadTag b.

(** ** Varints

    [w] is the width of the type, in bits. *)

Fixpoint bytes_needed (fuel : nat) (value : Z) : Z :=
  match fuel with
  | O => 0
  | S fuel => let value := Z.shiftr value 7 in 1 + (if value =? 0 then 0 else bytes_needed fuel value)
  end.

(** The value loses 7 bits at each round: [w/7 + 1] rounds are enough. *)
Definition varint_fuel (w : Z) : nat := Z.to_nat (w / 7 + 1).

Definition BytesNeededForVarint (w value : Z) : Z := bytes_needed (varint_fuel w) value.

(** The do-while loop, then the correction of the last byte. *)
Fixpoint varint_loop (fuel : nat) (value : Z) : bytes :=
  match fuel with
  | O => []
  | S fuel =>
      Z.lor (Z.land value 0x7F) 0x80 ::
      (let value := Z.shiftr value 7 in if value =? 0 then [] else varint_loop fuel value)
  end.

Fixpoint clear_last (b : bytes) : bytes :=
  match b with
  | [] => []
  | [byte] => [Z.land byte 0x7F]
  | byte :: b => byte :: clear_last b
  end.

Definition WriteVarint (w value : Z) : bytes := clear_last (varint_loop (varint_fuel w) value).

Fixpoint varint_read_loop (w : Z) (b : bytes) (value shift : Z) : option (Z * bytes) :=
  match b with
  | [] => None
  | byte :: b' =>
      let has_another_byte := negb (Z.land byte 0x80 =? 0) in
      if shift <? w then
        let value := Z.lor value (wrap w (Z.shiftl (Z.land byte 0x7F) shift)) in
        if has_another_byte then varint_read_loop w b' value (shift + 7) else Some (value, b')
      else Some (value, b)
  end.

Definition ReadVarintLoop (w : Z) (b : bytes) : option (Z * bytes) := varint_read_loop w b 0 0.

(** The unrolled iterations of [ReadVarint], for the given shifts. *)
Fixpoint varint_unrolled (w : Z) (shifts : list Z) (b : bytes) (value : Z) : option (Z * bytes) :=
  match shifts with
  | [] => Some (value, b)
  | shift :: shifts =>
      if shift <? w then
        match b with
        | [] => None
        | byte :: b =>
            if byte <? 0x80 then Some (Z.lor value (wrap w (Z.shiftl byte shift)), b)
            else varint_unrolled w shifts b (Z.lor value (wrap w (Z.shiftl (Z.land byte 0x7F) shift)))
        end
      else varint_unrolled w shifts b value
  end.

Definition ReadVarint (w : Z) (b : bytes) : option (Z * bytes) :=
  if w / 8 >? 4 then ReadVarintLoop w b
  else if w / 8 + 1 >=? Z.of_nat (length b) then ReadVarintLoop w b
  else varint_unrolled w [0; 7; 14; 21; 28] b 0.

Definition WriteZigZag (w value : Z) : bytes :=
  WriteVarint w (Z.lxor (wrap w (Z.shiftl (wrap w value) 1)) (wrap w (Z.shiftr value (w - 1)))).

Definition ReadZigZag (w : Z) (b : bytes) : option (Z * bytes) :=
  '(unsigned_value, b) ← ReadVarint w b;
  Some (swrap w (Z.lxor (Z.shiftr unsigned_value 1) (wrap w (- Z.land unsigned_value 1))), b).

(** ** Header *)

Definition WriteHeader : bytes := WriteTag kVersion ++ WriteVarint 32 kLatestVersion.

(** [version_], which stays 0 without a header, and the rest. *)
Definition ReadHeader (b : bytes) : option (Z * bytes) :=
  match b with
  | byte :: b' =>
      if byte =? tag_byte kVersion then
        '(version, b) ← ReadVarintLoop 32 b';
        if version >? kLatestVersion then None else Some (version, b)
      else Some (0, b)
  | [] => Some (0, [])
  end.

(** ** Raw data *)

Definition ReadRawBytes (size : Z) (b : bytes) : option (bytes * bytes) :=
  if size >? Z.of_nat (length b) then None
  else Some (take (Z.to_nat size) b, drop (Z.to_nat size) b).

(** The bytes of a machine integer, least significant first, and back. *)
Fixpoint le_bytes (n : nat) (z : Z) : bytes :=
  match n with O => [] | S n => z mod 256 :: le_bytes n (z / 256) end.

Fixpoint le_value (b : bytes) : Z :=
  match b with [] => 0 | byte :: b => byte + 256 * le_value b end.

Definition quiet_NaN : Z := 0x7FF8000000000000.

Definition WriteDouble (value : Z) : bytes := le_bytes 8 value.

(** The number of bytes left is truncated to an unsigned int. *)
Definition ReadDouble (b : bytes) : option (Z * bytes) :=
  if 8 >? wrap 32 (Z.of_nat (length b)) then None
  else
    let value := le_value (take 8 b) in
    Some (if isnan value then quiet_NaN else value, drop 8 b).

(** ** Strings *)

Inductive flat_string := OneByte (chars : bytes) | TwoByte (chars : list Z).

Definition kMaxLength : Z := 2 ^ 29 - 24.       (* String::kMaxLength, 64-bit *)

Definition WriteOneByteString (chars : bytes) : bytes :=
  WriteVarint 32 (wrap 32 (Z.of_nat (length chars))) ++ chars.

Definition WriteTwoByteString (chars : list Z) : bytes :=
  WriteVarint 32 (wrap 32 (Z.of_nat (length chars) * 2)) ++ (chars ≫= le_bytes 2).

(** [buffer_size] is the number of bytes written so far. *)
Definition WriteString (buffer_size : Z) (s : flat_string) : bytes :=
  match s with
  | OneByte chars => WriteTag kOneByteString ++ WriteOneByteString chars
  | TwoByte chars =>
      let byte_length := wrap 32 (Z.of_nat (length chars) * 2) in
      (if Z.land (buffer_size + 1 + BytesNeededForVarint 32 byte_length) 1 =? 0 then [] else WriteTag kPadding) ++
      WriteTag kTwoByteString ++ WriteTwoByteString chars
  end.

Definition ReadOneByteString (b : bytes) : option (flat_string * bytes) :=
  '(byte_length, b) ← ReadVarint 32 b;
  '(chars, b) ← ReadRawBytes byte_length b;
  if byte_length >? kMaxLength then None else Some (OneByte chars, b).

Fixpoint two_bytes (b : bytes) : list Z :=
  match b with lo :: hi :: b => le_value [lo; hi] :: two_bytes b | _ => [] end.

Definition ReadTwoByteString (b : bytes) : option (flat_string * bytes) :=
  '(byte_length, b) ← ReadVarint 32 b;
  if negb (byte_length mod 2 =? 0) then None
  else
    '(raw, b) ← ReadRawBytes byte_length b;
    if byte_length =? 0 then Some (OneByte [], b)
    else if byte_length / 2 >? kMaxLength then None
    else Some (TwoByte (two_bytes raw), b).

(** ** Primitive values *)

(** A number is a Smi or the bits of a double. *)
Inductive primitive := Undefined | Null | True_ | False_ | Smi (n : Z) | HeapNumber (d : Z) | Str (s : flat_string).

(** The cases of [WriteObject] that are neither BigInts nor receivers. *)
Definition WritePrimitive (buffer_size : Z) (p : primitive) : bytes :=
  match p with
  | Undefined => WriteTag kUndefined
  | Null => WriteTag kNull
  | True_ => WriteTag kTrue
  | False_ => WriteTag kFalse
  | Smi n => WriteTag kInt32 ++ WriteZigZag 32 n
  | HeapNumber d => WriteTag kDouble ++ WriteDouble d
  | Str s => WriteString buffer_size s
  end.

(** The tags of these values in [ReadObjectInternal]; [None] for the other tags too.
    [NewNumberFromInt] and [NewNumber] choose the representation of the number. *)
Definition ReadPrimitive (b : bytes) : option (primitive * bytes) :=
  '(tag, b) ← ReadTag b;
  if tag =? tag_byte kUndefined then Some (Undefined, b)
  else if tag =? tag_byte kNull then Some (Null, b)
  else if tag =? tag_byte kTrue then Some (True_, b)
  else if tag =? tag_byte kFalse then Some (False_, b)
  else if tag =? tag_byte kInt32 then '(n, b) ← ReadZigZag 32 b; Some (Smi n, b)
  else if tag =? tag_byte kDouble then '(d, b) ← ReadDouble b; Some (HeapNumber d, b)
  else if tag =? tag_byte kOneByteString then '(s, b) ← ReadOneByteString b; Some (Str s, b)
  else if tag =? tag_byte kTwoByteString then '(s, b) ← ReadTwoByteString b; Some (Str s, b)
  else None.

(** ** Bytes and bits *)

Definition byte_ok (byte : Z) : Prop := 0 <= byte < 256.
Definition bytes_ok (b : bytes) : Prop := Forall byte_ok b.

Lemma low_bits v : Z.land v 0x7F = v mod 128.
Proof. apply (land_pow2_mask v 7). lia. Qed.

Lemma high_bit v : Z.land v 0x80 = v / 128 mod 2 * 128.
Proof.
  change 0x80 with (Z.shiftl (Z.ones 1) 7). rewrite land_field by lia.
  by rewrite Z.shiftl_mul_pow2, Z.shiftr_div_pow2 by lia.
Qed.

Lemma set_high_bit m : 0 <= m < 128 -> Z.lor m 0x80 = m + 128.
Proof. intros Hm. change 0x80 with (1 * 2 ^ 7). by apply lor_disjoint. Qed.

Lemma has_another_byte byte : byte_ok byte -> (Z.land byte 0x80 =? 0) = (byte <? 0x80).
Proof.
  intros Hb. unfold byte_ok in Hb. rewrite high_bit. destruct (Z.ltb_spec byte 0x80).
  - by rewrite Z.div_small by lia.
  - replace (byte / 128) with 1; [done|]. apply Z.div_unique with (byte - 128); lia.
Qed.

(** ** Varints *)

Definition write_varint (fuel : nat) (value : Z) : bytes := clear_last (varint_loop fuel value).

Lemma clear_last_cons byte b : b <> [] -> clear_last (byte :: b) = byte :: clear_last b.
Proof. by destruct b. Qed.

Lemma varint_loop_nonempty fuel v : fuel <> O -> varint_loop fuel v <> [].
Proof. by destruct fuel. Qed.

Lemma write_varint_last fuel v : 0 <= v < 128 -> write_varint (S fuel) v = [v].
Proof.
  intros Hv. unfold write_varint. cbn [varint_loop]. rewrite low_bits, Z.shiftr_div_pow2, (Z.mod_small v 128) by lia.
  change (2 ^ 7) with 128. rewrite (Z.div_small v 128), set_high_bit by lia. cbn [clear_last Z.eqb].
  rewrite low_bits. f_equal. change (v + 128) with (v + 1 * 128). rewrite Z.mod_add by done. by apply Z.mod_small.
Qed.

Lemma write_varint_more fuel v : 128 <= v < 2 ^ (7 * (Z.of_nat fuel + 1)) ->
  write_varint (S fuel) v = v mod 128 + 128 :: write_varint fuel (v / 128).
Proof.
  intros Hv. unfold write_varint. cbn [varint_loop]. rewrite low_bits, Z.shiftr_div_pow2 by lia. change (2 ^ 7) with 128.
  pose proof (Z.mod_pos_bound v 128 ltac:(lia)). rewrite set_high_bit by lia.
  assert (1 <= v / 128) by (apply Z.div_le_lower_bound; lia). destruct (Z.eqb_spec (v / 128) 0); [lia|].
  apply clear_last_cons, varint_loop_nonempty. intros ->. simpl in Hv. lia.
Qed.

Lemma varint_induction (P : nat -> Z -> Prop) :
  (forall fuel v, 0 <= v < 128 -> P (S fuel) v) ->
  (forall fuel v, 128 <= v < 2 ^ (7 * (Z.of_nat fuel + 1)) -> 0 < v / 128 < 2 ^ (7 * Z.of_nat fuel) -> fuel <> O -> P fuel (v / 128) -> P (S fuel) v) ->
  forall fuel v, fuel <> O -> 0 <= v < 2 ^ (7 * Z.of_nat fuel) -> P fuel v.
Proof.
  intros Hlast Hmore fuel. induction fuel as [|fuel IH]; intros v Hf Hv; [done|].
  destruct (decide (v < 128)); [apply Hlast; lia|].
  assert (Hp : 2 ^ (7 * Z.of_nat (S fuel)) = 128 * 2 ^ (7 * Z.of_nat fuel)).
  { replace (7 * Z.of_nat (S fuel)) with (7 + 7 * Z.of_nat fuel) by lia. by rewrite Z.pow_add_r by lia. }
  assert (0 < v / 128 < 2 ^ (7 * Z.of_nat fuel)).
  { split; [apply Z.div_str_pos; lia|apply Z.div_lt_upper_bound; lia]. }
  assert (fuel <> O) by (intros ->; simpl in *; lia).
  apply Hmore; [|done|done|apply IH; [done|lia]]. replace (7 * (Z.of_nat fuel + 1)) with (7 * Z.of_nat (S fuel)) by lia. lia.
Qed.

Lemma varint_read_written w fuel v : fuel <> O -> 0 <= v < 2 ^ (7 * Z.of_nat fuel) ->
  forall rest acc shift, 0 <= shift < w -> 0 <= acc < 2 ^ shift -> v * 2 ^ shift < 2 ^ w ->
  varint_read_loop w (write_varint fuel v ++ rest) acc shift = Some (acc + v * 2 ^ shift, rest).
Proof.
  revert fuel v. apply (varint_induction (fun fuel v => forall rest acc shift, _ -> _ -> _ -> _)).
  - intros fuel v Hv rest acc shift Hs Ha Hw. rewrite write_varint_last by done. cbn [app varint_read_loop].
    rewrite has_another_byte by (unfold byte_ok; lia). destruct (Z.ltb_spec shift w); [|lia]. destruct (Z.ltb_spec v 0x80); [|lia].
    cbn [negb]. unfold wrap. rewrite low_bits, Z.shiftl_mul_pow2, (Z.mod_small v) by lia.
    by rewrite Z.mod_small, lor_disjoint by (try lia; nia).
  - intros fuel v Hv Hd Hf IH rest acc shift Hs Ha Hw. rewrite write_varint_more by done. cbn [app varint_read_loop].
    pose proof (Z.mod_pos_bound v 128 ltac:(lia)). pose proof (Z.div_mod v 128 ltac:(lia)).
    rewrite has_another_byte by (unfold byte_ok; lia). destruct (Z.ltb_spec shift w); [|lia].
    destruct (Z.ltb_spec (v mod 128 + 128) 0x80); [lia|]. cbn [negb]. unfold wrap. rewrite low_bits, Z.shiftl_mul_pow2 by lia.
    replace ((v mod 128 + 128) mod 128) with (v mod 128).
    2: { rewrite <- (Z.mul_1_l 128) at 3. by rewrite Z.mod_add, Z.mod_mod by lia. }
    assert (Hp : 2 ^ (shift + 7) = 128 * 2 ^ shift) by (rewrite Z.pow_add_r by lia; lia).
    assert (0 < 2 ^ shift) by lia.
    rewrite (Z.mod_small (v mod 128 * 2 ^ shift)), lor_disjoint by (try lia; nia). rewrite IH.
    + f_equal. f_equal. rewrite Hp. nia.
    + split; [lia|]. apply (Z.pow_lt_mono_r_iff 2); [lia|lia|]. rewrite Hp. nia.
    + rewrite Hp. nia.
    + rewrite Hp. nia.
Qed.

Lemma written_ok fuel v : fuel <> O -> 0 <= v < 2 ^ (7 * Z.of_nat fuel) -> bytes_ok (write_varint fuel v).
Proof.
  revert fuel v. apply varint_induction.
  - intros fuel v Hv. rewrite write_varint_last by done. constructor; [unfold byte_ok; lia|constructor].
  - intros fuel v Hv Hd Hf IH. rewrite write_varint_more by done. pose proof (Z.mod_pos_bound v 128 ltac:(lia)).
    constructor; [unfold byte_ok; lia|done].
Qed.

Lemma written_length fuel v : fuel <> O -> 0 <= v < 2 ^ (7 * Z.of_nat fuel) ->
  Z.of_nat (length (write_varint fuel v)) = bytes_needed fuel v /\ (length (write_varint fuel v) <= fuel)%nat.
Proof.
  revert fuel v. apply varint_induction.
  - intros fuel v Hv. rewrite write_varint_last by done. cbn [bytes_needed length]. rewrite Z.shiftr_div_pow2 by lia.
    change (2 ^ 7) with 128. rewrite Z.div_small by lia. simpl. lia.
  - intros fuel v Hv Hd Hf [IH ?]. rewrite write_varint_more by done. cbn [bytes_needed length]. rewrite Z.shiftr_div_pow2 by lia.
    change (2 ^ 7) with 128. destruct (Z.eqb_spec (v / 128) 0); lia.
Qed.

(** The unrolled iterations agree with the loop. *)
Lemma unrolled_step w byte b value shift shifts :
  byte_ok byte -> shift < w ->
  varint_unrolled w (shift :: shifts) (byte :: b) value =
  (let value := Z.lor value (wrap w (Z.shiftl (Z.land byte 0x7F) shift)) in
   if byte <? 0x80 then Some (value, b) else varint_unrolled w shifts b value).
Proof.
  intros Hb Hs. cbn [varint_unrolled]. destruct (Z.ltb_spec shift w); [|lia]. destruct (Z.ltb_spec byte 0x80); [|done].
  unfold byte_ok in Hb. by rewrite low_bits, (Z.mod_small byte) by lia.
Qed.

Lemma loop_step w byte b value shift :
  byte_ok byte -> shift < w ->
  varint_read_loop w (byte :: b) value shift =
  (let value := Z.lor value (wrap w (Z.shiftl (Z.land byte 0x7F) shift)) in
   if byte <? 0x80 then Some (value, b) else varint_read_loop w b value (shift + 7)).
Proof.
  intros Hb Hs. cbn [varint_read_loop]. destruct (Z.ltb_spec shift w); [|lia]. rewrite has_another_byte by done.
  by destruct (byte <? 0x80).
Qed.

Lemma loop_stop w byte b value shift : w <= shift -> varint_read_loop w (byte :: b) value shift = Some (value, byte :: b).
Proof. intros Hs. cbn [varint_read_loop]. destruct (Z.ltb_spec shift w); [lia|done]. Qed.

Lemma unrolled_skip w b value shifts :
  Forall (fun s => w <= s) shifts -> varint_unrolled w shifts b value = Some (value, b).
Proof.
  induction 1 as [|s shifts Hs _ IH]; [done|]. cbn [varint_unrolled]. destruct (Z.ltb_spec s w); [lia|done].
Qed.

Lemma unrolled_loop w n b value shift :
  bytes_ok b -> 0 <= shift -> shift < w + 7 -> w <= shift + 7 * Z.of_nat n -> w + 7 <= shift + 7 * Z.of_nat (length b) ->
  varint_unrolled w ((fun i => shift + 7 * Z.of_nat i) <$> seq 0 n) b value = varint_read_loop w b value shift.
Proof.
  revert b value shift. induction n as [|n IH]; intros b value shift Hb Hs Hw Hn Hl.
  - destruct b as [|byte b]; [simpl in *; lia|]. rewrite loop_stop by (simpl in *; lia). done.
  - destruct b as [|byte b]; [simpl in *; lia|]. inversion Hb as [|?? Hbyte Hrest]; subst.
    rewrite <- cons_seq, fmap_cons, <- fmap_S_seq, <- list_fmap_compose.
    assert (Hshift : (fun i => shift + 7 * Z.of_nat i) ∘ S = (fun i => shift + 7 * Z.of_nat (S i))) by done.
    rewrite (list_fmap_ext _ (fun i => (shift + 7) + 7 * Z.of_nat i)) by (intros; unfold compose; lia).
    change (7 * Z.of_nat 0) with 0. rewrite Z.add_0_r. destruct (decide (shift < w)).
    + rewrite unrolled_step, loop_step by done. cbn zeta. destruct (Z.ltb_spec byte 0x80); [done|].
      apply IH; [done|lia|lia|lia|simpl in Hl; lia].
    + rewrite loop_stop by lia. apply unrolled_skip. constructor; [lia|]. apply Forall_fmap, Forall_true. intros; simpl; lia.
Qed.

Definition widths : list Z := [8; 16; 32; 64].

Lemma ReadVarint_loop w b : w ∈ widths -> bytes_ok b -> ReadVarint w b = ReadVarintLoop w b.
Proof.
  intros Hw Hb. unfold ReadVarint. destruct (Z.gtb_spec (w / 8) 4); [done|].
  destruct (Z.geb_spec (w / 8 + 1) (Z.of_nat (length b))) as [|Hl]; [done|].
  assert (w = 8 \/ w = 16 \/ w = 32) as Hw' by (unfold widths in Hw; set_unfold; Z.to_euclidean_division_equations; lia).
  apply (unrolled_loop w 5 b 0 0); [done|done|..]; Z.to_euclidean_division_equations; lia.
Qed.

Lemma ReadVarint_written w v rest :
  w ∈ widths -> 0 <= v < 2 ^ w -> bytes_ok rest -> ReadVarint w (WriteVarint w v ++ rest) = Some (v, rest).
Proof.
  intros Hw Hv Hrest. assert (0 < w) by (unfold widths in Hw; set_unfold; lia).
  assert (Hf : varint_fuel w <> O) by (unfold varint_fuel; pose proof (Z.div_pos w 7); lia).
  assert (0 <= v < 2 ^ (7 * Z.of_nat (varint_fuel w))).
  { split; [lia|]. apply Z.lt_le_trans with (2 ^ w); [lia|]. apply Z.pow_le_mono_r; [lia|]. unfold varint_fuel.
    pose proof (Z.div_mod w 7 ltac:(lia)). pose proof (Z.mod_pos_bound w 7 ltac:(lia)). lia. }
  rewrite ReadVarint_loop; [|done|]. 2: { apply Forall_app. split; [by apply written_ok|done]. }
  unfold ReadVarintLoop, WriteVarint. change (clear_last (varint_loop ?n v)) with (write_varint n v).
  rewrite varint_read_written; [f_equal; f_equal; change (2 ^ 0) with 1; lia|done|done|lia|change (2 ^ 0) with 1; lia|].
  change (2 ^ 0) with 1. lia.
Qed.

Lemma WriteVarint_ok w v : 0 < w -> 0 <= v < 2 ^ w ->
  bytes_ok (WriteVarint w v) /\ Z.of_nat (length (WriteVarint w v)) = BytesNeededForVarint w v /\
  BytesNeededForVarint w v <= w / 7 + 1.
Proof.
  intros Hw Hv. pose proof (Z.div_pos w 7 ltac:(lia) ltac:(lia)).
  assert (Hf : varint_fuel w <> O) by (unfold varint_fuel; lia).
  assert (0 <= v < 2 ^ (7 * Z.of_nat (varint_fuel w))).
  { split; [lia|]. apply Z.lt_le_trans with (2 ^ w); [lia|]. apply Z.pow_le_mono_r; [lia|]. unfold varint_fuel.
    pose proof (Z.div_mod w 7 ltac:(lia)). pose proof (Z.mod_pos_bound w 7 ltac:(lia)). lia. }
  destruct (written_length _ _ Hf H0) as [Hl ?]. split; [by apply written_ok|]. split; [done|].
  unfold BytesNeededForVarint. rewrite <- Hl. unfold varint_fuel in *. lia.
Qed.

(** ** Zigzag integers *)

Lemma lxor_ones w x : 0 <= w -> 0 <= x < 2 ^ w -> Z.lxor x (2 ^ w - 1) = 2 ^ w - 1 - x.
Proof.
  intros Hw Hx. replace (2 ^ w - 1) with (Z.ones w) by (rewrite Z.ones_equiv; lia).
  assert (He : Z.lxor x (Z.ones w) = Z.land (Z.lnot x) (Z.ones w)).
  { apply Z.bits_inj'. intros i Hi. rewrite Z.lxor_spec, Z.land_spec, Z.lnot_spec by done.
    destruct (decide (i < w)).
    - rewrite Z.ones_spec_low by lia. by rewrite andb_true_r, xorb_true_r.
    - rewrite Z.ones_spec_high by lia. rewrite <- (Z.mod_small x (2 ^ w)), Z.mod_pow2_bits_high by lia. done. }
  rewrite He, Z.land_ones, Z.ones_equiv by done. unfold Z.lnot.
  replace (Z.pred (- x)) with ((2 ^ w - 1 - x) + (-1) * 2 ^ w) by lia. rewrite Z.mod_add, Z.mod_small by lia. lia.
Qed.

Definition zigzag (n : Z) : Z := if 0 <=? n then 2 * n else - 2 * n - 1.

Lemma zigzag_bits w n : 1 < w -> - 2 ^ (w - 1) <= n < 2 ^ (w - 1) ->
  Z.lxor (wrap w (Z.shiftl (wrap w n) 1)) (wrap w (Z.shiftr n (w - 1))) = zigzag n.
Proof.
  intros Hw Hn. unfold wrap, zigzag. assert (He : 2 ^ w = 2 * 2 ^ (w - 1)) by (rewrite <- Z.pow_succ_r by lia; f_equal; lia).
  rewrite Z.shiftl_mul_pow2, Z.shiftr_div_pow2 by lia. change (2 ^ 1) with 2. destruct (Z.leb_spec 0 n).
  - rewrite (Z.div_small n), (Z.mod_small 0), Z.lxor_0_r, (Z.mod_small n), Z.mod_small by lia. lia.
  - replace (n / 2 ^ (w - 1)) with (-1) by (apply (Z.div_unique _ _ _ (n + 2 ^ (w - 1))); lia).
    replace (-1 mod 2 ^ w) with (2 ^ w - 1) by (apply (Z.mod_unique _ _ (-1)); lia).
    replace (n mod 2 ^ w) with (n + 2 ^ w) by (apply (Z.mod_unique _ _ (-1)); lia).
    replace (((n + 2 ^ w) * 2) mod 2 ^ w) with (2 * n + 2 ^ w) by (apply (Z.mod_unique _ _ 1); lia).
    rewrite lxor_ones by lia. lia.
Qed.

Lemma unzigzag w n : 1 < w -> - 2 ^ (w - 1) <= n < 2 ^ (w - 1) ->
  swrap w (Z.lxor (Z.shiftr (zigzag n) 1) (wrap w (- Z.land (zigzag n) 1))) = n.
Proof.
  intros Hw Hn. unfold wrap, zigzag. assert (He : 2 ^ w = 2 * 2 ^ (w - 1)) by (rewrite <- Z.pow_succ_r by lia; f_equal; lia).
  rewrite Z.shiftr_div_pow2 by lia. change (2 ^ 1) with 2. change (Z.land ?x 1) with (Z.land x (2 ^ 1 - 1)).
  rewrite land_pow2_mask by lia. change (2 ^ 1) with 2. destruct (Z.leb_spec 0 n).
  - rewrite (Z.mul_comm 2), Z.mod_mul, Z.div_mul, Z.mod_0_l, Z.lxor_0_r by lia. apply swrap_id; lia.
  - replace ((-2 * n - 1) mod 2) with 1 by (apply (Z.mod_unique _ _ (- n - 1)); lia).
    replace ((-2 * n - 1) / 2) with (- n - 1) by (apply (Z.div_unique _ _ _ 1); lia).
    replace (- (1) mod 2 ^ w) with (2 ^ w - 1) by (apply (Z.mod_unique _ _ (-1)); lia).
    rewrite lxor_ones by lia. rewrite (swrap_eq w _ n); [apply swrap_id; lia|lia|].
    replace (2 ^ w - 1 - (- n - 1)) with (n + 1 * 2 ^ w) by lia. apply Z.mod_add. lia.
Qed.

Lemma zigzag_bounds w n : 1 < w -> - 2 ^ (w - 1) <= n < 2 ^ (w - 1) -> 0 <= zigzag n < 2 ^ w.
Proof.
  intros Hw Hn. assert (He : 2 ^ w = 2 * 2 ^ (w - 1)) by (rewrite <- Z.pow_succ_r by lia; f_equal; lia).
  unfold zigzag. destruct (Z.leb_spec 0 n); lia.
Qed.

Lemma ReadZigZag_written w n rest :
  w ∈ widths -> - 2 ^ (w - 1) <= n < 2 ^ (w - 1) -> bytes_ok rest -> ReadZigZag w (WriteZigZag w n ++ rest) = Some (n, rest).
Proof.
  intros Hw Hn Hrest. assert (1 < w) by (unfold widths in Hw; set_unfold; lia).
  unfold ReadZigZag, WriteZigZag. rewrite zigzag_bits by done.
  rewrite ReadVarint_written by (done || by apply zigzag_bounds). simpl. by rewrite unzigzag.
Qed.

(** ** Raw data *)

Lemma le_bytes_length n z : length (le_bytes n z) = n.
Proof. revert z. induction n; intros z; simpl; auto. Qed.

Lemma le_bytes_ok n z : bytes_ok (le_bytes n z).
Proof. revert z. induction n as [|n IH]; intros z; [constructor|]. constructor; [apply Z.mod_pos_bound; lia|apply IH]. Qed.

Lemma le_value_bytes n z : 0 <= z < 256 ^ Z.of_nat n -> le_value (le_bytes n z) = z.
Proof.
  revert z. induction n as [|n IH]; intros z Hz; cbn [le_bytes le_value]; [change (256 ^ Z.of_nat 0) with 1 in Hz; lia|].
  rewrite Nat2Z.inj_succ, Z.pow_succ_r in Hz by lia. rewrite IH.
  - pose proof (Z.div_mod z 256 ltac:(lia)). lia.
  - split; [apply Z.div_pos; lia|apply Z.div_lt_upper_bound; lia].
Qed.

Lemma ReadRawBytes_app (raw rest : bytes) : ReadRawBytes (Z.of_nat (length raw)) (raw ++ rest) = Some (raw, rest).
Proof.
  unfold ReadRawBytes. rewrite length_app, Nat2Z.id. destruct (Z.gtb_spec (Z.of_nat (length raw)) (Z.of_nat (length raw + length rest))); [lia|].
  by rewrite take_app_length, drop_app_length.
Qed.

(** NaNs are read as the quiet one. *)
Definition canonical_double (d : Z) : Z := if isnan d then quiet_NaN else d.

Lemma ReadDouble_written d rest :
  0 <= d < 2 ^ 64 -> Z.of_nat (length rest) < 2 ^ 32 - 8 -> ReadDouble (WriteDouble d ++ rest) = Some (canonical_double d, rest).
Proof.
  intros Hd Hr. unfold ReadDouble, WriteDouble, wrap. rewrite length_app, le_bytes_length, Z.mod_small by lia.
  destruct (Z.gtb_spec 8 (Z.of_nat (8 + length rest))); [lia|].
  rewrite take_app_length', drop_app_length' by (by rewrite le_bytes_length). by rewrite le_value_bytes.
Qed.

(** ** Strings *)

Definition string_ok (s : flat_string) : Prop :=
  match s with
  | OneByte chars => bytes_ok chars /\ Z.of_nat (length chars) <= kMaxLength
  | TwoByte chars => Forall (fun c => 0 <= c < 2 ^ 16) chars /\ Z.of_nat (length chars) <= kMaxLength
  end.

(** The empty string is one-byte. *)
Definition canonical_string (s : flat_string) : flat_string := match s with TwoByte [] => OneByte [] | _ => s end.

Definition two_byte_data (chars : list Z) : bytes := chars ≫= le_bytes 2.

Lemma two_byte_data_length chars : Z.of_nat (length (two_byte_data chars)) = Z.of_nat (length chars) * 2.
Proof. unfold two_byte_data. induction chars as [|c chars IH]; [done|]. rewrite bind_cons, length_app, le_bytes_length, length_cons. lia. Qed.

Lemma two_bytes_data chars : Forall (fun c => 0 <= c < 2 ^ 16) chars -> two_bytes (two_byte_data chars) = chars.
Proof.
  unfold two_byte_data. induction 1 as [|c chars Hc _ IH]; [done|]. rewrite bind_cons.
  change (le_bytes 2 c) with [c mod 256; c / 256 mod 256]. cbn [app two_bytes]. rewrite IH.
  f_equal. exact (le_value_bytes 2 c Hc).
Qed.

Lemma two_byte_data_ok chars : bytes_ok (two_byte_data chars).
Proof. unfold two_byte_data. induction chars as [|c chars IH]; [constructor|]. rewrite bind_cons. apply Forall_app. split; [apply le_bytes_ok|done]. Qed.

Lemma widths_32 : (32 : Z) ∈ widths.
Proof. unfold widths. set_solver. Qed.
Lemma widths_64 : (64 : Z) ∈ widths.
Proof. unfold widths. set_solver. Qed.
#[export] Hint Resolve widths_32 widths_64 : v8.

Lemma ReadOneByteString_written chars rest :
  string_ok (OneByte chars) -> bytes_ok rest ->
  ReadOneByteString (WriteOneByteString chars ++ rest) = Some (OneByte chars, rest).
Proof.
  intros [Hc Hl] Hr. unfold ReadOneByteString, WriteOneByteString, kMaxLength, wrap in *. rewrite Z.mod_small, <- (assoc_L (++)) by lia.
  rewrite ReadVarint_written; [|auto with v8|lia|by apply Forall_app]. cbn [mbind option_bind].
  rewrite ReadRawBytes_app. cbn [mbind option_bind]. destruct (Z.gtb_spec (Z.of_nat (length chars)) (2 ^ 29 - 24)); [lia|done].
Qed.

Lemma ReadTwoByteString_written chars rest :
  string_ok (TwoByte chars) -> bytes_ok rest ->
  ReadTwoByteString (WriteTwoByteString chars ++ rest) = Some (canonical_string (TwoByte chars), rest).
Proof.
  intros [Hc Hl] Hr. unfold ReadTwoByteString, WriteTwoByteString, kMaxLength, wrap in *. rewrite Z.mod_small, <- (assoc_L (++)) by lia.
  change (chars ≫= le_bytes 2) with (two_byte_data chars).
  rewrite ReadVarint_written; [|auto with v8|lia|apply Forall_app; split; [apply two_byte_data_ok|done]]. cbn [mbind option_bind].
  rewrite Z.mod_mul by done. cbn [negb Z.eqb]. rewrite <- two_byte_data_length, ReadRawBytes_app. cbn [mbind option_bind].
  rewrite two_byte_data_length, two_bytes_data, Z.div_mul by done.
  destruct (Z.gtb_spec (Z.of_nat (length chars)) (2 ^ 29 - 24)); [lia|]. by destruct chars.
Qed.

(** ** Primitive values *)

Definition primitive_ok (p : primitive) : Prop :=
  match p with
  | Smi n => - 2 ^ 31 <= n < 2 ^ 31
  | HeapNumber d => 0 <= d < 2 ^ 64
  | Str s => string_ok s
  | _ => True
  end.

Definition canonical (p : primitive) : primitive :=
  match p with HeapNumber d => HeapNumber (canonical_double d) | Str s => Str (canonical_string s) | _ => p end.

Lemma ReadTag_written t b : t <> kPadding -> ReadTag (WriteTag t ++ b) = Some (tag_byte t, b).
Proof. by destruct t. Qed.

(** Varints of every width read back as written, whatever follows them, and fit the
    serializer's stack buffer of [w / 7 + 1] bytes: [BytesNeededForVarint] is exact. *)
Theorem varint_roundtrip w v rest :
  w ∈ widths -> 0 <= v < 2 ^ w -> bytes_ok rest ->
  ReadVarint w (WriteVarint w v ++ rest) = Some (v, rest) /\
  Z.of_nat (length (WriteVarint w v)) = BytesNeededForVarint w v /\ BytesNeededForVarint w v <= w / 7 + 1.
Proof.
  intros Hw Hv Hr. split; [by apply ReadVarint_written|]. apply WriteVarint_ok; [|done]. unfold widths in Hw; set_unfold; lia.
Qed.

(** The unrolled fast path of [ReadVarint] agrees with [ReadVarintLoop] on every
    data: the same value and the same position, overlong varints included. *)
Theorem ReadVarint_unrolled w b : w ∈ widths -> bytes_ok b -> ReadVarint w b = ReadVarintLoop w b.
Proof. apply ReadVarint_loop. Qed.

(** Primitive values read back as written, at any offset: NaNs become the quiet NaN
    and the padding before a two-byte string is skipped. *)
Theorem primitive_roundtrip size p rest :
  primitive_ok p -> bytes_ok rest -> Z.of_nat (length rest) < 2 ^ 32 - 8 ->
  ReadPrimitive (WritePrimitive size p ++ rest) = Some (canonical p, rest).
Proof.
  intros Hp Hr Hl. destruct p as [| | | |n|d|[chars|chars]]; try done.
  - cbn [WritePrimitive canonical]. rewrite <- (assoc_L (++)). unfold ReadPrimitive. rewrite ReadTag_written by done.
    cbn -[ReadZigZag WriteZigZag]. by rewrite (ReadZigZag_written 32) by auto with v8.
  - cbn [WritePrimitive canonical]. rewrite <- (assoc_L (++)). unfold ReadPrimitive. rewrite ReadTag_written by done.
    cbn -[ReadDouble WriteDouble]. by rewrite ReadDouble_written.
  - cbn [WritePrimitive WriteString canonical]. rewrite <- (assoc_L (++)). unfold ReadPrimitive. rewrite ReadTag_written by done.
    cbn -[ReadOneByteString WriteOneByteString]. by rewrite ReadOneByteString_written.
  - cbn [WritePrimitive WriteString canonical]. rewrite <- !(assoc_L (++)). unfold ReadPrimitive.
    assert (forall pad : bool, ReadTag ((if pad then [] else WriteTag kPadding) ++ WriteTag kTwoByteString ++ WriteTwoByteString chars ++ rest) =
      Some (tag_byte kTwoByteString, WriteTwoByteString chars ++ rest)) as -> by (by intros []).
    cbn -[ReadTwoByteString WriteTwoByteString canonical_string]. by rewrite ReadTwoByteString_written.
Qed.

Lemma varint_roundtrip_witness :
  ReadVarint 32 (WriteVarint 32 4294967295 ++ [7]) = Some (4294967295, [7]) /\
  Z.of_nat (length (WriteVarint 32 4294967295)) = BytesNeededForVarint 32 4294967295 /\
  BytesNeededForVarint 32 4294967295 <= 32 / 7 + 1.
Proof.
  apply (varint_roundtrip 32 4294967295 [7]); [unfold widths; set_solver|done|]. repeat constructor; done.
Defined.

Lemma ReadVarint_unrolled_witness :
  ReadVarint 32 [0xFF; 0xFF; 0xFF; 0xFF; 0xFF; 0xFF; 1] = ReadVarintLoop 32 [0xFF; 0xFF; 0xFF; 0xFF; 0xFF; 0xFF; 1] /\
  ReadVarintLoop 32 [0xFF; 0xFF; 0xFF; 0xFF; 0xFF; 0xFF; 1] = Some (4294967295, [0xFF; 1]).
Proof.
  split; [|by vm_compute].
  apply (ReadVarint_unrolled 32); [unfold widths; set_solver|]. repeat constructor; done.
Defined.

Lemma primitive_roundtrip_witness :
  ReadPrimitive (WritePrimitive 2 (Str (TwoByte [0x263A; 65])) ++ [1]) = Some (Str (TwoByte [0x263A; 65]), [1]).
Proof.
  apply (primitive_roundtrip 2 (Str (TwoByte [0x263A; 65])) [1]); [|repeat constructor; done|done].
  split; [repeat constructor; done|done].
Defined.
