(* ===== verification/Serializer.v ===== *)
(** The delegates of the value serializer: src/src/threading/serializer.{h,cc}, with the
    functions of src/src/objects/value-serializer.cc that call them.

    Channels and mutexes cross threads as host objects: the serializer allocates a copy of
    the shared pointer and writes its address, the deserializer takes the copy at the
    address. The model keeps the heap of these copies. *)
From S2P Require Import Prelude Conversions Engine WireFormat.

(** A std::shared_ptr on the heap, by the type of its state. *)
Inductive shared_pointer := ChannelPtr (state : nat) | MutexPtr (state : nat) | FuturePtr (state : nat).

Inductive pointer_type := ChannelType | MutexType | FutureType.
#[export] Instance pointer_type_eq_dec : EqDecision pointer_type.
Proof. solve_decision. Defined.

Definition type_of (p : shared_pointer) : pointer_type :=
  match p with ChannelPtr _ => ChannelType | MutexPtr _ => MutexType | FuturePtr _ => FutureType end.

(** The copies on the heap, by address. *)
Abbreviation copies := (gmap Z shared_pointer).

(** How a call ends: [Maybe], a failed API check that aborts the process, or an access
    that C++ leaves undefined (a freed copy, or one of another type). *)
Inductive result (A : Type) := Just (a : A) | Nothing | Aborts | UndefinedBehaviour.
Arguments Just {A} a.
Arguments Nothing {A}.
Arguments Aborts {A}.
Arguments UndefinedBehaviour {A}.

(** ** Objects, as the delegates see them *)

(** Internal field 0: absent, holding a null pointer or the pointer to a null
    shared_ptr, or a pointer. *)
Inductive internal_field := NoInternalField | EmptyField | Wraps (p : shared_pointer).

Record js_object := mkObject {
  own_type : bool;              (* HasOwnProperty of the key __v8_threading::type *)
  type_val : option string;     (* its value, when it is a string *)
  field0 : internal_field;
}.

(** [GetAlignedPointerFromInternalField(0)], cast to a pointer to a shared_ptr of type
    [k], and its test: reading the field of an object that has none is out of bounds. *)
Definition wrapped_as (k : pointer_type) (o : js_object) : result (option shared_pointer) :=
  match field0 o with
  | NoInternalField => UndefinedBehaviour
  | EmptyField => Just None
  | Wraps p => if decide (type_of p = k) then Just (Some p) else UndefinedBehaviour
  end.

(** CreateChannelSender, CreateChannelReceiver and CreateMutex: a new wrapper. *)
Inductive handle_kind := ChannelSender | ChannelReceiver | Mutex.

Definition handle_type (h : handle_kind) : pointer_type :=
  match h with ChannelSender | ChannelReceiver => ChannelType | Mutex => MutexType end.

Definition handle_name (h : handle_kind) : string :=
  match h with ChannelSender => "channel_sender" | ChannelReceiver => "channel_receiver" | Mutex => "mutex" end.

Definition handle_tag (h : handle_kind) : Z :=
  match h with ChannelSender => 0x01 | ChannelReceiver => 0x02 | Mutex => 0x03 end.

Definition Create (h : handle_kind) (p : shared_pointer) : js_object :=
  mkObject true (Some (handle_name h)) (Wraps p).

(** ** The serializer's delegate *)

Record ThreadingSerializerDelegate := mkSerializerDelegate {
  serializer_ : bool;                                (* SetSerializer was called *)
  shared_array_buffers_ : option (list nat);         (* the vector it was given, if any *)
}.

Definition IsHostObject (o : js_object) : bool := own_type o && bool_decide (is_Some (type_val o)).

(** One branch of [WriteHostObject]: what is written and the heap. [address] is what
    operator new returns. *)
Definition write_handle (h : handle_kind) (address : Z) (o : js_object) (heap : copies) : result (bytes * copies) :=
  match wrapped_as (handle_type h) o with
  | Just (Some p) => Just (WriteVarint 32 (handle_tag h) ++ WriteVarint 64 address, <[address := p]> heap)
  | Just None => Nothing
  | _ => UndefinedBehaviour
  end.

Definition WriteHostObject (d : ThreadingSerializerDelegate) (address : Z) (o : js_object) (heap : copies) :
    result (bytes * copies) :=
  if negb (serializer_ d) then Nothing
  else
    match type_val o with
    | None => Nothing
    | Some type =>
        if decide (type = "channel_sender") then write_handle ChannelSender address o heap
        else if decide (type = "channel_receiver") then write_handle ChannelReceiver address o heap
        else if decide (type = "mutex") then write_handle Mutex address o heap
        else Nothing
    end.

Definition GetSharedArrayBufferId (store : nat) (d : ThreadingSerializerDelegate) :
    result Z * ThreadingSerializerDelegate :=
  match shared_array_buffers_ d with
  | Some stores =>
      (Just (wrap 32 (Z.of_nat (length stores))), mkSerializerDelegate (serializer_ d) (Some (stores ++ [store])))
  | None => (Nothing, d)
  end.

(** [ValueSerializer::WriteHostObject]: no exception is pending, because the delegate
    throws none, and the result of the delegate is not used. *)
Definition Serializer_WriteHostObject (d : ThreadingSerializerDelegate) (address : Z) (o : js_object) (heap : copies) :
    result (bytes * copies) :=
  match WriteHostObject d address o heap with
  | Just (b, heap) => Just (WriteTag kHostObject ++ b, heap)
  | Nothing => Just (WriteTag kHostObject, heap)
  | Aborts => Aborts
  | UndefinedBehaviour => UndefinedBehaviour
  end.

(** The SharedArrayBuffer case of [ValueSerializer::WriteJSArrayBuffer], for a buffer
    that is no WebAssembly memory: [FromJust] of what the delegate returns. *)
Definition WriteSharedArrayBuffer (store : nat) (d : ThreadingSerializerDelegate) :
    result bytes * ThreadingSerializerDelegate :=
  match GetSharedArrayBufferId store d with
  | (Just index, d) => (Just (WriteTag kSharedArrayBuffer ++ WriteVarint 32 index), d)
  | (_, d) => (Aborts, d)
  end.

(** ** The deserializer's delegate *)

Record ThreadingDeserializerDelegate := mkDeserializerDelegate {
  deserializer_ : bool;
  shared_buffers : option (list nat);
}.

(** One branch of [ReadHostObject]: move the copy out and delete it. *)
Definition read_handle (h : handle_kind) (address : Z) (b : bytes) (heap : copies) :
    result (js_object * bytes * copies) :=
  match heap !! address with
  | Some p => if decide (type_of p = handle_type h) then Just (Create h p, b, delete address heap) else UndefinedBehaviour
  | None => UndefinedBehaviour
  end.

Definition ReadHostObject (d : ThreadingDeserializerDelegate) (b : bytes) (heap : copies) :
    result (js_object * bytes * copies) :=
  if negb (deserializer_ d) then Nothing
  else
    match ReadVarint 32 b with
    | None => Nothing
    | Some (tag, b) =>
        match ReadVarint 64 b with
        | None => Nothing
        | Some (address, b) =>
            if tag =? 0x01 then read_handle ChannelSender address b heap
            else if tag =? 0x02 then read_handle ChannelReceiver address b heap
            else if tag =? 0x03 then read_handle Mutex address b heap
            else Nothing
        end
    end.

Definition GetSharedArrayBufferFromId (d : ThreadingDeserializerDelegate) (clone_id : Z) : option nat :=
  match shared_buffers d with
  | Some stores => if clone_id <? Z.of_nat (length stores) then stores !! Z.to_nat clone_id else None
  | None => None
  end.

(** [ReadObjectInternal] on the tag of a host object. *)
Definition Deserializer_ReadHostObject (d : ThreadingDeserializerDelegate) (b : bytes) (heap : copies) :
    result (js_object * bytes * copies) :=
  match ReadTag b with
  | Some (tag, b) => if tag =? tag_byte kHostObject then ReadHostObject d b heap else Nothing
  | None => Nothing
  end.

(** ** Properties *)

(** Delegates as the code sets them up. *)
Definition serializing (stores : option (list nat)) : ThreadingSerializerDelegate := mkSerializerDelegate true stores.
Definition deserializing (stores : option (list nat)) : ThreadingDeserializerDelegate := mkDeserializerDelegate true stores.

Lemma write_created k p stores address heap :
  type_of p = handle_type k ->
  Serializer_WriteHostObject (serializing stores) address (Create k p) heap =
  Just (WriteTag kHostObject ++ WriteVarint 32 (handle_tag k) ++ WriteVarint 64 address, <[address := p]> heap).
Proof.
  intros Hp. unfold Serializer_WriteHostObject, WriteHostObject. cbn [serializer_ serializing negb type_val Create].
  destruct k; cbn [handle_name]; repeat (case_decide; [|try done]); try done;
    unfold write_handle, wrapped_as; cbn [field0 Create]; by rewrite decide_True by done.
Qed.

Lemma read_written k stores address rest heap :
  0 <= address < 2 ^ 64 -> bytes_ok rest ->
  Deserializer_ReadHostObject (deserializing stores)
    ((WriteTag kHostObject ++ WriteVarint 32 (handle_tag k) ++ WriteVarint 64 address) ++ rest) heap =
  read_handle k address rest heap.
Proof.
  intros Ha Hr. unfold Deserializer_ReadHostObject. rewrite <- !(assoc_L (++)), ReadTag_written by done.
  rewrite Z.eqb_refl. unfold ReadHostObject. cbn [deserializer_ deserializing negb].
  rewrite ReadVarint_written; [|auto with v8|destruct k; done|].
  2: { apply Forall_app. split; [|done]. by apply WriteVarint_ok. }
  rewrite ReadVarint_written by auto with v8. by destruct k.
Qed.

(** C26. A channel or mutex that is sent to another thread arrives: the wrapper that the
    receiver gets has the same type and state, the data behind it is read next, and the
    copy that carried the pointer is freed. *)
Theorem handle_roundtrip k p address heap rest stores stores' :
  type_of p = handle_type k -> heap !! address = None -> 0 <= address < 2 ^ 64 -> bytes_ok rest ->
  IsHostObject (Create k p) = true /\
  exists b heap',
    Serializer_WriteHostObject (serializing stores) address (Create k p) heap = Just (b, heap') /\
    Deserializer_ReadHostObject (deserializing stores') (b ++ rest) heap' = Just (Create k p, rest, heap).
Proof.
  intros Hp Hn Ha Hr. split; [done|]. eexists _, _. split; [by apply write_created|]. rewrite read_written by done.
  unfold read_handle. rewrite lookup_insert_eq, decide_True by done. by rewrite delete_insert_id.
Qed.

(** Data with a channel or mutex can be read once: the second read of the same bytes
    follows the address of the freed copy. The value of a mutex is read by every lock. *)
Theorem handle_read_twice k p address heap rest stores stores' :
  type_of p = handle_type k -> heap !! address = None -> 0 <= address < 2 ^ 64 -> bytes_ok rest ->
  exists b heap' heap'',
    Serializer_WriteHostObject (serializing stores) address (Create k p) heap = Just (b, heap') /\
    Deserializer_ReadHostObject (deserializing stores') (b ++ rest) heap' = Just (Create k p, rest, heap'') /\
    Deserializer_ReadHostObject (deserializing stores') (b ++ rest) heap'' = UndefinedBehaviour.
Proof.
  intros Hp Hn Ha Hr. eexists _, _, _. split; [by apply write_created|]. rewrite !read_written by done.
  unfold read_handle. rewrite lookup_insert_eq, decide_True by done. split; [done|]. by rewrite lookup_delete_eq.
Qed.

Lemma small_varint byte b : 0 <= byte < 0x80 -> bytes_ok b -> ReadVarint 32 (byte :: b) = Some (byte, b).
Proof.
  intros Hb Hr. rewrite ReadVarint_loop; [|auto with v8|constructor; [unfold byte_ok; lia|done]].
  unfold ReadVarintLoop. rewrite loop_step by (unfold byte_ok; lia). cbn zeta.
  destruct (Z.ltb_spec byte 0x80); [|lia]. unfold wrap. by rewrite low_bits, (Z.mod_small byte 128), Z.shiftl_0_r, Z.lor_0_l, Z.mod_small by lia.
Qed.

(** An object with another type name, or a handle whose pointer is gone, is
    serialized with success, as a bare tag; reading it fails, whatever follows (the next
    byte of any value that the serializer writes is a tag, neither 1, 2 nor 3). *)
Theorem foreign_host_object_written o address heap stores stores' rest :
  IsHostObject o = true ->
  (field0 o = EmptyField \/ forall k, type_val o <> Some (handle_name k)) ->
  bytes_ok rest -> from_option (fun byte => 3 < byte < 0x80) True (head rest) ->
  Serializer_WriteHostObject (serializing stores) address o heap = Just (WriteTag kHostObject, heap) /\
  Deserializer_ReadHostObject (deserializing stores') (WriteTag kHostObject ++ rest) heap = Nothing.
Proof.
  intros _ Ho Hr Hh. split.
  - unfold Serializer_WriteHostObject, WriteHostObject. cbn [serializer_ serializing negb].
    destruct (type_val o) as [type|]; [|done].
    assert (forall k, type = handle_name k -> write_handle k address o heap = Nothing) as Hw.
    { intros k ->. destruct Ho as [Ho|Ho]; [|by destruct (Ho k)]. unfold write_handle, wrapped_as. by rewrite Ho. }
    repeat case_decide; by rewrite ?(Hw ChannelSender), ?(Hw ChannelReceiver), ?(Hw Mutex).
  - unfold Deserializer_ReadHostObject. rewrite ReadTag_written by done. rewrite Z.eqb_refl.
    unfold ReadHostObject. cbn [deserializer_ deserializing negb]. destruct rest as [|byte rest]; [done|]. simpl in Hh.
    inversion Hr; subst. rewrite small_varint by (done || lia). destruct (ReadVarint 64 rest) as [[address' b]|]; [|done].
    destruct (Z.eqb_spec byte 1); [lia|]. destruct (Z.eqb_spec byte 2); [lia|]. destruct (Z.eqb_spec byte 3); [lia|done].
Qed.

(** The type is a property that scripts can set: an object without internal field, or a
    handle of another kind, that carries the type name of a handle is read as one, out of
    bounds or as another type. *)
Theorem forged_handle_undefined k o address heap stores :
  type_val o = Some (handle_name k) ->
  (field0 o = NoInternalField \/ exists p, field0 o = Wraps p /\ type_of p <> handle_type k) ->
  Serializer_WriteHostObject (serializing stores) address o heap = UndefinedBehaviour.
Proof.
  intros Ht Ho. unfold Serializer_WriteHostObject, WriteHostObject. cbn [serializer_ serializing negb]. rewrite Ht.
  assert (write_handle k address o heap = UndefinedBehaviour) as Hw.
  { unfold write_handle, wrapped_as. destruct Ho as [->|(p & -> & Hp)]; [done|]. by rewrite decide_False by done. }
  destruct k; cbn [handle_name]; repeat (case_decide; [|try done]); try done; by rewrite Hw.
Qed.

Lemma forged_handle_undefined_witness :
  Serializer_WriteHostObject (serializing None) 4096 (mkObject true (Some "mutex") NoInternalField) ∅ = UndefinedBehaviour.
Proof. apply (forged_handle_undefined Mutex); [done|by left]. Defined.

(** The SharedArrayBuffers of one value, in order. *)
Fixpoint write_shared (stores : list nat) (d : ThreadingSerializerDelegate) :
    list (result bytes) * ThreadingSerializerDelegate :=
  match stores with
  | [] => ([], d)
  | s :: stores =>
      let '(r, d) := WriteSharedArrayBuffer s d in
      let '(rs, d) := write_shared stores d in (r :: rs, d)
  end.

Lemma write_shared_from before stores :
  Z.of_nat (length before + length stores) < 2 ^ 32 ->
  write_shared stores (serializing (Some before)) =
  (imap (fun i _ => Just (WriteTag kSharedArrayBuffer ++ WriteVarint 32 (Z.of_nat (length before + i)))) stores,
   serializing (Some (before ++ stores))).
Proof.
  revert before. induction stores as [|s stores IH]; intros before Hl; cbn [write_shared imap]; [by rewrite app_nil_r|].
  unfold WriteSharedArrayBuffer, GetSharedArrayBufferId. cbn [shared_array_buffers_ serializer_ serializing].
  change (mkSerializerDelegate true (Some (before ++ [s]))) with (serializing (Some (before ++ [s]))).
  cbn [length] in Hl. rewrite IH by (rewrite length_app; simpl; lia). unfold wrap.
  rewrite Z.mod_small, <- (assoc_L (++)) by lia. f_equal. f_equal; [by rewrite Nat.add_0_r|].
  apply imap_ext. intros i x _. unfold compose. rewrite length_app. simpl. do 4 f_equal. lia.
Qed.

(** SharedArrayBuffers cross when the delegate has a vector for them (Thread.spawn):
    the i-th one is written with index i, and index i gives its backing store back.
    Every other delegate (channels, mutexes, results, parallel arrays) aborts the process
    at the first one. *)
Theorem shared_buffers_cross (stores : list nat) :
  Z.of_nat (length stores) < 2 ^ 32 ->
  (exists d, write_shared stores (serializing (Some [])) =
     (imap (fun i _ => Just (WriteTag kSharedArrayBuffer ++ WriteVarint 32 (Z.of_nat i))) stores, d) /\
     shared_array_buffers_ d = Some stores /\
     forall i, GetSharedArrayBufferFromId (deserializing (shared_array_buffers_ d)) (Z.of_nat i) = stores !! i) /\
  forall s, (WriteSharedArrayBuffer s (serializing None)).1 = Aborts.
Proof.
  intros Hl. split; [|done]. eexists. split; [by apply (write_shared_from [])|]. split; [done|]. intros i.
  unfold GetSharedArrayBufferFromId. cbn. rewrite Nat2Z.id. destruct (Z.ltb_spec (Z.of_nat i) (Z.of_nat (length stores))); [done|].
  symmetry. apply lookup_ge_None. lia.
Qed.

(** Witnesses *)

Lemma handle_roundtrip_witness :
  IsHostObject (Create Mutex (MutexPtr 4)) = true /\
  exists b heap',
    Serializer_WriteHostObject (serializing None) 4096 (Create Mutex (MutexPtr 4)) ∅ = Just (b, heap') /\
    Deserializer_ReadHostObject (deserializing None) (b ++ [36]) heap' = Just (Create Mutex (MutexPtr 4), [36], ∅).
Proof. apply handle_roundtrip; [done|done|done|]. repeat constructor; done. Defined.

Lemma handle_read_twice_witness :
  exists b heap' heap'',
    Serializer_WriteHostObject (serializing None) 4096 (Create ChannelSender (ChannelPtr 1)) ∅ = Just (b, heap') /\
    Deserializer_ReadHostObject (deserializing None) (b ++ []) heap' = Just (Create ChannelSender (ChannelPtr 1), [], heap'') /\
    Deserializer_ReadHostObject (deserializing None) (b ++ []) heap'' = UndefinedBehaviour.
Proof. apply handle_read_twice; [done|done|done|constructor]. Defined.

Definition foreign_object : js_object := mkObject true (Some "point") NoInternalField.

Lemma foreign_host_object_written_witness :
  Serializer_WriteHostObject (serializing None) 4096 foreign_object ∅ = Just (WriteTag kHostObject, ∅) /\
  Deserializer_ReadHostObject (deserializing None) (WriteTag kHostObject ++ [73; 2]) ∅ = Nothing.
Proof.
  apply foreign_host_object_written; [done|right; by intros []| |done]. repeat constructor; done.
Defined.

Lemma shared_buffers_cross_witness :
  (exists d, write_shared [7%nat; 9%nat] (serializing (Some [])) =
     (imap (fun i _ => Just (WriteTag kSharedArrayBuffer ++ WriteVarint 32 (Z.of_nat i))) [7%nat; 9%nat], d) /\
     shared_array_buffers_ d = Some [7%nat; 9%nat] /\
     forall i, GetSharedArrayBufferFromId (deserializing (shared_array_buffers_ d)) (Z.of_nat i) = [7%nat; 9%nat] !! i) /\
  forall s, (WriteSharedArrayBuffer s (serializing None)).1 = Aborts.
Proof. apply (shared_buffers_cross [7%nat; 9%nat]). done. Defined.
