(* ===== verification/JSHeap.v ===== *)
(** JavaScript values and objects, as the value serializer sees them.

    A heap is the list of its receivers and a reference is a position in it. A receiver is
    its instance type with the internal fields that src/src/objects/value-serializer.cc
    reads and writes, its elements in ascending order and its named properties in order of
    creation. Property keys are from src/src/objects/lookup-inl.h and
    src/src/utils/utils-inl.h. A number is a Smi or a heap number: the two constructors of
    the same number are the same value. *)
From S2P Require Import Prelude Conversions Engine WireFormat Serializer.
From Stdlib Require Import Ascii.

#[export] Instance flat_string_eq_dec : EqDecision flat_string.
Proof. solve_decision. Defined.
#[export] Instance primitive_eq_dec : EqDecision primitive.
Proof. solve_decision. Defined.

(** ** Operations on a state

    [Nothing] is a failure, with or without an exception: the state at that time is kept. *)
Abbreviation Unit := Datatypes.unit.

Definition stateful (S A : Type) : Type := S -> result A * S.

#[export] Instance stateful_ret S : MRet (stateful S) := fun A a s => (Just a, s).
#[export] Instance stateful_bind S : MBind (stateful S) := fun A B k m s =>
  match m s with
  | (Just a, s) => k a s
  | (Nothing, s) => (Nothing, s)
  | (Aborts, s) => (Aborts, s)
  | (UndefinedBehaviour, s) => (UndefinedBehaviour, s)
  end.

Definition throws {S A} : stateful S A := fun s => (Nothing, s).
Definition aborts {S A} : stateful S A := fun s => (Aborts, s).
Definition undefined_behaviour {S A} : stateful S A := fun s => (UndefinedBehaviour, s).

Lemma bind_just {S A B} (m : stateful S A) (k : A -> stateful S B) s a s' :
  m s = (Just a, s') -> (m ≫= k) s = k a s'.
Proof. intros Hm. unfold mbind, stateful_bind. by rewrite Hm. Qed.

(** A successful sequence has a successful first part. *)
Lemma bind_inv {S A B} (m : stateful S A) (k : A -> stateful S B) s b s' :
  (m ≫= k) s = (Just b, s') -> exists a s1, m s = (Just a, s1) /\ k a s1 = (Just b, s').
Proof. unfold mbind, stateful_bind. destruct (m s) as [[a| | |] s1]; naive_solver. Qed.

(** ** Values *)

Abbreviation ref := nat.

(** A sign and 64-bit digits, the least significant first. *)
Record bigint := mkBigInt { sign : bool; digits : list Z }.
#[export] Instance bigint_eq_dec : EqDecision bigint.
Proof. solve_decision. Defined.

Inductive js_value := Prim (p : primitive) | BigIntValue (b : bigint) | Symbol (id : nat) | Receiver (r : ref).
#[export] Instance js_value_eq_dec : EqDecision js_value.
Proof. solve_decision. Defined.

Abbreviation undefined := (Prim Undefined).

(** The bits of an integer below 2^53 in absolute value, as a double. *)
Definition int_double (n : Z) : Z :=
  if n =? 0 then 0
  else
    let e := Z.log2 (Z.abs n) in
    (if n <? 0 then 2 ^ 63 else 0) + (e + 1023) * 2 ^ 52 + (Z.abs n - 2 ^ e) * 2 ^ (52 - e).

(** The number, whichever its representation; -0 is 0 and NaNs are equal. *)
Definition number_bits (p : primitive) : option Z :=
  match p with
  | Smi n => Some (int_double n)
  | HeapNumber d => Some (if d =? kSignMask then 0 else canonical_double d)
  | _ => None
  end.

Definition chars_of (s : flat_string) : list Z := match s with OneByte chars => chars | TwoByte chars => chars end.

(** What identifies a value under SameValueZero. *)
Inductive identity :=
| OddballIdentity (p : primitive)
| NumberIdentity (bits : Z)
| StringIdentity (chars : list Z)
| BigIntIdentity (b : bigint)
| SymbolIdentity (id : nat)
| ReceiverIdentity (r : ref).
#[export] Instance identity_eq_dec : EqDecision identity.
Proof. solve_decision. Defined.

Definition identity_of (v : js_value) : identity :=
  match v with
  | Prim (Str s) => StringIdentity (chars_of s)
  | Prim p => match number_bits p with Some d => NumberIdentity d | None => OddballIdentity p end
  | BigIntValue b => BigIntIdentity b
  | Symbol id => SymbolIdentity id
  | Receiver r => ReceiverIdentity r
  end.

Definition SameValueZero (v w : js_value) : bool := bool_decide (identity_of v = identity_of w).

(** ** Receivers *)

(** A getter is a script, see [CallGetter] of ObjectWriter.v. *)
Inductive property := Data (v : js_value) | Accessor (getter : nat).
Record own_property := mkProperty { enumerable : bool; what : property }.

#[export] Instance property_eq_dec : EqDecision property.
Proof. solve_decision. Defined.

(** [HOLEY_ELEMENTS] stands for the holey fast kinds, [DICTIONARY_ELEMENTS] for the others. *)
Inductive elements_kind :=
| PACKED_SMI_ELEMENTS | PACKED_DOUBLE_ELEMENTS | PACKED_ELEMENTS | HOLEY_ELEMENTS | DICTIONARY_ELEMENTS.
#[export] Instance elements_kind_eq_dec : EqDecision elements_kind.
Proof. solve_decision. Defined.

Inductive ArrayBufferViewTag :=
| kInt8Array | kUint8Array | kUint8ClampedArray | kInt16Array | kUint16Array | kInt32Array | kUint32Array
| kFloat16Array | kFloat32Array | kFloat64Array | kBigInt64Array | kBigUint64Array | kDataView.
#[export] Instance ArrayBufferViewTag_eq_dec : EqDecision ArrayBufferViewTag.
Proof. solve_decision. Defined.

(** The bytes of a buffer are those at the time of the operation. *)
Record array_buffer := mkBuffer {
  store : nat;                        (* the backing store *)
  contents : bytes;
  max_byte_length : Z;
  is_shared : bool;
  is_resizable_by_js : bool;
  is_immutable : bool;
  was_detached : bool;
}.

Definition buffer_length (b : array_buffer) : Z := Z.of_nat (length (contents b)).

Record view := mkView {
  view_tag : ArrayBufferViewTag;
  view_buffer : ref;
  byte_offset : Z;
  byte_length : Z;
  is_length_tracking : bool;
  is_backed_by_rab : bool;
}.

(** The instance types the serializer tells apart, with their fields. An API object is a
    [JSObject] whose [host] is what the delegates see of it. Entries of maps and sets that
    were deleted leave a hole. The name and the stack of an error are the properties that
    are found on its prototype chain. *)
Inductive instance :=
| JSObject (fast : bool) (host : js_object)
| JSSpecialApiObject (host : js_object)
| JSArray (kind : elements_kind) (array_length : Z)
| JSDate (time : Z)
| JSPrimitiveWrapper (inner : js_value)
| JSRegExp (source : flat_string) (flags : Z)
| JSMap (entries : list (option (js_value * js_value)))
| JSSet (members : list (option js_value))
| JSArrayBuffer (b : array_buffer)
| JSDetachedTypedArray
| JSArrayBufferView (v : view)
| JSError (name stack : property)
| JSShared (id : nat)                 (* shared arrays and structs, Atomics.Mutex and Condition *)
| JSCallable
| JSOther.                            (* proxies and the other types that are not cloned *)

Record receiver := mkReceiver {
  instance_type : instance;
  elements : list (Z * own_property);
  named : list (flat_string * own_property);
}.

Abbreviation js_heap := (list receiver).

(** An object that is no host object. *)
Definition ordinary : js_object := mkObject false None NoInternalField.

Definition NewJSObject : receiver := mkReceiver (JSObject true ordinary) [] [].

(** GetEmbedderFieldCount, as a truth value. *)
Definition embedder_fields (o : js_object) : bool :=
  match field0 o with NoInternalField => false | _ => true end.

(** ** Property keys *)

Definition kMaxElementIndex : Z := 2 ^ 32 - 2.
Definition kMaxIntegerIndexSize : Z := 16.

Fixpoint index_digits (chars : list Z) (result : Z) : option Z :=
  match chars with
  | [] => Some result
  | c :: chars =>
      if (char_code "0" <=? c) && (c <=? char_code "9") then
        let result := result * 10 + (c - char_code "0") in
        if result <=? kMaxSafeInteger then index_digits chars result else None
      else None
  end.

Definition StringToIndex (chars : list Z) : option Z :=
  match chars with
  | [] => None
  | ch :: chars =>
      if ch =? char_code "0" then match chars with [] => Some 0 | _ => None end
      else if (char_code "0" <=? ch) && (ch <=? char_code "9") then index_digits chars (ch - char_code "0")
      else None
  end.

Definition AsIntegerIndex (s : flat_string) : option Z :=
  let length := Z.of_nat (length (chars_of s)) in
  if (length =? 0) || (length >? kMaxIntegerIndexSize) then None else StringToIndex (chars_of s).

Definition ToIntegerIndex (p : primitive) : option Z :=
  match p with
  | Smi n => if n <? 0 then None else Some n
  | HeapNumber d =>
      if isnan d || negb (ge_int d 0) then None
      else if negb (le_int d kMaxSafeInteger) then None
      else
        let result := trunc d in
        if scaled d =? result * unit then Some result else None
  | _ => None
  end.

(** The key of a lookup: an element or a named property. *)
Inductive property_key := Index (i : Z) | Name (s : flat_string).

(** Indices above [kMaxElementIndex] are names for [LookupIterator]. *)
Definition name_key (s : flat_string) : property_key :=
  match AsIntegerIndex s with
  | Some i => if i <=? kMaxElementIndex then Index i else Name s
  | None => Name s
  end.

(** [number_to_string] is Factory::NumberToString. *)
Definition PropertyKey (number_to_string : primitive -> flat_string) (p : primitive) : property_key :=
  match p with
  | Str s => name_key s
  | _ =>
      match ToIntegerIndex p with
      | Some i => if i <=? kMaxElementIndex then Index i else Name (number_to_string p)
      | None => name_key (number_to_string p)
      end
  end.

Definition IsValidObjectKey (v : js_value) : bool :=
  match v with
  | Prim (Smi _) | Prim (HeapNumber _) | Prim (Str _) | Symbol _ => true
  | _ => false
  end.

(** ** Own properties *)

Fixpoint find_element (i : Z) (l : list (Z * own_property)) : option own_property :=
  match l with [] => None | (j, p) :: l => if i =? j then Some p else find_element i l end.

Fixpoint find_named (s : flat_string) (l : list (flat_string * own_property)) : option own_property :=
  match l with
  | [] => None
  | (t, p) :: l => if decide (chars_of s = chars_of t) then Some p else find_named s l
  end.

Definition length_string : flat_string := OneByte (char_code <$> String.list_ascii_of_string "length").

(** The value of a number above the range of Smis is a heap number. *)
Definition NewNumber (n : Z) : primitive := if n <=? 2 ^ 31 - 1 then Smi n else HeapNumber (int_double n).

(** LookupIterator with the configuration OWN; the length of an array is a property. *)
Definition own_lookup (o : receiver) (k : property_key) : option own_property :=
  match k with
  | Index i => find_element i (elements o)
  | Name s =>
      match instance_type o with
      | JSArray _ length =>
          if decide (chars_of s = chars_of length_string)
          then Some (mkProperty false (Data (Prim (NewNumber length)))) else find_named s (named o)
      | _ => find_named s (named o)
      end
  end.

Fixpoint insert_element (i : Z) (p : own_property) (l : list (Z * own_property)) : list (Z * own_property) :=
  match l with
  | [] => [(i, p)]
  | (j, q) :: l => if i <? j then (i, p) :: (j, q) :: l else (j, q) :: insert_element i p l
  end.

(** JSObject::DefineOwnPropertyIgnoreAttributes with the attributes NONE, for a property
    that the receiver does not have. *)
Definition define_own (k : property_key) (v : js_value) (o : receiver) : receiver :=
  let p := mkProperty true (Data v) in
  match k with
  | Index i =>
      let t := match instance_type o with JSArray kind length => JSArray kind (Z.max length (i + 1)) | t => t end in
      mkReceiver t (insert_element i p (elements o)) (named o)
  | Name s => mkReceiver (instance_type o) (elements o) (named o ++ [(s, p)])
  end.

(** KeyAccumulator::GetKeys with the filter ENUMERABLE_STRINGS: the indices, as numbers,
    then the names. *)
Definition GetKeys (skip_indices : bool) (o : receiver) : list primitive :=
  (if skip_indices then [] else (fun e => NewNumber e.1) <$> filter (fun e => enumerable e.2 = true) (elements o)) ++
  ((fun e => Str e.1) <$> filter (fun e => enumerable e.2 = true) (named o)).

(** ** Views of buffers *)

Definition element_size (t : ArrayBufferViewTag) : Z :=
  match t with
  | kInt8Array | kUint8Array | kUint8ClampedArray => 1
  | kInt16Array | kUint16Array | kFloat16Array => 2
  | kInt32Array | kUint32Array | kFloat32Array => 4
  | kFloat64Array | kBigInt64Array | kBigUint64Array => 8
  | kDataView => 1
  end.

Definition view_tag_byte (t : ArrayBufferViewTag) : Z :=
  char_code (match t with
  | kInt8Array => "b" | kUint8Array => "B" | kUint8ClampedArray => "C" | kInt16Array => "w" | kUint16Array => "W"
  | kInt32Array => "d" | kUint32Array => "D" | kFloat16Array => "h" | kFloat32Array => "f" | kFloat64Array => "F"
  | kBigInt64Array => "q" | kBigUint64Array => "Q" | kDataView => "?"
  end)%char.

(** JSTypedArray::IsOutOfBounds and JSRabGsabDataView::IsOutOfBounds. *)
Definition IsOutOfBounds (v : view) (b : array_buffer) : bool :=
  (bool_decide (view_tag v = kDataView) || negb (was_detached b)) && is_backed_by_rab v &&
  (if is_length_tracking v then byte_offset v >? buffer_length b
   else byte_offset v + byte_length v >? buffer_length b).

(** ** Dates *)

Definition kMaxTimeInMs : Z := 864000000 * 10000000.

(** [TryTimeClip], with the NaN of the failing case. *)
Definition TimeClip (time : Z) : Z :=
  if negb (isnan time) && ge_int time (- kMaxTimeInMs) && le_int time kMaxTimeInMs
  then int_double (trunc time) else quiet_NaN.
