(* ===== verification/ObjectWriter.v ===== *)
(** ValueSerializer of src/src/objects/value-serializer.cc: the operations on its state.

    The bytes of the single parts of the format are in WireFormat.v. Here are the buffer
    and its growth, the identifiers of receivers, and one function per kind of object. A
    getter is any function on the heap ([CallGetter]), so that the object which is being
    written can change under the serializer. The recursion is bounded by the stack: the
    fuel of [WriteObject] is the number of nested calls that still pass STACK_CHECK. The
    configuration is the one without WebAssembly. *)
From S2P Require Import Prelude Conversions Engine WireFormat Serializer JSHeap.
From Stdlib Require Import Ascii.

(** ** State *)

(** What a delegate can do. Ids of buffers are [Nothing] when it threw, and [Aborts] when
    it returned Nothing without an exception ([FromJust] fails). [WriteHostObject] gives the
    data written through the serializer, and whether an exception is pending. *)
Record SerializerDelegate (D : Type) := mkDelegate {
  HasCustomHostObject : bool;
  delegate_IsHostObject : receiver -> result bool;
  delegate_WriteHostObject : receiver -> D -> result (list bytes * bool) * D;
  delegate_GetSharedArrayBufferId : nat -> D -> result Z * D;
  AdoptSharedValueConveyor : bool;
}.
Arguments HasCustomHostObject {D} _.
Arguments delegate_IsHostObject {D} _ _.
Arguments delegate_WriteHostObject {D} _ _ _.
Arguments delegate_GetSharedArrayBufferId {D} _ _ _.
Arguments AdoptSharedValueConveyor {D} _.

(** The parts that do not change, and the isolate. [Realloc] gives the capacity that is
    provided for the one requested. *)
Record serializer (D : Type) := mkSerializer {
  delegate_ : option (SerializerDelegate D);
  treat_array_buffer_views_as_host_objects_ : bool;
  array_buffer_transfer_map_ : gmap ref Z;
  has_shared_space : bool;
  Realloc : Z -> option Z;
  CallGetter : nat -> ref -> js_heap -> option js_value * js_heap;
  ToString : js_value -> js_heap -> option flat_string * js_heap;
}.
Arguments delegate_ {D} _.
Arguments treat_array_buffer_views_as_host_objects_ {D} _.
Arguments array_buffer_transfer_map_ {D} _.
Arguments has_shared_space {D} _.
Arguments Realloc {D} _ _.
Arguments CallGetter {D} _ _ _ _.
Arguments ToString {D} _ _ _.

(** An entry of [id_map_] is the identifier plus one. *)
Record wstate (D : Type) := mkW {
  buffer_ : bytes;
  buffer_capacity_ : Z;
  out_of_memory_ : bool;
  id_map_ : gmap ref Z;
  next_id_ : Z;
  shared_object_conveyor_ : option (list nat);
  heap_ : js_heap;
  delegate_state : D;
}.
Arguments mkW {D} _ _ _ _ _ _ _ _.
Arguments buffer_ {D} _.
Arguments buffer_capacity_ {D} _.
Arguments out_of_memory_ {D} _.
Arguments id_map_ {D} _.
Arguments next_id_ {D} _.
Arguments shared_object_conveyor_ {D} _.
Arguments heap_ {D} _.
Arguments delegate_state {D} _.

Abbreviation W D := (stateful (wstate D)).

Definition str (s : string) : flat_string := OneByte (char_code <$> String.list_ascii_of_string s).

Inductive ErrorTag :=
| kEvalErrorPrototype | kRangeErrorPrototype | kReferenceErrorPrototype | kSyntaxErrorPrototype
| kTypeErrorPrototype | kUriErrorPrototype | kMessage | kCause | kStack | kEnd.

Definition error_tag_byte (t : ErrorTag) : Z :=
  char_code (match t with
  | kEvalErrorPrototype => "E" | kRangeErrorPrototype => "R" | kReferenceErrorPrototype => "F"
  | kSyntaxErrorPrototype => "S" | kTypeErrorPrototype => "T" | kUriErrorPrototype => "U"
  | kMessage => "m" | kCause => "c" | kStack => "s" | kEnd => "."
  end)%char.

(** The names of errors that have a tag. *)
Definition error_prototypes : list (flat_string * ErrorTag) :=
  [(str "EvalError", kEvalErrorPrototype); (str "RangeError", kRangeErrorPrototype);
   (str "ReferenceError", kReferenceErrorPrototype); (str "SyntaxError", kSyntaxErrorPrototype);
   (str "TypeError", kTypeErrorPrototype); (str "URIError", kUriErrorPrototype)].

(** BigInt::GetBitfieldForSerialization and SerializeDigits. *)
Definition GetBitfieldForSerialization (b : bigint) : Z :=
  Z.lor (Z.b2z (sign b)) (wrap 32 (Z.shiftl (wrap 32 (Z.of_nat (length (digits b)) * 8)) 1)).
Definition DigitsByteLengthForBitfield (bitfield : Z) : Z := Z.shiftr bitfield 1.
Definition SerializeDigits (b : bigint) : bytes := digits b ≫= le_bytes 8.

Section serializer.
Context {D : Type} (ser : serializer D).

(** ** The buffer *)

Definition ExpandBuffer (required_capacity : Z) : W D bool := fun s =>
  let requested_capacity := Z.max required_capacity (buffer_capacity_ s * 2) + 64 in
  match Realloc ser requested_capacity with
  | Some provided_capacity =>
      (Just true, mkW (buffer_ s) provided_capacity (out_of_memory_ s) (id_map_ s) (next_id_ s)
         (shared_object_conveyor_ s) (heap_ s) (delegate_state s))
  | None =>
      (Just false, mkW (buffer_ s) (buffer_capacity_ s) true (id_map_ s) (next_id_ s)
         (shared_object_conveyor_ s) (heap_ s) (delegate_state s))
  end.

(** [ReserveRawBytes] and the copy: without memory nothing is written, and the caller goes on. *)
Definition WriteRawBytes (source : bytes) : W D Unit := fun s =>
  let new_size := Z.of_nat (length (buffer_ s)) + Z.of_nat (length source) in
  let '(ok, s) := if new_size >? buffer_capacity_ s then ExpandBuffer new_size s else (Just true, s) in
  match ok with
  | Just true =>
      (Just tt, mkW (buffer_ s ++ source) (buffer_capacity_ s) (out_of_memory_ s) (id_map_ s) (next_id_ s)
         (shared_object_conveyor_ s) (heap_ s) (delegate_state s))
  | _ => (Just tt, s)
  end.

Fixpoint WriteAll (parts : list bytes) : W D Unit :=
  match parts with [] => mret tt | b :: parts => WriteRawBytes b;; WriteAll parts end.

Definition PutTag (t : SerializationTag) : W D Unit := WriteRawBytes (WriteTag t).
Definition PutVarint (w value : Z) : W D Unit := WriteRawBytes (WriteVarint w value).
Definition PutZigZag (value : Z) : W D Unit := WriteRawBytes (WriteZigZag 32 value).
Definition PutDouble (value : Z) : W D Unit := WriteRawBytes (WriteDouble value).

(** *** Errors *)

Definition ThrowDataCloneError {A} : W D A := throws.

Definition ThrowIfOutOfMemory : W D Unit := fun s =>
  if out_of_memory_ s then ThrowDataCloneError s else (Just tt, s).

(** *** Parts of objects *)

Definition PutString (string : flat_string) : W D Unit :=
  match string with
  | OneByte chars => PutTag kOneByteString;; PutVarint 32 (wrap 32 (Z.of_nat (length chars)));; WriteRawBytes chars
  | TwoByte chars => fun s =>
      let byte_length := wrap 32 (Z.of_nat (length chars) * 2) in
      ((if Z.land (Z.of_nat (length (buffer_ s)) + 1 + BytesNeededForVarint 32 byte_length) 1 =? 0
        then mret tt else PutTag kPadding);;
       PutTag kTwoByteString;; PutVarint 32 byte_length;; WriteRawBytes (chars ≫= le_bytes 2)) s
  end.

Definition WriteBigIntContents (b : bigint) : W D Unit :=
  PutVarint 32 (GetBitfieldForSerialization b);; WriteRawBytes (SerializeDigits b).

Definition WriteOddball (p : primitive) : W D Unit :=
  match p with
  | Undefined => PutTag kUndefined
  | False_ => PutTag kFalse
  | True_ => PutTag kTrue
  | Null => PutTag kNull
  | _ => undefined_behaviour
  end.

Definition WriteSmi (n : Z) : W D Unit := PutTag kInt32;; PutZigZag n.
Definition WriteHeapNumber (d : Z) : W D Unit := PutTag kDouble;; PutDouble d.
Definition WriteBigInt (b : bigint) : W D Unit := PutTag kBigInt;; WriteBigIntContents b.

Definition receiver_at (r : ref) : W D receiver := fun s =>
  match heap_ s !! r with Some o => (Just o, s) | None => (UndefinedBehaviour, s) end.

(** The value of a property that was found; a getter runs. *)
Definition GetProperty (r : ref) (p : property) : W D js_value :=
  match p with
  | Data v => mret v
  | Accessor getter => fun s =>
      let '(v, heap) := CallGetter ser getter r (heap_ s) in
      (match v with Some v => Just v | None => Nothing end,
       mkW (buffer_ s) (buffer_capacity_ s) (out_of_memory_ s) (id_map_ s) (next_id_ s) (shared_object_conveyor_ s)
         heap (delegate_state s))
  end.

Definition ObjectToString (v : js_value) : W D flat_string := fun s =>
  let '(string, heap) := ToString ser v (heap_ s) in
  (match string with Some string => Just string | None => Nothing end,
   mkW (buffer_ s) (buffer_capacity_ s) (out_of_memory_ s) (id_map_ s) (next_id_ s) (shared_object_conveyor_ s)
     heap (delegate_state s)).

(** FindOrInsert: [Some] of the entry when it exists; otherwise the next identifier. *)
Definition assign_id (r : ref) : W D (option Z) := fun s =>
  match id_map_ s !! r with
  | Some entry => (Just (Some entry), s)
  | None =>
      (Just None, mkW (buffer_ s) (buffer_capacity_ s) (out_of_memory_ s) (<[r := wrap 32 (next_id_ s + 1)]> (id_map_ s))
         (wrap 32 (next_id_ s + 1)) (shared_object_conveyor_ s) (heap_ s) (delegate_state s))
  end.

(** A call of the delegate. *)
Definition with_delegate {A} (f : D -> result A * D) : W D A := fun s =>
  let '(a, d) := f (delegate_state s) in
  (a, mkW (buffer_ s) (buffer_capacity_ s) (out_of_memory_ s) (id_map_ s) (next_id_ s) (shared_object_conveyor_ s) (heap_ s) d).

(** *** Host and shared objects *)

Definition has_custom_host_objects_ : bool :=
  match delegate_ ser with Some d => HasCustomHostObject d | None => false end.

Definition IsHostObject (o : receiver) : W D bool :=
  match delegate_ ser with
  | Some d =>
      if has_custom_host_objects_ then
        result ← with_delegate (fun ds => (delegate_IsHostObject d o, ds));
        ThrowIfOutOfMemory;; mret result
      else mret (match instance_type o with JSObject _ h => embedder_fields h | _ => false end)
  | None => mret (match instance_type o with JSObject _ h => embedder_fields h | _ => false end)
  end.

Definition WriteHostObject (o : receiver) : W D Unit :=
  PutTag kHostObject;;
  match delegate_ ser with
  | None => throws
  | Some d =>
      '(parts, exception) ← with_delegate (delegate_WriteHostObject d o);
      WriteAll parts;;
      if (exception : bool) then throws else ThrowIfOutOfMemory
  end.

(** SharedObjectConveyorHandles::Persist. *)
Definition Persist (id : nat) : W D Z := fun s =>
  let l := default [] (shared_object_conveyor_ s) in
  (Just (wrap 32 (Z.of_nat (length l))),
   mkW (buffer_ s) (buffer_capacity_ s) (out_of_memory_ s) (id_map_ s) (next_id_ s) (Some (l ++ [id])) (heap_ s) (delegate_state s)).

Definition WriteSharedObject (id : nat) : W D Unit :=
  match delegate_ ser with
  | None => ThrowDataCloneError
  | Some d =>
      if has_shared_space ser then
        (fun s =>
           match shared_object_conveyor_ s with
           | Some _ => (Just tt, s)
           | None =>
               if AdoptSharedValueConveyor d
               then (Just tt, mkW (buffer_ s) (buffer_capacity_ s) (out_of_memory_ s) (id_map_ s) (next_id_ s) (Some [])
                       (heap_ s) (delegate_state s))
               else (Nothing, s)
           end);;
        PutTag kSharedObject;; index ← Persist id; PutVarint 32 index;; ThrowIfOutOfMemory
      else ThrowDataCloneError
  end.

(** ** Objects without parts *)

Definition WriteJSDate (time : Z) : W D Unit := PutTag kDate;; PutDouble time.

Definition WriteJSPrimitiveWrapper (inner_value : js_value) : W D Unit :=
  (match inner_value with
   | Prim True_ => PutTag kTrueObject
   | Prim False_ => PutTag kFalseObject
   | Prim (Smi n) => PutTag kNumberObject;; PutDouble (int_double n)
   | Prim (HeapNumber d) => PutTag kNumberObject;; PutDouble d
   | BigIntValue b => PutTag kBigIntObject;; WriteBigIntContents b
   | Prim (Str string) => PutTag kStringObject;; PutString string
   | _ => ThrowDataCloneError
   end);;
  ThrowIfOutOfMemory.

Definition WriteJSRegExp (source : flat_string) (flags : Z) : W D Unit :=
  PutTag kRegExp;; PutString source;; PutVarint 32 flags.

Definition WriteJSArrayBuffer (r : ref) (b : array_buffer) : W D Unit :=
  if is_shared b then
    match delegate_ ser with
    | None => ThrowDataCloneError
    | Some d =>
        index ← with_delegate (delegate_GetSharedArrayBufferId d (store b));
        PutTag kSharedArrayBuffer;; PutVarint 32 index;; ThrowIfOutOfMemory
    end
  else
    match array_buffer_transfer_map_ ser !! r with
    | Some transfer_id => PutTag kArrayBufferTransfer;; PutVarint 32 transfer_id;; ThrowIfOutOfMemory
    | None =>
        if was_detached b then ThrowDataCloneError
        else if buffer_length b >? 2 ^ 32 - 1 then ThrowDataCloneError
        else if is_resizable_by_js b then
          PutTag kResizableArrayBuffer;; PutVarint 64 (buffer_length b);; PutVarint 64 (max_byte_length b);;
          WriteRawBytes (contents b);; ThrowIfOutOfMemory
        else
          PutTag (if is_immutable b then kImmutableArrayBuffer else kArrayBuffer);;
          PutVarint 64 (buffer_length b);; WriteRawBytes (contents b);; ThrowIfOutOfMemory
    end.

Definition view_flags (v : view) : Z :=
  Z.lor (Z.b2z (is_length_tracking v)) (Z.shiftl (Z.b2z (is_backed_by_rab v)) 1).

Definition buffer_at (r : ref) : W D array_buffer :=
  o ← receiver_at r; match instance_type o with JSArrayBuffer b => mret b | _ => undefined_behaviour end.

Definition WriteJSArrayBufferView (o : receiver) (v : view) : W D Unit :=
  if treat_array_buffer_views_as_host_objects_ ser then WriteHostObject o
  else
    PutTag kArrayBufferView;;
    b ← buffer_at (view_buffer v);
    if IsOutOfBounds v b then ThrowDataCloneError
    else
      PutVarint 8 (view_tag_byte (view_tag v));; PutVarint 64 (byte_offset v);; PutVarint 64 (byte_length v);;
      PutVarint 32 (view_flags v);; ThrowIfOutOfMemory.

(** ** Objects with parts

    [WriteObject] is the recursive call. *)
Section parts.
Context (WriteObject : js_value -> W D Unit).

Fixpoint WriteValues (vs : list js_value) : W D Unit :=
  match vs with [] => mret tt | v :: vs => WriteObject v;; WriteValues vs end.

(** NumberToString is not reached: the keys are indices and names. *)
Definition key_of (p : primitive) : property_key := PropertyKey (fun _ => OneByte []) p.

(** The loop of [WriteJSObjectPropertiesSlow]. *)
Fixpoint write_properties (r : ref) (keys : list primitive) (properties_written : Z) : W D Z :=
  match keys with
  | [] => mret properties_written
  | key :: keys =>
      o ← receiver_at r;
      match own_lookup o (key_of key) with
      | None => write_properties r keys properties_written
      | Some p =>
          value ← GetProperty r (what p);
          WriteObject (Prim key);; WriteObject value;;
          write_properties r keys (wrap 32 (properties_written + 1))
      end
  end.

Definition WriteJSObjectPropertiesSlow (r : ref) (keys : list primitive) : W D Z := write_properties r keys 0.

Definition WriteJSObjectSlow (r : ref) (o : receiver) : W D Unit :=
  PutTag kBeginJSObject;;
  properties_written ← WriteJSObjectPropertiesSlow r (GetKeys false o);
  PutTag kEndJSObject;; PutVarint 32 properties_written;; ThrowIfOutOfMemory.

(** The map of an object: whether its properties are fast, and their details. Only the maps
    of plain objects are compared. *)
Definition is_field (p : property) : bool := match p with Data _ => true | Accessor _ => false end.
Definition has_fast_properties (o : receiver) : bool :=
  match instance_type o with JSObject fast _ => fast | _ => false end.
Definition map_of (o : receiver) : bool * list (flat_string * (bool * bool)) :=
  (has_fast_properties o, (fun '(k, p) => (k, (enumerable p, is_field (what p)))) <$> named o).

(** The loop of [WriteJSObject] over the descriptors of [map]. *)
Fixpoint write_fast_properties (r : ref) (map : bool * list (flat_string * (bool * bool)))
    (descriptors : list (flat_string * (bool * bool))) (map_changed : bool) (properties_written : Z) : W D Z :=
  match descriptors with
  | [] => mret properties_written
  | (key, (enum, field)) :: descriptors =>
      if negb enum then write_fast_properties r map descriptors map_changed properties_written
      else
        o ← receiver_at r;
        let map_changed := map_changed || negb (bool_decide (map = map_of o)) in
        if negb map_changed && field then
          match find_named key (named o) with
          | Some (mkProperty _ (Data value)) =>
              WriteObject (Prim (Str key));; WriteObject value;;
              write_fast_properties r map descriptors map_changed (wrap 32 (properties_written + 1))
          | _ => undefined_behaviour
          end
        else
          match own_lookup o (Name key) with
          | None => write_fast_properties r map descriptors map_changed properties_written
          | Some p =>
              value ← GetProperty r (what p);
              WriteObject (Prim (Str key));; WriteObject value;;
              write_fast_properties r map descriptors map_changed (wrap 32 (properties_written + 1))
          end
  end.

Definition WriteJSObject (r : ref) : W D Unit :=
  o ← receiver_at r;
  if has_fast_properties o && (match elements o with [] => true | _ => false end) then
    PutTag kBeginJSObject;;
    properties_written ← write_fast_properties r (map_of o) (map_of o).2 false 0;
    PutTag kEndJSObject;; PutVarint 32 properties_written;; ThrowIfOutOfMemory
  else WriteJSObjectSlow r o.

(** The fast paths of [WriteJSArray]: [n] elements are left, from [i] on. *)
Fixpoint write_smi_elements (o : receiver) (n : nat) (i : Z) : W D Unit :=
  match n with
  | O => mret tt
  | S n =>
      match find_element i (elements o) with
      | Some (mkProperty _ (Data (Prim (Smi z)))) => WriteSmi z;; write_smi_elements o n (i + 1)
      | _ => undefined_behaviour
      end
  end.

Fixpoint write_double_elements (o : receiver) (n : nat) (i : Z) : W D Unit :=
  match n with
  | O => mret tt
  | S n =>
      match find_element i (elements o) with
      | Some (mkProperty _ (Data (Prim (HeapNumber d)))) => PutTag kDouble;; PutDouble d;; write_double_elements o n (i + 1)
      | _ => undefined_behaviour
      end
  end.

Definition is_packed (old_length : Z) (o : receiver) : bool :=
  match instance_type o with JSArray PACKED_ELEMENTS length => length =? old_length | _ => false end.

(** How many elements are left when the array is not PACKED_ELEMENTS of the same length. *)
Fixpoint write_packed_elements (r : ref) (old_length : Z) (n : nat) (i : Z) : W D nat :=
  match n with
  | O => mret O
  | S n' =>
      o ← receiver_at r;
      if is_packed old_length o then
        match find_element i (elements o) with
        | Some (mkProperty _ (Data element)) => WriteObject element;; write_packed_elements r old_length n' (i + 1)
        | _ => undefined_behaviour
        end
      else mret n
  end.

Fixpoint write_elements_slowly (r : ref) (n : nat) (i : Z) : W D Unit :=
  match n with
  | O => mret tt
  | S n =>
      o ← receiver_at r;
      match own_lookup o (Index i) with
      | None => PutTag kTheHole;; write_elements_slowly r n (i + 1)
      | Some p => element ← GetProperty r (what p); WriteObject element;; write_elements_slowly r n (i + 1)
      end
  end.

Definition should_serialize_densely (kind : elements_kind) : bool :=
  match kind with PACKED_SMI_ELEMENTS | PACKED_DOUBLE_ELEMENTS | PACKED_ELEMENTS => true | _ => false end.

Definition WriteJSArray (r : ref) (kind : elements_kind) (array_length : Z) : W D Unit :=
  if should_serialize_densely kind then
    PutTag kBeginDenseJSArray;; PutVarint 32 array_length;;
    o ← receiver_at r;
    let n := Z.to_nat array_length in
    remaining ←
      match kind with
      | PACKED_SMI_ELEMENTS => write_smi_elements o n 0;; mret O
      | PACKED_DOUBLE_ELEMENTS => write_double_elements o n 0;; mret O
      | _ => write_packed_elements r array_length n 0
      end;
    write_elements_slowly r remaining (array_length - Z.of_nat remaining);;
    o ← receiver_at r;
    properties_written ← WriteJSObjectPropertiesSlow r (GetKeys true o);
    PutTag kEndDenseJSArray;; PutVarint 32 properties_written;; PutVarint 32 array_length;; ThrowIfOutOfMemory
  else
    PutTag kBeginSparseJSArray;; PutVarint 32 array_length;;
    o ← receiver_at r;
    properties_written ← WriteJSObjectPropertiesSlow r (GetKeys false o);
    PutTag kEndSparseJSArray;; PutVarint 32 properties_written;; PutVarint 32 array_length;; ThrowIfOutOfMemory.

(** The entries are copied first, without the holes. *)
Definition WriteJSMap (table : list (option (js_value * js_value))) : W D Unit :=
  let entries := omap id table ≫= (fun '(k, v) => [k; v]) in
  PutTag kBeginJSMap;; WriteValues entries;;
  PutTag kEndJSMap;; PutVarint 32 (wrap 32 (Z.of_nat (length entries)));; ThrowIfOutOfMemory.

Definition WriteJSSet (table : list (option js_value)) : W D Unit :=
  let entries := omap id table in
  PutTag kBeginJSSet;; WriteValues entries;;
  PutTag kEndJSSet;; PutVarint 32 (wrap 32 (Z.of_nat (length entries)));; ThrowIfOutOfMemory.

(** GetOwnPropertyDescriptor and IsDataDescriptor: the value. *)
Definition own_data (o : receiver) (key : flat_string) : option js_value :=
  match find_named key (named o) with Some (mkProperty _ (Data v)) => Some v | _ => None end.

Definition error_tag_of (name : flat_string) : option ErrorTag :=
  (list_find (fun p => chars_of p.1 = chars_of name) error_prototypes) ≫= (fun p => Some p.2.2).

Definition PutErrorTag (t : ErrorTag) : W D Unit := PutVarint 8 (error_tag_byte t).

(** A property of an error, own or of its prototypes. *)
Definition get_of_error (r : ref) (key : flat_string) (inherited : property) : W D js_value :=
  o ← receiver_at r;
  GetProperty r (match find_named key (named o) with Some p => what p | None => inherited end).

Definition WriteJSError (r : ref) (o : receiver) (proto_name proto_stack : property) : W D Unit :=
  let message_desc := own_data o (str "message") in
  let cause_desc := own_data o (str "cause") in
  PutTag kError;;
  name_object ← get_of_error r (str "name") proto_name;
  name ← ObjectToString name_object;
  (match error_tag_of name with Some t => PutErrorTag t | None => mret tt end);;
  (match message_desc with
   | Some v => message ← ObjectToString v; PutErrorTag kMessage;; PutString message
   | None => mret tt
   end);;
  stack ← get_of_error r (str "stack") proto_stack;
  (match stack with Prim (Str stack) => PutErrorTag kStack;; PutString stack | _ => mret tt end);;
  (match cause_desc with Some cause => PutErrorTag kCause;; WriteObject cause | None => mret tt end);;
  PutErrorTag kEnd;; ThrowIfOutOfMemory.
End parts.

(** ** The dispatch *)

(** [rec] is the recursive call, absent at the end of the stack. *)
Definition WriteJSReceiver (rec : option (js_value -> W D Unit)) (r : ref) : W D Unit :=
  found ← assign_id r;
  match found with
  | Some entry => PutTag kObjectReference;; PutVarint 32 (wrap 32 (entry - 1));; ThrowIfOutOfMemory
  | None =>
      o ← receiver_at r;
      match instance_type o with
      | JSCallable | JSOther => ThrowDataCloneError
      | _ =>
          match rec with
          | None => throws
          | Some WriteObject =>
              match instance_type o with
              | JSArray kind length => WriteJSArray WriteObject r kind length
              | JSObject _ _ =>
                  is_host_object ← IsHostObject o;
                  if (is_host_object : bool) then WriteHostObject o else WriteJSObject WriteObject r
              | JSSpecialApiObject _ => WriteHostObject o
              | JSDate time => WriteJSDate time;; ThrowIfOutOfMemory
              | JSPrimitiveWrapper v => WriteJSPrimitiveWrapper v
              | JSRegExp source flags => WriteJSRegExp source flags;; ThrowIfOutOfMemory
              | JSMap table => WriteJSMap WriteObject table
              | JSSet table => WriteJSSet WriteObject table
              | JSArrayBuffer b => WriteJSArrayBuffer r b
              | JSDetachedTypedArray => ThrowDataCloneError
              | JSArrayBufferView v => WriteJSArrayBufferView o v
              | JSError name stack =>
                  is_host_object ← IsHostObject o;
                  if (is_host_object : bool) then WriteHostObject o else WriteJSError WriteObject r o name stack
              | JSShared id => WriteSharedObject id
              | JSCallable | JSOther => ThrowDataCloneError
              end
          end
      end
  end.

(** One call of [WriteObject]. The buffer of a view is written before the view. *)
Definition WriteObjectBody (rec : option (js_value -> W D Unit)) (v : js_value) : W D Unit := fun s =>
  if out_of_memory_ s then ThrowIfOutOfMemory s
  else
    (match v with
     | Prim (Smi n) => WriteSmi n;; ThrowIfOutOfMemory
     | Prim (HeapNumber d) => WriteHeapNumber d;; ThrowIfOutOfMemory
     | Prim (Str string) => PutString string;; ThrowIfOutOfMemory
     | Prim p => WriteOddball p;; ThrowIfOutOfMemory
     | BigIntValue b => WriteBigInt b;; ThrowIfOutOfMemory
     | Symbol _ => ThrowDataCloneError
     | Receiver r =>
         o ← receiver_at r;
         match instance_type o with
         | JSArrayBufferView w =>
             (if bool_decide (id_map_ s !! r = None) && negb (treat_array_buffer_views_as_host_objects_ ser)
              then WriteJSReceiver rec (view_buffer w) else mret tt);;
             WriteJSReceiver rec r
         | _ => WriteJSReceiver rec r
         end
     end) s.

Fixpoint WriteObject (stack : nat) (v : js_value) : W D Unit :=
  WriteObjectBody (match stack with O => None | S stack => Some (WriteObject stack) end) v.

(** ** A serializer *)

Definition new_serializer (heap : js_heap) (d : D) : wstate D := mkW [] 0 false ∅ 0 None heap d.

Definition PutHeader : W D Unit := PutTag kVersion;; PutVarint 32 kLatestVersion.

(** [WriteHeader], [WriteObject] and [Release]. *)
Definition Serialize (stack : nat) (heap : js_heap) (d : D) (v : js_value) : option bytes :=
  match (PutHeader;; WriteObject stack v) (new_serializer heap d) with
  | (Just _, s) => Some (buffer_ s)
  | _ => None
  end.
End serializer.
