(* ===== verification/ObjectReader.v ===== *)
(** ValueDeserializer of src/src/objects/value-serializer.cc: the operations on its state.

    The state keeps the position, the identifiers of the objects read so far and the heap
    in which they are made; it survives a failure, except for the position, which only a
    success defines. The engine is a parameter where the result depends on it: the tree
    of map transitions, the conversion of numbers that are no indices to strings, UTF-8,
    the compiler of regular expressions, the allocator. Loops have the number of bytes
    that are left as fuel, and each round reads one at least; the fuel of [ReadObject] is
    the stack. The configuration is the one without WebAssembly. *)
From S2P Require Import Prelude Conversions Engine WireFormat Serializer JSHeap ObjectWriter.
From Stdlib Require Import Ascii.

(** ** State *)

(** A delegate gives an object or a buffer, or nothing, and whether an exception is pending. *)
Record DeserializerDelegate (D : Type) := mkReadDelegate {
  delegate_ReadHostObject : bytes -> D -> result (receiver * bytes) * bool * D;
  delegate_GetSharedArrayBufferFromId : Z -> D -> result array_buffer * bool * D;
  GetSharedValueConveyor : option (list nat);
}.
Arguments delegate_ReadHostObject {D} _ _ _.
Arguments delegate_GetSharedArrayBufferFromId {D} _ _ _.
Arguments GetSharedValueConveyor {D} _.

Record rstate (D : Type) := mkR {
  position_ : bytes;
  r_next_id_ : Z;
  r_id_map_ : gmap Z ref;
  r_heap_ : js_heap;
  has_exception : bool;
  r_delegate_state : D;
}.
Arguments mkR {D} _ _ _ _ _ _.
Arguments position_ {D} _.
Arguments r_next_id_ {D} _.
Arguments r_id_map_ {D} _.
Arguments r_heap_ {D} _.
Arguments has_exception {D} _.
Arguments r_delegate_state {D} _.

Abbreviation R D := (stateful (rstate D)).

(** [ExpectedTransition] and [FindTransitionToField] from the map with the given fields to
    the one with a further field, and whether its representation fits the value (the map
    may have been deprecated since): all can depend on the state of the isolate. *)
Record deserializer (D : Type) := mkDeserializer {
  d_delegate_ : option (DeserializerDelegate D);
  version_ : Z;
  version_13_broken_data_mode_ : bool;
  suppress_deserialization_errors_ : bool;
  r_array_buffer_transfer_map_ : option (gmap Z ref);
  data_size : Z;
  ExpectedTransition : rstate D -> list flat_string -> flat_string -> bool;
  FindTransitionToField : rstate D -> list flat_string -> flat_string -> bool;
  FitsRepresentation : rstate D -> list flat_string -> js_value -> bool;
  NumberToString : primitive -> flat_string;
  NewStringFromUtf8 : bytes -> option flat_string;
  RegExpCompiles : flat_string -> Z -> bool;
  enable_experimental_regexp_engine : bool;
  js_float16array : bool;
  AllocateBackingStore : Z -> Z -> bool -> bool;
}.
Arguments d_delegate_ {D} _.
Arguments version_ {D} _.
Arguments version_13_broken_data_mode_ {D} _.
Arguments suppress_deserialization_errors_ {D} _.
Arguments r_array_buffer_transfer_map_ {D} _.
Arguments data_size {D} _.
Arguments ExpectedTransition {D} _ _ _ _.
Arguments FindTransitionToField {D} _ _ _ _.
Arguments FitsRepresentation {D} _ _ _ _.
Arguments NumberToString {D} _ _.
Arguments NewStringFromUtf8 {D} _ _.
Arguments RegExpCompiles {D} _ _ _.
Arguments enable_experimental_regexp_engine {D} _.
Arguments js_float16array {D} _.
Arguments AllocateBackingStore {D} _ _ _ _.

(** BigInt::FromSerializedDigits: a BigInt that is too long is a fatal error of NewBigInt;
    MakeImmutable drops the leading zeros, and the sign of zero. *)
Definition kMaxBigIntLength : Z := (2 ^ 30 - 1) / 64.

Fixpoint digits_of (n : nat) (b : bytes) : list Z :=
  match n with O => [] | S n => le_value (take 8 b) :: digits_of n (drop 8 b) end.

Fixpoint strip_zeros (digits : list Z) : list Z :=
  match digits with
  | [] => []
  | d :: digits => match strip_zeros digits with [] => if d =? 0 then [] else [d] | l => d :: l end
  end.

Definition Canonicalize (b : bigint) : bigint :=
  let l := strip_zeros (digits b) in mkBigInt (match l with [] => false | _ => sign b end) l.

Definition FromSerializedDigits (bitfield : Z) (digits_storage : bytes) : result bigint :=
  let bytelength := Z.shiftr bitfield 1 in
  let sign := Z.testbit bitfield 0 in
  let length := (bytelength + 8 - 1) / 8 in
  if (length =? 0) && sign then Nothing
  else if length >? kMaxBigIntLength then Aborts
  else Just (Canonicalize (mkBigInt sign (digits_of (Z.to_nat length) digits_storage))).

(** The flags of regular expressions. *)
Definition kFlagCount : Z := 9.
Definition kUnicode : Z := 2 ^ 4.
Definition kLinear : Z := 2 ^ 6.
Definition kUnicodeSets : Z := 2 ^ 8.
Definition VerifyFlags (flags : Z) : bool :=
  negb (negb (Z.land flags kUnicode =? 0) && negb (Z.land flags kUnicodeSets =? 0)).

(** Map.prototype.set and Set.prototype.add on the entries in insertion order. *)
Definition normalize_key (v : js_value) : js_value :=
  match v with Prim (HeapNumber d) => if d =? kSignMask then Prim (Smi 0) else v | _ => v end.

Fixpoint map_set (key value : js_value) (entries : list (option (js_value * js_value))) : list (option (js_value * js_value)) :=
  match entries with
  | [] => [Some (normalize_key key, value)]
  | Some (k, v) :: entries =>
      if SameValueZero key k then Some (k, value) :: entries else Some (k, v) :: map_set key value entries
  | None :: entries => None :: map_set key value entries
  end.

Fixpoint set_add (key : js_value) (members : list (option js_value)) : list (option js_value) :=
  match members with
  | [] => [Some (normalize_key key)]
  | Some k :: members => if SameValueZero key k then Some k :: members else Some k :: set_add key members
  | None :: members => None :: set_add key members
  end.

(** What a view tag gives: [None] for an unknown one. *)
Definition view_tags : list ArrayBufferViewTag :=
  [kInt8Array; kUint8Array; kUint8ClampedArray; kInt16Array; kUint16Array; kInt32Array; kUint32Array; kFloat16Array;
   kFloat32Array; kFloat64Array; kBigInt64Array; kBigUint64Array; kDataView].

Definition view_tag_of (byte : Z) : option ArrayBufferViewTag :=
  snd <$> list_find (fun t => view_tag_byte t = byte) view_tags.

(** [ValidateJSArrayBufferViewFlags]: is_length_tracking and is_backed_by_rab. *)
Definition ValidateJSArrayBufferViewFlags (b : array_buffer) (serialized_flags : Z) : option (bool * bool) :=
  let is_length_tracking := Z.testbit serialized_flags 0 in
  let is_backed_by_rab := Z.testbit serialized_flags 1 in
  if (is_backed_by_rab || is_length_tracking) && negb (is_resizable_by_js b) then None
  else if (is_backed_by_rab || is_length_tracking) && is_backed_by_rab && is_shared b then None
  else if is_resizable_by_js b && negb (is_shared b) && negb is_backed_by_rab then None
  else Some (is_length_tracking, is_backed_by_rab).

Definition kMaxByteLength : Z := kMaxSafeInteger.

(** Factory::NewJSTypedArray and NewJSDataViewOrRabGsabDataView, with their CHECKs. *)
Definition NewJSArrayBufferView (t : ArrayBufferViewTag) (r : ref) (b : array_buffer) (offset len : Z) (tracking : bool) :
    result view :=
  let len := if tracking then 0 else len in
  let rab := is_resizable_by_js b && negb (is_shared b) in
  if negb (bool_decide (t = kDataView)) && ((len / element_size t >? kMaxByteLength / element_size t) || negb (offset mod element_size t =? 0)) then Aborts
  else if negb (rab || tracking) && ((len >? buffer_length b) || (offset >? buffer_length b) || (offset + len >? buffer_length b)) then Aborts
  else Just (mkView t r offset len tracking rab).

(** The constructor of an error, by its name, and the tag that is left. *)
Definition error_name_of (tag : Z) : option flat_string :=
  (list_find (fun p => error_tag_byte p.2 = tag) error_prototypes) ≫= (fun p => Some p.2.1).

Definition is_ascii (chars : bytes) : bool := forallb (fun c => c <? 128) chars.

Section deserializer.
Context {D : Type} (des : deserializer D).

(** ** Reading parts *)

Definition lift {A} (f : bytes -> option (A * bytes)) : R D A := fun s =>
  match f (position_ s) with
  | Some (a, b) => (Just a, mkR b (r_next_id_ s) (r_id_map_ s) (r_heap_ s) (has_exception s) (r_delegate_state s))
  | None => (Nothing, s)
  end.

Definition set_position (b : bytes) : R D Unit := fun s =>
  (Just tt, mkR b (r_next_id_ s) (r_id_map_ s) (r_heap_ s) (has_exception s) (r_delegate_state s)).

Definition get_position : R D bytes := fun s => (Just (position_ s), s).

Definition GetTag : R D Z := lift ReadTag.
Definition Peek : R D Z := fun s => match PeekTag (position_ s) with Some tag => (Just tag, s) | None => (Nothing, s) end.
Definition ConsumeTag : R D Unit := GetTag;; mret tt.
Definition GetVarint (w : Z) : R D Z := lift (ReadVarint w).
Definition GetDouble : R D Z := lift ReadDouble.
Definition GetRawBytes (size : Z) : R D bytes := lift (ReadRawBytes size).
Definition ReadSizeT : R D Z := GetVarint 64.

Definition failing {A} (o : option A) : R D A := match o with Some a => mret a | None => throws end.
Definition outcome {A} (a : result A) : R D A := fun s => (a, s).
Definition throw {A} : R D A := fun s =>
  (Nothing, mkR (position_ s) (r_next_id_ s) (r_id_map_ s) (r_heap_ s) true (r_delegate_state s)).

(** ** Identifiers and the heap *)

Definition new_id : R D Z := fun s =>
  (Just (r_next_id_ s), mkR (position_ s) (wrap 32 (r_next_id_ s + 1)) (r_id_map_ s) (r_heap_ s) (has_exception s) (r_delegate_state s)).

Definition AddObjectWithID (id : Z) (r : ref) : R D Unit := fun s =>
  (Just tt, mkR (position_ s) (r_next_id_ s) (<[id := r]> (r_id_map_ s)) (r_heap_ s) (has_exception s) (r_delegate_state s)).

Definition GetObjectWithID (id : Z) : R D ref := fun s => failing (r_id_map_ s !! id) s.

Definition allocate (o : receiver) : R D ref := fun s =>
  (Just (length (r_heap_ s)),
   mkR (position_ s) (r_next_id_ s) (r_id_map_ s) (r_heap_ s ++ [o]) (has_exception s) (r_delegate_state s)).

(** A new object under a new identifier. *)
Definition allocate_with_id (id : Z) (o : receiver) : R D ref := r ← allocate o; AddObjectWithID id r;; mret r.

Definition update (r : ref) (f : receiver -> receiver) : R D Unit := fun s =>
  match r_heap_ s !! r with
  | Some o => (Just tt, mkR (position_ s) (r_next_id_ s) (r_id_map_ s) (<[r := f o]> (r_heap_ s)) (has_exception s) (r_delegate_state s))
  | None => (UndefinedBehaviour, s)
  end.

Definition object_at (r : ref) : R D receiver := fun s =>
  match r_heap_ s !! r with Some o => (Just o, s) | None => (UndefinedBehaviour, s) end.

Definition array_buffer_of (o : receiver) : option array_buffer :=
  match instance_type o with JSArrayBuffer b => Some b | _ => None end.

(** ** Values without parts *)

Definition ReadBigInt : R D bigint :=
  bitfield ← GetVarint 32;
  digits_storage ← GetRawBytes (DigitsByteLengthForBitfield bitfield);
  outcome (FromSerializedDigits bitfield digits_storage).

Definition ReadUtf8String : R D flat_string :=
  utf8_length ← GetVarint 32;
  utf8_bytes ← GetRawBytes utf8_length;
  failing (NewStringFromUtf8 des utf8_bytes).

Definition with_string {A} (k : flat_string -> A) (m : R D flat_string) : R D A := s ← m; mret (k s).

Definition ReadJSDate : R D ref :=
  value ← GetDouble;
  id ← new_id;
  allocate_with_id id (mkReceiver (JSDate (TimeClip value)) [] []).

Definition ReadTransferredJSArrayBuffer : R D ref :=
  id ← new_id;
  transfer_id ← GetVarint 32;
  transfer_map ← failing (r_array_buffer_transfer_map_ des);
  r ← failing (transfer_map !! transfer_id);
  AddObjectWithID id r;; mret r.

Definition ReadJSArrayBuffer (shared resizable immutable : bool) : R D ref :=
  id ← new_id;
  if shared then
    clone_id ← GetVarint 32;
    d ← failing (d_delegate_ des);
    b ← (fun s =>
      let '(b, exception, ds) := delegate_GetSharedArrayBufferFromId d clone_id (r_delegate_state s) in
      (b, mkR (position_ s) (r_next_id_ s) (r_id_map_ s) (r_heap_ s) (has_exception s || exception) ds));
    allocate_with_id id (mkReceiver (JSArrayBuffer b) [] [])
  else
    byte_length ← ReadSizeT;
    max_byte_length ← (if resizable then ReadSizeT else mret byte_length);
    if byte_length >? max_byte_length then throws
    else
      b ← get_position;
      if byte_length >? Z.of_nat (length b) then throws
      else if negb (AllocateBackingStore des byte_length max_byte_length resizable) then throws
      else
        data ← GetRawBytes byte_length;
        allocate_with_id id (mkReceiver (JSArrayBuffer (mkBuffer O data max_byte_length false resizable immutable false)) [] []).

Definition ReadJSArrayBufferView (buffer : ref) : R D ref :=
  o ← object_at buffer;
  match array_buffer_of o with
  | None => undefined_behaviour
  | Some b =>
      tag ← GetVarint 8;
      byte_offset ← ReadSizeT;
      byte_length ← ReadSizeT;
      if (byte_offset >? buffer_length b) || (byte_length >? buffer_length b - byte_offset) then throws
      else
        flags ← (if (version_ des >=? 14) || version_13_broken_data_mode_ des then GetVarint 32 else mret 0);
        id ← new_id;
        match view_tag_of tag with
        | None => throws
        | Some t =>
            if bool_decide (t = kFloat16Array) && negb (js_float16array des) then throws
            else if negb (bool_decide (t = kDataView)) && (negb (byte_offset mod element_size t =? 0) || negb (byte_length mod element_size t =? 0))
            then throws
            else
              '(is_length_tracking, rab) ← failing (ValidateJSArrayBufferViewFlags b flags);
              v ← outcome (NewJSArrayBufferView t buffer b byte_offset byte_length is_length_tracking);
              if negb (Bool.eqb rab (is_backed_by_rab v)) || negb (Bool.eqb is_length_tracking (JSHeap.is_length_tracking v))
              then aborts
              else allocate_with_id id (mkReceiver (JSArrayBufferView v) [] [])
        end
  end.

Definition ReadHostObject : R D ref :=
  d ← failing (d_delegate_ des);
  id ← new_id;
  o ← (fun s =>
    let '(o, exception, ds) := delegate_ReadHostObject d (position_ s) (r_delegate_state s) in
    match o with
    | Just (o, b) => (Just o, mkR b (r_next_id_ s) (r_id_map_ s) (r_heap_ s) (has_exception s || exception) ds)
    | Nothing => (Nothing, mkR (position_ s) (r_next_id_ s) (r_id_map_ s) (r_heap_ s) (has_exception s || exception) ds)
    | Aborts => (Aborts, s)
    | UndefinedBehaviour => (UndefinedBehaviour, s)
    end);
  allocate_with_id id o.

Definition shared_id (o : receiver) : option nat := match instance_type o with JSShared id => Some id | _ => None end.

(** The shared objects are in the shared heap: the reference that stands for one is made
    when it is first met. *)
Definition shared_reference (id : nat) : R D ref := fun s =>
  match list_find (fun o => shared_id o = Some id) (r_heap_ s) with
  | Some (r, _) => (Just r, s)
  | None => allocate (mkReceiver (JSShared id) [] []) s
  end.

Definition ReadSharedObject : R D ref :=
  shared_object_id ← GetVarint 32;
  match d_delegate_ des with
  | None => throw
  | Some d =>
      match GetSharedValueConveyor d with
      | None => throw
      | Some conveyor =>
          match conveyor !! Z.to_nat shared_object_id with
          | Some id => shared_reference id
          | None => undefined_behaviour
          end
      end
  end.

(** ** Objects with parts

    [ReadObject] is the recursive call. *)
Section parts.
Context (ReadObject : R D js_value).

Definition string_of (v : js_value) : option flat_string := match v with Prim (Str s) => Some s | _ => None end.

Definition ReadString : R D flat_string :=
  if version_ des <? 12 then ReadUtf8String else v ← ReadObject; failing (string_of v).

Definition key_of_value (v : js_value) : option property_key :=
  match v with
  | Prim p => if IsValidObjectKey v then Some (PropertyKey (NumberToString des) p) else None
  | _ => None
  end.

(** LookupIterator and DefineOwnPropertyIgnoreAttributes: the property must be new. *)
Definition define_property (r : ref) (k : property_key) (value : js_value) : R D Unit :=
  o ← object_at r;
  match own_lookup o k with Some _ => throws | None => update r (define_own k value) end.

(** The loop of the slow path of [ReadJSObjectProperties]. *)
Fixpoint read_properties_slow (fuel : nat) (r : ref) (end_tag : SerializationTag) (num_properties : Z) : R D Z :=
  match fuel with
  | O => throws
  | S fuel =>
      tag ← Peek;
      if tag =? tag_byte end_tag then ConsumeTag;; mret num_properties
      else
        key ← ReadObject;
        k ← failing (key_of_value key);
        value ← ReadObject;
        define_property r k value;;
        read_properties_slow fuel r end_tag (wrap 32 (num_properties + 1))
  end.

Definition CommitProperties (r : ref) (keys : list flat_string) (properties : list js_value) : R D Unit :=
  update r (fun o => mkReceiver (instance_type o) (elements o)
    (named o ++ zip_with (fun k v => (k, mkProperty true (Data v))) keys properties)).

(** The key of an expected transition, read in place. *)
Definition ReadRawTwoBytes (size : Z) (b : bytes) : option (list Z * bytes) :=
  if negb ((data_size des - Z.of_nat (length b)) mod 2 =? 0) then None
  else if (size >? Z.of_nat (length b)) || negb (size mod 2 =? 0) then None
  else Some (two_bytes (take (Z.to_nat size) b), drop (Z.to_nat size) b).

Definition expected_key (keys : list flat_string) (tag byte_length : Z) (s : rstate D) : option (flat_string * bytes) :=
  let expected (key : flat_string) (b : bytes) := if ExpectedTransition des s keys key then Some (key, b) else None in
  if tag =? tag_byte kOneByteString then
    '(chars, b) ← ReadRawBytes byte_length (position_ s); expected (OneByte chars) b
  else if tag =? tag_byte kTwoByteString then
    '(chars, b) ← ReadRawTwoBytes byte_length (position_ s); expected (TwoByte chars) b
  else if tag =? tag_byte kUtf8String then
    '(chars, b) ← ReadRawBytes byte_length (position_ s); if is_ascii chars then expected (OneByte chars) b else None
  else None.

(** The key read as any value, and whether there is a transition for it. *)
Definition read_key (keys : list flat_string) : R D (js_value * bool) :=
  key ← ReadObject;
  if negb (IsValidObjectKey key) then throws
  else (fun s => (Just (key, from_option (FindTransitionToField des s keys) false (string_of key)), s)).

Definition read_transition_key (keys : list flat_string) : R D (js_value * bool) :=
  start_position ← get_position;
  tag ← GetTag;
  byte_length ← GetVarint 32;
  expected ← ((fun s => (Just (expected_key keys tag byte_length s), s)) : R D (option (flat_string * bytes)));
  match expected with
  | Some (key, b) => set_position b;; mret (Prim (Str key), true)
  | None => set_position start_position;; read_key keys
  end.

Definition transition_fits (keys : list flat_string) (value : js_value) (transition : bool) : R D bool := fun s =>
  (Just (transition && FitsRepresentation des s keys value), s).

(** The loop of the fast path: the fields gathered so far are [keys] and [properties]. *)
Fixpoint read_properties_fast (fuel : nat) (r : ref) (end_tag : SerializationTag)
    (keys : list flat_string) (properties : list js_value) : R D Z :=
  match fuel with
  | O => throws
  | S fuel =>
      tag ← Peek;
      if tag =? tag_byte end_tag then
        ConsumeTag;; CommitProperties r keys properties;; mret (wrap 32 (Z.of_nat (length properties)))
      else
        '(key, transition) ← read_transition_key keys;
        value ← ReadObject;
        fits ← transition_fits (keys ++ option_list (string_of key)) value transition;
        if (fits : bool) then read_properties_fast fuel r end_tag (keys ++ option_list (string_of key)) (properties ++ [value])
        else
          CommitProperties r keys properties;;
          k ← failing (key_of_value key);
          define_property r k value;;
          read_properties_slow fuel r end_tag (wrap 32 (Z.of_nat (length properties) + 1))
  end.

Definition ReadJSObjectProperties (r : ref) (end_tag : SerializationTag) (can_use_transitions : bool) : R D Z :=
  b ← get_position;
  if can_use_transitions then read_properties_fast (S (length b)) r end_tag [] []
  else read_properties_slow (S (length b)) r end_tag 0.

(** A count that follows an object. *)
Definition expect (n : Z) : R D Unit := m ← GetVarint 32; if n =? m then mret tt else throws.

Definition ReadJSObject : R D ref :=
  id ← new_id;
  object ← allocate_with_id id NewJSObject;
  num_properties ← ReadJSObjectProperties object kEndJSObject true;
  expect num_properties;;
  mret object.

Definition ReadSparseJSArray : R D ref :=
  length ← GetVarint 32;
  id ← new_id;
  array ← allocate_with_id id (mkReceiver (JSArray HOLEY_ELEMENTS length) [] []);
  num_properties ← ReadJSObjectProperties array kEndSparseJSArray false;
  expect num_properties;; expect length;;
  mret array.

Definition kMaxFixedArrayLength : Z := 128 * 1024 * 1024.

(** The loop over the elements, from [i] on. *)
Fixpoint read_elements (array : ref) (n : nat) (i : Z) : R D Unit :=
  match n with
  | O => mret tt
  | S n =>
      fun s =>
        if bool_decide (PeekTag (position_ s) = Some (tag_byte kTheHole)) then (ConsumeTag;; read_elements array n (i + 1)) s
        else
          (element ← ReadObject;
           (if (version_ des <? 11) && bool_decide (element = undefined) then mret tt
            else update array (define_own (Index i) element));;
           read_elements array n (i + 1)) s
  end.

Definition ReadDenseJSArray : R D ref :=
  length ← GetVarint 32;
  b ← get_position;
  if (length >? kMaxFixedArrayLength) || (length >? Z.of_nat (List.length b)) then throws
  else
    id ← new_id;
    array ← allocate_with_id id (mkReceiver (JSArray HOLEY_ELEMENTS length) [] []);
    read_elements array (Z.to_nat length) 0;;
    num_properties ← ReadJSObjectProperties array kEndDenseJSArray false;
    expect num_properties;; expect length;;
    mret array.

Definition ReadJSPrimitiveWrapper (tag : Z) : R D ref :=
  id ← new_id;
  value ←
    (if tag =? tag_byte kTrueObject then mret (Prim True_)
     else if tag =? tag_byte kFalseObject then mret (Prim False_)
     else if tag =? tag_byte kNumberObject then number ← GetDouble; mret (Prim (HeapNumber number))
     else if tag =? tag_byte kBigIntObject then b ← ReadBigInt; mret (BigIntValue b)
     else string ← ReadString; mret (Prim (Str string)));
  allocate_with_id id (mkReceiver (JSPrimitiveWrapper value) [] []).

Definition ReadJSRegExp : R D ref :=
  id ← new_id;
  pattern ← ReadString;
  raw_flags ← GetVarint 32;
  let bad_flags_mask := wrap 32 (Z.shiftl (2 ^ 32 - 1) kFlagCount) in
  let bad_flags_mask := if enable_experimental_regexp_engine des then bad_flags_mask else Z.lor bad_flags_mask kLinear in
  if negb (Z.land raw_flags bad_flags_mask =? 0) || negb (VerifyFlags raw_flags) then throws
  else if negb (RegExpCompiles des pattern raw_flags) then throw
  else allocate_with_id id (mkReceiver (JSRegExp pattern raw_flags) [] []).

Definition map_entries (o : receiver) : list (option (js_value * js_value)) :=
  match instance_type o with JSMap entries => entries | _ => [] end.
Definition set_members (o : receiver) : list (option js_value) :=
  match instance_type o with JSSet members => members | _ => [] end.

Definition CallMapSet (map : ref) (key value : js_value) : R D Unit :=
  update map (fun o => mkReceiver (JSMap (map_set key value (map_entries o))) (elements o) (named o)).
Definition CallSetAdd (set : ref) (key : js_value) : R D Unit :=
  update set (fun o => mkReceiver (JSSet (set_add key (set_members o))) (elements o) (named o)).

Fixpoint read_map_entries (fuel : nat) (map : ref) (length : Z) : R D Z :=
  match fuel with
  | O => throws
  | S fuel =>
      tag ← Peek;
      if tag =? tag_byte kEndJSMap then ConsumeTag;; mret length
      else
        key ← ReadObject; value ← ReadObject;
        CallMapSet map key value;;
        read_map_entries fuel map (wrap 32 (length + 2))
  end.

Definition ReadJSMap : R D ref :=
  id ← new_id;
  map ← allocate_with_id id (mkReceiver (JSMap []) [] []);
  b ← get_position;
  length ← read_map_entries (S (List.length b)) map 0;
  expect length;;
  mret map.

Fixpoint read_set_members (fuel : nat) (set : ref) (length : Z) : R D Z :=
  match fuel with
  | O => throws
  | S fuel =>
      tag ← Peek;
      if tag =? tag_byte kEndJSSet then ConsumeTag;; mret length
      else
        key ← ReadObject;
        CallSetAdd set key;;
        read_set_members fuel set (wrap 32 (length + 1))
  end.

Definition ReadJSSet : R D ref :=
  id ← new_id;
  set ← allocate_with_id id (mkReceiver (JSSet []) [] []);
  b ← get_position;
  length ← read_set_members (S (List.length b)) set 0;
  expect length;;
  mret set.

(** A string after the tag [t], and the next tag. *)
Definition ReadErrorString (t : ErrorTag) (tag : Z) : R D (option flat_string * Z) :=
  if tag =? error_tag_byte t then string ← ReadString; tag ← GetVarint 8; mret (Some string, tag)
  else mret (None, tag).

(** The new error: its message is not enumerable. *)
Definition ConstructError (name : flat_string) (message stack : option flat_string) : receiver :=
  mkReceiver (JSError (Data (Prim (Str name))) (Data (match stack with Some s => Prim (Str s) | None => undefined end))) []
    (match message with Some s => [(str "message", mkProperty false (Data (Prim (Str s))))] | None => [] end).

Definition add_cause (cause : js_value) (o : receiver) : receiver :=
  mkReceiver (instance_type o) (elements o) (named o ++ [(str "cause", mkProperty false (Data cause))]).

Definition ReadJSError : R D ref :=
  id ← new_id;
  tag ← GetVarint 8;
  '(name, tag) ←
    match error_name_of tag with
    | Some name => tag ← GetVarint 8; mret (name, tag)
    | None => mret (str "Error", tag)
    end;
  '(message, tag) ← ReadErrorString kMessage tag;
  '(stack, tag) ← ReadErrorString kStack tag;
  error ← allocate_with_id id (ConstructError name message stack);
  tag ←
    (if tag =? error_tag_byte kCause then
       cause ← ReadObject; update error (add_cause cause);; GetVarint 8
     else mret tag);
  if tag =? error_tag_byte kEnd then mret error else throws.

(** ** The dispatch *)

Definition is_tag (tag : Z) (t : SerializationTag) : bool := tag =? tag_byte t.

Definition ReadObjectInternal : R D js_value :=
  tag ← GetTag;
  let receiver (m : R D ref) : R D js_value := r ← m; mret (Receiver r) in
  if is_tag tag kVerifyObjectCount then GetVarint 32;; ReadObject
  else if is_tag tag kUndefined then mret undefined
  else if is_tag tag kNull then mret (Prim Null)
  else if is_tag tag kTrue then mret (Prim True_)
  else if is_tag tag kFalse then mret (Prim False_)
  else if is_tag tag kInt32 then number ← lift (ReadZigZag 32); mret (Prim (Smi number))
  else if is_tag tag kUint32 then number ← GetVarint 32; mret (Prim (NewNumber number))
  else if is_tag tag kDouble then number ← GetDouble; mret (Prim (HeapNumber number))
  else if is_tag tag kBigInt then b ← ReadBigInt; mret (BigIntValue b)
  else if is_tag tag kUtf8String then string ← ReadUtf8String; mret (Prim (Str string))
  else if is_tag tag kOneByteString then string ← lift ReadOneByteString; mret (Prim (Str string))
  else if is_tag tag kTwoByteString then string ← lift ReadTwoByteString; mret (Prim (Str string))
  else if is_tag tag kObjectReference then id ← GetVarint 32; receiver (GetObjectWithID id)
  else if is_tag tag kBeginJSObject then receiver ReadJSObject
  else if is_tag tag kBeginSparseJSArray then receiver ReadSparseJSArray
  else if is_tag tag kBeginDenseJSArray then receiver ReadDenseJSArray
  else if is_tag tag kDate then receiver ReadJSDate
  else if is_tag tag kTrueObject || is_tag tag kFalseObject || is_tag tag kNumberObject || is_tag tag kBigIntObject || is_tag tag kStringObject
  then receiver (ReadJSPrimitiveWrapper tag)
  else if is_tag tag kRegExp then receiver ReadJSRegExp
  else if is_tag tag kBeginJSMap then receiver ReadJSMap
  else if is_tag tag kBeginJSSet then receiver ReadJSSet
  else if is_tag tag kArrayBuffer then receiver (ReadJSArrayBuffer false false false)
  else if is_tag tag kResizableArrayBuffer then receiver (ReadJSArrayBuffer false true false)
  else if is_tag tag kImmutableArrayBuffer then receiver (ReadJSArrayBuffer false false true)
  else if is_tag tag kArrayBufferTransfer then receiver ReadTransferredJSArrayBuffer
  else if is_tag tag kSharedArrayBuffer then receiver (ReadJSArrayBuffer true false false)
  else if is_tag tag kError then receiver ReadJSError
  else if is_tag tag kHostObject then receiver ReadHostObject
  else if is_tag tag kSharedObject && (version_ des >=? 15) then receiver ReadSharedObject
  else if version_ des <? 13 then
    b ← get_position; set_position (tag :: b);; receiver ReadHostObject
  else throws.

Definition is_array_buffer (r : ref) (s : rstate D) : bool :=
  match r_heap_ s !! r with Some o => bool_decide (is_Some (array_buffer_of o)) | None => false end.

(** A view consumes the buffer before it. *)
Definition ReadObjectBody : R D js_value := fun s =>
  let '(result, s) := ReadObjectInternal s in
  let '(result, s) :=
    match result with
    | Just (Receiver r) =>
        if is_array_buffer r s && bool_decide (PeekTag (position_ s) = Some (tag_byte kArrayBufferView))
        then (ConsumeTag;; view ← ReadJSArrayBufferView r; mret (Receiver view)) s
        else (result, s)
    | _ => (result, s)
    end in
  match result with
  | Nothing => if suppress_deserialization_errors_ des then (Nothing, s) else throw s
  | _ => (result, s)
  end.
End parts.

(** Without stack STACK_CHECK throws. *)
Fixpoint ReadObject (stack : nat) : R D js_value :=
  match stack with O => throw | S stack => ReadObjectBody (ReadObject stack) end.
End deserializer.

(** ** A deserializer *)

Definition new_deserializer {D} (b : bytes) (heap : js_heap) (d : D) : rstate D := mkR b 0 ∅ heap false d.

Definition configure {D} (des : deserializer D) (version : Z) (broken suppress : bool) : deserializer D :=
  mkDeserializer D (d_delegate_ des) version broken suppress (r_array_buffer_transfer_map_ des) (data_size des)
    (ExpectedTransition des) (FindTransitionToField des) (FitsRepresentation des) (NumberToString des)
    (NewStringFromUtf8 des) (RegExpCompiles des) (enable_experimental_regexp_engine des) (js_float16array des)
    (AllocateBackingStore des).

(** The retry keeps the identifiers of the first attempt. *)
Definition ReadObjectWrapper {D} (des : deserializer D) (stack : nat) : R D js_value := fun s =>
  let original_position := position_ s in
  let '(result, s) := ReadObject (configure des (version_ des) false true) stack s in
  let '(result, s) :=
    match result with
    | Nothing =>
        if (version_ des =? 13) && negb (has_exception s)
        then (set_position original_position;; ReadObject (configure des (version_ des) true true) stack) s
        else (result, s)
    | _ => (result, s)
    end in
  match result with
  | Nothing => throw s
  | _ => (result, s)
  end.

(** *** The legacy format *)

Section legacy.
Context {D : Type} (des : deserializer D) (stack_limit : nat).

(** [SetPropertiesFromKeyValuePairs] on keys and values. *)
Fixpoint SetPropertiesFromKeyValuePairs (object : ref) (data : list js_value) : R D Unit :=
  match data with
  | key :: value :: data =>
      k ← failing (key_of_value des key);
      define_property object k value;;
      SetPropertiesFromKeyValuePairs object data
  | _ => mret tt
  end.

(** A failure that leaves an exception. *)
Definition or_throw {A} (m : R D A) : R D A := fun s => match m s with (Nothing, s) => throw s | r => r end.

(** The last [2 * num_properties] values of the stack, first pushed first, and the rest. *)
Definition pop_properties (num_properties : Z) (values : list js_value) : option (list js_value * list js_value) :=
  let n := (2 * Z.to_nat num_properties)%nat in
  if Z.of_nat (length values) / 2 <? num_properties then None
  else Some (drop (length values - n) values, take (length values - n) values).

Fixpoint read_legacy (fuel : nat) (values : list js_value) : R D (list js_value) :=
  match fuel with
  | O => throws
  | S fuel => fun s =>
      match PeekTag (position_ s) with
      | None => (Just values, s)
      | Some tag =>
          if is_tag tag kEndJSObject then
            (ConsumeTag;;
             num_properties ← or_throw (GetVarint 32);
             '(data, values) ← or_throw (failing (pop_properties num_properties values));
             object ← allocate NewJSObject;
             or_throw (SetPropertiesFromKeyValuePairs object data);;
             read_legacy fuel (values ++ [Receiver object])) s
          else if is_tag tag kEndSparseJSArray then
            (ConsumeTag;;
             num_properties ← or_throw (GetVarint 32);
             length ← or_throw (GetVarint 32);
             '(data, values) ← or_throw (failing (pop_properties num_properties values));
             array ← allocate (mkReceiver (JSArray HOLEY_ELEMENTS length) [] []);
             or_throw (SetPropertiesFromKeyValuePairs array data);;
             read_legacy fuel (values ++ [Receiver array])) s
          else if is_tag tag kEndDenseJSArray then throw s
          else (new_object ← ReadObject des stack_limit; read_legacy fuel (values ++ [new_object])) s
      end
  end.

Definition ReadObjectUsingEntireBufferForLegacyFormat : R D js_value :=
  b ← get_position;
  values ← read_legacy (S (length b)) [];
  set_position [];;
  match values with [v] => mret v | _ => throw end.
End legacy.

(** [ReadHeader] and [ReadValue] of the API; [supports_legacy] is supports_legacy_wire_format. *)
Definition Deserialize {D} (des : deserializer D) (supports_legacy : bool) (stack : nat) (b : bytes) (heap : js_heap) (d : D) :
    result js_value * rstate D :=
  match ReadHeader b with
  | None => (Nothing, mkR b 0 ∅ heap true d)
  | Some (version, b) =>
      let s := new_deserializer b heap d in
      let des := configure des version false false in
      if (version <? 13) && negb supports_legacy then throw s
      else if version >? 0 then ReadObjectWrapper des stack s
      else ReadObjectUsingEntireBufferForLegacyFormat des stack s
  end.
