(* ===== verification/WriterTheorems.v ===== *)
(** What the serializer writes: the out-of-memory flag, and the bytes of each part. *)
From S2P Require Import Prelude Conversions Engine WireFormat Serializer JSHeap ObjectWriter.

Section writer.
Context {D : Type} (ser : serializer D).

(** ** The flag is never cleared *)

Definition sticky {A} (m : W D A) : Prop := forall s, out_of_memory_ s = true -> out_of_memory_ (m s).2 = true.

Lemma sticky_ret {A} (a : A) : sticky (mret a).
Proof. by intros s. Qed.
Lemma sticky_throws {A} : sticky (throws (A := A) : W D A).
Proof. by intros s. Qed.
Lemma sticky_undefined {A} : sticky (undefined_behaviour (A := A) : W D A).
Proof. by intros s. Qed.
Lemma sticky_bind {A B} (m : W D A) (k : A -> W D B) : sticky m -> (forall a, sticky (k a)) -> sticky (m ≫= k).
Proof.
  intros Hm Hk s Hs. unfold mbind, stateful_bind. specialize (Hm s Hs). destruct (m s) as [[a| | |] s1]; simpl in *; try done. by apply Hk.
Qed.

Lemma sticky_raw b : sticky (WriteRawBytes ser b).
Proof.
  intros s Hs. unfold WriteRawBytes, ExpandBuffer. destruct (_ >? _); [|done]. by destruct (Realloc _ _).
Qed.
Lemma sticky_receiver_at r : sticky (receiver_at r : W D receiver).
Proof. intros s Hs. unfold receiver_at. by destruct (_ !! _). Qed.
Lemma sticky_GetProperty r p : sticky (GetProperty ser r p).
Proof. destruct p; [apply sticky_ret|]. intros s Hs. unfold GetProperty. by destruct (CallGetter _ _ _ _) as [[] ?]. Qed.
Lemma sticky_ToString v : sticky (ObjectToString ser v).
Proof. intros s Hs. unfold ObjectToString. by destruct (ToString _ _ _) as [[] ?]. Qed.
Lemma sticky_assign_id r : sticky (assign_id r : W D (option Z)).
Proof. intros s Hs. unfold assign_id. by destruct (_ !! _). Qed.
Lemma sticky_with_delegate {A} (f : D -> result A * D) : sticky (with_delegate f).
Proof. intros s Hs. unfold with_delegate. by destruct (f _). Qed.
Lemma sticky_Persist id : sticky (Persist id : W D Z).
Proof. by intros s. Qed.
Lemma sticky_check : sticky (ThrowIfOutOfMemory : W D Unit).
Proof. intros s Hs. unfold ThrowIfOutOfMemory. by rewrite Hs. Qed.
End writer.

Create HintDb sticky.
#[export] Hint Resolve sticky_ret sticky_throws sticky_undefined sticky_raw sticky_receiver_at sticky_GetProperty sticky_ToString
  sticky_assign_id sticky_with_delegate sticky_Persist sticky_check : sticky.

(** A success means that memory was found. *)
Definition checked {D A} (m : W D A) : Prop := forall s a s', m s = (Just a, s') -> out_of_memory_ s' = false.

Lemma checked_check {D} : checked (ThrowIfOutOfMemory : W D Unit).
Proof. intros s a s'. unfold ThrowIfOutOfMemory. destruct (out_of_memory_ s) eqn:E; [done|]. intros; by simplify_eq. Qed.
Lemma checked_bind {D A B} (m : W D A) (k : A -> W D B) : (forall a, checked (k a)) -> checked (m ≫= k).
Proof. intros Hk s b s' H. apply bind_inv in H as (a & s1 & _ & H). by eapply Hk. Qed.
Lemma checked_throws {D A} : checked (throws (A := A) : W D A).
Proof. by intros s a s'. Qed.
Lemma checked_undefined {D A} : checked (undefined_behaviour (A := A) : W D A).
Proof. by intros s a s'. Qed.
#[export] Hint Resolve checked_check checked_throws checked_undefined : sticky.

Ltac checked := repeat first
  [ match goal with |- forall _, _ => intros ? end
  | done
  | solve [auto with sticky]
  | apply checked_bind
  | match goal with |- checked (match ?x with _ => _ end) => destruct x end ].

(** Sequences, branches and the operations of the database. *)
Ltac sticky_step :=
  first
    [ match goal with |- forall _, _ => intros ? end
    | done
    | solve [auto with sticky]
    | progress unfold PutTag, PutVarint, PutDouble, PutZigZag, WriteBigIntContents, PutErrorTag
    | apply sticky_bind
    | match goal with |- sticky (match ?x with _ => _ end) => destruct x end
    | match goal with |- sticky (if ?x then _ else _) => destruct x end ].
Ltac sticky := repeat sticky_step.

Section writer.
Context {D : Type} (ser : serializer D).

Lemma sticky_all parts : sticky (WriteAll ser parts).
Proof. induction parts; simpl; sticky. Qed.
Hint Resolve sticky_all : sticky.

Lemma sticky_string string : sticky (PutString ser string).
Proof.
  destruct string; unfold PutString, PutTag, PutVarint; [sticky|].
  intros s Hs. cbv zeta. match goal with |- out_of_memory_ (?m s).2 = true => enough (sticky m) by auto end. sticky.
Qed.
Hint Resolve sticky_string : sticky.

Lemma sticky_WriteHostObject o : sticky (WriteHostObject ser o).
Proof. unfold WriteHostObject, PutTag. sticky. Qed.
Hint Resolve sticky_WriteHostObject : sticky.
Lemma sticky_IsHostObject o : sticky (IsHostObject ser o).
Proof. unfold IsHostObject. sticky. Qed.
Lemma sticky_WriteSharedObject id : sticky (WriteSharedObject ser id).
Proof.
  unfold WriteSharedObject, ThrowDataCloneError, PutTag, PutVarint. sticky.
  intros st Hs. destruct (shared_object_conveyor_ st); [done|]. by destruct (AdoptSharedValueConveyor _).
Qed.
Lemma sticky_wrapper v : sticky (WriteJSPrimitiveWrapper ser v).
Proof. unfold WriteJSPrimitiveWrapper, WriteBigIntContents, PutTag, PutDouble, PutVarint, ThrowDataCloneError. sticky. Qed.
Lemma sticky_array_buffer r b : sticky (WriteJSArrayBuffer ser r b).
Proof. unfold WriteJSArrayBuffer, PutTag, PutVarint, ThrowDataCloneError. sticky. Qed.
Lemma sticky_view o v : sticky (WriteJSArrayBufferView ser o v).
Proof. unfold WriteJSArrayBufferView, buffer_at, PutTag, PutVarint, ThrowDataCloneError. sticky. Qed.
Hint Resolve sticky_IsHostObject sticky_WriteSharedObject sticky_wrapper sticky_array_buffer sticky_view : sticky.

Section parts.
Context (WriteObject : js_value -> W D Unit) (sticky_WriteObject : forall v, sticky (WriteObject v)).
Hint Resolve sticky_WriteObject : sticky.

Lemma sticky_values vs : sticky (WriteValues WriteObject vs).
Proof. induction vs; simpl; sticky. Qed.
Lemma sticky_properties r keys n : sticky (write_properties ser WriteObject r keys n).
Proof. revert n. induction keys; intros n; simpl; sticky. Qed.
Hint Resolve sticky_values sticky_properties : sticky.
Lemma sticky_fast r map ds changed n : sticky (write_fast_properties ser WriteObject r map ds changed n).
Proof. revert changed n. induction ds as [|[key [enum field]] ds IH]; intros changed n; simpl; sticky. Qed.
Lemma sticky_smis o n i : sticky (write_smi_elements ser o n i).
Proof. revert i. induction n; intros i; simpl; unfold WriteSmi, PutTag, PutZigZag; sticky. Qed.
Lemma sticky_doubles o n i : sticky (write_double_elements ser o n i).
Proof. revert i. induction n; intros i; simpl; unfold PutDouble, PutTag; sticky. Qed.
Lemma sticky_packed r old n i : sticky (write_packed_elements WriteObject r old n i).
Proof. revert i. induction n; intros i; cbn [write_packed_elements]; sticky. Qed.
Lemma sticky_slow r n i : sticky (write_elements_slowly ser WriteObject r n i).
Proof. revert i. induction n; intros i; cbn [write_elements_slowly]; unfold PutTag; sticky. Qed.
Hint Resolve sticky_fast sticky_smis sticky_doubles sticky_packed sticky_slow : sticky.
Lemma sticky_WriteJSObject r : sticky (WriteJSObject ser WriteObject r).
Proof. unfold WriteJSObject, WriteJSObjectSlow, WriteJSObjectPropertiesSlow, PutTag, PutVarint. sticky. Qed.
Lemma sticky_WriteJSArray r kind n : sticky (WriteJSArray ser WriteObject r kind n).
Proof. unfold WriteJSArray, WriteJSObjectPropertiesSlow, PutTag, PutVarint. sticky. Qed.
Lemma sticky_WriteJSMap table : sticky (WriteJSMap ser WriteObject table).
Proof. unfold WriteJSMap, PutTag, PutVarint. sticky. Qed.
Lemma sticky_WriteJSSet table : sticky (WriteJSSet ser WriteObject table).
Proof. unfold WriteJSSet, PutTag, PutVarint. sticky. Qed.
Lemma sticky_WriteJSError r o name stack : sticky (WriteJSError ser WriteObject r o name stack).
Proof. unfold WriteJSError, get_of_error, PutErrorTag, PutTag, PutVarint. sticky. Qed.
End parts.

Hint Resolve sticky_WriteJSObject sticky_WriteJSArray sticky_WriteJSMap sticky_WriteJSSet sticky_WriteJSError : sticky.

Lemma sticky_WriteJSReceiver rec r :
  (forall f, rec = Some f -> forall v, sticky (f v)) -> sticky (WriteJSReceiver ser rec r).
Proof.
  intros Hrec. unfold WriteJSReceiver, ThrowDataCloneError, WriteJSDate, WriteJSRegExp, PutTag, PutDouble, PutVarint.
  apply sticky_bind; [sticky|]. intros [entry|]; [sticky|]. apply sticky_bind; [sticky|]. intros o.
  destruct rec as [f|]; [specialize (Hrec f eq_refl)|]; sticky.
Qed.

Lemma sticky_WriteObject stack v : sticky (WriteObject ser stack v).
Proof.
  revert v. induction stack as [|stack IH]; intros v s Hs; cbn [WriteObject]; unfold WriteObjectBody; by rewrite Hs, sticky_check.
Qed.

(** ** A success is a complete write *)

(** The last step of every operation reports the flag. *)
Lemma checked_WriteHostObject o : checked (WriteHostObject ser o).
Proof. unfold WriteHostObject. checked. Qed.
Lemma checked_WriteSharedObject id : checked (WriteSharedObject ser id).
Proof. unfold WriteSharedObject, ThrowDataCloneError. checked. Qed.
Lemma checked_wrapper v : checked (WriteJSPrimitiveWrapper ser v).
Proof. unfold WriteJSPrimitiveWrapper. checked. Qed.
Lemma checked_array_buffer r b : checked (WriteJSArrayBuffer ser r b).
Proof. unfold WriteJSArrayBuffer, ThrowDataCloneError. checked. Qed.
Hint Resolve checked_WriteHostObject checked_WriteSharedObject checked_wrapper checked_array_buffer : sticky.
Lemma checked_view o v : checked (WriteJSArrayBufferView ser o v).
Proof. unfold WriteJSArrayBufferView, ThrowDataCloneError. checked. Qed.
Hint Resolve checked_view : sticky.

Lemma checked_WriteJSReceiver rec r : checked (WriteJSReceiver ser rec r).
Proof.
  unfold WriteJSReceiver, ThrowDataCloneError, WriteJSObject, WriteJSObjectSlow, WriteJSArray, WriteJSMap, WriteJSSet, WriteJSError.
  apply checked_bind. intros [entry|]; [checked|]. apply checked_bind. intros o.
  destruct rec as [f|]; destruct (instance_type o); checked.
Qed.

Hint Resolve checked_WriteJSReceiver : sticky.

Lemma checked_WriteObject stack v : checked (WriteObject ser stack v).
Proof.
  intros s a s'. destruct stack as [|stack]; cbn [WriteObject]; unfold WriteObjectBody, ThrowDataCloneError;
    destruct (out_of_memory_ s); try (by apply checked_check);
    destruct v as [p|b|id|r]; try done; try (destruct p; apply checked_bind; checked); apply checked_bind; checked.
Qed.

(** No failed reservation goes unreported: when [WriteObject] succeeds, memory was
    found for every byte of the value, and once a reservation has failed every further
    call fails and leaves the flag. *)
Theorem out_of_memory_reported stack v s :
  (forall a s', WriteObject ser stack v s = (Just a, s') -> out_of_memory_ s = false /\ out_of_memory_ s' = false) /\
  (out_of_memory_ s = true -> WriteObject ser stack v s = (Nothing, s)).
Proof.
  assert (Hf : out_of_memory_ s = true -> WriteObject ser stack v s = (Nothing, s)).
  { intros Hs. destruct stack; cbn [WriteObject]; unfold WriteObjectBody, ThrowIfOutOfMemory; by rewrite Hs. }
  split; [|done]. intros a s' Hw. split; [|by eapply checked_WriteObject].
  destruct (out_of_memory_ s) eqn:Hs; [|done]. by rewrite Hf in Hw.
Qed.

(** ** The bytes of the parts *)

(** From [s] to [s'] the bytes [b] are appended, and nothing else changes. *)
Definition wrote (s s' : wstate D) (b : bytes) : Prop :=
  buffer_ s' = buffer_ s ++ b /\ id_map_ s' = id_map_ s /\ next_id_ s' = next_id_ s /\ heap_ s' = heap_ s.

Definition puts {A} (s : wstate D) (m : W D A) (b : bytes) : Prop :=
  forall a s', m s = (Just a, s') -> out_of_memory_ s' = false -> wrote s s' b.

Lemma wrote_nil s : wrote s s [].
Proof. unfold wrote. by rewrite app_nil_r. Qed.
Lemma wrote_trans s1 s2 s3 b1 b2 : wrote s1 s2 b1 -> wrote s2 s3 b2 -> wrote s1 s3 (b1 ++ b2).
Proof. intros (? & ? & ? & ?) (? & ? & ? & ?). unfold wrote. rewrite (assoc_L (++)). repeat split; congruence. Qed.

Lemma puts_ret {A} s (a : A) : puts s (mret a) [].
Proof. intros a' s' H _. injection H as <- <-. apply wrote_nil. Qed.

Lemma puts_bind {A B} s (m : W D A) (k : A -> W D B) b1 b2 :
  puts s m b1 -> (forall a, sticky (k a)) -> (forall a s1, wrote s s1 b1 -> puts s1 (k a) b2) -> puts s (m ≫= k) (b1 ++ b2).
Proof.
  intros Hm Hk Hputs b s' H Ho. apply bind_inv in H as (a & s1 & Hm' & Hk').
  assert (out_of_memory_ s1 = false) as Ho1.
  { destruct (out_of_memory_ s1) eqn:E; [|done]. pose proof (Hk a s1 E) as Hs. by rewrite Hk' in Hs; simpl in Hs; rewrite Ho in Hs. }
  specialize (Hm _ _ Hm' Ho1). eapply wrote_trans; [done|]. by eapply Hputs.
Qed.

Lemma puts_raw s b : puts s (WriteRawBytes ser b) b.
Proof.
  intros a s'. unfold WriteRawBytes, ExpandBuffer, wrote. destruct (_ >? _); [destruct (Realloc _ _)|]; intros H Ho; by simplify_eq/=.
Qed.
Lemma puts_check s : puts s ThrowIfOutOfMemory [].
Proof. intros a s'. unfold ThrowIfOutOfMemory. destruct (out_of_memory_ s); [done|]. intros H _; simplify_eq. apply wrote_nil. Qed.
Hint Resolve puts_ret puts_raw puts_check : v8.

Lemma puts_seq {B} s (m : W D Unit) (k : W D B) b1 b2 :
  puts s m b1 -> sticky k -> (forall s1, wrote s s1 b1 -> puts s1 k b2) -> puts s (m;; k) (b1 ++ b2).
Proof. intros Hm Hk Hp. apply puts_bind; auto. Qed.

Lemma puts_checked s (m : W D Unit) b : puts s m b -> puts s (m;; ThrowIfOutOfMemory) b.
Proof. intros Hm. rewrite <- (app_nil_r b). apply puts_seq; [done|auto with sticky|auto with v8]. Qed.

Lemma puts_tag_raw s t b : puts s (PutTag ser t;; WriteRawBytes ser b) (WriteTag t ++ b).
Proof. apply puts_seq; [apply puts_raw|auto with sticky|auto with v8]. Qed.

Lemma puts_string s string : puts s (PutString ser string) (WriteString (Z.of_nat (length (buffer_ s))) string).
Proof.
  destruct string as [chars|chars]; unfold PutString, WriteString, PutTag, PutVarint.
  - unfold WriteOneByteString. repeat (apply puts_seq; [apply puts_raw|sticky|intros ? _]). apply puts_raw.
  - intros a s' H Ho. revert H Ho. cbv zeta.
    match goal with |- ?m s = _ -> _ -> _ => enough (puts s m (WriteString (Z.of_nat (length (buffer_ s))) (TwoByte chars))) by eauto end.
    unfold WriteString, WriteTwoByteString. apply puts_seq; [destruct (_ =? _); auto with v8|sticky|intros ? _].
    repeat (apply puts_seq; [apply puts_raw|sticky|intros ? _]). apply puts_raw.
Qed.

Definition bigint_contents (b : bigint) : bytes := WriteVarint 32 (GetBitfieldForSerialization b) ++ SerializeDigits b.

Lemma puts_bigint s b : puts s (WriteBigIntContents ser b) (bigint_contents b).
Proof. apply puts_seq; [apply puts_raw|sticky|intros ? _]. apply puts_raw. Qed.
End writer.

#[export] Hint Resolve sticky_all sticky_string sticky_WriteHostObject sticky_IsHostObject sticky_WriteSharedObject sticky_wrapper
  sticky_array_buffer sticky_view sticky_values sticky_properties sticky_fast sticky_smis sticky_doubles sticky_packed sticky_slow
  sticky_WriteJSObject sticky_WriteJSArray sticky_WriteJSMap sticky_WriteJSSet sticky_WriteJSError sticky_WriteObject : sticky.
#[export] Hint Resolve checked_check checked_throws checked_undefined checked_WriteHostObject checked_WriteSharedObject checked_wrapper
  checked_array_buffer checked_view checked_WriteJSReceiver checked_WriteObject : sticky.
