(* ===== verification/ObjectGraphs.v ===== *)
(** When a graph of objects is a copy of another.

    [receiver_rel] relates an object of the serializer's heap to the one that is read back:
    the same type, the same enumerable own properties in the same order, and references
    that correspond. [receiver_ok] collects what holds of the objects of a JavaScript heap
    that are data: no getters, in-range internal fields. *)
From S2P Require Import Prelude Conversions Engine WireFormat Serializer JSHeap ObjectWriter ObjectReader.
From Stdlib Require Import Sorting.Sorted.

(** ** Integers as doubles *)

Lemma int_double_fields n : 0 < Z.abs n < 2 ^ 53 ->
  let e := Z.log2 (Z.abs n) in
  0 <= e < 53 /\ 2 ^ e <= Z.abs n < 2 * 2 ^ e /\ 0 <= (Z.abs n - 2 ^ e) * 2 ^ (52 - e) < 2 ^ 52 /\
  int_double n = (if n <? 0 then 1 else 0) * 2 ^ 63 + (e + 1023) * 2 ^ 52 + (Z.abs n - 2 ^ e) * 2 ^ (52 - e).
Proof.
  intros Hn. cbv zeta. pose proof (Z.log2_spec (Z.abs n) ltac:(lia)) as [Hlo Hhi]. pose proof (Z.log2_nonneg (Z.abs n)).
  set (e := Z.log2 (Z.abs n)) in *. rewrite Z.pow_succ_r in Hhi by lia.
  assert (e < 53) by (apply (Z.pow_lt_mono_r_iff 2); lia).
  assert (Hp : 2 ^ 52 = 2 ^ e * 2 ^ (52 - e)) by (rewrite <- Z.pow_add_r by lia; f_equal; lia).
  assert (0 < 2 ^ (52 - e)) by (apply Z.pow_pos_nonneg; lia).
  split; [lia|]. split; [lia|]. split; [rewrite Hp; nia|].
  unfold int_double. destruct (Z.eqb_spec n 0); [lia|]. fold e. destruct (n <? 0); lia.
Qed.

Lemma int_double_bounds n : Z.abs n < 2 ^ 53 -> 0 <= int_double n < 2 ^ 64.
Proof.
  intros Hn. destruct (decide (n = 0)) as [->|]; [done|]. destruct (int_double_fields n ltac:(lia)) as (He & _ & Hf & ->).
  destruct (n <? 0); lia.
Qed.

Lemma int_double_parts n : 0 < Z.abs n < 2 ^ 53 ->
  let e := Z.log2 (Z.abs n) in
  biased (int_double n) = e + 1023 /\ mantissa (int_double n) = (Z.abs n - 2 ^ e) * 2 ^ (52 - e) /\
  int_double n / 2 ^ 63 = (if n <? 0 then 1 else 0).
Proof.
  intros Hn. cbv zeta. destruct (int_double_fields n Hn) as (He & _ & Hf & ->). unfold biased, mantissa.
  set (f := (Z.abs n - 2 ^ Z.log2 (Z.abs n)) * 2 ^ (52 - Z.log2 (Z.abs n))) in *. set (e := Z.log2 (Z.abs n)) in *.
  set (s := if n <? 0 then 1 else 0). assert (0 <= s <= 1) by (unfold s; destruct (n <? 0); lia).
  assert (Hd : (s * 2 ^ 63 + (e + 1023) * 2 ^ 52 + f) / 2 ^ 52 = s * 2 ^ 11 + (e + 1023)).
  { symmetry. apply (Z.div_unique _ _ _ f); lia. }
  split_all.
  - rewrite Hd. symmetry. apply (Z.mod_unique _ _ s); lia.
  - symmetry. apply (Z.mod_unique _ _ (s * 2 ^ 11 + (e + 1023))); lia.
  - symmetry. apply (Z.div_unique _ _ _ ((e + 1023) * 2 ^ 52 + f)); lia.
Qed.

(** An integer below 2^53 is exact. *)
Lemma scaled_int_double n : Z.abs n < 2 ^ 53 -> scaled (int_double n) = n * unit.
Proof.
  intros Hn. destruct (decide (n = 0)) as [->|]; [by vm_compute|].
  pose proof (int_double_bounds n Hn) as Hb. destruct (int_double_fields n ltac:(lia)) as (He & Hlo & Hf & _).
  destruct (int_double_parts n ltac:(lia)) as (Hexp & Hman & Hsign). set (e := Z.log2 (Z.abs n)) in *.
  unfold scaled. rewrite Sign_bits, Significand_biased, Exponent_biased, Hexp, Hman by done.
  destruct (Z.eqb_spec (e + 1023) 0); [lia|].
  replace ((Z.abs n - 2 ^ e) * 2 ^ (52 - e) + 2 ^ 52) with (Z.abs n * 2 ^ (52 - e)).
  2: { replace (2 ^ 52) with (2 ^ e * 2 ^ (52 - e)) by (rewrite <- Z.pow_add_r by lia; f_equal; lia). lia. }
  replace (if int_double n <? 2 ^ 63 then 1 else -1) with (Z.sgn n).
  2: { pose proof (Z.div_mod (int_double n) (2 ^ 63) ltac:(lia)). pose proof (Z.mod_pos_bound (int_double n) (2 ^ 63) ltac:(lia)).
       destruct (Z.ltb_spec n 0), (Z.ltb_spec (int_double n) (2 ^ 63)); lia. }
  unfold unit, kDenormalExponent, kExponentBias, kPhysicalSignificandSize.
  rewrite <- (Z.mul_assoc (Z.sgn n)), <- (Z.mul_assoc (Z.abs n)), (Z.mul_assoc (Z.sgn n)), <- Z.pow_add_r by lia.
  rewrite (Z.mul_comm (Z.sgn n)), Z.abs_sgn. f_equal. f_equal. lia.
Qed.

Lemma trunc_int_double n : Z.abs n < 2 ^ 53 -> trunc (int_double n) = n.
Proof. intros Hn. unfold trunc. rewrite scaled_int_double by done. apply Z.quot_mul. by vm_compute. Qed.

Lemma isnan_int_double n : Z.abs n < 2 ^ 53 -> isnan (int_double n) = false.
Proof.
  intros Hn. destruct (decide (n = 0)) as [->|]; [done|].
  destruct (int_double_parts n ltac:(lia)) as (Hexp & _ & _). destruct (int_double_fields n ltac:(lia)) as (He & _).
  unfold isnan. rewrite IsSpecial_biased, Hexp. destruct (Z.eqb_spec (Z.log2 (Z.abs n) + 1023) 2047); [lia|done].
Qed.

Lemma canonical_int_double n : Z.abs n < 2 ^ 53 -> canonical_double (int_double n) = int_double n.
Proof. intros Hn. unfold canonical_double. by rewrite isnan_int_double. Qed.

Lemma unit_pos : 0 < unit.
Proof. by vm_compute. Qed.

(** ** Keys *)

Lemma ToIntegerIndex_NewNumber i : 0 <= i <= kMaxSafeInteger -> ToIntegerIndex (NewNumber i) = Some i.
Proof.
  intros Hi. unfold NewNumber, kMaxSafeInteger in *. destruct (Z.leb_spec i (2 ^ 31 - 1)); unfold ToIntegerIndex.
  - destruct (Z.ltb_spec i 0); [lia|done].
  - rewrite isnan_int_double by lia. pose proof unit_pos. unfold ge_int, le_int, kMaxSafeInteger.
    rewrite scaled_int_double, trunc_int_double by lia.
    destruct (Z.leb_spec (0 * unit) (i * unit)); [|nia]. destruct (Z.leb_spec (i * unit) ((2 ^ 53 - 1) * unit)); [|nia].
    by rewrite Z.eqb_refl.
Qed.

Lemma PropertyKey_index f i : 0 <= i <= kMaxElementIndex -> PropertyKey f (NewNumber i) = Index i.
Proof.
  intros Hi. unfold PropertyKey. pose proof (ToIntegerIndex_NewNumber i) as He. unfold kMaxElementIndex, kMaxSafeInteger in *.
  rewrite He by lia. unfold NewNumber in *. destruct (i <=? 2 ^ 31 - 1); destruct (Z.leb_spec i (2 ^ 32 - 2)); by try lia.
Qed.

Lemma canonical_NewNumber i : 0 <= i <= kMaxElementIndex -> canonical (NewNumber i) = NewNumber i.
Proof.
  unfold kMaxElementIndex. intros Hi. unfold NewNumber. destruct (_ <=? _); [done|]. simpl. by rewrite canonical_int_double by lia.
Qed.

Lemma NewNumber_ok i : 0 <= i <= kMaxElementIndex -> primitive_ok (NewNumber i).
Proof.
  unfold kMaxElementIndex. intros Hi. unfold NewNumber. destruct (Z.leb_spec i (2 ^ 31 - 1)); simpl; [lia|]. apply int_double_bounds. lia.
Qed.

Lemma chars_canonical s : chars_of (canonical_string s) = chars_of s.
Proof. by destruct s as [|[]]. Qed.

(** Whether a name is an index depends on its characters only. *)
Lemma AsIntegerIndex_chars s t : chars_of s = chars_of t -> AsIntegerIndex s = AsIntegerIndex t.
Proof. unfold AsIntegerIndex. by intros ->. Qed.

Definition is_name (s : flat_string) : Prop := name_key s = Name s.

Lemma is_name_chars s t : chars_of s = chars_of t -> is_name s -> is_name t.
Proof.
  unfold is_name, name_key. intros He. rewrite (AsIntegerIndex_chars s t He).
  destruct (AsIntegerIndex t) as [i|]; [destruct (i <=? kMaxElementIndex)|]; by try done.
Qed.

(** The data of a key, for comparisons. *)
Definition norm_key (k : property_key) : Z + list Z :=
  match k with Index i => inl i | Name s => inr (chars_of s) end.

(** ** Own properties *)

Lemma find_element_None i l : i ∉ l.*1 -> find_element i l = None.
Proof.
  induction l as [|[j p] l IH]; intros Hi; cbn; [done|]. rewrite fmap_cons, not_elem_of_cons in Hi. destruct Hi as [Hi ?].
  simpl in Hi. destruct (Z.eqb_spec i j); [done|auto].
Qed.

Lemma find_element_Some i p l : NoDup l.*1 -> (i, p) ∈ l -> find_element i l = Some p.
Proof.
  induction l as [|[j q] l IH]; intros Hd Hi; [by apply elem_of_nil in Hi|]. rewrite fmap_cons in Hd. apply NoDup_cons in Hd as [Hj Hd].
  cbn. apply elem_of_cons in Hi as [Hi|Hi]; [simplify_eq; by rewrite Z.eqb_refl|].
  destruct (Z.eqb_spec i j) as [->|]; [|auto]. destruct Hj. by apply (list_elem_of_fmap_2 fst) in Hi.
Qed.

Lemma find_named_None s l : chars_of s ∉ (chars_of ∘ fst <$> l) -> find_named s l = None.
Proof.
  induction l as [|[t p] l IH]; intros Hi; cbn; [done|]. rewrite fmap_cons, not_elem_of_cons in Hi. destruct Hi as [Hi ?].
  rewrite decide_False; auto.
Qed.

Lemma find_named_Some s p l : NoDup (chars_of ∘ fst <$> l) -> (s, p) ∈ l -> find_named s l = Some p.
Proof.
  induction l as [|[t q] l IH]; intros Hd Hi; [by apply elem_of_nil in Hi|]. rewrite fmap_cons in Hd. apply NoDup_cons in Hd as [Hj Hd].
  cbn. apply elem_of_cons in Hi as [Hi|Hi]; [simplify_eq; by rewrite decide_True|].
  case_decide as E; [|auto]. destruct Hj. apply (list_elem_of_fmap_2 (chars_of ∘ fst)) in Hi. simpl in *. by rewrite <- E.
Qed.

Lemma find_element_insert i j p l : i <> j -> find_element i l = None -> find_element i (insert_element j p l) = None.
Proof.
  intros Hij. induction l as [|[k q] l IH]; cbn; intros Hf.
  - destruct (Z.eqb_spec i j); [done|done].
  - destruct (Z.eqb_spec i k) as [|Hik]; [done|]. destruct (j <? k); cbn.
    + destruct (Z.eqb_spec i j); [done|]. by destruct (Z.eqb_spec i k).
    + destruct (Z.eqb_spec i k); [done|auto].
Qed.

Lemma find_named_app s l1 l2 : find_named s l1 = None -> find_named s (l1 ++ l2) = find_named s l2.
Proof. induction l1 as [|[t p] l1 IH]; cbn; [done|]. case_decide; [done|auto]. Qed.

(** Defining a property does not define another. *)
Lemma own_lookup_define k v o k2 :
  norm_key k <> norm_key k2 -> own_lookup o k2 = None -> own_lookup (define_own k v o) k2 = None.
Proof.
  destruct k as [i|s], k2 as [j|t]; cbn [own_lookup define_own instance_type elements named norm_key]; intros Hk Hf.
  - apply find_element_insert; [congruence|done].
  - destruct (instance_type o); try done. by case_decide.
  - done.
  - assert (chars_of t <> chars_of s) as Ht by congruence.
    assert (forall l, find_named t l = None -> find_named t (l ++ [(s, mkProperty true (Data v))]) = None) as Hl.
    { intros l Hl. rewrite find_named_app by done. cbn. by rewrite decide_False. }
    destruct (instance_type o); try (by apply Hl). case_decide; [done|by apply Hl].
Qed.

Lemma insert_element_last i p l : Forall (fun j => j < i) l.*1 -> insert_element i p l = l ++ [(i, p)].
Proof.
  induction l as [|[j q] l IH]; intros Hl; [done|]. rewrite fmap_cons in Hl. apply Forall_cons in Hl as [Hj Hl]. simpl in Hj.
  cbn. destruct (Z.ltb_spec i j); [lia|]. by rewrite IH.
Qed.

(** The object after the properties [kvs] were defined, in order. *)
Definition fill (kvs : list (property_key * js_value)) (o : receiver) : receiver :=
  fold_left (fun o '(k, v) => define_own k v o) kvs o.

Lemma fill_snoc kvs k v o : fill (kvs ++ [(k, v)]) o = define_own k v (fill kvs o).
Proof. unfold fill. by rewrite fold_left_app. Qed.

Lemma own_lookup_fill kvs o k :
  norm_key k ∉ (norm_key ∘ fst <$> kvs) -> own_lookup o k = None -> own_lookup (fill kvs o) k = None.
Proof.
  revert o. induction kvs as [|[k' v] kvs IH]; intros o Hn Ho; [done|]. rewrite fmap_cons, not_elem_of_cons in Hn. destruct Hn as [Hk Hn].
  cbn. apply IH; [done|]. apply own_lookup_define; [|done]. simpl in Hk. congruence.
Qed.

Definition data_property (v : js_value) : own_property := mkProperty true (Data v).

Definition index_entries (l : list (Z * js_value)) : list (property_key * js_value) := (fun '(i, v) => (Index i, v)) <$> l.
Definition name_entries (l : list (flat_string * js_value)) : list (property_key * js_value) := (fun '(s, v) => (Name s, v)) <$> l.

Lemma fill_names l o :
  fill (name_entries l) o =
  mkReceiver (instance_type o) (elements o) (named o ++ ((fun '(s, v) => (s, data_property v)) <$> l)).
Proof.
  revert o. induction l as [|[s v] l IH]; intros [t e n]; unfold fill; cbn; [by rewrite app_nil_r|].
  unfold fill, name_entries in IH. rewrite IH. cbn. by rewrite <- (assoc_L (++)).
Qed.

(** The length of an array covers the indices. *)
Definition covers (t : instance) (i : Z) : Prop := match t with JSArray _ n => i < n | _ => True end.

Lemma fill_indices l o :
  StronglySorted Z.lt ((elements o).*1 ++ l.*1) -> Forall (covers (instance_type o)) l.*1 ->
  fill (index_entries l) o =
  mkReceiver (instance_type o) (elements o ++ ((fun '(i, v) => (i, data_property v)) <$> l)) (named o).
Proof.
  revert o. induction l as [|[i v] l IH]; intros o Hs Hc; [unfold fill; cbn; rewrite app_nil_r; by destruct o|].
  rewrite fmap_cons in Hc. apply Forall_cons in Hc as [Hi Hc]. simpl in Hi.
  assert (He : define_own (Index i) v o = mkReceiver (instance_type o) (elements o ++ [(i, data_property v)]) (named o)).
  { unfold define_own. f_equal.
    - destruct (instance_type o); try done. simpl in Hi. by rewrite Z.max_l by lia.
    - apply insert_element_last. rewrite fmap_cons in Hs. apply Forall_forall. intros j Hj.
      clear - Hs Hj. induction ((elements o).*1) as [|x xs IH]; [by apply elem_of_nil in Hj|].
      inversion Hs as [|?? Hs' Hx]; subst. apply elem_of_cons in Hj as [->|Hj]; [|auto].
      rewrite Forall_app, Forall_cons in Hx. simpl in Hx. tauto. }
  unfold fill, index_entries. rewrite fmap_cons. cbn [fold_left]. fold (index_entries l). change (fold_left _ (index_entries l)) with (fill (index_entries l)).
  rewrite He, IH; cbn [elements instance_type named]; [|by rewrite fmap_app, fmap_cons, <- (assoc_L (++)) in *|done].
  rewrite fmap_cons. by rewrite <- (assoc_L (++)).
Qed.

(** ** Objects that are data *)

Definition bigint_ok (b : bigint) : Prop :=
  Forall (fun d => 0 <= d < 2 ^ 64) (digits b) /\ strip_zeros (digits b) = digits b /\
  Z.of_nat (length (digits b)) <= kMaxBigIntLength /\ (digits b = [] -> sign b = false).

Definition value_ok (v : js_value) : Prop :=
  match v with Prim p => primitive_ok p | BigIntValue b => bigint_ok b | _ => True end.

Definition data_of (p : own_property) : js_value := match what p with Data v => v | Accessor _ => undefined end.

Definition is_data (p : own_property) : Prop := exists v, what p = Data v /\ value_ok v.

Lemma data_of_data p : is_data p -> what p = Data (data_of p) /\ value_ok (data_of p).
Proof. intros (v & Hp & ?). unfold data_of. by rewrite Hp. Qed.

(** Elements in ascending order, names that are no indices and differ, no getters. *)
Definition elements_ok (l : list (Z * own_property)) : Prop :=
  StronglySorted Z.lt l.*1 /\ Forall (fun e => 0 <= e.1 <= kMaxElementIndex /\ is_data e.2) l.
Definition named_ok (l : list (flat_string * own_property)) : Prop :=
  NoDup (chars_of ∘ fst <$> l) /\ Forall (fun e => string_ok e.1 /\ is_name e.1 /\ is_data e.2) l.

Definition is_dense (o : receiver) (n : Z) (element : js_value -> Prop) : Prop :=
  (elements o).*1 = (Z.of_nat <$> seq 0 (Z.to_nat n)) /\ Forall (fun e => enumerable e.2 = true /\ element (data_of e.2)) (elements o).

(** The view is in the bounds of its buffer, and its flags are those of the buffer. *)
Definition view_ok (b : array_buffer) (v : view) : Prop :=
  0 <= byte_offset v /\ 0 <= byte_length v /\ byte_offset v + byte_length v <= buffer_length b /\
  byte_offset v mod element_size (view_tag v) = 0 /\ byte_length v mod element_size (view_tag v) = 0 /\
  (is_length_tracking v = true -> byte_length v = 0 /\ is_resizable_by_js b = true) /\
  is_backed_by_rab v = is_resizable_by_js b && negb (is_shared b).

Definition buffer_ok (b : array_buffer) : Prop :=
  is_shared b = false /\ was_detached b = false /\ bytes_ok (contents b) /\ buffer_length b < 2 ^ 32 /\
  max_byte_length b < 2 ^ 64 /\ buffer_length b <= max_byte_length b /\
  (is_resizable_by_js b = false -> max_byte_length b = buffer_length b) /\
  (is_resizable_by_js b = true -> is_immutable b = false).

Definition string_property (p : property) : Prop := exists s, p = Data (Prim (Str s)) /\ string_ok s.

Definition found_property (o : receiver) (key : flat_string) (inherited : property) : property :=
  match find_named key (named o) with Some p => what p | None => inherited end.

Section copies.
Context {D : Type} (des : deserializer D) (H : js_heap).

Definition instance_ok (o : receiver) : Prop :=
  match instance_type o with
  | JSObject _ _ => elements_ok (elements o) /\ named_ok (named o)
  | JSArray kind n =>
      elements_ok (elements o) /\ named_ok (named o) /\ 0 <= n < 2 ^ 32 /\ Forall (fun i => i < n) (elements o).*1 /\
      (chars_of length_string ∉ (chars_of ∘ fst <$> named o)) /\
      match kind with
      | PACKED_SMI_ELEMENTS => n <= kMaxFixedArrayLength /\ is_dense o n (fun v => exists z, v = Prim (Smi z))
      | PACKED_DOUBLE_ELEMENTS => n <= kMaxFixedArrayLength /\ is_dense o n (fun v => exists d, v = Prim (HeapNumber d))
      | PACKED_ELEMENTS => n <= kMaxFixedArrayLength /\ is_dense o n (fun _ => True)
      | _ => True
      end
  | JSDate d => 0 <= d < 2 ^ 64 /\ TimeClip (canonical_double d) = d
  | JSPrimitiveWrapper v => value_ok v
  | JSRegExp s flags =>
      string_ok s /\ 0 <= flags < 2 ^ kFlagCount /\ VerifyFlags flags = true /\ RegExpCompiles des (canonical_string s) flags = true /\
      (enable_experimental_regexp_engine des = true \/ Z.land flags kLinear = 0)
  | JSMap table =>
      Forall (fun e => value_ok e.1 /\ value_ok e.2) (omap id table) /\ NoDup (identity_of ∘ fst <$> omap id table) /\
      Forall (fun e => normalize_key e.1 = e.1) (omap id table)
  | JSSet table =>
      Forall value_ok (omap id table) /\ NoDup (identity_of <$> omap id table) /\
      Forall (fun e => normalize_key e = e) (omap id table)
  | JSArrayBuffer b =>
      buffer_ok b /\ AllocateBackingStore des (buffer_length b) (max_byte_length b) (is_resizable_by_js b) = true
  | JSArrayBufferView v =>
      exists ob b, H !! view_buffer v = Some ob /\ instance_type ob = JSArrayBuffer b /\ view_ok b v /\
        (view_tag v = kFloat16Array -> js_float16array des = true)
  | JSError name stack =>
      string_property (found_property o (str "name") name) /\
      (exists v, found_property o (str "stack") stack = Data v /\ value_ok v) /\
      (forall v, own_data o (str "message") = Some v -> exists s, v = Prim (Str s) /\ string_ok s) /\
      (forall v, own_data o (str "cause") = Some v -> value_ok v)
  | JSDetachedTypedArray | JSCallable | JSOther => True
  | JSSpecialApiObject _ | JSShared _ => False
  end.

(** ** Corresponding objects *)

Section relation.
Context (ids : gmap ref Z) (im : gmap Z ref).

(** The references that have the same identifier. *)
Definition corr (r r' : ref) : Prop := exists entry, ids !! r = Some entry /\ im !! (entry - 1) = Some r'.

Definition value_rel (v v' : js_value) : Prop :=
  match v, v' with
  | Prim p, Prim p' => p' = canonical p
  | BigIntValue b, BigIntValue b' => b' = b
  | Receiver r, Receiver r' => corr r r'
  | _, _ => False
  end.

Definition property_rel (p p' : own_property) : Prop := exists v', p' = data_property v' /\ value_rel (data_of p) v'.

Definition enumerable_own {K} (l : list (K * own_property)) : list (K * own_property) := filter (fun e => enumerable e.2 = true) l.

Definition elements_rel (l l' : list (Z * own_property)) : Prop :=
  Forall2 (fun e e' => e'.1 = e.1 /\ property_rel e.2 e'.2) (enumerable_own l) l'.
Definition named_rel (l l' : list (flat_string * own_property)) : Prop :=
  Forall2 (fun e e' => chars_of e'.1 = chars_of e.1 /\ property_rel e.2 e'.2) (enumerable_own l) l'.

(** A number is read back as a heap number. *)
Definition wrapper_rel (v v' : js_value) : Prop :=
  match v with Prim (Smi n) => v' = Prim (HeapNumber (int_double n)) | _ => value_rel v v' end.

(** The name that an error is read back with. *)
Definition error_name (name : flat_string) : flat_string :=
  from_option fst (str "Error") (snd <$> list_find (fun p => chars_of p.1 = chars_of name) error_prototypes).

Definition error_rel (o : receiver) (name stack : property) (o' : receiver) : Prop :=
  exists s v,
    found_property o (str "name") name = Data (Prim (Str s)) /\ found_property o (str "stack") stack = Data v /\
    instance_type o' = JSError (Data (Prim (Str (error_name s))))
                         (Data (match v with Prim (Str st) => Prim (Str (canonical_string st)) | _ => undefined end)) /\
    elements o' = [] /\
    exists message cause,
      named o' = message ++ cause /\
      match own_data o (str "message") with
      | Some (Prim (Str m)) => message = [(str "message", mkProperty false (Data (Prim (Str (canonical_string m)))))]
      | _ => message = []
      end /\
      match own_data o (str "cause") with
      | Some c => exists c', cause = [(str "cause", mkProperty false (Data c'))] /\ value_rel c c'
      | None => cause = []
      end.

Definition receiver_rel (o o' : receiver) : Prop :=
  match instance_type o with
  | JSObject _ _ =>
      instance_type o' = JSObject true ordinary /\ elements_rel (elements o) (elements o') /\ named_rel (named o) (named o')
  | JSArray _ n =>
      instance_type o' = JSArray HOLEY_ELEMENTS n /\ elements_rel (elements o) (elements o') /\ named_rel (named o) (named o')
  | JSDate d => o' = mkReceiver (JSDate d) [] []
  | JSPrimitiveWrapper v => exists v', o' = mkReceiver (JSPrimitiveWrapper v') [] [] /\ wrapper_rel v v'
  | JSRegExp s flags => o' = mkReceiver (JSRegExp (canonical_string s) flags) [] []
  | JSMap table =>
      exists l', o' = mkReceiver (JSMap (Some <$> l')) [] [] /\
        Forall2 (fun e e' => value_rel e.1 e'.1 /\ value_rel e.2 e'.2) (omap id table) l'
  | JSSet table =>
      exists l', o' = mkReceiver (JSSet (Some <$> l')) [] [] /\ Forall2 value_rel (omap id table) l'
  | JSArrayBuffer b =>
      o' = mkReceiver (JSArrayBuffer (mkBuffer O (contents b) (max_byte_length b) false (is_resizable_by_js b) (is_immutable b) false)) [] []
  | JSArrayBufferView v =>
      exists r', corr (view_buffer v) r' /\
        o' = mkReceiver (JSArrayBufferView (mkView (view_tag v) r' (byte_offset v) (byte_length v) (is_length_tracking v) (is_backed_by_rab v))) [] []
  | JSError name stack => error_rel o name stack o'
  | _ => False
  end.
End relation.

(** The relations are kept when more objects get identifiers. *)
Section extension.
Context (ids ids2 : gmap ref Z) (im im2 : gmap Z ref) (Hids : ids ⊆ ids2) (Him : im ⊆ im2).

Lemma corr_mono r r' : corr ids im r r' -> corr ids2 im2 r r'.
Proof using Hids Him. intros (e & ? & ?). exists e. eauto using lookup_weaken. Qed.
Hint Resolve corr_mono : core.

Lemma value_rel_mono v v' : value_rel ids im v v' -> value_rel ids2 im2 v v'.
Proof using Hids Him. destruct v, v'; simpl; auto. Qed.
Hint Resolve value_rel_mono : core.

Lemma property_rel_mono p p' : property_rel ids im p p' -> property_rel ids2 im2 p p'.
Proof using Hids Him. intros (v & ? & ?). exists v. auto. Qed.
Hint Resolve property_rel_mono : core.

Lemma receiver_rel_mono o o' : receiver_rel ids im o o' -> receiver_rel ids2 im2 o o'.
Proof using Hids Him.
  unfold receiver_rel, elements_rel, named_rel. destruct (instance_type o) as [| | | |v| | | | | |v|name stack| | |]; try done.
  - intros (? & He & Hn). split_all; [done|eapply Forall2_impl; [exact He|]|eapply Forall2_impl; [exact Hn|]]; intros ?? []; auto.
  - intros (? & He & Hn). split_all; [done|eapply Forall2_impl; [exact He|]|eapply Forall2_impl; [exact Hn|]]; intros ?? []; auto.
  - intros (v' & ? & Hv). exists v'. split; [done|]. unfold wrapper_rel in *. destruct v as [[]| | |]; first [exact Hv|by apply value_rel_mono].
  - intros (l' & ? & Hl). exists l'. split; [done|]. eapply Forall2_impl; [exact Hl|]. intros ?? []; auto.
  - intros (l' & ? & Hl). exists l'. split; [done|]. eapply Forall2_impl; [exact Hl|]. auto.
  - intros (r' & ? & ?). exists r'. auto.
  - intros (s & v & ? & ? & ? & ? & message & cause & ? & Hm & Hc). exists s, v. split_all; try done. exists message, cause. split_all; try done.
    destruct (own_data o (str "cause")); [|done]. destruct Hc as (c' & ? & ?). exists c'. auto.
Qed.
End extension.
End copies.

(** A value that is read back has the same identity only if it had before. *)
Section identities.
Context (ids : gmap ref Z) (im : gmap Z ref).
Hypothesis ids_inj : forall r q e, ids !! r = Some e -> ids !! q = Some e -> r = q.
Hypothesis im_inj : forall i j r, im !! i = Some r -> im !! j = Some r -> i = j.

Lemma identity_canonical p : identity_of (Prim (canonical p)) = identity_of (Prim p).
Proof using Type.
  destruct p as [| | | |n|d|s]; try done; unfold canonical, identity_of, number_bits.
  - f_equal. unfold canonical_double. destruct (isnan d) eqn:E; [|by rewrite ?E].
    destruct (Z.eqb_spec d kSignMask) as [->|]; [by vm_compute in E|]. by vm_compute.
  - by rewrite chars_canonical.
Qed.

Lemma value_rel_identity v w v' w' :
  value_rel ids im v v' -> value_rel ids im w w' -> identity_of v' = identity_of w' -> identity_of v = identity_of w.
Proof using ids_inj im_inj.
  destruct v as [p|b|i|r], v' as [p'|b'|i'|r']; try done; destruct w as [q|c|j|s], w' as [q'|c'|j'|s']; try done; simpl value_rel.
  all: try (intros -> ->; rewrite ?identity_canonical; done).
  all: try (intros -> (e & ? & ?); rewrite ?identity_canonical; destruct p as [| | | | | |]; done).
  all: try (intros (e & ? & ?) ->; rewrite ?identity_canonical; destruct q as [| | | | | |]; done).
  intros (e & He & Hr) (f & Hf & Hs) Hi. injection Hi as ->. cbn. f_equal.
  assert (e = f) as -> by (pose proof (im_inj _ _ _ Hr Hs); lia). by eapply ids_inj.
Qed.
End identities.
