(* ===== verification/ObjectRoundtrip.v ===== *)
(** The round trip of object graphs: what [ReadObject] makes of what [WriteObject] wrote. *)
From S2P Require Import Prelude Conversions Engine WireFormat Serializer JSHeap ObjectWriter ObjectReader WriterTheorems ObjectGraphs.

(** ** The reader on written data *)

Section steps.
Context {E : Type} (des : deserializer E).

(** The state at another position. *)
Definition at_ (t : rstate E) (b : bytes) : rstate E :=
  mkR b (r_next_id_ t) (r_id_map_ t) (r_heap_ t) (has_exception t) (r_delegate_state t).

Lemma at_at t b c : at_ (at_ t b) c = at_ t c.
Proof. done. Qed.
Lemma at_position t : at_ t (position_ t) = t.
Proof. by destruct t. Qed.

Lemma lift_just {A} (f : bytes -> option (A * bytes)) (t : rstate E) a b : f (position_ t) = Some (a, b) -> lift f t = (Just a, at_ t b).
Proof. unfold lift. by intros ->. Qed.

Lemma get_tag (t : rstate E) T b : position_ t = WriteTag T ++ b -> T <> kPadding -> GetTag t = (Just (tag_byte T), at_ t b).
Proof. intros Hp HT. apply lift_just. by rewrite Hp, ReadTag_written. Qed.

Lemma get_varint (t : rstate E) w v b :
  position_ t = WriteVarint w v ++ b -> w ∈ widths -> 0 <= v < 2 ^ w -> bytes_ok b -> GetVarint w t = (Just v, at_ t b).
Proof. intros Hp Hw Hv Hb. apply lift_just. by rewrite Hp, ReadVarint_written. Qed.

Lemma get_double (t : rstate E) d b :
  position_ t = WriteDouble d ++ b -> 0 <= d < 2 ^ 64 -> Z.of_nat (length b) < 2 ^ 32 - 8 ->
  GetDouble t = (Just (canonical_double d), at_ t b).
Proof. intros Hp Hd Hb. apply lift_just. by rewrite Hp, ReadDouble_written. Qed.

Lemma get_raw (t : rstate E) raw b : position_ t = raw ++ b -> GetRawBytes (Z.of_nat (length raw)) t = (Just raw, at_ t b).
Proof. intros Hp. apply lift_just. by rewrite Hp, ReadRawBytes_app. Qed.

Lemma peek_tag (t : rstate E) tag : PeekTag (position_ t) = Some tag -> Peek t = (Just tag, t).
Proof. unfold Peek. by intros ->. Qed.

Lemma PeekTag_app b c tag : PeekTag b = Some tag -> PeekTag (b ++ c) = Some tag.
Proof.
  unfold PeekTag. induction b as [|x b IH]; cbn; [done|]. by destruct (x =? 0); [exact IH|].
Qed.

Lemma PeekTag_written T b : T <> kPadding -> PeekTag (WriteTag T ++ b) = Some (tag_byte T).
Proof. intros HT. unfold PeekTag. by rewrite ReadTag_written. Qed.

Lemma expect_written (t : rstate E) n b :
  position_ t = WriteVarint 32 n ++ b -> 0 <= n < 2 ^ 32 -> bytes_ok b -> expect n t = (Just tt, at_ t b).
Proof.
  intros Hp Hn Hb. unfold expect. erewrite bind_just; [|apply get_varint; eauto with v8]. by rewrite Z.eqb_refl.
Qed.

(** *** Strings, BigInts and tags in the dispatch *)

(** One test of a known tag at a time. *)
End steps.

Ltac tags := repeat match goal with
  | |- context [is_tag (tag_byte ?a) ?b] =>
      let v := eval vm_compute in (is_tag (tag_byte a) b) in change (is_tag (tag_byte a) b) with v
  end; cbv beta iota zeta delta [orb andb].

Section steps.
Context {E : Type} (des : deserializer E).

Lemma body_other (rec : R E js_value) t v t' :
  ReadObjectInternal des rec t = (Just v, t') ->
  (forall r, v = Receiver r -> is_array_buffer r t' = true -> PeekTag (position_ t') <> Some (tag_byte kArrayBufferView)) ->
  ReadObjectBody des rec t = (Just v, t').
Proof.
  intros Hi Hv. unfold ReadObjectBody. rewrite Hi. destruct v as [| | |r]; try done.
  destruct (is_array_buffer r t') eqn:Eb; [|done]. specialize (Hv r eq_refl Eb). by rewrite bool_decide_false.
Qed.

Lemma read_string (rec : R E js_value) t (string : flat_string) n rest :
  position_ t = WriteString n string ++ rest -> string_ok string -> bytes_ok rest ->
  ReadObjectBody des rec t = (Just (Prim (Str (canonical_string string))), at_ t rest).
Proof.
  intros Hp Hs Hr. apply body_other; [|done]. unfold ReadObjectInternal. destruct string as [chars|chars]; unfold WriteString in Hp.
  - rewrite <- (assoc_L (++)) in Hp. erewrite bind_just; [|by apply get_tag]. tags.
    erewrite bind_just; [|apply lift_just; by apply ReadOneByteString_written]. done.
  - rewrite <- !(assoc_L (++)) in Hp. erewrite bind_just; [|apply lift_just].
    2: { rewrite Hp. instantiate (1 := WriteTwoByteString chars ++ rest). instantiate (1 := tag_byte kTwoByteString). by case_match. }
    tags. erewrite bind_just; [|apply lift_just; by apply ReadTwoByteString_written]. done.
Qed.

Lemma strip_zeros_nil l : strip_zeros l = l -> l = [] \/ strip_zeros l <> [].
Proof. destruct l; [by left|]. intros ->. by right. Qed.

Lemma SerializeDigits_length b : length (SerializeDigits b) = (length (digits b) * 8)%nat.
Proof. unfold SerializeDigits. induction (digits b) as [|d l IH]; [done|]. rewrite bind_cons, length_app, le_bytes_length, IH. simpl. lia. Qed.

Lemma digits_of_serialized l : Forall (fun d => 0 <= d < 2 ^ 64) l -> digits_of (length l) (l ≫= le_bytes 8) = l.
Proof.
  induction 1 as [|d l Hd _ IH]; [done|]. rewrite bind_cons. cbn [digits_of length].
  rewrite take_app_length', drop_app_length' by (by rewrite le_bytes_length). rewrite IH. f_equal. by apply le_value_bytes.
Qed.

Lemma bitfield_fields s n : 0 <= n < 2 ^ 31 ->
  let f := Z.lor (Z.b2z s) (wrap 32 (Z.shiftl (wrap 32 n) 1)) in
  0 <= f < 2 ^ 32 /\ Z.shiftr f 1 = n /\ Z.testbit f 0 = s.
Proof.
  intros Hn. cbv zeta. unfold wrap. rewrite Z.shiftl_mul_pow2, !Z.mod_small by (rewrite ?Z.mod_small; lia).
  rewrite lor_disjoint by (destruct s; simpl; lia). change (2 ^ 1) with 2. rewrite Z.shiftr_div_pow2 by lia. change (2 ^ 1) with 2.
  split; [destruct s; simpl; lia|]. split; [symmetry; apply (Z.div_unique _ _ _ (Z.b2z s)); destruct s; simpl; lia|].
  rewrite Z.bit0_odd, (Z.mul_comm n 2), Z.odd_add_mul_2. by destruct s.
Qed.

Lemma read_bigint (t : rstate E) b rest :
  position_ t = bigint_contents b ++ rest -> bigint_ok b -> bytes_ok rest -> ReadBigInt t = (Just b, at_ t rest).
Proof.
  intros Hp (Hd & Hz & Hl & Hs) Hr. unfold bigint_contents in Hp. rewrite <- (assoc_L (++)) in Hp. unfold kMaxBigIntLength in Hl.
  assert (Z.of_nat (length (digits b)) <= 16777215) as Hl' by exact Hl. clear Hl.
  destruct (bitfield_fields (sign b) (Z.of_nat (length (digits b)) * 8)) as (Hf & Hsh & Hb); [lia|].
  fold (GetBitfieldForSerialization b) in Hf, Hsh, Hb.
  assert (bytes_ok (SerializeDigits b)).
  { unfold SerializeDigits. clear. induction (digits b) as [|d l IH]; [constructor|]. rewrite bind_cons. apply Forall_app. split; [apply le_bytes_ok|done]. }
  unfold ReadBigInt. erewrite bind_just.
  2: { eapply get_varint; [exact Hp|auto with v8|exact Hf|by apply Forall_app]. }
  unfold DigitsByteLengthForBitfield. rewrite Hsh.
  replace (Z.of_nat (length (digits b)) * 8) with (Z.of_nat (length (SerializeDigits b))) by (rewrite SerializeDigits_length; lia).
  erewrite bind_just; [|by apply get_raw]. unfold outcome, FromSerializedDigits. rewrite Hsh, Hb.
  replace ((Z.of_nat (length (digits b)) * 8 + 8 - 1) / 8) with (Z.of_nat (length (digits b))).
  2: { apply (Z.div_unique _ _ _ 7); lia. }
  assert ((Z.of_nat (length (digits b)) =? 0) && sign b = false) as ->.
  { destruct (digits b) eqn:El; [by rewrite Hs|]. done. }
  destruct (Z.gtb_spec (Z.of_nat (length (digits b))) kMaxBigIntLength) as [Hk|]; [unfold kMaxBigIntLength in Hk; change ((2 ^ 30 - 1) / 64) with 16777215 in Hk; lia|].
  rewrite Nat2Z.id. unfold SerializeDigits. rewrite digits_of_serialized by done. unfold Canonicalize. simpl digits. simpl sign. rewrite Hz.
  rewrite at_at. f_equal. f_equal. destruct b as [s l]. simpl in *. destruct l; [by rewrite Hs|done].
Qed.
End steps.

(** ** Serializer and deserializer side by side *)

Section matching.
Context {D E : Type} (H : js_heap).

Definition not_buffer (o : receiver) : Prop := array_buffer_of o = None.

(** Identifiers count the receivers met so far. *)
Record ids_ok (s : wstate D) : Prop := {
  ids_count : next_id_ s = Z.of_nat (size (id_map_ s));
  ids_range r e : id_map_ s !! r = Some e -> (r < length H)%nat /\ 1 <= e <= next_id_ s;
  ids_inj r q e : id_map_ s !! r = Some e -> id_map_ s !! q = Some e -> r = q;
}.

(** The same identifiers on both sides; each object but those of [O], which are being
    written, has been copied. *)
Record matches (O : list ref) (s : wstate D) (t : rstate E) : Prop := {
  m_ids : ids_ok s;
  m_next : r_next_id_ t = next_id_ s;
  m_range i r' : r_id_map_ t !! i = Some r' -> 0 <= i < next_id_ s /\ (r' < length (r_heap_ t))%nat;
  m_inj i j r' : r_id_map_ t !! i = Some r' -> r_id_map_ t !! j = Some r' -> i = j;
  m_defined r e : id_map_ s !! r = Some e -> is_Some (r_id_map_ t !! (e - 1));
  m_closed r r' : r ∉ O -> corr (id_map_ s) (r_id_map_ t) r r' ->
    exists o o', H !! r = Some o /\ r_heap_ t !! r' = Some o' /\ receiver_rel (id_map_ s) (r_id_map_ t) o o';
  m_open_ids r : r ∈ O -> is_Some (id_map_ s !! r);
  m_open r r' : r ∈ O -> corr (id_map_ s) (r_id_map_ t) r r' -> exists o o', H !! r = Some o /\ r_heap_ t !! r' = Some o' /\ not_buffer o /\ not_buffer o';
}.

(** Nothing that was in the heap changed. *)
Definition frame (h h' : js_heap) : Prop := forall q o, h !! q = Some o -> h' !! q = Some o.

Lemma frame_refl h : frame h h.
Proof. by intros q. Qed.
Lemma frame_trans h1 h2 h3 : frame h1 h2 -> frame h2 h3 -> frame h1 h3.
Proof. unfold frame. auto. Qed.
Lemma frame_app h l : frame h (h ++ l).
Proof. intros q o Hq. by apply lookup_app_l_Some. Qed.
Lemma frame_length h h' : frame h h' -> (length h <= length h')%nat.
Proof.
  intros Hf. destruct h as [|o h]; [simpl; lia|]. destruct (lookup_lt_is_Some_2 (o :: h) (length h)) as [x Hx]; [simpl; lia|].
  apply Hf, lookup_lt_Some in Hx. simpl. lia.
Qed.
Lemma frame_insert h h' r o : frame h h' -> (length h <= r)%nat -> frame h (<[r := o]> h').
Proof.
  intros Hf Hr q x Hq. pose proof (lookup_lt_Some _ _ _ Hq). rewrite list_lookup_insert_ne by lia. auto.
Qed.

Lemma matches_wrote O s s' t b : wrote s s' b -> matches O s t -> matches O s' t.
Proof.
  intros (_ & Hi & Hn & _) [[? ? ?] ? ? ? ? ? ? ?]. split; rewrite ?Hi, ?Hn; auto. split; rewrite ?Hi, ?Hn; auto.
Qed.

Lemma ids_ok_wrote s s' b : wrote s s' b -> ids_ok s -> ids_ok s'.
Proof. intros (_ & Hi & Hn & _) [? ? ?]. split; rewrite ?Hi, ?Hn; auto. Qed.

Lemma matches_at O s t b : matches O s t -> matches O s (at_ t b).
Proof. intros [? ? ? ? ? ? ? ?]. split; auto. Qed.

(** A new receiver: its identifier on both sides, and an object for it. *)
Definition assigned (r : ref) (s : wstate D) : wstate D :=
  mkW (buffer_ s) (buffer_capacity_ s) (out_of_memory_ s) (<[r := next_id_ s + 1]> (id_map_ s)) (next_id_ s + 1)
    (shared_object_conveyor_ s) (heap_ s) (delegate_state s).
Definition allocated (o' : receiver) (t : rstate E) : rstate E :=
  mkR (position_ t) (r_next_id_ t + 1) (<[r_next_id_ t := length (r_heap_ t)]> (r_id_map_ t)) (r_heap_ t ++ [o'])
    (has_exception t) (r_delegate_state t).

Lemma ids_ok_assigned s r : ids_ok s -> id_map_ s !! r = None -> (r < length H)%nat -> ids_ok (assigned r s).
Proof.
  intros [Hc Hr Hi] Hn Hlt. split; cbn [next_id_ id_map_ assigned].
  - rewrite map_size_insert_None by done. lia.
  - intros q e. destruct (decide (q = r)) as [->|]; [rewrite lookup_insert_eq; intros; simplify_eq; lia|].
    rewrite lookup_insert_ne by done. intros Hq. apply Hr in Hq. lia.
  - intros q q' e. destruct (decide (q = r)) as [->|], (decide (q' = r)) as [->|]; rewrite ?lookup_insert_eq, ?lookup_insert_ne by done; try done.
    + intros ? Hq. apply Hr in Hq. simplify_eq. lia.
    + intros Hq ?. apply Hr in Hq. simplify_eq. lia.
    + apply Hi.
Qed.

Lemma ids_bound s : ids_ok s -> next_id_ s <= Z.of_nat (length H).
Proof.
  intros [Hc Hr _]. rewrite Hc. apply inj_le. rewrite <- size_dom. 
  transitivity (size (list_to_set (seq 0 (length H)) : gset nat)).
  - apply subseteq_size. intros q Hq. apply elem_of_dom in Hq as [e Hq]. apply Hr in Hq as [Hq _].
    apply elem_of_list_to_set, elem_of_seq. lia.
  - rewrite size_list_to_set by apply NoDup_seq. by rewrite length_seq.
Qed.

Lemma ids_bound_new s r : ids_ok s -> id_map_ s !! r = None -> (r < length H)%nat -> next_id_ s + 1 <= Z.of_nat (length H).
Proof. intros Hs Hn Hr. apply (ids_bound (assigned r s)). by apply ids_ok_assigned. Qed.

(** The correspondence after the new receiver. *)
Lemma corr_new O s t r o' : matches O s t -> id_map_ s !! r = None ->
  forall q q', corr (id_map_ (assigned r s)) (r_id_map_ (allocated o' t)) q q' <->
    (q = r /\ q' = length (r_heap_ t)) \/ corr (id_map_ s) (r_id_map_ t) q q'.
Proof.
  intros [[Hc Hr _] Hn Hrange _ _ _ _ _] Hnone q q'. unfold corr. cbn [id_map_ assigned r_id_map_ allocated]. rewrite Hn. split.
  - intros (e & He & Hi). destruct (decide (q = r)) as [->|].
    + rewrite lookup_insert_eq in He. simplify_eq. rewrite Z.add_simpl_r, lookup_insert_eq in Hi. simplify_eq. by left.
    + rewrite lookup_insert_ne in He by done. right. exists e. split; [done|]. pose proof (Hr _ _ He). rewrite lookup_insert_ne in Hi by lia. done.
  - intros [[-> ->]|(e & He & Hi)].
    + exists (next_id_ s + 1). by rewrite lookup_insert_eq, Z.add_simpl_r, lookup_insert_eq.
    + assert (q <> r) by congruence. exists e. rewrite lookup_insert_ne by done. split; [done|]. pose proof (Hr _ _ He).
      rewrite lookup_insert_ne by lia. done.
Qed.

Lemma assigned_extends s r : id_map_ s !! r = None -> id_map_ s ⊆ id_map_ (assigned r s).
Proof. intros Hn. by apply insert_subseteq. Qed.
Lemma allocated_extends O s t o' : matches O s t -> r_id_map_ t ⊆ r_id_map_ (allocated o' t).
Proof.
  intros [_ Hn Hr _ _ _ _ _]. apply insert_subseteq. destruct (r_id_map_ t !! r_next_id_ t) eqn:Ei; [|done]. apply Hr in Ei. lia.
Qed.

(** The new object is open, or it has no parts and is a copy at once. *)
Lemma matches_new O O' s t r o o' :
  matches O s t -> id_map_ s !! r = None -> H !! r = Some o ->
  O' = r :: O /\ not_buffer o /\ not_buffer o' \/
  O' = O /\ receiver_rel (id_map_ (assigned r s)) (r_id_map_ (allocated o' t)) o o' ->
  matches O' (assigned r s) (allocated o' t).
Proof.
  intros Hm Hn Ho HO. pose proof (corr_new O s t r o' Hm Hn) as Hcorr.
  pose proof (assigned_extends s r Hn) as Hsub. pose proof (allocated_extends O s t o' Hm) as Hsub'.
  assert (Hframe : frame (r_heap_ t) (r_heap_ (allocated o' t))) by apply frame_app.
  assert (Hnew : r_heap_ (allocated o' t) !! length (r_heap_ t) = Some o') by (cbn; by rewrite lookup_app_r, Nat.sub_diag by lia).
  destruct Hm as [Hids Hnext Hrange Hinj Hdef Hclosed Hoids Hopen]. split.
  - apply ids_ok_assigned; [done|done|by eapply lookup_lt_Some].
  - cbn. by rewrite Hnext.
  - cbn. intros i q. rewrite length_app. destruct (decide (i = r_next_id_ t)) as [->|]; [rewrite lookup_insert_eq|rewrite lookup_insert_ne by done].
    + intros; simplify_eq. destruct Hids as [Hc _ _]. simpl. lia.
    + intros Hi. apply Hrange in Hi. lia.
  - cbn. intros i j q. destruct (decide (i = r_next_id_ t)) as [->|], (decide (j = r_next_id_ t)) as [->|];
      rewrite ?lookup_insert_eq, ?lookup_insert_ne by done; try done.
    + intros ? Hi. apply Hrange in Hi. simplify_eq. lia.
    + intros Hi ?. apply Hrange in Hi. simplify_eq. lia.
    + apply Hinj.
  - cbn. intros q e. destruct (decide (q = r)) as [->|]; [rewrite lookup_insert_eq|rewrite lookup_insert_ne by done]; intros He.
    + simplify_eq. rewrite Z.add_simpl_r, Hnext, lookup_insert_eq. done.
    + destruct (Hdef _ _ He) as [q' Hq]. exists q'. by eapply lookup_weaken.
  - intros q q' Hq Hc. apply Hcorr in Hc as [[-> ->]|Hc].
    + destruct HO as [(-> & _)|(-> & Hrel)]; [by destruct Hq; left|]. by exists o, o'.
    + destruct (Hclosed q q') as (x & x' & ? & Hx' & ?); [|done|].
      { destruct HO as [(-> & _)|(-> & _)]; [by apply not_elem_of_cons in Hq as []|done]. }
      exists x, x'. split_all; [done|by apply Hframe|]. by eapply receiver_rel_mono.
  - intros q Hq. assert (q = r \/ q ∈ O) as [->|Hq'] by (destruct HO as [(-> & _)|(-> & _)]; [by apply elem_of_cons in Hq|by right]).
    + cbn. by rewrite lookup_insert_eq.
    + destruct (Hoids _ Hq') as [e He]. exists e. by eapply lookup_weaken.
  - intros q q' Hq Hc. apply Hcorr in Hc as [[-> ->]|Hc].
    + destruct HO as [(-> & ? & ?)|(-> & _)]; [by exists o, o'|]. destruct (Hoids _ Hq). congruence.
    + destruct (Hopen q q') as (x & x' & ? & Hx' & ? & ?); [|done|exists x, x'; split_all; try done; by apply Hframe].
      destruct HO as [(-> & _)|(-> & _)]; [|done]. apply elem_of_cons in Hq as [->|]; [|done]. destruct Hc as (e & He & _). congruence.
Qed.

(** An open object is written to. *)
Definition updated (r' : ref) (o' : receiver) (t : rstate E) : rstate E :=
  mkR (position_ t) (r_next_id_ t) (r_id_map_ t) (<[r' := o']> (r_heap_ t)) (has_exception t) (r_delegate_state t).

Lemma corr_inj O s t r q r' q' : matches O s t -> corr (id_map_ s) (r_id_map_ t) r r' -> corr (id_map_ s) (r_id_map_ t) q q' ->
  (r = q <-> r' = q').
Proof.
  intros [[_ _ Hi] _ _ Hinj _ _ _ _] (e & He & Hr) (f & Hf & Hq). split; intros ->; [congruence|].
  pose proof (Hinj _ _ _ Hr Hq). assert (e = f) as -> by lia. by eapply Hi.
Qed.

Lemma matches_updated O s t r r' o' :
  matches (r :: O) s t -> corr (id_map_ s) (r_id_map_ t) r r' -> not_buffer o' -> matches (r :: O) s (updated r' o' t).
Proof.
  intros Hm Hc Hb. pose proof (fun q q' => corr_inj _ _ _ r q r' q' Hm Hc) as Hinj'.
  destruct Hm as [Hids Hnext Hrange Hinj Hdef Hclosed Hoids Hopen]. split; try done; cbn [r_heap_ r_id_map_ updated].
  - intros i q Hi. rewrite length_insert. auto.
  - intros q q' Hq Hcq. destruct (Hclosed q q' Hq Hcq) as (x & x' & ? & Hx' & ?). exists x, x'. split_all; try done.
    rewrite list_lookup_insert_ne; [done|]. intros ->. destruct (Hinj' q q' Hcq) as [_ Hrq]. rewrite <- Hrq in Hq by done. by destruct Hq; left.
  - intros q q' Hq Hcq. destruct (Hopen q q' Hq Hcq) as (x & x' & ? & Hx' & ? & ?).
    destruct (decide (q = r)) as [->|Hne].
    + destruct (Hinj' r q' Hcq) as [Hrq _]. specialize (Hrq eq_refl) as <-. exists x, o'. split_all; try done.
      apply list_lookup_insert_eq. by eapply lookup_lt_Some.
    + exists x, x'. split_all; try done. rewrite list_lookup_insert_ne; [done|]. intros ->. destruct (Hinj' q q' Hcq) as [_ Hrq]. by rewrite Hrq in Hne.
Qed.

(** It is done. *)
Lemma matches_close O s t r r' o o' :
  matches (r :: O) s t -> corr (id_map_ s) (r_id_map_ t) r r' -> H !! r = Some o -> r_heap_ t !! r' = Some o' ->
  receiver_rel (id_map_ s) (r_id_map_ t) o o' -> matches O s t.
Proof.
  intros Hm Hc Ho Ho' Hrel. pose proof (fun q q' => corr_inj _ _ _ r q r' q' Hm Hc) as Hinj'.
  destruct Hm as [Hids Hnext Hrange Hinj Hdef Hclosed Hoids Hopen]. split; try done.
  - intros q q' Hq Hcq. destruct (decide (q = r)) as [->|]; [|apply Hclosed; [by apply not_elem_of_cons|done]].
    destruct (Hinj' r q' Hcq) as [Hrq _]. specialize (Hrq eq_refl) as <-. by exists o, o'.
  - intros q Hq. apply Hoids. by right.
  - intros q q' Hq. apply Hopen. by right.
Qed.

End matching.

(** ** What a value is written as, and what it is read as *)

Section roundtrip.
Context {D E : Type} (ser : serializer D) (des : deserializer E) (H : js_heap).

(** From [s] to [s'] the bytes [b] are appended and receivers may get identifiers. *)
Record written (s s' : wstate D) (b : bytes) : Prop := {
  w_buffer : buffer_ s' = buffer_ s ++ b;
  w_bytes : bytes_ok b;
  w_heap : heap_ s' = H;
  w_sub : id_map_ s ⊆ id_map_ s';
  w_ids : ids_ok H s';
}.

Lemma written_refl s : heap_ s = H -> ids_ok H s -> written s s [].
Proof. intros ? ?. split; [by rewrite app_nil_r|constructor|done|done|done]. Qed.

Lemma written_trans s1 s2 s3 b1 b2 : written s1 s2 b1 -> written s2 s3 b2 -> written s1 s3 (b1 ++ b2).
Proof.
  intros [? ? ? ? ?] [? ? ? ? ?]. split; [by rewrite (assoc_L (++)); congruence|by apply Forall_app|done|by etrans|done].
Qed.

Lemma wrote_written s s' b : wrote s s' b -> bytes_ok b -> heap_ s = H -> ids_ok H s -> written s s' b.
Proof.
  intros Hw Hb Hh Hi. pose proof (ids_ok_wrote _ _ _ _ Hw Hi). destruct Hw as (? & Hids & ? & Hheap).
  split; [done|done|congruence|by rewrite Hids|done].
Qed.

(** The first tag of a value is none of these. *)
Definition end_tags : list SerializationTag :=
  [kArrayBufferView; kEndJSObject; kEndSparseJSArray; kEndDenseJSArray; kEndJSMap; kEndJSSet; kTheHole].
Definition value_start (b : bytes) : Prop := exists tag, PeekTag b = Some tag /\ tag ∉ tag_byte <$> end_tags.

Definition no_view (rest : bytes) : Prop := PeekTag rest <> Some (tag_byte kArrayBufferView).
Definition small (b : bytes) : Prop := Z.of_nat (length b) < 2 ^ 32 - 8.

Lemma value_start_app b rest : value_start b -> value_start (b ++ rest).
Proof. intros (tag & Ht & ?). exists tag. split; [by apply PeekTag_app|done]. Qed.

Lemma value_start_not b T : value_start b -> T ∈ end_tags -> PeekTag b <> Some (tag_byte T).
Proof. intros (tag & -> & Ht) HT [= ->]. apply Ht. by apply list_elem_of_fmap_2. Qed.

Lemma value_start_no_view b rest : value_start b -> no_view (b ++ rest).
Proof. intros Hb. apply (value_start_not _ kArrayBufferView); [by apply value_start_app|by left]. Qed.

Lemma value_start_nonempty b : value_start b -> (0 < length b)%nat.
Proof. destruct b; [by intros (? & ? & _)|simpl; lia]. Qed.

Lemma value_start_tag T b : T ∉ kPadding :: end_tags -> value_start (WriteTag T ++ b).
Proof.
  intros HT. exists (tag_byte T). split; [apply PeekTag_written; set_solver|]. intros Hi. destruct HT. right.
  apply list_elem_of_fmap in Hi as (T' & He & HT'). by destruct T, T'; vm_compute in He.
Qed.

Lemma small_app b rest : small (b ++ rest) -> small rest.
Proof. unfold small. rewrite length_app. lia. Qed.

(** After a read: [rest] is left, and the heap has only grown. *)
Record arrived (O : list ref) (t : rstate E) (s' : wstate D) (rest : bytes) (t' : rstate E) : Prop := {
  a_position : position_ t' = rest;
  a_matches : matches H O s' t';
  a_frame : frame (r_heap_ t) (r_heap_ t');
  a_sub : r_id_map_ t ⊆ r_id_map_ t';
}.

Definition reads (O : list ref) (m : R E js_value) (s s' : wstate D) (b : bytes) (v : js_value) : Prop :=
  forall t rest, matches H O s t -> position_ t = b ++ rest -> bytes_ok rest -> small (b ++ rest) -> no_view rest ->
  exists v' t', m t = (Just v', t') /\ arrived O t s' rest t' /\ value_rel (id_map_ s') (r_id_map_ t') v v'.

(** The stack of the reader is one deeper than the writer's. *)
Definition value_spec (n : nat) : Prop := forall v s s',
  WriteObject ser n v s = (Just tt, s') -> heap_ s = H -> ids_ok H s -> value_ok v ->
  exists b, written s s' b /\ value_start b /\ forall O m, (n < m)%nat -> reads O (ReadObject des m) s s' b v.

(** ** Loops *)

Inductive chain {A} (wi : A -> W D Unit) : list A -> wstate D -> wstate D -> Prop :=
| chain_nil s : chain wi [] s s
| chain_cons a l s s1 s' : wi a s = (Just tt, s1) -> chain wi l s1 s' -> chain wi (a :: l) s s'.

Section loop.
Context {A A' Acc B : Type} (wi : A -> W D Unit) (items : list A) (O : list ref) (ids0 : gmap ref Z) (base : js_heap).
Context (rel : gmap ref Z -> gmap Z ref -> A -> A' -> Prop).
Context (rel_mono : forall ids ids2 im im2 a a', ids ⊆ ids2 -> im ⊆ im2 -> rel ids im a a' -> rel ids2 im2 a a').
(** The state of the loop after the items [pre] gave [done]. *)
Context (I : list A -> list A' -> Acc -> rstate E -> Prop).
Context (L : nat -> Acc -> R E B).

Definition item_spec : Prop := forall pre a post s s',
  items = pre ++ a :: post -> wi a s = (Just tt, s') -> heap_ s = H -> ids_ok H s -> ids0 ⊆ id_map_ s ->
  exists b, written s s' b /\ value_start b /\
  forall t rest done acc,
    matches H O s t -> position_ t = b ++ rest -> bytes_ok rest -> small (b ++ rest) -> no_view rest ->
    frame base (r_heap_ t) -> Forall2 (rel (id_map_ s) (r_id_map_ t)) pre done -> I pre done acc t ->
  exists a' acc' t',
    matches H O s' t' /\ position_ t' = rest /\ r_id_map_ t ⊆ r_id_map_ t' /\ frame base (r_heap_ t') /\
    rel (id_map_ s') (r_id_map_ t') a a' /\ I (pre ++ [a]) (done ++ [a']) acc' t' /\
    forall fuel, L (S fuel) acc t = L fuel acc' t'.

Lemma chain_loop (Hitem : item_spec) pre post s s' :
  items = pre ++ post -> chain wi post s s' -> heap_ s = H -> ids_ok H s -> ids0 ⊆ id_map_ s ->
  exists b, written s s' b /\ (length post <= length b)%nat /\ (b = [] \/ value_start b) /\
  forall t rest done acc,
    matches H O s t -> position_ t = b ++ rest -> bytes_ok rest -> small (b ++ rest) -> no_view rest ->
    frame base (r_heap_ t) -> Forall2 (rel (id_map_ s) (r_id_map_ t)) pre done -> I pre done acc t ->
  exists new acc' t',
    matches H O s' t' /\ position_ t' = rest /\ r_id_map_ t ⊆ r_id_map_ t' /\ frame base (r_heap_ t') /\
    Forall2 (rel (id_map_ s') (r_id_map_ t')) items (done ++ new) /\ I items (done ++ new) acc' t' /\
    forall fuel, L (length post + fuel) acc t = L fuel acc' t'.
Proof using rel_mono.
  intros He Hc. revert pre He. induction Hc as [s|a l s s1 s' Hwi Hc IH]; intros pre He Hheap Hids H0.
  - exists []. split; [by apply written_refl|]. split; [done|]. split; [by left|]. intros t rest done acc Hm Hp _ _ _ Hf Hrel HI.
    exists [], acc, t. rewrite !app_nil_r in *. rewrite He. by split_all.
  - destruct (Hitem _ _ _ _ _ He Hwi Hheap Hids H0) as (b1 & Hw1 & Hs1 & Hr1).
    destruct (IH (pre ++ [a])) as (b2 & Hw2 & Hl2 & Hs2 & Hr2); [by rewrite <- (assoc_L (++))|apply Hw1|apply Hw1|etrans; [exact H0|apply Hw1]|].
    exists (b1 ++ b2). split; [by eapply written_trans|]. pose proof (value_start_nonempty _ Hs1).
    split; [rewrite length_app; simpl; lia|]. split; [right; by apply value_start_app|].
    intros t rest done acc Hm Hp Hrest Hsmall Hnv Hf Hrel HI. rewrite <- (assoc_L (++)) in Hp, Hsmall.
    destruct (Hr1 t (b2 ++ rest) done acc) as (a' & acc1 & t1 & Hm1 & Hp1 & Hsub1 & Hf1 & Hrel1 & HI1 & HL1); try done.
    { apply Forall_app. split; [apply Hw2|done]. }
    { destruct Hs2 as [->|Hs2]; [done|by apply value_start_no_view]. }
    destruct (Hr2 t1 rest (done ++ [a']) acc1) as (new & acc2 & t2 & Hm2 & Hp2 & Hsub2 & Hf2 & Hrel2 & HI2 & HL2); try done.
    { by eapply small_app. }
    { apply Forall2_app; [|by constructor]. eapply Forall2_impl; [exact Hrel|]. intros. eapply rel_mono; [apply Hw1|done|done]. }
    exists (a' :: new), acc2, t2. rewrite <- (assoc_L (++)) in Hrel2, HI2. split_all; try done; [by etrans|].
    intros fuel. simpl. by rewrite HL1, HL2.
Qed.
End loop.
End roundtrip.
