(* ===== verification/ObjectCopies.v ===== *)
(** The round trip of each kind of object, and of graphs. *)
From S2P Require Import Prelude Conversions Engine WireFormat Serializer JSHeap ObjectWriter ObjectReader WriterTheorems ObjectGraphs ObjectRoundtrip.
From Stdlib Require Import Sorting.Sorted.

(** The objects that a delegate can claim. *)
Definition may_be_host (o : receiver) : Prop :=
  match instance_type o with JSObject _ _ | JSError _ _ => True | _ => False end.

(** What the copy of a graph relies on: the heap is data, no object belongs to a host, no
    buffer is transferred, and the data is read in the version it was written in. *)
Record cloning {D E} (ser : serializer D) (des : deserializer E) (H : js_heap) : Prop := {
  c_heap r o : H !! r = Some o -> instance_ok des H o;
  c_size : Z.of_nat (length H) < 2 ^ 32;
  c_host o s : o ∈ H -> may_be_host o -> out_of_memory_ s = false -> IsHostObject ser o s = (Just false, s);
  c_transfer r : array_buffer_transfer_map_ ser !! r = None;
  c_views : treat_array_buffer_views_as_host_objects_ ser = false;
  c_ToString s h : ToString ser (Prim (Str s)) h = (Some s, h);
  c_version : version_ des = kLatestVersion;
}.

(** The handler of a tag. *)
Ltac dispatch Hp := unfold ReadObjectInternal; erewrite bind_just; [|apply get_tag; [exact Hp|done]]; tags.
(** The first operation of the reader, by a lemma. *)
Tactic Notation "step" uconstr(lem) := erewrite bind_just; [|eapply lem].

(** Comparisons of known tags. *)
Ltac known_tags := repeat match goal with
  | |- context [tag_byte ?a =? tag_byte ?b] =>
      let v := eval vm_compute in (tag_byte a =? tag_byte b) in change (tag_byte a =? tag_byte b) with v
  end; cbv beta iota.
(** A tag that starts a value. *)
Ltac starts := apply value_start_tag, (bool_decide_unpack _); by vm_compute.
(** The result of a handler is that of the dispatch. *)
Ltac handler f := erewrite bind_just; [reflexivity|]; unfold f.

Section classes.
Context {D E : Type} (ser : serializer D) (des : deserializer E) (H : js_heap) (C : cloning ser des H).

Definition reads_internal (O : list ref) (m : nat) (s s' : wstate D) (b : bytes) (r : ref) : Prop :=
  forall t rest, matches H O s t -> position_ t = b ++ rest -> bytes_ok rest -> small (b ++ rest) ->
  exists r' t', ReadObjectInternal des (ReadObject des m) t = (Just (Receiver r'), t') /\
    arrived H O t s' rest t' /\ corr (id_map_ s') (r_id_map_ t') r r'.

(** A new receiver [r] of content [o] that is written by [w]. *)
Definition class_spec (n : nat) (w : W D Unit) (r : ref) (o : receiver) : Prop := forall s s',
  w (assigned r s) = (Just tt, s') -> heap_ s = H -> ids_ok H s -> id_map_ s !! r = None -> H !! r = Some o ->
  exists b, written H s s' b /\ value_start b /\ forall O m, (n < m)%nat -> reads_internal O m s s' b r.

(** *** New identifiers *)

Definition bumped (t : rstate E) : rstate E :=
  mkR (position_ t) (r_next_id_ t + 1) (r_id_map_ t) (r_heap_ t) (has_exception t) (r_delegate_state t).

Lemma assign_new (s : wstate D) r : ids_ok H s -> id_map_ s !! r = None -> (r < length H)%nat -> assign_id r s = (Just None, assigned r s).
Proof using C.
  intros Hs Hn Hr. unfold assign_id. rewrite Hn. pose proof (ids_bound_new H s r Hs Hn Hr). pose proof (c_size _ _ _ C).
  destruct Hs as [Hc _ _]. unfold wrap. rewrite Z.mod_small by lia. done.
Qed.

Lemma new_id_fresh O (s : wstate D) (t : rstate E) r b : matches H O s t -> id_map_ s !! r = None -> (r < length H)%nat ->
  new_id (at_ t b) = (Just (r_next_id_ t), at_ (bumped t) b).
Proof using C.
  intros Hm Hn Hr. pose proof (ids_bound_new H s r (m_ids _ _ _ _ Hm) Hn Hr). pose proof (c_size _ _ _ C).
  unfold new_id, wrap. cbn [r_next_id_ at_]. rewrite (m_next _ _ _ _ Hm). destruct (m_ids _ _ _ _ Hm) as [Hc _ _].
  rewrite Z.mod_small by lia. unfold at_, bumped. cbn. by rewrite (m_next _ _ _ _ Hm).
Qed.

Lemma allocate_new (t : rstate E) b o' :
  allocate_with_id (r_next_id_ t) o' (at_ (bumped t) b) = (Just (length (r_heap_ t)), at_ (allocated o' t) b).
Proof using Type. done. Qed.

Lemma corr_assigned O (s : wstate D) (t : rstate E) r o' : matches H O s t -> id_map_ s !! r = None ->
  corr (id_map_ (assigned r s)) (r_id_map_ (allocated o' t)) r (length (r_heap_ t)).
Proof using Type. intros Hm Hn. apply (corr_new H O s t r o' Hm Hn). by left. Qed.

Lemma assigned_written (s : wstate D) r : heap_ s = H -> ids_ok H s -> id_map_ s !! r = None -> (r < length H)%nat -> written H s (assigned r s) [].
Proof using Type.
  intros Hh Hi Hn Hr. split; [by rewrite app_nil_r|constructor|done|by apply assigned_extends|by apply ids_ok_assigned].
Qed.

(** *** Objects without parts *)

Lemma checked_false (w : W D Unit) s s' : checked w -> w s = (Just tt, s') -> out_of_memory_ s' = false.
Proof using Type. eauto. Qed.

(** The bytes [b] may depend on the state. *)
Lemma leaf_spec n (w : W D Unit) r o (b : wstate D -> bytes) :
  checked w -> (forall s, puts s w (b s)) -> (forall s, bytes_ok (b s)) -> (forall s, value_start (b s)) ->
  (forall m O s t rest, (n < m)%nat -> H !! r = Some o -> id_map_ s !! r = None -> matches H O s t ->
     position_ t = b (assigned r s) ++ rest -> bytes_ok rest -> small (b (assigned r s) ++ rest) ->
     exists o', receiver_rel (id_map_ (assigned r s)) (r_id_map_ (allocated o' t)) o o' /\
     ReadObjectInternal des (ReadObject des m) t = (Just (Receiver (length (r_heap_ t))), at_ (allocated o' t) rest)) ->
  class_spec n w r o.
Proof using C.
  intros Hc Hputs Hb Hs Hread s s' Hw Hheap Hids Hn Ho.
  pose proof (checked_false _ _ _ Hc Hw) as Hoom. pose proof (Hputs _ _ _ Hw Hoom) as Hwrote.
  pose proof (lookup_lt_Some _ _ _ Ho) as Hlt. exists (b (assigned r s)). split_all; [|done|].
  - apply (written_trans H _ _ _ [] _ (assigned_written s r Hheap Hids Hn Hlt)). apply wrote_written; [done|done|done|by apply ids_ok_assigned].
  - intros O m Hm t rest Hmt Hp Hrest Hsmall. destruct (Hread m O s t rest Hm Ho Hn Hmt Hp Hrest Hsmall) as (o2 & Hrel & Hres).
    exists (length (r_heap_ t)), (at_ (allocated o2 t) rest). split; [done|]. split.
    + split; [done| |by apply frame_app|by eapply allocated_extends].
      eapply matches_wrote; [done|]. apply matches_at. eapply matches_new; [done|done|done|]. by right.
    + destruct Hwrote as (_ & -> & _). by apply (corr_assigned O).
Qed.

Lemma date_spec n r o d : instance_type o = JSDate d -> class_spec n (WriteJSDate ser d;; ThrowIfOutOfMemory) r o.
Proof using C.
  intros Ht. apply (leaf_spec _ _ _ _ (fun _ => WriteTag kDate ++ WriteDouble d)).
  - apply checked_bind. intros _. apply checked_check.
  - intros s. apply puts_checked, puts_tag_raw.
  - intros _. apply Forall_app. split; [by repeat constructor|apply le_bytes_ok].
  - intros _. starts.
  - intros m O s t rest _ Ho Hn Hm Hp Hrest Hsmall. pose proof (c_heap _ _ _ C _ _ Ho) as Hok. unfold instance_ok in Hok. rewrite Ht in Hok.
    destruct Hok as (Hd & Hclip). exists (mkReceiver (JSDate d) [] []). split; [unfold receiver_rel; by rewrite Ht|].
    rewrite <- (assoc_L (++)) in Hp, Hsmall. dispatch Hp. handler @ReadJSDate.
    step get_double; [|done|done|do 2 (apply small_app in Hsmall); exact Hsmall]. rewrite Hclip.
    rewrite !at_at. step (new_id_fresh O); [|done|done|by eapply lookup_lt_Some]. apply allocate_new.
Qed.

Lemma read_string_value m t (string : flat_string) k rest : (0 < m)%nat ->
  position_ t = WriteString k string ++ rest -> string_ok string -> bytes_ok rest ->
  ReadString des (ReadObject des m) t = (Just (canonical_string string), at_ t rest).
Proof using C.
  intros Hm Hp Hs Hr. unfold ReadString. rewrite (c_version _ _ _ C). change (kLatestVersion <? 12) with false. cbv iota.
  destruct m as [|m]; [lia|]. cbn [ReadObject]. step read_string; [|exact Hp|done|done]. done.
Qed.

(** The part of a wrapper after its tag, and what it is read as. *)
Definition wrapped (n : Z) (v : js_value) : option (SerializationTag * bytes * js_value) :=
  match v with
  | Prim True_ => Some (kTrueObject, [], v)
  | Prim False_ => Some (kFalseObject, [], v)
  | Prim (Smi z) => Some (kNumberObject, WriteDouble (int_double z), Prim (HeapNumber (int_double z)))
  | Prim (HeapNumber d) => Some (kNumberObject, WriteDouble d, Prim (canonical (HeapNumber d)))
  | BigIntValue b => Some (kBigIntObject, bigint_contents b, v)
  | Prim (Str string) => Some (kStringObject, WriteString n string, Prim (Str (canonical_string string)))
  | _ => None
  end.

Lemma failing_spec n (w : W D Unit) r o : (forall s s', w s <> (Just tt, s')) -> class_spec n w r o.
Proof using Type. intros Hw s s' H'. by apply Hw in H'. Qed.

Lemma tag_ok T : bytes_ok (WriteTag T).
Proof using Type. apply Forall_singleton. destruct T; by vm_compute. Qed.

Lemma string_bytes_ok k string : string_ok string -> bytes_ok (WriteString k string).
Proof using Type.
  assert (forall n, bytes_ok (WriteVarint 32 (wrap 32 n))) as Hv.
  { intros n. apply WriteVarint_ok; [lia|]. apply Z.mod_pos_bound. lia. }
  destruct string as [chars|chars]; unfold WriteString, WriteOneByteString, WriteTwoByteString; intros [Hs _].
  - apply Forall_app. split; [by repeat constructor|]. apply Forall_app. split; [apply Hv|done].
  - apply Forall_app. split; [destruct (_ =? _); by repeat constructor|]. apply Forall_app. split; [by repeat constructor|].
    apply Forall_app. split; [apply Hv|apply (two_byte_data_ok chars)].
Qed.

Lemma bigint_bytes_ok b : bigint_ok b -> bytes_ok (bigint_contents b).
Proof using Type.
  intros (_ & _ & Hl & _). apply Forall_app. split.
  - assert (Z.of_nat (length (digits b)) <= 16777215) as Hl' by exact Hl.
    destruct (bitfield_fields (sign b) (Z.of_nat (length (digits b)) * 8)) as (Hf & _); [lia|]. by apply WriteVarint_ok.
  - unfold SerializeDigits. clear. induction (digits b) as [|d l IH]; [constructor|]. rewrite bind_cons. apply Forall_app. split; [apply le_bytes_ok|done].
Qed.

Lemma wrapper_spec n r o v : instance_type o = JSPrimitiveWrapper v -> value_ok v -> class_spec n (WriteJSPrimitiveWrapper ser v) r o.
Proof using C.
  intros Ht Hv. destruct (decide (is_Some (wrapped 0 v))) as [Hw|Ew].
  2: { apply eq_None_not_Some in Ew. apply failing_spec. intros s s'. by destruct v as [[]| | |]. }
  apply (leaf_spec _ _ _ _ (fun s => match wrapped (Z.of_nat (length (buffer_ s)) + 1) v with Some (t, b, _) => WriteTag t ++ b | None => [] end)).
  - apply checked_wrapper.
  - intros s. destruct v as [[| | | |z|d|string]|b| |]; try (by destruct Hw as [? [=]]); unfold WriteJSPrimitiveWrapper; apply puts_checked; cbn [wrapped];
      try apply puts_tag_raw.
    + rewrite app_nil_r. apply puts_raw.
    + rewrite app_nil_r. apply puts_raw.
    + apply puts_seq; [apply puts_raw|auto with sticky|]. intros s1 (Hs1 & _).
      replace (Z.of_nat (length (buffer_ s)) + 1) with (Z.of_nat (length (buffer_ s1))); [apply puts_string|].
      rewrite Hs1, length_app. simpl. lia.
    + apply puts_seq; [apply puts_raw|sticky|]. intros s1 _. apply puts_bigint.
  - intros s. destruct v as [[| | | |z|d|string]|b| |]; try (by destruct Hw as [? [=]]); cbn [wrapped]; apply Forall_app; (split; [by repeat constructor|]);
      first [by constructor|by apply le_bytes_ok|by apply string_bytes_ok|by apply bigint_bytes_ok].
  - intros s. destruct v as [[| | | |z|d|string]|b| |]; try (by destruct Hw as [? [=]]); cbn [wrapped]; starts.
  - intros m O s t rest Hnm Ho Hn Hm Hp Hrest Hsmall.
    destruct (wrapped (Z.of_nat (length (buffer_ (assigned r s))) + 1) v) as [[[T b] v']|] eqn:Ew; [|by destruct Hw as [? Hw], v as [[]| | |]]. clear Hw.
    exists (mkReceiver (JSPrimitiveWrapper v') [] []). split.
    { unfold receiver_rel. rewrite Ht. exists v'. split; [done|]. destruct v as [[| | | |z|d|string]|?| |]; try done; injection Ew as <- <- <-; done. }
    rewrite <- (assoc_L (++)) in Hp, Hsmall.
    assert (forall rec, ReadObjectInternal des rec t = (r' ← ReadJSPrimitiveWrapper des rec (tag_byte T); mret (Receiver r')) (at_ t (b ++ rest))) as ->.
    { intros rec. destruct v as [[| | | |z|d|string]|?| |]; try done; injection Ew as <- <- <-; dispatch Hp; done. }
    handler @ReadJSPrimitiveWrapper. step (new_id_fresh O); [|done|done|by eapply lookup_lt_Some].
    apply small_app in Hsmall. pose proof (small_app _ _ Hsmall).
    erewrite (bind_just _ _ _ v' (at_ (bumped t) rest)); [apply allocate_new|].
    destruct v as [[| | | |z|d|string]|?| |]; try done; injection Ew as <- <- <-; known_tags; try done.
    + step get_double; [|done|apply int_double_bounds; simpl in Hv; lia|done]. by rewrite canonical_int_double by (simpl in Hv; lia).
    + by step get_double.
    + by step read_string_value; [|lia|..].
    + by step read_bigint.
Qed.

Lemma varint_ok w v : w ∈ widths -> 0 <= v < 2 ^ w -> bytes_ok (WriteVarint w v).
Proof using Type. intros Hw Hv. apply WriteVarint_ok; [|done]. by repeat (apply elem_of_cons in Hw as [->|Hw]; [lia|]); apply elem_of_nil in Hw. Qed.

Lemma flags_mask flags : 0 <= flags < 2 ^ kFlagCount -> Z.land flags (wrap 32 (Z.shiftl (2 ^ 32 - 1) kFlagCount)) = 0.
Proof using Type.
  intros Hf. rewrite <- (Z.mod_small flags (2 ^ kFlagCount)), <- Z.land_ones by done. rewrite <- Z.land_assoc. apply Z.land_0_r.
Qed.

(** What is known of an object helps to write it. *)
Lemma class_known n w r o : (instance_ok des H o -> class_spec n w r o) -> class_spec n w r o.
Proof using C. intros Hw s s' ? ? ? ? Ho. apply Hw; [by eapply c_heap|done..]. Qed.

Lemma regexp_spec n r o source flags :
  instance_type o = JSRegExp source flags -> class_spec n (WriteJSRegExp ser source flags;; ThrowIfOutOfMemory) r o.
Proof using C.
  intros Ht. apply class_known. intros Hok. unfold instance_ok in Hok. rewrite Ht in Hok. destruct Hok as (Hs & Hf & Hv & Hcomp & Hexp).
  assert (0 <= flags < 2 ^ 32) by (unfold kFlagCount in Hf; lia).
  apply (leaf_spec _ _ _ _ (fun s => WriteTag kRegExp ++ WriteString (Z.of_nat (length (buffer_ s)) + 1) source ++ WriteVarint 32 flags)).
  - apply checked_bind. intros _. apply checked_check.
  - intros s. apply puts_checked. apply puts_seq; [apply puts_raw|sticky|]. intros s1 (Hs1 & _).
    replace (Z.of_nat (length (buffer_ s)) + 1) with (Z.of_nat (length (buffer_ s1))) by (rewrite Hs1, length_app; simpl; lia).
    apply puts_seq; [apply puts_string|sticky|]. intros s2 _. apply puts_raw.
  - intros s. apply Forall_app. split; [by repeat constructor|]. apply Forall_app. split; [by apply string_bytes_ok|by apply varint_ok; auto with v8].
  - intros s. starts.
  - intros m O s t rest Hnm Ho Hn Hm Hp Hrest Hsmall. exists (mkReceiver (JSRegExp (canonical_string source) flags) [] []).
    split; [unfold receiver_rel; by rewrite Ht|]. rewrite <- !(assoc_L (++)) in Hp. dispatch Hp. handler @ReadJSRegExp.
    step (new_id_fresh O); [|done|done|by eapply lookup_lt_Some].
    step read_string_value; [|lia|done|done|apply Forall_app; split; [by apply varint_ok; auto with v8|done]].
    step get_varint; [|done|auto with v8|done|done]. cbv zeta. rewrite Hv, Hcomp.
    assert (Z.land flags (if enable_experimental_regexp_engine des then wrap 32 (Z.shiftl (2 ^ 32 - 1) kFlagCount)
      else Z.lor (wrap 32 (Z.shiftl (2 ^ 32 - 1) kFlagCount)) kLinear) = 0) as ->.
    { destruct Hexp as [->|Hl]; [by apply flags_mask|]. destruct (enable_experimental_regexp_engine des); [by apply flags_mask|].
      by rewrite Z.land_lor_distr_r, Hl, flags_mask. }
    rewrite !at_at. apply allocate_new.
Qed.

Definition buffer_tag (b : array_buffer) : SerializationTag :=
  if is_resizable_by_js b then kResizableArrayBuffer else if is_immutable b then kImmutableArrayBuffer else kArrayBuffer.
Definition buffer_lengths (b : array_buffer) : bytes :=
  WriteVarint 64 (buffer_length b) ++ (if is_resizable_by_js b then WriteVarint 64 (max_byte_length b) else []).

Definition copied_buffer (b : array_buffer) : receiver :=
  mkReceiver (JSArrayBuffer (mkBuffer 0 (contents b) (max_byte_length b) false (is_resizable_by_js b) (is_immutable b) false)) [] [].

Lemma buffer_lengths_ok b : buffer_ok b -> bytes_ok (buffer_lengths b).
Proof using Type.
  intros (_ & _ & _ & Hlen & Hmax & Hle & _ & _). assert (0 <= buffer_length b) by (unfold buffer_length; lia).
  apply Forall_app. split; [apply varint_ok; [auto with v8|lia]|].
  destruct (is_resizable_by_js b); [apply varint_ok; [auto with v8|lia]|constructor].
Qed.

Lemma read_array_buffer O (s : wstate D) (t : rstate E) r b rest :
  buffer_ok b -> AllocateBackingStore des (buffer_length b) (max_byte_length b) (is_resizable_by_js b) = true ->
  matches H O s t -> id_map_ s !! r = None -> (r < length H)%nat -> bytes_ok rest ->
  ReadJSArrayBuffer des false (is_resizable_by_js b) (negb (is_resizable_by_js b) && is_immutable b) (at_ t (buffer_lengths b ++ contents b ++ rest)) =
  (Just (length (r_heap_ t)), at_ (allocated (copied_buffer b) t) rest).
Proof using C.
  intros Hb Halloc Hm Hn Hr Hrest. pose proof (buffer_lengths_ok b Hb) as Hok.
  destruct Hb as (_ & _ & Hbytes & Hlen & Hmax & Hle & Heq & Himm). assert (0 <= buffer_length b) by (unfold buffer_length; lia).
  unfold ReadJSArrayBuffer. step (new_id_fresh O); [|done..].
  unfold buffer_lengths in *. rewrite <- !(assoc_L (++)). apply Forall_app in Hok as [_ Hok].
  unfold ReadSizeT. step get_varint; [|done|auto with v8|lia|by repeat (apply Forall_app; split)].
  erewrite (bind_just _ _ _ (max_byte_length b) (at_ (bumped t) (contents b ++ rest))).
  2: { destruct (is_resizable_by_js b); [|by rewrite Heq]. rewrite at_at.
       erewrite get_varint; [by rewrite at_at|done|auto with v8|lia|by apply Forall_app]. }
  destruct (Z.gtb_spec (buffer_length b) (max_byte_length b)); [lia|].
  erewrite (bind_just _ _ _ (contents b ++ rest) (at_ (bumped t) (contents b ++ rest))) by done.
  rewrite length_app. destruct (Z.gtb_spec (buffer_length b) (Z.of_nat (length (contents b) + length rest))) as [Hgt|_]; [unfold buffer_length in Hgt; lia|].
  rewrite Halloc. cbn [negb]. step get_raw; [|done]. rewrite at_at.
  replace (negb (is_resizable_by_js b) && is_immutable b) with (is_immutable b); [apply allocate_new|].
  destruct (is_resizable_by_js b); [by rewrite Himm|done].
Qed.

Definition buffer_bytes (b : array_buffer) : bytes := WriteTag (buffer_tag b) ++ buffer_lengths b ++ contents b.

Lemma puts_array_buffer r b s : buffer_ok b -> puts s (WriteJSArrayBuffer ser r b) (buffer_bytes b).
Proof using C.
  intros (Hshared & Hdet & Hbytes & Hlen & _). unfold WriteJSArrayBuffer, buffer_bytes, buffer_tag, buffer_lengths.
  rewrite Hshared, (c_transfer _ _ _ C), Hdet. destruct (Z.gtb_spec (buffer_length b) (2 ^ 32 - 1)); [lia|]. destruct (is_resizable_by_js b).
  - rewrite <- (assoc_L (++)). do 3 (apply puts_seq; [apply puts_raw|sticky|intros ? _]). apply puts_checked, puts_raw.
  - rewrite app_nil_r. do 2 (apply puts_seq; [apply puts_raw|sticky|intros ? _]). apply puts_checked, puts_raw.
Qed.

Lemma array_buffer_written r b s s' : buffer_ok b -> WriteJSArrayBuffer ser r b s = (Just tt, s') -> wrote s s' (buffer_bytes b).
Proof using C. intros Hb Hw. eapply puts_array_buffer; [exact Hb|exact Hw|]. by eapply checked_array_buffer. Qed.

Lemma array_buffer_spec n r o b : instance_type o = JSArrayBuffer b -> class_spec n (WriteJSArrayBuffer ser r b) r o.
Proof using C.
  intros Ht. apply class_known. intros Hok. unfold instance_ok in Hok. rewrite Ht in Hok. destruct Hok as (Hb & Halloc).
  pose proof Hb as (_ & _ & Hbytes & _).
  apply (leaf_spec _ _ _ _ (fun _ => buffer_bytes b)).
  - apply checked_array_buffer.
  - intros s. by apply puts_array_buffer.
  - intros s. apply Forall_app. split; [apply tag_ok|]. apply Forall_app. split; [by apply buffer_lengths_ok|done].
  - intros s. unfold buffer_bytes, buffer_tag. destruct (is_resizable_by_js b); [|destruct (is_immutable b)]; starts.
  - intros m O s t rest Hnm Ho Hn Hm Hp Hrest Hsmall. exists (copied_buffer b).
    split; [unfold receiver_rel; by rewrite Ht|]. unfold buffer_bytes in Hp. rewrite <- !(assoc_L (++)) in Hp.
    transitivity ((r' ← ReadJSArrayBuffer des false (is_resizable_by_js b) (negb (is_resizable_by_js b) && is_immutable b); mret (Receiver r'))
      (at_ t (buffer_lengths b ++ contents b ++ rest))).
    { unfold buffer_tag in Hp. destruct (is_resizable_by_js b); [|destruct (is_immutable b)]; dispatch Hp; done. }
    erewrite bind_just; [reflexivity|]. by eapply read_array_buffer; [..|eapply lookup_lt_Some|].
Qed.
End classes.
