(* ===== verification/ObjectParts.v ===== *)
(** The round trip of primitives and BigInts, and of the keys of properties; then of objects
    with parts: sets, maps, objects and arrays. *)
From S2P Require Import Prelude Conversions Engine WireFormat Serializer JSHeap ObjectWriter ObjectReader WriterTheorems ObjectGraphs ObjectRoundtrip ObjectCopies.
From Stdlib Require Import Sorting.Sorted.

Section primitives.
Context {D E : Type} (ser : serializer D) (des : deserializer E).

(** ** Writing *)

Lemma WriteZigZag_ok n : - 2 ^ 31 <= n < 2 ^ 31 -> bytes_ok (WriteZigZag 32 n).
Proof using Type.
  intros Hn. unfold WriteZigZag. rewrite zigzag_bits by (simpl; lia). apply varint_ok; [auto with v8|].
  by apply zigzag_bounds.
Qed.

Lemma WritePrimitive_ok size p : primitive_ok p -> bytes_ok (WritePrimitive size p).
Proof using Type.
  intros Hp. destruct p as [| | | |z|d|s]; try apply tag_ok; simpl in Hp.
  - apply Forall_app. split; [apply tag_ok|by apply WriteZigZag_ok].
  - apply Forall_app. split; [apply tag_ok|apply le_bytes_ok].
  - by apply string_bytes_ok.
Qed.

Lemma WritePrimitive_start size p : value_start (WritePrimitive size p).
Proof using Type.
  destruct p as [| | | |z|d|[chars|chars]]; try (rewrite <- (app_nil_r (WriteTag _))); try starts.
  unfold WritePrimitive, WriteString. destruct (_ =? _); [starts|]. exists (tag_byte kTwoByteString). split; [done|]. apply (bool_decide_unpack _). by vm_compute.
Qed.

Definition write_primitive (p : primitive) : W D Unit :=
  match p with
  | Smi n => WriteSmi ser n;; ThrowIfOutOfMemory
  | HeapNumber d => WriteHeapNumber ser d;; ThrowIfOutOfMemory
  | Str string => PutString ser string;; ThrowIfOutOfMemory
  | _ => WriteOddball ser p;; ThrowIfOutOfMemory
  end.

Lemma puts_primitive s p : puts s (write_primitive p) (WritePrimitive (Z.of_nat (length (buffer_ s))) p).
Proof using Type.
  destruct p as [| | | |z|d|string]; apply puts_checked; try apply puts_raw; [apply puts_tag_raw|apply puts_tag_raw|apply puts_string].
Qed.

Lemma primitive_wrote stack p s s' : WriteObject ser stack (Prim p) s = (Just tt, s') ->
  wrote s s' (WritePrimitive (Z.of_nat (length (buffer_ s))) p).
Proof using Type.
  intros Hw. pose proof (checked_WriteObject ser stack _ _ _ _ Hw) as Hoom.
  assert (write_primitive p s = (Just tt, s')) as Hp; [|by eapply puts_primitive].
  destruct stack; cbn [WriteObject] in Hw; unfold WriteObjectBody, ThrowIfOutOfMemory in Hw; destruct (out_of_memory_ s); try done; by destruct p.
Qed.

(** ** Reading *)

Lemma read_primitive rec (t : rstate E) size p rest :
  position_ t = WritePrimitive size p ++ rest -> primitive_ok p -> bytes_ok rest -> small rest ->
  ReadObjectBody des rec t = (Just (Prim (canonical p)), at_ t rest).
Proof using Type.
  intros Hp Hok Hrest Hsmall. destruct p as [| | | |z|d|string]; cbn [WritePrimitive] in Hp; [..|by eapply read_string];
    (apply body_other; [|done]); rewrite <- ?(assoc_L (++)) in Hp; dispatch Hp; try done.
  - erewrite bind_just; [|apply lift_just; apply (ReadZigZag_written 32); [auto with v8|done|done]]. by rewrite at_at.
  - by step get_double.
Qed.

(** ** Keys *)

(** Five bytes are enough for a varint, whatever they are. *)
Lemma ReadVarint_some b : (5 < length b)%nat -> exists v rest, ReadVarint 32 b = Some (v, rest).
Proof using Type.
  intros Hl. unfold ReadVarint. cbn [Z.div Z.add]. change (32 / 8 >? 4) with false. change (32 / 8 + 1) with 5. cbv iota.
  destruct (Z.geb_spec 5 (Z.of_nat (length b))); [lia|]. do 5 (destruct b as [|? b]; [simpl in Hl; lia|]). cbn [varint_unrolled].
  change (0 <? 32) with true. change (7 <? 32) with true. change (14 <? 32) with true. change (21 <? 32) with true. change (28 <? 32) with true.
  cbv iota. repeat case_match; eauto.
Qed.

(** The keys that an object is written with. *)
Definition is_key (k : primitive) : Prop :=
  primitive_ok k /\ ((exists i, k = NewNumber i /\ 0 <= i <= kMaxElementIndex) \/ (exists s, k = Str s /\ is_name s)).

Definition same_key (k k' : primitive) : Prop :=
  match k with Str s => exists s', k' = Str s' /\ chars_of s' = chars_of s | _ => k' = k end.

Lemma same_key_canonical k : is_key k -> same_key k (canonical k).
Proof using Type.
  intros [_ [(i & -> & Hi)|(s & -> & _)]].
  - rewrite canonical_NewNumber by done. unfold NewNumber. by destruct (_ <=? _).
  - exists (canonical_string s). split; [done|apply chars_canonical].
Qed.

(** The tag of a key and the varint that follows can be read, and only a string is expected. *)
Lemma key_header keys (t : rstate E) size k rest : position_ t = WritePrimitive size k ++ rest -> is_key k -> bytes_ok rest ->
  exists tag n b c, GetTag t = (Just tag, at_ t b) /\ GetVarint 32 (at_ t b) = (Just n, at_ t c) /\
    forall key d, expected_key des keys tag n (at_ t c) = Some (key, d) -> d = rest /\ same_key k (Str key).
Proof using Type.
  intros Hp [Hok Hk] Hrest. destruct Hk as [(i & -> & Hi)|(s & -> & _)].
  - unfold NewNumber in *. unfold kMaxElementIndex in Hi. destruct (Z.leb_spec i (2 ^ 31 - 1)); cbn [WritePrimitive] in Hp; rewrite <- (assoc_L (++)) in Hp.
    + eexists _, (zigzag i), _, rest. split; [by apply get_tag|]. unfold WriteZigZag in *. rewrite zigzag_bits by (simpl; lia).
      split; [|by intros ??]. erewrite get_varint; [by rewrite at_at|done|auto with v8| |done]. apply zigzag_bounds; simpl; lia.
    + destruct (ReadVarint_some (WriteDouble (int_double i) ++ rest)) as (v & c & Hv).
      { rewrite length_app. unfold WriteDouble. rewrite le_bytes_length. lia. }
      eexists _, v, _, c. split; [by apply get_tag|]. split; [|by intros ??]. unfold GetVarint. by erewrite lift_just.
  - cbn [WritePrimitive] in Hp. destruct s as [chars|chars]; cbn [WriteString] in Hp; destruct Hok as [Hc Hl]; unfold kMaxLength in Hl.
    + rewrite <- (assoc_L (++)) in Hp. eexists _, _, _, (chars ++ rest). split; [by apply get_tag|]. unfold WriteOneByteString, wrap. rewrite Z.mod_small by lia.
      split; [erewrite get_varint; [by rewrite at_at|cbn [position_ at_]; by rewrite <- (assoc_L (++))|auto with v8|lia|by apply Forall_app]|].
      intros key d. unfold expected_key. known_tags. cbn [position_ at_]. rewrite ReadRawBytes_app. cbn.
      destruct (ExpectedTransition _ _ _ _); [|done]. intros ?; simplify_eq. split; [done|]. by exists (OneByte chars).
    + rewrite <- !(assoc_L (++)) in Hp. eexists (tag_byte kTwoByteString), _, (WriteTwoByteString chars ++ rest), (two_byte_data chars ++ rest).
      split; [apply lift_just; rewrite Hp; by case_match|]. unfold WriteTwoByteString, wrap. rewrite Z.mod_small by lia.
      split; [erewrite get_varint; [by rewrite at_at|cbn [position_ at_]; by rewrite <- (assoc_L (++))|auto with v8|lia|]|].
      { apply Forall_app. split; [apply two_byte_data_ok|done]. }
      intros key d. unfold expected_key. known_tags. cbn [position_ at_]. unfold ReadRawTwoBytes.
      destruct (negb _); [done|]. destruct (_ || _); [done|]. rewrite <- two_byte_data_length, Nat2Z.id, take_app_length, drop_app_length, two_bytes_data by done.
      cbn. destruct (ExpectedTransition _ _ _ _); [|done]. intros ?; simplify_eq. split; [done|]. by exists (TwoByte chars).
Qed.

Lemma transition_key keys m (t : rstate E) size k rest : (0 < m)%nat ->
  position_ t = WritePrimitive size k ++ rest -> is_key k -> bytes_ok rest -> small rest ->
  exists k' transition, read_transition_key des (ReadObject des m) keys t = (Just (Prim k', transition), at_ t rest) /\
    same_key k k' /\ (transition = true -> exists s, k' = Str s).
Proof using Type.
  intros Hm Hp Hk Hrest Hsmall. destruct (key_header keys t size k rest Hp Hk Hrest) as (tag & n & b & c & Htag & Hn & Hexp).
  unfold read_transition_key. erewrite bind_just by done. step Htag.
  destruct (expected_key des keys tag n (at_ t c)) as [[key d]|] eqn:Ee.
  - destruct (Hexp _ _ eq_refl) as [-> Hsame]. exists (Str key), true. split; [|split; [done|by exists key]].
    erewrite bind_just; [|exact Hn]. erewrite bind_just by done. by rewrite Ee.
  - exists (canonical k), (from_option (FindTransitionToField des (at_ t rest) keys) false (string_of (Prim (canonical k)))).
    split; [|split; [by apply same_key_canonical|destruct (canonical k); try done; by eexists]].
    erewrite bind_just; [|exact Hn]. erewrite bind_just by done. rewrite Ee. erewrite bind_just by done.
    unfold read_key. destruct m as [|m]; [lia|]. cbn [ReadObject]. erewrite bind_just; [|eapply read_primitive; [exact Hp|apply Hk|done|done]].
    assert (IsValidObjectKey (Prim (canonical k)) = true) as ->; [|done].
    destruct Hk as [_ [(i & -> & _)|(s & -> & _)]]; [|done]. unfold NewNumber. by destruct (_ <=? _).
Qed.
End primitives.

Section parts.
Context {D E : Type} (ser : serializer D) (des : deserializer E) (H : js_heap) (C : cloning ser des H).

Lemma bind_same {S A B} (m m' : stateful S A) (k : A -> stateful S B) s s' : m s = m' s' -> (m ≫= k) s = (m' ≫= k) s'.
Proof using Type. unfold mbind, stateful_bind. by intros ->. Qed.

(** The success of a sequence: its parts had memory. *)
Lemma seq_inv {A B} (m : W D A) (k : A -> W D B) s b s' : (forall a, sticky (k a)) ->
  (m ≫= k) s = (Just b, s') -> out_of_memory_ s' = false ->
  exists a s1, m s = (Just a, s1) /\ out_of_memory_ s1 = false /\ k a s1 = (Just b, s').
Proof using Type.
  intros Hk Hw Ho. apply bind_inv in Hw as (a & s1 & Hm & Hw). exists a, s1. split_all; [done| |done].
  destruct (out_of_memory_ s1) eqn:E1; [|done]. pose proof (Hk a s1 E1) as Hs. rewrite Hw in Hs. simpl in Hs. congruence.
Qed.

Lemma values_chain f vs s s' : WriteValues f vs s = (Just tt, s') -> chain (D := D) f vs s s'.
Proof using Type.
  revert s. induction vs as [|v vs IH]; intros s Hw; cbn in Hw; [injection Hw as ->; constructor|].
  apply bind_inv in Hw as ([] & s1 & Hv & Hw). econstructor; [done|auto].
Qed.

(** The object [r'] that is being filled for [r]. *)
Record opened (ids0 : gmap ref Z) (base : js_heap) (r r' : ref) (o : receiver) (t : rstate E) : Prop := {
  o_corr : corr ids0 (r_id_map_ t) r r';
  o_at : r_heap_ t !! r' = Some o;
  o_new : (length base <= r')%nat;
}.

Lemma opened_arrived ids0 base r r' o O t (s : wstate D) rest t' : opened ids0 base r r' o t -> arrived H O t s rest t' -> opened ids0 base r r' o t'.
Proof using Type.
  intros [Hc Hat Hn] [_ _ Hf Hsub]. split; [by eapply corr_mono|by apply Hf|done].
Qed.

Lemma opened_update ids0 base r r' o O (s : wstate D) t f o' :
  opened ids0 base r r' o t -> matches H (r :: O) s t -> f o = o' -> ids0 ⊆ id_map_ s -> frame base (r_heap_ t) -> not_buffer o' ->
  update r' f t = (Just tt, updated r' o' t) /\ matches H (r :: O) s (updated r' o' t) /\
  frame base (r_heap_ (updated r' o' t)) /\ opened ids0 base r r' o' (updated r' o' t).
Proof using Type.
  intros [Hc Hat Hn] Hm <- Hsub Hf Hb. split_all.
  - unfold update. by rewrite Hat.
  - eapply matches_updated; [done| |done]. by eapply corr_mono.
  - by apply frame_insert.
  - split; [done| |done]. apply list_lookup_insert_eq. by eapply lookup_lt_Some.
Qed.

(** Reading of a value in a loop. *)
Lemma value_item n v s s' : value_spec ser des H n -> WriteObject ser n v s = (Just tt, s') -> heap_ s = H -> ids_ok H s -> value_ok v ->
  exists b, written H s s' b /\ value_start b /\ forall O m, (n < m)%nat -> reads H O (ReadObject des m) s s' b v.
Proof using Type. eauto. Qed.

(** *** Objects that are filled *)

Lemma written_unique (s s' : wstate D) b b' : written H s s' b -> written H s s' b' -> b = b'.
Proof using Type. intros [Hb _ _ _ _] [Hb' _ _ _ _]. rewrite Hb in Hb'. by apply app_inv_head in Hb'. Qed.

(** The bytes [b] are read back for the object [r] when, in a state [P x], [K x] fills [r'] for it. *)
Definition reads_back {X} (ids0 : gmap ref Z) (n : nat) (r : ref) (o : receiver)
    (P : X -> gmap ref Z -> js_heap -> ref -> rstate E -> Prop) (K : X -> nat -> ref -> R E ref) (s s' : wstate D) (b : bytes) : Prop :=
  forall O m x base r' t rest, (n < m)%nat ->
    matches H (r :: O) s t -> position_ t = b ++ rest -> bytes_ok rest -> small (b ++ rest) ->
    frame base (r_heap_ t) -> P x (id_map_ s) base r' t ->
  exists o' t', K x m r' t = (Just r', t') /\ position_ t' = rest /\ matches H (r :: O) s' t' /\
    frame base (r_heap_ t') /\ r_id_map_ t ⊆ r_id_map_ t' /\ opened ids0 base r r' o' t' /\
    receiver_rel (id_map_ s') (r_id_map_ t') o o'.

(** At least [k] bytes are written, and a view does not start there. *)
Definition fills {X} (ids0 : gmap ref Z) (n k : nat) (r : ref) (o : receiver)
    (P : X -> gmap ref Z -> js_heap -> ref -> rstate E -> Prop) (K : X -> nat -> ref -> R E ref) (s s' : wstate D) : Prop :=
  exists b, written H s s' b /\ (k <= length b)%nat /\ (forall rest, no_view (b ++ rest)) /\ reads_back ids0 n r o P K s s' b.

Lemma fills_weaken {X Y} ids0 n k k' r o P K P' K' s s' :
  (k' <= k)%nat -> fills (X := X) ids0 n k r o P K s s' ->
  (forall y base r' m t, P' y (id_map_ s) base r' t -> (k <= length (position_ t))%nat ->
     exists x, P x (id_map_ s) base r' t /\ K' y m r' t = K x m r' t) ->
  fills (X := Y) ids0 n k' r o P' K' s s'.
Proof using Type.
  intros Hk' (b & Hw & Hk & Hnv & Hf) Hweak. exists b. split_all; [done|lia|done|]. intros O m y base r' t rest Hnm Hm Hp Hrest Hsmall Hframe Hy.
  destruct (Hweak y base r' m t Hy) as (x & Hx & ->); [rewrite Hp, length_app; lia|]. by eapply Hf.
Qed.

(** The loop over the items of [r], and what follows it. *)
Lemma loop_fills {A A' Acc B} ids0 n k r o (wi : A -> W D Unit) items (rel : gmap ref Z -> gmap Z ref -> A -> A' -> Prop)
    (I : js_heap -> ref -> list A -> list A' -> Acc -> rstate E -> Prop) (L : nat -> ref -> nat -> Acc -> R E B) fin (Q : nat -> Prop) s s1 s' :
  (forall ids ids2 im im2 a a', ids ⊆ ids2 -> im ⊆ im2 -> rel ids im a a' -> rel ids2 im2 a a') ->
  (forall m O base r', (n < m)%nat -> item_spec H wi items (r :: O) ids0 base rel (I base r') (L m r')) ->
  heap_ s = H -> ids_ok H s -> ids0 ⊆ id_map_ s -> chain wi items s s1 ->
  (heap_ s1 = H -> ids_ok H s1 -> id_map_ s ⊆ id_map_ s1 ->
   fills ids0 n k r o (fun '(fuel, acc, done) ids base r' t => Q fuel /\ I base r' items done acc t /\ Forall2 (rel ids (r_id_map_ t)) items done)
     (fun '(fuel, acc, _) m r' => L m r' fuel acc ≫= fin m r') s1 s') ->
  fills ids0 n (length items + k) r o (fun '(fuel, acc) ids base r' t => Q fuel /\ I base r' [] [] acc t)
    (fun '(fuel, acc) m r' => L m r' (length items + fuel)%nat acc ≫= fin m r') s s'.
Proof using Type.
  intros Hmono Hitem Hheap Hids H0 Hc Hf.
  assert (Hloop := fun m O base r' (Hnm : (n < m)%nat) => chain_loop H wi items (r :: O) ids0 base rel Hmono (I base r') (L m r') (Hitem m O base r' Hnm)
    [] items s s1 eq_refl Hc Hheap Hids H0).
  destruct (Hloop (S n) [] [] 0%nat ltac:(lia)) as (b1 & Hw1 & Hl1 & Hs1 & _).
  destruct Hf as (b2 & Hw2 & Hl2 & Hnv2 & Hf); [apply Hw1..|].
  exists (b1 ++ b2). split; [by eapply written_trans|]. split; [rewrite length_app; lia|].
  split. { intros rest. rewrite <- (assoc_L (++)). destruct Hs1 as [->|Hs1]; [apply Hnv2|by apply value_start_no_view]. }
  intros O m [fuel acc] base r' t rest Hnm Hm Hp Hrest Hsmall Hframe [Hfuel HI]. rewrite <- (assoc_L (++)) in Hp, Hsmall.
  destruct (Hloop m O base r' Hnm) as (b & Hw & _ & _ & Hrun). rewrite (written_unique _ _ _ _ Hw Hw1) in *.
  destruct (Hrun t (b2 ++ rest) [] acc) as (new & acc' & t1 & Hm1 & Hp1 & Hsub1 & Hf1 & Hrel1 & HI1 & HL); try done.
  { apply Forall_app. split; [apply Hw2|done]. }
  destruct (Hf O m (fuel, acc', new) base r' t1 rest) as (o' & t2 & HK & Hp2 & Hm2 & Hf2 & Hsub2 & Ho2 & Hrel2); try done.
  { by eapply small_app. }
  exists o', t2. split_all; try done; [|by etrans]. rewrite <- HK. apply bind_same, HL.
Qed.

(** The end of the object. *)
Lemma tail_fills {X} ids0 n r o (P : X -> gmap ref Z -> js_heap -> ref -> rstate E -> Prop) (K : X -> nat -> ref -> R E ref) e s s' :
  wrote s s' e -> bytes_ok e -> (forall rest, no_view (e ++ rest)) -> heap_ s = H -> ids_ok H s ->
  (forall O m x base r' t rest, (n < m)%nat -> matches H (r :: O) s' t -> position_ t = e ++ rest -> bytes_ok rest ->
     frame base (r_heap_ t) -> P x (id_map_ s') base r' t ->
   exists o' t1, K x m r' t = (Just r', at_ t1 rest) /\ matches H (r :: O) s' t1 /\ frame base (r_heap_ t1) /\
     r_id_map_ t ⊆ r_id_map_ t1 /\ opened ids0 base r r' o' t1 /\ receiver_rel (id_map_ s') (r_id_map_ t1) o o') ->
  fills ids0 n 0 r o P K s s'.
Proof using Type.
  intros Hw He Hnv Hheap Hids Hread. exists e. split_all; [by apply wrote_written|lia|done|].
  intros O m x base r' t rest Hnm Hm Hp Hrest Hsmall Hf HP. pose proof Hw as (_ & Hi & _). rewrite <- Hi in HP.
  destruct (Hread O m x base r' t rest Hnm) as (o' & t1 & HK & Hm1 & Hf1 & Hsub1 & [Hc Hat Hnew] & Hrel); try done.
  { by eapply matches_wrote. }
  exists o', (at_ t1 rest). split_all; try done. by apply matches_at.
Qed.

(** One loop and the end. *)
Lemma looped {X A A' Acc B} ids0 n r o (P : X -> gmap ref Z -> js_heap -> ref -> rstate E -> Prop) (wi : A -> W D Unit) items (rel : gmap ref Z -> gmap Z ref -> A -> A' -> Prop)
    (I : js_heap -> ref -> list A -> list A' -> Acc -> rstate E -> Prop) (L : nat -> ref -> nat -> Acc -> R E B) fin acc0 e s s1 s' :
  (forall ids ids2 im im2 a a', ids ⊆ ids2 -> im ⊆ im2 -> rel ids im a a' -> rel ids2 im2 a a') ->
  (forall m O base r', (n < m)%nat -> item_spec H wi items (r :: O) ids0 base rel (I base r') (L m r')) ->
  heap_ s = H -> ids_ok H s -> ids0 ⊆ id_map_ s -> chain wi items s s1 ->
  wrote s1 s' e -> bytes_ok e -> (forall rest, no_view (e ++ rest)) ->
  (forall x base r' t, P x (id_map_ s) base r' t -> I base r' [] [] acc0 t) ->
  (forall O m base r' done acc t rest fuel, (n < m)%nat -> matches H (r :: O) s' t -> position_ t = e ++ rest -> bytes_ok rest ->
     frame base (r_heap_ t) -> id_map_ s ⊆ id_map_ s' -> I base r' items done acc t -> Forall2 (rel (id_map_ s') (r_id_map_ t)) items done ->
   exists o' t1, (L m r' (S fuel) acc ≫= fin m r') t = (Just r', at_ t1 rest) /\ matches H (r :: O) s' t1 /\ frame base (r_heap_ t1) /\
     r_id_map_ t ⊆ r_id_map_ t1 /\ opened ids0 base r r' o' t1 /\ receiver_rel (id_map_ s') (r_id_map_ t1) o o') ->
  fills ids0 n 0 r o P (fun _ m r' => b ← get_position; L m r' (S (length b)) acc0 ≫= fin m r') s s'.
Proof using Type.
  intros Hmono Hitem Hheap Hids H0 Hc Hw He Hnv Hinit Hend.
  apply (fills_weaken (X := nat * Acc) _ _ (length items + 0) _ _ _ (fun '(fuel, acc) ids base r' t => (0 < fuel)%nat /\ I base r' [] [] acc t)
    (fun '(fuel, acc) m r' => L m r' (length items + fuel)%nat acc ≫= fin m r')); [lia| |].
  - apply (loop_fills ids0 n 0 r o wi items rel I L fin (fun fuel => 0 < fuel)%nat s s1 s'); try done.
    intros Hheap1 Hids1 Hsub1. apply (tail_fills _ _ _ _ _ _ e); try done.
    intros O m [[fuel acc] done] base r' t rest Hnm Hm Hp Hrest Hf (Hfuel & HI & Hrel). destruct fuel as [|fuel]; [lia|].
    assert (id_map_ s ⊆ id_map_ s') by (by destruct Hw as (_ & -> & _)). eapply (Hend O); eauto.
  - intros x base r' m t Ho Hk. exists (S (length (position_ t)) - length items, acc0)%nat. split; [split; [lia|by eapply Hinit]|].
    erewrite bind_just by done. f_equal. f_equal. lia.
Qed.

(** The first bytes are among [heads], and the reader makes [o0] for them. *)
Lemma filled_spec_heads n k (w : W D Unit) r o o0 (heads : bytes -> Prop) (K : nat -> ref -> R E ref) :
  not_buffer o -> not_buffer o0 -> (forall h, heads h -> bytes_ok h /\ value_start h) ->
  (forall s s', w s = (Just tt, s') -> heap_ s = H -> ids_ok H s -> H !! r = Some o ->
     exists s1 h, heads h /\ wrote s s1 h /\ (heap_ s1 = H -> ids_ok H s1 -> id_map_ s ⊆ id_map_ s1 ->
       exists b, written H s1 s' b /\ (k <= length b)%nat /\
         reads_back (X := Unit) (id_map_ s) n r o (fun _ _ base r' t => opened (id_map_ s) base r r' o0 t) (fun _ => K) s1 s' b)) ->
  (forall O (s : wstate D) t h b m, (n < m)%nat -> heads h -> matches H O s t -> id_map_ s !! r = None -> (r < length H)%nat ->
     position_ t = h ++ b -> bytes_ok b -> (k <= length b)%nat ->
     ReadObjectInternal des (ReadObject des m) t =
     (x ← K m (length (r_heap_ t)); mret (Receiver x)) (at_ (allocated o0 t) b)) ->
  class_spec des H n w r o.
Proof using C.
  intros Hb Hb0 Hheads Hwrite Hread s s' Hw Hheap Hids Hn Ho. pose proof (lookup_lt_Some _ _ _ Ho) as Hlt.
  pose proof (assigned_written H s r Hheap Hids Hn Hlt) as Hw0.
  destruct (Hwrite _ _ Hw Hheap ltac:(by apply ids_ok_assigned) Ho) as (s1 & h & Hh & Hw1 & Hfill). destruct (Hheads _ Hh) as [Hhok Hstart].
  pose proof (wrote_written H _ _ _ Hw1 Hhok Hheap ltac:(by apply ids_ok_assigned)) as Hw1'.
  destruct Hfill as (b & Hw2 & Hk & Hfill); [apply Hw1'..|].
  exists (h ++ b). split; [exact (written_trans H _ _ _ [] _ Hw0 (written_trans H _ _ _ _ _ Hw1' Hw2))|].
  split; [by apply value_start_app|]. intros O m Hnm t rest Hm Hp Hrest Hsmall. rewrite <- (assoc_L (++)) in Hp, Hsmall.
  rewrite (Hread O s t h (b ++ rest)); [|done..|apply Forall_app; split; [apply Hw2|done]|rewrite length_app; lia].
  destruct (Hfill O m tt (r_heap_ t) (length (r_heap_ t)) (at_ (allocated o0 t) (b ++ rest)) rest)
    as (o' & t' & HK & Hp' & Hm' & Hf' & Hsub' & Ho' & Hrel); try done.
  { eapply matches_wrote; [exact Hw1|]. apply matches_at. eapply matches_new; [done|done|done|]. by left. }
  { by eapply small_app. }
  { apply frame_app. }
  { split; [by eapply corr_assigned| |done]. cbn. by rewrite lookup_app_r, Nat.sub_diag by lia. }
  assert (corr (id_map_ s') (r_id_map_ t') r (length (r_heap_ t))) as Hc.
  { eapply (corr_mono (id_map_ (assigned r s)) _ (r_id_map_ t')); [etrans; [apply Hw1'|apply Hw2]|done|apply Ho']. }
  exists (length (r_heap_ t)), t'. split; [by erewrite bind_just|]. split; [|done]. split; [done| |done|].
  - eapply matches_close; [exact Hm'|exact Hc|exact Ho|apply Ho'|done].
  - etrans; [exact (allocated_extends H O s t o0 Hm)|exact Hsub'].
Qed.

Lemma filled_spec n k (w : W D Unit) r o o0 h (K : nat -> ref -> R E ref) :
  not_buffer o -> not_buffer o0 -> bytes_ok h -> value_start h ->
  (forall s s', w s = (Just tt, s') -> heap_ s = H -> ids_ok H s -> H !! r = Some o ->
     exists s1, wrote s s1 h /\ (heap_ s1 = H -> ids_ok H s1 -> id_map_ s ⊆ id_map_ s1 ->
       fills (X := Unit) (id_map_ s) n k r o (fun _ _ base r' t => opened (id_map_ s) base r r' o0 t) (fun _ => K) s1 s')) ->
  (forall O (s : wstate D) t b m, (n < m)%nat -> matches H O s t -> id_map_ s !! r = None -> (r < length H)%nat ->
     position_ t = h ++ b -> bytes_ok b -> (k <= length b)%nat ->
     ReadObjectInternal des (ReadObject des m) t =
     (x ← K m (length (r_heap_ t)); mret (Receiver x)) (at_ (allocated o0 t) b)) ->
  class_spec des H n w r o.
Proof using C.
  intros Hb Hb0 Hh Hstart Hwrite Hread. apply (filled_spec_heads n k w r o o0 (fun h' => h' = h) K); [done|done|by intros ? ->| |].
  - intros s s' Hw Hheap Hids Ho. destruct (Hwrite s s' Hw Hheap Hids Ho) as (s1 & Hw1 & Hf). exists s1, h. split_all; [done|done|].
    intros H1 H2 H3. destruct (Hf H1 H2 H3) as (b & ? & ? & _ & ?). by exists b.
  - intros O s t h' b m Hnm ->. by apply Hread.
Qed.

Lemma new_object {A} O (s : wstate D) (t : rstate E) r b o0 (k : ref -> R E A) :
  matches H O s t -> id_map_ s !! r = None -> (r < length H)%nat ->
  (id ← new_id; x ← allocate_with_id id o0; k x) (at_ t b) = k (length (r_heap_ t)) (at_ (allocated o0 t) b).
Proof using C. intros Hm Hn Hr. erewrite bind_just; [|by eapply new_id_fresh]. by erewrite bind_just; [|apply allocate_new]. Qed.

(** *** Sets *)

Lemma set_add_new v l : normalize_key v = v -> identity_of v ∉ (identity_of <$> l) -> set_add v (Some <$> l) = Some <$> (l ++ [v]).
Proof using Type.
  intros Hv. induction l as [|w l IH]; intros Hn; cbn; [by rewrite Hv|]. rewrite fmap_cons, not_elem_of_cons in Hn. destruct Hn as [Hw Hn].
  unfold SameValueZero. rewrite bool_decide_false by done. by rewrite IH.
Qed.

Lemma related_not_in O (s : wstate D) (t : rstate E) pre done a a' :
  matches H O s t -> Forall2 (value_rel (id_map_ s) (r_id_map_ t)) pre done -> value_rel (id_map_ s) (r_id_map_ t) a a' ->
  identity_of a ∉ (identity_of <$> pre) -> identity_of a' ∉ (identity_of <$> done).
Proof using Type.
  intros [[_ _ Hi] _ _ Hinj _ _ _ _] Hall Ha Hn Hin. apply Hn. apply list_elem_of_fmap in Hin as (x' & He & Hx').
  apply list_elem_of_lookup in Hx' as [i Hx']. destruct (Forall2_lookup_r _ _ _ _ _ Hall Hx') as (x & Hx & Hrel).
  rewrite (value_rel_identity (id_map_ s) (r_id_map_ t) Hi Hinj a x a' x' Ha Hrel He). apply list_elem_of_fmap_2. by eapply list_elem_of_lookup_2.
Qed.

Lemma normalized_rel ids im v v' : normalize_key v = v -> value_rel ids im v v' -> normalize_key v' = v'.
Proof using Type.
  intros Hn Hr. destruct v as [[| | | | |d|]|b|i|r], v' as [p'|b'|i'|r']; try done; simpl in Hr; simplify_eq; try done.
  simpl in *. unfold canonical_double. destruct (isnan d); [done|]. by destruct (d =? kSignMask).
Qed.

(** [Some] values are kept as they are by [omap id]. *)
Lemma end_tag_eqb b T : T ∈ end_tags -> value_start b -> forall rest, exists tag, PeekTag (b ++ rest) = Some tag /\ (tag =? tag_byte T) = false.
Proof using Type.
  intros HT Hb rest. destruct (value_start_app b rest Hb) as (tag & Ht & Hn). exists tag. split; [done|].
  destruct (Z.eqb_spec tag (tag_byte T)) as [->|]; [|done]. destruct Hn. by apply list_elem_of_fmap_2.
Qed.

Lemma end_tag_object : kEndJSObject ∈ end_tags.
Proof using Type. apply (bool_decide_unpack _). by vm_compute. Qed.
Lemma end_tag_sparse : kEndSparseJSArray ∈ end_tags.
Proof using Type. apply (bool_decide_unpack _). by vm_compute. Qed.
Lemma end_tag_dense : kEndDenseJSArray ∈ end_tags.
Proof using Type. apply (bool_decide_unpack _). by vm_compute. Qed.
Lemma end_tag_set : kEndJSSet ∈ end_tags.
Proof using Type. apply (bool_decide_unpack _). by vm_compute. Qed.

Lemma wrap_add a k : wrap 32 (wrap 32 a + k) = wrap 32 (a + k).
Proof using Type. unfold wrap. apply Z.add_mod_idemp_l. lia. Qed.

Definition set_inv (ids0 : gmap ref Z) (base : js_heap) (r r' : ref) (pre done : list js_value) (acc : Z) (t : rstate E) : Prop :=
  opened ids0 base r r' (mkReceiver (JSSet (Some <$> done)) [] []) t /\ acc = wrap 32 (Z.of_nat (length pre)).

Lemma set_items n m items O ids0 base r r' : value_spec ser des H n -> (n < m)%nat ->
  Forall value_ok items -> NoDup (identity_of <$> items) -> Forall (fun e => normalize_key e = e) items ->
  item_spec (E := E) H (WriteObject ser n) items (r :: O) ids0 base value_rel (set_inv ids0 base r r')
    (fun fuel acc => read_set_members (ReadObject des m) fuel r' acc).
Proof using Type.
  intros Hv Hnm Hok Hdup Hnorm pre a post s s' He Hw Hheap Hids Hsub.
  rewrite He in Hok, Hdup, Hnorm. apply Forall_app in Hok as [_ Hok]. apply Forall_cons in Hok as [Hok _].
  apply Forall_app in Hnorm as [_ Hnorm]. apply Forall_cons in Hnorm as [Hnorm _].
  rewrite fmap_app, fmap_cons in Hdup. apply NoDup_app in Hdup as (_ & Hdup & _).
  destruct (Hv a s s' Hw Hheap Hids Hok) as (b & Hwr & Hstart & Hread). exists b. split_all; [done|done|].
  intros t rest done acc Hm Hp Hrest Hsmall Hnv Hf Hall [Ho ->].
  destruct (Hread (r :: O) m Hnm t rest Hm Hp Hrest Hsmall Hnv) as (a' & t1 & Hra & Harr & Hrel).
  pose proof (opened_arrived _ _ _ _ _ _ _ _ _ _ Ho Harr) as Ho1. pose proof Harr as [Hp1 Hm1 Hf1 Hsub1].
  assert (set_add a' (Some <$> done) = Some <$> (done ++ [a'])) as Hadd.
  { apply set_add_new; [by eapply normalized_rel|]. eapply (related_not_in _ _ _ pre done a a'); [done| |done|].
    - eapply Forall2_impl; [exact Hall|]. intros. eapply value_rel_mono; [apply Hwr|done|done].
    - intros Hin. by destruct (Hdup _ Hin); left. }
  destruct (opened_update _ _ _ _ _ _ _ _ (fun o => mkReceiver (JSSet (set_add a' (set_members o))) (elements o) (named o))
    (mkReceiver (JSSet (Some <$> (done ++ [a']))) [] []) Ho1 Hm1)
    as (Hu & Hmu & Hfu & Hou); [by rewrite <- Hadd|etrans; [exact Hsub|apply Hwr]|by eapply frame_trans|done|].
  eexists a', (wrap 32 (Z.of_nat (length (pre ++ [a])))), _. split_all; [exact Hmu|done|done|exact Hfu|done|by split|].
  intros fuel. cbn [read_set_members]. destruct (end_tag_eqb b kEndJSSet end_tag_set Hstart rest) as (tag & Htag & Hne).
  erewrite bind_just; [|apply peek_tag; rewrite Hp; exact Htag]. rewrite Hne. erewrite bind_just; [|exact Hra].
  erewrite bind_just; [|exact Hu]. by rewrite length_app, wrap_add, Nat2Z.inj_add.
Qed.

(** The end of an object and a count. *)
Definition end_count (T : SerializationTag) (count : Z) : bytes := WriteTag T ++ WriteVarint 32 (wrap 32 count).

Lemma end_count_ok T n : bytes_ok (end_count T n).
Proof using Type. apply Forall_app. split; [apply tag_ok|apply varint_ok; [auto with v8|]]. apply Z.mod_pos_bound. lia. Qed.

Lemma not_view_tag T b : T <> kPadding -> T <> kArrayBufferView -> no_view (WriteTag T ++ b).
Proof using Type. intros Hp Hv. unfold no_view. rewrite PeekTag_written by done. by destruct T. Qed.

Lemma no_view_end T n rest : T <> kPadding -> T <> kArrayBufferView -> no_view (end_count T n ++ rest).
Proof using Type. intros. unfold end_count. rewrite <- (assoc_L (++)). by apply not_view_tag. Qed.

Lemma put_seq {B} b (k : W D B) s x s' : sticky k -> (WriteRawBytes ser b;; k) s = (Just x, s') -> out_of_memory_ s' = false ->
  exists s1, wrote s s1 b /\ k s1 = (Just x, s').
Proof using Type.
  intros Hk Hw Ho. apply seq_inv in Hw as ([] & s1 & Hw1 & Ho1 & Hw); [|done|done]. exists s1. split; [by eapply (puts_raw ser)|done].
Qed.

Lemma put_end_count s s' T n : (PutTag ser T;; PutVarint ser 32 (wrap 32 n);; ThrowIfOutOfMemory) s = (Just tt, s') -> wrote s s' (end_count T n).
Proof using Type.
  assert (puts s (PutTag ser T;; PutVarint ser 32 (wrap 32 n);; ThrowIfOutOfMemory) (end_count T n)) as Hp.
  { apply puts_seq; [apply puts_raw|sticky|intros ? _]. apply puts_checked, puts_raw. }
  intros Hw. eapply Hp; [exact Hw|]. eapply checked_false; [|exact Hw]. checked.
Qed.

(** A loop that stops at its end tag, and the count is as expected. *)
Lemma end_of_loop {A} T n (loop : R E Z) (t t1 : rstate E) (K : R E A) rest :
  T <> kPadding -> position_ t = end_count T n ++ rest -> bytes_ok rest ->
  (forall b, Peek t = (Just (tag_byte T), t) -> ConsumeTag t = (Just tt, at_ t b) -> loop t = (Just (wrap 32 n), at_ t1 b)) ->
  (loop ≫= (fun length => expect length;; K)) t = K (at_ t1 rest).
Proof using Type.
  intros HT Hp Hrest Hloop. unfold end_count in Hp. rewrite <- (assoc_L (++)) in Hp.
  erewrite bind_just; [|apply (Hloop (WriteVarint 32 (wrap 32 n) ++ rest))].
  - erewrite bind_just; [|apply expect_written; [done|apply Z.mod_pos_bound; lia|done]]. done.
  - apply peek_tag. rewrite Hp. by apply PeekTag_written.
  - unfold ConsumeTag. by erewrite bind_just; [|by apply get_tag].
Qed.

Lemma set_spec n r o table : value_spec ser des H n -> instance_type o = JSSet table ->
  class_spec des H n (WriteJSSet ser (WriteObject ser n) table) r o.
Proof using C.
  intros Hspec Ht. apply (class_known ser); [done|]. intros Hok. unfold instance_ok in Hok. rewrite Ht in Hok. destruct Hok as (Hvals & Hdup & Hnorm).
  apply (filled_spec n 0 _ _ _ (mkReceiver (JSSet []) [] []) (WriteTag kBeginJSSet) (fun m r' =>
    b ← get_position; (fun fuel => read_set_members (ReadObject des m) fuel r') (S (length b)) 0 ≫= (fun length => expect length;; mret r')));
    [unfold not_buffer, array_buffer_of; by rewrite Ht|done|apply tag_ok|starts| |].
  - intros s s' Hw Hheap Hids Ho. unfold WriteJSSet in Hw. assert (out_of_memory_ s' = false) as Hoom by (eapply checked_false; [|exact Hw]; checked).
    apply put_seq in Hw as (s1 & Hw1 & Hw); [|sticky|done]. exists s1. split; [done|]. intros Hheap1 Hids1 Hsub.
    apply seq_inv in Hw as ([] & s2 & Hvalues & Ho2 & Hw); [|sticky|done]. apply values_chain in Hvalues. apply put_end_count in Hw.
    eapply (looped (id_map_ s) n r o _ _ _ value_rel (fun base r' => set_inv (id_map_ s) base r r') (fun m r' fuel => read_set_members (ReadObject des m) fuel r')
       (fun m r' length => expect length;; mret r')); [by eauto using value_rel_mono|by eauto using set_items|done|done|done|exact Hvalues|exact Hw|apply end_count_ok| | |].
    + intros rest. by apply no_view_end.
    + intros [] base r' t Ho'. by split.
    + intros O m base r' done acc t rest fuel Hnm Hm Hp Hrest Hf Hsub' [Ho' ->] Hrel. eexists _, t. split_all; [|done|done|done|exact Ho'|].
      * etrans; [eapply end_of_loop; [|exact Hp|done|]; [done|]|reflexivity].
        intros b Hpeek Hconsume. cbn [read_set_members]. erewrite bind_just; [|exact Hpeek]. known_tags.
        by erewrite bind_just; [|exact Hconsume].
      * unfold receiver_rel. rewrite Ht. by exists done.
  - intros O s t b m Hnm Hm Hn Hr Hp Hb _. dispatch Hp. apply bind_same. by eapply new_object.
Qed.

(** *** Maps *)

Definition write_pair (f : js_value -> W D Unit) (e : js_value * js_value) : W D Unit := f e.1;; f e.2.

Lemma pairs_chain f es s s' : WriteValues f (es ≫= (fun '(k, v) => [k; v])) s = (Just tt, s') -> chain (D := D) (write_pair f) es s s'.
Proof using Type.
  revert s. induction es as [|[k v] es IH]; intros s Hw; [injection Hw as ->; constructor|]. rewrite bind_cons in Hw. cbn in Hw.
  apply bind_inv in Hw as ([] & s1 & Hk & Hw). apply bind_inv in Hw as ([] & s2 & Hv & Hw). econstructor; [|by apply IH].
  unfold write_pair. by erewrite bind_just.
Qed.

Lemma pairs_length (es : list (js_value * js_value)) : Z.of_nat (length (es ≫= (fun '(k, v) => [k; v]))) = Z.of_nat (length es) * 2.
Proof using Type. induction es as [|[k v] es IH]; [done|]. rewrite bind_cons, length_app. simpl in *. lia. Qed.

Lemma pair_read n e s s' : value_spec ser des H n -> write_pair (WriteObject ser n) e s = (Just tt, s') -> heap_ s = H -> ids_ok H s ->
  value_ok e.1 -> value_ok e.2 ->
  exists b, written H s s' b /\ value_start b /\ forall O m t rest, (n < m)%nat ->
    matches H O s t -> position_ t = b ++ rest -> bytes_ok rest -> small (b ++ rest) -> no_view rest ->
  exists k' v' t1 t2, ReadObject des m t = (Just k', t1) /\ ReadObject des m t1 = (Just v', t2) /\ arrived H O t s' rest t2 /\
    value_rel (id_map_ s') (r_id_map_ t2) e.1 k' /\ value_rel (id_map_ s') (r_id_map_ t2) e.2 v'.
Proof using Type.
  intros Hv Hw Hheap Hids Hok1 Hok2. apply bind_inv in Hw as ([] & s1 & Hw1 & Hw2).
  destruct (Hv _ _ _ Hw1 Hheap Hids Hok1) as (b1 & Hwr1 & Hs1 & Hread1).
  destruct (Hv _ _ _ Hw2 ltac:(apply Hwr1) ltac:(apply Hwr1) Hok2) as (b2 & Hwr2 & Hs2 & Hread2).
  exists (b1 ++ b2). split; [by eapply written_trans|]. split; [by apply value_start_app|].
  intros O m t rest Hnm Hm Hp Hrest Hsmall Hnv. rewrite <- (assoc_L (++)) in Hp, Hsmall.
  destruct (Hread1 O m Hnm t (b2 ++ rest) Hm Hp) as (k' & t1 & Hk & [Hp1 Hm1 Hf1 Hsub1] & Hrel1);
    [apply Forall_app; split; [apply Hwr2|done]|done|by apply value_start_no_view|].
  destruct (Hread2 O m Hnm t1 rest Hm1 Hp1 Hrest) as (v' & t2 & Hv' & [Hp2 Hm2 Hf2 Hsub2] & Hrel2); [by eapply small_app|done|].
  exists k', v', t1, t2. split_all; try done.
  - split; [done|done|by eapply frame_trans|by etrans].
  - eapply value_rel_mono; [apply Hwr2|exact Hsub2|done].
Qed.

Lemma map_set_new k v l : normalize_key k = k -> identity_of k ∉ (identity_of ∘ fst <$> l) ->
  map_set k v (Some <$> l) = Some <$> (l ++ [(k, v)]).
Proof using Type.
  intros Hk. induction l as [|[q w] l IH]; intros Hn; cbn; [by rewrite Hk|]. rewrite fmap_cons, not_elem_of_cons in Hn. destruct Hn as [Hq Hn].
  unfold SameValueZero. rewrite bool_decide_false by done. by rewrite IH.
Qed.

Definition pair_rel (ids : gmap ref Z) (im : gmap Z ref) (e e' : js_value * js_value) : Prop :=
  value_rel ids im e.1 e'.1 /\ value_rel ids im e.2 e'.2.

Lemma pair_rel_mono ids ids2 im im2 e e' : ids ⊆ ids2 -> im ⊆ im2 -> pair_rel ids im e e' -> pair_rel ids2 im2 e e'.
Proof using Type. intros ? ? []. split; by eapply value_rel_mono. Qed.

Definition map_inv (ids0 : gmap ref Z) (base : js_heap) (r r' : ref) (pre done : list (js_value * js_value)) (acc : Z) (t : rstate E) : Prop :=
  opened ids0 base r r' (mkReceiver (JSMap (Some <$> done)) [] []) t /\ acc = wrap 32 (Z.of_nat (length pre) * 2).

Lemma end_tag_map : kEndJSMap ∈ end_tags.
Proof using Type. apply (bool_decide_unpack _). by vm_compute. Qed.

Lemma map_items n m items O ids0 base r r' : value_spec ser des H n -> (n < m)%nat ->
  Forall (fun e => value_ok e.1 /\ value_ok e.2) items -> NoDup (identity_of ∘ fst <$> items) -> Forall (fun e => normalize_key e.1 = e.1) items ->
  item_spec (E := E) H (write_pair (WriteObject ser n)) items (r :: O) ids0 base pair_rel (map_inv ids0 base r r')
    (fun fuel acc => read_map_entries (ReadObject des m) fuel r' acc).
Proof using Type.
  intros Hv Hnm Hok Hdup Hnorm pre a post s s' He Hw Hheap Hids Hsub.
  rewrite He in Hok, Hdup, Hnorm. apply Forall_app in Hok as [_ Hok]. apply Forall_cons in Hok as [[Hok1 Hok2] _].
  apply Forall_app in Hnorm as [_ Hnorm]. apply Forall_cons in Hnorm as [Hnorm _].
  rewrite fmap_app, fmap_cons in Hdup. apply NoDup_app in Hdup as (_ & Hdup & _).
  destruct (pair_read n a s s' Hv Hw Hheap Hids Hok1 Hok2) as (b & Hwr & Hstart & Hread). exists b. split_all; [done|done|].
  intros t rest done acc Hm Hp Hrest Hsmall Hnv Hf Hall [Ho ->].
  destruct (Hread (r :: O) m t rest Hnm Hm Hp Hrest Hsmall Hnv) as (k' & v' & t1 & t2 & Hk & Hv' & Harr & Hrel1 & Hrel2).
  pose proof (opened_arrived _ _ _ _ _ _ _ _ _ _ Ho Harr) as Ho2. pose proof Harr as [Hp2 Hm2 Hf2 Hsub2].
  assert (map_set k' v' (Some <$> done) = Some <$> (done ++ [(k', v')])) as Hset.
  { apply map_set_new; [by eapply normalized_rel|]. rewrite list_fmap_compose. eapply (related_not_in _ _ _ pre.*1 done.*1 a.1 k'); [done| |done|].
    - apply Forall2_fmap_2. eapply Forall2_impl; [exact Hall|]. intros ?? [? _]. eapply value_rel_mono; [apply Hwr|done|done].
    - intros Hin. rewrite <- list_fmap_compose in Hin. by destruct (Hdup _ Hin); left. }
  destruct (opened_update _ _ _ _ _ _ _ _ (fun o => mkReceiver (JSMap (map_set k' v' (map_entries o))) (elements o) (named o))
    (mkReceiver (JSMap (Some <$> (done ++ [(k', v')]))) [] []) Ho2 Hm2)
    as (Hu & Hmu & Hfu & Hou); [by rewrite <- Hset|etrans; [exact Hsub|apply Hwr]|by eapply frame_trans|done|].
  eexists (k', v'), (wrap 32 (Z.of_nat (length (pre ++ [a])) * 2)), _. split_all; [exact Hmu|done|done|exact Hfu|done|by split|].
  intros fuel. cbn [read_map_entries]. destruct (end_tag_eqb b kEndJSMap end_tag_map Hstart rest) as (tag & Htag & Hne).
  erewrite bind_just; [|apply peek_tag; rewrite Hp; exact Htag]. rewrite Hne. erewrite bind_just; [|exact Hk].
  erewrite bind_just; [|exact Hv']. erewrite bind_just; [|exact Hu]. rewrite length_app, wrap_add, Nat2Z.inj_add. by replace (_ * 2 + 2) with ((Z.of_nat (length pre) + Z.of_nat (length [a])) * 2) by (simpl; lia).
Qed.

Lemma map_spec n r o table : value_spec ser des H n -> instance_type o = JSMap table ->
  class_spec des H n (WriteJSMap ser (WriteObject ser n) table) r o.
Proof using C.
  intros Hspec Ht. apply (class_known ser); [done|]. intros Hok. unfold instance_ok in Hok. rewrite Ht in Hok. destruct Hok as (Hvals & Hdup & Hnorm).
  apply (filled_spec n 0 _ _ _ (mkReceiver (JSMap []) [] []) (WriteTag kBeginJSMap) (fun m r' =>
    b ← get_position; (fun fuel => read_map_entries (ReadObject des m) fuel r') (S (length b)) 0 ≫= (fun length => expect length;; mret r')));
    [unfold not_buffer, array_buffer_of; by rewrite Ht|done|apply tag_ok|starts| |].
  - intros s s' Hw Hheap Hids Ho. unfold WriteJSMap in Hw. assert (out_of_memory_ s' = false) as Hoom by (eapply checked_false; [|exact Hw]; checked).
    apply put_seq in Hw as (s1 & Hw1 & Hw); [|sticky|done]. exists s1. split; [done|]. intros Hheap1 Hids1 Hsub.
    apply seq_inv in Hw as ([] & s2 & Hvalues & Ho2 & Hw); [|sticky|done]. apply pairs_chain in Hvalues. apply put_end_count in Hw.
    eapply (looped (id_map_ s) n r o _ _ _ pair_rel (fun base r' => map_inv (id_map_ s) base r r') (fun m r' fuel => read_map_entries (ReadObject des m) fuel r')
       (fun m r' length => expect length;; mret r')); [by eauto using pair_rel_mono|by eauto using map_items|done|done|done|exact Hvalues|exact Hw|apply end_count_ok| | |].
    + intros rest. by apply no_view_end.
    + intros [] base r' t Ho'. by split.
    + intros O m base r' done acc t rest fuel Hnm Hm Hp Hrest Hf Hsub' [Ho' ->] Hrel. eexists _, t. split_all; [|done|done|done|exact Ho'|].
      * etrans; [eapply end_of_loop; [|exact Hp|done|]; [done|]|reflexivity].
        intros b Hpeek Hconsume. cbn [read_map_entries]. erewrite bind_just; [|exact Hpeek]. known_tags.
        erewrite bind_just; [|exact Hconsume]. by rewrite pairs_length.
      * unfold receiver_rel. rewrite Ht. by exists done.
  - intros O s t b m Hnm Hm Hn Hr Hp Hb _. dispatch Hp. apply bind_same. by eapply new_object.
Qed.
End parts.
