(* ===== verification/ObjectProperties.v ===== *)
(** The round trip of properties: objects, sparse and dense arrays; then of whole objects and
    arrays. *)
From S2P Require Import Prelude Conversions Engine WireFormat Serializer JSHeap ObjectWriter ObjectReader WriterTheorems ObjectGraphs ObjectRoundtrip ObjectCopies ObjectParts.
From Stdlib Require Import Sorting.Sorted.

(** ** The properties that are written *)

Definition index_items (o : receiver) : list (js_value * js_value) :=
  (fun e => (Prim (NewNumber e.1), data_of e.2)) <$> enumerable_own (elements o).
Definition name_items (o : receiver) : list (js_value * js_value) :=
  (fun e => (Prim (Str e.1), data_of e.2)) <$> enumerable_own (named o).

Definition item_key (v : js_value) : Z + list Z := match v with Prim k => norm_key (key_of k) | _ => inl 0 end.

Lemma keys_items o : Prim <$> GetKeys false o = (index_items o ++ name_items o).*1.
Proof. unfold GetKeys, index_items, name_items. by rewrite !fmap_app, <- !list_fmap_compose. Qed.
Lemma keys_names o : Prim <$> GetKeys true o = (name_items o).*1.
Proof. unfold GetKeys, name_items. simpl. by rewrite <- !list_fmap_compose. Qed.

Lemma key_of_index i : 0 <= i <= kMaxElementIndex -> key_of (NewNumber i) = Index i.
Proof. apply PropertyKey_index. Qed.
Lemma key_of_name s : is_name s -> key_of (Str s) = Name s.
Proof. done. Qed.

(** The object answers a key with a value. *)
Definition answers (o : receiver) (e : js_value * js_value) : Prop :=
  exists k p, e.1 = Prim k /\ is_key k /\ own_lookup o (key_of k) = Some p /\ what p = Data e.2 /\ value_ok e.2.

Lemma sorted_nodup (l : list Z) : StronglySorted Z.lt l -> NoDup l.
Proof.
  induction 1 as [|x l Hs IH Hx]; constructor; [|done]. intros Hin. rewrite Forall_forall in Hx. specialize (Hx x Hin). lia.
Qed.

Lemma index_answers o : elements_ok (elements o) -> Forall (answers o) (index_items o).
Proof.
  intros [Hsort Hall]. apply Forall_fmap, Forall_forall. intros [i p] Hin. apply list_elem_of_filter in Hin as [_ Hin].
  pose proof (proj1 (Forall_forall _ _) Hall _ Hin) as [Hi Hp]. simpl in *. apply data_of_data in Hp as [Hp Hok].
  exists (NewNumber i), p. split_all; [done|split; [by apply NewNumber_ok|left; by exists i]| |done|done].
  rewrite key_of_index by done. apply find_element_Some; [by apply sorted_nodup|done].
Qed.

(** The names of arrays are not the length. *)
Definition names_apart (o : receiver) : Prop :=
  match instance_type o with JSArray _ _ => chars_of length_string ∉ (chars_of ∘ fst <$> named o) | _ => True end.

Lemma name_answers o : named_ok (named o) -> names_apart o -> Forall (answers o) (name_items o).
Proof.
  intros [Hnd Hall] Hapart. apply Forall_fmap, Forall_forall. intros [s p] Hin. apply list_elem_of_filter in Hin as [_ Hin].
  pose proof (proj1 (Forall_forall _ _) Hall _ Hin) as (Hs & Hname & Hp). simpl in *. apply data_of_data in Hp as [Hp Hok].
  exists (Str s), p. split_all; [done|split; [done|right; by exists s]| |done|done]. rewrite key_of_name by done.
  pose proof (find_named_Some s p _ Hnd Hin) as Hf. unfold own_lookup, names_apart in *. destruct (instance_type o); try done.
  rewrite decide_False; [done|]. intros Heq. apply Hapart. rewrite <- Heq. by apply (list_elem_of_fmap_2 (chars_of ∘ fst) _ (s, p)).
Qed.

Lemma filter_sub {A B} (f : A -> B) (P : A -> Prop) `{!forall x, Decision (P x)} (l : list A) (x : B) : x ∈ f <$> filter P l -> x ∈ f <$> l.
Proof. intros Hin. apply list_elem_of_fmap in Hin as (y & -> & Hy). apply list_elem_of_filter in Hy as [_ Hy]. by apply list_elem_of_fmap_2. Qed.

Lemma filter_nodup {A B} (f : A -> B) (P : A -> Prop) `{!forall x, Decision (P x)} (l : list A) : NoDup (f <$> l) -> NoDup (f <$> filter P l).
Proof.
  induction l as [|x l IH]; [done|]. rewrite fmap_cons, filter_cons. intros Hnd. apply NoDup_cons in Hnd as [Hx Hnd].
  destruct (decide (P x)); [|auto]. rewrite fmap_cons. constructor; [|auto]. intros Hin. by apply filter_sub in Hin.
Qed.

Lemma items_nodup o : elements_ok (elements o) -> named_ok (named o) -> NoDup (item_key ∘ fst <$> index_items o ++ name_items o).
Proof.
  intros [Hsort He] [Hnd Hn].
  assert (item_key ∘ fst <$> index_items o = inl ∘ fst <$> enumerable_own (elements o)) as Hi.
  { unfold index_items. rewrite <- list_fmap_compose. apply list_fmap_ext. intros j [i p] Hj. simpl. rewrite key_of_index; [done|].
    apply list_elem_of_lookup_2, list_elem_of_filter in Hj as [_ Hj]. by apply (proj1 (Forall_forall _ _) He) in Hj as [? _]. }
  assert (item_key ∘ fst <$> name_items o = inr ∘ (chars_of ∘ fst) <$> enumerable_own (named o)) as Hm.
  { unfold name_items. rewrite <- list_fmap_compose. apply list_fmap_ext. intros j [s p] Hj.
    change (norm_key (key_of (Str s)) = inr (chars_of s)). rewrite key_of_name; [done|].
    apply list_elem_of_lookup_2, list_elem_of_filter in Hj as [_ Hj]. by apply (proj1 (Forall_forall _ _) Hn) in Hj as (_ & ? & _). }
  rewrite fmap_app, Hi, Hm. apply NoDup_app. split_all.
  - rewrite list_fmap_compose. apply NoDup_fmap_2; [by intros ?? [=]|]. by apply filter_nodup, sorted_nodup.
  - intros x Hx Hy. apply list_elem_of_fmap in Hx as (? & -> & _). by apply list_elem_of_fmap in Hy as (? & ? & _).
  - rewrite (list_fmap_compose (chars_of ∘ fst) inr). apply NoDup_fmap_2; [by intros ?? [=]|]. by apply filter_nodup.
Qed.

(** ** What the properties are read back as *)

Definition property_item_rel (ids : gmap ref Z) (im : gmap Z ref) (e : js_value * js_value) (e' : property_key * js_value) : Prop :=
  norm_key e'.1 = item_key e.1 /\ value_rel ids im e.2 e'.2.

Lemma property_item_rel_mono ids ids2 im im2 e e' : ids ⊆ ids2 -> im ⊆ im2 -> property_item_rel ids im e e' -> property_item_rel ids2 im2 e e'.
Proof. intros ? ? []. split; [done|by eapply value_rel_mono]. Qed.

Lemma related_keys ids im items done : Forall2 (property_item_rel ids im) items done -> norm_key ∘ fst <$> done = item_key ∘ fst <$> items.
Proof. induction 1 as [|e e' items done [Hk _] _ IH]; [done|]. rewrite !fmap_cons, IH. simpl. by rewrite Hk. Qed.

Lemma filled_indices ids im (l : list (Z * own_property)) done t ns :
  StronglySorted Z.lt l.*1 -> Forall (fun i => 0 <= i <= kMaxElementIndex /\ covers t i) l.*1 ->
  Forall2 (property_item_rel ids im) ((fun e => (Prim (NewNumber e.1), data_of e.2)) <$> l) done ->
  exists es, fill done (mkReceiver t [] ns) = mkReceiver t es ns /\
    Forall2 (fun e e' => e'.1 = e.1 /\ property_rel ids im e.2 e'.2) l es.
Proof.
  intros Hs Hi Hall. assert (exists vs, done = index_entries (zip l.*1 vs) /\ Forall2 (fun e v => value_rel ids im (data_of e.2) v) l vs) as (vs & -> & Hvs).
  { clear Hs. rewrite Forall2_fmap_l in Hall. revert Hi. induction Hall as [|[i p] [k v] l1 done [Hk Hv] _ IH]; intros Hi; [exists []; split; [done|constructor]|].
    rewrite fmap_cons in Hi. apply Forall_cons in Hi as [[Hi _] Hi']. destruct (IH Hi') as (vs & -> & Hvs). exists (v :: vs).
    simpl in Hk. rewrite key_of_index in Hk by done. destruct k as [j|]; simplify_eq/=. split; [done|by constructor]. }
  exists ((fun '(i, v) => (i, data_property v)) <$> zip l.*1 vs). pose proof (Forall2_length _ _ _ Hvs) as Hlen.
  assert ((zip l.*1 vs).*1 = l.*1) as Hz by (apply fst_zip; rewrite length_fmap; lia). split.
  - rewrite fill_indices; cbn [elements instance_type named]; rewrite ?Hz; [done|done|]. eapply Forall_impl; [exact Hi|]. by intros ? [].
  - clear - Hvs. induction Hvs as [|[i p] v l1 vs Hv _ IH]; [constructor|]. constructor; [|exact IH]. split; [done|]. by exists v.
Qed.

Lemma filled_names ids im (l : list (flat_string * own_property)) done t es :
  Forall is_name l.*1 ->
  Forall2 (property_item_rel ids im) ((fun e => (Prim (Str e.1), data_of e.2)) <$> l) done ->
  exists ns, fill done (mkReceiver t es []) = mkReceiver t es ns /\
    Forall2 (fun e e' => chars_of e'.1 = chars_of e.1 /\ property_rel ids im e.2 e'.2) l ns.
Proof.
  intros Hn Hall. assert (exists kvs, done = name_entries kvs /\
    Forall2 (fun e kv => chars_of kv.1 = chars_of e.1 /\ value_rel ids im (data_of e.2) kv.2) l kvs) as (kvs & -> & Hkvs).
  { rewrite Forall2_fmap_l in Hall. revert Hn. induction Hall as [|[s p] [k v] l1 done [Hk Hv] _ IH]; intros Hn; [exists []; split; [done|constructor]|].
    rewrite fmap_cons in Hn. apply Forall_cons in Hn as [Hn Hn']. destruct (IH Hn') as (kvs & -> & Hkvs).
    change (norm_key k = norm_key (key_of (Str s))) in Hk. rewrite key_of_name in Hk by done.
    destruct k as [|s']; simplify_eq/=. exists ((s', v) :: kvs). split; [done|by constructor]. }
  exists ((fun '(s, v) => (s, data_property v)) <$> kvs). split; [by rewrite fill_names|].
  clear - Hkvs. induction Hkvs as [|[s p] [s' v] l1 kvs [Hk Hv] _ IH]; [constructor|]. constructor; [|exact IH]. split; [done|]. by exists v.
Qed.

(** ** The loops *)

Section properties.
Context {D E : Type} (ser : serializer D) (des : deserializer E) (H : js_heap) (C : cloning ser des H).

Lemma properties_chain n r o items count s c s' : value_spec ser des H n -> H !! r = Some o -> Forall (answers o) items ->
  heap_ s = H -> ids_ok H s -> forall keys, Prim <$> keys = items.*1 ->
  write_properties ser (WriteObject ser n) r keys (wrap 32 count) s = (Just c, s') ->
  chain (write_pair (WriteObject ser n)) items s s' /\ c = wrap 32 (count + Z.of_nat (length items)).
Proof using Type.
  intros Hv Ho Hall. revert count s. induction Hall as [|[kv v] items (k & p & Hk & [Hkok _] & Hp & Hd & Hvok) _ IH];
    intros count s Hheap Hids keys Hkeys Hw; destruct keys as [|key keys]; try done.
  - injection Hw as <- <-. rewrite Z.add_0_r. by split; [constructor|].
  - rewrite !fmap_cons in Hkeys. injection Hkeys as Hkey Hkeys. simpl in Hk, Hkey, Hd, Hvok. subst kv. injection Hkey as ->.
    cbn [write_properties] in Hw.
    apply bind_inv in Hw as (o1 & s1 & Hr & Hw). unfold receiver_at in Hr. rewrite Hheap, Ho in Hr. injection Hr as <- <-.
    rewrite Hp, Hd in Hw. apply bind_inv in Hw as (v1 & s1 & Hg & Hw). injection Hg as <- <-.
    apply bind_inv in Hw as ([] & s1 & Hw1 & Hw). apply bind_inv in Hw as ([] & s2 & Hw2 & Hw).
    destruct (Hv _ _ _ Hw1 Hheap Hids Hkok) as (b1 & Hwr1 & _). destruct (Hv _ _ _ Hw2 ltac:(apply Hwr1) ltac:(apply Hwr1) Hvok) as (b2 & Hwr2 & _).
    rewrite wrap_add in Hw. destruct (IH _ _ ltac:(apply Hwr2) ltac:(apply Hwr2) keys Hkeys Hw) as [Hc ->]. split.
    + econstructor; [|exact Hc]. unfold write_pair. by erewrite bind_just.
    + f_equal. simpl. lia.
Qed.

Lemma not_buffer_fill kvs o : not_buffer o -> not_buffer (fill kvs o).
Proof using Type.
  revert o. induction kvs as [|[k v] kvs IH]; intros o Ho; [done|]. cbn. apply IH. destruct k; unfold not_buffer, array_buffer_of, define_own in *; cbn;
    by destruct (instance_type o).
Qed.

Definition slow_inv (ids0 : gmap ref Z) (base : js_heap) (r r' : ref) (o0 : receiver) (pre : list (js_value * js_value))
    (done : list (property_key * js_value)) (acc : Z) (t : rstate E) : Prop :=
  opened ids0 base r r' (fill done o0) t /\ acc = wrap 32 (Z.of_nat (length pre)).

(** The key of a value that was read. *)
Lemma same_key_of k k' : is_key k -> same_key k k' -> exists key, key_of_value des (Prim k') = Some key /\ norm_key key = item_key (Prim k).
Proof using Type.
  intros [_ [(i & -> & Hi)|(s & -> & Hs)]] Hsame.
  - assert (k' = NewNumber i) as -> by (unfold NewNumber in *; by destruct (_ <=? _)). exists (Index i). cbn [item_key]. rewrite key_of_index by done.
    split; [|done]. cbn [key_of_value]. rewrite PropertyKey_index by done.
    assert (IsValidObjectKey (Prim (NewNumber i)) = true) as -> by (unfold NewNumber; by destruct (_ <=? _)). done.
  - destruct Hsame as (s' & -> & Hc). exists (Name s'). split; [|cbn [item_key]; rewrite key_of_name by done; simpl; by rewrite Hc].
    cbn. f_equal. by apply (is_name_chars s).
Qed.

Lemma answered_key o e k' ids im : answers o e -> value_rel ids im e.1 k' ->
  exists k, key_of_value des k' = Some k /\ norm_key k = item_key e.1.
Proof using Type.
  intros (k & p & -> & Hk & _) Hr. destruct k' as [p'| | |]; simpl in Hr; try done. subst p'. by apply same_key_of, same_key_canonical.
Qed.

Lemma own_lookup_norm o k k2 : norm_key k = norm_key k2 -> own_lookup o k = own_lookup o k2.
Proof using Type.
  destruct k as [i|s], k2 as [j|s2]; simpl; intros Hk; simplify_eq; [done|].
  assert (find_named s (named o) = find_named s2 (named o)) as Hf.
  { induction (named o) as [|[t p] l IH]; [done|]. cbn. by rewrite Hk, IH. }
  rewrite Hf. by rewrite Hk.
Qed.

Lemma define_property_new r' k v (t : rstate E) o : r_heap_ t !! r' = Some o -> own_lookup o k = None ->
  define_property r' k v t = update r' (define_own k v) t.
Proof using Type. intros Ho Hl. unfold define_property, object_at. erewrite bind_just; [|by rewrite Ho]. by rewrite Hl. Qed.

(** The part of the list that is left. *)
Lemma answers_middle o pre a post : Forall (answers o) (pre ++ a :: post) -> answers o a.
Proof using Type. intros Hall. apply Forall_app in Hall as [_ Hall]. by apply Forall_cons in Hall as [? _]. Qed.

Lemma answers_ok o e : answers o e -> value_ok e.1 /\ value_ok e.2.
Proof using Type. by intros (k & p & -> & [? _] & _ & _ & ?). Qed.

(** The object that is filled does not have the property [a] yet. *)
Lemma fresh_property (s : wstate D) (t : rstate E) pre a post done o0 k :
  NoDup (item_key ∘ fst <$> pre ++ a :: post) -> Forall2 (property_item_rel (id_map_ s) (r_id_map_ t)) pre done ->
  (forall e k, e ∈ pre ++ a :: post -> norm_key k = item_key e.1 -> own_lookup o0 k = None) -> norm_key k = item_key a.1 ->
  own_lookup (fill done o0) k = None.
Proof using Type.
  intros Hdup Hrel Hnone Hk. apply own_lookup_fill; [|apply (Hnone a); [apply elem_of_app; right; by left|done]].
  rewrite (related_keys _ _ _ _ Hrel), Hk. rewrite fmap_app, fmap_cons in Hdup. apply NoDup_app in Hdup as (_ & Hdup & _).
  intros Hin. by destruct (Hdup _ Hin); left.
Qed.

Lemma slow_items n m items O ids0 base r r' ow o0 T : value_spec ser des H n -> (n < m)%nat -> T ∈ end_tags ->
  Forall (answers ow) items -> NoDup (item_key ∘ fst <$> items) ->
  (forall e k, e ∈ items -> norm_key k = item_key e.1 -> own_lookup o0 k = None) -> not_buffer o0 ->
  item_spec (E := E) H (write_pair (WriteObject ser n)) items (r :: O) ids0 base property_item_rel (slow_inv ids0 base r r' o0)
    (fun fuel acc => read_properties_slow des (ReadObject des m) fuel r' T acc).
Proof using Type.
  intros Hv Hnm HT Hans Hdup Hnone Hbuf pre a post s s' He Hw Hheap Hids Hsub. subst items.
  pose proof (answers_middle _ _ _ _ Hans) as Ha. destruct (answers_ok _ _ Ha) as [Hok1 Hok2].
  destruct (pair_read ser des H n a s s' Hv Hw Hheap Hids Hok1 Hok2) as (b & Hwr & Hstart & Hread). exists b. split_all; [done|done|].
  intros t rest done acc Hm Hp Hrest Hsmall Hnv Hf Hall [Ho ->].
  destruct (Hread (r :: O) m t rest Hnm Hm Hp Hrest Hsmall Hnv) as (k' & v' & t1 & t2 & Hk & Hv' & Harr & Hrel1 & Hrel2).
  pose proof (opened_arrived H _ _ _ _ _ _ _ _ _ _ Ho Harr) as Ho2. pose proof Harr as [Hp2 Hm2 Hf2 Hsub2].
  destruct (answered_key ow a k' _ _ Ha Hrel1) as (k & Hkey & Hnorm).
  assert (own_lookup (fill done o0) k = None) as Hfresh by by eapply fresh_property.
  destruct (opened_update H _ _ _ _ _ _ _ _ (define_own k v') (fill (done ++ [(k, v')]) o0) Ho2 Hm2)
    as (Hu & Hmu & Hfu & Hou); [by rewrite fill_snoc|etrans; [exact Hsub|apply Hwr]|by eapply frame_trans|by apply not_buffer_fill|].
  eexists (k, v'), (wrap 32 (Z.of_nat (length (pre ++ [a])))), _. split_all; [exact Hmu|done|done|exact Hfu|done|by split|].
  intros fuel. cbn [read_properties_slow]. destruct (end_tag_eqb b T HT Hstart rest) as (tag & Htag & Hne).
  erewrite bind_just; [|apply peek_tag; rewrite Hp; exact Htag]. rewrite Hne. erewrite bind_just; [|exact Hk].
  erewrite bind_just; [|unfold failing; by rewrite Hkey]. erewrite bind_just; [|exact Hv'].
  erewrite bind_just; [|erewrite define_property_new; [exact Hu|apply Ho2|done]]. by rewrite length_app, wrap_add, Nat2Z.inj_add.
Qed.

(** *** The fast path *)

Inductive fast_state := Fast (keys : list flat_string) (properties : list js_value) | Slow (num_properties : Z).

Definition read_properties_from (m : nat) (r' : ref) (T : SerializationTag) (fuel : nat) (acc : fast_state) : R E Z :=
  match acc with
  | Fast keys properties => read_properties_fast des (ReadObject des m) fuel r' T keys properties
  | Slow num_properties => read_properties_slow des (ReadObject des m) fuel r' T num_properties
  end.

Definition fast_inv (ids0 : gmap ref Z) (base : js_heap) (r r' : ref) (o0 : receiver) (pre : list (js_value * js_value))
    (done : list (property_key * js_value)) (acc : fast_state) (t : rstate E) : Prop :=
  match acc with
  | Fast keys properties =>
      opened ids0 base r r' o0 t /\ done = name_entries (zip keys properties) /\ length keys = length pre /\ length properties = length pre
  | Slow num_properties => slow_inv ids0 base r r' o0 pre done num_properties t
  end.

Lemma CommitProperties_fill r' keys properties (t : rstate E) :
  CommitProperties r' keys properties t = update r' (fill (name_entries (zip keys properties))) t.
Proof using Type.
  unfold CommitProperties, update. destruct (r_heap_ t !! r') as [o|]; [|done]. rewrite fill_names.
  replace (zip_with (fun k v => (k, mkProperty true (Data v))) keys properties) with ((fun '(s, v) => (s, data_property v)) <$> zip keys properties); [done|].
  revert properties. induction keys as [|k keys IH]; intros [|v properties]; simpl; try done. by rewrite IH.
Qed.

(** The key of [a] is read, and then its value. *)
Lemma fast_read n m O a s s' ow (t : rstate E) b rest keys : value_spec ser des H n -> (n < m)%nat -> answers ow a ->
  write_pair (WriteObject ser n) a s = (Just tt, s') -> heap_ s = H -> ids_ok H s -> written H s s' b ->
  matches H O s t -> position_ t = b ++ rest -> bytes_ok rest -> small (b ++ rest) -> no_view rest ->
  exists k k' transition v' t1 t2, a.1 = Prim k /\ is_key k /\ same_key k k' /\ (transition = true -> exists s, k' = Str s) /\
    read_transition_key des (ReadObject des m) keys t = (Just (Prim k', transition), t1) /\
    ReadObject des m t1 = (Just v', t2) /\ arrived H O t s' rest t2 /\ value_rel (id_map_ s') (r_id_map_ t2) a.2 v'.
Proof using Type.
  intros Hv Hnm (k & p & Ha & Hk & _ & _ & Hvok) Hw Hheap Hids Hwr Hm Hp Hrest Hsmall Hnv.
  apply bind_inv in Hw as ([] & s1 & Hw1 & Hw2). rewrite Ha in Hw1. apply primitive_wrote in Hw1.
  set (bk := WritePrimitive (Z.of_nat (length (buffer_ s))) k) in *.
  pose proof (wrote_written H _ _ _ Hw1 (WritePrimitive_ok _ _ (proj1 Hk)) Hheap Hids) as Hwr1.
  destruct (Hv _ _ _ Hw2 ltac:(apply Hwr1) ltac:(apply Hwr1) Hvok) as (b2 & Hwr2 & Hs2 & Hread2).
  rewrite (written_unique H _ _ _ _ Hwr (written_trans H _ _ _ _ _ Hwr1 Hwr2)), <- (assoc_L (++)) in Hp, Hsmall.
  assert (bytes_ok (b2 ++ rest)) by (apply Forall_app; split; [apply Hwr2|done]).
  destruct (transition_key des keys m t _ k (b2 ++ rest) ltac:(lia) Hp Hk) as (k' & transition & Hkey & Hsame & Htr); [done|by eapply small_app|].
  destruct (Hread2 O m Hnm (at_ t (b2 ++ rest)) rest) as (v' & t2 & Hv' & [Hp2 Hm2 Hf2 Hsub2] & Hrel2); [|done|done|by eapply small_app|done|].
  { apply matches_at. by eapply matches_wrote. }
  exists k, k', transition, v', (at_ t (b2 ++ rest)), t2. by split_all.
Qed.

Lemma fast_step n m O ids0 base r r' ow o0 T pre a post done keys properties s s' (t : rstate E) b rest :
  value_spec ser des H n -> (n < m)%nat -> T ∈ end_tags -> answers ow a -> NoDup (item_key ∘ fst <$> pre ++ a :: post) ->
  (forall e k, e ∈ pre ++ a :: post -> norm_key k = item_key e.1 -> own_lookup o0 k = None) -> not_buffer o0 ->
  write_pair (WriteObject ser n) a s = (Just tt, s') -> heap_ s = H -> ids_ok H s -> ids0 ⊆ id_map_ s -> written H s s' b -> value_start b ->
  matches H (r :: O) s t -> position_ t = b ++ rest -> bytes_ok rest -> small (b ++ rest) -> no_view rest -> frame base (r_heap_ t) ->
  Forall2 (property_item_rel (id_map_ s) (r_id_map_ t)) pre done -> fast_inv ids0 base r r' o0 pre done (Fast keys properties) t ->
  exists a' acc' t',
    matches H (r :: O) s' t' /\ position_ t' = rest /\ r_id_map_ t ⊆ r_id_map_ t' /\ frame base (r_heap_ t') /\
    property_item_rel (id_map_ s') (r_id_map_ t') a a' /\ fast_inv ids0 base r r' o0 (pre ++ [a]) (done ++ [a']) acc' t' /\
    forall fuel, read_properties_from m r' T (S fuel) (Fast keys properties) t = read_properties_from m r' T fuel acc' t'.
Proof using Type.
  intros Hv Hnm HT Ha Hdup Hnone Hbuf Hw Hheap Hids Hsub Hwr Hstart Hm Hp Hrest Hsmall Hnv Hf Hall (Ho & Hdone & Hl1 & Hl2).
  destruct (fast_read n m (r :: O) a s s' ow t b rest keys Hv Hnm Ha Hw Hheap Hids Hwr Hm Hp Hrest Hsmall Hnv)
    as (k & k' & transition & v' & t1 & t2 & Hak & Hk & Hsame & Htr & Hkey & Hv' & Harr & Hrel).
  pose proof (opened_arrived H _ _ _ _ _ _ _ _ _ _ Ho Harr) as Ho2. pose proof Harr as [Hp2 Hm2 Hf2 Hsub2].
  destruct (end_tag_eqb b T HT Hstart rest) as (tag & Htag & Hne).
  destruct (same_key_of k k' Hk Hsame) as (key & Hkv & Hnorm). rewrite <- Hak in Hnorm.
  set (fits := transition && FitsRepresentation des t2 (keys ++ option_list (string_of (Prim k'))) v').
  assert (forall fuel, read_properties_from m r' T (S fuel) (Fast keys properties) t =
    (if fits then read_properties_fast des (ReadObject des m) fuel r' T (keys ++ option_list (string_of (Prim k'))) (properties ++ [v'])
     else CommitProperties r' keys properties;; k ← failing (key_of_value des (Prim k')); define_property r' k v';;
       read_properties_slow des (ReadObject des m) fuel r' T (wrap 32 (Z.of_nat (length properties) + 1))) t2) as Hrun.
  { intros fuel. cbn [read_properties_from read_properties_fast]. erewrite bind_just; [|apply peek_tag; rewrite Hp; exact Htag]. rewrite Hne.
    erewrite bind_just; [|exact Hkey]. cbv beta iota. erewrite bind_just; [|exact Hv']. by erewrite bind_just by done. }
  destruct fits eqn:Hfits.
  - apply andb_true_iff in Hfits as [-> _]. destruct (Htr eq_refl) as (sk & ->). cbn [string_of option_list] in Hrun.
    exists (Name sk, v'), (Fast (keys ++ [sk]) (properties ++ [v'])), t2.
    refine (conj Hm2 (conj Hp2 (conj Hsub2 (conj (frame_trans _ _ _ Hf Hf2) (conj _ (conj _ Hrun)))))).
    + split; [|done]. rewrite Hak. destruct Hk as [_ [(i & -> & _)|(s0 & -> & Hs0)]]; [unfold NewNumber in Hsame; by destruct (_ <=? _)|].
      cbn [item_key]. rewrite key_of_name by done. destruct Hsame as (? & [= ->] & Hc). simpl. by rewrite Hc.
    + split; [done|]. rewrite !length_app, Hl1, Hl2. split; [|done]. rewrite Hdone. unfold name_entries.
      rewrite zip_with_app by (by rewrite Hl1, Hl2). by rewrite fmap_app.
  - assert (ids0 ⊆ id_map_ s') as Hsub' by (etrans; [exact Hsub|apply Hwr]).
    destruct (opened_update H _ _ _ _ _ _ _ _ (fill (name_entries (zip keys properties))) (fill done o0) Ho2 Hm2)
      as (Hu1 & Hm3 & Hf3 & Ho3); [by rewrite Hdone|done|by eapply frame_trans|by apply not_buffer_fill|].
    destruct (opened_update H _ _ _ _ _ _ _ _ (define_own key v') (fill (done ++ [(key, v')]) o0) Ho3 Hm3)
      as (Hu2 & Hm4 & Hf4 & Ho4); [by rewrite fill_snoc|done|done|by apply not_buffer_fill|].
    eexists (key, v'), (Slow (wrap 32 (Z.of_nat (length (pre ++ [a]))))), _.
    refine (conj Hm4 (conj Hp2 (conj Hsub2 (conj Hf4 (conj (conj Hnorm Hrel) (conj (conj Ho4 eq_refl) _)))))).
    intros fuel. rewrite Hrun. erewrite bind_just; [|rewrite CommitProperties_fill; exact Hu1].
    erewrite bind_just; [|unfold failing; by rewrite Hkv].
    erewrite bind_just; [|erewrite define_property_new; [exact Hu2|apply Ho3|by eapply fresh_property]].
    cbn [read_properties_from]. by rewrite length_app, Hl2, Nat2Z.inj_add.
Qed.

Lemma fast_items n m items O ids0 base r r' ow o0 T : value_spec ser des H n -> (n < m)%nat -> T ∈ end_tags ->
  Forall (answers ow) items -> NoDup (item_key ∘ fst <$> items) ->
  (forall e k, e ∈ items -> norm_key k = item_key e.1 -> own_lookup o0 k = None) -> not_buffer o0 ->
  item_spec (E := E) H (write_pair (WriteObject ser n)) items (r :: O) ids0 base property_item_rel (fast_inv ids0 base r r' o0)
    (read_properties_from m r' T).
Proof using Type.
  intros Hv Hnm HT Hans Hdup Hnone Hbuf pre a post s s' He Hw Hheap Hids Hsub.
  destruct (slow_items n m items O ids0 base r r' ow o0 T Hv Hnm HT Hans Hdup Hnone Hbuf pre a post s s' He Hw Hheap Hids Hsub) as (b & Hwr & Hstart & Hslow).
  exists b. split_all; [done|done|]. intros t rest done acc Hm Hp Hrest Hsmall Hnv Hf Hall HI. destruct acc as [keys properties|num].
  - subst items. pose proof (answers_middle _ _ _ _ Hans) as Ha.
    eapply (fast_step n m O ids0 base r r' ow o0 T pre a post done keys properties s s' t b rest); done.
  - destruct (Hslow t rest done num Hm Hp Hrest Hsmall Hnv Hf Hall HI) as (a' & num' & t' & ?). by exists a', (Slow num'), t'.
Qed.
End properties.

Lemma sorted_filter (P : Z * own_property -> Prop) `{!forall x, Decision (P x)} l : StronglySorted Z.lt l.*1 -> StronglySorted Z.lt (filter P l).*1.
Proof.
  induction l as [|x l IH]; [done|]. rewrite fmap_cons, filter_cons. intros Hs. inversion Hs as [|?? Hs' Hx]; subst.
  destruct (decide (P x)); [|auto]. rewrite fmap_cons. constructor; [auto|]. apply Forall_forall. intros y Hy.
  apply filter_sub in Hy. by apply (proj1 (Forall_forall _ _) Hx).
Qed.

Lemma fill_app kvs1 kvs2 o : fill (kvs1 ++ kvs2) o = fill kvs2 (fill kvs1 o).
Proof. apply fold_left_app. Qed.

Lemma index_items_rel ids im o done t ns : elements_ok (elements o) -> Forall (covers t) (elements o).*1 ->
  Forall2 (property_item_rel ids im) (index_items o) done ->
  exists es, fill done (mkReceiver t [] ns) = mkReceiver t es ns /\ elements_rel ids im (elements o) es.
Proof.
  intros [Hs Hi] Hc Hall. eapply filled_indices; [by apply sorted_filter| |exact Hall].
  apply Forall_fmap, Forall_forall. intros e He. apply list_elem_of_filter in He as [_ He].
  pose proof (proj1 (Forall_forall _ _) Hi _ He) as [? _]. rewrite Forall_fmap, Forall_forall in Hc. by apply Hc in He.
Qed.

Lemma name_items_rel ids im o done t es : named_ok (named o) -> Forall2 (property_item_rel ids im) (name_items o) done ->
  exists ns, fill done (mkReceiver t es []) = mkReceiver t es ns /\ named_rel ids im (named o) ns.
Proof.
  intros [_ Hn] Hall. eapply filled_names; [|exact Hall]. apply Forall_fmap, Forall_forall. intros e He. apply list_elem_of_filter in He as [_ He].
  by pose proof (proj1 (Forall_forall _ _) Hn _ He) as (_ & ? & _).
Qed.

Lemma items_rel ids im o done t : elements_ok (elements o) -> named_ok (named o) -> Forall (covers t) (elements o).*1 ->
  Forall2 (property_item_rel ids im) (index_items o ++ name_items o) done ->
  exists es ns, fill done (mkReceiver t [] []) = mkReceiver t es ns /\ elements_rel ids im (elements o) es /\ named_rel ids im (named o) ns.
Proof.
  intros He Hn Hc Hall. apply Forall2_app_inv_l in Hall as (d1 & d2 & Hall1 & Hall2 & ->).
  destruct (index_items_rel ids im o d1 t [] He Hc Hall1) as (es & Hes & ?). destruct (name_items_rel ids im o d2 t es Hn Hall2) as (ns & Hns & ?).
  exists es, ns. by rewrite fill_app, Hes.
Qed.

(** A new object has none of the properties. *)
Lemma absent_property o t e k : elements_ok (elements o) -> named_ok (named o) -> 
  match t with JSArray _ _ => chars_of length_string ∉ (chars_of ∘ fst <$> named o) | _ => True end ->
  e ∈ index_items o ++ name_items o -> norm_key k = item_key e.1 -> own_lookup (mkReceiver t [] []) k = None.
Proof.
  intros [_ Hi] [_ Hn] Hl He Hk. destruct k as [i|s]; [done|]. unfold own_lookup. cbn [instance_type named].
  destruct t; try done. rewrite decide_False; [done|]. intros Heq. apply Hl. apply elem_of_app in He as [He|He].
  - exfalso. apply list_elem_of_fmap in He as ([i p] & -> & He). apply list_elem_of_filter in He as [_ He].
    pose proof (proj1 (Forall_forall _ _) Hi _ He) as [? _]. cbn [fst item_key] in Hk. by rewrite key_of_index in Hk.
  - apply list_elem_of_fmap in He as ([s' p] & -> & He). apply list_elem_of_filter in He as [_ He].
    pose proof (proj1 (Forall_forall _ _) Hn _ He) as (_ & Hname & _). cbn [fst item_key] in Hk. rewrite key_of_name in Hk by done.
    injection Hk as Hk. rewrite <- Heq, Hk. by apply (list_elem_of_fmap_2 (chars_of ∘ fst) _ (s', p)).
Qed.

Section kinds.
Context {D E : Type} (ser : serializer D) (des : deserializer E) (H : js_heap) (C : cloning ser des H).

(** *** Objects *)

Lemma fast_chain n r o fs s count c s' map changed : value_spec ser des H n -> H !! r = Some o -> map = map_of o -> changed = false ->
  named_ok (named o) -> fs ⊆ named o -> heap_ s = H -> ids_ok H s ->
  write_fast_properties ser (WriteObject ser n) r map ((fun '(k, p) => (k, (enumerable p, is_field (what p)))) <$> fs) changed (wrap 32 count) s = (Just c, s') ->
  let items := (fun e => (Prim (Str e.1), data_of e.2)) <$> enumerable_own fs in
  chain (write_pair (WriteObject ser n)) items s s' /\ c = wrap 32 (count + Z.of_nat (length items)).
Proof using Type.
  intros Hv Ho -> -> Hok. revert s count. induction fs as [|[k p] fs IH]; intros s count Hsub Hheap Hids Hw; cbv zeta.
  - injection Hw as <- <-. simpl. rewrite Z.add_0_r. by split; [constructor|].
  - rewrite fmap_cons in Hw. cbn [write_fast_properties] in Hw.
    assert (fs ⊆ named o) as Hsub' by (intros x Hx; apply Hsub; by right).
    assert ((k, p) ∈ named o) as Hin by (apply Hsub; by left).
    destruct Hok as [Hnd Hall]. pose proof (proj1 (Forall_forall _ _) Hall _ Hin) as (Hs & Hname & Hp). simpl in Hs, Hname, Hp.
    apply data_of_data in Hp as [Hp Hpok]. unfold enumerable_own in *. rewrite filter_cons. cbn [snd].
    destruct (enumerable p) eqn:Ee; cbn [negb] in Hw; [rewrite decide_True by done|rewrite decide_False by done; by apply IH].
    apply bind_inv in Hw as (o1 & s1 & Hr & Hw). unfold receiver_at in Hr. rewrite Hheap, Ho in Hr. injection Hr as <- <-.
    rewrite bool_decide_true in Hw by done. rewrite Hp in Hw. cbn [negb orb andb is_field] in Hw.
    rewrite (find_named_Some k p _ Hnd Hin) in Hw. destruct p as [enum [v|]]; [|done]. simpl in Ee, Hpok. subst enum.
    apply bind_inv in Hw as ([] & s1 & Hw1 & Hw). apply bind_inv in Hw as ([] & s2 & Hw2 & Hw).
    destruct (Hv _ _ _ Hw1 Hheap Hids Hs) as (b1 & Hwr1 & _). destruct (Hv _ _ _ Hw2 ltac:(apply Hwr1) ltac:(apply Hwr1) Hpok) as (b2 & Hwr2 & _).
    rewrite wrap_add in Hw. destruct (IH s2 _ Hsub' ltac:(apply Hwr2) ltac:(apply Hwr2) Hw) as [Hc ->]. rewrite fmap_cons. split.
    + econstructor; [|exact Hc]. unfold write_pair. by erewrite bind_just.
    + f_equal. simpl. lia.
Qed.

Lemma read_properties_of {A} m r' T (transitions : bool) (k : Z -> R E A) (t : rstate E) :
  (ReadJSObjectProperties des (ReadObject des m) r' T transitions ≫= k) t =
  (b ← get_position; read_properties_from des m r' T (S (length b)) (if transitions then Fast [] [] else Slow 0) ≫= k) t.
Proof using Type. by destruct transitions. Qed.

(** The end of the properties on the fast path. *)
Lemma fast_end {A} (K : R E A) ids0 base r r' o0 m T items O (s : wstate D) (t : rstate E) acc done fuel rest :
  T ∈ end_tags -> T <> kPadding -> position_ t = end_count T (Z.of_nat (length items)) ++ rest -> bytes_ok rest ->
  matches H (r :: O) s t -> frame base (r_heap_ t) -> ids0 ⊆ id_map_ s -> not_buffer o0 -> fast_inv ids0 base r r' o0 items done acc t ->
  exists t1, (read_properties_from des m r' T (S fuel) acc ≫= (fun length => expect length;; K)) t = K (at_ t1 rest) /\
    matches H (r :: O) s t1 /\ frame base (r_heap_ t1) /\ r_id_map_ t1 = r_id_map_ t /\ opened ids0 base r r' (fill done o0) t1.
Proof using Type.
  intros HT HT' Hp Hrest Hm Hf Hsub Hbuf HI. destruct acc as [keys properties|num].
  - destruct HI as (Ho & -> & Hl1 & Hl2).
    destruct (opened_update H _ _ _ _ _ _ _ _ (fill (name_entries (zip keys properties))) (fill (name_entries (zip keys properties)) o0) Ho Hm)
      as (Hu & Hm1 & Hf1 & Ho1); [done|done|done|by apply not_buffer_fill|].
    eexists. split; [|split_all; [exact Hm1|exact Hf1|done|exact Ho1]].
    eapply end_of_loop; [done|exact Hp|done|]. intros b Hpeek Hconsume. cbn [read_properties_from read_properties_fast].
    erewrite bind_just; [|exact Hpeek]. rewrite Z.eqb_refl. erewrite bind_just; [|exact Hconsume]. rewrite Hl2.
    erewrite bind_just; [reflexivity|]. rewrite CommitProperties_fill. unfold update in *. cbn [r_heap_ at_].
    destruct (r_heap_ t !! r') as [o1|]; [|done]. by injection Hu as ->.
  - destruct HI as [Ho ->]. exists t. split; [|by split_all].
    eapply end_of_loop; [done|exact Hp|done|]. intros b Hpeek Hconsume. cbn [read_properties_from read_properties_slow].
    erewrite bind_just; [|exact Hpeek]. rewrite Z.eqb_refl. by erewrite bind_just; [|exact Hconsume].
Qed.

Lemma object_written n r o fast h s s' : value_spec ser des H n -> instance_type o = JSObject fast h ->
  elements_ok (elements o) -> named_ok (named o) -> H !! r = Some o -> heap_ s = H -> ids_ok H s ->
  WriteJSObject ser (WriteObject ser n) r s = (Just tt, s') ->
  let items := index_items o ++ name_items o in
  exists s1 s2, wrote s s1 (WriteTag kBeginJSObject) /\ chain (write_pair (WriteObject ser n)) items s1 s2 /\
    wrote s2 s' (end_count kEndJSObject (Z.of_nat (length items))).
Proof using Type.
  intros Hspec Ht He Hn Ho Hheap Hids Hw. cbv zeta. assert (out_of_memory_ s' = false) as Hoom.
  { eapply checked_false; [|exact Hw]. unfold WriteJSObject, WriteJSObjectSlow. checked. }
  assert (names_apart o) as Hapart by (unfold names_apart; by rewrite Ht).
  apply bind_inv in Hw as (o1 & s0 & Hr & Hw). unfold receiver_at in Hr. rewrite Hheap, Ho in Hr. injection Hr as <- <-.
  destruct (has_fast_properties o && match elements o with [] => true | _ => false end) eqn:Ef;
    [|unfold WriteJSObjectSlow, WriteJSObjectPropertiesSlow in Hw]; (apply put_seq in Hw as (s1 & Hw1 & Hw); [|sticky|done]);
    (apply seq_inv in Hw as (c & s2 & Hc & Ho2 & Hw); [|sticky|done]);
    pose proof (ids_ok_wrote H _ _ _ Hw1 Hids) as Hids1; assert (heap_ s1 = H) as Hheap1 by (destruct Hw1 as (_ & _ & _ & ->); done);
    exists s1, s2; (split; [done|]).
  - apply andb_true_iff in Ef as [_ Ef]. unfold index_items. destruct (elements o); [|done]. cbn [enumerable_own].
    apply (fast_chain n r o (named o) s1 0) in Hc as [Hc ->]; [|done..]. split; [done|]. by apply put_end_count in Hw.
  - apply (properties_chain ser des H n r o (index_items o ++ name_items o) 0) in Hc as [Hc ->]; [|done|done| |done|done|by rewrite keys_items].
    + split; [done|]. by apply put_end_count in Hw.
    + apply Forall_app; split; [by apply index_answers|by apply name_answers].
Qed.

Lemma object_spec n r o fast h : value_spec ser des H n -> instance_type o = JSObject fast h ->
  class_spec des H n (WriteJSObject ser (WriteObject ser n) r) r o.
Proof using C.
  intros Hspec Ht. apply (class_known ser); [done|]. intros Hok. unfold instance_ok in Hok. rewrite Ht in Hok. destruct Hok as (He & Hn).
  assert (names_apart o) as Hapart by (unfold names_apart; by rewrite Ht).
  set (items := index_items o ++ name_items o).
  assert (Forall (answers o) items) as Hans by (apply Forall_app; split; [by apply index_answers|by apply name_answers]).
  apply (filled_spec ser des H C n 0 _ _ _ NewJSObject (WriteTag kBeginJSObject) (fun m r' =>
    b ← get_position; read_properties_from des m r' kEndJSObject (S (length b)) (Fast [] []) ≫= (fun length => expect length;; mret r')));
    [unfold not_buffer, array_buffer_of; by rewrite Ht|done|apply tag_ok|starts| |].
  - intros s s' Hw Hheap Hids Ho. destruct (object_written n r o fast h s s') as (s1 & s2 & Hw1 & Hchain & Hw2); [done..|].
    exists s1. split; [done|]. intros Hheap1 Hids1 Hsub.
    eapply (looped H (id_map_ s) n r o _ _ _ property_item_rel (fun base r' => fast_inv (id_map_ s) base r r' NewJSObject)
      (fun m r' => read_properties_from des m r' kEndJSObject) (fun m r' length => expect length;; mret r'));
      [by eauto using property_item_rel_mono| |done|done|done|exact Hchain|exact Hw2|apply end_count_ok| | |].
    + intros m O base r' Hnm. apply (fast_items ser des H n m items O (id_map_ s) base r r' o); try done.
      * by apply end_tag_object.
      * by apply items_nodup.
      * intros e k Hin Hk. by apply (absent_property o _ e).
    + intros rest. by apply no_view_end.
    + intros [] base r' t Ho'. by split_all.
    + intros O m base r' done acc t rest fuel Hnm Hm Hp Hrest Hf Hsub' HI Hrel. apply (transitivity Hsub) in Hsub'.
      destruct (fast_end (mret r') (id_map_ s) base r r' NewJSObject m kEndJSObject items O s' t acc done fuel rest) as (t1 & Hrun & Hm1 & Hf1 & Hi1 & Ho1); try done; [by apply end_tag_object|].
      destruct (items_rel (id_map_ s') (r_id_map_ t) o done (JSObject true ordinary) He Hn) as (es & ns & Hfill & Hes & Hns); [by apply Forall_true|done|].
      exists (fill done NewJSObject), t1. rewrite Hi1. split_all; try done.
      unfold receiver_rel. rewrite Ht. unfold NewJSObject. by rewrite Hfill.
  - intros O s t b m Hnm Hm Hn0 Hr Hp Hb _. dispatch Hp. apply bind_same.
    etrans; [apply (new_object ser des H C O s t r b NewJSObject (fun object =>
      num_properties ← ReadJSObjectProperties des (ReadObject des m) object kEndJSObject true; expect num_properties;; mret object)); done|].
    by rewrite read_properties_of.
Qed.

(** *** Arrays *)

(** The end of an array: the count of properties, and the length again. *)
Definition end_array (T : SerializationTag) (count n : Z) : bytes := end_count T count ++ WriteVarint 32 n.

Lemma put_end_array s s' T count n :
  (PutTag ser T;; PutVarint ser 32 (wrap 32 count);; PutVarint ser 32 n;; ThrowIfOutOfMemory) s = (Just tt, s') -> wrote s s' (end_array T count n).
Proof using Type.
  assert (puts s (PutTag ser T;; PutVarint ser 32 (wrap 32 count);; PutVarint ser 32 n;; ThrowIfOutOfMemory) (end_array T count n)) as Hp.
  { unfold end_array, end_count. rewrite <- (assoc_L (++)). do 2 (apply puts_seq; [apply puts_raw|sticky|intros ? _]). apply puts_checked, puts_raw. }
  intros Hw. eapply Hp; [exact Hw|]. eapply checked_false; [|exact Hw]. checked.
Qed.

Lemma end_array_ok T count n : 0 <= n < 2 ^ 32 -> bytes_ok (end_array T count n).
Proof using Type. intros Hn. apply Forall_app. split; [apply end_count_ok|apply varint_ok; [auto with v8|done]]. Qed.

Lemma expect_length n (r' : ref) (t : rstate E) rest : 0 <= n < 2 ^ 32 -> bytes_ok rest ->
  (expect n;; mret r') (at_ t (WriteVarint 32 n ++ rest)) = (Just r', at_ t rest).
Proof using Type. intros Hn Hr. by erewrite bind_just; [|by apply expect_written]. Qed.

Lemma array_facts o kind n : instance_type o = JSArray kind n -> instance_ok des H o ->
  elements_ok (elements o) /\ named_ok (named o) /\ 0 <= n < 2 ^ 32 /\ Forall (covers (JSArray HOLEY_ELEMENTS n)) (elements o).*1 /\
  names_apart o /\ not_buffer o.
Proof using Type.
  intros Ht Hok. unfold instance_ok in Hok. rewrite Ht in Hok. destruct Hok as (He & Hn & Hlen & Hc & Hapart & _).
  unfold names_apart, not_buffer, array_buffer_of. by rewrite Ht.
Qed.

Definition new_array (n : Z) : receiver := mkReceiver (JSArray HOLEY_ELEMENTS n) [] [].

Lemma sparse_spec n r o kind len : value_spec ser des H n -> instance_type o = JSArray kind len -> should_serialize_densely kind = false ->
  class_spec des H n (WriteJSArray ser (WriteObject ser n) r kind len) r o.
Proof using C.
  intros Hspec Ht Hkind. apply (class_known ser); [done|]. intros Hok. destruct (array_facts o kind len Ht Hok) as (He & Hn & Hlen & Hcov & Hapart & Hnb).
  set (items := index_items o ++ name_items o).
  assert (Forall (answers o) items) as Hans by (apply Forall_app; split; [by apply index_answers|by apply name_answers]).
  apply (filled_spec ser des H C n 0 _ _ _ (new_array len) (WriteTag kBeginSparseJSArray ++ WriteVarint 32 len) (fun m r' =>
    b ← get_position; read_properties_from des m r' kEndSparseJSArray (S (length b)) (Slow 0) ≫= (fun length => expect length;; expect len;; mret r')));
    [done|done|apply Forall_app; split; [apply tag_ok|by apply varint_ok; auto with v8]|starts| |].
  - intros s s' Hw Hheap Hids Ho. unfold WriteJSArray in Hw. rewrite Hkind in Hw.
    assert (out_of_memory_ s' = false) as Hoom by (eapply checked_false; [|exact Hw]; checked).
    apply put_seq in Hw as (s0 & Hw0 & Hw); [|unfold WriteJSObjectPropertiesSlow; sticky|done].
    apply put_seq in Hw as (s1 & Hw1 & Hw); [|unfold WriteJSObjectPropertiesSlow; sticky|done].
    exists s1. split; [by eapply wrote_trans|]. intros Hheap1 Hids1 Hsub.
    apply bind_inv in Hw as (o1 & s2 & Hr & Hw). unfold receiver_at in Hr. rewrite Hheap1, Ho in Hr. injection Hr as <- <-.
    apply seq_inv in Hw as (c & s2 & Hc & Ho2 & Hw); [|sticky|done].
    apply (properties_chain ser des H n r o items 0) in Hc as [Hc ->]; [|done|done|done|done|done|by rewrite keys_items].
    apply put_end_array in Hw.
    eapply (looped H (id_map_ s) n r o _ _ _ property_item_rel (fun base r' => fast_inv (id_map_ s) base r r' (new_array len))
      (fun m r' => read_properties_from des m r' kEndSparseJSArray) (fun m r' length => expect length;; expect len;; mret r'));
      [by eauto using property_item_rel_mono| |done|done|done|exact Hc|exact Hw|by apply end_array_ok| | |].
    + intros m O base r' Hnm. apply (fast_items ser des H n m items O (id_map_ s) base r r' o); try done.
      * by apply end_tag_sparse.
      * by apply items_nodup.
      * intros e k Hin Hk. apply (absent_property o _ e); try done. unfold names_apart in Hapart. by rewrite Ht in Hapart.
    + intros rest. unfold end_array. rewrite <- (assoc_L (++)). by apply no_view_end.
    + intros [] base r' t Ho'. by split_all.
    + intros O m base r' done acc t rest fuel Hnm Hm Hp Hrest Hf Hsub' HI Hrel. apply (transitivity Hsub) in Hsub'. unfold end_array in Hp. rewrite <- (assoc_L (++)) in Hp.
      destruct (fast_end (expect len;; mret r') (id_map_ s) base r r' (new_array len) m kEndSparseJSArray items O s' t acc done fuel (WriteVarint 32 len ++ rest))
        as (t1 & Hrun & Hm1 & Hf1 & Hi1 & Ho1); try done; [by apply end_tag_sparse|apply Forall_app; split; [by apply varint_ok; auto with v8|done]|].
      destruct (items_rel (id_map_ s') (r_id_map_ t) o done (JSArray HOLEY_ELEMENTS len) He Hn) as (es & ns & Hfill & Hes & Hns); [done|done|].
      exists (fill done (new_array len)), t1. rewrite Hi1, Hrun, expect_length by done. split_all; try done.
      unfold receiver_rel. rewrite Ht. unfold new_array. by rewrite Hfill.
  - intros O s t b m Hnm Hm Hn0 Hr Hp Hb _. rewrite <- (assoc_L (++)) in Hp. dispatch Hp. apply bind_same. unfold ReadSparseJSArray.
    step get_varint; [|done|auto with v8|done|done]. rewrite at_at.
    etrans; [apply (new_object ser des H C O s t r b (new_array len) (fun array =>
      num_properties ← ReadJSObjectProperties des (ReadObject des m) array kEndSparseJSArray false; expect num_properties;; expect len;; mret array)); done|].
    by rewrite read_properties_of.
Qed.
End kinds.
