(* ===== verification/ObjectArrays.v ===== *)
(** The round trip of dense arrays. *)
From S2P Require Import Prelude Conversions Engine WireFormat Serializer JSHeap ObjectWriter ObjectReader WriterTheorems ObjectGraphs ObjectRoundtrip ObjectCopies ObjectParts ObjectProperties.
From Stdlib Require Import Sorting.Sorted.

Section arrays.
Context {D E : Type} (ser : serializer D) (des : deserializer E) (H : js_heap) (C : cloning ser des H).

(** ** The elements, as they are written *)

Definition write_element (n : nat) (e : Z * own_property) : W D Unit := WriteObject ser n (data_of e.2).

(** The indices are the positions. *)
Definition dense (l : list (Z * own_property)) : Prop := l.*1 = Z.of_nat <$> seq 0 (length l).

Lemma dense_find l pre j p suf : dense l -> l = pre ++ (j, p) :: suf -> j = Z.of_nat (length pre) /\ find_element j l = Some p.
Proof using Type.
  intros Hd ->. assert (j = Z.of_nat (length pre)) as Hj.
  { assert ((pre ++ (j, p) :: suf).*1 !! length pre = Some j) as Hl by (rewrite fmap_app, lookup_app_r; rewrite length_fmap, ?Nat.sub_diag; done).
    rewrite Hd in Hl. rewrite list_lookup_fmap, lookup_seq_lt in Hl by (rewrite length_app; simpl; lia). by injection Hl. }
  split; [done|]. apply find_element_Some; [rewrite Hd; apply NoDup_fmap_2; [intros ??; lia|apply NoDup_seq]|]. apply elem_of_app. right. by left.
Qed.

(** With memory the check after a value changes nothing. *)
Lemma write_number n p s s1 : write_primitive ser p s = (Just tt, s1) -> out_of_memory_ s = false -> WriteObject ser n (Prim p) s = (Just tt, s1).
Proof using Type. intros Hw Ho. destruct n; cbn [WriteObject]; unfold WriteObjectBody; rewrite Ho; by destruct p. Qed.

Lemma write_checked (m : W D Unit) s s1 : m s = (Just tt, s1) -> out_of_memory_ s1 = false -> (m;; ThrowIfOutOfMemory) s = (Just tt, s1).
Proof using Type. intros Hm Ho. erewrite bind_just; [|exact Hm]. unfold ThrowIfOutOfMemory. by rewrite Ho. Qed.

Lemma not_oom {A} (m : W D A) s a s1 : sticky m -> m s = (Just a, s1) -> out_of_memory_ s1 = false -> out_of_memory_ s = false.
Proof using Type. intros Hs Hm Ho. destruct (out_of_memory_ s) eqn:Es; [|done]. pose proof (Hs s Es) as Hs1. rewrite Hm in Hs1. simpl in Hs1. congruence. Qed.

Lemma smi_chain n o suf : dense (elements o) -> forall pre s s', elements o = pre ++ suf -> Forall (fun e => exists z, what e.2 = Data (Prim (Smi z))) suf ->
  write_smi_elements ser o (length suf) (Z.of_nat (length pre)) s = (Just tt, s') -> out_of_memory_ s' = false -> chain (write_element n) suf s s'.
Proof using Type.
  intros Hd. induction suf as [|[j p] suf IH]; intros pre s s' He Hall Hw Ho; [injection Hw as ->; constructor|].
  destruct (dense_find _ _ _ _ _ Hd He) as [Hj Hf]. apply Forall_cons in Hall as [[z Hz] Hall]. simpl in Hz.
  cbn [length write_smi_elements] in Hw. rewrite <- Hj, Hf in Hw. destruct p as [enum w]. simpl in Hz. subst w.
  apply seq_inv in Hw as ([] & s1 & Hw1 & Ho1 & Hw); [|sticky|done]. econstructor.
  - unfold write_element, data_of. cbn [snd what]. apply write_number; [by apply write_checked|]. eapply not_oom; [|exact Hw1|done]. unfold WriteSmi. sticky.
  - apply (IH (pre ++ [(j, mkProperty enum (Data (Prim (Smi z))))])); [by rewrite <- (assoc_L (++))|done| |done].
    rewrite length_app. simpl. by replace (Z.of_nat (length pre + 1)) with (j + 1) by lia.
Qed.

Lemma double_chain n o suf : dense (elements o) -> forall pre s s', elements o = pre ++ suf -> Forall (fun e => exists d, what e.2 = Data (Prim (HeapNumber d))) suf ->
  write_double_elements ser o (length suf) (Z.of_nat (length pre)) s = (Just tt, s') -> out_of_memory_ s' = false -> chain (write_element n) suf s s'.
Proof using Type.
  intros Hd. induction suf as [|[j p] suf IH]; intros pre s s' He Hall Hw Ho; [injection Hw as ->; constructor|].
  destruct (dense_find _ _ _ _ _ Hd He) as [Hj Hf]. apply Forall_cons in Hall as [[d Hz] Hall]. simpl in Hz.
  cbn [length write_double_elements] in Hw. rewrite <- Hj, Hf in Hw. destruct p as [enum w]. simpl in Hz. subst w.
  apply seq_inv in Hw as ([] & s0 & Hw0 & Ho0 & Hw); [|sticky|done]. apply seq_inv in Hw as ([] & s1 & Hw1 & Ho1 & Hw); [|sticky|done]. econstructor.
  - unfold write_element, data_of. cbn [snd what]. apply write_number; [apply write_checked; [unfold WriteHeapNumber; by erewrite bind_just|done]|].
    eapply not_oom; [|exact Hw0|done]. sticky.
  - apply (IH (pre ++ [(j, mkProperty enum (Data (Prim (HeapNumber d))))])); [by rewrite <- (assoc_L (++))|done| |done].
    rewrite length_app. simpl. by replace (Z.of_nat (length pre + 1)) with (j + 1) by lia.
Qed.

Lemma packed_chain n r o len suf : value_spec ser des H n -> instance_type o = JSArray PACKED_ELEMENTS len -> H !! r = Some o ->
  dense (elements o) -> forall pre s s' k, elements o = pre ++ suf -> Forall (fun e => is_data e.2) suf -> heap_ s = H -> ids_ok H s ->
  write_packed_elements (WriteObject ser n) r len (length suf) (Z.of_nat (length pre)) s = (Just k, s') -> k = O /\ chain (write_element n) suf s s'.
Proof using Type.
  intros Hspec Ht Ho Hd. induction suf as [|[j p] suf IH]; intros pre s s' k He Hall Hheap Hids Hw; [injection Hw as <- ->; split; [done|constructor]|].
  destruct (dense_find _ _ _ _ _ Hd He) as [Hj Hf]. apply Forall_cons in Hall as [Hp Hall]. simpl in Hp.
  cbn [length write_packed_elements] in Hw. apply bind_inv in Hw as (o1 & s0 & Hr & Hw). unfold receiver_at in Hr. rewrite Hheap, Ho in Hr. injection Hr as <- <-.
  unfold is_packed in Hw. rewrite Ht, Z.eqb_refl, <- Hj, Hf in Hw. destruct p as [enum [v|]]; [|by destruct Hp as (? & ? & _)].
  apply data_of_data in Hp as [_ Hok]. apply bind_inv in Hw as ([] & s1 & Hw1 & Hw).
  destruct (Hspec _ _ _ Hw1 Hheap Hids Hok) as (b1 & Hwr1 & _).
  destruct (IH (pre ++ [(j, mkProperty enum (Data v))]) s1 s' k) as [-> Hc]; [by rewrite <- (assoc_L (++))|done|apply Hwr1|apply Hwr1| |].
  { rewrite length_app. simpl. by replace (Z.of_nat (length pre + 1)) with (j + 1) by lia. }
  split; [done|]. by econstructor.
Qed.

(** ** The elements, as they are read *)

Definition element_rel (ids : gmap ref Z) (im : gmap Z ref) (e : Z * own_property) (e' : property_key * js_value) : Prop :=
  e'.1 = Index e.1 /\ value_rel ids im (data_of e.2) e'.2.

Lemma element_rel_mono ids ids2 im im2 e e' : ids ⊆ ids2 -> im ⊆ im2 -> element_rel ids im e e' -> element_rel ids2 im2 e e'.
Proof using Type. intros ? ? []. split; [done|by eapply value_rel_mono]. Qed.

Definition element_inv (ids0 : gmap ref Z) (base : js_heap) (r r' : ref) (o0 : receiver) (pre : list (Z * own_property))
    (done : list (property_key * js_value)) (acc : Z) (t : rstate E) : Prop :=
  opened ids0 base r r' (fill done o0) t /\ acc = Z.of_nat (length pre).

Lemma end_tag_hole : kTheHole ∈ end_tags.
Proof using Type. apply (bool_decide_unpack _). by vm_compute. Qed.

Lemma element_items n m items O ids0 base r r' o0 : value_spec ser des H n -> (n < m)%nat -> dense items ->
  Forall (fun e => is_data e.2) items -> not_buffer o0 ->
  item_spec (E := E) H (write_element n) items (r :: O) ids0 base element_rel (element_inv ids0 base r r' o0)
    (fun fuel i => read_elements des (ReadObject des m) r' fuel i).
Proof using C.
  intros Hspec Hnm Hd Hall Hbuf pre a post s s' He Hw Hheap Hids Hsub.
  destruct a as [j p]. destruct (dense_find _ _ _ _ _ Hd He) as [Hj _]. rewrite He in Hall. apply Forall_app in Hall as [_ Hall].
  apply Forall_cons in Hall as [Hp _]. apply data_of_data in Hp as [_ Hok].
  destruct (Hspec _ _ _ Hw Hheap Hids Hok) as (b & Hwr & Hstart & Hread). exists b. split_all; [done|done|].
  intros t rest done acc Hm Hp Hrest Hsmall Hnv Hf Hrel [Ho ->].
  destruct (Hread (r :: O) m Hnm t rest Hm Hp Hrest Hsmall Hnv) as (v' & t1 & Hv & Harr & Hval).
  pose proof (opened_arrived H _ _ _ _ _ _ _ _ _ _ Ho Harr) as Ho1. pose proof Harr as [Hp1 Hm1 Hf1 Hsub1].
  destruct (opened_update H _ _ _ _ _ _ _ _ (define_own (Index j) v') (fill (done ++ [(Index j, v')]) o0) Ho1 Hm1)
    as (Hu & Hmu & Hfu & Hou); [by rewrite fill_snoc|etrans; [exact Hsub|apply Hwr]|by eapply frame_trans|by apply not_buffer_fill|].
  eexists (Index j, v'), (Z.of_nat (length (pre ++ [(j, p)]))), _.
  refine (conj Hmu (conj Hp1 (conj Hsub1 (conj Hfu (conj (conj eq_refl Hval) (conj (conj Hou eq_refl) _)))))).
  intros fuel. cbn [read_elements]. rewrite bool_decide_false by (rewrite Hp; apply value_start_not; [by apply value_start_app|apply end_tag_hole]).
  erewrite bind_just; [|exact Hv]. rewrite (c_version _ _ _ C). change (kLatestVersion <? 11) with false. cbn [andb].
  rewrite <- Hj. erewrite bind_just; [|exact Hu]. rewrite length_app. simpl. by replace (Z.of_nat (length pre + 1)) with (j + 1) by lia.
Qed.

(** ** The names that follow *)

Section names.
Context (r : ref) (o : receiver) (kind : elements_kind) (len : Z) (Ht : instance_type o = JSArray kind len) (Hok : instance_ok des H o).
Context (Hall : enumerable_own (elements o) = elements o).

(** [done1] are the elements of the array, read in the state of [ids1]. *)
Definition after_elements (ids0 ids1 : gmap ref Z) (base : js_heap) (r' : ref) (pre : list (js_value * js_value))
    (done : list (property_key * js_value)) (acc : fast_state) (t : rstate E) : Prop :=
  exists done1, Forall2 (property_item_rel ids1 (r_id_map_ t)) (index_items o) done1 /\
    fast_inv ids0 base r r' (fill done1 (new_array len)) pre done acc t.

Lemma name_after_elements ids im done1 e k : Forall2 (property_item_rel ids im) (index_items o) done1 ->
  e ∈ name_items o -> norm_key k = item_key e.1 -> own_lookup (fill done1 (new_array len)) k = None.
Proof using Hok Ht.
  destruct (array_facts des H o kind len Ht Hok) as (He & Hn & _ & _ & Hapart & _). intros Hrel Hin Hk.
  apply own_lookup_fill.
  - rewrite (related_keys _ _ _ _ Hrel), Hk. intros Hin'. pose proof (items_nodup o He Hn) as Hnd. rewrite fmap_app in Hnd.
    apply NoDup_app in Hnd as (_ & Hnd & _). apply (Hnd _ Hin'). by apply (list_elem_of_fmap_2 (item_key ∘ fst)).
  - apply (absent_property o _ e); [done|done| |by apply elem_of_app; right|done]. unfold names_apart in Hapart. by rewrite Ht in Hapart.
Qed.

Lemma name_loop n m O ids0 ids1 base r' : value_spec ser des H n -> (n < m)%nat ->
  item_spec (E := E) H (write_pair (WriteObject ser n)) (name_items o) (r :: O) ids0 base property_item_rel
    (after_elements ids0 ids1 base r') (read_properties_from des m r' kEndDenseJSArray).
Proof using Hok Ht.
  intros Hspec Hnm pre a post s s' He Hw Hheap Hids Hsub.
  destruct (array_facts des H o kind len Ht Hok) as (Hel & Hn & _ & _ & Hapart & _).
  pose proof (items_nodup o Hel Hn) as Hnd. rewrite fmap_app in Hnd. apply NoDup_app in Hnd as (_ & _ & Hnd).
  pose proof (name_answers o Hn Hapart) as Hans.
  assert (Hitems := fun o0 Hnone Hbuf => fast_items ser des H n m (name_items o) O ids0 base r r' o o0 kEndDenseJSArray Hspec Hnm
    (end_tag_dense) Hans Hnd Hnone Hbuf pre a post s s' He Hw Hheap Hids Hsub).
  destruct (Hitems (new_array len)) as (b & Hwr & Hstart & _); [|done|].
  { intros e k Hin Hk. apply (absent_property o _ e); [done|done| |by apply elem_of_app; right|done]. unfold names_apart in Hapart. by rewrite Ht in Hapart. }
  exists b. split_all; [done|done|]. intros t rest done acc Hm Hp Hrest Hsmall Hnv Hf Hrel (done1 & Hrel1 & HI).
  destruct (Hitems (fill done1 (new_array len))) as (b' & Hwr' & _ & Hrun); [intros e k Hin Hk; by eapply name_after_elements|by apply not_buffer_fill|].
  rewrite (written_unique H _ _ _ _ Hwr' Hwr) in Hrun.
  destruct (Hrun t rest done acc Hm Hp Hrest Hsmall Hnv Hf Hrel HI) as (a' & acc' & t' & Hm' & Hp' & Hsub' & Hf' & Hrel' & HI' & HL).
  exists a', acc', t'. refine (conj Hm' (conj Hp' (conj Hsub' (conj Hf' (conj Hrel' (conj _ HL)))))). exists done1. split; [|done].
  eapply Forall2_impl; [exact Hrel1|]. intros. by eapply property_item_rel_mono.
Qed.

Lemma elements_related ids im done1 : Forall2 (element_rel ids im) (elements o) done1 -> Forall2 (property_item_rel ids im) (index_items o) done1.
Proof using Hok Ht Hall.
  destruct (array_facts des H o kind len Ht Hok) as ([_ He] & _). intros Hrel. unfold index_items. rewrite Hall. apply Forall2_fmap_l.
  clear - Hrel He. induction Hrel as [|[j p] [k v] l done1 [Hk Hv] _ IH]; [constructor|]. apply Forall_cons in He as [[Hj _] He].
  constructor; [|by apply IH]. split; [|done]. simpl in Hk. subst k. change (norm_key (Index j) = norm_key (key_of (NewNumber j))). by rewrite key_of_index.
Qed.

Definition read_names (m : nat) (array : ref) : R E ref :=
  num_properties ← ReadJSObjectProperties des (ReadObject des m) array kEndDenseJSArray false;
  expect num_properties;; expect len;; mret array.

Lemma names_fills n ids0 s s1 s' : value_spec ser des H n -> heap_ s = H -> ids_ok H s -> ids0 ⊆ id_map_ s ->
  chain (write_pair (WriteObject ser n)) (name_items o) s s1 -> wrote s1 s' (end_array kEndDenseJSArray (Z.of_nat (length (name_items o))) len) ->
  fills H ids0 n 0 r o (fun '(fuel, acc, done1) ids base r' t => fuel = O /\
      element_inv ids0 base r r' (new_array len) (elements o) done1 acc t /\ Forall2 (element_rel ids (r_id_map_ t)) (elements o) done1)
    (fun '(fuel, acc, done1) m r' => read_elements des (ReadObject des m) r' fuel acc ≫= (fun _ => read_names m r')) s s'.
Proof using Hok Ht Hall.
  intros Hspec Hheap Hids H0 Hc Hw. destruct (array_facts des H o kind len Ht Hok) as (He & Hn & Hlen & Hcov & Hapart & _).
  apply (fills_weaken H (X := nat * Z * list (property_key * js_value)) ids0 n 0 0 r o (fun '(fuel, acc, done1) ids base r' t => fuel = O /\
      element_inv ids0 base r r' (new_array len) (elements o) done1 acc t /\ Forall2 (element_rel ids (r_id_map_ t)) (elements o) done1)
    (fun _ m r' => b ← get_position; read_properties_from des m r' kEndDenseJSArray (S (length b)) (Slow 0) ≫= (fun num => expect num;; expect len;; mret r'))); [lia| |].
  - eapply (looped H ids0 n r o _ _ _ property_item_rel (fun base r' => after_elements ids0 (id_map_ s) base r')
      (fun m r' => read_properties_from des m r' kEndDenseJSArray) (fun m r' num => expect num;; expect len;; mret r'));
      [by eauto using property_item_rel_mono| |done|done|done|exact Hc|exact Hw|by apply end_array_ok| | |].
    + intros m O base r' Hnm. by apply name_loop.
    + intros rest. unfold end_array. rewrite <- (assoc_L (++)). by apply no_view_end.
    + intros [[fuel acc] done1] base r' t (_ & [Ho ->] & Hrel). exists done1. split; [by apply elements_related|]. by split.
    + intros O m base r' done acc t rest fuel Hnm Hm Hp Hrest Hf Hsub' (done1 & Hrel1 & HI) Hrel. unfold end_array in Hp. rewrite <- (assoc_L (++)) in Hp.
      destruct (fast_end des H (expect len;; mret r') ids0 base r r' (fill done1 (new_array len)) m kEndDenseJSArray (name_items o) O s' t acc done fuel (WriteVarint 32 len ++ rest))
        as (t1 & Hrun & Hm1 & Hf1 & Hi1 & Ho1); try done;
        [by apply end_tag_dense|apply Forall_app; split; [by apply varint_ok; auto with v8|done]|by etrans|by apply not_buffer_fill|].
      rewrite <- fill_app in Ho1.
      destruct (items_rel (id_map_ s') (r_id_map_ t) o (done1 ++ done) (JSArray HOLEY_ELEMENTS len) He Hn) as (es & ns & Hfill & Hes & Hns); [done| |].
      { apply Forall2_app; [|exact Hrel]. eapply Forall2_impl; [exact Hrel1|]. intros. by eapply property_item_rel_mono. }
      exists (fill (done1 ++ done) (new_array len)), t1. rewrite Hi1, Hrun, expect_length by done. split_all; try done.
      unfold receiver_rel. rewrite Ht. unfold new_array. by rewrite Hfill.
  - intros [[fuel acc] done1] base r' m t (-> & HI & Hrel) _. exists (O, acc, done1). split; [by split_all|].
    erewrite bind_just by done. unfold read_names. by rewrite read_properties_of.
Qed.

(** *** The three packed kinds *)

Definition write_dense_elements (n : nat) : W D nat :=
  match kind with
  | PACKED_SMI_ELEMENTS => write_smi_elements ser o (Z.to_nat len) 0;; mret O
  | PACKED_DOUBLE_ELEMENTS => write_double_elements ser o (Z.to_nat len) 0;; mret O
  | _ => write_packed_elements (WriteObject ser n) r len (Z.to_nat len) 0
  end.

Lemma dense_facts : should_serialize_densely kind = true ->
  len <= kMaxFixedArrayLength /\ dense (elements o) /\ Z.to_nat len = length (elements o) /\ enumerable_own (elements o) = elements o /\
  Forall (fun e => is_data e.2) (elements o).
Proof using Hok Ht.
  intros Hk. unfold instance_ok in Hok. rewrite Ht in Hok. destruct Hok as ([_ He] & _ & _ & _ & _ & Hkind).
  assert (len <= kMaxFixedArrayLength /\ is_dense o len (fun _ => True)) as (Hle & Hseq & Hen).
  { destruct kind; try done; destruct Hkind as (? & Hseq & Hall'); (split; [done|split; [done|]]); eapply Forall_impl; try exact Hall'; by intros ? []. }
  assert (Z.to_nat len = length (elements o)) as Hl by (rewrite <- (length_fmap fst), Hseq, length_fmap, length_seq; done).
  split_all; [done|unfold dense; by rewrite <- Hl|done| |eapply Forall_impl; [exact He|by intros ? []]].
  clear - Hen. unfold enumerable_own. induction Hen as [|e l [He _] _ IH]; [done|]. rewrite filter_cons, decide_True by done. by rewrite IH.
Qed.

Lemma elements_written n s s' k : value_spec ser des H n -> should_serialize_densely kind = true -> H !! r = Some o -> heap_ s = H -> ids_ok H s ->
  write_dense_elements n s = (Just k, s') -> out_of_memory_ s' = false -> k = O /\ chain (write_element n) (elements o) s s'.
Proof using Hok Ht.
  intros Hspec Hk Ho Hheap Hids Hw Hoom. destruct (dense_facts Hk) as (_ & Hd & Hl & _ & Hdata).
  unfold write_dense_elements in Hw. rewrite Hl in Hw. unfold instance_ok in Hok. rewrite Ht in Hok. destruct Hok as (_ & _ & _ & _ & _ & Hkind).
  change 0 with (Z.of_nat (length (@nil (Z * own_property)))) in Hw. destruct kind; try done; destruct Hkind as (_ & _ & Hel).
  - apply bind_inv in Hw as ([] & s1 & Hw & Hret). injection Hret as <- <-. split; [done|]. eapply smi_chain; [exact Hd| | |exact Hw|done]; [done|].
    apply Forall_forall. intros e He. apply (proj1 (Forall_forall _ _) Hel) in He as Hz. destruct Hz as [_ [z Hz]].
    apply (proj1 (Forall_forall _ _) Hdata), data_of_data in He as [He _]. exists z. by rewrite He, Hz.
  - apply bind_inv in Hw as ([] & s1 & Hw & Hret). injection Hret as <- <-. split; [done|]. eapply double_chain; [exact Hd| | |exact Hw|done]; [done|].
    apply Forall_forall. intros e He. apply (proj1 (Forall_forall _ _) Hel) in He as Hz. destruct Hz as [_ [z Hz]].
    apply (proj1 (Forall_forall _ _) Hdata), data_of_data in He as [He _]. exists z. by rewrite He, Hz.
  - by eapply packed_chain; [exact Hspec|exact Ht|exact Ho|exact Hd| |exact Hdata|done|done|exact Hw].
Qed.
End names.

Lemma dense_spec n r o kind len : value_spec ser des H n -> instance_type o = JSArray kind len -> should_serialize_densely kind = true ->
  class_spec des H n (WriteJSArray ser (WriteObject ser n) r kind len) r o.
Proof using C.
  intros Hspec Ht Hkind. apply (class_known ser); [done|]. intros Hok. destruct (array_facts des H o kind len Ht Hok) as (He & Hn & Hlen & Hcov & Hapart & Hnb).
  destruct (dense_facts o kind len Ht Hok Hkind) as (Hmax & Hd & Hl & Hall & Hdata).
  apply (filled_spec ser des H C n (length (elements o)) _ _ _ (new_array len) (WriteTag kBeginDenseJSArray ++ WriteVarint 32 len)
    (fun m r' => read_elements des (ReadObject des m) r' (length (elements o)) 0 ≫= (fun _ => read_names len m r')));
    [done|done|apply Forall_app; split; [apply tag_ok|by apply varint_ok; auto with v8]|starts| |].
  - intros s s' Hw Hheap Hids Ho. unfold WriteJSArray in Hw. rewrite Hkind in Hw.
    assert (out_of_memory_ s' = false) as Hoom by (eapply checked_false; [|exact Hw]; checked).
    apply put_seq in Hw as (s0 & Hw0 & Hw); [|unfold WriteJSObjectPropertiesSlow; sticky|done].
    apply put_seq in Hw as (s1 & Hw1 & Hw); [|unfold WriteJSObjectPropertiesSlow; sticky|done].
    exists s1. split; [by eapply wrote_trans|]. intros Hheap1 Hids1 Hsub.
    apply bind_inv in Hw as (o1 & s2 & Hr & Hw). unfold receiver_at in Hr. rewrite Hheap1, Ho in Hr. injection Hr as <- <-. cbv zeta in Hw.
    apply seq_inv in Hw as (k & s2 & Hel & Ho2 & Hw); [|unfold WriteJSObjectPropertiesSlow; sticky|done].
    destruct (elements_written r o kind len Ht Hok n s1 s2 k Hspec Hkind Ho Hheap1 Hids1 Hel Ho2) as [-> Hel'].
    apply (fills_weaken H (X := nat * Z) _ _ (length (elements o) + 0) _ _ _
      (fun '(fuel, acc) ids base r' t => fuel = O /\ element_inv (id_map_ s) base r r' (new_array len) [] [] acc t)
      (fun '(fuel, acc) m r' => read_elements des (ReadObject des m) r' (length (elements o) + fuel)%nat acc ≫= (fun _ => read_names len m r'))); [lia| |].
    + apply (loop_fills H (id_map_ s) n 0 r o (write_element n) (elements o) element_rel (fun base r' => element_inv (id_map_ s) base r r' (new_array len))
        (fun m r' fuel i => read_elements des (ReadObject des m) r' fuel i) (fun m r' _ => read_names len m r') (fun fuel => fuel = O) s1 s2 s');
        [by apply element_rel_mono| |done|done|done|exact Hel'|].
      { intros m O base r' Hnm. by apply element_items. }
      intros Hheap2 Hids2 Hsub2. apply bind_inv in Hw as ([] & s3 & Hs & Hw). injection Hs as <-.
      apply bind_inv in Hw as (o1 & s4 & Hr & Hw). unfold receiver_at in Hr. rewrite Hheap2, Ho in Hr. injection Hr as <- <-.
      apply seq_inv in Hw as (c & s3 & Hc & Ho3 & Hw); [|sticky|done].
      apply (properties_chain ser des H n r o (name_items o) 0) in Hc as [Hc ->];
        [|done|done|by apply name_answers|done|done|by rewrite keys_names].
      apply put_end_array in Hw. eapply (names_fills r o kind len Ht Hok Hall); try done. by etrans.
    + intros [] base r' m t Ho' _. exists (O, 0). split; [by split|]. by rewrite Nat.add_0_r.
  - intros O s t b m Hnm Hm Hn0 Hr Hp Hb Hk. rewrite <- (assoc_L (++)) in Hp. dispatch Hp. apply bind_same. unfold ReadDenseJSArray.
    step get_varint; [|done|auto with v8|done|done]. rewrite at_at. erewrite bind_just by done. change (position_ (at_ t b)) with b.
    destruct (Z.gtb_spec len kMaxFixedArrayLength); [lia|]. destruct (Z.gtb_spec len (Z.of_nat (length b))); [lia|]. cbn [orb]. rewrite Hl.
    by apply (new_object ser des H C O s t r b (new_array len) (fun array =>
      read_elements des (ReadObject des m) array (length (elements o)) 0 ≫= (fun _ => read_names len m array))).
Qed.
End arrays.
