(* ===== verification/ObjectErrors.v ===== *)
(** The round trip of errors. *)
From S2P Require Import Prelude Conversions Engine WireFormat Serializer JSHeap ObjectWriter ObjectReader WriterTheorems ObjectGraphs ObjectRoundtrip ObjectCopies ObjectParts.

(** ** Tags *)

#[export] Instance ErrorTag_eq_dec : EqDecision ErrorTag.
Proof. solve_decision. Defined.

Definition tag_bytes (tag : Z) : bytes := WriteVarint 8 tag.

Lemma error_tag_range t : 0 <= error_tag_byte t < 2 ^ 8.
Proof. by destruct t. Qed.

Lemma error_tag_cases name :
  match error_tag_of name with
  | Some t => error_name_of (error_tag_byte t) = Some (error_name name)
  | None => error_name name = str "Error"
  end.
Proof.
  unfold error_tag_of, error_name, error_prototypes. cbn [list_find fst snd]. repeat (case_decide; [by vm_compute|]). done.
Qed.

(** No tag of an error's parts is one of a constructor. *)
Lemma error_name_of_part t : t ∈ [kMessage; kStack; kCause; kEnd] -> error_name_of (error_tag_byte t) = None.
Proof. intros Ht. by repeat (apply elem_of_cons in Ht as [->|Ht]; [by vm_compute|]); apply elem_of_nil in Ht. Qed.

(** ** The parts, each as its tag and what follows *)

Section parts.
Context (constructor : option ErrorTag) (message stack : option flat_string) (last : ErrorTag) (n1 n2 : Z).

Definition stack_part : ErrorTag * bytes :=
  match stack with Some s => (kStack, WriteString n2 s ++ tag_bytes (error_tag_byte last)) | None => (last, []) end.
Definition message_part : ErrorTag * bytes :=
  match message with
  | Some s => (kMessage, WriteString n1 s ++ tag_bytes (error_tag_byte stack_part.1) ++ stack_part.2)
  | None => stack_part
  end.
Definition constructor_part : ErrorTag * bytes :=
  match constructor with Some t => (t, tag_bytes (error_tag_byte message_part.1) ++ message_part.2) | None => message_part end.
Definition error_head : bytes := WriteTag kError ++ tag_bytes (error_tag_byte constructor_part.1) ++ constructor_part.2.
End parts.

Lemma widths_8 : (8 : Z) ∈ widths.
Proof. by left. Qed.
#[export] Hint Resolve widths_8 : v8.

Lemma tag_bytes_ok t : bytes_ok (tag_bytes (error_tag_byte t)).
Proof. apply varint_ok; [auto with v8|apply error_tag_range]. Qed.

Lemma error_head_ok constructor message stack last n1 n2 :
  (forall s, message = Some s -> string_ok s) -> (forall s, stack = Some s -> string_ok s) ->
  bytes_ok (error_head constructor message stack last n1 n2) /\ value_start (error_head constructor message stack last n1 n2).
Proof.
  intros Hm Hs. split; [|unfold error_head; starts]. pose proof tag_bytes_ok as Htag.
  assert (bytes_ok (stack_part stack last n2).2).
  { destruct stack; [|constructor]. apply Forall_app; split; [by apply string_bytes_ok, Hs|apply Htag]. }
  assert (bytes_ok (message_part message stack last n1 n2).2).
  { destruct message; [|done]. apply Forall_app; split; [by apply string_bytes_ok, Hm|apply Forall_app; split; [apply Htag|done]]. }
  unfold error_head. apply Forall_app. split; [apply tag_ok|]. apply Forall_app. split; [apply Htag|].
  destruct constructor; [apply Forall_app; split; [apply Htag|done]|done].
Qed.

Section errors.
Context {D E : Type} (ser : serializer D) (des : deserializer E) (H : js_heap) (C : cloning ser des H).

Lemma get_error_tag (t : rstate E) T b : position_ t = tag_bytes (error_tag_byte T) ++ b -> bytes_ok b -> GetVarint 8 t = (Just (error_tag_byte T), at_ t b).
Proof using Type. intros Hp Hb. apply get_varint; [done|auto with v8|apply error_tag_range|done]. Qed.

Lemma read_error_string m (t : rstate E) T last string n rest : (0 < m)%nat ->
  position_ t = WriteString n string ++ tag_bytes (error_tag_byte last) ++ rest -> string_ok string -> bytes_ok rest ->
  ReadErrorString des (ReadObject des m) T (error_tag_byte T) t = (Just (Some (canonical_string string), error_tag_byte last), at_ t rest).
Proof using C.
  intros Hm Hp Hs Hr. unfold ReadErrorString. rewrite Z.eqb_refl. erewrite bind_just; [|eapply (read_string_value ser des H C); [done|exact Hp|done|]].
  - erewrite bind_just; [|by apply get_error_tag]. by rewrite at_at.
  - apply Forall_app. split; [apply tag_bytes_ok|done].
Qed.

Lemma no_error_string rec (t : rstate E) T tag : tag <> error_tag_byte T -> ReadErrorString des rec T tag t = (Just (None, tag), t).
Proof using Type. intros Ht. unfold ReadErrorString. destruct (Z.eqb_spec tag (error_tag_byte T)); [done|done]. Qed.

(** What is left to read after the error was made. *)
Definition read_cause (last : ErrorTag) (m : nat) (error : ref) : R E ref :=
  tag ← (if error_tag_byte last =? error_tag_byte kCause then
           cause ← ReadObject des m; update error (add_cause cause);; GetVarint 8
         else mret (error_tag_byte last));
  if tag =? error_tag_byte kEnd then mret error else throws.

Lemma stack_tag stack last n2 : last ∈ [kCause; kEnd] -> (stack_part stack last n2).1 ∈ [kStack; kCause; kEnd].
Proof using Type. intros Hl. destruct stack; [by left|by right]. Qed.
Lemma message_tag message stack last n1 n2 : last ∈ [kCause; kEnd] -> (message_part message stack last n1 n2).1 ∈ [kMessage; kStack; kCause; kEnd].
Proof using Type. intros Hl. destruct message; [by left|right; by apply stack_tag]. Qed.

Lemma error_tag_inj T T' : error_tag_byte T = error_tag_byte T' -> T = T'.
Proof using Type. by destruct T, T'. Qed.

Lemma read_stack m (t : rstate E) stack last n2 rest : (0 < m)%nat -> last ∈ [kCause; kEnd] -> (forall s, stack = Some s -> string_ok s) -> bytes_ok rest ->
  position_ t = (stack_part stack last n2).2 ++ rest ->
  ReadErrorString des (ReadObject des m) kStack (error_tag_byte (stack_part stack last n2).1) t =
  (Just (canonical_string <$> stack, error_tag_byte last), at_ t rest).
Proof using C.
  intros Hm Hl Hs Hr Hp. destruct stack as [s|]; cbn [stack_part fst snd] in *.
  - rewrite <- (assoc_L (++)) in Hp. eapply read_error_string; [done|exact Hp|by apply Hs|done].
  - rewrite no_error_string; [by rewrite <- (at_position t), Hp, at_at|]. intros He. apply error_tag_inj in He. subst last.
    revert Hl. apply (bool_decide_unpack (~ _)). by vm_compute.
Qed.

Lemma read_message m (t : rstate E) message stack last n1 n2 rest : (0 < m)%nat -> last ∈ [kCause; kEnd] ->
  (forall s, message = Some s -> string_ok s) -> (forall s, stack = Some s -> string_ok s) -> bytes_ok rest ->
  position_ t = (message_part message stack last n1 n2).2 ++ rest ->
  ReadErrorString des (ReadObject des m) kMessage (error_tag_byte (message_part message stack last n1 n2).1) t =
  (Just (canonical_string <$> message, error_tag_byte (stack_part stack last n2).1), at_ t ((stack_part stack last n2).2 ++ rest)).
Proof using C.
  intros Hm Hl Hs Hs2 Hr Hp. destruct message as [s|]; cbn [message_part fst snd] in *.
  - rewrite <- !(assoc_L (++)) in Hp. eapply read_error_string; [done|exact Hp|by apply Hs|].
    apply Forall_app. split; [|done]. destruct stack; [|constructor]. apply Forall_app. split; [by apply string_bytes_ok, Hs2|apply tag_bytes_ok].
  - rewrite no_error_string; [by rewrite <- (at_position t), Hp, at_at|]. intros He. apply error_tag_inj in He.
    pose proof (stack_tag stack last n2 Hl) as Ht. rewrite He in Ht. revert Ht. apply (bool_decide_unpack (~ _)). by vm_compute.
Qed.

Lemma read_error_head O (s : wstate D) r m (t : rstate E) name message stack last n1 n2 rest : (0 < m)%nat -> last ∈ [kCause; kEnd] ->
  (forall s, message = Some s -> string_ok s) -> (forall s, stack = Some s -> string_ok s) -> bytes_ok rest ->
  matches H O s t -> id_map_ s !! r = None -> (r < length H)%nat ->
  position_ t = error_head (error_tag_of name) message stack last n1 n2 ++ rest ->
  ReadObjectInternal des (ReadObject des m) t =
  (x ← read_cause last m (length (r_heap_ t)); mret (Receiver x))
    (at_ (allocated (ConstructError (error_name name) (canonical_string <$> message) (canonical_string <$> stack)) t) rest).
Proof using C.
  intros Hm Hl Hs Hs2 Hrest Hmt Hn Hr Hp. unfold error_head in Hp. rewrite <- !(assoc_L (++)) in Hp. dispatch Hp. apply bind_same. unfold ReadJSError.
  destruct (error_head_ok (error_tag_of name) message stack last n1 n2 Hs Hs2) as [Hok _]. apply Forall_app in Hok as [_ Hok]. apply Forall_app in Hok as [_ Hok].
  erewrite bind_just; [|by eapply new_id_fresh]. step get_error_tag; [|done|by apply Forall_app]. rewrite at_at.
  erewrite (bind_just _ _ _ (error_name name, error_tag_byte (message_part message stack last n1 n2).1)
    (at_ (bumped t) ((message_part message stack last n1 n2).2 ++ rest))).
  2: { pose proof (error_tag_cases name) as Hname. destruct (error_tag_of name) as [T|]; cbn [constructor_part fst snd] in *.
       - rewrite Hname. rewrite <- (assoc_L (++)). erewrite bind_just; [|apply get_error_tag; [done|]]; [by rewrite at_at|].
         apply Forall_app in Hok as [_ Hok]. by apply Forall_app.
       - by rewrite Hname, error_name_of_part by by apply message_tag. }
  cbv beta iota. erewrite bind_just; [|by apply (read_message _ _ _ _ _ _ _ rest)]. cbv beta iota. rewrite at_at. erewrite bind_just; [|by apply (read_stack _ _ _ _ _ rest)]. cbv beta iota. rewrite at_at.
  by erewrite bind_just; [|apply allocate_new].
Qed.

(** ** Writing *)

Definition option_tag (constructor : option ErrorTag) : bytes := match constructor with Some T => tag_bytes (error_tag_byte T) | None => [] end.
Definition option_string (T : ErrorTag) (n : Z) (string : option flat_string) : bytes :=
  match string with Some s => tag_bytes (error_tag_byte T) ++ WriteString n s | None => [] end.

Lemma error_head_flat constructor message stack last n1 n2 :
  error_head constructor message stack last n1 n2 =
  WriteTag kError ++ option_tag constructor ++ option_string kMessage n1 message ++ option_string kStack n2 stack ++ tag_bytes (error_tag_byte last).
Proof using Type.
  unfold error_head, constructor_part, message_part, stack_part, option_tag, option_string.
  by destruct constructor, message, stack; cbn [fst snd]; rewrite <- ?(assoc_L (++)), ?app_nil_r.
Qed.

Lemma put_error_string T string s s' : (PutErrorTag ser T;; PutString ser string) s = (Just tt, s') -> out_of_memory_ s' = false ->
  exists n, wrote s s' (option_string T n (Some string)).
Proof using Type.
  intros Hw Ho. apply put_seq in Hw as (s1 & Hw1 & Hw); [|sticky|done]. exists (Z.of_nat (length (buffer_ s1))).
  eapply wrote_trans; [exact Hw1|]. by eapply puts_string.
Qed.

Lemma to_string_same string (s : wstate D) : ObjectToString ser (Prim (Str string)) s = (Just string, s).
Proof using C. unfold ObjectToString. rewrite (c_ToString _ _ _ C). by destruct s. Qed.

Lemma found_same r o key inherited v (s : wstate D) : heap_ s = H -> H !! r = Some o -> found_property o key inherited = Data v ->
  get_of_error ser r key inherited s = (Just v, s).
Proof using Type.
  intros Hheap Ho Hf. unfold get_of_error. erewrite bind_just; [|unfold receiver_at; by rewrite Hheap, Ho]. unfold found_property in Hf. by rewrite Hf.
Qed.

(** The strings of an error that are written. *)
Definition string_value (v : option js_value) : option flat_string := v ≫= string_of.

Definition last_tag (o : receiver) : ErrorTag := match own_data o (str "cause") with Some _ => kCause | None => kEnd end.

Lemma error_written n r o name stack nm st s s' : H !! r = Some o -> heap_ s = H ->
  found_property o (str "name") name = Data (Prim (Str nm)) -> found_property o (str "stack") stack = Data st ->
  (forall v, own_data o (str "message") = Some v -> exists m, v = Prim (Str m)) ->
  WriteJSError ser (WriteObject ser n) r o name stack s = (Just tt, s') ->
  exists s1 n1 n2, wrote s s1 (error_head (error_tag_of nm) (string_value (own_data o (str "message"))) (string_of st) (last_tag o) n1 n2) /\
    match own_data o (str "cause") with
    | Some cause => exists s2, WriteObject ser n cause s1 = (Just tt, s2) /\ wrote s2 s' (tag_bytes (error_tag_byte kEnd))
    | None => wrote s1 s' []
    end.
Proof using C.
  intros Ho Hheap Hname Hstack Hmessage Hw. assert (out_of_memory_ s' = false) as Hoom.
  { eapply checked_false; [|exact Hw]. unfold WriteJSError. checked. }
  assert (forall (a b : wstate D) x, wrote a b x -> heap_ a = H -> heap_ b = H) as Hkeep by (intros a b x (_ & _ & _ & ->); done).
  unfold WriteJSError in Hw. cbv zeta in Hw. apply put_seq in Hw as (sa & Ha & Hw); [|unfold get_of_error, PutErrorTag; sticky|done].
  pose proof (Hkeep _ _ _ Ha Hheap) as Hheapa. erewrite bind_just in Hw; [|by apply (found_same _ _ _ _ _ _ Hheapa Ho Hname)].
  erewrite bind_just in Hw; [|apply to_string_same].
  apply seq_inv in Hw as ([] & sb & Hb & Hob & Hw); [|unfold get_of_error, PutErrorTag; sticky|done].
  assert (wrote sa sb (option_tag (error_tag_of nm))) as Hb'.
  { destruct (error_tag_of nm); [by eapply puts_raw|]. injection Hb as <-. apply wrote_nil. }
  apply seq_inv in Hw as ([] & sc & Hc & Hoc & Hw); [|unfold get_of_error, PutErrorTag; sticky|done].
  assert (exists n1, wrote sb sc (option_string kMessage n1 (string_value (own_data o (str "message"))))) as [n1 Hc'].
  { destruct (own_data o (str "message")) as [v|] eqn:Em; [|injection Hc as <-; exists 0; apply wrote_nil]. destruct (Hmessage _ eq_refl) as (m & ->).
    erewrite bind_just in Hc; [|apply to_string_same]. by eapply put_error_string. }
  pose proof (Hkeep _ _ _ Hc' (Hkeep _ _ _ Hb' Hheapa)) as Hheapc. 
  erewrite bind_just in Hw; [|by apply (found_same _ _ _ _ _ _ Hheapc Ho Hstack)].
  apply seq_inv in Hw as ([] & sd & Hd & Hod & Hw); [|unfold PutErrorTag; sticky|done].
  assert (exists n2, wrote sc sd (option_string kStack n2 (string_of st))) as [n2 Hd'].
  { destruct st as [[| | | | | |string]| | |]; try (injection Hd as <-; exists 0; apply wrote_nil). by eapply put_error_string. }
  pose proof (wrote_trans _ _ _ _ _ Ha (wrote_trans _ _ _ _ _ Hb' (wrote_trans _ _ _ _ _ Hc' Hd'))) as Had.
  apply seq_inv in Hw as ([] & se & He & Hoe & Hw); [|unfold PutErrorTag; sticky|done].
  assert (wrote se s' (tag_bytes (error_tag_byte kEnd))) as He'.
  { eapply (puts_checked se (PutErrorTag ser kEnd)); [apply puts_raw|exact Hw|done]. }
  unfold last_tag. destruct (own_data o (str "cause")) as [cause|].
  - apply put_seq in He as (sf & Hf & He); [|sticky|done]. exists sf, n1, n2. rewrite error_head_flat. split; [|by exists se].
    by rewrite !(assoc_L (++)) in *; eapply wrote_trans.
  - injection He as <-. exists s', n1, n2. rewrite error_head_flat. split; [|apply wrote_nil]. by rewrite !(assoc_L (++)) in *; eapply wrote_trans.
Qed.

(** ** The round trip *)

Definition error_of (o : receiver) (nm : flat_string) (st : js_value) : receiver :=
  ConstructError (error_name nm) (canonical_string <$> string_value (own_data o (str "message"))) (canonical_string <$> string_of st).

Lemma error_related ids im o name stack nm st o' :
  found_property o (str "name") name = Data (Prim (Str nm)) -> found_property o (str "stack") stack = Data st ->
  (forall v, own_data o (str "message") = Some v -> exists m, v = Prim (Str m)) ->
  match own_data o (str "cause") with
  | Some c => exists c', o' = add_cause c' (error_of o nm st) /\ value_rel ids im c c'
  | None => o' = error_of o nm st
  end -> error_rel ids im o name stack o'.
Proof using Type.
  intros Hname Hstack Hmessage Hcause. exists nm, st. split; [done|]. split; [done|].
  assert (instance_type (error_of o nm st) = JSError (Data (Prim (Str (error_name nm))))
    (Data (match st with Prim (Str s) => Prim (Str (canonical_string s)) | _ => undefined end))) as Hi.
  { unfold error_of, ConstructError. cbn [instance_type]. by destruct st as [[]| | |]. }
  assert (match own_data o (str "message") with
    | Some (Prim (Str m)) => named (error_of o nm st) = [(str "message", mkProperty false (Data (Prim (Str (canonical_string m)))))]
    | _ => named (error_of o nm st) = []
    end) as Hm.
  { unfold error_of, ConstructError. cbn [named]. destruct (own_data o (str "message")) as [v|]; [|done]. by destruct (Hmessage v eq_refl) as (m & ->). }
  destruct (own_data o (str "cause")) as [c|].
  - destruct Hcause as (c' & -> & Hc). unfold add_cause. cbn [instance_type elements named]. split; [done|]. split; [done|].
    exists (named (error_of o nm st)), [(str "cause", mkProperty false (Data c'))]. split_all; [done|done|]. by exists c'.
  - subst o'. split; [done|]. split; [done|]. exists (named (error_of o nm st)), []. by rewrite app_nil_r.
Qed.

Lemma no_view_error T rest : no_view (tag_bytes (error_tag_byte T) ++ rest).
Proof using Type. by destruct T. Qed.

Lemma cause_read n r o name stack nm st s s1 s' cause : value_spec ser des H n -> instance_type o = JSError name stack -> value_ok cause ->
  found_property o (str "name") name = Data (Prim (Str nm)) -> found_property o (str "stack") stack = Data st ->
  (forall v, own_data o (str "message") = Some v -> exists m, v = Prim (Str m)) -> own_data o (str "cause") = Some cause ->
  heap_ s = H -> ids_ok H s -> WriteObject ser n cause s = (Just tt, s1) -> wrote s1 s' (tag_bytes (error_tag_byte kEnd)) ->
  forall ids0, ids0 ⊆ id_map_ s -> exists b, written H s s' b /\ (0 <= length b)%nat /\
    reads_back H (X := Unit) ids0 n r o (fun _ _ base r' t => opened ids0 base r r' (error_of o nm st) t) (fun _ => read_cause kCause) s s' b.
Proof using Type.
  intros Hspec Ht Hok Hname Hstack Hmessage Hcause Hheap Hids Hw He ids0 Hsub.
  destruct (Hspec _ _ _ Hw Hheap Hids Hok) as (b & Hwr & Hstart & Hread).
  pose proof (wrote_written H _ _ _ He (tag_bytes_ok kEnd) ltac:(apply Hwr) ltac:(apply Hwr)) as Hwr'.
  exists (b ++ tag_bytes (error_tag_byte kEnd)). split; [by eapply written_trans|]. split; [lia|].
  intros O m [] base r' t rest Hnm Hm Hp Hrest Hsmall Hf Ho. rewrite <- (assoc_L (++)) in Hp, Hsmall.
  destruct (Hread (r :: O) m Hnm t (tag_bytes (error_tag_byte kEnd) ++ rest) Hm Hp) as (c' & t1 & Hc & Harr & Hrel);
    [apply Forall_app; split; [apply tag_bytes_ok|done]|done|apply no_view_error|].
  pose proof (opened_arrived H _ _ _ _ _ _ _ _ _ _ Ho Harr) as Ho1. pose proof Harr as [Hp1 Hm1 Hf1 Hsub1].
  apply (matches_wrote H _ _ _ _ _ He) in Hm1.
  assert (id_map_ s' = id_map_ s1) as Hi by (by destruct He as (_ & -> & _)).
  destruct (opened_update H _ _ _ _ _ _ _ _ (add_cause c') (add_cause c' (error_of o nm st)) Ho1 Hm1)
    as (Hu & Hmu & Hfu & Hou); [done|rewrite Hi; etrans; [exact Hsub|apply Hwr]|by eapply frame_trans|done|].
  exists (add_cause c' (error_of o nm st)), (at_ (updated r' (add_cause c' (error_of o nm st)) t1) rest). split_all.
  - unfold read_cause. rewrite Z.eqb_refl. erewrite bind_just; [|erewrite bind_just; [|exact Hc]; erewrite bind_just; [|exact Hu]; by apply get_error_tag].
    by rewrite Z.eqb_refl.
  - done.
  - by apply matches_at.
  - done.
  - done.
  - by destruct Hou.
  - unfold receiver_rel. rewrite Ht. eapply error_related; [exact Hname|exact Hstack|exact Hmessage|]. rewrite Hcause. exists c'. by rewrite Hi.
Qed.

Lemma error_spec n r o name stack : value_spec ser des H n -> instance_type o = JSError name stack ->
  class_spec des H n (WriteJSError ser (WriteObject ser n) r o name stack) r o.
Proof using C.
  intros Hspec Ht. apply (class_known ser); [done|]. intros Hok. unfold instance_ok in Hok. rewrite Ht in Hok.
  destruct Hok as ((nm & Hname & Hn) & (st & Hstack & Hst) & Hmessage & Hcause).
  assert (forall v, own_data o (str "message") = Some v -> exists m, v = Prim (Str m)) as Hmessage'.
  { intros v Hv. destruct (Hmessage v Hv) as (m & -> & _). by exists m. }
  assert (last_tag o ∈ [kCause; kEnd]) as Hlast by (unfold last_tag; destruct (own_data o (str "cause")); [by left|right; by left]).
  assert (forall s, string_value (own_data o (str "message")) = Some s -> string_ok s) as Hms.
  { intros s Hs. destruct (own_data o (str "message")) as [v|]; [|done]. destruct (Hmessage v eq_refl) as (m & -> & Hm). by injection Hs as <-. }
  assert (forall s, string_of st = Some s -> string_ok s) as Hss.
  { intros s Hs. destruct st as [[]| | |]; try done. by injection Hs as <-. }
  apply (filled_spec_heads ser des H C n 0 _ _ _ (error_of o nm st)
    (fun h => exists n1 n2, h = error_head (error_tag_of nm) (string_value (own_data o (str "message"))) (string_of st) (last_tag o) n1 n2)
    (read_cause (last_tag o)));
    [unfold not_buffer, array_buffer_of; by rewrite Ht|done|intros h (n1 & n2 & ->); by apply error_head_ok| |].
  - intros s s' Hw Hheap Hids Ho.
    destruct (error_written n r o name stack nm st s s' Ho Hheap Hname Hstack Hmessage' Hw) as (s1 & n1 & n2 & Hw1 & Hrest).
    eexists s1, _. split; [by exists n1, n2|]. split; [exact Hw1|]. intros Hheap1 Hids1 Hsub. unfold last_tag.
    destruct (own_data o (str "cause")) as [cause|] eqn:Ec.
    + destruct Hrest as (s2 & Hc & He). by eapply (cause_read n r o name stack nm st s1 s2 s' cause); eauto.
    + exists []. split; [by apply wrote_written; [..|constructor| |]|]. split; [done|].
      intros O m [] base r' t rest Hnm Hm Hp Hr Hsmall Hf Hopen. exists (error_of o nm st), t. split_all; try done.
      * by eapply matches_wrote.
      * unfold receiver_rel. rewrite Ht. eapply error_related; [exact Hname|exact Hstack|exact Hmessage'|]. by rewrite Ec.
  - intros O s t h b m Hnm (n1 & n2 & ->) Hm Hn0 Hr Hp Hb _. eapply read_error_head; eauto; lia.
Qed.
End errors.
