(* ===== verification/ObjectClones.v ===== *)
(** The round trip of object graphs. *)
From S2P Require Import Prelude Conversions Engine WireFormat Serializer JSHeap ObjectWriter ObjectReader WriterTheorems ObjectGraphs ObjectRoundtrip ObjectCopies ObjectParts ObjectProperties ObjectArrays ObjectErrors.

Section clones.
Context {D E : Type} (ser : serializer D) (des : deserializer E) (H : js_heap) (C : cloning ser des H).

(** The recursive call, when the stack has room for it. *)
Definition nested (stack : option nat) : option (js_value -> W D Unit) := WriteObject ser <$> stack.
Definition deeper (stack : option nat) (m : nat) : Prop := match stack with Some n => (n < m)%nat | None => True end.

(** ** References *)

Lemma reference_spec (s s' : wstate D) r entry : id_map_ s !! r = Some entry -> heap_ s = H -> ids_ok H s ->
  (PutTag ser kObjectReference;; PutVarint ser 32 (wrap 32 (entry - 1));; ThrowIfOutOfMemory) s = (Just tt, s') ->
  exists b, wrote s s' b /\ bytes_ok b /\ value_start b /\ forall O m, reads_internal des H O m s s' b r.
Proof using C.
  intros He Hheap Hids Hw. pose proof Hids as [Hc Hr _]. destruct (Hr _ _ He) as [Hlt Hrange]. pose proof (ids_bound H s Hids) as Hbound.
  pose proof (c_size _ _ _ C). pose proof (put_end_count ser _ _ _ _ Hw) as Hwrote.
  exists (end_count kObjectReference (entry - 1)). split; [done|]. split; [apply end_count_ok|]. split; [unfold end_count; starts|].
  intros O m t rest Hm Hp Hrest Hsmall. unfold end_count in Hp. rewrite <- (assoc_L (++)) in Hp. dispatch Hp.
  destruct (m_defined _ _ _ _ Hm _ _ He) as [r' Hr']. exists r', (at_ t rest). split; [|split].
  - assert (wrap 32 (entry - 1) = entry - 1) as Hwrap by (unfold wrap; rewrite Z.mod_small; lia).
    erewrite bind_just; [|apply get_varint; [done|auto with v8|rewrite Hwrap; lia|done]]. rewrite Hwrap, at_at.
    erewrite bind_just; [reflexivity|]. unfold GetObjectWithID. cbn [r_id_map_ at_]. by rewrite Hr'.
  - split; [done| |apply frame_refl|done]. apply matches_at. by eapply matches_wrote.
  - exists entry. destruct Hwrote as (_ & -> & _). done.
Qed.

(** ** Receivers that are not views *)

Definition is_view (o : receiver) : Prop := match instance_type o with JSArrayBufferView _ => True | _ => False end.

(** The bytes of a receiver that is no view, and how they are read without a view after them. *)
Definition receiver_bytes (stack : option nat) (s s' : wstate D) (r : ref) : Prop :=
  exists b, written H s s' b /\ value_start b /\ forall O m, deeper stack m -> reads_internal des H O m s s' b r.

Lemma receiver_spec stack r o s s' : (forall n, stack = Some n -> value_spec ser des H n) -> H !! r = Some o -> ~ is_view o ->
  WriteJSReceiver ser (nested stack) r s = (Just tt, s') -> heap_ s = H -> ids_ok H s -> out_of_memory_ s = false ->
  receiver_bytes stack s s' r.
Proof using C.
  intros Hspec Ho Hview Hw Hheap Hids Hoom. unfold WriteJSReceiver in Hw. apply bind_inv in Hw as (found & s1 & Ha & Hw).
  destruct (id_map_ s !! r) as [entry|] eqn:Er.
  - unfold assign_id in Ha. rewrite Er in Ha. injection Ha as <- <-. destruct (reference_spec s s' r entry Er Hheap Hids Hw) as (b & Hwr & Hb & Hs & Hread).
    exists b. split; [by apply wrote_written|]. by split.
  - rewrite (assign_new ser des H C s r Hids Er ltac:(by eapply lookup_lt_Some)) in Ha. injection Ha as <- <-.
    apply bind_inv in Hw as (o1 & s1 & Hr & Hw). unfold receiver_at in Hr. cbn [heap_ assigned] in Hr. rewrite Hheap, Ho in Hr. injection Hr as <- <-.
    destruct stack as [n|]; cbn [nested] in Hw; [|by destruct (instance_type o)].
    specialize (Hspec n eq_refl). change (nested (Some n)) with (Some (WriteObject ser n)) in Hw.
    pose proof (c_heap _ _ _ C _ _ Ho) as Hok. assert (o ∈ H) as Hin by by eapply list_elem_of_lookup_2.
    assert (may_be_host o -> IsHostObject ser o (assigned r s) = (Just false, assigned r s)) as Hhost by (intros; by apply (c_host _ _ _ C)).
    unfold may_be_host, is_view, instance_ok in *. unfold receiver_bytes.
    destruct (instance_type o) as [fast h|h|kind len|d|v|source flags|table|table|b| |v|name stack|id| |] eqn:Ht; try done.
    + erewrite bind_just in Hw; [|by apply Hhost]. by eapply object_spec.
    + destruct (should_serialize_densely kind) eqn:Hk; [by eapply dense_spec|by eapply sparse_spec].
    + by eapply date_spec.
    + by eapply wrapper_spec.
    + by eapply regexp_spec.
    + by eapply map_spec.
    + by eapply set_spec.
    + by eapply array_buffer_spec.
    + erewrite bind_just in Hw; [|by apply Hhost]. by eapply error_spec.
Qed.

(** ** Views *)

Definition view_bytes (v : view) : bytes :=
  WriteVarint 8 (view_tag_byte (view_tag v)) ++ WriteVarint 64 (byte_offset v) ++ WriteVarint 64 (byte_length v) ++ WriteVarint 32 (view_flags v).

Lemma view_tag_range t : 0 <= view_tag_byte t < 2 ^ 8.
Proof using Type. by destruct t. Qed.
Lemma view_flags_range v : 0 <= view_flags v < 2 ^ 32.
Proof using Type. unfold view_flags. by destruct (is_length_tracking v), (is_backed_by_rab v). Qed.
Lemma view_flags_bits v : Z.testbit (view_flags v) 0 = is_length_tracking v /\ Z.testbit (view_flags v) 1 = is_backed_by_rab v.
Proof using Type. unfold view_flags. by destruct (is_length_tracking v), (is_backed_by_rab v). Qed.
Lemma view_tag_of_byte t : view_tag_of (view_tag_byte t) = Some t.
Proof using Type. by destruct t. Qed.

Lemma view_bounds b v : view_ok b v -> buffer_ok b -> 0 <= byte_offset v < 2 ^ 64 /\ 0 <= byte_length v < 2 ^ 64.
Proof using Type. intros (? & ? & ? & _) (_ & _ & _ & ? & _). lia. Qed.

Lemma view_bytes_ok b v : view_ok b v -> buffer_ok b -> bytes_ok (view_bytes v).
Proof using Type.
  intros Hv Hb. destruct (view_bounds b v Hv Hb). unfold view_bytes. repeat (apply Forall_app; split); apply varint_ok; auto with v8;
    first [apply view_tag_range|apply view_flags_range|done].
Qed.

Lemma view_written o v b (s s' : wstate D) : H !! view_buffer v = Some b -> heap_ s = H ->
  WriteJSArrayBufferView ser o v s = (Just tt, s') -> wrote s s' (WriteTag kArrayBufferView ++ view_bytes v).
Proof using C.
  intros Hb Hheap Hw. assert (out_of_memory_ s' = false) as Hoom by (by eapply checked_view).
  unfold WriteJSArrayBufferView in Hw. rewrite (c_views _ _ _ C) in Hw.
  apply put_seq in Hw as (s1 & Hw1 & Hw); [|unfold buffer_at, ThrowDataCloneError; sticky|done]. eapply wrote_trans; [exact Hw1|].
  apply bind_inv in Hw as (b1 & s2 & Hb1 & Hw). apply bind_inv in Hb1 as (o1 & s3 & Hr & Hb1). unfold receiver_at in Hr.
  destruct (heap_ s1 !! view_buffer v); [|done]. injection Hr as <- <-.
  assert (s2 = s1) as -> by (destruct (instance_type r); try done; by injection Hb1 as <- <-).
  destruct (IsOutOfBounds v b1); [done|]. eapply (puts_seq s1); [| | |exact Hw|done].
  - apply puts_raw.
  - sticky.
  - intros ? _. do 2 (apply puts_seq; [apply puts_raw|sticky|intros ? _]). apply puts_checked, puts_raw.
Qed.

(** The view that is made for [v], of the copy [r'] of its buffer. *)
Definition copied_view (v : view) (r' : ref) : view :=
  mkView (view_tag v) r' (byte_offset v) (byte_length v) (is_length_tracking v) (is_backed_by_rab v).

Lemma new_view b v r' : view_ok b v -> buffer_ok b -> forall b', buffer_length b' = buffer_length b -> is_resizable_by_js b' = is_resizable_by_js b ->
  is_shared b' = false -> NewJSArrayBufferView (view_tag v) r' b' (byte_offset v) (byte_length v) (is_length_tracking v) = Just (copied_view v r').
Proof using Type.
  intros (Ho & Hl & Hbound & Hmo & Hml & Htrack & Hrab) (Hsh & _ & _ & Hlen & _) b' Hlen' Hres' Hsh'. unfold NewJSArrayBufferView, copied_view.
  rewrite Hlen', Hres', Hsh'. rewrite Hsh in Hrab. assert ((if is_length_tracking v then 0 else byte_length v) = byte_length v) as ->.
  { destruct (is_length_tracking v); [by destruct Htrack|done]. }
  assert (0 < element_size (view_tag v)) by by destruct (view_tag v).
  assert (byte_length v / element_size (view_tag v) <= kMaxByteLength / element_size (view_tag v)).
  { apply Z.div_le_mono; [lia|]. unfold kMaxByteLength, kMaxSafeInteger. lia. }
  destruct (Z.gtb_spec (byte_length v / element_size (view_tag v)) (kMaxByteLength / element_size (view_tag v))); [lia|].
  rewrite Hmo. cbn [Z.eqb negb orb]. rewrite andb_false_r.
  destruct (Z.gtb_spec (byte_length v) (buffer_length b)); [lia|]. destruct (Z.gtb_spec (byte_offset v) (buffer_length b)); [lia|].
  destruct (Z.gtb_spec (byte_offset v + byte_length v) (buffer_length b)); [lia|]. rewrite andb_false_r. by rewrite Hrab.
Qed.

Lemma view_validated b v : view_ok b v -> buffer_ok b -> forall b', is_resizable_by_js b' = is_resizable_by_js b -> is_shared b' = false ->
  ValidateJSArrayBufferViewFlags b' (view_flags v) = Some (is_length_tracking v, is_backed_by_rab v).
Proof using Type.
  intros (_ & _ & _ & _ & _ & Htrack & Hrab) (Hsh & _) b' Hres Hsh'. unfold ValidateJSArrayBufferViewFlags.
  destruct (view_flags_bits v) as [-> ->]. rewrite Hres, Hsh', Hrab, Hsh. destruct (is_resizable_by_js b); simpl; [by rewrite ?andb_false_r|].
  destruct (is_length_tracking v); [|done]. by destruct Htrack.
Qed.

Lemma read_view O (s : wstate D) (t : rstate E) r v b r' o' b' rest : matches H O s t -> id_map_ s !! r = None -> (r < length H)%nat ->
  view_ok b v -> buffer_ok b -> (view_tag v = kFloat16Array -> js_float16array des = true) ->
  r_heap_ t !! r' = Some o' -> instance_type o' = JSArrayBuffer b' -> buffer_length b' = buffer_length b ->
  is_resizable_by_js b' = is_resizable_by_js b -> is_shared b' = false ->
  position_ t = WriteTag kArrayBufferView ++ view_bytes v ++ rest -> bytes_ok rest ->
  (ConsumeTag;; view ← ReadJSArrayBufferView des r'; mret (Receiver view)) t =
  (Just (Receiver (length (r_heap_ t))), at_ (allocated (mkReceiver (JSArrayBufferView (copied_view v r')) [] []) t) rest).
Proof using C.
  intros Hm Hn Hr Hv Hb Hf16 Ho' Ht' Hlen Hres Hsh Hp Hrest. destruct (view_bounds b v Hv Hb) as [Hoff Hblen].
  unfold ConsumeTag. erewrite bind_just; [|by erewrite bind_just; [|by apply get_tag]]. erewrite bind_just; [reflexivity|].
  unfold ReadJSArrayBufferView. erewrite bind_just; [|unfold object_at; cbn [r_heap_ at_]; by rewrite Ho'].
  unfold array_buffer_of. rewrite Ht'. pose proof (view_bytes_ok b v Hv Hb) as Hok. unfold view_bytes in *. rewrite <- !(assoc_L (++)).
  repeat (apply Forall_app in Hok as [? Hok]). unfold ReadSizeT.
  step get_varint; [|done|auto with v8|apply view_tag_range|by repeat (apply Forall_app; split)].
  step get_varint; [|done|auto with v8|done|by repeat (apply Forall_app; split)].
  step get_varint; [|done|auto with v8|done|by repeat (apply Forall_app; split)]. rewrite !at_at, Hlen.
  pose proof Hv as (_ & _ & Hbound & Hmo & Hml & _).
  destruct (Z.gtb_spec (byte_offset v) (buffer_length b)); [lia|]. destruct (Z.gtb_spec (byte_length v) (buffer_length b - byte_offset v)); [lia|].
  rewrite (c_version _ _ _ C). change (kLatestVersion >=? 14) with true. cbn [orb].
  step get_varint; [|done|auto with v8|apply view_flags_range|done]. rewrite at_at. erewrite bind_just; [|by eapply new_id_fresh].
  rewrite view_tag_of_byte, Hmo, Hml. cbn [Z.eqb negb orb]. rewrite andb_false_r.
  assert (bool_decide (view_tag v = kFloat16Array) && negb (js_float16array des) = false) as ->.
  { case_bool_decide; [|done]. by rewrite Hf16. }
  erewrite bind_just; [|unfold failing; by rewrite (view_validated b v Hv Hb b' Hres Hsh)]. cbv beta iota.
  erewrite bind_just; [|unfold outcome; by rewrite (new_view b v r' Hv Hb b' Hlen Hres Hsh)].
  cbn [copied_view JSHeap.is_backed_by_rab JSHeap.is_length_tracking]. rewrite !eqb_reflx by done. cbn [negb orb]. apply allocate_new.
Qed.

(** The copy of a buffer is known wherever it is referred to. *)
Lemma buffer_copied O (s : wstate D) (t : rstate E) r ob b r' : matches H O s t -> H !! r = Some ob -> instance_type ob = JSArrayBuffer b ->
  corr (id_map_ s) (r_id_map_ t) r r' -> r_heap_ t !! r' = Some (copied_buffer b).
Proof using Type.
  intros Hm Ho Ht Hc. destruct (decide (r ∈ O)) as [Hr|Hr].
  - destruct (m_open _ _ _ _ Hm r r' Hr Hc) as (o & o' & Ho2 & _ & Hb & _). unfold not_buffer, array_buffer_of in Hb. simplify_eq. by rewrite Ht in Hb.
  - destruct (m_closed _ _ _ _ Hm r r' Hr Hc) as (o & o' & Ho2 & Ho' & Hrel). simplify_eq. unfold receiver_rel in Hrel. rewrite Ht in Hrel. by subst o'.
Qed.

(** Writing a buffer gives identifiers to no view. *)
Lemma buffer_ids stack r q ob b s s' : H !! r = Some ob -> instance_type ob = JSArrayBuffer b -> q <> r ->
  WriteJSReceiver ser (nested stack) r s = (Just tt, s') -> heap_ s = H -> ids_ok H s -> id_map_ s !! q = None -> id_map_ s' !! q = None.
Proof using C.
  intros Ho Ht Hq Hw Hheap Hids Hn. unfold WriteJSReceiver in Hw. apply bind_inv in Hw as (found & s1 & Ha & Hw).
  destruct (id_map_ s !! r) as [entry|] eqn:Er.
  - unfold assign_id in Ha. rewrite Er in Ha. injection Ha as <- <-. apply put_end_count in Hw as (_ & -> & _). done.
  - rewrite (assign_new ser des H C s r Hids Er ltac:(by eapply lookup_lt_Some)) in Ha. injection Ha as <- <-.
    apply bind_inv in Hw as (o1 & s1 & Hr & Hw). unfold receiver_at in Hr. cbn [heap_ assigned] in Hr. rewrite Hheap, Ho in Hr. injection Hr as <- <-.
    rewrite Ht in Hw. destruct stack as [n|]; cbn [nested fmap option_fmap option_map] in Hw; [|done].
    pose proof (c_heap _ _ _ C _ _ Ho) as Hok. unfold instance_ok in Hok. rewrite Ht in Hok. destruct Hok as [Hb _].
    destruct (array_buffer_written ser des H C r b _ _ Hb Hw) as (_ & -> & _). cbn [id_map_ assigned]. by rewrite lookup_insert_ne.
Qed.

(** ** Values *)

(** One call of [WriteObject], and one of [ReadObject]. *)
Definition body_spec (stack : option nat) (s s' : wstate D) (v : js_value) : Prop :=
  exists b, written H s s' b /\ value_start b /\ forall O m, deeper stack m -> reads H O (ReadObjectBody des (ReadObject des m)) s s' b v.

Lemma leaf_body stack v s s' b v' : wrote s s' b -> bytes_ok b -> value_start b -> heap_ s = H -> ids_ok H s ->
  (forall ids im, value_rel ids im v v') ->
  (forall m t rest, position_ t = b ++ rest -> bytes_ok rest -> small (b ++ rest) -> ReadObjectBody des (ReadObject des m) t = (Just v', at_ t rest)) ->
  body_spec stack s s' v.
Proof using Type.
  intros Hw Hb Hs Hheap Hids Hrel Hread. exists b. split; [by apply wrote_written|]. split; [done|].
  intros O m _ t rest Hm Hp Hrest Hsmall _. exists v', (at_ t rest). split; [by apply Hread|]. split; [|done].
  split; [done| |apply frame_refl|done]. apply matches_at. by eapply matches_wrote.
Qed.

Lemma bigint_body stack b s s' : (WriteBigInt ser b;; ThrowIfOutOfMemory) s = (Just tt, s') -> heap_ s = H -> ids_ok H s -> bigint_ok b ->
  body_spec stack s s' (BigIntValue b).
Proof using Type.
  intros Hw Hheap Hids Hok. apply (leaf_body stack _ s s' (WriteTag kBigInt ++ bigint_contents b) (BigIntValue b)); try done.
  - eapply puts_checked; [|exact Hw|eapply checked_false; [|exact Hw]; checked].
    apply puts_seq; [apply puts_raw|unfold WriteBigIntContents; sticky|intros ? _]. apply puts_bigint.
  - apply Forall_app. split; [apply tag_ok|by apply bigint_bytes_ok].
  - starts.
  - intros m t rest Hp Hrest _. apply body_other; [|done]. rewrite <- (assoc_L (++)) in Hp. dispatch Hp. by step read_bigint.
Qed.

(** The bytes of a receiver are read without a view. *)
Lemma plain_body stack r s s' : receiver_bytes stack s s' r -> body_spec stack s s' (Receiver r).
Proof using Type.
  intros (b & Hw & Hs & Hread). exists b. split_all; [done|done|]. intros O m Hd t rest Hm Hp Hrest Hsmall Hnv.
  destruct (Hread O m Hd t rest Hm Hp Hrest Hsmall) as (r' & t' & Hr & Harr & Hc). exists (Receiver r'), t'.
  split; [|by split]. apply body_other; [done|]. intros ? _ _. rewrite (a_position _ _ _ _ _ _ Harr). exact Hnv.
Qed.

Lemma view_body stack r o v s s1 s' : (forall n, stack = Some n -> value_spec ser des H n) -> H !! r = Some o -> instance_type o = JSArrayBufferView v ->
  heap_ s = H -> ids_ok H s -> out_of_memory_ s = false -> id_map_ s !! r = None ->
  WriteJSReceiver ser (nested stack) (view_buffer v) s = (Just tt, s1) -> WriteJSReceiver ser (nested stack) r s1 = (Just tt, s') ->
  body_spec stack s s' (Receiver r).
Proof using C.
  intros Hspec Ho Ht Hheap Hids Hoom Hn Hw1 Hw2. pose proof (c_heap _ _ _ C _ _ Ho) as Hok. unfold instance_ok in Hok. rewrite Ht in Hok.
  destruct Hok as (ob & b & Hob & Htb & Hv & Hf16). pose proof (c_heap _ _ _ C _ _ Hob) as Hokb. unfold instance_ok in Hokb. rewrite Htb in Hokb.
  destruct Hokb as [Hb _]. pose proof (lookup_lt_Some _ _ _ Ho) as Hlt.
  assert (r <> view_buffer v) as Hne by (intros Heq; rewrite Heq, Hob in Ho; injection Ho as ->; by rewrite Ht in Htb).
  destruct (receiver_spec stack (view_buffer v) ob s s1 Hspec Hob ltac:(unfold is_view; rewrite Htb; tauto) Hw1 Hheap Hids Hoom) as (b1 & Hwr1 & Hs1 & Hread1).
  pose proof (buffer_ids stack (view_buffer v) r ob b s s1 Hob Htb Hne Hw1 Hheap Hids Hn) as Hn1.
  assert (heap_ s1 = H /\ ids_ok H s1) as [Hheap1 Hids1] by (split; apply Hwr1).
  unfold WriteJSReceiver in Hw2. erewrite bind_just in Hw2; [|by apply (assign_new ser des H C)]. 
  apply bind_inv in Hw2 as (o1 & s2 & Hr & Hw2). unfold receiver_at in Hr. cbn [heap_ assigned] in Hr. rewrite Hheap1, Ho in Hr. injection Hr as <- <-.
  rewrite Ht in Hw2. destruct stack as [n|]; cbn [nested fmap option_fmap option_map] in Hw2; [|done].
  apply (view_written o v ob _ _ Hob) in Hw2; [|done].
  pose proof (assigned_written H s1 r Hheap1 Hids1 Hn1 Hlt) as Hwa.
  assert (bytes_ok (WriteTag kArrayBufferView ++ view_bytes v)) as Hvok by (apply Forall_app; split; [apply tag_ok|by eapply view_bytes_ok]).
  pose proof (wrote_written H _ _ _ Hw2 Hvok Hheap1 ltac:(apply Hwa)) as Hwr2.
  exists (b1 ++ WriteTag kArrayBufferView ++ view_bytes v). split; [exact (written_trans H _ _ _ _ _ Hwr1 (written_trans H _ _ _ [] _ Hwa Hwr2))|].
  split; [by apply value_start_app|]. intros O m Hd t rest Hm Hp Hrest Hsmall Hnv. rewrite <- !(assoc_L (++)) in Hp, Hsmall.
  destruct (Hread1 O m Hd t (WriteTag kArrayBufferView ++ view_bytes v ++ rest) Hm Hp) as (rb & t1 & Hrb & Harr & Hc); [|done|].
  { rewrite (assoc_L (++)). by apply Forall_app. }
  pose proof Harr as [Hp1 Hm1 Hf1 Hsub1]. pose proof (buffer_copied O s1 t1 (view_buffer v) ob b rb Hm1 Hob Htb Hc) as Hcopy.
  pose proof (read_view O s1 t1 r v b rb (copied_buffer b) _ rest Hm1 Hn1 Hlt Hv Hb Hf16 Hcopy eq_refl eq_refl eq_refl eq_refl Hp1 Hrest) as Hread.
  set (o' := mkReceiver (JSArrayBufferView (copied_view v rb)) [] []) in *.
  assert (matches H O (assigned r s1) (allocated o' t1)) as Hm2.
  { eapply matches_new; [exact Hm1|exact Hn1|exact Ho|]. right. split; [done|]. unfold receiver_rel. rewrite Ht. exists rb. split; [|done].
    eapply corr_mono; [by apply assigned_extends|exact (allocated_extends H O s1 t1 o' Hm1)|exact Hc]. }
  exists (Receiver (length (r_heap_ t1))), (at_ (allocated o' t1) rest). split_all.
  - unfold ReadObjectBody. rewrite Hrb. unfold is_array_buffer. rewrite Hcopy. cbn [array_buffer_of copied_buffer instance_type].
    rewrite bool_decide_true by by eexists. rewrite bool_decide_true by (rewrite Hp1; by apply PeekTag_written). cbn [andb].
    change (tag_byte kArrayBufferView) with (tag_byte kArrayBufferView) in Hread. by rewrite Hread.
  - split; [done| | |].
    + apply matches_at. by eapply matches_wrote.
    + eapply frame_trans; [exact Hf1|apply frame_app].
    + etrans; [exact Hsub1|exact (allocated_extends H O s1 t1 o' Hm1)].
  - simpl. destruct Hw2 as (_ & -> & _). exact (corr_assigned H O s1 t1 r o' Hm1 Hn1).
Qed.

Lemma body_spec_all stack v s s' : (forall n, stack = Some n -> value_spec ser des H n) ->
  WriteObjectBody ser (nested stack) v s = (Just tt, s') -> heap_ s = H -> ids_ok H s -> value_ok v -> body_spec stack s s' v.
Proof using C.
  intros Hspec Hw Hheap Hids Hok. unfold WriteObjectBody in Hw. destruct (out_of_memory_ s) eqn:Hoom.
  { unfold ThrowIfOutOfMemory in Hw. by rewrite Hoom in Hw. }
  destruct v as [p|b|id|r]; [|by eapply bigint_body|done|].
  - assert (write_primitive ser p s = (Just tt, s')) as Hp by (by destruct p).
    pose proof (puts_primitive ser s p _ _ Hp ltac:(eapply checked_false; [|exact Hp]; unfold write_primitive; destruct p; checked)) as Hwr.
    apply (leaf_body stack _ s s' _ (Prim (canonical p)) Hwr); [by apply WritePrimitive_ok|apply WritePrimitive_start|done|done|done|].
    intros m t rest Hpos Hrest Hsmall. eapply read_primitive; [exact Hpos|done|done|by eapply small_app].
  - apply bind_inv in Hw as (o & s1 & Hr & Hw). unfold receiver_at in Hr. rewrite Hheap in Hr. destruct (H !! r) as [o1|] eqn:Ho; [|done]. injection Hr as <- <-.
    destruct (instance_type o1) as [| | | | | | | | | |v| | | |] eqn:Ht;
      try (apply plain_body; eapply receiver_spec; [exact Hspec|exact Ho|unfold is_view; rewrite Ht; tauto|exact Hw|done|done|done]).
    apply bind_inv in Hw as ([] & s1 & Hw1 & Hw2). destruct (id_map_ s !! r) as [entry|] eqn:Er.
    + rewrite bool_decide_false in Hw1 by done. injection Hw1 as <-. apply plain_body. unfold WriteJSReceiver, assign_id in Hw2.
      erewrite bind_just in Hw2; [|by rewrite Er]. destruct (reference_spec s s' r entry Er Hheap Hids Hw2) as (b & Hwr & Hb & Hs & Hread).
      exists b. split; [by apply wrote_written|]. by split.
    + rewrite (c_views _ _ _ C), bool_decide_true in Hw1 by done. by eapply view_body.
Qed.

Lemma value_spec_all stack : value_spec ser des H stack.
Proof using C.
  induction stack as [|n IH]; intros v s s' Hw Hheap Hids Hok; cbn [WriteObject] in Hw.
  - destruct (body_spec_all None v s s' ltac:(done) Hw Hheap Hids Hok) as (b & Hwr & Hs & Hread). exists b. split_all; [done|done|].
    intros O m Hm. destruct m as [|m]; [lia|]. by apply Hread.
  - destruct (body_spec_all (Some n) v s s' ltac:(intros ? [= <-]; done) Hw Hheap Hids Hok) as (b & Hwr & Hs & Hread). exists b. split_all; [done|done|].
    intros O m Hm. destruct m as [|m]; [lia|]. apply Hread. simpl. lia.
Qed.
End clones.
