(* ===== verification/ObjectTheorems.v ===== *)
(** The round trip of the whole serialization. *)
From S2P Require Import Prelude Conversions Engine WireFormat Serializer JSHeap ObjectWriter ObjectReader WriterTheorems ObjectGraphs ObjectRoundtrip ObjectCopies ObjectParts ObjectClones.

(** What [t] holds of the heap [H]: the copies of its objects, under the same identifiers;
    an object has one copy, and two objects are not copied to one. *)
Record copies (H : js_heap) (ids : gmap ref Z) (im : gmap Z ref) (h' : js_heap) : Prop := {
  copies_related r r' : corr ids im r r' -> exists o o', H !! r = Some o /\ h' !! r' = Some o' /\ receiver_rel ids im o o';
  copies_bijective r q r' q' : corr ids im r r' -> corr ids im q q' -> (r = q <-> r' = q');
  copies_total r e : ids !! r = Some e -> exists r', corr ids im r r';
}.

Lemma copies_matches {D E} H (s : wstate D) (t : rstate E) : matches H [] s t -> copies H (id_map_ s) (r_id_map_ t) (r_heap_ t).
Proof.
  intros Hm. split.
  - intros r r' Hc. by apply (m_closed _ _ _ _ Hm); [intros ?%elem_of_nil|].
  - intros r q r' q' Hr Hq. by eapply corr_inj.
  - intros r e He. destruct (m_defined _ _ _ _ Hm r e He) as [r' Hr']. by exists r', e.
Qed.

Lemma ReadHeader_written b : ReadHeader (WriteHeader ++ b) = Some (kLatestVersion, b).
Proof. unfold ReadHeader, ReadVarintLoop. by vm_compute. Qed.

Section roundtrip.
Context {D E : Type} (ser : serializer D) (des : deserializer E) (H : js_heap).
Context (C : cloning ser (configure des kLatestVersion false true) H).

(** C5. A graph of data survives serialization and deserialization. Data is what [cloning]
    says: objects, arrays, dates, wrappers, regular expressions, maps, sets, buffers, views
    and errors with data properties; no host objects, no special API objects, no shared
    objects, no transferred buffers, no getters. When the serializer succeeds with less than
    2^32 - 8 bytes, the deserializer, in the same version and with a deeper stack, makes a
    copy of everything that can be reached, of the same kinds, with the same enumerable
    properties, elements, entries, flags and bytes. Objects referred to twice are copied
    once, distinct ones stay distinct, and cycles are closed, whichever transitions the
    engine expects for the keys that are read. The objects that were in the heap before are
    left as they are. *)
Theorem object_graph_roundtrip stack stack' v d b h e supports_legacy :
  value_ok v -> Serialize ser stack H d v = Some b -> Z.of_nat (length b) < 2 ^ 32 - 8 -> (stack < stack')%nat ->
  exists v' t' ids, Deserialize des supports_legacy stack' b h e = (Just v', t') /\ position_ t' = [] /\
    value_rel ids (r_id_map_ t') v v' /\ copies H ids (r_id_map_ t') (r_heap_ t') /\ frame h (r_heap_ t').
Proof using C.
  intros Hok Hs Hlen Hstack. unfold Serialize in Hs. destruct ((PutHeader ser;; WriteObject ser stack v) (new_serializer H d)) as [[[]| | |] s'] eqn:Hw; try done.
  injection Hs as <-. assert (out_of_memory_ s' = false) as Hoom.
  { eapply checked_false; [|exact Hw]. apply checked_bind. intros _. apply checked_WriteObject. }
  apply seq_inv in Hw as ([] & s1 & Hw1 & Ho1 & Hw); [|intros _; apply sticky_WriteObject|done].
  assert (wrote (new_serializer H d) s1 WriteHeader) as Hheader.
  { assert (puts (new_serializer H d) (PutHeader ser) WriteHeader) as Hputs by (apply puts_seq; [apply puts_raw|sticky|intros ? _; apply puts_raw]).
    by eapply Hputs. }
  assert (ids_ok H (new_serializer H d)) as Hids0 by (split; cbn; [by rewrite map_size_empty|by intros|by intros]).
  assert (heap_ s1 = H /\ ids_ok H s1 /\ buffer_ s1 = WriteHeader) as (Hheap1 & Hids1 & Hbuf1).
  { split_all; [by destruct Hheader as (_ & _ & _ & ->)|by eapply ids_ok_wrote|by destruct Hheader as (-> & _)]. }
  destruct (value_spec_all ser _ H C stack v s1 s' Hw Hheap1 Hids1 Hok) as (bv & Hwr & _ & Hread).
  assert (buffer_ s' = WriteHeader ++ bv) as Hbuf by (rewrite <- Hbuf1; apply Hwr). rewrite Hbuf in *.
  set (t := new_deserializer bv h e).
  destruct (Hread [] stack' Hstack t []) as (v' & t' & Hv & [Hp Hm Hf Hsub] & Hrel).
  - eapply matches_wrote; [exact Hheader|]. split; cbn; try done; intros; by match goal with Hx : _ ∈ [] |- _ => apply elem_of_nil in Hx | Hx : corr _ _ _ _ |- _ => destruct Hx as (? & ? & ?) end.
  - by rewrite app_nil_r.
  - constructor.
  - rewrite app_nil_r. unfold small. rewrite length_app in Hlen. lia.
  - done.
  - exists v', t', (id_map_ s'). split_all; [|done|done|by apply copies_matches|done].
    unfold Deserialize. rewrite ReadHeader_written. cbn [Z.ltb Z.compare andb]. unfold ReadObjectWrapper.
    change (ReadObject (configure des kLatestVersion false true) stack' t) with
      (ReadObject (configure (configure des kLatestVersion false false) (version_ (configure des kLatestVersion false false)) false true)
        stack' (new_deserializer bv h e)) in Hv.
    by rewrite Hv.
Qed.
End roundtrip.

(** ** A graph *)

(** An object with a cycle through itself and a map, and a view with its buffer. *)
Definition example_buffer : array_buffer := mkBuffer 7 [1; 2; 3; 4] 4 false false false false.
Definition example_heap : js_heap := [
  mkReceiver (JSObject true ordinary) [(3, data_property (Prim (HeapNumber 0x3FF8000000000000)))]
    [(str "self", data_property (Receiver 0)); (str "map", data_property (Receiver 1)); (str "view", data_property (Receiver 3))];
  mkReceiver (JSMap [Some (Receiver 0, Prim (Smi 1)); None; Some (Prim (Str (str "buffer")), Receiver 2)]) [] [];
  mkReceiver (JSArrayBuffer example_buffer) [] [];
  mkReceiver (JSArrayBufferView (mkView kUint8Array 2 1 2 false false)) [] []
].

Definition example_serializer : serializer Unit :=
  mkSerializer Unit None false ∅ false Some (fun _ _ h => (None, h)) (fun v h => (string_of v, h)).
Definition example_deserializer : deserializer Unit :=
  mkDeserializer Unit None 0 false false None 0 (fun _ _ _ => true) (fun _ _ _ => true) (fun _ _ _ => true) (fun _ => OneByte [])
    (fun _ => None) (fun _ _ => true) false false (fun _ _ _ => true).

Lemma one_byte_ok chars : forallb (fun c => (0 <=? c) && (c <? 256)) chars = true -> (Z.of_nat (length chars) <=? kMaxLength) = true ->
  string_ok (OneByte chars).
Proof.
  intros Hc Hl. split; [|by apply Z.leb_le]. apply Forall_forall. intros c Hin. apply list_elem_of_In in Hin. apply (proj1 (forallb_forall _ _) Hc) in Hin.
  unfold byte_ok. apply andb_true_iff in Hin as [H1 H2]. apply Z.leb_le in H1. apply Z.ltb_lt in H2. lia.
Qed.

Lemma example_ok r o : example_heap !! r = Some o -> instance_ok (configure example_deserializer kLatestVersion false true) example_heap o.
Proof.
  destruct r as [|[|[|[|r]]]]; [..|done]; intros [= <-]; unfold instance_ok; cbn [instance_type elements named].
  - split; [split; [by repeat constructor|]|split].
    + constructor; [|constructor]. split; [by vm_compute|]. by eexists.
    + apply (bool_decide_unpack _). by vm_compute.
    + repeat (constructor; [split; [by apply one_byte_ok|split; [by vm_compute|by eexists]]|]). constructor.
  - split_all; [by repeat constructor|apply (bool_decide_unpack _); by vm_compute|by repeat constructor].
  - split; [|done]. unfold buffer_ok. split_all; try done. by repeat constructor.
  - exists (mkReceiver (JSArrayBuffer example_buffer) [] []), example_buffer. by split_all.
Qed.

Lemma example_cloning : cloning example_serializer (configure example_deserializer kLatestVersion false true) example_heap.
Proof.
  split; try done; [apply example_ok|].
  intros o s Ho Hmay Hs. unfold example_heap in Ho. repeat (apply elem_of_cons in Ho as [->|Ho]; [done|]). by apply elem_of_nil in Ho.
Qed.

Lemma object_graph_roundtrip_witness : exists b, Serialize example_serializer 3 example_heap tt (Receiver 0) = Some b /\
  exists v' t' ids, Deserialize example_deserializer false 4 b [NewJSObject] tt = (Just v', t') /\ position_ t' = [] /\
    value_rel ids (r_id_map_ t') (Receiver 0) v' /\ copies example_heap ids (r_id_map_ t') (r_heap_ t') /\ frame [NewJSObject] (r_heap_ t').
Proof.
  eexists. split; [vm_compute; reflexivity|].
  apply (object_graph_roundtrip example_serializer example_deserializer example_heap example_cloning 3 4 (Receiver 0) tt); [exact I|by vm_compute|by vm_compute|lia].
Defined.
