(* ===== verification/ObjectTypes.v ===== *)
(** What the deserializer can get from arbitrary bytes, and the type of what it makes of it.
    The parts of the wire format that ObjectReader.v reads (tags, varints, doubles, strings,
    BigInts) are in range whatever the bytes are, and each one that is read takes its bytes
    from the front of the data. Then values, own properties, maps and sets, and heaps whose new
    objects are data ([instance_ok] of ObjectGraphs.v) and refer to objects of the heap only:
    every operation by which ObjectReader.v changes an object keeps the type. *)
From S2P Require Import Prelude Conversions Engine WireFormat Serializer JSHeap ObjectWriter ObjectReader ObjectGraphs.
From Stdlib Require Import Ascii Sorted.

(** [b'] is what is left of [b] after at least one byte. *)
Definition consumed (b b' : bytes) : Prop := b' `suffix_of` b /\ (length b' < length b)%nat.

Lemma suffix_ok (b b' : bytes) : b' `suffix_of` b -> bytes_ok b -> bytes_ok b'.
Proof. intros [p ->]. unfold bytes_ok. rewrite Forall_app. tauto. Qed.

Lemma suffix_short (b b' : bytes) : b' `suffix_of` b -> (length b' <= length b)%nat.
Proof. intros [p ->]. rewrite length_app. lia. Qed.

Lemma consumed_cons byte b b' : b' `suffix_of` b -> consumed (byte :: b) b'.
Proof. intros Hb. split; [by apply suffix_cons_r|]. apply suffix_short in Hb. simpl. lia. Qed.

Lemma consumed_trans b b' b'' : consumed b b' -> b'' `suffix_of` b' -> consumed b b''.
Proof. intros [H1 H2] H3. split; [by etrans|]. apply suffix_short in H3. lia. Qed.

Lemma ReadTag_consumed b tag b' : ReadTag b = Some (tag, b') -> consumed b b'.
Proof.
  induction b as [|byte b IH]; cbn; [done|]. case_match; intros Hb.
  - apply IH in Hb as [? ?]. split; [by apply suffix_cons_r|simpl; lia].
  - simplify_eq. by apply consumed_cons.
Qed.

(** ** Numbers *)

Lemma lor_range w a c : 0 <= w -> 0 <= a < 2 ^ w -> 0 <= c < 2 ^ w -> 0 <= Z.lor a c < 2 ^ w.
Proof.
  intros Hw Ha Hc. assert (0 <= Z.lor a c) by (apply Z.lor_nonneg; lia). split; [done|].
  destruct (decide (Z.lor a c = 0)) as [->|]; [lia|]. apply Z.log2_lt_pow2; [lia|]. rewrite Z.log2_lor by lia.
  destruct (decide (a = 0)) as [->|]; [rewrite Z.max_r by (simpl; apply Z.log2_nonneg)|].
  - assert (c <> 0) by (intros ->; by rewrite Z.lor_0_r in *). by apply Z.log2_lt_pow2; lia.
  - destruct (decide (c = 0)) as [->|]; [rewrite Z.max_l by (simpl; apply Z.log2_nonneg); by apply Z.log2_lt_pow2; lia|].
    apply Z.max_lub_lt; apply Z.log2_lt_pow2; lia.
Qed.

Lemma wrap_range w z : 0 <= w -> 0 <= wrap w z < 2 ^ w.
Proof. intros Hw. unfold wrap. apply Z.mod_pos_bound. lia. Qed.

Lemma varint_read_range w b value shift v b' : 0 <= w -> 0 <= value < 2 ^ w ->
  varint_read_loop w b value shift = Some (v, b') -> 0 <= v < 2 ^ w /\ b' `suffix_of` b.
Proof.
  intros Hw. revert value shift. induction b as [|byte b IH]; cbn; intros value shift Hv; [done|].
  destruct (shift <? w); [|intros; by simplify_eq].
  pose proof (wrap_range w (Z.shiftl (Z.land byte 0x7F) shift) Hw). case_match; intros Hb.
  - apply IH in Hb as [? ?]; [split; [done|by apply suffix_cons_r]|by apply lor_range].
  - simplify_eq. split; [by apply lor_range|by apply suffix_cons_r].
Qed.

Lemma ReadVarint_range w b v b' : w ∈ widths -> bytes_ok b -> ReadVarint w b = Some (v, b') -> 0 <= v < 2 ^ w /\ consumed b b'.
Proof.
  intros Hw Hb. rewrite ReadVarint_loop by done. unfold ReadVarintLoop. assert (0 < w) by (unfold widths in Hw; set_unfold; lia).
  destruct b as [|byte b]; cbn; [done|]. destruct (Z.ltb_spec 0 w); [|lia].
  pose proof (wrap_range w (Z.shiftl (Z.land byte 0x7F) 0) ltac:(lia)). case_match; intros Hr.
  - apply varint_read_range in Hr as [? ?]; [|lia|apply lor_range; lia]. split; [done|by apply consumed_cons].
  - simplify_eq. split; [apply lor_range; lia|by apply consumed_cons].
Qed.

Lemma ReadZigZag_range b n b' : bytes_ok b -> ReadZigZag 32 b = Some (n, b') -> - 2 ^ 31 <= n < 2 ^ 31 /\ consumed b b'.
Proof.
  intros Hb. unfold ReadZigZag. destruct (ReadVarint 32 b) as [[v c]|] eqn:Hv; cbn; [|done]. intros; simplify_eq.
  apply ReadVarint_range in Hv as [? ?]; [|auto with v8|done]. split; [|done].
  match goal with |- context [swrap 32 ?z] => pose proof (swrap_bounds 32 z ltac:(lia)) end. lia.
Qed.

Lemma le_value_range b : bytes_ok b -> 0 <= le_value b < 256 ^ Z.of_nat (length b).
Proof.
  induction 1 as [|byte b Hb _ IH]; cbn [le_value length]; [done|]. unfold byte_ok in Hb.
  rewrite Nat2Z.inj_succ, Z.pow_succ_r by lia. nia.
Qed.

(** Doubles are canonical. *)
Lemma ReadDouble_range b d b' : bytes_ok b -> ReadDouble b = Some (d, b') ->
  0 <= d < 2 ^ 64 /\ canonical_double d = d /\ consumed b b'.
Proof.
  intros Hb. unfold ReadDouble. destruct (Z.gtb_spec 8 (wrap 32 (Z.of_nat (length b)))) as [|Hl]; [done|].
  assert (8 <= length b)%nat.
  { unfold wrap in Hl. pose proof (Z.mod_le (Z.of_nat (length b)) (2 ^ 32) ltac:(lia) ltac:(lia)). lia. }
  assert (Ht : bytes_ok (take 8 b)) by by apply Forall_take.
  pose proof (le_value_range _ Ht) as Hr. rewrite length_take, Nat.min_l in Hr by lia. intros Hd. simplify_eq.
  split; [|split].
  - destruct (isnan _); [by vm_compute|]. change (256 ^ Z.of_nat 8) with (2 ^ 64) in Hr. lia.
  - unfold canonical_double. destruct (isnan (le_value (take 8 b))) eqn:E; [by vm_compute|by rewrite E].
  - split; [apply suffix_drop|rewrite length_drop; lia].
Qed.

Lemma ReadRawBytes_inv n b raw b' : 0 <= n -> ReadRawBytes n b = Some (raw, b') -> b = raw ++ b' /\ Z.of_nat (length raw) = n.
Proof.
  unfold ReadRawBytes. intros Hn. destruct (Z.gtb_spec n (Z.of_nat (length b))) as [|Hl]; [done|]. intros Hr. simplify_eq.
  split; [by rewrite take_drop|]. rewrite length_take. lia.
Qed.

(** ** Strings *)

(** A string of the reader: an empty one has one-byte characters. *)
Definition read_string (s : flat_string) : Prop := string_ok s /\ canonical_string s = s.

Lemma two_bytes_range b : bytes_ok b ->
  Forall (fun c => 0 <= c < 2 ^ 16) (two_bytes b) /\ (Z.of_nat (length (two_bytes b)) = Z.of_nat (length b) / 2).
Proof.
  intros Hb. remember (length b) as n eqn:Hn. revert b Hb Hn. induction (lt_wf n) as [n _ IH]. intros [|lo [|hi b]] Hb ->; cbn.
  - split; [constructor|done].
  - split; [constructor|done].
  - inversion Hb as [|?? Hlo Hb']; subst. inversion Hb' as [|?? Hhi Hb'']; subst. unfold byte_ok in *.
    destruct (IH (length b)) with b as [H1 H2]; [simpl; lia|done|done|]. split; [constructor; [lia|done]|].
    rewrite Nat2Z.inj_succ, H2. replace (Z.of_nat (S (S (length b)))) with (Z.of_nat (length b) + 1 * 2) by lia.
    rewrite Z.div_add by done. lia.
Qed.

Lemma ReadOneByteString_range b s b' : bytes_ok b -> ReadOneByteString b = Some (s, b') -> read_string s /\ consumed b b'.
Proof.
  intros Hb. unfold ReadOneByteString. destruct (ReadVarint 32 b) as [[n c]|] eqn:Hn; cbn; [|done].
  apply ReadVarint_range in Hn as [Hn Hc]; [|auto with v8|done]. destruct (ReadRawBytes n c) as [[raw c']|] eqn:Hr; cbn; [|done].
  apply ReadRawBytes_inv in Hr as [-> Hlen]; [|lia]. destruct (Z.gtb_spec n kMaxLength); [done|]. intros; simplify_eq.
  assert (bytes_ok (raw ++ b')) as Hok by (eapply suffix_ok; [apply Hc|done]). apply Forall_app in Hok as [Hok _].
  split; [by repeat split; [|lia]|]. eapply consumed_trans; [done|by exists raw].
Qed.

Lemma ReadTwoByteString_range b s b' : bytes_ok b -> ReadTwoByteString b = Some (s, b') -> read_string s /\ consumed b b'.
Proof.
  intros Hb. unfold ReadTwoByteString. destruct (ReadVarint 32 b) as [[n c]|] eqn:Hn; cbn; [|done].
  apply ReadVarint_range in Hn as [Hn Hc]; [|auto with v8|done]. destruct (Z.eqb_spec (n mod 2) 0); cbn; [|done].
  destruct (ReadRawBytes n c) as [[raw c']|] eqn:Hr; cbn; [|done]. apply ReadRawBytes_inv in Hr as [-> Hlen]; [|lia].
  assert (bytes_ok (raw ++ c')) as Hok by (eapply suffix_ok; [apply Hc|done]). apply Forall_app in Hok as [Hok _].
  assert (Hcons : consumed b c') by (eapply consumed_trans; [done|by exists raw]).
  destruct (Z.eqb_spec n 0); [intros; simplify_eq; split; [|done]; split; [split; [constructor|done]|done]|].
  destruct (Z.gtb_spec (n / 2) kMaxLength); [done|]. intros; simplify_eq. destruct (two_bytes_range raw Hok) as [Hch Hl].
  split; [|done]. split; [split; [done|]|].
  - rewrite Hl. lia.
  - cbn. destruct (two_bytes raw) eqn:E; [|done]. simpl in Hl.
    Z.to_euclidean_division_equations; lia.
Qed.

(** ** BigInts *)

Lemma digits_of_ok n b : bytes_ok b -> Forall (fun d => 0 <= d < 2 ^ 64) (digits_of n b) /\ length (digits_of n b) = n.
Proof.
  revert b. induction n as [|n IH]; intros b Hb; cbn [digits_of]; [split; [constructor|done]|].
  destruct (IH (drop 8 b)) as [H1 H2]; [by apply Forall_drop|]. split; [|simpl; by rewrite H2]. constructor; [|done].
  pose proof (le_value_range (take 8 b) ltac:(by apply Forall_take)). rewrite length_take in *.
  pose proof (Z.pow_le_mono_r 256 (Z.of_nat (Nat.min 8 (length b))) 8 ltac:(lia) ltac:(lia)). change (2 ^ 64) with (256 ^ 8). lia.
Qed.

Lemma strip_zeros_facts l :
  strip_zeros (strip_zeros l) = strip_zeros l /\ (length (strip_zeros l) <= length l)%nat /\
  (forall P : Z -> Prop, Forall P l -> Forall P (strip_zeros l)).
Proof.
  induction l as [|d l (IH1 & IH2 & IH3)]; cbn; [done|]. destruct (strip_zeros l) as [|e l'] eqn:E.
  - destruct (Z.eqb_spec d 0) as [|Hd]; cbn; split_all; [done|lia|constructor|by apply Z.eqb_neq in Hd as ->|lia|].
    intros P HP. inversion HP; subst. by constructor.
  - split_all; [|simpl in *; lia|].
    + change (strip_zeros (d :: e :: l')) with (match strip_zeros (e :: l') with [] => if d =? 0 then [] else [d] | l => d :: l end).
      by rewrite IH1.
    + intros P HP. inversion HP; subst. constructor; [done|]. by apply IH3.
Qed.

(** Data of less than 2^27 bytes has no BigInt that is too long. *)
Definition short (b : bytes) : Prop := Z.of_nat (length b) < 2 ^ 27 - 8.

Lemma FromSerializedDigits_safe bitfield digits : 0 <= bitfield -> bytes_ok digits -> short digits ->
  Z.of_nat (length digits) = DigitsByteLengthForBitfield bitfield ->
  match FromSerializedDigits bitfield digits with Just v => bigint_ok v | Nothing => True | _ => False end.
Proof.
  intros Hbit Hd Hs Hlen. unfold FromSerializedDigits, DigitsByteLengthForBitfield, short in *.
  rewrite <- Hlen. set (n := (Z.of_nat (length digits) + 8 - 1) / 8). destruct (_ && _); [done|].
  assert (n <= kMaxBigIntLength) by (unfold n, kMaxBigIntLength; Z.to_euclidean_division_equations; lia).
  assert (0 <= n) by (unfold n; Z.to_euclidean_division_equations; lia).
  destruct (Z.gtb_spec n kMaxBigIntLength); [lia|]. destruct (digits_of_ok (Z.to_nat n) digits Hd) as [Hd1 Hd2].
  destruct (strip_zeros_facts (digits_of (Z.to_nat n) digits)) as (Hs1 & Hs2 & Hs3).
  unfold bigint_ok, Canonicalize. cbn [JSHeap.digits sign]. split_all; [by apply Hs3|done|lia|]. by intros ->.
Qed.

(** Longer ones are a fatal error of NewBigInt: the length in the data is not checked before. *)
Lemma long_bigint_aborts bitfield digits : kMaxBigIntLength * 8 < Z.shiftr bitfield 1 -> FromSerializedDigits bitfield digits = Aborts.
Proof.
  intros Hlong. unfold FromSerializedDigits, kMaxBigIntLength in *. set (n := (Z.shiftr bitfield 1 + 8 - 1) / 8).
  assert ((2 ^ 30 - 1) / 64 < n) by (unfold n; Z.to_euclidean_division_equations; lia).
  assert (0 < (2 ^ 30 - 1) / 64) by done.
  destruct (Z.eqb_spec n 0); [lia|]. cbn [andb]. by destruct (Z.gtb_spec n ((2 ^ 30 - 1) / 64)); [|lia].
Qed.

(** ** Values *)

(** A value of the reader, in a heap of [n] objects. *)
Definition read_value (n : nat) (v : js_value) : Prop :=
  match v with
  | Prim p => primitive_ok p /\ canonical p = p
  | BigIntValue b => bigint_ok b
  | Symbol _ => False
  | Receiver r => (r < n)%nat
  end.

Lemma read_value_mono n m v : (n <= m)%nat -> read_value n v -> read_value m v.
Proof. destruct v; simpl; try tauto. lia. Qed.

Lemma read_value_ok n v : read_value n v -> value_ok v.
Proof. destruct v; simpl; tauto. Qed.

Lemma read_value_string n s : read_value n (Prim (Str s)) <-> read_string s.
Proof.
  simpl. unfold read_string. split; intros [? Hs]; (split; [done|]); [by injection Hs as Hs|by rewrite Hs].
Qed.

Lemma read_value_int n z : - 2 ^ 31 <= z < 2 ^ 32 -> read_value n (Prim (NewNumber z)).
Proof.
  intros Hz. unfold NewNumber. destruct (Z.leb_spec z (2 ^ 31 - 1)); simpl; [split; [lia|done]|].
  rewrite canonical_int_double by lia. split; [apply int_double_bounds; lia|done].
Qed.

(** ** Keys *)

Definition key_ok (k : property_key) : Prop :=
  match k with Index i => 0 <= i <= kMaxElementIndex | Name s => string_ok s /\ is_name s end.

Lemma index_digits_nonneg chars result i : 0 <= result -> index_digits chars result = Some i -> 0 <= i.
Proof.
  revert result. induction chars as [|c chars IH]; cbn; intros result Hr Hi; [by simplify_eq|].
  destruct (Z.leb_spec (char_code "0") c); [|done]. destruct (c <=? _); [|done]. cbn in Hi.
  destruct (_ <=? kMaxSafeInteger); [|done]. apply IH in Hi; [done|]. change (char_code "0") with 48 in *. lia.
Qed.

Lemma AsIntegerIndex_nonneg s i : AsIntegerIndex s = Some i -> 0 <= i.
Proof.
  unfold AsIntegerIndex, StringToIndex. destruct (_ || _); [done|]. destruct (chars_of s) as [|c chars]; [done|].
  destruct (c =? _); [destruct chars; intros; by simplify_eq|].
  destruct (Z.leb_spec (char_code "0") c) as [Hc|]; [|done]. destruct (c <=? _); [|done]. cbn.
  apply index_digits_nonneg. change (char_code "0") with 48 in *. lia.
Qed.

Lemma name_key_ok s : string_ok s -> key_ok (name_key s).
Proof.
  intros Hs. assert (Hn : key_ok (Name s) \/ exists i, name_key s = Index i /\ 0 <= i <= kMaxElementIndex).
  { unfold key_ok, is_name, name_key. destruct (AsIntegerIndex s) as [i|] eqn:Hi; [|by left].
    apply AsIntegerIndex_nonneg in Hi. destruct (Z.leb_spec i kMaxElementIndex); [right; by eauto|by left]. }
  destruct Hn as [[? Hn]|(i & -> & ?)]; [by rewrite Hn|done].
Qed.

Lemma ToIntegerIndex_nonneg p i : ToIntegerIndex p = Some i -> 0 <= i.
Proof.
  destruct p as [| | | |n|d|s]; cbn; try done.
  - destruct (Z.ltb_spec n 0); intros; by simplify_eq.
  - destruct (isnan d); [done|]. destruct (ge_int d 0) eqn:Hg; [|done]. destruct (le_int d _) eqn:Hl; [|done]. cbn.
    destruct (_ =? _); [|done]. intros; simplify_eq. by pose proof (trunc_bounds d 0 kMaxSafeInteger ltac:(done) Hl Hg) as [? _].
Qed.

(** ** Own properties *)

Definition own_value (n : nat) (p : own_property) : Prop := match what p with Data v => read_value n v | Accessor _ => False end.

Lemma own_value_data n v b : read_value n v -> own_value n (mkProperty b (Data v)).
Proof. done. Qed.

Lemma own_value_mono n m p : (n <= m)%nat -> own_value n p -> own_value m p.
Proof. unfold own_value. intros. destruct (what p); [by eapply read_value_mono|done]. Qed.

Lemma own_value_is_data n p : own_value n p -> is_data p.
Proof. unfold own_value, is_data. destruct (what p) as [v|]; [|done]. intros ?%read_value_ok. by exists v. Qed.

(** An object or array with the properties of data. *)
Definition container (o : receiver) : Prop :=
  elements_ok (elements o) /\ named_ok (named o) /\
  match instance_type o with
  | JSObject _ _ => True
  | JSArray kind n =>
      kind = HOLEY_ELEMENTS /\ 0 <= n < 2 ^ 32 /\ Forall (fun i => i < n) (elements o).*1 /\
      (chars_of length_string ∉ (chars_of ∘ fst <$> named o))
  | _ => False
  end.

(** Its values are values of the heap. *)
Definition own_values (n : nat) (o : receiver) : Prop :=
  Forall (fun e => own_value n e.2) (elements o) /\ Forall (fun e => own_value n e.2) (named o).

Lemma find_element_key i l : i ∈ l.*1 -> is_Some (find_element i l).
Proof.
  induction l as [|[j p] l IH]; cbn; [by intros ?%elem_of_nil|]. rewrite elem_of_cons. intros [->|Hi]; [rewrite Z.eqb_refl; eauto|].
  destruct (i =? j); [by eauto|auto].
Qed.

Lemma find_named_key s l : chars_of s ∈ (chars_of ∘ fst <$> l) -> is_Some (find_named s l).
Proof.
  induction l as [|[t p] l IH]; cbn; [by intros ?%elem_of_nil|]. rewrite elem_of_cons. intros [?|Hi]; case_decide; by eauto.
Qed.

Lemma insert_element_elem i p l e : e ∈ insert_element i p l -> e = (i, p) \/ e ∈ l.
Proof.
  induction l as [|[j q] l IH]; cbn; [by intros ?%list_elem_of_singleton; left|].
  destruct (i <? j); rewrite !elem_of_cons; [tauto|]. intros [->|?%IH]; tauto.
Qed.

Lemma insert_element_Forall (P : Z * own_property -> Prop) i p l : P (i, p) -> Forall P l -> Forall P (insert_element i p l).
Proof.
  intros Hp Hl. apply Forall_forall. intros e [->|He]%insert_element_elem; [done|]. by eapply Forall_forall in Hl.
Qed.

Lemma insert_element_sorted i p l : i ∉ l.*1 -> StronglySorted Z.lt l.*1 -> StronglySorted Z.lt (insert_element i p l).*1.
Proof.
  induction l as [|[j q] l IH]; cbn [insert_element]; intros Hi Hs; [by repeat constructor|].
  rewrite fmap_cons, not_elem_of_cons in Hi. destruct Hi as [Hij Hi]. simpl in Hij. rewrite fmap_cons in Hs. inversion Hs as [|?? Hs' Hj]; subst.
  simpl in Hj. destruct (Z.ltb_spec i j).
  - rewrite !fmap_cons. simpl. constructor; [by constructor|]. constructor; [done|]. eapply Forall_impl; [done|]. simpl. lia.
  - rewrite fmap_cons. simpl. constructor; [by apply IH|]. apply Forall_forall. intros x ([k r] & -> & Hk)%list_elem_of_fmap.
    apply insert_element_elem in Hk as [Hk|Hk]; [simplify_eq; simpl; lia|]. eapply Forall_forall in Hj; [done|].
    by apply (list_elem_of_fmap_2 fst) in Hk.
Qed.

Lemma own_lookup_fresh o s : own_lookup o (Name s) = None -> chars_of s ∉ (chars_of ∘ fst <$> named o).
Proof.
  intros Hl Hs%find_named_key. cbn in Hl. destruct Hs as [p Hp]. destruct (instance_type o); try (by rewrite Hp in Hl).
  case_decide; [done|by rewrite Hp in Hl].
Qed.

(** Defining a new property keeps the type. *)
Lemma define_own_container n k v o : container o -> key_ok k -> read_value n v -> own_lookup o k = None -> container (define_own k v o).
Proof.
  intros ((Hsort & Hel) & (Hnd & Hnm) & Ht) Hk Hv%read_value_ok Hl. destruct k as [i|s]; cbn in Hk.
  - assert (Hi : i ∉ (elements o).*1) by (intros [p Hp]%find_element_key; cbn in Hl; by rewrite Hp in Hl).
    assert (Hd : is_data (mkProperty true (Data v))) by (by exists v).
    unfold container, elements_ok. cbn [define_own elements named instance_type]. split_all.
    + by apply insert_element_sorted.
    + by apply insert_element_Forall.
    + done.
    + destruct (instance_type o) as [| |kind m| | | | | | | | | | | |]; try done. destruct Ht as (? & Hm & Hb & ?). unfold kMaxElementIndex in Hk.
      split; [done|]. split; [lia|]. split; [|done]. apply Forall_fmap, insert_element_Forall; simpl; [lia|].
      apply Forall_fmap in Hb. eapply Forall_impl; [done|]. simpl. lia.
  - pose proof (own_lookup_fresh o s Hl) as Hs. unfold container, named_ok. cbn [define_own elements named instance_type]. split_all; [done|..].
    + rewrite fmap_app. apply NoDup_app. split_all; [done| |by apply NoDup_singleton]. intros c Hc ->%list_elem_of_singleton. done.
    + apply Forall_app. split; [done|]. apply Forall_singleton. simpl. split; [tauto|]. split; [tauto|]. by exists v.
    + unfold own_lookup in Hl. destruct (instance_type o); try done. destruct Ht as (? & Hm & Hb & Hlen). split_all; [done|lia|lia|done|].
      rewrite fmap_app. intros [?|Hin]%elem_of_app; [done|]. apply list_elem_of_singleton in Hin. by rewrite decide_True in Hl.
Qed.

Lemma define_own_values n k v o : own_values n o -> read_value n v -> own_values n (define_own k v o).
Proof.
  intros [He Hn] Hv. destruct k; (split; [|]); cbn; try done.
  - by apply insert_element_Forall.
  - apply Forall_app. split; [done|by apply Forall_singleton].
Qed.

(** ** Entries of maps and sets *)

Lemma normalize_key_idem v : normalize_key (normalize_key v) = normalize_key v.
Proof. destruct v as [[| | | | |d|]| | |]; try done. cbn. by destruct (d =? kSignMask) eqn:E; cbn; rewrite ?E. Qed.

Lemma identity_normalize v : identity_of (normalize_key v) = identity_of v.
Proof. destruct v as [[| | | | |d|]| | |]; try done. cbn. destruct (d =? kSignMask) eqn:E; cbn; by rewrite ?E. Qed.

Lemma read_value_normalize n v : read_value n v -> read_value n (normalize_key v).
Proof. destruct v as [[| | | | |d|]| | |]; try done. cbn. by destruct (d =? kSignMask). Qed.

Lemma SameValueZero_spec v w : SameValueZero v w = true <-> identity_of v = identity_of w.
Proof. apply bool_decide_eq_true. Qed.

(** Keys differ and are normalized; everything is a value of the heap. *)
Definition map_ok (n : nat) (table : list (option (js_value * js_value))) : Prop :=
  Forall (fun e => read_value n e.1 /\ read_value n e.2) (omap id table) /\
  NoDup (identity_of ∘ fst <$> omap id table) /\ Forall (fun e => normalize_key e.1 = e.1) (omap id table).
Definition set_ok (n : nat) (table : list (option js_value)) : Prop :=
  Forall (read_value n) (omap id table) /\ NoDup (identity_of <$> omap id table) /\ Forall (fun e => normalize_key e = e) (omap id table).

Lemma map_ok_cons n k v table : map_ok n (Some (k, v) :: table) <->
  (read_value n k /\ read_value n v) /\ (identity_of k ∉ (identity_of ∘ fst <$> omap id table)) /\ normalize_key k = k /\ map_ok n table.
Proof.
  unfold map_ok. change (omap id (Some (k, v) :: table)) with ((k, v) :: omap id table).
  rewrite fmap_cons, !Forall_cons, NoDup_cons. simpl. tauto.
Qed.

Lemma set_ok_cons n k table : set_ok n (Some k :: table) <->
  read_value n k /\ (identity_of k ∉ (identity_of <$> omap id table)) /\ normalize_key k = k /\ set_ok n table.
Proof.
  unfold set_ok. change (omap id (Some k :: table)) with (k :: omap id table).
  rewrite fmap_cons, !Forall_cons, NoDup_cons. tauto.
Qed.

Lemma map_set_keys k v table x :
  x ∈ (identity_of ∘ fst <$> omap id (map_set k v table)) -> x = identity_of k \/ x ∈ (identity_of ∘ fst <$> omap id table).
Proof.
  induction table as [|[[k' v']|] table IH]; cbn [map_set].
  - intros Hx%list_elem_of_singleton. left. by rewrite Hx, <- (identity_normalize k).
  - destruct (SameValueZero k k'); [by right|]. change (omap id (Some (k', v') :: ?l)) with ((k', v') :: omap id l).
    rewrite !fmap_cons, !elem_of_cons. intros [->|?%IH]; tauto.
  - done.
Qed.

Lemma map_set_ok n k v table : read_value n k -> read_value n v -> map_ok n table -> map_ok n (map_set k v table).
Proof.
  intros Hk Hv. induction table as [|[[k' v']|] table IH]; cbn [map_set]; intros Ht.
  - apply map_ok_cons. split; [split; [by apply read_value_normalize|done]|]. split; [apply not_elem_of_nil|].
    split; [apply normalize_key_idem|done].
  - apply map_ok_cons in Ht as ([Hk' Hv'] & Hnk & Hnorm & Ht). destruct (SameValueZero k k') eqn:E; apply map_ok_cons; [done|].
    split; [done|]. split; [|auto]. intros [Hi|Hi]%map_set_keys; [|done].
    apply not_true_iff_false in E. by rewrite SameValueZero_spec in E.
  - by apply IH.
Qed.

Lemma set_add_keys k table x :
  x ∈ (identity_of <$> omap id (set_add k table)) -> x = identity_of k \/ x ∈ (identity_of <$> omap id table).
Proof.
  induction table as [|[k'|] table IH]; cbn [set_add].
  - intros Hx%list_elem_of_singleton. left. by rewrite Hx, <- (identity_normalize k).
  - destruct (SameValueZero k k'); [by right|]. change (omap id (Some k' :: ?l)) with (k' :: omap id l).
    rewrite !fmap_cons, !elem_of_cons. intros [->|?%IH]; tauto.
  - done.
Qed.

Lemma set_add_ok n k table : read_value n k -> set_ok n table -> set_ok n (set_add k table).
Proof.
  intros Hk. induction table as [|[k'|] table IH]; cbn [set_add]; intros Ht.
  - apply set_ok_cons. split; [by apply read_value_normalize|]. split; [apply not_elem_of_nil|].
    split; [apply normalize_key_idem|done].
  - apply set_ok_cons in Ht as (Hk' & Hnk & Hnorm & Ht). destruct (SameValueZero k k') eqn:E; apply set_ok_cons; [done|].
    split; [done|]. split; [|auto]. intros [Hi|Hi]%set_add_keys; [|done].
    apply not_true_iff_false in E. by rewrite SameValueZero_spec in E.
  - by apply IH.
Qed.

(** ** Objects *)

(** The values in internal fields are values of the heap. *)
Definition field_values (n : nat) (t : instance) : Prop :=
  match t with
  | JSPrimitiveWrapper v => read_value n v
  | JSMap table => Forall (fun e => read_value n e.1 /\ read_value n e.2) (omap id table)
  | JSSet table => Forall (read_value n) (omap id table)
  | JSArrayBufferView v => (view_buffer v < n)%nat
  | JSError name stack => own_value n (mkProperty false name) /\ own_value n (mkProperty false stack)
  | _ => True
  end.

(** The buffers of a heap are in another. *)
Definition buffers_kept (h h' : js_heap) : Prop := forall r o b,
  h !! r = Some o -> instance_type o = JSArrayBuffer b -> exists o', h' !! r = Some o' /\ instance_type o' = JSArrayBuffer b.

Section made.
Context {D : Type} (des : deserializer D).

(** An object that the reader made, in the heap [h]. *)
Definition made (h : js_heap) (o : receiver) : Prop :=
  own_values (length h) o /\ field_values (length h) (instance_type o) /\ instance_ok des h o.

Lemma own_values_mono n m o : (n <= m)%nat -> own_values n o -> own_values m o.
Proof. intros Hn [H1 H2]. split; (eapply Forall_impl; [done|]; intros; by eapply own_value_mono). Qed.

Lemma field_values_mono n m t : (n <= m)%nat -> field_values n t -> field_values m t.
Proof.
  intros Hn. destruct t; try done; cbn [field_values].
  - by apply read_value_mono.
  - intros Hf. eapply Forall_impl; [done|]. simpl. intros ? [? ?]. split; by eapply read_value_mono.
  - intros Hf. eapply Forall_impl; [done|]. intros. by eapply read_value_mono.
  - lia.
  - intros [? ?]. split; by eapply own_value_mono.
Qed.

Lemma made_mono h h' o : (length h <= length h')%nat -> buffers_kept h h' -> made h o -> made h' o.
Proof.
  intros Hn Hb (H1 & H2 & H3). split; [by eapply own_values_mono|]. split; [by eapply field_values_mono|].
  unfold instance_ok in *. destruct (instance_type o); try done. destruct H3 as (ob & b & Hob & Ht & Hv).
  destruct (Hb _ _ _ Hob Ht) as (ob' & ? & ?). by exists ob', b.
Qed.

Lemma container_made h o : container o -> own_values (length h) o -> made h o.
Proof.
  intros (He & Hn & Ht) Hv. split; [done|]. unfold field_values, instance_ok. destruct (instance_type o) as [| |kind m| | | | | | | | | | | |]; try done.
  destruct Ht as (-> & ?). tauto.
Qed.

Lemma made_container h o : made h o -> container o -> own_values (length h) o.
Proof. by intros [? _]. Qed.

Lemma map_made h table : map_ok (length h) table -> made h (mkReceiver (JSMap table) [] []).
Proof.
  intros (Hv & Hd & Hn). split; [by split; constructor|]. split; [done|]. unfold instance_ok. cbn [instance_type].
  split_all; [|done|done]. eapply Forall_impl; [exact Hv|]. intros e [H1 H2]. split; by eapply read_value_ok.
Qed.

Lemma set_made h table : set_ok (length h) table -> made h (mkReceiver (JSSet table) [] []).
Proof.
  intros (Hv & Hd & Hn). split; [by split; constructor|]. split; [done|]. unfold instance_ok. cbn [instance_type].
  split_all; [|done|done]. eapply Forall_impl; [exact Hv|]. intros e He. by eapply read_value_ok.
Qed.
End made.
