(* ===== verification/ReaderSafety.v ===== *)
(** The deserializer on arbitrary bytes: a logic of runs.

    [runs n p m s Q] says that the operation [m] of ObjectReader.v, started in [s], ends in a
    well-formed state, neither aborts nor reaches undefined behaviour, changes no object
    below [n], and, when it succeeds, leaves a suffix of [p] and satisfies [Q]. The lemmas
    are the rules of the logic and the specifications of the operations without parts. *)
From S2P Require Import Prelude Conversions Engine WireFormat Serializer JSHeap ObjectWriter ObjectReader.
From S2P Require Import ObjectGraphs ObjectTypes.

(** The objects below [n] are the same in a heap that has grown. *)
Definition keeps (n : nat) (h h' : js_heap) : Prop :=
  (length h <= length h')%nat /\ forall r, (r < n)%nat -> h' !! r = h !! r.

Lemma keeps_refl n h : keeps n h h.
Proof. done. Qed.

Lemma keeps_trans n h1 h2 h3 : keeps n h1 h2 -> keeps n h2 h3 -> keeps n h1 h3.
Proof. intros [? H1] [? H2]. split; [lia|]. intros r Hr. by rewrite H2, H1. Qed.

Lemma keeps_weaken n m h h' : (n <= m)%nat -> keeps m h h' -> keeps n h h'.
Proof. intros Hn [? Hk]. split; [done|]. intros. apply Hk. lia. Qed.

Lemma keeps_lookup n h h' r o : keeps n h h' -> (r < n)%nat -> h !! r = Some o -> h' !! r = Some o.
Proof. intros [_ Hk] Hr Ho. by rewrite Hk. Qed.

Lemma keeps_app n h o : (n <= length h)%nat -> keeps n h (h ++ [o]).
Proof. intros Hn. split; [rewrite length_app; lia|]. intros. apply lookup_app_l. lia. Qed.

Lemma keeps_insert n h r o : (n <= r)%nat -> keeps n h (<[r := o]> h).
Proof. intros Hn. split; [by rewrite length_insert|]. intros. apply list_lookup_insert_ne. lia. Qed.

(** A key of a transition: a name that the fields before it do not have. *)
Definition fresh_name (keys : list flat_string) (key : flat_string) : Prop :=
  string_ok key /\ is_name key /\ (chars_of key ∉ (chars_of <$> keys)).

Definition bounded_buffer (o : receiver) : Prop := forall b, instance_type o = JSArrayBuffer b -> buffer_length b <= kMaxByteLength.

Section reader.
Context {D : Type} (des : deserializer D) (H0 : js_heap) (Foreign : receiver -> Prop).

(** What the reader relies on: the engine's functions are as documented, the objects of the
    delegate are [Foreign] and made from at least one byte, there is no conveyor of shared
    values, and the transferred buffers are objects of the heap. *)
Record environment : Prop := {
  e_utf8 b s : NewStringFromUtf8 des b = Some s -> read_string s;
  e_number p : primitive_ok p -> string_ok (NumberToString des p);
  e_index p i : primitive_ok p -> ToIntegerIndex p = Some i -> AsIntegerIndex (NumberToString des p) = Some i;
  e_expected s keys key : ExpectedTransition des s keys key = true -> fresh_name keys key;
  e_field s keys key : FindTransitionToField des s keys key = true -> fresh_name keys key;
  e_host d b ds : d_delegate_ des = Some d -> bytes_ok b ->
    match (delegate_ReadHostObject d b ds).1.1 with
    | Just (o, b') => consumed b b' /\ Foreign o /\ bounded_buffer o
    | Nothing => True
    | _ => False
    end;
  e_shared d id ds : d_delegate_ des = Some d ->
    match (delegate_GetSharedArrayBufferFromId d id ds).1.1 with
    | Just b => Foreign (mkReceiver (JSArrayBuffer b) [] []) /\ buffer_length b <= kMaxByteLength
    | Nothing => True
    | _ => False
    end;
  e_conveyor d : d_delegate_ des = Some d -> GetSharedValueConveyor d = None;
  e_transfer m id r : r_array_buffer_transfer_map_ des = Some m -> m !! id = Some r -> (r < length H0)%nat;
}.

Record state_ok (s : rstate D) : Prop := {
  s_made r o : (length H0 <= r)%nat -> r_heap_ s !! r = Some o -> made des (r_heap_ s) o \/ Foreign o;
  s_old : keeps (length H0) H0 (r_heap_ s);
  s_buffers r o : r_heap_ s !! r = Some o -> bounded_buffer o;
  s_ids id r : r_id_map_ s !! id = Some r -> (r < length (r_heap_ s))%nat;
  s_bytes : bytes_ok (position_ s);
  s_short : short (position_ s);
}.

Definition runs {A} (n : nat) (p : bytes) (m : R D A) (s : rstate D) (Q : A -> rstate D -> Prop) : Prop :=
  match m s with
  | (Just a, s') => state_ok s' /\ keeps n (r_heap_ s) (r_heap_ s') /\ position_ s' `suffix_of` p /\ Q a s'
  | (Nothing, s') => state_ok s' /\ keeps n (r_heap_ s) (r_heap_ s')
  | _ => False
  end.

(** The state is ready for an operation that has to leave a suffix of [p]. *)
Definition ready (p : bytes) (s : rstate D) : Prop := state_ok s /\ position_ s `suffix_of` p.

Lemma state_ok_eq s s' : r_heap_ s' = r_heap_ s -> r_id_map_ s' = r_id_map_ s -> position_ s' `suffix_of` position_ s ->
  state_ok s -> state_ok s'.
Proof.
  intros Hh Hi Hp [H1 H2 H3 H4 H5 H6]. split; rewrite ?Hh, ?Hi; try done; [by eapply suffix_ok|].
  unfold short in *. apply suffix_short in Hp. lia.
Qed.

Lemma runs_bind {A B} n p (m : R D A) (k : A -> R D B) s Q Q' :
  runs n p m s Q' ->
  (forall a s1, ready p s1 -> keeps n (r_heap_ s) (r_heap_ s1) -> Q' a s1 -> runs n p (k a) s1 Q) ->
  runs n p (m ≫= k) s Q.
Proof.
  unfold runs. unfold mbind, stateful_bind. destruct (m s) as [[a| | |] s1]; try done. intros (Hok & Hk & Hp & HQ) Hrest.
  specialize (Hrest a s1 (conj Hok Hp) Hk HQ). destruct (k a s1) as [[b| | |] s2]; try done.
  - destruct Hrest as (? & ? & ? & ?). split_all; try done. by eapply keeps_trans.
  - destruct Hrest as (? & ?). split; [done|]. by eapply keeps_trans.
Qed.

Lemma runs_conseq {A} n n' p p' (m : R D A) s (Q Q' : A -> rstate D -> Prop) :
  runs n' p' m s Q' -> (n <= n')%nat -> p' `suffix_of` p ->
  (forall a s', keeps n' (r_heap_ s) (r_heap_ s') -> Q' a s' -> Q a s') -> runs n p m s Q.
Proof.
  unfold runs. intros Hm Hn Hp HQ. destruct (m s) as [[a| | |] s1]; try done.
  - destruct Hm as (? & ? & ? & ?). split_all; [done|by eapply keeps_weaken|by etrans|by apply HQ].
  - destruct Hm as [? ?]. split; [done|by eapply keeps_weaken].
Qed.

Lemma runs_ret {A} n p (a : A) s Q : ready p s -> Q a s -> runs n p (mret a) s Q.
Proof. intros [? ?] ?. by unfold runs, mret, stateful_ret. Qed.

Lemma runs_throws {A} n p s (Q : A -> rstate D -> Prop) : ready p s -> runs n p throws s Q.
Proof. by intros [? ?]. Qed.

Lemma runs_throw {A} n p s (Q : A -> rstate D -> Prop) : ready p s -> runs n p throw s Q.
Proof. intros [Hok ?]. unfold runs, throw. split; [by apply (state_ok_eq s)|done]. Qed.

Lemma runs_failing {A} n p (o : option A) s Q : ready p s -> (forall a, o = Some a -> Q a s) -> runs n p (failing o) s Q.
Proof. intros Hr HQ. destruct o; [by apply runs_ret; [|apply HQ]|by apply runs_throws]. Qed.

Lemma runs_outcome {A} n p (x : result A) s Q : ready p s ->
  match x with Just a => Q a s | Nothing => True | _ => False end -> runs n p (outcome x) s Q.
Proof. intros [? ?]. unfold runs, outcome. by destruct x. Qed.

(** A test of the state that does not change it. *)
Lemma runs_read {A} n p (f : rstate D -> A) s (Q : A -> rstate D -> Prop) : ready p s -> Q (f s) s -> runs n p (fun s => (Just (f s), s)) s Q.
Proof. by intros [? ?]. Qed.

(** ** Reading from the data *)

Definition same_heap (s s' : rstate D) : Prop := r_heap_ s' = r_heap_ s.

Lemma runs_lift {A} n p (f : bytes -> option (A * bytes)) s (P : A -> bytes -> Prop) : ready p s ->
  (forall a b, f (position_ s) = Some (a, b) -> b `suffix_of` position_ s /\ P a b) ->
  runs n p (lift f) s (fun a s' => same_heap s s' /\ P a (position_ s')).
Proof.
  intros [Hok Hp] Hf. unfold runs, lift. destruct (f (position_ s)) as [[a b]|] eqn:E; [|done].
  destruct (Hf a b eq_refl) as [Hb HP]. split_all; [by apply (state_ok_eq s)|done|cbn; by etrans|done|done].
Qed.

Lemma ready_bytes p s : ready p s -> bytes_ok (position_ s).
Proof. by intros [[] _]. Qed.

Lemma runs_lift_consumed {A} n p (f : bytes -> option (A * bytes)) s (P : A -> Prop) : ready p s ->
  (forall a b, f (position_ s) = Some (a, b) -> P a /\ consumed (position_ s) b) ->
  runs n p (lift f) s (fun a s' => same_heap s s' /\ consumed (position_ s) (position_ s') /\ P a).
Proof.
  intros Hr Hf. apply (runs_lift n p f s (fun a b => consumed (position_ s) b /\ P a)); [done|].
  intros a b Hb. destruct (Hf a b Hb) as [? [? ?]]. done.
Qed.

Lemma runs_GetTag n p s : ready p s ->
  runs n p GetTag s (fun tag s' => same_heap s s' /\ consumed (position_ s) (position_ s') /\ (tag :: position_ s') `suffix_of` position_ s).
Proof.
  intros Hr. apply (runs_lift n p _ s (fun tag b => consumed (position_ s) b /\ (tag :: b) `suffix_of` position_ s)); [done|].
  intros tag b Hb. pose proof (ReadTag_consumed _ _ _ Hb) as Hc. split; [apply Hc|]. split; [done|].
  clear -Hb. induction (position_ s) as [|byte b0 IH]; cbn in Hb; [done|]. case_match; [apply suffix_cons_r; auto|by simplify_eq].
Qed.

Lemma runs_GetVarint n p w s : ready p s -> w ∈ widths ->
  runs n p (GetVarint w) s (fun v s' => same_heap s s' /\ consumed (position_ s) (position_ s') /\ 0 <= v < 2 ^ w).
Proof.
  intros Hr Hw. apply runs_lift_consumed; [done|]. intros v b. apply ReadVarint_range; [done|by eapply ready_bytes].
Qed.

Lemma runs_GetDouble n p s : ready p s ->
  runs n p GetDouble s (fun d s' => same_heap s s' /\ consumed (position_ s) (position_ s') /\ 0 <= d < 2 ^ 64 /\ canonical_double d = d).
Proof.
  intros Hr. apply runs_lift_consumed; [done|]. intros d b Hd.
  destruct (ReadDouble_range _ _ _ (ready_bytes _ _ Hr) Hd) as (? & ? & ?). done.
Qed.

Lemma runs_GetRawBytes n p size s : ready p s -> 0 <= size ->
  runs n p (GetRawBytes size) s (fun raw s' => same_heap s s' /\ bytes_ok raw /\ short raw /\ Z.of_nat (length raw) = size).
Proof.
  intros Hr Hs. apply (runs_lift n p _ s (fun raw _ => bytes_ok raw /\ short raw /\ Z.of_nat (length raw) = size)); [done|].
  intros raw b [Heq Hl]%ReadRawBytes_inv; [|done]. destruct Hr as [[] _]. unfold bytes_ok, short in *. rewrite Heq in *.
  rewrite length_app in *. split; [by exists raw|]. rewrite Forall_app in *. split; [tauto|]. split; [lia|done].
Qed.

Lemma runs_get_position n p s : ready p s -> runs n p get_position s (fun b s' => b = position_ s /\ s' = s).
Proof. intros Hr. unfold get_position. by apply (runs_read n p position_). Qed.

Lemma runs_Peek n p s : ready p s -> runs n p Peek s (fun tag s' => PeekTag (position_ s) = Some tag /\ s' = s).
Proof. intros [? ?]. unfold runs, Peek. by destruct (PeekTag (position_ s)). Qed.

Lemma runs_ConsumeTag n p s : ready p s ->
  runs n p ConsumeTag s (fun _ s' => same_heap s s' /\ consumed (position_ s) (position_ s')).
Proof.
  intros Hr. eapply runs_bind; [by apply runs_GetTag|]. intros tag s1 Hr1 _ (? & ? & _). by apply runs_ret.
Qed.

(** ** Identifiers and the heap *)

Lemma runs_new_id n p s : ready p s -> runs n p new_id s (fun _ s' => same_heap s s' /\ position_ s' = position_ s).
Proof. intros [Hok Hp]. unfold runs, new_id. split_all; [by apply (state_ok_eq s)|done|done|done|done]. Qed.

Lemma runs_AddObjectWithID n p id r s : ready p s -> (r < length (r_heap_ s))%nat ->
  runs n p (AddObjectWithID id r) s (fun _ s' => same_heap s s' /\ position_ s' = position_ s).
Proof.
  intros [[H1 H2 H3 H4 H5 H6] Hp] Hr. unfold runs, AddObjectWithID. split_all; try done. split; try done. cbn.
  intros id' r'. rewrite lookup_insert_Some. intros [[_ <-]|[_ ?]]; [done|by eapply H4].
Qed.

Lemma runs_GetObjectWithID n p id s : ready p s ->
  runs n p (GetObjectWithID id) s (fun r s' => s' = s /\ (r < length (r_heap_ s))%nat).
Proof. intros Hr. apply runs_failing; [done|]. intros r Hid. split; [done|]. destruct Hr as [[] _]. by eauto. Qed.

Lemma buffers_kept_app h o : buffers_kept h (h ++ [o]).
Proof. intros r o' b Hr Ht. exists o'. split; [|done]. by apply lookup_app_l_Some. Qed.

Lemma runs_allocate n p o s : ready p s -> (n <= length (r_heap_ s))%nat -> made des (r_heap_ s) o \/ Foreign o -> bounded_buffer o ->
  runs n p (allocate o) s (fun r s' => r = length (r_heap_ s) /\ r_heap_ s' = r_heap_ s ++ [o] /\ position_ s' = position_ s).
Proof.
  intros [[H1 H2 H3 H4 H5 H6] Hp] Hn Ho Hb. unfold runs, allocate.
  assert (Hlen : (length (r_heap_ s) <= length (r_heap_ s ++ [o]))%nat) by (rewrite length_app; lia).
  split_all; [|by apply keeps_app|done|done|done|done]. split; cbn; try done.
  - intros r o' Hr Ho'. apply lookup_app_Some in Ho' as [Ho'|[? Ho']].
    + destruct (H1 r o' Hr Ho') as [Hm|]; [left|by right]. by eapply made_mono, Hm; [|apply buffers_kept_app].
    + apply list_lookup_singleton_Some in Ho' as [_ <-]. destruct Ho as [Hm|]; [left|by right].
      by eapply made_mono, Hm; [|apply buffers_kept_app].
  - eapply keeps_trans; [done|]. apply keeps_app. by destruct H2.
  - intros r o' Ho'. apply lookup_app_Some in Ho' as [Ho'|[? Ho']]; [by eapply H3|].
    by apply list_lookup_singleton_Some in Ho' as [_ <-].
  - intros id r Hid. apply H4 in Hid. lia.
Qed.

(** A new object [r] of content [o]. *)
Definition allocated_as (o : receiver) (s : rstate D) (r : ref) (s' : rstate D) : Prop :=
  r = length (r_heap_ s) /\ r_heap_ s' = r_heap_ s ++ [o] /\ position_ s' = position_ s.

Lemma allocated_as_lookup o s r s' : allocated_as o s r s' ->
  r_heap_ s' !! r = Some o /\ (r < length (r_heap_ s'))%nat /\ length (r_heap_ s') = S (length (r_heap_ s)).
Proof. intros (-> & -> & _). rewrite list_lookup_middle, length_app by done. simpl. split_all; [done|lia|lia]. Qed.

Lemma runs_allocate_with_id n p id o s : ready p s -> (n <= length (r_heap_ s))%nat -> made des (r_heap_ s) o \/ Foreign o -> bounded_buffer o ->
  runs n p (allocate_with_id id o) s (allocated_as o s).
Proof.
  intros Hr Hn Ho Hb. eapply runs_bind; [by apply runs_allocate|]. intros r s1 Hr1 _ (-> & Hh & Hp1).
  eapply runs_bind; [apply runs_AddObjectWithID; [done|rewrite Hh, length_app; simpl; lia]|]. intros _ s2 Hr2 _ (Hh2 & Hp2).
  apply runs_ret; [done|]. unfold allocated_as. by rewrite Hh2, Hp2.
Qed.

Definition is_buffer (o : receiver) : bool := bool_decide (is_Some (array_buffer_of o)).

Lemma runs_update n p r f s o : ready p s -> (n <= r)%nat -> (length H0 <= r)%nat -> r_heap_ s !! r = Some o -> is_buffer o = false ->
  made des (r_heap_ s) (f o) -> is_buffer (f o) = false ->
  runs n p (update r f) s (fun _ s' => r_heap_ s' = <[r := f o]> (r_heap_ s) /\ position_ s' = position_ s).
Proof.
  intros [[H1 H2 H3 H4 H5 H6] Hp] Hn H0r Ho Hbuf Hf Hbuf'. unfold runs, update. rewrite Ho.
  assert (Hkept : buffers_kept (r_heap_ s) (<[r := f o]> (r_heap_ s))).
  { intros r' o' b Hr' Ht. exists o'. split; [|done]. rewrite list_lookup_insert_ne; [done|]. intros ->. simplify_eq.
    unfold is_buffer, array_buffer_of in Hbuf. rewrite Ht in Hbuf. by apply bool_decide_eq_false in Hbuf as []. }
  split_all; [|by apply keeps_insert|done|done|done]. split; cbn; try done.
  - intros r' o' Hr' [(<- & <- & ?)|[? Ho']]%list_lookup_insert_Some.
    + left. by eapply made_mono, Hf; [rewrite length_insert|].
    + destruct (H1 r' o' Hr' Ho') as [Hm|]; [left|by right]. by eapply made_mono, Hm; [rewrite length_insert|].
  - eapply keeps_trans; [done|by apply keeps_insert].
  - intros r' o' [(<- & <- & ?)|[? Ho']]%list_lookup_insert_Some; [|by eapply H3]. intros b Hb.
    unfold is_buffer, array_buffer_of in Hbuf'. rewrite Hb in Hbuf'. by apply bool_decide_eq_false in Hbuf' as [].
  - intros id r' Hid. rewrite length_insert. by eapply H4.
Qed.

Lemma runs_object_at n p r o s : ready p s -> r_heap_ s !! r = Some o -> runs n p (object_at r) s (fun o' s' => o' = o /\ s' = s).
Proof. intros [? ?] Ho. unfold runs, object_at. by rewrite Ho. Qed.

(** ** Specifications of handlers *)

(** A handler gives a value of the heap and leaves the objects that were there. *)
Definition handles {A} (m : R D A) (P : nat -> A -> Prop) : Prop := forall s, state_ok s ->
  runs (length (r_heap_ s)) (position_ s) m s (fun a s' => P (length (r_heap_ s')) a).

Definition gives_ref (n : nat) (r : ref) : Prop := (r < n)%nat.

(** A reader of values takes one byte at least. *)
Definition reads_value (m : R D js_value) : Prop := forall s, state_ok s ->
  runs (length (r_heap_ s)) (position_ s) m s (fun v s' => read_value (length (r_heap_ s')) v /\ consumed (position_ s) (position_ s')).

Lemma runs_handler {A} n p (m : R D A) P s : handles m P -> ready p s -> (n <= length (r_heap_ s))%nat ->
  runs n p m s (fun a s' => keeps (length (r_heap_ s)) (r_heap_ s) (r_heap_ s') /\ P (length (r_heap_ s')) a).
Proof. intros Hm [Hok Hp] Hn. eapply runs_conseq; [by apply Hm|done|done|]. done. Qed.

Lemma runs_value n p m s : reads_value m -> ready p s -> (n <= length (r_heap_ s))%nat ->
  runs n p m s (fun v s' => keeps (length (r_heap_ s)) (r_heap_ s) (r_heap_ s') /\ read_value (length (r_heap_ s')) v /\
    consumed (position_ s) (position_ s')).
Proof. intros Hm [Hok Hp] Hn. eapply runs_conseq; [by apply Hm|done|done|]. done. Qed.

Lemma ready_self s : state_ok s -> ready (position_ s) s.
Proof. done. Qed.

(** ** Values without parts *)

Context (Env : environment).

Lemma handles_ReadBigInt : handles ReadBigInt (fun _ b => bigint_ok b).
Proof using Type.
  intros s Hok. pose proof (ready_self s Hok) as Hr. unfold ReadBigInt.
  eapply runs_bind; [apply runs_GetVarint; [done|auto with v8]|]. intros bitfield s1 Hr1 _ (_ & _ & Hbit).
  eapply runs_bind; [apply runs_GetRawBytes; [done|]|].
  { unfold DigitsByteLengthForBitfield. apply Z.shiftr_nonneg. lia. }
  intros digits s2 Hr2 _ (_ & Hd & Hs & Hlen). apply runs_outcome; [done|].
  pose proof (FromSerializedDigits_safe bitfield digits ltac:(lia) Hd Hs Hlen). by destruct (FromSerializedDigits _ _).
Qed.

Lemma handles_ReadUtf8String : handles (ReadUtf8String des) (fun _ s => read_string s).
Proof using Env.
  intros s Hok. pose proof (ready_self s Hok) as Hr. unfold ReadUtf8String.
  eapply runs_bind; [apply runs_GetVarint; [done|auto with v8]|]. intros n s1 Hr1 _ (_ & _ & Hn).
  eapply runs_bind; [apply runs_GetRawBytes; [done|lia]|]. intros raw s2 Hr2 _ _.
  apply runs_failing; [done|]. by apply (e_utf8 Env).
Qed.

Lemma handles_string f : (forall b s b', bytes_ok b -> f b = Some (s, b') -> read_string s /\ consumed b b') ->
  handles (lift f) (fun _ s => read_string s).
Proof using Type.
  intros Hf s Hok. pose proof (ready_self s Hok) as Hr.
  eapply runs_conseq; [apply (runs_lift_consumed _ _ _ _ read_string Hr)|done|done|].
  - intros a b Hb. eapply Hf; [by eapply ready_bytes|done].
  - simpl. tauto.
Qed.

(** A handler that makes an object of its own as its last step. *)
Lemma runs_result n p id o s : ready p s -> (n <= length (r_heap_ s))%nat -> made des (r_heap_ s) o \/ Foreign o -> bounded_buffer o ->
  runs n p (allocate_with_id id o) s (fun r s' => gives_ref (length (r_heap_ s')) r).
Proof using Type.
  intros Hr Hn Ho Hb. eapply runs_conseq; [by eapply runs_allocate_with_id|done|done|].
  intros r s' _ Ha. by apply allocated_as_lookup in Ha as (_ & ? & _).
Qed.

Lemma bounded_other o : is_buffer o = false -> bounded_buffer o.
Proof using Type.
  intros Ho b Hb. unfold is_buffer, array_buffer_of in Ho. rewrite Hb in Ho. by apply bool_decide_eq_false in Ho as [].
Qed.

(** An object without properties, from its fields. *)
Lemma made_plain h t : field_values (length h) t -> instance_ok des h (mkReceiver t [] []) -> made des h (mkReceiver t [] []).
Proof using Type. intros. split; [by split; constructor|done]. Qed.

Lemma TimeClip_time time : exists n, TimeClip time = quiet_NaN \/ (TimeClip time = int_double n /\ Z.abs n <= kMaxTimeInMs).
Proof using Type.
  unfold TimeClip. destruct (_ && _) eqn:E; [|exists 0; by left]. exists (trunc time). right. split; [done|].
  apply andb_prop in E as [[_ Hg]%andb_prop Hl]. pose proof (trunc_bounds time (- kMaxTimeInMs) kMaxTimeInMs ltac:(done) Hl Hg). lia.
Qed.

Lemma TimeClip_ok time : 0 <= TimeClip time < 2 ^ 64 /\ TimeClip (canonical_double (TimeClip time)) = TimeClip time.
Proof using Type.
  destruct (TimeClip_time time) as [n [->|[-> Hn]]]; [by vm_compute|]. unfold kMaxTimeInMs in Hn.
  assert (Hs : Z.abs n < 2 ^ 53) by lia. split; [by apply int_double_bounds|]. rewrite canonical_int_double by done.
  unfold TimeClip. rewrite isnan_int_double, trunc_int_double by done. unfold ge_int, le_int, kMaxTimeInMs.
  rewrite scaled_int_double by done. pose proof unit_pos. cbn [negb andb].
  replace (_ <=? n * unit) with true by nia. by replace (n * unit <=? _) with true by nia.
Qed.

Lemma handles_ReadJSDate : handles ReadJSDate gives_ref.
Proof using Type.
  intros s Hok. pose proof (ready_self s Hok) as Hr. unfold ReadJSDate.
  eapply runs_bind; [by apply runs_GetDouble|]. intros time s1 Hr1 [Hl1 _] _.
  eapply runs_bind; [by apply runs_new_id|]. intros id s2 Hr2 [Hl2 _] _.
  apply runs_result; [done|lia| |by apply bounded_other]. left. apply made_plain; [done|]. apply TimeClip_ok.
Qed.

Lemma handles_ReadTransferredJSArrayBuffer : handles (ReadTransferredJSArrayBuffer des) gives_ref.
Proof using Env.
  intros s Hok. pose proof (ready_self s Hok) as Hr. unfold ReadTransferredJSArrayBuffer.
  eapply runs_bind; [by apply runs_new_id|]. intros id s1 Hr1 Hk1 _.
  eapply runs_bind; [apply runs_GetVarint; [done|auto with v8]|]. intros transfer_id s2 Hr2 _ _.
  eapply runs_bind; [eapply (runs_failing _ _ _ _ (fun m s => r_array_buffer_transfer_map_ des = Some m)); [done|]|].
  { intros m Hm. done. }
  intros m s3 Hr3 _ Hm. cbv beta in Hm.
  eapply runs_bind; [eapply (runs_failing _ _ _ _ (fun r _ => (r < length H0)%nat)); [done|]|].
  { intros r Hid. by apply (e_transfer Env m transfer_id). }
  intros r s4 Hr4 _ Hr0. assert ((r < length (r_heap_ s4))%nat).
  { destruct Hr4 as [[_ [? _] _ _ _ _] _]. cbv beta in Hr0. lia. }
  eapply runs_bind; [by apply runs_AddObjectWithID|]. intros _ s5 Hr5 _ [Hh _]. apply runs_ret; [done|].
  unfold gives_ref. by rewrite Hh.
Qed.

Lemma handles_ReadJSArrayBuffer shared resizable immutable : (resizable = true -> immutable = false) ->
  handles (ReadJSArrayBuffer des shared resizable immutable) gives_ref.
Proof using Env.
  intros Hri s Hok. pose proof (ready_self s Hok) as Hr. unfold ReadJSArrayBuffer.
  eapply runs_bind; [by apply runs_new_id|]. intros id s1 Hr1 [Hk1 _] [Hh1 _]. destruct shared.
  - eapply runs_bind; [apply runs_GetVarint; [done|auto with v8]|]. intros clone_id s2 Hr2 [Hk2 _] _.
    eapply runs_bind; [eapply (runs_failing _ _ _ _ (fun d s => s = s2 /\ d_delegate_ des = Some d)); [done|]|].
    { intros d Hd. done. }
    intros d s3 _ _ (-> & Hd).
    eapply (runs_bind _ _ _ _ _ _ (fun b s => same_heap s2 s /\ Foreign (mkReceiver (JSArrayBuffer b) [] []) /\ buffer_length b <= kMaxByteLength)).
    { pose proof (e_shared Env d clone_id (r_delegate_state s2) Hd) as He. unfold runs.
      destruct (delegate_GetSharedArrayBufferFromId d clone_id (r_delegate_state s2)) as [[b e] ds]. simpl in He.
      destruct Hr2 as [Hok2 Hp2]. destruct b; try done; (split; [by apply (state_ok_eq s2)|done]). }
    intros b s4 Hr4 [Hk4 _] (Hh & HF & Hb). apply runs_result; [done|lia|by right|]. intros b' [= <-]. done.
  - eapply runs_bind; [apply runs_GetVarint; [done|auto with v8]|]. intros byte_length s2 Hr2 [Hk2 _] (_ & _ & Hbl).
    eapply (runs_bind _ _ _ _ _ _ (fun max _ => 0 <= max < 2 ^ 64 /\ (resizable = false -> max = byte_length))).
    { destruct resizable; [|by apply runs_ret]. eapply runs_conseq; [apply runs_GetVarint; [done|auto with v8]|done|done|]. intros ? ? _ (_ & _ & ?). by split. }
    intros max s3 Hr3 [Hk3 _] [Hmax Hnr]. destruct (Z.gtb_spec byte_length max); [by apply runs_throws|].
    eapply runs_bind; [by apply runs_get_position|]. intros b s4 _ _ [-> ->].
    destruct (Z.gtb_spec byte_length (Z.of_nat (length (position_ s3)))) as [|Hlen]; [by apply runs_throws|].
    destruct (AllocateBackingStore des byte_length max resizable) eqn:Ha; [|by apply runs_throws]. cbn [negb].
    eapply runs_bind; [apply runs_GetRawBytes; [done|lia]|]. intros data s5 Hr5 [Hk5 _] (_ & Hd & Hs & Hdl). unfold short in Hs.
    apply runs_result; [done|lia| |].
    + left. apply made_plain; [done|]. unfold instance_ok, buffer_ok, buffer_length. cbn. rewrite Hdl. split_all; try done; try lia; auto.
    + intros b [= <-]. unfold buffer_length, kMaxByteLength, kMaxSafeInteger. cbn. lia.
Qed.

(** The flags that are valid are those that the buffer decides, so the view has them. *)
Lemma ValidateJSArrayBufferViewFlags_rab b flags tracking rab : ValidateJSArrayBufferViewFlags b flags = Some (tracking, rab) ->
  rab = is_resizable_by_js b && negb (is_shared b) /\ (tracking = true -> is_resizable_by_js b = true).
Proof using Type.
  unfold ValidateJSArrayBufferViewFlags.
  destruct (Z.testbit flags 0), (Z.testbit flags 1), (is_resizable_by_js b), (is_shared b); cbn; intros; by simplify_eq.
Qed.

Lemma NewJSArrayBufferView_safe t r b offset len tracking :
  0 <= offset -> 0 <= len -> offset + len <= buffer_length b -> buffer_length b <= kMaxByteLength ->
  (t <> kDataView -> offset mod element_size t = 0 /\ len mod element_size t = 0) -> (tracking = true -> is_resizable_by_js b = true) ->
  exists v, NewJSArrayBufferView t r b offset len tracking = Just v /\ view_ok b v /\ view_tag v = t /\ view_buffer v = r /\
    is_length_tracking v = tracking /\ is_backed_by_rab v = is_resizable_by_js b && negb (is_shared b).
Proof using Type.
  intros Ho Hl Hb Hmax Hmod Ht. set (len' := if tracking then 0 else len).
  assert (Hlen' : 0 <= len' <= len) by (unfold len'; destruct tracking; lia).
  assert (He : 0 < element_size t) by (by destruct t).
  assert (Hal : offset mod element_size t = 0 /\ len' mod element_size t = 0).
  { unfold len'. destruct (decide (t = kDataView)) as [->|Hd].
    - cbn [element_size]. by rewrite !Z.mod_1_r.
    - destruct (Hmod Hd). destruct tracking; [|done]. by rewrite Z.mod_0_l by lia. }
  unfold NewJSArrayBufferView. fold len'. destruct Hal as [Ho' Hl']. rewrite Ho'.
  pose proof (Z.div_le_mono len' kMaxByteLength (element_size t) He ltac:(lia)).
  destruct (Z.gtb_spec (len' / element_size t) (kMaxByteLength / element_size t)); [lia|]. rewrite andb_false_r.
  destruct (Z.gtb_spec len' (buffer_length b)); [lia|]. destruct (Z.gtb_spec offset (buffer_length b)); [lia|].
  destruct (Z.gtb_spec (offset + len') (buffer_length b)); [lia|]. cbn [orb]. rewrite andb_false_r.
  eexists. split; [reflexivity|]. unfold view_ok. cbn. split_all; try done; try lia.
  intros Htr. split; [by unfold len'; rewrite Htr|by apply Ht].
Qed.

Lemma handles_ReadJSArrayBufferView s buffer ob b : state_ok s -> r_heap_ s !! buffer = Some ob -> instance_type ob = JSArrayBuffer b ->
  runs (length (r_heap_ s)) (position_ s) (ReadJSArrayBufferView des buffer) s (fun r s' => gives_ref (length (r_heap_ s')) r).
Proof using Env.
  intros Hok Hob Hb. pose proof (ready_self s Hok) as Hr. assert (Hmax : buffer_length b <= kMaxByteLength).
  { destruct Hok as [_ _ Hbuf _ _ _]. by eapply Hbuf. }
  unfold ReadJSArrayBufferView. eapply runs_bind; [by apply runs_object_at|]. intros o s0 _ _ [-> ->].
  unfold array_buffer_of. rewrite Hb.
  eapply runs_bind; [apply runs_GetVarint; [done|unfold widths; set_solver]|]. intros tag s1 Hr1 _ (Hh1 & _).
  eapply runs_bind; [apply runs_GetVarint; [done|auto with v8]|]. intros offset s2 Hr2 _ (Hh2 & _ & Hoff).
  eapply runs_bind; [apply runs_GetVarint; [done|auto with v8]|]. intros len s3 Hr3 _ (Hh3 & _ & Hlen).
  destruct (Z.gtb_spec offset (buffer_length b)); [by apply runs_throws|].
  destruct (Z.gtb_spec len (buffer_length b - offset)); [by apply runs_throws|]. cbn [orb].
  eapply (runs_bind _ _ _ _ _ _ (fun _ s4 => same_heap s3 s4)).
  { case_match; [|by apply runs_ret]. eapply runs_conseq; [apply runs_GetVarint; [done|auto with v8]|done|done|]. simpl. tauto. }
  intros flags s4 Hr4 _ Hh4. eapply runs_bind; [by apply runs_new_id|]. intros id s5 Hr5 _ [Hh5 _].
  destruct (view_tag_of tag) as [t|]; [|by apply runs_throws].
  destruct (bool_decide (t = kFloat16Array) && negb (js_float16array des)) eqn:Hf16; [by apply runs_throws|].
  destruct (negb (bool_decide (t = kDataView)) && _) eqn:Hmod; [by apply runs_throws|].
  eapply runs_bind; [apply (runs_failing _ _ _ _ (fun f s => s = s5 /\ ValidateJSArrayBufferViewFlags b flags = Some f)); [done|]|].
  { intros f Hf. done. }
  intros [tracking rab] s6 _ _ [-> Hf]. apply ValidateJSArrayBufferViewFlags_rab in Hf as [-> Htr].
  destruct (NewJSArrayBufferView_safe t buffer b offset len tracking) as (v & Hnew & Hv & Ht & Hvb & Htrack & Hrab);
    [lia|lia|lia|done| |done|].
  { intros Hd. rewrite bool_decide_eq_false_2 in Hmod by done. cbn in Hmod. apply orb_false_elim in Hmod as [Hm1 Hm2].
    apply negb_false_iff, Z.eqb_eq in Hm1, Hm2. done. }
  rewrite Hnew. eapply runs_bind; [apply (runs_outcome _ _ _ _ (fun v' s => s = s5 /\ v' = v)); [done|done]|].
  intros v' s6 _ _ [-> ->]. rewrite Hrab, Htrack, !Bool.eqb_reflx. cbn [negb orb].
  assert (Hh : r_heap_ s5 = r_heap_ s) by (unfold same_heap in *; congruence).
  apply runs_result; [done|by rewrite Hh| |by apply bounded_other]. left. apply made_plain; rewrite Hh.
  - cbn. rewrite Hvb. by eapply lookup_lt_Some.
  - unfold instance_ok. cbn [instance_type]. exists ob, b. rewrite Hvb. split_all; try done; try apply Hv.
    rewrite Ht. intros ->. cbn in Hf16. by apply negb_false_iff in Hf16.
Qed.

Lemma runs_ReadHostObject n p s : ready p s -> (n <= length (r_heap_ s))%nat ->
  runs n p (ReadHostObject des) s (fun r s' => gives_ref (length (r_heap_ s')) r /\ consumed (position_ s) (position_ s')).
Proof using Env.
  intros Hr Hn. unfold ReadHostObject.
  eapply runs_bind; [eapply (runs_failing _ _ _ _ (fun d s' => s' = s /\ d_delegate_ des = Some d)); [done|]|].
  { intros d Hd. done. }
  intros d s1 _ _ [-> Hd]. eapply runs_bind; [by apply runs_new_id|]. intros id s2 Hr2 [Hk2 _] [Hh2 Hp2].
  eapply (runs_bind _ _ _ _ _ _ (fun o s3 => same_heap s2 s3 /\ consumed (position_ s2) (position_ s3) /\ Foreign o /\ bounded_buffer o)).
  { pose proof (e_host Env d (position_ s2) (r_delegate_state s2) Hd (ready_bytes _ _ Hr2)) as He. unfold runs.
    destruct (delegate_ReadHostObject d (position_ s2) (r_delegate_state s2)) as [[o e] ds]. simpl in He. destruct Hr2 as [Hok2 Hp2'].
    destruct o as [[o b']| | |]; try done.
    - destruct He as (Hc & HF & Hbb). split_all; [by apply (state_ok_eq s2); [..|apply Hc|]|done|cbn; etrans; [apply Hc|done]|done|done|done|done].
    - split; [by apply (state_ok_eq s2)|done]. }
  intros o s3 Hr3 [Hk3 _] (Hh3 & Hc & HF & Hbb).
  eapply (runs_conseq n n p p); [apply runs_allocate_with_id; [done|lia|by right|done]|done|done|].
  intros r s4 _ Ha. destruct (allocated_as_lookup _ _ _ _ Ha) as (_ & ? & _). destruct Ha as (_ & _ & ->). by rewrite Hp2 in Hc.
Qed.

(** Without a conveyor shared objects are refused. *)
Lemma handles_ReadSharedObject : handles (ReadSharedObject des) gives_ref.
Proof using Env.
  intros s Hok. pose proof (ready_self s Hok) as Hr. unfold ReadSharedObject.
  eapply runs_bind; [apply runs_GetVarint; [done|auto with v8]|]. intros id s1 Hr1 _ _.
  destruct (d_delegate_ des) as [d|] eqn:Hd; [|by apply runs_throw]. rewrite (e_conveyor Env d Hd). by apply runs_throw.
Qed.

(** ** Properties *)

Context (ReadObject : R D js_value) (Hrec : reads_value ReadObject).

Lemma handles_ReadString : handles (ReadString des ReadObject) (fun _ s => read_string s).
Proof using Env Hrec.
  intros s Hok. unfold ReadString. case_match; [by apply handles_ReadUtf8String|].
  eapply runs_bind; [by apply Hrec|]. intros v s1 Hr1 _ [Hv _]. apply runs_failing; [done|].
  intros str Hs. destruct v as [[]| | |]; try done. simplify_eq/=. by apply (read_value_string (length (r_heap_ s1))).
Qed.

Lemma key_of_value_ok n v k : read_value n v -> key_of_value des v = Some k -> key_ok k.
Proof using Env.
  destruct v as [p| | |]; cbn -[IsValidObjectKey]; try done. intros [Hp _]. destruct (IsValidObjectKey (Prim p)) eqn:Hk; [|done].
  intros [= <-]. unfold PropertyKey. destruct p as [| | | |z|d|str] eqn:E; try done; [| |by apply name_key_ok].
  all: destruct (ToIntegerIndex _) as [i|] eqn:Hi; [|by apply name_key_ok, (e_number Env)].
  all: pose proof (ToIntegerIndex_nonneg _ _ Hi); destruct (Z.leb_spec i kMaxElementIndex); [done|].
  all: pose proof (e_index Env _ _ Hp Hi) as Hs; split; [by apply (e_number Env)|]; unfold is_name, name_key; rewrite Hs.
  all: by destruct (Z.leb_spec i kMaxElementIndex); [lia|].
Qed.

(** The receiver that is read: [r] is a container of the new part of the heap. *)
Definition filling (r : ref) (s : rstate D) : Prop :=
  (length H0 <= r)%nat /\ exists o, r_heap_ s !! r = Some o /\ container o /\ own_values (length (r_heap_ s)) o.

Lemma filling_keeps n r s s' : (r < n)%nat -> keeps n (r_heap_ s) (r_heap_ s') -> filling r s -> filling r s'.
Proof using Type.
  intros Hr Hk [H0r (o & Ho & Hc & Hv)]. split; [done|]. exists o. split; [by eapply keeps_lookup|]. split; [done|].
  eapply own_values_mono; [apply Hk|done].
Qed.

Lemma filling_lt r s : filling r s -> (r < length (r_heap_ s))%nat.
Proof using Type. intros [_ (o & Ho & _)]. by eapply lookup_lt_Some. Qed.

Lemma container_no_buffer o : container o -> is_buffer o = false.
Proof using Type. intros (_ & _ & Ht). unfold is_buffer, array_buffer_of. by destruct (instance_type o). Qed.

(** An update that keeps a container. *)
Lemma runs_fill n p r f s : ready p s -> (n <= r)%nat -> filling r s ->
  (forall o, r_heap_ s !! r = Some o -> container o -> own_values (length (r_heap_ s)) o -> container (f o) /\ own_values (length (r_heap_ s)) (f o)) ->
  runs n p (update r f) s (fun _ s' => filling r s' /\ position_ s' = position_ s /\ r_heap_ s' !! r = f <$> (r_heap_ s !! r)).
Proof using Type.
  intros Hr Hn [H0r (o & Ho & Hc & Hv)] Hf. destruct (Hf o Ho Hc Hv) as [Hc' Hv'].
  eapply (runs_conseq n n p p); [apply (runs_update n p r f s o); [done|done|done|done|by apply container_no_buffer|by apply container_made|by apply container_no_buffer]|done|done|].
  intros _ s' _ [Hh Hp]. assert (Hlook : r_heap_ s' !! r = Some (f o)).
  { rewrite Hh. apply list_lookup_insert_eq. by eapply lookup_lt_Some. }
  split; [|by rewrite Hlook, Ho]. split; [done|]. exists (f o). rewrite Hh at 2. by rewrite length_insert.
Qed.

Lemma runs_define_property n p r k v s : ready p s -> (n <= r)%nat -> filling r s -> key_ok k -> read_value (length (r_heap_ s)) v ->
  runs n p (define_property r k v) s (fun _ s' => filling r s' /\ position_ s' = position_ s).
Proof using Type.
  intros Hr Hn Hfill Hk Hv. pose proof Hfill as [_ (o & Ho & _)]. unfold define_property.
  eapply runs_bind; [by apply runs_object_at|]. intros o' s' _ _ [-> ->].
  destruct (own_lookup o k) eqn:Hl; [by apply runs_throws|].
  eapply (runs_conseq n n p p); [apply runs_fill; [done|done|done|]|done|done|].
  - intros o' Ho' Hc Hvs. simplify_eq. split; [by eapply define_own_container|by apply define_own_values].
  - by intros _ s1 _ (? & ? & _).
Qed.
End reader.
