(* ===== verification/ReaderParts.v ===== *)
(** The deserializer on arbitrary bytes: the handlers of objects with parts.

    Each loop of ObjectReader.v runs on the object that it fills, which no nested read can
    change, and each handler then gives a well-formed object. *)
From S2P Require Import Prelude Conversions Engine WireFormat Serializer JSHeap ObjectWriter ObjectReader.
From S2P Require Import ObjectGraphs ObjectTypes ReaderSafety.

Section parts.
Context {D : Type} (des : deserializer D) (H0 : js_heap) (Foreign : receiver -> Prop) (Env : environment des H0 Foreign).
Context (ReadObject : R D js_value) (Hrec : reads_value des H0 Foreign ReadObject).

Abbreviation runs := (runs des H0 Foreign).
Abbreviation ready := (ready des H0 Foreign).
Abbreviation handles := (handles des H0 Foreign).
Abbreviation state_ok := (state_ok des H0 Foreign).
Abbreviation filling := (filling H0).

(** *** Properties one by one *)

Lemma runs_properties_slow fuel n p r end_tag num s : ready p s -> (n <= r)%nat -> filling r s ->
  runs n p (read_properties_slow des ReadObject fuel r end_tag num) s (fun _ s' => filling r s').
Proof using Env Hrec.
  revert num s. induction fuel as [|fuel IH]; intros num s Hr Hn Hf; cbn [read_properties_slow]; [by apply runs_throws|].
  pose proof (filling_lt _ _ _ Hf) as Hlt.
  eapply runs_bind; [by apply runs_Peek|]. intros tag s0 _ _ [_ ->]. case_match.
  - eapply runs_bind; [by apply runs_ConsumeTag|]. intros _ s1 Hr1 Hk1 [Hh1 _]. apply runs_ret; [done|].
    unfold ReaderSafety.filling. by rewrite Hh1.
  - eapply runs_bind; [apply runs_value; [done|done|lia]|]. intros key s1 Hr1 _ (Hk1 & Hkey & _).
    apply (filling_keeps H0 _ r s s1 Hlt Hk1) in Hf. clear Hlt. pose proof (filling_lt _ _ _ Hf) as Hlt.
    eapply runs_bind; [apply (runs_failing _ _ _ _ _ _ _ (fun k s' => s' = s1 /\ key_ok k)); [done|]|].
    { intros k Hk. split; [done|]. by eapply key_of_value_ok. }
    intros k s2 _ _ [-> Hk].
    eapply runs_bind; [apply runs_value; [done|done|lia]|]. intros v s2 Hr2 _ (Hk2 & Hv & _).
    apply (filling_keeps H0 _ r s1 s2 Hlt Hk2) in Hf.
    eapply runs_bind; [by apply runs_define_property|]. intros _ s3 Hr3 _ [Hf3 _]. by apply IH.
Qed.

(** *** Properties along the transitions *)

(** The keys gathered are new names and each has its value. *)
Definition gathered (n : nat) (keys : list flat_string) (values : list js_value) : Prop :=
  length keys = length values /\ Forall (fun k => string_ok k /\ is_name k) keys /\ NoDup (chars_of <$> keys) /\
  Forall (read_value n) values.

Lemma gathered_mono n m keys values : (n <= m)%nat -> gathered n keys values -> gathered m keys values.
Proof. intros Hn (? & ? & ? & Hv). unfold gathered. split_all; try done. eapply Forall_impl; [exact Hv|]. intros. by eapply read_value_mono. Qed.

Lemma gathered_snoc n keys values key v : gathered n keys values -> fresh_name keys key -> read_value n v ->
  gathered n (keys ++ [key]) (values ++ [v]).
Proof.
  intros (Hl & Hk & Hd & Hv) (H1 & H2 & H3) Hval. unfold gathered. split_all.
  - rewrite !length_app. simpl. lia.
  - apply Forall_app. split; [done|by apply Forall_singleton].
  - rewrite fmap_app. apply NoDup_app. split_all; [done| |by apply NoDup_singleton]. intros c Hc ->%list_elem_of_singleton. done.
  - apply Forall_app. split; [done|by apply Forall_singleton].
Qed.

(** The object has no property yet. *)
Definition blank (r : ref) (s : rstate D) : Prop := (length H0 <= r)%nat /\ r_heap_ s !! r = Some NewJSObject.

Lemma blank_filling r s : blank r s -> filling r s.
Proof. intros [? Ho]. split; [done|]. exists NewJSObject. split; [done|]. split; [|by split; constructor]. split; [by split; constructor|]. split; [|done]. split; [apply NoDup_nil_2|constructor]. Qed.

Lemma blank_keeps n r s s' : (r < n)%nat -> keeps n (r_heap_ s) (r_heap_ s') -> blank r s -> blank r s'.
Proof. intros Hr Hk [? Ho]. split; [done|by eapply keeps_lookup]. Qed.

Definition committed (keys : list flat_string) (values : list js_value) : list (flat_string * own_property) :=
  zip_with (fun k v => (k, mkProperty true (Data v))) keys values.

Lemma committed_ok n keys values : gathered n keys values ->
  named_ok (committed keys values) /\ Forall (fun e => own_value n e.2) (committed keys values).
Proof.
  intros (Hl & Hk & Hd & Hv). assert (Hfst : (chars_of ∘ fst <$> committed keys values) = (chars_of <$> keys)).
  { clear -Hl. revert values Hl. induction keys as [|k keys IH]; intros [|v values] Hl; try done. cbn.
    f_equal. apply IH. by simplify_eq/=. }
  split; [split; [by rewrite Hfst|]|].
  - clear Hfst Hd Hl. revert values Hv. induction Hk as [|k keys [? ?] _ IH]; intros [|v values] Hv; cbn; try by constructor.
    inversion Hv; subst. constructor; [|by apply IH]. simpl. split_all; [done|done|]. exists v. split; [done|by eapply read_value_ok].
  - clear Hfst Hd Hl Hk. revert keys. induction Hv as [|v values ? _ IH]; intros [|k keys]; cbn; by constructor.
Qed.

Lemma runs_CommitProperties n p r keys values s : ready p s -> (n <= r)%nat -> blank r s -> gathered (length (r_heap_ s)) keys values ->
  runs n p (CommitProperties r keys values) s (fun _ s' => filling r s').
Proof using Type.
  intros Hr Hn Hb Hg. destruct (committed_ok _ _ _ Hg) as [Hnm Hval].
  eapply (runs_conseq _ _ _ n n p p); [apply runs_fill; [done|done|by apply blank_filling|]|done|done|by intros _ s' _ (? & _)].
  intros o Ho _ _. destruct Hb as [_ Hb]. simplify_eq. cbn. split; [|split; [constructor|done]].
  split; [by split; constructor|done].
Qed.

(** A key that was read: a transition for it leads to a field that is new. *)
Definition key_read (keys : list flat_string) (kt : js_value * bool) : Prop :=
  (kt.2 = true -> exists key, string_of kt.1 = Some key /\ fresh_name keys key) /\
  (forall k, key_of_value des kt.1 = Some k -> key_ok k).

Lemma expected_key_fresh keys tag byte_length s key b : 0 <= byte_length -> expected_key des keys tag byte_length s = Some (key, b) ->
  fresh_name keys key /\ b `suffix_of` position_ s.
Proof using Env.
  intros Hb. unfold expected_key.
  set (ex := fun (k : flat_string) (c : bytes) => if ExpectedTransition des s keys k then Some (k, c) else None).
  assert (Hex : forall k c, ex k c = Some (key, b) -> c `suffix_of` position_ s -> fresh_name keys key /\ b `suffix_of` position_ s).
  { intros k c. unfold ex. destruct (ExpectedTransition des s keys k) eqn:E; [|done]. intros [= <- <-] Hc. split; [by eapply (e_expected _ _ _ Env)|done]. }
  repeat case_match; try done.
  - destruct (ReadRawBytes _ _) as [[raw c]|] eqn:Hr; cbn; [|done]. intros Hx. apply (Hex _ _ Hx).
    apply ReadRawBytes_inv in Hr as [-> _]; [by exists raw|done].
  - unfold ReadRawTwoBytes. case_match; [done|]. case_match; [done|]. cbn. intros Hx. apply (Hex _ _ Hx), suffix_drop.
  - destruct (ReadRawBytes _ _) as [[raw c]|] eqn:Hr; cbn; [|done]. destruct (is_ascii raw); [|done]. intros Hx. apply (Hex _ _ Hx).
    apply ReadRawBytes_inv in Hr as [-> _]; [by exists raw|done].
Qed.

Lemma runs_read_key n p keys s : ready p s -> (n <= length (r_heap_ s))%nat ->
  runs n p (read_key des ReadObject keys) s (fun kt s' => keeps (length (r_heap_ s)) (r_heap_ s) (r_heap_ s') /\ key_read keys kt).
Proof using Env Hrec.
  intros Hr Hn. unfold read_key. eapply runs_bind; [by apply runs_value|]. intros key s1 Hr1 Hk1 (Hk & Hv & _).
  destruct (IsValidObjectKey key); [|by apply runs_throws]. cbn [negb].
  apply (runs_read _ _ _ _ _ (fun s => (key, from_option (FindTransitionToField des s keys) false (string_of key)))); [done|].
  split; [done|]. split; [|intros k; by eapply key_of_value_ok]. intros Ht. simpl in *.
  destruct (string_of key) as [k|] eqn:Hs; [|done]. exists k. split; [done|]. by eapply (e_field _ _ _ Env).
Qed.

Lemma set_position_ready p b s : ready p s -> b `suffix_of` position_ s ->
  ready p (mkR b (r_next_id_ s) (r_id_map_ s) (r_heap_ s) (has_exception s) (r_delegate_state s)).
Proof using Type. intros [Hok Hp] Hb. split; [by apply (state_ok_eq des H0 Foreign s)|simpl; by etrans]. Qed.

Lemma runs_read_transition_key n p keys s : ready p s -> (n <= length (r_heap_ s))%nat ->
  runs n p (read_transition_key des ReadObject keys) s
    (fun kt s' => keeps (length (r_heap_ s)) (r_heap_ s) (r_heap_ s') /\ key_read keys kt).
Proof using Env Hrec.
  intros Hr Hn. unfold read_transition_key. eapply runs_bind; [by apply runs_get_position|]. intros b s0 _ _ [-> ->].
  unfold ReaderSafety.runs, GetTag, GetVarint, lift, mbind, stateful_bind.
  destruct (ReadTag (position_ s)) as [[tag b1]|] eqn:Ht; [|by destruct Hr].
  apply ReadTag_consumed in Ht. pose proof (set_position_ready p b1 s Hr (proj1 Ht)) as Hr1. cbn [position_ r_next_id_ r_id_map_ r_heap_ has_exception r_delegate_state].
  destruct (ReadVarint 32 b1) as [[len b2]|] eqn:Hv; [|by destruct Hr1].
  apply ReadVarint_range in Hv as [Hlen Hc2]; [|auto with v8|exact (ready_bytes _ _ _ _ _ Hr1)].
  pose proof (set_position_ready p b2 _ Hr1 (proj1 Hc2)) as Hr2. cbn [position_ r_next_id_ r_id_map_ r_heap_ has_exception r_delegate_state] in *.
  destruct (expected_key _ _ _ _ _) as [[key b3]|] eqn:He.
  - apply expected_key_fresh in He as [Hf Hb3]; [|lia]. cbn in Hb3. pose proof (set_position_ready p b3 _ Hr2 Hb3) as [? ?].
    cbn. split_all; [done|done|done|done|]. split; [intros _; by exists key|]. intros k [= <-]. by apply name_key_ok, Hf.
  - unfold set_position. cbn [position_ r_next_id_ r_id_map_ r_heap_ has_exception r_delegate_state].
    destruct s as [pos id im h ex ds]. by apply (runs_read_key n p keys (mkR pos id im h ex ds)).
Qed.

Lemma runs_properties_fast fuel n p r end_tag keys values s : ready p s -> (n <= r)%nat -> blank r s ->
  gathered (length (r_heap_ s)) keys values ->
  runs n p (read_properties_fast des ReadObject fuel r end_tag keys values) s (fun _ s' => filling r s').
Proof using Env Hrec.
  revert keys values s. induction fuel as [|fuel IH]; intros keys values s Hr Hn Hb Hg; cbn [read_properties_fast]; [by apply runs_throws|].
  pose proof (filling_lt _ _ _ (blank_filling _ _ Hb)) as Hlt.
  eapply runs_bind; [by apply runs_Peek|]. intros tag s0 _ _ [_ ->]. case_match.
  - eapply runs_bind; [by apply runs_ConsumeTag|]. intros _ s1 Hr1 Hk1 [Hh1 _].
    eapply runs_bind; [apply runs_CommitProperties; [done|done| |]|].
    + unfold blank. by rewrite Hh1.
    + by rewrite Hh1.
    + intros [] s2 Hr2 _ Hf. by apply runs_ret.
  - eapply runs_bind; [apply runs_read_transition_key; [done|lia]|]. intros [key transition] s1 Hr1 _ (Hk1 & Ht & Hkey).
    apply (blank_keeps _ r s s1 Hlt Hk1) in Hb. apply (gathered_mono _ (length (r_heap_ s1))) in Hg; [|apply Hk1].
    clear Hlt. pose proof (filling_lt _ _ _ (blank_filling _ _ Hb)) as Hlt. simpl in Ht, Hkey.
    eapply runs_bind; [apply runs_value; [done|done|lia]|]. intros v s2 Hr2 _ (Hk2 & Hv & _).
    apply (blank_keeps _ r s1 s2 Hlt Hk2) in Hb. apply (gathered_mono _ (length (r_heap_ s2))) in Hg; [|apply Hk2].
    unfold transition_fits. eapply runs_bind; [apply (runs_read _ _ _ _ _ (fun s => transition && FitsRepresentation des s _ v) _ (fun b s => s = s2 /\ (b = true -> transition = true)));
      [done|split; [done|by destruct transition]]|].
    intros fits s3 _ _ [-> Hfits]. destruct fits.
    + destruct (Ht (Hfits eq_refl)) as (k & -> & Hfresh). apply IH; [done|done|done|]. by apply gathered_snoc.
    + eapply runs_bind; [by apply runs_CommitProperties|]. intros [] s3 Hr3 Hk3 Hf. cbv beta in Hf.
      eapply runs_bind; [apply (runs_failing _ _ _ _ _ _ _ (fun k s' => s' = s3 /\ key_ok k)); [done|by auto]|].
      intros k s4 _ _ [-> Hk]. eapply runs_bind; [apply runs_define_property; [done|done|done|done|]|].
      * eapply read_value_mono; [|exact Hv]. apply Hk3.
      * intros _ s5 Hr5 _ [Hf5 _]. by apply (runs_properties_slow fuel n p r).
Qed.

Lemma runs_ReadJSObjectProperties n p r end_tag (transitions : bool) s : ready p s -> (n <= r)%nat ->
  (if transitions then blank r s else filling r s) ->
  runs n p (ReadJSObjectProperties des ReadObject r end_tag transitions) s (fun _ s' => filling r s').
Proof using Env Hrec.
  intros Hr Hn Hf. unfold ReadJSObjectProperties. eapply runs_bind; [by apply runs_get_position|]. intros b s0 _ _ [-> ->].
  destruct transitions; [|by apply runs_properties_slow].
  apply runs_properties_fast; [done|done|done|].
  split; [done|]. split; [constructor|]. split; [apply NoDup_nil_2|constructor].
Qed.

(** *** Objects and arrays *)

Lemma runs_expect n p m s : ready p s -> runs n p (expect m) s (fun _ s' => same_heap s s').
Proof using Type.
  intros Hr. unfold expect. eapply runs_bind; [apply runs_GetVarint; [done|auto with v8]|]. intros k s1 Hr1 _ (Hh & _).
  case_match; [by apply runs_ret|by apply runs_throws].
Qed.

(** The result is the object that was filled. *)
Lemma runs_filled n p r s : ready p s -> filling r s -> runs n p (mret r) s (fun r s' => gives_ref (length (r_heap_ s')) r).
Proof using Type. intros Hr Hf. apply runs_ret; [done|]. by apply (filling_lt H0). Qed.

Lemma filling_same r (s s' : rstate D) : same_heap s s' -> filling r s -> filling r s'.
Proof using Type. intros Hh. unfold ReaderSafety.filling. by rewrite Hh. Qed.

Lemma new_lt s : ReaderSafety.state_ok des H0 Foreign s -> (length H0 <= length (r_heap_ s))%nat.
Proof using Type. by intros [_ [? _] _ _ _ _]. Qed.

Lemma new_object_container : container NewJSObject.
Proof using Type. split; [by split; constructor|]. split; [|done]. split; [apply NoDup_nil_2|constructor]. Qed.

Lemma handles_ReadJSObject : handles (ReadJSObject des ReadObject) gives_ref.
Proof using Env Hrec.
  intros s Hok. pose proof (ready_self _ _ _ s Hok) as Hr. unfold ReadJSObject.
  eapply runs_bind; [by apply runs_new_id|]. intros id s1 Hr1 _ [Hh1 _].
  assert (Hn : length (r_heap_ s1) = length (r_heap_ s)) by by rewrite Hh1.
  eapply runs_bind; [apply runs_allocate_with_id; [done|lia| |by apply bounded_other]|].
  { left. apply container_made; [|by split; constructor]. apply new_object_container. }
  intros r s2 Hr2 _ Ha. assert (Hb : blank r s2).
  { split; [|by apply allocated_as_lookup in Ha as []]. destruct Ha as [-> _]. apply new_lt. apply Hr1. }
  destruct Ha as (Heq & _ & _).
  eapply runs_bind; [apply (runs_ReadJSObjectProperties _ _ _ _ true); [done|lia|done]|]. intros num s3 Hr3 _ Hf.
  eapply runs_bind; [by apply runs_expect|]. intros [] s4 Hr4 _ Hh4. apply runs_filled; [done|by eapply filling_same].
Qed.

Definition new_array (length : Z) : receiver := mkReceiver (JSArray HOLEY_ELEMENTS length) [] [].

Lemma new_array_container length : 0 <= length < 2 ^ 32 -> container (new_array length).
Proof using Type.
  intros Hl. split; [by split; constructor|]. split; [split; [apply NoDup_nil_2|constructor]|]. cbn.
  split_all; [done|lia|lia|constructor|by apply not_elem_of_nil].
Qed.

(** A new array, ready to be filled. *)
Lemma runs_new_array n p id length s : ready p s -> (n <= List.length (r_heap_ s))%nat -> 0 <= length < 2 ^ 32 ->
  runs n p (allocate_with_id id (new_array length)) s (fun r s' => (n <= r)%nat /\ filling r s' /\ r_heap_ s' !! r = Some (new_array length)).
Proof using Type.
  intros Hr Hn Hl. pose proof (new_array_container length Hl) as Hc.
  eapply (runs_conseq _ _ _ n n p p); [apply runs_allocate_with_id; [done|done| |by apply bounded_other]|done|done|].
  { left. by apply container_made; [|split; constructor]. }
  intros r s' _ Ha. destruct (allocated_as_lookup _ _ _ _ Ha) as (Ho & _). destruct Ha as (-> & _). split; [done|]. split; [|done].
  split; [apply new_lt, Hr|]. exists (new_array length). split; [done|]. by split; [|split; constructor].
Qed.

Lemma handles_ReadSparseJSArray : handles (ReadSparseJSArray des ReadObject) gives_ref.
Proof using Env Hrec.
  intros s Hok. pose proof (ready_self _ _ _ s Hok) as Hr. unfold ReadSparseJSArray.
  eapply runs_bind; [apply runs_GetVarint; [done|auto with v8]|]. intros length s1 Hr1 [Hk1 _] (_ & _ & Hl).
  eapply runs_bind; [by apply runs_new_id|]. intros id s2 Hr2 [Hk2 _] [Hh2 _].
  eapply runs_bind; [apply runs_new_array; [done|lia|done]|]. intros r s3 Hr3 _ (Hnr & Hf & _).
  eapply runs_bind; [apply (runs_ReadJSObjectProperties _ _ _ _ false); [done|done|done]|]. intros num s4 Hr4 _ Hf4. cbv beta in Hf4.
  eapply runs_bind; [by apply runs_expect|]. intros [] s5 Hr5 _ Hh5.
  eapply runs_bind; [by apply runs_expect|]. intros [] s6 Hr6 _ Hh6.
  apply runs_filled; [done|]. eapply filling_same; [done|]. by eapply filling_same.
Qed.

(** The elements before [i] are there, and no others. *)
Definition elements_below (r : ref) (i : Z) (s : rstate D) : Prop :=
  exists o, r_heap_ s !! r = Some o /\ Forall (fun j => j < i) (elements o).*1.

Lemma runs_read_elements n p r m i s : ready p s -> (n <= r)%nat -> filling r s -> elements_below r i s ->
  0 <= i -> i + Z.of_nat m <= kMaxElementIndex ->
  runs n p (read_elements des ReadObject r m i) s (fun _ s' => filling r s').
Proof using Env Hrec.
  revert i s. induction m as [|m IH]; intros i s Hr Hn Hf (o & Ho & Hbelow) Hi Hmax; [by apply runs_ret|].
  pose proof (filling_lt _ _ _ Hf) as Hlt. cbn [read_elements].
  assert (Hnext : Forall (fun j => j < i + 1) (elements o).*1) by (eapply Forall_impl; [exact Hbelow|]; simpl; lia).
  unfold ReaderSafety.runs. case_bool_decide.
  - fold (ReaderSafety.runs des H0 Foreign n p (ConsumeTag ≫= (fun _ => read_elements des ReadObject r m (i + 1))) s (fun _ s' => filling r s')).
    eapply runs_bind; [by apply runs_ConsumeTag|]. intros _ s1 Hr1 _ [Hh1 _].
    apply IH; [done|done|by eapply filling_same| |lia|lia]. exists o. by rewrite Hh1.
  - match goal with |- match ?m s with _ => _ end => change (ReaderSafety.runs des H0 Foreign n p m s (fun _ s' => filling r s')) end.
    eapply runs_bind; [apply runs_value; [done|done|lia]|]. intros v s1 Hr1 _ (Hk1 & Hv & _).
    apply (filling_keeps H0 _ r s s1 Hlt Hk1) in Hf. apply (keeps_lookup _ _ _ r o Hk1 Hlt) in Ho.
    eapply (runs_bind _ _ _ _ _ _ _ _ _ (fun _ s' => filling r s' /\ elements_below r (i + 1) s')).
    { case_match; [apply runs_ret; [done|]; split; [done|by exists o]|].
      assert (Hfresh : own_lookup o (Index i) = None).
      { cbn. apply find_element_None. intros Hin. eapply Forall_forall in Hbelow; [|done]. simpl in Hbelow. lia. }
      eapply (runs_conseq _ _ _ n n p p); [apply runs_fill; [done|done|done|]|done|done|].
      - intros o' Ho' Hc Hvs. simplify_eq. split; [eapply define_own_container; [done|simpl; lia|done|done]|by apply define_own_values].
      - intros _ s' _ (Hf' & _ & Hlook). split; [done|]. rewrite Ho in Hlook. eexists. split; [exact Hlook|]. cbn.
        apply Forall_fmap, insert_element_Forall; [simpl; lia|]. by apply Forall_fmap in Hnext. }
    intros [] s2 Hr2 _ [Hf2 He2]. apply IH; [done|done|done|done|lia|lia].
Qed.

Lemma handles_ReadDenseJSArray : handles (ReadDenseJSArray des ReadObject) gives_ref.
Proof using Env Hrec.
  intros s Hok. pose proof (ready_self _ _ _ s Hok) as Hr. unfold ReadDenseJSArray.
  eapply runs_bind; [apply runs_GetVarint; [done|auto with v8]|]. intros length s1 Hr1 [Hk1 _] (_ & _ & Hl).
  eapply runs_bind; [by apply runs_get_position|]. intros b s' _ _ [-> ->].
  destruct (Z.gtb_spec length kMaxFixedArrayLength); [by apply runs_throws|]. cbn [orb]. case_match; [by apply runs_throws|].
  eapply runs_bind; [by apply runs_new_id|]. intros id s2 Hr2 [Hk2 _] [Hh2 _].
  eapply runs_bind; [apply runs_new_array; [done|lia|done]|]. intros r s3 Hr3 _ (Hnr & Hf & Ho).
  eapply runs_bind; [apply runs_read_elements; [done|done|done| |lia|]|].
  { exists (new_array length). split; [done|constructor]. }
  { unfold kMaxFixedArrayLength, kMaxElementIndex in *. lia. }
  intros [] s4 Hr4 _ Hf4. cbv beta in Hf4.
  eapply runs_bind; [apply (runs_ReadJSObjectProperties _ _ _ _ false); [done|done|done]|]. intros num s5 Hr5 _ Hf5. cbv beta in Hf5.
  eapply runs_bind; [by apply runs_expect|]. intros [] s6 Hr6 _ Hh6.
  eapply runs_bind; [by apply runs_expect|]. intros [] s7 Hr7 _ Hh7.
  apply runs_filled; [done|]. eapply filling_same; [done|]. by eapply filling_same.
Qed.

(** *** Wrappers and regular expressions *)

Lemma handles_ReadJSPrimitiveWrapper tag : handles (ReadJSPrimitiveWrapper des ReadObject tag) gives_ref.
Proof using Env Hrec.
  intros s Hok. pose proof (ready_self _ _ _ s Hok) as Hr. unfold ReadJSPrimitiveWrapper.
  eapply runs_bind; [by apply runs_new_id|]. intros id s1 Hr1 [Hk1 _] _.
  eapply (runs_bind _ _ _ _ _ _ _ _ _ (fun v s' => read_value (length (r_heap_ s')) v)).
  { repeat case_match; try (by apply runs_ret).
    - eapply runs_bind; [by apply runs_GetDouble|]. intros d s2 Hr2 _ (_ & _ & Hd & Hc). apply runs_ret; [done|]. split; [done|].
      simpl. by rewrite Hc.
    - eapply runs_bind; [apply runs_handler; [apply handles_ReadBigInt|done|done]|]. intros b s2 Hr2 _ [_ Hb]. by apply runs_ret.
    - eapply runs_bind; [apply runs_handler; [by apply handles_ReadString|done|done]|]. intros str s2 Hr2 _ [_ Hs].
      apply runs_ret; [done|]. by apply read_value_string. }
  intros v s2 Hr2 [Hk2 _] Hv. cbv beta in Hv. apply runs_result; [done|lia| |by apply bounded_other].
  left. apply made_plain; [done|]. unfold instance_ok. cbn. by eapply read_value_ok.
Qed.

Lemma bad_flags raw_flags (experimental : bool) : 0 <= raw_flags < 2 ^ 32 ->
  (let mask := wrap 32 (Z.shiftl (2 ^ 32 - 1) kFlagCount) in
   Z.land raw_flags (if experimental then mask else Z.lor mask kLinear) = 0) ->
  0 <= raw_flags < 2 ^ kFlagCount /\ (experimental = true \/ Z.land raw_flags kLinear = 0).
Proof using Type.
  intros Hf. cbv zeta. intros Hm.
  assert (Hmask : Z.land raw_flags (wrap 32 (Z.shiftl (2 ^ 32 - 1) kFlagCount)) = 0 /\ (experimental = true \/ Z.land raw_flags kLinear = 0)).
  { destruct experimental; [by split; [|left]|]. rewrite Z.land_lor_distr_r in Hm. apply Z.lor_eq_0_iff in Hm as [? ?]. by split; [|right]. }
  destruct Hmask as [Hmask Hlin]. split; [|done]. change (wrap 32 _) with (Z.shiftl (Z.ones 23) 9) in Hmask.
  assert (Hs : Z.shiftr raw_flags 9 = 0).
  { assert (Hz : Z.land (Z.shiftr raw_flags 9) (Z.ones 23) = 0).
    { rewrite <- (Z.shiftr_0_l 9), <- Hmask. rewrite Z.shiftr_land, Z.shiftr_shiftl_l by lia. by rewrite Z.shiftl_0_r. }
    rewrite Z.land_ones in Hz by lia. rewrite Z.mod_small in Hz; [done|]. rewrite Z.shiftr_div_pow2 by lia.
    split; [apply Z.div_pos; lia|apply Z.div_lt_upper_bound; lia]. }
  rewrite Z.shiftr_div_pow2 in Hs by lia. change kFlagCount with 9. apply Z.div_small_iff in Hs; lia.
Qed.

Lemma handles_ReadJSRegExp : handles (ReadJSRegExp des ReadObject) gives_ref.
Proof using Env Hrec.
  intros s Hok. pose proof (ready_self _ _ _ s Hok) as Hr. unfold ReadJSRegExp.
  eapply runs_bind; [by apply runs_new_id|]. intros id s1 Hr1 [Hk1 _] _.
  eapply runs_bind; [apply runs_handler; [by apply handles_ReadString|done|done]|]. intros pattern s2 Hr2 [Hk2 _] [_ [Hp Hpc]].
  eapply runs_bind; [apply runs_GetVarint; [done|auto with v8]|]. intros flags s3 Hr3 [Hk3 _] (_ & _ & Hfl).
  destruct (negb (Z.land flags _ =? 0)) eqn:Hbad; [by apply runs_throws|]. cbn [orb].
  destruct (VerifyFlags flags) eqn:Hv; [|by apply runs_throws]. cbn [negb].
  destruct (RegExpCompiles des pattern flags) eqn:Hre; [|by apply runs_throw]. cbn [negb].
  apply negb_false_iff, Z.eqb_eq in Hbad. destruct (bad_flags flags _ Hfl Hbad) as [Hrange Hlin].
  apply runs_result; [done|lia| |by apply bounded_other]. left. apply made_plain; [done|].
  unfold instance_ok. cbn [instance_type]. rewrite Hpc. split_all; try done; apply Hrange.
Qed.

(** *** Maps and sets *)

(** The map that is filled. *)
Definition filling_map (r : ref) (s : rstate D) : Prop :=
  (length H0 <= r)%nat /\ exists table, r_heap_ s !! r = Some (mkReceiver (JSMap table) [] []) /\ map_ok (length (r_heap_ s)) table.
Definition filling_set (r : ref) (s : rstate D) : Prop :=
  (length H0 <= r)%nat /\ exists table, r_heap_ s !! r = Some (mkReceiver (JSSet table) [] []) /\ set_ok (length (r_heap_ s)) table.

Lemma map_ok_mono n m table : (n <= m)%nat -> map_ok n table -> map_ok m table.
Proof using Type.
  intros Hn (Hv & ? & ?). split; [|done]. eapply Forall_impl; [exact Hv|]. intros e [? ?]. split; by eapply read_value_mono.
Qed.
Lemma set_ok_mono n m table : (n <= m)%nat -> set_ok n table -> set_ok m table.
Proof using Type. intros Hn (Hv & ? & ?). split; [|done]. eapply Forall_impl; [exact Hv|]. intros e ?. by eapply read_value_mono. Qed.

Lemma filling_map_keeps r s s' : (r < length (r_heap_ s))%nat -> keeps (length (r_heap_ s)) (r_heap_ s) (r_heap_ s') -> filling_map r s -> filling_map r s'.
Proof using Type.
  intros Hr Hk [? (table & Ho & Ht)]. split; [done|]. exists table. split; [by eapply keeps_lookup|]. eapply map_ok_mono; [apply Hk|done].
Qed.
Lemma filling_set_keeps r s s' : (r < length (r_heap_ s))%nat -> keeps (length (r_heap_ s)) (r_heap_ s) (r_heap_ s') -> filling_set r s -> filling_set r s'.
Proof using Type.
  intros Hr Hk [? (table & Ho & Ht)]. split; [done|]. exists table. split; [by eapply keeps_lookup|]. eapply set_ok_mono; [apply Hk|done].
Qed.
Lemma filling_map_lt r s : filling_map r s -> (r < length (r_heap_ s))%nat.
Proof using Type. intros [_ (table & Ho & _)]. by eapply lookup_lt_Some. Qed.
Lemma filling_set_lt r s : filling_set r s -> (r < length (r_heap_ s))%nat.
Proof using Type. intros [_ (table & Ho & _)]. by eapply lookup_lt_Some. Qed.

Lemma runs_CallMapSet n p r k v s : ready p s -> (n <= r)%nat -> filling_map r s -> read_value (length (r_heap_ s)) k -> read_value (length (r_heap_ s)) v ->
  runs n p (CallMapSet r k v) s (fun _ s' => filling_map r s').
Proof using Type.
  intros Hr Hn Hf Hk Hv. pose proof (filling_map_lt _ _ Hf). destruct Hf as [H0r (table & Ho & Ht)].
  pose proof (map_set_ok _ _ _ _ Hk Hv Ht) as Ht'. unfold CallMapSet.
  eapply (runs_conseq _ _ _ n n p p); [eapply runs_update; [done|done|done|exact Ho|done|by apply map_made|done]|done|done|].
  intros _ s' _ [Hh _]. split; [done|]. eexists. rewrite Hh. split; [by apply list_lookup_insert_eq|]. by rewrite length_insert.
Qed.

Lemma runs_CallSetAdd n p r k s : ready p s -> (n <= r)%nat -> filling_set r s -> read_value (length (r_heap_ s)) k ->
  runs n p (CallSetAdd r k) s (fun _ s' => filling_set r s').
Proof using Type.
  intros Hr Hn Hf Hk. pose proof (filling_set_lt _ _ Hf). destruct Hf as [H0r (table & Ho & Ht)].
  pose proof (set_add_ok _ _ _ Hk Ht) as Ht'. unfold CallSetAdd.
  eapply (runs_conseq _ _ _ n n p p); [eapply runs_update; [done|done|done|exact Ho|done|by apply set_made|done]|done|done|].
  intros _ s' _ [Hh _]. split; [done|]. eexists. rewrite Hh. split; [by apply list_lookup_insert_eq|]. by rewrite length_insert.
Qed.

Lemma runs_map_entries fuel n p r len s : ready p s -> (n <= r)%nat -> filling_map r s ->
  runs n p (read_map_entries ReadObject fuel r len) s (fun _ s' => filling_map r s').
Proof using Env Hrec.
  revert len s. induction fuel as [|fuel IH]; intros len s Hr Hn Hf; cbn [read_map_entries]; [by apply runs_throws|].
  pose proof (filling_map_lt _ _ Hf) as Hlt.
  eapply runs_bind; [by apply runs_Peek|]. intros tag s0 _ _ [_ ->]. case_match.
  - eapply runs_bind; [by apply runs_ConsumeTag|]. intros _ s1 Hr1 _ [Hh1 _]. apply runs_ret; [done|].
    unfold filling_map. by rewrite Hh1.
  - eapply runs_bind; [apply runs_value; [done|done|lia]|]. intros k s1 Hr1 _ (Hk1 & Hk & _).
    apply (filling_map_keeps r s s1 Hlt Hk1) in Hf. clear Hlt. pose proof (filling_map_lt _ _ Hf) as Hlt.
    eapply runs_bind; [apply runs_value; [done|done|lia]|]. intros v s2 Hr2 _ (Hk2 & Hv & _).
    apply (filling_map_keeps r s1 s2 Hlt Hk2) in Hf.
    eapply runs_bind; [apply runs_CallMapSet; [done|done|done| |done]|].
    { eapply read_value_mono; [apply Hk2|exact Hk]. }
    intros [] s3 Hr3 _ Hf3. by apply IH.
Qed.

Lemma runs_set_members fuel n p r len s : ready p s -> (n <= r)%nat -> filling_set r s ->
  runs n p (read_set_members ReadObject fuel r len) s (fun _ s' => filling_set r s').
Proof using Env Hrec.
  revert len s. induction fuel as [|fuel IH]; intros len s Hr Hn Hf; cbn [read_set_members]; [by apply runs_throws|].
  pose proof (filling_set_lt _ _ Hf) as Hlt.
  eapply runs_bind; [by apply runs_Peek|]. intros tag s0 _ _ [_ ->]. case_match.
  - eapply runs_bind; [by apply runs_ConsumeTag|]. intros _ s1 Hr1 _ [Hh1 _]. apply runs_ret; [done|].
    unfold filling_set. by rewrite Hh1.
  - eapply runs_bind; [apply runs_value; [done|done|lia]|]. intros k s1 Hr1 _ (Hk1 & Hk & _).
    apply (filling_set_keeps r s s1 Hlt Hk1) in Hf.
    eapply runs_bind; [by apply runs_CallSetAdd|]. intros [] s3 Hr3 _ Hf3. by apply IH.
Qed.

Lemma handles_ReadJSMap : handles (ReadJSMap ReadObject) gives_ref.
Proof using Env Hrec.
  intros s Hok. pose proof (ready_self _ _ _ s Hok) as Hr. unfold ReadJSMap.
  assert (Hnil : forall n, map_ok n []) by (intros; split; [constructor|split; [apply NoDup_nil_2|constructor]]).
  eapply runs_bind; [by apply runs_new_id|]. intros id s1 Hr1 [Hk1 _] [Hh1 _].
  eapply runs_bind; [apply runs_allocate_with_id; [done|lia|left; by apply map_made|by apply bounded_other]|].
  intros r s2 Hr2 _ Ha. destruct (allocated_as_lookup _ _ _ _ Ha) as (Ho & _). destruct Ha as (Heq & _).
  eapply runs_bind; [by apply runs_get_position|]. intros b s' _ _ [-> ->].
  eapply runs_bind; [apply runs_map_entries; [done|lia|]|].
  { split; [rewrite Heq; apply new_lt; apply Hr1|]. exists []. done. }
  intros len s3 Hr3 _ Hf. cbv beta in Hf. eapply runs_bind; [by apply runs_expect|]. intros [] s4 Hr4 _ Hh4.
  apply runs_ret; [done|]. unfold gives_ref. rewrite Hh4. by apply filling_map_lt.
Qed.

Lemma handles_ReadJSSet : handles (ReadJSSet ReadObject) gives_ref.
Proof using Env Hrec.
  intros s Hok. pose proof (ready_self _ _ _ s Hok) as Hr. unfold ReadJSSet.
  assert (Hnil : forall n, set_ok n []) by (intros; split; [constructor|split; [apply NoDup_nil_2|constructor]]).
  eapply runs_bind; [by apply runs_new_id|]. intros id s1 Hr1 [Hk1 _] [Hh1 _].
  eapply runs_bind; [apply runs_allocate_with_id; [done|lia|left; by apply set_made|by apply bounded_other]|].
  intros r s2 Hr2 _ Ha. destruct (allocated_as_lookup _ _ _ _ Ha) as (Ho & _). destruct Ha as (Heq & _).
  eapply runs_bind; [by apply runs_get_position|]. intros b s' _ _ [-> ->].
  eapply runs_bind; [apply runs_set_members; [done|lia|]|].
  { split; [rewrite Heq; apply new_lt; apply Hr1|]. exists []. done. }
  intros len s3 Hr3 _ Hf. cbv beta in Hf. eapply runs_bind; [by apply runs_expect|]. intros [] s4 Hr4 _ Hh4.
  apply runs_ret; [done|]. unfold gives_ref. rewrite Hh4. by apply filling_set_lt.
Qed.
End parts.
