(* ===== verification/ReaderTheorems.v ===== *)
(** The deserializer is safe and well typed on arbitrary bytes.

    The handlers of ReaderParts.v and ReaderSafety.v are put together along the dispatch on
    the tag, the recursion on the stack, the retry of version 13 and the legacy format. *)
From S2P Require Import Prelude Conversions Engine WireFormat Serializer JSHeap ObjectWriter ObjectReader.
From S2P Require Import ObjectGraphs ObjectTypes ReaderSafety ReaderParts.

(** ** Errors *)

Section errors.
Context {D : Type} (des : deserializer D).

Definition error_properties (message : option flat_string) (cause : option js_value) : list (flat_string * own_property) :=
  (match message with Some s => [(str "message", mkProperty false (Data (Prim (Str s))))] | None => [] end) ++
  (match cause with Some v => [(str "cause", mkProperty false (Data v))] | None => [] end).

Definition error_object (name : flat_string) (message stack : option flat_string) (cause : option js_value) : receiver :=
  mkReceiver (JSError (Data (Prim (Str name))) (Data (match stack with Some s => Prim (Str s) | None => undefined end))) []
    (error_properties message cause).

Lemma error_made h name message stack cause : read_string name -> (forall s, message = Some s -> read_string s) ->
  (forall s, stack = Some s -> read_string s) -> (forall v, cause = Some v -> read_value (length h) v) ->
  made des h (error_object name message stack cause).
Proof.
  intros Hn Hm Hs Hc.
  assert (Hstack : read_value (length h) (match stack with Some s => Prim (Str s) | None => undefined end)).
  { destruct stack; [apply read_value_string; by apply Hs|done]. }
  split; [|split].
  - split; [constructor|]. cbn. apply Forall_app. split.
    + destruct message; constructor; [apply read_value_string; by apply Hm|constructor].
    + destruct cause; constructor; [by apply Hc|constructor].
  - split; [by apply read_value_string|done].
  - unfold instance_ok. cbn [instance_type error_object].
    assert (Hname : find_named (str "name") (named (error_object name message stack cause)) = None).
    { by destruct message, cause. }
    assert (Hstk : find_named (str "stack") (named (error_object name message stack cause)) = None).
    { by destruct message, cause. }
    unfold found_property. rewrite Hname, Hstk. split_all.
    + exists name. split; [done|apply Hn].
    + eexists. split; [reflexivity|]. by eapply read_value_ok.
    + intros v Hv. destruct message as [s|].
      * exists s. split; [|by apply Hm]. enough (own_data (error_object name (Some s) stack cause) (str "message") = Some (Prim (Str s))) by congruence.
        by destruct cause.
      * by destruct cause.
    + intros v Hv. destruct cause as [c|]; [|by destruct message].
      enough (own_data (error_object name message stack (Some c)) (str "cause") = Some c) by (replace v with c by congruence; eapply read_value_ok; by apply Hc).
      by destruct message.
Qed.

Lemma literal_ok s : Z.of_nat (String.length s) <= kMaxLength -> read_string (str s).
Proof.
  intros Hs. split; [|done]. split.
  - apply Forall_fmap, Forall_true. intros c. unfold byte_ok, char_code. simpl. pose proof (Ascii.nat_ascii_bounded c). lia.
  - rewrite length_fmap. enough (length (String.list_ascii_of_string s) = String.length s) as -> by done.
    clear Hs. induction s as [|c s IH]; [done|]. simpl. by rewrite IH.
Qed.

Lemma error_name_ok tag name : error_name_of tag = Some name -> read_string name.
Proof.
  assert (Hall : Forall (fun e => read_string e.1) error_prototypes) by (unfold error_prototypes; rewrite !Forall_cons; split_all; [by apply literal_ok..|constructor]).
  unfold error_name_of. destruct (list_find _ _) as [[i [n t]]|] eqn:E; cbn; [|done]. intros [= <-].
  apply list_find_Some in E as (Hi & _). exact (Forall_lookup_1 _ _ _ _ Hall Hi).
Qed.
End errors.

(** ** The dispatch *)

Section dispatch.
Context {D : Type} (des : deserializer D) (H0 : js_heap) (Foreign : receiver -> Prop) (Env : environment des H0 Foreign).

Abbreviation runs := (runs des H0 Foreign).
Abbreviation ready := (ready des H0 Foreign).
Abbreviation handles := (handles des H0 Foreign).
Abbreviation reads_value := (reads_value des H0 Foreign).

Section body.
Context (ReadObject : R D js_value) (Hrec : reads_value ReadObject).

Lemma runs_ReadErrorString n p t tag s : ready p s -> (n <= length (r_heap_ s))%nat ->
  runs n p (ReadErrorString des ReadObject t tag) s (fun st _ => forall str, st.1 = Some str -> read_string str).
Proof using Env Hrec.
  intros Hr Hn. unfold ReadErrorString. case_match; [|by apply runs_ret].
  eapply runs_bind; [apply runs_handler; [by apply handles_ReadString|done|done]|]. intros str s1 Hr1 _ [_ Hs].
  eapply runs_bind; [apply runs_GetVarint; [done|unfold widths; set_solver]|]. intros tag' s2 Hr2 _ _.
  apply runs_ret; [done|]. by intros ? [= <-].
Qed.

Lemma handles_ReadJSError : handles (ReadJSError des ReadObject) gives_ref.
Proof using Env Hrec.
  intros s Hok. pose proof (ready_self _ _ _ s Hok) as Hr. unfold ReadJSError. assert (H8 : (8 : Z) ∈ widths) by (unfold widths; set_solver).
  eapply runs_bind; [by apply runs_new_id|]. intros id s1 Hr1 [Hk1 _] _.
  eapply runs_bind; [by apply runs_GetVarint|]. intros tag s2 Hr2 [Hk2 _] _.
  eapply (runs_bind _ _ _ _ _ _ _ _ _ (fun nt _ => read_string nt.1)).
  { destruct (error_name_of tag) as [name|] eqn:He.
    - eapply runs_bind; [by apply runs_GetVarint|]. intros tag' s3 Hr3 _ _. apply runs_ret; [done|]. by eapply error_name_ok.
    - apply runs_ret; [done|]. by apply literal_ok. }
  intros [name tag1] s3 Hr3 [Hk3 _] Hname. simpl in Hname.
  eapply runs_bind; [apply runs_ReadErrorString; [done|lia]|]. intros [message tag2] s4 Hr4 [Hk4 _] Hm. simpl in Hm.
  eapply runs_bind; [apply runs_ReadErrorString; [done|lia]|]. intros [stack tag3] s5 Hr5 [Hk5 _] Hs. simpl in Hs.
  change (ConstructError name message stack) with (mkReceiver (instance_type (error_object name message stack None)) []
    (match message with Some s => [(str "message", mkProperty false (Data (Prim (Str s))))] | None => [] end)).
  replace (match message with Some s => _ | None => [] end) with (error_properties message None) by apply app_nil_r.
  eapply runs_bind; [apply runs_allocate_with_id; [done|lia|left; by apply (error_made des _ name message stack None)|by apply bounded_other]|].
  intros r s6 Hr6 _ Ha. destruct (allocated_as_lookup _ _ _ _ Ha) as (Ho & Hlt & _). destruct Ha as (Heq & _).
  assert (H0r : (length H0 <= r)%nat) by (rewrite Heq; apply (new_lt des H0 Foreign), Hr5).
  eapply (runs_bind _ _ _ _ _ _ _ _ _ (fun _ s7 => (r < length (r_heap_ s7))%nat)).
  { case_match; [|by apply runs_ret].
    eapply runs_bind; [apply runs_value; [done|done|lia]|]. intros cause s7 Hr7 _ (Hk7 & Hc & _).
    apply (keeps_lookup _ _ _ r _ Hk7 Hlt) in Ho.
    eapply runs_bind; [eapply runs_update; [done|lia|done|exact Ho|done| |done]|].
    - replace (add_cause cause _) with (error_object name message stack (Some cause)).
      + apply error_made; [done|done|done|]. by intros ? [= <-].
      + unfold add_cause, error_object, error_properties. cbn. f_equal. by rewrite app_nil_r.
    - intros _ s8 Hr8 _ [Hh8 _]. eapply runs_conseq; [by apply runs_GetVarint|done|done|].
      intros v s9 _ (Hh9 & _). rewrite Hh9, Hh8, length_insert. by eapply lookup_lt_Some. }
  intros tag4 s7 Hr7 _ Hlt7. case_match; [by apply runs_ret|by apply runs_throws].
Qed.

(** A handler after the tag: it leaves a suffix of what is left after the tag. *)
Lemma runs_after_tag n (s s1 : rstate D) (m : R D js_value) : consumed (position_ s) (position_ s1) ->
  runs n (position_ s1) m s1 (fun v s' => read_value (length (r_heap_ s')) v) ->
  runs n (position_ s) m s1 (fun v s' => read_value (length (r_heap_ s')) v /\ consumed (position_ s) (position_ s')).
Proof using Type.
  intros Hc. unfold ReaderSafety.runs. destruct (m s1) as [[v| | |] s']; try done. intros (? & ? & Hp & ?).
  split; [done|]. split; [done|]. split; [etrans; [done|apply Hc]|]. split; [done|by eapply consumed_trans].
Qed.

Lemma runs_receiver n p (m : R D ref) s : handles m gives_ref -> ready p s -> (n <= length (r_heap_ s))%nat ->
  runs n p (r ← m; mret (Receiver r)) s (fun v s' => read_value (length (r_heap_ s')) v).
Proof using Type.
  intros Hm Hr Hn. eapply runs_bind; [by eapply runs_handler|]. intros r s' Hr' _ [_ Hlt]. by apply runs_ret.
Qed.

Lemma runs_prim {A} n p (m : R D A) (k : A -> primitive) P s : handles m P -> (forall m a, P m a -> read_value O (Prim (k a))) ->
  ready p s -> (n <= length (r_heap_ s))%nat ->
  runs n p (a ← m; mret (Prim (k a))) s (fun v s' => read_value (length (r_heap_ s')) v).
Proof using Type.
  intros Hm Hk Hr Hn. eapply runs_bind; [by eapply runs_handler|]. intros a s' Hr' _ [_ Ha]. apply runs_ret; [done|]. by eapply Hk.
Qed.

Lemma handles_GetVarint32 : handles (GetVarint 32) (fun _ v => 0 <= v < 2 ^ 32).
Proof using Type.
  intros s Hok. eapply runs_conseq; [apply runs_GetVarint; [by apply ready_self|auto with v8]|done|done|]. simpl. tauto.
Qed.

Lemma handles_ReadZigZag32 : handles (lift (ReadZigZag 32)) (fun _ v => - 2 ^ 31 <= v < 2 ^ 31).
Proof using Type.
  intros s Hok. pose proof (ready_self _ _ _ s Hok) as Hr.
  eapply runs_conseq; [apply (runs_lift_consumed _ _ _ _ _ _ _ (fun v => - 2 ^ 31 <= v < 2 ^ 31) Hr)|done|done|].
  - intros v b. apply ReadZigZag_range. by eapply ready_bytes.
  - simpl. tauto.
Qed.

Lemma handles_GetDouble : handles GetDouble (fun _ d => 0 <= d < 2 ^ 64 /\ canonical_double d = d).
Proof using Type.
  intros s Hok. eapply runs_conseq; [apply runs_GetDouble; by apply ready_self|done|done|]. simpl. tauto.
Qed.

Lemma handles_GetObjectWithID : handles (id ← GetVarint 32; GetObjectWithID id) gives_ref.
Proof using Type.
  intros s Hok. pose proof (ready_self _ _ _ s Hok) as Hr.
  eapply runs_bind; [apply runs_GetVarint; [done|auto with v8]|]. intros id s1 Hr1 _ _.
  eapply runs_conseq; [by apply runs_GetObjectWithID|done|done|]. intros r s' _ [-> ?]. done.
Qed.

(** One branch of the dispatch. *)
Ltac branch := match goal with |- ReaderSafety.runs _ _ _ _ _ (if ?c then _ else _) _ _ => destruct c end.
Tactic Notation "gives" uconstr(lem) := apply runs_receiver; [by eapply lem|done|done].

Lemma handles_ReadObjectInternal : reads_value (ReadObjectInternal des ReadObject).
Proof using Env Hrec.
  intros s Hok. pose proof (ready_self _ _ _ s Hok) as Hr. unfold ReadObjectInternal.
  eapply runs_bind; [by apply runs_GetTag|]. intros tag s1 Hr1 [Hk1 _] (_ & Hc & Htag). cbv zeta.
  pose proof (ready_self _ _ _ s1 (proj1 Hr1)) as Hr1'.
  branch.
  { apply (runs_after_tag _ _ _ _ Hc). eapply runs_bind; [apply runs_GetVarint; [done|auto with v8]|]. intros v s2 Hr2 [Hk2 _] _.
    eapply runs_conseq; [by apply runs_value|lia|done|]. simpl. tauto. }
  do 4 (branch; [apply (runs_after_tag _ _ _ _ Hc); by apply runs_ret|]).
  branch; [apply (runs_after_tag _ _ _ _ Hc); eapply runs_prim; [apply handles_ReadZigZag32|by split|done|done]|].
  branch; [apply (runs_after_tag _ _ _ _ Hc); eapply runs_prim; [apply handles_GetVarint32| |done|done]|].
  { simpl. intros ? v Hv. apply (read_value_int O). lia. }
  branch; [apply (runs_after_tag _ _ _ _ Hc); eapply runs_prim; [apply handles_GetDouble| |done|done]|].
  { simpl. intros ? d [? Hd]. by rewrite Hd. }
  branch.
  { apply (runs_after_tag _ _ _ _ Hc). eapply runs_bind; [by eapply runs_handler; [apply handles_ReadBigInt|..]|].
    intros b s2 Hr2 _ [_ Hb]. by apply runs_ret. }
  branch; [apply (runs_after_tag _ _ _ _ Hc); eapply runs_prim; [by apply handles_ReadUtf8String| |done|done]|].
  { intros ? str. apply (read_value_string O). }
  branch; [apply (runs_after_tag _ _ _ _ Hc); eapply runs_prim; [apply handles_string, ReadOneByteString_range| |done|done]|].
  { intros ? str. apply (read_value_string O). }
  branch; [apply (runs_after_tag _ _ _ _ Hc); eapply runs_prim; [apply handles_string, ReadTwoByteString_range| |done|done]|].
  { intros ? str. apply (read_value_string O). }
  branch.
  { apply (runs_after_tag _ _ _ _ Hc). eapply runs_bind; [apply runs_GetVarint; [done|auto with v8]|]. intros id s2 Hr2 [Hk2 _] _.
    eapply runs_bind; [by apply runs_GetObjectWithID|]. intros r s3 Hr3 _ [-> ?]. by apply runs_ret. }
  branch; [apply (runs_after_tag _ _ _ _ Hc); gives handles_ReadJSObject|].
  branch; [apply (runs_after_tag _ _ _ _ Hc); gives handles_ReadSparseJSArray|].
  branch; [apply (runs_after_tag _ _ _ _ Hc); gives handles_ReadDenseJSArray|].
  branch; [apply (runs_after_tag _ _ _ _ Hc); gives handles_ReadJSDate|].
  branch; [apply (runs_after_tag _ _ _ _ Hc); gives handles_ReadJSPrimitiveWrapper|].
  branch; [apply (runs_after_tag _ _ _ _ Hc); gives handles_ReadJSRegExp|].
  branch; [apply (runs_after_tag _ _ _ _ Hc); gives handles_ReadJSMap|].
  branch; [apply (runs_after_tag _ _ _ _ Hc); gives handles_ReadJSSet|].
  do 3 (branch; [apply (runs_after_tag _ _ _ _ Hc); gives handles_ReadJSArrayBuffer|]).
  branch; [apply (runs_after_tag _ _ _ _ Hc); gives handles_ReadTransferredJSArrayBuffer|].
  branch; [apply (runs_after_tag _ _ _ _ Hc); gives handles_ReadJSArrayBuffer|].
  branch; [apply (runs_after_tag _ _ _ _ Hc); gives handles_ReadJSError|].
  branch.
  { eapply runs_bind; [by apply runs_ReadHostObject|]. intros r s2 Hr2 _ [Hlt Hc2]. apply runs_ret; [done|]. split; [done|].
    eapply consumed_trans; [exact Hc|apply Hc2]. }
  branch; [apply (runs_after_tag _ _ _ _ Hc); gives handles_ReadSharedObject|].
  branch; [|by apply runs_throws].
  eapply runs_bind; [by apply runs_get_position|]. intros b s2 _ _ [-> ->].
  set (s0 := mkR (tag :: position_ s1) (r_next_id_ s1) (r_id_map_ s1) (r_heap_ s1) (has_exception s1) (r_delegate_state s1)).
  assert (Hr2 : ready (position_ s) s0).
  { destruct Hr1 as [[H1 H2 H3 H4 _ _] _], Hok as [_ _ _ _ H5 H6]. split; [|done]. split; try done; [by eapply suffix_ok|].
    cbn [position_]. unfold short in *. apply suffix_short in Htag. simpl in *. lia. }
  eapply (runs_bind _ _ _ _ _ _ _ _ _ (fun _ s' => s' = s0)).
  { destruct Hr2 as [Hok2 Hp2]. split; [exact Hok2|]. split; [done|]. split; [exact Hp2|reflexivity]. }
  intros [] s2 _ _ ->. eapply runs_bind; [apply runs_ReadHostObject; [done|exact Hr2|done]|].
  intros r s2 Hr3 _ [Hlt Hc2]. apply runs_ret; [done|]. split; [done|]. cbn [position_] in Hc2. destruct Hc2 as [Hs2 Hl2].
  split; [by etrans|]. apply suffix_short in Htag. simpl in *. lia.
Qed.

(** The end of a read of a value from [s]. *)
Definition value_read (s : rstate D) (x : result js_value * rstate D) : Prop :=
  runs (length (r_heap_ s)) (position_ s) (fun _ => x) s
    (fun v s' => read_value (length (r_heap_ s')) v /\ consumed (position_ s) (position_ s')).

Lemma value_read_view s v s1 : value_read s (Just v, s1) -> state_ok des H0 Foreign s ->
  value_read s (match v with
    | Receiver r =>
        if is_array_buffer r s1 && bool_decide (PeekTag (position_ s1) = Some (tag_byte kArrayBufferView))
        then (ConsumeTag;; view ← ReadJSArrayBufferView des r; mret (Receiver view)) s1
        else (Just v, s1)
    | _ => (Just v, s1)
    end).
Proof using Env.
  intros Hv Hok. destruct v as [| | |r]; try done. destruct (is_array_buffer r s1) eqn:Hbuf; [|done]. case_bool_decide; [|done]. cbn [andb].
  destruct Hv as (Hok1 & Hk1 & Hp1 & _ & Hc).
  assert (Hview : runs (length (r_heap_ s)) (position_ s1) (ConsumeTag;; view ← ReadJSArrayBufferView des r; mret (Receiver view)) s1
    (fun v s' => read_value (length (r_heap_ s')) v)).
  { eapply runs_bind; [apply runs_ConsumeTag; by apply ready_self|]. intros _ s2 Hr2 [Hk2 _] [Hh2 _].
    unfold is_array_buffer in Hbuf. destruct (r_heap_ s1 !! r) as [o|] eqn:Ho; [|done]. apply bool_decide_eq_true in Hbuf as [b Hb].
    unfold array_buffer_of in Hb. destruct (instance_type o) as [| | | | | | | |b'| | | | | |] eqn:Ht; try done.
    eapply runs_bind; [eapply runs_conseq; [apply (handles_ReadJSArrayBufferView _ _ _ Env s2 r o b')|..]|].
    - apply Hr2.
    - by rewrite Hh2.
    - done.
    - destruct Hk1. lia.
    - apply Hr2.
    - intros view s' _ Hlt. exact Hlt.
    - intros view s3 Hr3 _ Hlt. by apply runs_ret. }
  set (m := ConsumeTag ≫= _) in *. unfold value_read, ReaderSafety.runs in *. destruct (m s1) as [[v| | |] s2]; try done.
  - destruct Hview as (? & Hk2 & Hp2 & ?). split; [done|]. split; [by eapply keeps_trans|]. split; [by etrans|].
    split; [done|by eapply consumed_trans].
  - destruct Hview as [? Hk2]. split; [done|by eapply keeps_trans].
Qed.

(** A buffer may be followed by a view of it. *)
Lemma reads_ReadObjectBody : reads_value (ReadObjectBody des ReadObject).
Proof using Env Hrec.
  intros s Hok. pose proof (handles_ReadObjectInternal s Hok) as Hi. change (value_read s (ReadObjectInternal des ReadObject s)) in Hi.
  change (value_read s (ReadObjectBody des ReadObject s)). unfold ReadObjectBody.
  destruct (ReadObjectInternal des ReadObject s) as [[v| | |] s1]; try done.
  - apply value_read_view in Hi; [|done].
    replace (match v with Receiver r => _ | _ => (Just v, s1) end) with (match v with
      | Receiver r =>
        if is_array_buffer r s1 && bool_decide (PeekTag (position_ s1) = Some (tag_byte kArrayBufferView))
        then (ConsumeTag;; view ← ReadJSArrayBufferView des r; mret (Receiver view)) s1
        else (Just v, s1)
      | _ => (Just v, s1) end) by (by destruct v).
    destruct (match v with Receiver r => _ | _ => _ end) as [[w| | |] s2]; try done.
    destruct (suppress_deserialization_errors_ des); [done|]. destruct Hi as [Hok2 Hk2].
    by split; [apply (state_ok_eq des H0 Foreign s2)|].
  - destruct (suppress_deserialization_errors_ des); [done|]. destruct Hi as [Hok2 Hk2].
    by split; [apply (state_ok_eq des H0 Foreign s1)|].
Qed.
End body.

(** Reading a value ends well whatever the bytes and the stack are. *)
Lemma reads_ReadObject stack : reads_value (ReadObject des stack).
Proof using Env.
  induction stack as [|stack IH]; cbn [ReadObject]; [|by apply reads_ReadObjectBody].
  intros s Hok. apply runs_throw. by apply ready_self.
Qed.
End dispatch.

(** ** Termination: the fuel of the loops is enough *)

Section fuel.
Context {D : Type} (des : deserializer D) (H0 : js_heap) (Foreign : receiver -> Prop) (Env : environment des H0 Foreign).
Context (ReadObject : R D js_value) (Hrec : reads_value des H0 Foreign ReadObject).

Abbreviation ready := (ready des H0 Foreign).

(** The same first part and the same rest where the first part ends. *)
Lemma runs_cong {A B} n p (m : R D A) (k k' : A -> R D B) s Q :
  runs des H0 Foreign n p m s Q -> (forall a s1, ready p s1 -> keeps n (r_heap_ s) (r_heap_ s1) -> Q a s1 -> k a s1 = k' a s1) ->
  (m ≫= k) s = (m ≫= k') s.
Proof.
  unfold runs, mbind, stateful_bind. destruct (m s) as [[a| | |] s1]; try done. intros (Hok & Hk & Hp & HQ) Heq. by apply Heq.
Qed.

Lemma map_entries_fuel n m r len s : state_ok des H0 Foreign s -> filling_map H0 r s ->
  (length (position_ s) < n)%nat -> (length (position_ s) < m)%nat ->
  read_map_entries ReadObject n r len s = read_map_entries ReadObject m r len s.
Proof using Env Hrec.
  revert m len s. induction n as [|n IH]; intros [|m] len s Hok Hf Hn Hm; try lia. cbn [read_map_entries].
  pose proof (ready_self _ _ _ s Hok) as Hr. pose proof (filling_map_lt _ _ _ Hf) as Hlt.
  eapply (runs_cong r _); [by apply runs_Peek|]. intros tag s0 _ _ [_ ->]. case_match; [done|].
  eapply (runs_cong r _); [apply (runs_value _ _ _ r); [done|done|lia]|]. intros k s1 Hr1 _ (Hk1 & Hk & _ & Hc1).
  apply (filling_map_keeps _ r s s1 Hlt Hk1) in Hf. clear Hlt. pose proof (filling_map_lt _ _ _ Hf) as Hlt.
  eapply (runs_cong r _); [apply (runs_value _ _ _ r); [done|done|lia]|]. intros v s2 Hr2 _ (Hk2 & Hv & _ & Hc2).
  apply (filling_map_keeps _ r s1 s2 Hlt Hk2) in Hf.
  eapply (runs_cong r (position_ s2)); [apply runs_CallMapSet; [by apply ready_self, Hr2|done|done| |done]|].
  { eapply read_value_mono; [apply Hk2|exact Hk]. }
  intros [] s3 Hr3 _ Hf3. destruct Hr3 as [Hok3 Hp3%suffix_short]. apply IH; [done|done|lia|lia].
Qed.

Lemma set_members_fuel n m r len s : state_ok des H0 Foreign s -> filling_set H0 r s ->
  (length (position_ s) < n)%nat -> (length (position_ s) < m)%nat ->
  read_set_members ReadObject n r len s = read_set_members ReadObject m r len s.
Proof using Env Hrec.
  revert m len s. induction n as [|n IH]; intros [|m] len s Hok Hf Hn Hm; try lia. cbn [read_set_members].
  pose proof (ready_self _ _ _ s Hok) as Hr. pose proof (filling_set_lt _ _ _ Hf) as Hlt.
  eapply (runs_cong r _); [by apply runs_Peek|]. intros tag s0 _ _ [_ ->]. case_match; [done|].
  eapply (runs_cong r _); [apply (runs_value _ _ _ r); [done|done|lia]|]. intros k s1 Hr1 _ (Hk1 & Hk & _ & Hc1).
  apply (filling_set_keeps _ r s s1 Hlt Hk1) in Hf.
  eapply (runs_cong r (position_ s1)); [apply runs_CallSetAdd; [by apply ready_self, Hr1|done|done|done]|].
  intros [] s3 Hr3 _ Hf3. destruct Hr3 as [Hok3 Hp3%suffix_short]. apply IH; [done|done|lia|lia].
Qed.

Lemma properties_slow_fuel n m r end_tag num s : state_ok des H0 Foreign s -> filling H0 r s ->
  (length (position_ s) < n)%nat -> (length (position_ s) < m)%nat ->
  read_properties_slow des ReadObject n r end_tag num s = read_properties_slow des ReadObject m r end_tag num s.
Proof using Env Hrec.
  revert m num s. induction n as [|n IH]; intros [|m] num s Hok Hf Hn Hm; try lia. cbn [read_properties_slow].
  pose proof (ready_self _ _ _ s Hok) as Hr. pose proof (filling_lt _ _ _ Hf) as Hlt.
  eapply (runs_cong r _); [by apply runs_Peek|]. intros tag s0 _ _ [_ ->]. case_match; [done|].
  eapply (runs_cong r _); [apply (runs_value _ _ _ r); [done|done|lia]|]. intros key s1 Hr1 _ (Hk1 & Hkey & _ & Hc1).
  apply (filling_keeps H0 _ r s s1 Hlt Hk1) in Hf. clear Hlt. pose proof (filling_lt _ _ _ Hf) as Hlt.
  eapply (runs_cong r _); [apply (runs_failing _ _ _ r _ _ _ (fun k s' => s' = s1 /\ key_ok k)); [done|]|].
  { intros k Hk. split; [done|]. by eapply key_of_value_ok. }
  intros k s2 _ _ [-> Hk].
  eapply (runs_cong r _); [apply (runs_value _ _ _ r); [done|done|lia]|]. intros v s2 Hr2 _ (Hk2 & Hv & _ & Hc2).
  apply (filling_keeps H0 _ r s1 s2 Hlt Hk2) in Hf.
  eapply (runs_cong r (position_ s2)); [apply runs_define_property; [by apply ready_self, Hr2|done|done|done|done]|].
  intros [] s3 Hr3 _ [Hf3 _]. destruct Hr3 as [Hok3 Hp3%suffix_short]. apply IH; [done|done|lia|lia].
Qed.

Lemma properties_fast_fuel n m r end_tag keys values s : state_ok des H0 Foreign s -> blank H0 r s ->
  gathered (length (r_heap_ s)) keys values -> (length (position_ s) < n)%nat -> (length (position_ s) < m)%nat ->
  read_properties_fast des ReadObject n r end_tag keys values s = read_properties_fast des ReadObject m r end_tag keys values s.
Proof using Env Hrec.
  revert m keys values s. induction n as [|n IH]; intros [|m] keys values s Hok Hb Hg Hn Hm; try lia. cbn [read_properties_fast].
  pose proof (ready_self _ _ _ s Hok) as Hr. pose proof (filling_lt _ _ _ (blank_filling _ _ _ Hb)) as Hlt.
  eapply (runs_cong r _); [by apply runs_Peek|]. intros tag s0 _ _ [_ ->]. case_match; [done|].
  eapply (runs_cong r _); [apply (runs_read_transition_key des H0 Foreign Env ReadObject Hrec r (position_ s)); [done|lia]|].
  intros [key transition] s1 Hr1 _ (Hk1 & Ht & Hkey). simpl in Ht, Hkey.
  apply (blank_keeps _ _ r s s1 Hlt Hk1) in Hb. apply (gathered_mono _ (length (r_heap_ s1))) in Hg; [|apply Hk1].
  clear Hlt. pose proof (filling_lt _ _ _ (blank_filling _ _ _ Hb)) as Hlt. pose proof (suffix_short _ _ (proj2 Hr1)) as Hl1.
  eapply (runs_cong r _); [apply (runs_value _ _ _ r); [done|done|lia]|]. intros v s2 Hr2 _ (Hk2 & Hv & _ & Hc2).
  apply (blank_keeps _ _ r s1 s2 Hlt Hk2) in Hb. apply (gathered_mono _ (length (r_heap_ s2))) in Hg; [|apply Hk2].
  unfold transition_fits. eapply (runs_cong r _); [apply (runs_read _ _ _ r _ (fun s => transition && FitsRepresentation des s _ v) _ (fun b s => s = s2 /\ (b = true -> transition = true)));
    [done|split; [done|by destruct transition]]|].
  intros fits s3 _ _ [-> Hfits]. destruct fits.
  - destruct (Ht (Hfits eq_refl)) as (k & -> & Hfresh). apply IH; [apply Hr2|done|by apply gathered_snoc|lia|lia].
  - eapply (runs_cong r (position_ s2)); [apply runs_CommitProperties; [by apply ready_self, Hr2|done|done|done]|]. intros [] s3 Hr3 Hk3 Hf. cbv beta in Hf.
    eapply (runs_cong r _); [apply (runs_failing _ _ _ r _ _ _ (fun k s' => s' = s3 /\ key_ok k)); [done|by auto]|].
    intros k s4 _ _ [-> Hk]. eapply (runs_cong r _); [apply runs_define_property; [done|done|done|done|]|].
    + eapply read_value_mono; [|exact Hv]. apply Hk3.
    + intros [] s5 Hr5 _ [Hf5 _]. pose proof (suffix_short _ _ (proj2 Hr5)). apply properties_slow_fuel; [apply Hr5|done|lia|lia].
Qed.
End fuel.
