(* ===== verification/Deserialization.v ===== *)
(** Deserialize on arbitrary bytes: it is safe, it builds well-typed heaps, failures are
    reported, and its loops end. *)
From S2P Require Import Prelude Conversions Engine WireFormat Serializer JSHeap ObjectWriter ObjectReader.
From S2P Require Import ObjectGraphs ObjectTypes ReaderSafety ReaderParts ReaderTheorems.

Section deserialize.
Context {D : Type} (des : deserializer D) (H0 : js_heap) (Foreign : receiver -> Prop) (Env : environment des H0 Foreign).

Abbreviation runs := (runs des H0 Foreign).
Abbreviation ready := (ready des H0 Foreign).
Abbreviation state_ok := (state_ok des H0 Foreign).

(** Versions and modes do not change what the reader relies on. *)
Lemma configure_environment version broken suppress : environment (configure des version broken suppress) H0 Foreign.
Proof using Env. by destruct Env; split. Qed.

Lemma configure_state version broken suppress s :
  state_ok s <-> ReaderSafety.state_ok (configure des version broken suppress) H0 Foreign s.
Proof using Type. by split; intros []; split. Qed.

(** A failure without suppressed errors leaves an exception. *)
Lemma ReadObject_throws stack s s' : suppress_deserialization_errors_ des = false ->
  ReadObject des stack s = (Nothing, s') -> has_exception s' = true.
Proof using Type.
  intros Hs. destruct stack as [|stack]; cbn [ReadObject]; [by intros [= <-]|]. unfold ReadObjectBody. rewrite Hs.
  destruct (ReadObjectInternal _ _ s) as [res s1].
  destruct (match res with Just (Receiver r) => _ | _ => _ end) as [[v| | |] s2]; try done. by intros [= <-].
Qed.

(** The end of an operation: success with [Q], or a failure; the objects of the heap are kept. *)
Definition ends {A} (s : rstate D) (x : result A * rstate D) (Q : A -> rstate D -> Prop) : Prop :=
  match x with
  | (Just a, s') => state_ok s' /\ keeps (length (r_heap_ s)) (r_heap_ s) (r_heap_ s') /\ Q a s'
  | (Nothing, s') => state_ok s' /\ keeps (length (r_heap_ s)) (r_heap_ s) (r_heap_ s')
  | _ => False
  end.

Definition is_value (v : js_value) (s : rstate D) : Prop := read_value (length (r_heap_ s)) v.

Lemma ReadObject_ends version broken suppress stack s : state_ok s ->
  ends s (ReadObject (configure des version broken suppress) stack s) is_value.
Proof using Env.
  intros Hok%(configure_state version broken suppress).
  pose proof (reads_ReadObject _ _ _ (configure_environment version broken suppress) stack s Hok) as Hr.
  unfold ReaderSafety.runs in Hr. unfold ends. destruct (ReadObject _ stack s) as [[v| | |] s1]; try done.
  - destruct Hr as (Hok1%configure_state & ? & _ & ? & _). done.
  - destruct Hr as (Hok1%configure_state & ?). done.
Qed.

Lemma ReadObjectWrapper_ends version stack s : state_ok s ->
  ends s (ReadObjectWrapper (configure des version false false) stack s) is_value /\
  ((ReadObjectWrapper (configure des version false false) stack s).1 = Nothing -> has_exception (ReadObjectWrapper (configure des version false false) stack s).2 = true).
Proof using Env.
  intros Hok. unfold ReadObjectWrapper. pose proof (ReadObject_ends version false true stack s Hok) as H1.
  change (configure (configure des version false false) (version_ (configure des version false false)) false true) with (configure des version false true).
  change (configure (configure des version false false) (version_ (configure des version false false)) true true) with (configure des version true true).
  destruct (ReadObject (configure des version false true) stack s) as [[v| | |] s1]; try done. destruct H1 as [Hok1 Hk1]. cbn [version_ configure].
  assert (Hthrow : forall s2, state_ok s2 -> keeps (length (r_heap_ s)) (r_heap_ s) (r_heap_ s2) ->
    ends s (throw s2) is_value /\ ((throw (A := js_value) s2).1 = Nothing -> has_exception (throw (A := js_value) s2).2 = true)).
  { intros s2 Hok2 Hk2. split; [|done]. split; [by apply (state_ok_eq des H0 Foreign s2)|done]. }
  destruct (_ && _); [|by apply Hthrow].
  unfold set_position, mbind, stateful_bind. set (s0 := mkR _ _ _ _ _ _).
  assert (Hok0 : state_ok s0).
  { destruct Hok1 as [A1 A2 A3 A4 _ _], Hok as [_ _ _ _ A5 A6]. split; done. }
  pose proof (ReadObject_ends version true true stack s0 Hok0) as H2. destruct (ReadObject _ stack s0) as [[v| | |] s2]; try done.
  - destruct H2 as (? & Hk2 & ?). split; [|done]. split; [done|]. split; [|done]. eapply keeps_trans; [done|].
    eapply keeps_weaken; [|done]. apply Hk1.
  - destruct H2 as (? & Hk2). apply Hthrow; [done|]. eapply keeps_trans; [done|]. eapply keeps_weaken; [|done]. apply Hk1.
Qed.

(** ** The legacy format *)

Lemma runs_or_throw {A} n p (m : R D A) s Q : runs n p m s Q -> runs n p (or_throw m) s Q.
Proof using Type.
  unfold ReaderSafety.runs, or_throw. destruct (m s) as [[a| | |] s1]; try done. intros [? ?].
  by split; [apply (state_ok_eq des H0 Foreign s1)|].
Qed.

Lemma runs_SetProperties n p r data s : ready p s -> (n <= r)%nat -> filling H0 r s -> Forall (read_value (length (r_heap_ s))) data ->
  runs n p (SetPropertiesFromKeyValuePairs des r data) s (fun _ s' => filling H0 r s').
Proof using Env.
  remember (length data) as m eqn:Hm. revert data s Hm. induction (lt_wf m) as [m _ IH]. intros [|key [|value data]] s -> Hr Hn Hf Hd;
    cbn [SetPropertiesFromKeyValuePairs]; [by apply runs_ret..|].
  inversion Hd as [|?? Hkey Hd1]; subst. inversion Hd1 as [|?? Hvalue Hd2]; subst.
  eapply runs_bind; [apply (runs_failing _ _ _ _ _ _ _ (fun k s' => s' = s /\ key_ok k)); [done|]|].
  { intros k Hk. split; [done|]. exact (key_of_value_ok des H0 Foreign Env _ _ _ Hkey Hk). }
  intros k s1 _ _ [-> Hk]. eapply runs_bind; [by apply runs_define_property|]. intros [] s1 Hr1 [Hk1 _] [Hf1 _].
  apply (IH (length data)); [simpl; lia|done|done|done|done|]. eapply Forall_impl; [exact Hd2|]. intros v. by apply read_value_mono.
Qed.

Lemma pop_properties_parts num values data rest (P : js_value -> Prop) : pop_properties num values = Some (data, rest) -> Forall P values ->
  Forall P data /\ Forall P rest.
Proof using Type.
  unfold pop_properties. case_match; [done|]. intros [= <- <-] HP. split; [by apply Forall_drop|by apply Forall_take].
Qed.

(** An operation that fails with an exception pending. *)
Definition reports {A} (x : result A * rstate D) : Prop := match x with (Nothing, s') => has_exception s' = true | _ => True end.

(** A run in which every failure is reported. *)
Definition reporting {A} n p (m : R D A) s (Q : A -> rstate D -> Prop) : Prop := runs n p m s Q /\ reports (m s).

Lemma reporting_bind {A B} n p (m : R D A) (k : A -> R D B) s Q Q' : reporting n p m s Q' ->
  (forall a s1, ready p s1 -> keeps n (r_heap_ s) (r_heap_ s1) -> Q' a s1 -> reporting n p (k a) s1 Q) -> reporting n p (m ≫= k) s Q.
Proof using Type.
  intros [Hm Hrep] Hk. split; [eapply runs_bind; [exact Hm|]; intros; by apply Hk|].
  unfold ReaderSafety.runs, reports, mbind, stateful_bind in *. destruct (m s) as [[a| | |] s1]; try done.
  destruct Hm as (? & ? & ? & ?). by apply Hk.
Qed.

Lemma reporting_root {A} n p (m : R D A) s Q : position_ s `suffix_of` p -> reporting n (position_ s) m s Q -> reporting n p m s Q.
Proof using Type. intros Hp [Hm ?]. split; [|done]. by eapply runs_conseq; [exact Hm|done|done|]. Qed.

Lemma reporting_or_throw {A} n p (m : R D A) s Q : runs n p m s Q -> reporting n p (or_throw m) s Q.
Proof using Type. intros Hm. split; [by apply runs_or_throw|]. unfold reports, or_throw. by destruct (m s) as [[a| | |] s1]. Qed.

Lemma reporting_ConsumeTag n p s tag : ready p s -> PeekTag (position_ s) = Some tag ->
  reporting n p ConsumeTag s (fun _ s' => same_heap s s' /\ consumed (position_ s) (position_ s')).
Proof using Type.
  intros Hr Ht. split; [by apply runs_ConsumeTag|]. unfold PeekTag in Ht. unfold reports, ConsumeTag, GetTag, lift, mbind, stateful_bind.
  by destruct (ReadTag (position_ s)) as [[t b]|].
Qed.

Lemma reporting_throw {A} n p s (Q : A -> rstate D -> Prop) : ready p s -> reporting n p throw s Q.
Proof using Type. intros Hr. split; [by apply runs_throw|done]. Qed.

(** The part of the legacy loop that makes an object from the values on the stack. *)
Lemma reporting_pop_object {A} n p o num values (k : list js_value -> R D A) s Q : ready p s -> (n <= length (r_heap_ s))%nat ->
  container o -> own_values O o -> Forall (read_value (length (r_heap_ s))) values ->
  (forall values s', ready p s' -> (n <= length (r_heap_ s'))%nat -> Forall (read_value (length (r_heap_ s'))) values -> reporting n p (k values) s' Q) ->
  reporting n p ('(data, values) ← or_throw (failing (pop_properties num values)); object ← allocate o;
    or_throw (SetPropertiesFromKeyValuePairs des object data);; k (values ++ [Receiver object])) s Q.
Proof using Env.
  intros Hr Hn Ho Hov Hv Hk. eapply reporting_bind; [apply reporting_or_throw, (runs_failing _ _ _ _ _ _ _ (fun dv s' => s' = s /\
    Forall (read_value (length (r_heap_ s))) dv.1 /\ Forall (read_value (length (r_heap_ s))) dv.2)); [done|]|].
  { intros [data rest] Hp. split; [done|]. by eapply pop_properties_parts. }
  intros [data rest] s1 _ _ (-> & Hdata & Hrest). simpl in Hdata, Hrest.
  eapply reporting_bind; [split; [apply runs_allocate; [done|done| |apply bounded_other; by apply container_no_buffer]|done]|].
  { left. apply container_made; [done|]. eapply own_values_mono; [|exact Hov]. lia. }
  intros r s1 Hr1 [Hk1 _] (-> & Hh & _).
  assert (Hup : forall v, read_value (length (r_heap_ s)) v -> read_value (length (r_heap_ s1)) v) by (intros v; apply read_value_mono; lia).
  assert (Hf : filling H0 (length (r_heap_ s)) s1).
  { split; [by apply (new_lt des H0 Foreign), Hr|]. exists o. rewrite Hh. split; [by apply list_lookup_middle|]. split; [done|].
    eapply own_values_mono; [|exact Hov]. lia. }
  eapply reporting_bind; [apply reporting_or_throw, runs_SetProperties; [done|done|exact Hf|by eapply Forall_impl]|].
  intros [] s2 Hr2 [Hk2 _] Hf2. apply Hk; [done|lia|]. apply Forall_app. split.
  - eapply Forall_impl; [exact Hrest|]. intros v Hw. apply Hup in Hw. by eapply read_value_mono.
  - apply Forall_singleton. simpl. by apply (filling_lt H0).
Qed.

Lemma reporting_eq {A} n p (m m' : R D A) s Q : m s = m' s -> reporting n p m' s Q -> reporting n p m s Q.
Proof using Type. unfold reporting, ReaderSafety.runs. by intros ->. Qed.

Lemma reporting_legacy stack fuel n p values s : suppress_deserialization_errors_ des = false -> ready p s -> (n <= length (r_heap_ s))%nat ->
  Forall (read_value (length (r_heap_ s))) values -> (length (position_ s) < fuel)%nat ->
  reporting n p (read_legacy des stack fuel values) s (fun values s' => Forall (read_value (length (r_heap_ s'))) values).
Proof using Env.
  intros Hsup. revert p values s. induction fuel as [|fuel IH]; intros p values s Hr Hn Hv Hfuel; [lia|]. cbn [read_legacy].
  destruct (PeekTag (position_ s)) as [tag|] eqn:Htag; cycle 1.
  { split; [|by unfold reports; rewrite Htag]. destruct Hr. unfold ReaderSafety.runs. by rewrite Htag. }
  assert (Hnext : forall (s1 : rstate D) values' s', consumed (position_ s) (position_ s1) -> ready (position_ s1) s' -> (n <= length (r_heap_ s'))%nat ->
    Forall (read_value (length (r_heap_ s'))) values' ->
    reporting n (position_ s1) (read_legacy des stack fuel values') s' (fun values s' => Forall (read_value (length (r_heap_ s'))) values)).
  { intros s1 values' s' [_ Hc] Hr' Hn' Hv'. apply IH; [done|done|done|]. pose proof (suffix_short _ _ (proj2 Hr')). lia. }
  destruct (is_tag tag kEndJSObject) eqn:Eobject; [|destruct (is_tag tag kEndSparseJSArray) eqn:Esparse; [|destruct (is_tag tag kEndDenseJSArray) eqn:Edense]].
  - eapply reporting_eq; [by rewrite Htag, Eobject|].
    eapply reporting_bind; [by eapply reporting_ConsumeTag|]. intros [] s1 Hr1 [Hk1 _] [Hh1 Hc1]. apply reporting_root; [apply Hr1|].
    eapply reporting_bind; [apply reporting_or_throw, runs_GetVarint; [by apply ready_self, Hr1|auto with v8]|].
    intros num s2 Hr2 [Hk2 _] (Hh2 & _). apply reporting_pop_object; [done|lia|apply new_object_container|by split; constructor|by rewrite Hh2, Hh1|].
    intros values' s' Hr' Hn' Hv'. by apply Hnext.
  - eapply reporting_eq; [by rewrite Htag, Eobject, Esparse|].
    eapply reporting_bind; [by eapply reporting_ConsumeTag|]. intros [] s1 Hr1 [Hk1 _] [Hh1 Hc1]. apply reporting_root; [apply Hr1|].
    eapply reporting_bind; [apply reporting_or_throw, runs_GetVarint; [by apply ready_self, Hr1|auto with v8]|].
    intros num s2 Hr2 [Hk2 _] (Hh2 & _).
    eapply reporting_bind; [apply reporting_or_throw, runs_GetVarint; [done|auto with v8]|].
    intros len s3 Hr3 [Hk3 _] (Hh3 & _ & Hlen).
    apply reporting_pop_object; [done|lia|by apply new_array_container|by split; constructor|by rewrite Hh3, Hh2, Hh1|].
    intros values' s' Hr' Hn' Hv'. by apply Hnext.
  - eapply reporting_eq; [by rewrite Htag, Eobject, Esparse, Edense|]. by apply reporting_throw.
  - eapply reporting_eq; [by rewrite Htag, Eobject, Esparse, Edense|]. eapply reporting_bind.
    { split; [apply runs_value; [by apply reads_ReadObject|done|done]|]. unfold reports.
      destruct (ReadObject des stack s) as [[v| | |] s1] eqn:Hread; try done. by apply (ReadObject_throws stack s). }
    intros v s1 Hr1 [Hk1 _] (_ & Hval & Hc1). apply reporting_root; [apply Hr1|]. apply Hnext; [done|by apply ready_self, Hr1|lia|].
    apply Forall_app. split; [|by apply Forall_singleton]. eapply Forall_impl; [exact Hv|]. intros w. by apply read_value_mono.
Qed.

Lemma reporting_ReadLegacyFormat stack s : suppress_deserialization_errors_ des = false -> state_ok s ->
  reporting (length (r_heap_ s)) (position_ s) (ReadObjectUsingEntireBufferForLegacyFormat des stack) s is_value.
Proof using Env.
  intros Hsup Hok. pose proof (ready_self _ _ _ s Hok) as Hr. unfold ReadObjectUsingEntireBufferForLegacyFormat.
  eapply reporting_bind; [split; [by apply runs_get_position|done]|]. intros b s0 _ _ [-> ->].
  eapply reporting_bind; [apply reporting_legacy; [done|done|done|constructor|lia]|]. intros values s1 Hr1 _ Hv. cbv beta in Hv.
  assert (Hr2 : ready (position_ s) (mkR [] (r_next_id_ s1) (r_id_map_ s1) (r_heap_ s1) (has_exception s1) (r_delegate_state s1))).
  { apply set_position_ready; [done|apply suffix_nil]. }
  eapply (reporting_bind _ _ _ _ _ _ (fun _ s' => same_heap s1 s')).
  { split; [|done]. destruct Hr2 as [Hok2 Hp2]. split; [exact Hok2|]. split; [done|]. split; [exact Hp2|done]. }
  intros [] s2 Hr3 _ Hh. destruct values as [|v [|w values]]; [by apply reporting_throw| |by apply reporting_throw].
  inversion Hv; subst. split; [|done]. apply runs_ret; [done|]. unfold is_value. by rewrite Hh.
Qed.
End deserialize.

(** ** The whole *)

Section whole.
Context {D : Type} (des : deserializer D) (heap : js_heap) (Foreign : receiver -> Prop) (Env : environment des heap Foreign).
Context (Hheap : forall r o, heap !! r = Some o -> bounded_buffer o).

Lemma new_deserializer_ok b (d : D) : bytes_ok b -> short b -> state_ok des heap Foreign (new_deserializer b heap d).
Proof using Hheap.
  intros Hb Hs. split; try done. intros r o Hr Ho. apply lookup_lt_Some in Ho. simpl in Ho. lia.
Qed.

Lemma ReadHeader_suffix b version b' : bytes_ok b -> ReadHeader b = Some (version, b') -> b' `suffix_of` b.
Proof using Type.
  intros Hb. unfold ReadHeader. destruct b as [|byte b0]; [by intros [= <- <-]|]. inversion Hb; subst. case_match; [|by intros [= <- <-]].
  rewrite <- ReadVarint_loop by (done || auto with v8). destruct (ReadVarint 32 b0) as [[v c]|] eqn:Hv; cbn; [|done]. case_match; [done|].
  intros [= <- <-]. apply ReadVarint_range in Hv as [_ [? _]]; [|auto with v8|done]. by apply suffix_cons_r.
Qed.

(** The end of [Deserialize]: a value, or a failure with an exception, in a well-formed state. *)
Lemma Deserialize_ends legacy stack b (d : D) : bytes_ok b -> short b ->
  ends des heap Foreign (new_deserializer b heap d) (Deserialize des legacy stack b heap d) (is_value) /\
  reports (Deserialize des legacy stack b heap d).
Proof using Env Hheap.
  intros Hb Hs. unfold Deserialize. destruct (ReadHeader b) as [[version b']|] eqn:Hhead; cycle 1.
  { split; [|done]. split; [|done]. by apply (state_ok_eq des heap Foreign (new_deserializer b heap d)); [..|apply new_deserializer_ok]. }
  apply ReadHeader_suffix in Hhead; [|done]. assert (Hb' : bytes_ok b') by by eapply suffix_ok.
  assert (Hs' : short b') by (unfold short in *; apply suffix_short in Hhead; lia).
  pose proof (new_deserializer_ok b' d Hb' Hs') as Hok. destruct (_ && _).
  { split; [|done]. split; [|done]. by apply (state_ok_eq des heap Foreign (new_deserializer b' heap d)). }
  destruct (version >? 0).
  - destruct (ReadObjectWrapper_ends des heap Foreign Env version stack _ Hok) as [He Hrep]. split; [exact He|].
    unfold reports. destruct (ReadObjectWrapper _ _ _) as [[| | |] s']; try done. by apply Hrep.
  - pose proof (configure_environment _ _ _ Env version false false) as Env'. apply (configure_state _ _ _ version false false) in Hok.
    destruct (reporting_ReadLegacyFormat _ _ _ Env' stack _ eq_refl Hok) as [He Hrep]. split; [|exact Hrep].
    unfold ReaderSafety.runs, ends in *. destruct (ReadObjectUsingEntireBufferForLegacyFormat _ _ _) as [[v| | |] s']; try done.
    + destruct He as (Hok1%configure_state & Hk & _ & Hv). done.
    + destruct He as (Hok1%configure_state & Hk). done.
Qed.
End whole.

(** C6. Deserialize is safe on any bytes shorter than 2^27 - 8, in every version and format,
    without a conveyor of shared values, when the engine and the delegate are as
    [environment] says (host objects take a byte at least) and the buffers of the heap are
    not longer than the greatest byte length: it never aborts the process nor reaches
    undefined behaviour, it gives a value or fails with an exception pending, and either way
    the objects that were in the heap are as they were. Longer data can abort
    ([long_bigint_aborts]). *)
Theorem deserialize_safe {D} (des : deserializer D) heap Foreign legacy stack b (d : D) :
  environment des heap Foreign -> (forall r o, heap !! r = Some o -> bounded_buffer o) -> bytes_ok b -> short b ->
  let '(result, s) := Deserialize des legacy stack b heap d in
  ((exists v, result = Just v) \/ (result = Nothing /\ has_exception s = true)) /\ keeps (length heap) heap (r_heap_ s).
Proof.
  intros Env Hheap Hb Hs. destruct (Deserialize_ends des heap Foreign Env Hheap legacy stack b d Hb Hs) as [He Hrep].
  destruct (Deserialize des legacy stack b heap d) as [[v| | |] s]; try done.
  - destruct He as (_ & Hk & _). split; [|done]. left. by exists v.
  - destruct He as (_ & Hk). split; [|done]. by right.
Qed.

(** C7. What Deserialize builds from any bytes shorter than 2^27 - 8 is well typed, without a
    conveyor of shared values and in an [environment] as for [deserialize_safe]: every object
    it makes is an object of the delegate or data ([instance_ok]: properties in order and different, keys of maps and sets different
    under SameValueZero, views in the bounds of their buffers, canonical numbers, strings and
    BigInts, flags of regular expressions that are valid) and refers to objects of the heap
    only, and so does the value. *)
Theorem deserialize_well_typed {D} (des : deserializer D) heap Foreign legacy stack b (d : D) :
  environment des heap Foreign -> (forall r o, heap !! r = Some o -> bounded_buffer o) -> bytes_ok b -> short b ->
  let '(result, s) := Deserialize des legacy stack b heap d in
  (forall r o, (length heap <= r)%nat -> r_heap_ s !! r = Some o -> made des (r_heap_ s) o \/ Foreign o) /\
  (forall id r, r_id_map_ s !! id = Some r -> (r < length (r_heap_ s))%nat) /\
  (forall v, result = Just v -> read_value (length (r_heap_ s)) v).
Proof.
  intros Env Hheap Hb Hs. destruct (Deserialize_ends des heap Foreign Env Hheap legacy stack b d Hb Hs) as [He _].
  destruct (Deserialize des legacy stack b heap d) as [[v| | |] s]; try done.
  - destruct He as ([] & _ & Hv). split_all; [done|done|]. by intros w [= <-].
  - destruct He as ([] & _). by split_all.
Qed.

(** The loops of the reader end: each round takes a byte at least, so that any fuel above
    the number of bytes that are left gives the same result. *)
Theorem reader_loops_end {D} (des : deserializer D) heap Foreign stack n m r (s : rstate D) :
  environment des heap Foreign -> state_ok des heap Foreign s -> (length (position_ s) < n)%nat -> (length (position_ s) < m)%nat ->
  (filling_map heap r s -> forall len, read_map_entries (ReadObject des stack) n r len s = read_map_entries (ReadObject des stack) m r len s) /\
  (filling_set heap r s -> forall len, read_set_members (ReadObject des stack) n r len s = read_set_members (ReadObject des stack) m r len s) /\
  (filling heap r s -> forall end_tag num,
    read_properties_slow des (ReadObject des stack) n r end_tag num s = read_properties_slow des (ReadObject des stack) m r end_tag num s) /\
  (blank heap r s -> forall end_tag keys values, gathered (length (r_heap_ s)) keys values ->
    read_properties_fast des (ReadObject des stack) n r end_tag keys values s = read_properties_fast des (ReadObject des stack) m r end_tag keys values s).
Proof.
  intros Env Hok Hn Hm. pose proof (reads_ReadObject des heap Foreign Env stack) as Hrec. split_all; intros.
  - by eapply map_entries_fuel.
  - by eapply set_members_fuel.
  - by eapply properties_slow_fuel.
  - by eapply properties_fast_fuel.
Qed.
