(* ===== verification/DeserializationExamples.v ===== *)
(** Concrete deserializers and malformed data, on which the theorems of Deserialization.v
    apply. *)
From S2P Require Import Prelude Conversions Engine WireFormat Serializer JSHeap ObjectWriter ObjectReader.
From S2P Require Import ObjectGraphs ObjectTypes ReaderSafety ReaderParts ReaderTheorems Deserialization.
From Stdlib Require Import Ascii.

(** ** Numbers in decimal *)

Fixpoint decimal (fuel : nat) (n : Z) : list Z :=
  match fuel with
  | O => []
  | S fuel => if n <? 10 then [48 + n] else decimal fuel (n / 10) ++ [48 + n mod 10]
  end.

Lemma index_digits_snoc l c r : index_digits (l ++ [c]) r = r ← index_digits l r; index_digits [c] r.
Proof.
  revert r. induction l as [|x l IH]; intros r; [done|]. cbn [app index_digits]. destruct (_ && _); [|done].
  destruct (_ <=? kMaxSafeInteger); [apply IH|done].
Qed.

Lemma index_digit d r : 0 <= d < 10 -> r * 10 + d <= kMaxSafeInteger -> index_digits [48 + d] r = Some (r * 10 + d).
Proof.
  intros Hd Hr. cbn [index_digits]. change (char_code "0") with 48. change (char_code "9") with 57.
  destruct (Z.leb_spec 48 (48 + d)); [|lia]. destruct (Z.leb_spec (48 + d) 57); [|lia]. cbn [andb].
  replace (r * 10 + (48 + d - 48)) with (r * 10 + d) by lia. by destruct (Z.leb_spec (r * 10 + d) kMaxSafeInteger); [|lia].
Qed.

Lemma decimal_digits fuel n : (0 < fuel)%nat -> 1 <= n < 10 ^ Z.of_nat fuel -> n <= kMaxSafeInteger ->
  exists d l, decimal fuel n = 48 + d :: l /\ 1 <= d < 10 /\ index_digits l d = Some n.
Proof.
  revert n. induction fuel as [|fuel IH]; intros n Hf Hn Hmax; [lia|]. cbn [decimal]. destruct (Z.ltb_spec n 10); [exists n, []; split_all; [done|lia|lia|done]|].
  rewrite Nat2Z.inj_succ, Z.pow_succ_r in Hn by lia.
  assert (fuel <> O) by (intros ->; simpl in Hn; lia).
  destruct (IH (n / 10)) as (d & l & -> & Hd & Hl); [lia|split; [apply Z.div_le_lower_bound; lia|apply Z.div_lt_upper_bound; lia]| |].
  { unfold kMaxSafeInteger in *. Z.to_euclidean_division_equations; lia. }
  exists d, (l ++ [48 + n mod 10]). split; [done|]. split; [done|]. rewrite index_digits_snoc, Hl. cbn [mbind option_bind].
  pose proof (Z.div_mod n 10 ltac:(lia)). pose proof (Z.mod_pos_bound n 10 ltac:(lia)). rewrite index_digit by lia. f_equal. lia.
Qed.

Lemma decimal_length fuel n : (length (decimal fuel n) <= fuel)%nat.
Proof. revert n. induction fuel as [|fuel IH]; intros n; cbn [decimal]; [done|]. case_match; [simpl; lia|]. rewrite length_app. specialize (IH (n / 10)). simpl. lia. Qed.

Lemma decimal_ok fuel n : 0 <= n -> Forall byte_ok (decimal fuel n).
Proof.
  revert n. induction fuel as [|fuel IH]; intros n Hn; cbn [decimal]; [constructor|]. unfold byte_ok in *. destruct (Z.ltb_spec n 10).
  - repeat constructor; lia.
  - pose proof (Z.mod_pos_bound n 10 ltac:(lia)). apply Forall_app. split; [apply IH; apply Z.div_pos; lia|]. repeat constructor; lia.
Qed.

Lemma AsIntegerIndex_decimal i : 0 <= i <= kMaxSafeInteger -> AsIntegerIndex (OneByte (decimal 16 i)) = Some i.
Proof.
  intros Hi. unfold AsIntegerIndex. cbn [chars_of]. pose proof (decimal_length 16 i) as Hlen.
  destruct (decide (i = 0)) as [->|]; [by vm_compute|].
  destruct (decimal_digits 16 i) as (d & l & He & Hd & Hl); [lia|unfold kMaxSafeInteger in *; lia|lia|]. rewrite He in *. cbn [length] in *.
  unfold kMaxIntegerIndexSize. destruct (Z.eqb_spec (Z.of_nat (S (length l))) 0); [lia|]. destruct (Z.gtb_spec (Z.of_nat (S (length l))) 16); [lia|].
  cbn [orb StringToIndex]. change (char_code "0") with 48. change (char_code "9") with 57.
  destruct (Z.eqb_spec (48 + d) 48); [lia|]. destruct (Z.leb_spec 48 (48 + d)); [|lia]. destruct (Z.leb_spec (48 + d) 57); [|lia]. cbn [andb].
  by replace (48 + d - 48) with d by lia.
Qed.

Definition print_number (p : primitive) : flat_string :=
  match ToIntegerIndex p with Some i => OneByte (decimal 16 i) | None => OneByte [] end.

Lemma ToIntegerIndex_max p i : primitive_ok p -> ToIntegerIndex p = Some i -> 0 <= i <= kMaxSafeInteger.
Proof.
  intros Hp Hi. split; [by eapply ToIntegerIndex_nonneg|]. destruct p as [| | | |n|d|s]; cbn in Hi; try done.
  - destruct (n <? 0); simplify_eq. unfold kMaxSafeInteger. simpl in Hp. lia.
  - destruct (isnan d); [done|]. destruct (ge_int d 0) eqn:Hg; [|done]. destruct (le_int d _) eqn:Hl; [|done]. cbn in Hi.
    destruct (_ =? _); [|done]. simplify_eq. by pose proof (trunc_bounds d 0 kMaxSafeInteger ltac:(done) Hl Hg) as [_ ?].
Qed.

(** ** A deserializer *)

(** Its delegate makes an object from one byte, and it knows one transition. *)
Definition one_byte_delegate : DeserializerDelegate Unit :=
  mkReadDelegate Unit (fun b d => match b with [] => (Nothing, true, d) | _ :: b => (Just (NewJSObject, b), false, d) end)
    (fun _ d => (Nothing, true, d)) None.

Definition one_transition (keys : list flat_string) (key : flat_string) : bool := bool_decide (keys = [] /\ key = str "a").

Definition safe_deserializer : deserializer Unit :=
  mkDeserializer Unit (Some one_byte_delegate) 0 false false None 0 (fun _ => one_transition) (fun _ => one_transition) (fun _ _ _ => true)
    print_number (fun _ => None) (fun _ _ => true) false false (fun _ _ _ => true).

Definition is_new_object (o : receiver) : Prop := o = NewJSObject.

Lemma one_transition_fresh keys key : one_transition keys key = true -> fresh_name keys key.
Proof.
  intros [-> ->]%bool_decide_eq_true. split; [by apply literal_ok|]. split; [by vm_compute|by apply not_elem_of_nil].
Qed.

Lemma safe_environment heap : environment safe_deserializer heap is_new_object.
Proof.
  split; try done.
  - intros p Hp. cbn. unfold print_number. destruct (ToIntegerIndex p) as [i|] eqn:Hi; [|by split; [constructor|]].
    pose proof (ToIntegerIndex_max p i Hp Hi). pose proof (decimal_length 16 i). split; [apply decimal_ok; lia|unfold kMaxLength; lia].
  - intros p i Hp Hi. cbn. unfold print_number. rewrite Hi. apply AsIntegerIndex_decimal. by eapply ToIntegerIndex_max.
  - intros s keys key. apply one_transition_fresh.
  - intros s keys key. apply one_transition_fresh.
  - intros d b ds [= <-] Hb. cbn. destruct b as [|byte b]; [done|]. cbn. split; [by apply consumed_cons|]. split; [done|]. by intros ? ?.
  - intros d id ds [= <-]. done.
  - by intros d [= <-].
Qed.

(** An object whose property [a] refers to the object, then a view that is out of bounds. *)
Definition good_bytes : bytes := [255; 15; 111; 34; 1; 97; 94; 0; 123; 1].
Definition bad_bytes : bytes := [255; 15; 111; 34; 1; 97; 66; 2; 7; 9; 86; 66; 1; 9; 0; 123; 1].

Lemma good_ok : bytes_ok good_bytes.
Proof. apply (bool_decide_unpack _). by vm_compute. Qed.
Lemma bad_ok : bytes_ok bad_bytes.
Proof. apply (bool_decide_unpack _). by vm_compute. Qed.

Lemma deserialize_safe_witness :
  let '(result, s) := Deserialize safe_deserializer false 4 bad_bytes [NewJSObject] tt in
  ((exists v, result = Just v) \/ (result = Nothing /\ has_exception s = true)) /\ keeps 1 [NewJSObject] (r_heap_ s).
Proof.
  apply (deserialize_safe safe_deserializer [NewJSObject] is_new_object false 4 bad_bytes tt); [apply safe_environment| |apply bad_ok|done].
  by intros [|r] o [= <-].
Defined.

Lemma deserialize_well_typed_witness :
  let '(result, s) := Deserialize safe_deserializer false 4 good_bytes [] tt in
  (forall r o, (0 <= r)%nat -> r_heap_ s !! r = Some o -> made safe_deserializer (r_heap_ s) o \/ is_new_object o) /\
  (forall id r, r_id_map_ s !! id = Some r -> (r < length (r_heap_ s))%nat) /\
  (forall v, result = Just v -> read_value (length (r_heap_ s)) v).
Proof.
  apply (deserialize_well_typed safe_deserializer [] is_new_object false 4 good_bytes tt); [apply safe_environment|done|apply good_ok|done].
Defined.

Example good_bytes_read : exists s, Deserialize safe_deserializer false 4 good_bytes [] tt = (Just (Receiver 0), s) /\
  r_heap_ s = [mkReceiver (JSObject true ordinary) [] [(str "a", data_property (Receiver 0))]].
Proof. eexists. split; [vm_compute; reflexivity|done]. Qed.

Example bad_bytes_refused : exists s, Deserialize safe_deserializer false 4 bad_bytes [] tt = (Nothing, s) /\ has_exception s = true.
Proof. eexists. split; [vm_compute; reflexivity|done]. Qed.

(** A set that is read. *)
Definition set_state : rstate Unit := mkR [73; 2; 73; 2; 44; 1] 1 {[ 0 := O ]} [mkReceiver (JSSet []) [] []] false tt.

Lemma set_state_ok : state_ok safe_deserializer [] is_new_object set_state.
Proof.
  split; cbn; try done.
  - intros [|r] o _ [= <-]. left. apply set_made. split; [constructor|split; [apply NoDup_nil_2|constructor]].
  - split; [simpl; lia|lia].
  - by intros [|r] o [= <-].
  - intros id r. rewrite lookup_singleton_Some. intros [_ <-]. lia.
  - apply (bool_decide_unpack _). by vm_compute.
Qed.

Lemma reader_loops_end_witness :
  read_set_members (ReadObject safe_deserializer 2) 7 0 0 set_state = read_set_members (ReadObject safe_deserializer 2) 100 0 0 set_state.
Proof.
  apply (reader_loops_end safe_deserializer [] is_new_object 2 7 100 0 set_state); [apply safe_environment|apply set_state_ok|simpl; lia|simpl; lia|].
  split; [simpl; lia|]. exists []. split; [done|]. split; [constructor|split; [apply NoDup_nil_2|constructor]].
Defined.
