(* ===== verification/SerializerFailures.v ===== *)
(** Where structured cloning fails: identifiers of the serializer and the deserializer that
    do not agree. *)
From S2P Require Import Prelude Conversions Engine WireFormat Serializer JSHeap ObjectWriter ObjectReader.
From S2P Require Import ObjectGraphs ObjectTheorems ObjectTypes ReaderSafety DeserializationExamples.

(** ** Data of version 13 in the broken format *)

(** An object whose property [a] is the object itself and whose property [v] is a view of a
    resizable buffer, written with flags: version 14, and the broken data of version 13. *)
Definition flagged_view (version : Z) : bytes :=
  [255; version; 111; 34; 1; 97; 94; 0; 34; 1; 118; 126; 1; 2; 7; 86; 66; 0; 1; 2; 123; 2].

Definition property_a (x : result js_value * rstate Unit) : option js_value :=
  match x with
  | (Just (Receiver r), s) => r_heap_ s !! r ≫= fun o => data_of <$> find_named (str "a") (named o)
  | _ => None
  end.

(** The second attempt of ReadObjectWrapper on broken data of version 13 keeps the
    identifiers of the first: a reference in the data leads to the object that the first
    attempt left unfinished, not to the object that is returned. The same data in version 14
    refers to the object itself. *)
Theorem version_13_retry_aliases :
  (exists s, Deserialize safe_deserializer false 4 (flagged_view 14) [] tt = (Just (Receiver 0), s) /\
    property_a (Just (Receiver 0), s) = Some (Receiver 0)) /\
  (exists r s, Deserialize safe_deserializer false 4 (flagged_view 13) [] tt = (Just (Receiver r), s) /\
    property_a (Just (Receiver r), s) = Some (Receiver 0) /\ r <> O /\ r_heap_ s !! O = Some NewJSObject).
Proof.
  split.
  - eexists. split; [vm_compute; reflexivity|by vm_compute].
  - eexists _, _. split; [vm_compute; reflexivity|]. split_all; by vm_compute.
Qed.

(** ** Shared objects *)

(** An array that holds a shared object and twice the same object. *)
Definition shared_heap : js_heap := [
  mkReceiver (JSArray PACKED_ELEMENTS 3) [(0, data_property (Receiver 1)); (1, data_property (Receiver 2)); (2, data_property (Receiver 2))] [];
  mkReceiver (JSShared 5) [] [];
  NewJSObject
].

(** Both ends have the conveyor. *)
Definition shared_serializer : serializer Unit :=
  mkSerializer Unit (Some (mkDelegate Unit false (fun _ => Just false) (fun _ d => (Nothing, d)) (fun _ d => (Nothing, d)) true))
    false ∅ true Some (fun _ _ h => (None, h)) (fun v h => (string_of v, h)).
Definition shared_deserializer : deserializer Unit :=
  mkDeserializer Unit (Some (mkReadDelegate Unit (fun _ d => (Nothing, true, d)) (fun _ d => (Nothing, true, d)) (Some [5%nat])))
    0 false false None 0 (fun _ => one_transition) (fun _ => one_transition) (fun _ _ _ => true)
    print_number (fun _ => None) (fun _ _ => true) false false (fun _ _ _ => true).

(** Actions that give out no identifier. *)
Definition ids_kept {D A} (m : W D A) : Prop := forall s a s', m s = (a, s') -> id_map_ s' = id_map_ s /\ next_id_ s' = next_id_ s.
Definition r_ids_kept {D A} (m : R D A) : Prop := forall s a s', m s = (a, s') -> r_id_map_ s' = r_id_map_ s /\ r_next_id_ s' = r_next_id_ s.

Lemma ids_kept_bind {D A B} (m : W D A) (k : A -> W D B) : ids_kept m -> (forall a, ids_kept (k a)) -> ids_kept (m ≫= k).
Proof.
  intros Hm Hk s b s'. unfold mbind, stateful_bind. destruct (m s) as [[a| | |] s1] eqn:E; intros H; try (injection H as <- <-; exact (Hm _ _ _ E)).
  destruct (Hm _ _ _ E) as [<- <-]. exact (Hk _ _ _ _ H).
Qed.

Lemma r_ids_kept_bind {D A B} (m : R D A) (k : A -> R D B) : r_ids_kept m -> (forall a, r_ids_kept (k a)) -> r_ids_kept (m ≫= k).
Proof.
  intros Hm Hk s b s'. unfold mbind, stateful_bind. destruct (m s) as [[a| | |] s1] eqn:E; intros H; try (injection H as <- <-; exact (Hm _ _ _ E)).
  destruct (Hm _ _ _ E) as [<- <-]. exact (Hk _ _ _ _ H).
Qed.

Lemma ids_kept_raw {D} (ser : serializer D) b : ids_kept (WriteRawBytes ser b).
Proof. intros s a s'. unfold WriteRawBytes, ExpandBuffer. repeat case_match; intros; by simplify_eq/=. Qed.

Lemma ids_kept_WriteSharedObject {D} (ser : serializer D) id : ids_kept (WriteSharedObject ser id).
Proof.
  unfold WriteSharedObject. destruct (delegate_ ser) as [d|]; [|intros s x s' H; by injection H as <- <-].
  destruct (has_shared_space ser); [|intros s x s' H; by injection H as <- <-].
  repeat (apply ids_kept_bind; [|intros ?]); try apply ids_kept_raw.
  - intros s x s'. repeat case_match; intros; by simplify_eq.
  - intros s x s' H. by injection H as <- <-.
  - intros s x s'. unfold ThrowIfOutOfMemory. case_match; intros E; by injection E as <- <-.
Qed.

Lemma r_ids_kept_ReadSharedObject {D} (des : deserializer D) : r_ids_kept (ReadSharedObject des).
Proof.
  unfold ReadSharedObject. apply r_ids_kept_bind; [|intros id]; [|repeat case_match].
  all: intros s x s' E; revert E; unfold GetVarint, lift, throw, shared_reference, allocate, undefined_behaviour; cbv beta zeta; repeat case_match; intros; by simplify_eq/=.
Qed.

(** C40. The serializer gives an identifier to every shared object it meets for the first time,
    and the deserializer gives none to a shared object it reads, so that the references after
    it are off by one. Serializing an array that holds a shared object and twice another one
    succeeds and cannot be read. *)
Theorem shared_objects_shift_references :
  (forall D (ser : serializer D) WriteObject r o id s s', heap_ s !! r = Some o -> instance_type o = JSShared id -> id_map_ s !! r = None ->
     WriteJSReceiver ser (Some WriteObject) r s = (Just tt, s') ->
     next_id_ s' = wrap 32 (next_id_ s + 1) /\ id_map_ s' = <[r := next_id_ s']> (id_map_ s)) /\
  (forall D (des : deserializer D) s res s', ReadSharedObject des s = (res, s') -> r_next_id_ s' = r_next_id_ s /\ r_id_map_ s' = r_id_map_ s) /\
  (exists b s, Serialize shared_serializer 4 shared_heap tt (Receiver 0) = Some b /\
    Deserialize shared_deserializer false 5 b [] tt = (Nothing, s) /\ has_exception s = true).
Proof.
  split_all.
  - intros D ser WriteObject r o id s s' Ho Ht Hn Hw. unfold WriteJSReceiver in Hw. apply bind_inv in Hw as (found & s1 & Ha & Hw).
    unfold assign_id in Ha. rewrite Hn in Ha. injection Ha as <- <-. apply bind_inv in Hw as (o1 & s2 & Hr & Hw).
    unfold receiver_at in Hr. cbn [heap_] in Hr. rewrite Ho in Hr. injection Hr as <- <-. rewrite Ht in Hw.
    destruct (ids_kept_WriteSharedObject ser id _ _ _ Hw) as [Hm Hi]. cbn [id_map_ next_id_] in Hm, Hi. by rewrite Hm, Hi.
  - intros D des s res s' Hr. by destruct (r_ids_kept_ReadSharedObject des s res s' Hr).
  - eexists _, _. split; [vm_compute; reflexivity|]. split; [vm_compute; reflexivity|by vm_compute].
Qed.

(** The shared object alone can be read. *)
Example shared_object_read : exists b s, Serialize shared_serializer 4 shared_heap tt (Receiver 1) = Some b /\
  Deserialize shared_deserializer false 5 b [] tt = (Just (Receiver 0), s) /\ r_heap_ s = [mkReceiver (JSShared 5) [] []].
Proof. eexists _, _. split; [vm_compute; reflexivity|]. split; [vm_compute; reflexivity|by vm_compute]. Qed.

(** Writing the shared object gives it the identifier 1; reading it gives none. *)
Lemma shared_objects_shift_references_witness :
  (exists s', WriteJSReceiver shared_serializer (Some (WriteObject shared_serializer 3)) 1 (new_serializer shared_heap tt) = (Just tt, s') /\
    next_id_ s' = 1 /\ id_map_ s' = {[ 1%nat := 1 ]}) /\
  (exists s', ReadSharedObject shared_deserializer (new_deserializer [0] [] tt) = (Just 0%nat, s') /\ r_next_id_ s' = 0).
Proof.
  destruct shared_objects_shift_references as (H1 & H2 & _). split.
  - destruct (WriteJSReceiver shared_serializer (Some (WriteObject shared_serializer 3)) 1 (new_serializer shared_heap tt)) as [res s'] eqn:E.
    assert (res = Just tt) as -> by (vm_compute in E; by injection E as <- _).
    exists s'. split; [reflexivity|]. destruct (H1 _ shared_serializer _ 1%nat (mkReceiver (JSShared 5) [] []) 5%nat (new_serializer shared_heap tt) s' eq_refl eq_refl eq_refl E) as [Hn Hm].
    rewrite Hm, Hn. split; reflexivity.
  - destruct (ReadSharedObject shared_deserializer (new_deserializer [0] [] tt)) as [res s'] eqn:E.
    destruct (H2 _ shared_deserializer (new_deserializer [0] [] tt) res s' E) as [Hn _]. exists s'. split; [|exact Hn]. by vm_compute in E; injection E as <- _.
Defined.
