(* ===== verification/WriterPaths.v ===== *)
(** The paths of the serializer for fast objects: reading the fields along the map gives the
    data that the general path gives, whatever the getters that run in between do. *)
From S2P Require Import Prelude Conversions Engine WireFormat Serializer JSHeap ObjectWriter ObjectReader ObjectGraphs ObjectTheorems.

Lemma bind_ext {S A B} (m : stateful S A) (k k' : A -> stateful S B) s :
  (forall a s1, k a s1 = k' a s1) -> (m ≫= k) s = (m ≫= k') s.
Proof. intros Hk. unfold mbind, stateful_bind. destruct (m s) as [[a| | |] s1]; by rewrite ?Hk. Qed.

Section paths.
Context {D : Type} (ser : serializer D) (WriteObject : js_value -> W D Unit) (r : ref).

(** The field of a descriptor of the map that the object still has. *)
Lemma field_of_map o key : NoDup (chars_of ∘ fst <$> named o) -> (key, (true, true)) ∈ (map_of o).2 ->
  exists v, find_named key (named o) = Some (mkProperty true (Data v)).
Proof.
  intros Hd. unfold map_of. cbn [snd]. intros ([k [e w]] & Hk & Hin)%list_elem_of_fmap.
  destruct w as [v|]; simplify_eq/=. exists v. by apply find_named_Some.
Qed.

Lemma map_of_names o o' : map_of o = map_of o' -> (chars_of ∘ fst <$> named o') = (chars_of ∘ fst <$> named o).
Proof.
  intros [= _ Hn]. apply (f_equal (fmap (fun d => chars_of d.1))) in Hn. rewrite <- !list_fmap_compose in Hn.
  assert (Heq : forall l, ((fun d : flat_string * (bool * bool) => chars_of d.1) ∘ (fun '(k, p) => (k, (enumerable p, is_field (what p))))) <$> l =
    (chars_of ∘ fst <$> l)) by (intros l; apply list_fmap_ext; by intros _ [k p] _).
  by rewrite !Heq in Hn.
Qed.

Lemma fast_lookup o key : (map_of o).1 = true -> own_lookup o (Name key) = find_named key (named o).
Proof. unfold map_of, has_fast_properties, own_lookup. cbn. by destruct (instance_type o). Qed.

Definition keys_of (descriptors : list (flat_string * (bool * bool))) : list primitive :=
  (fun d => Str d.1) <$> filter (fun d => d.2.1 = true) descriptors.

Lemma fast_is_slow o descriptors changed n s :
  NoDup (chars_of ∘ fst <$> named o) -> has_fast_properties o = true -> Forall is_name (named o).*1 -> descriptors ⊆ (map_of o).2 ->
  write_fast_properties ser WriteObject r (map_of o) descriptors changed n s =
  write_properties ser WriteObject r (keys_of descriptors) n s.
Proof.
  intros Hd Hfast Hnames. revert changed n s. induction descriptors as [|[key [enum field]] ds IH]; intros changed n s Hsub; [done|].
  assert (Hkey : (key, (enum, field)) ∈ (map_of o).2) by (apply Hsub; left).
  assert (Hsub' : ds ⊆ (map_of o).2) by (intros x Hx; apply Hsub; by right).
  cbn [write_fast_properties]. unfold keys_of. rewrite filter_cons. cbn [snd fst]. fold (keys_of ds).
  destruct enum; cbn [negb]; [rewrite decide_True by done|rewrite decide_False by done; by apply IH].
  rewrite fmap_cons. cbn [write_properties fst]. apply bind_ext. intros o' s1.
  assert (Hname : is_name key).
  { unfold map_of in Hkey. cbn [snd] in Hkey. apply list_elem_of_fmap in Hkey as ([k p] & Hk & Hin). simplify_eq.
    eapply Forall_forall in Hnames; [exact Hnames|]. by apply (list_elem_of_fmap_2 fst) in Hin. }
  replace (key_of (Str key)) with (Name key) by (symmetry; exact Hname).
  set (changed' := changed || _). destruct (negb changed' && field) eqn:E.
  - apply andb_prop in E as [Hch ->]. apply negb_true_iff, orb_false_elim in Hch as [_ Hmap].
    apply negb_false_iff, bool_decide_eq_true in Hmap. rewrite fast_lookup by (by rewrite <- Hmap).
    rewrite Hmap in Hkey. destruct (field_of_map o' key) as [v Hv]; [by rewrite (map_of_names o o')|done|]. rewrite Hv. cbn [what GetProperty].
    etrans; [|symmetry; by apply (bind_just (mret v) _ s1 v s1)]. do 2 (apply bind_ext; intros ? ?). by apply IH.
  - destruct (own_lookup o' (Name key)) as [p|]; [|by apply IH]. do 3 (apply bind_ext; intros ? ?). by apply IH.
Qed.

(** C37. Writing an object with fast properties along its map gives the bytes, the identifiers
    and the effects of the general path, in every state and whatever the getters do to the
    object meanwhile: change its map, remove or redefine properties. *)
Theorem fast_path_is_slow_path o s :
  heap_ s !! r = Some o -> NoDup (chars_of ∘ fst <$> named o) -> Forall is_name (named o).*1 ->
  WriteJSObject ser WriteObject r s = WriteJSObjectSlow ser WriteObject r o s.
Proof.
  intros Ho Hd Hn. unfold WriteJSObject. erewrite bind_just; [|unfold receiver_at; by rewrite Ho].
  destruct (has_fast_properties o && _) eqn:E; [|done]. apply andb_prop in E as [Hfast He]. destruct (elements o) eqn:Hel; [|done].
  unfold WriteJSObjectSlow, WriteJSObjectPropertiesSlow. apply bind_ext. intros _ s1.
  replace (GetKeys false o) with (keys_of (map_of o).2).
  - unfold mbind, stateful_bind. by rewrite fast_is_slow.
  - unfold GetKeys, keys_of, map_of. rewrite Hel. cbn [snd app]. clear. induction (named o) as [|[k p] l IH]; [done|].
    rewrite fmap_cons, !filter_cons. cbn [fst snd]. destruct (decide (enumerable p = true)); by rewrite ?fmap_cons, IH.
Qed.
End paths.

(** A getter that removes the property after it. *)
Definition removing_heap : js_heap := [
  mkReceiver (JSObject true ordinary) [] [(str "a", data_property (Prim (Smi 1))); (str "b", mkProperty true (Accessor 0));
    (str "c", data_property (Prim (Smi 2)))]
].
Definition removing_serializer : serializer Unit :=
  mkSerializer Unit None false ∅ false Some
    (fun _ _ h => (Some (Prim True_), [mkReceiver (JSObject true ordinary) [] [(str "a", data_property (Prim (Smi 1)))]]))
    (fun v h => (string_of v, h)).

Lemma fast_path_is_slow_path_witness :
  WriteJSObject removing_serializer (WriteObject removing_serializer 3) 0 (new_serializer removing_heap tt) =
  WriteJSObjectSlow removing_serializer (WriteObject removing_serializer 3) 0 (default NewJSObject (removing_heap !! O)) (new_serializer removing_heap tt).
Proof.
  apply (fast_path_is_slow_path removing_serializer (WriteObject removing_serializer 3) 0); [done|apply (bool_decide_unpack _); by vm_compute|].
  repeat constructor; by vm_compute.
Defined.
