(* ===== verification/Instances.v ===== *)
(** A concrete instance of the interfaces of Engine.v.

    Values are numbers, strings, errors, iterator results, arrays (with absent
    elements), ArrayBuffers and functions; a value is cloned through a prefix code.
    It models no source file: the theorems hold for every instance, and are applied
    to this one to evaluate them on concrete inputs. *)
From S2P Require Import Prelude Engine.
From Stdlib Require Import Ascii.

Inductive value :=
| VUndefined
| VNumber (n : Z)
| VString (s : string)
| VError (k : error_kind) (msg : string)
| VIterResult (v : value) (done : bool)
| VNil                              (* arrays: [], [hd, ...tl] and [<absent>, ...tl] *)
| VCons (hd tl : value)
| VAbsent (tl : value)
| VBuffer (store : nat)
| VFunction (id : nat).

#[export] Instance error_kind_eq_dec : EqDecision error_kind.
Proof. solve_decision. Defined.
#[export] Instance value_eq_dec : EqDecision value.
Proof. solve_decision. Defined.

Fixpoint array_of (vs : list (option value)) : value :=
  match vs with [] => VNil | Some v :: vs => VCons v (array_of vs) | None :: vs => VAbsent (array_of vs) end.

Fixpoint elements_of (v : value) : option (list (option value)) :=
  match v with
  | VNil => Some []
  | VCons hd tl => (fun l => Some hd :: l) <$> elements_of tl
  | VAbsent tl => (fun l => None :: l) <$> elements_of tl
  | _ => None
  end.

#[export] Instance value_js : JSValue value := {
  js_undefined := VUndefined;
  js_error := VError;
  js_iter_result := VIterResult;
  js_array := array_of;
  js_elements := elements_of;
  js_array_buffer v := match v with VBuffer s => Some s | _ => None end;
}.

#[export] Instance value_js_laws : JSValueLaws value.
Proof.
  split. intros vs. change (elements_of (array_of (Some <$> vs)) = Some (Some <$> vs)).
  induction vs as [|v vs IH]; [done|]. rewrite fmap_cons. cbn [array_of elements_of]. by rewrite IH.
Qed.

Fixpoint find_id (s : nat) (transfer : list (nat * nat)) : option nat :=
  match transfer with
  | [] => None
  | (i, s') :: rest => if decide (s = s') then Some i else find_id s rest
  end.

Definition codes (s : string) : list Z := (fun a => Z.of_nat (nat_of_ascii a)) <$> String.list_ascii_of_string s.
Definition of_codes (l : list Z) : string := String.string_of_list_ascii ((fun c => ascii_of_nat (Z.to_nat c)) <$> l).

Definition kind_code (k : error_kind) : Z := match k with Error => 0 | TypeError => 1 | RangeError => 2 end.
Definition code_kind (c : Z) : error_kind := if c =? 0 then Error else if c =? 1 then TypeError else RangeError.

Fixpoint encode (transfer : list (nat * nat)) (v : value) : option bytes :=
  match v with
  | VUndefined => Some [0]
  | VNumber n => Some [1; n]
  | VString s => Some (2 :: Z.of_nat (String.length s) :: codes s)
  | VError k s => Some (3 :: kind_code k :: Z.of_nat (String.length s) :: codes s)
  | VIterResult v d => b ← encode transfer v; Some (4 :: Z.b2z d :: b)
  | VNil => Some [5]
  | VCons hd tl => b1 ← encode transfer hd; b2 ← encode transfer tl; Some (6 :: b1 ++ b2)
  | VAbsent tl => b ← encode transfer tl; Some (7 :: b)
  | VBuffer s => i ← find_id s transfer; Some [8; Z.of_nat i]
  | VFunction _ => None
  end.

Fixpoint decode (fuel : nat) (stores : list nat) (b : bytes) : option (value * bytes) :=
  match fuel with O => None | S fuel =>
  match b with
  | 0 :: b => Some (VUndefined, b)
  | 1 :: n :: b => Some (VNumber n, b)
  | 2 :: n :: b => Some (VString (of_codes (take (Z.to_nat n) b)), drop (Z.to_nat n) b)
  | 3 :: k :: n :: b => Some (VError (code_kind k) (of_codes (take (Z.to_nat n) b)), drop (Z.to_nat n) b)
  | 4 :: d :: b => '(v, b) ← decode fuel stores b; Some (VIterResult v (d =? 1), b)
  | 5 :: b => Some (VNil, b)
  | 6 :: b => '(hd, b) ← decode fuel stores b; '(tl, b) ← decode fuel stores b; Some (VCons hd tl, b)
  | 7 :: b => '(tl, b) ← decode fuel stores b; Some (VAbsent tl, b)
  | 8 :: i :: b => s ← stores !! Z.to_nat i; Some (VBuffer s, b)
  | _ => None
  end end.

#[export] Instance value_codec : Codec value := {
  write_value transfer shared v := b ← encode transfer v; Some (255 :: b, []);
  read_header b := match b with h :: _ => h =? 255 | [] => false end;
  read_value stores shared b := match b with _ :: b => fst <$> decode (length b) stores b | [] => None end;
}.

Lemma length_codes s : length (codes s) = String.length s.
Proof. unfold codes. rewrite length_fmap. by induction s; simpl; f_equal. Qed.

Lemma of_codes_codes s : of_codes (codes s) = s.
Proof.
  unfold of_codes, codes. rewrite <- list_fmap_compose.
  rewrite (list_fmap_ext _ id); [by rewrite list_fmap_id, String.string_of_list_ascii_of_string|].
  intros ? a _. unfold compose. simpl. by rewrite Nat2Z.id, ascii_nat_embedding.
Qed.

Lemma take_drop_codes s rest :
  of_codes (take (Z.to_nat (Z.of_nat (String.length s))) (codes s ++ rest)) = s /\
  drop (Z.to_nat (Z.of_nat (String.length s))) (codes s ++ rest) = rest.
Proof.
  rewrite Nat2Z.id. split; [rewrite take_app_length'|rewrite drop_app_length']; auto using length_codes, of_codes_codes.
Qed.

Lemma find_id_store s stores (k : nat) i :
  find_id s (imap (fun j s => ((k + j)%nat, s)) stores) = Some i -> (k <= i)%nat /\ stores !! (i - k)%nat = Some s.
Proof.
  revert k. induction stores as [|s' stores IH]; simpl; intros k; [done|]. case_decide; intros; simplify_eq.
  - rewrite Nat.add_0_r, Nat.sub_diag. split; [lia|done].
  - rewrite (imap_ext _ (fun j s => ((S k + j)%nat, s))) in H0 by (intros; simpl; f_equal; lia).
    apply IH in H0 as [? Hl]. split; [lia|]. replace (i - k)%nat with (S (i - S k)) by lia. done.
Qed.

Lemma encode_nonempty transfer v b : encode transfer v = Some b -> b <> [].
Proof. destruct v; simpl; intros Hb; simplify_option_eq; done. Qed.

Lemma decode_encode stores v b rest fuel :
  encode (imap (fun i s => (i, s)) stores) v = Some b -> (length b <= fuel)%nat ->
  decode fuel stores (b ++ rest) = Some (v, rest).
Proof.
  revert b rest fuel. induction v; simpl; intros b rest fuel Hb Hf; simplify_option_eq;
    (destruct fuel as [|fuel]; [simpl in Hf; lia|]); simpl in *; rewrite ?length_app in Hf; try done.
  - by destruct (take_drop_codes s rest) as [-> ->].
  - destruct (take_drop_codes msg rest) as [-> ->]. by destruct k.
  - rewrite (IHv _ rest fuel eq_refl) by lia. simpl. by destruct done.
  - rewrite <- (assoc_L (++)). rewrite (IHv1 _ _ fuel eq_refl) by lia. simpl.
    by rewrite (IHv2 _ _ fuel eq_refl) by lia.
  - by rewrite (IHv _ rest fuel eq_refl) by lia.
  - apply (find_id_store _ _ 0) in Heqo as [_ Hs]. rewrite Nat.sub_0_r in Hs. by rewrite Nat2Z.id, Hs.
Qed.

#[export] Instance value_codec_laws : CodecLaws value.
Proof.
  split; [|by intros ???? ?; simpl in *; simplify_option_eq].
  intros stores shared v b sab. simpl. destruct (encode _ v) as [e|] eqn:He; [|done].
  simpl. intros; simplify_eq. split_all; try done.
  rewrite <- (app_nil_r e) at 2. by rewrite (decode_encode _ _ _ _ _ He) by lia.
Qed.

#[export] Instance value_ops : JSOps value := {
  js_function v := match v with VFunction _ => true | _ => false end;
  fn_source v := match v with VFunction id => Some (pretty id) | _ => None end;
  js_number v := match v with VNumber n => Some n | _ => None end;
  js_object v := match v with VNil | VCons _ _ | VAbsent _ | VIterResult _ _ | VBuffer _ | VFunction _ | VError _ _ => true | _ => false end;
  (* an iterator result stands for any object: its value is the property "transfer" *)
  js_get v key := match v with VIterResult v _ => if decide (key = "transfer") then Some v else Some VUndefined | _ => Some VUndefined end;
}.

(** ** Execution

    The state counts microtask checkpoints. Function [id] has source [pretty id];
    function 3 returns a promise ([VFunction 50]) that is fulfilled after two checkpoints. *)
Definition numbers (args : list value) : list Z := omap (fun v => match v with VNumber n => Some n | _ => None end) args.

Definition demo_function (id : nat) (args : list value) : outcome value value :=
  match id with
  | 1%nat => Done (VNumber (foldr Z.add 0 (numbers args)))                 (* (...xs) => sum of xs *)
  | 2%nat => Threw (Some (VError TypeError "boom"))
  | 3%nat => Done (VFunction 50)
  | 4%nat => Threw (Some (VError RangeError "frozen stack"))
  | _ => Done (default VUndefined (head args))
  end.

#[export] Instance demo_engine : Engine value nat := {
  script := value;
  new_string s w := (Done s, w);
  compile s w :=
    match filter (fun id => s = "(" +:+ pretty id +:+ ")") (seq 0 10) with
    | id :: _ => (Done (VFunction id), w)
    | [] => (Threw (Some (VError Error "SyntaxError")), w)
    end;
  run_script s w := (Done s, w);
  call f args w := (match f with VFunction id => demo_function id args | _ => Threw None end, w);
  is_function v := match v with VFunction _ => true | _ => false end;
  is_promise v := bool_decide (v = VFunction 50);
  state_of v w := if (2 <=? w)%nat then Fulfilled (VNumber 7) else Pending;
  checkpoint w := S w;
  read_exception _ := None;
  write_exception _ := None;
  sleep_1ms w := w;
  get_stack v w := (match v with VError _ m => Some m | _ => None end, w);
  (* a RangeError stands for an error whose "stack" setter throws *)
  set_stack v s w := (match v with VError RangeError _ => None | VError k _ => Some (VError k s) | _ => Some v end, w);
}.
