(* ===== verification/Channel.v ===== *)
(** Channels: src/src/threading/channel.{h,cc}.

    The state of a channel, the JavaScript entry points [Send], [Close], [Recv] and
    [Next] with every check and branch, the tasks they hand to other isolates, and
    the interleaving of concurrent calls: everything under [state->mutex] is one
    step, but [Send] tests [closed] before it takes the mutex. *)
From S2P Require Import Prelude Engine.

Section channel.
Context {V : Type} `{JSValue V} `{Codec V}.

(** ** channel.h *)

Record ChannelMessage := mkMessage { mdata : bytes; mstores : list nat }.

Record PendingReceiver := mkReceiver {
  r_isolate : nat; r_worker_index : Z; r_resolver : nat; r_is_next : bool;
}.

Record PendingSender := mkSender {
  s_msg : ChannelMessage; s_isolate : nat; s_worker_index : Z; s_resolver : nat;
}.

Record ChannelState := mkChannel {
  messages : list ChannelMessage;
  pending_receivers : list PendingReceiver;
  pending_senders : list PendingSender;
  capacity : Z;                       (* size_t; 0 is unbounded *)
  closed : bool;
}.

(** ** Tasks for other isolates *)

Inductive channel_task :=
| ResolveSenderTask (isolate resolver : nat)
| ResolveChannelTask (isolate : nat) (msg : ChannelMessage) (resolver : nat) (is_next : bool)
| ResolveCloseTask (isolate resolver : nat) (is_next : bool).

Definition settle_message (msg : ChannelMessage) (is_next : bool) : settlement V :=
  if read_header (mdata msg) then
    match read_value (mstores msg) [] (mdata msg) with
    | Some val => if is_next then Resolve (js_iter_result val false) else Resolve val
    | None => Reject (js_error Error "Failed to deserialize message")
    end
  else Reject (js_error Error "Failed to deserialize message header").

Definition settle_closed (is_next : bool) : settlement V :=
  if is_next then Resolve (js_iter_result js_undefined true) else Resolve js_undefined.

(** [RunInternal] of each task: the resolver it settles, and how. *)
Definition RunInternal (t : channel_task) : nat * settlement V :=
  match t with
  | ResolveSenderTask _ resolver => (resolver, Resolve js_undefined)
  | ResolveChannelTask _ msg resolver is_next => (resolver, settle_message msg is_next)
  | ResolveCloseTask _ resolver is_next => (resolver, settle_closed is_next)
  end.

(** ** Effects of a call *)

Inductive effect :=
| Throw (k : error_kind) (msg : string)
| Detach (store : nat)
| Settle (resolver : nat) (s : settlement V)
| Deliver (d : delivery channel_task)
| ReturnPromise (resolver : nat)
| ReturnThis.

(** What [this] is: an object without internal field, one whose channel is gone, or
    a wrapper of the channel. *)
Inductive holder := NoField | NoState | Wrapped.

(** The caller: its isolate, [g_worker_index] and the resolver that
    [Promise::Resolver::New] makes ([None] when it fails). *)
Record caller := mkCaller { c_isolate : nat; c_worker_index : Z; c_resolver : option nat }.

Context (runner : nat -> bool).

(** ** Send *)

(** The loop over the transfer list: [TransferArrayBuffer(i, ab)] for the items that
    are ArrayBuffers. *)
Definition transfer_list (items : list (option V)) : list (nat * nat) :=
  omap id (imap (fun i item => s ← (item ≫= js_array_buffer); Some (i, s)) items).

Lemma transfer_list_shift (items : list (option V)) stores (k : nat) :
  Forall2 (fun item s => exists v, item = Some v /\ js_array_buffer v = Some s) items stores ->
  omap id (imap (fun i item => s ← (item ≫= js_array_buffer); Some ((k + i)%nat, s)) items) =
  imap (fun i s => ((k + i)%nat, s)) stores.
Proof.
  intros Hf. revert k. induction Hf as [|? s items stores (v & -> & Hv) _ IH]; intros k; simpl; [done|].
  rewrite Hv. simpl. f_equal. specialize (IH (S k)).
  etrans; [|etrans; [exact IH|]]; [f_equal|]; apply imap_ext; intros; unfold compose; by rewrite Nat.add_succ_comm.
Qed.

Lemma transfer_list_buffers (items : list (option V)) stores :
  Forall2 (fun item s => exists v, item = Some v /\ js_array_buffer v = Some s) items stores ->
  transfer_list items = imap (fun i s => (i, s)) stores.
Proof. intros Hf. exact (transfer_list_shift _ _ O Hf). Qed.

Definition transfer_of (args : list V) : list (nat * nat) :=
  match args with
  | _ :: list :: _ => transfer_list (default [] (js_elements list))
  | _ => []
  end.

(** Up to the serialization: the message, or the effects of an early return.
    [is_closed] is what the unlocked read of [closed] sees. *)
Definition Send_prepare (this : holder) (args : list V) (is_closed : bool) :
    list effect + (list effect * ChannelMessage) :=
  match args with
  | [] => inl [Throw TypeError "Message required"]
  | message :: _ =>
      match this with
      | NoField => inl [Throw TypeError "Invalid receiver object"]
      | NoState => inl [Throw TypeError "Channel is closed"]
      | Wrapped =>
          if is_closed then inl [Throw Error "Channel is closed"] else
          let transfer := transfer_of args in
          let detached := Detach <$> (transfer.*2) in
          match write_value transfer false message with
          | None => inl (detached ++ [Throw Error "Failed to serialize message"])
          | Some (b, _) => inr (detached, mkMessage b (transfer.*2))
          end
      end
  end.

(** From [state->mutex.Lock()]. *)
Definition Send_commit (isolate : nat) (worker_index : Z) (resolver : nat) (msg : ChannelMessage)
    (st : ChannelState) : ChannelState * list effect :=
  match pending_receivers st with
  | pending :: rest =>
      (mkChannel (messages st) rest (pending_senders st) (capacity st) (closed st),
       [Deliver (route runner (r_isolate pending) (r_worker_index pending)
          (ResolveChannelTask (r_isolate pending) msg (r_resolver pending) (r_is_next pending)));
        Settle resolver (Resolve js_undefined); ReturnPromise resolver])
  | [] =>
      if (capacity st >? 0) && (Z.of_nat (length (messages st)) >=? capacity st) then
        (mkChannel (messages st) [] (pending_senders st ++ [mkSender msg isolate worker_index resolver])
           (capacity st) (closed st),
         [ReturnPromise resolver])
      else
        (mkChannel (messages st ++ [msg]) [] (pending_senders st) (capacity st) (closed st),
         [Settle resolver (Resolve js_undefined); ReturnPromise resolver])
  end.

(** The whole call, without interference. *)
Definition Send (this : holder) (c : caller) (args : list V) (st : ChannelState) :
    ChannelState * list effect :=
  match Send_prepare this args (closed st) with
  | inl effects => (st, effects)
  | inr (effects, msg) =>
      match c_resolver c with
      | None => (st, effects)
      | Some resolver =>
          let '(st, effects') := Send_commit (c_isolate c) (c_worker_index c) resolver msg st in
          (st, effects ++ effects')
      end
  end.

(** ** Close *)

Definition close_receiver (pending : PendingReceiver) : effect :=
  Deliver (route runner (r_isolate pending) (r_worker_index pending)
    (ResolveCloseTask (r_isolate pending) (r_resolver pending) (r_is_next pending))).

Definition Close_commit (st : ChannelState) : ChannelState * list effect :=
  (mkChannel (messages st) [] (pending_senders st) (capacity st) true,
   close_receiver <$> pending_receivers st).

Definition Close (this : holder) (st : ChannelState) : ChannelState * list effect :=
  match this with
  | NoField => (st, [Throw TypeError "Invalid receiver object"])
  | NoState => (st, [])
  | Wrapped => Close_commit st
  end.

(** ** Recv and Next *)

Definition Recv_commit (isolate : nat) (worker_index : Z) (resolver : nat) (is_next : bool)
    (st : ChannelState) : ChannelState * list effect :=
  match messages st with
  | [] =>
      if closed st then (st, [Settle resolver (settle_closed is_next); ReturnPromise resolver])
      else
        (mkChannel [] (pending_receivers st ++ [mkReceiver isolate worker_index resolver is_next])
           (pending_senders st) (capacity st) (closed st),
         [ReturnPromise resolver])
  | msg :: rest =>
      match pending_senders st with
      | pending :: senders =>
          (mkChannel (rest ++ [s_msg pending]) (pending_receivers st) senders (capacity st) (closed st),
           [Deliver (route runner (s_isolate pending) (s_worker_index pending)
              (ResolveSenderTask (s_isolate pending) (s_resolver pending)));
            Settle resolver (settle_message msg is_next); ReturnPromise resolver])
      | [] =>
          (mkChannel rest (pending_receivers st) [] (capacity st) (closed st),
           [Settle resolver (settle_message msg is_next); ReturnPromise resolver])
      end
  end.

Definition RecvInternal (this : holder) (c : caller) (is_next : bool) (st : ChannelState) :
    ChannelState * list effect :=
  match c_resolver c with
  | None => (st, [])
  | Some resolver =>
      match this with
      | NoField => (st, [Throw TypeError "Invalid receiver object"])
      | NoState => (st, [Throw TypeError "Channel is closed"])
      | Wrapped => Recv_commit (c_isolate c) (c_worker_index c) resolver is_next st
      end
  end.

Definition Recv (this : holder) (c : caller) := RecvInternal this c false.
Definition Next (this : holder) (c : caller) := RecvInternal this c true.
Definition AsyncIterator : list effect := [ReturnThis].

(** [~ChannelState]: the resolvers it deletes, unless the pool is disposing. *)
Definition destroy_ChannelState (is_disposing : bool) (st : ChannelState) : list nat :=
  if is_disposing then [] else
  (r_resolver <$> pending_receivers st) ++ (s_resolver <$> pending_senders st).

(** ** Concurrent calls *)

(** The state of a channel and the calls of [Send] that have serialized their message
    and not locked the mutex yet. *)
Record config := mkConfig { chan : ChannelState; sending : list PendingSender }.

(** Which call takes a step, with the caller's isolate, [g_worker_index] and resolver. *)
Inductive event :=
| EPrepare
| ESend (s : PendingSender)
| ERecv (r : PendingReceiver)
| EClose.

Inductive step : config -> event * list effect -> config -> Prop :=
| step_send_prepare st fs isolate w resolver args es msg :
    Send_prepare Wrapped args (closed st) = inr (es, msg) ->
    step (mkConfig st fs) (EPrepare, es) (mkConfig st (fs ++ [mkSender msg isolate w resolver]))
| step_send_commit st fs1 f fs2 st' es :
    Send_commit (s_isolate f) (s_worker_index f) (s_resolver f) (s_msg f) st = (st', es) ->
    step (mkConfig st (fs1 ++ f :: fs2)) (ESend f, es) (mkConfig st' (fs1 ++ fs2))
| step_recv st fs r st' es :
    Recv_commit (r_isolate r) (r_worker_index r) (r_resolver r) (r_is_next r) st = (st', es) ->
    step (mkConfig st fs) (ERecv r, es) (mkConfig st' fs)
| step_close st fs st' es :
    Close_commit st = (st', es) -> step (mkConfig st fs) (EClose, es) (mkConfig st' fs).

Definition new_channel (cap : Z) : ChannelState := mkChannel [] [] [] cap false.
Definition initial (cap : Z) : config := mkConfig (new_channel cap) [].

(** The well-formed states: nobody waits for what is there, a blocked sender waits
    for a full buffer, a closed channel has no waiting receiver. *)
Record wf (cap : Z) (st : ChannelState) : Prop := {
  wf_capacity : capacity st = cap;
  wf_waiting : messages st <> [] -> pending_receivers st = [];
  wf_blocked : pending_senders st <> [] -> 0 < cap /\ Z.of_nat (length (messages st)) = cap;
  wf_closed : closed st = true -> pending_receivers st = [];
  wf_bound : 0 < cap -> Z.of_nat (length (messages st)) <= cap;
}.

Lemma wf_no_blocked cap st : wf cap st -> messages st = [] -> pending_senders st = [].
Proof.
  intros Hw He. destruct (pending_senders st) eqn:E; [done|].
  destruct (wf_blocked _ _ Hw) as [? Hl]; [by rewrite E|]. rewrite He in Hl. simpl in Hl. lia.
Qed.

Lemma wf_no_message cap st p rest :
  wf cap st -> pending_receivers st = p :: rest -> messages st = [].
Proof.
  intros Hw Hp. destruct (messages st) eqn:E; [done|].
  rewrite (wf_waiting _ _ Hw) in Hp by (by rewrite E). done.
Qed.

Lemma wf_send cap st isolate w resolver msg st' es :
  wf cap st -> Send_commit isolate w resolver msg st = (st', es) -> wf cap st'.
Proof.
  intros Hw. unfold Send_commit. destruct (pending_receivers st) as [|p rest] eqn:Hp.
  - destruct Hw as [Hc Hwait Hb Hcl Hbd]. rewrite Hc. case_match eqn:Hfull; intros; simplify_eq.
    + apply andb_prop in Hfull as [H1 H2]. split; simpl; auto. intros _. specialize (Hbd ltac:(lia)). lia.
    + split; simpl; auto.
      * intros Hs. destruct (Hb Hs) as [? Hl]. rewrite Hl in Hfull. lia.
      * intros Hpos. specialize (Hbd Hpos). rewrite length_app. simpl. lia.
  - intros; simplify_eq. assert (Hm : messages st = []).
    { destruct (messages st) eqn:E; [done|]. rewrite (wf_waiting _ _ Hw) in Hp by (by rewrite E). done. }
    destruct Hw as [Hc Hwait Hb Hcl Hbd]. split; simpl; auto.
    + by rewrite Hm.
    + intros Hclosed. by rewrite (Hcl Hclosed) in Hp.
Qed.

Lemma wf_recv cap st isolate w resolver is_next st' es :
  wf cap st -> Recv_commit isolate w resolver is_next st = (st', es) -> wf cap st'.
Proof.
  intros Hw. unfold Recv_commit. destruct (messages st) as [|m rest] eqn:Hm.
  - destruct (closed st) eqn:Hcl; intros; simplify_eq; [done|].
    pose proof (wf_no_blocked _ _ Hw Hm) as Hs. destruct Hw. split; simpl in *; auto; try done;
      intros; rewrite ?Hs, ?Hcl in *; first [done|lia].
  - destruct Hw as [Hc Hwait Hb Hclo Hbd]. rewrite Hm in *. simpl in *.
    destruct (pending_senders st) as [|p senders] eqn:Hs; intros; simplify_eq; split; simpl in *; auto.
    + done.
    + intros Hpos. specialize (Hbd Hpos). lia.
    + intros _. destruct Hb as [? Hl]; [done|]. rewrite length_app. simpl. lia.
    + intros Hpos. specialize (Hbd Hpos). rewrite length_app. simpl. lia.
Qed.

Lemma wf_close cap st st' es : wf cap st -> Close_commit st = (st', es) -> wf cap st'.
Proof. intros [] ?. unfold Close_commit in *. simplify_eq. by split. Qed.

End channel.
