(* ===== verification/ChannelTheorems.v ===== *)
(** The properties of channels (Channel.v): order, back-pressure, promises settled
    once, closing, and what the receiver gets. *)
From S2P Require Import Prelude Engine Instances Channel.

Section theorems.
Context {V : Type} `{JSValue V} `{Codec V} (runner : nat -> bool).
Implicit Types (st : ChannelState) (c : config) (tr : list (event * list (effect (V := V)))).

(** ** The reference: one queue *)

(** The sends whose message nobody has received, oldest first, and the receivers that
    wait. *)
Record queue := mkQueue {
  queued : list PendingSender; receivers : list PendingReceiver; is_closed : bool;
}.

Inductive answer :=
| Received (msg : ChannelMessage) (r : PendingReceiver)
| Ended (r : PendingReceiver)
| Accepted (s : PendingSender).

(** The sends that fit in the buffer, and the others. *)
Definition buffered (cap : Z) (q : queue) : list PendingSender :=
  if cap =? 0 then queued q else take (Z.to_nat cap) (queued q).
Definition blocked (cap : Z) (q : queue) : list PendingSender :=
  if cap =? 0 then [] else drop (Z.to_nat cap) (queued q).

Definition queue_step (cap : Z) (e : event) (q : queue) : queue * list answer :=
  match e with
  | EPrepare => (q, [])
  | ESend s =>
      match receivers q with
      | r :: rs => (mkQueue (queued q) rs (is_closed q), [Received (s_msg s) r; Accepted s])
      | [] =>
          (mkQueue (queued q ++ [s]) [] (is_closed q),
           if (cap =? 0) || (Z.of_nat (length (queued q)) <? cap) then [Accepted s] else [])
      end
  | ERecv r =>
      match queued q with
      | s :: ss =>
          (mkQueue ss (receivers q) (is_closed q),
           (Accepted <$> take 1 (blocked cap q)) ++ [Received (s_msg s) r])
      | [] =>
          if is_closed q then (q, [Ended r])
          else (mkQueue [] (receivers q ++ [r]) (is_closed q), [])
      end
  | EClose => (mkQueue (queued q) [] true, Ended <$> receivers q)
  end.

Fixpoint queue_run (cap : Z) (evs : list event) (q : queue) : queue * list (event * list answer) :=
  match evs with
  | [] => (q, [])
  | e :: evs =>
      let '(q, ans) := queue_step cap e q in
      let '(q, outs) := queue_run cap evs q in (q, (e, ans) :: outs)
  end.

Definition empty_queue : queue := mkQueue [] [] false.

(** What an answer does to which promise, and where it has to go: the caller of the
    step is answered directly, the others through their worker or task runner. *)
Definition settle_answer (a : answer) : nat * settlement V :=
  match a with
  | Received msg r => (r_resolver r, settle_message msg (r_is_next r))
  | Ended r => (r_resolver r, settle_closed (r_is_next r))
  | Accepted s => (s_resolver s, Resolve js_undefined)
  end.

Definition reachable (isolate : nat) (worker_index : Z) : bool :=
  negb (worker_index =? -1) || runner isolate.

Definition arrives (e : event) (a : answer) : bool :=
  match e, a with
  | ESend _, Accepted _ | ERecv _, (Received _ _ | Ended _) => true
  | _, (Received _ r | Ended r) => reachable (r_isolate r) (r_worker_index r)
  | _, Accepted s => reachable (s_isolate s) (s_worker_index s)
  end.

Definition settled_answers (out : event * list answer) : list (nat * settlement V) :=
  settle_answer <$> filter (arrives out.1) out.2.

(** The settlements among the effects of a step, those of the tasks it hands to another
    isolate included; a deleted task settles nothing. *)
Definition settlements (es : list (effect (V := V))) : list (nat * settlement V) :=
  omap (fun e => match e with
        | Settle resolver s => Some (resolver, s)
        | Deliver (SubmittedToWorker _ t) | Deliver (PostedForeground _ t) => Some (RunInternal t)
        | _ => None
        end) es.

(** Projections of events and answers. *)
Definition sends (evs : list event) : list PendingSender :=
  omap (fun e => match e with ESend s => Some s | _ => None end) evs.
Definition receives (evs : list event) : list PendingReceiver :=
  omap (fun e => match e with ERecv r => Some r | _ => None end) evs.
Definition received (l : list answer) : list ChannelMessage :=
  omap (fun a => match a with Received msg _ => Some msg | _ => None end) l.
Definition answered (l : list answer) : list PendingReceiver :=
  omap (fun a => match a with Received _ r | Ended r => Some r | _ => None end) l.
Definition accepted (l : list answer) : list PendingSender :=
  omap (fun a => match a with Accepted s => Some s | _ => None end) l.

(** Nobody waits for what is there; nobody waits for a closed channel. *)
Definition queue_ok (q : queue) : Prop :=
  (queued q <> [] -> receivers q = []) /\ (is_closed q = true -> receivers q = []).

Record represents (cap : Z) (q : queue) (st : ChannelState) : Prop := {
  rep_ok : queue_ok q;
  rep_capacity : capacity st = cap;
  rep_messages : messages st = s_msg <$> buffered cap q;
  rep_senders : pending_senders st = blocked cap q;
  rep_receivers : pending_receivers st = receivers q;
  rep_closed : closed st = is_closed q;
}.

(** ** The channel refines the reference *)

Lemma settled_deliver e a isolate w t :
  arrives e a = reachable isolate w -> settle_answer a = RunInternal t ->
  settlements [Deliver (route runner isolate w t)] = settled_answers (e, [a]).
Proof.
  intros Ha Hs. unfold settled_answers, settlements. simpl. unfold route. rewrite filter_cons, Ha. unfold reachable.
  repeat case_decide; destruct (Z.eqb_spec w (-1)); try done; destruct (runner isolate); simpl; try done; by rewrite Hs.
Qed.

Lemma settled_app e l1 l2 : settled_answers (e, l1 ++ l2) = settled_answers (e, l1) ++ settled_answers (e, l2).
Proof. unfold settled_answers. simpl. by rewrite filter_app, fmap_app. Qed.

Lemma settlements_app es1 es2 : settlements (es1 ++ es2) = settlements es1 ++ settlements es2.
Proof. apply omap_app. Qed.

Lemma blocked_length cap q : 0 <= cap ->
  Z.of_nat (length (buffered cap q)) = (if cap =? 0 then Z.of_nat (length (queued q)) else Z.min cap (Z.of_nat (length (queued q)))).
Proof. intros. unfold buffered. destruct (Z.eqb_spec cap 0); rewrite ?length_take; lia. Qed.

Lemma represents_send cap q st s st' es :
  0 <= cap -> represents cap q st ->
  Send_commit runner (s_isolate s) (s_worker_index s) (s_resolver s) (s_msg s) st = (st', es) ->
  settlements es = settled_answers (ESend s, (queue_step cap (ESend s) q).2) /\
  represents cap (queue_step cap (ESend s) q).1 st'.
Proof.
  intros Hcap [[Hq1 Hq2] Hc Hm Hs Hr Hcl]. unfold Send_commit. rewrite Hr. simpl.
  destruct (receivers q) as [|r rs] eqn:Hrs; simpl.
  - rewrite Hc, Hm, length_fmap, blocked_length, Hs by done.
    destruct (Z.eqb_spec cap 0) as [->|Hn]; simpl.
    + intros; simplify_eq. split; [done|]. split; simpl; try done. unfold buffered. simpl. by rewrite fmap_app.
    + assert ((cap >? 0) = true) as -> by lia. simpl.
      destruct (Z.ltb_spec (Z.of_nat (length (queued q))) cap); case_match; intros; try lia; simplify_eq.
      * split; [done|]. split; simpl; try done; unfold buffered, blocked; simpl; rewrite (proj2 (Z.eqb_neq _ _) Hn).
        -- rewrite !take_ge by (rewrite ?length_app; simpl; lia). by rewrite fmap_app.
        -- rewrite !drop_ge; rewrite ?length_app; simpl; lia || done.
      * split; [done|]. split; simpl; try done; unfold buffered, blocked; simpl; rewrite (proj2 (Z.eqb_neq _ _) Hn).
        -- by rewrite take_app_le by lia.
        -- rewrite drop_app_le by lia. by destruct s.
  - intros; simplify_eq. split.
    + change (settlements ([Deliver (route runner (r_isolate r) (r_worker_index r) (ResolveChannelTask (r_isolate r) (s_msg s) (r_resolver r) (r_is_next r)))] ++
        [Settle (s_resolver s) (Resolve js_undefined); ReturnPromise (s_resolver s)]) =
        settled_answers (ESend s, [Received (s_msg s) r] ++ [Accepted s])).
      rewrite settlements_app, settled_app. by rewrite (settled_deliver (ESend s) (Received (s_msg s) r)).
    + assert (queued q = []) as He by (destruct (queued q); [done|by discriminate Hq1]).
      split; simpl; try done. split; simpl; [done|]. intros Ht. by discriminate Hq2.
Qed.

Lemma take_drop_shift {A} n (x : A) (l : list A) b bs :
  drop (S n) (x :: l) = b :: bs -> take (S n) l = take n l ++ [b] /\ drop (S n) l = bs.
Proof.
  simpl. revert l x. induction n as [|n IH]; intros [|y l] x Hd; simpl in *; simplify_eq; [done|].
  destruct (IH l y Hd) as [Ht ?]. simpl in Ht. by rewrite Ht.
Qed.

Lemma represents_recv cap q st r st' es :
  0 <= cap -> represents cap q st ->
  Recv_commit runner (r_isolate r) (r_worker_index r) (r_resolver r) (r_is_next r) st = (st', es) ->
  settlements es = settled_answers (ERecv r, (queue_step cap (ERecv r) q).2) /\
  represents cap (queue_step cap (ERecv r) q).1 st'.
Proof.
  intros Hcap [[Hq1 Hq2] Hc Hm Hs Hr Hcl]. unfold Recv_commit. rewrite Hm, Hs, Hcl, Hr, Hc. simpl.
  destruct (queued q) as [|s ss] eqn:Hq.
  - assert (buffered cap q = [] /\ blocked cap q = []) as [Hb1 Hb2].
    { unfold buffered, blocked. rewrite Hq, take_nil, drop_nil. by destruct (cap =? 0). }
    rewrite Hb1, Hb2. simpl. destruct (is_closed q) eqn:Hic; intros; simplify_eq.
    + split; [done|]. split; simpl; try done.
      * split; intros; auto.
      * congruence.
    + split; [done|]. split; simpl; try done.
      * unfold buffered. simpl. rewrite take_nil. by destruct (capacity st =? 0).
      * unfold blocked. simpl. rewrite drop_nil. by destruct (capacity st =? 0).
      * by destruct r.
  - assert (Hn : receivers q = []) by (by apply Hq1). rewrite Hn.
    destruct (Z.eqb_spec cap 0) as [->|Hne].
    + unfold buffered, blocked. simpl. rewrite Hq. simpl. intros; simplify_eq. split; [done|].
      by split; simpl; try done.
    + destruct (Z.to_nat cap) as [|n] eqn:Hk; [lia|].
      assert (Hb : buffered cap q = s :: take n ss).
      { unfold buffered. rewrite (proj2 (Z.eqb_neq _ _) Hne), Hq, Hk. done. }
      assert (Hbl : blocked cap q = drop (S n) (s :: ss)).
      { unfold blocked. by rewrite (proj2 (Z.eqb_neq _ _) Hne), Hq, Hk. }
      rewrite Hb. simpl. destruct (blocked cap q) as [|b bs] eqn:Hd.
      * symmetry in Hbl. intros; simplify_eq. split; [done|].
        assert (length ss <= n)%nat by (apply (f_equal length) in Hbl; rewrite length_drop in Hbl; simpl in Hbl; lia).
        split; simpl; try done; unfold buffered, blocked; simpl; rewrite (proj2 (Z.eqb_neq _ _) Hne), Hk.
        -- by rewrite !take_ge by lia.
        -- by rewrite drop_ge by lia.
      * symmetry in Hbl. destruct (take_drop_shift _ _ _ _ _ Hbl) as [Ht Hd']. intros; simplify_eq. split.
        -- change (settlements ([Deliver (route runner (s_isolate b) (s_worker_index b) (ResolveSenderTask (s_isolate b) (s_resolver b)))] ++
             [Settle (r_resolver r) (settle_message (s_msg s) (r_is_next r)); ReturnPromise (r_resolver r)]) =
             settled_answers (ERecv r, [Accepted b] ++ [Received (s_msg s) r])).
           rewrite settlements_app, settled_app. by rewrite (settled_deliver (ERecv r) (Accepted b)).
        -- split; simpl; try done; unfold buffered, blocked; simpl; rewrite (proj2 (Z.eqb_neq _ _) Hne), Hk.
           ++ by rewrite Ht, fmap_app.
           ++ done.
Qed.

Lemma settlements_close rs :
  settlements (close_receiver runner <$> rs) = settled_answers (EClose, Ended <$> rs).
Proof.
  induction rs as [|r rs IH]; [done|].
  change (settlements ([close_receiver runner r] ++ (close_receiver runner <$> rs)) =
          settled_answers (EClose, [Ended r] ++ (Ended <$> rs))).
  rewrite settlements_app, settled_app, IH. f_equal. by apply settled_deliver.
Qed.

Lemma represents_close cap q st st' es :
  represents cap q st -> Close_commit runner st = (st', es) ->
  settlements es = settled_answers (EClose, (queue_step cap EClose q).2) /\
  represents cap (queue_step cap EClose q).1 st'.
Proof.
  intros [[Hq1 Hq2] Hc Hm Hs Hr Hcl]. unfold Close_commit. intros; simplify_eq. simpl.
  rewrite Hr, settlements_close. by split.
Qed.

Lemma represents_step cap q c e es c' :
  0 <= cap -> represents cap q (chan c) -> step runner c (e, es) c' ->
  settlements es = settled_answers (e, (queue_step cap e q).2) /\
  represents cap (queue_step cap e q).1 (chan c').
Proof.
  intros Hcap Hr Hst. inversion Hst as [st fs isolate w resolver args es' msg Hp| | |]; subst;
    [|by eapply represents_send|by eapply represents_recv|by eapply represents_close].
  split; [|done]. unfold Send_prepare in Hp. repeat case_match; simplify_eq.
  unfold settled_answers. simpl. by match goal with |- context [Detach <$> ?l] => induction l end.
Qed.

Lemma represents_run cap q c tr c' :
  0 <= cap -> represents cap q (chan c) -> run (step runner) c tr c' ->
  let '(q', outs) := queue_run cap tr.*1 q in
  settlements <$> tr.*2 = settled_answers <$> outs /\ represents cap q' (chan c').
Proof.
  intros Hcap Hr Hrun. revert q Hr. induction Hrun as [c|c [e es] c1 tr c2 Hst _ IH]; intros q Hr; [done|].
  rewrite !fmap_cons. cbn [queue_run fst snd]. destruct (represents_step _ _ _ _ _ _ Hcap Hr Hst) as [Hs Hr1].
  destruct (queue_step cap e q) as [q1 ans]. specialize (IH q1 Hr1).
  destruct (queue_run cap tr.*1 q1) as [q2 outs]. destruct IH as [IH ?]. split; [|done]. cbn [snd] in Hs. by rewrite fmap_cons, <- IH, <- Hs.
Qed.

Lemma represents_initial cap : represents cap empty_queue (chan (initial cap)).
Proof. split; try done; unfold buffered, blocked; simpl; rewrite ?take_nil, ?drop_nil; by destruct (cap =? 0). Qed.

Lemma answers_close rs :
  received (Ended <$> rs) = [] /\ answered (Ended <$> rs) = rs /\ accepted (Ended <$> rs) = [].
Proof.
  induction rs as [|r rs (IH1 & IH2 & IH3)]; [done|]. split_and!; [exact IH1| |exact IH3].
  change (r :: answered (Ended <$> rs) = r :: rs). by rewrite IH2.
Qed.

(** The reference serves messages, receivers and senders in order. *)
Lemma queue_step_order cap e q :
  0 <= cap -> queue_ok q ->
  let '(q', ans) := queue_step cap e q in
  queue_ok q' /\
  (s_msg <$> queued q) ++ (s_msg <$> sends [e]) = received ans ++ (s_msg <$> queued q') /\
  receivers q ++ receives [e] = answered ans ++ receivers q' /\
  blocked cap q ++ sends [e] = accepted ans ++ blocked cap q'.
Proof.
  intros Hcap [Hq1 Hq2]. destruct e as [|s|r|]; simpl; rewrite ?app_nil_r; [done| | |].
  - destruct (receivers q) as [|r rs] eqn:Hr; simpl.
    + split; [by split|]. rewrite fmap_app. unfold blocked. simpl.
      destruct (Z.eqb_spec cap 0) as [->|Hn]; simpl; [by rewrite ?app_nil_r|].
      destruct (Z.ltb_spec (Z.of_nat (length (queued q))) cap); simpl.
      * rewrite !drop_ge by (rewrite ?length_app; simpl; lia). done.
      * by rewrite drop_app_le by lia.
    + assert (queued q = []) as He by (destruct (queued q); [done|by discriminate Hq1]).
      unfold blocked. simpl. rewrite He, drop_nil. split; [|by destruct (cap =? 0)].
      split; simpl; [done|]. intros Ht. by discriminate Hq2.
  - destruct (queued q) as [|s ss] eqn:Hq.
    + assert (blocked cap q = []) as Hb by (unfold blocked; rewrite Hq, drop_nil; by destruct (cap =? 0)).
      destruct (is_closed q) eqn:Hc; simpl.
      * rewrite Hb, Hq. split; [split; auto|]. rewrite (Hq2 eq_refl). done.
      * rewrite Hb. unfold blocked. simpl. rewrite drop_nil. split; [by split|]. by destruct (cap =? 0).
    + assert (Hn : receivers q = []) by (by apply Hq1). rewrite Hn. simpl.
      split; [by split|]. unfold blocked. simpl. rewrite Hq.
      destruct (Z.eqb_spec cap 0) as [->|Hne]; simpl; [done|].
      destruct (Z.to_nat cap) as [|n] eqn:Hk; [lia|]. simpl.
      destruct (drop n ss) as [|b bs] eqn:Hd; simpl.
      * assert (length ss <= n)%nat by (apply (f_equal length) in Hd; rewrite length_drop in Hd; simpl in Hd; lia).
        rewrite drop_ge by lia. done.
      * destruct (take_drop_shift n s ss b bs Hd) as [_ ->]. done.
  - destruct (answers_close (receivers q)) as (-> & -> & ->). rewrite ?app_nil_r. split; [by split|done].
Qed.

Lemma queue_run_order cap evs q :
  0 <= cap -> queue_ok q ->
  let '(q', outs) := queue_run cap evs q in
  let ans := mjoin outs.*2 in
  (s_msg <$> queued q) ++ (s_msg <$> sends evs) = received ans ++ (s_msg <$> queued q') /\
  receivers q ++ receives evs = answered ans ++ receivers q' /\
  blocked cap q ++ sends evs = accepted ans ++ blocked cap q'.
Proof.
  intros Hcap. revert q. induction evs as [|e evs IH]; intros q Hq; [by simpl; rewrite !app_nil_r|].
  cbn [queue_run]. pose proof (queue_step_order cap e q Hcap Hq) as Hst. destruct (queue_step cap e q) as [q1 ans].
  destruct Hst as (Hq1 & Hm & Hr & Hs). specialize (IH q1 Hq1).
  destruct (queue_run cap evs q1) as [q2 outs]. destruct IH as (Hm2 & Hr2 & Hs2).
  change (mjoin ((e, ans) :: outs).*2) with (ans ++ mjoin outs.*2). change (e :: evs) with ([e] ++ evs). unfold sends, receives, received, answered, accepted in *.
  rewrite !omap_app, fmap_app. split_and!.
  - by rewrite (assoc_L (++)), Hm, <- !(assoc_L (++)), Hm2.
  - by rewrite (assoc_L (++)), Hr, <- !(assoc_L (++)), Hr2.
  - by rewrite (assoc_L (++)), Hs, <- !(assoc_L (++)), Hs2.
Qed.

(** ** The answers to a sequence of receives *)

Fixpoint answers (reqs : list (nat * bool)) (st : ChannelState) : list (nat * settlement V) :=
  match reqs with
  | [] => []
  | (resolver, is_next) :: reqs =>
      let '(st, es) := Recv_commit runner 0 (-1) resolver is_next st in
      omap (fun e => match e with Settle r s => Some (r, s) | _ => None end) es ++ answers reqs st
  end.

Fixpoint expected (msgs : list ChannelMessage) (reqs : list (nat * bool)) : list (nat * settlement V) :=
  match reqs with
  | [] => []
  | (resolver, is_next) :: reqs =>
      match msgs with
      | msg :: msgs => (resolver, settle_message msg is_next) :: expected msgs reqs
      | [] => (resolver, settle_closed is_next) :: expected [] reqs
      end
  end.

Lemma answers_closed cap reqs st :
  wf cap st -> closed st = true ->
  answers reqs st = expected (messages st ++ (s_msg <$> pending_senders st)) reqs.
Proof.
  revert st. induction reqs as [|[resolver is_next] reqs IH]; simpl; intros st Hw Hc; [done|].
  destruct (Recv_commit runner 0 (-1) resolver is_next st) as [st' es] eqn:E.
  pose proof (wf_recv _ _ _ _ _ _ _ _ _ Hw E) as Hw'. unfold Recv_commit in E.
  destruct (messages st) as [|m rest] eqn:Hm.
  - rewrite Hc in E. simplify_eq. simpl. rewrite (wf_no_blocked _ _ Hw Hm). simpl.
    rewrite IH by done. by rewrite Hm, (wf_no_blocked _ _ Hw Hm).
  - destruct (pending_senders st) as [|p senders]; simplify_eq; simpl; rewrite IH by done; simpl; [done|].
    by rewrite <- (assoc_L (++)).
Qed.

Lemma channel_reachable_wf cap tr c : 0 <= cap -> run (step (V := V) runner) (initial cap) tr c -> wf cap (chan c).
Proof.
  intros Hc. apply (run_invariant _ (fun c => wf cap (chan c))).
  - intros c1 [e es] c2 Hw Hst. inversion Hst; subst; simpl in *;
      [done|by eapply wf_send|by eapply wf_recv|by eapply wf_close].
  - by split; simpl; intros.
Qed.

(** ** Promises *)

Definition settled_by (es : list (effect (V := V))) : list nat := (settlements es).*1.

(** The promises of deleted tasks, with the isolate that would have settled them. *)
Definition task_isolate (t : channel_task) : nat :=
  match t with
  | ResolveSenderTask isolate _ | ResolveChannelTask isolate _ _ _ | ResolveCloseTask isolate _ _ => isolate
  end.

Definition dropped_by (es : list (effect (V := V))) : list (nat * nat) :=
  omap (fun e => match e with
        | Deliver (Deleted t) => Some (task_isolate t, (RunInternal (V := V) t).1)
        | _ => None
        end) es.

Definition returned_by (es : list (effect (V := V))) : list nat :=
  omap (fun e => match e with ReturnPromise resolver => Some resolver | _ => None end) es.

Definition waiting (st : ChannelState) : list nat :=
  (r_resolver <$> pending_receivers st) ++ (s_resolver <$> pending_senders st).

(** The promises a list of effects is done with. *)
Definition ended_by (es : list (effect (V := V))) : list nat := settled_by es ++ (dropped_by es).*2.

Lemma ended_app es1 es2 : ended_by (es1 ++ es2) ≡ₚ ended_by es1 ++ ended_by es2.
Proof.
  unfold ended_by, settled_by, dropped_by. rewrite settlements_app, omap_app, !fmap_app. solve_Permutation.
Qed.

Lemma ended_cons e es : ended_by (e :: es) ≡ₚ ended_by [e] ++ ended_by es.
Proof. exact (ended_app [e] es). Qed.

Lemma ended_route isolate w t :
  ended_by [Deliver (route runner isolate w t)] = [(RunInternal (V := V) t).1].
Proof. unfold route. repeat case_match; done. Qed.

Lemma ended_close ps : ended_by (close_receiver runner <$> ps) ≡ₚ r_resolver <$> ps.
Proof.
  induction ps as [|p ps IH]; [done|].
  change (ended_by ([close_receiver runner p] ++ (close_receiver runner <$> ps)) ≡ₚ r_resolver <$> (p :: ps)).
  rewrite ended_app, IH. unfold close_receiver. by rewrite ended_route.
Qed.

Lemma returned_close ps : returned_by (close_receiver runner <$> ps) = [].
Proof. induction ps as [|p ps IH]; [done|]. exact IH. Qed.

Lemma returned_app es1 es2 : returned_by (es1 ++ es2) = returned_by es1 ++ returned_by es2.
Proof. apply omap_app. Qed.

Lemma detach_promises (ss : list nat) :
  returned_by (Detach <$> ss) = [] /\ ended_by (Detach <$> ss) = [].
Proof. induction ss as [|s ss [IH1 IH2]]; [done|]. split; [exact IH1|exact IH2]. Qed.

Lemma step_promises c e es c' :
  step (V := V) runner c (e, es) c' ->
  returned_by es ++ waiting (chan c) ≡ₚ ended_by es ++ waiting (chan c').
Proof.
  intros Hst. inversion Hst as [st fs isolate w resolver args es' msg Hp|st fs1 f fs2 st' es' Hc
    |st fs r st' es' Hc|st fs st' es' Hc]; subst; simpl.
  - unfold Send_prepare in Hp. repeat case_match; simplify_eq.
    match goal with |- context [Detach <$> ?l] => by destruct (detach_promises l) as [-> ->] end.
  - unfold Send_commit, waiting in *. destruct (pending_receivers st) as [|p rest]; [case_match|]; simplify_eq.
    + simpl. rewrite fmap_app. simpl. solve_Permutation.
    + done.
    + rewrite ended_cons, ended_route. simpl. solve_Permutation.
  - unfold Recv_commit, waiting in *. destruct (messages st) as [|m rest].
    + destruct (closed st); simplify_eq; simpl; [done|]. rewrite fmap_app. simpl. solve_Permutation.
    + destruct (pending_senders st) as [|p senders] eqn:Hs; simplify_eq; simpl; [done|].
      rewrite ended_cons, ended_route. simpl. solve_Permutation.
  - unfold Close_commit, waiting in *. simplify_eq. simpl. by rewrite ended_close, returned_close.
Qed.

Lemma run_promises c tr c' :
  run (step (V := V) runner) c tr c' ->
  returned_by (mjoin tr.*2) ++ waiting (chan c) ≡ₚ ended_by (mjoin tr.*2) ++ waiting (chan c').
Proof.
  induction 1 as [|c [e es] c' tr c'' Hst _ IH]; [done|].
  change (mjoin ((e, es) :: tr).*2) with (es ++ mjoin tr.*2). rewrite returned_app, ended_app.
  apply step_promises in Hst. rewrite <- !(assoc_L (++)), <- IH.
  rewrite (Permutation_app_swap_app (ended_by es)), <- Hst. solve_Permutation.
Qed.

Lemma route_dropped isolate w t :
  task_isolate t = isolate -> Forall (fun d => runner d.1 = false) (dropped_by [Deliver (route runner isolate w t)]).
Proof. intros <-. unfold route. repeat case_match; simpl; by repeat constructor. Qed.

Lemma dropped_close ps : Forall (fun d => runner d.1 = false) (dropped_by (close_receiver runner <$> ps)).
Proof.
  induction ps as [|p ps IH]; [constructor|].
  change (Forall (fun d => runner d.1 = false)
    (dropped_by ([close_receiver runner p] ++ (close_receiver runner <$> ps)))).
  unfold dropped_by at 1. rewrite omap_app. apply Forall_app. split; [by apply route_dropped|exact IH].
Qed.

Lemma detach_dropped (ss : list nat) : dropped_by (Detach <$> ss) = [].
Proof. induction ss as [|s ss IH]; [done|exact IH]. Qed.

Lemma step_dropped c e es c' :
  step (V := V) runner c (e, es) c' -> Forall (fun d => runner d.1 = false) (dropped_by es).
Proof.
  intros Hst. inversion Hst as [st fs isolate w resolver args es' msg Hp|st fs1 f fs2 st' es' Hc
    |st fs r st' es' Hc|st fs st' es' Hc]; subst; simpl.
  - unfold Send_prepare in Hp. repeat case_match; simplify_eq.
    match goal with |- context [Detach <$> ?l] => by rewrite (detach_dropped l) end.
  - unfold Send_commit in Hc. repeat case_match; simplify_eq; try by constructor. by eapply (route_dropped _ _ (ResolveChannelTask _ _ _ _)).
  - unfold Recv_commit in Hc. repeat case_match; simplify_eq; try by constructor. by eapply (route_dropped _ _ (ResolveSenderTask _ _)).
  - unfold Close_commit in Hc. simplify_eq. apply dropped_close.
Qed.

(** ** Statements *)

(** C4. Every interleaving of sends, receives and closes behaves as one queue ([queue_run])
    given the same calls, the racy read of [closed] in Send included: each step settles
    the promises the queue's answers name, as they say, directly or through the task it
    submits (an answer for an isolate without task runner is dropped); the buffer holds
    the first [cap] messages nobody received, the blocked senders are those of the
    others. And the queue is first in, first out: the messages received, then those
    queued, are the messages sent in order; the receivers answered, then those waiting,
    are the receives in order; the sends accepted, then those blocked, are the sends in
    order. *)
Theorem channel_fifo cap tr c :
  0 <= cap -> run (step (V := V) runner) (initial cap) tr c ->
  let '(q, outs) := queue_run cap tr.*1 empty_queue in
  let ans := mjoin outs.*2 in
  (settlements <$> tr.*2 = settled_answers <$> outs) /\
  (messages (chan c) = s_msg <$> buffered cap q /\ pending_senders (chan c) = blocked cap q /\
   pending_receivers (chan c) = receivers q /\ closed (chan c) = is_closed q) /\
  s_msg <$> sends tr.*1 = received ans ++ (s_msg <$> queued q) /\
  receives tr.*1 = answered ans ++ receivers q /\
  sends tr.*1 = accepted ans ++ blocked cap q.
Proof.
  intros Hc Hr. pose proof (represents_run _ _ _ _ _ Hc (represents_initial cap) Hr) as Hrep.
  pose proof (queue_run_order cap tr.*1 empty_queue Hc (rep_ok _ _ _ (represents_initial cap))) as Ho.
  destruct (queue_run cap tr.*1 empty_queue) as [q outs]. destruct Hrep as [Hs []], Ho as (Ho1 & Ho2 & Ho3).
  replace (blocked cap empty_queue) with ([] : list PendingSender) in Ho3
    by (unfold blocked; simpl; rewrite drop_nil; by destruct (cap =? 0)).
  by split_and!.
Qed.

(** Back-pressure: of the messages sent and not received, a bounded channel buffers
    at most its capacity and the senders of the others are the blocked ones; an
    unbounded channel (capacity 0) blocks nobody. *)
Theorem channel_backpressure cap tr c :
  0 <= cap -> run (step (V := V) runner) (initial cap) tr c ->
  let outstanding := Z.of_nat (length (queued (queue_run cap tr.*1 empty_queue).1)) in
  Z.of_nat (length (messages (chan c))) = (if cap =? 0 then outstanding else Z.min cap outstanding) /\
  Z.of_nat (length (pending_senders (chan c))) = (if cap =? 0 then 0 else Z.max 0 (outstanding - cap)).
Proof.
  intros Hc Hr. pose proof (represents_run _ _ _ _ _ Hc (represents_initial cap) Hr) as Hrep.
  destruct (queue_run cap tr.*1 empty_queue) as [q outs]. destruct Hrep as [_ []].
  rewrite rep_messages0, rep_senders0, length_fmap, blocked_length by done. split; [done|]. unfold blocked.
  destruct (Z.eqb_spec cap 0); simpl; rewrite ?length_drop; lia.
Qed.

(** C28. Every promise that Send, Recv and Next return ends at most once: in every
    execution the promises returned are, as a multiset, those settled (by the call
    itself or by a task handed to a worker or a task runner), those whose task was
    deleted, which only happens when their isolate has no task runner, and those that
    wait in one queue of the channel. *)
Theorem channel_promises_once cap tr c :
  run (step (V := V) runner) (initial cap) tr c ->
  let es := mjoin tr.*2 in
  returned_by es ≡ₚ settled_by es ++ (dropped_by es).*2 ++ waiting (chan c) /\
  Forall (fun d => runner d.1 = false) (dropped_by es).
Proof.
  intros Hr. split.
  - apply run_promises in Hr. unfold ended_by in Hr. by rewrite app_nil_r, <- (assoc_L (++)) in Hr.
  - induction Hr as [|c [e es] c' tr c'' Hst _ IH]; [constructor|].
    change (mjoin ((e, es) :: tr).*2) with (es ++ mjoin tr.*2).
    unfold dropped_by. rewrite omap_app. apply Forall_app. split; [by eapply step_dropped|exact IH].
Qed.

(** Closing: a closed channel has no waiting receiver, and any sequence of receives
    on it gets, in order, the buffered messages, then those of the blocked senders,
    then "closed" ([undefined], or [{ value: undefined, done: true }] for next). *)
Theorem channel_close_drains cap tr c reqs :
  0 <= cap -> run (step (V := V) runner) (initial cap) tr c -> closed (chan c) = true ->
  pending_receivers (chan c) = [] /\
  answers reqs (chan c) = expected (messages (chan c) ++ (s_msg <$> pending_senders (chan c))) reqs.
Proof.
  intros Hc Hr Hcl. pose proof (channel_reachable_wf _ _ _ Hc Hr) as Hw.
  split; [by apply (wf_closed _ _ Hw)|by eapply answers_closed].
Qed.

(** The items of the transfer list a call of Send was given. *)
Definition transfer_items (args : list V) : list (option V) :=
  match args with _ :: l :: _ => default [] (js_elements l) | _ => [] end.

(** What arrives is what was sent: when every item of the transfer list (absent, or
    the second argument) is an ArrayBuffer, the receive that gets the message resolves
    with the value (inside [{ value, done: false }] for next). *)
Theorem channel_message_roundtrip `{!CodecLaws V} message rest stores es msg is_next :
  Forall2 (fun item s => exists v, item = Some v /\ js_array_buffer v = Some s)
    (transfer_items (message :: rest)) stores ->
  Send_prepare Wrapped (message :: rest) false = inr (es, msg) ->
  settle_message msg is_next = Resolve (if is_next then js_iter_result message false else message).
Proof.
  intros Hf. assert (Ht : transfer_of (message :: rest) = imap (fun i s => (i, s)) stores).
  { destruct rest; simpl in *; [by inversion Hf|]. by apply transfer_list_buffers. }
  unfold Send_prepare. rewrite Ht.
  destruct (write_value _ false message) as [[b sab]|] eqn:Hw; [|done]. intros; simplify_eq.
  pose proof (codec_unshared _ _ _ _ Hw) as ->. destruct (codec_roundtrip _ _ _ _ _ Hw) as (_ & Hh & Hr).
  unfold settle_message. simpl. rewrite Hh, (imap_pair_snd (fun i => i)), Hr. by destruct is_next.
Qed.
End theorems.

(** ** Concrete executions *)

Inductive call :=
| CallSend (isolate : nat) (worker_index : Z) (resolver : nat) (args : list value)
| CommitSend (k : nat)
| CallRecv (isolate : nat) (worker_index : Z) (resolver : nat) (is_next : bool)
| CallClose.

Section exec.
Context (runner : nat -> bool).

Definition perform (a : call) (c : config) : option ((event * list (effect (V := value))) * config) :=
  let st := chan c in
  match a with
  | CallSend isolate w resolver args =>
      match Send_prepare Wrapped args (closed st) with
      | inl _ => None
      | inr (es, msg) => Some ((EPrepare, es), mkConfig st (sending c ++ [mkSender msg isolate w resolver]))
      end
  | CommitSend k =>
      f ← sending c !! k;
      let '(st', es) := Send_commit runner (s_isolate f) (s_worker_index f) (s_resolver f) (s_msg f) st in
      Some ((ESend f, es), mkConfig st' (take k (sending c) ++ drop (S k) (sending c)))
  | CallRecv isolate w resolver is_next =>
      let '(st', es) := Recv_commit runner isolate w resolver is_next st in
      Some ((ERecv (mkReceiver isolate w resolver is_next), es), mkConfig st' (sending c))
  | CallClose => let '(st', es) := Close_commit runner st in Some ((EClose, es), mkConfig st' (sending c))
  end.

Fixpoint perform_all (l : list call) (c : config) : option (list (event * list (effect (V := value))) * config) :=
  match l with
  | [] => Some ([], c)
  | a :: l => '(l1, c) ← perform a c; '(tr, c) ← perform_all l c; Some (l1 :: tr, c)
  end.

Lemma channel_perform_step a c es c' : perform a c = Some (es, c') -> step runner c es c'.
Proof.
  destruct c as [st fs], a; simpl; intros Hp.
  - destruct (Send_prepare _ _ _) as [|[? ?]] eqn:E; simplify_eq. by econstructor.
  - destruct (fs !! k) as [f|] eqn:Hk; simpl in Hp; [|done].
    destruct (Send_commit _ _ _ _ _ st) as [st' es'] eqn:E. simplify_eq.
    rewrite <- (take_drop_middle fs k f Hk) at 1. by constructor.
  - destruct (Recv_commit _ _ _ _ _ st) as [st' es'] eqn:E. simplify_eq. by econstructor.
  - simplify_eq. by apply step_close.
Qed.

Lemma channel_perform_all_run l c tr c' : perform_all l c = Some (tr, c') -> run (step runner) c tr c'.
Proof.
  revert c tr. induction l as [|a l IH]; simpl; intros c tr Hp; simplify_eq; [constructor|].
  destruct (perform a c) as [[es c1]|] eqn:E; simpl in Hp; [|done].
  destruct (perform_all l c1) as [[tr' c2]|] eqn:E'; simpl in Hp; simplify_eq.
  econstructor; [by apply channel_perform_step in E|by apply IH].
Qed.
End exec.

Definition no_isolate_runner (_ : nat) : bool := false.

(** On a channel of capacity 1, a receiver of an isolate without task runner waits and
    its message is lost; one of worker 2 waits and gets the next message; of two more
    sends, the last one commits after Close, whose flag it read too early, and blocks. *)
Definition demo_calls : list call :=
  [CallRecv 8 (-1) 99 false; CallSend 1 0 98 [VNumber 9]; CommitSend 0;
   CallRecv 7 2 100 true; CallSend 1 0 101 [VNumber 10]; CommitSend 0;
   CallSend 1 0 102 [VNumber 11]; CommitSend 0; CallSend 1 3 103 [VNumber 12]; CallClose; CommitSend 0].

Lemma demo_runs :
  { tc | perform_all no_isolate_runner demo_calls (initial 1) = Some tc }.
Proof. eexists. vm_compute. reflexivity. Defined.

Definition demo_trace := (proj1_sig demo_runs).1.
Definition demo_config := (proj1_sig demo_runs).2.

Lemma channel_demo_run : run (step no_isolate_runner) (initial 1) demo_trace demo_config.
Proof. apply (channel_perform_all_run _ demo_calls). reflexivity. Qed.

Lemma channel_fifo_witness :
  let '(q, outs) := queue_run 1 demo_trace.*1 empty_queue in
  length (received (mjoin outs.*2)) = 2%nat /\ s_msg <$> sends demo_trace.*1 = received (mjoin outs.*2) ++ (s_msg <$> queued q).
Proof.
  pose proof (channel_fifo no_isolate_runner 1 _ _ (Z.le_0_1) channel_demo_run) as Hf. revert Hf.
  destruct (queue_run 1 demo_trace.*1 empty_queue) as [q outs] eqn:E. vm_compute in E. simplify_eq.
  intros (_ & _ & Hf & _). split; [reflexivity|exact Hf].
Defined.

Lemma channel_backpressure_witness :
  Z.of_nat (length (messages (chan demo_config))) = Z.min 1 2 /\
  Z.of_nat (length (pending_senders (chan demo_config))) = Z.max 0 (2 - 1).
Proof. refine (channel_backpressure _ 1 _ _ _ channel_demo_run). lia. Defined.

Lemma channel_promises_once_witness :
  waiting (chan demo_config) = [103%nat] /\ dropped_by (mjoin demo_trace.*2) = [(8, 99)%nat] /\
  (let es := mjoin demo_trace.*2 in
   returned_by es ≡ₚ settled_by es ++ (dropped_by es).*2 ++ waiting (chan demo_config) /\
   Forall (fun d => no_isolate_runner d.1 = false) (dropped_by es)).
Proof. split; [reflexivity|]. split; [reflexivity|]. exact (channel_promises_once _ 1 _ _ channel_demo_run). Defined.

Lemma channel_close_drains_witness :
  closed (chan demo_config) = true /\
  answers no_isolate_runner [(1%nat, false); (2%nat, true); (3%nat, true)] (chan demo_config) =
    [(1%nat, Resolve (VNumber 11)); (2%nat, Resolve (VIterResult (VNumber 12) false));
     (3%nat, Resolve (VIterResult VUndefined true))].
Proof.
  split; [reflexivity|].
  etrans; [refine (proj2 (channel_close_drains _ 1 _ _ _ _ channel_demo_run _)); [lia|reflexivity]|vm_compute; reflexivity].
Defined.

Lemma channel_message_roundtrip_witness :
  exists es msg,
    Send_prepare Wrapped [VBuffer 9; VCons (VBuffer 4) (VCons (VBuffer 9) VNil)] false = inr (es, msg) /\
    settle_message msg false = Resolve (VBuffer 9).
Proof.
  eexists _, _. split; [reflexivity|].
  refine (channel_message_roundtrip (VBuffer 9) [VCons (VBuffer 4) (VCons (VBuffer 9) VNil)] [4%nat; 9%nat] _ _ false _ _);
    [|reflexivity].
  constructor; [by eexists|]. constructor; [by eexists|constructor].
Defined.

(** The identifiers Send gives to transferred buffers are their positions in the
    transfer list, but the receiver registers the buffers under their positions among
    the ArrayBuffers only: with another item before it, a transferred buffer is
    detached from the sender and the receiver fails to deserialize the message. *)
Theorem send_transfer_index_mismatch (store : nat) (n : Z) :
  exists msg,
    Send_prepare Wrapped [VBuffer store; VCons (VNumber n) (VCons (VBuffer store) VNil)] false =
      inr ([Detach store], msg) /\
    transfer_of [VBuffer store; VCons (VNumber n) (VCons (VBuffer store) VNil)] = [(1%nat, store)] /\
    mstores msg = [store] /\
    settle_message msg false = Reject (VError Error "Failed to deserialize message").
Proof. eexists. simpl. rewrite decide_True by done. by split_all. Qed.
