(* ===== verification/MutexState.v ===== *)
(** Mutexes: src/src/threading/mutex.{h,cc}.

    The state of a mutex, its JavaScript entry points, the task that runs a waiting
    callback, and the interleavings of concurrent calls. A critical section (the run
    of a callback) is three steps, each one a section of the code under
    [state->mutex]: it takes the value, stores the new one, and hands the lock on. *)
From S2P Require Import Prelude Engine Channel.

Section mutex.
Context {V : Type} `{JSValue V} `{Codec V} (runner : nat -> bool).

(** ** mutex.h *)

Record PendingLock := mkPending {
  p_isolate : nat; p_worker_index : Z; p_callback : V; p_resolver : nat;
}.

Record MutexState := mkMutex {
  serialized_value : bytes;
  locked : bool;
  pending_locks : list PendingLock;
}.

(** ResolveMutexTask: the isolate to run on, the callback and the resolver. *)
Record mutex_task := ResolveMutexTask { t_isolate : nat; t_callback : V; t_resolver : nat }.

Inductive mutex_effect :=
| MThrow (k : error_kind) (msg : string)
| MSettle (resolver : nat) (s : settlement V)
| MDeliver (d : delivery mutex_task)
| MReturnPromise (resolver : nat)
| MReturn (v : V).

(** ** The critical section *)

(** A call of a callback: its value, or the exception the TryCatch holds. *)
Abbreviation result := (V + V)%type.

Definition current_value (serialized_val : bytes) : option V :=
  match serialized_val with [] => Some js_undefined | _ => deserialize serialized_val end.

(** From the call of the callback to the settlement: what is stored, if anything. *)
Definition section_result (r : result) : option bytes * settlement V :=
  match r with
  | inr exception => (None, Reject exception)
  | inl new_val =>
      match serialize new_val with
      | Some b => (Some b, Resolve new_val)
      | None => (None, Reject (js_error Error "Failed to serialize updated mutex value"))
      end
  end.

Definition deserialize_error : settlement V := Reject (js_error Error "Failed to deserialize mutex value").

Definition store (b : option bytes) (st : MutexState) : MutexState :=
  match b with Some b => mkMutex b (locked st) (pending_locks st) | None => st end.

(** [ReleaseLock]: the lock passes to the first waiter, or is free. *)
Definition ReleaseLock (st : MutexState) : MutexState * list mutex_effect :=
  match pending_locks st with
  | pending :: rest =>
      (mkMutex (serialized_value st) (locked st) rest,
       [MDeliver (route runner (p_isolate pending) (p_worker_index pending)
          (ResolveMutexTask (p_isolate pending) (p_callback pending) (p_resolver pending)))])
  | [] => (mkMutex (serialized_value st) false [], [])
  end.

(** The whole section on the value it took. [invoke] is [cb->Call]: it may use the
    mutex itself, so it acts on the state. *)
Definition critical_section (invoke : V -> MutexState -> result * MutexState)
    (resolver : nat) (serialized_val : bytes) (st : MutexState) : MutexState * list mutex_effect :=
  match current_value serialized_val with
  | None =>
      let '(st, es) := ReleaseLock st in (st, MSettle resolver deserialize_error :: es)
  | Some current_val =>
      let '(r, st) := invoke current_val st in
      let '(stored, s) := section_result r in
      let '(st, es) := ReleaseLock (store stored st) in (st, MSettle resolver s :: es)
  end.

(** [ResolveMutexTask::RunInternal]. *)
Definition RunInternal (invoke : V -> MutexState -> result * MutexState) (t : mutex_task)
    (st : MutexState) : MutexState * list mutex_effect :=
  critical_section invoke (t_resolver t) (serialized_value st) st.

(** ** The entry points *)

Definition Lock_enqueue (c : caller) (callback : V) (resolver : nat) (st : MutexState) : MutexState :=
  mkMutex (serialized_value st) (locked st)
    (pending_locks st ++ [mkPending (c_isolate c) (c_worker_index c) callback resolver]).

Definition Lock (is_function : V -> bool) (invoke : V -> V -> MutexState -> result * MutexState)
    (this : holder) (c : caller) (args : list V) (st : MutexState) : MutexState * list mutex_effect :=
  match args with
  | callback :: _ =>
      if is_function callback then
        match this with
        | NoField => (st, [MThrow TypeError "Invalid mutex object"])
        | NoState => (st, [MThrow TypeError "Mutex is destroyed"])
        | Wrapped =>
            match c_resolver c with
            | None => (st, [])
            | Some resolver =>
                if locked st then (Lock_enqueue c callback resolver st, [MReturnPromise resolver])
                else
                  let '(st, es) := critical_section (invoke callback) resolver (serialized_value st)
                    (mkMutex (serialized_value st) true (pending_locks st)) in
                  (st, es ++ [MReturnPromise resolver])
            end
        end
      else (st, [MThrow TypeError "Callback function required"])
  | [] => (st, [MThrow TypeError "Callback function required"])
  end.

Definition Value (this : holder) (st : MutexState) : list mutex_effect :=
  match this with
  | NoField => [MThrow TypeError "Invalid mutex object"]
  | NoState => [MThrow TypeError "Mutex is destroyed"]
  | Wrapped =>
      match current_value (serialized_value st) with
      | Some val => [MReturn val]
      | None => [MThrow Error "Failed to deserialize value"]
      end
  end.

(** [~MutexState]: the resolvers of the waiters it deletes with their callbacks. *)
Definition destroy_MutexState (is_disposing : bool) (st : MutexState) : list nat :=
  if is_disposing then [] else p_resolver <$> pending_locks st.

(** ** Concurrent calls *)

(** A critical section in progress: handed to a task that has not started, holding
    the value it took, or done and about to release the lock. *)
Inductive phase := Granted | Holding (serialized_val : bytes) | Releasing.
Record section := mkSection { x_phase : phase; x_resolver : nat }.

(** One completed store, for the history: the resolver, the value taken, the value left. *)
Record update := mkUpdate { u_resolver : nat; u_before : bytes; u_after : bytes }.

Record config := mkConfig {
  mtx : MutexState;
  sections : list section;       (* critical sections in progress *)
  lost : list mutex_task;        (* tasks that were deleted instead of delivered *)
  asked : list nat;              (* history: resolvers of the calls of Lock *)
  granted : list nat;            (* those the lock was given to *)
  updates : list update;         (* the sections that ran the callback *)
}.

Definition grant_sections (es : list mutex_effect) : list section :=
  omap (fun e => match e with
    | MDeliver d => match d with
        | SubmittedToWorker _ t | PostedForeground _ t => Some (mkSection Granted (t_resolver t))
        | Deleted _ => None end
    | _ => None end) es.

Definition grant_lost (es : list mutex_effect) : list mutex_task :=
  omap (fun e => match e with MDeliver (Deleted t) => Some t | _ => None end) es.

Definition grant_resolvers (st : MutexState) : list nat :=
  match pending_locks st with p :: _ => [p_resolver p] | [] => [] end.

Inductive step : config -> list mutex_effect -> config -> Prop :=
| step_acquire st xs lo ak gr up resolver :
    locked st = false ->
    step (mkConfig st xs lo ak gr up) []
         (mkConfig (mkMutex (serialized_value st) true (pending_locks st))
            (xs ++ [mkSection (Holding (serialized_value st)) resolver]) lo
            (ak ++ [resolver]) (gr ++ [resolver]) up)
| step_enqueue st xs lo ak gr up c callback resolver :
    locked st = true ->
    step (mkConfig st xs lo ak gr up) [MReturnPromise resolver]
         (mkConfig (Lock_enqueue c callback resolver st) xs lo (ak ++ [resolver]) gr up)
| step_start st xs1 resolver xs2 lo ak gr up :
    step (mkConfig st (xs1 ++ mkSection Granted resolver :: xs2) lo ak gr up) []
         (mkConfig st (xs1 ++ mkSection (Holding (serialized_value st)) resolver :: xs2) lo ak gr up)
| step_fail st xs1 b resolver xs2 lo ak gr up :
    current_value b = None ->
    step (mkConfig st (xs1 ++ mkSection (Holding b) resolver :: xs2) lo ak gr up)
         [MSettle resolver deserialize_error]
         (mkConfig st (xs1 ++ mkSection Releasing resolver :: xs2) lo ak gr up)
| step_commit st xs1 b resolver xs2 lo ak gr up current_val r stored s :
    current_value b = Some current_val ->
    section_result r = (stored, s) ->
    step (mkConfig st (xs1 ++ mkSection (Holding b) resolver :: xs2) lo ak gr up)
         [MSettle resolver s]
         (mkConfig (store stored st) (xs1 ++ mkSection Releasing resolver :: xs2) lo ak gr
            (up ++ [mkUpdate resolver b (default b stored)]))
| step_release st xs1 resolver xs2 lo ak gr up st' es :
    ReleaseLock st = (st', es) ->
    step (mkConfig st (xs1 ++ mkSection Releasing resolver :: xs2) lo ak gr up) es
         (mkConfig st' (xs1 ++ xs2 ++ grant_sections es) (lo ++ grant_lost es) ak
            (gr ++ grant_resolvers st) up).

Definition new_mutex (b : bytes) : MutexState := mkMutex b false [].
Definition initial (b : bytes) : config := mkConfig (new_mutex b) [] [] [] [] [].

(** Each section takes what the previous one left. *)
Fixpoint chained (b : bytes) (us : list update) : Prop :=
  match us with [] => True | u :: us => u_before u = b /\ chained (u_after u) us end.

Definition left_by (b : bytes) (us : list update) : bytes := foldl (fun _ u => u_after u) b us.

Lemma chained_snoc b us u :
  chained b us -> u_before u = left_by b us -> chained b (us ++ [u]).
Proof.
  revert b. induction us as [|u' us IH]; simpl; intros b Hc Hu; [done|].
  destruct Hc as [Hb Hc]. split; [done|]. by apply IH.
Qed.

Lemma left_by_snoc b us u : left_by b (us ++ [u]) = u_after u.
Proof. unfold left_by. by rewrite foldl_app. Qed.

Record inv (b0 : bytes) (c : config) : Prop := {
  inv_count : Z.of_nat (length (sections c) + length (lost c)) = Z.b2z (locked (mtx c));
  inv_waiting : locked (mtx c) = false -> pending_locks (mtx c) = [];
  inv_fifo : asked c = granted c ++ (p_resolver <$> pending_locks (mtx c));
  inv_chain : chained b0 (updates c);
  inv_value : serialized_value (mtx c) = left_by b0 (updates c);
  inv_holding : forall x b, x ∈ sections c -> x_phase x = Holding b -> b = serialized_value (mtx c);
}.

Lemma mutex_inv_initial b : inv b (initial b).
Proof. split; simpl; try done. by intros ?? Hx%elem_of_nil. Qed.

Lemma inv_unique b0 c xs1 x xs2 :
  inv b0 c -> sections c = xs1 ++ x :: xs2 ->
  xs1 = [] /\ xs2 = [] /\ lost c = [] /\ locked (mtx c) = true.
Proof.
  intros Hi Hx. pose proof (inv_count _ _ Hi) as Hc. rewrite Hx, !length_app in Hc. simpl in Hc.
  destruct (locked (mtx c)); simpl in Hc; [|lia].
  destruct xs1, xs2, (lost c); simpl in Hc; try lia. done.
Qed.

Lemma mutex_step_inv b0 c es c' : inv b0 c -> step c es c' -> inv b0 c'.
Proof.
  intros Hi Hst.
  destruct Hst as [st xs lo ak gr up resolver Hl|st xs lo ak gr up c callback resolver Hl
    |st xs1 resolver xs2 lo ak gr up|st xs1 b resolver xs2 lo ak gr up Hb
    |st xs1 b resolver xs2 lo ak gr up v r stored s Hv Hr|st xs1 resolver xs2 lo ak gr up st' es He].
  - destruct Hi as [Hc Hw Hf Hch Hv Hh]; simpl in *. rewrite Hl in Hc. simpl in Hc.
    destruct xs, lo; simpl in Hc; try lia. specialize (Hw Hl).
    split; simpl; try done; [by rewrite Hf, Hw, !app_nil_r|].
    intros x b Hx%list_elem_of_singleton. subst. simpl. congruence.
  - destruct Hi as [Hc Hw Hf Hch Hv Hh]; simpl in *.
    split; simpl; try done; [by rewrite Hl|]. by rewrite Hf, fmap_app, (assoc_L (++)).
  - destruct (inv_unique _ _ _ _ _ Hi eq_refl) as (-> & -> & Hlo & Hl). simpl in *. subst.
    destruct Hi as [Hc Hw Hf Hch Hv Hh]; simpl in *. split; simpl; try done.
    intros x b Hx%list_elem_of_singleton. subst. simpl. congruence.
  - destruct (inv_unique _ _ _ _ _ Hi eq_refl) as (-> & -> & Hlo & Hl). simpl in *. subst.
    destruct Hi as [Hc Hw Hf Hch Hv Hh]; simpl in *. split; simpl; try done.
    intros x b' Hx%list_elem_of_singleton. by subst.
  - destruct (inv_unique _ _ _ _ _ Hi eq_refl) as (-> & -> & Hlo & Hl). simpl in *. subst.
    destruct Hi as [Hc Hw Hf Hch Hval Hh]; simpl in *.
    assert (b = serialized_value st) as -> by (eapply Hh; [by apply list_elem_of_singleton|done]).
    split; simpl.
    + by destruct stored.
    + by destruct stored.
    + by destruct stored.
    + by apply chained_snoc.
    + rewrite left_by_snoc. by destruct stored.
    + intros x b' Hx%list_elem_of_singleton. by subst.
  - destruct (inv_unique _ _ _ _ _ Hi eq_refl) as (-> & -> & Hlo & Hl). simpl in *. subst.
    destruct Hi as [Hc Hw Hf Hch Hval Hh]; simpl in *. unfold ReleaseLock, grant_resolvers in *.
    destruct (pending_locks st) as [|p rest] eqn:Hp; simplify_eq; simpl.
    + split; simpl; try done; [by rewrite !app_nil_r|]. by intros ?? Hx%elem_of_nil.
    + split; simpl; try done.
      * by rewrite Hl; destruct (route runner _ _ _).
      * by rewrite Hl.
      * by rewrite <- (assoc_L (++)).
      * intros x b. destruct (route runner _ _ _); simpl;
          [intros Hx%list_elem_of_singleton; by subst..|by intros Hx%elem_of_nil].
Qed.

Lemma mutex_reachable_inv b tr c : run step (initial b) tr c -> inv b c.
Proof. apply (run_invariant step (inv b)); eauto using mutex_step_inv, mutex_inv_initial. Qed.
End mutex.
