(* ===== verification/MutexTheorems.v ===== *)
(** The properties of mutexes (MutexState.v): exclusion, order, no lost update,
    progress, the outcome of [Lock] on every branch, and the lock that a deleted task
    keeps forever. *)
From S2P Require Import Prelude Engine Instances Channel MutexState.

Section theorems.
Context {V : Type} `{JSValue V} `{Codec V} (runner : nat -> bool).
Implicit Types (st : MutexState (V := V)) (c : config (V := V)).

(** ** Handlers as executions *)

(** A callback that leaves the mutex alone. *)
Definition pure_callback (r : V -> V + V) (v : V) (st : MutexState (V := V)) := (r v, st).

Lemma critical_section_run st xs lo ak gr up resolver r st' es :
  critical_section runner (pure_callback r) resolver (serialized_value st) st = (st', es) ->
  exists tr c', run (step runner)
    (mkConfig st (mkSection (Holding (serialized_value st)) resolver :: xs) lo ak gr up) tr c' /\
    mtx c' = st' /\ mjoin tr = es.
Proof.
  unfold critical_section, pure_callback. destruct (current_value _) as [v|] eqn:Hv.
  - destruct (section_result (r v)) as [stored s] eqn:Hr.
    destruct (ReleaseLock runner (store stored st)) as [st1 es1] eqn:Hrel. intros; simplify_eq.
    eexists [_; _], _. split.
    + eapply run_cons; [by eapply (step_commit runner st [])|].
      apply run_one. by eapply (step_release runner _ []).
    + split; [done|]. simpl. by rewrite app_nil_r.
  - destruct (ReleaseLock runner st) as [st1 es1] eqn:Hrel. intros; simplify_eq.
    eexists [_; _], _. split.
    + eapply run_cons; [by eapply (step_fail runner st [])|].
      apply run_one. by eapply (step_release runner _ []).
    + split; [done|]. simpl. by rewrite app_nil_r.
Qed.

Lemma lost_monotone c tr c' : run (step runner) c tr c' -> lost c `prefix_of` lost c'.
Proof.
  induction 1 as [|c es c' tr c'' Hst _ IH]; [done|]. etrans; [|exact IH].
  destruct Hst; simpl; try done. by apply prefix_app_r.
Qed.

Lemma lost_empty c tr c' :
  (forall i, runner i = true) -> lost c = [] -> run (step runner) c tr c' -> lost c' = [].
Proof.
  intros Hrun Hl Hr. revert Hl. induction Hr as [|c es c' tr c'' Hst _ IH]; [done|]. intros Hl. apply IH.
  destruct Hst; simpl in *; try done. subst. unfold ReleaseLock in *.
  destruct (pending_locks st); simplify_eq; simpl; [done|]. unfold route. case_decide; [done|]. by rewrite Hrun.
Qed.

Definition phase_steps (p : phase) : nat :=
  match p with Granted => 3 | Holding _ => 2 | Releasing => 1 end.

(** The steps that the sections in progress and the waiters still have to make. *)
Definition work (c : config (V := V)) : nat :=
  (sum_list_with (phase_steps ∘ x_phase) (sections c) + 4 * length (pending_locks (mtx c)))%nat.

(** ** Statements *)

(** C9. Mutual exclusion: at most one critical section is in progress, and exactly one
    while the mutex is locked, unless the task that held the lock was deleted. *)
Theorem mutex_exclusion b tr c :
  run (step runner) (initial b) tr c ->
  Z.of_nat (length (sections c) + length (lost c)) = Z.b2z (locked (mtx c)).
Proof. intros Hr. by apply (mutex_reachable_inv runner) in Hr as []. Qed.

(** Locks are granted in the order of the calls, and nobody waits for a free mutex. *)
Theorem mutex_fifo b tr c :
  run (step runner) (initial b) tr c ->
  asked c = granted c ++ (p_resolver <$> pending_locks (mtx c)) /\
  (locked (mtx c) = false -> granted c = asked c).
Proof.
  intros Hr. apply (mutex_reachable_inv runner) in Hr as [_ Hw Hf _ _ _]. split; [done|].
  intros Hl. rewrite Hf, (Hw Hl). simpl. by rewrite app_nil_r.
Qed.

(** C8. No update is lost: every callback runs on the value that the callback before it
    left (the initial value for the first), and the mutex holds what the last one
    left. *)
Theorem mutex_no_lost_update b tr c :
  run (step runner) (initial b) tr c ->
  chained b (updates c) /\ serialized_value (mtx c) = left_by b (updates c).
Proof. intros Hr. by apply (mutex_reachable_inv runner) in Hr as []. Qed.

(** C32. A locked mutex makes progress when every waiter's isolate can be reached: a step
    of the section in progress is enabled, and every such step brings the sections
    and the waiters closer to the end, so without new calls the mutex becomes free
    after [work c] steps at most. *)
Theorem mutex_progress b tr c :
  (forall i, runner i = true) -> run (step runner) (initial b) tr c ->
  (locked (mtx c) = true -> exists es c', step runner c es c' /\ asked c' = asked c) /\
  (forall es c', step runner c es c' -> asked c' = asked c -> (work c' < work c)%nat) /\
  (locked (mtx c) = false -> work c = O).
Proof.
  intros Hrun Hr. pose proof (lost_empty (initial b) _ _ Hrun eq_refl Hr) as Hlost.
  pose proof (mutex_reachable_inv runner _ _ _ Hr) as Hi. clear Hr. destruct c as [st xs lo ak gr up]; simpl in *. subst lo.
  split_all.
  - intros Hl. pose proof (inv_count _ _ Hi) as Hc. simpl in Hc. rewrite Hl in Hc. simpl in Hc.
    destruct xs as [|[p resolver] [|]]; simpl in Hc; try lia. destruct p as [|b1|].
    + eexists _, _. split; [by apply (step_start runner st [])|done].
    + destruct (current_value b1) as [v|] eqn:Hv.
      * destruct (section_result (inl v)) as [stored s] eqn:Hs.
        eexists _, _. split; [by eapply (step_commit runner st [])|done].
      * eexists _, _. split; [by apply (step_fail runner st [])|done].
    + destruct (ReleaseLock runner st) as [st' es] eqn:Hs.
      eexists _, _. split; [by eapply (step_release runner st [])|done].
  - intros es c' Hst. unfold work. inversion Hst; subst; simpl in *; intros Ha.
    + apply (f_equal length) in Ha; rewrite length_app in Ha; simpl in Ha; lia.
    + apply (f_equal length) in Ha; rewrite length_app in Ha; simpl in Ha; lia.
    + rewrite !sum_list_with_app. simpl. lia.
    + rewrite !sum_list_with_app. simpl. lia.
    + rewrite !sum_list_with_app. simpl. destruct stored; simpl; lia.
    + destruct (inv_unique _ _ _ _ _ Hi eq_refl) as (-> & -> & _ & _). unfold ReleaseLock in *.
      destruct (pending_locks st); simplify_eq; simpl; [lia|].
      unfold route. case_decide; simpl; [lia|]. rewrite Hrun. simpl. lia.
  - intros Hl. pose proof (inv_count _ _ Hi) as Hc. pose proof (inv_waiting _ _ Hi Hl) as Hp. simpl in *.
    rewrite Hl in Hc. unfold work. simpl. rewrite Hp. destruct xs; simpl in *; lia.
Qed.

(** The outcome of a call of Lock on a free mutex, on every path (the stored value
    does not deserialize, the callback throws, its value does not serialize, success):
    the promise is settled once, the lock is free again, and the value changed exactly
    when the promise is resolved, to what the callback returned. *)
Theorem mutex_lock_outcome isfun callback resolver i w r rest (b : bytes) :
  isfun callback = true ->
  exists s b', Lock runner isfun (fun _ => pure_callback r) Wrapped (mkCaller i w (Some resolver))
                 (callback :: rest) (new_mutex b) =
               (new_mutex b', [MSettle resolver s; MReturnPromise resolver]) /\
    match current_value b with
    | None => s = deserialize_error /\ b' = b
    | Some v => match r v with
        | inr e => s = Reject e /\ b' = b
        | inl v' => if serialize v' is Some b'' then s = Resolve v' /\ b' = b''
                    else s = Reject (js_error Error "Failed to serialize updated mutex value") /\ b' = b
        end
    end.
Proof.
  intros Hf. unfold Lock, critical_section, section_result, pure_callback. rewrite Hf. simpl.
  destruct (current_value b) as [v|]; simpl; [|by eexists _, _].
  destruct (r v) as [v'|e]; simpl; [|by eexists _, _].
  destruct (serialize v') as [b''|]; by eexists _, _.
Qed.

(** The value that a callback leaves is the one the next callback and [value()] get. *)
Theorem mutex_value_roundtrip `{!CodecLaws V} isfun callback resolver i w r (b : bytes) v v' st' es :
  isfun callback = true -> current_value b = Some v -> r v = inl v' ->
  Lock runner isfun (fun _ => pure_callback r) Wrapped (mkCaller i w (Some resolver)) [callback] (new_mutex b)
    = (st', MSettle resolver (Resolve v') :: es) ->
  current_value (serialized_value st') = Some v' /\ Value Wrapped st' = [MReturn v'].
Proof.
  intros Hf Hv Hr. unfold Lock, critical_section, section_result, pure_callback. rewrite Hf. simpl. rewrite Hv, Hr.
  unfold serialize. destruct (write_value [] false v') as [[b' sab]|] eqn:Hw; simpl; [|done]. intros; simplify_eq.
  pose proof (codec_unshared _ _ _ _ Hw) as ->.
  destruct (codec_roundtrip [] false v' b' [] Hw) as (Hne & Hh & Hrd).
  assert (Hc : current_value b' = Some v') by (unfold current_value, deserialize; destruct b'; [done|by rewrite Hh]).
  simpl. by rewrite Hc.
Qed.

(** The handlers are executions of the step relation: Lock on a free mutex takes it,
    runs the callback and releases it, with the effects of the steps; so the
    invariants hold for the handlers. *)
Theorem mutex_lock_refines isfun callback resolver i w r rest st lo ak gr up st' es :
  isfun callback = true -> locked st = false ->
  Lock runner isfun (fun _ => pure_callback r) Wrapped (mkCaller i w (Some resolver)) (callback :: rest) st = (st', es) ->
  exists tr c', run (step runner) (mkConfig st [] lo ak gr up) tr c' /\
    mtx c' = st' /\ mjoin tr ++ [MReturnPromise resolver] = es.
Proof.
  intros Hf Hl. unfold Lock. rewrite Hf, Hl. simpl.
  destruct (critical_section _ _ _ _ _) as [st1 es1] eqn:Hc. intros; simplify_eq.
  destruct (critical_section_run _ [] lo (ak ++ [resolver]) (gr ++ [resolver]) up _ _ _ _ Hc)
    as (tr & c' & Hr & Hm & He).
  exists ([] :: tr), c'. split; [|split; [done|by simpl; rewrite He]].
  eapply run_cons; [|exact Hr]. by apply (step_acquire runner st []).
Qed.

(** The task that runs a waiting callback is an execution of the step relation too:
    it starts, runs the callback on the current value and releases the lock. *)
Theorem mutex_task_refines t r st lo ak gr up st' es :
  MutexState.RunInternal runner (pure_callback r) t st = (st', es) ->
  exists tr c', run (step runner) (mkConfig st [mkSection Granted (t_resolver t)] lo ak gr up) tr c' /\
    mtx c' = st' /\ mjoin tr = es.
Proof.
  intros Hc. destruct (critical_section_run _ [] lo ak gr up _ _ _ _ Hc) as (tr & c' & Hr & Hm & He).
  exists ([] :: tr), c'. split; [|done]. eapply run_cons; [|exact Hr]. by apply (step_start runner st []).
Qed.

(** A deleted task keeps the lock: when the isolate of the next waiter has no task
    runner, ReleaseLock deletes its task without releasing the mutex, and from then on
    no callback ever runs, whatever is called. *)
Theorem mutex_deleted_task_deadlock b tr c tr' c' :
  run (step runner) (initial b) tr c -> lost c <> [] -> run (step runner) c tr' c' ->
  locked (mtx c') = true /\ sections c' = [] /\ granted c' = granted c /\ updates c' = updates c.
Proof.
  intros Hr Hl Hr'. assert (Hdead : forall c, inv b c -> lost c <> [] -> locked (mtx c) = true /\ sections c = []).
  { intros c0 Hi Hl0. pose proof (inv_count _ _ Hi) as Hc. destruct (lost c0); [done|]. simpl in Hc.
    destruct (locked _); simpl in Hc; [|lia]. destruct (sections c0); simpl in *; [done|lia]. }
  apply (mutex_reachable_inv runner) in Hr. revert Hr Hl.
  induction Hr' as [c|c es c1 tr' c2 Hst Hrun IH]; intros Hi Hl; [by destruct (Hdead _ Hi Hl)|].
  destruct (Hdead _ Hi Hl) as [Hlk Hse].
  destruct IH as (? & ? & Hg & Hu); [by eapply mutex_step_inv| |].
  - destruct Hst; simpl in *; try done; by destruct xs1.
  - split_all; [done..|rewrite Hg|rewrite Hu]; destruct Hst; simpl in *; try done; try congruence; by destruct xs1.
Qed.
End theorems.

(** ** Concrete executions *)

Inductive call :=
| CallLock (c : caller) (callback : value) (resolver : nat)
| Start                                   (* the granted task starts *)
| Finish (r : value + value)              (* the callback ends *)
| Release.

Section exec.
Context (runner : nat -> bool).

(** The section in progress, when there is exactly one. *)
Definition perform (a : call) (c : config (V := value)) : option (list mutex_effect * config) :=
  let '(mkConfig st xs lo ak gr up) := c in
  match a, xs with
  | CallLock cl callback resolver, _ =>
      if locked st then
        Some ([MReturnPromise resolver], mkConfig (Lock_enqueue cl callback resolver st) xs lo (ak ++ [resolver]) gr up)
      else
        Some ([], mkConfig (mkMutex (serialized_value st) true (pending_locks st))
          (xs ++ [mkSection (Holding (serialized_value st)) resolver]) lo (ak ++ [resolver]) (gr ++ [resolver]) up)
  | Start, [mkSection Granted resolver] =>
      Some ([], mkConfig st [mkSection (Holding (serialized_value st)) resolver] lo ak gr up)
  | Finish r, [mkSection (Holding b) resolver] =>
      match current_value b with
      | None => Some ([MSettle resolver deserialize_error], mkConfig st [mkSection Releasing resolver] lo ak gr up)
      | Some _ =>
          let '(stored, s) := section_result r in
          Some ([MSettle resolver s], mkConfig (store stored st) [mkSection Releasing resolver] lo ak gr
            (up ++ [mkUpdate resolver b (default b stored)]))
      end
  | Release, [mkSection Releasing resolver] =>
      let '(st', es) := ReleaseLock runner st in
      Some (es, mkConfig st' (grant_sections es) (lo ++ grant_lost es) ak (gr ++ grant_resolvers st) up)
  | _, _ => None
  end.

Lemma mutex_perform_step a c es c' : perform a c = Some (es, c') -> step runner c es c'.
Proof.
  destruct c as [st xs lo ak gr up]. destruct a as [cl callback resolver| |r|]; simpl.
  - destruct (locked st) eqn:Hl; intros; simplify_eq; by constructor.
  - destruct xs as [|[[] resolver] [|]]; intros; simplify_eq. by apply (step_start runner st []).
  - destruct xs as [|[[] resolver] [|]]; intros Hp; simplify_eq.
    destruct (current_value _) eqn:Hv; [|simplify_eq; by apply (step_fail runner st [])].
    destruct (section_result r) eqn:Hr; simplify_eq. by eapply (step_commit runner st []).
  - destruct xs as [|[[] resolver] [|]]; intros Hp; simplify_eq.
    destruct (ReleaseLock runner st) eqn:Hr; simplify_eq. by eapply (step_release runner st []).
Qed.

Fixpoint perform_all (l : list call) (c : config) : option (list (list (mutex_effect (V := value))) * config) :=
  match l with
  | [] => Some ([], c)
  | a :: l => '(es, c) ← perform a c; '(tr, c) ← perform_all l c; Some (es :: tr, c)
  end.

Lemma mutex_perform_all_run l c tr c' : perform_all l c = Some (tr, c') -> run (step runner) c tr c'.
Proof.
  revert c tr. induction l as [|a l IH]; simpl; intros c tr Hp; simplify_eq; [constructor|].
  destruct (perform a c) as [[es c1]|] eqn:E; simpl in Hp; [|done].
  destruct (perform_all l c1) as [[tr' c2]|] eqn:E'; simpl in Hp; simplify_eq.
  econstructor; [by apply mutex_perform_step in E|by apply IH].
Qed.
End exec.

Definition counter : bytes := default [] (serialize (VNumber 0)).

(** Two calls of Lock; the second one waits in an isolate outside the pool. *)
Definition two_locks : list call :=
  [CallLock (mkCaller 1 0 None) (VFunction 1) 100; CallLock (mkCaller 5 (-1) None) (VFunction 2) 101;
   Finish (inl (VNumber 1)); Release].

Definition with_runner (_ : nat) : bool := true.
Definition without_runner (_ : nat) : bool := false.

Lemma two_locks_runs runner :
  { tc | perform_all runner two_locks (initial counter) = Some tc }.
Proof. eexists. vm_compute. reflexivity. Defined.

Definition demo_trace runner := (proj1_sig (two_locks_runs runner)).1.
Definition demo_config runner := (proj1_sig (two_locks_runs runner)).2.

Lemma mutex_demo_run runner : run (step runner) (initial counter) (demo_trace runner) (demo_config runner).
Proof. apply (mutex_perform_all_run _ two_locks). reflexivity. Qed.

Lemma mutex_exclusion_witness :
  length (sections (demo_config with_runner)) = 1%nat /\ Z.b2z (locked (mtx (demo_config with_runner))) = 1.
Proof.
  split; [reflexivity|]. etrans; [symmetry; exact (mutex_exclusion _ _ _ _ (mutex_demo_run with_runner))|reflexivity].
Defined.

Lemma mutex_fifo_witness :
  asked (demo_config with_runner) = [100%nat; 101%nat] /\
  asked (demo_config with_runner) = granted (demo_config with_runner) ++ [].
Proof. split; [reflexivity|]. exact (proj1 (mutex_fifo _ _ _ _ (mutex_demo_run with_runner))). Defined.

Lemma mutex_no_lost_update_witness :
  length (updates (demo_config with_runner)) = 1%nat /\ chained counter (updates (demo_config with_runner)).
Proof. split; [reflexivity|]. exact (proj1 (mutex_no_lost_update _ _ _ _ (mutex_demo_run with_runner))). Defined.

Lemma mutex_progress_witness :
  work (demo_config with_runner) = 3%nat /\
  exists es c', step with_runner (demo_config with_runner) es c' /\ asked c' = asked (demo_config with_runner).
Proof.
  split; [reflexivity|].
  exact (proj1 (mutex_progress with_runner _ _ _ (fun _ => eq_refl) (mutex_demo_run with_runner)) eq_refl).
Defined.

Definition is_fun (v : value) : bool := match v with VFunction _ => true | _ => false end.
Definition increment (v : value) : value + value :=
  match v with VNumber n => inl (VNumber (n + 1)) | _ => inr (VError TypeError "not a number") end.

Lemma mutex_lock_outcome_witness :
  exists s b', Lock with_runner is_fun (fun _ => pure_callback increment) Wrapped (mkCaller 1 0 (Some 7%nat))
      [VFunction 1] (new_mutex counter) = (new_mutex b', [MSettle 7 s; MReturnPromise 7]) /\
    s = Resolve (VNumber 1) /\ Some b' = serialize (VNumber 1).
Proof.
  destruct (mutex_lock_outcome with_runner is_fun (VFunction 1) 7 1 0 increment [] counter eq_refl) as (s & b' & He & Hc).
  exists s, b'. split; [exact He|]. vm_compute in Hc. destruct Hc as [-> ->]. split; reflexivity.
Defined.

Lemma mutex_value_roundtrip_witness :
  exists st', Lock with_runner is_fun (fun _ => pure_callback increment) Wrapped (mkCaller 1 0 (Some 7%nat))
      [VFunction 1] (new_mutex counter) = (st', [MSettle 7 (Resolve (VNumber 1)); MReturnPromise 7]) /\
    Value Wrapped st' = [MReturn (VNumber 1)].
Proof.
  eexists. split; [reflexivity|].
  refine (proj2 (mutex_value_roundtrip with_runner is_fun (VFunction 1) 7 1 0 increment counter (VNumber 0) (VNumber 1)
    _ [MReturnPromise 7] _ _ _ _)); reflexivity.
Defined.

Lemma mutex_lock_refines_witness :
  exists tr c', run (step with_runner) (mkConfig (new_mutex counter) [] [] [] [] []) tr c' /\
    serialized_value (mtx c') = default [] (serialize (VNumber 1)).
Proof.
  edestruct (mutex_lock_refines with_runner is_fun (VFunction 1) 7 1 0 increment [] (new_mutex counter) [] [] [] [])
    as (tr & c' & Hr & Hm & _); [reflexivity|reflexivity|reflexivity|].
  exists tr, c'. split; [exact Hr|]. rewrite Hm. reflexivity.
Defined.

Definition waiting_state : MutexState (V := value) := mkMutex counter true [mkPending 1 0 (VFunction 3) 9].

Lemma mutex_task_refines_witness :
  exists tr c', run (step with_runner) (mkConfig waiting_state [mkSection Granted 8] [] [] [] []) tr c' /\
    pending_locks (mtx c') = [].
Proof.
  edestruct (mutex_task_refines with_runner (ResolveMutexTask 1 (VFunction 1) 8) increment waiting_state [] [] [] [])
    as (tr & c' & Hr & Hm & _); [reflexivity|].
  exists tr, c'. split; [exact Hr|]. rewrite Hm. reflexivity.
Defined.

Lemma mutex_deleted_task_deadlock_witness :
  lost (demo_config without_runner) = [ResolveMutexTask 5 (VFunction 2) 101] /\
  locked (mtx (demo_config without_runner)) = true.
Proof.
  split; [reflexivity|].
  refine (proj1 (mutex_deleted_task_deadlock without_runner _ _ _ _ _ (mutex_demo_run without_runner) _ (run_nil _ _))).
  discriminate.
Defined.
