(* ===== verification/Tasks.v ===== *)
(** Task execution: [ExecuteTask] and [SerializeAndSetResult] of
    src/src/threading/thread-pool.cc, and the result object of
    src/src/threading/task.h.

    A task either runs its own code on the worker's isolate (internal tasks) or
    compiles and calls a function; in the second case its promise gets a result on
    every path but one, which ends the process: an exception whose "stack" cannot be
    set. [W] is the state of the isolate and of what other threads change; the
    private queue of the worker is read through [pop_private]. *)
From S2P Require Import Prelude Engine.

Definition newline : string := String (Ascii.ascii_of_nat 10) EmptyString.

Section tasks.
Context {V W : Type} `{JSValue V} `{Codec V} `{!Engine V W}.

(** A task in a queue: an internal one with its [RunInternal], or a function call. *)
Inductive task :=
| InternalTask (run_internal : W -> W)
| FunctionTask (t : thread_task).

Definition IsInternal (t : task) : bool := match t with InternalTask _ => true | FunctionTask _ => false end.

(** What the execution of a task does besides changing [W]. *)
Inductive task_event :=
| SetResult (t : thread_task) (r : task_result)
| DecrementActiveTasks
| Abort.                         (* [Check] of a Nothing: the process ends *)

Definition aborted (es : list task_event) : bool :=
  existsb (fun e => match e with Abort => true | _ => false end) es.

(** Front of the worker's private queue, removed under its mutex. *)
Context (pop_private : W -> option task * W).

(** ** Results *)

(** The exception with the caller's stack appended to its own, or [None] when the
    [Check] of [Set] fails. *)
Definition add_stack (t : thread_task) (exception : V) (w : W) : option V * W :=
  match get_stack exception w with
  | (Some stack, w) =>
      match new_string (stack +:+ newline +:+ caller_stack_trace t) w with
      | (Done new_stack_str, w) => set_stack exception new_stack_str w
      | (Threw _, w) => (Some exception, w)
      end
  | (None, w) => (Some exception, w)
  end.

Definition serialized_exception (exception_val : V) : bytes :=
  match serialize exception_val with
  | Some b => b
  | None => default [] (serialize (js_error Error "Failed to serialize task exception"))
  end.

(** [caught] is what the TryCatch holds. *)
Definition SerializeAndSetResult (caught : option V) (t : thread_task) (w : W) : list task_event * W :=
  match (match caught with
         | Some exception => add_stack t exception w
         | None => (Some (js_error Error "Unknown execution error"), w)
         end) with
  | (Some exception_val, w) => ([SetResult t (TaskResult false (serialized_exception exception_val))], w)
  | (None, w) => ([Abort], w)
  end.

(** ** The arguments *)

(** The arguments of the call, or the exception of the TryCatch when they do not
    deserialize to an array. *)
Definition read_arguments (t : thread_task) : list V + option V :=
  match serialized_arguments t with
  | [] => inl []
  | b =>
      if read_header b then
        match read_value (backing_stores t) (shared_array_buffers t) b with
        | Some args_array_val =>
            match js_elements args_array_val with
            | Some elems => inl (present elems)
            | None => inr None
            end
        | None => inr (read_exception b)
        end
      else inr (read_exception b)
  end.

(** Compile and evaluate "(source)", which must be a function. *)
Definition compile_function (t : thread_task) (w : W) : outcome V V * W :=
  match new_string ("(" +:+ function_source t +:+ ")") w with
  | (Threw e, w) => (Threw e, w)
  | (Done source, w) =>
      match compile source w with
      | (Threw e, w) => (Threw e, w)
      | (Done s, w) =>
          match run_script s w with
          | (Threw e, w) => (Threw e, w)
          | (Done fn_val, w) => (if is_function fn_val then Done fn_val else Threw None, w)
          end
      end
  end.

(** ** Execution *)

Definition set_value (t : thread_task) (result : V) (w : W) : list task_event * W :=
  match serialize result with
  | Some b => ([SetResult t (TaskResult true b)], w)
  | None => SerializeAndSetResult (write_exception result) t w
  end.

Definition set_rejection (t : thread_task) (exception : V) (w : W) : list task_event * W :=
  ([SetResult t (TaskResult false (default [] (serialize exception)))], w).

(** The state of the promise, and the next private task. [fuel] bounds the iterations
    of the waiting loop and the depth of nested tasks; [None] when it runs out. *)
Fixpoint ExecuteTask (fuel : nat) (t : task) (w : W) {struct fuel} : option (list task_event * W) :=
  match fuel with O => None | S fuel =>
  match t with
  | InternalTask run_internal => Some ([], run_internal w)
  | FunctionTask t =>
      match read_arguments t with
      | inr caught => Some (SerializeAndSetResult caught t w)
      | inl args =>
          match compile_function t w with
          | (Threw caught, w) => Some (SerializeAndSetResult caught t w)
          | (Done fn, w) =>
              match call fn args w with
              | (Threw e, w) => Some (SerializeAndSetResult e t w)
              | (Done result, w) =>
                  if is_promise result then await fuel t result w
                  else Some (set_value t result w)
              end
          end
      end
  end end
with await (fuel : nat) (t : thread_task) (promise : V) (w : W) {struct fuel} : option (list task_event * W) :=
  match fuel with O => None | S fuel =>
  match state_of promise w with
  | Fulfilled v => Some (set_value t v w)
  | Rejected v => Some (set_rejection t v w)
  | Pending =>
      let w := checkpoint w in
      match state_of promise w with
      | Fulfilled v => Some (set_value t v w)
      | Rejected v => Some (set_rejection t v w)
      | Pending =>
          match pop_private w with
          | (Some internal_task, w) =>
              '(es1, w) ← ExecuteTask fuel internal_task w;
              if aborted es1 then Some (es1, w) else
              '(es2, w) ← await fuel t promise w;
              Some (es1 ++ DecrementActiveTasks :: es2, w)
          | (None, w) => await fuel t promise (sleep_1ms w)
          end
      end
  end end.

(** [WorkerThread::Run] around one task: execute it, delete it, decrement. *)
Definition Run_task (fuel : nat) (t : task) (w : W) : option (list task_event * W) :=
  '(es, w) ← ExecuteTask fuel t w;
  Some (if aborted es then es else es ++ [DecrementActiveTasks], w).

(** ** Lemmas *)

(** The last event of a task: its result, or the end of the process when the "stack"
    of an exception could not be set. *)
Definition final_event (t : thread_task) (e : task_event) : Prop :=
  match e with
  | SetResult t' _ => t' = t
  | Abort => exists exception stack w w', set_stack exception stack w = (None, w')
  | DecrementActiveTasks => False
  end.

(** One final event, after a decrement for each private task run meanwhile. *)
Definition one_result (t : thread_task) (es : list task_event) : Prop :=
  exists n e, es = replicate n DecrementActiveTasks ++ [e] /\ final_event t e.

Lemma one_result_now t r : one_result t [SetResult t r].
Proof. by exists O, (SetResult t r). Qed.
Hint Resolve one_result_now : core.

Lemma one_result_failure caught t w es w' :
  Some (SerializeAndSetResult caught t w) = Some (es, w') -> one_result t es.
Proof.
  unfold SerializeAndSetResult. destruct caught as [e|]; [|by intros; simplify_eq].
  unfold add_stack. destruct (get_stack e w) as [[stack|] w1]; [|by intros; simplify_eq].
  destruct (new_string _ w1) as [[s|] w2]; [|by intros; simplify_eq].
  destruct (set_stack e s w2) as [[v|] w3] eqn:E; intros; simplify_eq; [done|].
  exists O, Abort. split; [done|]. by exists e, s, w2, w'.
Qed.

Lemma one_result_rejection t v w es w' : Some (set_rejection t v w) = Some (es, w') -> one_result t es.
Proof. unfold set_rejection. intros; by simplify_eq. Qed.

Lemma one_result_value t v w es w' : Some (set_value t v w) = Some (es, w') -> one_result t es.
Proof.
  unfold set_value. destruct (serialize v); [intros; by simplify_eq|apply one_result_failure].
Qed.
Hint Resolve one_result_failure one_result_rejection one_result_value : core.

Lemma one_result_nested t es : one_result t es -> one_result t (DecrementActiveTasks :: es).
Proof. intros (n & e & -> & ?). by exists (S n), e. Qed.
Hint Resolve one_result_nested : core.

Section internal.
(** Private queues hold internal tasks only: every call of SubmitToWorker submits a
    Resolve...Task. *)
Hypothesis private_internal : forall w t w', pop_private w = (Some t, w') -> IsInternal t = true.

Lemma ExecuteTask_internal fuel t w es w' :
  IsInternal t = true -> ExecuteTask fuel t w = Some (es, w') -> es = [].
Proof. destruct fuel, t; simpl; intros; by simplify_eq. Qed.

Lemma await_result fuel t p w es w' : await fuel t p w = Some (es, w') -> one_result t es.
Proof.
  revert w es w'. induction fuel as [|fuel IH]; simpl; intros w es w' Ha; [done|].
  destruct (state_of p w); [|by eauto..].
  destruct (state_of p (checkpoint w)); [|by eauto..].
  destruct (pop_private (checkpoint w)) as [[t'|] w1] eqn:Hp; [|by eapply IH].
  destruct (ExecuteTask fuel t' w1) as [[es1 w2]|] eqn:He; simpl in Ha; [|done].
  rewrite (ExecuteTask_internal _ _ _ _ _ (private_internal _ _ _ Hp) He) in Ha. simpl in Ha.
  destruct (await fuel t p w2) as [[es2 w3]|] eqn:Hw; simpl in Ha; [|done]. simplify_eq. eauto.
Qed.

Lemma ExecuteTask_function fuel t w es w' :
  ExecuteTask fuel (FunctionTask t) w = Some (es, w') -> one_result t es.
Proof.
  destruct fuel as [|fuel]; simpl; [done|].
  destruct (read_arguments t) as [args|caught]; [|by eauto].
  destruct (compile_function t w) as [[fn|caught] w1]; [|by eauto].
  destruct (call fn args w1) as [[v|caught] w2]; [|by eauto].
  destruct (is_promise v); [apply await_result|by eauto].
Qed.
End internal.

(** More fuel does not change a result. *)
Lemma fuel_monotone fuel :
  (forall t w r fuel', ExecuteTask fuel t w = Some r -> (fuel <= fuel')%nat -> ExecuteTask fuel' t w = Some r) /\
  (forall t p w r fuel', await fuel t p w = Some r -> (fuel <= fuel')%nat -> await fuel' t p w = Some r).
Proof.
  induction fuel as [|fuel [IHe IHa]]; [done|]. split.
  - intros t w r fuel' He Hf. destruct fuel' as [|fuel']; [lia|]. destruct t as [|t]; [done|]. simpl in *.
    destruct (read_arguments t); [|done]. destruct (compile_function t w) as [[f|] w1]; [|done].
    destruct (call f l w1) as [[v|] w2]; [|done]. destruct (is_promise v); [|done]. apply IHa; [done|lia].
  - intros t p w r fuel' Ha Hf. destruct fuel' as [|fuel']; [lia|]. simpl in *.
    destruct (state_of p w); [|done..]. destruct (state_of p (checkpoint w)); [|done..].
    destruct (pop_private (checkpoint w)) as [[t'|] w1]; [|apply IHa; [done|lia]].
    destruct (ExecuteTask fuel t' w1) as [[es1 w2]|] eqn:E1; simpl in Ha; [|done].
    rewrite (IHe _ _ _ fuel' E1) by lia. simpl. destruct (aborted es1); [done|].
    destruct (await fuel t p w2) as [[es2 w3]|] eqn:E2; simpl in Ha; [|done].
    by rewrite (IHa _ _ _ _ fuel' E2) by lia.
Qed.

Lemma await_more_fuel fuel t p w fuel' :
  is_Some (await fuel t p w) -> (fuel <= fuel')%nat -> is_Some (await fuel' t p w).
Proof. intros [r Hr] Hf. exists r. by eapply fuel_monotone. Qed.

(** ** The waiting loop *)

(** One iteration that finds the promise pending after the checkpoint. *)
Definition iteration (w : W) : W :=
  let w := checkpoint w in
  match pop_private w with
  | (Some (InternalTask run_internal), w) => run_internal w
  | (Some (FunctionTask _), w) => w
  | (None, w) => sleep_1ms w
  end.

(** The promise is settled when the loop looks at it, before or after the checkpoint
    of its (k+1)-th iteration. *)
Definition settled_at (promise : V) (k : nat) (w : W) : Prop :=
  let w := Nat.iter k iteration w in
  state_of promise w <> Pending \/ state_of promise (checkpoint w) <> Pending.

Lemma iter_shift (k : nat) (w : W) : Nat.iter k iteration (iteration w) = iteration (Nat.iter k iteration w).
Proof. induction k as [|k IH]; simpl; [done|]. by rewrite IH. Qed.

Lemma await_terminates t promise k w :
  (forall w t w', pop_private w = (Some t, w') -> IsInternal t = true) ->
  settled_at promise k w -> is_Some (await (S (S k)) t promise w).
Proof.
  intros Hint. revert w. induction k as [|k IH]; intros w Hs.
  - unfold settled_at in Hs. simpl in *. destruct (state_of promise w) eqn:E1; [|by eexists..].
    destruct (state_of promise (checkpoint w)) eqn:E2; [|by eexists..]. by destruct Hs.
  - remember (S (S k)) as fuel eqn:Hf. simpl. destruct (state_of promise w) eqn:E1; [|by eexists..].
    destruct (state_of promise (checkpoint w)) eqn:E2; [|by eexists..].
    unfold settled_at in Hs. simpl in Hs. rewrite <- iter_shift in Hs. unfold iteration in Hs at 2 4.
    destruct (pop_private (checkpoint w)) as [[t'|] w1] eqn:Hp; [|by apply IH].
    destruct t' as [run_internal|]; [|by apply Hint in Hp].
    destruct (IH (run_internal w1) Hs) as [[es w2] He]. subst fuel. simpl in *. rewrite He. by eexists.
Qed.

Lemma ExecuteTask_terminates fuel t w k :
  (forall w t w', pop_private w = (Some t, w') -> IsInternal t = true) ->
  (forall args f w1 promise w2, read_arguments t = inl args -> compile_function t w = (Done f, w1) ->
     call f args w1 = (Done promise, w2) -> is_promise promise = true -> settled_at promise k w2) ->
  (k + 3 <= fuel)%nat -> is_Some (ExecuteTask fuel (FunctionTask t) w).
Proof.
  intros Hint Hs Hf. destruct fuel as [|fuel]; [lia|]. cbn [ExecuteTask].
  destruct (read_arguments t) as [args|]; [|by eexists].
  destruct (compile_function t w) as [[f|] w1]; [|by eexists].
  destruct (call f args w1) as [[v|] w2] eqn:Hcall; [|by eexists].
  destruct (is_promise v) eqn:Hp; [|by eexists].
  apply (await_more_fuel (S (S k))); [by eapply await_terminates, Hs|lia].
Qed.
End tasks.
