(* ===== verification/ThreadBuiltins.v ===== *)
(** The Thread builtins: src/src/builtins/builtins-thread.cc.

    [Thread.spawn], [join], [sleep], [channel], [mutex], [getPoolSize] and
    [setPoolSize] with their argument checks, the tasks they submit and the tasks that
    settle their promises. *)
From S2P Require Import Prelude Conversions Engine Channel MutexState Tasks.

Section builtins.
Context {V : Type} `{JSValue V} `{JSOps V} `{Codec V} (runner : nat -> bool).

(** The outcome of a builtin: an exception, a failed internal allocation, or a value. *)
Inductive completion (A : Type) :=
| Throws (k : error_kind) (msg : string)
| Failed
| Returns (a : A).
Arguments Throws {A} k msg.
Arguments Failed {A}.
Arguments Returns {A} a.

(** ** Thread.spawn *)

Record frame := mkFrame { function_name : option string; script_name : option string; line : Z; column : Z }.

Definition or_anonymous (s : option string) : string := default "<anonymous>" s.

Definition caller_stack (frames : option (list frame)) : string :=
  foldl (fun s f => s +:+ "    at " +:+ or_anonymous (function_name f) +:+ " (" +:+ or_anonymous (script_name f)
                      +:+ ":" +:+ pretty (line f) +:+ ":" +:+ pretty (column f) +:+ ")" +:+ newline)
    EmptyString (default [] frames).

(** The items of the transfer list in the options object, when the last argument is one. *)
Definition spawn_options (args : list V) : option (list (option V)) :=
  last_arg ← last args;
  if js_object last_arg && negb (bool_decide (is_Some (js_array_buffer last_arg))) then
    transfer_val ← js_get last_arg "transfer"; js_elements transfer_val
  else None.

(** [args] are the arguments after the function. The buffers that are detached, and the
    task that is submitted. *)
Definition ThreadSpawn (fn : option V) (args : list V) (frames : option (list frame)) :
    list nat * completion thread_task :=
  match fn with
  | None => ([], Throws TypeError "First argument to Thread.spawn must be a function")
  | Some fn =>
      if js_function fn then
        match fn_source fn with
        | None => ([], Throws Error "Failed to stringify function")
        | Some source =>
            let '(transfer, args) :=
              match spawn_options args with
              | Some items => (transfer_list items, removelast args)
              | None => ([], args)
              end in
            match write_value transfer true (js_array (Some <$> args)) with
            | None => (transfer.*2, Throws Error "Failed to serialize arguments")
            | Some (b, shared) =>
                (transfer.*2, Returns (ThreadTask source b (transfer.*2) shared (caller_stack frames)))
            end
        end
      else ([], Throws TypeError "First argument to Thread.spawn must be a function")
  end.

(** ** Thread.join *)

(** The first argument: not a JSObject, an object without internal field, or a handle
    whose field holds a future or null. *)
Inductive join_argument := NotObject | NoInternalField | JoinHandle (future : option nat).

Record JoinWaiterTask := mkJoinWaiter { jw_future : nat; jw_isolate : nat; jw_worker_index : Z; jw_resolver : nat }.

(** The handle's field afterwards, and the waiter submitted to the pool. *)
Definition ThreadJoin (arg : join_argument) (c : caller) : join_argument * completion JoinWaiterTask :=
  match arg with
  | NotObject => (arg, Throws TypeError "First argument to Thread.join must be a JoinHandle object")
  | NoInternalField => (arg, Throws TypeError "Invalid JoinHandle object")
  | JoinHandle None => (arg, Throws TypeError "JoinHandle is already joined or invalid")
  | JoinHandle (Some future) =>
      (JoinHandle None,
       match c_resolver c with
       | None => Failed
       | Some resolver => Returns (mkJoinWaiter future (c_isolate c) (c_worker_index c) resolver)
       end)
  end.

Inductive resolve_task :=
| ResolveJoinTask (isolate : nat) (result : task_result) (resolver : nat)
| ResolveSleepTask (isolate resolver : nat).

Definition join_settlement (result : task_result) : settlement V :=
  if success result then
    match data result with
    | [] => Resolve js_undefined
    | b =>
        if read_header b then
          match read_value [] [] b with
          | Some val => Resolve val
          | None => Reject (js_error Error "Failed to deserialize joined result")
          end
        else Reject (js_error Error "Failed to deserialize joined result header")
    end
  else
    match data result with
    | [] => Reject (js_error Error "Thread crashed or threw an error")
    | b =>
        if read_header b then
          match read_value [] [] b with
          | Some val => Reject val
          | None => Reject (js_error Error "Thread crashed (failed to deserialize error)")
          end
        else Reject (js_error Error "Thread crashed (failed to deserialize error header)")
    end.

(** [RunInternal] of the tasks that settle the promises. *)
Definition Resolve_RunInternal (t : resolve_task) : nat * settlement V :=
  match t with
  | ResolveJoinTask _ result resolver => (resolver, join_settlement result)
  | ResolveSleepTask _ resolver => (resolver, Resolve js_undefined)
  end.

(** [JoinWaiterTask::RunInternal], once the future has its result. *)
Definition JoinWaiter_RunInternal (is_disposing : bool) (t : JoinWaiterTask) (result : task_result) :
    option (delivery resolve_task) :=
  if is_disposing then None
  else Some (route runner (jw_isolate t) (jw_worker_index t) (ResolveJoinTask (jw_isolate t) result (jw_resolver t))).

(** ** Thread.sleep *)

Record SleepTask := mkSleep { ms : Z; sl_isolate : nat; sl_worker_index : Z; sl_resolver : nat }.

Definition sleep_ms (arg : option V) : Z :=
  match arg ≫= js_number with Some x => NumberToInt64 x | None => 0 end.

Definition ThreadSleep (arg : option V) (c : caller) : completion SleepTask :=
  match c_resolver c with
  | None => Failed
  | Some resolver => Returns (mkSleep (sleep_ms arg) (c_isolate c) (c_worker_index c) resolver)
  end.

(** The milliseconds the worker's thread sleeps, and what it does then. *)
Definition Sleep_RunInternal (is_disposing : bool) (t : SleepTask) : Z * option (delivery resolve_task) :=
  (Z.max 0 (ms t),
   if is_disposing then None
   else Some (route runner (sl_isolate t) (sl_worker_index t) (ResolveSleepTask (sl_isolate t) (sl_resolver t)))).

(** ** Thread.channel and Thread.mutex *)

(** The capacity is an int64 stored in a size_t. *)
Definition ThreadChannel (arg : option V) : ChannelState :=
  new_channel (match arg ≫= js_number with Some x => wrap 64 (NumberToInt64 x) | None => 0 end).

Definition ThreadMutex (arg : option V) : MutexState (V := V) :=
  new_mutex (match arg with Some v => default [] (serialize v) | None => [] end).

(** ** Pool size *)

Definition ThreadGetPoolSize (pool_size : nat) : nat := pool_size.

(** The size given to [Resize]. *)
Definition ThreadSetPoolSize (arg : option V) : completion nat :=
  match arg with
  | None => Throws TypeError "Missing pool size argument"
  | Some size_val =>
      match js_number size_val with
      | None => Throws TypeError "Pool size must be a number"
      | Some x =>
          let new_size := DoubleToInt32 x in
          if (new_size <=? 0) || (new_size >? 128)
          then Throws RangeError "Pool size must be between 1 and 128"
          else Returns (Z.to_nat new_size)
      end
  end.

(** ** Lemmas *)

Lemma join_settlement_success `{!CodecLaws V} v b :
  serialize v = Some b -> join_settlement (TaskResult true b) = Resolve v.
Proof.
  intros Hs. destruct (serialize_roundtrip v b Hs) as [Hne Hd]. unfold join_settlement, deserialize in *.
  simpl. destruct b; [done|]. destruct (read_header _); simplify_eq. by rewrite Hd.
Qed.

Lemma join_settlement_failure `{!CodecLaws V} e b :
  serialize e = Some b -> join_settlement (TaskResult false b) = Reject e.
Proof.
  intros Hs. destruct (serialize_roundtrip e b Hs) as [Hne Hd]. unfold join_settlement, deserialize in *.
  simpl. destruct b; [done|]. destruct (read_header _); simplify_eq. by rewrite Hd.
Qed.

(** The arguments that are passed: without the options object. *)
Definition passed (args : list V) : list V :=
  match spawn_options args with Some _ => removelast args | None => args end.

(** Every item of the transfer list is an ArrayBuffer. *)
Definition buffers_only (args : list V) (stores : list nat) : Prop :=
  Forall2 (fun item s => exists v, item = Some v /\ js_array_buffer v = Some s)
    (default [] (spawn_options args)) stores.

Lemma ThreadSpawn_arguments `{!CodecLaws V} `{!JSValueLaws V} {W} `{!Engine V W} fn args frames stores detached t :
  buffers_only args stores -> ThreadSpawn fn args frames = (detached, Returns t) ->
  detached = stores /\ read_arguments (W := W) t = inl (passed args) /\
  (f ← fn; fn_source f) = Some (function_source t) /\ caller_stack_trace t = caller_stack frames.
Proof.
  unfold ThreadSpawn, buffers_only, passed. intros Hb. destruct fn as [fn|]; [|done].
  destruct (js_function fn); [|done]. destruct (fn_source fn) as [source|] eqn:Hsrc; [|done].
  destruct (spawn_options args) as [items|]; simpl in Hb.
  - rewrite (transfer_list_buffers _ _ Hb), (imap_pair_snd (fun i => i)).
    destruct (write_value _ true _) as [[b shared]|] eqn:Hw; [|done]. intros; simplify_eq.
    destruct (codec_roundtrip _ _ _ _ _ Hw) as (Hne & Hh & Hr). split_all; try done.
    unfold read_arguments. simpl. destruct b; [done|]. by rewrite Hh, Hr, js_elements_array, present_some.
  - inversion Hb; subst. destruct (write_value [] true _) as [[b shared]|] eqn:Hw; [|done]. intros; simplify_eq.
    destruct (codec_roundtrip [] _ _ _ _ Hw) as (Hne & Hh & Hr). split_all; try done.
    unfold read_arguments. simpl. destruct b; [done|]. by rewrite Hh, Hr, js_elements_array, present_some.
Qed.
End builtins.
Arguments Throws {A} k msg.
Arguments Failed {A}.
Arguments Returns {A} a.
