(* ===== verification/ThreadTheorems.v ===== *)
(** The properties of the Thread builtins and of task execution (ThreadBuiltins.v,
    Tasks.v): spawn and join compose to a call of the function, every task settles its
    promise once, the waiting loop ends, the pool size is checked. *)
From S2P Require Import Prelude Conversions Engine Instances Channel MutexState Tasks ThreadBuiltins.

Section theorems.
Context {V W : Type} `{JSValue V} `{JSOps V} `{Codec V} `{!Engine V W}.
Context (pop_private : W -> option (task (W := W)) * W).

(** C10. Thread.spawn and Thread.join compose to a call, when the transfer list holds
    ArrayBuffers only and the worker compiles the function: the promise of join settles
    with what the call of the function on the arguments gives (options object left out,
    transferred buffers included). A value that is no promise and can be serialized
    resolves it; an exception whose "stack" can be set and which can then be serialized
    rejects it, the stack extended with that of the caller of spawn; a call that ends
    without value or exception rejects it with "Unknown execution error". *)
Theorem spawn_join_roundtrip `{!CodecLaws V} `{!JSValueLaws V} fn args frames stores detached t fuel w f w1 :
  buffers_only args stores ->
  ThreadSpawn (Some fn) args frames = (detached, Returns t) ->
  compile_function t w = (Done f, w1) ->
  match call f (passed args) w1 with
  | (Done v, w2) => forall b, is_promise v = false -> serialize v = Some b ->
      exists r, ExecuteTask pop_private (S fuel) (FunctionTask t) w = Some ([SetResult t r], w2) /\
        join_settlement r = Resolve v
  | (Threw (Some e), w2) => forall e' w3 b, add_stack t e w2 = (Some e', w3) -> serialize e' = Some b ->
      exists r, ExecuteTask pop_private (S fuel) (FunctionTask t) w = Some ([SetResult t r], w3) /\
        join_settlement r = Reject e'
  | (Threw None, w2) => forall b, serialize (js_error Error "Unknown execution error") = Some b ->
      exists r, ExecuteTask pop_private (S fuel) (FunctionTask t) w = Some ([SetResult t r], w2) /\
        join_settlement r = Reject (js_error Error "Unknown execution error")
  end.
Proof.
  intros Hb Hs Hc. destruct (ThreadSpawn_arguments (W := W) _ _ _ _ _ _ Hb Hs) as (_ & Ha & _).
  cbn [ExecuteTask]. rewrite Ha, Hc. destruct (call f (passed args) w1) as [[v|[e|]] w2].
  - intros b Hp Hv. rewrite Hp. unfold set_value. rewrite Hv. eexists. split; [done|]. by apply join_settlement_success.
  - intros e' w3 b Ha' He. unfold SerializeAndSetResult, serialized_exception. rewrite Ha', He.
    eexists. split; [done|]. by apply join_settlement_failure.
  - intros b He. unfold SerializeAndSetResult, serialized_exception. rewrite He.
    eexists. split; [done|]. by apply join_settlement_failure.
Qed.


(** An exception whose "stack" setter throws, such as an object with a setter or a
    proxy, ends the process: the task's promise is never settled. *)
Theorem stack_setter_aborts fuel t w args f w1 exception w2 stack w3 s w4 w5 :
  read_arguments t = inl args -> compile_function t w = (Done f, w1) ->
  call f args w1 = (Threw (Some exception), w2) -> get_stack exception w2 = (Some stack, w3) ->
  new_string (stack +:+ newline +:+ caller_stack_trace t) w3 = (Done s, w4) ->
  set_stack exception s w4 = (None, w5) ->
  ExecuteTask pop_private (S fuel) (FunctionTask t) w = Some ([Abort], w5).
Proof.
  intros Ha Hc Hcall Hg Hn Hs. cbn [ExecuteTask]. rewrite Ha, Hc, Hcall.
  unfold SerializeAndSetResult, add_stack. by rewrite Hg, Hn, Hs.
Qed.

(** The waiting loop ends: if the promise of an async function is settled when the
    loop reaches its (k+1)-th iteration, before or after that iteration's checkpoint,
    the task returns within k+3 units of fuel. *)
Theorem execute_async_terminates fuel t w args f w1 promise w2 k :
  (forall w t w', pop_private w = (Some t, w') -> IsInternal t = true) ->
  read_arguments t = inl args -> compile_function t w = (Done f, w1) ->
  call f args w1 = (Done promise, w2) -> is_promise promise = true ->
  settled_at pop_private promise k w2 -> (k + 3 <= fuel)%nat ->
  is_Some (ExecuteTask pop_private fuel (FunctionTask t) w).
Proof.
  intros Hint Ha Hc Hcall Hp Hs Hf. apply (ExecuteTask_terminates _ _ _ _ k); [done| |done].
  intros args0 f0 w0 promise0 w3 Ha0 Hc0 Hcall0 _. rewrite Ha in Ha0. injection Ha0 as <-.
  rewrite Hc in Hc0. injection Hc0 as <- <-. rewrite Hcall in Hcall0. by injection Hcall0 as <- <-.
Qed.

(** Thread.setPoolSize resizes the pool only to a size from 1 to 128, which is the
    number given as the ToInt32 of the double; a missing argument, a value that is not
    a number and every other number throw and leave the pool alone. *)
Theorem set_pool_size_checked (arg : option V) n :
  ThreadSetPoolSize arg = Returns n <->
  exists v x, arg = Some v /\ js_number v = Some x /\
    1 <= Z.of_nat n <= 128 /\ isfinite x = true /\ swrap 32 (trunc x) = Z.of_nat n.
Proof.
  unfold ThreadSetPoolSize. split.
  - destruct arg as [v|]; [|done]. destruct (js_number v) as [x|] eqn:Hx; [|done]. rewrite DoubleToInt32_spec.
    destruct (isfinite x) eqn:Hf; [|done]. destruct ((_ <=? 0) || _) eqn:Hr; [done|]. intros; simplify_eq.
    apply orb_false_iff in Hr as [Hlo%Z.leb_gt Hhi]; rewrite Z.gtb_ltb, Z.ltb_ge in Hhi. exists v, x. split_all; try done; lia.
  - intros (v & x & -> & -> & Hn & Hf & Ht). rewrite DoubleToInt32_spec, Hf, Ht.
    replace ((Z.of_nat n <=? 0) || (Z.of_nat n >? 128)) with false by lia. by rewrite Nat2Z.id.
Qed.

(** A join handle is good for one join: the first Thread.join consumes it even when
    the promise cannot be allocated, and every later one throws. *)
Theorem join_once future (c c' : caller) arg r :
  ThreadJoin (JoinHandle (Some future)) c = (arg, r) ->
  (forall t, r = Returns t -> jw_future t = future) /\
  ThreadJoin arg c' = (arg, Throws TypeError "JoinHandle is already joined or invalid").
Proof. simpl. intros; simplify_eq. destruct (c_resolver c); split; intros; by simplify_eq. Qed.

(** The capacity of Thread.channel(n) is a size_t: the integer part of a number from
    0 to 2^63-1, 0 (unbounded) for NaN or another value; a negative number gives a
    capacity of at least 2^63. *)
Theorem channel_capacity (arg : option V) :
  0 <= capacity (ThreadChannel arg) < 2 ^ 64 /\
  (forall v x, arg = Some v -> js_number v = Some x -> isfinite x = true ->
     (0 <= trunc x < 2 ^ 63 -> capacity (ThreadChannel arg) = trunc x) /\
     (trunc x < 0 -> 2 ^ 63 <= capacity (ThreadChannel arg))) /\
  (forall v, arg = Some v -> js_number v = None -> capacity (ThreadChannel arg) = 0).
Proof.
  unfold ThreadChannel, new_channel. cbn [capacity]. split; [|split].
  - destruct (arg ≫= js_number); [|lia]. apply Z.mod_pos_bound. lia.
  - intros v x -> Hx Hf. simpl. rewrite Hx, NumberToInt64_saturates, Hf.
    assert (isnan x = false) as ->.
    { unfold isnan, isfinite in *. by destruct (IsSpecial x). }
    unfold wrap, INT64_MIN, INT64_MAX. split; intros Ht.
    + rewrite Z.mod_small; lia.
    + rewrite <- (Z.mod_add _ 1) by lia. rewrite Z.mod_small; lia.
  - intros v -> Hv. simpl. by rewrite Hv.
Qed.

(** An initial value that cannot be cloned is dropped silently: Thread.mutex of it
    makes a mutex whose value is undefined, without an exception. *)
Theorem mutex_initial_value `{!CodecLaws V} (v : V) :
  MutexState.Value Wrapped (ThreadMutex (Some v)) =
    [MReturn (if bool_decide (is_Some (serialize v)) then v else js_undefined)].
Proof.
  unfold ThreadMutex, MutexState.Value. destruct (serialize v) as [b|] eqn:Hs; simpl; [|done].
  destruct (serialize_roundtrip v b Hs) as [Hne Hd]. unfold current_value. destruct b; [done|]. by rewrite Hd.
Qed.
End theorems.

(** ** Concrete executions *)

Definition no_private (w : nat) : option (task (W := nat)) * nat := (None, w).

Definition spawn_args : list value := [VNumber 3; VBuffer 8; VNumber 4; VIterResult (VCons (VBuffer 8) VNil) false].
Definition spawned (id : nat) : thread_task :=
  match (ThreadSpawn (Some (VFunction id)) spawn_args None).2 with Returns t => t | _ => ThreadTask "" [] [] [] "" end.

Lemma spawn_join_roundtrip_witness :
  ThreadSpawn (Some (VFunction 1)) spawn_args None = ([8%nat], Returns (spawned 1)) /\
  exists r, ExecuteTask no_private 1 (FunctionTask (spawned 1)) 0%nat = Some ([SetResult (spawned 1) r], 0%nat) /\
    join_settlement r = Resolve (VNumber 7).
Proof.
  split; [reflexivity|].
  refine (spawn_join_roundtrip no_private (VFunction 1) spawn_args None [8%nat] [8%nat] (spawned 1) 0 0%nat
    (VFunction 1) 0%nat _ eq_refl eq_refl [255; 1; 7] eq_refl eq_refl).
  constructor; [by eexists|constructor].
Defined.


Lemma stack_setter_aborts_witness :
  ExecuteTask no_private 1 (FunctionTask (spawned 4)) 0%nat = Some ([Abort], 0%nat).
Proof.
  refine (stack_setter_aborts no_private 0 (spawned 4) 0%nat [VNumber 3; VBuffer 8; VNumber 4] (VFunction 4) 0%nat
    (VError RangeError "frozen stack") 0%nat "frozen stack" 0%nat _ 0%nat 0%nat _ _ _ _ _ _); reflexivity.
Defined.

Lemma execute_async_terminates_witness :
  settled_at no_private (VFunction 50) 1 0%nat /\
  is_Some (ExecuteTask no_private 4 (FunctionTask (spawned 3)) 0%nat).
Proof.
  assert (Hs : settled_at no_private (VFunction 50) 1 0%nat) by (vm_compute; right; discriminate).
  split; [exact Hs|].
  refine (execute_async_terminates no_private 4 (spawned 3) 0%nat [VNumber 3; VBuffer 8; VNumber 4] (VFunction 3) 0%nat
    (VFunction 50) 0%nat 1 _ eq_refl eq_refl eq_refl eq_refl Hs _); [|lia].
  intros w t w' Hp. by injection Hp.
Defined.

(** The double 2^32 + 4 passes the check as 4. *)
Lemma set_pool_size_checked_witness :
  trunc 0x41F0000000400000 = 2 ^ 32 + 4 /\ ThreadSetPoolSize (Some (VNumber 0x41F0000000400000)) = Returns 4%nat.
Proof.
  split; [reflexivity|]. apply set_pool_size_checked. eexists _, _. split; [reflexivity|].
  split; [reflexivity|]. split; [lia|]. split; reflexivity.
Defined.

Lemma join_once_witness :
  ThreadJoin (JoinHandle None) (mkCaller 1 0 (Some 3%nat)) =
    (JoinHandle None, Throws TypeError "JoinHandle is already joined or invalid").
Proof. exact (proj2 (join_once 5 (mkCaller 1 0 (Some 2%nat)) (mkCaller 1 0 (Some 3%nat)) _ _ eq_refl)). Defined.
