(* ===== verification/ParallelArray.v ===== *)
(** The parallel array methods: src/src/builtins/builtins-parallel-array.cc.

    [parallelMap], [parallelFilter] and [parallelReduce] cut the receiver into chunks,
    run one task per chunk and merge the results on the caller's isolate. *)
From S2P Require Import Prelude Conversions Engine Channel Tasks ThreadBuiltins.

Inductive ParallelAction := MAP | FILTER | REDUCE.

Section parallel.
Context {V W : Type} `{JSValue V} `{JSOps V} `{Codec V} `{!Engine V W} (runner : nat -> bool).

(** ** Chunks: uint32 arithmetic *)

Definition num_chunks (length pool_size : Z) : Z :=
  let n := Z.min length (wrap 32 pool_size) in if n =? 0 then 1 else n.

Definition chunk_start (length chunks i : Z) : Z := wrap 32 (i * (length / chunks)).

Definition chunk_end (length chunks i : Z) : Z :=
  if i =? wrap 32 (chunks - 1) then length else wrap 32 (wrap 32 (i + 1) * (length / chunks)).

(** The elements of chunk [i]; the ones whose [Get] throws stay holes. *)
Definition chunk_elements (elems : list (option V)) (chunks i : Z) : list (option V) :=
  let length := Z.of_nat (length elems) in
  let start := chunk_start length chunks i in
  let chunk_len := wrap 32 (chunk_end length chunks i - start) in
  take (Z.to_nat chunk_len) (drop (Z.to_nat start) elems).

Definition func_source (action : ParallelAction) (callback_str : string) : string :=
  match action with
  | MAP => "function(chunk) { const cb = " +:+ callback_str +:+ "; return chunk.map(cb); }"
  | FILTER => "function(chunk) { const cb = " +:+ callback_str +:+ "; return chunk.filter(cb); }"
  | REDUCE => "function(chunk, initialValue) { const cb = " +:+ callback_str
      +:+ "; return arguments.length > 1 ? chunk.reduce(cb, initialValue) : chunk.reduce(cb); }"
  end.

Definition is_reduce (action : ParallelAction) : bool := match action with REDUCE => true | _ => false end.

(** The argument array of a chunk's task. *)
Definition chunk_arguments (action : ParallelAction) (initial : option V) (chunk : list (option V)) : V :=
  js_array (Some (js_array chunk) ::
    match initial with Some v => if is_reduce action then [Some v] else [] | None => [] end).

(** The tasks of the chunks [i, i+1, ...]: those submitted, and whether every chunk
    could be serialized. *)
Fixpoint submit_chunks (action : ParallelAction) (source : string) (initial : option V)
    (elems : list (option V)) (chunks : Z) (indices : list nat) : list thread_task * bool :=
  match indices with
  | [] => ([], true)
  | i :: indices =>
      match serialize (chunk_arguments action initial (chunk_elements elems chunks (Z.of_nat i))) with
      | None => ([], false)
      | Some b =>
          let '(tasks, ok) := submit_chunks action source initial elems chunks indices in
          (ThreadTask source b [] [] "" :: tasks, ok)
      end
  end.

(** What the builtin returns besides the tasks: a promise that is settled, or one that
    the [ParallelArrayJoinTask] settles. *)
Record ParallelArrayJoinTask := mkParallelJoin {
  pj_isolate : nat; pj_worker_index : Z; pj_resolver : nat; pj_action : ParallelAction; pj_callback : V;
}.

Inductive parallel_promise :=
| Settled (resolver : nat) (s : settlement V)
| Started (waiter : ParallelArrayJoinTask).

Definition empty_reduce : settlement V :=
  Reject (js_error TypeError "Reduce of empty array with no initial value").

(** [args] are the arguments: the callback, then the initial value. *)
Definition ArrayParallelCommon (receiver : V) (args : list V) (pool_size : Z) (action : ParallelAction) (c : caller) :
    list thread_task * completion parallel_promise :=
  match js_elements receiver with
  | None => ([], Throws TypeError "Parallel array method called on non-array")
  | Some elems =>
      match args with
      | callback :: rest =>
          if js_function callback then
            match c_resolver c with
            | None => ([], Failed)
            | Some resolver =>
                if Z.of_nat (length elems) =? 0 then
                  ([], Returns (Settled resolver
                    (if is_reduce action then match rest with v :: _ => Resolve v | [] => empty_reduce end
                     else Resolve (js_array []))))
                else
                  match fn_source callback with
                  | None => ([], Throws Error "Failed to stringify callback")
                  | Some callback_str =>
                      let chunks := num_chunks (Z.of_nat (length elems)) pool_size in
                      let '(tasks, ok) := submit_chunks action (func_source action callback_str) (head rest) elems chunks
                        (seq 0 (Z.to_nat chunks)) in
                      (tasks,
                       if ok then Returns (Started (mkParallelJoin (c_isolate c) (c_worker_index c) resolver action callback))
                       else Throws Error "Failed to serialize chunk")
                  end
            end
          else ([], Throws TypeError "Callback must be a function")
      | [] => ([], Throws TypeError "Callback must be a function")
      end
  end.

Definition ArrayParallelMap receiver args pool_size c := ArrayParallelCommon receiver args pool_size MAP c.
Definition ArrayParallelFilter receiver args pool_size c := ArrayParallelCommon receiver args pool_size FILTER c.
Definition ArrayParallelReduce receiver args pool_size c := ArrayParallelCommon receiver args pool_size REDUCE c.

(** ** Merging *)

Record ResolveParallelArrayTask := mkResolveParallel {
  rp_isolate : nat; chunk_results : list task_result; rp_resolver : nat; rp_action : ParallelAction; rp_callback : V;
}.

(** [ParallelArrayJoinTask::RunInternal], once every future has its result. *)
Definition ParallelJoin_RunInternal (is_disposing : bool) (t : ParallelArrayJoinTask) (results : list task_result) :
    option (delivery ResolveParallelArrayTask) :=
  if is_disposing then None
  else Some (route runner (pj_isolate t) (pj_worker_index t)
    (mkResolveParallel (pj_isolate t) results (pj_resolver t) (pj_action t) (pj_callback t))).

(** The rejection of a failed chunk. *)
Definition chunk_failure (r : task_result) : settlement V :=
  match data r with
  | [] => Reject (js_error Error "Parallel processing chunk failed")
  | b =>
      if read_header b then
        match read_value [] [] b with
        | Some val => Reject val
        | None => Reject (js_error Error "Parallel processing chunk failed (deserialization error)")
        end
      else Reject (js_error Error "Parallel processing chunk failed (header deserialization error)")
  end.

Definition first_failure (results : list task_result) : option task_result :=
  head (filter (fun r => success r = false) results).

(** Deserialize the chunks and collect their elements. *)
Fixpoint merge_chunks (action : ParallelAction) (results : list task_result) : list V + settlement V :=
  match results with
  | [] => inl []
  | r :: results =>
      if read_header (data r) then
        match read_value [] [] (data r) with
        | None => inr (Reject (js_error Error "Failed to deserialize chunk"))
        | Some chunk_val =>
            let here :=
              if is_reduce action then Some [chunk_val]
              else present <$> js_elements chunk_val in
            match here with
            | None => inr (Reject (js_error Error "Failed to deserialize chunk array"))
            | Some vs =>
                match merge_chunks action results with inl rest => inl (vs ++ rest) | inr s => inr s end
            end
        end
      else inr (Reject (js_error Error "Failed to read chunk header"))
  end.

(** The loop of the final reduction. *)
Fixpoint final_reduce (cb acc : V) (vs : list V) (w : W) : settlement V * W :=
  match vs with
  | [] => (Resolve acc, w)
  | v :: vs =>
      match call cb [acc; v] w with
      | (Done acc, w) => final_reduce cb acc vs w
      | (Threw _, w) => (Reject (js_error Error "Error in final reduce callback"), w)
      end
  end.

(** [ResolveParallelArrayTask::RunInternal]: the settlement, whether the handle of the
    callback is deleted, and the state. *)
Definition RunInternal (t : ResolveParallelArrayTask) (w : W) : settlement V * bool * W :=
  match first_failure (chunk_results t) with
  | Some r => (chunk_failure r, false, w)
  | None =>
      match merge_chunks (rp_action t) (chunk_results t) with
      | inr s => (s, true, w)
      | inl merged =>
          if is_reduce (rp_action t) then
            match merged with
            | [] => (empty_reduce, true, w)
            | v :: vs => let '(s, w) := final_reduce (rp_callback t) v vs w in (s, true, w)
            end
          else (Resolve (js_array (Some <$> merged)), true, w)
      end
  end.

(** ** Lemmas *)

Lemma num_chunks_bounds len pool :
  0 < len < 2 ^ 32 -> 0 <= pool < 2 ^ 32 -> 1 <= num_chunks len pool <= len /\ num_chunks len pool <= Z.max 1 pool.
Proof.
  intros Hl Hp. unfold num_chunks, wrap. rewrite Z.mod_small by lia. destruct (Z.eqb_spec (Z.min len pool) 0); lia.
Qed.

Section bounds.
Context (len chunks : Z).
Hypothesis Hlen : 0 < len < 2 ^ 32.
Hypothesis Hchunks : 1 <= chunks <= len.

Lemma quotient_positive : 1 <= len / chunks.
Proof. apply Z.div_le_lower_bound; lia. Qed.

Lemma chunk_start_exact i : 0 <= i <= chunks -> chunk_start len chunks i = i * (len / chunks).
Proof.
  intros Hi. unfold chunk_start, wrap. apply Z.mod_small. pose proof quotient_positive.
  pose proof (Z.mul_div_le len chunks ltac:(lia)). nia.
Qed.

Lemma chunk_end_exact i :
  0 <= i < chunks -> chunk_end len chunks i = if i =? chunks - 1 then len else (i + 1) * (len / chunks).
Proof.
  intros Hi. unfold chunk_end. unfold wrap at 1. rewrite Z.mod_small by lia.
  destruct (Z.eqb_spec i (chunks - 1)); [done|]. unfold wrap at 2. rewrite (Z.mod_small (i + 1)) by lia.
  apply (chunk_start_exact (i + 1)). lia.
Qed.

Lemma chunk_nonempty i : 0 <= i < chunks -> chunk_start len chunks i < chunk_end len chunks i <= len.
Proof.
  intros Hi. rewrite chunk_start_exact, chunk_end_exact by lia. pose proof quotient_positive.
  pose proof (Z.mul_div_le len chunks ltac:(lia)). destruct (Z.eqb_spec i (chunks - 1)); nia.
Qed.

Lemma chunk_next i : 0 <= i -> i + 1 < chunks -> chunk_end len chunks i = chunk_start len chunks (i + 1).
Proof.
  intros Hi Hlt. rewrite chunk_start_exact, chunk_end_exact by lia. destruct (Z.eqb_spec i (chunks - 1)); [lia|done].
Qed.

Lemma chunk_last : chunk_end len chunks (chunks - 1) = len.
Proof. rewrite chunk_end_exact by lia. by rewrite Z.eqb_refl. Qed.
End bounds.

Definition all_chunks (elems : list (option V)) (chunks : Z) : list (list (option V)) :=
  (fun i => chunk_elements elems chunks (Z.of_nat i)) <$> seq 0 (Z.to_nat chunks).

Lemma chunk_elements_slice elems chunks i :
  0 < Z.of_nat (length elems) < 2 ^ 32 -> 1 <= chunks <= Z.of_nat (length elems) -> 0 <= i < chunks ->
  let len := Z.of_nat (length elems) in
  chunk_elements elems chunks i =
    take (Z.to_nat (chunk_end len chunks i - chunk_start len chunks i)) (drop (Z.to_nat (chunk_start len chunks i)) elems).
Proof.
  intros Hl Hc Hi len. unfold chunk_elements. fold len. pose proof (chunk_nonempty len chunks Hl Hc i Hi).
  assert (0 <= chunk_start len chunks i) by (unfold chunk_start, wrap; apply Z.mod_pos_bound; lia).
  unfold wrap. by rewrite Z.mod_small by lia.
Qed.

Lemma chunks_prefix elems chunks n :
  0 < Z.of_nat (length elems) < 2 ^ 32 -> 1 <= chunks <= Z.of_nat (length elems) -> (0 < n <= Z.to_nat chunks)%nat ->
  mjoin ((fun i => chunk_elements elems chunks (Z.of_nat i)) <$> seq 0 n) =
    take (Z.to_nat (chunk_end (Z.of_nat (length elems)) chunks (Z.of_nat (n - 1)))) elems.
Proof.
  intros Hl Hc. set (len := Z.of_nat (length elems)) in *. induction n as [|n IH]; intros Hn; [lia|].
  rewrite seq_S, fmap_app, join_app. simpl. rewrite Nat.sub_0_r, app_nil_r.
  rewrite chunk_elements_slice by lia. fold len. destruct (decide (n = 0%nat)) as [->|Hne].
  - simpl. rewrite chunk_start_exact by lia. simpl. rewrite Z.sub_0_r. done.
  - rewrite IH by lia. rewrite (chunk_next len chunks Hl Hc) by lia.
    replace (Z.of_nat (n - 1) + 1) with (Z.of_nat n) by lia.
    pose proof (chunk_nonempty len chunks Hl Hc (Z.of_nat n) ltac:(lia)).
    assert (0 <= chunk_start len chunks (Z.of_nat n)) by (unfold chunk_start, wrap; apply Z.mod_pos_bound; lia).
    set (a := chunk_start _ _ _) in *. set (e := chunk_end _ _ _) in *.
    rewrite <- (take_drop (Z.to_nat a) elems) at 3. rewrite take_app, length_take.
    assert (Hal : (Z.to_nat a <= length elems)%nat) by lia.
    rewrite take_take, (Nat.min_l _ _ Hal). rewrite Nat.min_r by lia. f_equal. f_equal. lia.
Qed.

Lemma all_chunks_join elems chunks :
  0 < Z.of_nat (length elems) < 2 ^ 32 -> 1 <= chunks <= Z.of_nat (length elems) ->
  mjoin (all_chunks elems chunks) = elems.
Proof.
  intros Hl Hc. unfold all_chunks. rewrite chunks_prefix by lia.
  replace (Z.of_nat (Z.to_nat chunks - 1)) with (chunks - 1) by lia.
  rewrite chunk_last by lia. apply take_ge. lia.
Qed.
End parallel.
