(* ===== verification/ParallelTheorems.v ===== *)
(** The properties of the parallel array methods (ParallelArray.v): the chunks partition
    the array, map, filter and reduce agree with the sequential methods where they do,
    and where they do not. *)
From S2P Require Import Prelude Conversions Engine Instances Channel Tasks ThreadBuiltins ParallelArray.

Section theorems.
Context {V W : Type} `{JSValue V} `{JSOps V} `{Codec V} `{!Engine V W}.

(** ** The tasks and their results *)

(** The argument list that the task's worker calls the function with. *)
Definition arguments_of (t : thread_task) : list V + option V := read_arguments (W := W) t.

Lemma submit_chunks_ok `{!CodecLaws V} `{!JSValueLaws V} action source initial elems chunks indices tasks :
  submit_chunks action source initial elems chunks indices = (tasks, true) ->
  Forall2 (fun t i => function_source t = source /\
    arguments_of t = inl (js_array (chunk_elements elems chunks (Z.of_nat i)) ::
      match initial with Some v => if is_reduce action then [v] else [] | None => [] end)) tasks indices.
Proof.
  revert tasks. induction indices as [|i indices IH]; simpl; intros tasks Hs; [simplify_eq; constructor|].
  destruct (serialize _) as [b|] eqn:Hb; [|done].
  destruct (submit_chunks _ _ _ _ _ indices) as [rest ok] eqn:Hr. simplify_eq. constructor; [|by apply IH].
  split; [done|]. destruct (serialize_roundtrip _ _ Hb) as [Hne Hd].
  unfold arguments_of, read_arguments, deserialize in *. simpl. destruct b; [done|].
  destruct (read_header _); [|done]. rewrite Hd. unfold chunk_arguments in *.
  set (args := js_array (chunk_elements elems chunks (Z.of_nat i)) ::
    match initial with Some v => if is_reduce action then [v] else [] | None => [] end).
  assert (He : js_array (Some (js_array (chunk_elements elems chunks (Z.of_nat i))) ::
    match initial with Some v => if is_reduce action then [Some v] else [] | None => [] end) = js_array (Some <$> args)).
  { unfold args. simpl. by destruct initial, (is_reduce action). }
  by rewrite He, js_elements_array, present_some.
Qed.

Lemma js_array_inj `{!JSValueLaws V} (l1 l2 : list V) :
  js_array (Some <$> l1) = js_array (Some <$> l2) -> l1 = l2.
Proof.
  intros He. apply (f_equal js_elements) in He. rewrite !js_elements_array in He. injection He as He.
  apply (f_equal present) in He. by rewrite !present_some in He.
Qed.

Lemma no_failure results : Forall (fun r => success r = true) results -> first_failure results = None.
Proof.
  unfold first_failure. induction 1 as [|r results Hr _ IH]; [done|]. rewrite filter_cons.
  destruct (decide _); [congruence|done].
Qed.

Lemma merge_ok `{!CodecLaws V} `{!JSValueLaws V} action results vss :
  Forall2 (fun r vs => Some (data r) = serialize (if is_reduce action then hd js_undefined vs else js_array (Some <$> vs))
    /\ (is_reduce action = true -> length vs = 1%nat)) results vss ->
  merge_chunks action results = inl (mjoin vss).
Proof.
  induction 1 as [|r vs results vss [Hd Hl] _ IH]; simpl; [done|]. symmetry in Hd.
  destruct (serialize_roundtrip _ _ Hd) as [_ Hds]. unfold deserialize in Hds.
  destruct (read_header _); [|done]. rewrite Hds, IH. destruct (is_reduce action).
  - specialize (Hl eq_refl). by destruct vs as [|v [|]].
  - rewrite js_elements_array. simpl. by rewrite present_some.
Qed.

(** The chunks of an array without holes. *)
Definition value_chunks (vs : list V) (chunks : Z) : list (list V) := present <$> all_chunks (Some <$> vs) chunks.

Lemma slice_present (vs : list V) a n : take a (drop n (Some <$> vs)) = Some <$> take a (drop n vs).
Proof. by rewrite <- fmap_drop, <- fmap_take. Qed.

Lemma value_chunks_some (vs : list V) chunks : all_chunks (Some <$> vs) chunks = (fmap (M := list) Some) <$> value_chunks vs chunks.
Proof.
  unfold value_chunks, all_chunks. rewrite <- !list_fmap_compose. apply list_fmap_ext. intros _ i _.
  unfold compose, chunk_elements. by rewrite slice_present, present_some.
Qed.

Lemma fmap_Some_inj (l1 l2 : list V) : Some <$> l1 = Some <$> l2 -> l1 = l2.
Proof. intros He. apply (f_equal present) in He. by rewrite !present_some in He. Qed.

Lemma value_chunks_join (vs : list V) pool_size :
  0 < Z.of_nat (length vs) < 2 ^ 32 -> 0 <= pool_size < 2 ^ 32 ->
  mjoin (value_chunks vs (num_chunks (Z.of_nat (length vs)) pool_size)) = vs.
Proof.
  intros Hl Hp. apply fmap_Some_inj. rewrite <- fmap_mjoin, <- value_chunks_some.
  apply all_chunks_join; rewrite length_fmap; [done|]. by apply num_chunks_bounds.
Qed.

Lemma all_chunks_nonempty (elems : list (option V)) chunks :
  0 < Z.of_nat (length elems) < 2 ^ 32 -> 1 <= chunks <= Z.of_nat (length elems) ->
  Forall (fun chunk => chunk <> []) (all_chunks elems chunks).
Proof.
  intros Hl Hc. unfold all_chunks. apply Forall_fmap, Forall_seq. intros i Hi. simpl in *.
  rewrite chunk_elements_slice by lia. pose proof (chunk_nonempty _ chunks Hl Hc (Z.of_nat i) ltac:(lia)).
  assert (0 <= chunk_start (Z.of_nat (length elems)) chunks (Z.of_nat i)) by (unfold chunk_start, wrap; apply Z.mod_pos_bound; lia).
  intros Hn%(f_equal length). rewrite length_take, length_drop in Hn. simpl in Hn. lia.
Qed.

Lemma value_chunks_nonempty (vs : list V) chunks :
  0 < Z.of_nat (length vs) < 2 ^ 32 -> 1 <= chunks <= Z.of_nat (length vs) ->
  Forall (fun l => l <> []) (value_chunks vs chunks).
Proof.
  intros Hl Hc. pose proof (all_chunks_nonempty (Some <$> vs) chunks) as Hn. rewrite length_fmap in Hn.
  specialize (Hn Hl Hc). rewrite value_chunks_some, Forall_fmap in Hn.
  eapply Forall_impl; [exact Hn|]. intros l Hl' ->. by apply Hl'.
Qed.

(** The chunks partition the array: cut with the wrapping uint32 arithmetic of the
    code, they are non-empty, at most as many as pool threads (and at least one), and
    their concatenation is the array. *)
Theorem chunks_partition (elems : list (option V)) pool_size :
  0 < Z.of_nat (length elems) < 2 ^ 32 -> 0 <= pool_size < 2 ^ 32 ->
  let chunks := num_chunks (Z.of_nat (length elems)) pool_size in
  1 <= chunks <= Z.max 1 pool_size /\
  mjoin (all_chunks elems chunks) = elems /\
  length (all_chunks elems chunks) = Z.to_nat chunks /\
  Forall (fun chunk => chunk <> []) (all_chunks elems chunks).
Proof.
  intros Hl Hp chunks. destruct (num_chunks_bounds _ _ Hl Hp) as [Hc1 Hc2]. fold chunks in Hc1, Hc2.
  split; [lia|]. split; [by apply all_chunks_join|]. split; [unfold all_chunks; by rewrite length_fmap, length_seq|].
  by apply all_chunks_nonempty.
Qed.

(** What a call that starts a computation gives. *)
Lemma parallel_started `{!CodecLaws V} `{!JSValueLaws V} receiver callback rest vs pool_size action c tasks waiter :
  js_elements receiver = Some (Some <$> vs) ->
  ArrayParallelCommon receiver (callback :: rest) pool_size action c = (tasks, Returns (Started waiter)) ->
  pj_action waiter = action /\ pj_callback waiter = callback /\
  Forall2 (fun t chunk => arguments_of t = inl (js_array (Some <$> chunk) ::
      match head rest with Some v => if is_reduce action then [v] else [] | None => [] end))
    tasks (value_chunks vs (num_chunks (Z.of_nat (length vs)) pool_size)).
Proof.
  unfold ArrayParallelCommon. intros He. rewrite He, length_fmap. destruct (js_function callback); [|done].
  destruct (c_resolver c); [|done]. destruct (_ =? 0); [done|]. destruct (fn_source callback) as [src|]; [|done].
  destruct (submit_chunks _ _ _ _ _ _) as [tasks' []] eqn:Hs; [|done]. intros; simplify_eq. split_all; try done.
  apply submit_chunks_ok in Hs. unfold value_chunks, all_chunks. rewrite <- list_fmap_compose. apply Forall2_fmap_r.
  eapply Forall2_impl; [exact Hs|]. intros t i [_ Ha]. simpl. rewrite Ha. unfold compose, chunk_elements.
  by rewrite slice_present, present_some.
Qed.

Lemma results_of_chunks (P : task_result -> list V -> Prop) (Q : thread_task -> list V -> Prop) tasks chunks results :
  Forall2 Q tasks chunks ->
  Forall2 (fun t r => success r = true /\ forall chunk, Q t chunk -> P r chunk) tasks results ->
  Forall (fun r => success r = true) results /\ Forall2 P results chunks.
Proof.
  intros Hq. revert results. induction Hq as [|t chunk tasks chunks Hq _ IH]; intros results Hr.
  - apply Forall2_nil_inv_l in Hr as ->. done.
  - apply Forall2_cons_inv_l in Hr as (r & results' & [Hs Hp] & Hr & ->).
    destruct (IH _ Hr) as [? ?]. split; constructor; auto.
Qed.

(** Each chunk's task returned [g] of its chunk. *)
Definition chunks_return (g : list V -> list V) (tasks : list thread_task) (results : list task_result) : Prop :=
  Forall2 (fun t r => success r = true /\ forall chunk, arguments_of t = inl [js_array (Some <$> chunk)] ->
    Some (data r) = serialize (js_array (Some <$> g chunk))) tasks results.

Lemma parallel_merge `{!CodecLaws V} `{!JSValueLaws V} (g : list V -> list V)
    receiver callback rest vs pool_size action c tasks waiter results i w :
  is_reduce action = false -> js_elements receiver = Some (Some <$> vs) ->
  ArrayParallelCommon receiver (callback :: rest) pool_size action c = (tasks, Returns (Started waiter)) ->
  chunks_return g tasks results ->
  RunInternal (mkResolveParallel i results (pj_resolver waiter) (pj_action waiter) (pj_callback waiter)) w
    = (Resolve (js_array (Some <$> mjoin (g <$> value_chunks vs (num_chunks (Z.of_nat (length vs)) pool_size)))), true, w).
Proof.
  intros Hact Helems Hcall Hres.
  destruct (parallel_started _ _ _ _ _ _ _ _ _ Helems Hcall) as (-> & -> & Htasks).
  destruct (results_of_chunks (fun r chunk => Some (data r) = serialize (js_array (Some <$> g chunk))) _ _ _ results Htasks) as [Hs Hf].
  { eapply Forall2_impl; [exact Hres|]. intros t r [Hs Hd]. split; [done|]. intros chunk Ha. apply Hd.
    by destruct (head rest); rewrite Ha; try rewrite Hact. }
  unfold RunInternal. simpl. rewrite (no_failure _ Hs), Hact. erewrite merge_ok; [done|].
  apply Forall2_fmap_r. eapply Forall2_impl; [exact Hf|]. intros r chunk Hd. simpl. by rewrite Hact.
Qed.

(** C11. parallelMap and parallelFilter agree with the sequential method: whenever each
    chunk's task returns [g] of its chunk and [g] distributes over concatenation (map
    and filter by a function of the element), the promise is resolved with [g] of the
    whole array, in order, and the callback's handle is released. *)
Theorem parallel_map_filter `{!CodecLaws V} `{!JSValueLaws V} (g : list V -> list V)
    receiver callback rest vs pool_size action c tasks waiter results i w :
  (forall l1 l2, g (l1 ++ l2) = g l1 ++ g l2) -> is_reduce action = false ->
  js_elements receiver = Some (Some <$> vs) -> 0 < Z.of_nat (length vs) < 2 ^ 32 -> 0 <= pool_size < 2 ^ 32 ->
  ArrayParallelCommon receiver (callback :: rest) pool_size action c = (tasks, Returns (Started waiter)) ->
  chunks_return g tasks results ->
  RunInternal (mkResolveParallel i results (pj_resolver waiter) (pj_action waiter) (pj_callback waiter)) w
    = (Resolve (js_array (Some <$> g vs)), true, w).
Proof.
  intros Hg Hact Helems Hl Hp Hcall Hres.
  rewrite (parallel_merge g receiver callback rest vs pool_size action c tasks) by done.
  by rewrite (mjoin_morphism g), value_chunks_join.
Qed.

(** A callback that uses its index gets the index in its chunk, not in the array: as
    soon as there are two chunks, some element at a positive position of the array is
    mapped with index 0. *)
Theorem parallel_map_index `{!CodecLaws V} `{!JSValueLaws V} (f : nat -> V -> V)
    receiver callback rest vs pool_size c tasks waiter results i w :
  js_elements receiver = Some (Some <$> vs) -> 0 < Z.of_nat (length vs) < 2 ^ 32 -> 0 <= pool_size < 2 ^ 32 ->
  2 <= num_chunks (Z.of_nat (length vs)) pool_size ->
  ArrayParallelMap receiver (callback :: rest) pool_size c = (tasks, Returns (Started waiter)) ->
  chunks_return (imap f) tasks results ->
  exists mapped p v,
    RunInternal (mkResolveParallel i results (pj_resolver waiter) (pj_action waiter) (pj_callback waiter)) w
      = (Resolve (js_array (Some <$> mapped)), true, w) /\
    (0 < p)%nat /\ vs !! p = Some v /\ mapped !! p = Some (f 0%nat v).
Proof.
  intros Helems Hl Hp Hc Hcall Hres. pose proof (value_chunks_join vs pool_size Hl Hp) as Hj.
  destruct (num_chunks_bounds _ _ Hl Hp) as [Hb _].
  set (n := num_chunks _ _) in *.
  assert (Hne : Forall (fun l => l <> []) (value_chunks vs n)).
  { apply value_chunks_nonempty; lia. }
  assert (Hlen : length (value_chunks vs n) = Z.to_nat n).
  { unfold value_chunks, all_chunks. by rewrite !length_fmap, length_seq. }
  rewrite (parallel_merge (imap f) receiver callback rest vs pool_size MAP c tasks) by done. fold n. destruct (value_chunks vs n) as [|c1 [|c2 cs]]; simpl in Hlen; [lia|lia|].
  apply Forall_cons in Hne as [H1' Hne]. apply Forall_cons in Hne as [H2' _]. destruct c2 as [|v c2]; [done|].
  eexists _, (length c1), v. split; [reflexivity|]. split; [destruct c1; [done|simpl; lia]|]. split.
  - rewrite <- Hj. change (mjoin (c1 :: (v :: c2) :: cs)) with (c1 ++ (v :: c2) ++ mjoin cs).
    by rewrite lookup_app_r, Nat.sub_diag by lia.
  - change (mjoin (imap f <$> c1 :: (v :: c2) :: cs)) with (imap f c1 ++ imap f (v :: c2) ++ mjoin (imap f <$> cs)).
    rewrite lookup_app_r by (rewrite length_imap; lia). rewrite length_imap, Nat.sub_diag. done.
Qed.

(** The first chunk that failed decides: the promise is rejected with its exception,
    whatever the other chunks gave, and the handle of the callback is never deleted. *)
Theorem parallel_failure `{!CodecLaws V} before r after e t w :
  chunk_results t = before ++ r :: after -> Forall (fun r => success r = true) before ->
  success r = false -> serialize e = Some (data r) ->
  RunInternal t w = (Reject e, false, w).
Proof.
  intros Hr Hb Hs He. unfold RunInternal, first_failure. rewrite Hr, filter_app.
  assert (filter (fun r => success r = false) before = []) as ->.
  { clear -Hb. induction Hb as [|r before Hr _ IH]; [done|]. rewrite filter_cons_False by congruence. exact IH. }
  rewrite filter_cons_True by done. simpl. unfold chunk_failure.
  destruct (serialize_roundtrip _ _ He) as [Hne Hd]. unfold deserialize in Hd.
  destruct (data r); [done|]. destruct (read_header _); [|done]. by rewrite Hd.
Qed.

(** ** Reduction *)

Definition fold1 (op : V -> V -> V) (l : list V) : option V :=
  match l with [] => None | x :: l => Some (foldl op x l) end.

(** What [chunk.reduce] computes on a chunk. *)
Definition chunk_reduce (op : V -> V -> V) (initial : option V) (chunk : list V) : option V :=
  match initial with Some i => Some (foldl op i chunk) | None => fold1 op chunk end.

Lemma final_reduce_fold cb op acc vs w :
  (forall a b w, call cb [a; b] w = (Done (op a b), w)) -> final_reduce cb acc vs w = (Resolve (foldl op acc vs), w).
Proof. intros Hc. revert acc. induction vs as [|v vs IH]; simpl; intros acc; [done|]. by rewrite Hc, IH. Qed.

(** Each chunk's task returned the reduction of its chunk. *)
Definition chunks_reduce (op : V -> V -> V) (initial : option V) (tasks : list thread_task) (results : list task_result) : Prop :=
  Forall2 (fun t r => success r = true /\
    forall chunk, arguments_of t = inl (js_array (Some <$> chunk) :: match initial with Some v => [v] | None => [] end) ->
      exists v, chunk_reduce op initial chunk = Some v /\ Some (data r) = serialize v) tasks results.

Lemma parallel_reduce_core `{!CodecLaws V} `{!JSValueLaws V} (op : V -> V -> V)
    receiver callback rest vs pool_size c tasks waiter results i w :
  (forall a b w, call callback [a; b] w = (Done (op a b), w)) ->
  js_elements receiver = Some (Some <$> vs) -> 0 < Z.of_nat (length vs) < 2 ^ 32 -> 0 <= pool_size < 2 ^ 32 ->
  ArrayParallelReduce receiver (callback :: rest) pool_size c = (tasks, Returns (Started waiter)) ->
  chunks_reduce op (head rest) tasks results ->
  exists v, fold1 op (omap (chunk_reduce op (head rest))
              (value_chunks vs (num_chunks (Z.of_nat (length vs)) pool_size))) = Some v /\
    RunInternal (mkResolveParallel i results (pj_resolver waiter) (pj_action waiter) (pj_callback waiter)) w
      = (Resolve v, true, w).
Proof.
  intros Hcb Helems Hl Hp Hcall Hres.
  destruct (parallel_started _ _ _ _ _ _ _ _ _ Helems Hcall) as (-> & -> & Htasks). simpl in Htasks.
  destruct (results_of_chunks (fun r chunk => exists v, chunk_reduce op (head rest) chunk = Some v /\ Some (data r) = serialize v)
    _ _ _ results Htasks) as [Hs Hf].
  { eapply Forall2_impl; [exact Hres|]. intros t r [Hs Hd]. split; [done|]. exact Hd. }
  assert (Hne : value_chunks vs (num_chunks (Z.of_nat (length vs)) pool_size) <> []).
  { intros Hn. pose proof (value_chunks_join vs pool_size Hl Hp) as Hj. rewrite Hn in Hj. subst vs. simpl in Hl. lia. }
  unfold RunInternal. simpl. rewrite (no_failure _ Hs).
  set (chunks := value_chunks _ _) in *.
  assert (Hm : exists vss, mjoin vss = omap (chunk_reduce op (head rest)) chunks /\
    length vss = length chunks /\ merge_chunks REDUCE results = inl (mjoin vss) /\ Forall (fun l => length l = 1%nat) vss).
  { clear Hres Htasks Hne Hs Hcall. induction Hf as [|r chunk results chunks (v & Hv & Hd) Hf (vss & Hj & Hlen & Hm & Hone)].
    - exists []. done.
    - exists ([v] :: vss). split_all; [simpl; by rewrite Hv, Hj|simpl; by rewrite Hlen| |by constructor].
      symmetry in Hd. destruct (serialize_roundtrip _ _ Hd) as [_ Hds]. unfold deserialize in Hds. cbn [merge_chunks].
      destruct (read_header _); [|done]. by rewrite Hds, Hm. }
  destruct Hm as (vss & Hj & Hlen & Hm & Hone). rewrite Hm, <- Hj.
  destruct vss as [|l vss]; [by destruct chunks|]. inversion Hone; subst. destruct l as [|v [|]]; try done. simpl.
  eexists. split; [done|]. by rewrite (final_reduce_fold _ op).
Qed.

Lemma fold1_app op l1 l2 x1 x2 :
  (forall a b c, op a (op b c) = op (op a b) c) ->
  fold1 op l1 = Some x1 -> fold1 op l2 = Some x2 -> fold1 op (l1 ++ l2) = Some (op x1 x2).
Proof.
  intros Ha. destruct l1 as [|a l1], l2 as [|b l2]; simpl; try done. intros; simplify_eq. f_equal.
  rewrite foldl_app. simpl. generalize (foldl op a l1). intros x. revert x b.
  induction l2 as [|c l2 IH]; simpl; intros x b; [done|]. by rewrite <- IH, Ha.
Qed.

Lemma fold1_join op chunks :
  (forall a b c, op a (op b c) = op (op a b) c) -> Forall (fun l => l <> []) chunks ->
  fold1 op (omap (fold1 op) chunks) = fold1 op (mjoin chunks).
Proof.
  intros Ha. induction 1 as [|l chunks Hl Hc IH]; [done|]. destruct l as [|a l]; [done|].
  change (fold1 op ([foldl op a l] ++ omap (fold1 op) chunks) = fold1 op ((a :: l) ++ mjoin chunks)).
  destruct (fold1 op (omap (fold1 op) chunks)) as [y|] eqn:Hy.
  - by rewrite (fold1_app op _ _ (foldl op a l) y), (fold1_app op _ _ (foldl op a l) y).
  - symmetry in IH. destruct (mjoin chunks); [|done]. destruct (omap (fold1 op) chunks); [|done].
    simpl. by rewrite app_nil_r.
Qed.

Lemma foldl_identity op i l :
  (forall a, op i a = a) -> l <> [] -> Some (foldl op i l) = fold1 op l.
Proof. intros Hi Hl. destruct l as [|a l]; [done|]. simpl. by rewrite Hi. Qed.

Lemma chunk_reduce_identity op initial chunks :
  match initial with Some i => forall a, op i a = a | None => True end -> Forall (fun l => l <> []) chunks ->
  omap (chunk_reduce op initial) chunks = omap (fold1 op) chunks.
Proof.
  intros Hi. induction 1 as [|l chunks Hl _ IH]; [done|].
  assert (chunk_reduce op initial l = fold1 op l) as He by (destruct initial; [by apply foldl_identity|done]).
  change (match chunk_reduce op initial l with Some y => y :: omap (chunk_reduce op initial) chunks
    | None => omap (chunk_reduce op initial) chunks end = match fold1 op l with Some y => y :: omap (fold1 op) chunks
    | None => omap (fold1 op) chunks end). by rewrite IH, He.
Qed.

(** parallelReduce agrees with reduce for an associative callback, without an initial
    value or with one that is an identity of the callback: the promise is resolved
    with the sequential result. *)
Theorem parallel_reduce_correct `{!CodecLaws V} `{!JSValueLaws V} (op : V -> V -> V)
    receiver callback rest vs pool_size c tasks waiter results i w :
  (forall a b w, call callback [a; b] w = (Done (op a b), w)) ->
  (forall a b c, op a (op b c) = op (op a b) c) ->
  match head rest with Some init => forall a, op init a = a | None => True end ->
  js_elements receiver = Some (Some <$> vs) -> 0 < Z.of_nat (length vs) < 2 ^ 32 -> 0 <= pool_size < 2 ^ 32 ->
  ArrayParallelReduce receiver (callback :: rest) pool_size c = (tasks, Returns (Started waiter)) ->
  chunks_reduce op (head rest) tasks results ->
  exists v, chunk_reduce op (head rest) vs = Some v /\
    RunInternal (mkResolveParallel i results (pj_resolver waiter) (pj_action waiter) (pj_callback waiter)) w
      = (Resolve v, true, w).
Proof.
  intros Hcb Ha Hi Helems Hl Hp Hcall Hres.
  destruct (parallel_reduce_core op receiver callback rest vs pool_size c tasks waiter results i w) as (v & Hv & Hr); try done.
  exists v. split; [|done]. rewrite <- Hv.
  rewrite chunk_reduce_identity by first [done|apply value_chunks_nonempty; [done|by apply num_chunks_bounds]].
  rewrite fold1_join by first [done|apply value_chunks_nonempty; [done|by apply num_chunks_bounds]].
  rewrite value_chunks_join by done. destruct (head rest) as [init|]; [|done]. simpl.
  apply foldl_identity; [done|]. intros ->. simpl in Hl. lia.
Qed.

Section measure.
Context (op : V -> V -> V) (m : V -> Z).
Hypothesis m_op : forall a b, m (op a b) = m a + m b.

Definition total (l : list V) : Z := foldr (fun v n => m v + n) 0 l.

Lemma total_app l1 l2 : total (l1 ++ l2) = total l1 + total l2.
Proof. induction l1 as [|v l1 IH]; simpl; lia. Qed.

Lemma foldl_measure a l : m (foldl op a l) = m a + total l.
Proof. revert a. induction l as [|b l IH]; simpl; intros a; [lia|]. rewrite IH, m_op. lia. Qed.

Lemma chunks_measure init chunks v :
  fold1 op (omap (chunk_reduce op (Some init)) chunks) = Some v ->
  m v = total (mjoin chunks) + Z.of_nat (length chunks) * m init.
Proof.
  assert (Ht : total (omap (chunk_reduce op (Some init)) chunks) =
    total (mjoin chunks) + Z.of_nat (length chunks) * m init).
  { induction chunks as [|l chunks IH]; [done|].
    change (m (foldl op init l) + total (omap (chunk_reduce op (Some init)) chunks) =
      total (l ++ mjoin chunks) + Z.of_nat (S (length chunks)) * m init).
    rewrite total_app, IH, foldl_measure. lia. }
  destruct (omap _ chunks) as [|a l]; [done|]. intros Hv. simpl in Hv. injection Hv as <-.
  rewrite foldl_measure. simpl in Ht. lia.
Qed.
End measure.

(** The initial value of parallelReduce is used once per chunk, not once: for an
    additive callback (any measure with m (op a b) = m a + m b) the result measures the
    array plus [num_chunks] times the initial value, where reduce adds it once. *)
Theorem parallel_reduce_initial_repeated `{!CodecLaws V} `{!JSValueLaws V} (op : V -> V -> V) (m : V -> Z)
    receiver callback init vs pool_size c tasks waiter results i w :
  (forall a b w, call callback [a; b] w = (Done (op a b), w)) ->
  (forall a b, m (op a b) = m a + m b) ->
  js_elements receiver = Some (Some <$> vs) -> 0 < Z.of_nat (length vs) < 2 ^ 32 -> 0 <= pool_size < 2 ^ 32 ->
  ArrayParallelReduce receiver [callback; init] pool_size c = (tasks, Returns (Started waiter)) ->
  chunks_reduce op (Some init) tasks results ->
  exists v,
    RunInternal (mkResolveParallel i results (pj_resolver waiter) (pj_action waiter) (pj_callback waiter)) w
      = (Resolve v, true, w) /\
    m v = total m vs + num_chunks (Z.of_nat (length vs)) pool_size * m init /\
    m (foldl op init vs) = total m vs + m init.
Proof.
  intros Hcb Hm Helems Hl Hp Hcall Hres.
  destruct (parallel_reduce_core op receiver callback [init] vs pool_size c tasks waiter results i w) as (v & Hv & Hr); try done.
  exists v. split; [done|]. pose proof (value_chunks_join vs pool_size Hl Hp) as Hj.
  destruct (num_chunks_bounds _ _ Hl Hp) as [Hb _]. split.
  - apply (chunks_measure op m Hm) in Hv. rewrite Hj in Hv. rewrite Hv. unfold value_chunks, all_chunks.
    rewrite !length_fmap, length_seq. lia.
  - rewrite foldl_measure by done. lia.
Qed.
End theorems.

(** ** Concrete executions: arrays of four numbers on a pool of two threads *)

Definition four : list value := [VNumber 1; VNumber 2; VNumber 3; VNumber 4].
Definition four_array : value := array_of (Some <$> four).
Definition demo_caller : caller := mkCaller 1 (-1) (Some 9%nat).

Definition start (action : ParallelAction) (args : list value) : list thread_task * ParallelArrayJoinTask :=
  match ArrayParallelCommon four_array args 2 action demo_caller with
  | (tasks, Returns (Started waiter)) => (tasks, waiter)
  | (tasks, _) => (tasks, mkParallelJoin 0 0 0 action VUndefined)
  end.

Definition result_of (v : value) : task_result := TaskResult true (default [] (serialize v)).
Definition double (v : value) : value := match v with VNumber n => VNumber (2 * n) | v => v end.
Definition sum_op (a b : value) : value := VNumber (foldr Z.add 0 (numbers [a; b])).
Definition measure (v : value) : Z := foldr Z.add 0 (numbers [v]).

Lemma sum_op_assoc a b c : sum_op a (sum_op b c) = sum_op (sum_op a b) c.
Proof. unfold sum_op. destruct a, b, c; simpl; f_equal; lia. Qed.
Lemma sum_op_measure a b : measure (sum_op a b) = measure a + measure b.
Proof. unfold sum_op, measure. destruct a, b; simpl; lia. Qed.

Lemma chunks_partition_witness :
  num_chunks 4 3 = 3 /\ mjoin (all_chunks (Some <$> four) 3) = Some <$> four.
Proof.
  split; [reflexivity|]. refine (proj1 (proj2 (chunks_partition (Some <$> four) 3 _ _))); simpl; lia.
Defined.

Definition demo_run t := RunInternal (W := nat) t 0%nat.
Definition resolve_with action args results :=
  let waiter := (start action args).2 in
  demo_run (mkResolveParallel 1 results (pj_resolver waiter) (pj_action waiter) (pj_callback waiter)).

Lemma demo_chunk t chunk chunk' rest rest' :
  arguments_of (V := value) (W := nat) t = inl (js_array (Some <$> chunk') :: rest') ->
  arguments_of (V := value) (W := nat) t = inl (js_array (Some <$> chunk) :: rest) -> chunk' = chunk.
Proof. intros Hb Ha. apply js_array_inj. congruence. Qed.

(** One chunk of a concrete execution, whose elements are [l]. *)
Ltac chunk l := split; [reflexivity|]; let c := fresh in let Hc := fresh in intros c Hc;
  rewrite (demo_chunk _ l c _ _ Hc eq_refl).

Lemma parallel_map_filter_witness :
  resolve_with MAP [VFunction 4] [result_of (array_of [Some (VNumber 2); Some (VNumber 4)]);
      result_of (array_of [Some (VNumber 6); Some (VNumber 8)])]
    = (Resolve (array_of (Some <$> [VNumber 2; VNumber 4; VNumber 6; VNumber 8])), true, 0%nat).
Proof.
  refine (parallel_map_filter (W := nat) (fmap double) four_array (VFunction 4) [] four 2 MAP demo_caller
    (start MAP [VFunction 4]).1 _ _ 1 0%nat (fmap_app double) eq_refl eq_refl _ _ eq_refl _); [simpl; lia|lia|].
  apply Forall2_cons; split; [chunk [VNumber 1; VNumber 2]; reflexivity|].
  apply Forall2_cons; split; [chunk [VNumber 3; VNumber 4]; reflexivity|constructor].
Defined.

Definition tag (i : nat) (v : value) : value := VIterResult v (i =? 0)%nat.

Lemma parallel_map_index_witness :
  exists mapped p v,
    resolve_with MAP [VFunction 5]
      [result_of (array_of (Some <$> imap tag [VNumber 1; VNumber 2])); result_of (array_of (Some <$> imap tag [VNumber 3; VNumber 4]))]
      = (Resolve (array_of (Some <$> mapped)), true, 0%nat) /\
    (0 < p)%nat /\ four !! p = Some v /\ mapped !! p = Some (VIterResult v true).
Proof.
  refine (parallel_map_index (W := nat) tag four_array (VFunction 5) [] four 2 demo_caller
    (start MAP [VFunction 5]).1 _ _ 1 0%nat eq_refl _ _ _ eq_refl _); [simpl; lia|lia|vm_compute; discriminate|].
  apply Forall2_cons; split; [chunk [VNumber 1; VNumber 2]; reflexivity|].
  apply Forall2_cons; split; [chunk [VNumber 3; VNumber 4]; reflexivity|constructor].
Defined.

Lemma parallel_failure_witness :
  resolve_with MAP [VFunction 2] [result_of (array_of []); TaskResult false (default [] (serialize (VError TypeError "boom")))]
    = (Reject (VError TypeError "boom"), false, 0%nat).
Proof.
  refine (parallel_failure (W := nat) [result_of (array_of [])] (TaskResult false (default [] (serialize (VError TypeError "boom")))) []
    (VError TypeError "boom") (mkResolveParallel 1 [result_of (array_of []);
      TaskResult false (default [] (serialize (VError TypeError "boom")))] 9 MAP (VFunction 2)) 0%nat eq_refl _ eq_refl eq_refl).
  constructor; [reflexivity|constructor].
Defined.

Lemma parallel_reduce_correct_witness :
  exists v, fold1 sum_op four = Some v /\
    resolve_with REDUCE [VFunction 1] [result_of (VNumber 3); result_of (VNumber 7)] = (Resolve v, true, 0%nat).
Proof.
  refine (parallel_reduce_correct (W := nat) sum_op four_array (VFunction 1) [] four 2 demo_caller
    (start REDUCE [VFunction 1]).1 (start REDUCE [VFunction 1]).2 [result_of (VNumber 3); result_of (VNumber 7)] 1 0%nat
    (fun _ _ _ => eq_refl) sum_op_assoc I eq_refl _ _ eq_refl _); [simpl; lia|lia|].
  apply Forall2_cons; split; [chunk [VNumber 1; VNumber 2]; by eexists|].
  apply Forall2_cons; split; [chunk [VNumber 3; VNumber 4]; by eexists|constructor].
Defined.

(** 1 + 2 + 3 + 4 from 10 on two threads is 30. *)
Lemma parallel_reduce_initial_repeated_witness :
  exists v, resolve_with REDUCE [VFunction 1; VNumber 10] [result_of (VNumber 13); result_of (VNumber 17)]
      = (Resolve v, true, 0%nat) /\ measure v = 30 /\ measure (foldl sum_op (VNumber 10) four) = 20.
Proof.
  refine (parallel_reduce_initial_repeated (W := nat) sum_op measure four_array (VFunction 1) (VNumber 10) four 2 demo_caller
    (start REDUCE [VFunction 1; VNumber 10]).1 (start REDUCE [VFunction 1; VNumber 10]).2
    [result_of (VNumber 13); result_of (VNumber 17)] 1 0%nat
    (fun _ _ _ => eq_refl) sum_op_measure eq_refl _ _ eq_refl _); [simpl; lia|lia|].
  apply Forall2_cons; split; [chunk [VNumber 1; VNumber 2]; by eexists|].
  apply Forall2_cons; split; [chunk [VNumber 3; VNumber 4]; by eexists|constructor].
Defined.
