(* ===== verification/Microtasks.v ===== *)
(** Microtask queues: src/src/execution/microtask-queue.{h,cc} and the builtins that
    work on the same ring buffer (src/src/builtins/builtins-microtask-queue-gen.cc).

    The ring buffer with its growth and its shrinking at garbage collections, the C++
    and the generated enqueue, the loop that runs microtasks, the completed callbacks
    with their copy on write, and the circular list of the queues of an isolate.
    Integers of type intptr_t are unbounded: sizes are bounded by memory. *)
From S2P Require Import Prelude.

Section ring.
Context {T : Type}.

(** ** The ring buffer *)

Definition kMinimumCapacity : Z := 8.

Record MicrotaskQueue := mkQueue {
  size_ : Z; capacity_ : Z; start_ : Z;
  ring_buffer_ : list (option T);       (* None: not initialized *)
}.

Definition new_queue : MicrotaskQueue := mkQueue 0 0 0 [].

Definition slot (buffer : list (option T)) (i : Z) : option T := default None (buffer !! Z.to_nat i).

Definition get (q : MicrotaskQueue) (index : Z) : option T :=
  slot (ring_buffer_ q) ((index + start_ q) mod capacity_ q).

Definition ResizeBuffer (new_capacity : Z) (q : MicrotaskQueue) : MicrotaskQueue :=
  let copied := (fun i => slot (ring_buffer_ q) ((start_ q + Z.of_nat i) mod capacity_ q)) <$> seq 0 (Z.to_nat (size_ q)) in
  mkQueue (size_ q) new_capacity 0 (copied ++ replicate (Z.to_nat (new_capacity - size_ q)) None).

Definition store (i : Z) (t : T) (q : MicrotaskQueue) : MicrotaskQueue :=
  mkQueue (size_ q + 1) (capacity_ q) (start_ q) (<[Z.to_nat i := Some t]> (ring_buffer_ q)).

(** [TryInterceptAutoParallelMicrotask]: true when the microtask went to the pool. *)
Context (intercept : T -> bool).

(** The queue, and whether the microtask was intercepted. *)
Definition EnqueueMicrotask (t : T) (q : MicrotaskQueue) : MicrotaskQueue * bool :=
  if intercept t then (q, true)
  else
    let q := if size_ q =? capacity_ q
             then ResizeBuffer (Z.max kMinimumCapacity (Z.shiftl (capacity_ q) 1)) q else q in
    (store ((start_ q + size_ q) mod capacity_ q) t q, false).

(** [CalculateRingBufferOffset], in elements. *)
Definition CalculateRingBufferOffset (capacity start index : Z) : Z := Z.land (start + index) (capacity - 1).

(** TF_BUILTIN(EnqueueMicrotask): the path of every microtask that JavaScript enqueues. *)
Definition Builtin_EnqueueMicrotask (t : T) (q : MicrotaskQueue) : MicrotaskQueue * bool :=
  if size_ q =? capacity_ q then EnqueueMicrotask t q
  else (store (CalculateRingBufferOffset (capacity_ q) (start_ q) (size_ q)) t q, false).

(** One iteration of TF_BUILTIN(RunMicrotasks): the microtask that runs next, removed. *)
Definition take_microtask (q : MicrotaskQueue) : option (option T * MicrotaskQueue) :=
  if size_ q =? 0 then None
  else Some (slot (ring_buffer_ q) (CalculateRingBufferOffset (capacity_ q) (start_ q) 0),
             mkQueue (size_ q - 1) (capacity_ q) (Z.land (start_ q + 1) (capacity_ q - 1)) (ring_buffer_ q)).

(** The loop. [exec] gives the microtasks that running one enqueues. *)
Fixpoint Builtin_RunMicrotasks (fuel : nat) (exec : T -> list T) (q : MicrotaskQueue) :
    option (list (option T) * MicrotaskQueue) :=
  match fuel with O => None | S fuel =>
  match take_microtask q with
  | None => Some ([], q)
  | Some (t, q) =>
      let q := foldl (fun q t => (Builtin_EnqueueMicrotask t q).1) q (from_option exec [] t) in
      '(ran, q) ← Builtin_RunMicrotasks fuel exec q; Some (t :: ran, q)
  end end.

(** [RunMicrotasks]: the count it returns, or -1 when the execution is terminating. *)
Definition RunMicrotasks (fuel : nat) (exec : T -> list T) (is_execution_terminating : bool) (q : MicrotaskQueue) :
    option (Z * MicrotaskQueue) :=
  if size_ q =? 0 then Some (0, q)
  else
    '(ran, q) ← Builtin_RunMicrotasks fuel exec q;
    if is_execution_terminating then Some (-1, mkQueue 0 0 0 [])
    else Some (Z.of_nat (length ran), q).

(** [IterateMicrotasks]: the slots that the garbage collector visits, and the queue,
    whose buffer may have shrunk. Each iteration of the loop halves the capacity, which
    is below 2^63. *)
Fixpoint shrink_loop (fuel : nat) (new_capacity size : Z) : Z :=
  match fuel with O => new_capacity | S fuel =>
  if new_capacity >? 2 * size then shrink_loop fuel (Z.shiftr new_capacity 1) size else new_capacity
  end.

#[global] Arguments shrink_loop : simpl never.

Definition visit_range (buffer : list (option T)) (first last : Z) : list (option T) :=
  take (Z.to_nat (last - first)) (drop (Z.to_nat first) buffer).

Definition IterateMicrotasks (q : MicrotaskQueue) : list (option T) * MicrotaskQueue :=
  let visited :=
    if size_ q =? 0 then []
    else visit_range (ring_buffer_ q) (start_ q) (Z.min (start_ q + size_ q) (capacity_ q)) ++
         visit_range (ring_buffer_ q) 0 (Z.max (start_ q + size_ q - capacity_ q) 0) in
  (visited,
   if capacity_ q <=? kMinimumCapacity then q
   else
     let new_capacity := Z.max (shrink_loop 64 (capacity_ q) (size_ q)) kMinimumCapacity in
     if new_capacity <? capacity_ q then ResizeBuffer new_capacity q else q).

(** ** Invariant *)

Record wf (q : MicrotaskQueue) : Prop := {
  wf_capacity : capacity_ q = 0 \/ exists k, 3 <= k < 63 /\ capacity_ q = 2 ^ k;
  wf_size : 0 <= size_ q <= capacity_ q;
  wf_start : 0 <= start_ q /\ (start_ q < capacity_ q \/ start_ q = 0);
  wf_buffer : Z.of_nat (length (ring_buffer_ q)) = capacity_ q;
}.

(** The microtasks in the queue, first one first. *)
Definition models (q : MicrotaskQueue) (l : list T) : Prop :=
  wf q /\ Z.of_nat (length l) = size_ q /\
  forall i t, l !! i = Some t -> ring_buffer_ q !! Z.to_nat ((start_ q + Z.of_nat i) mod capacity_ q) = Some (Some t).

Lemma mask_mod q i : wf q -> 0 < capacity_ q -> Z.land i (capacity_ q - 1) = i mod capacity_ q.
Proof. intros [[->|(k & Hk & ->)] _ _ _] Hp; [lia|]. apply land_pow2_mask. lia. Qed.

Lemma models_new : models new_queue [].
Proof. split; [|done]. split; simpl; auto; lia. Qed.

Lemma models_size_zero q l : models q l -> (size_ q =? 0) = bool_decide (l = []).
Proof.
  intros (_ & Hl & _). destruct l; simpl in *; destruct (Z.eqb_spec (size_ q) 0); try lia; done.
Qed.

Lemma slot_lookup buffer i t : buffer !! Z.to_nat i = Some t -> slot buffer i = t.
Proof. intros Hb. unfold slot. by rewrite Hb. Qed.

Lemma queue_models_resize q l new_capacity :
  models q l -> size_ q <= new_capacity -> (exists k, 3 <= k < 63 /\ new_capacity = 2 ^ k) ->
  models (ResizeBuffer new_capacity q) l.
Proof.
  intros (Hw & Hlen & Hl) Hc Hk. pose proof (wf_size _ Hw). unfold ResizeBuffer. split; [|split; [done|]].
  - destruct Hk as (k & Hk & ->). pose proof (pow2_log2_bounds k ltac:(lia)).
    split; simpl; [right; by exists k|lia|lia|]. rewrite length_app, length_fmap, length_seq, length_replicate. lia.
  - intros i t Hi. simpl. pose proof (lookup_lt_Some _ _ _ Hi). destruct Hk as (k & Hk & ->).
    rewrite Z.mod_small, Z.add_0_l, Nat2Z.id by lia.
    rewrite lookup_app_l by (rewrite length_fmap, length_seq; lia).
    rewrite list_lookup_fmap, lookup_seq_lt by lia. simpl. f_equal. apply slot_lookup. by apply Hl.
Qed.

Lemma models_store q l t :
  models q l -> size_ q < capacity_ q ->
  models (store ((start_ q + size_ q) mod capacity_ q) t q) (l ++ [t]).
Proof.
  intros (Hw & Hlen & Hl) Hc. pose proof (wf_size _ Hw). pose proof (wf_start _ Hw). pose proof (wf_buffer _ Hw).
  pose proof (Z.mod_pos_bound (start_ q + size_ q) (capacity_ q) ltac:(lia)).
  split; [|split].
  - destruct Hw. split; simpl; try done; [lia|]. by rewrite length_insert.
  - rewrite length_app. simpl. lia.
  - intros i t' Hi. simpl. apply lookup_app_Some in Hi as [Hi|[Hge Hi]].
    + pose proof (lookup_lt_Some _ _ _ Hi). rewrite list_lookup_insert_ne; [by apply Hl|].
      pose proof (Z.mod_pos_bound (start_ q + Z.of_nat i) (capacity_ q) ltac:(lia)).
      intros He%Z2Nat.inj; [|lia|lia].
      pose proof (mod_near_inj (start_ q + size_ q) (start_ q + Z.of_nat i) (capacity_ q) ltac:(lia) ltac:(lia) He). lia.
    + apply list_lookup_singleton_Some in Hi as [Hi ->]. assert (Z.of_nat i = size_ q) as -> by lia.
      rewrite list_lookup_insert_eq by lia. done.
Qed.

Lemma grown_capacity q : wf q -> size_ q = capacity_ q ->
  size_ q < 2 ^ 62 -> exists k, 3 <= k < 63 /\ Z.max kMinimumCapacity (Z.shiftl (capacity_ q) 1) = 2 ^ k.
Proof.
  intros [[Hc|(k & Hk & Hc)] _ _ _] Hs Hb; rewrite Hc in *; [exists 3; done|].
  exists (k + 1). rewrite Z.shiftl_mul_pow2, <- Z.pow_add_r by lia. unfold kMinimumCapacity.
  pose proof (Z.pow_le_mono_r 2 4 (k + 1) ltac:(lia) ltac:(lia)). assert (2 ^ k < 2 ^ 62) as Hlt%Z.pow_lt_mono_r_iff by lia; lia.
Qed.

(** Both ways to enqueue append, unless the microtask is intercepted. *)
Lemma models_enqueue q l t q' intercepted :
  models q l -> size_ q < 2 ^ 62 -> EnqueueMicrotask t q = (q', intercepted) ->
  models q' (if intercepted then l else l ++ [t]) /\ intercepted = intercept t.
Proof.
  intros Hm Hb. unfold EnqueueMicrotask. destruct (intercept t) eqn:Hi; intros He; simplify_eq; [done|]. split; [|done].
  pose proof Hm as [Hw _]. pose proof (wf_size _ Hw). destruct (Z.eqb_spec (size_ q) (capacity_ q)) as [Hs|Hs].
  - destruct (grown_capacity q Hw Hs Hb) as (k & Hk & Hc). rewrite Hc.
    assert (size_ q < 2 ^ k).
    { rewrite <- Hc, Z.shiftl_mul_pow2 by lia. unfold kMinimumCapacity. lia. }
    apply models_store; [|done]. apply queue_models_resize; [done|lia|by exists k].
  - apply models_store; [done|lia].
Qed.

Lemma models_builtin_enqueue q l t q' intercepted :
  models q l -> size_ q < 2 ^ 62 -> Builtin_EnqueueMicrotask t q = (q', intercepted) ->
  models q' (if intercepted then l else l ++ [t]) /\
  intercepted = (size_ q =? capacity_ q) && intercept t.
Proof.
  intros Hm Hb. unfold Builtin_EnqueueMicrotask. pose proof Hm as [Hw _]. pose proof (wf_size _ Hw).
  destruct (Z.eqb_spec (size_ q) (capacity_ q)) as [Hs|Hs].
  - intros He. by eapply models_enqueue.
  - intros; simplify_eq. split; [|done]. unfold CalculateRingBufferOffset. rewrite mask_mod by (done || lia).
    apply models_store; [done|lia].
Qed.

Lemma models_take q t l :
  models q (t :: l) -> exists q', take_microtask q = Some (Some t, q') /\ models q' l /\ size_ q' < size_ q.
Proof.
  intros (Hw & Hlen & Hl). pose proof (wf_size _ Hw). pose proof (wf_start _ Hw). simpl in Hlen.
  assert (Hc : 0 < capacity_ q) by lia. unfold take_microtask, CalculateRingBufferOffset.
  destruct (Z.eqb_spec (size_ q) 0); [lia|]. rewrite !mask_mod by done. eexists. split; [|split].
  - do 2 f_equal. apply slot_lookup. rewrite Z.add_0_r. pose proof (Hl 0%nat t eq_refl) as Ht.
    simpl in Ht. by rewrite Z.add_0_r in Ht.
  - pose proof (Z.mod_pos_bound (start_ q + 1) (capacity_ q) Hc). split; [|split].
    + destruct Hw. split; simpl; try done; lia.
    + simpl. lia.
    + intros i t' Hi. simpl. rewrite Z.add_mod_idemp_l by lia. rewrite <- (Hl (S i) t' Hi). do 2 f_equal. f_equal. lia.
  - simpl. lia.
Qed.

(** ** Garbage collection *)

Lemma shrink_loop_spec fuel k size :
  0 <= size -> (k < Z.of_nat fuel) -> 0 <= k -> size <= 2 ^ k ->
  let r := shrink_loop fuel (2 ^ k) size in
  (r = 0 /\ size = 0) \/ (size <= r <= 2 * size /\ exists j, 0 <= j <= k /\ r = 2 ^ j).
Proof.
  revert k. induction fuel as [|fuel IH]; intros k Hs Hf Hk Hle; [lia|].
  change (shrink_loop (S fuel) (2 ^ k) size) with
    (if 2 ^ k >? 2 * size then shrink_loop fuel (Z.shiftr (2 ^ k) 1) size else 2 ^ k).
  destruct (Z.gtb_spec (2 ^ k) (2 * size)) as [Hgt|Hle'].
  - rewrite Z.shiftr_div_pow2 by lia. change (2 ^ 1) with 2. destruct (decide (k = 0)) as [->|Hne].
    + change (2 ^ 0 / 2) with 0. assert (size = 0) as -> by (change (2 ^ 0) with 1 in Hgt; lia). left. by destruct fuel.
    + assert (2 ^ k = 2 * 2 ^ (k - 1)) as He by (rewrite <- Z.pow_succ_r by lia; f_equal; lia).
      rewrite He, Z.mul_comm, Z.div_mul by lia. destruct (IH (k - 1)) as [?|(? & j & ? & ?)]; [lia|lia|lia|lia|by left|].
      right. split; [done|]. exists j. split; [lia|done].
  - right. split; [lia|]. exists k. split; [lia|done].
Qed.

Lemma models_visited q l : models q l -> (IterateMicrotasks q).1 = Some <$> l.
Proof.
  intros Hm. pose proof Hm as (Hw & Hlen & Hl). pose proof (wf_size _ Hw). pose proof (wf_start _ Hw) as [Hs0 Hs1].
  pose proof (wf_buffer _ Hw). simpl. rewrite (models_size_zero q l Hm). case_bool_decide as Hn; [by subst|].
  assert (Hc : 0 < size_ q) by (destruct l; [done|simpl in Hlen; lia]).
  apply list_eq. intros i. rewrite list_lookup_fmap. unfold visit_range. rewrite Z.sub_0_r, drop_0.
  set (first := take _ (drop _ _)).
  assert (Hf : length first = Z.to_nat (Z.min (start_ q + size_ q) (capacity_ q) - start_ q)).
  { unfold first. rewrite length_take, length_drop. lia. }
  destruct (l !! i) as [t|] eqn:Hi; simpl.
  - pose proof (lookup_lt_Some _ _ _ Hi). specialize (Hl i t Hi). destruct (decide (i < length first)%nat).
    + rewrite lookup_app_l by done. unfold first. rewrite lookup_take_lt, lookup_drop by lia.
      rewrite <- Hl, Z.mod_small by lia. f_equal. lia.
    + rewrite lookup_app_r by lia. rewrite lookup_take_lt by lia. rewrite <- Hl. f_equal.
      rewrite <- (Z.mod_unique_pos _ (capacity_ q) 1 (start_ q + Z.of_nat i - capacity_ q)) by lia. lia.
  - apply lookup_ge_None in Hi. apply lookup_ge_None. rewrite length_app, length_take. lia.
Qed.

Lemma models_gc q l : models q l ->
  models (IterateMicrotasks q).2 l /\ capacity_ (IterateMicrotasks q).2 <= Z.max kMinimumCapacity (2 * size_ q).
Proof.
  intros Hm. pose proof Hm as (Hw & Hlen & Hl). pose proof (wf_size _ Hw) as Hs. simpl.
  destruct (Z.leb_spec (capacity_ q) kMinimumCapacity) as [|Hgt]; [split; [done|lia]|].
  destruct (wf_capacity _ Hw) as [Hc|(k & Hk & Hc)]; unfold kMinimumCapacity in *; [lia|].
  pose proof (shrink_loop_spec 64 k (size_ q) ltac:(lia) ltac:(lia) ltac:(lia) ltac:(lia)) as Hr. rewrite <- Hc in Hr.
  set (r := shrink_loop _ _ _) in *. simpl in Hr.
  destruct (Z.ltb_spec (Z.max r 8) (capacity_ q)).
  - split; [|simpl; lia]. apply queue_models_resize; [done|lia|]. destruct Hr as [[-> ?]|(Hr & j & Hj & ->)]; [by exists 3|].
    destruct (Z.max_spec (2 ^ j) 8) as [[? ->]|[? ->]]; [by exists 3|]. exists j. split; [|done].
    assert (3 <= j); [|lia]. apply (Z.pow_le_mono_r_iff 2); lia.
  - split; [done|]. lia.
Qed.
End ring.
Arguments MicrotaskQueue T : clear implicits.

(** ** Completed callbacks

    [CallbackWithData] pairs are compared by [std::find]. Running a callback may add and
    remove callbacks of the queue. *)
Section callbacks.
Context {CB : Type} `{EqDecision CB}.

Record callbacks := mkCallbacks {
  microtasks_completed_callbacks_ : list CB;
  microtasks_completed_callbacks_cow_ : option (list CB);
  is_running_completed_callbacks_ : bool;
}.

(** Apply [f] to the vector that changes go to: the copy, made if need be, while the
    callbacks run. *)
Definition on_vector (f : list CB -> list CB) (c : callbacks) : callbacks :=
  if is_running_completed_callbacks_ c then
    let cow := default (microtasks_completed_callbacks_ c) (microtasks_completed_callbacks_cow_ c) in
    mkCallbacks (microtasks_completed_callbacks_ c) (Some (f cow)) true
  else mkCallbacks (f (microtasks_completed_callbacks_ c)) (microtasks_completed_callbacks_cow_ c) false.

Definition push_new (cb : CB) (l : list CB) : list CB := if decide (cb ∈ l) then l else l ++ [cb].

Fixpoint erase_first (cb : CB) (l : list CB) : list CB :=
  match l with [] => [] | x :: l => if decide (x = cb) then l else x :: erase_first cb l end.

Definition AddMicrotasksCompletedCallback (cb : CB) : callbacks -> callbacks := on_vector (push_new cb).
Definition RemoveMicrotasksCompletedCallback (cb : CB) : callbacks -> callbacks := on_vector (erase_first cb).

Inductive change := Add (cb : CB) | Remove (cb : CB).
Definition change_vector (x : change) : list CB -> list CB :=
  match x with Add cb => push_new cb | Remove cb => erase_first cb end.
Definition change_callbacks (c : callbacks) (x : change) : callbacks :=
  match x with Add cb => AddMicrotasksCompletedCallback cb c | Remove cb => RemoveMicrotasksCompletedCallback cb c end.

(** [OnCompleted]; [behaviour] gives what a callback changes when it runs. The callbacks
    that ran, and the state. *)
Definition OnCompleted (behaviour : CB -> list change) (c : callbacks) : list CB * callbacks :=
  let c := mkCallbacks (microtasks_completed_callbacks_ c) (microtasks_completed_callbacks_cow_ c) true in
  let '(ran, c) := foldl (fun '(ran, c) cb => (ran ++ [cb], foldl change_callbacks c (behaviour cb))) ([], c)
    (microtasks_completed_callbacks_ c) in
  (ran, match microtasks_completed_callbacks_cow_ c with
        | Some cow => mkCallbacks cow None false
        | None => mkCallbacks (microtasks_completed_callbacks_ c) None false
        end).

(** While callbacks run, the vector they are taken from is [l] and the changes so far
    give [v]. *)
Definition running (l v : list CB) (c : callbacks) : Prop :=
  microtasks_completed_callbacks_ c = l /\ is_running_completed_callbacks_ c = true /\
  default l (microtasks_completed_callbacks_cow_ c) = v.

Lemma running_changes l v xs c :
  running l v c -> running l (foldl (fun v x => change_vector x v) v xs) (foldl change_callbacks c xs).
Proof.
  revert v c. induction xs as [|x xs IH]; simpl; intros v c (Hl & Hr & Hv); [done|]. apply IH.
  destruct x; unfold change_callbacks, AddMicrotasksCompletedCallback, RemoveMicrotasksCompletedCallback, on_vector;
    rewrite Hr; (split; [done|split; [done|]]); simpl; by rewrite Hl, Hv.
Qed.

Lemma running_all (behaviour : CB -> list change) l v (cbs ran : list CB) c :
  running l v c ->
  exists c', foldl (fun '(ran, c) cb => (ran ++ [cb], foldl change_callbacks c (behaviour cb))) (ran, c) cbs = (ran ++ cbs, c') /\
    running l (foldl (fun v x => change_vector x v) v (cbs ≫= behaviour)) c'.
Proof.
  revert v ran c. induction cbs as [|cb cbs IH]; intros v ran c Hrun.
  - exists c. simpl. by rewrite app_nil_r.
  - simpl. destruct (IH _ (ran ++ [cb]) _ (running_changes l v (behaviour cb) c Hrun)) as (c' & He & Hr').
    exists c'. rewrite <- (assoc_L (++)) in He. split; [exact He|]. by rewrite foldl_app.
Qed.
End callbacks.
Arguments callbacks CB : clear implicits.
Arguments change CB : clear implicits.

(** ** The queues of an isolate

    Queues form a circular doubly linked list; the heap gives each queue its [next_] and
    [prev_]. *)
Abbreviation links := (gmap nat (nat * nat)).

Definition next_ (h : links) (q : nat) : option nat := fst <$> h !! q.
Definition prev_ (h : links) (q : nat) : option nat := snd <$> h !! q.
Definition set_next (q n : nat) (h : links) : links := alter (fun x => (n, x.2)) q h.
Definition set_prev (q p : nat) (h : links) : links := alter (fun x => (x.1, p)) q h.

Definition SetUpDefaultMicrotaskQueue (q : nat) : links := {[ q := (q, q) ]}.

(** [New]: queue [q] after the last one, the predecessor of the default one. *)
Definition New (default_queue q : nat) (h : links) : option links :=
  last ← prev_ h default_queue;
  after ← next_ h last;
  let h := <[q := (after, last)]> h in
  Some (set_next last q (set_prev after q h)).

(** The destructor: unlink the queue unless it is alone. *)
Definition destroy (q : nat) (h : links) : option links :=
  '(n, p) ← h !! q;
  if decide (n = q) then Some h else Some (set_next p n (set_prev n p h)).

Definition linked (h : links) (a b : nat) : Prop := next_ h a = Some b /\ prev_ h b = Some a.

Fixpoint chain (h : links) (l : list nat) : Prop :=
  match l with
  | a :: (b :: _) as l' => linked h a b /\ chain h l'
  | _ => True
  end.

(** The queues [a :: l], in the order of [next_] from [a]. *)
Definition circle (h : links) (l : list nat) : Prop :=
  NoDup l /\ match l with [] => True | a :: _ => chain h l /\ linked h (List.last l a) a end.
