(* ===== verification/AutoParallel.v ===== *)
(** Automatic parallelism of promise reactions: src/src/execution/microtask-queue.cc.

    Which microtasks are intercepted, the task that runs the handler on a pool thread
    and posts its result back, and the task that settles the derived promise. *)
From S2P Require Import Prelude Engine Tasks.

Section auto_parallel.
Context {V W : Type} `{JSValue V} `{JSOps V} `{Codec V} `{!Engine V W} (runner : nat -> bool).

(** ** Microtasks *)

(** A context and its [previous] contexts, as far as the interception looks. *)
Inductive context := NativeContext | ScriptContext (previous : context) | OtherContext.

(** The promise_or_capability of a reaction job. *)
Inductive promise_target :=
| JSPromise (id : nat)
| PromiseCapability (resolve reject : option V)     (* None: undefined *)
| Undefined.

Record reaction_job := mkJob {
  handler : option V;                  (* a JSFunction, or not *)
  handler_context : context;
  argument : V;
  promise_or_capability : promise_target;
}.

Inductive microtask := PromiseReactionJobTask (job : reaction_job) | OtherMicrotask.

Record auto_task := AutoParallelThreadTask {
  originator_isolate : nat;
  originator_worker_index : Z;
  auto_source : string;
  auto_arguments : bytes;
  auto_target : promise_target;
}.

(** ** Interception *)

(** The loop over the context chain. *)
Fixpoint no_closures (ctx : context) : bool :=
  match ctx with NativeContext => true | ScriptContext previous => no_closures previous | OtherContext => false end.

(** The task submitted to the pool, or [None] when the microtask stays in the queue.
    [current] is the isolate entered on the thread and its [g_worker_index]. *)
Definition TryInterceptAutoParallelMicrotask (current : option (nat * Z)) (m : microtask) : option auto_task :=
  match m with
  | OtherMicrotask => None
  | PromiseReactionJobTask job =>
      match handler job with
      | None => None
      | Some fn =>
          if no_closures (handler_context job) then
            match current with
            | None => None
            | Some (isolate, worker_index) =>
                match promise_or_capability job with
                | Undefined => None
                | target =>
                    source ← fn_source fn;
                    b ← serialize (js_array [Some (argument job)]);
                    Some (AutoParallelThreadTask isolate worker_index source b target)
                end
            end
          else None
      end
  end.

(** ** The task on the worker *)

(** The fields it shares with other tasks. *)
Definition as_thread_task (t : auto_task) : thread_task :=
  ThreadTask (auto_source t) (auto_arguments t) [] [] "".

Record post := mkPost { post_result : task_result; post_target : promise_target }.

Definition PostResultBack (t : auto_task) (success : bool) (data : bytes) : delivery post :=
  route runner (originator_isolate t) (originator_worker_index t)
    (mkPost (TaskResult success data) (auto_target t)).

Definition SerializeAndPostException (caught : option V) (t : auto_task) : delivery post :=
  let exception_val := default (js_error Error "Unknown execution error") caught in
  match serialize exception_val with
  | Some b => PostResultBack t false b
  | None =>
      match serialize (js_error Error "Failed to serialize task exception") with
      | Some b => PostResultBack t false b
      | None => PostResultBack t false []
      end
  end.

Definition post_value (t : auto_task) (result : V) : delivery post :=
  match serialize result with
  | Some b => PostResultBack t true b
  | None => SerializeAndPostException (write_exception result) t
  end.

Definition post_rejection (t : auto_task) (exception : V) : delivery post :=
  PostResultBack t false (default [] (serialize exception)).

(** [PopPrivateTask] of the worker that runs the task; a nested task is internal and is
    run directly, without counting it down. *)
Context (pop_private : W -> option (W -> W) * W).

(** The loop that waits for the promise of an async handler. *)
Fixpoint wait_promise (fuel : nat) (t : auto_task) (promise : V) (w : W) : option (delivery post * W) :=
  match fuel with O => None | S fuel =>
  match state_of promise w with
  | Fulfilled v => Some (post_value t v, w)
  | Rejected v => Some (post_rejection t v, w)
  | Pending =>
      let w := checkpoint w in
      match state_of promise w with
      | Fulfilled v => Some (post_value t v, w)
      | Rejected v => Some (post_rejection t v, w)
      | Pending =>
          match pop_private w with
          | (Some run_internal, w) => wait_promise fuel t promise (run_internal w)
          | (None, w) => wait_promise fuel t promise (sleep_1ms w)
          end
      end
  end end.

(** [AutoParallelThreadTask::RunInternal]: what it posts. *)
Definition RunInternal (fuel : nat) (t : auto_task) (w : W) : option (delivery post * W) :=
  match read_arguments (W := W) (as_thread_task t) with
  | inr _ => Some (PostResultBack t false [], w)
  | inl args =>
      match compile_function (as_thread_task t) w with
      | (Threw _, w) => Some (PostResultBack t false [], w)
      | (Done fn, w) =>
          match call fn args w with
          | (Threw e, w) => Some (SerializeAndPostException e t, w)
          | (Done result, w) =>
              if is_promise result then wait_promise fuel t result w else Some (post_value t result, w)
          end
      end
  end.

(** ** Settling the derived promise *)

Inductive target_action :=
| NoAction
| SettlePromise (id : nat) (s : settlement V)
| CallFunction (fn : V) (v : V).

(** The value and whether it is a success, after deserialization. *)
Definition posted_value (r : task_result) : bool * V :=
  match data r with
  | [] => (success r, js_undefined)
  | b =>
      if read_header b then
        match read_value [] [] b with
        | Some v => (success r, v)
        | None => (false, js_error Error "Failed to deserialize automatic parallel task result")
        end
      else (false, js_error Error "Failed to deserialize automatic parallel task result header")
  end.

(** [ResolveAutoParallelPromiseTask::RunInternal]. *)
Definition Resolve_RunInternal (p : post) : target_action :=
  let '(success, v) := posted_value (post_result p) in
  match post_target p with
  | Undefined => NoAction
  | JSPromise id => SettlePromise id (if success then Resolve v else Reject v)
  | PromiseCapability resolve reject =>
      match (if success then resolve else reject) with Some fn => CallFunction fn v | None => NoAction end
  end.

(** ** Lemmas *)

Definition posted {T} (d : delivery T) : T :=
  match d with SubmittedToWorker _ t | PostedForeground _ t | Deleted t => t end.

Lemma posted_route {T} isolate worker_index (t : T) : posted (route runner isolate worker_index t) = t.
Proof. unfold route. by repeat case_match. Qed.

Lemma post_back t success data : posted (PostResultBack t success data) = mkPost (TaskResult success data) (auto_target t).
Proof. apply posted_route. Qed.

Lemma posted_serialized `{!CodecLaws V} success v b :
  serialize v = Some b -> posted_value (TaskResult success b) = (success, v).
Proof.
  intros Hs. destruct (serialize_roundtrip v b Hs) as [Hne Hd]. unfold posted_value, deserialize in *. simpl.
  destruct b; [done|]. destruct (read_header _); [|done]. by rewrite Hd.
Qed.

Lemma intercepted_arguments `{!CodecLaws V} `{!JSValueLaws V} current job t :
  TryInterceptAutoParallelMicrotask current (PromiseReactionJobTask job) = Some t ->
  exists fn isolate worker_index,
    handler job = Some fn /\ no_closures (handler_context job) = true /\ current = Some (isolate, worker_index) /\
    originator_isolate t = isolate /\ originator_worker_index t = worker_index /\
    fn_source fn = Some (auto_source t) /\ auto_target t = promise_or_capability job /\
    read_arguments (W := W) (as_thread_task t) = inl [argument job].
Proof.
  simpl. destruct (handler job) as [fn|]; [|done]. destruct (no_closures _); [|done].
  destruct current as [[isolate worker_index]|]; [|done]. intros Ht.
  assert (exists source b, fn_source fn = Some source /\ serialize (js_array [Some (argument job)]) = Some b /\
    t = AutoParallelThreadTask isolate worker_index source b (promise_or_capability job)) as (source & b & Hsrc & Hb & ->).
  { destruct (promise_or_capability job), (fn_source fn) as [source|], (serialize _) as [b|]; simplify_option_eq; by eexists _, _. }
  exists fn, isolate, worker_index. simpl. split_all; try done.
  destruct (serialize_roundtrip _ _ Hb) as [Hne Hd]. unfold read_arguments, deserialize in *. simpl.
  destruct b; [done|]. destruct (read_header _); [|done]. rewrite Hd.
  by rewrite (js_elements_array [argument job]).
Qed.
End auto_parallel.
Arguments promise_target V : clear implicits.
