(* ===== verification/MicrotaskTheorems.v ===== *)
(** The properties of microtask queues and of automatic parallelism (Microtasks.v,
    AutoParallel.v). *)
From S2P Require Import Prelude Engine Instances Tasks Microtasks AutoParallel.

(** ** The queue as a list *)

Section queue.
Context {T : Type} (intercept : T -> bool).

Inductive op := OEnqueue (t : T) | OBuiltinEnqueue (t : T) | OTake | OCollect.
Inductive answer := AIntercepted (b : bool) | ATaken (t : option (option T)) | AVisited (l : list (option T)).

Definition apply_op (o : op) (q : MicrotaskQueue T) : MicrotaskQueue T * answer :=
  match o with
  | OEnqueue t => let '(q, b) := EnqueueMicrotask intercept t q in (q, AIntercepted b)
  | OBuiltinEnqueue t => let '(q, b) := Builtin_EnqueueMicrotask intercept t q in (q, AIntercepted b)
  | OTake => match take_microtask q with Some (t, q) => (q, ATaken (Some t)) | None => (q, ATaken None) end
  | OCollect => let '(visited, q) := IterateMicrotasks q in (q, AVisited visited)
  end.

(** A step of the queue; its size is bounded by the memory. *)
Inductive queue_step : MicrotaskQueue T -> op * answer -> MicrotaskQueue T -> Prop :=
| queue_step_intro q o q' a :
    size_ q < 2 ^ 62 -> apply_op o q = (q', a) -> queue_step q (o, a) q'.

(** The same on a list. The generated enqueue intercepts only what C++ would. *)
Inductive fifo_step : list T -> op * answer -> list T -> Prop :=
| fifo_enqueue l t : fifo_step l (OEnqueue t, AIntercepted (intercept t)) (if intercept t then l else l ++ [t])
| fifo_builtin l t (b : bool) :
    (b = true -> intercept t = true) -> fifo_step l (OBuiltinEnqueue t, AIntercepted b) (if b then l else l ++ [t])
| fifo_take t l : fifo_step (t :: l) (OTake, ATaken (Some (Some t))) l
| fifo_empty : fifo_step [] (OTake, ATaken None) []
| fifo_collect l : fifo_step l (OCollect, AVisited (Some <$> l)) l.

Lemma queue_step_sim q l a q' :
  models q l -> queue_step q a q' -> exists l', run fifo_step l [a] l' /\ models q' l'.
Proof.
  intros Hm Hst. destruct Hst as [q o q' an Hb Ha]. destruct o as [t|t| |]; cbn [apply_op] in Ha.
  - destruct (EnqueueMicrotask _ _ _) as [q1 b] eqn:E. simplify_eq.
    destruct (models_enqueue intercept q l t _ _ Hm Hb E) as [Hm' ->].
    eexists. split; [apply run_one; constructor|done].
  - destruct (Builtin_EnqueueMicrotask _ _ _) as [q1 b] eqn:E. simplify_eq.
    destruct (models_builtin_enqueue intercept q l t _ _ Hm Hb E) as [Hm' ->].
    eexists. split; [apply run_one; constructor|exact Hm']. by intros [_ ?]%andb_prop.
  - destruct l as [|t l].
    + unfold take_microtask in Ha. rewrite (models_size_zero q [] Hm) in Ha. simpl in Ha. simplify_eq.
      eexists. split; [apply run_one; constructor|done].
    + destruct (models_take q t l Hm) as (q1 & E & Hm' & _). rewrite E in Ha. simplify_eq.
      eexists. split; [apply run_one; constructor|done].
  - pose proof (models_visited q l Hm) as Hv. pose proof (models_gc q l Hm) as [Hg _].
    destruct (IterateMicrotasks q) as [visited q1]. simpl in Hv, Hg. injection Ha as <- <-. subst.
    eexists. split; [apply run_one; constructor|done].
Qed.

(** C24. Refinement: any sequence of enqueues (C++ or generated code), takes and garbage
    collections behaves like a FIFO list, through growth, wrap-around and shrinking of
    the buffer; a collection visits exactly the queued microtasks, in order, and both
    masks of the generated code agree with the C++ modulo. *)
Theorem microtask_queue_fifo tr q :
  run queue_step new_queue tr q -> exists l, run fifo_step [] tr l /\ models q l.
Proof.
  intros Hr. destruct (run_simulation queue_step fifo_step models (fun a => [a])
    (fun q l a q' Hm Hst => queue_step_sim q l a q' Hm Hst) new_queue tr q Hr [] models_new) as (l & Hl & Hm).
  exists l. split; [|done]. by rewrite mjoin_singletons in Hl.
Qed.

(** After a collection the buffer holds at most max(8, 2 * size) slots, its capacity
    is still a power of two (the generated code masks with it), and no microtask is
    lost. *)
Theorem microtask_collect_shrinks (q : MicrotaskQueue T) l :
  models q l ->
  let q' := (IterateMicrotasks q).2 in
  models q' l /\ capacity_ q' <= Z.max kMinimumCapacity (2 * size_ q) /\
  (capacity_ q' = 0 \/ exists k, 3 <= k < 63 /\ capacity_ q' = 2 ^ k).
Proof.
  intros Hm q'. destruct (models_gc q l Hm) as [Hm' Hc]. split_all; [done|done|]. destruct Hm' as [[] _]. done.
Qed.

(** ** Running microtasks *)

(** The reference: run the first one, append what it enqueues. *)
Fixpoint run_list (fuel : nat) (exec : T -> list T) (l : list T) : option (list T) :=
  match fuel with O => None | S fuel =>
  match l with [] => Some [] | t :: l => ran ← run_list fuel exec (l ++ exec t); Some (t :: ran) end end.

Lemma run_list_length fuel exec l ran : run_list fuel exec l = Some ran -> (length l <= length ran)%nat.
Proof.
  revert l ran. induction fuel as [|fuel IH]; simpl; intros l ran Hr; [done|]. destruct l as [|t l]; [simpl; lia|].
  destruct (run_list fuel exec (l ++ exec t)) as [ran'|] eqn:E; simpl in Hr; [|done]. simplify_eq.
  apply IH in E. rewrite length_app in E. simpl. lia.
Qed.

Lemma foldl_enqueue q l ts :
  (forall t, intercept t = false) -> models q l -> Z.of_nat (length l + length ts) < 2 ^ 62 ->
  models (foldl (fun q t => (Builtin_EnqueueMicrotask intercept t q).1) q ts) (l ++ ts).
Proof.
  intros Hi. revert q l. induction ts as [|t ts IH]; simpl; intros q l Hm Hb; [by rewrite app_nil_r|].
  destruct (Builtin_EnqueueMicrotask intercept t q) as [q' b] eqn:E. pose proof Hm as (_ & Hlen & _).
  destruct (models_builtin_enqueue intercept q l t q' b Hm ltac:(lia) E) as [Hm' ->].
  rewrite Hi, andb_false_r in Hm'. simpl. replace (l ++ t :: ts) with ((l ++ [t]) ++ ts) by (by rewrite <- (assoc_L (++))).
  apply IH; [done|]. rewrite length_app. simpl. lia.
Qed.

(** A checkpoint runs every microtask, including those that microtasks enqueue, once,
    in FIFO order, leaves the queue empty and returns their number, whenever the
    sequence ends (the list reference has a result) and nothing is intercepted. *)
Theorem run_microtasks_in_order fuel exec (q : MicrotaskQueue T) l ran :
  (forall t, intercept t = false) -> models q l -> run_list fuel exec l = Some ran ->
  Z.of_nat (length ran) < 2 ^ 62 ->
  exists q', Builtin_RunMicrotasks intercept fuel exec q = Some (Some <$> ran, q') /\ models q' [] /\
    exists q'', RunMicrotasks intercept fuel exec false q = Some (Z.of_nat (length ran), q'') /\ size_ q'' = 0.
Proof.
  intros Hi Hm Hr Hb.
  assert (Hrun : exists q', Builtin_RunMicrotasks intercept fuel exec q = Some (Some <$> ran, q') /\ models q' []).
  { revert q l ran Hm Hr Hb. induction fuel as [|fuel IH]; simpl; intros q l ran Hm Hr Hb; [done|].
    destruct l as [|t l].
    - simplify_eq. unfold take_microtask. rewrite (models_size_zero q [] Hm). simpl. by exists q.
    - destruct (run_list fuel exec (l ++ exec t)) as [ran'|] eqn:E; simpl in Hr; [|done]. simplify_eq.
      pose proof (run_list_length _ _ _ _ E) as Hlen. simpl in Hb. rewrite length_app in Hlen.
      destruct (models_take q t l Hm) as (q1 & -> & Hm1 & _). simpl.
      destruct (IH (foldl (fun q t => (Builtin_EnqueueMicrotask intercept t q).1) q1 (exec t)) (l ++ exec t) ran')
        as (q' & Hrun & Hq'); [by apply foldl_enqueue; [..|lia]|done|lia|].
      rewrite Hrun. simpl. by exists q'. }
  destruct Hrun as (q' & Hrun & Hm'). exists q'. split_all; [done..|]. unfold RunMicrotasks.
  rewrite (models_size_zero q l Hm). case_bool_decide as Hl.
  - subst l. exists q. destruct fuel; simpl in Hr; simplify_eq. split; [done|]. by destruct Hm as (_ & ? & _).
  - rewrite Hrun. simpl. rewrite length_fmap. exists q'. split; [done|]. by destruct Hm' as (_ & ? & _).
Qed.
End queue.

(** ** Completed callbacks *)

(** OnCompleted runs the callbacks registered when it starts, each once and in order,
    whatever they add or remove meanwhile; afterwards the registered callbacks are
    those changes applied in order, and the copy is gone. *)
Theorem on_completed_callbacks {CB} `{EqDecision CB} (behaviour : CB -> list (change CB)) (l : list CB) :
  OnCompleted behaviour (mkCallbacks l None false) =
    (l, mkCallbacks (foldl (fun v x => change_vector x v) l (l ≫= behaviour)) None false).
Proof.
  unfold OnCompleted. simpl.
  destruct (running_all behaviour l l l [] (mkCallbacks l None true)) as (c' & He & (Hl & _ & Hv)); [done|].
  change ([] ++ l) with l in He. rewrite He. f_equal.
  destruct (microtasks_completed_callbacks_cow_ c'); simpl in Hv; congruence.
Qed.

(** ** The queues of an isolate *)

Lemma next_set_next h q n a : next_ (set_next q n h) a = if decide (a = q) then (fun _ => n) <$> h !! q else next_ h a.
Proof.
  unfold next_, set_next. case_decide as Ha; subst.
  - rewrite lookup_alter_eq. by destruct (h !! q).
  - by rewrite lookup_alter_ne.
Qed.

Lemma prev_set_next h q n a : prev_ (set_next q n h) a = prev_ h a.
Proof.
  unfold prev_, set_next. destruct (decide (a = q)) as [->|].
  - rewrite lookup_alter_eq. by destruct (h !! q).
  - by rewrite lookup_alter_ne.
Qed.

Lemma prev_set_prev h q p a : prev_ (set_prev q p h) a = if decide (a = q) then (fun _ => p) <$> h !! q else prev_ h a.
Proof.
  unfold prev_, set_prev. case_decide as Ha; subst.
  - rewrite lookup_alter_eq. by destruct (h !! q).
  - by rewrite lookup_alter_ne.
Qed.

Lemma next_set_prev h q p a : next_ (set_prev q p h) a = next_ h a.
Proof.
  unfold next_, set_prev. destruct (decide (a = q)) as [->|].
  - rewrite lookup_alter_eq. by destruct (h !! q).
  - by rewrite lookup_alter_ne.
Qed.

Lemma chain_snoc h l a b : chain h (l ++ [a; b]) <-> chain h (l ++ [a]) /\ linked h a b.
Proof.
  induction l as [|x l IH]; simpl; [tauto|]. destruct l as [|y l]; simpl in *; tauto.
Qed.

(** A chain only uses the [next_] of all its elements but the last and the [prev_] of
    all but the first. *)
Lemma chain_frame h h' l :
  chain h l -> (forall a, a ∈ l -> Some a <> last l -> next_ h' a = next_ h a) ->
  (forall a, a ∈ l -> Some a <> head l -> prev_ h' a = prev_ h a) -> NoDup l -> chain h' l.
Proof.
  induction l as [|a [|b l] IH]; [done..|]. intros [[Hn Hp] Hc] Hnext Hprev Hnd.
  apply NoDup_cons in Hnd as [Hna Hnd]. split.
  - split.
    + rewrite Hnext, Hn; [done|by left|]. rewrite last_cons_cons. intros He. symmetry in He.
      apply last_Some in He as [l' He]. apply Hna. rewrite He. apply elem_of_app. right. by left.
    + rewrite Hprev, Hp; [done|right; by left|]. intros [= ->]. apply Hna. by left.
  - apply IH; [done| | |done].
    + intros x Hx Hl. apply Hnext; [by right|by rewrite last_cons_cons].
    + intros x Hx Hh. apply Hprev; [by right|]. by intros [= ->].
Qed.

Lemma chain_alloc h l x : chain h l -> x ∈ l -> Some x = head l \/ is_Some (h !! x).
Proof.
  induction l as [|y l IH]; intros Hc Hx; [by apply elem_of_nil in Hx|].
  apply elem_of_cons in Hx as [->|Hx]; [by left|]. right. destruct l as [|z l]; [by apply elem_of_nil in Hx|].
  destruct Hc as [[Hn Hp] Hc]. destruct (IH Hc Hx) as [He|?]; [|done]. simpl in He. injection He as ->.
  unfold prev_ in Hp. by destruct (h !! z).
Qed.

Lemma circle_alloc h l x : circle h l -> x ∈ l -> is_Some (h !! x).
Proof.
  intros [Hnd Hc] Hx. destruct l as [|a l]; [by apply elem_of_nil in Hx|]. destruct Hc as [Hc [_ Hp]].
  destruct (chain_alloc _ _ _ Hc Hx) as [He|?]; [|done]. simpl in He. injection He as ->.
  unfold prev_ in Hp. by destruct (h !! a).
Qed.

(** New puts a fresh queue at the end of the circle of the isolate's queues, before the
    default one. *)
Theorem queue_new_circle h d l q h' :
  circle h (d :: l) -> q ∉ d :: l -> New d q h = Some h' -> circle h' ((d :: l) ++ [q]).
Proof.
  intros Hci Hq. pose proof Hci as (Hnd & Hc & Hn & Hp).
  assert (exists pre a, d :: l = pre ++ [a] /\ List.last (d :: l) d = a) as (pre & a & Hl & Ha).
  { exists (removelast (d :: l)), (List.last (d :: l) d). split; [by apply app_removelast_last|done]. }
  rewrite Ha in Hn, Hp. unfold New. rewrite Hp. cbn [mbind option_bind]. rewrite Hn. cbn [mbind option_bind]. intros [= <-].
  assert (Had : a ∈ d :: l) by (rewrite Hl; apply elem_of_app; right; by left).
  assert (Hqa : a <> q) by (by intros ->). assert (Hqd : d <> q) by (intros ->; apply Hq; by left).
  destruct (circle_alloc _ _ a Hci Had) as [xa Hxa].
  destruct (circle_alloc _ _ d Hci (list_elem_of_here _ _)) as [xd Hxd].
  set (h' := set_next _ _ _).
  assert (Hnext : forall x, next_ h' x = if decide (x = a) then Some q else if decide (x = q) then Some d else next_ h x).
  { intros x. unfold h'. rewrite next_set_next. case_decide as Hxa'; [|rewrite next_set_prev; unfold next_;
      case_decide; subst; by rewrite ?lookup_insert_eq, ?lookup_insert_ne by done].
    subst x. unfold set_prev. destruct (decide (d = a)) as [Hda|Hda]; [rewrite Hda|].
    - rewrite lookup_alter_eq, lookup_insert_ne by done. by rewrite Hxa.
    - rewrite lookup_alter_ne, lookup_insert_ne by done. by rewrite Hxa. }
  assert (Hprev : forall x, prev_ h' x = if decide (x = d) then Some q else if decide (x = q) then Some a else prev_ h x).
  { intros x. unfold h'. rewrite prev_set_next, prev_set_prev. case_decide as Hxd'.
    - subst x. rewrite lookup_insert_ne by done. by rewrite Hxd.
    - unfold prev_. case_decide; subst; by rewrite ?lookup_insert_eq, ?lookup_insert_ne by done. }
  split; [|split].
  - apply NoDup_app. split_all; [done| |apply NoDup_singleton]. by intros x Hx ->%list_elem_of_singleton.
  - change (chain h' ((d :: l) ++ [q])). rewrite Hl, <- (assoc_L (++)). apply chain_snoc. split.
    + rewrite <- Hl. eapply chain_frame; [exact Hc| | |done].
      * intros x Hx Hlast. rewrite Hl, last_snoc in Hlast. rewrite Hnext, decide_False by congruence.
        by rewrite decide_False by (by intros ->).
      * intros x Hx Hhead. rewrite Hprev, decide_False by (intros ->; by apply Hhead).
        by rewrite decide_False by (by intros ->).
    + split; [by rewrite Hnext, decide_True|]. by rewrite Hprev, decide_False, decide_True.
  - change (linked h' (List.last ((d :: l) ++ [q]) d) d). rewrite last_last.
    split; [by rewrite Hnext, decide_False, decide_True|by rewrite Hprev, decide_True].
Qed.

(** The destructor takes a queue out of the circle and leaves the others linked in
    their order; a queue that is alone leaves the heap as it is. *)
Theorem queue_destroy_circle h q l h' :
  circle h (q :: l) -> destroy q h = Some h' -> (l = [] /\ h' = h) \/ circle h' l.
Proof.
  intros Hci Hd. pose proof Hci as (Hnd & Hc & Hn & Hp). unfold destroy in Hd.
  destruct l as [|b l].
  - left. simpl in Hn, Hp. unfold next_, prev_ in *. destruct (h !! q) as [[n p]|]; simplify_eq/=. by rewrite decide_True in Hd; simplify_eq.
  - right. destruct Hc as [[Hnb Hpb] Hc]. apply NoDup_cons in Hnd as [Hnq Hnd].
    assert (exists pre a, b :: l = pre ++ [a] /\ List.last (b :: l) q = a) as (pre & a & Hl & Ha).
    { exists (removelast (b :: l)), (List.last (b :: l) q). split; [by apply app_removelast_last|done]. }
    change (List.last (q :: b :: l) q) with (List.last (b :: l) q) in Hn, Hp. rewrite Ha in Hn, Hp. assert (Hab : a ∈ b :: l) by (rewrite Hl; apply elem_of_app; right; by left).
    destruct (circle_alloc _ _ a Hci (list_elem_of_further _ _ _ Hab)) as [xa Hxa].
    destruct (circle_alloc _ _ b Hci (list_elem_of_further _ _ _ (list_elem_of_here _ _))) as [xb Hxb].
    assert (h !! q = Some (b, a)) as Hq.
    { unfold next_, prev_ in Hnb, Hp. destruct (h !! q) as [[n p]|]; simplify_eq/=. done. }
    rewrite Hq in Hd. simpl in Hd. rewrite decide_False in Hd by (intros ->; apply Hnq; by left). injection Hd as <-.
    set (h' := set_next _ _ _).
    assert (Hnext : forall x, next_ h' x = if decide (x = a) then Some b else next_ h x).
    { intros x. unfold h'. rewrite next_set_next, next_set_prev. case_decide; [|done]. subst x.
      unfold set_prev. destruct (decide (b = a)) as [Hba|Hba]; [rewrite Hba, lookup_alter_eq|rewrite lookup_alter_ne by done]; by rewrite Hxa. }
    assert (Hprev : forall x, prev_ h' x = if decide (x = b) then Some a else prev_ h x).
    { intros x. unfold h'. rewrite prev_set_next, prev_set_prev. case_decide; [|done]. subst x. by rewrite Hxb. }
    split; [done|]. split.
    + eapply chain_frame; [exact Hc| | |done].
      * intros x Hx Hlast. rewrite Hl, last_snoc in Hlast. by rewrite Hnext, decide_False by congruence.
      * intros x Hx Hhead. by rewrite Hprev, decide_False by (intros ->; by apply Hhead).
    + assert (List.last (b :: l) b = a) as -> by (rewrite <- Ha; by destruct (exists_last (l := b :: l) ltac:(done)) as (? & ? & ->); rewrite !last_last). split; [by rewrite Hnext, decide_True|by rewrite Hprev, decide_True].
Qed.

(** ** Interception *)

Section interception.
Context {T : Type} (intercept : T -> bool).

(** Reactions that JavaScript enqueues are not intercepted while the ring buffer has
    room: a burst that fits in the free slots stays on the caller's thread, in order,
    even if every one of its handlers qualifies; only the C++ function that generated
    code calls on a full buffer asks [TryInterceptAutoParallelMicrotask]. *)
Theorem burst_not_intercepted (q : MicrotaskQueue T) l ts :
  models q l -> Z.of_nat (length l + length ts) <= capacity_ q -> capacity_ q < 2 ^ 62 ->
  models (foldl (fun q t => (Builtin_EnqueueMicrotask intercept t q).1) q ts) (l ++ ts).
Proof.
  revert q l. induction ts as [|t ts IH]; intros q l Hm Hb Hc; simpl in *; [by rewrite app_nil_r|].
  pose proof Hm as (Hw & Hlen & _).
  assert (He : Builtin_EnqueueMicrotask intercept t q =
    (store (CalculateRingBufferOffset (capacity_ q) (start_ q) (size_ q)) t q, false)).
  { unfold Builtin_EnqueueMicrotask. destruct (Z.eqb_spec (size_ q) (capacity_ q)); [lia|done]. }
  rewrite He. simpl. replace (l ++ t :: ts) with ((l ++ [t]) ++ ts) by (by rewrite <- (assoc_L (++))).
  apply IH; [|rewrite length_app; simpl; lia|done].
  by destruct (models_builtin_enqueue intercept q l t _ _ Hm ltac:(lia) He) as [? _].
Qed.
End interception.

Section auto_parallel.
Context {V W : Type} `{JSValue V} `{JSOps V} `{Codec V} `{!Engine V W}.
Context (runner : nat -> bool) (pop_private : W -> option (W -> W) * W).

(** The reaction of the derived promise to a value or an exception. *)
Definition settle_target (target : promise_target V) (s : settlement V) : target_action (V := V) :=
  match target with
  | JSPromise id => SettlePromise id s
  | PromiseCapability resolve reject =>
      match s with
      | Resolve v => match resolve with Some fn => CallFunction fn v | None => NoAction end
      | Reject v => match reject with Some fn => CallFunction fn v | None => NoAction end
      end
  | Undefined => NoAction
  end.

(** An intercepted reaction settles its derived promise as the handler would: with
    the value of the handler on the argument of the job, or with its exception. *)
Theorem auto_parallel_roundtrip `{!CodecLaws V} `{!JSValueLaws V} current job t fuel w f w1 :
  TryInterceptAutoParallelMicrotask current (PromiseReactionJobTask job) = Some t ->
  compile_function (as_thread_task t) w = (Done f, w1) ->
  match call f [argument job] w1 with
  | (Done v, w2) => forall b, is_promise v = false -> serialize v = Some b ->
      exists d, RunInternal runner pop_private fuel t w = Some (d, w2) /\
        Resolve_RunInternal (posted d) = settle_target (promise_or_capability job) (Resolve v)
  | (Threw (Some e), w2) => forall b, serialize e = Some b ->
      exists d, RunInternal runner pop_private fuel t w = Some (d, w2) /\
        Resolve_RunInternal (posted d) = settle_target (promise_or_capability job) (Reject e)
  | (Threw None, _) => True
  end.
Proof.
  intros Ht Hc. destruct (intercepted_arguments (W := W) current job t Ht)
    as (fn & isolate & worker & _ & _ & _ & _ & _ & _ & Htarget & Ha).
  unfold RunInternal. rewrite Ha, Hc. destruct (call f [argument job] w1) as [[v|[e|]] w2]; [| |done].
  - intros b Hp Hv. rewrite Hp. unfold post_value. rewrite Hv. eexists. split; [done|].
    rewrite post_back, Htarget. unfold Resolve_RunInternal. simpl. rewrite (posted_serialized true v b Hv).
    by destruct (promise_or_capability job).
  - intros b He. unfold SerializeAndPostException. simpl. rewrite He. eexists. split; [done|].
    rewrite post_back, Htarget. unfold Resolve_RunInternal. simpl. rewrite (posted_serialized false e b He).
    by destruct (promise_or_capability job).
Qed.

(** The interception looks at the kind of the handler's contexts and not at its code:
    it takes every reaction with a function handler whose context chain has only
    script and native contexts, a target, a source text and a clonable argument. *)
Theorem interception_criterion isolate worker_index job :
  is_Some (TryInterceptAutoParallelMicrotask (Some (isolate, worker_index)) (PromiseReactionJobTask job)) <->
  (exists fn, handler job = Some fn /\ is_Some (fn_source fn)) /\ no_closures (handler_context job) = true /\
  promise_or_capability job <> Undefined /\ is_Some (serialize (js_array [Some (argument job)])).
Proof.
  simpl. split.
  - intros [t Ht]. destruct (handler job) as [fn|]; [|done]. destruct (no_closures _); [|done].
    destruct (promise_or_capability job), (fn_source fn) eqn:Hs, (serialize _) eqn:Hb; simplify_option_eq;
      (split; [exists fn; split; [done|by eexists]|split; [done|split; [done|by eexists]]]).
  - intros ((fn & -> & source & Hs) & -> & Ht & b & Hb). destruct (promise_or_capability job); [..|done];
      rewrite Hs; simpl; rewrite Hb; by eexists.
Qed.

(** When the source text of an intercepted handler does not evaluate to a function on
    the worker (a built-in function, whose text has "[native code]"), the derived
    promise is rejected with undefined instead of getting the handler's result. *)
Theorem auto_parallel_compile_failure `{!CodecLaws V} `{!JSValueLaws V} current job t fuel w e w1 :
  TryInterceptAutoParallelMicrotask current (PromiseReactionJobTask job) = Some t ->
  compile_function (as_thread_task t) w = (Threw e, w1) ->
  exists d, RunInternal runner pop_private fuel t w = Some (d, w1) /\
    Resolve_RunInternal (posted d) = settle_target (promise_or_capability job) (Reject js_undefined).
Proof.
  intros Ht Hc. destruct (intercepted_arguments (W := W) current job t Ht)
    as (fn & isolate & worker & _ & _ & _ & _ & _ & _ & Htarget & Ha).
  unfold RunInternal. rewrite Ha, Hc. eexists. split; [done|]. rewrite post_back, Htarget.
  unfold Resolve_RunInternal. simpl. by destruct (promise_or_capability job).
Qed.
End auto_parallel.

(** ** Concrete executions *)

Definition odd_microtask (t : nat) : bool := Nat.odd t.

(** Odd microtasks qualify for interception: 3 is enqueued by generated code with room in
    the buffer, 5 by C++. *)
Definition demo_ops : list (op (T := nat)) :=
  [OBuiltinEnqueue 0; OBuiltinEnqueue 3; OTake; OBuiltinEnqueue 2; OEnqueue 5; OTake; OTake; OCollect]%nat.

Fixpoint apply_ops (ops : list (op (T := nat))) (q : MicrotaskQueue nat) : list (op * answer) * MicrotaskQueue nat :=
  match ops with
  | [] => ([], q)
  | o :: ops => let '(q, a) := apply_op odd_microtask o q in let '(tr, q) := apply_ops ops q in ((o, a) :: tr, q)
  end.

Lemma demo_ops_run : exists q, run (queue_step odd_microtask) new_queue (apply_ops demo_ops new_queue).1 q /\ size_ q = 0.
Proof.
  eexists. split.
  - vm_compute (apply_ops demo_ops new_queue).1.
    repeat (eapply run_cons; [apply queue_step_intro; [reflexivity|vm_compute; reflexivity]|]). constructor.
  - reflexivity.
Qed.

Lemma microtask_queue_fifo_witness :
  exists q l, run (queue_step odd_microtask) new_queue (apply_ops demo_ops new_queue).1 q /\
    run (fifo_step odd_microtask) [] (apply_ops demo_ops new_queue).1 l /\ models q l.
Proof.
  destruct demo_ops_run as (q & Hr & _). exists q.
  destruct (microtask_queue_fifo odd_microtask _ _ Hr) as (l & Hl & Hm). exists l. split; [exact Hr|]. split; [exact Hl|exact Hm].
Defined.

(** A queue that grew to 16 slots and holds one microtask, at the end of the buffer. *)
Definition grown_queue : MicrotaskQueue nat := mkQueue 1 16 15 (replicate 15 None ++ [Some 7%nat]).

Lemma grown_queue_models : models grown_queue [7%nat].
Proof.
  split; [split; simpl|split; [reflexivity|]].
  - right. exists 4. split; [lia|reflexivity].
  - lia.
  - lia.
  - reflexivity.
  - intros [|i] t Ht; [|done]. simpl in Ht. injection Ht as <-. reflexivity.
Qed.

Lemma microtask_collect_shrinks_witness :
  capacity_ (IterateMicrotasks grown_queue).2 = 8 /\ models (IterateMicrotasks grown_queue).2 [7%nat].
Proof. split; [reflexivity|]. exact (proj1 (microtask_collect_shrinks grown_queue _ grown_queue_models)). Defined.

(** Microtask 2 enqueues 3 and 4. *)
Definition spawn_two (t : nat) : list nat := if (t =? 2)%nat then [3; 4]%nat else [].

Lemma run_microtasks_in_order_witness :
  exists q q', (foldl (fun q t => (Builtin_EnqueueMicrotask (fun _ => false) t q).1) new_queue [1; 2; 5]%nat) = q /\
    Builtin_RunMicrotasks (fun _ => false) 6 spawn_two q = Some (Some <$> [1; 2; 5; 3; 4]%nat, q').
Proof.
  eexists. assert (Hm : models (foldl (fun q t => (Builtin_EnqueueMicrotask (fun _ => false) t q).1) new_queue [1; 2; 5]%nat) [1; 2; 5]%nat)
    by (apply (foldl_enqueue (fun _ => false) new_queue []); [done|apply models_new|vm_compute; reflexivity]).
  destruct (run_microtasks_in_order (fun _ => false) 6 spawn_two _ _ [1; 2; 5; 3; 4]%nat (fun _ => eq_refl) Hm eq_refl)
    as (q' & Hq & _); [vm_compute; reflexivity|].
  exists q'. split; [reflexivity|exact Hq].
Defined.

Lemma burst_not_intercepted_witness :
  models (foldl (fun q t => (Builtin_EnqueueMicrotask (fun _ => true) t q).1) grown_queue [1; 2; 3]%nat) [7; 1; 2; 3]%nat.
Proof. refine (burst_not_intercepted (fun _ => true) grown_queue [7%nat] [1; 2; 3]%nat grown_queue_models _ _); vm_compute; done. Defined.

Lemma default_circle : circle (SetUpDefaultMicrotaskQueue 0) [0%nat].
Proof. split; [apply NoDup_singleton|]. split; [done|]. split; reflexivity. Qed.

Lemma queue_new_circle_witness :
  exists h, New 0 1 (SetUpDefaultMicrotaskQueue 0) = Some h /\ circle h [0; 1]%nat.
Proof.
  eexists. split; [reflexivity|].
  refine (queue_new_circle _ 0 [] 1 _ default_circle _ eq_refl). by intros ?%list_elem_of_singleton.
Defined.

Definition two_queues : links := default ∅ (New 0 1 (SetUpDefaultMicrotaskQueue 0)).

Lemma two_queues_circle : circle two_queues [0; 1]%nat.
Proof.
  split; [|split; [split; [|exact I]|]]; [|split; reflexivity..].
  apply NoDup_cons. split; [by intros ?%list_elem_of_singleton|apply NoDup_singleton].
Qed.

Lemma queue_destroy_circle_witness :
  exists h', destroy 0 two_queues = Some h' /\ (([1%nat] = [] /\ h' = two_queues) \/ circle h' [1%nat]).
Proof.
  exists (default ∅ (destroy 0 two_queues)). split; [reflexivity|].
  refine (queue_destroy_circle two_queues 0 [1%nat] _ two_queues_circle _). reflexivity.
Defined.

Definition demo_job (id : nat) : reaction_job := mkJob (Some (VFunction id)) (ScriptContext NativeContext) (VNumber 5) (JSPromise 77).
Definition demo_current : option (nat * Z) := Some (1%nat, -1).
Definition demo_task (id : nat) : auto_task :=
  default (AutoParallelThreadTask 0 0 "" [] Undefined)
    (TryInterceptAutoParallelMicrotask demo_current (PromiseReactionJobTask (demo_job id))).
Definition no_private_task (w : nat) : option (nat -> nat) * nat := (None, w).

Lemma auto_parallel_roundtrip_witness :
  exists d, RunInternal (fun _ => true) no_private_task 1 (demo_task 1) 0%nat = Some (d, 0%nat) /\
    Resolve_RunInternal (posted d) = SettlePromise 77 (Resolve (VNumber 5)).
Proof.
  exact (auto_parallel_roundtrip (fun _ => true) no_private_task demo_current (demo_job 1) (demo_task 1) 1 0%nat
    (VFunction 1) 0%nat eq_refl eq_refl [255; 1; 5] eq_refl eq_refl).
Defined.

Lemma interception_criterion_witness :
  is_Some (TryInterceptAutoParallelMicrotask demo_current (PromiseReactionJobTask (demo_job 2))).
Proof.
  apply (interception_criterion 1 (-1) (demo_job 2)). split; [eexists; split; [reflexivity|by eexists]|].
  split; [reflexivity|]. split; [discriminate|by eexists].
Defined.

(** Function 12 has a source text that does not compile. *)
Lemma auto_parallel_compile_failure_witness :
  exists d, RunInternal (fun _ => true) no_private_task 1 (demo_task 12) 0%nat = Some (d, 0%nat) /\
    Resolve_RunInternal (posted d) = SettlePromise 77 (Reject VUndefined).
Proof.
  exact (auto_parallel_compile_failure (fun _ => true) no_private_task demo_current (demo_job 12) (demo_task 12) 1 0%nat
    (Some (VError Error "SyntaxError")) 0%nat eq_refl eq_refl).
Defined.
