(* ===== verification/Checkpoints.v ===== *)
(** Microtask checkpoints: [MicrotaskQueue::PerformCheckpoint] and [RunMicrotasks]
    (src/src/execution/microtask-queue.{h,cc}), [RunSingleMicrotask] with its jobs
    (src/src/builtins/builtins-microtask-queue-gen.cc), and the scopes that delay or suppress
    checkpoints (src/src/api/api.cc).

    What the code of a job or of a completed callback does to the isolate is a script: it
    enqueues microtasks, opens scopes, asks for checkpoints, enters contexts, sets the embedder
    data, detaches contexts, adds and removes completed callbacks; then it returns, throws, or the
    execution terminates. Scripts may depend on the whole state, the history included. *)
From S2P Require Import Prelude Microtasks.

Section checkpoints.
Context {C X P E K CB : Type} `{!EqDecision C} `{!EqDecision CB}.

(** ** Jobs *)

Inductive resume_kind := kAsyncFunctionAwait | kYield.

(** [K] stands for code: a function, a C++ callback, a handler with its argument. [P] is the
    promise of a job or of its capability, [None] when it is undefined. *)
Inductive job :=
| CallableTask (context : C) (callable : K)
| CallbackTask (callback : K)
| PromiseFulfillReactionJobTask (context : C) (handler : K) (promise_or_capability : option P)
| PromiseRejectReactionJobTask (context : C) (handler : K) (promise_or_capability : option P)
| PromiseResolveThenableJobTask (context : C) (then_ : K) (promise_to_resolve : option P)
| AsyncResumeTask (kind : resume_kind) (context : C) (generator : K).

(** The data is [None] when it is undefined. *)
Record Microtask := mkMicrotask { continuation_preserved_embedder_data_ : option X; the_job : job }.

Inductive act :=
| AEnqueue (context : C) (t : Microtask)
| AScope (run_microtasks : bool) (body : list act) (has_exception : bool)
| ASuppress (body : list act)
| ACheckpoint
| AEnterContext (c : C)
| ASetData (d : option X)
| ADetach (c : C)
| AChange (x : change CB).

Inductive outcome := Returned | Threw (e : E) | Terminated.

Inductive hook := kBefore (p : P) | kAfter (p : P).

(** ** The isolate and its queue *)

Inductive MicrotasksPolicy := kExplicit | kScoped | kAuto.

Record machine := mkMachine {
  queue : @MicrotaskQueue Microtask;
  finished_microtask_count_ : Z;
  microtasks_depth_ : Z;
  microtasks_suppressions_ : Z;
  microtasks_policy_ : MicrotasksPolicy;
  is_running_microtasks_ : bool;
  completed_callbacks : callbacks CB;
  entered_contexts : list C;                 (* last one on top *)
  current_context : C;
  embedder_data : option X;
  detached : list C;                         (* contexts without a queue *)
  promise_hooks : bool;
  (* history: accepted microtasks; those taken by RunSingleMicrotask, and whether their code was
     run; changes of the completed callbacks, reports, hooks, completed callbacks called, calls of
     ClearKeptObjects *)
  accepted : list Microtask;
  handled : list (Microtask * bool);
  changed : list (change CB);
  reported : list (C * E);
  hooks : list hook;
  completions : list CB;
  cleared : nat
}.

Definition set_queue q m := mkMachine q (finished_microtask_count_ m) (microtasks_depth_ m) (microtasks_suppressions_ m) (microtasks_policy_ m) (is_running_microtasks_ m) (completed_callbacks m) (entered_contexts m) (current_context m) (embedder_data m) (detached m) (promise_hooks m) (accepted m) (handled m) (changed m) (reported m) (hooks m) (completions m) (cleared m).
Definition count_finished m := mkMachine (queue m) (finished_microtask_count_ m + 1) (microtasks_depth_ m) (microtasks_suppressions_ m) (microtasks_policy_ m) (is_running_microtasks_ m) (completed_callbacks m) (entered_contexts m) (current_context m) (embedder_data m) (detached m) (promise_hooks m) (accepted m) (handled m) (changed m) (reported m) (hooks m) (completions m) (cleared m).
Definition add_depth n m := mkMachine (queue m) (finished_microtask_count_ m) (microtasks_depth_ m + n) (microtasks_suppressions_ m) (microtasks_policy_ m) (is_running_microtasks_ m) (completed_callbacks m) (entered_contexts m) (current_context m) (embedder_data m) (detached m) (promise_hooks m) (accepted m) (handled m) (changed m) (reported m) (hooks m) (completions m) (cleared m).
Definition add_suppressions n m := mkMachine (queue m) (finished_microtask_count_ m) (microtasks_depth_ m) (microtasks_suppressions_ m + n) (microtasks_policy_ m) (is_running_microtasks_ m) (completed_callbacks m) (entered_contexts m) (current_context m) (embedder_data m) (detached m) (promise_hooks m) (accepted m) (handled m) (changed m) (reported m) (hooks m) (completions m) (cleared m).
Definition set_running b m := mkMachine (queue m) (finished_microtask_count_ m) (microtasks_depth_ m) (microtasks_suppressions_ m) (microtasks_policy_ m) b (completed_callbacks m) (entered_contexts m) (current_context m) (embedder_data m) (detached m) (promise_hooks m) (accepted m) (handled m) (changed m) (reported m) (hooks m) (completions m) (cleared m).
Definition set_contexts l c m := mkMachine (queue m) (finished_microtask_count_ m) (microtasks_depth_ m) (microtasks_suppressions_ m) (microtasks_policy_ m) (is_running_microtasks_ m) (completed_callbacks m) l c (embedder_data m) (detached m) (promise_hooks m) (accepted m) (handled m) (changed m) (reported m) (hooks m) (completions m) (cleared m).
Definition set_data d m := mkMachine (queue m) (finished_microtask_count_ m) (microtasks_depth_ m) (microtasks_suppressions_ m) (microtasks_policy_ m) (is_running_microtasks_ m) (completed_callbacks m) (entered_contexts m) (current_context m) d (detached m) (promise_hooks m) (accepted m) (handled m) (changed m) (reported m) (hooks m) (completions m) (cleared m).
Definition detach c m := mkMachine (queue m) (finished_microtask_count_ m) (microtasks_depth_ m) (microtasks_suppressions_ m) (microtasks_policy_ m) (is_running_microtasks_ m) (completed_callbacks m) (entered_contexts m) (current_context m) (embedder_data m) (c :: detached m) (promise_hooks m) (accepted m) (handled m) (changed m) (reported m) (hooks m) (completions m) (cleared m).
Definition set_history ac ha re ho m := mkMachine (queue m) (finished_microtask_count_ m) (microtasks_depth_ m) (microtasks_suppressions_ m) (microtasks_policy_ m) (is_running_microtasks_ m) (completed_callbacks m) (entered_contexts m) (current_context m) (embedder_data m) (detached m) (promise_hooks m) (accepted m ++ ac) (handled m ++ ha) (changed m) (reported m ++ re) (hooks m ++ ho) (completions m) (cleared m).
Definition set_completed cs ch co m := mkMachine (queue m) (finished_microtask_count_ m) (microtasks_depth_ m) (microtasks_suppressions_ m) (microtasks_policy_ m) (is_running_microtasks_ m) cs (entered_contexts m) (current_context m) (embedder_data m) (detached m) (promise_hooks m) (accepted m) (handled m) (changed m ++ ch) (reported m) (hooks m) (completions m ++ co) (cleared m).
Definition ClearKeptObjects m := mkMachine (queue m) (finished_microtask_count_ m) (microtasks_depth_ m) (microtasks_suppressions_ m) (microtasks_policy_ m) (is_running_microtasks_ m) (completed_callbacks m) (entered_contexts m) (current_context m) (embedder_data m) (detached m) (promise_hooks m) (accepted m) (handled m) (changed m) (reported m) (hooks m) (completions m) (S (cleared m)).

Definition ShouldPerfomCheckpoint (m : machine) : bool :=
  negb (is_running_microtasks_ m) && (microtasks_depth_ m =? 0) && (microtasks_suppressions_ m =? 0).

(** ** Scripts *)

Context (intercept : Microtask -> bool) (behaviour : K -> machine -> list act * outcome) (on_completed : CB -> machine -> list act).

(** TF_BUILTIN(EnqueueMicrotask) with its test for a context that was shut down. *)
Definition enqueue (c : C) (t : Microtask) (m : machine) : machine :=
  if decide (c ∈ detached m) then m
  else
    let '(q, intercepted) := Builtin_EnqueueMicrotask intercept t (queue m) in
    set_history (if intercepted then [] else [t]) [] [] [] (set_queue q m).

Section scripts.
Context (PerformCheckpoint : machine -> option machine).

(** The scopes are those of the API: the destructor of a scope that runs microtasks decreases the
    depth, and with the policy kScoped it performs a checkpoint. *)
Fixpoint exec (a : act) (m : machine) {struct a} : option machine :=
  let exec_list := fix go (l : list act) (m : machine) : option machine :=
    match l with [] => Some m | a :: l => m ← exec a m; go l m end in
  match a with
  | AEnqueue c t => Some (enqueue c t m)
  | AScope run_microtasks body has_exception =>
      if run_microtasks then
        m ← exec_list body (add_depth 1 m);
        let m := add_depth (-1) m in
        match microtasks_policy_ m with
        | kScoped => if has_exception then Some m else PerformCheckpoint m
        | _ => Some m
        end
      else exec_list body m
  | ASuppress body => m ← exec_list body (add_suppressions 1 m); Some (add_suppressions (-1) m)
  | ACheckpoint => PerformCheckpoint m
  | AEnterContext c => Some (set_contexts (entered_contexts m ++ [c]) (current_context m) m)
  | ASetData d => Some (set_data d m)
  | ADetach c => Some (detach c m)
  | AChange x => Some (set_completed (change_callbacks (completed_callbacks m) x) [x] [] m)
  end.

Definition exec_list := fix go (l : list act) (m : machine) : option machine :=
  match l with [] => Some m | a :: l => m ← exec a m; go l m end.

(** The code of microtask [t]. *)
Definition run_code (t : Microtask) (k : K) (m : machine) : option (machine * outcome) :=
  let '(acts, o) := behaviour k m in m ← exec_list acts (set_history [] [(t, true)] [] [] m); Some (m, o).

(** ** RunSingleMicrotask *)

(** Whether the context is still there; it is entered. *)
Definition PrepareForContext (c : C) (m : machine) : option machine :=
  if decide (c ∈ detached m) then None else Some (set_contexts (entered_contexts m ++ [c]) c m).

Definition SetupContinuationPreservedEmbedderData (t : Microtask) (m : machine) : machine :=
  match continuation_preserved_embedder_data_ t with None => m | Some d => set_data (Some d) m end.

Definition ClearContinuationPreservedEmbedderData : machine -> machine := set_data None.

Definition RewindEnteredContext (saved_entered_context_count : nat) (current : C) (m : machine) : machine :=
  set_contexts (take saved_entered_context_count (entered_contexts m)) current m.

Definition ReportMessageFromMicrotask (c : C) (e : E) (m : machine) : machine := set_history [] [] [(c, e)] [] m.

Definition RunAllPromiseHooks (h : P -> hook) (p : option P) (m : machine) : machine :=
  if promise_hooks m then match p with Some p => set_history [] [] [] [h p] m | None => m end else m.

(** The jobs that run in their own context: [hook_promise] for the promise jobs. The result tells
    whether the execution is terminating. *)
Definition run_in_context (t : Microtask) (c : C) (k : K) (hook_promise : option (option P)) (m : machine) : option (machine * bool) :=
  let saved_entered_context_count := length (entered_contexts m) in
  let current := current_context m in
  match PrepareForContext c m with
  | None => Some (set_history [] [(t, false)] [] [] m, false)
  | Some m =>
      let m := SetupContinuationPreservedEmbedderData t m in
      let m := match hook_promise with Some p => RunAllPromiseHooks kBefore p m | None => m end in
      '(m, o) ← run_code t k m;
      match o with
      | Returned =>
          let m := match hook_promise with Some p => RunAllPromiseHooks kAfter p m | None => m end in
          Some (RewindEnteredContext saved_entered_context_count current (ClearContinuationPreservedEmbedderData m), false)
      | Threw e => Some (RewindEnteredContext saved_entered_context_count current (ReportMessageFromMicrotask c e m), false)
      | Terminated => Some (m, true)
      end
  end.

(** A C++ callback has no exception handler: only a termination leaves it. *)
Definition run_callback (t : Microtask) (k : K) (m : machine) : option (machine * bool) :=
  '(m, o) ← run_code t k (SetupContinuationPreservedEmbedderData t m);
  match o with
  | Terminated => Some (m, true)
  | _ => Some (ClearContinuationPreservedEmbedderData m, false)
  end.

Definition RunSingleMicrotask (t : Microtask) (m : machine) : option (machine * bool) :=
  match the_job t with
  | CallableTask c k => run_in_context t c k None m
  | CallbackTask k => run_callback t k m
  | PromiseFulfillReactionJobTask c k p | PromiseRejectReactionJobTask c k p | PromiseResolveThenableJobTask c k p => run_in_context t c k (Some p) m
  | AsyncResumeTask _ c k => run_in_context t c k None m
  end.

(** ** RunMicrotasks *)

(** TF_BUILTIN(RunMicrotasks). *)
Fixpoint run_loop (fuel : nat) (m : machine) : option (machine * bool) :=
  match fuel with O => None | S fuel =>
  match take_microtask (queue m) with
  | None => Some (m, false)
  | Some (None, _) => None
  | Some (Some t, q) =>
      '(m, terminated) ← RunSingleMicrotask t (set_queue q m);
      if terminated : bool then Some (m, true) else run_loop fuel (count_finished m)
  end end.

(** [OnCompleted]: the callbacks of the vector, whose changes go to the copy. *)
Fixpoint run_callbacks (cbs : list CB) (m : machine) : option machine :=
  match cbs with
  | [] => Some m
  | cb :: cbs => m ← exec_list (on_completed cb m) (set_completed (completed_callbacks m) [] [cb] m); run_callbacks cbs m
  end.

Definition start_completed (c : callbacks CB) : callbacks CB :=
  mkCallbacks (microtasks_completed_callbacks_ c) (microtasks_completed_callbacks_cow_ c) true.

Definition finish_completed (c : callbacks CB) : callbacks CB :=
  mkCallbacks (default (microtasks_completed_callbacks_ c) (microtasks_completed_callbacks_cow_ c)) None false.

Definition run_completed (m : machine) : option machine :=
  let m := set_completed (start_completed (completed_callbacks m)) [] [] m in
  m ← run_callbacks (microtasks_completed_callbacks_ (completed_callbacks m)) m;
  Some (set_completed (finish_completed (completed_callbacks m)) [] [] m).

(** The flag and the suppression are those of the scopes on the stack, which end with it. *)
Definition leave_run (m : machine) : machine := set_running false (add_suppressions (-1) m).

Definition RunMicrotasks (fuel : nat) (m : machine) : option (machine * Z) :=
  let m := add_suppressions 1 (set_running true m) in
  if size_ (queue m) =? 0 then m ← run_completed m; Some (leave_run m, 0)
  else
    let base_count := finished_microtask_count_ m in
    let continuation_preserved_embedder_data := embedder_data m in
    let saved := length (entered_contexts m) in
    let current := current_context m in
    '(m, terminated) ← run_loop fuel (set_data None m);
    let processed_microtask_count := finished_microtask_count_ m - base_count in
    let m := set_data continuation_preserved_embedder_data (set_contexts (take saved (entered_contexts m)) current m) in
    if terminated : bool then m ← run_completed (set_queue new_queue m); Some (leave_run m, -1)
    else m ← run_completed m; Some (leave_run m, processed_microtask_count).

Definition PerformCheckpointInternal (fuel : nat) (m : machine) : option machine :=
  '(m, _) ← RunMicrotasks fuel m; Some (ClearKeptObjects m).

End scripts.

(** [depth] bounds checkpoints in checkpoints, [fuel] the microtasks of one. *)
Fixpoint PerformCheckpoint (depth fuel : nat) (m : machine) : option machine :=
  match depth with O => None | S depth =>
  if ShouldPerfomCheckpoint m then PerformCheckpointInternal (PerformCheckpoint depth fuel) fuel m else Some m
  end.

(** ** Scripts where no checkpoint is performed *)

Lemma act_nested_ind (Q : act -> Prop) :
  (forall c t, Q (AEnqueue c t)) -> (forall r body e, Forall Q body -> Q (AScope r body e)) -> (forall body, Forall Q body -> Q (ASuppress body)) ->
  Q ACheckpoint -> (forall c, Q (AEnterContext c)) -> (forall d, Q (ASetData d)) -> (forall c, Q (ADetach c)) -> (forall x, Q (AChange x)) -> forall a, Q a.
Proof.
  intros H1 H2 H3 H4 H5 H6 H7 H8. fix IH 1. assert (forall l, Forall Q l) as Hl.
  { fix IHl 1. intros [|a l]; constructor; [apply IH|apply IHl]. }
  intros [c t|r body e|body| |c|d|c|x]; [apply H1|apply H2, Hl|apply H3, Hl|apply H4|apply H5|apply H6|apply H7|apply H8].
Qed.

(** The microtasks a script asks to enqueue, in order. *)
Fixpoint enqueues_of (a : act) : list Microtask :=
  match a with
  | AEnqueue _ t => [t]
  | AScope _ body _ | ASuppress body => mjoin (enqueues_of <$> body)
  | _ => []
  end.

Definition enqueues (l : list act) : list Microtask := mjoin (enqueues_of <$> l).

Definition inert (m : machine) : Prop := 0 <= microtasks_depth_ m /\ 0 <= microtasks_suppressions_ m /\ ShouldPerfomCheckpoint m = false.

(** The parts of the state that no script changes. *)
Definition same_control (m m' : machine) : Prop :=
  microtasks_depth_ m' = microtasks_depth_ m /\ microtasks_suppressions_ m' = microtasks_suppressions_ m /\ microtasks_policy_ m' = microtasks_policy_ m /\
  is_running_microtasks_ m' = is_running_microtasks_ m /\ finished_microtask_count_ m' = finished_microtask_count_ m /\
  promise_hooks m' = promise_hooks m /\ completions m' = completions m /\ cleared m' = cleared m.

(** [new] was appended to the queue, some of [enq]; the contexts below are still entered, none came
    back; the completed callbacks changed as [cs] says. *)
Record grown (enq : list Microtask) (m m' : machine) (new : list Microtask) (cs : list (change CB)) : Prop := {
  g_accepted : accepted m' = accepted m ++ new;
  g_entered : entered_contexts m `prefix_of` entered_contexts m';
  g_new : new `sublist_of` enq;
  g_detached : detached m ⊆ detached m';
  g_changed : changed m' = changed m ++ cs;
  g_callbacks : completed_callbacks m' = foldl change_callbacks (completed_callbacks m) cs;
  g_queue l : models (queue m) l -> Z.of_nat (length l + length enq) < 2 ^ 62 -> models (queue m') (l ++ new)
}.

(** What code may change; [hs] were handled. *)
Record ran (enq : list Microtask) (hs : list (Microtask * bool)) (m m' : machine) : Prop := {
  r_control : same_control m m';
  r_handled : handled m' = handled m ++ hs;
  r_grown : exists new cs, grown enq m m' new cs
}.

Definition quiet (enq : list Microtask) (m m' : machine) : Prop := ran enq [] m m' /\ current_context m' = current_context m.

Lemma same_control_trans m1 m2 m3 : same_control m1 m2 -> same_control m2 m3 -> same_control m1 m3.
Proof. unfold same_control. intros (?&?&?&?&?&?&?&?) (?&?&?&?&?&?&?&?). split_all; congruence. Qed.

Lemma grown_trans e1 e2 m1 m2 m3 n1 n2 c1 c2 : grown e1 m1 m2 n1 c1 -> grown e2 m2 m3 n2 c2 -> grown (e1 ++ e2) m1 m3 (n1 ++ n2) (c1 ++ c2).
Proof.
  intros [A1 E1 N1 D1 H1 C1 M1] [A2 E2 N2 D2 H2 C2 M2]. split.
  - by rewrite A2, A1, <- app_assoc.
  - by etrans.
  - by apply sublist_app.
  - by etrans.
  - by rewrite H2, H1, <- app_assoc.
  - by rewrite C2, C1, foldl_app.
  - intros l Hl Hb. rewrite length_app in Hb. rewrite app_assoc. apply M2; [apply M1; [done|lia]|].
    rewrite length_app. pose proof (sublist_length _ _ N1). lia.
Qed.

Lemma ran_trans e1 e2 h1 h2 m1 m2 m3 : ran e1 h1 m1 m2 -> ran e2 h2 m2 m3 -> ran (e1 ++ e2) (h1 ++ h2) m1 m3.
Proof.
  intros [C1 H1 (n1 & c1 & G1)] [C2 H2 (n2 & c2 & G2)]. split; [by eapply same_control_trans|by rewrite H2, H1, app_assoc|].
  exists (n1 ++ n2), (c1 ++ c2). by eapply grown_trans.
Qed.

Lemma quiet_trans e1 e2 m1 m2 m3 : quiet e1 m1 m2 -> quiet e2 m2 m3 -> quiet (e1 ++ e2) m1 m3.
Proof. intros [R1 X1] [R2 X2]. split; [exact (ran_trans _ _ _ _ _ _ _ R1 R2)|congruence]. Qed.

(** Nothing of the queue, and contexts only above. *)
Lemma ran_local hs m m' : same_control m m' -> handled m' = handled m ++ hs -> accepted m' = accepted m -> queue m' = queue m ->
  entered_contexts m `prefix_of` entered_contexts m' -> detached m ⊆ detached m' ->
  changed m' = changed m -> completed_callbacks m' = completed_callbacks m -> ran [] hs m m'.
Proof.
  intros Hc He Ha Hq Hp Hd Hh Hk. split; [done|done|]. exists [], []. split; rewrite ?app_nil_r; try done.
  intros l Hl _. by rewrite Hq, app_nil_r.
Qed.

Lemma ran_refl m : ran [] [] m m.
Proof. apply ran_local; rewrite ?app_nil_r; done. Qed.

Lemma quiet_refl m : quiet [] m m.
Proof. split; [apply ran_refl|done]. Qed.

Lemma enqueue_quiet c t m : quiet [t] m (enqueue c t m).
Proof.
  unfold enqueue. destruct (decide (c ∈ detached m)).
  { split; [|done]. split; [done|by rewrite app_nil_r|]. exists [], [].
    split; rewrite ?app_nil_r; try done; [apply sublist_nil_l|]. intros l Hl _. by rewrite app_nil_r. }
  destruct (Builtin_EnqueueMicrotask intercept t (queue m)) as [q b] eqn:Hq. split; [|done]. split; [done|done|].
  exists (if b then [] else [t]), []. split; rewrite ?app_nil_r; try done; [by destruct b; [apply sublist_nil_l|]|].
  intros l Hl Hb. destruct (models_builtin_enqueue intercept (queue m) l t q b Hl) as [Hm _]; [|done|].
  { destruct Hl as (_ & Hs & _). simpl in Hb. lia. }
  simpl. by destruct b; rewrite ?app_nil_r.
Qed.

Lemma inert_same m m' : inert m -> same_control m m' -> inert m'.
Proof. unfold inert, same_control, ShouldPerfomCheckpoint. intros (H1 & H2 & H3) (-> & -> & _ & -> & _). done. Qed.

Lemma inert_depth m : inert m -> inert (add_depth 1 m).
Proof.
  unfold inert, ShouldPerfomCheckpoint. simpl. intros (H1 & H2 & H3). split_all; [lia|done|]. destruct (Z.eqb_spec (microtasks_depth_ m + 1) 0); [lia|]. by rewrite andb_false_r.
Qed.

Lemma inert_suppressions m : inert m -> inert (add_suppressions 1 m).
Proof.
  unfold inert, ShouldPerfomCheckpoint. simpl. intros (H1 & H2 & H3). split_all; [done|lia|]. destruct (Z.eqb_spec (microtasks_suppressions_ m + 1) 0); [lia|]. by rewrite andb_false_r.
Qed.

Lemma exec_list_cons ck a l m : exec_list ck (a :: l) m = (m ← exec ck a m; exec_list ck l m).
Proof. reflexivity. Qed.

Lemma exec_scope ck r body e m : exec ck (AScope r body e) m =
  if r then m ← exec_list ck body (add_depth 1 m); let m := add_depth (-1) m in match microtasks_policy_ m with kScoped => if e then Some m else ck m | _ => Some m end
  else exec_list ck body m.
Proof. reflexivity. Qed.

Lemma exec_suppress ck body m : exec ck (ASuppress body) m = (m ← exec_list ck body (add_suppressions 1 m); Some (add_suppressions (-1) m)).
Proof. reflexivity. Qed.

Definition refuses (ck : machine -> option machine) : Prop := forall m, inert m -> ck m = Some m.

Definition quietly ck (a : act) : Prop := forall m, inert m -> exists m', exec ck a m = Some m' /\ quiet (enqueues_of a) m m'.

Lemma exec_list_quiet ck l m : Forall (quietly ck) l -> inert m -> exists m', exec_list ck l m = Some m' /\ quiet (enqueues l) m m'.
Proof.
  intros Hl. revert m. induction Hl as [|a l Ha _ IH]; intros m Hm; [exists m; split; [done|apply quiet_refl]|].
  destruct (Ha m Hm) as (m1 & He & Hq1). destruct (IH m1 (inert_same _ _ Hm (r_control _ _ _ _ (proj1 Hq1)))) as (m2 & He2 & Hq2).
  exists m2. rewrite exec_list_cons, He. split; [done|]. by eapply quiet_trans.
Qed.

(** A change of a counter before the script and back after it. *)
Definition same_content (m m' : machine) : Prop :=
  queue m' = queue m /\ accepted m' = accepted m /\ entered_contexts m' = entered_contexts m /\ handled m' = handled m /\
  current_context m' = current_context m /\ detached m' = detached m /\ changed m' = changed m /\ completed_callbacks m' = completed_callbacks m.

Lemma quiet_between enq m m1 m2 m' : quiet enq m1 m2 -> same_content m m1 -> same_content m2 m' -> same_control m m' -> quiet enq m m'.
Proof.
  intros [[_ Ex (n & cs & [A Pe N D Hh Ck M])] Cu] (Q1 & A1 & E1 & H1 & X1 & D1 & C1 & K1) (Q2 & A2 & E2 & H2 & X2 & D2 & C2 & K2) Hc.
  split; [|congruence]. split; [done|congruence|]. exists n, cs.
  split; rewrite ?Q2, ?A2, ?E2, ?D2, ?C2, ?K2, <- ?Q1, <- ?A1, <- ?E1, <- ?D1, <- ?C1, <- ?K1; done.
Qed.

Lemma exec_quiet ck a : refuses ck -> quietly ck a.
Proof.
  intros Hck. induction a as [c t|r body e IH|body IH| |c|d|c|x] using act_nested_ind; intros m Hm.
  - exists (enqueue c t m). split; [done|apply enqueue_quiet].
  - rewrite exec_scope. destruct r; [|by apply exec_list_quiet]. destruct (exec_list_quiet ck body _ IH (inert_depth m Hm)) as (m1 & He & Hq). rewrite He.
    assert (quiet (enqueues body) m (add_depth (-1) m1)) as Hq'.
    { eapply quiet_between; [exact Hq|done|done|]. destruct (r_control _ _ _ _ (proj1 Hq)) as (C1 & C2 & C3 & C4 & C5 & C6 & C7 & C8). unfold same_control. split_all; simpl in *; try congruence. lia. }
    exists (add_depth (-1) m1). split; [|exact Hq']. simpl. pose proof (inert_same _ _ Hm (r_control _ _ _ _ (proj1 Hq'))) as Hi.
    destruct (microtasks_policy_ m1); [done| |done]. destruct e; [done|]. by apply Hck.
  - rewrite exec_suppress. destruct (exec_list_quiet ck body _ IH (inert_suppressions m Hm)) as (m1 & He & Hq). rewrite He. exists (add_suppressions (-1) m1). split; [done|].
    eapply quiet_between; [exact Hq|done|done|]. destruct (r_control _ _ _ _ (proj1 Hq)) as (C1 & C2 & C3 & C4 & C5 & C6 & C7 & C8). unfold same_control. split_all; simpl in *; try congruence. lia.
  - exists m. split; [by apply Hck|apply quiet_refl].
  - eexists. split; [done|]. split; [|done]. apply ran_local; simpl; rewrite ?app_nil_r; try done. by apply prefix_app_r.
  - eexists. split; [done|]. split; [|done]. apply ran_local; simpl; rewrite ?app_nil_r; done.
  - eexists. split; [done|]. split; [|done]. apply ran_local; simpl; rewrite ?app_nil_r; try done. set_solver.
  - eexists. split; [done|]. split; [|done]. split; simpl; rewrite ?app_nil_r; try done.
    { unfold same_control. simpl. rewrite app_nil_r. done. }
    exists [], [x]. split; simpl; rewrite ?app_nil_r; try done. intros l Hl _. by rewrite app_nil_r.
Qed.

Lemma script_quiet ck l m : refuses ck -> inert m -> exists m', exec_list ck l m = Some m' /\ quiet (enqueues l) m m'.
Proof. intros Hck. apply exec_list_quiet, Forall_forall. intros a _. by apply exec_quiet. Qed.

(** ** One microtask *)

(** The code that a job runs, and the context it runs in. *)
Definition code (j : job) : K :=
  match j with
  | CallableTask _ k | CallbackTask k | PromiseFulfillReactionJobTask _ k _ | PromiseRejectReactionJobTask _ k _
  | PromiseResolveThenableJobTask _ k _ | AsyncResumeTask _ _ k => k
  end.

Definition job_context (j : job) : option C :=
  match j with
  | CallableTask c _ | PromiseFulfillReactionJobTask c _ _ | PromiseRejectReactionJobTask c _ _
  | PromiseResolveThenableJobTask c _ _ | AsyncResumeTask _ c _ => Some c
  | CallbackTask _ => None
  end.

(** The code of a microtask is run unless its context has been shut down. *)
Definition handled_as (dead : list C) (h : Microtask * bool) : Prop :=
  h.2 = match job_context (the_job h.1) with Some c => negb (bool_decide (c ∈ dead)) | None => true end.

Lemma hooks_ran h p m : ran [] [] m (RunAllPromiseHooks h p m).
Proof.
  unfold RunAllPromiseHooks. destruct (promise_hooks m); [|apply ran_refl]. destruct p; apply ran_local; simpl; rewrite ?app_nil_r; done.
Qed.

Lemma hook_promise_ran (h : P -> hook) (p : option (option P)) m : ran [] [] m (match p with Some p => RunAllPromiseHooks h p m | None => m end).
Proof. destruct p; [apply hooks_ran|apply ran_refl]. Qed.

Lemma setup_ran t m : ran [] [] m (SetupContinuationPreservedEmbedderData t m).
Proof.
  unfold SetupContinuationPreservedEmbedderData. destruct (continuation_preserved_embedder_data_ t); apply ran_local; simpl; rewrite ?app_nil_r; done.
Qed.

Lemma code_ran ck t k m : refuses ck -> inert m -> exists m' o, run_code ck t k m = Some (m', o) /\ ran (enqueues (behaviour k m).1) [(t, true)] m m'.
Proof.
  intros Hck Hm. unfold run_code. destruct (behaviour k m) as [acts o]. set (m0 := set_history [] [(t, true)] [] [] m).
  assert (ran [] [(t, true)] m m0) as H0 by (apply ran_local; simpl; rewrite ?app_nil_r; done).
  destruct (script_quiet ck acts m0 Hck (inert_same _ _ Hm (r_control _ _ _ _ H0))) as (m' & He & [Hq _]).
  exists m', o. rewrite He. split; [done|]. exact (ran_trans _ _ _ _ _ _ _ H0 Hq).
Qed.

Lemma rewound enq hs m m' c : ran enq hs m m' -> ran enq hs m (RewindEnteredContext (length (entered_contexts m)) c m') /\
  entered_contexts (RewindEnteredContext (length (entered_contexts m)) c m') = entered_contexts m.
Proof.
  intros [Hc He (n & cs & [A [l Hl] N D Hh Ck M])]. assert (take (length (entered_contexts m)) (entered_contexts m') = entered_contexts m) as Ht by (by rewrite Hl, take_app_length).
  split; [|done]. split; [exact Hc|done|]. exists n, cs. split; simpl; rewrite ?Ht; done.
Qed.

(** What happened to the microtask [t] between [m] and [m']: at most what its code enqueues. *)
Definition ran_once (t : Microtask) (m m' : machine) : Prop :=
  exists enq h, ran enq [h] m m' /\ h.1 = t /\ handled_as (detached m) h /\
    (enq = [] \/ exists m0, handled m0 = handled m /\ enq = enqueues (behaviour (code (the_job t)) m0).1).

(** A job in its own context leaves the contexts as they were, whether its code returns or throws. *)
Lemma run_in_context_ran ck t c p m : refuses ck -> inert m -> job_context (the_job t) = Some c ->
  exists m' b, run_in_context ck t c (code (the_job t)) p m = Some (m', b) /\ ran_once t m m' /\
    (b = false -> entered_contexts m' = entered_contexts m /\ current_context m' = current_context m).
Proof.
  intros Hck Hm Hj. unfold run_in_context, PrepareForContext, ran_once, handled_as. destruct (decide (c ∈ detached m)) as [Hd|Hd].
  { eexists _, false. split; [done|]. split; [|done]. exists [], (t, false). split; [apply ran_local; simpl; rewrite ?app_nil_r; done|].
    split; [done|]. simpl. rewrite Hj, bool_decide_eq_true_2 by done. split; [done|by left]. }
  set (m1 := set_contexts (entered_contexts m ++ [c]) c m).
  assert (ran [] [] m m1) as H1 by (apply ran_local; simpl; rewrite ?app_nil_r; try done; by apply prefix_app_r).
  pose proof (setup_ran t m1) as H2. set (m2 := SetupContinuationPreservedEmbedderData t m1) in *. pose proof (hook_promise_ran kBefore p m2) as H3.
  set (m3 := match p with Some p => RunAllPromiseHooks kBefore p m2 | None => m2 end) in *.
  pose proof (ran_trans _ _ _ _ _ _ _ (ran_trans _ _ _ _ _ _ _ H1 H2) H3) as H4. simpl in H4.
  destruct (code_ran ck t (code (the_job t)) m3 Hck (inert_same _ _ Hm (r_control _ _ _ _ H4))) as (m4 & o & Hr & H5). rewrite Hr.
  pose proof (ran_trans _ _ _ _ _ _ _ H4 H5) as H6. simpl in H6. set (enq := enqueues (behaviour (code (the_job t)) m3).1) in *.
  assert (enq = [] \/ exists m0, handled m0 = handled m /\ enq = enqueues (behaviour (code (the_job t)) m0).1) as Henq.
  { right. exists m3. split; [|done]. pose proof (r_handled _ _ _ _ H4) as Hh. by rewrite app_nil_r in Hh. }
  assert (true = match job_context (the_job t) with Some c => negb (bool_decide (c ∈ detached m)) | None => true end) as Hb by (by rewrite Hj, bool_decide_eq_false_2).
  assert (forall m', ran enq [(t, true)] m m' -> exists enq h, ran enq [h] m m' /\ h.1 = t /\
    h.2 = match job_context (the_job h.1) with Some c => negb (bool_decide (c ∈ detached m)) | None => true end /\
    (enq = [] \/ exists m0, handled m0 = handled m /\ enq = enqueues (behaviour (code (the_job t)) m0).1)) as Hfin.
  { intros m' Hm'. exists enq, (t, true). by split_all. }
  simpl. destruct o as [|e|].
  - pose proof (hook_promise_ran kAfter p m4) as H7. set (m5 := match p with Some p => RunAllPromiseHooks kAfter p m4 | None => m4 end) in *.
    assert (ran [] [] m5 (ClearContinuationPreservedEmbedderData m5)) as H8 by (apply ran_local; simpl; rewrite ?app_nil_r; done).
    pose proof (ran_trans _ _ _ _ _ _ _ (ran_trans _ _ _ _ _ _ _ H6 H7) H8) as H9. rewrite !app_nil_r in H9.
    destruct (rewound _ _ _ _ (current_context m) H9) as [H10 H11]. eexists _, _. split; [done|]. split; [by apply Hfin|done].
  - assert (ran [] [] m4 (ReportMessageFromMicrotask c e m4)) as H8 by (apply ran_local; simpl; rewrite ?app_nil_r; done).
    pose proof (ran_trans _ _ _ _ _ _ _ H6 H8) as H9. rewrite !app_nil_r in H9.
    destruct (rewound _ _ _ _ (current_context m) H9) as [H10 H11]. eexists _, _. split; [done|]. split; [by apply Hfin|done].
  - eexists _, _. split; [done|]. split; [by apply Hfin|done].
Qed.

Lemma run_callback_ran ck t m : refuses ck -> inert m -> job_context (the_job t) = None ->
  exists m' b, run_callback ck t (code (the_job t)) m = Some (m', b) /\ ran_once t m m'.
Proof.
  intros Hck Hm Hj. unfold run_callback. pose proof (setup_ran t m) as H1. set (m1 := SetupContinuationPreservedEmbedderData t m) in *.
  destruct (code_ran ck t (code (the_job t)) m1 Hck (inert_same _ _ Hm (r_control _ _ _ _ H1))) as (m2 & o & Hr & H2). rewrite Hr. simpl.
  pose proof (ran_trans _ _ _ _ _ _ _ H1 H2) as H3. simpl in H3.
  assert (ran [] [] m2 (ClearContinuationPreservedEmbedderData m2)) as H4 by (apply ran_local; simpl; rewrite ?app_nil_r; done).
  pose proof (ran_trans _ _ _ _ _ _ _ H3 H4) as H5. rewrite !app_nil_r in H5.
  assert (forall m', ran (enqueues (behaviour (code (the_job t)) m1).1) [(t, true)] m m' -> ran_once t m m') as Hfin.
  { intros m' Hm'. exists (enqueues (behaviour (code (the_job t)) m1).1), (t, true). split; [done|]. split; [done|]. unfold handled_as. simpl. rewrite Hj. split; [done|].
    right. exists m1. split; [|done]. pose proof (r_handled _ _ _ _ H1) as Hh. by rewrite app_nil_r in Hh. }
  by destruct o; eexists _, _; split; try done; apply Hfin.
Qed.

Lemma RunSingleMicrotask_ran ck t m : refuses ck -> inert m -> exists m' b, RunSingleMicrotask ck t m = Some (m', b) /\ ran_once t m m'.
Proof.
  intros Hck Hm. unfold RunSingleMicrotask. destruct (the_job t) as [c k|k|c k p|c k p|c k p|kind c k] eqn:Hj.
  2: by destruct (run_callback_ran ck t m Hck Hm) as (m' & b & Hr & Ho); rewrite ?Hj in *; eauto.
  all: edestruct (run_in_context_ran ck t c) as (m' & b & Hr & Ho & _); [exact Hck|exact Hm|by rewrite Hj|]; rewrite Hj in Hr; exists m', b; split; [exact Hr|exact Ho].
Qed.

(** ** The loop *)

Definition same_flags (m m' : machine) : Prop :=
  microtasks_depth_ m' = microtasks_depth_ m /\ microtasks_suppressions_ m' = microtasks_suppressions_ m /\ microtasks_policy_ m' = microtasks_policy_ m /\
  is_running_microtasks_ m' = is_running_microtasks_ m /\ cleared m' = cleared m.

Lemma same_flags_trans m1 m2 m3 : same_flags m1 m2 -> same_flags m2 m3 -> same_flags m1 m3.
Proof. unfold same_flags. intros (?&?&?&?&?) (?&?&?&?&?). split_all; congruence. Qed.

Lemma control_flags m m' : same_control m m' -> same_flags m m'.
Proof. unfold same_control, same_flags. intuition. Qed.

Lemma inert_flags m m' : inert m -> same_flags m m' -> inert m'.
Proof. unfold inert, same_flags, ShouldPerfomCheckpoint. intros (H1 & H2 & H3) (-> & -> & _ & -> & _). done. Qed.

(** The code of a handled microtask was run, and its context was there before; or it was skipped,
    and its context is gone. *)
Definition handled_between (before after : list C) (h : Microtask * bool) : Prop :=
  if h.2 then forall c, job_context (the_job h.1) = Some c -> c ∉ before
  else exists c, job_context (the_job h.1) = Some c /\ c ∈ after.

Lemma handled_as_between dead before after h : handled_as dead h -> before ⊆ dead -> dead ⊆ after -> handled_between before after h.
Proof.
  unfold handled_as, handled_between. destruct h as [t b]. simpl. intros -> H1 H2. destruct (job_context (the_job t)) as [c|]; [|by intros].
  destruct (bool_decide_reflect (c ∈ dead)); simpl; [exists c; auto|]. intros c' ?. simplify_eq. auto.
Qed.

Lemma handled_between_weaken b1 a1 b2 a2 l : Forall (handled_between b1 a1) l -> b2 ⊆ b1 -> a1 ⊆ a2 -> Forall (handled_between b2 a2) l.
Proof.
  intros Hl Hb Ha. eapply Forall_impl; [exact Hl|]. intros [t []]; unfold handled_between; simpl.
  - intros H c Hc Hin. by apply (H c Hc), Hb.
  - intros (c & Hc & Hin). exists c. auto.
Qed.

(** One turn of the loop that is not the last one, with room for what [B] enqueues. *)
Definition iteration (B : nat) (m m' : machine) : Prop :=
  exists ck l t q m1, refuses ck /\ inert m /\ models (queue m) (t :: l) /\ Z.of_nat (length l + B) < 2 ^ 62 /\
    take_microtask (queue m) = Some (Some t, q) /\ RunSingleMicrotask ck t (set_queue q m) = Some (m1, false) /\ m' = count_finished m1.

(** [done] were handled of the microtasks [l] of the queue and the [new] ones. *)
Record looped (l : list Microtask) (m m' : machine) (terminated : bool) (new : list Microtask) (done : list (Microtask * bool)) (cs : list (change CB)) : Prop := {
  l_flags : same_flags m m';
  l_completions : completions m' = completions m;
  l_accepted : accepted m' = accepted m ++ new;
  l_handled : handled m' = handled m ++ done;
  l_entered : entered_contexts m `prefix_of` entered_contexts m';
  l_detached : detached m ⊆ detached m';
  l_between : Forall (handled_between (detached m) (detached m')) done;
  l_changed : changed m' = changed m ++ cs;
  l_callbacks : completed_callbacks m' = foldl change_callbacks (completed_callbacks m) cs;
  l_count : finished_microtask_count_ m' = finished_microtask_count_ m + Z.of_nat (length done) - Z.b2z terminated;
  l_done : if terminated then done.*1 `prefix_of` l ++ new else done.*1 = l ++ new /\ models (queue m') []
}.

(** A microtask, and what remains to be done. *)
Lemma looped_one t l q m m1 h n cs enq : ran enq [h] (set_queue q m) m1 -> h.1 = t -> handled_as (detached m) h -> grown enq (set_queue q m) m1 n cs ->
  looped (t :: l) m m1 true n [h] cs.
Proof.
  intros [(F1 & F2 & F3 & F4 & F5 & F6 & F7 & F8) He _] Ht Hh [A Pe N D Hc Kc M]. split; try done.
  - constructor; [|constructor]. by apply (handled_as_between (detached m)).
  - simpl in *. lia.
  - simpl. rewrite Ht. by exists (l ++ n).
Qed.

Lemma looped_more t l m m1 m2 b n new h done c1 c2 : looped (t :: l) m m1 true n [h] c1 -> h.1 = t ->
  looped (l ++ n) (count_finished m1) m2 b new done c2 -> looped (t :: l) m m2 b (n ++ new) (h :: done) (c1 ++ c2).
Proof.
  intros [F1 P1 A1 H1 E1 D1 B1 C1 K1 N1 _] Ht [F2 P2 A2 H2 E2 D2 B2 C2 K2 N2 L2]. simpl in *. split.
  - exact (same_flags_trans _ _ _ F1 F2).
  - congruence.
  - by rewrite A2, A1, <- app_assoc.
  - by rewrite H2, H1, <- app_assoc.
  - by etrans.
  - by etrans.
  - change (h :: done) with ([h] ++ done). apply Forall_app. split; [by eapply handled_between_weaken|by eapply handled_between_weaken].
  - by rewrite C2, C1, <- app_assoc.
  - by rewrite K2, K1, foldl_app.
  - simpl. lia.
  - rewrite fmap_cons, Ht, app_assoc. destruct b; [by apply prefix_cons|]. destruct L2 as [-> L2]. done.
Qed.

Lemma run_loop_spec ck (mu : machine -> nat) B fuel l m : refuses ck -> inert m -> models (queue m) l ->
  (forall k m, (length (enqueues (behaviour k m).1) <= B)%nat) -> (forall m m', iteration B m m' -> (mu m' < mu m)%nat) ->
  (mu m < fuel)%nat -> Z.of_nat (length l + fuel * B) < 2 ^ 62 ->
  exists m' b new done cs, run_loop ck fuel m = Some (m', b) /\ looped l m m' b new done cs.
Proof.
  intros Hck Hm Hl HB Hmu. revert l m Hm Hl. induction fuel as [|fuel IH]; intros l m Hm Hl Hw Hf; [lia|]. simpl. destruct l as [|t l].
  { unfold take_microtask. rewrite (models_size_zero _ _ Hl). simpl. exists m, false, [], [], []. split; [done|]. split; rewrite ?app_nil_r; done || (simpl; lia). }
  destruct (models_take _ _ _ Hl) as (q & Ht & Hq & _). rewrite Ht. assert (same_flags m (set_queue q m)) as F0 by done.
  destruct (RunSingleMicrotask_ran ck t _ Hck (inert_flags _ _ Hm F0)) as (m1 & b & Hr & (enq & h & Hran & Hh & Has & Henq)). rewrite Hr. simpl.
  assert (length enq <= B)%nat as Hlen by (destruct Henq as [->|(m0 & _ & ->)]; [simpl; lia|apply HB]). simpl in Hf.
  pose proof (r_grown _ _ _ _ Hran) as (n & cs & Hg). pose proof (looped_one t l q m m1 h n cs enq Hran Hh Has Hg) as L1. destruct b.
  - by exists m1, true, n, [h], cs.
  - assert (mu (count_finished m1) < mu m)%nat as Hdec.
    { apply Hmu. exists ck, l, t, q, m1. split_all; try done. lia. }
    destruct (IH (l ++ n) (count_finished m1)) as (m2 & b & new & ex & cs2 & Hl2 & L2).
    + by eapply inert_flags, L1.
    + apply (g_queue _ _ _ _ _ Hg); [done|lia].
    + lia.
    + rewrite length_app. pose proof (sublist_length _ _ (g_new _ _ _ _ _ Hg)). lia.
    + exists m2, b, (n ++ new), (h :: ex), (cs ++ cs2). split; [done|]. by eapply looped_more.
Qed.

(** ** The completed callbacks *)

(** The registered callbacks after changes. *)
Definition change_all (vec : list CB) (cs : list (change CB)) : list CB := foldl (fun v x => change_vector x v) vec cs.

Lemma idle_changes vec cs : foldl change_callbacks (mkCallbacks vec None false) cs = mkCallbacks (change_all vec cs) None false.
Proof. revert vec. induction cs as [|x cs IH]; intros vec; [done|]. simpl. rewrite <- (IH (change_vector x vec)). by destruct x. Qed.

Lemma running_finish l v c : running l v c -> finish_completed c = mkCallbacks v None false.
Proof. intros (Hl & _ & Hv). unfold finish_completed. by rewrite Hl, Hv. Qed.

Lemma run_callbacks_spec ck B cbs m : refuses ck -> inert m -> (forall cb m, (length (enqueues (on_completed cb m)) <= B)%nat) ->
  exists m' enq new cs, run_callbacks ck cbs m = Some m' /\ same_flags m m' /\ completions m' = completions m ++ cbs /\ handled m' = handled m /\
    grown enq m m' new cs /\ (length enq <= length cbs * B)%nat.
Proof.
  intros Hck Hm HB. revert m Hm. induction cbs as [|cb cbs IH]; intros m Hm.
  - exists m, [], [], []. destruct (ran_refl m) as [_ _ (n & cs & [A Pe N D Hh Ck M])]. split_all; rewrite ?app_nil_r; try done.
    split; rewrite ?app_nil_r; try done. intros l Hl _. by rewrite app_nil_r.
  - set (m0 := set_completed (completed_callbacks m) [] [cb] m).
    destruct (script_quiet ck (on_completed cb m) m0 Hck Hm) as (m1 & He & [[Hc Hh (n & cs & Hg)] _]).
    assert (same_flags m m1) as F1 by exact (control_flags _ _ Hc).
    destruct (IH m1 (inert_flags _ _ Hm F1)) as (m2 & enq & n2 & cs2 & Hr & F2 & P2 & H2 & G2 & L2).
    exists m2, (enqueues (on_completed cb m) ++ enq), (n ++ n2), (cs ++ cs2). cbn [run_callbacks]. fold m0. rewrite He. split; [exact Hr|].
    split; [by eapply same_flags_trans|]. destruct Hc as (_ & _ & _ & _ & _ & _ & P1 & _). simpl in P1, Hh. rewrite app_nil_r in Hh.
    split; [by rewrite P2, P1, <- app_assoc|]. split; [congruence|]. split.
    + eapply grown_trans; [|exact G2]. destruct Hg as [A Pe N D Hc' Ck M]. simpl in *. split; try done. by rewrite app_nil_r in Hc'.
    + rewrite length_app. specialize (HB cb m). simpl. lia.
Qed.

Lemma run_completed_spec ck B vec m : refuses ck -> inert m -> (forall cb m, (length (enqueues (on_completed cb m)) <= B)%nat) ->
  completed_callbacks m = mkCallbacks vec None false -> models (queue m) [] ->
  exists m' late cs, run_completed ck m = Some m' /\ same_flags m m' /\ completions m' = completions m ++ vec /\ handled m' = handled m /\
    accepted m' = accepted m ++ late /\ changed m' = changed m ++ cs /\ completed_callbacks m' = mkCallbacks (change_all vec cs) None false /\
    (Z.of_nat (length vec * B) < 2 ^ 62 -> models (queue m') late).
Proof.
  intros Hck Hm HB Hv Hq. unfold run_completed. rewrite Hv. set (m0 := set_completed _ [] [] m).
  destruct (run_callbacks_spec ck B vec m0 Hck Hm HB) as (m1 & enq & new & cs & Hr & F & P1 & H1 & [A Pe N D Hc Kc M] & L).
  change (microtasks_completed_callbacks_ (completed_callbacks m0)) with vec. rewrite Hr. simpl in *. rewrite !app_nil_r in *.
  assert (running vec vec (start_completed (mkCallbacks vec None false))) as Hrun by done.
  pose proof (running_finish _ _ _ (running_changes _ _ cs _ Hrun)) as Hfin. rewrite <- Kc in Hfin.
  exists (set_completed (finish_completed (completed_callbacks m1)) [] [] m1), new, cs. split; [done|]. unfold same_flags in *. simpl in *. rewrite !app_nil_r, Hfin.
  split_all; try done; try tauto. intros Hb. apply (M []); [done|]. simpl. lia.
Qed.

(** ** The checkpoint *)

Lemma PerformCheckpoint_refuses depth fuel : (0 < depth)%nat -> refuses (PerformCheckpoint depth fuel).
Proof. intros Hd m (_ & _ & Hm). destruct depth; [lia|]. simpl. by rewrite Hm. Qed.

(** The state in which the loop starts. *)
Definition loop_start (m : machine) : machine := set_data None (add_suppressions 1 (set_running true m)).

Definition restored (m m' : machine) : Prop :=
  entered_contexts m' = entered_contexts m /\ current_context m' = current_context m /\ embedder_data m' = embedder_data m.

Lemma RunMicrotasks_spec ck (mu : machine -> nat) B fuel l vec m : refuses ck -> inert (loop_start m) -> completed_callbacks m = mkCallbacks vec None false ->
  models (queue m) l -> (forall k m, (length (enqueues (behaviour k m).1) <= B)%nat) -> (forall cb m, (length (enqueues (on_completed cb m)) <= B)%nat) ->
  (forall m m', iteration B m m' -> (mu m' < mu m)%nat) -> (mu (loop_start m) < fuel)%nat -> Z.of_nat (length l + fuel * B) < 2 ^ 62 ->
  exists m1 m2 result terminated new done cs1 late cs2,
    RunMicrotasks ck fuel m = Some (leave_run m2, result) /\ run_completed ck m1 = Some m2 /\
    accepted m1 = accepted m ++ new /\ handled m1 = handled m ++ done /\
    (if terminated : bool then done.*1 `prefix_of` l ++ new else done.*1 = l ++ new) /\ models (queue m1) [] /\
    Forall (handled_between (detached m) (detached m1)) done /\
    finished_microtask_count_ m1 = finished_microtask_count_ m + Z.of_nat (length done) - Z.b2z terminated /\
    result = (if terminated then -1 else Z.of_nat (length done)) /\ restored m m1 /\
    same_flags (loop_start m) m2 /\ completions m2 = completions m ++ change_all vec cs1 /\
    changed m2 = changed m ++ cs1 ++ cs2 /\ completed_callbacks m2 = mkCallbacks (change_all vec (cs1 ++ cs2)) None false /\
    handled m2 = handled m1 /\ accepted m2 = accepted m1 ++ late /\
    (Z.of_nat (length (change_all vec cs1) * B) < 2 ^ 62 -> models (queue m2) late).
Proof.
  intros Hck Hi Hv Hl HB HB' Hmu Hw Hf. unfold RunMicrotasks. set (m0 := add_suppressions 1 (set_running true m)) in *.
  assert (models (queue m0) l) as Hl0 by done. rewrite (models_size_zero _ _ Hl0). destruct l as [|t l].
  - rewrite bool_decide_eq_true_2 by done.
    destruct (run_completed_spec ck B vec m0 Hck Hi HB' Hv Hl0) as (m2 & late & cs & Hr & F & P2 & H2 & A2 & C2 & K2 & M2).
    rewrite Hr. simpl. exists m0, m2, 0, false, [], [], [], late, cs. simpl in *. rewrite ?app_nil_r. split_all; try done. lia.
  - rewrite bool_decide_eq_false_2 by done.
    destruct (run_loop_spec ck mu B fuel (t :: l) (set_data None m0) Hck Hi Hl0 HB Hmu Hw Hf) as (m1 & b & new & ex & cs & Hr & [F P1 A1 H1 [k E1] D1 B1 C1 K1 N1 L1]).
    simpl in *. rewrite Hr. simpl. rewrite Hv, idle_changes in K1.
    assert (take (length (entered_contexts m)) (entered_contexts m1) = entered_contexts m) as Ht by (by rewrite E1, take_app_length).
    set (m1' := set_data (embedder_data m) (set_contexts (take (length (entered_contexts m)) (entered_contexts m1)) (current_context m) m1)).
    set (m1'' := if b then set_queue new_queue m1' else m1').
    assert (inert m1'') as Hi1 by (eapply (inert_flags (set_data None m0)); [exact Hi|by destruct b]).
    assert (models (queue m1'') []) as Hq1 by (unfold m1''; destruct b; [apply models_new|apply L1]).
    destruct (run_completed_spec ck B (change_all vec cs) m1'' Hck Hi1 HB') as (m2 & late & cs2 & Hr2 & F2 & P2 & H2 & A2 & C2 & K2 & M2); [by destruct b|done|].
    exists m1'', m2, (if b then -1 else Z.of_nat (length ex)), b, new, ex, cs, late, cs2.
    assert (same_flags (loop_start m) m1'') as F1 by (by destruct b).
    split; [|split; [exact Hr2|]].
    + unfold m1'' in Hr2. destruct b; rewrite Hr2; simpl; [done|]. do 2 f_equal. simpl in N1. lia.
    + assert (change_all vec (cs ++ cs2) = change_all (change_all vec cs) cs2) as -> by apply foldl_app. replace (completions m1'') with (completions m) in P2 by (by destruct b).
      replace (changed m1'') with (changed m ++ cs) in C2 by (by destruct b). rewrite app_assoc.
      assert (restored m m1'') as Hres by (unfold restored; by destruct b).
      assert (accepted m1'' = accepted m1 /\ handled m1'' = handled m1 /\ detached m1'' = detached m1 /\ finished_microtask_count_ m1'' = finished_microtask_count_ m1) as (Hac & Hhe & -> & ->) by (by destruct b).
      rewrite Hac, Hhe in *. pose proof (same_flags_trans _ _ _ F1 F2). split_all; try done. by destruct b; [|destruct L1].
Qed.

(** C25. A checkpoint ends when the code of the microtasks has a variant [mu] that every turn of
    the loop decreases, and each piece of code enqueues at most [B] microtasks, fewer than 2^62 in
    all (code may enqueue itself again). It handles the microtasks of the queue and those that they enqueue, once and in
    order, unless the execution is terminated: each is run, or skipped because its context is
    detached. The queue is then empty and the entered contexts, the current context and the
    embedder data are those before the checkpoint, whatever the code entered, threw, nested or
    asked for. After that each completed callback registered by then is called once, and the
    microtasks it enqueues wait in the queue for the next checkpoint; the scopes and flags are
    those before the checkpoint and the kept objects are cleared. *)
Theorem checkpoint_runs_and_restores depth fuel (mu : machine -> nat) B l vec m : (1 < depth)%nat -> 0 <= microtasks_suppressions_ m -> ShouldPerfomCheckpoint m = true ->
  completed_callbacks m = mkCallbacks vec None false -> models (queue m) l ->
  (forall k m, (length (enqueues (behaviour k m).1) <= B)%nat) -> (forall cb m, (length (enqueues (on_completed cb m)) <= B)%nat) ->
  (forall m m', iteration B m m' -> (mu m' < mu m)%nat) -> (mu (loop_start m) < fuel)%nat -> Z.of_nat (length l + fuel * B) < 2 ^ 62 ->
  exists m1 m2 terminated new done cs1 late cs2,
    let m' := ClearKeptObjects (leave_run m2) in let called := change_all vec cs1 in
    PerformCheckpoint depth fuel m = Some m' /\ run_completed (PerformCheckpoint (pred depth) fuel) m1 = Some m2 /\
    (* when the completed callbacks are called *)
    accepted m1 = accepted m ++ new /\ handled m1 = handled m ++ done /\
    (if terminated : bool then done.*1 `prefix_of` l ++ new else done.*1 = l ++ new) /\ models (queue m1) [] /\
    Forall (handled_between (detached m) (detached m1)) done /\
    finished_microtask_count_ m1 = finished_microtask_count_ m + Z.of_nat (length done) - Z.b2z terminated /\ restored m m1 /\
    (* afterwards *)
    completions m' = completions m ++ called /\ changed m' = changed m ++ cs1 ++ cs2 /\
    completed_callbacks m' = mkCallbacks (change_all vec (cs1 ++ cs2)) None false /\
    handled m' = handled m1 /\ accepted m' = accepted m1 ++ late /\ (Z.of_nat (length called * B) < 2 ^ 62 -> models (queue m') late) /\
    microtasks_depth_ m' = microtasks_depth_ m /\ microtasks_suppressions_ m' = microtasks_suppressions_ m /\ is_running_microtasks_ m' = false /\
    cleared m' = S (cleared m).
Proof.
  intros Hd Hs0 Hs Hv Hl HB HB' Hmu Hw Hf. destruct depth as [|depth]; [lia|]. pose proof (PerformCheckpoint_refuses depth fuel ltac:(lia)) as Hck.
  assert (microtasks_depth_ m = 0) as Hdep by (unfold ShouldPerfomCheckpoint in Hs; destruct (Z.eqb_spec (microtasks_depth_ m) 0); [done|by rewrite andb_false_r in Hs]).
  assert (inert (loop_start m)) as Hi by (unfold inert; split_all; simpl; [lia|lia|done]).
  destruct (RunMicrotasks_spec (PerformCheckpoint depth fuel) mu B fuel l vec m Hck Hi Hv Hl HB HB' Hmu Hw Hf)
    as (m1 & m2 & result & b & new & ex & cs1 & late & cs2 & Hr & Hrun & A & H1 & Hdone & Q & Bt & N & _ & Res & (F1 & F2 & F3 & F4 & F5) & Pc & Ch & Kc & H2 & A2 & M).
  exists m1, m2, b, new, ex, cs1, late, cs2. cbn [PerformCheckpoint]. rewrite Hs. unfold PerformCheckpointInternal. rewrite Hr. simpl in *.
  split_all; try done; lia.
Qed.

(** Under a scope that runs microtasks, a suppression or a run no checkpoint is performed, whatever scripts ask for; leaving the outermost scope with the policy kScoped performs one, after the code of the scope. *)
Theorem scopes_delay_checkpoints depth fuel body m : (0 < depth)%nat -> 0 <= microtasks_suppressions_ m -> ShouldPerfomCheckpoint m = true -> microtasks_policy_ m = kScoped ->
  exists m1, handled m1 = handled m /\ ShouldPerfomCheckpoint m1 = true /\
    exec (PerformCheckpoint depth fuel) (AScope true body false) m = PerformCheckpoint depth fuel m1.
Proof.
  intros Hd Hs0 Hs Hp. rewrite exec_scope. pose proof (PerformCheckpoint_refuses depth fuel Hd) as Hck.
  assert (microtasks_depth_ m = 0) as Hdep by (unfold ShouldPerfomCheckpoint in Hs; destruct (Z.eqb_spec (microtasks_depth_ m) 0); [done|by rewrite andb_false_r in Hs]).
  assert (inert (add_depth 1 m)) as Hi. { unfold inert, ShouldPerfomCheckpoint. simpl. rewrite Hdep. split_all; [lia|lia|by rewrite andb_false_r]. }
  destruct (script_quiet (PerformCheckpoint depth fuel) body _ Hck Hi) as (m1 & -> & [[Hc He _] _]).
  destruct Hc as (C1 & C2 & C3 & C4 & _). simpl in *. rewrite C3, Hp. exists (add_depth (-1) m1). rewrite app_nil_r in He. split_all; [done| |done].
  unfold ShouldPerfomCheckpoint in *. simpl. rewrite C1, C2, C4. by replace (microtasks_depth_ m + 1 + -1) with (microtasks_depth_ m) by lia.
Qed.

(** What a turn of the loop does to the size of the queue. *)
Lemma iteration_size B m m' : (forall k m, (length (enqueues (behaviour k m).1) <= B)%nat) -> iteration B m m' ->
  exists k m0 n, handled m0 = handled m /\ (n <= length (enqueues (behaviour k m0).1))%nat /\
    size_ (queue m') < size_ (queue m) + Z.of_nat n /\ length (handled m') = S (length (handled m)).
Proof.
  intros HB (ck & l & t & q & m1 & Hck & Hm & Hl & Hb & Ht & Hr & ->). destruct (models_take _ _ _ Hl) as (q' & Ht' & Hq & _). rewrite Ht in Ht'. injection Ht' as <-.
  assert (same_flags m (set_queue q m)) as F0 by done.
  destruct (RunSingleMicrotask_ran ck t _ Hck (inert_flags _ _ Hm F0)) as (m2 & b & Hr' & (enq & h & [_ Hh (n & cs & [A Pe N D Hc Kc M])] & _ & _ & Henq)). simplify_eq.
  assert (exists m0, handled m0 = handled m /\ (length enq <= length (enqueues (behaviour (code (the_job t)) m0).1))%nat) as (m0 & H0 & He).
  { destruct Henq as [->|(m0 & H0 & ->)]; [exists m; simpl; split; [done|lia]|exists m0; split; [exact H0|lia]]. }
  pose proof (sublist_length _ _ N). specialize (HB (code (the_job t)) m0). exists (code (the_job t)), m0, (length n). split; [exact H0|]. split; [lia|].
  pose proof (M l Hq ltac:(lia)) as Hm1. destruct Hl as (_ & Hl & _), Hm1 as (_ & Hl1 & _). simpl in *. rewrite length_app in Hl1. split; [lia|].
  rewrite Hh, length_app. simpl. lia.
Qed.

End checkpoints.

Section leak.
Context {C X P E K CB : Type} `{!EqDecision C} `{!EqDecision CB}.

(** An exception leaves the embedder data of its microtask behind: the handler of RunSingleMicrotask jumps past the call that clears it, and a microtask without data, which expects it undefined, runs its code with it. *)
Theorem exception_leaks_embedder_data (intercept : @Microtask C X P K -> bool) (behaviour : K -> @machine C X P E K CB -> list act * outcome) checkpoint (d : X) (c : C) (k k' : K) (e : E) m :
  c ∉ detached m -> (forall m, behaviour k m = ([], Threw e)) -> (forall m, behaviour k' m = ([], Returned)) ->
  exists m', RunSingleMicrotask intercept behaviour checkpoint (mkMicrotask (Some d) (CallableTask c k)) m = Some (m', false) /\
    embedder_data m' = Some d /\ SetupContinuationPreservedEmbedderData (mkMicrotask None (CallableTask c k')) m' = m' /\
    exists m'', RunSingleMicrotask intercept behaviour checkpoint (mkMicrotask (Some d) (CallableTask c k')) m = Some (m'', false) /\ embedder_data m'' = None.
Proof.
  intros Hc Hk Hk'. unfold RunSingleMicrotask, run_in_context, PrepareForContext, run_code. simpl. rewrite !decide_False by done. rewrite Hk, Hk'. simpl.
  eexists. split_all; [done|done|done|]. by eexists.
Qed.

End leak.

(** ** Witnesses *)

(** Code 0 enqueues itself and another microtask while fewer than four were handled (as a loop that
    awaits), detaches the context 4, enters a context, asks for a checkpoint and throws; the others
    return at once. The completed callback enqueues a microtask and adds a callback. *)
Definition sample_microtask (c k : nat) : @Microtask nat nat nat nat := mkMicrotask (Some 7%nat) (CallableTask c k).

Definition sample_behaviour (k : nat) (m : @machine nat nat nat nat nat nat) : list (@act nat nat nat nat nat) * @outcome nat :=
  match k with
  | O => ((if (length (handled m) <? 4)%nat then [AEnqueue 1%nat (sample_microtask 1 0); AEnqueue 1%nat (sample_microtask 1 1)] else [])
           ++ [ADetach 4%nat; AEnterContext 3%nat; AScope true [ACheckpoint] false], Threw 5%nat)
  | _ => ([], Returned)
  end.

Definition sample_completed (cb : nat) (m : @machine nat nat nat nat nat nat) : list (@act nat nat nat nat nat) :=
  [AEnqueue 1%nat (sample_microtask 1 2); AChange (Add 10%nat); ACheckpoint].

Definition never (_ : @Microtask nat nat nat nat) : bool := false.

(** Microtasks of the contexts 1 and 4 wait. *)
Definition sample_machine : @machine nat nat nat nat nat nat :=
  mkMachine (EnqueueMicrotask never (sample_microtask 4 1) (EnqueueMicrotask never (sample_microtask 1 0) new_queue).1).1
    0 0 0 kScoped false (mkCallbacks [9%nat] None false) [2%nat] 2%nat None [] false [] [] [] [] [] [] 0.

Definition sample_variant (m : @machine nat nat nat nat nat nat) : nat := (Z.to_nat (size_ (queue m)) + 3 * (4 - length (handled m)))%nat.

Lemma sample_enqueues k m : (length (enqueues (sample_behaviour k m).1) <= 2)%nat.
Proof. destruct k; simpl; [|lia]. destruct (_ <? 4)%nat; simpl; lia. Qed.

Lemma sample_completed_enqueues cb m : (length (enqueues (sample_completed cb m)) <= 2)%nat.
Proof. simpl. lia. Qed.

Lemma sample_decreases m m' : iteration never sample_behaviour 2 m m' -> (sample_variant m' < sample_variant m)%nat.
Proof.
  intros Hi. pose proof Hi as (ck & l & t & q & m1 & _ & _ & (_ & Hl & _) & _). simpl in Hl.
  destruct (iteration_size never sample_behaviour 2 m m' sample_enqueues Hi) as (k & m0 & n & H0 & Hn & Hs & Hh).
  unfold sample_variant. rewrite Hh. destruct k as [|k]; simpl in Hn; [rewrite H0 in Hn; destruct (Nat.ltb_spec (length (handled m)) 4); simpl in Hn|]; lia.
Qed.

Lemma sample_queue : models (queue sample_machine) [sample_microtask 1 0; sample_microtask 4 1].
Proof.
  pose proof (models_enqueue never new_queue [] (sample_microtask 1 0) (EnqueueMicrotask never (sample_microtask 1 0) new_queue).1 false models_new ltac:(simpl; lia) eq_refl) as [H _].
  pose proof (models_enqueue never _ _ (sample_microtask 4 1) (queue sample_machine) false H ltac:(vm_compute; done) eq_refl) as [H' _]. exact H'.
Qed.

Example checkpoint_runs_and_restores_witness : exists m', PerformCheckpoint never sample_behaviour sample_completed 2 15 sample_machine = Some m' /\
  handled m' = [(sample_microtask 1 0, true); (sample_microtask 4 1, false); (sample_microtask 1 0, true); (sample_microtask 1 1, true);
                (sample_microtask 1 0, true); (sample_microtask 1 1, true)] /\
  size_ (queue m') = 1 /\ completions m' = [9%nat] /\ completed_callbacks m' = mkCallbacks [9; 10]%nat None false /\ entered_contexts m' = [2%nat].
Proof.
  destruct (checkpoint_runs_and_restores never sample_behaviour sample_completed 2 15 sample_variant 2 [sample_microtask 1 0; sample_microtask 4 1] [9%nat] sample_machine
    ltac:(lia) ltac:(simpl; lia) eq_refl eq_refl sample_queue sample_enqueues sample_completed_enqueues sample_decreases ltac:(vm_compute; lia) ltac:(simpl; lia))
    as (m1 & m2 & b & new & ex & cs1 & late & cs2 & Hr & _).
  set (m' := ClearKeptObjects (leave_run m2)) in Hr. clearbody m'. exists m'. split; [exact Hr|].
  vm_compute in Hr. injection Hr as <-. by split_all.
Defined.

Example scopes_delay_checkpoints_witness : exists m1, ShouldPerfomCheckpoint m1 = true /\
  exec never (PerformCheckpoint never sample_behaviour sample_completed 2 3) (AScope true [ACheckpoint] false) sample_machine =
  PerformCheckpoint never sample_behaviour sample_completed 2 3 m1.
Proof.
  destruct (scopes_delay_checkpoints never sample_behaviour sample_completed 2 3 [ACheckpoint] sample_machine ltac:(lia) ltac:(simpl; lia) eq_refl eq_refl) as (m1 & _ & H1 & H2).
  exists m1. split; [exact H1|exact H2].
Defined.

Example exception_leaks_embedder_data_witness : exists m', RunSingleMicrotask never (fun k (m : @machine nat nat nat nat nat nat) => ([], match k with O => Threw 5%nat | _ => Returned end)) Some (sample_microtask 1 0) sample_machine = Some (m', false) /\ embedder_data m' = Some 7%nat.
Proof.
  destruct (exception_leaks_embedder_data never (fun k (m : @machine nat nat nat nat nat nat) => ([], match k with O => Threw 5%nat | _ => Returned end)) Some 7%nat 1%nat 0%nat 1%nat 5%nat sample_machine
    ltac:(apply not_elem_of_nil) (fun _ => eq_refl) (fun _ => eq_refl)) as (m' & H1 & H2 & _). exists m'. split; [exact H1|exact H2].
Defined.
