(* ===== verification/Digits.v ===== *)
(** Digits of BigInts: the digit operations, digit vectors and comparisons of
    src/src/bigint/bigint.h and src/src/bigint/bigint-inl.h.

    A digit is an integer below [digit_base] (64-bit platform); a Digits object is the list
    of its digits, least significant first, and [dval] the number it stands for. An
    operation that fills an RWDigits returns its new contents. All operations read a digit
    of an operand before they write the digit of the same index, so operands that alias the
    result are covered by the same definitions. *)
From S2P Require Import Prelude Conversions.

(** ** Digits *)

Definition kDigitBits : Z := 64.
Definition kHalfDigitBits : Z := kDigitBits / 2.
Definition digit_base : Z := 2 ^ kDigitBits.
Definition kHalfDigitBase : Z := Z.shiftl 1 kHalfDigitBits.
Definition kHalfDigitMask : Z := kHalfDigitBase - 1.

(** Casts to digit_t and twodigit_t. *)
Definition digit (z : Z) : Z := wrap kDigitBits z.
Definition twodigit (z : Z) : Z := wrap (2 * kDigitBits) z.

Definition digit_ismax (x : Z) : bool := digit (Z.lnot x) =? 0.

(** The number of leading zeros of a w-bit integer. *)
Definition CountLeadingZeros (w value : Z) : Z := if value =? 0 then w else w - 1 - Z.log2 value.

Definition BitLength (n : Z) : Z := 32 - CountLeadingZeros 32 (wrap 32 n).

(** Each returns the low digit of the result and the carry, borrow or high digit. *)
Definition digit_add2 (a b : Z) : Z * Z :=
  let result := twodigit (a + b) in
  (digit result, digit (Z.shiftr result kDigitBits)).

Definition digit_add3 (a b c : Z) : Z * Z :=
  let result := twodigit (twodigit (a + b) + c) in
  (digit result, digit (Z.shiftr result kDigitBits)).

Definition digit_sub (a b : Z) : Z * Z :=
  let result := twodigit (a - b) in
  (digit result, digit (Z.land (Z.shiftr result kDigitBits) 1)).

Definition digit_sub2 (a b borrow_in : Z) : Z * Z :=
  let subtrahend := twodigit (b + borrow_in) in
  let result := twodigit (a - subtrahend) in
  (digit result, digit (Z.land (Z.shiftr result kDigitBits) 1)).

Definition digit_mul (a b : Z) : Z * Z :=
  let result := twodigit (a * b) in
  (digit result, digit (Z.shiftr result kDigitBits)).

(** The same helpers for compilers without twodigit_t. *)
Definition portable_add2 (a b : Z) : Z * Z :=
  let result := digit (a + b) in
  (result, if result <? a then 1 else 0).

Definition portable_add3 (a b c : Z) : Z * Z :=
  let result := digit (a + b) in
  let carry := if result <? a then 1 else 0 in
  let result := digit (result + c) in
  (result, if result <? c then digit (carry + 1) else carry).

Definition portable_sub (a b : Z) : Z * Z :=
  let result := digit (a - b) in
  (result, if a <? result then 1 else 0).

Definition portable_sub2 (a b borrow_in : Z) : Z * Z :=
  let result := digit (a - b) in
  let borrow_out := if a <? result then 1 else 0 in
  let borrow_out := if result <? borrow_in then digit (borrow_out + 1) else borrow_out in
  (digit (result - borrow_in), borrow_out).

Definition portable_mul (a b : Z) : Z * Z :=
  let a_low := Z.land a kHalfDigitMask in
  let a_high := Z.shiftr a kHalfDigitBits in
  let b_low := Z.land b kHalfDigitMask in
  let b_high := Z.shiftr b kHalfDigitBits in
  let r_low := digit (a_low * b_low) in
  let r_mid1 := digit (a_low * b_high) in
  let r_mid2 := digit (a_high * b_low) in
  let r_high := digit (a_high * b_high) in
  let '(low, carry) := portable_add3 r_low (digit (Z.shiftl r_mid1 kHalfDigitBits)) (digit (Z.shiftl r_mid2 kHalfDigitBits)) in
  (low, digit (Z.shiftr r_mid1 kHalfDigitBits + Z.shiftr r_mid2 kHalfDigitBits + r_high + carry)).

(** ** Vectors of digits *)

(** A digit, 0 beyond the end, where the code reads nothing. *)
Notation "X .[ i ]" := (nth i X 0%Z) (at level 1, left associativity, format "X .[ i ]").

Definition digit_ok (d : Z) : Prop := 0 <= d < digit_base.
Abbreviation digits_ok := (Forall digit_ok).

Fixpoint dval (X : list Z) : Z :=
  match X with
  | [] => 0
  | d :: X' => d + digit_base * dval X'
  end.

Definition msd (X : list Z) : Z := X.[length X - 1].

(** Digits(src, offset, len). *)
Definition slice (src : list Z) (offset len : nat) : list Z := take len (drop offset src).

(** while (len_ > 0 && msd() == 0) len_--; *)
Fixpoint Normalize_loop (X : list Z) (len_ : nat) : nat :=
  match len_ with
  | O => O
  | S n => if X.[n] =? 0 then Normalize_loop X n else len_
  end.

Definition Normalize (X : list Z) : list Z := take (Normalize_loop X (length X)) X.

Definition IsDigitNormalized (X : list Z) : bool := (length X =? 0)%nat || negb (msd X =? 0).

Definition IsBitNormalized (X : list Z) : bool := Z.shiftr (msd X) (kDigitBits - 1) =? 1.

(** while (i >= 0 && A[i] == B[i]) i--; *)
Fixpoint Compare_loop (A B : list Z) (i : nat) : Z :=
  match i with
  | O => 0
  | S i => if A.[i] =? B.[i] then Compare_loop A B i else if B.[i] <? A.[i] then 1 else -1
  end.

Definition CompareNoNormalize (A B : list Z) : Z :=
  let diff := Z.of_nat (length A) - Z.of_nat (length B) in
  if negb (diff =? 0) then diff else Compare_loop A B (length A).

Definition Compare (A B : list Z) : Z := CompareNoNormalize (Normalize A) (Normalize B).

Definition GreaterThanOrEqual (A B : list Z) : bool := 0 <=? Compare A B.

(** Z.Clear() *)
Definition Clear (Z_len : nat) : list Z := replicate Z_len 0.

(** Zero the digits of Z above those that were written. *)
Definition extend (Z_len : nat) (zs : list Z) : list Z := zs ++ replicate (Z_len - length zs) 0.

(** A loop over digits that hands a carry to its next iteration. *)
Fixpoint carry_loop {A C} (f : A -> C -> Z * C) (l : list A) (c : C) : list Z * C :=
  match l with
  | [] => ([], c)
  | a :: l' =>
    let '(d, c) := f a c in
    let '(ds, c) := carry_loop f l' c in
    (d :: ds, c)
  end.

#[global] Arguments digit_add2 : simpl never.
#[global] Arguments digit_add3 : simpl never.
#[global] Arguments digit_sub : simpl never.
#[global] Arguments digit_sub2 : simpl never.
#[global] Arguments digit_mul : simpl never.

(** ** Facts about digits *)

Lemma digit_base_eq : digit_base = 18446744073709551616.
Proof. reflexivity. Qed.

Lemma digit_base_pos : 0 < digit_base.
Proof. by rewrite digit_base_eq. Qed.

(** Expose the base where a proof needs its value. *)
Ltac numeric := unfold digit_ok in *; rewrite ?digit_base_eq in *; lia.

Lemma digit_mod z : digit z = z mod digit_base.
Proof. done. Qed.

Lemma twodigit_mod z : twodigit z = z mod (digit_base * digit_base).
Proof. done. Qed.

Lemma twodigit_small z : 0 <= z < digit_base * digit_base -> twodigit z = z.
Proof. intros. rewrite twodigit_mod. by apply Z.mod_small. Qed.

Lemma digit_small z : digit_ok z -> digit z = z.
Proof. intros. rewrite digit_mod. by apply Z.mod_small. Qed.

Lemma digit_bounds z : digit_ok (digit z).
Proof. rewrite digit_mod. apply Z.mod_pos_bound, digit_base_pos. Qed.

Lemma high_digit z : Z.shiftr z kDigitBits = z / digit_base.
Proof. by rewrite Z.shiftr_div_pow2. Qed.

Lemma digit_split z : digit z + digit_base * (z / digit_base) = z.
Proof. rewrite digit_mod. pose proof (Z.div_mod z digit_base). pose proof digit_base_pos. lia. Qed.

Lemma high_small z n : 0 <= z < digit_base * n -> 0 <= z / digit_base < n.
Proof. pose proof digit_base_pos. split; [apply Z.div_pos; lia|apply Z.div_lt_upper_bound; lia]. Qed.

Lemma two_split z : 0 <= z < digit_base * digit_base ->
  digit z + digit_base * digit (Z.shiftr z kDigitBits) = z.
Proof.
  intros Hz. rewrite high_digit, (digit_small (z / digit_base)).
  - apply digit_split.
  - by apply high_small.
Qed.

Lemma digit_add2_spec a b r c : digit_add2 a b = (r, c) -> digit_ok a -> digit_ok b ->
  r + digit_base * c = a + b /\ digit_ok r /\ 0 <= c <= 1.
Proof.
  unfold digit_add2. intros [= <- <-] Ha Hb. rewrite twodigit_small by numeric.
  pose proof (two_split (a + b) ltac:(numeric)) as Hs. pose proof (digit_bounds (a + b)) as Hd.
  pose proof (digit_bounds (Z.shiftr (a + b) kDigitBits)). split_all; [done|apply Hd|numeric|numeric].
Qed.

Lemma digit_add3_spec a b c r c' : digit_add3 a b c = (r, c') -> digit_ok a -> digit_ok b -> digit_ok c ->
  r + digit_base * c' = a + b + c /\ digit_ok r /\ 0 <= c' <= 2.
Proof.
  unfold digit_add3. intros [= <- <-] Ha Hb Hc. rewrite (twodigit_small (a + b)), twodigit_small by numeric.
  pose proof (two_split (a + b + c) ltac:(numeric)) as Hs. pose proof (digit_bounds (a + b + c)) as Hd.
  pose proof (digit_bounds (Z.shiftr (a + b + c) kDigitBits)). split_all; [done|apply Hd|numeric|numeric].
Qed.

(** A carry of at most one stays at most one. *)
Lemma digit_add3_carry a b c r c' : digit_add3 a b c = (r, c') -> digit_ok a -> digit_ok b -> 0 <= c <= 1 ->
  r + digit_base * c' = a + b + c /\ digit_ok r /\ 0 <= c' <= 1.
Proof.
  intros He Ha Hb Hc. destruct (digit_add3_spec _ _ _ _ _ He Ha Hb ltac:(numeric)) as (? & ? & ?).
  split_all; numeric.
Qed.

(** The borrow of a difference is the parity of its high digit. *)
Lemma borrow_bit z : - digit_base <= z < digit_base ->
  digit (twodigit z) - digit_base * digit (Z.land (Z.shiftr (twodigit z) kDigitBits) 1) = z /\
  0 <= digit (Z.land (Z.shiftr (twodigit z) kDigitBits) 1) <= 1.
Proof.
  intros Hz. pose proof digit_base_pos. rewrite high_digit. change 1 with (Z.ones 1) at 1 2 3. rewrite Z.land_ones by done.
  change (2 ^ 1) with 2.
  assert (twodigit z = if decide (z < 0) then z + digit_base * digit_base else z) as ->.
  { case_decide; [|apply twodigit_small; nia].
    rewrite twodigit_mod. rewrite <- (Z.mod_small (z + _) (digit_base * digit_base)) by nia.
    rewrite Z.add_mod, Z.mod_same, Z.add_0_r, Z.mod_mod by nia. done. }
  case_decide.
  - assert ((z + digit_base * digit_base) / digit_base = digit_base - 1) as ->.
    { symmetry. apply (Z.div_unique_pos _ _ _ (z + digit_base)); lia. }
    change ((digit_base - 1) mod 2) with 1. change (digit 1) with 1. rewrite digit_mod, Z.mod_add, <- (Z.mod_add z 1), Z.mod_small by lia. lia.
  - rewrite Z.div_small, Zmod_0_l by lia. change (digit 0) with 0. rewrite digit_mod, Z.mod_small by lia. lia.
Qed.

Lemma digit_sub_spec a b r c : digit_sub a b = (r, c) -> digit_ok a -> digit_ok b ->
  r - digit_base * c = a - b /\ digit_ok r /\ 0 <= c <= 1.
Proof.
  unfold digit_sub. intros [= <- <-] Ha Hb. destruct (borrow_bit (a - b)); [numeric|].
  pose proof (digit_bounds (twodigit (a - b))). done.
Qed.

Lemma digit_sub2_spec a b c r c' : digit_sub2 a b c = (r, c') -> digit_ok a -> digit_ok b -> 0 <= c <= 1 ->
  r - digit_base * c' = a - b - c /\ digit_ok r /\ 0 <= c' <= 1.
Proof.
  unfold digit_sub2. rewrite (twodigit_mod (b + c)). intros [= <- <-] Ha Hb Hc.
  rewrite (Z.mod_small (b + c)) by numeric. replace (a - (b + c)) with (a - b - c) by lia.
  destruct (borrow_bit (a - b - c)); [numeric|]. pose proof (digit_bounds (twodigit (a - b - c))). done.
Qed.

Lemma digit_mul_spec a b l h : digit_mul a b = (l, h) -> digit_ok a -> digit_ok b ->
  l + digit_base * h = a * b /\ digit_ok l /\ digit_ok h.
Proof.
  unfold digit_mul. intros [= <- <-] Ha Hb. pose proof (digit_bounds (a * b)).
  pose proof (digit_bounds (Z.shiftr (a * b) kDigitBits)). unfold digit_ok in *.
  rewrite twodigit_small by nia. split; [apply two_split; nia|done].
Qed.

(** A digit and a carry are determined by their sum. *)
Lemma split_unique r c r' c' : digit_ok r -> digit_ok r' -> r + digit_base * c = r' + digit_base * c' -> r = r' /\ c = c'.
Proof. intros Hr Hr' He. pose proof (Z.div_mod_unique digit_base c c' r r'). unfold digit_ok in *. lia. Qed.

Lemma pair_unique s (p q : Z * Z) : p.1 + s * digit_base * p.2 = q.1 + s * digit_base * q.2 -> s <> 0 ->
  digit_ok p.1 -> digit_ok q.1 -> p = q.
Proof.
  intros He Hs Hp Hq. destruct (split_unique p.1 (s * p.2) q.1 (s * q.2)) as [H1 H2]; [done..|lia|].
  destruct p, q; simpl in *. f_equal; [done|nia].
Qed.

(** A number close to zero leaves one of two quotients. *)
Lemma two_quotients z n : digit_base * n <= z < digit_base * (n + 2) -> z / digit_base = n \/ z / digit_base = n + 1.
Proof.
  intros Hz. pose proof digit_base_pos.
  assert (n <= z / digit_base < n + 2); [|lia].
  split; [apply Z.div_le_lower_bound; lia|apply Z.div_lt_upper_bound; lia].
Qed.

(** *** The portable helpers *)

Lemma portable_add2_eq a b : digit_ok a -> digit_ok b -> portable_add2 a b = digit_add2 a b.
Proof.
  intros Ha Hb. destruct (digit_add2 a b) as [r c] eqn:He. destruct (digit_add2_spec _ _ _ _ He Ha Hb) as (H1 & H2 & H3).
  apply (pair_unique 1); simpl; [|done|apply digit_bounds|done]. rewrite !Z.mul_1_l, H1.
  pose proof (digit_split (a + b)). destruct (digit_bounds (a + b)). unfold digit_ok in *.
  destruct (two_quotients (a + b) 0) as [Hq|Hq]; [lia|rewrite Hq in *..];
    destruct (Z.ltb_spec (digit (a + b)) a); lia.
Qed.

Lemma portable_add3_eq a b c : digit_ok a -> digit_ok b -> digit_ok c -> portable_add3 a b c = digit_add3 a b c.
Proof.
  intros Ha Hb Hc. destruct (digit_add3 a b c) as [r d] eqn:He.
  destruct (digit_add3_spec _ _ _ _ _ He Ha Hb Hc) as (H1 & H2 & H3). unfold portable_add3.
  pose proof (digit_split (a + b)). pose proof (digit_bounds (a + b)) as Hd.
  pose proof (digit_split (digit (a + b) + c)). pose proof (digit_bounds (digit (a + b) + c)) as Hd'.
  apply (pair_unique 1); simpl; [|done|done|done]. rewrite !Z.mul_1_l, H1. unfold digit_ok in *.
  destruct (two_quotients (a + b) 0) as [Hq|Hq]; [lia|rewrite Hq in *..];
    (destruct (two_quotients (digit (a + b) + c) 0) as [Hq'|Hq']; [lia|rewrite Hq' in *..]);
    destruct (Z.ltb_spec (digit (a + b)) a), (Z.ltb_spec (digit (digit (a + b) + c)) c);
    rewrite ?(eq_refl : digit (1 + 1) = 2), ?(eq_refl : digit (0 + 1) = 1); lia.
Qed.

Lemma portable_sub_eq a b : digit_ok a -> digit_ok b -> portable_sub a b = digit_sub a b.
Proof.
  intros Ha Hb. destruct (digit_sub a b) as [r c] eqn:He. destruct (digit_sub_spec _ _ _ _ He Ha Hb) as (H1 & H2 & H3).
  apply (pair_unique (-1)); simpl; [|done|apply digit_bounds|done].
  pose proof (digit_split (a - b)). destruct (digit_bounds (a - b)). unfold digit_ok in *.
  destruct (two_quotients (a - b) (-1)) as [Hq|Hq]; [lia|rewrite Hq in *..];
    destruct (Z.ltb_spec a (digit (a - b))); lia.
Qed.

Lemma portable_sub2_eq a b c : digit_ok a -> digit_ok b -> 0 <= c <= 1 -> portable_sub2 a b c = digit_sub2 a b c.
Proof.
  intros Ha Hb Hc. destruct (digit_sub2 a b c) as [r d] eqn:He.
  destruct (digit_sub2_spec _ _ _ _ _ He Ha Hb Hc) as (H1 & H2 & H3). unfold portable_sub2.
  pose proof (digit_split (a - b)). pose proof (digit_bounds (a - b)) as Hd.
  pose proof (digit_split (digit (a - b) - c)). pose proof (digit_bounds (digit (a - b) - c)) as Hd'.
  apply (pair_unique (-1)); simpl; [|done|done|done]. unfold digit_ok in *.
  destruct (two_quotients (a - b) (-1)) as [Hq|Hq]; [lia|rewrite Hq in *..];
    (destruct (two_quotients (digit (a - b) - c) (-1)) as [Hq'|Hq']; [lia|rewrite Hq' in *..]);
    destruct (Z.ltb_spec a (digit (a - b))), (Z.ltb_spec (digit (a - b)) c);
    rewrite ?(eq_refl : digit (1 + 1) = 2), ?(eq_refl : digit (0 + 1) = 1); lia.
Qed.

(** Halves of a digit. *)
Lemma half_base : kHalfDigitBase * kHalfDigitBase = digit_base.
Proof. reflexivity. Qed.

Lemma low_half a : Z.land a kHalfDigitMask = a mod kHalfDigitBase.
Proof. by apply (land_pow2_mask a 32). Qed.

Lemma high_half a : Z.shiftr a kHalfDigitBits = a / kHalfDigitBase.
Proof. by rewrite Z.shiftr_div_pow2. Qed.

Lemma shift_half a : 0 <= a -> digit (Z.shiftl a kHalfDigitBits) = kHalfDigitBase * (a mod kHalfDigitBase).
Proof.
  intros. rewrite Z.shiftl_mul_pow2 by done. change (2 ^ kHalfDigitBits) with kHalfDigitBase.
  rewrite digit_mod, <- half_base, Z.mul_comm. by apply Z.mul_mod_distr_l.
Qed.

Lemma halves a : digit_ok a ->
  a = kHalfDigitBase * (a / kHalfDigitBase) + a mod kHalfDigitBase /\
  0 <= a / kHalfDigitBase < kHalfDigitBase /\ 0 <= a mod kHalfDigitBase < kHalfDigitBase.
Proof.
  intros [H1 H2]. split; [by apply Z.div_mod|]. split; [|by apply Z.mod_pos_bound].
  split; [by apply Z.div_pos|by apply Z.div_lt_upper_bound].
Qed.

Lemma half_product x y : 0 <= x < kHalfDigitBase -> 0 <= y < kHalfDigitBase -> digit_ok (x * y).
Proof. intros. unfold digit_ok. rewrite <- half_base. nia. Qed.

Lemma half_shifted x : 0 <= x < kHalfDigitBase -> digit_ok (kHalfDigitBase * x).
Proof. intros. unfold digit_ok. rewrite <- half_base. nia. Qed.

Lemma portable_mul_eq a b : digit_ok a -> digit_ok b -> portable_mul a b = digit_mul a b.
Proof.
  intros Ha Hb. destruct (digit_mul a b) as [l h] eqn:He. destruct (digit_mul_spec _ _ _ _ He Ha Hb) as (H1 & H2 & H3).
  unfold portable_mul. rewrite !low_half, !high_half.
  destruct (halves a Ha) as (Ea & Ba & Ba'), (halves b Hb) as (Eb & Bb & Bb').
  set (al := a mod _) in *. set (ah := a / _) in *. set (bl := b mod _) in *. set (bh := b / _) in *.
  pose proof (half_product al bl ltac:(done) ltac:(done)). pose proof (half_product al bh ltac:(done) ltac:(done)) as P1.
  pose proof (half_product ah bl ltac:(done) ltac:(done)) as P2. pose proof (half_product ah bh ltac:(done) ltac:(done)).
  rewrite !(digit_small (_ * _)) by done. rewrite ?high_half.
  destruct (halves _ P1) as (E1 & B1 & B1'), (halves _ P2) as (E2 & B2 & B2').
  rewrite !shift_half by (unfold digit_ok in *; lia).
  rewrite portable_add3_eq by (try done; by apply half_shifted).
  destruct (digit_add3 _ _ _) as [low carry] eqn:Hadd.
  destruct (digit_add3_spec _ _ _ _ _ Hadd) as (A1 & A2 & A3); [done|by apply half_shifted..|].
  set (m1 := (al * bh) / _) in *. set (m2 := (ah * bl) / _) in *. set (n1 := (al * bh) mod _) in *. set (n2 := (ah * bl) mod _) in *.
  assert (low + digit_base * (m1 + m2 + ah * bh + carry) = a * b) as Hab.
  { rewrite Ea, Eb, <- half_base in *. nia. }
  unfold digit_ok in *. rewrite (digit_small (m1 + m2 + _ + _)) by (split; nia).
  apply (pair_unique 1); unfold digit_ok; simpl; lia.
Qed.

(** ** Facts about vectors *)

Definition weight (n : nat) : Z := digit_base ^ Z.of_nat n.

Lemma weight_0 : weight 0 = 1.
Proof. done. Qed.

Lemma weight_S n : weight (S n) = digit_base * weight n.
Proof. unfold weight. rewrite Nat2Z.inj_succ, Z.pow_succ_r by lia. done. Qed.

Lemma weight_add n m : weight (n + m) = weight n * weight m.
Proof. unfold weight. rewrite Nat2Z.inj_add, Z.pow_add_r by lia. done. Qed.

Lemma weight_pos n : 0 < weight n.
Proof. apply Z.pow_pos_nonneg; [apply digit_base_pos|lia]. Qed.

Lemma weight_mono n m : (n <= m)%nat -> weight n <= weight m.
Proof. intros. apply Z.pow_le_mono_r; [apply digit_base_pos|lia]. Qed.

#[export] Hint Resolve digit_base_pos weight_pos weight_mono digit_bounds : v8.

Lemma dval_app X Y : dval (X ++ Y) = dval X + weight (length X) * dval Y.
Proof. induction X as [|d X IH]; simpl; [rewrite weight_0; lia|]. rewrite IH, weight_S. lia. Qed.

Lemma dval_zeros n : dval (replicate n 0) = 0.
Proof. induction n as [|n IH]; [done|]. simpl. rewrite IH. lia. Qed.

Lemma zeros_ok n : digits_ok (replicate n 0).
Proof. apply Forall_replicate. by vm_compute. Qed.

Lemma dval_bounds X : digits_ok X -> 0 <= dval X < weight (length X).
Proof.
  induction 1 as [|d X Hd HX IH]; simpl; [done|]. rewrite weight_S. unfold digit_ok in *. nia.
Qed.

Lemma dval_snoc X d : dval (X ++ [d]) = dval X + weight (length X) * d.
Proof. rewrite dval_app. simpl. lia. Qed.

Lemma length_extend n zs : (length zs <= n)%nat -> length (extend n zs) = n.
Proof. intros. unfold extend. rewrite length_app, length_replicate. lia. Qed.

Lemma dval_extend n zs : dval (extend n zs) = dval zs.
Proof. unfold extend. rewrite dval_app, dval_zeros. lia. Qed.

Lemma extend_ok n zs : digits_ok zs -> digits_ok (extend n zs).
Proof. intros. apply Forall_app. split; [done|apply zeros_ok]. Qed.

Lemma dval_take_drop n X : dval X = dval (take n X) + weight (length (take n X)) * dval (drop n X).
Proof. by rewrite <- dval_app, take_drop. Qed.

Lemma take_ok n X : digits_ok X -> digits_ok (take n X).
Proof. apply Forall_take. Qed.

Lemma drop_ok n X : digits_ok X -> digits_ok (drop n X).
Proof. apply Forall_drop. Qed.

Lemma slice_ok X i n : digits_ok X -> digits_ok (slice X i n).
Proof. intros. by apply take_ok, drop_ok. Qed.

Lemma at_lookup X i : (i < length X)%nat -> X !! i = Some (X.[i]).
Proof. revert i. induction X as [|d X IH]; intros [|i] Hi; simpl in *; try lia; [done|]. apply IH. lia. Qed.

Lemma out_of_range (X : list Z) i : (length X <= i)%nat -> X.[i] = 0.
Proof. apply nth_overflow. Qed.

Lemma digit_at X i : digits_ok X -> digit_ok (X.[i]).
Proof.
  intros HX. destruct (decide (i < length X)%nat) as [Hi|Hi]; [|rewrite out_of_range by lia; by vm_compute].
  by eapply Forall_lookup_1, at_lookup.
Qed.

Lemma app_ok X Y : digits_ok X -> digits_ok Y -> digits_ok (X ++ Y).
Proof. by apply Forall_app_2. Qed.

#[export] Hint Resolve zeros_ok extend_ok take_ok drop_ok slice_ok digit_at app_ok : v8.

(** The value of a vector determines its digits. *)
Lemma dval_inj X Y : digits_ok X -> digits_ok Y -> length X = length Y -> dval X = dval Y -> X = Y.
Proof.
  intros HX. revert Y. induction HX as [|d X Hd HX IH]; intros [|e Y] HY; try done.
  apply Forall_cons in HY as [He HY]. simpl. intros [= Hl] Hv.
  destruct (split_unique d (dval X) e (dval Y)) as [-> Hx]; [done..|]. f_equal. by apply IH.
Qed.

Lemma take_at (X : list Z) n i : (i < n)%nat -> (take n X).[i] = X.[i].
Proof. revert X i. induction n as [|n IH]; intros [|d X] [|i] Hi; simpl; try done; try lia. apply IH. lia. Qed.

Lemma drop_at (X : list Z) n i : (drop n X).[i] = X.[(n + i)%nat].
Proof. revert X. induction n as [|n IH]; intros [|d X]; simpl; [done|done|by destruct i|apply IH]. Qed.

(** One more digit. *)
Lemma take_S_total (X : list Z) n : (n < length X)%nat -> take (S n) X = take n X ++ [X.[n]].
Proof. intros Hn. by apply take_S_r, at_lookup. Qed.

Lemma drop_S_total (X : list Z) n : (n < length X)%nat -> drop n X = X.[n] :: drop (S n) X.
Proof. intros Hn. by apply drop_S, at_lookup. Qed.

(** One digit of a vector, and the digits below and above it. *)
Lemma dval_at X k : dval X = dval (take k X) + weight k * (X.[k] + digit_base * dval (drop (S k) X)).
Proof.
  revert X. induction k as [|k IH]; intros [|d X]; try (simpl; lia).
  { simpl. rewrite weight_0, skipn_O. lia. }
  simpl. rewrite (IH X), weight_S. lia.
Qed.

Lemma dval_drop_zero X k : digits_ok X -> dval X < weight k -> (k <= length X)%nat -> dval (drop k X) = 0.
Proof.
  intros HX Hv Hk. pose proof (dval_bounds _ (take_ok k X HX)). pose proof (dval_bounds _ (drop_ok k X HX)).
  rewrite (dval_take_drop k X), length_take, Nat.min_l in * by lia. pose proof (weight_pos k). nia.
Qed.

Lemma dval_take_small X k : digits_ok X -> 0 <= dval (take k X) < weight k.
Proof.
  intros HX. pose proof (dval_bounds _ (take_ok k X HX)) as Hb. rewrite length_take in Hb.
  pose proof (weight_mono (Nat.min k (length X)) k ltac:(lia)). lia.
Qed.

Lemma dval_take_all X n : digits_ok X -> dval X < weight n -> dval (take n X) = dval X.
Proof.
  intros HX Hv. destruct (decide (n <= length X)%nat); [|by rewrite take_ge by lia].
  rewrite (dval_take_drop n X), (dval_drop_zero X n) by done. lia.
Qed.

(** Updating one digit. *)
Lemma dval_insert X k d : (k < length X)%nat -> dval (<[k := d]> X) = dval X + weight k * (d - X.[k]).
Proof.
  intros Hk. rewrite (dval_at X k), insert_take_drop, dval_app, length_take, Nat.min_l by lia. simpl. lia.
Qed.

Lemma insert_ok X k d : digits_ok X -> digit_ok d -> digits_ok (<[k := d]> X).
Proof. apply Forall_insert. Qed.

(** *** Normalization *)

Lemma Normalize_loop_spec X n : (n <= length X)%nat ->
  (Normalize_loop X n <= n)%nat /\ dval (take (Normalize_loop X n) X) = dval (take n X) /\
  (Normalize_loop X n = 0%nat \/ X.[Normalize_loop X n - 1] <> 0).
Proof.
  induction n as [|n IH]; intros Hn; simpl; [by auto|].
  destruct (Z.eqb_spec (X.[n]) 0) as [He|He].
  - destruct IH as (H1 & H2 & H3); [lia|]. split_all; [lia| |done].
    rewrite H2, (take_S_total X n) by lia. rewrite dval_snoc, He. lia.
  - split_all; [lia|done|right]. simpl. by rewrite Nat.sub_0_r.
Qed.

Lemma dval_Normalize X : dval (Normalize X) = dval X.
Proof. destruct (Normalize_loop_spec X (length X)) as (_ & He & _); [done|]. unfold Normalize. by rewrite He, take_ge. Qed.

Lemma Normalize_ok X : digits_ok X -> digits_ok (Normalize X).
Proof. apply take_ok. Qed.

Lemma length_Normalize X : (length (Normalize X) <= length X)%nat.
Proof. unfold Normalize. rewrite length_take. lia. Qed.

Lemma Normalize_normalized X : IsDigitNormalized (Normalize X) = true.
Proof.
  destruct (Normalize_loop_spec X (length X)) as (Hl & _ & H0); [done|]. unfold IsDigitNormalized, msd, Normalize.
  rewrite length_take, Nat.min_l by done.
  destruct H0 as [->|H0]; [done|]. destruct (Normalize_loop X (length X)) as [|n]; [done|]. simpl in *.
  rewrite Nat.sub_0_r in *. rewrite take_at by lia. by destruct (Z.eqb_spec (X.[n]) 0).
Qed.

Lemma normalized_cases X : IsDigitNormalized X = true -> X = [] \/ (1 <= length X)%nat /\ msd X <> 0.
Proof.
  unfold IsDigitNormalized. intros H%orb_true_iff. destruct X as [|d X]; [by left|right]. split; [simpl; lia|].
  destruct H as [H|H]; [done|]. by apply negb_true_iff, Z.eqb_neq in H.
Qed.

(** The top digit bounds the value. *)
Lemma msd_split X : X <> [] -> dval X = dval (take (length X - 1) X) + weight (length X - 1) * msd X.
Proof.
  intros H0. assert (length X <> 0%nat) by (by destruct X).
  rewrite <- (take_ge X (length X)) at 1 by done. replace (length X) with (S (length X - 1)) at 1 by lia.
  rewrite take_S_total, dval_snoc, length_take, Nat.min_l by lia. done.
Qed.

Lemma msd_bounds X : digits_ok X -> X <> [] ->
  weight (length X - 1) * msd X <= dval X < weight (length X - 1) * (msd X + 1).
Proof.
  intros HX H0. rewrite (msd_split X H0). pose proof (dval_bounds _ (take_ok (length X - 1) _ HX)) as Hb.
  rewrite length_take, Nat.min_l in Hb by lia. lia.
Qed.

Lemma normalized_bound X : digits_ok X -> IsDigitNormalized X = true -> X <> [] -> weight (length X - 1) <= dval X.
Proof.
  intros HX [->|[Hl Hm]]%normalized_cases H0; [done|]. pose proof (msd_bounds X HX H0).
  pose proof (weight_pos (length X - 1)). destruct (digit_at X (length X - 1) HX) as [? _]. fold (msd X) in *. nia.
Qed.

Lemma normalized_zero X : digits_ok X -> IsDigitNormalized X = true -> dval X = 0 -> X = [].
Proof.
  intros HX Hn H0. destruct X as [|d X]; [done|]. pose proof (normalized_bound _ HX Hn ltac:(done)).
  pose proof (weight_pos (length (d :: X) - 1)). lia.
Qed.

(** A normalized vector is no longer than its value needs. *)
Lemma normalized_length X n : digits_ok X -> IsDigitNormalized X = true -> dval X < weight n -> (length X <= n)%nat.
Proof.
  intros HX Hn Hv. destruct X as [|d X]; [simpl; lia|]. pose proof (normalized_bound _ HX Hn ltac:(done)) as Hb.
  apply Nat.nlt_ge. intros Hl. pose proof (weight_mono n (length (d :: X) - 1) ltac:(lia)). lia.
Qed.

(** *** Comparison *)

Lemma Compare_loop_spec A B n : digits_ok A -> digits_ok B -> (n <= length A)%nat -> (n <= length B)%nat ->
  Compare_loop A B n = Z.sgn (dval (take n A) - dval (take n B)).
Proof.
  intros HA HB. induction n as [|n IH]; intros Hn Hm; [done|]. simpl.
  rewrite !take_S_total, !dval_snoc, !length_take, !Nat.min_l by lia.
  pose proof (dval_bounds _ (take_ok n _ HA)) as BA. pose proof (dval_bounds _ (take_ok n _ HB)) as BB.
  rewrite length_take, Nat.min_l in BA, BB by lia. pose proof (weight_pos n).
  destruct (Z.eqb_spec (A.[n]) (B.[n])) as [->|Hd]; [rewrite IH by lia; f_equal; lia|].
  destruct (Z.ltb_spec (B.[n]) (A.[n])); symmetry; [apply Z.sgn_pos; nia|apply Z.sgn_neg; nia].
Qed.

Lemma CompareNoNormalize_spec A B : digits_ok A -> digits_ok B ->
  IsDigitNormalized A = true -> IsDigitNormalized B = true ->
  Z.sgn (CompareNoNormalize A B) = Z.sgn (dval A - dval B).
Proof.
  intros HA HB NA NB. unfold CompareNoNormalize.
  assert (forall X Y, digits_ok X -> digits_ok Y -> IsDigitNormalized X = true -> (length Y < length X)%nat -> dval Y < dval X) as Hlt.
  { intros X Y HX HY NX Hl. destruct X as [|x X]; [simpl in Hl; lia|].
    pose proof (normalized_bound _ HX NX ltac:(done)). pose proof (dval_bounds _ HY).
    pose proof (weight_mono (length Y) (length (x :: X) - 1) ltac:(lia)). lia. }
  destruct (Z.eqb_spec (Z.of_nat (length A) - Z.of_nat (length B)) 0) as [He|He]; simpl.
  - rewrite Compare_loop_spec, !take_ge by (done || lia). apply Z.sgn_sgn.
  - destruct (decide (length B < length A)%nat).
    + specialize (Hlt A B HA HB NA ltac:(lia)). rewrite !Z.sgn_pos by lia. done.
    + specialize (Hlt B A HB HA NB ltac:(lia)). rewrite !Z.sgn_neg by lia. done.
Qed.

Lemma Compare_spec A B : digits_ok A -> digits_ok B -> Z.sgn (Compare A B) = Z.sgn (dval A - dval B).
Proof.
  intros HA HB. unfold Compare.
  rewrite CompareNoNormalize_spec, !dval_Normalize by (apply Normalize_ok || apply Normalize_normalized; done). done.
Qed.

(** Orders as conditions of the code state them. *)
Lemma sgn_cases c z : Z.sgn c = Z.sgn z -> (c < 0 <-> z < 0) /\ (c = 0 <-> z = 0) /\ (0 < c <-> 0 < z).
Proof. intros. lia. Qed.

Lemma Compare_cases A B : digits_ok A -> digits_ok B ->
  (Compare A B < 0 <-> dval A < dval B) /\ (Compare A B = 0 <-> dval A = dval B) /\ (0 < Compare A B <-> dval B < dval A).
Proof. intros HA HB. pose proof (sgn_cases _ _ (Compare_spec A B HA HB)). lia. Qed.

Lemma CompareNoNormalize_cases A B : digits_ok A -> digits_ok B ->
  IsDigitNormalized A = true -> IsDigitNormalized B = true ->
  (CompareNoNormalize A B < 0 <-> dval A < dval B) /\ (CompareNoNormalize A B = 0 <-> dval A = dval B) /\
  (0 < CompareNoNormalize A B <-> dval B < dval A).
Proof. intros HA HB NA NB. pose proof (sgn_cases _ _ (CompareNoNormalize_spec A B HA HB NA NB)). lia. Qed.

Lemma GreaterThanOrEqual_spec A B : digits_ok A -> digits_ok B -> GreaterThanOrEqual A B = true <-> dval B <= dval A.
Proof. intros HA HB. unfold GreaterThanOrEqual. rewrite Z.leb_le. pose proof (Compare_cases A B HA HB). lia. Qed.

(** *** Loops with a carry

    When each iteration produces a digit and a carry whose weights add up to what it was
    given, so does the loop. [g a] is what an iteration adds, [w c] the weight of a carry. *)
Section carry.
Context {A C : Type} (f : A -> C -> Z * C) (g : A -> Z) (w : C -> Z) (ok : A -> Prop) (I : C -> Prop).
Hypothesis step : forall a c d c', ok a -> I c -> f a c = (d, c') ->
  d + digit_base * w c' = g a + w c /\ digit_ok d /\ I c'.

Lemma carry_loop_spec l c ds c' : Forall ok l -> I c -> carry_loop f l c = (ds, c') ->
  dval ds + weight (length l) * w c' = dval (g <$> l) + w c /\ digits_ok ds /\ length ds = length l /\ I c'.
Proof using step.
  intros Hl. revert c ds c'. induction Hl as [|a l Ha Hl IH]; csimpl; intros c ds c' Hc He.
  { injection He as <- <-. rewrite weight_0. split_all; [simpl; lia|constructor|done|done]. }
  destruct (f a c) as [d c1] eqn:Hf. destruct (carry_loop f l c1) as [ds1 c2] eqn:Hr. injection He as <- <-.
  destruct (step _ _ _ _ Ha Hc Hf) as (H1 & H2 & H3). destruct (IH _ _ _ H3 Hr) as (H4 & H5 & H6 & H7).
  apply (f_equal (Z.mul digit_base)) in H4.
  split_all; [cbn [dval]; rewrite weight_S; lia|by constructor|simpl; by rewrite H6|done].
Qed.
End carry.

Lemma carry_loop_app {A C} (f : A -> C -> Z * C) l1 l2 c :
  carry_loop f (l1 ++ l2) c =
  let '(d1, c1) := carry_loop f l1 c in let '(d2, c2) := carry_loop f l2 c1 in (d1 ++ d2, c2).
Proof.
  revert c. induction l1 as [|a l1 IH]; intros c; simpl; [by destruct (carry_loop f l2 c)|].
  destruct (f a c) as [d c']. rewrite IH. destruct (carry_loop f l1 c') as [d1 c1]. by destruct (carry_loop f l2 c1).
Qed.

(** What loops over one or two vectors add. *)
Lemma dval_scale k X : dval ((fun d => k * d) <$> X) = k * dval X.
Proof. induction X as [|d X IH]; csimpl; [lia|]. rewrite IH. lia. Qed.

Lemma dval_zip (F : Z -> Z -> Z) k1 k2 X Y : (forall x y, F x y = k1 * x + k2 * y) -> length X = length Y ->
  dval ((fun p => F p.1 p.2) <$> zip X Y) = k1 * dval X + k2 * dval Y.
Proof.
  intros HF. revert Y. induction X as [|x X IH]; intros [|y Y] Hl; csimpl; simpl in Hl; try lia.
  rewrite HF, IH by lia. lia.
Qed.

Lemma zip_ok X Y : digits_ok X -> digits_ok Y -> Forall (fun p => digit_ok p.1 /\ digit_ok p.2) (zip X Y).
Proof.
  intros HX. revert Y. induction HX as [|x X Hx HX IH]; intros [|y Y] HY; try constructor.
  - apply Forall_cons in HY as [? ?]. done.
  - apply Forall_cons in HY as [? ?]. by apply IH.
Qed.

Lemma length_zip_eq {A} (X Y : list A) : length X = length Y -> length (zip X Y) = length X.
Proof. intros. rewrite length_zip_with. lia. Qed.
