(* ===== verification/DigitsLinear.v ===== *)
(** Additions, subtractions and small shifts of digit vectors: src/src/bigint/bigint-inl.h,
    src/src/bigint/vector-arithmetic-inl.h and src/src/bigint/div-helpers-inl.h.

    [Z_len] is the length of the result the caller allocated; where a loop of the code is
    bounded by the carry alone, the result is [None] when it would run past the vector. *)
From S2P Require Import Prelude Conversions Digits.

(** Z[i] = top = carry; carry = 0; for the digits above the operands. *)
Definition carry_fill (n : nat) (carry : Z) : list Z :=
  match n with
  | O => []
  | S n => carry :: replicate n 0
  end.

(** The last digit that was written. *)
Definition top_digit (zs : list Z) : Z := default 0 (last zs).

Definition Add (Z_len : nat) (X Y : list Z) : list Z * Z :=
  let '(X, Y) := if (length X <? length Y)%nat then (Y, X) else (X, Y) in
  let '(z1, carry) := carry_loop (fun p carry => digit_add3 p.1 p.2 carry) (zip X Y) 0 in
  let '(z2, carry) := carry_loop digit_add2 (drop (length Y) X) carry in
  let zs := z1 ++ z2 ++ carry_fill (Z_len - length X) carry in
  (zs, top_digit zs).

Definition Subtract (Z_len : nat) (X Y : list Z) : list Z * Z :=
  let '(z1, borrow) := carry_loop (fun p borrow => digit_sub2 p.1 p.2 borrow) (zip X Y) 0 in
  let '(z2, borrow) := carry_loop digit_sub (drop (length Y) X) borrow in
  let zs := extend Z_len (z1 ++ z2) in
  (zs, top_digit zs).

Definition SubtractWithNormalization (Z_len : nat) (X Y : list Z) : list Z :=
  (Subtract Z_len (Normalize X) (Normalize Y)).1.

Definition AddSigned (Z_len : nat) (X : list Z) (x_negative : bool) (Y : list Z) (y_negative : bool) : list Z * bool :=
  if eqb x_negative y_negative then ((Add Z_len X Y).1, x_negative)
  else
    let X := Normalize X in
    let Y := Normalize Y in
    if 0 <=? CompareNoNormalize X Y then ((Subtract Z_len X Y).1, x_negative)
    else ((Subtract Z_len Y X).1, negb x_negative).

Definition SubtractSigned (Z_len : nat) (X : list Z) (x_negative : bool) (Y : list Z) (y_negative : bool) : list Z * bool :=
  if negb (eqb x_negative y_negative) then ((Add Z_len X Y).1, x_negative)
  else
    let X := Normalize X in
    let Y := Normalize Y in
    if 0 <=? CompareNoNormalize X Y then ((Subtract Z_len X Y).1, x_negative)
    else ((Subtract Z_len Y X).1, negb x_negative).

(** A loop that ends when the carry is zero; the digits above are copied. *)
Fixpoint carry_until (f : Z -> Z -> Z * Z) (l : list Z) (c : Z) : list Z * Z :=
  match l with
  | [] => ([], c)
  | x :: l' =>
    if c =? 0 then (l, 0)
    else
      let '(d, c) := f x c in
      let '(ds, c) := carry_until f l' c in
      (d :: ds, c)
  end.

Definition AddOne (Z_len : nat) (X : list Z) : list Z :=
  let '(zs, carry) := carry_until digit_add2 X 1 in
  extend Z_len (zs ++ if 0 <? carry then [carry] else []).

Definition SubtractOne (Z_len : nat) (X : list Z) : option (list Z) :=
  let '(zs, borrow) := carry_until digit_sub X 1 in
  if 0 <? borrow then None else Some (extend Z_len zs).

(** The loops of X += y and X -= y. *)
Definition do_carry (f : Z -> Z -> Z * Z) (X : list Z) (y : Z) : option (list Z) :=
  match X with
  | [] => None
  | x :: X' =>
    let '(d, c) := f x y in
    let '(ds, c) := carry_until f X' c in
    if c =? 0 then Some (d :: ds) else None
  end.

(** Add(RWDigits X, digit_t y) and Subtract(RWDigits X, digit_t y). *)
Definition Add_digit (X : list Z) (y : Z) : option (list Z) := do_carry digit_add2 X y.
Definition Subtract_digit (X : list Z) (y : Z) : option (list Z) := do_carry digit_sub X y.

(** Z += X and Z -= X over the digits of X only. *)
Definition InplaceAddAndReturnCarry (zs X : list Z) : list Z * Z :=
  let '(ds, carry) := carry_loop (fun p carry => digit_add3 p.1 p.2 carry) (zip zs X) 0 in
  (ds ++ drop (length X) zs, carry).

Definition InplaceSubAndReturnBorrow (zs X : list Z) : list Z * Z :=
  let '(ds, borrow) := carry_loop (fun p borrow => digit_sub2 p.1 p.2 borrow) (zip zs X) 0 in
  (ds ++ drop (length X) zs, borrow).

(** Z := X + Y and Z := X - Y over the digits of Y, the other digits of Z are kept. *)
Definition AddAndReturnCarry (zs X Y : list Z) : list Z * Z :=
  let '(ds, carry) := carry_loop (fun p carry => digit_add3 p.1 p.2 carry) (zip X Y) 0 in
  (ds ++ drop (length Y) zs, carry).

Definition SubtractAndReturnBorrow (zs X Y : list Z) : list Z * Z :=
  let '(ds, borrow) := carry_loop (fun p borrow => digit_sub2 p.1 p.2 borrow) (zip X Y) 0 in
  (ds ++ drop (length Y) zs, borrow).

(** Z += X and Z -= X over all digits of Z. *)
Definition AddAndReturnOverflow (zs X : list Z) : list Z * Z :=
  let X := Normalize X in
  if (length X =? 0)%nat then (zs, 0)
  else
    let '(z1, carry) := carry_loop (fun p carry => digit_add3 p.1 p.2 carry) (zip zs X) 0 in
    let '(z2, carry) := carry_until digit_add2 (drop (length X) zs) carry in
    (z1 ++ z2, carry).

Definition SubAndReturnBorrow (zs X : list Z) : list Z * Z :=
  let X := Normalize X in
  if (length X =? 0)%nat then (zs, 0)
  else
    let '(z1, borrow) := carry_loop (fun p borrow => digit_sub2 p.1 p.2 borrow) (zip zs X) 0 in
    let '(z2, borrow) := carry_until digit_sub (drop (length X) zs) borrow in
    (z1 ++ z2, borrow).

(** ** Shifts by less than a digit (div-helpers-inl.h) *)

Definition Copy (Z_len : nat) (X : list Z) : list Z := extend Z_len X.

Definition shift_left_digit (shift d carry : Z) : Z * Z :=
  (Z.lor (digit (Z.shiftl d shift)) carry, Z.shiftr d (kDigitBits - shift)).

Definition LeftShift_int (Z_len : nat) (X : list Z) (shift : Z) : list Z :=
  if shift =? 0 then Copy Z_len X
  else
    let '(zs, carry) := carry_loop (shift_left_digit shift) X 0 in
    extend Z_len (zs ++ if (length X <? Z_len)%nat then [carry] else []).

(** The loop of a right shift: the carry holds the upper bits of the previous digit. *)
Definition shift_right_digit (shift d carry : Z) : Z * Z :=
  (Z.lor (digit (Z.shiftl d (kDigitBits - shift))) carry, Z.shiftr d shift).

Definition shift_right_loop (X : list Z) (shift : Z) : list Z :=
  let '(zs, carry) := carry_loop (shift_right_digit shift) (drop 1 X) (Z.shiftr (X.[O]) shift) in
  zs ++ [carry].

Definition RightShift_int (Z_len : nat) (X : list Z) (shift : Z) : list Z :=
  let X := Normalize X in
  if shift =? 0 then Copy Z_len X
  else extend Z_len (if (0 <? length X)%nat then shift_right_loop X shift else []).

(** The first [count] digits of Z := A. *)
Definition PutAt (zs A : list Z) (count : nat) : list Z :=
  extend count (take count A) ++ drop count zs.

(** ** The loops *)

Lemma zip_take (X Y : list Z) : zip (take (length Y) X) Y = zip X Y.
Proof. revert Y. induction X as [|x X IH]; intros [|y Y]; try done. simpl. f_equal. apply IH. Qed.

Lemma add3_loop_spec X Y c ds c' : digits_ok X -> digits_ok Y -> length X = length Y -> 0 <= c <= 1 ->
  carry_loop (fun p carry => digit_add3 p.1 p.2 carry) (zip X Y) c = (ds, c') ->
  dval ds + weight (length X) * c' = dval X + dval Y + c /\ digits_ok ds /\ length ds = length X /\ 0 <= c' <= 1.
Proof.
  intros HX HY Hl Hc He.
  eapply (carry_loop_spec _ (fun p => p.1 + p.2) id (fun p => digit_ok p.1 /\ digit_ok p.2) (fun c => 0 <= c <= 1)) in He as (H1 & H2 & H3 & H4);
    [|clear; intros [x y] c0 d c1 [Hx Hy] Hc Hf; destruct (digit_add3_carry _ _ _ _ _ Hf Hx Hy Hc) as (? & ? & ?); unfold id; split_all; (done || lia)|by apply zip_ok|done].
  rewrite (dval_zip (fun x y => x + y) 1 1), length_zip_eq in * by (done || lia). unfold id in H1. split_all; [lia|done..|lia|lia].
Qed.

Lemma sub2_loop_spec X Y c ds c' : digits_ok X -> digits_ok Y -> length X = length Y -> 0 <= c <= 1 ->
  carry_loop (fun p borrow => digit_sub2 p.1 p.2 borrow) (zip X Y) c = (ds, c') ->
  dval ds - weight (length X) * c' = dval X - dval Y - c /\ digits_ok ds /\ length ds = length X /\ 0 <= c' <= 1.
Proof.
  intros HX HY Hl Hc He.
  eapply (carry_loop_spec _ (fun p => p.1 - p.2) Z.opp (fun p => digit_ok p.1 /\ digit_ok p.2) (fun c => 0 <= c <= 1)) in He as (H1 & H2 & H3 & H4);
    [|clear; intros [x y] c0 d c1 [Hx Hy] Hc Hf; destruct (digit_sub2_spec _ _ _ _ _ Hf Hx Hy Hc) as (? & ? & ?); split_all; (done || lia)|by apply zip_ok|done].
  rewrite (dval_zip (fun x y => x - y) 1 (-1)), length_zip_eq in * by (done || lia). split_all; [lia|done..|lia|lia].
Qed.

Lemma add2_loop_spec X c ds c' : digits_ok X -> 0 <= c <= 1 -> carry_loop digit_add2 X c = (ds, c') ->
  dval ds + weight (length X) * c' = dval X + c /\ digits_ok ds /\ length ds = length X /\ 0 <= c' <= 1.
Proof.
  intros HX Hc He.
  eapply (carry_loop_spec _ id id digit_ok (fun c => 0 <= c <= 1)) in He as (H1 & H2 & H3 & H4);
    [|clear; intros x c0 d c1 Hx Hc Hf; destruct (digit_add2_spec _ _ _ _ Hf Hx ltac:(numeric)) as (? & ? & ?); unfold id; split_all; (done || lia)|done|done].
  rewrite list_fmap_id in H1. unfold id in H1. split_all; [lia|done..|lia|lia].
Qed.

Lemma sub_loop_spec X c ds c' : digits_ok X -> 0 <= c <= 1 -> carry_loop digit_sub X c = (ds, c') ->
  dval ds - weight (length X) * c' = dval X - c /\ digits_ok ds /\ length ds = length X /\ 0 <= c' <= 1.
Proof.
  intros HX Hc He.
  eapply (carry_loop_spec _ id Z.opp digit_ok (fun c => 0 <= c <= 1)) in He as (H1 & H2 & H3 & H4);
    [|clear; intros x c0 d c1 Hx Hc Hf; destruct (digit_sub_spec _ _ _ _ Hf Hx ltac:(numeric)) as (? & ? & ?); unfold id; split_all; (done || lia)|done|done].
  rewrite list_fmap_id in H1. split_all; [lia|done..|lia|lia].
Qed.

(** Both loops, over the common digits and over the rest of the longer operand. *)
Lemma add_loops_spec X Y ds c ds' c' : digits_ok X -> digits_ok Y -> (length Y <= length X)%nat ->
  carry_loop (fun p carry => digit_add3 p.1 p.2 carry) (zip X Y) 0 = (ds, c) ->
  carry_loop digit_add2 (drop (length Y) X) c = (ds', c') ->
  dval (ds ++ ds') + weight (length X) * c' = dval X + dval Y /\ digits_ok (ds ++ ds') /\
  length (ds ++ ds') = length X /\ 0 <= c' <= 1.
Proof.
  intros HX HY Hl. rewrite <- zip_take. intros H1 H2.
  assert (length (take (length Y) X) = length Y) as Ht by (rewrite length_take; lia).
  destruct (add3_loop_spec _ _ 0 _ _ (take_ok _ _ HX) HY Ht ltac:(lia) H1) as (A1 & A2 & A3 & A4).
  destruct (add2_loop_spec _ _ _ _ (drop_ok _ _ HX) A4 H2) as (B1 & B2 & B3 & B4).
  rewrite length_drop in *. rewrite Ht in *. split_all; [|by apply app_ok|rewrite length_app; lia|lia|lia].
  rewrite dval_app, A3. replace (weight (length X)) with (weight (length Y) * weight (length X - length Y)) by (rewrite <- weight_add; f_equal; lia).
  pose proof (dval_take_drop (length Y) X) as Hv. rewrite Ht in Hv. apply (f_equal (Z.mul (weight (length Y)))) in B1. lia.
Qed.

Lemma sub_loops_spec X Y ds c ds' c' : digits_ok X -> digits_ok Y -> (length Y <= length X)%nat ->
  carry_loop (fun p borrow => digit_sub2 p.1 p.2 borrow) (zip X Y) 0 = (ds, c) ->
  carry_loop digit_sub (drop (length Y) X) c = (ds', c') ->
  dval (ds ++ ds') - weight (length X) * c' = dval X - dval Y /\ digits_ok (ds ++ ds') /\
  length (ds ++ ds') = length X /\ 0 <= c' <= 1.
Proof.
  intros HX HY Hl. rewrite <- zip_take. intros H1 H2.
  assert (length (take (length Y) X) = length Y) as Ht by (rewrite length_take; lia).
  destruct (sub2_loop_spec _ _ 0 _ _ (take_ok _ _ HX) HY Ht ltac:(lia) H1) as (A1 & A2 & A3 & A4).
  destruct (sub_loop_spec _ _ _ _ (drop_ok _ _ HX) A4 H2) as (B1 & B2 & B3 & B4).
  rewrite length_drop in *. rewrite Ht in *. split_all; [|by apply app_ok|rewrite length_app; lia|lia|lia].
  rewrite dval_app, A3. replace (weight (length X)) with (weight (length Y) * weight (length X - length Y)) by (rewrite <- weight_add; f_equal; lia).
  pose proof (dval_take_drop (length Y) X) as Hv. rewrite Ht in Hv. apply (f_equal (Z.mul (weight (length Y)))) in B1. lia.
Qed.

(** A loop that stops at a zero carry computes what the whole loop does. *)
Lemma add2_zero d : digit_ok d -> digit_add2 d 0 = (d, 0).
Proof.
  intros Hd. destruct (digit_add2 d 0) as [r c] eqn:He. destruct (digit_add2_spec _ _ _ _ He Hd ltac:(numeric)) as (H1 & H2 & H3).
  by apply (pair_unique 1); simpl; [lia|..].
Qed.

Lemma sub_zero d : digit_ok d -> digit_sub d 0 = (d, 0).
Proof.
  intros Hd. destruct (digit_sub d 0) as [r c] eqn:He. destruct (digit_sub_spec _ _ _ _ He Hd ltac:(numeric)) as (H1 & H2 & H3).
  by apply (pair_unique (-1)); simpl; [lia|..].
Qed.

Lemma carry_loop_zero f X : (forall d, digit_ok d -> f d 0 = (d, 0)) -> digits_ok X -> carry_loop f X 0 = (X, 0).
Proof. intros Hf. induction 1 as [|d X Hd HX IH]; [done|]. simpl. by rewrite Hf, IH by done. Qed.

Lemma carry_until_loop f X c : (forall d, digit_ok d -> f d 0 = (d, 0)) -> digits_ok X -> carry_until f X c = carry_loop f X c.
Proof.
  intros Hf HX. revert c. induction HX as [|d X Hd HX IH]; intros c; [done|]. simpl.
  destruct (Z.eqb_spec c 0) as [->|Hc].
  - by rewrite Hf, (carry_loop_zero f X) by done.
  - destruct (f d c) as [r c']. by rewrite IH.
Qed.

Lemma carry_until_add X c : digits_ok X -> carry_until digit_add2 X c = carry_loop digit_add2 X c.
Proof. apply carry_until_loop, add2_zero. Qed.

Lemma carry_until_sub X c : digits_ok X -> carry_until digit_sub X c = carry_loop digit_sub X c.
Proof. apply carry_until_loop, sub_zero. Qed.

(** ** Sums and differences *)

Lemma carry_fill_spec n c : (1 <= n)%nat \/ c = 0 -> 0 <= c <= 1 ->
  dval (carry_fill n c) = c /\ digits_ok (carry_fill n c) /\ length (carry_fill n c) = n.
Proof.
  intros Hn Hc. destruct n as [|n]; simpl.
  - split_all; [lia|constructor|done].
  - rewrite dval_zeros, length_replicate. split_all; [lia|constructor; [numeric|apply zeros_ok]|done].
Qed.

Lemma last_app_default (l l' : list Z) : l' <> [] -> default 0 (last (l ++ l')) = default 0 (last l').
Proof. intros. rewrite last_app. destruct (last l') eqn:He; [done|]. by apply last_None in He. Qed.

Lemma Add_spec n X Y : digits_ok X -> digits_ok Y -> (length X <= n)%nat -> (length Y <= n)%nat -> dval X + dval Y < weight n ->
  dval (Add n X Y).1 = dval X + dval Y /\ digits_ok (Add n X Y).1 /\ length (Add n X Y).1 = n.
Proof.
  intros HX HY Hlx Hly Hb.
  assert (forall X Y, digits_ok X -> digits_ok Y -> (length Y <= length X)%nat -> (length X <= n)%nat -> dval X + dval Y < weight n ->
    let '(z1, carry) := carry_loop (fun p carry => digit_add3 p.1 p.2 carry) (zip X Y) 0 in
    let '(z2, carry) := carry_loop digit_add2 (drop (length Y) X) carry in
    let zs := z1 ++ z2 ++ carry_fill (n - length X) carry in
    dval zs = dval X + dval Y /\ digits_ok zs /\ length zs = n) as Hgen.
  { clear. intros X Y HX HY Hl Hn Hb. destruct (carry_loop _ _ 0) as [z1 c1] eqn:H1. destruct (carry_loop digit_add2 _ _) as [z2 c2] eqn:H2.
    destruct (add_loops_spec X Y _ _ _ _ HX HY Hl H1 H2) as (A1 & A2 & A3 & A4).
    assert ((1 <= n - length X)%nat \/ c2 = 0) as Hc.
    { destruct (decide (length X = n)) as [<-|]; [right|left; lia]. pose proof (dval_bounds _ A2).
      assert (c2 = 0 \/ c2 = 1) as [->| ->] by lia; lia. }
    destruct (carry_fill_spec _ _ Hc A4) as (F1 & F2 & F3). cbv zeta.
    rewrite app_assoc, dval_app, A3, F1, length_app, A3, F3. split_all; [lia|by apply app_ok|lia]. }
  unfold Add. destruct (Nat.ltb_spec (length X) (length Y)).
  - specialize (Hgen Y X HY HX ltac:(lia) Hly ltac:(lia)). cbv zeta in *.
    destruct (carry_loop _ _ 0) as [z1 c1]. destruct (carry_loop digit_add2 _ _) as [z2 c2]. cbn [fst]. rewrite (Z.add_comm (dval X)). done.
  - specialize (Hgen X Y HX HY ltac:(lia) Hlx ltac:(lia)). cbv zeta in *.
    destruct (carry_loop _ _ 0) as [z1 c1]. by destruct (carry_loop digit_add2 _ _) as [z2 c2].
Qed.

Lemma Subtract_spec n X Y : digits_ok X -> digits_ok Y -> (length Y <= length X <= n)%nat -> dval Y <= dval X ->
  dval (Subtract n X Y).1 = dval X - dval Y /\ digits_ok (Subtract n X Y).1 /\ length (Subtract n X Y).1 = n.
Proof.
  intros HX HY Hl Hb. unfold Subtract.
  destruct (carry_loop _ _ 0) as [z1 c1] eqn:H1. destruct (carry_loop digit_sub _ _) as [z2 c2] eqn:H2. cbn [fst].
  destruct (sub_loops_spec X Y _ _ _ _ HX HY ltac:(lia) H1 H2) as (A1 & A2 & A3 & A4).
  pose proof (dval_bounds _ A2) as Hz. rewrite A3 in Hz.
  assert (c2 = 0 \/ c2 = 1) as [->| ->] by lia; [|lia].
  rewrite dval_extend, length_extend by lia. split_all; [lia|by apply extend_ok|done].
Qed.

(** The longer of two normalized operands is the larger. *)
Lemma normalized_le X Y : digits_ok X -> digits_ok Y -> IsDigitNormalized Y = true -> dval Y <= dval X -> (length Y <= length X)%nat.
Proof. intros HX HY NY Hv. apply normalized_length; [done..|]. pose proof (dval_bounds X HX). lia. Qed.

Lemma SubtractWithNormalization_spec n X Y : digits_ok X -> digits_ok Y -> (length (Normalize X) <= n)%nat -> dval Y <= dval X ->
  dval (SubtractWithNormalization n X Y) = dval X - dval Y /\ digits_ok (SubtractWithNormalization n X Y) /\
  length (SubtractWithNormalization n X Y) = n.
Proof.
  intros HX HY Hl Hv. unfold SubtractWithNormalization. rewrite <- (dval_Normalize X), <- (dval_Normalize Y) in *.
  apply Subtract_spec; [by apply Normalize_ok..| |done]. split; [|done].
  apply normalized_le; [by apply Normalize_ok..|apply Normalize_normalized|done].
Qed.

(** The number a sign and digits stand for. *)
Definition signed (negative : bool) (X : list Z) : Z := if negative then - dval X else dval X.

(** The larger magnitude decides the sign of a difference. *)
Lemma difference_spec n X Y : digits_ok X -> digits_ok Y -> (length X <= n)%nat -> (length Y <= n)%nat ->
  let X' := Normalize X in
  let Y' := Normalize Y in
  let r := if 0 <=? CompareNoNormalize X' Y' then ((Subtract n X' Y').1, false) else ((Subtract n Y' X').1, true) in
  signed r.2 r.1 = dval X - dval Y /\ digits_ok r.1 /\ length r.1 = n.
Proof.
  intros HX HY Hlx Hly. cbv zeta.
  pose proof (Normalize_ok X HX) as HX'. pose proof (Normalize_ok Y HY) as HY'.
  pose proof (Normalize_normalized X) as NX. pose proof (Normalize_normalized Y) as NY.
  pose proof (length_Normalize X). pose proof (length_Normalize Y).
  rewrite <- (dval_Normalize X), <- (dval_Normalize Y).
  destruct (CompareNoNormalize_cases _ _ HX' HY' NX NY) as (C1 & C2 & C3).
  destruct (Z.leb_spec 0 (CompareNoNormalize (Normalize X) (Normalize Y))); cbn [fst snd signed].
  - apply Subtract_spec; [done..|split; [apply normalized_le; [done..|lia]|lia]|lia].
  - destruct (Subtract_spec n (Normalize Y) (Normalize X)) as (S1 & S2 & S3); [done..|split; [apply normalized_le; [done..|lia]|lia]|lia|].
    split_all; [lia|done|done].
Qed.

(** AddSigned and SubtractSigned are addition and subtraction of integers. *)
Lemma AddSigned_spec n X sx Y sy : digits_ok X -> digits_ok Y -> (length X <= n)%nat -> (length Y <= n)%nat ->
  (sx = sy -> dval X + dval Y < weight n) ->
  let r := AddSigned n X sx Y sy in
  signed r.2 r.1 = signed sx X + signed sy Y /\ digits_ok r.1 /\ length r.1 = n.
Proof.
  intros HX HY Hlx Hly Hb. unfold AddSigned. destruct (difference_spec n X Y HX HY Hlx Hly) as (D1 & D2 & D3).
  destruct (eqb sx sy) eqn:He; cbv zeta in *.
  - apply eqb_prop in He as <-. destruct (Add_spec n X Y HX HY Hlx Hly (Hb eq_refl)) as (A1 & A2 & A3). cbn [fst snd].
    split_all; [unfold signed; destruct sx; lia|done|done].
  - destruct (_ <=? _); cbn [fst snd] in *; (split_all; [|done|done]); unfold signed in *; destruct sx, sy; simpl in *; (done || lia).
Qed.

Lemma SubtractSigned_spec n X sx Y sy : digits_ok X -> digits_ok Y -> (length X <= n)%nat -> (length Y <= n)%nat ->
  (sx <> sy -> dval X + dval Y < weight n) ->
  let r := SubtractSigned n X sx Y sy in
  signed r.2 r.1 = signed sx X - signed sy Y /\ digits_ok r.1 /\ length r.1 = n.
Proof.
  intros HX HY Hlx Hly Hb. unfold SubtractSigned. destruct (difference_spec n X Y HX HY Hlx Hly) as (D1 & D2 & D3).
  destruct (eqb sx sy) eqn:He; cbn [negb]; cbv zeta in *.
  - destruct (_ <=? _); cbn [fst snd] in *; (split_all; [|done|done]); unfold signed in *; destruct sx, sy; simpl in *; (done || lia).
  - assert (sx <> sy) as Hn by (intros ->; by rewrite eqb_reflx in He).
    destruct (Add_spec n X Y HX HY Hlx Hly (Hb Hn)) as (A1 & A2 & A3). cbn [fst snd].
    split_all; [unfold signed; destruct sx, sy; (done || lia)|done|done].
Qed.

(** ** Adding to a vector in place *)

Lemma AddOne_spec n X : digits_ok X -> (length X <= n)%nat -> dval X + 1 < weight n ->
  dval (AddOne n X) = dval X + 1 /\ digits_ok (AddOne n X) /\ length (AddOne n X) = n.
Proof.
  intros HX Hl Hb. unfold AddOne. rewrite carry_until_add by done. destruct (carry_loop _ _ _) as [zs c] eqn:He.
  destruct (add2_loop_spec X 1 zs c) as (A1 & A2 & A3 & A4); [done|lia|done|].
  pose proof (dval_bounds _ A2) as Hz. rewrite A3 in Hz.
  assert (length X = n -> c = 0) as Hc by (intros <-; assert (c = 0 \/ c = 1) as [->| ->] by lia; lia).
  rewrite dval_extend, dval_app, A3. assert (c = 0 \/ c = 1) as [->| ->] by lia; simpl; rewrite ?app_nil_r.
  - rewrite length_extend by lia. split_all; [lia|by apply extend_ok|done].
  - assert (length X <> n) by (intros ?%Hc; lia). rewrite length_extend by (rewrite length_app; simpl; lia).
    split_all; [lia|apply extend_ok, app_ok; [done|repeat constructor; numeric]|done].
Qed.

Lemma SubtractOne_spec n X : digits_ok X -> (length X <= n)%nat -> 1 <= dval X ->
  exists zs, SubtractOne n X = Some zs /\ dval zs = dval X - 1 /\ digits_ok zs /\ length zs = n.
Proof.
  intros HX Hl Hb. unfold SubtractOne. rewrite carry_until_sub by done. destruct (carry_loop _ _ _) as [zs c] eqn:He.
  destruct (sub_loop_spec X 1 zs c) as (A1 & A2 & A3 & A4); [done|lia|done|].
  pose proof (dval_bounds _ A2) as Hz. rewrite A3 in Hz. assert (c = 0 \/ c = 1) as [->| ->] by lia; [|lia].
  eexists. split; [done|]. rewrite dval_extend, length_extend by lia. split_all; [lia|by apply extend_ok|done].
Qed.

Lemma Add_digit_spec X y : digits_ok X -> digit_ok y -> X <> [] -> dval X + y < weight (length X) ->
  exists zs, Add_digit X y = Some zs /\ dval zs = dval X + y /\ digits_ok zs /\ length zs = length X.
Proof.
  intros HX Hy H0 Hb. destruct HX as [|x X Hx HX]; [done|]. unfold Add_digit, do_carry.
  destruct (digit_add2 x y) as [d c] eqn:Hd. destruct (digit_add2_spec _ _ _ _ Hd Hx Hy) as (D1 & D2 & D3).
  rewrite carry_until_add by done. destruct (carry_loop _ _ _) as [ds c'] eqn:He.
  destruct (add2_loop_spec _ _ _ _ HX D3 He) as (A1 & A2 & A3 & A4). simpl in *. rewrite weight_S in Hb.
  pose proof (dval_bounds _ A2). apply (f_equal (Z.mul digit_base)) in A1. pose proof digit_base_pos.
  unfold digit_ok in *. assert (c' = 0 \/ c' = 1) as [->| ->] by lia; simpl; [|nia].
  eexists. split; [done|]. simpl. split_all; [lia|by constructor|by rewrite A3].
Qed.

Lemma Subtract_digit_spec X y : digits_ok X -> digit_ok y -> X <> [] -> y <= dval X ->
  exists zs, Subtract_digit X y = Some zs /\ dval zs = dval X - y /\ digits_ok zs /\ length zs = length X.
Proof.
  intros HX Hy H0 Hb. destruct HX as [|x X Hx HX]; [done|]. unfold Subtract_digit, do_carry.
  destruct (digit_sub x y) as [d c] eqn:Hd. destruct (digit_sub_spec _ _ _ _ Hd Hx Hy) as (D1 & D2 & D3).
  rewrite carry_until_sub by done. destruct (carry_loop _ _ _) as [ds c'] eqn:He.
  destruct (sub_loop_spec _ _ _ _ HX D3 He) as (A1 & A2 & A3 & A4). simpl in *.
  pose proof (dval_bounds _ A2) as Hz. rewrite A3 in Hz. apply (f_equal (Z.mul digit_base)) in A1. pose proof digit_base_pos.
  unfold digit_ok in *. assert (c' = 0 \/ c' = 1) as [->| ->] by lia; simpl; [|nia].
  eexists. split; [done|]. simpl. split_all; [lia|by constructor|by rewrite A3].
Qed.

(** The digits above the operand are kept. *)
Lemma replace_low n ds c zs : (n <= length zs)%nat -> length ds = n ->
  dval (ds ++ drop n zs) + weight n * c = dval zs + (dval ds + weight n * c - dval (take n zs)) /\ length (ds ++ drop n zs) = length zs.
Proof.
  intros Hn Hd. rewrite dval_app, length_app, length_drop, (dval_take_drop n zs), length_take, Nat.min_l, Hd by lia. split; lia.
Qed.

Lemma InplaceAddAndReturnCarry_spec zs X zs' c : digits_ok zs -> digits_ok X -> (length X <= length zs)%nat ->
  InplaceAddAndReturnCarry zs X = (zs', c) ->
  dval zs' + weight (length X) * c = dval zs + dval X /\ digits_ok zs' /\ length zs' = length zs /\ 0 <= c <= 1.
Proof.
  intros Hz HX Hl. unfold InplaceAddAndReturnCarry. rewrite <- zip_take.
  destruct (carry_loop _ _ _) as [ds c'] eqn:He. intros [= <- <-].
  assert (length (take (length X) zs) = length X) as Ht by (rewrite length_take; lia).
  destruct (add3_loop_spec _ _ 0 _ _ (take_ok _ _ Hz) HX Ht ltac:(lia) He) as (A1 & A2 & A3 & A4). rewrite Ht in *.
  destruct (replace_low (length X) ds c' zs Hl A3) as [R1 R2]. split_all; [lia|by apply app_ok, drop_ok|done|lia|lia].
Qed.

Lemma InplaceSubAndReturnBorrow_spec zs X zs' c : digits_ok zs -> digits_ok X -> (length X <= length zs)%nat ->
  InplaceSubAndReturnBorrow zs X = (zs', c) ->
  dval zs' - weight (length X) * c = dval zs - dval X /\ digits_ok zs' /\ length zs' = length zs /\ 0 <= c <= 1.
Proof.
  intros Hz HX Hl. unfold InplaceSubAndReturnBorrow. rewrite <- zip_take.
  destruct (carry_loop _ _ _) as [ds c'] eqn:He. intros [= <- <-].
  assert (length (take (length X) zs) = length X) as Ht by (rewrite length_take; lia).
  destruct (sub2_loop_spec _ _ 0 _ _ (take_ok _ _ Hz) HX Ht ltac:(lia) He) as (A1 & A2 & A3 & A4). rewrite Ht in *.
  destruct (replace_low (length X) ds (- c') zs Hl A3) as [R1 R2]. split_all; [lia|by apply app_ok, drop_ok|done|lia|lia].
Qed.

Lemma AddAndReturnOverflow_spec zs X zs' c : digits_ok zs -> digits_ok X -> (length (Normalize X) <= length zs)%nat ->
  AddAndReturnOverflow zs X = (zs', c) ->
  dval zs' + weight (length zs) * c = dval zs + dval X /\ digits_ok zs' /\ length zs' = length zs /\ 0 <= c <= 1.
Proof.
  intros Hz HX Hl. unfold AddAndReturnOverflow. rewrite <- (dval_Normalize X). pose proof (Normalize_ok X HX) as HN.
  destruct (Nat.eqb_spec (length (Normalize X)) 0) as [H0|_].
  { apply nil_length_inv in H0 as ->. intros [= <- <-]. simpl. split_all; [lia|done|done|lia|lia]. }
  destruct (carry_loop _ _ _) as [z1 c1] eqn:H1. rewrite carry_until_add by (by apply drop_ok).
  destruct (carry_loop digit_add2 _ _) as [z2 c2] eqn:H2. intros [= <- <-].
  destruct (add_loops_spec zs (Normalize X) _ _ _ _ Hz HN Hl H1 H2) as (A1 & A2 & A3 & A4). done.
Qed.

Lemma SubAndReturnBorrow_spec zs X zs' c : digits_ok zs -> digits_ok X -> (length (Normalize X) <= length zs)%nat ->
  SubAndReturnBorrow zs X = (zs', c) ->
  dval zs' - weight (length zs) * c = dval zs - dval X /\ digits_ok zs' /\ length zs' = length zs /\ 0 <= c <= 1.
Proof.
  intros Hz HX Hl. unfold SubAndReturnBorrow. rewrite <- (dval_Normalize X). pose proof (Normalize_ok X HX) as HN.
  destruct (Nat.eqb_spec (length (Normalize X)) 0) as [H0|_].
  { apply nil_length_inv in H0 as ->. intros [= <- <-]. simpl. split_all; [lia|done|done|lia|lia]. }
  destruct (carry_loop _ _ _) as [z1 c1] eqn:H1. rewrite carry_until_sub by (by apply drop_ok).
  destruct (carry_loop digit_sub _ _) as [z2 c2] eqn:H2. intros [= <- <-].
  destruct (sub_loops_spec zs (Normalize X) _ _ _ _ Hz HN Hl H1 H2) as (A1 & A2 & A3 & A4). done.
Qed.

(** ** Shifts *)

Lemma shift_left_digit_spec s d c r c' : 0 < s < kDigitBits -> digit_ok d -> 0 <= c < 2 ^ s ->
  shift_left_digit s d c = (r, c') ->
  r + digit_base * c' = 2 ^ s * d + c /\ digit_ok r /\ 0 <= c' < 2 ^ s.
Proof.
  intros Hs [Hd Hd'] Hc. unfold shift_left_digit. intros [= <- <-].
  assert (digit_base = 2 ^ (kDigitBits - s) * 2 ^ s) as HB by (rewrite <- Z.pow_add_r by (unfold kDigitBits in *; lia); unfold digit_base; f_equal; lia).
  pose proof (pow2_log2_bounds s ltac:(lia)). pose proof (pow2_log2_bounds (kDigitBits - s) ltac:(lia)).
  rewrite Z.shiftl_mul_pow2, Z.shiftr_div_pow2 by lia.
  rewrite digit_mod, HB, Z.mul_mod_distr_r by lia. rewrite Z.lor_comm, lor_disjoint by lia.
  pose proof (Z.div_mod d (2 ^ (kDigitBits - s)) ltac:(lia)). pose proof (Z.mod_pos_bound d (2 ^ (kDigitBits - s)) ltac:(lia)).
  set (q := d / _) in *. set (m := d mod _) in *.
  assert (0 <= q < 2 ^ s) by (split; [by apply Z.div_pos|apply Z.div_lt_upper_bound; lia]).
  split_all; [nia| |lia|lia]. unfold digit_ok. rewrite HB. nia.
Qed.

Lemma shift_left_loop_spec s X c ds c' : 0 < s < kDigitBits -> digits_ok X -> 0 <= c < 2 ^ s ->
  carry_loop (shift_left_digit s) X c = (ds, c') ->
  dval ds + weight (length X) * c' = 2 ^ s * dval X + c /\ digits_ok ds /\ length ds = length X /\ 0 <= c' < 2 ^ s.
Proof.
  intros Hs HX Hc He.
  eapply (carry_loop_spec _ (fun d => 2 ^ s * d) id digit_ok (fun c => 0 <= c < 2 ^ s)) in He as (H1 & H2 & H3 & H4); [|by intros; eapply shift_left_digit_spec|done..].
  rewrite dval_scale in H1. unfold id in H1. split_all; [lia|done|done|lia|lia].
Qed.

Lemma LeftShift_int_spec n X s : digits_ok X -> 0 <= s < kDigitBits -> (length X <= n)%nat -> dval X * 2 ^ s < weight n ->
  dval (LeftShift_int n X s) = dval X * 2 ^ s /\ digits_ok (LeftShift_int n X s) /\ length (LeftShift_int n X s) = n.
Proof.
  intros HX Hs Hl Hb. unfold LeftShift_int, Copy. destruct (Z.eqb_spec s 0) as [->|H0].
  - rewrite dval_extend, length_extend by done. split_all; [lia|by apply extend_ok|done].
  - pose proof (pow2_log2_bounds s ltac:(lia)). destruct (carry_loop _ _ _) as [ds c] eqn:He.
    destruct (shift_left_loop_spec s X 0 ds c) as (A1 & A2 & A3 & A4); [lia|done|lia|done|].
    pose proof (dval_bounds _ A2) as Hz. rewrite A3 in Hz. rewrite dval_extend, dval_app, A3.
    destruct (Nat.ltb_spec (length X) n) as [Hn|Hn]; simpl.
    + rewrite length_extend by (rewrite length_app; simpl; lia). split_all; [lia| |done].
      apply extend_ok, app_ok; [done|repeat constructor; [lia|]]. pose proof (Z.pow_le_mono_r 2 s kDigitBits). unfold digit_base. lia.
    + assert (n = length X) as -> by lia. assert (c = 0) as -> by nia. rewrite app_nil_r, length_extend by lia.
      split_all; [lia|by apply extend_ok|done].
Qed.

Lemma shift_right_loop_spec X s : digits_ok X -> X <> [] -> 0 < s < kDigitBits ->
  dval (shift_right_loop X s) = dval X / 2 ^ s /\ digits_ok (shift_right_loop X s) /\ length (shift_right_loop X s) = length X.
Proof.
  intros HX H0 Hs. destruct HX as [|d X [Hd Hd'] HX]; [done|]. unfold shift_right_loop. cbn [drop nth].
  assert (digit_base = 2 ^ (kDigitBits - s) * 2 ^ s) as HB by (rewrite <- Z.pow_add_r by (unfold kDigitBits in *; lia); unfold digit_base; f_equal; lia).
  pose proof (pow2_log2_bounds s ltac:(lia)). rewrite Z.shiftr_div_pow2 by lia.
  assert (0 <= d / 2 ^ s < 2 ^ (kDigitBits - s)) as Hc by (split; [by apply Z.div_pos|apply Z.div_lt_upper_bound; lia]).
  assert (forall l c, carry_loop (shift_right_digit s) l c = carry_loop (shift_left_digit (kDigitBits - s)) l c) as ->.
  { clear. intros l. induction l as [|x l IH]; intros c; [done|]. simpl. rewrite IH. by replace (kDigitBits - (kDigitBits - s)) with s by lia. }
  destruct (carry_loop _ _ _) as [ds c] eqn:He.
  destruct (shift_left_loop_spec (kDigitBits - s) X _ ds c ltac:(lia) HX Hc He) as (A1 & A2 & A3 & A4).
  rewrite dval_snoc, length_app, A3. simpl. split_all; [| |lia].
  - rewrite HB, (Z.mul_comm (2 ^ (kDigitBits - s))), <- Z.mul_assoc, (Z.mul_comm (2 ^ s)), Z.div_add by lia. lia.
  - apply app_ok; [done|]. repeat constructor; [lia|]. pose proof (Z.pow_le_mono_r 2 (kDigitBits - s) kDigitBits). unfold digit_base. lia.
Qed.

Lemma RightShift_int_spec n X s : digits_ok X -> 0 <= s < kDigitBits -> (length (Normalize X) <= n)%nat ->
  dval (RightShift_int n X s) = dval X / 2 ^ s /\ digits_ok (RightShift_int n X s) /\ length (RightShift_int n X s) = n.
Proof.
  intros HX Hs Hl. unfold RightShift_int, Copy. pose proof (Normalize_ok X HX) as HN. rewrite <- (dval_Normalize X).
  destruct (Z.eqb_spec s 0) as [->|H0].
  - rewrite dval_extend, length_extend by done. split_all; [by rewrite Z.div_1_r|by apply extend_ok|done].
  - destruct (Nat.ltb_spec 0 (length (Normalize X))) as [Hp|Hp].
    + destruct (shift_right_loop_spec (Normalize X) s HN) as (A1 & A2 & A3); [by intros He; rewrite He in Hp; simpl in Hp; lia|lia|].
      rewrite dval_extend, length_extend by lia. split_all; [done|by apply extend_ok|done].
    + assert (Normalize X = []) as -> by (apply nil_length_inv; lia). rewrite dval_extend, length_extend by (simpl; lia).
      split_all; [done|by apply extend_ok|done].
Qed.

Lemma PutAt_spec zs A n : digits_ok zs -> digits_ok A -> (n <= length zs)%nat ->
  dval (PutAt zs A n) = dval (take n A) + weight n * dval (drop n zs) /\ digits_ok (PutAt zs A n) /\ length (PutAt zs A n) = length zs.
Proof.
  intros Hz HA Hn. unfold PutAt. assert (length (extend n (take n A)) = n) as Hl by (apply length_extend; rewrite length_take; lia).
  rewrite dval_app, length_app, Hl, dval_extend, length_drop. split_all; [done|by auto with v8|lia].
Qed.
