(* ===== verification/DigitsMultiply.v ===== *)
(** Multiplication by a digit and schoolbook multiplication: src/src/bigint/bigint-inl.h.

    The schoolbook algorithm fills the result column by column. A column adds the low and
    high halves of its products to two digits, [zi] and [next], and counts their carries. *)
From S2P Require Import Prelude Conversions Digits DigitsLinear.

Definition kKaratsubaThreshold : nat := 34.

(** ** One digit *)

Definition multiply_digit (y x : Z) (state : Z * Z) : Z * (Z * Z) :=
  let '(high, carry) := state in
  let '(low, new_high) := digit_mul x y in
  let '(z, carry) := digit_add3 low high carry in
  (z, (new_high, carry)).

Definition MultiplySingle (Z_len : nat) (X : list Z) (y : Z) : list Z * Z :=
  let '(ds, (high, carry)) := carry_loop (multiply_digit y) X (0, 0) in
  let top := digit (carry + high) in
  let zs := extend Z_len (ds ++ [top]) in
  (zs, top_digit zs).

(** ** Columns *)

Record column := Column { zi : Z; carry : Z; next : Z; next_carry : Z }.

(** The macro BODY for j = min, ..., min + n - 1. *)
Fixpoint BODY (X Y : list Z) (i j n : nat) (s : column) : column :=
  match n with
  | O => s
  | S n =>
    let '(low, high) := digit_mul (X.[j]) (Y.[i - j]) in
    let '(zi, carrybit) := digit_add2 (zi s) low in
    let carry := digit (carry s + carrybit) in
    let '(next, carrybit) := digit_add2 (next s) high in
    BODY X Y i (S j) n (Column zi carry next (digit (next_carry s + carrybit)))
  end.

(** The start of a column: the carries of the previous one. *)
Definition next_column (s : column) : column :=
  let '(zi, carry) := digit_add2 (next s) (carry s) in
  Column zi 0 (digit (next_carry s + carry)) 0.

(** [n] columns from [i]; [bounds i] are the first and the last index in X. *)
Fixpoint columns (bounds : nat -> nat * nat) (X Y : list Z) (i n : nat) (s : column) : list Z * column :=
  match n with
  | O => ([], s)
  | S n =>
    let '(min, max) := bounds i in
    let s := BODY X Y i min (S max - min) (next_column s) in
    let '(zs, s') := columns bounds X Y (S i) n s in
    (zi s :: zs, s')
  end.

Definition main_bounds (i : nat) : nat * nat := (0%nat, i).

Definition last_bounds (X Y : list Z) (i : nat) : nat * nat :=
  ((i - (length Y - 1))%nat, Nat.min i (length X - 1)).

Definition MultiplySchoolbook (Z_len : nat) (X Y : list Z) : list Z * Z :=
  if ((length X =? 0) || (length Y =? 0))%nat then (Clear Z_len, 0)
  else
    let '(z0, next0) := digit_mul (X.[O]) (Y.[O]) in
    let '(z1, s) :=
      if (1 <? length Y)%nat then
        let s := BODY X Y 1 0 2 (Column next0 0 0 0) in ([zi s], s)
      else ([], Column z0 0 next0 0) in
    let i := S (length z1) in
    let '(z2, s) := columns main_bounds X Y i (length Y - i) s in
    let i := (i + length z2)%nat in
    let '(z3, s) := columns (last_bounds X Y) X Y i (length X + length Y - 1 - i) s in
    let '(top, _) := digit_add2 (next s) (carry s) in
    let zs := extend Z_len (z0 :: z1 ++ z2 ++ z3 ++ [top]) in
    (zs, top_digit zs).

(** The result, if the operands are small, and the operands, which the code swaps in place. *)
Definition MultiplySmall (Z_len : nat) (X Y : list Z) : option (list Z * Z) * (list Z * list Z) :=
  if ((length X =? 0) || (length Y =? 0))%nat then (Some (Clear Z_len, 0), (X, Y))
  else
    let '(X, Y) := if (length X <? length Y)%nat then (Y, X) else (X, Y) in
    if (length Y =? 1)%nat then (Some (MultiplySingle Z_len X (Y.[O])), (X, Y))
    else if (kKaratsubaThreshold <=? length Y)%nat then (None, (X, Y))
    else (Some (MultiplySchoolbook Z_len X Y), (X, Y)).

(** ** One digit *)

Definition single_ok (s : Z * Z) : Prop := digit_ok s.1 /\ 0 <= s.2 <= 2 /\ s.1 + s.2 < digit_base.

Lemma multiply_digit_spec y x s d s' : digit_ok y -> digit_ok x -> single_ok s -> multiply_digit y x s = (d, s') ->
  d + digit_base * (s'.1 + s'.2) = y * x + (s.1 + s.2) /\ digit_ok d /\ single_ok s'.
Proof.
  destruct s as [high c]. unfold multiply_digit, single_ok. cbn [fst snd]. intros Hy Hx (Hh & Hc & Hs).
  destruct (digit_mul x y) as [low new_high] eqn:Hm. destruct (digit_mul_spec _ _ _ _ Hm Hx Hy) as (M1 & M2 & M3).
  destruct (digit_add3 low high c) as [z c'] eqn:Ha.
  destruct (digit_add3_spec _ _ _ _ _ Ha M2 Hh ltac:(unfold digit_ok in *; numeric)) as (A1 & A2 & A3).
  intros [= <- <-]. cbn [fst snd]. unfold digit_ok in *. split_all; [nia|lia|lia|lia|lia|lia|lia|nia].
Qed.

Lemma MultiplySingle_spec n X y : digits_ok X -> digit_ok y -> (length X < n)%nat ->
  dval (MultiplySingle n X y).1 = dval X * y /\ digits_ok (MultiplySingle n X y).1 /\ length (MultiplySingle n X y).1 = n.
Proof.
  intros HX Hy Hn. unfold MultiplySingle. destruct (carry_loop _ _ _) as [ds [high c]] eqn:He. cbn [fst].
  eapply (carry_loop_spec _ (fun x => y * x) (fun s => s.1 + s.2) digit_ok single_ok) in He as (H1 & H2 & H3 & H4 & H5 & H6);
    [|by intros; eapply multiply_digit_spec|done|split; cbn [fst snd]; numeric].
  cbn [fst snd] in *. rewrite dval_scale in H1. rewrite digit_small by (unfold digit_ok in *; lia).
  rewrite dval_extend, dval_snoc, H3, length_extend by (rewrite length_app, H3; simpl; lia).
  split_all; [lia| |done]. apply extend_ok, app_ok; [done|]. repeat constructor; unfold digit_ok in *; lia.
Qed.

(** ** Sums over columns *)

Fixpoint rsum (a n : nat) (F : nat -> Z) : Z :=
  match n with
  | O => 0
  | S n => F a + rsum (S a) n F
  end.

Lemma rsum_app a n m F : rsum a (n + m) F = rsum a n F + rsum (a + n) m F.
Proof.
  revert a. induction n as [|n IH]; intros a; simpl; [by rewrite Nat.add_0_r|]. rewrite IH. replace (a + S n)%nat with (S a + n)%nat by lia. lia.
Qed.

Lemma rsum_zero a n F : (forall j, (a <= j < a + n)%nat -> F j = 0) -> rsum a n F = 0.
Proof.
  revert a. induction n as [|n IH]; intros a H0; simpl; [done|]. rewrite H0, IH by (intros; try apply H0; lia). done.
Qed.

Lemma rsum_ext a n F G : (forall j, (a <= j < a + n)%nat -> F j = G j) -> rsum a n F = rsum a n G.
Proof.
  revert a. induction n as [|n IH]; intros a He; simpl; [done|]. rewrite He, IH by (intros; try apply He; lia). done.
Qed.

Lemma rsum_S_last a n F : rsum a (S n) F = rsum a n F + F (a + n)%nat.
Proof. rewrite <- Nat.add_1_r, rsum_app. simpl. lia. Qed.

Lemma rsum_shift a n F : rsum (S a) n F = rsum a n (fun j => F (S j)).
Proof. revert a. induction n as [|n IH]; intros a; simpl; [done|]. by rewrite IH. Qed.

Lemma rsum_add a n F G : rsum a n (fun j => F j + G j) = rsum a n F + rsum a n G.
Proof. revert a. induction n as [|n IH]; intros a; simpl; [done|]. rewrite IH. lia. Qed.

Lemma rsum_scale a n k F : rsum a n (fun j => k * F j) = k * rsum a n F.
Proof. revert a. induction n as [|n IH]; intros a; simpl; [lia|]. rewrite IH. lia. Qed.

Lemma at_S (x : Z) X i : (x :: X).[S i] = X.[i].
Proof. done. Qed.

Lemma at_0 (x : Z) X : (x :: X).[0] = x.
Proof. done. Qed.

(** The product X[j] * Y[i - j]; digits beyond the ends count as zero. *)
Definition product_at (X Y : list Z) (i j : nat) : Z := X.[j] * Y.[i - j].

Definition column_sum (X Y : list Z) (i : nat) : Z := rsum 0 (S i) (product_at X Y i).

(** The columns of a product add up to it. *)
Lemma digits_sum Y n : (length Y <= n)%nat -> rsum 0 n (fun i => weight i * Y.[i]) = dval Y.
Proof.
  revert n. induction Y as [|y Y IH]; intros n Hn.
  - apply rsum_zero. intros. rewrite out_of_range by (simpl; lia). lia.
  - simpl in Hn. destruct n as [|n]; [lia|]. cbn [rsum dval]. rewrite rsum_shift.
    rewrite (rsum_ext _ _ _ (fun i => digit_base * (weight i * Y.[i]))) by (intros; cbv beta; rewrite weight_S, at_S; lia).
    rewrite rsum_scale, IH by lia. rewrite weight_0, at_0. lia.
Qed.

Lemma columns_product X Y n : (length X + length Y <= S n)%nat ->
  rsum 0 n (fun i => weight i * column_sum X Y i) = dval X * dval Y.
Proof.
  revert n. induction X as [|x X IH]; intros n Hn.
  - apply rsum_zero. intros i _. unfold column_sum. rewrite rsum_zero; [lia|]. intros j _. unfold product_at.
    rewrite out_of_range by (simpl; lia). lia.
  - simpl in Hn. assert (forall i, column_sum (x :: X) Y i = x * Y.[i] + match i with O => 0 | S i => column_sum X Y i end) as Hc.
    { intros i. unfold column_sum at 1. cbn [rsum]. rewrite rsum_shift. unfold product_at at 1. rewrite Nat.sub_0_r, at_0. f_equal. destruct i as [|i]; [done|]. by apply rsum_ext. }
    rewrite (rsum_ext _ _ _ (fun i => x * (weight i * Y.[i]) + weight i * match i with O => 0 | S i => column_sum X Y i end)) by (intros; cbv beta; rewrite Hc; lia).
    rewrite rsum_add, rsum_scale, digits_sum by lia. destruct n as [|n].
    { destruct Y; simpl in *; lia. }
    cbn [rsum dval]. rewrite rsum_shift.
    rewrite (rsum_ext _ _ _ (fun i => digit_base * (weight i * column_sum X Y i))) by (intros; cbv beta; rewrite weight_S; lia).
    rewrite rsum_scale, IH by lia. lia.
Qed.

(** The products a column leaves out are zero. *)
Lemma column_range X Y i min max : (min <= S max)%nat -> (max <= i)%nat ->
  (forall j, (j < min)%nat -> (length Y <= i - j)%nat) -> (forall j, (max < j <= i)%nat -> (length X <= j)%nat) ->
  rsum min (S max - min) (product_at X Y i) = column_sum X Y i.
Proof.
  intros H1 H2 Hlow Hhigh. unfold column_sum. replace (S i) with (min + ((S max - min) + (i - max)))%nat by lia.
  rewrite !rsum_app. rewrite (rsum_zero 0 min), (rsum_zero _ (i - max)); [simpl; lia|..]; intros j Hj; unfold product_at.
  - rewrite (out_of_range X) by (apply Hhigh; lia). lia.
  - rewrite (out_of_range Y) by (apply Hlow; lia). lia.
Qed.

(** ** The columns of the code *)

(** What a column stands for, in units of its own digit. *)
Definition column_value (s : column) : Z := zi s + digit_base * (carry s + next s) + digit_base * digit_base * next_carry s.

(** Digits, and carries that have counted at most [k] bits. *)
Definition column_ok (k : Z) (s : column) : Prop :=
  digit_ok (zi s) /\ digit_ok (next s) /\ 0 <= carry s <= k /\ 0 <= next_carry s <= k.

Lemma column_ok_mono k k' s : k <= k' -> column_ok k s -> column_ok k' s.
Proof. unfold column_ok. intros Hk (? & ? & ? & ?). split_all; (done || lia). Qed.

Lemma BODY_spec X Y i j n s k : digits_ok X -> digits_ok Y -> column_ok k s -> 0 <= k -> k + Z.of_nat n < digit_base ->
  column_value (BODY X Y i j n s) = column_value s + rsum j n (product_at X Y i) /\ column_ok (k + Z.of_nat n) (BODY X Y i j n s).
Proof.
  intros HX HY. revert j s k. induction n as [|n IH]; intros j s k Hs Hk Hn; cbn [BODY rsum].
  { split; [lia|]. eapply column_ok_mono; [|done]. lia. }
  destruct Hs as (Hz & Hx & Hc & Hnc).
  destruct (digit_mul _ _) as [low high] eqn:Hm. destruct (digit_mul_spec _ _ _ _ Hm) as (M1 & M2 & M3); [by apply digit_at..|].
  destruct (digit_add2 (zi s) low) as [z c1] eqn:H1. destruct (digit_add2_spec _ _ _ _ H1 Hz M2) as (A1 & A2 & A3).
  destruct (digit_add2 (next s) high) as [x c2] eqn:H2. destruct (digit_add2_spec _ _ _ _ H2 Hx M3) as (B1 & B2 & B3).
  rewrite !digit_small by (unfold digit_ok; lia).
  destruct (IH (S j) (Column z (carry s + c1) x (next_carry s + c2)) (k + 1)) as [I1 I2].
  - unfold column_ok. simpl. split_all; (done || lia).
  - lia.
  - lia.
  - split; [|eapply column_ok_mono; [|done]; lia]. rewrite I1. unfold column_value. cbn [zi carry next next_carry].
    change (product_at X Y i j) with (X.[j] * Y.[i - j]). apply (f_equal (Z.mul digit_base)) in B1. lia.
Qed.

Lemma next_column_spec s k : column_ok k s -> k + 2 < digit_base ->
  column_value (next_column s) = next s + carry s + digit_base * next_carry s /\ column_ok 0 (next_column s).
Proof.
  intros (Hz & Hx & Hc & Hnc) Hk. unfold next_column.
  destruct (digit_add2 (next s) (carry s)) as [z c] eqn:H1.
  destruct (digit_add2_spec _ _ _ _ H1 Hx ltac:(unfold digit_ok; lia)) as (A1 & A2 & A3).
  rewrite digit_small by (unfold digit_ok; lia). unfold column_value, column_ok. cbn [zi carry next next_carry].
  split_all; solve [done|unfold digit_ok; lia|lia].
Qed.

(** The number in the columns that are done, and what the last one hands on. *)
Definition carried (s : column) : Z := next s + carry s + digit_base * next_carry s.

Lemma carried_value s : column_value s = zi s + digit_base * carried s.
Proof. unfold column_value, carried. lia. Qed.

Lemma columns_spec bounds X Y i n s k zs s' : digits_ok X -> digits_ok Y ->
  (forall l, (i <= l < i + n)%nat -> rsum (bounds l).1 (S (bounds l).2 - (bounds l).1) (product_at X Y l) = column_sum X Y l /\
    Z.of_nat (S (bounds l).2 - (bounds l).1) <= k) ->
  column_ok k s -> k + 2 < digit_base -> columns bounds X Y i n s = (zs, s') ->
  dval zs + weight n * carried s' = carried s + rsum 0 n (fun l => weight l * column_sum X Y (i + l)) /\
  digits_ok zs /\ length zs = n /\ column_ok k s'.
Proof.
  intros HX HY. revert i s zs s'. induction n as [|n IH]; intros i s zs s' Hb Hs Hk; simpl.
  { intros [= <- <-]. rewrite weight_0. simpl. split_all; [lia|constructor|done|done]. }
  destruct (Hb i ltac:(lia)) as [Hsum Hlen]. destruct (bounds i) as [min max]. cbn [fst snd] in *.
  destruct (next_column_spec s k Hs Hk) as [N1 N2].
  destruct (BODY_spec X Y i min (S max - min) (next_column s) 0 HX HY N2 ltac:(lia) ltac:(lia)) as [B1 B2].
  set (t := BODY X Y i min (S max - min) (next_column s)) in *.
  destruct (columns bounds X Y (S i) n t) as [zs1 s1] eqn:He. intros [= <- <-].
  destruct (IH (S i) t zs1 s1) as (I1 & I2 & I3 & I4); [intros l Hl; apply Hb; lia|eapply column_ok_mono; [|done]; lia|done|done|].
  rewrite rsum_shift. rewrite (rsum_ext 0 n _ (fun l => digit_base * (weight l * column_sum X Y (S i + l)))).
  2: { intros l _. cbv beta. rewrite weight_S, Nat.add_succ_r. simpl. lia. }
  rewrite rsum_scale, !carried_value in *. cbn [dval length]. rewrite weight_S, weight_0, Nat.add_0_r.
  apply (f_equal (Z.mul digit_base)) in I1. unfold carried at 2.
  split_all; [|constructor; [apply B2|done]|by rewrite I3|done]. rewrite Hsum in B1. unfold carried in *. lia.
Qed.

Lemma rsum_offset i n F : rsum i n F = rsum 0 n (fun l => F (i + l)%nat).
Proof.
  revert i. induction n as [|n IH]; intros i; [done|]. by rewrite !rsum_S_last, IH.
Qed.

(** The first [i] columns are done, with digits [zs]. *)
Definition columns_done (X Y : list Z) (k : Z) (i : nat) (zs : list Z) (s : column) : Prop :=
  dval zs + weight i * carried s = rsum 0 i (fun l => weight l * column_sum X Y l) /\
  digits_ok zs /\ length zs = i /\ column_ok k s.

Lemma columns_more bounds X Y k i n zs s zs' s' : columns_done X Y k i zs s -> columns bounds X Y i n s = (zs', s') ->
  digits_ok X -> digits_ok Y -> k + 2 < digit_base ->
  (forall l, (i <= l < i + n)%nat -> rsum (bounds l).1 (S (bounds l).2 - (bounds l).1) (product_at X Y l) = column_sum X Y l /\
    Z.of_nat (S (bounds l).2 - (bounds l).1) <= k) ->
  columns_done X Y k (i + n) (zs ++ zs') s'.
Proof.
  intros (D1 & D2 & D3 & D4) He HX HY Hk Hb.
  destruct (columns_spec bounds X Y i n s k zs' s' HX HY Hb D4 Hk He) as (C1 & C2 & C3 & C4).
  unfold columns_done. rewrite dval_app, length_app, rsum_app, weight_add, D3, C3, (rsum_offset (0 + i)). simpl.
  split_all; [|by apply app_ok|done|done].
  rewrite (rsum_ext 0 n _ (fun l => weight i * (weight l * column_sum X Y (i + l)))) by (intros; cbv beta; rewrite weight_add; lia).
  rewrite rsum_scale. apply (f_equal (Z.mul (weight i))) in C1. lia.
Qed.

Lemma column_terms X Y l : (length Y <= length X)%nat -> (1 <= length Y)%nat -> (l < length X + length Y - 1)%nat ->
  let '(min, max) := last_bounds X Y l in
  rsum min (S max - min) (product_at X Y l) = column_sum X Y l /\ (S max - min <= length Y)%nat.
Proof. intros Hl H1 Hr. simpl. split; [apply column_range; intros; lia|lia]. Qed.

Lemma main_terms X Y l : (l < length Y)%nat -> (length Y <= length X)%nat ->
  rsum 0 (S l - 0) (product_at X Y l) = column_sum X Y l.
Proof. intros Hl H1. by rewrite Nat.sub_0_r. Qed.

(** The first column, and the second one when there is one. *)
Lemma first_column X Y k z0 next0 : digits_ok X -> digits_ok Y -> 0 <= k -> digit_mul (X.[O]) (Y.[O]) = (z0, next0) ->
  columns_done X Y k 1 [z0] (Column z0 0 next0 0).
Proof.
  intros HX HY Hk Hm. destruct (digit_mul_spec _ _ _ _ Hm) as (M1 & M2 & M3); [by apply digit_at..|].
  unfold columns_done, carried, column_ok, column_sum, product_at. cbn [carry next next_carry zi dval rsum Nat.sub length].
  rewrite weight_0, (weight_S 0), weight_0. split_all; solve [done|lia|by constructor].
Qed.

Lemma second_column X Y k z0 next0 : digits_ok X -> digits_ok Y -> 2 <= k ->
  columns_done X Y k 1 [z0] (Column z0 0 next0 0) ->
  let s := BODY X Y 1 0 2 (Column next0 0 0 0) in columns_done X Y k 2 [z0; zi s] s.
Proof.
  intros HX HY Hk (D1 & D2 & D3 & D4 & D5 & D6 & D7). cbv zeta. cbn [zi carry next next_carry] in *.
  destruct (BODY_spec X Y 1 0 2 (Column next0 0 0 0) 0 HX HY) as [B1 B2];
    [unfold column_ok; simpl; split_all; solve [done|lia|by vm_compute]|lia|by rewrite digit_base_eq|].
  set (t := BODY _ _ _ _ _ _) in *. apply (column_ok_mono _ k) in B2; [|lia].
  rewrite carried_value in B1. unfold column_value in B1. unfold carried in D1. cbn [zi carry next next_carry dval] in *.
  unfold columns_done. rewrite rsum_S_last, <- D1. cbn [dval length Nat.add]. rewrite (weight_S 1), (weight_S 0), weight_0 in *.
  change (rsum 0 2 (product_at X Y 1)) with (column_sum X Y 1) in B1. apply (f_equal (Z.mul digit_base)) in B1.
  split_all; [lia|constructor; [by inversion D2|constructor; [apply B2|constructor]]|done|done].
Qed.

(** The columns of the code are those of the product. *)
Lemma MultiplySchoolbook_spec n X Y : digits_ok X -> digits_ok Y -> (length Y <= length X)%nat ->
  (length X + length Y <= n)%nat -> Z.of_nat n < 2 ^ 32 ->
  dval (MultiplySchoolbook n X Y).1 = dval X * dval Y /\ digits_ok (MultiplySchoolbook n X Y).1 /\
  length (MultiplySchoolbook n X Y).1 = n.
Proof.
  intros HX HY Hl Hn Hw. unfold MultiplySchoolbook, Clear.
  destruct (Nat.eqb_spec (length X) 0) as [H0|H0]; cbn [orb fst].
  { apply nil_length_inv in H0 as ->. rewrite dval_zeros, length_replicate. split_all; [done|apply zeros_ok|done]. }
  destruct (Nat.eqb_spec (length Y) 0) as [H1|H1]; cbn [orb fst].
  { apply nil_length_inv in H1 as ->. rewrite dval_zeros, length_replicate. split_all; [simpl; lia|apply zeros_ok|done]. }
  set (k := Z.of_nat (length X) + 2). assert (k + 2 < digit_base) as Hk by (rewrite digit_base_eq; lia).
  destruct (digit_mul _ _) as [z0 next0] eqn:Hm. pose proof (first_column X Y k _ _ HX HY ltac:(lia) Hm) as D0.
  assert (let s := BODY X Y 1 0 2 (Column next0 0 0 0) in exists z1 s1, (if (1 <? length Y)%nat then ([zi s], s) else ([], Column z0 0 next0 0)) = (z1, s1)
    /\ columns_done X Y k (S (length z1)) (z0 :: z1) s1 /\ (S (length z1) <= length Y)%nat) as (z1 & s1 & -> & D1 & L1).
  { cbv zeta. destruct (Nat.ltb_spec 1 (length Y)) as [Hy|Hy]; do 2 eexists; (split; [done|split]); [|simpl; lia|done|simpl; lia].
    by apply second_column; [..|lia|]. }
  destruct (columns main_bounds _ _ _ _ _) as [z2 s2] eqn:E2.
  assert (D2 := columns_more _ _ _ _ _ _ _ _ _ _ D1 E2 HX HY Hk).
  specialize (D2 ltac:(intros l Hr; cbn [main_bounds fst snd]; split; [apply main_terms; lia|lia])).
  assert (length z2 = (length Y - S (length z1))%nat) as Lz.
  { destruct D2 as (_ & _ & N2 & _). rewrite length_app in N2. simpl in N2. lia. }
  destruct (columns (last_bounds X Y) _ _ _ _ _) as [z3 s3] eqn:E3. rewrite <- Lz in D2.
  assert (D3 := columns_more _ _ _ _ _ _ _ _ _ _ D2 E3 HX HY Hk).
  specialize (D3 ltac:(intros l Hr; destruct (column_terms X Y l) as [T1 T2]; [lia..|]; split; [done|simpl in *; lia])).
  replace (S (length z1) + length z2 + _)%nat with (length X + length Y - 1)%nat in D3 by lia.
  destruct D3 as (V3 & O3 & N3 & C1 & C2 & C3 & C4). rewrite columns_product in V3 by lia.
  pose proof (dval_bounds X HX). pose proof (dval_bounds Y HY). pose proof (dval_bounds _ O3) as Hz. rewrite N3 in Hz.
  assert (dval X * dval Y < weight (length X + length Y - 1) * digit_base) as Hp.
  { rewrite (Z.mul_comm (weight _)), <- weight_S. replace (S (length X + length Y - 1)) with (length X + length Y)%nat by lia.
    rewrite weight_add. nia. }
  assert (0 <= carried s3 < digit_base) as Hs by (unfold carried, digit_ok in *; nia).
  assert (next_carry s3 = 0) as Hnc by (unfold carried, digit_ok in *; nia). unfold carried in Hs, V3. rewrite Hnc in Hs, V3.
  destruct (digit_add2 (next s3) (carry s3)) as [top c] eqn:Ha. cbn [fst].
  destruct (digit_add2_spec _ _ _ _ Ha C2 ltac:(unfold digit_ok; lia)) as (A1 & A2 & A3). assert (c = 0) as -> by (unfold digit_ok in *; nia).
  replace (z0 :: z1 ++ z2 ++ z3 ++ [top]) with (((z0 :: z1) ++ z2) ++ z3 ++ [top]) by (simpl; by rewrite <- app_assoc).
  rewrite app_assoc, dval_extend, dval_snoc, N3. rewrite length_extend by (rewrite length_app, N3; simpl; lia).
  split_all; [lia|by apply extend_ok, app_ok, Forall_singleton|done].
Qed.

(** Small operands are multiplied; otherwise the operands are handed back, the longer one first. *)
Lemma MultiplySmall_spec n X Y r X' Y' : digits_ok X -> digits_ok Y -> (length X + length Y <= n)%nat -> Z.of_nat n < 2 ^ 32 ->
  MultiplySmall n X Y = (r, (X', Y')) ->
  match r with
  | Some (zs, _) => dval zs = dval X * dval Y /\ digits_ok zs /\ length zs = n
  | None => dval X' * dval Y' = dval X * dval Y /\ digits_ok X' /\ digits_ok Y' /\
      (kKaratsubaThreshold <= length Y' <= length X')%nat /\ (length X' + length Y' <= n)%nat
  end.
Proof.
  intros HX HY Hn Hw. unfold MultiplySmall.
  assert (forall X Y r X' Y', digits_ok X -> digits_ok Y -> (length X + length Y <= n)%nat -> (length Y <= length X)%nat -> (1 <= length X)%nat ->
    (if (length Y =? 1)%nat then (Some (MultiplySingle n X (Y.[O])), (X, Y))
     else if (kKaratsubaThreshold <=? length Y)%nat then (None, (X, Y)) else (Some (MultiplySchoolbook n X Y), (X, Y))) = (r, (X', Y')) ->
    match r with
    | Some (zs, _) => dval zs = dval X * dval Y /\ digits_ok zs /\ length zs = n
    | None => dval X' * dval Y' = dval X * dval Y /\ digits_ok X' /\ digits_ok Y' /\
        (kKaratsubaThreshold <= length Y' <= length X')%nat /\ (length X' + length Y' <= n)%nat
    end) as Hgen.
  { clear -Hw. intros X Y r X' Y' HX HY Hn Hl H1. destruct (Nat.eqb_spec (length Y) 1) as [HY1|HY1].
    - intros [= <- <- <-]. destruct Y as [|y [|? ?]]; try done. cbn [nth].
      destruct (MultiplySingle_spec n X y HX ltac:(by inversion HY) ltac:(simpl in *; lia)) as (M1 & M2 & M3).
      destruct (MultiplySingle n X y) as [zs top]. cbn [fst dval] in *. split_all; [lia|done|done].
    - destruct (Nat.leb_spec kKaratsubaThreshold (length Y)); intros [= <- <- <-]; [done|].
      pose proof (MultiplySchoolbook_spec n X Y HX HY Hl Hn Hw). by destruct (MultiplySchoolbook n X Y). }
  unfold Clear. destruct (Nat.eqb_spec (length X) 0) as [H0|H0]; cbn [orb].
  { intros [= <- <- <-]. apply nil_length_inv in H0 as ->. rewrite dval_zeros, length_replicate. split_all; [done|apply zeros_ok|done]. }
  destruct (Nat.eqb_spec (length Y) 0) as [H1|H1]; cbn [orb].
  { intros [= <- <- <-]. apply nil_length_inv in H1 as ->. rewrite dval_zeros, length_replicate. split_all; [simpl; lia|apply zeros_ok|done]. }
  destruct (Nat.ltb_spec (length X) (length Y)).
  - rewrite (Z.mul_comm (dval X)). apply Hgen; (done || lia).
  - apply Hgen; (done || lia).
Qed.
