(* ===== verification/DigitDivision.v ===== *)
(** Division of two digits by one: [digit_div] of src/src/bigint/bigint-inl.h and the
    division with a precomputed inverse of src/src/bigint/div-schoolbook.cc.

    On x64, digit_div is the machine's division; the model is the code for the other
    processors, and [digit_div_spec] shows that it computes the same quotient. *)
From S2P Require Import Prelude Conversions Digits.

(** ** digit_div *)

(** while (q >= kHalfDigitBase || q * vn0 > rhat * kHalfDigitBase + un) { q--; ... }. The
    loop runs at most twice, see [correct_quotient_spec]. *)
Fixpoint correct_quotient (fuel : nat) (vn1 vn0 un q rhat : Z) : Z * Z :=
  match fuel with
  | O => (q, rhat)
  | S fuel =>
    if (kHalfDigitBase <=? q) || (digit (digit (rhat * kHalfDigitBase) + un) <? digit (q * vn0)) then
      let q := digit (q - 1) in
      let rhat := digit (rhat + vn1) in
      if kHalfDigitBase <=? rhat then (q, rhat) else correct_quotient fuel vn1 vn0 un q rhat
    else (q, rhat)
  end.

(** The quotient and the remainder. *)
Definition digit_div (high low divisor : Z) : Z * Z :=
  let s := CountLeadingZeros kDigitBits divisor in
  let divisor := digit (Z.shiftl divisor s) in
  let vn1 := Z.shiftr divisor kHalfDigitBits in
  let vn0 := Z.land divisor kHalfDigitMask in
  let kShiftMask := kDigitBits - 1 in
  let s_zero_mask := if s =? 0 then 0 else digit (-1) in
  let un32 := Z.lor (digit (Z.shiftl high s)) (Z.land (Z.shiftr low (Z.land (kDigitBits - s) kShiftMask)) s_zero_mask) in
  let un10 := digit (Z.shiftl low s) in
  let un1 := Z.shiftr un10 kHalfDigitBits in
  let un0 := Z.land un10 kHalfDigitMask in
  let q1 := un32 / vn1 in
  let rhat := digit (un32 - digit (q1 * vn1)) in
  let '(q1, rhat) := correct_quotient 3 vn1 vn0 un1 q1 rhat in
  let un21 := digit (digit (digit (un32 * kHalfDigitBase) + un1) - digit (q1 * divisor)) in
  let q0 := un21 / vn1 in
  let rhat := digit (un21 - digit (q0 * vn1)) in
  let '(q0, rhat) := correct_quotient 3 vn1 vn0 un0 q0 rhat in
  let remainder := Z.shiftr (digit (digit (digit (un21 * kHalfDigitBase) + un0) - digit (q0 * divisor))) s in
  (digit (digit (q1 * kHalfDigitBase) + q0), remainder).

(** ** MultiplicativeDigitDiv *)

Definition ComputeInverse (divisor : Z) : Z :=
  let high := digit (Z.lnot divisor) in
  let low := digit (Z.lnot 0) in
  (digit_div high low divisor).1.

Record MultiplicativeDigitDiv := { divisor_ : Z; inverse_ : Z }.

Definition new_MultiplicativeDigitDiv (divisor : Z) : MultiplicativeDigitDiv :=
  {| divisor_ := divisor; inverse_ := ComputeInverse divisor |}.

(** The quotient and the remainder. *)
Definition div (d : MultiplicativeDigitDiv) (high low : Z) : Z * Z :=
  let '(q0, q1) := digit_mul high (inverse_ d) in
  let '(q0, carry) := digit_add2 q0 low in
  let '(q1, carry) := digit_add3 q1 high carry in
  let q1 := digit (q1 + 1) in
  let r := digit (low - digit (q1 * divisor_ d)) in
  let '(q1, r) := if q0 <? r then (digit (q1 - 1), digit (r + divisor_ d)) else (q1, r) in
  if divisor_ d <=? r then (digit (q1 + 1), digit (r - divisor_ d)) else (q1, r).

(** ** Wrapped expressions *)

Lemma digit_add_l a b : digit (digit a + b) = digit (a + b).
Proof. rewrite !digit_mod. apply Z.add_mod_idemp_l. pose proof digit_base_pos. lia. Qed.

Lemma digit_sub_both a b : digit (digit a - digit b) = digit (a - b).
Proof. rewrite !digit_mod. by rewrite Zminus_mod_idemp_l, Zminus_mod_idemp_r. Qed.

Lemma digit_sub_r a b : digit (a - digit b) = digit (a - b).
Proof. rewrite !digit_mod. apply Zminus_mod_idemp_r. Qed.

Lemma digit_eq a b : a = b -> digit_ok b -> digit a = b.
Proof. intros -> Hb. by apply digit_small. Qed.

(** ** The quotient of three halves by two *)

Lemma half_pos : 0 < kHalfDigitBase.
Proof. done. Qed.

Lemma half_value : kHalfDigitBase = 4294967296.
Proof. done. Qed.

Ltac by_halves := unfold digit_ok in *; pose proof half_value; pose proof digit_base_eq; lia.

Section estimate.
Context (vn1 vn0 un : Z).
Hypothesis Hvn1 : 0 <= vn1 < kHalfDigitBase.
Hypothesis Hvn0 : 0 <= vn0 < kHalfDigitBase.
Hypothesis Hun : 0 <= un < kHalfDigitBase.
Hypothesis normalized : kHalfDigitBase <= 2 * vn1.

Let v := vn1 * kHalfDigitBase + vn0.

Lemma correct_quotient_spec fuel q rhat : 0 <= rhat < kHalfDigitBase -> kHalfDigitBase <= rhat + Z.of_nat fuel * vn1 ->
  0 <= q <= kHalfDigitBase + 1 -> 0 <= q * vn1 + rhat < v ->
  ((q * vn1 + rhat) * kHalfDigitBase + un) / v <= q ->
  (correct_quotient fuel vn1 vn0 un q rhat).1 = ((q * vn1 + rhat) * kHalfDigitBase + un) / v.
Proof using All.
  pose proof half_base. pose proof half_pos. assert (0 < v) as Hv by (unfold v; nia). unfold v in *.
  revert q rhat. induction fuel as [|fuel IH]; intros q rhat Hr Hf Hq Hu HQ; [lia|]. cbn [correct_quotient].
  set (U := (q * vn1 + rhat) * kHalfDigitBase + un) in *. set (w := vn1 * kHalfDigitBase + vn0) in *.
  assert (0 <= U / w < kHalfDigitBase) as HUw by (split; [apply Z.div_pos; unfold U; nia|apply Z.div_lt_upper_bound; unfold U; nia]).
  pose proof (Z.div_mod U w ltac:(lia)) as Hdm. pose proof (Z.mod_pos_bound U w ltac:(lia)) as Hmb.
  assert (q * w = U - un - rhat * kHalfDigitBase + q * vn0) as Hqw by (unfold w, U; ring).
  rewrite (digit_small (rhat * _)) by (unfold digit_ok; nia). rewrite (digit_small (_ + un)) by (unfold digit_ok; nia).
  assert (forall k, k * w <= U -> k <= U / w) as Hge by (intros; apply Z.div_le_lower_bound; lia).
  assert (forall k, U < k * w -> U / w < k) as Hlt by (intros; apply Z.div_lt_upper_bound; lia).
  destruct (_ || _) eqn:Hc.
  - assert (U / w < q) as Hgt.
    { destruct (Z.leb_spec kHalfDigitBase q) as [Hb|Hb]; [lia|]. simpl in Hc. apply Z.ltb_lt in Hc.
      rewrite (digit_small (q * vn0)) in Hc by (unfold digit_ok; nia). apply Hlt. lia. }
    rewrite (digit_small (q - 1)) by by_halves. rewrite (digit_small (rhat + vn1)) by by_halves.
    assert ((q - 1) * vn1 + (rhat + vn1) = q * vn1 + rhat) as He by ring.
    destruct (Z.leb_spec kHalfDigitBase (rhat + vn1)) as [Hb|Hb]; cbn [fst].
    + apply Z.le_antisymm; [|lia]. apply Hge. nia.
    + rewrite IH; rewrite ?He; fold U w; [done|lia..].
  - apply orb_false_iff in Hc as [H1 H2]. apply Z.leb_gt in H1. apply Z.ltb_ge in H2.
    rewrite (digit_small (q * vn0)) in H2 by (unfold digit_ok; nia). cbn [fst].
    apply Z.le_antisymm; [|lia]. apply Hge. lia.
Qed.

(** The whole step: the estimate, its correction and the new remainder. *)
Lemma estimate_spec u32 : 0 <= u32 < v ->
  let U := u32 * kHalfDigitBase + un in
  (correct_quotient 3 vn1 vn0 un (u32 / vn1) (digit (u32 - digit (u32 / vn1 * vn1)))).1 = U / v /\
  0 <= U / v < kHalfDigitBase /\
  digit (digit (digit (u32 * kHalfDigitBase) + un) - digit (U / v * v)) = U mod v.
Proof using All.
  intros Hu. cbv zeta. pose proof half_base as HH. pose proof half_pos as HP.
  assert (0 < v) as Hv by (unfold v; nia). assert (v <= digit_base) as Hvb by (unfold v; nia).
  set (U := u32 * kHalfDigitBase + un). assert (0 <= U / v < kHalfDigitBase) as HU.
  { split; [apply Z.div_pos; unfold U; nia|apply Z.div_lt_upper_bound; unfold U; nia]. }
  pose proof (Z.div_mod u32 vn1 ltac:(lia)) as Hq. pose proof (Z.mod_pos_bound u32 vn1 ltac:(lia)) as Hr.
  set (q := u32 / vn1) in *. set (r := u32 mod vn1) in *.
  assert (digit (u32 - digit (q * vn1)) = r) as ->.
  { rewrite digit_sub_r. apply digit_eq; [lia|unfold digit_ok; nia]. }
  assert (q * vn1 + r = u32) as He by lia.
  assert (U / v <= q) as Hle.
  { apply Z.lt_succ_r, Z.div_lt_upper_bound; [done|]. unfold U, v. nia. }
  split_all; [|lia|lia|].
  - rewrite (correct_quotient_spec 3 q r); rewrite ?He; fold U; [done|lia|lia| |lia|done].
    split; [nia|]. apply Z.lt_succ_r, Z.mul_lt_mono_pos_r with vn1; [lia|]. unfold v in Hu. nia.
  - rewrite digit_add_l, digit_sub_both. apply digit_eq; [rewrite Z.mod_eq by lia; unfold U; ring|].
    pose proof (Z.mod_pos_bound U v Hv). unfold digit_ok. lia.
Qed.
End estimate.

(** ** Normalization *)

(** Shifting out the leading zeros sets the top bit. *)
Lemma leading_zeros_spec d : digit_ok d -> d <> 0 ->
  let s := CountLeadingZeros kDigitBits d in
  0 <= s < kDigitBits /\ d * 2 ^ s < digit_base /\ digit_base <= 2 * (d * 2 ^ s).
Proof.
  intros [Hd Hd'] H0. unfold CountLeadingZeros. destruct (Z.eqb_spec d 0) as [|_]; [done|].
  destruct (Z.log2_spec d ltac:(lia)) as [L1 L2]. pose proof (Z.log2_nonneg d).
  assert (Z.log2 d < kDigitBits) as Hl by (apply Z.log2_lt_pow2; [lia|done]).
  cbv zeta. set (s := kDigitBits - 1 - Z.log2 d). assert (0 <= s) as Hs by (unfold s; lia).
  assert (2 ^ Z.succ (Z.log2 d) * 2 ^ s = digit_base) as HB.
  { rewrite <- Z.pow_add_r by lia. unfold digit_base. f_equal. unfold s. lia. }
  rewrite Z.pow_succ_r in * by lia. pose proof (pow2_log2_bounds s Hs). split_all; [lia|unfold s; lia|nia|nia].
Qed.

(** The parts of a shifted dividend. *)
Lemma shifted_high s high low : 0 <= s < kDigitBits -> 0 <= high -> high * 2 ^ s < digit_base -> digit_ok low ->
  Z.lor (digit (Z.shiftl high s)) (Z.land (Z.shiftr low (Z.land (kDigitBits - s) (kDigitBits - 1))) (if s =? 0 then 0 else digit (-1))) =
    ((high * digit_base + low) * 2 ^ s) / digit_base /\
  digit (Z.shiftl low s) = ((high * digit_base + low) * 2 ^ s) mod digit_base.
Proof.
  intros Hs Hh Hb [Hl Hl']. pose proof digit_base_pos. pose proof (pow2_log2_bounds s ltac:(lia)).
  rewrite !Z.shiftl_mul_pow2 by lia. rewrite (digit_small (high * _)) by (unfold digit_ok; nia).
  rewrite Z.mul_add_distr_r, (Z.add_comm (high * _ * _)). replace (high * digit_base * 2 ^ s) with (high * 2 ^ s * digit_base) by ring.
  split; [|by rewrite Z.mod_add, digit_mod by lia]. rewrite Z.div_add by lia.
  destruct (Z.eqb_spec s 0) as [->|Hs0].
  - rewrite Z.land_0_r, Z.lor_0_r, Z.pow_0_r, !Z.mul_1_r, Z.div_small by done. done.
  - change (digit (-1)) with (Z.ones kDigitBits). change (kDigitBits - 1) with (Z.ones 6). rewrite (Z.land_ones (kDigitBits - s)) by done.
    rewrite (Z.mod_small (kDigitBits - s)) by (unfold kDigitBits in *; change (2 ^ 6) with 64; lia).
    rewrite Z.shiftr_div_pow2 by lia. assert (digit_base = 2 ^ (kDigitBits - s) * 2 ^ s) as HB.
    { rewrite <- Z.pow_add_r by lia. unfold digit_base. f_equal. lia. }
    pose proof (pow2_log2_bounds (kDigitBits - s) ltac:(lia)).
    assert (0 <= low / 2 ^ (kDigitBits - s) < 2 ^ s) as Hq by (split; [by apply Z.div_pos|apply Z.div_lt_upper_bound; lia]).
    assert (2 ^ s <= digit_base) by nia. rewrite Z.land_ones by done. change (2 ^ kDigitBits) with digit_base.
    rewrite (Z.mod_small (_ / _)) by lia.
    rewrite Z.lor_comm, lor_disjoint by lia. rewrite HB, Z.div_mul_cancel_r by lia. done.
Qed.

(** digit_div divides. *)
Lemma digit_div_spec high low divisor : digit_ok low -> digit_ok divisor -> 0 <= high < divisor ->
  digit_div high low divisor = ((high * digit_base + low) / divisor, (high * digit_base + low) mod divisor).
Proof.
  intros Hl Hd Hh. pose proof (leading_zeros_spec divisor Hd ltac:(lia)) as (Hs & Hv & Hn). cbv zeta in *.
  unfold digit_div. set (s := CountLeadingZeros kDigitBits divisor) in *. pose proof (pow2_log2_bounds s ltac:(lia)) as Hp.
  assert (high * 2 ^ s < divisor * 2 ^ s) as Hhs by nia.
  destruct (shifted_high s high low Hs ltac:(lia) ltac:(lia) Hl) as [-> ->].
  rewrite (Z.shiftl_mul_pow2 divisor) by lia. rewrite (digit_small (divisor * _)) by (unfold digit_ok; lia).
  rewrite !low_half, !high_half. set (v := divisor * 2 ^ s) in *. set (N := (high * digit_base + low) * 2 ^ s).
  pose proof digit_base_pos. pose proof (Z.div_mod N digit_base ltac:(lia)) as HN. pose proof (Z.mod_pos_bound N digit_base ltac:(lia)) as Hm.
  assert (0 <= N < v * digit_base) as HNb by (unfold N, v, digit_ok in *; nia).
  assert (0 <= N / digit_base < v) as Hu by (split; [apply Z.div_pos; lia|apply Z.div_lt_upper_bound; lia]).
  set (u32 := N / digit_base) in *. set (u10 := N mod digit_base) in *.
  destruct (halves v ltac:(unfold digit_ok; lia)) as (Ev & Bv1 & Bv0). set (vn1 := v / kHalfDigitBase) in *. set (vn0 := v mod kHalfDigitBase) in *.
  destruct (halves u10 Hm) as (Eu & Bu1 & Bu0). set (un1 := u10 / kHalfDigitBase) in *. set (un0 := u10 mod kHalfDigitBase) in *.
  assert (kHalfDigitBase <= 2 * vn1) as Hnorm by by_halves.
  assert (vn1 * kHalfDigitBase + vn0 = v) as Hvv by lia.
  destruct (estimate_spec vn1 vn0 un1 Bv1 Bv0 Bu1 Hnorm u32 ltac:(lia)) as (E1 & E2 & E3).
  destruct (correct_quotient _ _ _ un1 _ _) as [q1 r1]. cbn [fst] in E1. rewrite Hvv in *. subst q1. rewrite E3.
  set (U1 := u32 * kHalfDigitBase + un1) in *.
  pose proof (Z.mod_pos_bound U1 v ltac:(lia)) as B21.
  destruct (estimate_spec vn1 vn0 un0 Bv1 Bv0 Bu0 Hnorm (U1 mod v) ltac:(lia)) as (F1 & F2 & F3).
  destruct (correct_quotient _ _ _ un0 _ _) as [q0 r0]. cbn [fst] in F1. rewrite Hvv in *. subst q0. rewrite F3.
  set (U0 := U1 mod v * kHalfDigitBase + un0) in *.
  pose proof (Z.div_mod U1 v ltac:(lia)) as D1. pose proof (Z.div_mod U0 v ltac:(lia)) as D0. pose proof (Z.mod_pos_bound U0 v ltac:(lia)) as B0.
  assert (N = v * (U1 / v * kHalfDigitBase + U0 / v) + U0 mod v) as Hfin.
  { unfold U0 in D0 at 1. rewrite HN, Eu. rewrite <- half_base. unfold U1 in D1 at 1. nia. }
  rewrite digit_add_l, digit_small by (unfold digit_ok; rewrite <- half_base; nia).
  rewrite Z.shiftr_div_pow2 by lia.
  assert (N / v = (high * digit_base + low) / divisor) as <- by (unfold N, v; rewrite Z.div_mul_cancel_r; [done|lia|lia]).
  assert (N mod v = (high * digit_base + low) mod divisor * 2 ^ s) as Hmod by (unfold N, v; rewrite Z.mul_mod_distr_r; [done|lia|lia]).
  f_equal.
  - by apply (Z.div_unique_pos _ _ _ (U0 mod v)).
  - assert (U0 mod v = N mod v) as -> by (by apply (Z.mod_unique_pos _ _ (U1 / v * kHalfDigitBase + U0 / v))).
    rewrite Hmod, Z.div_mul; [done|lia].
Qed.

(** ** Division with an inverse

    Moeller and Granlund, "Improved division by invariant integers", Algorithm 4. *)

Definition inverse_of (d : MultiplicativeDigitDiv) : Prop :=
  digit_ok (divisor_ d) /\ digit_base <= 2 * divisor_ d /\
  inverse_ d = (digit_base * digit_base - 1) / divisor_ d - digit_base.

Lemma ComputeInverse_spec divisor : digit_ok divisor -> digit_base <= 2 * divisor ->
  inverse_of (new_MultiplicativeDigitDiv divisor).
Proof.
  intros Hd Hn. pose proof digit_base_pos. unfold inverse_of, new_MultiplicativeDigitDiv, ComputeInverse. cbn [divisor_ inverse_].
  split_all; [done|done|]. assert (digit (Z.lnot divisor) = digit_base - 1 - divisor) as ->.
  { rewrite digit_mod. unfold Z.lnot. rewrite <- (Z.mod_add _ 1), Z.mod_small by numeric. lia. }
  change (digit (Z.lnot 0)) with (digit_base - 1). unfold digit_ok in *.
  rewrite digit_div_spec by (unfold digit_ok; lia). cbn [fst].
  replace ((digit_base - 1 - divisor) * digit_base + (digit_base - 1)) with (digit_base * digit_base - 1 + - digit_base * divisor) by ring.
  rewrite Z.div_add by lia. lia.
Qed.

(** The bounds of the candidate remainder. *)
Lemma candidate_remainder (B d v k u1 u0 q1 q0 : Z) :
  0 < B -> B <= 2 * d -> d < B -> d * (v + B) = B * B - k -> 1 <= k <= d -> 0 <= u1 < d -> 0 <= u0 < B -> 0 <= q0 < B ->
  q1 * B + q0 = u1 * (v + B) + u0 ->
  let r := u1 * B + u0 - (q1 + 1) * d in
  - d <= r /\ q0 + 1 - B <= r /\ (r < B - d \/ r < q0).
Proof.
  intros HB Hn Hd Hv Hk Hu1 Hu0 Hq0 Hq. cbv zeta. set (r := u1 * B + u0 - (q1 + 1) * d).
  assert (B * r = u0 * (B - d) + u1 * k + q0 * d - d * B) as Hr.
  { apply (f_equal (Z.mul d)) in Hq. unfold r.
    replace (B * (u1 * B + u0 - (q1 + 1) * d)) with (u1 * (B * B) + u0 * B - d * (q1 * B + q0) + q0 * d - d * B) by ring.
    rewrite Hq. replace (d * (u1 * (v + B) + u0)) with (u1 * (d * (v + B)) + u0 * d) by ring. rewrite Hv. ring. }
  assert (0 <= u0 * (B - d) <= (B - 1) * (B - d)) as H1 by nia.
  assert (0 <= u1 * k <= (d - 1) * d) as H2 by nia. split_all.
  - apply (Zmult_le_reg_r _ _ B); nia.
  - apply Z.lt_succ_r, (Zmult_lt_reg_r _ _ B); nia.
  - destruct (Z.le_gt_cases q0 (B - d)); [left|right]; apply (Zmult_lt_reg_r _ _ B); nia.
Qed.

Lemma quotient_pair N d k r : 0 <= N < d * digit_base -> N = k * d + r -> 0 <= r < d -> (digit k, r) = (N / d, N mod d).
Proof.
  intros HN He Hr. f_equal.
  - assert (k = N / d) as -> by (apply (Z.div_unique_pos _ _ _ r); lia). apply digit_small.
    split; [apply Z.div_pos; lia|apply Z.div_lt_upper_bound; lia].
  - apply (Z.mod_unique_pos _ _ k); lia.
Qed.

Lemma div_spec d high low : inverse_of d -> digit_ok low -> 0 <= high < divisor_ d ->
  div d high low = ((high * digit_base + low) / divisor_ d, (high * digit_base + low) mod divisor_ d).
Proof.
  intros (Hd & Hn & Hi) Hl Hh. pose proof digit_base_pos as HB. unfold div. rewrite Hi. destruct d as [d i]. cbn [divisor_ inverse_] in *.
  set (v := (digit_base * digit_base - 1) / d - digit_base).
  pose proof (Z.div_mod (digit_base * digit_base - 1) d ltac:(lia)) as Hdm.
  pose proof (Z.mod_pos_bound (digit_base * digit_base - 1) d ltac:(lia)) as Hmb.
  set (m := (digit_base * digit_base - 1) mod d) in *. assert (d * (v + digit_base) = digit_base * digit_base - (m + 1)) as Hv by (unfold v; lia).
  unfold digit_ok in *. assert (0 <= v < digit_base) as Hvb by (clear -Hv Hmb Hn Hd; nia).
  destruct (digit_mul high v) as [p0 p1] eqn:Hm. destruct (digit_mul_spec _ _ _ _ Hm) as (M1 & M2 & M3); [unfold digit_ok; lia..|].
  destruct (digit_add2 p0 low) as [q0 c] eqn:H1. destruct (digit_add2_spec _ _ _ _ H1 M2 Hl) as (A1 & A2 & A3).
  destruct (digit_add3 p1 high c) as [q1 c'] eqn:H2. destruct (digit_add3_carry _ _ _ _ _ H2 M3) as (C1 & C2 & C3); [unfold digit_ok; lia|done|].
  assert (q0 + digit_base * (q1 + digit_base * c') = high * (v + digit_base) + low) as Hq by (clear -C1 A1 M1; nia).
  assert (high * (v + digit_base) + low < digit_base * digit_base) as Hov.
  { assert (high * (v + digit_base) <= (d - 1) * (v + digit_base)) by (apply Z.mul_le_mono_nonneg_r; lia). nia. }
  assert (c' = 0 \/ c' = 1) as [->| ->] by lia; [|exfalso; clear -Hq Hov C2 A2 HB; unfold digit_ok in *; nia]. unfold digit_ok in *.
  destruct (candidate_remainder digit_base d v (m + 1) high low q1 q0) as (R1 & R2 & R3); [lia..|].
  assert (0 <= high * digit_base + low < d * digit_base) as HN by (clear -Hh Hl HB; nia).
  set (N := high * digit_base + low) in *. set (r := N - (q1 + 1) * d) in *.
  assert (digit (low - digit (digit (q1 + 1) * d)) = digit r) as ->.
  { rewrite digit_sub_r. rewrite !digit_mod. rewrite <- (Zminus_mod_idemp_r low (_ * d)), Zmult_mod_idemp_l, Zminus_mod_idemp_r.
    unfold r, N. replace (high * digit_base + low - (q1 + 1) * d) with (low - (q1 + 1) * d + high * digit_base) by ring. by rewrite Z.mod_add by lia. }
  assert (forall k, digit (digit (q1 + 1) + k) = digit (q1 + 1 + k)) as Hk by (intros; apply digit_add_l).
  destruct (Z.neg_nonneg_cases r) as [Hneg|Hpos].
  - assert (digit r = r + digit_base) as -> by (rewrite digit_mod, <- (Z.mod_add r 1), Z.mod_small by lia; lia).
    destruct (Z.ltb_spec q0 (r + digit_base)); [|lia].
    assert (digit (r + digit_base + d) = r + d) as -> by (rewrite digit_mod; replace (r + digit_base + d) with (r + d + 1 * digit_base) by lia; rewrite Z.mod_add, Z.mod_small; lia).
    destruct (Z.leb_spec d (r + d)); [lia|]. unfold Z.sub at 1. rewrite Hk. apply quotient_pair; [done|unfold r; ring|lia].
  - rewrite (digit_small r) by (unfold digit_ok; lia). destruct (Z.ltb_spec q0 r).
    + rewrite (digit_small (r + d)) by (unfold digit_ok; lia). destruct (Z.leb_spec d (r + d)); [|lia].
      rewrite digit_add_l. unfold Z.sub at 1. rewrite <- Z.add_assoc, Hk. rewrite (digit_small (r + d - d)) by (unfold digit_ok; lia).
      apply quotient_pair; [done|unfold r; ring|lia].
    + destruct (Z.leb_spec d r).
      * rewrite Hk, (digit_small (r - d)) by (unfold digit_ok; lia). apply quotient_pair; [done|unfold r; ring|lia].
      * apply quotient_pair; [done|unfold r; ring|lia].
Qed.
