(* ===== verification/DigitsDivide.v ===== *)
(** Division of digit vectors: by a digit (src/src/bigint/bigint-inl.h) and Knuth's
    Algorithm D (src/src/bigint/div-schoolbook.cc), with the processor that counts the work
    and asks the platform for interrupts (src/src/bigint/bigint-internal.h). *)
From S2P Require Import Prelude Conversions Digits DigitsLinear DigitsMultiply DigitDivision.

(** ** The processor *)

(** [platform_] holds the answers of InterruptRequested that are still to come. *)
Record Processor := { status_ : bool; work_estimate_ : Z; platform_ : list bool }.

Definition kWorkEstimateThreshold : Z := 5000000.

Definition InterruptRequested (p : Processor) : bool * Processor :=
  (default false (head (platform_ p)), {| status_ := status_ p; work_estimate_ := work_estimate_ p; platform_ := tail (platform_ p) |}).

Definition AddWorkEstimate (estimate : Z) (p : Processor) : Processor :=
  let w := wrap 64 (work_estimate_ p + estimate) in
  if kWorkEstimateThreshold <=? w then
    let '(requested, p) := InterruptRequested p in
    {| status_ := if requested then true else status_ p; work_estimate_ := 0; platform_ := platform_ p |}
  else {| status_ := status_ p; work_estimate_ := w; platform_ := platform_ p |}.

Definition should_terminate (p : Processor) : bool := status_ p.

(** The status is [true] when the computation was interrupted. *)
Definition get_and_clear_status (p : Processor) : bool * Processor :=
  (status_ p, {| status_ := false; work_estimate_ := work_estimate_ p; platform_ := platform_ p |}).

(** ** Division by a digit *)

(** Q[i] = digit_div(rem, A[i], b, &rem) for the [i] low digits, from the top. *)
Fixpoint divide_loop (A : list Z) (b : Z) (i : nat) (rem : Z) : list Z * Z :=
  match i with
  | O => ([], rem)
  | S i =>
    let '(q, rem) := digit_div rem (A.[i]) b in
    let '(qs, rem) := divide_loop A b i rem in
    (qs ++ [q], rem)
  end.

(** The quotient with its top digit and the remainder; [None] where the unsigned index
    [length - 2] wraps around and the code reads beyond the vectors. *)
Definition DivideSingle (Q_len : nat) (A : list Z) (b : Z) : option (list Z * Z * Z) :=
  if b <=? msd A then
    let '(qs, rem) := divide_loop A b (length A) 0 in
    let qs := extend Q_len qs in
    Some (qs, top_digit qs, rem)
  else if (length A =? 1)%nat then None
  else
    let '(qs, rem) := divide_loop A b (length A - 1) (msd A) in
    let qs := extend Q_len qs in
    Some (qs, top_digit qs, rem).

Definition ModSingle (A : list Z) (b : Z) : Z :=
  if b <=? msd A then (divide_loop A b (length A) 0).2
  else (divide_loop A b (length A - 1) (msd A)).2.

(** The outcome of a division that handles small operands only. *)
Inductive small (A : Type) :=
| Done (a : A)
| TooLarge
| OutOfRange.
Arguments Done {A} a.
Arguments TooLarge {A}.
Arguments OutOfRange {A}.

Definition DivideSmall (Q_len : nat) (A B : list Z) : small (list Z * Z) :=
  let cmp := CompareNoNormalize A B in
  if cmp <? 0 then Done (Clear Q_len, 0)
  else if cmp =? 0 then
    let qs := extend Q_len [1] in
    Done (qs, top_digit qs)
  else if (length B =? 1)%nat then
    match DivideSingle Q_len A (B.[O]) with
    | Some (qs, top, _) => Done (qs, top)
    | None => OutOfRange
    end
  else TooLarge.

Definition ModuloSmall (R_len : nat) (A B : list Z) : small (list Z * Z) :=
  let cmp := CompareNoNormalize A B in
  if cmp <? 0 then
    let rs := extend R_len A in
    Done (rs, top_digit rs)
  else if cmp =? 0 then Done (Clear R_len, 0)
  else if (length B =? 1)%nat then
    let rs := extend R_len [ModSingle A (B.[O])] in
    Done (rs, top_digit rs)
  else TooLarge.

(** ** Algorithm D *)

Definition ProductGreaterThan (factor1 factor2 high low : Z) : bool :=
  let '(result_low, result_high) := digit_mul factor1 factor2 in
  (high <? result_high) || ((result_high =? high) && (low <? result_low)).

(** ShiftedDigits(original, scratch): the digits, shifted until the top bit is set, and the shift. *)
Definition ShiftedDigits (original : list Z) : list Z * Z :=
  let shift_ := CountLeadingZeros kDigitBits (msd original) in
  (LeftShift_int (length original) original shift_, shift_).

(** while (ProductGreaterThan(qhat, vn2, rhat, ujn2)) ..., at most two iterations. *)
Fixpoint decrement_estimate (fuel : nat) (vn1 vn2 ujn2 qhat rhat : Z) : Z :=
  match fuel with
  | O => qhat
  | S fuel =>
    if ProductGreaterThan qhat vn2 rhat ujn2 then
      let qhat := digit (qhat - 1) in
      let prev_rhat := rhat in
      let rhat := digit (rhat + vn1) in
      if rhat <? prev_rhat then qhat else decrement_estimate fuel vn1 vn2 ujn2 qhat rhat
    else qhat
  end.

(** D3. *)
Definition estimate_qhat (vn1_divisor : MultiplicativeDigitDiv) (BN U : list Z) (j : nat) : Z :=
  let n := length BN in
  let vn1 := BN.[n - 1] in
  let ujn := U.[j + n] in
  if negb (ujn =? vn1) then
    let '(qhat, rhat) := div vn1_divisor ujn (U.[j + n - 1]) in
    let vn2 := BN.[n - 2] in
    let ujn2 := U.[j + n - 2] in
    decrement_estimate 3 vn1 vn2 ujn2 qhat rhat
  else digit_base - 1.

(** D4: the quotient digit and what is left of the dividend. *)
Definition multiply_and_subtract (BN U : list Z) (j : nat) (qhat : Z) (p : Processor) : Z * list Z * Processor :=
  let n := length BN in
  if qhat =? 0 then (qhat, U, p)
  else
    let qhatv := (MultiplySingle (S n) BN qhat).1 in
    let p := AddWorkEstimate (Z.of_nat n) p in
    let '(Uj, c) := InplaceSubAndReturnBorrow (drop j U) qhatv in
    if negb (c =? 0) then
      let '(Uj, c) := InplaceAddAndReturnCarry Uj BN in
      (digit (qhat - 1), take j U ++ <[n := digit (Uj.[n] + c)]> Uj, p)
    else (qhat, take j U ++ Uj, p).

(** for (int j = m; j >= 0; j--), for the [j] low positions. *)
Fixpoint quotient_loop (vn1_divisor : MultiplicativeDigitDiv) (BN : list Z) (j : nat) (U : list Z) (p : Processor) : list Z * list Z * Processor :=
  match j with
  | O => ([], U, p)
  | S j =>
    let qhat := estimate_qhat vn1_divisor BN U j in
    let '(qhat, U, p) := multiply_and_subtract BN U j qhat p in
    let '(qs, U, p) := quotient_loop vn1_divisor BN j U p in
    (qs ++ [qhat], U, p)
  end.

(** The contents of Q and R; a vector of length 0 is one the caller does not ask for. *)
Definition DivideSchoolbook (Q_len R_len : nat) (A B : list Z) (p : Processor) : list Z * list Z * Processor :=
  let n := length B in
  let m := (length A - n)%nat in
  let '(BN, shift) := ShiftedDigits B in
  let U := LeftShift_int (S (length A)) A shift in
  let vn1_divisor := new_MultiplicativeDigitDiv (BN.[n - 1]) in
  let '(qs, U, p) := quotient_loop vn1_divisor BN (S m) U p in
  (extend Q_len (take Q_len qs), if (R_len =? 0)%nat then [] else RightShift_int R_len U shift, p).

(** ** Division by a digit *)

Lemma divide_loop_spec A b i rem qs rem' : digits_ok A -> digit_ok b -> 0 <= rem < b -> (i <= length A)%nat ->
  divide_loop A b i rem = (qs, rem') ->
  dval qs * b + rem' = dval (take i A) + weight i * rem /\ 0 <= rem' < b /\ digits_ok qs /\ length qs = i.
Proof.
  intros HA Hb. revert rem qs rem'. induction i as [|i IH]; intros rem qs rem' Hr Hi; cbn [divide_loop].
  { intros [= <- <-]. rewrite weight_0. simpl. split_all; [lia|lia|lia|constructor|done]. }
  rewrite digit_div_spec by (done || by apply digit_at). destruct (divide_loop _ _ _ _) as [qs1 rem1] eqn:He. intros [= <- <-].
  pose proof (digit_at A i HA) as Ha. set (N := rem * digit_base + A.[i]) in *. pose proof digit_base_pos.
  pose proof (Z.mod_pos_bound N b ltac:(lia)) as Hm. pose proof (Z.div_mod N b ltac:(lia)) as Hd.
  destruct (IH _ _ _ Hm ltac:(lia) He) as (I1 & I2 & I3 & I4).
  rewrite dval_snoc, length_app, I4, take_S_total, dval_snoc, length_take, Nat.min_l, weight_S by lia. simpl.
  apply (f_equal (Z.mul (weight i))) in Hd. unfold N in Hd at 1. split_all; [nia|lia|lia| |lia].
  apply app_ok, Forall_singleton; [done|]. unfold digit_ok in *.
  split; [apply Z.div_pos; unfold N; nia|apply Z.div_lt_upper_bound; unfold N; nia].
Qed.

(** The first digit of the quotient needs no division when the top digit is smaller than the divisor. *)
Lemma top_as_remainder A b : digits_ok A -> A <> [] -> digit_ok b -> msd A < b ->
  dval (take (length A - 1) A) + weight (length A - 1) * msd A = dval A /\ 0 <= msd A < b.
Proof.
  intros HA H0 Hb Hm. split; [symmetry; by apply msd_split|]. destruct (digit_at A (length A - 1) HA). done.
Qed.

Lemma DivideSingle_spec n A b : digits_ok A -> digit_ok b -> b <> 0 -> A <> [] -> (length A <= n)%nat ->
  (2 <= length A)%nat \/ b <= msd A ->
  exists qs top rem, DivideSingle n A b = Some (qs, top, rem) /\
    dval A = dval qs * b + rem /\ 0 <= rem < b /\ digits_ok qs /\ length qs = n.
Proof.
  intros HA Hb Hb0 H0 Hn Hc. unfold DivideSingle. destruct (Z.leb_spec b (msd A)) as [Hm|Hm].
  - destruct (divide_loop _ _ _ _) as [qs rem] eqn:He.
    destruct (divide_loop_spec A b (length A) 0 qs rem HA Hb ltac:(unfold digit_ok in *; lia) ltac:(done) He) as (D1 & D2 & D3 & D4).
    rewrite take_ge in D1 by done. do 3 eexists. split; [done|]. rewrite dval_extend, length_extend by lia.
    split_all; [lia|lia|lia|by apply extend_ok|done].
  - destruct (Nat.eqb_spec (length A) 1) as [H1|H1]; [lia|].
    destruct (top_as_remainder A b HA H0 Hb Hm) as [T1 T2].
    destruct (divide_loop _ _ _ _) as [qs rem] eqn:He.
    destruct (divide_loop_spec A b (length A - 1) _ qs rem HA Hb T2 ltac:(lia) He) as (D1 & D2 & D3 & D4).
    do 3 eexists. split; [done|]. rewrite dval_extend, length_extend by lia.
    split_all; [lia|lia|lia|by apply extend_ok|done].
Qed.

(** With a single digit below the divisor, the index of the next digit wraps around. *)
Lemma DivideSingle_wraps n a b : a < b -> DivideSingle n [a] b = None.
Proof. intros Hab. unfold DivideSingle, msd. simpl. by destruct (Z.leb_spec b a); [lia|]. Qed.

Lemma ModSingle_spec A b : digits_ok A -> digit_ok b -> b <> 0 -> A <> [] -> ModSingle A b = dval A mod b.
Proof.
  intros HA Hb Hb0 H0. unfold ModSingle. destruct (Z.leb_spec b (msd A)) as [Hm|Hm].
  - destruct (divide_loop _ _ _ _) as [qs rem] eqn:He.
    destruct (divide_loop_spec A b (length A) 0 qs rem HA Hb ltac:(unfold digit_ok in *; lia) ltac:(done) He) as (D1 & D2 & D3 & D4).
    rewrite take_ge in D1 by done. apply (Z.mod_unique_pos _ _ (dval qs)); simpl; lia.
  - destruct (top_as_remainder A b HA H0 Hb Hm) as [T1 T2]. destruct (divide_loop _ _ _ _) as [qs rem] eqn:He.
    destruct (divide_loop_spec A b (length A - 1) _ qs rem HA Hb T2 ltac:(lia) He) as (D1 & D2 & D3 & D4).
    apply (Z.mod_unique_pos _ _ (dval qs)); simpl; lia.
Qed.

(** Small operands: a quotient, or the case is left to the processor. *)
Lemma DivideSmall_spec n A B : digits_ok A -> digits_ok B -> IsDigitNormalized A = true -> IsDigitNormalized B = true ->
  B <> [] -> (length A - length B + 1 <= n)%nat -> (1 <= n)%nat ->
  match DivideSmall n A B with
  | Done (qs, _) => dval qs = dval A / dval B /\ digits_ok qs /\ length qs = n
  | TooLarge => dval B < dval A /\ (2 <= length B <= length A)%nat
  | OutOfRange => False
  end.
Proof.
  intros HA HB NA NB H0 Hn Hn1. unfold DivideSmall, Clear. destruct (CompareNoNormalize_cases A B HA HB NA NB) as (C1 & C2 & C3).
  pose proof (normalized_bound B HB NB H0). pose proof (weight_pos (length B - 1)). pose proof (dval_bounds A HA).
  destruct (Z.ltb_spec (CompareNoNormalize A B) 0).
  { rewrite dval_zeros, length_replicate, Z.div_small by lia. split_all; [done|apply zeros_ok|done]. }
  destruct (Z.eqb_spec (CompareNoNormalize A B) 0) as [He|He].
  { apply C2 in He as ->. rewrite dval_extend, length_extend, Z.div_same by (simpl; lia). simpl.
    split_all; [lia|apply extend_ok; repeat constructor; numeric|done]. }
  assert (dval B < dval A) as Hlt by lia. pose proof (normalized_le A B HA HB NB ltac:(lia)).
  destruct (Nat.eqb_spec (length B) 1) as [Hone|Hone].
  2: { split; [done|]. destruct B as [|? [|? ?]]; simpl in *; try done; lia. }
  destruct B as [|b [|? ?]]; try done. cbn [nth dval length] in *. apply Forall_cons in HB as [Hb _].
  assert (A <> []) as HA0 by (intros ->; simpl in *; lia).
  destruct (DivideSingle_spec n A b HA Hb ltac:(lia) HA0 ltac:(lia)) as (qs & top & rem & -> & D1 & D2 & D3 & D4).
  { destruct A as [|a [|? ?]]; [done|right; unfold msd; simpl in *; lia|left; simpl; lia]. }
  split_all; [|done|done]. rewrite Z.mul_0_r, Z.add_0_r. apply (Z.div_unique_pos _ _ _ rem); lia.
Qed.

Lemma ModuloSmall_spec n A B : digits_ok A -> digits_ok B -> IsDigitNormalized A = true -> IsDigitNormalized B = true ->
  B <> [] -> (length B <= n)%nat ->
  match ModuloSmall n A B with
  | Done (rs, _) => dval rs = dval A mod dval B /\ digits_ok rs /\ length rs = n
  | TooLarge => dval B < dval A /\ (2 <= length B <= length A)%nat
  | OutOfRange => False
  end.
Proof.
  intros HA HB NA NB H0 Hn. unfold ModuloSmall, Clear. destruct (CompareNoNormalize_cases A B HA HB NA NB) as (C1 & C2 & C3).
  pose proof (normalized_bound B HB NB H0). pose proof (weight_pos (length B - 1)). pose proof (dval_bounds A HA).
  destruct (Z.ltb_spec (CompareNoNormalize A B) 0).
  { pose proof (normalized_le B A HB HA NA ltac:(lia)).
    rewrite dval_extend, length_extend, Z.mod_small by lia. split_all; [done|by apply extend_ok|done]. }
  destruct (Z.eqb_spec (CompareNoNormalize A B) 0) as [He|He].
  { apply C2 in He as ->. rewrite dval_zeros, length_replicate, Z.mod_same by lia. split_all; [done|apply zeros_ok|done]. }
  assert (dval B < dval A) as Hlt by lia. pose proof (normalized_le A B HA HB NB ltac:(lia)).
  destruct (Nat.eqb_spec (length B) 1) as [Hone|Hone].
  2: { split; [done|]. destruct B as [|? [|? ?]]; simpl in *; try done; lia. }
  destruct B as [|b [|? ?]]; try done. cbn [nth dval length] in *. apply Forall_cons in HB as [Hb _].
  assert (A <> []) as HA0 by (intros ->; simpl in *; lia).
  rewrite dval_extend, length_extend by (simpl; lia). cbn [dval]. rewrite Z.mul_0_r, !Z.add_0_r, ModSingle_spec by (done || lia).
  split_all; [done| |done]. apply extend_ok, Forall_singleton. pose proof (Z.mod_pos_bound (dval A) b ltac:(lia)). unfold digit_ok in *. lia.
Qed.

(** ** The estimate of a quotient digit *)

Lemma ProductGreaterThan_spec f1 f2 high low : digit_ok f1 -> digit_ok f2 -> digit_ok low ->
  ProductGreaterThan f1 f2 high low = (high * digit_base + low <? f1 * f2).
Proof.
  intros H1 H2 Hl. unfold ProductGreaterThan. destruct (digit_mul f1 f2) as [l h] eqn:Hm.
  destruct (digit_mul_spec _ _ _ _ Hm H1 H2) as (M1 & M2 & M3). unfold digit_ok in *.
  destruct (Z.ltb_spec high h), (Z.eqb_spec h high), (Z.ltb_spec low l), (Z.ltb_spec (high * digit_base + low) (f1 * f2)); simpl; try done; nia.
Qed.

Section decrement.
Context (vn1 vn2 ujn2 : Z).
Hypothesis Hvn1 : digit_ok vn1.
Hypothesis Hvn2 : digit_ok vn2.
Hypothesis Hujn2 : digit_ok ujn2.
Hypothesis normalized : digit_base <= 2 * vn1.

Lemma decrement_estimate_spec fuel q rhat : 0 <= rhat < digit_base -> digit_base <= rhat + Z.of_nat fuel * vn1 -> digit_ok q ->
  ((q * vn1 + rhat) * digit_base + ujn2) / (vn1 * digit_base + vn2) <= q ->
  decrement_estimate fuel vn1 vn2 ujn2 q rhat = ((q * vn1 + rhat) * digit_base + ujn2) / (vn1 * digit_base + vn2).
Proof using All.
  pose proof digit_base_pos as HB. unfold digit_ok in *. set (w := vn1 * digit_base + vn2).
  assert (0 < w) as Hw by (unfold w; nia).
  revert q rhat. induction fuel as [|fuel IH]; intros q rhat Hr Hf Hq HQ; [lia|]. cbn [decrement_estimate].
  set (U := (q * vn1 + rhat) * digit_base + ujn2) in *.
  assert (q * w = U - ujn2 - rhat * digit_base + q * vn2) as Hqw by (unfold w, U; ring).
  assert (forall k, k * w <= U -> k <= U / w) as Hge by (intros; apply Z.div_le_lower_bound; lia).
  assert (0 <= U / w) as HU0 by (apply Z.div_pos; unfold U; nia).
  rewrite ProductGreaterThan_spec by done. destruct (Z.ltb_spec (rhat * digit_base + ujn2) (q * vn2)) as [Hc|Hc].
  2: { apply Z.le_antisymm; [apply Hge; lia|done]. }
  assert (U / w < q) as Hgt by (apply Z.div_lt_upper_bound; lia). rewrite (digit_small (q - 1)) by (unfold digit_ok; lia).
  destruct (Z.lt_ge_cases (rhat + vn1) digit_base) as [Hb|Hb].
  - rewrite (digit_small (rhat + vn1)) by (unfold digit_ok; lia). destruct (Z.ltb_spec (rhat + vn1) rhat); [lia|].
    assert ((q - 1) * vn1 + (rhat + vn1) = q * vn1 + rhat) as He by ring. rewrite IH, He; [done|lia|lia|lia|]. rewrite He. fold U. lia.
  - assert (digit (rhat + vn1) = rhat + vn1 - digit_base) as -> by (rewrite digit_mod; symmetry; apply (Z.mod_unique_pos _ _ 1); lia).
    destruct (Z.ltb_spec (rhat + vn1 - digit_base) rhat); [|lia]. apply Z.le_antisymm; [|lia]. apply Hge.
    assert ((q - 1) * vn2 <= digit_base * digit_base) by nia. nia.
Qed.
End decrement.

(** Knuth's Theorem B: with a normalized divisor, the estimate from the top digits is the
    quotient digit or one more. [P] is the weight of the digits below. *)
Section knuth.
Context (B P vn1 vn2 v u0 u1 u2 u : Z).
Hypothesis HB : 0 < B.
Hypothesis HP : 0 < P.
Hypothesis Hvn1 : 0 <= vn1 < B.
Hypothesis normalized : B <= 2 * vn1.
Hypothesis Hvn2 : 0 <= vn2 < B.
Hypothesis Hv : 0 <= v < P.
Hypothesis Hu0 : 0 <= u0 < B.
Hypothesis Hu1 : 0 <= u1 < B.
Hypothesis Hu2 : 0 <= u2 < B.
Hypothesis Hu : 0 <= u < P.

Let V := v + P * (vn2 + B * vn1).
Let N := u + P * (u2 + B * (u1 + B * u0)).
Hypothesis HN : N < V * B.

Lemma knuth_positive : 0 < V.
Proof using All.
  assert (0 < B * vn1) by (apply Z.mul_pos_pos; lia). assert (0 < P * (vn2 + B * vn1)) by (apply Z.mul_pos_pos; lia).
  unfold V. lia.
Qed.

Lemma knuth_top : u0 <= vn1.
Proof using All.
  apply Z.lt_succ_r, (Zmult_lt_reg_r _ _ (P * B * B)); [nia|].
  assert (P * B * B * u0 <= N) by (unfold N; nia). assert (V < P * (B * (vn1 + 1))) by (unfold V; nia). nia.
Qed.

Lemma knuth_equal : u0 = vn1 -> N / V <= B - 1 <= N / V + 1.
Proof using All.
  intros He. pose proof knuth_positive. split.
  - apply Z.lt_succ_r, Z.div_lt_upper_bound; lia.
  - assert (B - 2 <= N / V); [|lia]. apply Z.div_le_lower_bound; [done|].
    assert (V < P * (B * (vn1 + 1))) as H1 by (unfold V; nia). assert (P * (B * (B * vn1)) <= N) as H2 by (unfold N; rewrite He; nia).
    assert (P * (B * B) <= 2 * V) as H3 by (unfold V; nia). nia.
Qed.

Lemma knuth_estimate : let Q := ((u0 * B + u1) * B + u2) / (vn1 * B + vn2) in N / V <= Q /\ (Q < B -> Q <= N / V + 1).
Proof using All.
  cbv zeta. pose proof knuth_positive as HV. set (w := vn1 * B + vn2). assert (0 < w) as Hw by (unfold w; nia).
  set (U := (u0 * B + u1) * B + u2). pose proof (Z.mul_div_le U w Hw) as Hle.
  assert (0 <= U / w) as HQ by (apply Z.div_pos; [unfold U; nia|done]). split.
  - apply Z.div_le_lower_bound; [done|]. pose proof (Z.mul_div_le N V HV).
    assert (0 <= N / V) by (apply Z.div_pos; [unfold N; nia|done]).
    apply Z.lt_succ_r, (Zmult_lt_reg_r _ _ P); [done|].
    assert (P * w <= V) by (unfold V, w; nia). assert (N < P * (U + 1)) by (unfold N, U; nia). nia.
  - intros HQB. assert (U / w - 1 <= N / V); [|lia]. apply Z.div_le_lower_bound; [done|].
    assert (P * (B * B) <= 2 * V) by (unfold V; nia).
    assert (v * (U / w) <= P * B) by nia. assert (P * U <= N) by (unfold N, U; nia).
    assert (V * (U / w - 1) = P * (w * (U / w)) + v * (U / w) - V) as -> by (unfold V, w; ring).
    assert (P * (w * (U / w)) <= P * U) by nia. assert (P * B <= V) by (unfold V; nia). lia.
Qed.
End knuth.

(** ** A quotient digit *)

(** The divisor of the algorithm: at least two digits, the top bit set. *)
Definition divisor_ok (BN : list Z) : Prop :=
  digits_ok BN /\ (2 <= length BN)%nat /\ digit_base <= 2 * BN.[length BN - 1].

Lemma divisor_split BN : divisor_ok BN ->
  dval BN = dval (take (length BN - 2) BN) + weight (length BN - 2) * (BN.[length BN - 2] + digit_base * BN.[length BN - 1]).
Proof.
  intros (HB & Hl & _). rewrite (dval_at BN (length BN - 2)) at 1. do 3 f_equal.
  replace (S (length BN - 2)) with (length BN - 1)%nat by lia. rewrite (dval_at (drop _ _) 0), drop_at, Nat.add_0_r.
  rewrite take_0, drop_drop, (drop_ge BN), weight_0 by lia. simpl. lia.
Qed.

Lemma divisor_bounds BN : divisor_ok BN -> 0 < dval BN /\ weight (length BN) <= 2 * dval BN /\ dval BN < weight (length BN).
Proof.
  intros (HB & Hl & Hn). pose proof (msd_bounds BN HB ltac:(by intros ->; simpl in Hl; lia)) as Hm. unfold msd in Hm.
  pose proof (dval_bounds BN HB) as Hb. pose proof (weight_pos (length BN - 1)).
  assert (weight (length BN) = digit_base * weight (length BN - 1)) as HW by (rewrite <- weight_S; f_equal; lia).
  rewrite HW in Hb |- *.
  pose proof digit_base_pos. split_all; nia.
Qed.

Lemma estimate_qhat_spec BN U j : divisor_ok BN -> digits_ok U -> (j + length BN < length U)%nat ->
  dval (drop j U) < dval BN * digit_base ->
  let q := dval (drop j U) / dval BN in
  let qhat := estimate_qhat (new_MultiplicativeDigitDiv (BN.[length BN - 1])) BN U j in
  digit_ok qhat /\ q <= qhat <= q + 1.
Proof.
  intros HBN HU Hj Hu. pose proof HBN as (HB & Hl & Hn). pose proof (divisor_bounds BN HBN) as (V1 & V2 & V3).
  set (n := length BN) in *. set (u := drop j U) in *. cbv zeta.
  assert (digits_ok u) as Huo by (by apply drop_ok). assert (length u = (length U - j)%nat) as Hul by apply length_drop.
  assert (dval (drop (S n) u) = 0) as Htop.
  { apply dval_drop_zero; [done| |lia]. rewrite weight_S. pose proof digit_base_pos. nia. }
  assert (dval u = dval (take (n - 2) u) + weight (n - 2) * (u.[n - 2] + digit_base * (u.[n - 1] + digit_base * u.[n]))) as Hsplit.
  { rewrite (dval_at u (n - 2)) at 1. do 3 f_equal. replace (S (n - 2)) with (n - 1)%nat by lia.
    rewrite (dval_at (drop (n - 1) u) 0), drop_at, drop_drop, take_0, weight_0, Nat.add_0_r. simpl.
    replace (n - 1 + 1)%nat with n by lia. rewrite (dval_at (drop n u) 0), drop_at, drop_drop, take_0, weight_0, Nat.add_0_r. simpl.
    rewrite Nat.add_1_r, Htop. lia. }
  pose proof (divisor_split BN HBN) as HV. fold n in HV.
  pose proof (digit_at BN (n - 1) HB) as B1. pose proof (digit_at BN (n - 2) HB) as B2. pose proof (dval_take_small BN (n - 2) HB) as Bl.
  pose proof (digit_at u n Huo) as U0. pose proof (digit_at u (n - 1) Huo) as U1. pose proof (digit_at u (n - 2) Huo) as U2.
  pose proof (dval_take_small u (n - 2) Huo) as Ul. pose proof digit_base_pos as HB0. pose proof (weight_pos (n - 2)) as HP.
  rewrite HV, Hsplit in Hu. unfold digit_ok in B1, B2, U0, U1, U2.
  pose proof (knuth_top _ _ _ _ _ _ _ _ _ HB0 HP B1 Hn B2 Bl U0 U1 U2 Ul Hu) as Ktop.
  pose proof (knuth_equal _ _ _ _ _ _ _ _ _ HB0 HP B1 Hn B2 Bl U0 U1 U2 Ul Hu) as Keq.
  pose proof (knuth_estimate _ _ _ _ _ _ _ _ _ HB0 HP B1 Hn B2 Bl U0 U1 U2 Ul Hu) as [K1 K2]. rewrite <- HV, <- Hsplit in *.
  unfold estimate_qhat. fold n. unfold u in U0, U1, U2, Ktop, Keq, K1, K2. rewrite !drop_at in *. fold u in Keq, K1, K2.
  replace (j + n - 1)%nat with (j + (n - 1))%nat by lia. replace (j + n - 2)%nat with (j + (n - 2))%nat by lia.
  destruct (Z.eqb_spec (U.[j + n]) (BN.[n - 1])) as [He|He]; cbn [negb].
  { split; [unfold digit_ok; lia|by apply Keq]. }
  rewrite div_spec by (unfold digit_ok; simpl; (by apply ComputeInverse_spec) || lia). cbn [new_MultiplicativeDigitDiv divisor_].
  set (u2 := U.[j + n] * digit_base + U.[j + (n - 1)]) in *. set (vn1 := BN.[n - 1]) in *.
  pose proof (Z.div_mod u2 vn1 ltac:(lia)) as Hd. pose proof (Z.mod_pos_bound u2 vn1 ltac:(lia)) as Hm.
  assert (u2 / vn1 * vn1 + u2 mod vn1 = u2) as Heq by lia.
  assert (0 <= u2 / vn1 < digit_base) as Hq by (split; [apply Z.div_pos; lia|apply Z.div_lt_upper_bound; nia]).
  rewrite (decrement_estimate_spec vn1 _ _ B1 B2 U2 Hn); rewrite ?Heq; [|lia|lia|done|].
  - set (Q := (u2 * _ + _) / _) in *. assert (Q < digit_base) as HQ.
    { apply Z.div_lt_upper_bound; nia. }
    split; [|lia]. split; [apply Z.div_pos; nia|done].
  - apply Z.lt_succ_r, Z.div_lt_upper_bound; [nia|]. nia.
Qed.

(** The digits above the operand, after an addition in place. *)
Lemma Inplace_high zs X k : (length X <= length zs)%nat -> (length X <= k)%nat ->
  drop k (InplaceAddAndReturnCarry zs X).1 = drop k zs /\ drop k (InplaceSubAndReturnBorrow zs X).1 = drop k zs.
Proof.
  intros Hl Hk. assert (forall f, length (carry_loop f (zip zs X) 0).1 = length X) as Hlen.
  { intros f. assert (length (zip zs X) = length X) as <- by (rewrite length_zip_with; lia). generalize (zip zs X) (0 : Z).
    intros l. induction l as [|a l IH]; intros c; simpl; [done|]. destruct (f a c) as [d c']. specialize (IH c').
    destruct (carry_loop f l c'). simpl in *. by rewrite IH. }
  unfold InplaceAddAndReturnCarry, InplaceSubAndReturnBorrow. split.
  - specialize (Hlen (fun p carry => digit_add3 p.1 p.2 carry)). destruct (carry_loop _ _ _) as [ds c]. cbn [fst] in *.
    rewrite drop_app_ge, drop_drop, Hlen by lia. f_equal. lia.
  - specialize (Hlen (fun p borrow => digit_sub2 p.1 p.2 borrow)). destruct (carry_loop _ _ _) as [ds c]. cbn [fst] in *.
    rewrite drop_app_ge, drop_drop, Hlen by lia. f_equal. lia.
Qed.

(** One position of the quotient: the exact digit, and the remainder in its place. *)
Lemma multiply_and_subtract_spec BN U j qhat p : divisor_ok BN -> digits_ok U -> (j + length BN < length U)%nat ->
  dval (drop j U) < dval BN * digit_base -> digit_ok qhat ->
  let u := dval (drop j U) in
  let q := u / dval BN in
  q <= qhat <= q + 1 ->
  exists U' p', multiply_and_subtract BN U j qhat p = (q, U', p') /\
    dval U' = dval (take j U) + weight j * (u mod dval BN) /\ digits_ok U' /\ length U' = length U /\ 0 <= q < digit_base.
Proof.
  intros HBN HU Hj Hu Hqh. cbv zeta. pose proof HBN as (HB & Hl & Hn). pose proof (divisor_bounds BN HBN) as (V1 & V2 & V3).
  set (n := length BN) in *. set (u := drop j U) in *. set (q := dval u / dval BN). intros Hq.
  assert (digits_ok u) as Huo by (by apply drop_ok). assert (length u = (length U - j)%nat) as Hul by apply length_drop.
  pose proof (dval_bounds u Huo) as Hub. pose proof digit_base_pos as HB0.
  pose proof (Z.div_mod (dval u) (dval BN) ltac:(lia)) as Hdm. pose proof (Z.mod_pos_bound (dval u) (dval BN) V1) as Hmb. fold q in Hdm.
  assert (0 <= q < digit_base) as Hqb by (split; [apply Z.div_pos; lia|apply Z.div_lt_upper_bound; lia]).
  assert (forall zs, length zs = length u -> digits_ok zs -> dval zs = dval u mod dval BN ->
    dval (take j U ++ zs) = dval (take j U) + weight j * (dval u mod dval BN) /\ digits_ok (take j U ++ zs) /\ length (take j U ++ zs) = length U) as Hout.
  { intros zs Hz1 Hz2 Hz3. rewrite dval_app, length_app, length_take, Nat.min_l, Hz3 by lia. split_all; [done|by auto with v8|lia]. }
  unfold multiply_and_subtract. fold n. fold u. destruct (Z.eqb_spec qhat 0) as [H0|H0].
  { assert (q = 0) as Hq0 by lia. rewrite Hq0, H0 in *. exists U, p. split; [done|]. split_all; [|done|done|lia|done].
    rewrite (dval_take_drop j U), length_take, Nat.min_l by lia. fold u. do 2 f_equal. lia. }
  destruct (MultiplySingle_spec (S n) BN qhat HB Hqh ltac:(lia)) as (M1 & M2 & M3). set (qhatv := (MultiplySingle _ _ _).1) in *.
  destruct (InplaceSubAndReturnBorrow u qhatv) as [zs c] eqn:Hs.
  destruct (InplaceSubAndReturnBorrow_spec _ _ _ _ Huo M2 ltac:(lia) Hs) as (S1 & S2 & S3 & S4). rewrite M1, M3, weight_S in S1.
  pose proof (dval_bounds zs S2) as Hzb.
  assert (dval u < digit_base * weight n) as Huw by (clear -Hu V3 HB0; nia).
  destruct (Z.eqb_spec c 0) as [Hc|Hc]; cbn [negb].
  - rewrite Hc in *. assert (qhat = q) as -> by (assert (dval BN * qhat <= dval u) by lia; clear -H Hdm Hmb Hq V1; nia).
    do 2 eexists. split; [done|]. destruct (Hout zs S3 S2 ltac:(lia)) as (O1 & O2 & O3). done.
  - assert (c = 1) as -> by lia. assert (dval (drop (S n) zs) = 0) as Hz0.
    { replace zs with (InplaceSubAndReturnBorrow u qhatv).1 by (by rewrite Hs). rewrite (proj2 (Inplace_high u qhatv (S n) ltac:(lia) ltac:(lia))).
      apply dval_drop_zero; [done|rewrite weight_S; lia|lia]. }
    destruct (InplaceAddAndReturnCarry zs BN) as [zs2 c2] eqn:Ha.
    destruct (InplaceAddAndReturnCarry_spec _ _ _ _ S2 HB ltac:(unfold n in *; lia) Ha) as (A1 & A2 & A3 & A4). fold n in A1.
    assert (dval (drop (S n) zs2) = 0) as Hz2.
    { replace zs2 with (InplaceAddAndReturnCarry zs BN).1 by (by rewrite Ha). rewrite (proj1 (Inplace_high zs BN (S n) ltac:(unfold n in *; lia) ltac:(unfold n in *; lia))). done. }
    pose proof (dval_at zs2 n) as Hat. rewrite Hz2 in Hat. pose proof (dval_take_small zs2 n A2) as Hlow. pose proof (digit_at zs2 n A2) as Hd.
    assert (dval zs < digit_base * weight n) as Hzs.
    { rewrite (dval_at zs n), Hz0. pose proof (dval_take_small zs n S2). pose proof (digit_at zs n S2). unfold digit_ok in *. clear -H H1. nia. }
    assert (qhat = q + 1) as -> by (assert (dval u < dval BN * qhat) by lia; clear -H Hdm Hmb Hq V1; nia).
    assert (dval (take n zs2) + weight n * (zs2.[n] + c2) = dval u mod dval BN + weight n * digit_base) as Hfin by lia.
    assert (zs2.[n] + c2 = digit_base) as Hcarry by (clear -Hfin Hlow Hmb V3; nia).
    rewrite Hcarry, (digit_small (q + 1 - 1)) by (unfold digit_ok; lia). replace (digit digit_base) with 0 by done.
    replace (q + 1 - 1) with q by lia. do 2 eexists. split; [done|].
    destruct (Hout (<[n := 0]> zs2)) as (O1 & O2 & O3); [rewrite length_insert; lia|apply insert_ok; [done|numeric]| |done].
    rewrite dval_insert by lia. rewrite Hcarry in Hfin. lia.
Qed.

(** The loop over positions divides. *)
Lemma quotient_loop_spec BN j U p : divisor_ok BN -> digits_ok U -> (j + length BN <= length U)%nat ->
  dval U < dval BN * weight j ->
  exists qs U' p', quotient_loop (new_MultiplicativeDigitDiv (BN.[length BN - 1])) BN j U p = (qs, U', p') /\
    dval U = dval qs * dval BN + dval U' /\ 0 <= dval U' < dval BN /\ digits_ok qs /\ length qs = j /\ digits_ok U' /\ length U' = length U.
Proof.
  intros HBN. revert U p. induction j as [|j IH]; intros U p HU Hj Hb; cbn [quotient_loop].
  { exists [], U, p. rewrite weight_0 in Hb. pose proof (dval_bounds U HU). simpl. split_all; (done || lia || constructor). }
  pose proof (divisor_bounds BN HBN) as (V1 & V2 & V3). pose proof (dval_take_small U j HU) as Hlow. pose proof (weight_pos j).
  assert (dval U = dval (take j U) + weight j * dval (drop j U)) as Hsp.
  { rewrite (dval_take_drop j U), length_take, Nat.min_l by lia. done. }
  assert (dval (drop j U) < dval BN * digit_base) as Hu.
  { rewrite weight_S in Hb. pose proof (dval_bounds _ (drop_ok j U HU)). pose proof digit_base_pos. clear -Hb Hsp Hlow H. nia. }
  destruct (estimate_qhat_spec BN U j HBN HU ltac:(lia) Hu) as [E1 E2]. set (qhat := estimate_qhat _ _ _ _) in *.
  destruct (multiply_and_subtract_spec BN U j qhat p HBN HU ltac:(lia) Hu E1 E2) as (U1 & p1 & -> & M1 & M2 & M3 & M4).
  pose proof (Z.div_mod (dval (drop j U)) (dval BN) ltac:(lia)) as Hdm. pose proof (Z.mod_pos_bound (dval (drop j U)) (dval BN) V1) as Hmb.
  set (q := dval (drop j U) / dval BN) in *. set (r := dval (drop j U) mod dval BN) in *.
  destruct (IH U1 p1 M2 ltac:(lia)) as (qs & U' & p' & -> & I1 & I2 & I3 & I4 & I5 & I6).
  { rewrite M1. clear -Hmb Hlow. nia. }
  do 3 eexists. split; [done|]. rewrite dval_snoc, length_app, I4. split_all; [|lia|lia|by apply app_ok, Forall_singleton|simpl; lia|done|lia].
  apply (f_equal (Z.mul (weight j))) in Hdm. rewrite Hsp, Hdm. lia.
Qed.

Lemma ShiftedDigits_spec B : digits_ok B -> (2 <= length B)%nat -> msd B <> 0 ->
  let '(BN, shift) := ShiftedDigits B in
  divisor_ok BN /\ length BN = length B /\ 0 <= shift < kDigitBits /\ dval BN = dval B * 2 ^ shift.
Proof.
  intros HB Hl Hm. unfold ShiftedDigits. destruct (leading_zeros_spec (msd B) (digit_at B _ HB) Hm) as (Hs & H1 & H2). cbv zeta in *.
  set (s := CountLeadingZeros kDigitBits (msd B)) in *. pose proof (pow2_log2_bounds s ltac:(lia)) as Hp.
  assert (B <> []) as H0 by (by intros ->; simpl in Hl; lia). pose proof (msd_bounds B HB H0) as Hb. pose proof (weight_pos (length B - 1)) as Hw.
  assert (weight (length B) = digit_base * weight (length B - 1)) as HW by (rewrite <- weight_S; f_equal; lia).
  assert ((msd B + 1) * 2 ^ s <= digit_base) as Htop.
  { assert (digit_base = 2 ^ (kDigitBits - s) * 2 ^ s) as HBs by (rewrite <- Z.pow_add_r by lia; unfold digit_base; f_equal; lia).
    rewrite HBs in H1 |- *. apply Z.mul_lt_mono_pos_r in H1; [|done]. nia. }
  assert (dval B * 2 ^ s < weight (length B)) as Hlt by (rewrite HW; clear -Hb Htop Hp Hw; nia).
  destruct (LeftShift_int_spec (length B) B s HB Hs ltac:(done) Hlt) as (L1 & L2 & L3). set (BN := LeftShift_int _ _ _) in *.
  split_all; [|done|lia|lia|done]. unfold divisor_ok. rewrite L3. split_all; [done|done|].
  pose proof (msd_bounds BN L2 ltac:(intros E; rewrite E in L3; simpl in L3; lia)) as Hn. unfold msd in Hn at 1 2. rewrite L3 in Hn.
  assert (msd B * 2 ^ s <= BN.[length B - 1]); [|lia]. clear -Hn Hb L1 Hw Hp. apply Z.lt_succ_r, (Zmult_lt_reg_r _ _ (weight (length B - 1))); nia.
Qed.

(** Algorithm D computes the quotient and the remainder. *)
Lemma DivideSchoolbook_spec Q_len R_len A B p : digits_ok A -> digits_ok B -> msd B <> 0 -> (2 <= length B <= length A)%nat ->
  Q_len = 0%nat \/ dval A / dval B < weight Q_len -> R_len = 0%nat \/ (length B <= R_len)%nat ->
  exists qs rs p', DivideSchoolbook Q_len R_len A B p = (qs, rs, p') /\
    (Q_len <> 0%nat -> dval qs = dval A / dval B) /\ digits_ok qs /\ length qs = Q_len /\
    (R_len <> 0%nat -> dval rs = dval A mod dval B) /\ digits_ok rs /\ length rs = R_len.
Proof.
  intros HA HB Hm Hl HQ HR. unfold DivideSchoolbook. pose proof (ShiftedDigits_spec B HB ltac:(lia) Hm) as HS.
  destruct (ShiftedDigits B) as [BN s]. destruct HS as (HBN & LB & Hs & HV). pose proof (divisor_bounds BN HBN) as (V1 & V2 & V3).
  pose proof (pow2_log2_bounds s ltac:(lia)) as Hp. assert (2 * 2 ^ s <= digit_base) as Hs2.
  { rewrite <- Z.pow_succ_r by lia. apply Z.pow_le_mono_r; lia. }
  pose proof (dval_bounds A HA) as HAb. pose proof (weight_pos (length A)) as HwA.
  assert (dval A * 2 ^ s < weight (S (length A))) as HAs by (rewrite weight_S; clear -HAb Hs2 Hp; nia).
  destruct (LeftShift_int_spec (S (length A)) A s HA Hs ltac:(lia) HAs) as (L1 & L2 & L3). set (U := LeftShift_int _ _ _) in *.
  rewrite <- LB in *. set (m := (length A - length BN)%nat).
  assert (weight (S (length A)) = weight (length BN) * weight (S m)) as HW by (rewrite <- weight_add; f_equal; lia).
  destruct (quotient_loop_spec BN (S m) U p HBN L2 ltac:(lia)) as (qs & U' & p' & -> & I1 & I2 & I3 & I4 & I5 & I6).
  { rewrite L1. rewrite weight_S in HW. pose proof (weight_pos (S m)) as HwS. 
    assert (2 * (dval A * 2 ^ s) < digit_base * weight (length A)) by (clear -HAb Hs2 Hp HwA; nia).
    assert (weight (length BN) * weight (S m) <= 2 * dval BN * weight (S m)) by (clear -V2 HwS; nia). lia. }
  rewrite L1, HV in I1. rewrite HV in I2. assert (0 < dval B) as HB0 by (clear -V1 HV Hp; nia).
  assert (dval A * 2 ^ s / (dval B * 2 ^ s) = dval A / dval B) as Hdiv by (apply Z.div_mul_cancel_r; lia).
  assert (dval qs = dval A / dval B) as Hq by (rewrite <- Hdiv; apply (Z.div_unique_pos _ _ _ (dval U')); lia).
  assert (dval U' / 2 ^ s = dval A mod dval B) as Hr.
  { rewrite <- (Z.div_mul (dval A mod dval B) (2 ^ s)) by lia. rewrite <- Z.mul_mod_distr_r by lia. f_equal.
    apply (Z.mod_unique_pos _ _ (dval qs)); lia. }
  do 3 eexists. split; [done|]. rewrite dval_extend, length_extend by (rewrite length_take; lia).
  split_all; [intros Hne; rewrite dval_take_all; [done|done|destruct HQ; [done|by rewrite Hq]]|by auto with v8|done|..].
  all: destruct (Nat.eqb_spec R_len 0) as [H0|H0]; try done.
  all: assert (length (Normalize U') <= R_len)%nat as Hn by
    (transitivity (length BN); [|lia]; apply normalized_length; [by apply Normalize_ok|apply Normalize_normalized|rewrite dval_Normalize; lia]).
  all: destruct (RightShift_int_spec R_len U' s I5 Hs Hn) as (R1 & R2 & R3); try done. by rewrite R1.
Qed.
