(* ===== verification/DigitsBitwise.v ===== *)
(** Bitwise operations, shifts and truncations of digit vectors: src/src/bigint/bigint-inl.h.

    Negative operands are given by their magnitude; the code computes -x = ~(x - 1) on the
    fly, with a borrow for each negative operand. *)
From S2P Require Import Prelude Conversions Digits DigitsLinear.

(** A digit of (x - 1) op (y - 1), and of x op (y - 1). *)
Definition borrow_both (op : Z -> Z -> Z) (p : Z * Z) (borrows : Z * Z) : Z * (Z * Z) :=
  let '(x_borrow, y_borrow) := borrows in
  let '(x, x_borrow) := digit_sub p.1 x_borrow in
  let '(y, y_borrow) := digit_sub p.2 y_borrow in
  (op x y, (x_borrow, y_borrow)).

Definition borrow_right (op : Z -> Z -> Z) (p : Z * Z) (borrow : Z) : Z * Z :=
  let '(y, borrow) := digit_sub p.2 borrow in
  (op p.1 y, borrow).

(** X[i] & ~y *)
Definition and_not (x y : Z) : Z := Z.land x (digit (Z.lnot y)).

Definition BitwiseAnd_PosPos (Z_len : nat) (X Y : list Z) : list Z := extend Z_len (zip_with Z.land X Y).

Definition BitwiseAnd_NegNeg (Z_len : nat) (X Y : list Z) : option (list Z) :=
  let '(z1, (x_borrow, y_borrow)) := carry_loop (borrow_both Z.lor) (zip X Y) (1, 1) in
  let '(z2, x_borrow) := carry_loop digit_sub (drop (length Y) X) x_borrow in
  let '(z3, y_borrow) := carry_loop digit_sub (drop (length X) Y) y_borrow in
  Add_digit (extend Z_len (z1 ++ z2 ++ z3)) 1.

Definition BitwiseAnd_PosNeg (Z_len : nat) (X Y : list Z) : list Z :=
  let '(z1, borrow) := carry_loop (borrow_right and_not) (zip X Y) 1 in
  extend Z_len (z1 ++ drop (length Y) X).

Definition BitwiseOr_PosPos (Z_len : nat) (X Y : list Z) : list Z :=
  extend Z_len (zip_with Z.lor X Y ++ drop (length Y) X ++ drop (length X) Y).

Definition BitwiseOr_NegNeg (Z_len : nat) (X Y : list Z) : option (list Z) :=
  let '(z1, (x_borrow, y_borrow)) := carry_loop (borrow_both Z.land) (zip X Y) (1, 1) in
  Add_digit (extend Z_len z1) 1.

Definition BitwiseOr_PosNeg (Z_len : nat) (X Y : list Z) : option (list Z) :=
  let '(z1, borrow) := carry_loop (borrow_right (fun x y => and_not y x)) (zip X Y) 1 in
  let '(z2, borrow) := carry_loop digit_sub (drop (length X) Y) borrow in
  Add_digit (extend Z_len (z1 ++ z2)) 1.

Definition BitwiseXor_PosPos (Z_len : nat) (X Y : list Z) : list Z :=
  let '(X, Y) := if (length Y <? length X)%nat then (Y, X) else (X, Y) in
  extend Z_len (zip_with Z.lxor X Y ++ drop (length X) Y).

Definition BitwiseXor_NegNeg (Z_len : nat) (X Y : list Z) : list Z :=
  let '(z1, (x_borrow, y_borrow)) := carry_loop (borrow_both Z.lxor) (zip X Y) (1, 1) in
  let '(z2, x_borrow) := carry_loop digit_sub (drop (length Y) X) x_borrow in
  let '(z3, y_borrow) := carry_loop digit_sub (drop (length X) Y) y_borrow in
  extend Z_len (z1 ++ z2 ++ z3).

Definition BitwiseXor_PosNeg (Z_len : nat) (X Y : list Z) : option (list Z) :=
  let '(z1, borrow) := carry_loop (borrow_right Z.lxor) (zip X Y) 1 in
  let '(z3, borrow) := carry_loop digit_sub (drop (length X) Y) borrow in
  Add_digit (extend Z_len (z1 ++ drop (length Y) X ++ z3)) 1.

(** ** Shifts by any number of bits *)

Definition LeftShift (Z_len : nat) (X : list Z) (shift : Z) : list Z :=
  let digit_shift := Z.to_nat (wrap 32 (shift / kDigitBits)) in
  let bits_shift := shift mod kDigitBits in
  if bits_shift =? 0 then extend Z_len (replicate digit_shift 0 ++ X)
  else
    let '(zs, carry) := carry_loop (shift_left_digit bits_shift) X 0 in
    extend Z_len (replicate digit_shift 0 ++ zs ++ if carry =? 0 then [] else [carry]).

(** The length of the result and RightShiftState::must_round_down. *)
Definition RightShift_ResultLength (X : list Z) (x_sign : bool) (shift : Z) : nat * bool :=
  let digit_shift := Z.to_nat (wrap 32 (shift / kDigitBits)) in
  let bits_shift := shift mod kDigitBits in
  if (length X <=? digit_shift)%nat then (O, false)
  else
    let result_length := (length X - digit_shift)%nat in
    let must_round_down :=
      if x_sign then
        let mask := Z.shiftl 1 bits_shift - 1 in
        if negb (Z.land (X.[digit_shift]) mask =? 0) then true
        else existsb (fun d => negb (d =? 0)) (take digit_shift X)
      else false in
    let result_length :=
      if must_round_down && (bits_shift =? 0) then
        if digit_ismax (msd X) then S result_length else result_length
      else result_length in
    (result_length, must_round_down).

Definition RightShift (Z_len : nat) (X : list Z) (shift : Z) (must_round_down : bool) : option (list Z) :=
  let digit_shift := Z.to_nat (wrap 32 (shift / kDigitBits)) in
  let bits_shift := shift mod kDigitBits in
  let zs := extend Z_len (if bits_shift =? 0 then drop digit_shift X else shift_right_loop (drop digit_shift X) bits_shift) in
  if must_round_down then Add_digit zs 1 else Some zs.

(** ** Truncation to n bits *)

Definition DIV_CEIL (x y : Z) : Z := (x - 1) / y + 1.

(** msd = (msd << drop) >> drop *)
Definition drop_bits (msd drop : Z) : Z := Z.shiftr (digit (Z.shiftl msd drop)) drop.

(** The digits that are written; the caller's vector has no others. *)
Definition TruncateToNBits (X : list Z) (n : Z) : list Z :=
  let digits := Z.to_nat (DIV_CEIL n kDigitBits) in
  let bits := n mod kDigitBits in
  let last := (digits - 1)%nat in
  let msd := X.[last] in
  let msd := if negb (bits =? 0) then drop_bits msd (kDigitBits - bits) else msd in
  take last X ++ [msd].

Definition TruncateAndSubFromPowerOfTwo (X : list Z) (n : Z) : list Z :=
  let digits := Z.to_nat (DIV_CEIL n kDigitBits) in
  let bits := n mod kDigitBits in
  let last := (digits - 1)%nat in
  let have_x := Nat.min last (length X) in
  let '(z1, borrow) := carry_loop (fun x borrow => digit_sub2 0 x borrow) (take have_x X) 0 in
  let '(z2, borrow) := carry_loop digit_sub (replicate (last - have_x) 0) borrow in
  let msd := if (last <? length X)%nat then X.[last] else 0 in
  if bits =? 0 then z1 ++ z2 ++ [(digit_sub2 0 msd borrow).1]
  else
    let msd := drop_bits msd (kDigitBits - bits) in
    let minuend_msd := digit (Z.shiftl 1 bits) in
    let '(result_msd, borrow) := digit_sub2 minuend_msd msd borrow in
    z1 ++ z2 ++ [Z.land result_msd (minuend_msd - 1)].

(** The magnitude and the sign. *)
Definition AsIntN (X : list Z) (x_negative : bool) (n : Z) : list Z * bool :=
  let needed_digits := Z.to_nat (DIV_CEIL n kDigitBits) in
  let top_digit := X.[needed_digits - 1] in
  let compare_digit := Z.shiftl 1 ((n - 1) mod kDigitBits) in
  let has_bit := Z.land top_digit compare_digit =? compare_digit in
  if negb has_bit then (TruncateToNBits X n, x_negative)
  else
    (TruncateAndSubFromPowerOfTwo X n,
     if negb x_negative then true
     else if negb (Z.land top_digit (compare_digit - 1) =? 0) then false
     else negb (existsb (fun d => negb (d =? 0)) (take (needed_digits - 1) X))).

(** [None] for the -1 of the code: the operation would return X unchanged. *)
Definition AsIntNResultLength (X : list Z) (x_negative : bool) (n : Z) : option nat :=
  let needed_digits := Z.to_nat (DIV_CEIL n kDigitBits) in
  if (length X <? needed_digits)%nat then None
  else if (needed_digits <? length X)%nat then Some needed_digits
  else
    let top_digit := X.[needed_digits - 1] in
    let compare_digit := Z.shiftl 1 ((n - 1) mod kDigitBits) in
    if top_digit <? compare_digit then None
    else if compare_digit <? top_digit then Some needed_digits
    else if negb x_negative then Some needed_digits
    else if existsb (fun d => negb (d =? 0)) (take (needed_digits - 1) X) then Some needed_digits
    else None.

Definition AsUintN_Pos_ResultLength (X : list Z) (n : Z) : option nat :=
  let needed_digits := Z.to_nat (DIV_CEIL n kDigitBits) in
  if (length X <? needed_digits)%nat then None
  else if (needed_digits <? length X)%nat then Some needed_digits
  else
    let bits_in_top_digit := n mod kDigitBits in
    if bits_in_top_digit =? 0 then None
    else if Z.shiftr (X.[needed_digits - 1]) bits_in_top_digit =? 0 then None
    else Some needed_digits.

Definition AsUintN_Neg_ResultLength (n : Z) : nat := Z.to_nat ((n - 1) / kDigitBits + 1).

Definition AsUintN_Pos (X : list Z) (n : Z) : list Z := TruncateToNBits X n.
Definition AsUintN_Neg (X : list Z) (n : Z) : list Z := TruncateAndSubFromPowerOfTwo X n.

(** ** Digitwise operations *)

Lemma testbit_digit d v n : digit_ok d -> 0 <= n ->
  Z.testbit (d + digit_base * v) n = if n <? kDigitBits then Z.testbit d n else Z.testbit v (n - kDigitBits).
Proof.
  intros Hd Hn. rewrite Z.mul_comm. unfold digit_base. rewrite <- lor_disjoint by done. rewrite Z.lor_spec, Z.mul_pow2_bits by done.
  destruct (Z.ltb_spec n kDigitBits).
  - rewrite (Z.testbit_neg_r v) by lia. apply orb_false_r.
  - rewrite <- (Z.mod_small d (2 ^ kDigitBits)), Z.mod_pow2_bits_high by (done || lia). done.
Qed.

(** An operation on integers that works bit by bit, and keeps zero bits zero. *)
Section digitwise.
Context (op : Z -> Z -> Z) (bop : bool -> bool -> bool).
Hypothesis op_spec : forall a b n, 0 <= n -> Z.testbit (op a b) n = bop (Z.testbit a n) (Z.testbit b n).
Hypothesis bop_false : bop false false = false.

Lemma op_digit_ok d e : digit_ok d -> digit_ok e -> digit_ok (op d e).
Proof using All.
  intros Hd He. assert (op d e = op d e mod 2 ^ kDigitBits) as ->; [|apply digit_bounds].
  apply Z.bits_inj'. intros n Hn. destruct (Z.lt_ge_cases n kDigitBits).
  - by rewrite Z.mod_pow2_bits_low.
  - rewrite Z.mod_pow2_bits_high, op_spec by (done || lia).
    rewrite <- (Z.mod_small d (2 ^ kDigitBits)), <- (Z.mod_small e (2 ^ kDigitBits)) by done. by rewrite !Z.mod_pow2_bits_high by (done || lia).
Qed.

Lemma op_digits d v e w : digit_ok d -> digit_ok e -> op (d + digit_base * v) (e + digit_base * w) = op d e + digit_base * op v w.
Proof using All.
  intros Hd He. apply Z.bits_inj'. intros n Hn. rewrite op_spec, !testbit_digit by (done || by apply op_digit_ok).
  destruct (Z.ltb_spec n kDigitBits); rewrite op_spec; (done || lia).
Qed.

Fixpoint digitwise (X Y : list Z) : list Z :=
  match X, Y with
  | [], _ => op 0 <$> Y
  | _, [] => (fun x => op x 0) <$> X
  | x :: X, y :: Y => op x y :: digitwise X Y
  end.

Lemma dval_digitwise X Y : digits_ok X -> digits_ok Y -> dval (digitwise X Y) = op (dval X) (dval Y).
Proof using All.
  assert (digit_ok 0) as H0 by by vm_compute.
  assert (op 0 0 = 0) as Hz by (apply Z.bits_inj'; intros n Hn; by rewrite op_spec, !Z.bits_0).
  intros HX. revert Y. induction HX as [|x X Hx HX IH]; intros Y HY.
  - simpl. induction HY as [|y Y Hy HY IH]; csimpl; [done|]. rewrite IH.
    rewrite <- (op_digits 0 0 y) by done. f_equal.
  - destruct HY as [|y Y Hy HY]; csimpl; [|by rewrite IH, op_digits].
    specialize (IH [] ltac:(constructor)). assert (forall L, digitwise L [] = (fun x => op x 0) <$> L) as He by (by intros []).
    rewrite He in IH. simpl in IH. rewrite IH, <- (op_digits x (dval X) 0 0) by done. f_equal.
Qed.

Lemma digitwise_split X Y : digitwise X Y =
  zip_with op X Y ++ ((fun x => op x 0) <$> drop (length Y) X) ++ (op 0 <$> drop (length X) Y).
Proof using Type. clear. revert Y. induction X as [|x X IH]; intros [|y Y]; simpl; rewrite ?app_nil_r; try done. f_equal. apply IH. Qed.

Lemma digitwise_ok X Y : digits_ok X -> digits_ok Y -> digits_ok (digitwise X Y).
Proof using All.
  assert (digit_ok 0) as H0 by by vm_compute.
  intros HX. revert Y. induction HX as [|x X Hx HX IH]; intros Y HY.
  - simpl. apply Forall_fmap. eapply Forall_impl; [exact HY|]. intros. by apply op_digit_ok.
  - destruct HY as [|y Y Hy HY]; simpl.
    + constructor; [by apply op_digit_ok|]. apply Forall_fmap. eapply Forall_impl; [exact HX|]. intros. by apply op_digit_ok.
    + constructor; [by apply op_digit_ok|by apply IH].
Qed.

Lemma length_digitwise X Y : length (digitwise X Y) = Nat.max (length X) (length Y).
Proof using Type.
  clear. revert Y. induction X as [|x X IH]; intros [|y Y]; simpl; rewrite ?length_fmap; try done. by rewrite IH.
Qed.

(** The loops that subtract one compute the digits of the predecessors first. *)
Lemma borrow_both_loop X Y bx b_y :
  carry_loop (borrow_both op) (zip X Y) (bx, b_y) =
  let '(x1, bx) := carry_loop digit_sub (take (length Y) X) bx in
  let '(y1, b_y) := carry_loop digit_sub (take (length X) Y) b_y in
  (zip_with op x1 y1, (bx, b_y)).
Proof using Type.
  clear. revert Y bx b_y. induction X as [|x X IH]; intros [|y Y] bx b_y; try done. cbn [carry_loop zip_with length take]. unfold borrow_both at 1. cbn [fst snd].
  destruct (digit_sub x bx) as [dx bx1]. destruct (digit_sub y b_y) as [dy by1]. rewrite IH.
  destruct (carry_loop digit_sub (take (length Y) X) bx1) as [x1 bx2].
  by destruct (carry_loop digit_sub (take (length X) Y) by1) as [y1 by2].
Qed.

Lemma borrow_right_loop X Y b :
  carry_loop (borrow_right op) (zip X Y) b =
  let '(y1, b) := carry_loop digit_sub (take (length X) Y) b in (zip_with op (take (length Y) X) y1, b).
Proof using Type.
  clear. revert Y b. induction X as [|x X IH]; intros [|y Y] b; try done. cbn [carry_loop zip_with length take]. unfold borrow_right at 1. cbn [fst snd].
  destruct (digit_sub y b) as [dy b1]. rewrite IH. by destruct (carry_loop digit_sub (take (length X) Y) b1).
Qed.
End digitwise.

(** ** The loops *)

Lemma sub_split n X c X1 : carry_loop digit_sub X c = (X1, 0) ->
  exists b, carry_loop digit_sub (take n X) c = (take n X1, b) /\ carry_loop digit_sub (drop n X) b = (drop n X1, 0).
Proof.
  rewrite <- (take_drop n X) at 1. rewrite carry_loop_app.
  destruct (carry_loop digit_sub (take n X) c) as [a b] eqn:Ha. destruct (carry_loop digit_sub (drop n X) b) as [a' b'] eqn:Hb.
  intros [= <- ->]. assert (forall l k, length (carry_loop digit_sub l k).1 = length l) as Hlen.
  { clear. intros l. induction l as [|d l IH]; intros k; [done|]. cbn [carry_loop]. destruct (digit_sub d k) as [d' k'].
    specialize (IH k'). destruct (carry_loop digit_sub l k'). simpl in *. by rewrite IH. }
  pose proof (Hlen (take n X) c) as Hl. rewrite Ha in Hl. cbn [fst] in Hl. exists b. rewrite Hb.
  destruct (decide (n <= length X)%nat).
  - rewrite length_take, Nat.min_l in Hl by lia. rewrite take_app_length', drop_app_length' by done. done.
  - rewrite length_take, Nat.min_r in Hl by lia. rewrite drop_ge in Hb by lia. injection Hb as <- ->.
    rewrite app_nil_r, take_ge, !drop_ge by lia. done.
Qed.

Lemma zip_with_takes {A B C} (f : A -> B -> C) l l' n m : n = length l' -> m = length l -> zip_with f (take n l) (take m l') = zip_with f l l'.
Proof. intros -> ->. revert l'. induction l as [|a l IH]; intros [|b l']; simpl; try done. by rewrite IH. Qed.

(** The predecessor of a positive number. *)
Lemma predecessor X : digits_ok X -> 1 <= dval X ->
  exists X1, carry_loop digit_sub X 1 = (X1, 0) /\ dval X1 = dval X - 1 /\ digits_ok X1 /\ length X1 = length X.
Proof.
  intros HX H1. destruct (carry_loop digit_sub X 1) as [X1 b] eqn:He.
  destruct (sub_loop_spec X 1 X1 b HX ltac:(lia) He) as (A1 & A2 & A3 & A4).
  pose proof (dval_bounds _ A2) as Hb. rewrite A3 in Hb. assert (b = 0 \/ b = 1) as [->| ->] by lia; [|lia].
  exists X1. split_all; [done|lia|done|done].
Qed.

Lemma both_loops op X Y X1 Y1 : carry_loop digit_sub X 1 = (X1, 0) -> carry_loop digit_sub Y 1 = (Y1, 0) ->
  length X1 = length X -> length Y1 = length Y ->
  exists bx b_y, carry_loop (borrow_both op) (zip X Y) (1, 1) = (zip_with op X1 Y1, (bx, b_y)) /\
    carry_loop digit_sub (drop (length Y) X) bx = (drop (length Y) X1, 0) /\
    carry_loop digit_sub (drop (length X) Y) b_y = (drop (length X) Y1, 0).
Proof.
  intros HX HY Lx Ly. destruct (sub_split (length Y) X 1 X1 HX) as (bx & E1 & E2). destruct (sub_split (length X) Y 1 Y1 HY) as (b_y & E3 & E4).
  exists bx, b_y. rewrite borrow_both_loop, E1, E3, zip_with_takes by lia. done.
Qed.

Lemma right_loops op X Y Y1 : carry_loop digit_sub Y 1 = (Y1, 0) -> length Y1 = length Y ->
  exists b, carry_loop (borrow_right op) (zip X Y) 1 = (zip_with op X Y1, b) /\
    carry_loop digit_sub (drop (length X) Y) b = (drop (length X) Y1, 0).
Proof.
  intros HY Ly. destruct (sub_split (length X) Y 1 Y1 HY) as (b & E3 & E4).
  exists b. rewrite borrow_right_loop, E3, zip_with_takes by lia. done.
Qed.

(** ** The operations on magnitudes *)

Lemma map_id_ext (f : Z -> Z) (l : list Z) : (forall x, f x = x) -> f <$> l = l.
Proof. intros Hf. induction l as [|x l IH]; csimpl; [done|]. by rewrite Hf, IH. Qed.

Lemma map_zero_ext (f : Z -> Z) (l : list Z) : (forall x, f x = 0) -> dval (f <$> l) = 0.
Proof. intros Hf. induction l as [|x l IH]; csimpl; [done|]. rewrite Hf, IH. lia. Qed.

Lemma land_bits a b n : 0 <= n -> Z.testbit (Z.land a b) n = Z.testbit a n && Z.testbit b n.
Proof. intros _. apply Z.land_spec. Qed.
Lemma lor_bits a b n : 0 <= n -> Z.testbit (Z.lor a b) n = Z.testbit a n || Z.testbit b n.
Proof. intros _. apply Z.lor_spec. Qed.
Lemma lxor_bits a b n : 0 <= n -> Z.testbit (Z.lxor a b) n = xorb (Z.testbit a n) (Z.testbit b n).
Proof. intros _. apply Z.lxor_spec. Qed.
Lemma ldiff_bits a b n : 0 <= n -> Z.testbit (Z.ldiff a b) n = Z.testbit a n && negb (Z.testbit b n).
Proof. intros _. apply Z.ldiff_spec. Qed.

Lemma land_digits X Y : digits_ok X -> digits_ok Y ->
  dval (zip_with Z.land X Y) = Z.land (dval X) (dval Y) /\ digits_ok (zip_with Z.land X Y).
Proof.
  intros HX HY. rewrite <- (dval_digitwise Z.land andb land_bits eq_refl X Y) by done.
  pose proof (digitwise_ok Z.land andb land_bits eq_refl X Y HX HY) as Ho. rewrite digitwise_split in *.
  rewrite !dval_app, !map_zero_ext by (intros; by rewrite ?Z.land_0_r, ?Z.land_0_l). apply Forall_app in Ho as [Ho _].
  split; [lia|done].
Qed.

Lemma ldiff_digits X Y : digits_ok X -> digits_ok Y ->
  dval (zip_with Z.ldiff X Y ++ drop (length Y) X) = Z.ldiff (dval X) (dval Y) /\ digits_ok (zip_with Z.ldiff X Y ++ drop (length Y) X).
Proof.
  intros HX HY. rewrite <- (dval_digitwise Z.ldiff (fun a b => a && negb b) ldiff_bits eq_refl X Y) by done.
  pose proof (digitwise_ok Z.ldiff (fun a b => a && negb b) ldiff_bits eq_refl X Y HX HY) as Ho. rewrite digitwise_split in *.
  rewrite (map_id_ext (fun x => Z.ldiff x 0)) in * by apply Z.ldiff_0_r. rewrite app_assoc in *. apply Forall_app in Ho as [Ho _].
  rewrite (dval_app (_ ++ _)), map_zero_ext by apply Z.ldiff_0_l. split; [lia|done].
Qed.

Lemma lor_digits X Y : digits_ok X -> digits_ok Y ->
  let zs := zip_with Z.lor X Y ++ drop (length Y) X ++ drop (length X) Y in
  dval zs = Z.lor (dval X) (dval Y) /\ digits_ok zs /\ length zs = Nat.max (length X) (length Y).
Proof.
  intros HX HY. rewrite <- (dval_digitwise Z.lor orb lor_bits eq_refl X Y) by done.
  pose proof (digitwise_ok Z.lor orb lor_bits eq_refl X Y HX HY) as Ho. rewrite <- (length_digitwise Z.lor X Y). rewrite digitwise_split in *.
  rewrite (map_id_ext (fun x => Z.lor x 0)), (map_id_ext (Z.lor 0)) in * by (intros; apply Z.lor_0_r || apply Z.lor_0_l). done.
Qed.

Lemma lxor_digits X Y : digits_ok X -> digits_ok Y ->
  let zs := zip_with Z.lxor X Y ++ drop (length Y) X ++ drop (length X) Y in
  dval zs = Z.lxor (dval X) (dval Y) /\ digits_ok zs /\ length zs = Nat.max (length X) (length Y).
Proof.
  intros HX HY. rewrite <- (dval_digitwise Z.lxor xorb lxor_bits eq_refl X Y) by done.
  pose proof (digitwise_ok Z.lxor xorb lxor_bits eq_refl X Y HX HY) as Ho. rewrite <- (length_digitwise Z.lxor X Y). rewrite digitwise_split in *.
  rewrite (map_id_ext (fun x => Z.lxor x 0)), (map_id_ext (Z.lxor 0)) in * by (intros; apply Z.lxor_0_r || apply Z.lxor_0_l). done.
Qed.

(** and_not is the difference of bit sets. *)
Lemma and_not_ldiff x y : digit_ok x -> and_not x y = Z.ldiff x y.
Proof.
  intros Hx. unfold and_not. apply Z.bits_inj'. intros n Hn. rewrite Z.land_spec, Z.ldiff_spec. unfold digit, wrap.
  destruct (Z.lt_ge_cases n kDigitBits).
  - by rewrite Z.mod_pow2_bits_low, Z.lnot_spec.
  - rewrite <- (Z.mod_small x (2 ^ kDigitBits)), Z.mod_pow2_bits_high by (done || lia). done.
Qed.

Lemma zip_with_and_not X Y : digits_ok X -> zip_with and_not X Y = zip_with Z.ldiff X Y.
Proof. intros HX. revert Y. induction HX as [|x X Hx HX IH]; intros [|y Y]; simpl; try done. by rewrite and_not_ldiff, IH. Qed.

Lemma zip_with_flip' (f : Z -> Z -> Z) X Y : zip_with (fun x y => f y x) X Y = zip_with f Y X.
Proof. revert Y. induction X as [|x X IH]; intros [|y Y]; simpl; try done. by rewrite IH. Qed.

(** Bit sets split a number. *)
Lemma land_ldiff_sum a b : a = Z.ldiff a b + Z.land a b.
Proof.
  rewrite Z.add_nocarry_lxor, Z.lxor_lor, Z.lor_ldiff_and; [done|..]; rewrite Z.land_assoc, <- Z.land_assoc, (Z.land_comm a b), Z.land_assoc, Z.land_ldiff, Z.land_0_l; done.
Qed.

Lemma land_below a b : 0 <= a -> 0 <= Z.land a b <= a.
Proof. intros Ha. pose proof (land_ldiff_sum a b). assert (0 <= Z.land a b) by (apply Z.land_nonneg; auto). assert (0 <= Z.ldiff a b) by (apply Z.ldiff_nonneg; auto). lia. Qed.

Lemma ldiff_below a b : 0 <= a -> 0 <= Z.ldiff a b <= a.
Proof. intros Ha. pose proof (land_ldiff_sum a b). assert (0 <= Z.land a b) by (apply Z.land_nonneg; auto). assert (0 <= Z.ldiff a b) by (apply Z.ldiff_nonneg; auto). lia. Qed.

(** Two's complement: -x = ~(x - 1). *)
Lemma opp_lnot x : - x = Z.lnot (x - 1).
Proof. unfold Z.lnot. lia. Qed.

Lemma lnot_opp z : Z.lnot z = - (z + 1).
Proof. unfold Z.lnot. lia. Qed.

Lemma lor_lnot a b : Z.lor a (Z.lnot b) = Z.lnot (Z.ldiff b a).
Proof.
  apply Z.bits_inj'. intros n Hn. rewrite Z.lor_spec, !Z.lnot_spec, Z.ldiff_spec by done.
  by destruct (Z.testbit a n), (Z.testbit b n).
Qed.

(** A magnitude of [n] digits. *)
Definition represents (n : nat) (zs : list Z) (v : Z) : Prop := dval zs = v /\ digits_ok zs /\ length zs = n.

Lemma represents_extend n zs : digits_ok zs -> (length zs <= n)%nat -> represents n (extend n zs) (dval zs).
Proof. intros Hz Hl. unfold represents. rewrite dval_extend, length_extend by done. auto with v8. Qed.

Lemma represents_add_one n zs : digits_ok zs -> (length zs <= n)%nat -> (1 <= n)%nat -> dval zs + 1 < weight n ->
  exists r, Add_digit (extend n zs) 1 = Some r /\ represents n r (dval zs + 1).
Proof.
  intros Hz Hl Hn Hb. destruct (represents_extend n zs Hz Hl) as (E1 & E2 & E3).
  destruct (Add_digit_spec (extend n zs) 1 E2) as (r & Hr & R1 & R2 & R3);
    [numeric|intros He; rewrite He in E3; simpl in E3; lia|rewrite E1, E3; lia|].
  exists r. split; [done|]. unfold represents. rewrite R1, R3, E1. done.
Qed.

Lemma BitwiseAnd_PosPos_spec n X Y : digits_ok X -> digits_ok Y -> (Nat.min (length X) (length Y) <= n)%nat ->
  represents n (BitwiseAnd_PosPos n X Y) (Z.land (dval X) (dval Y)).
Proof.
  intros HX HY Hn. destruct (land_digits X Y HX HY) as [<- H2]. apply represents_extend; [done|]. rewrite length_zip_with. lia.
Qed.

Lemma BitwiseAnd_NegNeg_spec n X Y : digits_ok X -> digits_ok Y -> 1 <= dval X -> 1 <= dval Y ->
  (Nat.max (length X) (length Y) < n)%nat ->
  exists r, BitwiseAnd_NegNeg n X Y = Some r /\ represents n r (- Z.land (- dval X) (- dval Y)).
Proof.
  intros HX HY H1 H2 Hn. destruct (predecessor X HX H1) as (X1 & E1 & V1 & O1 & L1). destruct (predecessor Y HY H2) as (Y1 & E2 & V2 & O2 & L2).
  destruct (both_loops Z.lor X Y X1 Y1 E1 E2 L1 L2) as (bx & b_y & B1 & B2 & B3). unfold BitwiseAnd_NegNeg. rewrite B1, B2, B3, <- L1, <- L2 in *.
  destruct (lor_digits X1 Y1 O1 O2) as (D1 & D2 & D3). cbv zeta in *.
  destruct (represents_add_one n _ D2 ltac:(lia) ltac:(lia)) as (r & Hr & R).
  { pose proof (dval_bounds _ D2) as Hb. rewrite D3 in Hb.
    assert (digit_base * weight (Nat.max (length X1) (length Y1)) <= weight n) by (rewrite <- weight_S; apply weight_mono; lia).
    pose proof (weight_pos (Nat.max (length X1) (length Y1))). pose proof digit_base_eq. lia. }
  exists r. split; [done|]. rewrite D1, V1, V2 in R.
  by rewrite (opp_lnot (dval X)), (opp_lnot (dval Y)), <- Z.lnot_lor, lnot_opp, Z.opp_involutive.
Qed.

Lemma BitwiseAnd_PosNeg_spec n X Y : digits_ok X -> digits_ok Y -> 1 <= dval Y -> (length X <= n)%nat ->
  represents n (BitwiseAnd_PosNeg n X Y) (Z.land (dval X) (- dval Y)).
Proof.
  intros HX HY H2 Hn. destruct (predecessor Y HY H2) as (Y1 & E2 & V2 & O2 & L2).
  destruct (right_loops and_not X Y Y1 E2 L2) as (b & B1 & B2). unfold BitwiseAnd_PosNeg. rewrite B1, zip_with_and_not, <- L2 by done.
  destruct (ldiff_digits X Y1 HX O2) as (D1 & D2). rewrite opp_lnot, <- V2, <- Z.ldiff_land, <- D1.
  apply represents_extend; [done|]. rewrite length_app, length_zip_with, length_drop. lia.
Qed.

Lemma BitwiseOr_PosPos_spec n X Y : digits_ok X -> digits_ok Y -> (Nat.max (length X) (length Y) <= n)%nat ->
  represents n (BitwiseOr_PosPos n X Y) (Z.lor (dval X) (dval Y)).
Proof.
  intros HX HY Hn. destruct (lor_digits X Y HX HY) as (<- & H2 & H3). apply represents_extend; [done|lia].
Qed.

Lemma BitwiseOr_NegNeg_spec n X Y : digits_ok X -> digits_ok Y -> 1 <= dval X -> 1 <= dval Y ->
  (Nat.max (length X) (length Y) <= n)%nat ->
  exists r, BitwiseOr_NegNeg n X Y = Some r /\ represents n r (- Z.lor (- dval X) (- dval Y)).
Proof.
  intros HX HY H1 H2 Hn. destruct (predecessor X HX H1) as (X1 & E1 & V1 & O1 & L1). destruct (predecessor Y HY H2) as (Y1 & E2 & V2 & O2 & L2).
  destruct (both_loops Z.land X Y X1 Y1 E1 E2 L1 L2) as (bx & b_y & B1 & _). unfold BitwiseOr_NegNeg. rewrite B1.
  destruct (land_digits X1 Y1 O1 O2) as (D1 & D2). pose proof (land_below (dval X1) (dval Y1) ltac:(lia)).
  pose proof (dval_bounds X HX). pose proof (weight_mono (length X) n ltac:(lia)).
  destruct (represents_add_one n _ D2) as (r & Hr & R); [rewrite length_zip_with; lia|destruct X; simpl in *; lia|lia|].
  exists r. split; [done|]. rewrite D1, V1, V2 in R. by rewrite (opp_lnot (dval X)), (opp_lnot (dval Y)), <- Z.lnot_land, lnot_opp, Z.opp_involutive.
Qed.

Lemma BitwiseOr_PosNeg_spec n X Y : digits_ok X -> digits_ok Y -> 1 <= dval Y -> (Nat.max (length X) (length Y) <= n)%nat ->
  exists r, BitwiseOr_PosNeg n X Y = Some r /\ represents n r (- Z.lor (dval X) (- dval Y)).
Proof.
  intros HX HY H2 Hn. destruct (predecessor Y HY H2) as (Y1 & E2 & V2 & O2 & L2).
  destruct (right_loops (fun x y => and_not y x) X Y Y1 E2 L2) as (b & B1 & B2). unfold BitwiseOr_PosNeg. rewrite B1, B2.
  rewrite zip_with_flip', zip_with_and_not by done. destruct (ldiff_digits Y1 X O2 HX) as (D1 & D2).
  pose proof (ldiff_below (dval Y1) (dval X) ltac:(lia)). pose proof (dval_bounds Y HY). pose proof (weight_mono (length Y) n ltac:(lia)).
  destruct (represents_add_one n _ D2) as (r & Hr & R); [rewrite length_app, length_zip_with, length_drop; lia|destruct Y; simpl in *; lia|lia|].
  exists r. split; [done|]. rewrite D1, V2 in R. replace (- Z.lor (dval X) (- dval Y)) with (Z.ldiff (dval Y - 1) (dval X) + 1); [done|].
  by rewrite (opp_lnot (dval Y)), lor_lnot, lnot_opp, Z.opp_involutive.
Qed.

Lemma BitwiseXor_PosPos_spec n X Y : digits_ok X -> digits_ok Y -> (Nat.max (length X) (length Y) <= n)%nat ->
  represents n (BitwiseXor_PosPos n X Y) (Z.lxor (dval X) (dval Y)).
Proof.
  assert (forall X Y, digits_ok X -> digits_ok Y -> (length X <= length Y <= n)%nat ->
    represents n (extend n (zip_with Z.lxor X Y ++ drop (length X) Y)) (Z.lxor (dval X) (dval Y))) as Hgen.
  { clear. intros X Y HX HY Hl. destruct (lxor_digits X Y HX HY) as (<- & H2 & H3). cbv zeta in *. rewrite (drop_ge X (length Y)) in * by lia. simpl in *.
    apply represents_extend; [done|lia]. }
  intros HX HY Hn. unfold BitwiseXor_PosPos. destruct (Nat.ltb_spec (length Y) (length X)).
  - rewrite Z.lxor_comm. apply Hgen; (done || lia).
  - apply Hgen; (done || lia).
Qed.

Lemma BitwiseXor_NegNeg_spec n X Y : digits_ok X -> digits_ok Y -> 1 <= dval X -> 1 <= dval Y ->
  (Nat.max (length X) (length Y) <= n)%nat ->
  represents n (BitwiseXor_NegNeg n X Y) (Z.lxor (- dval X) (- dval Y)).
Proof.
  intros HX HY H1 H2 Hn. destruct (predecessor X HX H1) as (X1 & E1 & V1 & O1 & L1). destruct (predecessor Y HY H2) as (Y1 & E2 & V2 & O2 & L2).
  destruct (both_loops Z.lxor X Y X1 Y1 E1 E2 L1 L2) as (bx & b_y & B1 & B2 & B3). unfold BitwiseXor_NegNeg. rewrite B1, B2, B3.
  destruct (lxor_digits X1 Y1 O1 O2) as (D1 & D2 & D3). cbv zeta in *. rewrite L1, L2 in *.
  rewrite !opp_lnot, Z.lxor_lnot_lnot, <- V1, <- V2, <- D1. apply represents_extend; [done|lia].
Qed.

Lemma BitwiseXor_PosNeg_spec n X Y : digits_ok X -> digits_ok Y -> 1 <= dval Y -> (Nat.max (length X) (length Y) < n)%nat ->
  exists r, BitwiseXor_PosNeg n X Y = Some r /\ represents n r (- Z.lxor (dval X) (- dval Y)).
Proof.
  intros HX HY H2 Hn. destruct (predecessor Y HY H2) as (Y1 & E2 & V2 & O2 & L2).
  destruct (right_loops Z.lxor X Y Y1 E2 L2) as (b & B1 & B2). unfold BitwiseXor_PosNeg. rewrite B1, B2.
  destruct (lxor_digits X Y1 HX O2) as (D1 & D2 & D3). cbv zeta in *. rewrite L2 in *.
  destruct (represents_add_one n _ D2 ltac:(lia) ltac:(lia)) as (r & Hr & R).
  { pose proof (dval_bounds _ D2) as Hb. rewrite D3 in Hb.
    assert (digit_base * weight (Nat.max (length X) (length Y)) <= weight n) by (rewrite <- weight_S; apply weight_mono; lia).
    pose proof (weight_pos (Nat.max (length X) (length Y))). pose proof digit_base_eq. lia. }
  exists r. split; [done|]. rewrite D1, V2 in R. by rewrite (opp_lnot (dval Y)), <- Z.lnot_lxor_r, lnot_opp, Z.opp_involutive.
Qed.

(** ** Shifts *)

Lemma weight_pow2 n : weight n = 2 ^ (kDigitBits * Z.of_nat n).
Proof. unfold weight, digit_base. by rewrite <- Z.pow_mul_r by (unfold kDigitBits; lia). Qed.

(** A shift is by digits, then by bits. *)
Lemma shift_split shift : 0 <= shift < 2 ^ 38 ->
  let ds := Z.to_nat (wrap 32 (shift / kDigitBits)) in
  shift = kDigitBits * Z.of_nat ds + shift mod kDigitBits /\ 2 ^ shift = weight ds * 2 ^ (shift mod kDigitBits) /\
  0 <= shift mod kDigitBits < kDigitBits.
Proof.
  intros Hs. cbv zeta. pose proof (Z.mod_pos_bound shift kDigitBits ltac:(done)) as Hm.
  assert (0 <= shift / kDigitBits < 2 ^ 32) as Hd by (split; [apply Z.div_pos|apply Z.div_lt_upper_bound]; unfold kDigitBits; lia).
  unfold wrap. rewrite (Z.mod_small _ (2 ^ 32)) by done. rewrite Z2Nat.id by lia.
  assert (shift = kDigitBits * (shift / kDigitBits) + shift mod kDigitBits) as He by (apply Z.div_mod; done).
  split_all; [done| |lia|lia]. rewrite weight_pow2, Z2Nat.id by lia. rewrite <- Z.pow_add_r by (unfold kDigitBits in *; lia). by rewrite <- He.
Qed.

Lemma LeftShift_spec n X shift : digits_ok X -> 0 <= shift < 2 ^ 38 -> (length X + Z.to_nat (shift / kDigitBits) <= n)%nat ->
  dval X * 2 ^ shift < weight n -> represents n (LeftShift n X shift) (dval X * 2 ^ shift).
Proof.
  intros HX Hs Hn Hb. unfold LeftShift. destruct (shift_split shift Hs) as (S1 & S2 & S3). cbv zeta in *.
  assert (Z.to_nat (wrap 32 (shift / kDigitBits)) = Z.to_nat (shift / kDigitBits)) as Hds.
  { unfold wrap. rewrite Z.mod_small; [done|]. split; [apply Z.div_pos|apply Z.div_lt_upper_bound]; unfold kDigitBits; lia. }
  set (ds := Z.to_nat (wrap _ _)) in *. rewrite <- Hds in Hn. set (bs := shift mod kDigitBits) in *. rewrite S2 in *. pose proof (weight_pos ds).
  destruct (Z.eqb_spec bs 0) as [H0|H0].
  - rewrite H0 in *. replace (dval X * (weight ds * 2 ^ 0)) with (dval (replicate ds 0 ++ X)) by (rewrite dval_app, dval_zeros, length_replicate; lia).
    apply represents_extend; [auto with v8|rewrite length_app, length_replicate; lia].
  - pose proof (pow2_log2_bounds bs ltac:(lia)). destruct (carry_loop _ _ _) as [zs c] eqn:He.
    destruct (shift_left_loop_spec bs X 0 zs c) as (A1 & A2 & A3 & A4); [lia|done|lia|done|]. pose proof (dval_bounds zs A2) as Hz.
    set (tl := if c =? 0 then [] else [c]).
    assert (dval tl = c /\ digits_ok tl) as [T1 T2].
    { unfold tl. destruct (Z.eqb_spec c 0) as [->|]; [by split|]. split; [simpl; lia|]. apply Forall_singleton.
      pose proof (Z.pow_le_mono_r 2 bs kDigitBits). unfold digit_ok, digit_base. lia. }
    replace (dval X * (weight ds * 2 ^ bs)) with (dval (replicate ds 0 ++ zs ++ tl)).
    2: { rewrite dval_app, dval_app, dval_zeros, length_replicate, A3, T1. rewrite A1. lia. }
    apply represents_extend; [auto with v8|]. rewrite !length_app, length_replicate, A3. unfold tl.
    destruct (Z.eqb_spec c 0) as [->|Hc]; simpl; [lia|].
    assert (ds + length X < n)%nat; [|lia]. apply Nat.nle_gt. intros Hle. pose proof (weight_mono n (ds + length X) Hle) as Hw.
    rewrite weight_add in Hw. pose proof (weight_pos (length X)). rewrite A3 in Hz.
    assert (weight (length X) * 1 <= dval X * 2 ^ bs) by (assert (weight (length X) * 1 <= weight (length X) * c) by (apply Z.mul_le_mono_nonneg_l; lia); lia).
    assert (weight ds * weight (length X) <= weight ds * (dval X * 2 ^ bs)) by (apply Z.mul_le_mono_nonneg_l; lia). lia.
Qed.

Lemma existsb_nonzero X : digits_ok X -> existsb (fun d => negb (d =? 0)) X = negb (dval X =? 0).
Proof.
  induction 1 as [|d X Hd HX IH]; [done|]. simpl. rewrite IH. pose proof (dval_bounds X HX). pose proof digit_base_pos. unfold digit_ok in Hd.
  destruct (Z.eqb_spec d 0), (Z.eqb_spec (dval X) 0), (Z.eqb_spec (d + digit_base * dval X) 0); simpl; try done; nia.
Qed.

(** The low digits of a vector, and some bits of the next one. *)
Lemma low_part X l rb : digits_ok X -> 0 <= rb <= kDigitBits ->
  dval X mod (weight l * 2 ^ rb) = dval (take l X) + weight l * (X.[l] mod 2 ^ rb).
Proof.
  intros HX Hrb. pose proof (weight_pos l). pose proof (pow2_log2_bounds rb ltac:(lia)). pose proof (dval_take_small X l HX).
  assert (digit_base = 2 ^ rb * 2 ^ (kDigitBits - rb)) as HB by (rewrite <- Z.pow_add_r by lia; unfold digit_base; f_equal; lia).
  rewrite (dval_at X l). set (r := dval (drop (S l) X)). pose proof (Z.div_mod (X.[l]) (2 ^ rb) ltac:(lia)) as Hd.
  pose proof (Z.mod_pos_bound (X.[l]) (2 ^ rb) ltac:(lia)).
  symmetry. apply (Z.mod_unique_pos _ _ (X.[l] / 2 ^ rb + 2 ^ (kDigitBits - rb) * r)); [nia|].
  rewrite HB. rewrite Hd at 1. ring.
Qed.

Lemma high_part X l rb : digits_ok X -> 0 <= rb <= kDigitBits -> dval X / (weight l * 2 ^ rb) = dval (drop l X) / 2 ^ rb.
Proof.
  intros HX Hrb. pose proof (weight_pos l). pose proof (pow2_log2_bounds rb ltac:(lia)). rewrite <- Z.div_div by lia. f_equal.
  destruct (decide (l <= length X)%nat).
  - rewrite (dval_take_drop l X), length_take, Nat.min_l by lia. pose proof (dval_take_small X l HX).
    rewrite Z.mul_comm, Z.div_add, Z.div_small by lia. lia.
  - rewrite drop_ge by lia. pose proof (dval_bounds X HX). pose proof (weight_mono (length X) l ltac:(lia)). apply Z.div_small. simpl. lia.
Qed.

(** Some bit is shifted out. *)
Lemma remainder_nonzero X ds bs : digits_ok X -> 0 <= bs < kDigitBits ->
  (negb (Z.land (X.[ds]) (Z.shiftl 1 bs - 1) =? 0) || existsb (fun d => negb (d =? 0)) (take ds X)) =
  negb (dval X mod (weight ds * 2 ^ bs) =? 0).
Proof.
  intros HX Hbs. rewrite low_part, existsb_nonzero by (auto with v8 || lia). rewrite Z.shiftl_mul_pow2, Z.mul_1_l, land_pow2_mask by lia.
  pose proof (pow2_log2_bounds bs ltac:(lia)). pose proof (Z.mod_pos_bound (X.[ds]) (2 ^ bs) ltac:(lia)). pose proof (dval_take_small X ds HX).
  pose proof (weight_pos ds).
  destruct (Z.eqb_spec (X.[ds] mod 2 ^ bs) 0), (Z.eqb_spec (dval (take ds X)) 0), (Z.eqb_spec (dval (take ds X) + weight ds * (X.[ds] mod 2 ^ bs)) 0); simpl; try done; nia.
Qed.

Lemma digit_ismax_spec d : digit_ok d -> digit_ismax d = (d =? digit_base - 1).
Proof.
  intros Hd. unfold digit_ismax, Z.lnot. rewrite digit_mod, <- (Z.mod_add _ 1) by (by rewrite digit_base_eq).
  unfold digit_ok in Hd. rewrite Z.mod_small by lia. destruct (Z.eqb_spec d (digit_base - 1)), (Z.eqb_spec (Z.pred (- d) + 1 * digit_base) 0); lia.
Qed.

Lemma drop_nonempty (X : list Z) n : (n < length X)%nat -> drop n X <> [].
Proof. intros Hn He. pose proof (length_drop X n) as Hl. rewrite He in Hl. simpl in Hl. lia. Qed.

(** The magnitude after a right shift: rounded down, or up for negative numbers. *)
Definition shifted_magnitude (x_sign : bool) (x shift : Z) : Z :=
  x / 2 ^ shift + (if x_sign && negb (x mod 2 ^ shift =? 0) then 1 else 0).

(** ... which is the shift of the signed number. *)
Lemma shifted_magnitude_signed (x_sign : bool) x shift : 0 <= shift ->
  (if x_sign then - shifted_magnitude x_sign x shift else shifted_magnitude x_sign x shift) = Z.shiftr (if x_sign then - x else x) shift.
Proof.
  intros Hs. rewrite Z.shiftr_div_pow2 by done. pose proof (pow2_log2_bounds shift Hs). unfold shifted_magnitude.
  destruct x_sign; simpl; [|lia]. destruct (Z.eqb_spec (x mod 2 ^ shift) 0) as [He|He]; simpl.
  - rewrite Z.div_opp_l_z by lia. lia.
  - rewrite Z.div_opp_l_nz by lia. lia.
Qed.

Lemma RightShift_ResultLength_zero X x_sign shift : digits_ok X -> 0 <= shift < 2 ^ 38 -> IsDigitNormalized X = true ->
  (RightShift_ResultLength X x_sign shift).1 = O <-> dval X < weight (Z.to_nat (shift / kDigitBits)).
Proof.
  intros HX Hs HN. assert (Z.to_nat (wrap 32 (shift / kDigitBits)) = Z.to_nat (shift / kDigitBits)) as Hds.
  { unfold wrap. rewrite Z.mod_small; [done|]. split; [apply Z.div_pos|apply Z.div_lt_upper_bound]; unfold kDigitBits; lia. }
  unfold RightShift_ResultLength. rewrite Hds. set (ds := Z.to_nat (shift / kDigitBits)).
  destruct (Nat.leb_spec (length X) ds) as [Hl|Hl]; cbn [fst].
  - split; [intros _|done]. pose proof (dval_bounds X HX). pose proof (weight_mono _ _ Hl). lia.
  - split; [intros He; exfalso; repeat case_match; lia|intros Hv]. exfalso.
    pose proof (normalized_bound X HX HN ltac:(intros ->; simpl in Hl; lia)). pose proof (weight_mono ds (length X - 1) ltac:(lia)). lia.
Qed.

Lemma RightShift_spec X x_sign shift n round : digits_ok X -> 0 <= shift < 2 ^ 38 ->
  RightShift_ResultLength X x_sign shift = (n, round) -> n <> O ->
  exists r, RightShift n X shift round = Some r /\ represents n r (shifted_magnitude x_sign (dval X) shift).
Proof.
  intros HX Hs. destruct (shift_split shift Hs) as (S1 & S2 & S3). cbv zeta in *. unfold RightShift_ResultLength, RightShift, shifted_magnitude.
  set (ds := Z.to_nat (wrap _ _)) in *. set (bs := shift mod kDigitBits) in *. rewrite S2.
  destruct (Nat.leb_spec (length X) ds) as [Hl|Hl]; [by intros [= <- <-]|]. cbv zeta.
  assert ((if x_sign then if negb (Z.land X.[ds] (Z.shiftl 1 bs - 1) =? 0) then true else existsb (fun d => negb (d =? 0)) (take ds X) else false)
    = x_sign && negb (dval X mod (weight ds * 2 ^ bs) =? 0)) as ->.
  { rewrite <- remainder_nonzero by done. destruct x_sign; [|done]. simpl. by destruct (negb _). }
  set (r := x_sign && _). set (body := if bs =? 0 then drop ds X else shift_right_loop (drop ds X) bs).
  assert (dval body = dval X / (weight ds * 2 ^ bs) /\ digits_ok body /\ length body = (length X - ds)%nat) as (V1 & V2 & V3).
  { unfold body. rewrite high_part by (done || lia). destruct (Z.eqb_spec bs 0) as [->|H0].
    - rewrite Z.div_1_r, length_drop. auto with v8.
    - destruct (shift_right_loop_spec (drop ds X) bs) as (R1 & R2 & R3); [by apply drop_ok|by apply drop_nonempty|lia|].
      rewrite length_drop in R3. done. }
  intros [= <- <-] _. rewrite <- V1. pose proof (dval_bounds body V2) as Hb. rewrite V3 in Hb.
  destruct r; simpl.
  - apply represents_add_one; [done|..].
    + rewrite V3. destruct (bs =? 0); [|lia]. destruct (digit_ismax _); lia.
    + destruct (bs =? 0); [|lia]. destruct (digit_ismax _); lia.
    + destruct (Z.eqb_spec bs 0) as [H0|H0]; simpl.
      * rewrite digit_ismax_spec by (by apply digit_at). destruct (Z.eqb_spec (msd X) (digit_base - 1)) as [Hm|Hm].
        { rewrite weight_S. pose proof digit_base_eq. lia. }
        unfold body in *. rewrite H0 in *. simpl in *.
        assert (drop ds X <> []) as Hne by (by apply drop_nonempty).
        pose proof (msd_bounds _ V2 Hne) as Hmb. unfold msd in Hmb. rewrite drop_at, V3 in Hmb.
        replace (ds + (length X - ds - 1))%nat with (length X - 1)%nat in Hmb by lia. fold (msd X) in Hmb.
        pose proof (weight_pos (length X - ds - 1)). destruct (digit_at X (length X - 1) HX) as [Hm0 Hm1]. fold (msd X) in Hm0, Hm1.
        assert (weight (length X - ds) = digit_base * weight (length X - ds - 1)) as -> by (rewrite <- weight_S; f_equal; lia). nia.
      * rewrite V1, high_part by (done || lia). pose proof (dval_bounds _ (drop_ok ds X HX)) as Hd. rewrite length_drop in Hd.
        pose proof (Z.pow_le_mono_r 2 1 bs ltac:(lia) ltac:(lia)) as Hp. change (2 ^ 1) with 2 in Hp.
        assert (weight 1 <= weight (length X - ds)) as Hw by (apply weight_mono; lia). rewrite weight_S, weight_0 in Hw. pose proof digit_base_eq.
        assert (dval (drop ds X) / 2 ^ bs <= dval (drop ds X) / 2) by (apply Z.div_le_compat_l; lia).
        assert (dval (drop ds X) / 2 * 2 <= dval (drop ds X)) by (rewrite Z.mul_comm; apply Z.mul_div_le; lia). lia.
  - eexists. split; [done|]. rewrite Z.add_0_r. apply represents_extend; [done|]. rewrite V3. lia.
Qed.

(** ** Truncation *)

(** The last digit of an n-bit number, and how many bits of it are used. *)
Definition last_digit (n : Z) : nat := (Z.to_nat (DIV_CEIL n kDigitBits) - 1)%nat.
Definition last_bits (n : Z) : Z := if n mod kDigitBits =? 0 then kDigitBits else n mod kDigitBits.

Lemma needed_digits_spec n : 1 <= n ->
  Z.to_nat (DIV_CEIL n kDigitBits) = S (last_digit n) /\ n = kDigitBits * Z.of_nat (last_digit n) + last_bits n /\
  1 <= last_bits n <= kDigitBits /\ 2 ^ n = weight (last_digit n) * 2 ^ last_bits n /\ (n - 1) mod kDigitBits = last_bits n - 1.
Proof.
  intros Hn. unfold last_digit, last_bits, DIV_CEIL. pose proof (Z.div_mod (n - 1) kDigitBits ltac:(done)) as Hd.
  pose proof (Z.mod_pos_bound (n - 1) kDigitBits ltac:(done)) as Hm. assert (0 <= (n - 1) / kDigitBits) as H0 by (apply Z.div_pos; [lia|done]).
  set (q := (n - 1) / kDigitBits) in *. set (r := (n - 1) mod kDigitBits) in *.
  assert ((if n mod kDigitBits =? 0 then kDigitBits else n mod kDigitBits) = r + 1) as Hb.
  { destruct (decide (r + 1 = kDigitBits)) as [E|E].
    - assert (n mod kDigitBits = 0) as ->; [|simpl; lia]. symmetry. apply (Z.mod_unique_pos _ _ (q + 1)); unfold kDigitBits in *; lia.
    - assert (n mod kDigitBits = r + 1) as -> by (symmetry; apply (Z.mod_unique_pos _ _ q); lia).
      destruct (Z.eqb_spec (r + 1) 0); lia. }
  rewrite Hb. assert (Z.to_nat (q + 1) - 1 = Z.to_nat q)%nat as -> by lia. rewrite Z2Nat.id by done.
  split_all; [lia|unfold kDigitBits in *; lia|lia|unfold kDigitBits in *; lia| |lia].
  rewrite weight_pow2, Z2Nat.id by done. rewrite <- Z.pow_add_r by (unfold kDigitBits in *; lia). f_equal. lia.
Qed.

Lemma drop_bits_spec d drop : digit_ok d -> 0 < drop < kDigitBits -> drop_bits d drop = d mod 2 ^ (kDigitBits - drop).
Proof.
  intros Hd Hs. unfold drop_bits. pose proof (pow2_log2_bounds drop ltac:(lia)). pose proof (pow2_log2_bounds (kDigitBits - drop) ltac:(lia)).
  rewrite Z.shiftl_mul_pow2, Z.shiftr_div_pow2 by lia. rewrite digit_mod.
  assert (digit_base = 2 ^ (kDigitBits - drop) * 2 ^ drop) as -> by (rewrite <- Z.pow_add_r by lia; unfold digit_base; f_equal; lia).
  rewrite Z.mul_mod_distr_r, Z.div_mul by lia. done.
Qed.

(** The bits of the last digit that are kept. *)
Lemma kept_bits d n : digit_ok d -> 1 <= n ->
  (if negb (n mod kDigitBits =? 0) then drop_bits d (kDigitBits - n mod kDigitBits) else d) = d mod 2 ^ last_bits n.
Proof.
  intros Hd Hn. unfold last_bits. pose proof (Z.mod_pos_bound n kDigitBits ltac:(done)).
  destruct (Z.eqb_spec (n mod kDigitBits) 0) as [H0|H0]; cbn [negb].
  - symmetry. by apply Z.mod_small.
  - rewrite drop_bits_spec by (done || lia). do 2 f_equal. lia.
Qed.

Lemma TruncateToNBits_spec X n : digits_ok X -> 1 <= n -> (S (last_digit n) <= length X)%nat ->
  represents (S (last_digit n)) (TruncateToNBits X n) (dval X mod 2 ^ n).
Proof.
  intros HX Hn Hl. destruct (needed_digits_spec n Hn) as (N1 & N2 & N3 & N4 & _). unfold TruncateToNBits.
  replace (Z.to_nat (DIV_CEIL n kDigitBits) - 1)%nat with (last_digit n) by lia. rewrite kept_bits by auto with v8.
  pose proof (digit_at X (last_digit n) HX) as Hd. pose proof (Z.mod_pos_bound (X.[last_digit n]) (2 ^ last_bits n) ltac:(apply pow2_log2_bounds; lia)).
  unfold represents. rewrite dval_snoc, length_app, length_take, Nat.min_l, N4, low_part by (done || lia). simpl.
  split_all; [done| |lia]. apply app_ok, Forall_singleton; [by apply take_ok|].
  pose proof (Z.pow_le_mono_r 2 (last_bits n) kDigitBits). unfold digit_ok, digit_base in *. lia.
Qed.

Lemma zeros_map n : carry_loop digit_sub (replicate n 0) 0 = (replicate n 0, 0).
Proof. apply carry_loop_zero; [apply sub_zero|apply zeros_ok]. Qed.

(** Zero minus the low digits, with the borrow of the digits above. *)
Lemma negate_low X l : digits_ok X ->
  exists z1 z2 b1 b2, carry_loop (fun x borrow => digit_sub2 0 x borrow) (take (Nat.min l (length X)) X) 0 = (z1, b1) /\
    carry_loop digit_sub (replicate (l - Nat.min l (length X)) 0) b1 = (z2, b2) /\
    dval (z1 ++ z2) - weight l * b2 = - dval (take l X) /\ digits_ok (z1 ++ z2) /\ length (z1 ++ z2) = l /\ 0 <= b2 <= 1.
Proof.
  intros HX. set (h := Nat.min l (length X)).
  assert (length (take h X) = h) as Hh by (rewrite length_take; unfold h; lia).
  assert (forall l c, carry_loop (fun x borrow => digit_sub2 0 x borrow) l c = carry_loop (fun p borrow => digit_sub2 p.1 p.2 borrow) (zip (replicate (length l) 0) l) c) as Hzip.
  { clear. intros l. induction l as [|x l IH]; intros c; [done|]. cbn [length replicate zip_with carry_loop fst snd].
    destruct (digit_sub2 0 x c) as [d c']. by rewrite IH. }
  destruct (carry_loop _ (take h X) 0) as [z1 b1] eqn:E1. destruct (carry_loop digit_sub (replicate (l - h) 0) b1) as [z2 b2] eqn:E2.
  exists z1, z2, b1, b2. split_all; [done|done|..].
  all: rewrite Hzip in E1; destruct (sub2_loop_spec (replicate (length (take h X)) 0) (take h X) 0 z1 b1 (zeros_ok _) (take_ok h X HX)) as (A1 & A2 & A3 & A4);
    [by rewrite length_replicate|lia|done|].
  all: destruct (sub_loop_spec (replicate (l - h) 0) b1 z2 b2 (zeros_ok (l - h)) A4 E2) as (B1 & B2 & B3 & B4).
  all: rewrite dval_zeros, !length_replicate, Hh in *; try (by apply app_ok); try (rewrite length_app; unfold h in *; lia); try lia.
  rewrite dval_app, A3. assert (weight l = weight h * weight (l - h)) as -> by (rewrite <- weight_add; f_equal; unfold h; lia).
  assert (take l X = take h X) as ->.
  { unfold h. destruct (Nat.min_spec l (length X)) as [[_ ->]|[? ->]]; [done|]. by rewrite !take_ge by lia. }
  apply (f_equal (Z.mul (weight h))) in B1. lia.
Qed.

Lemma TruncateAndSubFromPowerOfTwo_spec X n : digits_ok X -> 1 <= n ->
  represents (S (last_digit n)) (TruncateAndSubFromPowerOfTwo X n) ((- dval X) mod 2 ^ n).
Proof.
  intros HX Hn. destruct (needed_digits_spec n Hn) as (N1 & N2 & N3 & N4 & _). unfold TruncateAndSubFromPowerOfTwo.
  replace (Z.to_nat (DIV_CEIL n kDigitBits) - 1)%nat with (last_digit n) by lia. set (l := last_digit n) in *.
  destruct (negate_low X l HX) as (z1 & z2 & b1 & b2 & -> & -> & L1 & L2 & L3 & L4). pose proof (weight_pos l) as Hw.
  assert ((if (l <? length X)%nat then X.[l] else 0) = X.[l]) as -> by (destruct (Nat.ltb_spec l (length X)); [done|by rewrite out_of_range]).
  pose proof (digit_at X l HX) as Hd. set (rb := last_bits n) in *. pose proof (pow2_log2_bounds rb ltac:(lia)) as Hp.
  pose proof (low_part X l rb HX ltac:(lia)) as Hlow. pose proof (Z.mod_pos_bound (X.[l]) (2 ^ rb) ltac:(lia)) as Hm.
  pose proof (Z.div_mod (dval X) (2 ^ n) ltac:(rewrite N4; nia)) as Hdm. rewrite N4 in Hdm. rewrite Hlow in Hdm.
  assert (2 ^ rb <= digit_base) as Hpb by (apply Z.pow_le_mono_r; lia).
  assert (forall top c, digit_ok top -> top < 2 ^ rb -> top = 2 ^ rb * c - X.[l] mod 2 ^ rb - b2 ->
    represents (S l) ((z1 ++ z2) ++ [top]) ((- dval X) mod 2 ^ n)) as Hout.
  { intros top c Ht Htb He. unfold represents. rewrite dval_snoc, (length_app (z1 ++ z2)), L3. simpl. split_all; [|by apply app_ok, Forall_singleton|lia].
    rewrite N4. apply (Z.mod_unique_pos _ _ (- (dval X / (weight l * 2 ^ rb)) - c)); [|rewrite He; lia].
    pose proof (dval_bounds _ L2) as Hz. rewrite L3 in Hz. unfold digit_ok in Ht. clear -Hz Htb Ht Hw Hp. nia. }
  unfold rb, last_bits in *. rewrite !app_assoc. destruct (Z.eqb_spec (n mod kDigitBits) 0) as [H0|H0]; clear rb.
  - change (2 ^ kDigitBits) with digit_base in *. rewrite (Z.mod_small X.[l]) in * by done.
    destruct (digit_sub2 0 X.[l] b2) as [top b] eqn:He. destruct (digit_sub2_spec _ _ _ _ _ He) as (T1 & T2 & T3); [by vm_compute|done|lia|].
    apply (Hout top b); [done|apply T2|lia].
  - pose proof (Z.mod_pos_bound n kDigitBits ltac:(done)) as Hn2. set (bits := n mod kDigitBits) in *.
    rewrite drop_bits_spec by (done || lia). replace (kDigitBits - (kDigitBits - bits)) with bits by lia.
    rewrite Z.shiftl_mul_pow2, Z.mul_1_l by lia. rewrite (digit_small (2 ^ bits)).
    2: { split; [lia|]. apply Z.pow_lt_mono_r; unfold kDigitBits in *; lia. }
    destruct (digit_sub2 _ _ b2) as [top b] eqn:He. assert (2 ^ bits < digit_base) by (apply Z.pow_lt_mono_r; unfold kDigitBits in *; lia).
    destruct (digit_sub2_spec _ _ _ _ _ He) as (T1 & T2 & T3); [unfold digit_ok; lia|unfold digit_ok; lia|lia|].
    unfold digit_ok in T2. assert (b = 0 \/ b = 1) as [->| ->] by lia; [|lia].
    rewrite land_pow2_mask, (app_assoc z1) by lia. pose proof (Z.mod_pos_bound top (2 ^ bits) ltac:(lia)).
    destruct (decide (top = 2 ^ bits)) as [E|E].
    + rewrite E, Z.mod_same by lia. apply (Hout 0 0); [by vm_compute|lia|lia].
    + rewrite Z.mod_small by lia. apply (Hout top 1); [unfold digit_ok; lia|lia|lia].
Qed.

(** ** The n-bit integers *)

Lemma mod_double a k : 0 <= k -> a mod 2 ^ (k + 1) = a mod 2 ^ k + 2 ^ k * Z.b2z (Z.testbit a k).
Proof.
  intros Hk. pose proof (Z.pow_pos_nonneg 2 k). rewrite Z.pow_add_r, Z.pow_1_r by lia. rewrite Z.testbit_spec' by done. apply Z.rem_mul_r; lia.
Qed.

(** A bit, tested with a mask. *)
Lemma land_bit_testbit a k : 0 <= k -> (Z.land a (2 ^ k) =? 2 ^ k) = Z.testbit a k.
Proof.
  intros Hk. rewrite <- (Z.mul_1_l (2 ^ k)) at 1. rewrite <- Z.shiftl_mul_pow2 by done.
  pose proof (Z.pow_pos_nonneg 2 k). destruct (Z.testbit a k) eqn:Ha.
  - apply Z.eqb_eq. apply Z.bits_inj'. intros m Hm. rewrite Z.land_spec, Z.shiftl_mul_pow2, Z.mul_1_l, Z.pow2_bits_eqb by done.
    destruct (Z.eqb_spec k m) as [<-|]; [by rewrite Ha|apply andb_false_r].
  - apply Z.eqb_neq. intros He. apply (f_equal (fun z => Z.testbit z k)) in He. rewrite Z.land_spec, Ha, Z.pow2_bits_true in He by done. done.
Qed.

(** The bit n-1 of a vector, found in its last digit. *)
Lemma sign_bit X n : digits_ok X -> 1 <= n ->
  let has_bit := Z.land (X.[last_digit n]) (Z.shiftl 1 ((n - 1) mod kDigitBits)) =? Z.shiftl 1 ((n - 1) mod kDigitBits) in
  dval X mod 2 ^ n = dval X mod 2 ^ (n - 1) + 2 ^ (n - 1) * Z.b2z has_bit /\
  2 ^ (n - 1) = weight (last_digit n) * 2 ^ (last_bits n - 1).
Proof.
  intros HX Hn. destruct (needed_digits_spec n Hn) as (N1 & N2 & N3 & N4 & ->). cbv zeta. rewrite Z.shiftl_mul_pow2, Z.mul_1_l, land_bit_testbit by lia.
  assert (2 ^ (n - 1) = weight (last_digit n) * 2 ^ (last_bits n - 1)) as N5.
  { rewrite weight_pow2, <- Z.pow_add_r by (unfold kDigitBits in *; lia). f_equal. lia. }
  split; [|done]. rewrite N4, N5, !low_part by (done || lia). replace (last_bits n) with (last_bits n - 1 + 1) at 1 by lia. rewrite mod_double by lia. ring.
Qed.

Lemma if_orb_negb (b c : bool) : negb (b || c) = if b then false else negb c.
Proof. by destruct b, c. Qed.

Lemma AsIntN_spec X (x_negative : bool) n : digits_ok X -> 1 <= n -> (S (last_digit n) <= length X)%nat ->
  let r := AsIntN X x_negative n in
  signed r.2 r.1 = swrap n (signed x_negative X) /\ digits_ok r.1 /\ length r.1 = S (last_digit n).
Proof.
  intros HX Hn Hl. destruct (needed_digits_spec n Hn) as (N1 & N2 & N3 & N4 & N5). cbv zeta.
  destruct (TruncateToNBits_spec X n HX Hn Hl) as (A1 & A2 & A3). destruct (TruncateAndSubFromPowerOfTwo_spec X n HX Hn) as (B1 & B2 & B3).
  destruct (sign_bit X n HX Hn) as [S1 S2]. unfold AsIntN. replace (Z.to_nat (DIV_CEIL n kDigitBits) - 1)%nat with (last_digit n) by lia.
  set (has_bit := Z.land _ _ =? _) in *. assert (2 ^ n = 2 * 2 ^ (n - 1)) as Hp by (rewrite <- Z.pow_succ_r by lia; f_equal; lia).
  pose proof (Z.mod_pos_bound (dval X) (2 ^ (n - 1)) ltac:(lia)) as Hm. pose proof (Z.div_mod (dval X) (2 ^ n) ltac:(lia)) as Hd.
  assert (forall s q, - 2 ^ (n - 1) <= s < 2 ^ (n - 1) -> signed x_negative X = s + q * 2 ^ n -> s = swrap n (signed x_negative X)) as Hs.
  { intros s q Hs ->. rewrite <- (swrap_id n s) at 1 by lia. apply swrap_eq; [lia|]. by rewrite Z.mod_add by lia. }
  destruct has_bit; cbn [negb Z.b2z fst snd] in *.
  - split_all; [|done|done]. assert ((- dval X) mod 2 ^ n = 2 ^ n - dval X mod 2 ^ n) as Hneg.
    { symmetry. apply (Z.mod_unique_pos _ _ (- (dval X / 2 ^ n) - 1)); lia. }
    destruct x_negative; cbn [negb]; unfold signed at 1; cbv iota.
    + rewrite N5. rewrite <- if_orb_negb, remainder_nonzero by (done || lia). rewrite <- S2.
      destruct (Z.eqb_spec (dval X mod 2 ^ (n - 1)) 0) as [Hz|Hz]; cbn [negb].
      * apply (Hs _ (- (dval X / 2 ^ n))); [lia|]. unfold signed. lia.
      * apply (Hs _ (- (dval X / 2 ^ n) - 1)); [lia|]. unfold signed. lia.
    + apply (Hs _ (dval X / 2 ^ n + 1)); [lia|]. unfold signed. lia.
  - split_all; [|done|done]. destruct x_negative; unfold signed at 1; cbv iota.
    + apply (Hs _ (- (dval X / 2 ^ n))); [lia|]. unfold signed. lia.
    + apply (Hs _ (dval X / 2 ^ n)); [lia|]. unfold signed. lia.
Qed.

(** A vector of at most [last_digit n] digits has less than n bits. *)
Lemma few_digits X n : digits_ok X -> 1 <= n -> (length X <= last_digit n)%nat -> dval X < 2 ^ (n - 1).
Proof.
  intros HX Hn Hl. destruct (needed_digits_spec n Hn) as (N1 & N2 & N3 & N4 & N5). destruct (sign_bit X n HX Hn) as [_ ->].
  pose proof (dval_bounds X HX). pose proof (weight_mono (length X) (last_digit n) Hl). pose proof (pow2_log2_bounds (last_bits n - 1) ltac:(lia)).
  pose proof (weight_pos (last_digit n)). nia.
Qed.

(** A vector of exactly the digits of an n-bit number. *)
Lemma last_digit_split X n : digits_ok X -> length X = S (last_digit n) ->
  dval X = dval (take (last_digit n) X) + weight (last_digit n) * X.[last_digit n] /\
  0 <= dval (take (last_digit n) X) < weight (last_digit n) /\ digit_ok (X.[last_digit n]).
Proof.
  intros HX Hl. split; [|split; [by apply dval_take_small|by apply digit_at]].
  rewrite (dval_at X (last_digit n)) at 1. rewrite drop_ge by lia. simpl. lia.
Qed.

(** What the callers of AsIntN and AsUintN rely on: without a result length the number is unchanged. *)
Lemma AsIntNResultLength_spec X (x_negative : bool) n : digits_ok X -> 1 <= n ->
  match AsIntNResultLength X x_negative n with
  | None => swrap n (signed x_negative X) = signed x_negative X
  | Some l => l = S (last_digit n) /\ (l <= length X)%nat
  end.
Proof.
  intros HX Hn. destruct (needed_digits_spec n Hn) as (N1 & N2 & N3 & N4 & N5). unfold AsIntNResultLength. rewrite N1.
  pose proof (dval_bounds X HX) as Hb. destruct (sign_bit X n HX Hn) as [_ S2].
  assert (dval X < 2 ^ (n - 1) -> swrap n (signed x_negative X) = signed x_negative X) as Hsmall.
  { intros H. apply swrap_id; [lia|]. unfold signed. destruct x_negative; lia. }
  destruct (Nat.ltb_spec (length X) (S (last_digit n))).
  { apply Hsmall, few_digits; (done || lia). }
  destruct (Nat.ltb_spec (S (last_digit n)) (length X)); [split; lia|].
  destruct (last_digit_split X n HX ltac:(lia)) as (L1 & L2 & L3). rewrite Nat.sub_succ, Nat.sub_0_r, N5, Z.shiftl_mul_pow2, Z.mul_1_l, existsb_nonzero by (auto with v8 || lia).
  destruct (Z.ltb_spec (X.[last_digit n]) (2 ^ (last_bits n - 1))).
  { apply Hsmall. rewrite L1, S2. nia. }
  destruct (Z.ltb_spec (2 ^ (last_bits n - 1)) (X.[last_digit n])); [split; lia|].
  destruct x_negative; cbn [negb]; [|split; lia].
  destruct (Z.eqb_spec (dval (take (last_digit n) X)) 0) as [Hz|Hz]; cbn [negb]; [|split; lia].
  apply swrap_id; [lia|]. unfold signed. rewrite L1, Hz, S2. nia.
Qed.

Lemma AsUintN_Pos_ResultLength_spec X n : digits_ok X -> 1 <= n ->
  match AsUintN_Pos_ResultLength X n with
  | None => dval X mod 2 ^ n = dval X
  | Some l => l = S (last_digit n) /\ (l <= length X)%nat
  end.
Proof.
  intros HX Hn. destruct (needed_digits_spec n Hn) as (N1 & N2 & N3 & N4 & N5). unfold AsUintN_Pos_ResultLength. rewrite N1.
  pose proof (dval_bounds X HX) as Hb.
  assert (dval X < 2 ^ n -> dval X mod 2 ^ n = dval X) as Hsmall by (intros; apply Z.mod_small; lia).
  destruct (Nat.ltb_spec (length X) (S (last_digit n))).
  { apply Hsmall. pose proof (few_digits X n HX Hn ltac:(lia)). pose proof (Z.pow_le_mono_r 2 (n - 1) n). lia. }
  destruct (Nat.ltb_spec (S (last_digit n)) (length X)); [split; lia|].
  destruct (last_digit_split X n HX ltac:(lia)) as (L1 & L2 & L3). rewrite Nat.sub_succ, Nat.sub_0_r.
  unfold last_bits in *. destruct (Z.eqb_spec (n mod kDigitBits) 0) as [Hn0|Hn0].
  { apply Hsmall. rewrite N4, L1. change (2 ^ kDigitBits) with digit_base. unfold digit_ok in L3. nia. }
  rewrite Z.shiftr_div_pow2 by lia. pose proof (pow2_log2_bounds (n mod kDigitBits) ltac:(lia)).
  destruct (Z.eqb_spec (X.[last_digit n] / 2 ^ (n mod kDigitBits)) 0) as [Hz|Hz]; [|split; lia].
  apply Hsmall. rewrite N4, L1. apply Z.div_small_iff in Hz; [|lia]. destruct Hz as [Hz|Hz]; [|lia]. nia.
Qed.

Lemma AsUintN_Neg_ResultLength_spec n : 1 <= n -> AsUintN_Neg_ResultLength n = S (last_digit n).
Proof. intros Hn. by destruct (needed_digits_spec n Hn) as (<- & _). Qed.
