(* ===== verification/Karatsuba.v ===== *)
(** Karatsuba multiplication of digit vectors (src/src/bigint/mul-karatsuba.cc) and the
    multiplication of a processor (src/src/bigint/bigint-internal.cc), in a build without the
    advanced algorithms, where Karatsuba's multiplication serves all large operands and asks
    for termination. [zs] is the vector Z, whose digits are overwritten, [scratch] the vector
    the recursion stores its products in. *)
From S2P Require Import Prelude Conversions Digits DigitsLinear DigitsMultiply DigitsDivide.

(** ** The length of the chunks *)

Definition RoundUp (x y : Z) : Z := Z.land (x + y - 1) (- y).

Definition RoundUpLen (len : Z) : Z :=
  if len <=? 36 then RoundUp len 2
  else
    let shift := BitLength len - 5 in
    let shift := if 24 <=? Z.shiftr len shift then shift + 1 else shift in
    let additive := Z.shiftl 1 shift - 1 in
    if (2 <=? shift) && (Z.land len additive <? Z.shiftl 1 (shift - 2)) then len
    else Z.shiftl (Z.shiftr (wrap 32 (len + additive)) shift) shift.

(** The halvings until the threshold is reached; a 32-bit number needs at most 32. *)
Fixpoint halve (fuel : nat) (n i : Z) : Z * Z :=
  match fuel with
  | O => (n, i)
  | S fuel => if Z.of_nat kKaratsubaThreshold <? n then halve fuel (Z.shiftr n 1) (i + 1) else (n, i)
  end.

Definition KaratsubaLength (n : Z) : Z :=
  let '(n, i) := halve 32 (RoundUpLen n) 0 in Z.shiftl n i.

(** ** The recursion *)

(** The absolute difference, and the sign flipped when X is smaller. *)
Definition KaratsubaSubtractionHelper (result_len : nat) (X Y : list Z) (sign : Z) : list Z * Z :=
  let X := Normalize X in
  let Y := Normalize Y in
  let '(X, Y, sign) := if GreaterThanOrEqual X Y then (X, Y, sign) else (Y, X, - sign) in
  let '(z1, borrow) := carry_loop (fun p borrow => digit_sub2 p.1 p.2 borrow) (zip X Y) 0 in
  let '(z2, borrow) := carry_loop digit_sub (drop (length Y) X) borrow in
  (extend result_len (z1 ++ z2), sign).

(** AddAndReturnOverflow(Z + i, X) and SubAndReturnBorrow(Z + i, X); the overflow is only
    checked in debug builds. *)
Definition AddAt (zs X : list Z) (i : nat) : list Z := take i zs ++ (AddAndReturnOverflow (drop i zs) X).1.
Definition SubAt (zs X : list Z) (i : nat) : list Z := take i zs ++ (SubAndReturnBorrow (drop i zs) X).1.

(** P0 is the scratch below n, P2 and P1 the scratch from n to 2n, the scratch from 2n to 4n
    serves the recursion, and X_diff and Y_diff take the place of P0. *)
Fixpoint KaratsubaMain (fuel : nat) (zs X Y scratch : list Z) (n : nat) (p : Processor) : list Z * list Z * Processor :=
  if (n <? kKaratsubaThreshold)%nat then
    let X := Normalize X in
    let Y := Normalize Y in
    let Z_len := length (slice zs 0 (2 * n)) in
    let product := if (length Y <=? length X)%nat then (MultiplySchoolbook Z_len X Y).1 else (MultiplySchoolbook Z_len Y X).1 in
    (product ++ drop Z_len zs, scratch, AddWorkEstimate (Z.of_nat (length X * length Y)) p)
  else
    match fuel with
    | O => (zs, scratch, p)
    | S fuel =>
      let n2 := Nat.div2 n in
      let X0 := slice X 0 n2 in
      let X1 := slice X n2 n2 in
      let Y0 := slice Y 0 n2 in
      let Y1 := slice Y n2 n2 in
      let scratch_for_recursion := slice scratch (2 * n) (2 * n) in
      let rest := drop (4 * n) scratch in
      let P0 := slice scratch 0 n in
      let P2 := slice scratch n n in
      let '(P0, scratch_for_recursion, p) := KaratsubaMain fuel P0 X0 Y0 scratch_for_recursion n2 p in
      if should_terminate p then (zs, P0 ++ P2 ++ scratch_for_recursion ++ rest, p)
      else
        let zs := P0 ++ drop n zs in
        let '(P2, scratch_for_recursion, p) := KaratsubaMain fuel P2 X1 Y1 scratch_for_recursion n2 p in
        if should_terminate p then (zs, P0 ++ P2 ++ scratch_for_recursion ++ rest, p)
        else
          let last := Nat.min (length zs - n) (length P2) in
          let zs := take n zs ++ take last P2 ++ drop (n + last) zs in
          let zs := AddAt zs P0 n2 in
          let zs := AddAt zs P2 n2 in
          let '(X_diff, sign) := KaratsubaSubtractionHelper n2 X1 X0 1 in
          let '(Y_diff, sign) := KaratsubaSubtractionHelper n2 Y0 Y1 sign in
          let P0 := X_diff ++ Y_diff ++ drop (2 * n2) P0 in
          let '(P1, scratch_for_recursion, p) := KaratsubaMain fuel P2 X_diff Y_diff scratch_for_recursion n2 p in
          (if 0 <? sign then AddAt zs P1 n2 else SubAt zs P1 n2, P0 ++ P1 ++ scratch_for_recursion ++ rest, p)
    end.

(** ** Operands of different lengths *)

(** Platform::Allocate: the digits of a fresh vector are not initialised. *)
Section allocate.
Context (Allocate : nat -> list Z).

Section start.
Context (KaratsubaChunk : list Z -> list Z -> list Z -> list Z -> Processor -> list Z * list Z * Processor).

(** The chunks Xi of X from the digit i on; the loop ends when X is used up. *)
Fixpoint chunk_loop (fuel : nat) (zs T X Y0 Y1 scratch : list Z) (i k : nat) (p : Processor) : list Z * list Z * Processor :=
  match fuel with
  | O => (zs, scratch, p)
  | S fuel =>
    if (i <? length X)%nat then
      let Xi := slice X i k in
      let '(T, scratch, p) := KaratsubaChunk T Xi Y0 scratch p in
      if should_terminate p then (zs, scratch, p)
      else
        let zs := AddAt zs T i in
        if (0 <? length Y1)%nat then
          let '(T, scratch, p) := KaratsubaChunk T Xi Y1 scratch p in
          if should_terminate p then (zs, scratch, p)
          else chunk_loop fuel (AddAt zs T (i + k)) T X Y0 Y1 scratch (i + k) k p
        else chunk_loop fuel zs T X Y0 Y1 scratch (i + k) k p
    else (zs, scratch, p)
  end.

Definition KaratsubaStart (zs X Y scratch : list Z) (k : nat) (p : Processor) : list Z * list Z * Processor :=
  let '(zs, scratch, p) := KaratsubaMain k zs X Y scratch k p in
  if should_terminate p then (zs, scratch, p)
  else
    let zs := take (2 * k) zs ++ replicate (length zs - 2 * k) 0 in
    if (k <? length Y)%nat || negb (length X =? length Y)%nat then
      let T := Allocate (2 * k) in
      let X0 := slice X 0 k in
      let Y1 := drop (Nat.min k (length Y)) Y in
      let Y0 := slice Y 0 k in
      if (0 <? length Y1)%nat then
        let '(T, scratch, p) := KaratsubaChunk T X0 Y1 scratch p in
        if should_terminate p then (zs, scratch, p)
        else chunk_loop (length X) (AddAt zs T k) T X Y0 Y1 scratch k k p
      else chunk_loop (length X) zs T X Y0 Y1 scratch k k p
    else (zs, scratch, p).
End start.

Fixpoint KaratsubaChunk (fuel : nat) (zs X Y scratch : list Z) (p : Processor) : list Z * list Z * Processor :=
  let X := Normalize X in
  let Y := Normalize Y in
  if (length X =? 0)%nat || (length Y =? 0)%nat then (Clear (length zs), scratch, p)
  else
    let '(X, Y) := if (length X <? length Y)%nat then (Y, X) else (X, Y) in
    if (length Y =? 1)%nat then
      ((MultiplySingle (length zs) X (Y.[O])).1, scratch, AddWorkEstimate (Z.of_nat (length X)) p)
    else if (length Y <? kKaratsubaThreshold)%nat then
      ((MultiplySchoolbook (length zs) X Y).1, scratch, AddWorkEstimate (Z.of_nat (length X * length Y)) p)
    else
      match fuel with
      | O => (zs, scratch, p)
      | S fuel => KaratsubaStart (KaratsubaChunk fuel) zs X Y scratch (Z.to_nat (KaratsubaLength (Z.of_nat (length Y)))) p
      end.

(** Every chunk has fewer digits than the operands together. *)
Definition MultiplyKaratsuba (zs X Y : list Z) (p : Processor) : list Z * Processor :=
  let k := Z.to_nat (KaratsubaLength (Z.of_nat (length Y))) in
  let '(zs, _, p) := KaratsubaStart (KaratsubaChunk (length X + length Y)) zs X Y (Allocate (4 * k)) k p in
  (zs, p).

(** ** The multiplication of a processor *)

(** UINT32_MAX / kDigitBits. *)
Definition kMaxNumDigits : Z := (2 ^ 32 - 1) / kDigitBits.

(** [None] is the process end of a failed CHECK. *)
Definition MultiplyLarge_impl (zs X Y : list Z) (p : Processor) : option (list Z * Processor) :=
  if Z.of_nat (length X) <=? kMaxNumDigits then Some (MultiplyKaratsuba zs X Y p) else None.

Definition Multiply (zs X Y : list Z) (p : Processor) : option (list Z * Processor) :=
  let X := Normalize X in
  let Y := Normalize Y in
  if (length X =? 0)%nat || (length Y =? 0)%nat then Some (Clear (length zs), p)
  else
    let '(X, Y) := if (length X <? length Y)%nat then (Y, X) else (X, Y) in
    if (length Y =? 1)%nat then
      Some ((MultiplySingle (length zs) X (Y.[O])).1, AddWorkEstimate (Z.of_nat (length X)) p)
    else if (length Y <? kKaratsubaThreshold)%nat then
      Some ((MultiplySchoolbook (length zs) X Y).1, AddWorkEstimate (Z.of_nat (length X * length Y)) p)
    else MultiplyLarge_impl zs X Y p.

(** The product and the status. *)
Definition MultiplyLarge (zs X Y : list Z) (p : Processor) : option (list Z * bool * Processor) :=
  match MultiplyLarge_impl zs X Y p with
  | Some (zs, p) => let '(status, p) := get_and_clear_status p in Some (zs, status, p)
  | None => None
  end.
End allocate.

(** ** The length of the chunks is monotone and close to the length it rounds *)

Lemma BitLength_log2 n : 0 < n < 2 ^ 32 -> BitLength n = Z.log2 n + 1.
Proof.
  intros Hn. unfold BitLength, wrap. rewrite Z.mod_small by lia. unfold CountLeadingZeros. destruct (Z.eqb_spec n 0); lia.
Qed.

(** The block size 2^s of a large length. *)
Definition block (len s : Z) : Prop := 12 * 2 ^ s <= len < 24 * 2 ^ s /\ 1 <= s.

Lemma block_exists len : 37 <= len < 2 ^ 31 ->
  exists s, block len s /\ (if 24 <=? Z.shiftr len (BitLength len - 5) then BitLength len - 5 + 1 else BitLength len - 5) = s.
Proof.
  intros Hl. rewrite BitLength_log2 by lia. pose proof (Z.log2_spec len ltac:(lia)) as Hs.
  assert (5 <= Z.log2 len) as H5 by (apply Z.log2_le_pow2; lia). replace (Z.log2 len + 1 - 5) with (Z.log2 len - 4) by lia.
  set (t := Z.log2 len - 4) in *. replace (Z.log2 len) with (t + 4) in Hs by lia. rewrite Z.shiftr_div_pow2 by lia.
  assert (0 < 2 ^ t) as Hp by (apply Z.pow_pos_nonneg; lia). rewrite <- Z.add_succ_r, !Z.pow_add_r in Hs by lia. change (2 ^ 4) with 16 in Hs. change (2 ^ Z.succ 4) with 32 in Hs.
  eexists. split; [|done]. destruct (Z.leb_spec 24 (len / 2 ^ t)) as [H24|H24]; split; try lia.
  - rewrite Z.pow_add_r, Z.pow_1_r by lia. pose proof (Z.mul_div_le len (2 ^ t) Hp). nia.
  - pose proof (Z.mul_succ_div_gt len (2 ^ t) Hp). nia.
Qed.

Lemma RoundUpLen_block len s : len < 2 ^ 31 -> 37 <= len -> block len s ->
  (if 24 <=? Z.shiftr len (BitLength len - 5) then BitLength len - 5 + 1 else BitLength len - 5) = s ->
  RoundUpLen len = if (2 <=? s) && (len mod 2 ^ s <? 2 ^ (s - 2)) then len else (len + (2 ^ s - 1)) / 2 ^ s * 2 ^ s.
Proof.
  intros Hl Hl' [[B1 B2] B3] Hs. unfold RoundUpLen. destruct (Z.leb_spec len 36); [lia|]. rewrite Hs.
  assert (0 < 2 ^ s) as Hp by (apply Z.pow_pos_nonneg; lia). rewrite !Z.shiftl_mul_pow2, !Z.mul_1_l by lia. rewrite land_pow2_mask by lia.
  destruct (Z.leb_spec 2 s) as [H2|H2]; cbn [andb].
  - rewrite Z.shiftl_mul_pow2, Z.mul_1_l by lia. destruct (_ <? _); [done|].
    unfold wrap. rewrite (Z.mod_small (_ + _)), Z.shiftr_div_pow2, Z.shiftl_mul_pow2 by lia. done.
  - unfold wrap. rewrite (Z.mod_small (_ + _)), Z.shiftr_div_pow2, Z.shiftl_mul_pow2 by lia. done.
Qed.

(** Rounding up to a block. *)
Lemma round_up_bounds len b : 0 < b -> len <= (len + (b - 1)) / b * b <= len + (b - 1).
Proof. intros Hb. pose proof (Z.div_mod (len + (b - 1)) b ltac:(lia)). pose proof (Z.mod_pos_bound (len + (b - 1)) b Hb). lia. Qed.

Definition small_lengths (P : Z -> bool) : bool := forallb (fun n => P (Z.of_nat n)) (seq 0 37).

Lemma small_lengths_spec P len : small_lengths P = true -> 0 <= len <= 36 -> P len = true.
Proof.
  intros HP Hl. unfold small_lengths in HP. rewrite forallb_forall in HP. rewrite <- (Z2Nat.id len) by lia. apply HP, in_seq. lia.
Qed.

Lemma RoundUpLen_bounds len : 0 <= len < 2 ^ 31 -> len <= RoundUpLen len /\ 12 * RoundUpLen len <= 13 * len + 12 /\ (34 <= len -> 12 * RoundUpLen len <= 13 * len).
Proof.
  intros Hl. destruct (Z.le_gt_cases len 36) as [H36|H36].
  - assert (forall l, 0 <= l <= 36 -> ((l <=? RoundUpLen l) && (12 * RoundUpLen l <=? 13 * l + 12) && ((l <? 34) || (12 * RoundUpLen l <=? 13 * l))) = true) as Hc.
    { intros l Hl'. by apply (small_lengths_spec (fun l => (l <=? RoundUpLen l) && (12 * RoundUpLen l <=? 13 * l + 12) && ((l <? 34) || (12 * RoundUpLen l <=? 13 * l)))); [vm_compute|]. }
    specialize (Hc len ltac:(lia)). lia.
  - destruct (block_exists len) as (s & Hb & Hs); [lia|]. rewrite (RoundUpLen_block len s) by (done || lia). destruct Hb as [[B1 B2] B3].
    pose proof (round_up_bounds len (2 ^ s) ltac:(lia)). destruct (_ && _); lia.
Qed.

Lemma RoundUpLen_mono l1 l2 : 0 <= l1 <= l2 -> l2 < 2 ^ 31 -> RoundUpLen l1 <= RoundUpLen l2.
Proof.
  intros H1 H2. destruct (Z.le_gt_cases l2 36) as [H36|H36].
  - assert (small_lengths (fun a => small_lengths (fun b => (b <? a) || (RoundUpLen a <=? RoundUpLen b))) = true) as Hc by by vm_compute.
    pose proof (small_lengths_spec _ l2 (small_lengths_spec _ l1 Hc ltac:(lia)) ltac:(lia)) as Hr. cbv beta in Hr. lia.
  - destruct (RoundUpLen_bounds l2 ltac:(lia)) as (R1 & _ & _). destruct (Z.le_gt_cases l1 36) as [H37|H37].
    { assert (small_lengths (fun a => RoundUpLen a <=? 37) = true) as Hc by by vm_compute. pose proof (small_lengths_spec _ l1 Hc ltac:(lia)) as Hr. cbv beta in Hr. lia. }
    destruct (block_exists l1) as (s1 & Hb1 & Hs1); [lia|]. destruct (block_exists l2) as (s2 & Hb2 & Hs2); [lia|].
    rewrite (RoundUpLen_block l1 s1), (RoundUpLen_block l2 s2) in * by (done || lia). destruct Hb1 as [[B1 B2] B3], Hb2 as [[C1 C2] C3].
    pose proof (round_up_bounds l1 (2 ^ s1) ltac:(lia)) as U1. pose proof (round_up_bounds l2 (2 ^ s2) ltac:(lia)) as U2.
    destruct (Z.lt_trichotomy s1 s2) as [Hs|[<-|Hs]].
    + assert (2 ^ (s1 + 1) <= 2 ^ s2) as Hp by (apply Z.pow_le_mono_r; lia). rewrite Z.pow_add_r, Z.pow_1_r in Hp by lia.
      assert ((l1 + (2 ^ s1 - 1)) / 2 ^ s1 < 25) by (apply Z.div_lt_upper_bound; lia).
      assert ((l1 + (2 ^ s1 - 1)) / 2 ^ s1 * 2 ^ s1 <= 24 * 2 ^ s1) by (apply Z.mul_le_mono_nonneg_r; lia).
      destruct (_ && (l1 mod _ <? _)); destruct (_ && _); lia.
    + pose proof (Z.div_mod l1 (2 ^ s1) ltac:(lia)) as D1. pose proof (Z.div_mod l2 (2 ^ s1) ltac:(lia)) as D2.
      pose proof (Z.mod_pos_bound l1 (2 ^ s1) ltac:(lia)) as M1. pose proof (Z.mod_pos_bound l2 (2 ^ s1) ltac:(lia)) as M2.
      pose proof (Z.div_le_mono (l1 + (2 ^ s1 - 1)) (l2 + (2 ^ s1 - 1)) (2 ^ s1) ltac:(lia) ltac:(lia)) as Hm.
      destruct (Z.leb_spec 2 s1); cbn [andb]; [|nia].
      destruct (Z.ltb_spec (l1 mod 2 ^ s1) (2 ^ (s1 - 2))), (Z.ltb_spec (l2 mod 2 ^ s1) (2 ^ (s1 - 2))); try nia.
      assert (l1 / 2 ^ s1 < l2 / 2 ^ s1) by nia.
      assert ((l1 + (2 ^ s1 - 1)) / 2 ^ s1 <= l2 / 2 ^ s1); [|nia]. apply Z.lt_succ_r, Z.div_lt_upper_bound; [lia|]. nia.
    + assert (2 ^ (s2 + 1) <= 2 ^ s1) as Hp by (apply Z.pow_le_mono_r; lia). rewrite Z.pow_add_r, Z.pow_1_r in Hp by lia. lia.
Qed.

Lemma halve_spec fuel n i0 : 0 <= n < 35 * 2 ^ Z.of_nat fuel ->
  exists i, 0 <= i /\ halve fuel n i0 = (n / 2 ^ i, i0 + i) /\ n < 35 * 2 ^ i /\ (i = 0 \/ 35 * 2 ^ (i - 1) <= n).
Proof.
  revert n i0. induction fuel as [|fuel IH]; intros n i0 Hn.
  { exists 0. rewrite Z.pow_0_r, Z.div_1_r, Z.add_0_r. simpl in *. split_all; (done || lia || by left). }
  cbn [halve]. destruct (Z.ltb_spec (Z.of_nat kKaratsubaThreshold) n) as [Ht|Ht]; change (Z.of_nat kKaratsubaThreshold) with 34 in Ht.
  - rewrite Z.shiftr_div_pow2, Z.pow_1_r by lia. rewrite Nat2Z.inj_succ, Z.pow_succ_r in Hn by lia.
    destruct (IH (n / 2) (i0 + 1)) as (i & I0 & I1 & I2 & I3).
    { split; [apply Z.div_pos; lia|]. apply Z.div_lt_upper_bound; lia. }
    exists (i + 1). assert (0 < 2 ^ i) by (apply Z.pow_pos_nonneg; lia). rewrite I1, Z.div_div, (Z.add_comm i 1), (Z.pow_add_r 2 1 i), Z.pow_1_r by lia.
    pose proof (Z.mul_succ_div_gt n 2 ltac:(lia)). pose proof (Z.mul_div_le n 2 ltac:(lia)).
    split_all; [lia|by rewrite Z.add_assoc|lia|]. right. replace (1 + i - 1) with i by lia.
    destruct I3 as [->|I3]; [lia|]. destruct (decide (i = 0)) as [->|]; [lia|].
    assert (2 ^ i = 2 * 2 ^ (i - 1)) as -> by (rewrite <- Z.pow_succ_r by lia; f_equal; lia). lia.
  - exists 0. rewrite Z.pow_0_r, Z.div_1_r, Z.add_0_r. split_all; (lia || done || by left).
Qed.

(** What [KaratsubaLength] computes: the rounded length, cut to a multiple of a power of two. *)
Lemma KaratsubaLength_eq n : 0 <= n < 2 ^ 31 ->
  exists i, 0 <= i /\ KaratsubaLength n = RoundUpLen n / 2 ^ i * 2 ^ i /\ RoundUpLen n < 35 * 2 ^ i /\ (i = 0 \/ 35 * 2 ^ (i - 1) <= RoundUpLen n).
Proof.
  intros Hn. destruct (RoundUpLen_bounds n Hn) as (R1 & R2 & _).
  destruct (halve_spec 32 (RoundUpLen n) 0) as (i & I0 & I1 & I2); [change (2 ^ Z.of_nat 32) with (2 ^ 32); lia|].
  exists i. unfold KaratsubaLength. rewrite I1, Z.add_0_l, Z.shiftl_mul_pow2 by lia. done.
Qed.

Lemma KaratsubaLength_le n : 0 <= n < 2 ^ 31 -> KaratsubaLength n <= RoundUpLen n.
Proof.
  intros Hn. destruct (KaratsubaLength_eq n Hn) as (i & I0 & -> & _). rewrite Z.mul_comm. apply Z.mul_div_le, Z.pow_pos_nonneg; lia.
Qed.

Lemma KaratsubaLength_mono n m : 0 <= n <= m -> m < 2 ^ 31 -> KaratsubaLength n <= KaratsubaLength m.
Proof.
  intros Hn Hm. destruct (KaratsubaLength_eq n ltac:(lia)) as (i & I0 & -> & I1 & I2). destruct (KaratsubaLength_eq m ltac:(lia)) as (j & J0 & -> & J1 & J2).
  pose proof (RoundUpLen_mono n m Hn Hm) as Hr. set (a := RoundUpLen n) in *. set (b := RoundUpLen m) in *.
  assert (0 < 2 ^ i) as Hi by (apply Z.pow_pos_nonneg; lia). assert (0 < 2 ^ j) as Hj by (apply Z.pow_pos_nonneg; lia).
  destruct (Z.lt_trichotomy i j) as [Hij|[<-|Hij]].
  - destruct J2 as [J2|J2]; [lia|]. assert (a / 2 ^ i < 35) by (apply Z.div_lt_upper_bound; lia).
    assert (2 ^ j = 2 * 2 ^ (j - 1)) as Hjj by (rewrite <- Z.pow_succ_r by lia; f_equal; lia).
    assert (2 ^ i <= 2 ^ (j - 1)) by (apply Z.pow_le_mono_r; lia).
    assert (17 <= b / 2 ^ j) by (apply Z.div_le_lower_bound; lia). nia.
  - pose proof (Z.div_le_mono a b (2 ^ i) Hi Hr). nia.
  - destruct I2 as [I2|I2]; [lia|]. assert (2 ^ j <= 2 ^ (i - 1)) by (apply Z.pow_le_mono_r; lia). lia.
Qed.

(** The lengths of the recursion: halved without a remainder until they are below the threshold. *)
Inductive chunk_length : nat -> Prop :=
| chunk_small n : (n < kKaratsubaThreshold)%nat -> chunk_length n
| chunk_double n : chunk_length n -> chunk_length (2 * n).

Lemma chunk_length_half n : chunk_length n -> (kKaratsubaThreshold <= n)%nat -> n = (2 * Nat.div2 n)%nat /\ chunk_length (Nat.div2 n).
Proof. intros [m Hm|m Hm] Hn; [lia|]. by rewrite Nat.div2_double. Qed.

Lemma chunk_length_scale m i : (m <= kKaratsubaThreshold)%nat -> chunk_length (m * 2 ^ i).
Proof.
  intros Hm. assert (chunk_length m) as Hc.
  { destruct (decide (m = kKaratsubaThreshold)) as [->|]; [|apply chunk_small; lia]. apply (chunk_double 17), chunk_small. unfold kKaratsubaThreshold. lia. }
  induction i as [|i IH]; [by rewrite Nat.mul_1_r|]. rewrite Nat.pow_succ_r', Nat.mul_assoc, (Nat.mul_comm m), <- Nat.mul_assoc. by apply chunk_double.
Qed.

Definition Karatsuba_length (l : nat) : nat := Z.to_nat (KaratsubaLength (Z.of_nat l)).

Lemma Karatsuba_length_spec l : (kKaratsubaThreshold <= l)%nat -> Z.of_nat l < 2 ^ 31 ->
  let k := Karatsuba_length l in chunk_length k /\ (kKaratsubaThreshold <= k)%nat /\ (12 * k <= 13 * l)%nat /\ (l <= 2 * k)%nat.
Proof.
  unfold kKaratsubaThreshold. intros Hl Hb. cbv zeta. unfold Karatsuba_length.
  pose proof (KaratsubaLength_le (Z.of_nat l) ltac:(lia)) as Hk. destruct (RoundUpLen_bounds (Z.of_nat l) ltac:(lia)) as (R1 & _ & R2).
  destruct (KaratsubaLength_eq (Z.of_nat l) ltac:(lia)) as (i & I0 & I1 & I2 & I3).
  assert (0 < 2 ^ i) as Hi by (apply Z.pow_pos_nonneg; lia). set (r := RoundUpLen (Z.of_nat l)) in *.
  assert (r / 2 ^ i < 35) as Hr by (apply Z.div_lt_upper_bound; lia). assert (0 <= r / 2 ^ i) as Hr0 by (apply Z.div_pos; lia).
  assert (1 <= r / 2 ^ i) as H1.
  { apply Z.div_le_lower_bound; [lia|]. destruct I3 as [->|I3]; [lia|]. destruct (decide (i = 0)) as [->|]; [lia|].
    assert (2 ^ i = 2 * 2 ^ (i - 1)) as Hii by (rewrite <- Z.pow_succ_r by lia; f_equal; lia). lia. }
  assert (r < 2 * (r / 2 ^ i * 2 ^ i)) as H2 by (pose proof (Z.mul_succ_div_gt r (2 ^ i) Hi); nia).
  split_all; [| |lia|lia].
  - replace (Z.to_nat _) with (Z.to_nat (r / 2 ^ i) * 2 ^ Z.to_nat i)%nat; [apply chunk_length_scale; unfold kKaratsubaThreshold; lia|].
    rewrite I1, Z2Nat.inj_mul by lia. f_equal. rewrite Z2Nat.inj_pow by lia. done.
  - destruct I3 as [->|I3]; [rewrite I1, Z.pow_0_r, Z.div_1_r; lia|]. rewrite I1.
    assert (2 ^ i = 2 * 2 ^ (i - 1) \/ i = 0) as [Hjj|Hz].
    { destruct (decide (i = 0)); [by right|left]. rewrite <- Z.pow_succ_r by lia. f_equal. lia. }
    + assert (17 <= r / 2 ^ i) by (apply Z.div_le_lower_bound; lia). assert (0 < 2 ^ (i - 1)) by lia. nia.
    + subst i. rewrite Z.pow_0_r, Z.div_1_r. lia.
Qed.

(** ** The work of a processor *)

(** A processor that has counted some more work. *)
Definition works (p p' : Processor) : Prop := exists es, p' = foldl (fun p e => AddWorkEstimate e p) p es.

#[export] Instance works_preorder : PreOrder works.
Proof.
  split; [by exists []|]. intros p1 p2 p3 [es1 ->] [es2 ->]. exists (es1 ++ es2). by rewrite foldl_app.
Qed.

Lemma works_add e p : works p (AddWorkEstimate e p).
Proof. by exists [e]. Qed.

Lemma AddWorkEstimate_interrupted e p : should_terminate p = true -> should_terminate (AddWorkEstimate e p) = true.
Proof. unfold should_terminate, AddWorkEstimate. intros Hp. destruct (_ <=? _); simpl; [|done]. by destruct (platform_ p) as [|[] l]. Qed.

(** An interrupted computation stays interrupted. *)
Lemma works_running p p' : works p p' -> should_terminate p' = false -> should_terminate p = false.
Proof.
  intros [es ->]. revert p. induction es as [|e es IH]; intros p; simpl; [done|]. intros H%IH.
  destruct (should_terminate p) eqn:Hp; [|done]. by rewrite AddWorkEstimate_interrupted in H.
Qed.

(** A processor whose platform never asks for an interrupt. *)
Definition undisturbed (p : Processor) : Prop := should_terminate p = false /\ Forall (fun b => b = false) (platform_ p).

Lemma works_undisturbed p p' : works p p' -> undisturbed p -> undisturbed p'.
Proof.
  intros [es ->]. revert p. induction es as [|e es IH]; intros p Hp; simpl; [done|]. apply IH. clear IH. destruct Hp as [Hs Hp].
  unfold AddWorkEstimate, undisturbed, should_terminate in *. destruct (_ <=? _); [|done]. simpl.
  destruct Hp as [|b l Hb Hp]; simpl; [by rewrite Hs|]. by rewrite Hb, Hs.
Qed.

#[export] Hint Resolve works_add : v8.

(** ** The recursion *)

Lemma dval_slice n m X : dval (take (n + m) X) = dval (take n X) + weight n * dval (slice X n m).
Proof.
  unfold slice. rewrite <- take_take_drop, dval_app. destruct (decide (n <= length X)%nat).
  - by rewrite length_take, Nat.min_l by lia.
  - rewrite (drop_ge X) by lia. rewrite take_nil. simpl. lia.
Qed.

Lemma slice_0 n X : slice X 0 n = take n X.
Proof. done. Qed.

Lemma length_slice X i n : (i + n <= length X)%nat -> length (slice X i n) = n.
Proof. intros. unfold slice. rewrite length_take, length_drop. lia. Qed.

Lemma length_slice_le X i n : (length (slice X i n) <= n)%nat.
Proof. unfold slice. rewrite length_take. lia. Qed.

(** A sum that is taken modulo the weight of the vector. *)
Lemma AddAt_spec zs X i : digits_ok zs -> digits_ok X -> (i + length (Normalize X) <= length zs)%nat ->
  exists c, dval (AddAt zs X i) = dval zs + weight i * dval X - weight (length zs) * c /\
    digits_ok (AddAt zs X i) /\ length (AddAt zs X i) = length zs.
Proof.
  intros Hz HX Hl. unfold AddAt. destruct (AddAndReturnOverflow (drop i zs) X) as [ds c] eqn:He.
  destruct (AddAndReturnOverflow_spec _ _ _ _ (drop_ok i _ Hz) HX ltac:(rewrite length_drop; lia) He) as (A1 & A2 & A3 & A4).
  exists c. cbn [fst]. rewrite length_drop in *. rewrite length_app, A3, dval_app, (dval_take_drop i zs), length_take, Nat.min_l by lia.
  assert (weight (length zs) = weight i * weight (length zs - i)) as -> by (rewrite <- weight_add; f_equal; lia).
  apply (f_equal (Z.mul (weight i))) in A1. split_all; [lia|auto with v8|lia].
Qed.

Lemma SubAt_spec zs X i : digits_ok zs -> digits_ok X -> (i + length (Normalize X) <= length zs)%nat ->
  exists c, dval (SubAt zs X i) = dval zs - weight i * dval X - weight (length zs) * c /\
    digits_ok (SubAt zs X i) /\ length (SubAt zs X i) = length zs.
Proof.
  intros Hz HX Hl. unfold SubAt. destruct (SubAndReturnBorrow (drop i zs) X) as [ds c] eqn:He.
  destruct (SubAndReturnBorrow_spec _ _ _ _ (drop_ok i _ Hz) HX ltac:(rewrite length_drop; lia) He) as (A1 & A2 & A3 & A4).
  exists (- c). cbn [fst]. rewrite length_drop in *. rewrite length_app, A3, dval_app, (dval_take_drop i zs), length_take, Nat.min_l by lia.
  assert (weight (length zs) = weight i * weight (length zs - i)) as -> by (rewrite <- weight_add; f_equal; lia).
  apply (f_equal (Z.mul (weight i))) in A1. split_all; [lia|auto with v8|lia].
Qed.

Lemma KaratsubaSubtractionHelper_spec n X Y sign : digits_ok X -> digits_ok Y -> (length X <= n)%nat -> (length Y <= n)%nat -> sign = 1 \/ sign = -1 ->
  let r := KaratsubaSubtractionHelper n X Y sign in
  r.2 * dval r.1 = sign * (dval X - dval Y) /\ digits_ok r.1 /\ length r.1 = n /\ (r.2 = 1 \/ r.2 = -1).
Proof.
  intros HX HY Hlx Hly Hs. cbv zeta. unfold KaratsubaSubtractionHelper. rewrite <- (dval_Normalize X), <- (dval_Normalize Y).
  pose proof (Normalize_ok X HX) as NX. pose proof (Normalize_ok Y HY) as NY. pose proof (length_Normalize X) as LX. pose proof (length_Normalize Y) as LY.
  pose proof (Normalize_normalized X) as MX. pose proof (Normalize_normalized Y) as MY.
  generalize dependent (Normalize X). generalize dependent (Normalize Y). clear HX HY. intros Y' HY LY MY X' HX LX MX.
  assert (forall A B s, digits_ok A -> digits_ok B -> IsDigitNormalized B = true -> (length A <= n)%nat -> dval B <= dval A -> s = 1 \/ s = -1 ->
    let r := let '(z1, borrow) := carry_loop (fun p borrow => digit_sub2 p.1 p.2 borrow) (zip A B) 0 in
             let '(z2, borrow) := carry_loop digit_sub (drop (length B) A) borrow in (extend n (z1 ++ z2), s) in
    r.2 * dval r.1 = s * (dval A - dval B) /\ digits_ok r.1 /\ length r.1 = n /\ (r.2 = 1 \/ r.2 = -1)) as Hsub.
  { clear. intros A B s HA HB NB LA Hv Hs. pose proof (normalized_le A B HA HB NB Hv) as Hl.
    destruct (carry_loop _ (zip A B) 0) as [z1 b1] eqn:E1. destruct (carry_loop digit_sub _ b1) as [z2 b2] eqn:E2.
    destruct (sub_loops_spec A B z1 b1 z2 b2 HA HB Hl E1 E2) as (S1 & S2 & S3 & S4 & S5). cbv zeta. cbn [fst snd].
    rewrite dval_extend. rewrite length_extend by lia. pose proof (dval_bounds A HA). pose proof (dval_bounds B HB). pose proof (dval_bounds _ S2) as Hb.
    rewrite S3 in Hb. assert (b2 = 0) as -> by nia. split_all; [f_equal; lia|auto with v8|done|done]. }
  destruct (GreaterThanOrEqual X' Y') eqn:Hge.
  - apply GreaterThanOrEqual_spec in Hge; [|done..]. by apply Hsub; (done || lia).
  - assert (dval X' < dval Y') as Hlt.
    { apply Z.nle_gt. intros H. apply GreaterThanOrEqual_spec in H; [|done..]. by rewrite H in Hge. }
    destruct (Hsub Y' X' (- sign) HY HX MX ltac:(lia) ltac:(lia) ltac:(lia)) as (S1 & S2). split; [rewrite S1; lia|done].
Qed.

(** The digits of P0 and P2 side by side. *)
Lemma place_products n zs P0 P2 : digits_ok zs -> digits_ok P0 -> digits_ok P2 -> length P0 = n -> length P2 = n -> (n <= length zs)%nat ->
  weight n * dval P2 < weight (length zs) ->
  let z0 := P0 ++ drop n zs in
  let last := Nat.min (length z0 - n) (length P2) in
  let z1 := take n z0 ++ take last P2 ++ drop (n + last) z0 in
  dval z1 = dval P0 + weight n * dval P2 + weight (2 * n) * dval (drop (2 * n) zs) /\ digits_ok z1 /\ length z1 = length zs.
Proof.
  intros Hz H0 H2 L0 L2 Hn Hb. cbv zeta. assert (length (P0 ++ drop n zs) = length zs) as -> by (rewrite length_app, length_drop; lia). rewrite L2.
  rewrite take_app_length' by done. set (last := Nat.min (length zs - n) n).
  assert (drop (n + last) (P0 ++ drop n zs) = drop (n + last) zs) as ->.
  { rewrite <- drop_drop, drop_app_length', drop_drop by done. f_equal. }
  pose proof (weight_pos n).
  assert (dval (take last P2) = dval P2) as Ht.
  { apply dval_take_all; [done|]. unfold last. destruct (Nat.min_spec (length zs - n) n) as [[_ ->]|[_ ->]].
    - assert (weight (length zs) = weight n * weight (length zs - n)) as Hw by (rewrite <- weight_add; f_equal; lia). nia.
    - rewrite <- L2. by apply dval_bounds. }
  assert (weight last * dval (drop (n + last) zs) = weight n * dval (drop (2 * n) zs)) as Hd.
  { unfold last. destruct (Nat.min_spec (length zs - n) n) as [[? ->]|[_ ->]].
    - rewrite !drop_ge by lia. simpl. lia.
    - do 3 f_equal. lia. }
  rewrite !dval_app, L0, Ht, !length_app, length_take, !length_drop, L0.
  replace (Nat.min last (length P2)) with last by lia. rewrite Hd. split_all; [|auto 6 with v8|lia].
  assert (weight (2 * n) = weight n * weight n) as -> by (rewrite <- weight_add; f_equal; lia). lia.
Qed.

Lemma two_parts_range w x0 x1 : 0 <= x0 < w -> 0 <= x1 < w -> 0 <= x0 + w * x1 < w * w.
Proof. nia. Qed.

Lemma product_range w x y : 0 <= x < w -> 0 <= y < w -> 0 <= x * y < w * w.
Proof. nia. Qed.

(** Karatsuba's identity, computed modulo the weight of the result. *)
Lemma combine_products n2 zs P0 P2 P1 x0 x1 y0 y1 sign : digits_ok zs -> digits_ok P0 -> digits_ok P2 -> digits_ok P1 ->
  length P0 = (2 * n2)%nat -> length P2 = (2 * n2)%nat -> length P1 = (2 * n2)%nat -> (3 * (2 * n2) <= 2 * length zs)%nat ->
  dval P0 = x0 * y0 -> dval P2 = x1 * y1 -> sign = 1 \/ sign = -1 ->
  0 <= x0 < weight n2 -> 0 <= x1 < weight n2 -> 0 <= y0 < weight n2 -> 0 <= y1 < weight n2 ->
  (x0 + weight n2 * x1) * (y0 + weight n2 * y1) < weight (length zs) ->
  let z0 := P0 ++ drop (2 * n2) zs in
  let last := Nat.min (length z0 - 2 * n2) (length P2) in
  let z1 := take (2 * n2) z0 ++ take last P2 ++ drop (2 * n2 + last) z0 in
  let z3 := AddAt (AddAt z1 P0 n2) P2 n2 in
  let z4 := if 0 <? sign then AddAt z3 P1 n2 else SubAt z3 P1 n2 in
  digits_ok z4 /\ length z4 = length zs /\
  (sign * dval P1 = (x1 - x0) * (y0 - y1) ->
   dval z4 = (x0 + weight n2 * x1) * (y0 + weight n2 * y1) + weight (2 * (2 * n2)) * dval (drop (2 * (2 * n2)) zs)).
Proof.
  intros Hz H0 H2 H1 L0 L2 L1 Hl V0 V2 Hs X0 X1 Y0 Y1 Hb. cbv zeta. pose proof (weight_pos n2) as Hw.
  assert (weight (2 * n2) = weight n2 * weight n2) as Hww by (rewrite <- weight_add; f_equal; lia).
  assert (weight (2 * n2) * dval P2 < weight (length zs)) as Hb2 by (rewrite V2, Hww; clear -Hb X0 X1 Y0 Y1 Hw; nia).
  destruct (place_products (2 * n2) zs P0 P2 Hz H0 H2 L0 L2 ltac:(lia) Hb2) as (A1 & A2 & A3).
  set (z1 := take (2 * n2) _ ++ _) in *.
  pose proof (length_Normalize P0). pose proof (length_Normalize P1). pose proof (length_Normalize P2).
  destruct (AddAt_spec z1 P0 n2 A2 H0 ltac:(lia)) as (c1 & B1 & B2 & B3).
  destruct (AddAt_spec (AddAt z1 P0 n2) P2 n2 B2 H2 ltac:(lia)) as (c2 & C1 & C2 & C3). set (z3 := AddAt (AddAt _ _ _) _ _) in *.
  assert (exists c, dval (if 0 <? sign then AddAt z3 P1 n2 else SubAt z3 P1 n2) = dval z3 + weight n2 * (sign * dval P1) - weight (length zs) * c /\
    digits_ok (if 0 <? sign then AddAt z3 P1 n2 else SubAt z3 P1 n2) /\ length (if 0 <? sign then AddAt z3 P1 n2 else SubAt z3 P1 n2) = length zs) as (c3 & D1 & D2 & D3).
  { destruct Hs as [->| ->]; cbn [Z.ltb Z.compare].
    - destruct (AddAt_spec z3 P1 n2 C2 H1 ltac:(lia)) as (c & E1 & E2 & E3). exists c. split_all; [rewrite E1, C3, B3, A3; lia|done|lia].
    - destruct (SubAt_spec z3 P1 n2 C2 H1 ltac:(lia)) as (c & E1 & E2 & E3). exists c. split_all; [rewrite E1, C3, B3, A3; lia|done|lia]. }
  split_all; [done|done|]. intros V1. pose proof (dval_bounds _ D2) as Hd. rewrite D3 in Hd. rewrite V1, C1, B1, A1, B3, A3, V0, V2, Hww in D1.
  assert (dval (if 0 <? sign then AddAt z3 P1 n2 else SubAt z3 P1 n2) =
    (x0 + weight n2 * x1) * (y0 + weight n2 * y1) + weight (2 * (2 * n2)) * dval (drop (2 * (2 * n2)) zs) - weight (length zs) * (c1 + c2 + c3)) as E by (rewrite D1; ring).
  set (product := (x0 + weight n2 * x1) * (y0 + weight n2 * y1)) in *.
  assert (0 <= product + weight (2 * (2 * n2)) * dval (drop (2 * (2 * n2)) zs) < weight (length zs)) as Hp.
  { assert (0 <= product < weight (2 * n2) * weight (2 * n2)) as Hp.
    { rewrite Hww. unfold product. apply product_range; by apply two_parts_range. }
    pose proof (dval_bounds _ (drop_ok (2 * (2 * n2)) zs Hz)) as Hr. rewrite length_drop in Hr.
    destruct (decide (2 * (2 * n2) <= length zs)%nat) as [Hc|Hc]; [|rewrite drop_ge by lia; simpl; lia].
    assert (weight (length zs) = weight (2 * (2 * n2)) * weight (length zs - 2 * (2 * n2))) as -> by (rewrite <- weight_add; f_equal; lia).
    assert (weight (2 * (2 * n2)) = weight (2 * n2) * weight (2 * n2)) as -> by (rewrite <- weight_add; f_equal; lia).
    clear -Hp Hr. set (w := weight (2 * n2) * weight (2 * n2)) in *. nia. }
  rewrite E in Hd |- *. assert (c1 + c2 + c3 = 0) as ->; [|lia]. clear -Hd Hp. nia.
Qed.

(** What the recursion needs: room for the product and for the intermediate sums. *)
Record main_pre (zs X Y scratch : list Z) (n : nat) : Prop := {
  pre_digits : digits_ok zs /\ digits_ok X /\ digits_ok Y /\ digits_ok scratch;
  pre_length : chunk_length n;
  pre_scratch : (4 * n <= length scratch)%nat;
  pre_room : (3 * n <= 2 * length zs)%nat;
  pre_small : (n < kKaratsubaThreshold)%nat -> (length X <= n)%nat /\ (length Y <= n)%nat /\ (2 * n <= length zs)%nat;
  pre_product : dval (take n X) * dval (take n Y) < weight (length zs);
  pre_width : Z.of_nat (length zs) < 2 ^ 32;
}.

(** What it does: the product in the low digits, the digits above are restored. *)
Definition main_post (zs X Y scratch : list Z) (n : nat) (p : Processor) (r : list Z * list Z * Processor) : Prop :=
  let '(zs', scratch', p') := r in
  digits_ok zs' /\ length zs' = length zs /\ digits_ok scratch' /\ length scratch' = length scratch /\ works p p' /\
  (should_terminate p' = false ->
   dval zs' = dval (take n X) * dval (take n Y) + weight (2 * n) * dval (drop (2 * n) zs)).

(** The operands of the recursive calls are short. *)
Lemma recursive_pre zs X Y scratch n2 : digits_ok zs -> digits_ok X -> digits_ok Y -> digits_ok scratch -> chunk_length n2 ->
  (length X <= n2)%nat -> (length Y <= n2)%nat -> length zs = (2 * n2)%nat -> (4 * n2 <= length scratch)%nat -> Z.of_nat (length zs) < 2 ^ 32 ->
  main_pre zs X Y scratch n2.
Proof.
  intros Hz HX HY Hs Hc Hlx Hly Hl Hsl Hw. constructor; [done|done|lia|lia|intros; lia| |done].
  rewrite !take_ge by lia. pose proof (dval_bounds X HX). pose proof (dval_bounds Y HY).
  pose proof (weight_mono _ _ Hlx). pose proof (weight_mono _ _ Hly).
  assert (weight (length zs) = weight n2 * weight n2) as -> by (rewrite <- weight_add, Hl; f_equal; lia).
  apply product_range; lia.
Qed.

Lemma KaratsubaMain_small zs X Y scratch n p : (n < kKaratsubaThreshold)%nat -> main_pre zs X Y scratch n ->
  main_post zs X Y scratch n p (KaratsubaMain 0 zs X Y scratch n p).
Proof.
  intros Hn [(Hz & HX & HY & Hs) _ _ _ Hsm _ Hw]. destruct (Hsm Hn) as (Hlx & Hly & Hlz). cbn [KaratsubaMain].
  destruct (Nat.ltb_spec n kKaratsubaThreshold); [|lia]. unfold main_post. rewrite length_slice, (take_ge X), (take_ge Y) by lia.
  pose proof (length_Normalize X). pose proof (length_Normalize Y).
  assert (forall A B, digits_ok A -> digits_ok B -> (length B <= length A)%nat -> (length A + length B <= 2 * n)%nat ->
    digits_ok ((MultiplySchoolbook (2 * n) A B).1 ++ drop (2 * n) zs) /\ length ((MultiplySchoolbook (2 * n) A B).1 ++ drop (2 * n) zs) = length zs /\
    dval ((MultiplySchoolbook (2 * n) A B).1 ++ drop (2 * n) zs) = dval A * dval B + weight (2 * n) * dval (drop (2 * n) zs)) as Hm.
  { intros A B HA HB Hl Hab. destruct (MultiplySchoolbook_spec (2 * n) A B HA HB Hl Hab ltac:(lia)) as (M1 & M2 & M3).
    rewrite dval_app, length_app, length_drop, M1, M3. split_all; [auto with v8|lia|done]. }
  destruct (Nat.leb_spec (length (Normalize Y)) (length (Normalize X))).
  - destruct (Hm (Normalize X) (Normalize Y)) as (M1 & M2 & M3); [by apply Normalize_ok..|lia|lia|].
    rewrite !dval_Normalize in M3. split_all; auto with v8.
  - destruct (Hm (Normalize Y) (Normalize X)) as (M1 & M2 & M3); [by apply Normalize_ok..|lia|lia|].
    rewrite !dval_Normalize in M3. split_all; [done|done|done|done|apply works_add|]. intros _. rewrite M3. ring.
Qed.

(** The slices of the scratch. *)
Lemma scratch_split n scratch : (4 * n <= length scratch)%nat ->
  length (slice scratch 0 n) = n /\ length (slice scratch n n) = n /\ length (slice scratch (2 * n) (2 * n)) = (2 * n)%nat.
Proof. intros H. rewrite !length_slice by lia. done. Qed.

Lemma KaratsubaMain_fuel fuel fuel' zs X Y scratch n p : (n < kKaratsubaThreshold)%nat ->
  KaratsubaMain fuel zs X Y scratch n p = KaratsubaMain fuel' zs X Y scratch n p.
Proof. intros Hn%Nat.ltb_lt. destruct fuel, fuel'; simpl; by rewrite Hn. Qed.

Theorem KaratsubaMain_spec fuel : forall zs X Y scratch n p, (n <= fuel)%nat -> main_pre zs X Y scratch n ->
  main_post zs X Y scratch n p (KaratsubaMain fuel zs X Y scratch n p).
Proof.
  induction fuel as [|fuel IH]; intros zs X Y scratch n p Hf Hpre.
  { apply KaratsubaMain_small; [unfold kKaratsubaThreshold; lia|done]. }
  destruct (decide (n < kKaratsubaThreshold)%nat) as [Hn|Hn].
  { rewrite (KaratsubaMain_fuel _ 0) by done. by apply KaratsubaMain_small. }
  cbn [KaratsubaMain]. destruct (Nat.ltb_spec n kKaratsubaThreshold); [lia|]. clear Hn.
  destruct Hpre as [(Hz & HX & HY & Hs) Hc Hsl Hr _ Hb Hw]. destruct (chunk_length_half n Hc ltac:(lia)) as [Hn2 Hc2].
  assert (kKaratsubaThreshold = 34%nat) as Hk by done. destruct (scratch_split n scratch Hsl) as (L0 & L2 & LR).
  set (n2 := Nat.div2 n) in *. unfold main_post.
  assert (forall zs X Y scratch p, digits_ok zs -> digits_ok X -> digits_ok Y -> digits_ok scratch -> (length X <= n2)%nat -> (length Y <= n2)%nat ->
    length zs = n -> length scratch = (2 * n)%nat ->
    exists zs' scratch' p', KaratsubaMain fuel zs X Y scratch n2 p = (zs', scratch', p') /\
      digits_ok zs' /\ length zs' = n /\ digits_ok scratch' /\ length scratch' = (2 * n)%nat /\ works p p' /\
      (should_terminate p' = false -> dval zs' = dval X * dval Y)) as Hrec.
  { clear -IH Hf Hn2 Hc2 Hk Hw Hr H. intros zs' X Y sc p Hz HX HY Hs Hlx Hly Hl Hsl.
    pose proof (IH zs' X Y sc n2 p ltac:(lia) (recursive_pre _ _ _ _ _ Hz HX HY Hs Hc2 Hlx Hly ltac:(lia) ltac:(lia) ltac:(lia))) as Hp.
    destruct (KaratsubaMain fuel zs' X Y sc n2 p) as [[zs'' sc'] p']. destruct Hp as (P1 & P2 & P3 & P4 & P5 & P6).
    exists zs'', sc', p'. split_all; try done; [lia|lia|]. intros Hp'. rewrite P6, !take_ge, drop_ge by (done || lia). cbn [dval]. lia. }
  destruct (Hrec (slice scratch 0 n) (slice X 0 n2) (slice Y 0 n2) (slice scratch (2 * n) (2 * n)) p) as (P0 & s0 & p0 & -> & A1 & A2 & A3 & A4 & A5 & A6);
    [auto using length_slice_le with v8..|].
  assert (length (drop (4 * n) scratch) = (length scratch - 4 * n)%nat) as Lrest by apply length_drop.
  destruct (should_terminate p0) eqn:Hp0.
  { split_all; [done|done|auto 7 with v8|rewrite !length_app; lia|done|by rewrite Hp0]. }
  destruct (Hrec (slice scratch n n) (slice X n2 n2) (slice Y n2 n2) s0 p0) as (P2 & s2 & p2 & -> & B1 & B2 & B3 & B4 & B5 & B6);
    [auto using length_slice_le with v8..|].
  destruct (should_terminate p2) eqn:Hp2.
  { split_all; [auto with v8|rewrite length_app, length_drop; lia|auto 7 with v8|rewrite !length_app; lia|by trans p0|by rewrite Hp2]. }
  destruct (KaratsubaSubtractionHelper_spec n2 (slice X n2 n2) (slice X 0 n2) 1) as (S1 & S2 & S3 & S4); [auto using length_slice_le with v8..|].
  destruct (KaratsubaSubtractionHelper n2 (slice X n2 n2) (slice X 0 n2) 1) as [X_diff sign1]. cbn [fst snd] in *.
  destruct (KaratsubaSubtractionHelper_spec n2 (slice Y 0 n2) (slice Y n2 n2) sign1) as (T1 & T2 & T3 & T4); [auto using length_slice_le with v8..|].
  destruct (KaratsubaSubtractionHelper n2 (slice Y 0 n2) (slice Y n2 n2) sign1) as [Y_diff sign]. cbn [fst snd] in *.
  destruct (Hrec P2 X_diff Y_diff s2 p2) as (P1 & s1 & p1 & -> & C1 & C2 & C3 & C4 & C5 & C6); [done|done|done|done|lia|lia|done|done|].
  clearbody n2. subst n.
  assert (forall A, dval (take (2 * n2) A) = dval (slice A 0 n2) + weight n2 * dval (slice A n2 n2)) as Hv.
  { intros A. rewrite slice_0, <- dval_slice. f_equal. f_equal. lia. }
  assert (forall A i, digits_ok A -> 0 <= dval (slice A i n2) < weight n2) as Hsm by (intros; unfold slice; auto using dval_take_small with v8).
  rewrite !Hv in Hb |- *.
  destruct (combine_products n2 zs P0 P2 P1 (dval (slice X 0 n2)) (dval (slice X n2 n2)) (dval (slice Y 0 n2)) (dval (slice Y n2 n2)) sign)
    as (D1 & D2 & D3); auto.
  split_all; [done|done|auto 8 with v8|rewrite !length_app, length_drop; lia|by trans p2; [trans p0|]|].
  intros Hp1. apply D3. rewrite (C6 Hp1), Z.mul_assoc, (Z.mul_comm sign), <- Z.mul_assoc, T1. clear -S1. nia.
Qed.

Lemma Karatsuba_length_mono l m : (l <= m)%nat -> Z.of_nat m < 2 ^ 31 -> (Karatsuba_length l <= Karatsuba_length m)%nat.
Proof. intros Hl Hm. unfold Karatsuba_length. pose proof (KaratsubaLength_mono (Z.of_nat l) (Z.of_nat m)). lia. Qed.

(** A sum that fits is exact. *)
Lemma AddAt_exact zs X i : digits_ok zs -> digits_ok X -> (i <= length zs)%nat -> dval zs + weight i * dval X < weight (length zs) ->
  dval (AddAt zs X i) = dval zs + weight i * dval X /\ digits_ok (AddAt zs X i) /\ length (AddAt zs X i) = length zs.
Proof.
  intros Hz HX Hi Hb. pose proof (weight_pos i). pose proof (dval_bounds zs Hz). pose proof (dval_bounds X HX).
  assert (weight (length zs) = weight i * weight (length zs - i)) as Hw by (rewrite <- weight_add; f_equal; lia).
  assert (length (Normalize X) <= length zs - i)%nat.
  { apply normalized_length; [by apply Normalize_ok|apply Normalize_normalized|]. rewrite dval_Normalize. nia. }
  destruct (AddAt_spec zs X i Hz HX ltac:(lia)) as (c & A1 & A2 & A3). split_all; [|done|done].
  pose proof (dval_bounds _ A2) as Hd. rewrite A3 in Hd. rewrite A1 in Hd |- *. assert (c = 0) as ->; [|lia].
  assert (0 <= weight i * dval X) by nia. clear Hw. nia.
Qed.

(** What every multiplication with a scratch promises. *)
Definition product_post (zs X Y scratch : list Z) (p : Processor) (r : list Z * list Z * Processor) : Prop :=
  let '(zs', scratch', p') := r in
  digits_ok zs' /\ length zs' = length zs /\ digits_ok scratch' /\ length scratch' = length scratch /\ works p p' /\
  (should_terminate p' = false -> dval zs' = dval X * dval Y).

(** The contract of [KaratsubaChunk] for operands of fewer than [bound] digits. *)
Definition chunk_contract (bound : nat) (C : list Z -> list Z -> list Z -> list Z -> Processor -> list Z * list Z * Processor) : Prop :=
  forall l zs X Y scratch p, digits_ok zs -> digits_ok X -> digits_ok Y -> digits_ok scratch ->
    (length X + length Y <= length zs)%nat -> (length X + length Y < bound)%nat -> Z.of_nat (length zs) < 2 ^ 32 ->
    (Nat.min (length X) (length Y) <= l)%nat -> Z.of_nat l < 2 ^ 30 -> (4 * Karatsuba_length l <= length scratch)%nat ->
    product_post zs X Y scratch p (C zs X Y scratch p).

Section start_spec.
Context (Allocate : nat -> list Z).
Hypothesis Allocate_ok : forall n, digits_ok (Allocate n) /\ length (Allocate n) = n.
Context (bound l : nat) (C : list Z -> list Z -> list Z -> list Z -> Processor -> list Z * list Z * Processor).
Hypothesis C_ok : chunk_contract bound C.

Lemma slice_end X i k : (length X <= i)%nat -> slice X i k = [].
Proof. intros. unfold slice. by rewrite drop_ge, take_nil by done. Qed.

Lemma chunk_loop_spec fuel : forall zs T X Y Y0 Y1 scratch i p, let k := Karatsuba_length l in
  digits_ok zs -> digits_ok T -> digits_ok X -> digits_ok Y0 -> digits_ok Y1 -> digits_ok scratch ->
  length T = (2 * k)%nat -> (length Y0 <= k)%nat -> (length Y1 <= k)%nat -> (length Y0 + length Y1 <= l)%nat -> (1 <= l)%nat ->
  (Y1 <> [] -> length Y0 = k) -> dval Y = dval Y0 + weight k * dval Y1 ->
  (length X + l <= length zs)%nat -> (length X + l <= bound)%nat -> Z.of_nat (length zs) < 2 ^ 32 -> Z.of_nat (2 * k) < 2 ^ 32 -> Z.of_nat l < 2 ^ 30 ->
  (4 * k <= length scratch)%nat -> (1 <= k <= i)%nat -> (length X <= fuel + i)%nat ->
  dval zs = dval (take i X) * dval Y -> dval X * dval Y < weight (length zs) ->
  product_post zs X Y scratch p (chunk_loop C fuel zs T X Y0 Y1 scratch i k p).
Proof using C_ok.
  induction fuel as [|fuel IH]; cbv zeta; intros zs T X Y Y0 Y1 scratch i p Hz HT HX HY0 HY1 Hs LT L0 L1 L01 Hl1 Hfull VY Lz Lb Wz Wt Wl Ls Hi Hf Vz Vb.
  { unfold product_post. simpl. split_all; try done. intros _. by rewrite Vz, take_ge by lia. }
  cbn [chunk_loop]. unfold product_post. destruct (Nat.ltb_spec i (length X)) as [Hx|Hx].
  2: { split_all; try done. intros _. by rewrite Vz, take_ge by lia. }
  set (k := Karatsuba_length l) in *. pose proof (length_slice_le X i k) as Lxi.
  assert (length (slice X i k) <= length X - i)%nat as Lxi' by (unfold slice; rewrite length_take, length_drop; lia).
  assert (dval (take (i + k) X) = dval (take i X) + weight i * dval (slice X i k)) as Vt by apply dval_slice.
  pose proof (dval_bounds _ HY0) as B0. pose proof (dval_bounds _ HY1) as B1. pose proof (weight_pos k) as Wk. pose proof (weight_pos i) as Wi.
  pose proof (dval_bounds _ (slice_ok X i k HX)) as Bx. pose proof (dval_take_small X i HX) as Bt.
  assert (dval (take (i + k) X) * dval Y < weight (length zs)) as Vb'.
  { pose proof (dval_take_drop (i + k) X) as Hd. pose proof (dval_bounds _ (drop_ok (i + k) X HX)). pose proof (weight_pos (length (take (i + k) X))). nia. }
  rewrite Vt in Vb'.
  assert (forall zs2 T2 s2 p2, digits_ok zs2 -> digits_ok T2 -> digits_ok s2 -> length zs2 = length zs -> length T2 = (2 * k)%nat ->
    length s2 = length scratch -> works p p2 -> dval zs2 = dval (take (i + k) X) * dval Y ->
    product_post zs X Y scratch p (chunk_loop C fuel zs2 T2 X Y0 Y1 s2 (i + k) k p2)) as Hnext.
  { intros zs2 T2 s2 p2 Hz2 HT2 Hs2 Lz2 LT2 Ls2 Hw2 V2.
    pose proof (IH zs2 T2 X Y Y0 Y1 s2 (i + k)%nat p2 Hz2 HT2 HX HY0 HY1 Hs2 LT2 L0 L1 L01 Hl1 Hfull VY ltac:(lia) Lb ltac:(lia) Wt Wl ltac:(lia) ltac:(lia) ltac:(lia) V2 ltac:(by rewrite Lz2)) as HI.
    fold k in HI. destruct (chunk_loop C fuel zs2 T2 X Y0 Y1 s2 (i + k) k p2) as [[zs3 s3] p3]. destruct HI as (I1 & I2 & I3 & I4 & I5 & I6).
    unfold product_post. split_all; [done|lia|done|lia|by trans p2|done]. }
  pose proof (C_ok l T (slice X i k) Y0 scratch p HT (slice_ok X i k HX) HY0 Hs ltac:(lia) ltac:(lia) ltac:(lia) ltac:(lia) Wl Ls) as HC.
  destruct (C T (slice X i k) Y0 scratch p) as [[T1 s1] p1]. destruct HC as (A1 & A2 & A3 & A4 & A5 & A6).
  destruct (should_terminate p1) eqn:Hp1.
  { split_all; try done. by rewrite Hp1. }
  destruct (AddAt_exact zs T1 i Hz A1 ltac:(lia)) as (D1 & D2 & D3).
  { rewrite (A6 eq_refl), Vz. rewrite VY in Vb' |- *. clear -Vb' B0 B1 Bx Bt Wk Wi. nia. }
  destruct (Nat.ltb_spec 0 (length Y1)) as [Hy1|Hy1].
  - pose proof (Hfull ltac:(intros ->; simpl in Hy1; lia)) as Hk.
    pose proof (C_ok l T1 (slice X i k) Y1 s1 p1 A1 (slice_ok X i k HX) HY1 A3 ltac:(lia) ltac:(lia) ltac:(lia) ltac:(lia) Wl ltac:(lia)) as HC.
    destruct (C T1 (slice X i k) Y1 s1 p1) as [[T2 s2] p2]. destruct HC as (E1 & E2 & E3 & E4 & E5 & E6).
    destruct (should_terminate p2) eqn:Hp2.
    { split_all; try done; [lia|by trans p1|by rewrite Hp2]. }
    destruct (AddAt_exact (AddAt zs T1 i) T2 (i + k) D2 E1 ltac:(lia)) as (F1 & F2 & F3).
    { rewrite (E6 eq_refl), D1, D3, (A6 eq_refl), Vz, weight_add. rewrite VY in Vb' |- *. clear -Vb'. lia. }
    apply Hnext; [done|done|done|lia|lia|lia|by trans p1|]. rewrite F1, D1, (E6 eq_refl), (A6 eq_refl), Vz, Vt, weight_add, VY. ring.
  - apply Hnext; [done|done|done|lia|lia|lia|done|]. rewrite D1, (A6 eq_refl), Vz, Vt, VY.
    assert (Y1 = []) as -> by (destruct Y1; [done|simpl in Hy1; lia]). cbn [dval]. ring.
Qed.

Lemma low_unique w a b c d : a + w * b = c + w * d -> 0 <= a < w -> 0 <= c < w -> a = c.
Proof. intros H Ha Hc. destruct (Z.lt_trichotomy b d) as [|[->|]]; nia. Qed.

(** The low digits that [KaratsubaMain] leaves, and zeros above. *)
Lemma clear_above n zs v r : digits_ok zs -> dval zs = v + weight n * r -> 0 <= v < weight n -> ((length zs <= n)%nat -> r = 0) ->
  let z := take n zs ++ replicate (length zs - n) 0 in dval z = v /\ digits_ok z /\ length z = length zs.
Proof.
  intros Hz Hv Hb Hr z. unfold z. rewrite dval_app, dval_zeros, length_app, length_take, length_replicate.
  split_all; [|auto with v8|lia]. pose proof (dval_take_small zs n Hz) as Ht. destruct (decide (n <= length zs)%nat).
  - rewrite (dval_take_drop n zs), length_take, Nat.min_l in Hv by lia. rewrite Z.mul_0_r, Z.add_0_r. by eapply low_unique.
  - assert (r = 0) as -> by (apply Hr; lia). rewrite take_ge by lia. lia.
Qed.

Lemma KaratsubaStart_spec zs X Y scratch p : digits_ok zs -> digits_ok X -> digits_ok Y -> digits_ok scratch ->
  length Y = l -> (kKaratsubaThreshold <= l <= length X)%nat -> (length X + l <= length zs)%nat -> (length X + l <= bound)%nat ->
  Z.of_nat (length zs) < 2 ^ 32 -> Z.of_nat l < 2 ^ 30 -> (4 * Karatsuba_length l <= length scratch)%nat ->
  product_post zs X Y scratch p (KaratsubaStart Allocate C zs X Y scratch (Karatsuba_length l) p).
Proof using All.
  intros Hz HX HY Hs LY Hl Lz Lb Wz Wl Ls. destruct (Karatsuba_length_spec l ltac:(lia) ltac:(lia)) as (K1 & K2 & K3 & K4).
  unfold KaratsubaStart. set (k := Karatsuba_length l) in *. assert (kKaratsubaThreshold = 34%nat) as Hk by done.
  pose proof (dval_bounds X HX) as BX. pose proof (dval_bounds Y HY) as BY. rewrite LY in BY.
  assert (dval X * dval Y < weight (length zs)) as Vb.
  { pose proof (weight_mono _ _ Lz) as Hw. rewrite weight_add in Hw. nia. }
  assert (forall A, digits_ok A -> 0 <= dval (take k A) <= dval A /\ dval (take k A) < weight k) as Htk.
  { intros A HA. pose proof (dval_take_small A k HA). pose proof (dval_bounds _ (drop_ok k A HA)). pose proof (weight_pos (length (take k A))).
    pose proof (dval_take_drop k A). nia. }
  destruct (Htk X HX) as [TX TX']. destruct (Htk Y HY) as [TY TY'].
  pose proof (KaratsubaMain_spec k zs X Y scratch k p ltac:(lia)) as HM.
  destruct (KaratsubaMain k zs X Y scratch k p) as [[z1 s1] p1]. destruct HM as (A1 & A2 & A3 & A4 & A5 & A6).
  { constructor; [done|done|done|lia|lia| |done]. nia. }
  unfold product_post. destruct (should_terminate p1) eqn:Hp1.
  { split_all; try done. by rewrite Hp1. }
  destruct (clear_above (2 * k) z1 (dval (take k X) * dval (take k Y)) (dval (drop (2 * k) zs)) A1 (A6 eq_refl)) as (B1 & B2 & B3).
  { assert (weight (2 * k) = weight k * weight k) as -> by (rewrite <- weight_add; f_equal; lia). apply product_range; lia. }
  { intros. by rewrite drop_ge by lia. }
  set (z2 := take (2 * k) z1 ++ _) in *.
  assert (dval Y = dval (slice Y 0 k) + weight k * dval (drop (Nat.min k (length Y)) Y)) as VY.
  { rewrite slice_0. destruct (Nat.min_spec k (length Y)) as [[? ->]|[? ->]].
    - rewrite (dval_take_drop k Y) at 1. rewrite length_take, Nat.min_l by lia. done.
    - rewrite take_ge, drop_ge by lia. cbn [dval]. lia. }
  destruct (Allocate_ok (2 * k)) as [HT LT]. set (Y1 := drop _ Y) in *.
  assert (length Y1 = (l - Nat.min k l)%nat) as LY1 by (unfold Y1; rewrite length_drop; lia).
  assert (digits_ok Y1) as HY1 by (by apply drop_ok).
  assert (length (slice Y 0 k) = Nat.min k l) as LY0 by (rewrite slice_0, length_take; lia).
  assert (forall z T s p', digits_ok z -> digits_ok T -> digits_ok s -> length z = length zs -> length T = (2 * k)%nat -> length s = length scratch ->
    works p p' -> dval z = dval (take k X) * dval Y ->
    product_post zs X Y scratch p (chunk_loop C (length X) z T X (slice Y 0 k) Y1 s k k p')) as Hloop.
  { intros z T s p' Hz' HT' Hs' Lz' LT' Ls' Hw' Vz'.
    pose proof (chunk_loop_spec (length X) z T X Y (slice Y 0 k) Y1 s k p' Hz' HT' HX (slice_ok Y 0 k HY) HY1 Hs' LT' ltac:(lia) ltac:(lia) ltac:(lia) ltac:(lia)
      ltac:(intros; rewrite LY0; destruct (decide (k < l)%nat); [lia|by destruct Y1; simpl in LY1; [|lia]]) VY ltac:(lia) Lb ltac:(lia) ltac:(lia) ltac:(lia) ltac:(lia) ltac:(lia) ltac:(lia) Vz' ltac:(by rewrite Lz')) as HI.
    fold k in HI. destruct (chunk_loop C (length X) z T X (slice Y 0 k) Y1 s k k p') as [[z3 s3] p3]. destruct HI as (I1 & I2 & I3 & I4 & I5 & I6).
    unfold product_post. split_all; [done|lia|done|lia|by trans p'|done]. }
  destruct (Nat.ltb_spec k (length Y)) as [Hkl|Hkl]; cbn [orb].
  - destruct (Nat.ltb_spec 0 (length Y1)); [|lia].
    pose proof (C_ok l (Allocate (2 * k)) (slice X 0 k) Y1 s1 p1 HT (slice_ok X 0 k HX) HY1 A3) as HC.
    pose proof (length_slice_le X 0 k) as LX0. specialize (HC ltac:(lia) ltac:(lia) ltac:(lia) ltac:(lia) Wl ltac:(lia)).
    destruct (C (Allocate (2 * k)) (slice X 0 k) Y1 s1 p1) as [[T1 s2] p2]. destruct HC as (E1 & E2 & E3 & E4 & E5 & E6).
    destruct (should_terminate p2) eqn:Hp2.
    { split_all; [done|lia|done|lia|by trans p1|by rewrite Hp2]. }
    rewrite slice_0 in E6, VY. assert (dval z2 + weight k * dval T1 = dval (take k X) * dval Y) as Vz.
    { rewrite (E6 eq_refl), B1, VY. ring. }
    destruct (AddAt_exact z2 T1 k B2 E1 ltac:(lia)) as (F1 & F2 & F3); [rewrite Vz, B3, A2; nia|].
    apply Hloop; [done|done|done|lia|lia|lia|by trans p1|by rewrite F1].
  - assert (Y1 = []) as HY1e by (apply nil_length_inv; lia). rewrite HY1e in VY |- *. cbn [length Nat.ltb Nat.leb].
    assert (dval (take k Y) = dval Y) as VY' by (by rewrite take_ge by lia). rewrite VY' in B1. rewrite <- HY1e in *.
    destruct (negb (length X =? length Y)%nat) eqn:Hne.
    + rewrite HY1e. cbn [length Nat.ltb Nat.leb]. rewrite <- HY1e. by apply Hloop; try done; lia.
    + apply negb_false_iff, Nat.eqb_eq in Hne. split_all; [done|lia|done|lia|done|]. intros _. by rewrite B1, take_ge by lia.
Qed.
End start_spec.

Section multiply_spec.
Context (Allocate : nat -> list Z).
Hypothesis Allocate_ok : forall n, digits_ok (Allocate n) /\ length (Allocate n) = n.

Lemma digit_0 X : length X = 1%nat -> dval X = X.[O].
Proof. destruct X as [|d [|]]; intros H; try done. simpl. lia. Qed.

(** The multiplications of short operands. *)
Lemma short_product zs X Y : digits_ok zs -> digits_ok X -> digits_ok Y -> (length Y <= length X)%nat -> (length X + length Y <= length zs)%nat ->
  Z.of_nat (length zs) < 2 ^ 32 ->
  (length Y = 1%nat -> let z := (MultiplySingle (length zs) X (Y.[O])).1 in digits_ok z /\ length z = length zs /\ dval z = dval X * dval Y) /\
  (let z := (MultiplySchoolbook (length zs) X Y).1 in digits_ok z /\ length z = length zs /\ dval z = dval X * dval Y).
Proof using.
  intros Hz HX HY Hl Lz Wz. split.
  - intros H1. destruct (MultiplySingle_spec (length zs) X (Y.[O]) HX (digit_at Y 0 HY) ltac:(lia)) as (M1 & M2 & M3). rewrite (digit_0 Y H1). by split_all.
  - by destruct (MultiplySchoolbook_spec (length zs) X Y HX HY Hl Lz Wz) as (M1 & M2 & M3).
Qed.

Lemma product_post_intro zs X Y scratch p e z : digits_ok scratch -> digits_ok z /\ length z = length zs /\ dval z = dval X * dval Y ->
  product_post zs X Y scratch p (z, scratch, AddWorkEstimate e p).
Proof using. intros Hs (H1 & H2 & H3). unfold product_post. split_all; try done. apply works_add. Qed.

Lemma zero_product zs X Y scratch p : digits_ok scratch -> X = [] \/ Y = [] -> product_post zs X Y scratch p (Clear (length zs), scratch, p).
Proof using.
  intros Hs H. unfold product_post, Clear. rewrite dval_zeros, length_replicate. split_all; [apply zeros_ok|done|done|done|done|].
  intros _. destruct H as [->| ->]; cbn [dval]; lia.
Qed.

Lemma product_post_swap zs X Y scratch p r : product_post zs X Y scratch p r -> product_post zs Y X scratch p r.
Proof using. destruct r as [[z s] p']. unfold product_post. by rewrite (Z.mul_comm (dval X)). Qed.

Lemma KaratsubaChunk_spec fuel : chunk_contract (S fuel) (KaratsubaChunk Allocate fuel).
Proof using All.
  induction fuel as [|fuel IH]; intros l zs X Y scratch p Hz HX HY Hs Lz Lb Wz Ll Wl Ls.
  { assert (X = []) as -> by (apply nil_length_inv; lia). apply zero_product; [done|by left]. }
  assert (kKaratsubaThreshold = 34%nat) as Hk by done.
  cbn [KaratsubaChunk]. pose proof (length_Normalize X) as LX. pose proof (length_Normalize Y) as LY.
  pose proof (Normalize_ok X HX) as NX. pose proof (Normalize_ok Y HY) as NY.
  assert (forall r, product_post zs (Normalize X) (Normalize Y) scratch p r -> product_post zs X Y scratch p r) as Hn.
  { intros [[z s] p']. unfold product_post. by rewrite !dval_Normalize. }
  apply Hn. clear Hn. generalize dependent (Normalize X). generalize dependent (Normalize Y). intros Y' LY NY X' LX NX.
  destruct (Nat.eqb_spec (length X') 0) as [H0|H0]; cbn [orb].
  { apply zero_product; [done|left; by apply nil_length_inv]. }
  destruct (Nat.eqb_spec (length Y') 0) as [H1|H1].
  { apply zero_product; [done|right; by apply nil_length_inv]. }
  assert (forall A B, digits_ok A -> digits_ok B -> (length B <= length A)%nat -> (length A + length B <= length X + length Y)%nat -> (length B <= l)%nat ->
    product_post zs A B scratch p (
      if (length B =? 1)%nat then ((MultiplySingle (length zs) A (B.[O])).1, scratch, AddWorkEstimate (Z.of_nat (length A)) p)
      else if (length B <? kKaratsubaThreshold)%nat then
        ((MultiplySchoolbook (length zs) A B).1, scratch, AddWorkEstimate (Z.of_nat (length A * length B)) p)
      else KaratsubaStart Allocate (KaratsubaChunk Allocate fuel) zs A B scratch (Z.to_nat (KaratsubaLength (Z.of_nat (length B)))) p)) as Hm.
  { intros A B HA HB Hl Hs' Hb. destruct (short_product zs A B Hz HA HB Hl ltac:(lia) Wz) as [S1 S2].
    destruct (Nat.eqb_spec (length B) 1); [apply product_post_intro; auto|]. destruct (Nat.ltb_spec (length B) kKaratsubaThreshold); [by apply product_post_intro|].
    pose proof (Karatsuba_length_mono (length B) l Hb ltac:(lia)).
    apply (KaratsubaStart_spec Allocate Allocate_ok (S fuel) (length B) (KaratsubaChunk Allocate fuel) IH); done || lia. }
  destruct (Nat.ltb_spec (length X') (length Y')); [apply product_post_swap|]; apply Hm; done || lia.
Qed.

Lemma MultiplyKaratsuba_spec zs X Y p : digits_ok zs -> digits_ok X -> digits_ok Y -> (kKaratsubaThreshold <= length Y <= length X)%nat ->
  (length X + length Y <= length zs)%nat -> Z.of_nat (length zs) < 2 ^ 30 ->
  let '(zs', p') := MultiplyKaratsuba Allocate zs X Y p in
  digits_ok zs' /\ length zs' = length zs /\ works p p' /\ (should_terminate p' = false -> dval zs' = dval X * dval Y).
Proof using All.
  intros Hz HX HY Hl Lz Wz. unfold MultiplyKaratsuba. fold (Karatsuba_length (length Y)). destruct (Allocate_ok (4 * Karatsuba_length (length Y))) as [A1 A2].
  pose proof (KaratsubaStart_spec Allocate Allocate_ok (S (length X + length Y)) (length Y) _ (KaratsubaChunk_spec (length X + length Y))
    zs X Y (Allocate (4 * Karatsuba_length (length Y))) p Hz HX HY A1 eq_refl Hl ltac:(lia) ltac:(lia) ltac:(lia) ltac:(lia) ltac:(lia)) as HS.
  destruct (KaratsubaStart _ _ _ _ _ _ _ _) as [[zs' s'] p']. by destruct HS as (S1 & S2 & S3 & S4 & S5 & S6).
Qed.

Lemma kMaxNumDigits_small l : Z.of_nat l <= kMaxNumDigits -> Z.of_nat l < 2 ^ 30.
Proof using. unfold kMaxNumDigits. change ((2 ^ 32 - 1) / kDigitBits) with 67108863. lia. Qed.

Lemma Multiply_spec zs X Y p : digits_ok zs -> digits_ok X -> digits_ok Y -> (length X + length Y <= length zs)%nat ->
  Z.of_nat (length zs) <= kMaxNumDigits ->
  exists zs' p', Multiply Allocate zs X Y p = Some (zs', p') /\ digits_ok zs' /\ length zs' = length zs /\ works p p' /\
    (should_terminate p' = false -> dval zs' = dval X * dval Y).
Proof using All.
  intros Hz HX HY Lz Wz. pose proof (kMaxNumDigits_small _ Wz) as W30. unfold Multiply.
  pose proof (length_Normalize X) as LX. pose proof (length_Normalize Y) as LY. pose proof (Normalize_ok X HX) as NX. pose proof (Normalize_ok Y HY) as NY.
  rewrite <- (dval_Normalize X), <- (dval_Normalize Y).
  generalize dependent (Normalize X). generalize dependent (Normalize Y). intros Y' LY NY X' LX NX.
  destruct (Nat.eqb_spec (length X') 0) as [H0|H0]; cbn [orb].
  { destruct (zero_product zs X' Y' [] p) as (Z1 & Z2 & _ & _ & Z5 & Z6); [constructor|left; by apply nil_length_inv|]. by eexists _, _. }
  destruct (Nat.eqb_spec (length Y') 0) as [H1|H1].
  { destruct (zero_product zs X' Y' [] p) as (Z1 & Z2 & _ & _ & Z5 & Z6); [constructor|right; by apply nil_length_inv|]. by eexists _, _. }
  assert (forall A B, digits_ok A -> digits_ok B -> (length B <= length A)%nat -> (length A + length B <= length zs)%nat ->
    exists zs' p', (if (length B =? 1)%nat then Some ((MultiplySingle (length zs) A (B.[O])).1, AddWorkEstimate (Z.of_nat (length A)) p)
      else if (length B <? kKaratsubaThreshold)%nat then Some ((MultiplySchoolbook (length zs) A B).1, AddWorkEstimate (Z.of_nat (length A * length B)) p)
      else MultiplyLarge_impl Allocate zs A B p) = Some (zs', p') /\ digits_ok zs' /\ length zs' = length zs /\ works p p' /\
      (should_terminate p' = false -> dval zs' = dval A * dval B)) as Hm.
  { intros A B HA HB Hl Hs. destruct (short_product zs A B Hz HA HB Hl Hs ltac:(lia)) as [S1 S2].
    destruct (Nat.eqb_spec (length B) 1) as [He|]; [destruct (S1 He) as (Q1 & Q2 & Q3); eexists _, _; split_all; auto with v8|].
    destruct (Nat.ltb_spec (length B) kKaratsubaThreshold); [destruct S2 as (Q1 & Q2 & Q3); eexists _, _; split_all; auto with v8|].
    pose proof (MultiplyKaratsuba_spec zs A B p Hz HA HB ltac:(lia) Hs W30) as HK. unfold MultiplyLarge_impl.
    destruct (Z.leb_spec (Z.of_nat (length A)) kMaxNumDigits); [|lia]. destruct (MultiplyKaratsuba Allocate zs A B p) as [z p']. eauto. }
  destruct (Nat.ltb_spec (length X') (length Y')); [rewrite (Z.mul_comm (dval X'))|]; apply Hm; done || lia.
Qed.

(** The multiplication that the BigInt operations call for large operands. *)
Lemma MultiplyLarge_spec zs X Y p : digits_ok zs -> digits_ok X -> digits_ok Y -> (kKaratsubaThreshold <= length Y <= length X)%nat ->
  (length X + length Y <= length zs)%nat -> Z.of_nat (length zs) <= kMaxNumDigits ->
  exists zs' status p', MultiplyLarge Allocate zs X Y p = Some (zs', status, p') /\ digits_ok zs' /\ length zs' = length zs /\
    should_terminate p' = false /\ (status = false -> dval zs' = dval X * dval Y) /\ (undisturbed p -> status = false /\ undisturbed p').
Proof using All.
  intros Hz HX HY Hl Lz Wz. unfold MultiplyLarge, MultiplyLarge_impl. destruct (Z.leb_spec (Z.of_nat (length X)) kMaxNumDigits); [|lia].
  pose proof (MultiplyKaratsuba_spec zs X Y p Hz HX HY Hl Lz (kMaxNumDigits_small _ Wz)) as HK.
  destruct (MultiplyKaratsuba Allocate zs X Y p) as [z p']. destruct HK as (K1 & K2 & K3 & K4).
  do 3 eexists. split_all; [done|done|done|done|done|]. intros [U1 U2]%(works_undisturbed p p' K3). by split.
Qed.
End multiply_spec.

(** ** Tests *)

Definition uninitialised (n : nat) : list Z := replicate n 3735928559.

Definition quiet : Processor := {| status_ := false; work_estimate_ := 0; platform_ := [] |}.

Definition test_digits (n : nat) (seed : Z) : list Z := (fun i => digit (seed * (Z.of_nat i + 1) * (Z.of_nat i + 7) + digit_base - 1)) <$> seq 0 n.

Example Karatsuba_lengths : KaratsubaLength <$> [34; 35; 36; 37; 64; 65; 129; 130; 500] = [34; 36; 36; 38; 64; 68; 128; 136; 512].
Proof. by vm_compute. Qed.

(** Unequal lengths: the rest of the longer operand is a chunk. *)
Example Karatsuba_chunks : let X := test_digits 40 123456789012345678 in let Y := test_digits 35 98765432109876543 in
  dval <$> (fst <$> Multiply uninitialised (uninitialised 75) X Y quiet) = Some (dval X * dval Y).
Proof. by vm_compute. Qed.

(** An interrupt ends the computation. *)
Example Karatsuba_interrupted : let X := test_digits 40 5 in
  let p := {| status_ := false; work_estimate_ := kWorkEstimateThreshold - 1; platform_ := [true] |} in
  (fun r => (r.1.2, should_terminate r.2)) <$> MultiplyLarge uninitialised (uninitialised 80) X X p = Some (true, false).
Proof. by vm_compute. Qed.
