(* ===== verification/Burnikel.v ===== *)
(** Burnikel-Ziegler division (src/src/bigint/div-burnikel.cc) and the division of a processor
    (src/src/bigint/bigint-internal.cc), in a build without the advanced algorithms. The vectors
    Q and R are overwritten; [scratch] is the memory of the class BZ, in which the products of
    D3n2n are stored. [None] is an access out of range or a failed CHECK. *)
From S2P Require Import Prelude Conversions Digits DigitsLinear DigitsMultiply DigitDivision DigitsDivide DigitsBitwise Karatsuba.

Definition kBurnikelThreshold : nat := 57.

(** Compares [a_high, A] with B. *)
Definition SpecialCompare (a_high : Z) (A B : list Z) : Z :=
  let B := Normalize B in
  let A := if a_high =? 0 then Normalize A else A in
  let a_len := if a_high =? 0 then length A else S (length A) in
  let diff := Z.of_nat a_len - Z.of_nat (length B) in
  if negb (diff =? 0) then diff
  else if negb (a_high =? 0) then
    if B.[a_len - 1] <? a_high then 1
    else if a_high <? B.[a_len - 1] then -1
    else Compare_loop A B (a_len - 1)
  else Compare_loop A B a_len.

Definition SetOnes (X : list Z) : list Z := replicate (length X) (digit_base - 1).

Definition DivideBasecase (Q R A B : list Z) (p : Processor) : option (list Z * list Z * Processor) :=
  let A := Normalize A in
  let B := Normalize B in
  let cmp := Compare A B in
  if cmp <=? 0 then
    if cmp =? 0 then Some (<[0%nat := 1]> (Clear (length Q)), Clear (length R), p)
    else Some (Clear (length Q), PutAt R A (length R), p)
  else if (length B =? 1)%nat then
    '(Q, _, remainder) ← DivideSingle (length Q) A (B.[O]);
    Some (Q, <[0%nat := remainder]> R, AddWorkEstimate (Z.of_nat (length A)) p)
  else Some (DivideSchoolbook (length Q) (length R) A B p).

Section division.
Context (Allocate : nat -> list Z).

(** Step 6 of D3n2n: while the remainder is negative, B is added back; at most twice. *)
Fixpoint add_back (fuel : nat) (r1_high : Z) (R B D Qhat : list Z) : option (Z * list Z * list Z) :=
  match fuel with
  | O => None
  | S fuel =>
    if SpecialCompare r1_high R D <? 0 then
      let '(R, carry) := InplaceAddAndReturnCarry R B in
      Qhat ← Subtract_digit Qhat 1;
      add_back fuel (digit (r1_high + carry)) R B D Qhat
    else Some (r1_high, R, Qhat)
  end.

(** Steps 4 to 7 of D3n2n. *)
Definition D3n2n_finish (Qhat R : list Z) (r1_high : Z) (A3 B scratch : list Z) (p : Processor) : option (list Z * list Z * list Z * Processor) :=
  let n := Nat.div2 (length B) in
  let B2 := slice B 0 n in
  '(D, p) ← Multiply Allocate (take (2 * n) scratch) Qhat B2 p;
  let scratch := D ++ drop (2 * n) scratch in
  if should_terminate p then Some (Qhat, R, scratch, p)
  else
    let R := PutAt R A3 n in
    '(r1_high, R, Qhat) ← add_back 3 r1_high R B D Qhat;
    let '(R, borrow) := InplaceSubAndReturnBorrow R D in
    Some (Qhat, R, scratch, p).

Section D3n2n.
Context (D2n1n : list Z -> list Z -> list Z -> list Z -> list Z -> Processor -> option (list Z * list Z * list Z * Processor)).

Definition D3n2n (Q R A1A2 A3 B scratch : list Z) (p : Processor) : option (list Z * list Z * list Z * Processor) :=
  let n := Nat.div2 (length B) in
  let A1 := slice A1A2 n n in
  let B1 := slice B n n in
  let R1 := slice R n n in
  if Compare A1 B1 <? 0 then
    '(Qhat, R1, scratch, p) ← D2n1n Q R1 A1A2 B1 scratch p;
    let R := take n R ++ R1 in
    if should_terminate p then Some (Qhat, R, scratch, p) else D3n2n_finish Qhat R 0 A3 B scratch p
  else
    let R1 := SubtractWithNormalization (length R1) A1 B1 in
    let temp := Normalize R1 in
    let r1_high := if (0 <? length temp)%nat then temp.[O] else 0 in
    let A2 := slice A1A2 0 n in
    let '(R1, carry) := AddAndReturnCarry R1 A2 B1 in
    D3n2n_finish (SetOnes Q) (take n R ++ R1) (digit (r1_high + carry)) A3 B scratch p.
End D3n2n.

Fixpoint D2n1n (fuel : nat) (Q R A B scratch : list Z) (p : Processor) : option (list Z * list Z * list Z * Processor) :=
  let n := length B in
  if Nat.odd n || (n <? kBurnikelThreshold)%nat then
    '(Q, R, p) ← DivideBasecase Q R A B p;
    Some (Q, R, scratch, p)
  else
    match fuel with
    | O => None
    | S fuel =>
      let half := Nat.div2 n in
      let A1A2 := slice A n n in
      let A3 := slice A half half in
      let A4 := slice A 0 half in
      '(Q1, R1, scratch, p) ← D3n2n (D2n1n fuel) (slice Q half half) (Allocate n) A1A2 A3 B scratch p;
      let Q := take half Q ++ Q1 in
      if should_terminate p then Some (Q, R, scratch, p)
      else
        '(Q2, R, scratch, p) ← D3n2n (D2n1n fuel) (slice Q 0 half) R R1 A4 B scratch p;
        Some (Q2 ++ drop half Q, R, scratch, p)
    end.

(** The blocks below the two top ones, for (int i = t - 3; i >= 0; i--). *)
Fixpoint divide_blocks (i n : nat) (Q Ri zs A B scratch : list Z) (p : Processor) : option (list Z * list Z * Processor) :=
  match i with
  | O => Some (Q, Ri, p)
  | S i =>
    let zs := take n zs ++ PutAt (drop n zs) Ri n in
    let zs := PutAt zs (drop (n * i) A) n in
    '(Qi, Ri, scratch, p) ← D2n1n n (slice Q (i * n) n) Ri zs B scratch p;
    let Q := take (i * n) Q ++ Qi ++ drop (i * n + n) Q in
    if should_terminate p then Some (Q, Ri, p) else divide_blocks i n Q Ri zs A B scratch p
  end.

(** Steps 1 and 2: the length of a block. *)
Definition block_length (s : nat) : nat :=
  let m := Z.shiftl 1 (BitLength (Z.of_nat s / Z.of_nat kBurnikelThreshold)) in
  let j := DIV_CEIL (Z.of_nat s) m in
  Z.to_nat (j * m).

Definition DivideBurnikelZiegler (Q R A B : list Z) (p : Processor) : option (list Z * list Z * Processor) :=
  let s := length B in
  let n := block_length s in
  let sigma := CountLeadingZeros kDigitBits (B.[s - 1]) in
  let digit_shift := (n - s)%nat in
  let temp := Allocate (n * 5) in
  let B := replicate digit_shift 0 ++ LeftShift_int (n - digit_shift) B sigma in
  let extra_digit := if CountLeadingZeros kDigitBits (A.[length A - 1]) <? sigma + 1 then 1%nat else 0%nat in
  let r := (length A + digit_shift + extra_digit)%nat in
  let A := replicate digit_shift 0 ++ LeftShift_int (r - digit_shift) A sigma in
  let t := Nat.max (Z.to_nat (DIV_CEIL (Z.of_nat r) (Z.of_nat n))) 2 in
  let zs := PutAt (slice temp n (2 * n)) (drop (n * (t - 2)) A) (2 * n) in
  let scratch := if (kBurnikelThreshold <=? n)%nat then Allocate n else [] in
  '(Qi, Ri, scratch, p) ← D2n1n n (slice temp (4 * n) n) (slice temp (3 * n) n) zs B scratch p;
  if should_terminate p then Some (Q, R, p)
  else
    let target := drop (n * (t - 2)) Q in
    let Q := take (n * (t - 2)) Q ++ PutAt target (Normalize Qi) (length target) in
    '(Q, Ri, p) ← divide_blocks (t - 2) n Q Ri zs A B scratch p;
    if should_terminate p then Some (Q, R, p)
    else
      let Ri_part := Normalize (slice Ri digit_shift (length Ri)) in
      Some (Q, if (length R =? 0)%nat then R else RightShift_int (length R) Ri_part sigma, p).

(** ** The division of a processor *)

(** The quotient and the status. *)
Definition DivideLarge (Q A B : list Z) (p : Processor) : option (list Z * bool * Processor) :=
  if (length B <? kBurnikelThreshold)%nat then
    let '(Q, _, p) := DivideSchoolbook (length Q) 0 A B p in
    let '(status, p) := get_and_clear_status p in
    Some (Q, status, p)
  else if Z.of_nat (length A) <=? kMaxNumDigits then
    '(Q, _, p) ← DivideBurnikelZiegler Q [] A B p;
    let '(status, p) := get_and_clear_status p in
    Some (Q, status, p)
  else None.

Definition DivideResultLength (A B : list Z) : nat := (length A - length B + 1)%nat.

(** The remainder and the status. *)
Definition ModuloLarge (R A B : list Z) (p : Processor) : option (list Z * bool * Processor) :=
  if (length B <? kBurnikelThreshold)%nat then
    let '(_, R, p) := DivideSchoolbook 0 (length R) A B p in
    let '(status, p) := get_and_clear_status p in
    Some (R, status, p)
  else if Z.of_nat (length A) <? kMaxNumDigits then
    '(_, R, p) ← DivideBurnikelZiegler (Allocate (DivideResultLength A B)) R A B p;
    let '(status, p) := get_and_clear_status p in
    Some (R, status, p)
  else None.
End division.

(** ** Comparison with a carry digit *)

Lemma Compare_loop_prefix A A' B n : (n <= length A)%nat -> Compare_loop (A ++ A') B n = Compare_loop A B n.
Proof.
  induction n as [|n IH]; intros Hn; [done|]. simpl. rewrite IH by lia. by rewrite app_nth1 by lia.
Qed.

Lemma SpecialCompare_carry h A B : h <> 0 -> SpecialCompare h A B = CompareNoNormalize (A ++ [h]) (Normalize B).
Proof.
  intros Hh. unfold SpecialCompare, CompareNoNormalize. destruct (Z.eqb_spec h 0) as [|_]; [done|]. cbn [negb]. rewrite length_app, Nat.add_comm. cbn [length Nat.add].
  destruct (negb _); [done|]. cbn [Compare_loop]. rewrite app_nth2, Nat.sub_diag by lia. cbn [nth]. rewrite Compare_loop_prefix, Nat.sub_succ, Nat.sub_0_r by done.
  destruct (Z.ltb_spec (nth (length A) (Normalize B) 0) h), (Z.ltb_spec h (nth (length A) (Normalize B) 0)), (Z.eqb_spec h (nth (length A) (Normalize B) 0)); done || lia.
Qed.

Lemma SpecialCompare_spec h A B : digits_ok A -> digits_ok B -> digit_ok h ->
  SpecialCompare h A B < 0 <-> dval A + weight (length A) * h < dval B.
Proof.
  intros HA HB Hh. destruct (Z.eq_dec h 0) as [->|H0].
  - rewrite Z.mul_0_r, Z.add_0_r. apply (Compare_cases A B HA HB).
  - rewrite SpecialCompare_carry, <- dval_snoc, <- (dval_Normalize B) by done.
    apply CompareNoNormalize_cases; [by apply app_ok, Forall_singleton|by apply Normalize_ok| |apply Normalize_normalized].
    unfold IsDigitNormalized, msd. rewrite length_app, app_nth2 by (simpl; lia). simpl. rewrite Nat.add_sub, Nat.sub_diag. simpl.
    apply orb_true_iff. right. by apply negb_true_iff, Z.eqb_neq.
Qed.

(** ** The work of the schoolbook division *)

Lemma multiply_and_subtract_works BN U j qhat p : works p (multiply_and_subtract BN U j qhat p).2.
Proof.
  unfold multiply_and_subtract. destruct (qhat =? 0); [done|]. destruct (InplaceSubAndReturnBorrow _ _) as [Uj c].
  destruct (negb _); [destruct (InplaceAddAndReturnCarry _ _)|]; apply works_add.
Qed.

Lemma quotient_loop_works d BN j U p : works p (quotient_loop d BN j U p).2.
Proof.
  revert U p. induction j as [|j IH]; intros U p; cbn [quotient_loop]; [done|].
  pose proof (multiply_and_subtract_works BN U j (estimate_qhat d BN U j) p) as Hm.
  destruct (multiply_and_subtract _ _ _ _ _) as [[q U'] p']. specialize (IH U' p').
  destruct (quotient_loop d BN j U' p') as [[qs U''] p'']. cbn [snd] in *. by trans p'.
Qed.

Lemma DivideSchoolbook_works Q_len R_len A B p : works p (DivideSchoolbook Q_len R_len A B p).2.
Proof.
  unfold DivideSchoolbook. destruct (ShiftedDigits B) as [BN s].
  pose proof (quotient_loop_works (new_MultiplicativeDigitDiv (BN.[length B - 1])) BN (S (length A - length B)) (LeftShift_int (S (length A)) A s) p) as Hq.
  by destruct (quotient_loop _ _ _ _ _) as [[qs U] p'].
Qed.

(** ** The base case *)

(** A quotient and a remainder, unless the computation was interrupted. *)
Definition division_post (Q R A B : list Z) (p : Processor) (Q' R' : list Z) (p' : Processor) : Prop :=
  digits_ok Q' /\ length Q' = length Q /\ digits_ok R' /\ length R' = length R /\ works p p' /\
  (should_terminate p' = false -> dval A = dval Q' * dval B + dval R' /\ dval R' < dval B).

Lemma normalized_is_Normalize X : IsDigitNormalized X = true -> Normalize X = X.
Proof.
  intros [->|[Hl Hm]]%normalized_cases; [done|]. unfold Normalize. assert (Normalize_loop X (length X) = length X) as ->; [|by apply take_ge].
  destruct (length X) as [|n] eqn:Hn; [lia|]. cbn [Normalize_loop]. unfold msd in Hm. rewrite Hn in Hm.
  replace (S n - 1)%nat with n in Hm by lia. by destruct (Z.eqb_spec (X.[n]) 0).
Qed.

Lemma DivideBasecase_spec Q R A B p : digits_ok Q -> digits_ok R -> digits_ok A -> digits_ok B -> msd B <> 0 -> (2 <= length B)%nat ->
  length Q = length B -> length R = length B -> dval A < dval B * weight (length B) ->
  exists Q' R' p', DivideBasecase Q R A B p = Some (Q', R', p') /\ division_post Q R A B p Q' R' p'.
Proof.
  intros HQ HR HA HB Hm Hl LQ LR Hv. assert (IsDigitNormalized B = true) as NB.
  { unfold IsDigitNormalized. apply orb_true_iff. right. by apply negb_true_iff, Z.eqb_neq. }
  unfold DivideBasecase, division_post. rewrite (normalized_is_Normalize B NB). pose proof (dval_bounds B HB) as BB.
  pose proof (normalized_bound B HB NB ltac:(by destruct B)) as BL. pose proof (weight_pos (length B - 1)).
  rewrite <- (dval_Normalize A) in Hv |- *. pose proof (Normalize_ok A HA) as HN. pose proof (Normalize_normalized A) as NA.
  generalize dependent (Normalize A). clear A HA. intros A Hv HA NA.
  destruct (Compare_cases A B HA HB) as (C1 & C2 & C3). pose proof (dval_bounds A HA). unfold Clear.
  destruct (Z.leb_spec (Compare A B) 0) as [Hc|Hc]; [destruct (Z.eqb_spec (Compare A B) 0) as [Heq|Heq]|].
  - apply C2 in Heq. do 3 eexists. split; [done|]. rewrite !length_insert, !length_replicate, dval_zeros.
    split_all; [apply insert_ok; [apply zeros_ok|by vm_compute]|done|apply zeros_ok|done|done|]. intros _.
    destruct (length Q) as [|n]; [lia|]. cbn [replicate insert list_insert dval]. rewrite dval_zeros. lia.
  - assert (dval A < dval B) as Hlt by lia. pose proof (normalized_length A (length B) HA NA ltac:(lia)) as Hla.
    destruct (PutAt_spec R A (length R) HR HA ltac:(lia)) as (P1 & P2 & P3). rewrite take_ge, drop_ge in P1 by lia. cbn [dval] in P1.
    do 3 eexists. split; [done|]. rewrite length_replicate, dval_zeros. split_all; [apply zeros_ok|done|done|done|done|]. intros _. lia.
  - pose proof (normalized_le A B HA HB NB ltac:(lia)) as Hla. destruct (Nat.eqb_spec (length B) 1); [lia|].
    pose proof (DivideSchoolbook_works (length Q) (length R) A B p) as Hw.
    destruct (DivideSchoolbook_spec (length Q) (length R) A B p HA HB Hm ltac:(lia)) as (qs & rs & p' & He & D1 & D2 & D3 & D4 & D5 & D6); [|right; lia|].
    { right. rewrite LQ. apply Z.div_lt_upper_bound; lia. }
    rewrite He in *. do 3 eexists. split; [done|]. split_all; try done. intros _. rewrite D1, D4 by lia.
    pose proof (Z.div_mod (dval A) (dval B) ltac:(lia)). pose proof (Z.mod_pos_bound (dval A) (dval B) ltac:(lia)). lia.
Qed.

(** ** Three halves by two halves *)

Section division_spec.
Context (Allocate : nat -> list Z).
Hypothesis Allocate_ok : forall n, digits_ok (Allocate n) /\ length (Allocate n) = n.

(** The remainder becomes non-negative: [s] is the remainder of the estimate, [a] the dividend. *)
Lemma add_back_spec B D a fuel : forall h R Qhat s, digits_ok R -> digits_ok B -> digits_ok D -> digits_ok Qhat -> Qhat <> [] ->
  length R = length B -> length D = length B -> 0 <= h <= 1 -> dval R + weight (length B) * h = s + dval D ->
  a = dval Qhat * dval B + s -> 0 <= a -> s < dval B -> 0 < dval B -> 0 <= s + (Z.of_nat fuel - 1) * dval B ->
  exists h' R' Q' s', add_back fuel h R B D Qhat = Some (h', R', Q') /\ digits_ok R' /\ digits_ok Q' /\ length R' = length R /\ length Q' = length Qhat /\
    dval R' + weight (length B) * h' = s' + dval D /\ a = dval Q' * dval B + s' /\ 0 <= s' < dval B.
Proof using.
  induction fuel as [|fuel IH]; intros h R Qhat s HR HB HD HQ HQ0 LR LD Hh Hs Ha Ha0 Hsb Hb Hf; [lia|].
  cbn [add_back]. pose proof (SpecialCompare_spec h R D HR HD ltac:(unfold digit_ok; pose proof digit_base_eq; lia)) as Hc. rewrite LR in Hc.
  destruct (Z.ltb_spec (SpecialCompare h R D) 0) as [Hlt|Hge].
  - apply Hc in Hlt. destruct (InplaceAddAndReturnCarry R B) as [R1 c] eqn:He.
    destruct (InplaceAddAndReturnCarry_spec R B R1 c HR HB ltac:(lia) He) as (A1 & A2 & A3 & A4).
    destruct (Subtract_digit_spec Qhat 1 HQ ltac:(by vm_compute) HQ0) as (Q1 & -> & Q2 & Q3 & Q4); [clear -Ha Ha0 Hlt Hs Hb; nia|]. cbn [mbind option_bind].
    pose proof (dval_bounds D HD) as HDb. pose proof (dval_bounds B HB) as HBb. rewrite LD in HDb. pose proof (dval_bounds R1 A2) as HR1.
    assert (h + c <= 1) as Hhc by (clear -A1 Hs Hlt HDb HBb HR1 Hsb A4 Hh; nia).
    rewrite digit_small by (unfold digit_ok; pose proof digit_base_eq; lia).
    destruct (IH (h + c) R1 Q1 (s + dval B)) as (h' & R' & Q' & s' & -> & B1 & B2 & B3 & B4 & B5); try done; try lia.
    { intros ->. by destruct Qhat. }
    exists h', R', Q', s'. split_all; try done; lia.
  - exists h, R, Qhat, s. split_all; try done; try lia.
Qed.

Lemma half_weights n B : digits_ok B -> length B = (2 * n)%nat ->
  dval B = dval (slice B 0 n) + weight n * dval (slice B n n) /\ 0 <= dval (slice B 0 n) < weight n /\ 0 <= dval (slice B n n) < weight n /\
  weight (length B) = weight n * weight n.
Proof using.
  intros HB LB. assert (dval B = dval (take (n + n) B)) as -> by (rewrite take_ge by lia; done). rewrite dval_slice. split_all; [done|..].
  1, 2: unfold slice; apply dval_take_small; auto with v8.
  1, 2: unfold slice; apply dval_take_small; auto with v8.
  rewrite LB, <- weight_add. f_equal. lia.
Qed.

(** [h] is the digit above R; the dividend is [a]. *)
Lemma D3n2n_finish_spec Qhat R h A3 B scratch p a n : digits_ok Qhat -> digits_ok R -> digits_ok A3 -> digits_ok B -> digits_ok scratch -> (1 <= n)%nat ->
  length B = (2 * n)%nat -> length Qhat = n -> length R = (2 * n)%nat -> length A3 = n -> (2 * n <= length scratch)%nat ->
  Z.of_nat (2 * n) <= kMaxNumDigits -> 0 <= h <= 1 -> weight (2 * n) <= 2 * dval B -> 0 <= a ->
  let s := (dval (drop n R) + weight n * h) * weight n + dval A3 - dval Qhat * dval (slice B 0 n) in
  a = dval Qhat * dval B + s -> s < dval B ->
  exists Q' R' s' p', D3n2n_finish Allocate Qhat R h A3 B scratch p = Some (Q', R', s', p') /\
    digits_ok Q' /\ length Q' = n /\ digits_ok R' /\ length R' = (2 * n)%nat /\ digits_ok s' /\ length s' = length scratch /\ works p p' /\
    (should_terminate p' = false -> a = dval Q' * dval B + dval R' /\ dval R' < dval B).
Proof using All.
  intros HQ HR HA3 HB Hsc Hn LB LQ LR LA3 Lsc Wn Hh Hnorm Ha s Has Hs. unfold D3n2n_finish. rewrite LB, Nat.div2_double.
  destruct (half_weights n B HB LB) as (V1 & V2 & V3 & V4).
  assert (length (take (2 * n) scratch) = (2 * n)%nat) as Lt by (rewrite length_take; lia).
  assert (length (slice B 0 n) = n) as LB2 by (apply length_slice; lia).
  destruct (Multiply_spec Allocate Allocate_ok (take (2 * n) scratch) Qhat (slice B 0 n) p) as (D & p1 & -> & D1 & D2 & D3 & D4); [auto with v8..|lia|lia|].
  cbn [mbind option_bind]. rewrite Lt in D2.
  assert (digits_ok (D ++ drop (2 * n) scratch) /\ length (D ++ drop (2 * n) scratch) = length scratch) as [S1 S2].
  { split; [auto with v8|]. rewrite length_app, length_drop. lia. }
  destruct (should_terminate p1) eqn:Hp1.
  { do 4 eexists. split; [done|]. split_all; try done; by rewrite Hp1. }
  destruct (PutAt_spec R A3 n HR HA3 ltac:(lia)) as (P1 & P2 & P3). rewrite take_ge in P1 by lia.
  pose proof (dval_bounds Qhat HQ) as BQ. rewrite LQ in BQ. pose proof (dval_bounds D D1) as BD. rewrite D2 in BD. pose proof (weight_pos n) as Hw.
  pose proof (dval_bounds A3 HA3) as BA3. pose proof (dval_bounds _ (drop_ok n R HR)) as BR1. specialize (D4 eq_refl).
  assert (weight (2 * n) = weight n * weight n) as Hww by (by rewrite <- LB).
  destruct (add_back_spec B D a 3 h (PutAt R A3 n) Qhat s) as (h' & R' & Q' & s' & -> & B1 & B2 & B3 & B4 & B5 & B6 & B7); try done; try lia.
  { intros ->. simpl in LQ. lia. }
  cbn [mbind option_bind]. destruct (InplaceSubAndReturnBorrow R' D) as [R2 c] eqn:He.
  destruct (InplaceSubAndReturnBorrow_spec R' D R2 c B1 D1 ltac:(lia) He) as (E1 & E2 & E3 & E4).
  do 4 eexists. split; [done|]. split_all; try done; try lia. intros _.
  pose proof (dval_bounds R2 E2) as BR2. pose proof (dval_bounds B HB) as BB. rewrite D2 in E1. rewrite LB in B5, BB. rewrite E3, B3, P3, LR in BR2.
  assert (dval R2 = s'); [|split; lia]. apply (low_unique (weight (2 * n)) _ (- c) _ (- h')); lia.
Qed.

(** The contract of [D2n1n] for a divisor of n digits. *)
Definition divides (n : nat) (D : list Z -> list Z -> list Z -> list Z -> list Z -> Processor -> option (list Z * list Z * list Z * Processor)) : Prop :=
  forall Q R A B scratch p, digits_ok Q -> digits_ok R -> digits_ok A -> digits_ok B -> digits_ok scratch ->
    length B = n -> length A = (2 * n)%nat -> length Q = n -> length R = n -> weight n <= 2 * dval B -> dval A < dval B * weight n -> (n <= length scratch)%nat ->
    exists Q' R' s' p', D Q R A B scratch p = Some (Q', R', s', p') /\
      digits_ok Q' /\ length Q' = n /\ digits_ok R' /\ length R' = n /\ digits_ok s' /\ length s' = length scratch /\ works p p' /\
      (should_terminate p' = false -> dval A = dval Q' * dval B + dval R' /\ dval R' < dval B).

Lemma dval_ones n : dval (replicate n (digit_base - 1)) = weight n - 1.
Proof using. induction n as [|n IH]; [done|]. cbn [replicate dval]. rewrite IH, weight_S. lia. Qed.

Lemma AddAndReturnCarry_spec zs X Y zs' c : digits_ok X -> digits_ok Y -> length X = length Y -> length zs = length Y -> AddAndReturnCarry zs X Y = (zs', c) ->
  dval zs' + weight (length Y) * c = dval X + dval Y /\ digits_ok zs' /\ length zs' = length Y /\ 0 <= c <= 1.
Proof using.
  intros HX HY Hl Hz. unfold AddAndReturnCarry. destruct (carry_loop _ _ _) as [ds c'] eqn:He. rewrite drop_ge, app_nil_r by lia. intros [= <- <-].
  destruct (add3_loop_spec X Y 0 ds c' HX HY Hl ltac:(lia) He) as (A1 & A2 & A3 & A4). rewrite Hl in *. split_all; (done || lia).
Qed.

Lemma weight_even n : (1 <= n)%nat -> exists w, weight n = 2 * w.
Proof using. intros Hn. destruct n as [|n]; [lia|]. exists (2 ^ 63 * weight n). rewrite weight_S. change digit_base with (2 * 2 ^ 63). ring. Qed.

Lemma normalized_half w b b0 b1 : b = 2 * w -> 0 < b -> 0 <= b0 < b -> b * b <= 2 * (b0 + b * b1) -> b <= 2 * b1.
Proof using.
  intros -> Hw H0 H. destruct (Z.le_gt_cases w b1) as [|Hgt]; [lia|exfalso]. assert (w * (b1 + 1) <= w * w) by (apply Z.mul_le_mono_nonneg_l; lia). lia.
Qed.

Lemma D3n2n_spec n D Q R A1A2 A3 B scratch p : divides n D -> (1 <= n)%nat -> Z.of_nat (2 * n) <= kMaxNumDigits ->
  digits_ok Q -> digits_ok R -> digits_ok A1A2 -> digits_ok A3 -> digits_ok B -> digits_ok scratch ->
  length Q = n -> length R = (2 * n)%nat -> length A1A2 = (2 * n)%nat -> length A3 = n -> length B = (2 * n)%nat -> (2 * n <= length scratch)%nat ->
  weight (2 * n) <= 2 * dval B -> dval A1A2 < dval B ->
  exists Q' R' s' p', D3n2n Allocate D Q R A1A2 A3 B scratch p = Some (Q', R', s', p') /\
    digits_ok Q' /\ length Q' = n /\ digits_ok R' /\ length R' = (2 * n)%nat /\ digits_ok s' /\ length s' = length scratch /\ works p p' /\
    (should_terminate p' = false -> dval A3 + weight n * dval A1A2 = dval Q' * dval B + dval R' /\ dval R' < dval B).
Proof using All.
  intros HD Hn Wn HQ HR HA HA3 HB Hsc LQ LR LA LA3 LB Lsc Hnorm Hv. unfold D3n2n. rewrite LB, Nat.div2_double.
  destruct (half_weights n B HB LB) as (VB & B2 & B1 & WB). destruct (half_weights n A1A2 HA LA) as (VA & A2 & A1 & _). rewrite LB in WB.
  pose proof (weight_pos n) as Hw. pose proof (dval_bounds A3 HA3) as BA3. rewrite LA3 in BA3. destruct (weight_even n Hn) as [w Hw2].
  assert (weight n <= 2 * dval (slice B n n)) as Hnorm1 by (rewrite WB, VB in Hnorm; by apply (normalized_half w (weight n) (dval (slice B 0 n)))).
  assert (length (slice B n n) = n /\ length (slice R n n) = n /\ length (slice A1A2 n n) = n /\ length (slice A1A2 0 n) = n) as (LB1 & LR1 & LA1 & LA2) by (rewrite !length_slice by lia; done).
  assert (length (take n R) = n) as LRn by (rewrite length_take; lia).
  destruct (Compare_cases (slice A1A2 n n) (slice B n n)) as (C1 & C2 & C3); [auto with v8..|].
  destruct (Z.ltb_spec (Compare (slice A1A2 n n) (slice B n n)) 0) as [Hc|Hc].
  - destruct (HD Q (slice R n n) A1A2 (slice B n n) scratch p) as (Qh & R1 & s1 & p1 & -> & D1 & D2 & D3 & D4 & D5 & D6 & D7 & D8); [auto with v8..|auto|auto|auto|auto|auto|clear -C1 Hc VA A2 A1 B1 Hw; nia|lia|].
    cbn [mbind option_bind]. destruct (should_terminate p1) eqn:Hp1.
    { do 4 eexists. split; [done|]. split_all; [done|done|auto with v8|rewrite length_app; lia|done|done|done|by rewrite Hp1]. }
    destruct (D8 eq_refl) as [E1 E2].
    assert (drop n (take n R ++ R1) = R1) as Hdrop by (by apply drop_app_length').
    destruct (D3n2n_finish_spec Qh (take n R ++ R1) 0 A3 B s1 p1 (dval A3 + weight n * dval A1A2) n) as (Q' & R' & s' & p' & -> & F1 & F2 & F3 & F4 & F5 & F6 & F7 & F8);
      [done|auto with v8|done..|rewrite length_app; lia|done|lia|done|lia|done| | | |].
    { clear -VA BA3 Hw A1 A2. nia. }
    { rewrite Hdrop, E1, VB. ring. }
    { rewrite Hdrop. pose proof (dval_bounds Qh D1) as BQ. rewrite VB. clear -E2 B2 BA3 Hw BQ. nia. }
    do 4 eexists. split; [done|]. split_all; try done; [lia|by trans p1].
  - assert (dval (slice A1A2 n n) = dval (slice B n n)) as Heq by (clear -C1 C2 C3 Hc Hv VA VB A2 B2 Hw; nia).
    pose proof (length_Normalize (slice A1A2 n n)).
    destruct (SubtractWithNormalization_spec n (slice A1A2 n n) (slice B n n)) as (S1 & S2 & S3); [auto with v8..|lia|lia|].
    rewrite LR1. set (temp := SubtractWithNormalization n _ _) in *.
    assert (Normalize temp = []) as ->.
    { apply normalized_zero; [by apply Normalize_ok|apply Normalize_normalized|]. rewrite dval_Normalize. lia. }
    cbn [length Nat.ltb Nat.leb]. destruct (AddAndReturnCarry temp (slice A1A2 0 n) (slice B n n)) as [R1 c] eqn:He.
    destruct (AddAndReturnCarry_spec temp (slice A1A2 0 n) (slice B n n) R1 c) as (T1 & T2 & T3 & T4); [auto with v8..|lia|lia|done|]. rewrite LB1 in T1, T3.
    rewrite Z.add_0_l, digit_small by (unfold digit_ok; pose proof digit_base_eq; lia).
    assert (drop n (take n R ++ R1) = R1) as Hdrop by (by apply drop_app_length').
    assert (dval (SetOnes Q) = weight n - 1) as Hones by (unfold SetOnes; by rewrite LQ, dval_ones).
    destruct (D3n2n_finish_spec (SetOnes Q) (take n R ++ R1) c A3 B scratch p (dval A3 + weight n * dval A1A2) n) as (Q' & R' & s' & p' & -> & F1 & F2 & F3 & F4 & F5 & F6 & F7 & F8);
      [|auto with v8|done..|unfold SetOnes; by rewrite length_replicate|rewrite length_app; lia|done|lia|done|lia|done| | | |].
    { apply Forall_replicate. by vm_compute. }
    { clear -VA BA3 Hw A1 A2. nia. }
    { rewrite Hdrop, Hones, (Z.mul_comm _ (weight n)), Z.mul_add_distr_l. apply (f_equal (Z.mul (weight n))) in T1. rewrite Z.mul_add_distr_l in T1.
      rewrite VA, VB, Heq. clear -T1. lia. }
    { rewrite Hdrop, Hones. rewrite VB in Hv |- *. clear -Hv T1 VA BA3 Hw B1 B2 Heq A2. nia. }
    do 4 eexists. by split.
Qed.

(** ** Two by one, recursively *)

Lemma normalized_msd B n : digits_ok B -> length B = n -> (1 <= n)%nat -> weight n <= 2 * dval B -> msd B <> 0.
Proof using.
  intros HB LB Hn Hv H0. assert (B <> []) as HB0 by (by intros ->; simpl in LB; lia). pose proof (msd_bounds B HB HB0) as Hb.
  rewrite H0, LB in Hb. destruct n as [|n]; [lia|]. rewrite Nat.sub_succ, Nat.sub_0_r in Hb. rewrite weight_S in Hv.
  pose proof (weight_pos n). pose proof digit_base_eq. nia.
Qed.

Lemma D2n1n_spec fuel : forall n, (2 <= n <= fuel)%nat -> Z.of_nat n <= kMaxNumDigits -> divides n (D2n1n Allocate fuel).
Proof using All.
  induction fuel as [|fuel IH]; intros n Hn Wn; [lia|].
  intros Q R A B scratch p HQ HR HA HB Hsc LB LA LQ LR Hnorm Hv Lsc. cbn [D2n1n]. rewrite LB.
  assert (kBurnikelThreshold = 57%nat) as Hk by done.
  destruct (Nat.odd n || (n <? kBurnikelThreshold)%nat) eqn:Hbase.
  { destruct (DivideBasecase_spec Q R A B p HQ HR HA HB) as (Q' & R' & p' & -> & D1 & D2 & D3 & D4 & D5 & D6); [|lia|lia|lia|by rewrite LB|].
    { eapply normalized_msd; [done|done|lia|done]. }
    do 4 eexists. split; [done|]. split_all; (done || lia). }
  apply orb_false_iff in Hbase as [Hodd Hbig]. apply Nat.ltb_ge in Hbig.
  assert (exists half, n = (2 * half)%nat) as [half ->].
  { exists (Nat.div2 n). pose proof (Nat.div2_odd n) as Ho. rewrite Hodd in Ho. simpl in Ho. lia. }
  rewrite Nat.div2_double.
  assert (divides half (D2n1n Allocate fuel)) as Hrec by (apply IH; lia).
  destruct (half_weights half B HB LB) as (_ & _ & _ & WB). rewrite LB in WB. pose proof (weight_pos half) as Hw.
  assert (dval A = dval (slice A 0 half) + weight half * (dval (slice A half half) + weight half * dval (slice A (2 * half) (2 * half)))) as VA.
  { assert (dval A = dval (take (2 * half + 2 * half) A)) as -> by (rewrite take_ge by lia; done). rewrite dval_slice, WB.
    replace (2 * half)%nat with (half + half)%nat at 1 by lia. rewrite dval_slice. rewrite slice_0. ring. }
  assert (0 <= dval (slice A 0 half) < weight half /\ 0 <= dval (slice A half half) < weight half) as [A4 A3].
  { split; unfold slice; apply dval_take_small; auto with v8. }
  destruct (Allocate_ok (2 * half)) as [N1 N2].
  assert (dval (slice A (2 * half) (2 * half)) < dval B) as Htop.
  { rewrite VA, WB in Hv. clear -Hv A4 A3 Hw. nia. }
  destruct (D3n2n_spec half (D2n1n Allocate fuel) (slice Q half half) (Allocate (2 * half)) (slice A (2 * half) (2 * half)) (slice A half half) B scratch p Hrec)
    as (Q1 & R1 & s1 & p1 & -> & D1 & D2 & D3 & D4 & D5 & D6 & D7 & D8); [lia|done|auto with v8..|apply length_slice; lia|lia|apply length_slice; lia|apply length_slice; lia|done|lia|done|done|].
  cbn [mbind option_bind].
  assert (length (take half Q) = half) as LQh by (rewrite length_take; lia).
  assert (digits_ok (take half Q ++ Q1) /\ length (take half Q ++ Q1) = (2 * half)%nat) as [HQ1 LQ1] by (split; [auto with v8|rewrite length_app; lia]).
  destruct (should_terminate p1) eqn:Hp1.
  { do 4 eexists. split; [done|]. split_all; try done. by rewrite Hp1. }
  destruct (D8 eq_refl) as [E1 E2].
  assert (slice (take half Q ++ Q1) 0 half = take half Q) as -> by (by rewrite slice_0, take_app_length').
  assert (drop half (take half Q ++ Q1) = Q1) as -> by (by apply drop_app_length').
  destruct (D3n2n_spec half (D2n1n Allocate fuel) (take half Q) R R1 (slice A 0 half) B s1 p1 Hrec)
    as (Q2 & R2 & s2 & p2 & -> & F1 & F2 & F3 & F4 & F5 & F6 & F7 & F8); [lia|done|auto with v8..|done|lia|done|apply length_slice; lia|done|lia|done|done|].
  cbn [mbind option_bind]. do 4 eexists. split; [done|]. split_all; [auto with v8|rewrite length_app; lia|done|lia|done|lia|by trans p1|].
  intros Hp2. destruct (F8 Hp2) as [G1 G2]. split; [|done]. rewrite VA, dval_app, F2, E1. rewrite Z.mul_add_distr_l. rewrite Z.add_assoc, (Z.add_comm (dval _) (weight half * _)), <- Z.add_assoc, G1. ring.
Qed.

(** ** Operands of any length *)

Lemma block_length_spec s : (kBurnikelThreshold <= s)%nat -> Z.of_nat s < 2 ^ 31 -> (s <= block_length s <= 2 * s)%nat.
Proof using.
  unfold kBurnikelThreshold. intros Hs Hw. unfold block_length. set (q := Z.of_nat s / Z.of_nat kBurnikelThreshold).
  assert (1 <= q) as Hq by (apply Z.div_le_lower_bound; [done|]; change (Z.of_nat kBurnikelThreshold) with 57; lia).
  assert (57 * q <= Z.of_nat s) as Hq57 by (apply Z.mul_div_le; done).
  rewrite BitLength_log2, Z.shiftl_mul_pow2, Z.mul_1_l by (pose proof (Z.log2_nonneg q); lia).
  pose proof (Z.log2_spec q ltac:(lia)) as [Hl1 Hl2]. rewrite <- Z.add_1_r, Z.pow_add_r, Z.pow_1_r in * by (pose proof (Z.log2_nonneg q); lia).
  set (m := 2 ^ Z.log2 q * 2) in *. unfold DIV_CEIL.
  pose proof (Z.div_mod (Z.of_nat s - 1) m ltac:(lia)). pose proof (Z.mod_pos_bound (Z.of_nat s - 1) m ltac:(lia)). lia.
Qed.

(** The divisor, shifted up to whole blocks. *)
Lemma shifted_divisor B n : digits_ok B -> (2 <= length B <= n)%nat -> msd B <> 0 ->
  let sigma := CountLeadingZeros kDigitBits (B.[length B - 1]) in
  let ds := (n - length B)%nat in
  let B' := replicate ds 0 ++ LeftShift_int (n - ds) B sigma in
  digits_ok B' /\ length B' = n /\ dval B' = weight ds * 2 ^ sigma * dval B /\ weight n <= 2 * dval B' /\ 0 <= sigma < kDigitBits.
Proof using.
  intros HB Hl Hm. cbv zeta. pose proof (ShiftedDigits_spec B HB ltac:(lia) Hm) as HS. unfold ShiftedDigits in HS. fold (msd B).
  replace (n - (n - length B))%nat with (length B) by lia. set (sigma := CountLeadingZeros _ _) in *. set (BN := LeftShift_int _ _ _) in *.
  destruct HS as (HBN & LB & Hs & HV). pose proof (divisor_bounds BN HBN) as (V1 & V2 & V3). destruct HBN as (HBN & _ & _).
  rewrite dval_app, dval_zeros, length_app, length_replicate, HV. rewrite LB in V2. pose proof (weight_pos (n - length B)).
  assert (weight n = weight (n - length B) * weight (length B)) as -> by (rewrite <- weight_add; f_equal; lia).
  split_all; [auto with v8|lia|ring|rewrite HV in V2; nia|lia..].
Qed.

Lemma leading_zeros_bound d : digit_ok d -> (d + 1) * 2 ^ CountLeadingZeros kDigitBits d <= digit_base.
Proof using.
  intros Hd. destruct (Z.eq_dec d 0) as [->|H0]; [by vm_compute|]. destruct (leading_zeros_spec d Hd H0) as (Hs & H1 & H2). cbv zeta in *.
  set (s := CountLeadingZeros kDigitBits d) in *. pose proof (pow2_log2_bounds s ltac:(lia)) as Hp.
  assert (digit_base = 2 ^ (kDigitBits - s) * 2 ^ s) as HBs by (rewrite <- Z.pow_add_r by lia; unfold digit_base; f_equal; lia).
  rewrite HBs in H1 |- *. apply Z.mul_lt_mono_pos_r in H1; [|done]. nia.
Qed.

(** The dividend, shifted likewise; its top bit is clear. *)
Lemma shifted_dividend A ds sigma : digits_ok A -> A <> [] -> 0 <= sigma < kDigitBits ->
  let extra := if CountLeadingZeros kDigitBits (A.[length A - 1]) <? sigma + 1 then 1%nat else 0%nat in
  let r := (length A + ds + extra)%nat in
  let A' := replicate ds 0 ++ LeftShift_int (r - ds) A sigma in
  digits_ok A' /\ length A' = r /\ dval A' = weight ds * 2 ^ sigma * dval A /\ 2 * dval A' < weight r.
Proof using.
  intros HA H0 Hs. cbv zeta. fold (msd A). set (extra := if _ <? _ then 1%nat else 0%nat).
  replace (length A + ds + extra - ds)%nat with (length A + extra)%nat by lia. pose proof (pow2_log2_bounds sigma ltac:(lia)) as Hp.
  assert (2 * (dval A * 2 ^ sigma) < weight (length A + extra)) as Hb.
  { unfold extra. pose proof (msd_bounds A HA H0) as Hm. pose proof (dval_bounds A HA) as HAb. pose proof (weight_pos (length A - 1)) as Hw.
    assert (length A <> 0%nat) by (by destruct A).
    destruct (Z.ltb_spec (CountLeadingZeros kDigitBits (msd A)) (sigma + 1)) as [Hc|Hc].
    - rewrite Nat.add_comm, weight_S. cbn [Nat.add]. assert (2 * 2 ^ sigma <= digit_base) by (rewrite <- Z.pow_succ_r by lia; apply Z.pow_le_mono_r; lia). nia.
    - rewrite Nat.add_0_r. assert (weight (length A) = digit_base * weight (length A - 1)) as -> by (rewrite <- weight_S; f_equal; lia).
      pose proof (leading_zeros_bound (msd A) (digit_at A _ HA)) as Hl. pose proof (digit_at A (length A - 1) HA) as [Hd _]. fold (msd A) in Hd.
      assert (2 * 2 ^ sigma <= 2 ^ CountLeadingZeros kDigitBits (msd A)) by (rewrite <- Z.pow_succ_r by lia; apply Z.pow_le_mono_r; lia).
      assert ((msd A + 1) * (2 * 2 ^ sigma) <= digit_base) by nia. nia. }
  pose proof (dval_bounds A HA). destruct (LeftShift_int_spec (length A + extra) A sigma HA Hs ltac:(lia) ltac:(nia)) as (L1 & L2 & L3).
  rewrite dval_app, dval_zeros, length_app, length_replicate, L1, L3. pose proof (weight_pos ds).
  assert (weight (length A + ds + extra) = weight ds * weight (length A + extra)) as -> by (rewrite <- weight_add; f_equal; lia).
  split_all; [auto with v8|lia|ring|nia].
Qed.

(** A value cut at a position: the low digits do not matter for the quotient. *)
Lemma dval_cut X i : (i <= length X)%nat -> dval X = dval (take i X) + weight i * dval (drop i X).
Proof using. intros Hi. rewrite (dval_take_drop i X) at 1. by rewrite length_take, Nat.min_l. Qed.

Lemma divide_blocks_spec n A B i : forall Q Ri zs scratch p, (2 <= n)%nat -> Z.of_nat n <= kMaxNumDigits -> digits_ok A -> digits_ok B -> length B = n -> weight n <= 2 * dval B ->
  digits_ok Q -> digits_ok Ri -> digits_ok zs -> digits_ok scratch -> length Ri = n -> length zs = (2 * n)%nat -> (n <= length scratch)%nat ->
  (n * i <= length A)%nat -> (n * i <= length Q)%nat -> dval Ri < dval B ->
  dval A = dval (take (n * i) A) + weight (n * i) * (dval (drop (n * i) Q) * dval B + dval Ri) ->
  exists Q' Ri' p', divide_blocks Allocate i n Q Ri zs A B scratch p = Some (Q', Ri', p') /\
    digits_ok Q' /\ length Q' = length Q /\ digits_ok Ri' /\ length Ri' = n /\ works p p' /\
    (should_terminate p' = false -> dval A = dval Q' * dval B + dval Ri' /\ dval Ri' < dval B).
Proof using All.
  induction i as [|i IH]; intros Q Ri zs scratch p Hn Wn HA HB LB Hnorm HQ HRi Hz Hsc LRi Lz Lsc HiA HiQ Hr Hv.
  { rewrite Nat.mul_0_r, weight_0 in Hv. cbn [take drop] in Hv. do 3 eexists. split; [done|]. split_all; try done. intros _. split; [|done].
    rewrite take_0, drop_0 in Hv. cbn [dval] in Hv. lia. }
  cbn [divide_blocks].
  destruct (PutAt_spec (drop n zs) Ri n (drop_ok n zs Hz) HRi ltac:(rewrite length_drop; lia)) as (P1 & P2 & P3). rewrite length_drop in P3.
  rewrite take_ge, drop_drop, (drop_ge zs (n + n)) in P1 by lia. cbn [dval] in P1.
  assert (length (take n zs) = n) as Ltz by (rewrite length_take; lia).
  set (z1 := take n zs ++ PutAt (drop n zs) Ri n). assert (digits_ok z1 /\ length z1 = (2 * n)%nat) as [Hz1 Lz1] by (split; [unfold z1; auto with v8|unfold z1; rewrite length_app; lia]).
  destruct (PutAt_spec z1 (drop (n * i) A) n Hz1 (drop_ok _ _ HA) ltac:(lia)) as (Z1 & Z2 & Z3).
  assert (drop n z1 = PutAt (drop n zs) Ri n) as Hdrop by (by apply drop_app_length'). rewrite Hdrop, P1 in Z1. fold (slice A (n * i) n) in Z1.
  set (z2 := PutAt z1 (drop (n * i) A) n) in *. assert (0 <= dval (slice A (n * i) n) < weight n) as BA by (apply dval_take_small; auto with v8).
  pose proof (weight_pos n) as Hw. pose proof (dval_bounds Ri HRi) as BRi.
  destruct (D2n1n_spec n n ltac:(lia) Wn (slice Q (i * n) n) Ri z2 B scratch p) as (Qi & R1 & s1 & p1 & -> & D1 & D2 & D3 & D4 & D5 & D6 & D7 & D8);
    [auto with v8|done..|lia|apply length_slice; lia|done|done|rewrite Z1; clear -BA Hr Hw; nia|done|].
  cbn [mbind option_bind]. set (Q1 := take (i * n) Q ++ Qi ++ drop (i * n + n) Q).
  assert (length (take (i * n) Q) = (i * n)%nat) as LtQ by (rewrite length_take; lia).
  assert (digits_ok Q1 /\ length Q1 = length Q) as [HQ1 LQ1].
  { unfold Q1. split; [auto with v8|]. rewrite !length_app, length_drop. lia. }
  destruct (should_terminate p1) eqn:Hp1.
  { do 3 eexists. split; [done|]. split_all; try done. by rewrite Hp1. }
  destruct (D8 eq_refl) as [E1 E2].
  destruct (IH Q1 R1 z2 s1 p1) as (Q' & Ri' & p' & -> & F1 & F2 & F3 & F4 & F5 & F6); try done; try lia.
  { assert (drop (n * i) Q1 = Qi ++ drop (n * S i) Q) as ->.
    { unfold Q1. rewrite Nat.mul_comm, drop_app_length' by done. do 2 f_equal. lia. }
    rewrite dval_app, D2. rewrite Hv at 1. replace (n * S i)%nat with (n * i + n)%nat by lia. rewrite dval_slice, weight_add.
    assert (dval (slice A (n * i) n) = dval Qi * dval B + dval R1 - weight n * dval Ri) as -> by lia. ring. }
  do 3 eexists. split; [done|]. split_all; try done; [lia|by trans p1].
Qed.

Lemma DIV_CEIL_spec x y : (1 <= x)%nat -> (1 <= y)%nat ->
  let t := Z.to_nat (DIV_CEIL (Z.of_nat x) (Z.of_nat y)) in (x <= t * y)%nat /\ ((t - 1) * y < x)%nat.
Proof using.
  intros Hx Hy. cbv zeta. unfold DIV_CEIL. pose proof (Z.div_mod (Z.of_nat x - 1) (Z.of_nat y) ltac:(lia)).
  pose proof (Z.mod_pos_bound (Z.of_nat x - 1) (Z.of_nat y) ltac:(lia)).
  assert (0 <= (Z.of_nat x - 1) / Z.of_nat y) by (apply Z.div_pos; lia). set (q := (Z.of_nat x - 1) / Z.of_nat y) in *. split; nia.
Qed.

(** The quotient and the remainder of shifted operands. *)
Lemma unshift c a b q r : 0 < c -> c * a = q * (c * b) + r -> 0 <= r < c * b -> r = c * (a - q * b) /\ 0 <= a - q * b < b.
Proof using. intros Hc He Hr. assert (r = c * (a - q * b)) as Hrc by lia. split_all; [done|nia|nia]. Qed.

(** The blocks of a division: the quotient fits in the digits the caller provides. *)
Lemma quotient_fits A B (Q : list Z) : digits_ok A -> digits_ok B -> B <> [] -> msd B <> 0 -> (length A < length Q + length B)%nat -> (length B <= length A)%nat ->
  dval A / dval B < weight (length Q).
Proof using.
  intros HA HB H0 Hm Hl Hl2. pose proof (dval_bounds A HA) as HAb. pose proof (msd_bounds B HB H0) as Hb. pose proof (digit_at B (length B - 1) HB) as [Hd _]. fold (msd B) in Hd.
  pose proof (weight_pos (length B - 1)) as Hw. assert (length B <> 0%nat) by (by destruct B). apply Z.div_lt_upper_bound; [nia|].
  pose proof (weight_mono (length A) (length B - 1 + length Q) ltac:(lia)) as Hm2. rewrite weight_add in Hm2. pose proof (weight_pos (length Q)). nia.
Qed.

(** The whole blocks below the top two, and room for a digit of the quotient in each. *)
Lemma blocks_spec r n a b q e : (1 <= n)%nat -> (1 <= r)%nat -> (r = a + (n - b) + e)%nat -> (b <= n)%nat -> (e <= 1)%nat -> (a < q + b)%nat ->
  let k := (Nat.max (Z.to_nat (DIV_CEIL (Z.of_nat r) (Z.of_nat n))) 2 - 2)%nat in
  (n * k <= r /\ n * k <= q /\ r <= n * k + 2 * n)%nat.
Proof using.
  intros Hn Hr Er Hb He Hq. cbv zeta. destruct (DIV_CEIL_spec r n Hr Hn) as [T1 T2]. set (t0 := Z.to_nat _) in *.
  destruct (decide (t0 <= 2)%nat); [rewrite Nat.max_r by lia|rewrite Nat.max_l by lia].
  - rewrite Nat.sub_diag, Nat.mul_0_r. split_all; [lia|lia|nia].
  - assert (t0 = (t0 - 2) + 2)%nat as Ht by lia. set (u := (t0 - 2)%nat) in *. rewrite Ht in T1, T2. split_all; [nia| |nia].
    assert (n * u + n < r)%nat by (clear -T2; nia). lia.
Qed.

(** The top two blocks are below the divisor times a block. *)
Lemma top_blocks_small A B n k : digits_ok A -> (n * k <= length A <= n * k + 2 * n)%nat -> 2 * dval A < weight (length A) -> weight n <= 2 * dval B ->
  dval (drop (n * k) A) < dval B * weight n.
Proof using.
  intros HA Hk H2 HB. pose proof (dval_cut A (n * k) ltac:(lia)) as VA. pose proof (dval_take_small A (n * k) HA) as Blow.
  pose proof (weight_pos (n * k)) as Wk. pose proof (weight_pos n) as Wn. pose proof (weight_mono (length A) (n * k + 2 * n) ltac:(lia)) as Hw.
  replace (n * k + 2 * n)%nat with (n * k + (n + n))%nat in Hw by lia. rewrite !weight_add in Hw.
  assert (weight n * weight n <= 2 * (dval B * weight n)) by (clear -HB Wn; nia).
  assert (weight (n * k) * (2 * dval (drop (n * k) A)) < weight (n * k) * (weight n * weight n)) as Hlt by lia.
  apply Z.mul_lt_mono_pos_l in Hlt; [lia|done].
Qed.

(** The quotient of the top blocks of shifted operands fits above [w]. *)
Lemma top_quotient_bound c w a b low high q r : 0 < c -> 0 < w -> 0 < b -> 0 <= q -> c * a = low + w * high -> 0 <= low -> high = q * (c * b) + r -> 0 <= r ->
  w * q <= a / b.
Proof using.
  intros Hc Hw Hb Hq Ha Hl Hh Hr. apply Z.div_le_lower_bound; [done|].
  assert (c * (b * (w * q)) <= c * a); [|nia]. rewrite Ha, Hh. nia.
Qed.

(** The remainder is moved down again: it is a multiple of the shift. *)
Lemma unshifted_remainder Ri B (R : list Z) ds sigma n v : digits_ok Ri -> length Ri = n -> (ds + length B = n)%nat -> 0 <= sigma < kDigitBits -> (length B <= length R)%nat ->
  dval Ri = weight ds * 2 ^ sigma * v -> weight ds * 2 ^ sigma * dval B < weight n -> 0 <= v < dval B ->
  let S := RightShift_int (length R) (Normalize (drop ds Ri)) sigma in dval S = v /\ digits_ok S /\ length S = length R.
Proof using.
  intros HRi LRi Hn Hs HR Hv HB Hb. cbv zeta. pose proof (pow2_log2_bounds sigma ltac:(lia)) as Hp. pose proof (weight_pos ds) as Wds.
  assert (dval (drop ds Ri) = 2 ^ sigma * v) as Vpart.
  { pose proof (dval_cut Ri ds ltac:(lia)) as Hcut. pose proof (dval_take_small Ri ds HRi). rewrite Hv in Hcut.
    assert (dval (take ds Ri) = 0) as Hz by (apply (low_unique (weight ds) _ (dval (drop ds Ri)) _ (2 ^ sigma * v)); lia).
    rewrite Hz in Hcut. apply (Z.mul_reg_l _ _ (weight ds)); lia. }
  assert (length (Normalize (drop ds Ri)) <= length B)%nat as Lpart.
  { apply normalized_length; [by apply Normalize_ok, drop_ok|apply Normalize_normalized|]. rewrite dval_Normalize, Vpart.
    assert (weight n = weight ds * weight (length B)) as Hnw by (rewrite <- weight_add; f_equal; lia). rewrite Hnw in HB.
    apply (Z.mul_lt_mono_pos_l (weight ds)); [done|]. pose proof (Z.mul_le_mono_nonneg_l v (dval B) (weight ds * 2 ^ sigma)). nia. }
  pose proof (length_Normalize (Normalize (drop ds Ri))).
  destruct (RightShift_int_spec (length R) (Normalize (drop ds Ri)) sigma (Normalize_ok _ (drop_ok ds _ HRi)) Hs ltac:(lia)) as (S1 & S2 & S3).
  split_all; [|done|done]. rewrite S1, dval_Normalize, Vpart, Z.mul_comm, Z.div_mul by lia. done.
Qed.

(** The quotient of the top blocks, put above the digits to come. *)
Lemma top_quotient_put Q Qi m : digits_ok Q -> digits_ok Qi -> (m <= length Q)%nat -> dval Qi < weight (length Q - m) ->
  let Q1 := take m Q ++ PutAt (drop m Q) (Normalize Qi) (length (drop m Q)) in digits_ok Q1 /\ length Q1 = length Q /\ dval (drop m Q1) = dval Qi.
Proof using.
  intros HQ HQi Hm HB. cbv zeta.
  destruct (PutAt_spec (drop m Q) (Normalize Qi) (length (drop m Q)) (drop_ok _ _ HQ) (Normalize_ok Qi HQi) ltac:(done)) as (X1 & X2 & X3).
  rewrite (drop_ge (drop m Q) (length (drop m Q))) in X1 by done. rewrite (dval_take_all (Normalize Qi)) in X1 by (by apply Normalize_ok || rewrite dval_Normalize, length_drop). cbn [dval] in X1.
  rewrite Z.mul_0_r, Z.add_0_r, dval_Normalize in X1. assert (length (take m Q) = m) as Ltk by (rewrite length_take; lia).
  split_all; [auto with v8|rewrite length_app, X3, length_drop; lia|by rewrite drop_app_length' by done].
Qed.

Lemma DivideBurnikelZiegler_spec Q R A B p : digits_ok Q -> digits_ok R -> digits_ok A -> digits_ok B -> msd B <> 0 ->
  (kBurnikelThreshold <= length B <= length A)%nat -> (length A < length Q + length B)%nat -> (length R = 0 \/ length B <= length R)%nat ->
  2 * Z.of_nat (length B) <= kMaxNumDigits ->
  exists Q' R' p', DivideBurnikelZiegler Allocate Q R A B p = Some (Q', R', p') /\
    digits_ok Q' /\ length Q' = length Q /\ digits_ok R' /\ length R' = length R /\ works p p' /\
    (should_terminate p' = false -> dval Q' = dval A / dval B /\ (length R <> 0%nat -> dval R' = dval A mod dval B)).
Proof using All.
  intros HQ HR HA HB Hm Hl LQ LR Wl. pose proof (kMaxNumDigits_small (2 * length B) ltac:(lia)) as W30.
  assert (kBurnikelThreshold = 57%nat) as Hk by done. unfold DivideBurnikelZiegler.
  destruct (block_length_spec (length B) ltac:(lia) ltac:(lia)) as [N1 N2]. set (n := block_length (length B)) in *.
  assert (B <> []) as HB0 by (intros ->; simpl in *; lia). assert (A <> []) as HA0 by (intros ->; simpl in *; lia).
  destruct (shifted_divisor B n HB ltac:(lia) Hm) as (B1 & B2 & B3 & B4 & Hs). set (sigma := CountLeadingZeros kDigitBits (B.[length B - 1])) in *.
  set (ds := (n - length B)%nat) in *. set (B' := replicate ds 0 ++ _) in *.
  destruct (shifted_dividend A ds sigma HA HA0 Hs) as (A1 & A2 & A3 & A4). set (extra := if _ <? _ then 1%nat else 0%nat) in *.
  set (r := (length A + ds + extra)%nat) in *. set (A' := replicate ds 0 ++ LeftShift_int (r - ds) A sigma) in *.
  assert (extra <= 1)%nat as He by (unfold extra; destruct (_ <? _); lia).
  destruct (blocks_spec r n (length A) (length B) (length Q) extra) as (K1 & K2 & K3); [lia..|]. set (k := (Nat.max _ 2 - 2)%nat) in *.
  destruct (Allocate_ok (n * 5)) as [M1 M2]. destruct (Allocate_ok n) as [M3 M4]. set (temp := Allocate (n * 5)) in *.
  destruct (Nat.leb_spec kBurnikelThreshold n); [|lia].
  destruct (PutAt_spec (slice temp n (2 * n)) (drop (n * k) A') (2 * n)) as (P1 & P2 & P3); [auto with v8..|rewrite length_slice by lia; done|].
  rewrite length_slice in P3 by lia. rewrite take_ge, (drop_ge (slice temp n (2 * n)) (2 * n)) in P1 by (rewrite ?length_drop, ?length_slice by lia; lia). cbn [dval] in P1.
  rewrite Z.mul_0_r, Z.add_0_r in P1. set (z0 := PutAt _ _ _) in *.
  pose proof (dval_cut A' (n * k) ltac:(lia)) as VA. pose proof (dval_take_small A' (n * k) A1) as Blow. pose proof (weight_pos (n * k)) as Wk. pose proof (weight_pos n) as Wn.
  assert (dval z0 < dval B' * weight n) as Hz0 by (rewrite P1; apply top_blocks_small; [done|lia|congruence|done]).
  destruct (D2n1n_spec n n ltac:(lia) ltac:(lia) (slice temp (4 * n) n) (slice temp (3 * n) n) z0 B' (Allocate n) p)
    as (Qi & Ri & s1 & p1 & -> & D1 & D2 & D3 & D4 & D5 & D6 & D7 & D8); [auto with v8..|lia|apply length_slice; lia|apply length_slice; lia|done|done|lia|].
  cbn [mbind option_bind]. destruct (should_terminate p1) eqn:Hp1.
  { do 3 eexists. split; [done|]. split_all; try done. by rewrite Hp1. }
  destruct (D8 eq_refl) as [E1 E2]. clear D8.
  assert (0 < weight ds * 2 ^ sigma) as Hc by (apply Z.mul_pos_pos; [apply weight_pos|apply pow2_log2_bounds; lia]).
  pose proof (dval_bounds Qi D1) as BQi. pose proof (dval_bounds Ri D3) as BRi. pose proof (dval_bounds A HA) as BA. pose proof (dval_bounds B HB) as BB.
  assert (0 < dval B) as HB1 by (clear -B3 E2 BRi Hc BB; nia).
  assert (dval Qi < weight (length Q - n * k)) as HQi.
  { pose proof (quotient_fits A B Q HA HB HB0 Hm ltac:(lia) ltac:(lia)) as Hq.
    assert (weight (length Q) = weight (n * k) * weight (length Q - n * k)) as HwQ by (rewrite <- weight_add; f_equal; lia).
    assert (weight (n * k) * dval Qi <= dval A / dval B); [|clear -H0 Hq HwQ Wk; nia].
    rewrite A3, P1, B3 in *. eapply top_quotient_bound; [exact Hc|done|done|lia|exact VA|lia|exact E1|lia]. }
  destruct (top_quotient_put Q Qi (n * k) HQ D1 K2 HQi) as (HQ1 & LQ1 & VQ1). set (Q1 := take (n * k) Q ++ _) in *.
  destruct (divide_blocks_spec n A' B' k Q1 Ri z0 s1 p1) as (Q' & Ri' & p' & -> & F1 & F2 & F3 & F4 & F5 & F6); try done; try lia.
  cbn [mbind option_bind]. destruct (should_terminate p') eqn:Hp'.
  { do 3 eexists. split; [done|]. split_all; [done|lia|done|done|by trans p1|by rewrite Hp']. }
  destruct (F6 eq_refl) as [G1 G2]. rewrite A3, B3 in G1. rewrite B3 in G2. pose proof (dval_bounds Ri' F3) as BRi'.
  destruct (unshift (weight ds * 2 ^ sigma) (dval A) (dval B) (dval Q') (dval Ri') Hc G1 ltac:(lia)) as (U1 & U2).
  assert (dval Q' = dval A / dval B) as HQ' by (apply (Z.div_unique_pos _ _ _ (dval A - dval Q' * dval B)); lia).
  assert (dval A - dval Q' * dval B = dval A mod dval B) as Hrem by (rewrite HQ'; pose proof (Z.div_mod (dval A) (dval B)); lia). rewrite Hrem in *.
  assert (slice Ri' ds (length Ri') = drop ds Ri') as -> by (unfold slice; rewrite take_ge; [done|rewrite length_drop; lia]).
  do 3 eexists. split; [done|]. destruct (Nat.eqb_spec (length R) 0) as [HR0|HR0].
  { split_all; [done|lia|done|done|by trans p1|]. intros _. by split. }
  pose proof (dval_bounds B' B1) as BB'. rewrite B2, B3 in BB'.
  destruct (unshifted_remainder Ri' B R ds sigma n (dval A mod dval B)) as (S1 & S2 & S3); [done|done|lia|done|lia|done|lia|done|].
  split_all; [done|lia|done|done|by trans p1|]. intros _. by split.
Qed.

(** ** The processor *)

Lemma kMaxNumDigits_eq : kMaxNumDigits = 67108863.
Proof using. done. Qed.

Lemma DivideLarge_spec Q A B p : digits_ok Q -> digits_ok A -> digits_ok B -> msd B <> 0 -> (2 <= length B <= length A)%nat -> (length A < length Q + length B)%nat ->
  2 * Z.of_nat (length A) <= kMaxNumDigits ->
  exists Q' status p', DivideLarge Allocate Q A B p = Some (Q', status, p') /\ digits_ok Q' /\ length Q' = length Q /\ should_terminate p' = false /\
    (status = false -> dval Q' = dval A / dval B) /\ (undisturbed p -> status = false /\ undisturbed p').
Proof using All.
  intros HQ HA HB Hm Hl LQ Wl. unfold DivideLarge. assert (B <> []) as HB0 by (intros ->; simpl in *; lia).
  pose proof (quotient_fits A B Q HA HB HB0 Hm LQ ltac:(lia)) as Hq. assert (kBurnikelThreshold = 57%nat) as Hk by done.
  destruct (Nat.ltb_spec (length B) kBurnikelThreshold).
  - pose proof (DivideSchoolbook_works (length Q) 0 A B p) as Hw.
    destruct (DivideSchoolbook_spec (length Q) 0 A B p HA HB Hm Hl (or_intror Hq) (or_introl eq_refl)) as (qs & rs & p' & He & D1 & D2 & D3 & _). rewrite He in *.
    do 3 eexists. split_all; [done|done|done|done| |].
    + intros _. apply D1. lia.
    + intros Hu. by destruct (works_undisturbed p p' Hw Hu) as [U1 U2].
  - destruct (Z.leb_spec (Z.of_nat (length A)) kMaxNumDigits); [|lia].
    destruct (DivideBurnikelZiegler_spec Q [] A B p HQ ltac:(constructor) HA HB Hm ltac:(lia) LQ ltac:(by left) ltac:(lia)) as (Q' & R' & p' & -> & D1 & D2 & D3 & D4 & D5 & D6).
    cbn [mbind option_bind]. do 3 eexists. split_all; [done|done|done|done| |].
    + intros Hs. by apply D6.
    + intros Hu. by destruct (works_undisturbed p p' D5 Hu) as [U1 U2].
Qed.

Lemma ModuloLarge_spec R A B p : digits_ok R -> digits_ok A -> digits_ok B -> msd B <> 0 -> (2 <= length B <= length A)%nat -> (length B <= length R)%nat ->
  2 * Z.of_nat (length A) <= kMaxNumDigits ->
  exists R' status p', ModuloLarge Allocate R A B p = Some (R', status, p') /\ digits_ok R' /\ length R' = length R /\ should_terminate p' = false /\
    (status = false -> dval R' = dval A mod dval B) /\ (undisturbed p -> status = false /\ undisturbed p').
Proof using All.
  intros HR HA HB Hm Hl LR Wl. unfold ModuloLarge. rewrite kMaxNumDigits_eq in *. assert (kBurnikelThreshold = 57%nat) as Hk by done.
  destruct (Nat.ltb_spec (length B) kBurnikelThreshold).
  - pose proof (DivideSchoolbook_works 0 (length R) A B p) as Hw.
    destruct (DivideSchoolbook_spec 0 (length R) A B p HA HB Hm Hl (or_introl eq_refl) (or_intror LR)) as (qs & rs & p' & He & _ & _ & _ & D1 & D2 & D3). rewrite He in *.
    do 3 eexists. split_all; [done|done|done|done| |].
    + intros _. apply D1. lia.
    + intros Hu. by destruct (works_undisturbed p p' Hw Hu) as [U1 U2].
  - destruct (Z.ltb_spec (Z.of_nat (length A)) 67108863); [|lia]. destruct (Allocate_ok (DivideResultLength A B)) as [M1 M2]. unfold DivideResultLength in *.
    destruct (DivideBurnikelZiegler_spec (Allocate (length A - length B + 1)) R A B p M1 HR HA HB Hm ltac:(lia) ltac:(lia) ltac:(by right) ltac:(rewrite kMaxNumDigits_eq; lia))
      as (Q' & R' & p' & -> & D1 & D2 & D3 & D4 & D5 & D6).
    cbn [mbind option_bind]. do 3 eexists. split_all; [done|done|done|done| |].
    + intros Hs. apply D6; [done|lia].
    + intros Hu. by destruct (works_undisturbed p p' D5 Hu) as [U1 U2].
Qed.
End division_spec.

(** ** Tests *)

Example Burnikel_block_lengths : block_length <$> [57%nat; 58%nat; 113%nat; 114%nat; 300%nat] = [58; 58; 114; 116; 304]%nat.
Proof. by vm_compute. Qed.

(** A division in two blocks. *)
Example Burnikel_division : let A := test_digits 90 123456789012345678 in let B := test_digits 57 98765432109876543 in
  (fun r => (dval r.1.1, dval r.1.2)) <$> DivideBurnikelZiegler uninitialised (uninitialised 34) (uninitialised 57) A B quiet =
  Some (dval A / dval B, dval A mod dval B).
Proof. by vm_compute. Qed.
