(* ===== verification/CachedMod.v ===== *)
(** Remainders with a cached inverse of the divisor: src/src/bigint/bigint-inl.h (CachedMod and
    its two truncated multiplications) and src/src/bigint/bigint-internal.cc (the inverse).

    The quotient is estimated by the high part of the product with the inverse, of which the
    low columns are left out; the remainder is corrected by adding or subtracting the divisor. *)
From S2P Require Import Prelude Conversions Digits DigitsLinear DigitsMultiply DigitDivision DigitsDivide Karatsuba Burnikel.

Definition kMaxCachedModDivisorSize : nat := 32.
Definition kSmallScratchSize : nat := 100.

(** The columns from [start_position] on, written over [zs]. *)
Definition MultiplySpecialHigh (zs X Y : list Z) (start_position : nat) : list Z :=
  let loop_end := (length X + length Y - 2)%nat in
  let '(z, s) := columns (last_bounds X Y) X Y start_position (S loop_end - start_position) (Column 0 0 0 0) in
  let '(top, _) := digit_add2 (next s) (carry s) in
  take start_position zs ++ z ++ [top] ++ drop (start_position + length z + 1) zs.

Definition low_bounds (X Y : list Z) (i : nat) : nat * nat :=
  ((i - Nat.min i (length Y - 1))%nat, Nat.min i (length X - 1)).

(** The low [Z_len] digits of the product. *)
Definition MultiplySpecialLow (Z_len : nat) (X Y : list Z) : list Z :=
  let '(z0, next0) := digit_mul (X.[O]) (Y.[O]) in
  let '(z1, s) :=
    if (1 <? length Y)%nat then
      let s := BODY X Y 1 0 2 (Column next0 0 0 0) in ([zi s], s)
    else ([], Column z0 0 next0 0) in
  let i := S (length z1) in
  let loop_end := (Z_len - 1)%nat in
  let main_end := Nat.min (Nat.min (length X) (length Y)) loop_end in
  let '(z2, s) := columns main_bounds X Y i (main_end - i) s in
  let i := (i + length z2)%nat in
  let '(z3, s) := columns (low_bounds X Y) X Y i (S loop_end - i) s in
  z0 :: z1 ++ z2 ++ z3.

(** do r_high += InplaceAddAndReturnCarry(R, B) while (r_high != 0). *)
Fixpoint add_divisor (fuel : nat) (R B : list Z) (r_high : Z) : option (list Z) :=
  match fuel with
  | O => None
  | S fuel =>
    let '(R, carry) := InplaceAddAndReturnCarry R B in
    let r_high := digit (r_high + carry) in
    if negb (r_high =? 0) then add_divisor fuel R B r_high else Some R
  end.

(** while (r_high != 0 || GreaterThanOrEqual(R, B)) r_high -= InplaceSubAndReturnBorrow(R, B). *)
Fixpoint subtract_divisor (fuel : nat) (R B : list Z) (r_high : Z) : option (list Z) :=
  match fuel with
  | O => None
  | S fuel =>
    if negb (r_high =? 0) || GreaterThanOrEqual R B then
      let '(R, borrow) := InplaceSubAndReturnBorrow R B in
      subtract_divisor fuel R B (digit (r_high - borrow))
    else Some R
  end.

(** The remainder and its top digit; [scratch] is the small scratch of the processor. *)
Definition CachedMod (cached_divisor cached_inverse scratch R A : list Z) : option (list Z * Z) :=
  let B := cached_divisor in
  let inv := cached_inverse in
  let n := length B in
  let scratch := take (length A + length inv) scratch in
  let start_position := (2 * n - 2)%nat in
  let scratch :=
    if (length inv <=? length A)%nat then MultiplySpecialHigh scratch A inv start_position
    else MultiplySpecialHigh scratch inv A start_position in
  let Q := drop (2 * n) scratch in
  let product_low := MultiplySpecialLow (n + 1) B Q in
  let '(R, borrow) := SubtractAndReturnBorrow R A (take n product_low) in
  let An := if (n <? length A)%nat then A.[n] else 0 in
  let r_high := digit (digit (An - product_low.[n]) - borrow) in
  R ← if negb (Z.land r_high (Z.shiftl 1 (kDigitBits - 1)) =? 0) then add_divisor 3 R B r_high
      else subtract_divisor 3 R B r_high;
  Some (R, R.[(n - 1)%nat]).

(** CachedMod_MakeInverse: the cached inverse; [None] where a CHECK fails. *)
Definition CachedMod_MakeInverse (B : list Z) (p : Processor) : option (list Z * Processor) :=
  let n := length B in
  if msd B =? 0 then None
  else
    let A := replicate n (digit (Z.lnot 0)) ++ ((fun d => digit (Z.lnot d)) <$> B) in
    let '(Inv, _, p) := DivideSchoolbook (n + 1) 0 A B p in
    top ← Add_digit (drop n Inv) 1;
    let Inv := take n Inv ++ top in
    Inv ← if negb (Inv.[O] =? digit (Z.lnot 0)) || negb (msd Inv =? digit (Z.lnot 0)) then Add_digit Inv 1 else Some Inv;
    Some (Inv, p).

(** ** The truncated products *)

(** The columns from [start] on add up to the product without the columns below. *)
Lemma rsum_nonneg a n F : (forall j, (a <= j < a + n)%nat -> 0 <= F j) -> 0 <= rsum a n F.
Proof. revert a. induction n as [|n IH]; intros a H; simpl; [lia|]. pose proof (H a ltac:(lia)). pose proof (IH (S a) ltac:(intros; apply H; lia)). lia. Qed.

Lemma rsum_le a n F G : (forall j, (a <= j < a + n)%nat -> F j <= G j) -> rsum a n F <= rsum a n G.
Proof. revert a. induction n as [|n IH]; intros a H; simpl; [lia|]. pose proof (H a ltac:(lia)). pose proof (IH (S a) ltac:(intros; apply H; lia)). lia. Qed.

Lemma product_at_bounds X Y i j : digits_ok X -> digits_ok Y -> 0 <= product_at X Y i j <= (digit_base - 1) * (digit_base - 1).
Proof.
  intros HX HY. unfold product_at. pose proof (digit_at X j HX) as H1. pose proof (digit_at Y (i - j) HY) as H2. unfold digit_ok in *. nia.
Qed.

Lemma column_sum_nonneg X Y i : digits_ok X -> digits_ok Y -> 0 <= column_sum X Y i.
Proof. intros HX HY. apply rsum_nonneg. intros. by apply product_at_bounds. Qed.

Lemma rsum_const a n c : rsum a n (fun _ => c) = Z.of_nat n * c.
Proof. revert a. induction n as [|n IH]; intros a; simpl; [lia|]. rewrite IH. lia. Qed.

(** A column has a term for each digit of the shorter operand at most. *)
Lemma column_sum_bound X Y i : digits_ok X -> digits_ok Y -> (length Y <= length X)%nat -> (1 <= length Y)%nat ->
  column_sum X Y i <= Z.of_nat (length Y) * ((digit_base - 1) * (digit_base - 1)).
Proof.
  intros HX HY Hl H1. destruct (decide (i < length X + length Y - 1)%nat) as [Hi|Hi].
  - destruct (column_terms X Y i Hl H1 Hi) as [He Hn]. rewrite <- He.
    etransitivity; [apply rsum_le; intros; by apply product_at_bounds|]. rewrite rsum_const. apply Z.mul_le_mono_nonneg_r; [rewrite digit_base_eq; lia|lia].
  - unfold column_sum. rewrite rsum_zero; [rewrite digit_base_eq; lia|]. intros j Hj. unfold product_at.
    destruct (decide (length X <= j)%nat); [rewrite (out_of_range X) by lia; lia|]. rewrite (out_of_range Y) by lia. lia.
Qed.

(** The columns below [start] are less than a digit at [start], times the shorter length. *)
Lemma low_columns_bound X Y start : digits_ok X -> digits_ok Y -> (length Y <= length X)%nat -> (1 <= length Y)%nat ->
  0 <= rsum 0 start (fun l => weight l * column_sum X Y l) <= Z.of_nat (length Y) * ((digit_base - 1) * (weight start - 1)).
Proof.
  intros HX HY Hl H1. split.
  - apply rsum_nonneg. intros j _. pose proof (weight_pos j). pose proof (column_sum_nonneg X Y j HX HY). nia.
  - induction start as [|s IH]; [simpl; rewrite weight_0; lia|]. rewrite rsum_S_last. simpl (0 + s)%nat.
    pose proof (column_sum_bound X Y s HX HY Hl H1). pose proof (weight_pos s). rewrite weight_S.
    assert (weight s * column_sum X Y s <= weight s * (Z.of_nat (length Y) * ((digit_base - 1) * (digit_base - 1)))) by (apply Z.mul_le_mono_nonneg_l; lia). lia.
Qed.

Lemma MultiplySpecialHigh_spec zs X Y start : digits_ok zs -> digits_ok X -> digits_ok Y -> (length Y <= length X)%nat -> (1 <= length Y)%nat ->
  (length Y - 1 <= start)%nat -> (start <= length X + length Y - 1)%nat -> length zs = (length X + length Y)%nat -> Z.of_nat (length zs) < 2 ^ 32 ->
  let r := MultiplySpecialHigh zs X Y start in
  digits_ok r /\ length r = length zs /\
  weight start * dval (drop start r) = dval X * dval Y - rsum 0 start (fun l => weight l * column_sum X Y l).
Proof.
  intros Hz HX HY Hl H1 Hs Hs' Lz Wz r. subst r. unfold MultiplySpecialHigh. set (n := (S (length X + length Y - 2) - start)%nat).
  set (k := Z.of_nat (length Y) + 2). assert (k + 2 < digit_base) as Hk by (rewrite digit_base_eq; lia).
  destruct (columns _ _ _ _ _ _) as [z s] eqn:Hc.
  destruct (columns_spec (last_bounds X Y) X Y start n (Column 0 0 0 0) k z s HX HY) as (C1 & C2 & C3 & C4).
  { intros l Hr. destruct (column_terms X Y l Hl H1 ltac:(lia)) as [T1 T2]. split; [exact T1|]. simpl in T2. simpl. lia. }
  { unfold column_ok. cbn [zi next carry next_carry]. split_all; solve [by split|lia]. }
  { done. }
  { exact Hc. }
  destruct (digit_add2 (next s) (carry s)) as [top c] eqn:Ha. destruct C4 as (Q1 & Q2 & Q3 & Q4).
  destruct (digit_add2_spec _ _ _ _ Ha Q2 ltac:(unfold digit_ok; lia)) as (A1 & A2 & A3).
  assert (digits_ok (take start zs ++ z ++ [top] ++ drop (start + length z + 1) zs)) as Hok.
  { repeat apply app_ok; [by apply take_ok|done|by apply Forall_singleton|by apply drop_ok]. }
  assert (length z = n) as Ln by done. assert (start + n = length X + length Y - 1)%nat as Hn by (subst n; lia).
  split_all; [done|rewrite !length_app, length_take, length_drop, Ln; simpl; lia|].
  rewrite drop_app_length' by (rewrite length_take; lia). rewrite (drop_ge zs) by lia. rewrite app_nil_r, dval_app, Ln.
  assert (weight start * rsum 0 n (fun l => weight l * column_sum X Y (start + l)) =
    dval X * dval Y - rsum 0 start (fun l => weight l * column_sum X Y l)) as Hsum.
  { rewrite <- (columns_product X Y (start + n)) by lia. rewrite rsum_app, (rsum_offset (0 + start)), <- rsum_scale. simpl (0 + start)%nat.
    rewrite (rsum_ext 0 n _ (fun l => weight (start + l) * column_sum X Y (start + l))) by (intros; cbv beta; rewrite weight_add; lia). lia. }
  pose proof (low_columns_bound X Y start HX HY Hl H1) as [Hlow _].
  change (carried (Column 0 0 0 0)) with 0 in C1. rewrite Z.add_0_l in C1. apply (f_equal (Z.mul (weight start))) in C1. rewrite Hsum in C1.
  assert (0 <= carried s < digit_base) as Hcar.
  { split; [unfold carried, digit_ok in *; rewrite digit_base_eq in *; lia|].
    pose proof (dval_bounds X HX) as [X0 X1]. pose proof (dval_bounds Y HY) as [Y0 Y1]. pose proof (dval_bounds z C2) as [Z0 _].
    assert (dval X * dval Y < weight (length X) * weight (length Y)) as Hp by (apply Z.mul_lt_mono_nonneg; lia).
    rewrite <- weight_add in Hp. replace (length X + length Y)%nat with (S (start + n)) in Hp by lia. rewrite weight_S, weight_add in Hp.
    pose proof (weight_pos start). pose proof (weight_pos n). pose proof (Z.mul_pos_pos _ _ H H0).
    assert (weight start * weight n * carried s < weight start * weight n * digit_base) by nia. nia. }
  unfold carried in *. assert (next_carry s = 0 /\ c = 0) as [Hnc Hc0] by (unfold digit_ok in *; rewrite digit_base_eq in *; lia).
  rewrite Hnc in *. subst c. rewrite <- C1. cbn [dval]. nia.
Qed.

(** A sum of columns is the product up to a multiple of the weight above them. *)
Lemma columns_mod X Y n : rsum 0 n (fun l => weight l * column_sum X Y l) mod weight n = (dval X * dval Y) mod weight n.
Proof.
  rewrite <- (columns_product X Y (n + (length X + length Y))) by lia. rewrite rsum_app, (rsum_offset (0 + n)). simpl (0 + n)%nat.
  rewrite (rsum_ext 0 (length X + length Y) _ (fun l => weight n * (weight l * column_sum X Y (n + l)))) by (intros; cbv beta; rewrite weight_add; lia).
  rewrite rsum_scale, Z.mul_comm. symmetry. apply Z.mod_add. pose proof (weight_pos n). lia.
Qed.

Lemma columns_done_mod X Y k n zs s : columns_done X Y k n zs s -> dval zs = (dval X * dval Y) mod weight n /\ digits_ok zs /\ length zs = n.
Proof.
  intros (D1 & D2 & D3 & _). split_all; [|done|done]. rewrite <- columns_mod, <- D1, (Z.mul_comm (weight n)), Z.mod_add by (pose proof (weight_pos n); lia).
  pose proof (dval_bounds zs D2) as Hb. rewrite D3 in Hb. symmetry. by apply Z.mod_small.
Qed.

Lemma low_terms X Y l : (1 <= length X)%nat -> (1 <= length Y)%nat -> (l < length X + length Y)%nat ->
  let '(min, max) := low_bounds X Y l in
  rsum min (S max - min) (product_at X Y l) = column_sum X Y l /\ (S max - min <= length X)%nat.
Proof. intros H1 H2 Hl. simpl. split; [apply column_range; intros; lia|lia]. Qed.

Lemma MultiplySpecialLow_spec n X Y : digits_ok X -> digits_ok Y -> (2 <= length X)%nat -> (1 <= length Y)%nat ->
  (2 <= n <= length X + length Y)%nat -> Z.of_nat n < 2 ^ 32 -> (length Y <= S (length X))%nat -> Z.of_nat (length X) < 2 ^ 32 ->
  dval (MultiplySpecialLow n X Y) = (dval X * dval Y) mod weight n /\ digits_ok (MultiplySpecialLow n X Y) /\ length (MultiplySpecialLow n X Y) = n.
Proof.
  intros HX HY LX LY Hn Wn Hl WX. unfold MultiplySpecialLow. set (k := Z.of_nat (length X) + 2). assert (k + 2 < digit_base) as Hk by (rewrite digit_base_eq; lia).
  destruct (digit_mul _ _) as [z0 next0] eqn:Hm. pose proof (first_column X Y k _ _ HX HY ltac:(lia) Hm) as D0.
  assert (let s := BODY X Y 1 0 2 (Column next0 0 0 0) in exists z1 s1, (if (1 <? length Y)%nat then ([zi s], s) else ([], Column z0 0 next0 0)) = (z1, s1) /\
    columns_done X Y k (S (length z1)) (z0 :: z1) s1 /\ (S (length z1) <= 2)%nat) as Hz.
  { destruct (1 <? length Y)%nat; do 2 eexists; (split; [reflexivity|]); cbn [length]; (split; [|lia]); [|exact D0].
    apply (second_column X Y k z0 next0 HX HY ltac:(lia) D0). }
  destruct Hz as (z1 & s1 & -> & D1 & L1). cbv zeta. set (main_end := Nat.min _ _).
  destruct (columns main_bounds X Y (S (length z1)) (main_end - S (length z1)) s1) as [z2 s2] eqn:H2.
  assert (D2 := columns_more _ _ _ _ _ _ _ _ _ _ D1 H2 HX HY Hk).
  specialize (D2 ltac:(intros l Hr; cbn [main_bounds fst snd]; rewrite Nat.sub_0_r; split; [done|lia])).
  assert (length z2 = (main_end - S (length z1))%nat) as Lz.
  { destruct D2 as (_ & _ & N2 & _). rewrite length_app in N2. simpl in N2. lia. }
  rewrite <- Lz in D2. destruct (columns (low_bounds X Y) _ _ _ _ _) as [z3 s3] eqn:H3.
  assert (D3 := columns_more _ _ _ _ _ _ _ _ _ _ D2 H3 HX HY Hk).
  specialize (D3 ltac:(intros l Hr; destruct (low_terms X Y l) as [T1 T2]; [lia..|]; split; [exact T1|simpl in *; lia])).
  replace (S (length z1) + length z2 + _)%nat with n in D3 by lia.
  replace (z0 :: z1 ++ z2 ++ z3) with (((z0 :: z1) ++ z2) ++ z3) by (simpl; by rewrite <- app_assoc).
  by eapply columns_done_mod.
Qed.

(** ** The corrections *)

(** The remainder so far with its high digit. *)
Definition with_high (R : list Z) (r_high : Z) : Z := dval R + weight (length R) * r_high.

Lemma add_divisor_spec fuel R B r_high V : digits_ok R -> digits_ok B -> length R = length B -> with_high R r_high = weight (S (length B)) + V ->
  digit_ok r_high -> - dval B <= V < 0 ->
  exists R', add_divisor (S fuel) R B r_high = Some R' /\ dval R' = V + dval B /\ digits_ok R' /\ length R' = length B.
Proof.
  unfold with_high. intros HR HB Hl Hw Hh HV. rewrite weight_S, Hl in Hw. pose proof (dval_bounds R HR) as R1. pose proof (dval_bounds B HB) as B1. rewrite Hl in R1.
  assert (r_high = digit_base - 1) as -> by (unfold digit_ok in Hh; nia). cbn [add_divisor].
  destruct (InplaceAddAndReturnCarry R B) as [R' c] eqn:He. destruct (InplaceAddAndReturnCarry_spec R B R' c HR HB ltac:(lia) He) as (A1 & A2 & A3 & A4).
  pose proof (dval_bounds R' A2) as R2. rewrite A3, Hl in R2. assert (c = 1) as -> by nia.
  replace (digit_base - 1 + 1) with (1 * digit_base) by lia. rewrite digit_mod, Z.mod_mul by (rewrite digit_base_eq; lia). simpl.
  exists R'. split_all; [done|lia|done|congruence].
Qed.

Lemma subtract_divisor_spec fuel R B r_high V : digits_ok R -> digits_ok B -> length R = length B -> with_high R r_high = V -> digit_ok r_high ->
  0 <= V < Z.of_nat fuel * dval B ->
  exists R', subtract_divisor fuel R B r_high = Some R' /\ dval R' = V mod dval B /\ digits_ok R' /\ length R' = length B.
Proof.
  intros HR HB. pose proof (dval_bounds B HB) as B1. revert R r_high V HR. induction fuel as [|fuel IH]; intros R r_high V HR Hl Hw Hh HV; [lia|].
  cbn [subtract_divisor]. unfold with_high in Hw. rewrite Hl in Hw. pose proof (dval_bounds R HR) as R1. rewrite Hl in R1. pose proof (weight_pos (length B)) as Wp. unfold digit_ok in Hh.
  pose proof (GreaterThanOrEqual_spec R B HR HB) as Hg.
  destruct (Z.eqb_spec r_high 0) as [->|Hn].
  - cbn [negb orb]. destruct (GreaterThanOrEqual R B).
    + destruct (InplaceSubAndReturnBorrow R B) as [R' c] eqn:He. destruct (InplaceSubAndReturnBorrow_spec R B R' c HR HB ltac:(lia) He) as (A1 & A2 & A3 & A4).
      assert (dval B <= dval R) by by apply Hg. pose proof (dval_bounds R' A2) as R2. rewrite A3, Hl in R2. assert (c = 0) as -> by nia.
      rewrite digit_small by (unfold digit_ok; rewrite digit_base_eq; lia). destruct (IH R' (0 - 0) (V - dval B)) as (Q & -> & Q1 & Q2 & Q3); [done|congruence| |unfold digit_ok; lia|lia|].
      { unfold with_high. lia. }
      exists Q. split_all; [done| |done|done]. rewrite Q1. replace (V - dval B) with (V + (-1) * dval B) by lia. apply Z.mod_add. lia.
    + exists R. split_all; [done| |done|done]. rewrite Z.mod_small; [lia|]. split; [lia|]. destruct (Z_lt_le_dec (dval R) (dval B)) as [|Hc]; [lia|]. by apply Hg in Hc.
  - cbn [negb orb]. destruct (InplaceSubAndReturnBorrow R B) as [R' c] eqn:He. destruct (InplaceSubAndReturnBorrow_spec R B R' c HR HB ltac:(lia) He) as (A1 & A2 & A3 & A4).
    rewrite digit_small by (unfold digit_ok; lia). pose proof (dval_bounds R' A2) as R2. rewrite A3, Hl in R2.
    assert (dval B <= V) by nia. destruct (IH R' (r_high - c) (V - dval B)) as (Q & -> & Q1 & Q2 & Q3); [done|congruence| |unfold digit_ok; lia|lia|].
    { unfold with_high. rewrite A3, Hl. lia. }
    exists Q. split_all; [done| |done|done]. rewrite Q1. replace (V - dval B) with (V + (-1) * dval B) by lia. apply Z.mod_add. lia.
Qed.

(** ** The estimate *)

(** The cached inverse is the quotient of the largest dividend, or one more. *)
Definition inverse_ok (B inv : list Z) : Prop :=
  let q := (weight (2 * length B) - 1) / dval B in
  digits_ok inv /\ length inv = S (length B) /\ q <= dval inv <= q + 1.

(** An estimate of the quotient of A by B from the truncated product with the inverse: [E] is
    what the low columns leave out. *)
Lemma estimate_bounds W B I A E Q : 0 < B <= W -> 0 <= A < W -> let q := (W - 1) / B in q <= I <= q + 1 -> 0 <= E < W ->
  W * Q <= A * I - E < W * (Q + 1) -> - B < A - Q * B < 3 * B.
Proof.
  intros HB HA q HI HE HQ. pose proof (Z_div_mod_eq_full (W - 1) B) as Hq. pose proof (Z.mod_pos_bound (W - 1) B ltac:(lia)) as Hm. fold q in Hq.
  assert (A * q <= A * I <= A * (q + 1)) as Ha by nia.
  assert (W * (Q * B) <= W * (A + B - 1)) as H1.
  { assert (W * Q * B <= A * (q + 1) * B) by (apply Z.mul_le_mono_nonneg_r; lia). assert (A * (B * q) <= A * (W - 1)) by (apply Z.mul_le_mono_nonneg_l; lia). nia. }
  assert (W * ((Q + 2) * B) > W * (A - B)) as H2.
  { assert (W * (Q + 2) * B > A * q * B) by nia. assert (A * (W - B) <= A * (B * q)) by (apply Z.mul_le_mono_nonneg_l; lia). nia. }
  split; nia.
Qed.

Lemma SubtractAndReturnBorrow_low zs X Y zs' c : digits_ok X -> digits_ok Y -> (length Y <= length X)%nat -> length zs = length Y ->
  SubtractAndReturnBorrow zs X Y = (zs', c) ->
  dval zs' - weight (length Y) * c = dval (take (length Y) X) - dval Y /\ digits_ok zs' /\ length zs' = length Y /\ 0 <= c <= 1.
Proof.
  intros HX HY Hl Hz. unfold SubtractAndReturnBorrow. rewrite <- zip_take. destruct (carry_loop _ _ _) as [ds c'] eqn:He. intros [= <- <-].
  assert (length (take (length Y) X) = length Y) as Ht by (rewrite length_take; lia).
  destruct (sub2_loop_spec _ _ 0 _ _ (take_ok _ _ HX) HY Ht ltac:(lia) He) as (A1 & A2 & A3 & A4). rewrite Ht in *.
  rewrite drop_ge by lia. rewrite app_nil_r. split_all; [lia|done|done|lia|lia].
Qed.

Lemma dval_take_mod X n : digits_ok X -> (n <= length X)%nat -> dval (take n X) = dval X mod weight n.
Proof.
  intros HX Hn. rewrite (dval_take_drop n X), length_take, Nat.min_l, Z.mul_comm, Z.mod_add by (pose proof (weight_pos n); lia).
  symmetry. apply Z.mod_small. by apply dval_take_small.
Qed.

(** The digit at [n], which is zero beyond the end. *)
Lemma low_and_digit X n : digits_ok X -> (n <= length X)%nat -> dval (take n X) + weight n * X.[n] = dval X mod weight (S n).
Proof.
  intros HX Hn. rewrite (dval_at X n). pose proof (dval_take_small X n HX). pose proof (digit_at X n HX) as Hd. unfold digit_ok in Hd. pose proof (weight_pos n).
  replace (dval (take n X) + weight n * (X.[n] + digit_base * dval (drop (S n) X))) with ((dval (take n X) + weight n * X.[n]) + dval (drop (S n) X) * weight (S n)) by (rewrite weight_S; ring).
  rewrite Z.mod_add by (pose proof (weight_pos (S n)); lia). symmetry. apply Z.mod_small. rewrite weight_S. split; [nia|].
  assert (weight n * X.[n] <= weight n * (digit_base - 1)) by (apply Z.mul_le_mono_nonneg_l; lia). lia.
Qed.

(** The part of the product that the estimate uses. *)
Lemma truncated_quotient zs X Y n : digits_ok zs -> digits_ok X -> digits_ok Y -> (length Y <= length X)%nat -> (1 <= length Y)%nat ->
  (2 <= n)%nat -> (length Y - 1 <= 2 * n - 2)%nat -> (2 * n <= length X + length Y)%nat -> length zs = (length X + length Y)%nat ->
  Z.of_nat (length Y) < digit_base -> Z.of_nat (length zs) < 2 ^ 32 ->
  let Q := drop (2 * n) (MultiplySpecialHigh zs X Y (2 * n - 2)) in
  exists E, 0 <= E < weight (2 * n) /\ digits_ok Q /\ length Q = (length X + length Y - 2 * n)%nat /\
    weight (2 * n) * dval Q <= dval X * dval Y - E < weight (2 * n) * (dval Q + 1).
Proof.
  intros Hz HX HY Hl H1 Hn Hs Hq Lz WY Wz Q. subst Q. destruct (MultiplySpecialHigh_spec zs X Y (2 * n - 2) Hz HX HY Hl H1 Hs ltac:(lia) Lz Wz) as (M1 & M2 & M3).
  set (r := MultiplySpecialHigh zs X Y (2 * n - 2)) in *. eexists. split; [|split_all; [by apply drop_ok|rewrite length_drop; lia|..]].
  - destruct (low_columns_bound X Y (2 * n - 2) HX HY Hl H1) as [E0 E1]. split; [exact E0|]. eapply Z.le_lt_trans; [exact E1|].
    replace (2 * n)%nat with (S (S (2 * n - 2))) at 2 by lia. rewrite !weight_S. pose proof (weight_pos (2 * n - 2)). pose proof digit_base_pos.
    assert (Z.of_nat (length Y) * ((digit_base - 1) * (weight (2 * n - 2) - 1)) <= digit_base * ((digit_base - 1) * (weight (2 * n - 2) - 1))) by (apply Z.mul_le_mono_nonneg_r; nia). nia.
  - rewrite <- M3, (dval_take_drop 2 (drop (2 * n - 2) r)), drop_drop. replace (2 * n - 2 + 2)%nat with (2 * n)%nat by lia.
    assert (length (take 2 (drop (2 * n - 2) r)) = 2%nat) as -> by (rewrite length_take, length_drop; lia).
    replace (weight (2 * n)) with (weight (2 * n - 2) * weight 2) by (rewrite <- weight_add; f_equal; lia).
    pose proof (dval_take_small (drop (2 * n - 2) r) 2 (drop_ok _ _ M1)). pose proof (weight_pos (2 * n - 2)). nia.
  - rewrite <- M3, (dval_take_drop 2 (drop (2 * n - 2) r)), drop_drop. replace (2 * n - 2 + 2)%nat with (2 * n)%nat by lia.
    assert (length (take 2 (drop (2 * n - 2) r)) = 2%nat) as -> by (rewrite length_take, length_drop; lia).
    replace (weight (2 * n)) with (weight (2 * n - 2) * weight 2) by (rewrite <- weight_add; f_equal; lia).
    pose proof (dval_take_small (drop (2 * n - 2) r) 2 (drop_ok _ _ M1)). pose proof (weight_pos (2 * n - 2)). nia.
Qed.

(** The digits of a difference modulo the weight above its high digit. *)
Lemma high_of_difference R rh V n : 0 <= dval R < weight n -> length R = n -> digit_ok rh -> (with_high R rh - V) mod weight (S n) = 0 ->
  - weight n <= V < 3 * weight n ->
  if negb (Z.land rh (Z.shiftl 1 (kDigitBits - 1)) =? 0) then with_high R rh = weight (S n) + V /\ V < 0 else with_high R rh = V /\ 0 <= V.
Proof.
  unfold with_high. intros HR Hl Hh Hm HV. rewrite Hl in *. change (Z.shiftl 1 (kDigitBits - 1)) with (2 ^ 63).
  apply Z.mod_divide in Hm; [|pose proof (weight_pos (S n)); lia]. destruct Hm as [k Hk]. rewrite weight_S in *. pose proof (weight_pos n). unfold digit_ok in Hh.
  assert (Z.testbit rh 63 = (2 ^ 63 <=? rh)) as Hb.
  { rewrite digit_base_eq in Hh. rewrite Z.testbit_eqb by lia. destruct (Z.leb_spec (2 ^ 63) rh).
    - rewrite <- (Z.div_unique_pos rh (2 ^ 63) 1 (rh - 2 ^ 63)) by lia. done.
    - rewrite Z.div_small by lia. done. }
  assert ((Z.land rh (2 ^ 63) =? 0) = negb (Z.testbit rh 63)) as Hland.
  { destruct (Z.testbit rh 63) eqn:Ht; cbn [negb].
    - apply Z.eqb_neq. intros He. apply (f_equal (fun z => Z.testbit z 63)) in He. rewrite Z.land_spec, Ht, Z.pow2_bits_true, Z.bits_0 in He by lia. done.
    - apply Z.eqb_eq. apply Z.bits_inj'. intros i Hi. rewrite Z.land_spec, Z.bits_0, Z.pow2_bits_eqb by lia. destruct (Z.eqb_spec 63 i) as [<-|]; [by rewrite Ht|apply andb_false_r]. }
  rewrite Hland, negb_involutive, Hb. rewrite digit_base_eq in *.
  assert (k = 0 \/ k = 1) as [-> | ->] by nia.
  - assert (0 <= rh < 3) by nia. destruct (Z.leb_spec (2 ^ 63) rh); lia.
  - assert (rh = 18446744073709551615) by nia. destruct (Z.leb_spec (2 ^ 63) rh); [split; nia|lia].
Qed.

Lemma digit_difference a b c : digit (digit (a - b) - c) = digit (a - b - c).
Proof. rewrite !digit_mod. apply Zminus_mod_idemp_l. Qed.

(** What the subtraction of the low digits leaves, modulo the weight above the high digit. *)
Lemma low_difference A P R b n : digits_ok A -> digits_ok P -> (n <= length A)%nat -> length P = S n -> length R = n ->
  dval R - weight n * b = dval (take n A) - dval (take n P) ->
  (with_high R (digit (A.[n] - P.[n] - b)) - (dval A - dval P)) mod weight (S n) = 0.
Proof.
  intros HA HP LA LP LR HR. unfold with_high. rewrite LR. pose proof (low_and_digit A n HA LA) as H1. pose proof (low_and_digit P n HP ltac:(lia)) as H2.
  pose proof (weight_pos (S n)) as Hw. pose proof (digit_split (A.[n] - P.[n] - b)) as Hd. set (h := digit _) in *.
  rewrite Zminus_mod, (Zminus_mod (dval A)), <- H1, <- H2, <- Zminus_mod.
  replace (dval R + weight n * h - _) with ((- ((A.[n] - P.[n] - b) / digit_base)) * weight (S n)); [by rewrite Z.mod_mul by lia|].
  rewrite weight_S. apply (f_equal (Z.mul (weight n))) in Hd. lia.
Qed.

Lemma CachedMod_spec B inv scratch R A : digits_ok B -> (2 <= length B <= kMaxCachedModDivisorSize)%nat -> 0 < dval B -> inverse_ok B inv ->
  digits_ok scratch -> length scratch = kSmallScratchSize -> digits_ok A -> (length B <= length A <= 2 * length B)%nat -> length R = length B ->
  exists R', CachedMod B inv scratch R A = Some (R', top_digit R') /\ dval R' = dval A mod dval B /\ digits_ok R' /\ length R' = length B.
Proof.
  intros HB LB PB (HI & LI & BI) Hs Ls HA LA LR. set (n := length B) in *. unfold kMaxCachedModDivisorSize, kSmallScratchSize in *.
  unfold CachedMod. fold n. set (s := take _ scratch). assert (digits_ok s /\ length s = (length A + length inv)%nat) as [Os Lns].
  { split; [by apply take_ok|]. subst s. rewrite length_take. lia. }
  set (r := if (length inv <=? length A)%nat then _ else _).
  assert (exists E, 0 <= E < weight (2 * n) /\ digits_ok (drop (2 * n) r) /\ length (drop (2 * n) r) = (length A + length inv - 2 * n)%nat /\
    weight (2 * n) * dval (drop (2 * n) r) <= dval A * dval inv - E < weight (2 * n) * (dval (drop (2 * n) r) + 1)) as (E & E1 & E2 & E3 & E4).
  { subst r. destruct (Nat.leb_spec (length inv) (length A)).
    - apply truncated_quotient; try done; try lia. rewrite digit_base_eq. lia.
    - rewrite (Nat.add_comm (length A)), (Z.mul_comm (dval A)). apply truncated_quotient; try done; try lia. rewrite digit_base_eq. lia. }
  set (Q := drop (2 * n) r) in *. clearbody Q. clear r.
  destruct (MultiplySpecialLow_spec (n + 1) B Q HB E2 ltac:(lia) ltac:(lia) ltac:(lia) ltac:(lia) ltac:(lia) ltac:(lia)) as (P1 & P2 & P3).
  set (P := MultiplySpecialLow (n + 1) B Q) in *. clearbody P. rewrite Nat.add_1_r in *.
  destruct (SubtractAndReturnBorrow R A (take n P)) as [R1 b] eqn:Hb.
  assert (length (take n P) = n) as Lt by (rewrite length_take; lia).
  destruct (SubtractAndReturnBorrow_low R A (take n P) R1 b HA (take_ok _ _ P2) ltac:(lia) ltac:(congruence) Hb) as (S1 & S2 & S3 & S4). rewrite Lt in *.
  assert ((if (n <? length A)%nat then A.[n] else 0) = A.[n]) as ->.
  { destruct (Nat.ltb_spec n (length A)); [done|]. symmetry. apply out_of_range. lia. }
  rewrite digit_difference. set (rh := digit (A.[n] - P.[n] - b)).
  pose proof (low_difference A P R1 b n HA P2 ltac:(lia) ltac:(lia) S3 S1) as Hm. fold rh in Hm.
  pose proof (dval_bounds A HA) as Ab. pose proof (dval_bounds B HB) as Bb. fold n in Bb.
  assert (dval A < weight (2 * n)) as Aw by (pose proof (weight_mono (length A) (2 * n) ltac:(lia)); lia).
  pose proof (estimate_bounds (weight (2 * n)) (dval B) (dval inv) (dval A) E (dval Q)
    ltac:(pose proof (weight_mono n (2 * n) ltac:(lia)); lia) ltac:(lia) BI E1 E4) as HV.
  set (V := dval A - dval Q * dval B) in *.
  assert ((with_high R1 rh - V) mod weight (S n) = 0) as HmV.
  { apply Z.mod_divide in Hm; [|pose proof (weight_pos (S n)); lia]. destruct Hm as [k Hk]. rewrite P1 in Hk.
    pose proof (Z_div_mod_eq_full (dval B * dval Q) (weight (S n))) as Hd. apply Z.mod_divide; [pose proof (weight_pos (S n)); lia|].
    exists (k + dval B * dval Q / weight (S n)). subst V. lia. }
  pose proof (dval_bounds R1 S2) as R1b. rewrite S3 in R1b.
  pose proof (high_of_difference R1 rh V n R1b S3 (digit_bounds _) HmV ltac:(lia)) as Hh.
  assert (exists R', (if negb (Z.land rh (Z.shiftl 1 (kDigitBits - 1)) =? 0) then add_divisor 3 R1 B rh else subtract_divisor 3 R1 B rh) = Some R' /\
    dval R' = dval A mod dval B /\ digits_ok R' /\ length R' = n) as (R' & -> & Q1 & Q2 & Q3).
  { destruct (negb _).
    - destruct Hh as [W1 W2]. destruct (add_divisor_spec 2 R1 B rh V S2 HB S3 W1 (digit_bounds _) ltac:(lia)) as (R' & ? & Q1 & Q2 & Q3). exists R'. split_all; [done| |done|done].
      rewrite Q1. apply (Z.mod_unique_pos _ _ (dval Q - 1)); [lia|]. subst V. lia.
    - destruct Hh as [W1 W2]. destruct (subtract_divisor_spec 3 R1 B rh V S2 HB S3 W1 (digit_bounds _) ltac:(lia)) as (R' & ? & Q1 & Q2 & Q3). exists R'. split_all; [done| |done|done].
      rewrite Q1. subst V. replace (dval A - dval Q * dval B) with (dval A + (- dval Q) * dval B) by ring. apply Z.mod_add. lia. }
  cbn [mbind option_bind]. exists R'. split_all; [|done|done|done]. f_equal. f_equal. unfold top_digit. rewrite nth_lookup, last_lookup, Q3, Nat.sub_1_r. done.
Qed.

(** ** The inverse *)

Lemma digit_lnot d : digit_ok d -> digit (Z.lnot d) = digit_base - 1 - d.
Proof.
  intros Hd. unfold digit_ok in Hd. rewrite digit_mod. unfold Z.lnot. symmetry. apply (Z.mod_unique_pos _ _ (-1)); lia.
Qed.

Lemma complement_spec B : digits_ok B ->
  dval ((fun d => digit (Z.lnot d)) <$> B) = weight (length B) - 1 - dval B /\ digits_ok ((fun d => digit (Z.lnot d)) <$> B).
Proof.
  intros HB. split; [|apply Forall_fmap, Forall_forall; intros; apply digit_bounds].
  induction B as [|d B IH]; [done|]. apply Forall_cons in HB as [Hd HB]. rewrite fmap_cons. cbn [dval length]. rewrite IH, digit_lnot, weight_S by done. lia.
Qed.

(** The trick with the dividend: 2^(2n) - (B << n) - 1 in place of 2^(2n) - 1. *)
Lemma inverse_dividend B : digits_ok B ->
  dval (replicate (length B) (digit (Z.lnot 0)) ++ ((fun d => digit (Z.lnot d)) <$> B)) = weight (2 * length B) - 1 - weight (length B) * dval B.
Proof.
  intros HB. destruct (complement_spec B HB) as [C1 _]. rewrite dval_app, C1, length_replicate. change (digit (Z.lnot 0)) with (digit_base - 1). rewrite dval_ones.
  replace (2 * length B)%nat with (length B + length B)%nat by lia. rewrite weight_add. lia.
Qed.

Lemma not_full X : digits_ok X -> X <> [] -> X.[O] <> digit_base - 1 \/ msd X <> digit_base - 1 -> dval X + 1 < weight (length X).
Proof.
  intros HX Hn Hd. destruct (decide (dval X + 1 < weight (length X))) as [|Hc]; [done|exfalso].
  pose proof (dval_bounds X HX). assert (dval X = weight (length X) - 1) as Hv by lia. rewrite <- dval_ones in Hv.
  apply dval_inj in Hv; [|done|apply Forall_replicate; unfold digit_ok; rewrite digit_base_eq; lia|by rewrite length_replicate].
  destruct X as [|x X]; [done|]. rewrite Hv in Hd. unfold msd in Hd. rewrite length_replicate, !nth_lookup, !lookup_replicate_2 in Hd by (simpl; lia).
  simpl in Hd. by destruct Hd.
Qed.

Lemma CachedMod_MakeInverse_spec B p : digits_ok B -> (2 <= length B)%nat -> msd B <> 0 ->
  exists inv p', CachedMod_MakeInverse B p = Some (inv, p') /\ inverse_ok B inv /\ works p p'.
Proof.
  intros HB LB Hm. unfold CachedMod_MakeInverse. rewrite (proj2 (Z.eqb_neq _ _) Hm). set (n := length B) in *. set (A := replicate n _ ++ _).
  pose proof (inverse_dividend B HB) as HA. fold n A in HA. destruct (complement_spec B HB) as [_ C2].
  assert (digits_ok A /\ length A = (2 * n)%nat) as [OA LA].
  { subst A. split; [apply app_ok; [apply Forall_replicate, digit_bounds|done]|rewrite length_app, length_replicate, length_fmap; lia]. }
  assert (B <> []) as NB by (intros He; subst n; rewrite He in LB; simpl in LB; lia).
  pose proof (msd_bounds B HB NB) as Bb. fold n in Bb. pose proof (dval_bounds B HB) as Bb'. fold n in Bb'. pose proof (digit_at B (n - 1) HB) as Hd. change (B.[(n - 1)%nat]) with (msd B) in Hd. unfold digit_ok in Hd.
  pose proof (weight_pos (n - 1)) as Wp. assert (weight (n - 1) <= dval B) as B1 by nia. set (q := (weight (2 * n) - 1) / dval B).
  assert (dval A / dval B = q - weight n) as Hq.
  { rewrite HA. replace (weight (2 * n) - 1 - weight n * dval B) with (weight (2 * n) - 1 + (- weight n) * dval B) by ring. rewrite Z.div_add by lia. subst q. lia. }
  assert (q < weight (n + 1)) as Hq1.
  { subst q. apply Z.div_lt_upper_bound; [lia|]. replace (2 * n)%nat with (n - 1 + (n + 1))%nat by lia. rewrite weight_add. pose proof (weight_pos (n + 1)). nia. }
  assert (weight n <= q) as Hq0.
  { subst q. apply Z.div_le_lower_bound; [lia|]. replace (2 * n)%nat with (n + n)%nat by lia. rewrite weight_add. nia. }
  destruct (DivideSchoolbook_spec (n + 1) 0 A B p OA HB Hm ltac:(lia) ltac:(right; rewrite Hq; pose proof (weight_pos n); lia) (or_introl eq_refl))
    as (Inv & R & p' & He & D1 & D2 & D3 & _).
  pose proof (DivideSchoolbook_works (n + 1) 0 A B p) as Hw. rewrite He in *. cbn [snd] in Hw. specialize (D1 ltac:(lia)). rewrite Hq in D1.
  assert (length (drop n Inv) = 1%nat) as Ld by (rewrite length_drop; lia). assert (length (take n Inv) = n) as Lt by (rewrite length_take; lia).
  pose proof (dval_take_drop n Inv) as Hs. rewrite Lt in Hs. pose proof (dval_take_small Inv n D2) as Ht. pose proof (dval_bounds (drop n Inv) (drop_ok _ _ D2)) as Hdb. rewrite Ld, weight_S, weight_0 in Hdb.
  rewrite Nat.add_1_r, weight_S in Hq1. pose proof (weight_pos n) as Wn.
  destruct (Add_digit_spec (drop n Inv) 1 (drop_ok _ _ D2)) as (top & -> & T1 & T2 & T3); [unfold digit_ok; rewrite digit_base_eq; lia|by intros He'; rewrite He' in Ld|rewrite Ld, weight_S, weight_0; nia|].
  cbn [mbind option_bind]. set (Inv1 := take n Inv ++ top). assert (digits_ok Inv1) as O1 by (apply app_ok; [by apply take_ok|done]).
  assert (length Inv1 = S n) as L1 by (subst Inv1; rewrite length_app, Lt, T3, Ld; lia).
  assert (dval Inv1 = q) as V1 by (subst Inv1; rewrite dval_app, Lt, T1; lia).
  change (digit (Z.lnot 0)) with (digit_base - 1).
  destruct (negb _ || negb _) eqn:Hfull.
  - assert (dval Inv1 + 1 < weight (length Inv1)) as Hlt.
    { apply not_full; [done|intros He'; by rewrite He' in L1|]. apply orb_true_iff in Hfull as [Hf|Hf]; apply negb_true_iff, Z.eqb_neq in Hf; auto. }
    destruct (Add_digit_spec Inv1 1 O1) as (Inv2 & -> & I1 & I2 & I3); [unfold digit_ok; rewrite digit_base_eq; lia|intros He'; by rewrite He' in L1|done|].
    do 2 eexists. split_all; [done| |done]. unfold inverse_ok. fold n q. split_all; [done|congruence|lia|lia].
  - do 2 eexists. split_all; [done| |done]. unfold inverse_ok. fold n q. split_all; [done|done|lia|lia].
Qed.

(** ** Tests *)

Example cached_mod : let B := test_digits 20 98765432109876543 in let A := test_digits 33 123456789012345678 in
  (CachedMod_MakeInverse B quiet ≫= fun r => CachedMod B r.1 (uninitialised 100) (uninitialised 20) A) = Some ((fun R => (R, top_digit R)) (DivideSchoolbook 0 20 A B quiet).1.2).
Proof. by vm_compute. Qed.

(** The comment bounds the error of the left-out columns by 2 * base^(start + 1): here it is larger. *)
Example special_high_error : let Y := replicate 5 (digit_base - 1) in let X := replicate 8 (digit_base - 1) in let start := 6%nat in
  2 * weight (start + 1) < dval X * dval Y - weight start * dval (drop start (MultiplySpecialHigh (replicate 13 0) X Y start)).
Proof. by vm_compute. Qed.

(** These operands are a cached inverse and a dividend. *)
Example special_high_operands : let B := [0; 0; 0; 1] in (fst <$> CachedMod_MakeInverse B quiet) = Some (replicate 5 (digit_base - 1)).
Proof. by vm_compute. Qed.
