(* ===== verification/BigIntObjects.v ===== *)
(** The operations of JavaScript BigInts in C++ (src/src/objects/bigint.cc): canonical form,
    arithmetic, comparison and conversion to and from machine integers, on top of the digit
    vectors of src/src/bigint. The record of a BigInt is the one of JSHeap. *)
From S2P Require Import Prelude Conversions JSHeap Digits DigitsLinear DigitsMultiply DigitsDivide DigitsBitwise Karatsuba Burnikel.

(** ** Completions *)

(** A value, a RangeError (the result is too long, a division by zero, a negative exponent),
    the termination of the execution, or the end of the process (a failed CHECK). *)
Inductive completion (A : Type) :=
| Value (a : A)
| TooBig
| DivZero
| MustBePositive
| Terminated
| Fatal.
Arguments Value {A} a.
Arguments TooBig {A}.
Arguments DivZero {A}.
Arguments MustBePositive {A}.
Arguments Terminated {A}.
Arguments Fatal {A}.

#[export] Instance completion_ret : MRet completion := fun A a => Value a.
#[export] Instance completion_bind : MBind completion := fun A B k r =>
  match r with
  | Value a => k a
  | TooBig => TooBig
  | DivZero => DivZero
  | MustBePositive => MustBePositive
  | Terminated => Terminated
  | Fatal => Fatal
  end.

(** ToHandleChecked, and library calls that stay in range. *)
Definition checked {A} (r : completion A) : completion A := match r with Value a => Value a | _ => Fatal end.
Definition in_range {A} (r : option A) : completion A := match r with Some a => Value a | None => Fatal end.

(** ** Objects *)

Definition kMaxBitsBits : Z := 30.
Definition kMaxLength : Z := (2 ^ kMaxBitsBits - 1) / (8 * 8).
Definition kMaxBits : Z := kMaxLength * 8 * 8.

Definition is_zero (x : bigint) : bool := (length (digits x) =? 0)%nat.

(** The length field is cut; zero has no sign. *)
Definition CanonicalizeSlow (sign : bool) (result : list Z) (old_length : nat) : bigint :=
  let new_length := if (0 <? old_length)%nat then Normalize_loop result (old_length - 1) else old_length in
  let to_trim := (old_length - new_length)%nat in
  if negb (to_trim =? 0)%nat then mkBigInt (if (new_length =? 0)%nat then false else sign) (take new_length result)
  else mkBigInt sign result.

Definition MakeImmutable (sign : bool) (result : list Z) : bigint :=
  let old_length := length result in
  if (0 <? old_length)%nat && negb (result.[old_length - 1] =? 0) then mkBigInt sign result
  else CanonicalizeSlow sign result old_length.

(** The overload with a known top digit. *)
Definition MakeImmutable_top (sign : bool) (result : list Z) (length : nat) (top_digit : Z) : bigint :=
  if top_digit =? 0 then CanonicalizeSlow sign result length else mkBigInt sign result.

Definition Zero : bigint := MakeImmutable false [].

Definition NewFromInt (value : Z) : bigint :=
  if value =? 0 then Zero
  else
    let sign := value <? 0 in
    MakeImmutable sign [if negb sign then digit value else if value =? - 2 ^ 31 then digit (2 ^ 31 - 1) + 1 else digit (- value)].

(** ** Comparison *)

Inductive ComparisonResult := kLessThan | kEqual | kGreaterThan | kUndefined.

Definition UnequalSign (left_negative : bool) : ComparisonResult := if left_negative then kLessThan else kGreaterThan.
Definition AbsoluteGreater (both_negative : bool) : ComparisonResult := if both_negative then kLessThan else kGreaterThan.
Definition AbsoluteLess (both_negative : bool) : ComparisonResult := if both_negative then kGreaterThan else kLessThan.

Definition CompareToBigInt (x y : bigint) : ComparisonResult :=
  let x_sign := sign x in
  if xorb x_sign (sign y) then UnequalSign x_sign
  else
    let result := Compare (digits x) (digits y) in
    if 0 <? result then AbsoluteGreater x_sign
    else if result <? 0 then AbsoluteLess x_sign
    else kEqual.

Definition EqualToBigInt (x y : bigint) : bool :=
  if xorb (sign x) (sign y) then false
  else if negb (length (digits x) =? length (digits y))%nat then false
  else forallb (fun i => (digits x).[i] =? (digits y).[i]) (seq 0 (length (digits x))).

(** The value of a Smi is a 32-bit integer. *)
Definition EqualToSmi (x : bigint) (value : Z) : bool :=
  if value =? 0 then is_zero x
  else (length (digits x) =? 1)%nat && Bool.eqb (sign x) (value <? 0) && ((digits x).[O] =? digit (Z.abs value)).

Definition CompareToSmi (x : bigint) (y_value : Z) : ComparisonResult :=
  let x_sign := sign x in
  let y_sign := y_value <? 0 in
  if xorb x_sign y_sign then UnequalSign x_sign
  else if is_zero x then (if y_value =? 0 then kEqual else kLessThan)
  else if (1 <? length (digits x))%nat then AbsoluteGreater x_sign
  else
    let abs_value := digit (Z.abs y_value) in
    let x_digit := (digits x).[O] in
    if abs_value <? x_digit then AbsoluteGreater x_sign
    else if x_digit <? abs_value then AbsoluteLess x_sign
    else kEqual.

(** ** 64-bit integers *)

Definition FromInt64 (n : Z) : bigint :=
  if n =? 0 then Zero
  else
    let sign := n <? 0 in
    let absolute :=
      if negb sign then wrap 64 n
      else if n =? - 2 ^ 63 then wrap 64 (wrap 64 (2 ^ 63 - 1) + 1)
      else wrap 64 (- n) in
    MakeImmutable sign [absolute].

Definition FromUint64 (n : Z) : bigint := if n =? 0 then Zero else MakeImmutable false [n].

(** The raw bits and whether they are lossless. *)
Definition GetRawBits (x : bigint) : Z * bool :=
  if is_zero x then (0, true)
  else
    let lossless := negb (1 <? length (digits x))%nat in
    let raw := (digits x).[O] in
    (if sign x then wrap 64 (wrap 64 (Z.lnot raw) + 1) else raw, lossless).

Definition AsInt64 (x : bigint) : Z * bool :=
  let '(raw, lossless) := GetRawBits x in
  let result := swrap 64 raw in
  (result, if xorb (result <? 0) (sign x) then false else lossless).

Definition AsUint64 (x : bigint) : Z * bool :=
  let '(result, lossless) := GetRawBits x in
  (result, if sign x then false else lossless).

Definition Words64Count (x : bigint) : nat := length (digits x).

(** The sign bit, the number of words of the BigInt, and the words that fit. *)
Definition ToWordsArray64 (x : bigint) (available_words : nat) : bool * nat * list Z :=
  (sign x, Words64Count x, take available_words (digits x)).

(** ** Operations that allocate *)

Section operations.
Context (Allocate : nat -> list Z).

(** MutableBigInt::New: the digits of the result are not initialised. *)
Definition New (length : nat) : completion (list Z) :=
  if kMaxLength <? Z.of_nat length then TooBig else Value (Allocate length).

(** The digits of the copy. *)
Definition Copy (source : bigint) : completion (list Z) :=
  result ← checked (New (length (digits source)));
  Value (digits source ++ drop (length (digits source)) result).

Definition FromWords64 (sign_bit : bool) (words64_count : nat) (words : list Z) : completion bigint :=
  if kMaxLength <? Z.of_nat words64_count then TooBig
  else if (words64_count =? 0)%nat then Value Zero
  else
    result ← New words64_count;
    Value (MakeImmutable sign_bit (take words64_count words ++ drop words64_count result)).

Definition AbsoluteAddOne (x : list Z) : completion (list Z) :=
  let input_length := length x in
  let will_overflow := forallb digit_ismax x in
  let result_length := (input_length + if will_overflow then 1 else 0)%nat in
  result ← New result_length;
  if (input_length =? 0)%nat then Value (<[0%nat := 1]> result)
  else if (input_length =? 1)%nat && negb will_overflow then Value (<[0%nat := digit (x.[O] + 1)]> result)
  else Value (AddOne (length result) x).

Definition AbsoluteSubOne (x : list Z) : completion (list Z) :=
  let length := length x in
  result ← checked (New length);
  if (length =? 1)%nat then Value (<[0%nat := digit (x.[O] - 1)]> result)
  else in_range (SubtractOne (List.length result) x).

Definition UnaryMinus (x : bigint) : completion bigint :=
  if is_zero x then Value x
  else
    result ← Copy x;
    Value (MakeImmutable (negb (sign x)) result).

Definition BitwiseNot (x : bigint) : completion bigint :=
  if sign x then result ← AbsoluteSubOne (digits x); Value (MakeImmutable false result)
  else result ← AbsoluteAddOne (digits x); Value (MakeImmutable true result).

Definition Increment (x : bigint) : completion bigint :=
  if sign x then result ← AbsoluteSubOne (digits x); Value (MakeImmutable true result)
  else result ← AbsoluteAddOne (digits x); Value (MakeImmutable false result).

Definition Decrement (x : bigint) : completion bigint :=
  if sign x then result ← AbsoluteAddOne (digits x); Value (MakeImmutable true result)
  else if is_zero x then Value (NewFromInt (-1))
  else result ← AbsoluteSubOne (digits x); Value (MakeImmutable false result).

Definition AddResultLength (x_length y_length : nat) : nat := (Nat.max x_length y_length + 1)%nat.
Definition AddSignedResultLength (x_length y_length : nat) (same_sign : bool) : nat :=
  if same_sign then AddResultLength x_length y_length else Nat.max x_length y_length.
Definition SubtractSignedResultLength (x_length y_length : nat) (same_sign : bool) : nat :=
  if same_sign then Nat.max x_length y_length else AddResultLength x_length y_length.

Definition Add (x y : bigint) : completion bigint :=
  if is_zero x then Value y
  else if is_zero y then Value x
  else
    result ← New (AddSignedResultLength (length (digits x)) (length (digits y)) (Bool.eqb (sign x) (sign y)));
    let '(result, result_sign) := AddSigned (length result) (digits x) (sign x) (digits y) (sign y) in
    Value (MakeImmutable result_sign result).

Definition Subtract (x y : bigint) : completion bigint :=
  if is_zero y then Value x
  else if is_zero x then UnaryMinus y
  else
    result ← New (SubtractSignedResultLength (length (digits x)) (length (digits y)) (Bool.eqb (sign x) (sign y)));
    let '(result, result_sign) := SubtractSigned (length result) (digits x) (sign x) (digits y) (sign y) in
    Value (MakeImmutable result_sign result).

Definition AsIntN (n : Z) (x : bigint) : completion bigint :=
  if is_zero x || (kMaxBits <? n) then Value x
  else if n =? 0 then Value Zero
  else
    match AsIntNResultLength (digits x) (sign x) n with
    | None => Value x
    | Some needed_length =>
      result ← checked (New needed_length);
      let '(result, negative) := DigitsBitwise.AsIntN (digits x) (sign x) n in
      Value (MakeImmutable negative result)
    end.

Definition AsUintN (n : Z) (x : bigint) : completion bigint :=
  if is_zero x then Value x
  else if n =? 0 then Value Zero
  else if sign x then
    if kMaxBits <? n then TooBig
    else
      result ← checked (New (AsUintN_Neg_ResultLength n));
      Value (MakeImmutable false (AsUintN_Neg (digits x) n))
  else if kMaxBits <=? n then Value x
  else
    match AsUintN_Pos_ResultLength (digits x) n with
    | None => Value x
    | Some result_length =>
      result ← checked (New result_length);
      Value (MakeImmutable false (AsUintN_Pos (digits x) n))
    end.

(** ** Operations of the processor *)

Definition MultiplyResultLength (X Y : list Z) : nat := (length X + length Y)%nat.
Definition ModuloResultLength (B : list Z) : nat := length B.

(** What is left of a library call: the status is [true] when it was interrupted. *)
Definition finish (r : option (list Z * bool * Processor)) (result_sign : bool) (p : Processor) : completion bigint * Processor :=
  match r with
  | None => (Fatal, p)
  | Some (result, true, p) => (Terminated, p)
  | Some (result, false, p) => (Value (MakeImmutable result_sign result), p)
  end.

Definition Multiply (x y : bigint) (p : Processor) : completion bigint * Processor :=
  if is_zero x then (Value x, p)
  else if is_zero y then (Value y, p)
  else
    match New (MultiplyResultLength (digits x) (digits y)) with
    | Value zs =>
      let result_sign := xorb (sign x) (sign y) in
      match MultiplySmall (length zs) (digits x) (digits y) with
      | (Some (result, top_digit), _) => (Value (MakeImmutable_top result_sign result (length zs) top_digit), p)
      | (None, (X, Y)) => finish (MultiplyLarge Allocate zs X Y p) result_sign p
      end
    | _ => (TooBig, p)
    end.

Definition Divide (x y : bigint) (p : Processor) : completion bigint * Processor :=
  if is_zero y then (DivZero, p)
  else if Compare (digits x) (digits y) <? 0 then (Value Zero, p)
  else
    let result_sign := xorb (sign x) (sign y) in
    if (length (digits y) =? 1)%nat && ((digits y).[O] =? 1) then
      (if Bool.eqb result_sign (sign x) then Value x else UnaryMinus x, p)
    else
      match New (DivideResultLength (digits x) (digits y)) with
      | Value zs =>
        match DivideSmall (length zs) (digits x) (digits y) with
        | Done (quotient, top_digit) => (Value (MakeImmutable_top result_sign quotient (length zs) top_digit), p)
        | TooLarge => finish (DivideLarge Allocate zs (digits x) (digits y) p) result_sign p
        | OutOfRange => (Fatal, p)
        end
      | _ => (TooBig, p)
      end.

Definition Remainder (x y : bigint) (p : Processor) : completion bigint * Processor :=
  if is_zero y then (DivZero, p)
  else if Compare (digits x) (digits y) <? 0 then (Value x, p)
  else if (length (digits y) =? 1)%nat && ((digits y).[O] =? 1) then (Value Zero, p)
  else
    match New (ModuloResultLength (digits y)) with
    | Value zs =>
      match ModuloSmall (length zs) (digits x) (digits y) with
      | Done (remainder, top_digit) => (Value (MakeImmutable_top (sign x) remainder (length zs) top_digit), p)
      | TooLarge => finish (ModuloLarge Allocate zs (digits x) (digits y) p) (sign x) p
      | OutOfRange => (Fatal, p)
      end
    | _ => (TooBig, p)
    end.

(** Squaring and multiplying, for (; n != 0; n >>= 1); n has at most 32 bits. *)
Fixpoint power_loop (fuel : nat) (n : Z) (result : option bigint) (running_square : bigint) (p : Processor) : completion (option bigint) * Processor :=
  match fuel with
  | O => (Value result, p)
  | S fuel =>
    if n =? 0 then (Value result, p)
    else
      match Multiply running_square running_square p with
      | (Value running_square, p) =>
        if negb (Z.land n 1 =? 0) then
          match result with
          | None => power_loop fuel (Z.shiftr n 1) (Some running_square) running_square p
          | Some result =>
            match Multiply result running_square p with
            | (Value result, p) => power_loop fuel (Z.shiftr n 1) (Some result) running_square p
            | (r, p) => (r ≫= (fun _ => Fatal), p)
            end
          end
        else power_loop fuel (Z.shiftr n 1) result running_square p
      | (r, p) => (r ≫= (fun _ => Fatal), p)
      end
  end.

Definition Exponentiate (base exponent : bigint) (p : Processor) : completion bigint * Processor :=
  if sign exponent then (MustBePositive, p)
  else if is_zero exponent then (Value (NewFromInt 1), p)
  else if is_zero base then (Value base, p)
  else if (length (digits base) =? 1)%nat && ((digits base).[O] =? 1) then
    (if sign base && (Z.land ((digits exponent).[O]) 1 =? 0) then UnaryMinus base else Value base, p)
  else if (1 <? length (digits exponent))%nat then (TooBig, p)
  else
    let exp_value := (digits exponent).[O] in
    if exp_value =? 1 then (Value base, p)
    else if kMaxBits <=? exp_value then (TooBig, p)
    else
      let n := wrap 32 exp_value in
      if (length (digits base) =? 1)%nat && ((digits base).[O] =? 2) then
        let needed_digits := (1 + Z.to_nat (n / kDigitBits))%nat in
        (result ← New needed_digits;
         Value (MakeImmutable (if sign base then negb (Z.land n 1 =? 0) else false)
           (<[(needed_digits - 1)%nat := digit (Z.shiftl 1 (n mod kDigitBits))]> (Clear needed_digits))), p)
      else
        match power_loop 32 (Z.shiftr n 1) (if negb (Z.land n 1 =? 0) then Some base else None) base p with
        | (Value (Some result), p) => (Value result, p)
        | (Value None, p) => (Fatal, p)
        | (r, p) => (r ≫= (fun _ => Fatal), p)
        end.
End operations.
