(* ===== verification/BigIntTheorems.v ===== *)
(** What the BigInt operations of BigIntObjects compute: every operation gives the canonical
    BigInt of the mathematical result, or the RangeError that its result length asks for. *)
From S2P Require Import Prelude Conversions JSHeap Digits DigitsLinear DigitsMultiply DigitsDivide DigitsBitwise Karatsuba Burnikel BigIntObjects.

(** ** Values and canonical form *)

Definition value (x : bigint) : Z := signed (sign x) (digits x).

Record canonical (x : bigint) : Prop := {
  canonical_digits : digits_ok (digits x);
  canonical_normalized : IsDigitNormalized (digits x) = true;
  canonical_zero : digits x = [] -> sign x = false;
  canonical_length : Z.of_nat (length (digits x)) <= kMaxLength
}.

#[export] Hint Resolve canonical_digits canonical_normalized canonical_length : v8.

Lemma kMaxLength_eq : kMaxLength = 16777215.
Proof. reflexivity. Qed.

Lemma kMaxBits_eq : kMaxBits = 64 * kMaxLength.
Proof. unfold kMaxBits. lia. Qed.

Lemma is_zero_digits x : is_zero x = true <-> digits x = [].
Proof. unfold is_zero. rewrite Nat.eqb_eq. apply length_zero_iff_nil. Qed.

Lemma is_zero_value x : canonical x -> is_zero x = true <-> value x = 0.
Proof.
  intros Hx. rewrite is_zero_digits. split; [intros He; unfold value, signed; by rewrite He; destruct (sign x)|].
  intros Hv. apply normalized_zero; auto with v8. unfold value, signed in Hv. destruct (sign x); lia.
Qed.

Lemma value_abs x : canonical x -> Z.abs (value x) = dval (digits x).
Proof. intros Hx. pose proof (dval_bounds (digits x) (canonical_digits x Hx)). unfold value, signed. destruct (sign x); lia. Qed.

Lemma value_neg x : canonical x -> value x < 0 <-> sign x = true.
Proof.
  intros Hx. pose proof (dval_bounds (digits x) (canonical_digits x Hx)). unfold value, signed. destruct (sign x) eqn:Hs; [|by split; [lia|]].
  split; [done|intros _]. destruct (decide (dval (digits x) = 0)) as [Hz|]; [|lia].
  apply normalized_zero in Hz; auto with v8. apply (canonical_zero x Hx) in Hz. congruence.
Qed.

Lemma nonzero_digits x : canonical x -> is_zero x = false -> 1 <= dval (digits x) /\ digits x <> [] /\ msd (digits x) <> 0.
Proof.
  intros Hx Hz. assert (digits x <> []) as Hn by (intros He; apply is_zero_digits in He; congruence).
  pose proof (normalized_bound (digits x) (canonical_digits x Hx) (canonical_normalized x Hx) Hn). pose proof (weight_pos (length (digits x) - 1)).
  destruct (normalized_cases _ (canonical_normalized x Hx)) as [|[_ ?]]; [done|]. split_all; [lia|done|done].
Qed.

(** A value has one canonical BigInt. *)
Lemma canonical_unique x y : canonical x -> canonical y -> value x = value y -> x = y.
Proof.
  intros Hx Hy He. assert (dval (digits x) = dval (digits y)) as Hd by (rewrite <- !value_abs by done; by rewrite He).
  assert (sign x = sign y) as Hs by (pose proof (value_neg x Hx); pose proof (value_neg y Hy); rewrite He in *; destruct (sign x), (sign y); intuition congruence).
  assert (digits x = digits y) as Hv.
  { apply dval_inj; auto with v8. apply Nat.le_antisymm; apply normalized_le; auto with v8; lia. }
  destruct x, y. simpl in *. congruence.
Qed.

(** ** Results *)

Lemma signed_zero (s : bool) X : dval X = 0 -> signed s X = 0.
Proof. unfold signed. destruct s; lia. Qed.

Lemma Normalize_skip X : X <> [] -> msd X = 0 -> Normalize_loop X (length X - 1) = Normalize_loop X (length X).
Proof.
  intros Hn Hm. destruct X as [|x X]; [done|]. unfold msd in Hm. simpl length in *. rewrite Nat.sub_1_r in *. cbn [Nat.pred] in *.
  cbn [Normalize_loop]. by rewrite Hm.
Qed.

(** What the result of an operation becomes. *)
Definition immutable (s : bool) (X : list Z) : bigint := mkBigInt (if (length (Normalize X) =? 0)%nat then false else s) (Normalize X).

Lemma immutable_spec s X : digits_ok X -> Z.of_nat (length X) <= kMaxLength -> canonical (immutable s X) /\ value (immutable s X) = signed s X.
Proof.
  intros HX Hl. pose proof (length_Normalize X). pose proof (dval_Normalize X) as Hv. split.
  - constructor; cbn [immutable digits sign]; [by apply Normalize_ok|apply Normalize_normalized|by intros ->|lia].
  - unfold value, immutable. cbn [digits sign]. destruct (Nat.eqb_spec (length (Normalize X)) 0) as [He|He].
    + apply nil_length_inv in He. rewrite He, (signed_zero s) by (by rewrite <- Hv, He). reflexivity.
    + unfold signed. by rewrite Hv.
Qed.

Lemma Normalize_id X : msd X <> 0 -> Normalize X = X.
Proof.
  intros Hm. unfold Normalize. destruct X as [|x X]; [done|]. unfold msd in Hm. simpl length in *. rewrite Nat.sub_1_r in Hm. cbn [Nat.pred] in Hm.
  cbn [Normalize_loop]. rewrite (proj2 (Z.eqb_neq _ _) Hm). by apply take_ge.
Qed.

Lemma CanonicalizeSlow_immutable s X : X <> [] -> msd X = 0 -> CanonicalizeSlow s X (length X) = immutable s X.
Proof.
  intros Hn Hm. assert (0 < length X)%nat as Hp by (destruct X; [done|simpl; lia]).
  unfold CanonicalizeSlow. rewrite (proj2 (Nat.ltb_lt _ _) Hp), Normalize_skip by done.
  destruct (Normalize_loop_spec X (length X) (le_n _)) as (L1 & _ & _). pose proof (length_take X (Normalize_loop X (length X))) as Ht.
  fold (Normalize X) in *. rewrite Nat.min_l in Ht by done. unfold immutable. rewrite <- Ht.
  assert (length (Normalize X) < length X)%nat as Hlt.
  { rewrite Ht, <- Normalize_skip by done. destruct (Normalize_loop_spec X (length X - 1)) as (L & _ & _); lia. }
  destruct (Nat.eqb_spec (length X - length (Normalize X)) 0); [lia|done].
Qed.

Lemma nonzero_immutable s X : msd X <> 0 -> mkBigInt s X = immutable s X.
Proof. intros Hm. unfold immutable. rewrite Normalize_id by done. destruct (Nat.eqb_spec (length X) 0); [|done]. by destruct X. Qed.

Lemma MakeImmutable_immutable s X : X <> [] \/ s = false -> MakeImmutable s X = immutable s X.
Proof.
  intros Hs. unfold MakeImmutable. fold (msd X). destruct (Z.eqb_spec (msd X) 0) as [Hm|Hm].
  - rewrite andb_false_r. destruct X as [|x X]; [by destruct Hs as [Hn | ->]|by apply CanonicalizeSlow_immutable].
  - rewrite andb_true_r. destruct X as [|x X]; [done|]. by apply nonzero_immutable.
Qed.

Lemma MakeImmutable_top_immutable s X : X <> [] -> MakeImmutable_top s X (length X) (top_digit X) = immutable s X.
Proof.
  intros Hn. assert (top_digit X = msd X) as ->.
  { unfold top_digit, msd. rewrite nth_lookup, last_lookup, Nat.sub_1_r. done. }
  unfold MakeImmutable_top. destruct (Z.eqb_spec (msd X) 0) as [Hm|Hm]; [by apply CanonicalizeSlow_immutable|by apply nonzero_immutable].
Qed.

(** ** Specifications *)

(** The operation succeeds with the canonical BigInt of [v]. *)
Definition gives (r : completion bigint) (v : Z) : Prop := exists z, r = Value z /\ canonical z /\ value z = v.

(** The operation asks for a result of [needed] digits and computes [v]. *)
Definition delivers (r : completion bigint) (needed : nat) (v : Z) : Prop :=
  if kMaxLength <? Z.of_nat needed then r = TooBig else gives r v.

(** An operation of the processor: it can be interrupted, when the platform asks for it. *)
Definition computes (r : completion bigint * Processor) (p : Processor) (needed : nat) (v : Z) : Prop :=
  (r.1 = Terminated /\ Z.of_nat needed <= kMaxLength \/ delivers r.1 needed v) /\
  (undisturbed p -> delivers r.1 needed v /\ undisturbed r.2).

Lemma gives_value x v : canonical x -> value x = v -> gives (Value x) v.
Proof. intros Hx Hv. by exists x. Qed.

Lemma gives_immutable s X v : digits_ok X -> Z.of_nat (length X) <= kMaxLength -> signed s X = v -> gives (Value (immutable s X)) v.
Proof. intros HX Hl <-. destruct (immutable_spec s X HX Hl). by apply gives_value. Qed.

Lemma gives_MakeImmutable s X v : digits_ok X -> X <> [] -> Z.of_nat (length X) <= kMaxLength -> signed s X = v ->
  gives (Value (MakeImmutable s X)) v.
Proof. intros HX Hn. rewrite MakeImmutable_immutable by by left. by apply gives_immutable. Qed.

Lemma delivers_fits r n v : Z.of_nat n <= kMaxLength -> delivers r n v <-> gives r v.
Proof. intros Hn. unfold delivers. by rewrite (proj2 (Z.ltb_ge _ _) Hn). Qed.

Lemma delivers_gives r n v : gives r v -> Z.of_nat n <= kMaxLength -> delivers r n v.
Proof. intros Hg Hn. by apply delivers_fits. Qed.

Lemma computes_delivers r p n v : delivers r n v -> computes (r, p) p n v.
Proof. intros Hd. split; [by right|by split]. Qed.

Lemma Zero_canonical : canonical Zero /\ value Zero = 0.
Proof. by apply (immutable_spec false []). Qed.

Lemma kMaxNumDigits_large : 4 * kMaxLength < kMaxNumDigits.
Proof. by vm_compute. Qed.

(** ** Comparison *)

Lemma sign_cases x : canonical x -> sign x = (value x <? 0).
Proof. intros Hx. apply Bool.eq_iff_eq_true. rewrite Z.ltb_lt. symmetry. by apply value_neg. Qed.

Definition order (a b : Z) : ComparisonResult :=
  match a ?= b with Lt => kLessThan | Eq => kEqual | Gt => kGreaterThan end.

Lemma order_lt a b : a < b -> order a b = kLessThan.
Proof. unfold order. by intros ->%Z.compare_lt_iff. Qed.
Lemma order_gt a b : b < a -> order a b = kGreaterThan.
Proof. unfold order. intros H. by rewrite (proj2 (Z.compare_gt_iff _ _) H). Qed.
Lemma order_eq a b : a = b -> order a b = kEqual.
Proof. unfold order. intros ->. by rewrite Z.compare_refl. Qed.

(** The order of two values of one sign is the order of their magnitudes, or its reverse. *)
Lemma order_signed (s : bool) a b :
  order (if s then - a else a) (if s then - b else b) =
  if b <? a then AbsoluteGreater s else if a <? b then AbsoluteLess s else kEqual.
Proof.
  destruct (Z.ltb_spec b a), (Z.ltb_spec a b), s; try lia;
    (apply order_lt; lia) || (apply order_gt; lia) || (apply order_eq; lia).
Qed.

Lemma order_unequal x (v : Z) : canonical x -> sign x <> (v <? 0) -> UnequalSign (sign x) = order (value x) v.
Proof.
  intros Hx. rewrite sign_cases by done. destruct (Z.ltb_spec (value x) 0), (Z.ltb_spec v 0); intros Hs; try done; symmetry;
    [apply order_lt|apply order_gt]; lia.
Qed.

Lemma xorb_ne a b : xorb a b = true -> a <> b.
Proof. by destruct a, b. Qed.
Lemma xorb_eq_false a b : xorb a b = false -> a = b.
Proof. by destruct a, b. Qed.

Lemma CompareToBigInt_spec x y : canonical x -> canonical y -> CompareToBigInt x y = order (value x) (value y).
Proof.
  intros Hx Hy. unfold CompareToBigInt. destruct (xorb _ _) eqn:Hs.
  - apply order_unequal; [done|]. rewrite <- sign_cases by done. by apply xorb_ne.
  - apply xorb_eq_false in Hs. unfold value, signed. rewrite <- Hs, order_signed.
    destruct (Compare_cases (digits x) (digits y)) as (C1 & C2 & C3); auto with v8.
    destruct (Z.ltb_spec 0 (Compare (digits x) (digits y))), (Z.ltb_spec (dval (digits y)) (dval (digits x))); try lia; [done|].
    destruct (Z.ltb_spec (Compare (digits x) (digits y)) 0), (Z.ltb_spec (dval (digits x)) (dval (digits y))); try lia; done.
Qed.

Lemma forallb_at_eq X Y : length X = length Y -> forallb (fun i => X.[i] =? Y.[i]) (seq 0 (length X)) = true <-> X = Y.
Proof.
  intros Hl. rewrite forallb_forall. split; [|by intros ->; intros; apply Z.eqb_refl].
  intros H. apply (list_eq_same_length X Y (length X)); [done|done|].
  intros i a b Hi Ha Hb. rewrite at_lookup in Ha, Hb by lia. specialize (H i). rewrite in_seq, Z.eqb_eq in H. injection Ha as <-. injection Hb as <-.
  apply H. lia.
Qed.

Lemma EqualToBigInt_spec x y : canonical x -> canonical y -> EqualToBigInt x y = (value x =? value y).
Proof.
  intros Hx Hy. apply Bool.eq_iff_eq_true. rewrite Z.eqb_eq. unfold EqualToBigInt. split.
  - destruct (xorb _ _) eqn:Hs; [done|]. apply xorb_eq_false in Hs. destruct (Nat.eqb_spec (length (digits x)) (length (digits y))) as [Hl|]; [|done].
    intros Hd%forallb_at_eq; [|done]. unfold value. by rewrite Hs, Hd.
  - intros He. rewrite (canonical_unique x y) by done. rewrite xorb_nilpotent, Nat.eqb_refl. by apply forallb_at_eq.
Qed.

Definition smi_ok (v : Z) : Prop := - 2 ^ 31 <= v < 2 ^ 31.

Lemma digit_abs v : smi_ok v -> digit (Z.abs v) = Z.abs v.
Proof. intros Hv. apply digit_small. unfold smi_ok, digit_ok in *. rewrite digit_base_eq. lia. Qed.

Lemma several_digits x : canonical x -> (1 < length (digits x))%nat -> digit_base <= dval (digits x).
Proof.
  intros Hx Hl. assert (digits x <> []) by (intros He; rewrite He in Hl; simpl in Hl; lia).
  pose proof (normalized_bound (digits x) (canonical_digits x Hx) (canonical_normalized x Hx) ltac:(done)).
  pose proof (weight_mono 1 (length (digits x) - 1) ltac:(lia)). rewrite weight_S, weight_0 in *. lia.
Qed.

Lemma one_digit X : length X = 1%nat -> X = [X.[O]] /\ dval X = X.[O].
Proof. destruct X as [|d [|]]; [done| |done]. intros _. split; [done|]. cbn [dval nth]. lia. Qed.

(** Zero, one digit, or at least the base. *)
Lemma digit_count x : canonical x ->
  is_zero x = true /\ dval (digits x) = 0 \/
  (is_zero x = false /\ length (digits x) = 1%nat /\ dval (digits x) = (digits x).[O] /\ digit_ok ((digits x).[O]) /\ (digits x).[O] <> 0) \/
  (is_zero x = false /\ (1 < length (digits x))%nat /\ digit_base <= dval (digits x)).
Proof.
  intros Hx. destruct (is_zero x) eqn:Hz; [left; apply is_zero_digits in Hz; by rewrite Hz|right].
  destruct (nonzero_digits x Hx Hz) as (N1 & N2 & _). destruct (decide (length (digits x) = 1%nat)) as [H1|H1].
  - left. destruct (one_digit _ H1) as [_ Hv]. split_all; [done|done|done|apply digit_at; auto with v8|lia].
  - right. assert (1 < length (digits x))%nat by (destruct (digits x) as [|? [|]]; simpl in *; [done|done|lia]).
    split_all; [done|done|by apply several_digits].
Qed.

Lemma value_cases x : value x = if sign x then - dval (digits x) else dval (digits x).
Proof. done. Qed.

Lemma CompareToSmi_spec x v : canonical x -> smi_ok v -> CompareToSmi x v = order (value x) v.
Proof.
  intros Hx Hv. unfold CompareToSmi. destruct (xorb _ _) eqn:Hs; [by apply order_unequal, xorb_ne|]. apply xorb_eq_false in Hs.
  assert (v = if sign x then - Z.abs v else Z.abs v) as Ha by (rewrite Hs; destruct (Z.ltb_spec v 0); lia).
  rewrite digit_abs by done. unfold smi_ok in Hv. pose proof digit_base_eq. transitivity (order (value x) (if sign x then - Z.abs v else Z.abs v)); [|by rewrite <- Ha].
  rewrite value_cases, order_signed. destruct (digit_count x Hx) as [[Hz Hd]|[(Hz & Hl & Hd & _)|(Hz & Hl & Hd)]]; rewrite Hz.
  - assert (sign x = false) as Hn by by apply (canonical_zero x Hx), is_zero_digits. rewrite Hn in *. symmetry in Hs. apply Z.ltb_ge in Hs.
    rewrite Hd. destruct (Z.ltb_spec (Z.abs v) 0), (Z.ltb_spec 0 (Z.abs v)), (Z.eqb_spec v 0); lia || done.
  - rewrite Hl, Hd. done.
  - rewrite (proj2 (Nat.ltb_lt _ _) Hl). destruct (Z.ltb_spec (Z.abs v) (dval (digits x))); [done|lia].
Qed.

Lemma EqualToSmi_spec x v : canonical x -> smi_ok v -> EqualToSmi x v = (value x =? v).
Proof.
  intros Hx Hv. apply Bool.eq_iff_eq_true. rewrite Z.eqb_eq. unfold EqualToSmi. destruct (Z.eqb_spec v 0) as [->|Hn]; [by apply is_zero_value|].
  rewrite !andb_true_iff, Nat.eqb_eq, Z.eqb_eq, Bool.eqb_true_iff, digit_abs by done. unfold smi_ok in Hv. pose proof digit_base_eq.
  split.
  - intros ((Hl & Hs) & Hd). destruct (one_digit _ Hl) as [_ Hv']. rewrite Hd in Hv'. rewrite value_cases, Hs, Hv'. destruct (Z.ltb_spec v 0); lia.
  - intros He. destruct (digit_count x Hx) as [[Hz Hd]|[(Hz & Hl & Hd & _)|(Hz & Hl & Hd)]]; rewrite <- (value_abs x Hx) in Hd; [lia| |lia].
    split_all; [done|by rewrite <- He, <- sign_cases|by rewrite <- Hd, He].
Qed.

(** ** 64-bit integers *)

Definition int64_ok (n : Z) : Prop := - 2 ^ 63 <= n < 2 ^ 63.
Definition uint64_ok (n : Z) : Prop := 0 <= n < 2 ^ 64.

Lemma MakeImmutable_one s d : digit_ok d -> canonical (MakeImmutable s [d]) /\ value (MakeImmutable s [d]) = if s then - d else d.
Proof.
  intros Hd. rewrite MakeImmutable_immutable by by left. replace (if s then - d else d) with (signed s [d]) by (unfold signed; destruct s; cbn [dval]; lia).
  apply immutable_spec; [by constructor|done].
Qed.

Lemma FromInt64_value n : int64_ok n -> canonical (FromInt64 n) /\ value (FromInt64 n) = n.
Proof.
  intros Hn. unfold int64_ok in Hn. unfold FromInt64. destruct (Z.eqb_spec n 0) as [->|Hz]; [apply Zero_canonical|].
  set (a := if negb (n <? 0) then _ else _). assert (a = Z.abs n) as Ha.
  { subst a. unfold wrap. destruct (Z.ltb_spec n 0); cbn [negb]; [|rewrite Z.mod_small; lia].
    destruct (Z.eqb_spec n (- 2 ^ 63)) as [->|]; [by vm_compute|rewrite Z.mod_small; lia]. }
  destruct (MakeImmutable_one (n <? 0) a) as [M1 M2]; [unfold digit_ok; rewrite digit_base_eq; lia|]. split; [done|].
  rewrite M2, Ha. destruct (Z.ltb_spec n 0); lia.
Qed.

Lemma FromUint64_value n : uint64_ok n -> canonical (FromUint64 n) /\ value (FromUint64 n) = n.
Proof.
  intros Hn. unfold FromUint64. destruct (Z.eqb_spec n 0) as [->|Hz]; [apply Zero_canonical|].
  destruct (MakeImmutable_one false n) as [M1 M2]; [unfold digit_ok; rewrite digit_base_eq; unfold uint64_ok in Hn; lia|]. by split.
Qed.

Lemma NewFromInt_value n : smi_ok n -> canonical (NewFromInt n) /\ value (NewFromInt n) = n.
Proof.
  intros Hn. unfold smi_ok in Hn. unfold NewFromInt. destruct (Z.eqb_spec n 0) as [->|Hz]; [apply Zero_canonical|].
  set (a := if negb (n <? 0) then _ else _). assert (a = Z.abs n) as Ha.
  { subst a. destruct (Z.ltb_spec n 0); cbn [negb]; [|rewrite digit_small; [lia|unfold digit_ok; rewrite digit_base_eq; lia]].
    destruct (Z.eqb_spec n (- 2 ^ 31)) as [->|]; [by vm_compute|rewrite digit_small; [lia|unfold digit_ok; rewrite digit_base_eq; lia]]. }
  destruct (MakeImmutable_one (n <? 0) a) as [M1 M2]; [unfold digit_ok; rewrite digit_base_eq; lia|]. split; [done|].
  rewrite M2, Ha. destruct (Z.ltb_spec n 0); lia.
Qed.

Lemma two_complement v : wrap 64 (wrap 64 (Z.lnot (v mod 2 ^ 64)) + 1) = (- v) mod 2 ^ 64.
Proof.
  unfold wrap. rewrite Z.add_mod_idemp_l by lia. unfold Z.lnot. replace (Z.pred (- (v mod 2 ^ 64)) + 1) with (- (v mod 2 ^ 64)) by lia.
  rewrite <- !Z.sub_0_l. apply Zminus_mod_idemp_r.
Qed.

(** The low 64 bits of the value, which are lossless for one digit. *)
Lemma GetRawBits_spec x : canonical x -> GetRawBits x = (value x mod 2 ^ 64, Z.abs (value x) <? 2 ^ 64).
Proof.
  intros Hx. unfold GetRawBits. rewrite value_abs by done. pose proof digit_base_eq as HB. rewrite (value_cases x).
  assert (dval (digits x) mod 2 ^ 64 = (digits x).[O]) as Hlow.
  { pose proof (digit_at (digits x) 0 (canonical_digits x Hx)) as Hd. unfold digit_ok in Hd. destruct (digits x) as [|d X]; [done|]. cbn [dval nth] in *. symmetry.
    apply (Z.mod_unique_pos _ _ (dval X)); lia. }
  destruct (digit_count x Hx) as [[Hz Hd]|[(Hz & Hl & Hd & Hk & _)|(Hz & Hl & Hd)]]; rewrite Hz.
  - rewrite Hd. destruct (sign x); reflexivity.
  - rewrite Hl, <- Hlow, two_complement. simpl negb. unfold digit_ok in Hk. f_equal; [by destruct (sign x)|symmetry; apply Z.ltb_lt; lia].
  - rewrite (proj2 (Nat.ltb_lt _ _) Hl), <- Hlow, two_complement. f_equal; [by destruct (sign x)|symmetry; apply Z.ltb_ge; simpl; lia].
Qed.

Lemma swrap_shift v : exists k, swrap 64 v = v + 2 ^ 64 * k.
Proof. exists (- ((v + 2 ^ (64 - 1)) / 2 ^ 64)). unfold swrap. pose proof (Z_div_mod_eq_full (v + 2 ^ (64 - 1)) (2 ^ 64)). lia. Qed.

Lemma AsInt64_spec x : canonical x -> AsInt64 x = (swrap 64 (value x), bool_decide (int64_ok (value x))).
Proof.
  intros Hx. unfold AsInt64. rewrite GetRawBits_spec by done.
  rewrite (swrap_eq 64 (value x mod 2 ^ 64) (value x)) by (try lia; by rewrite Z.mod_mod by lia). f_equal.
  rewrite sign_cases by done. apply Bool.eq_iff_eq_true. rewrite bool_decide_eq_true. unfold int64_ok.
  pose proof (swrap_bounds 64 (value x) ltac:(lia)). split.
  - destruct (xorb _ _) eqn:Hs; [done|]. apply xorb_eq_false in Hs. rewrite Z.ltb_lt. intros Hv. destruct (swrap_shift (value x)) as [k Hk].
    destruct (Z.ltb_spec (swrap 64 (value x)) 0), (Z.ltb_spec (value x) 0); try done; lia.
  - intros Hv. rewrite swrap_id, xorb_nilpotent, Z.ltb_lt by lia. lia.
Qed.

Lemma AsUint64_spec x : canonical x -> AsUint64 x = (value x mod 2 ^ 64, bool_decide (uint64_ok (value x))).
Proof.
  intros Hx. unfold AsUint64. rewrite GetRawBits_spec, sign_cases by done. f_equal.
  apply Bool.eq_iff_eq_true. rewrite bool_decide_eq_true. unfold uint64_ok. destruct (Z.ltb_spec (value x) 0); [split; [done|lia]|].
  rewrite Z.ltb_lt. lia.
Qed.
