(* ===== verification/BigIntArithmetic.v ===== *)
(** The arithmetic of BigInts computes the arithmetic of the integers: first the operations of
    BigIntObjects that need no processor, and truncation to n bits; then multiplication,
    division and powers, which run on the processor and which the platform can interrupt. *)
From S2P Require Import Prelude Conversions JSHeap Digits DigitsLinear DigitsMultiply DigitsDivide DigitsBitwise Karatsuba Burnikel BigIntObjects BigIntTheorems.

Section arithmetic.
Context (Allocate : nat -> list Z).
Context (Allocate_ok : forall n, digits_ok (Allocate n) /\ length (Allocate n) = n).

Lemma New_spec n : New Allocate n = if kMaxLength <? Z.of_nat n then TooBig else Value (Allocate n).
Proof. done. Qed.

Lemma New_fits n : Z.of_nat n <= kMaxLength -> New Allocate n = Value (Allocate n).
Proof. intros Hn. rewrite New_spec. destruct (Z.ltb_spec kMaxLength (Z.of_nat n)); [lia|done]. Qed.

(** An operation that starts with an allocation. *)
Lemma delivers_New n (k : list Z -> completion bigint) v :
  (Z.of_nat n <= kMaxLength -> gives (k (Allocate n)) v) -> delivers (New Allocate n ≫= k) n v.
Proof. intros Hk. rewrite New_spec. unfold delivers. destruct (Z.ltb_spec kMaxLength (Z.of_nat n)); [done|by apply Hk]. Qed.

(** ** Negation, increment and decrement *)

Definition AddOne_length (X : list Z) : nat := (length X + if forallb digit_ismax X then 1 else 0)%nat.

Lemma all_max X : digits_ok X -> forallb digit_ismax X = (dval X =? weight (length X) - 1).
Proof.
  induction X as [|d X IH]; intros HX; [done|]. apply Forall_cons in HX as [Hd HX]. cbn [forallb dval length]. rewrite IH, digit_ismax_spec, weight_S by done.
  pose proof (dval_bounds X HX). unfold digit_ok in Hd.
  apply Bool.eq_iff_eq_true. rewrite andb_true_iff, !Z.eqb_eq. split; [intros [-> ->]; lia|]. intros He. split; nia.
Qed.

Lemma AddOne_fits X : digits_ok X -> dval X + 1 < weight (AddOne_length X) \/ X = [].
Proof.
  intros HX. pose proof (dval_bounds X HX). unfold AddOne_length. rewrite all_max by done. destruct (Z.eqb_spec (dval X) (weight (length X) - 1)); [|left; rewrite Nat.add_0_r; lia].
  left. rewrite Nat.add_1_r, weight_S, digit_base_eq. lia.
Qed.

Lemma insert_single (l : list Z) d : length l = 1%nat -> <[O := d]> l = [d].
Proof. destruct l as [|a [|]]; done. Qed.

Lemma AbsoluteAddOne_value X zs : digits_ok X -> AbsoluteAddOne Allocate X = Value zs ->
  dval zs = dval X + 1 /\ digits_ok zs /\ length zs = AddOne_length X.
Proof.
  intros HX. unfold AbsoluteAddOne. fold (AddOne_length X). rewrite New_spec. destruct (_ <? _); [done|]. cbn [mbind completion_bind].
  destruct (Allocate_ok (AddOne_length X)) as [A1 A2]. destruct (Nat.eqb_spec (length X) 0) as [H0|H0].
  { apply nil_length_inv in H0. subst X. intros [= <-]. rewrite insert_single by done. split_all; [done|by repeat constructor|done]. }
  destruct (AddOne_fits X HX) as [Hf|Hf]; [|by subst X]. destruct ((length X =? 1)%nat && _) eqn:H1.
  - apply andb_true_iff in H1 as [H1%Nat.eqb_eq Hm%negb_true_iff]. intros [= <-]. unfold AddOne_length in *. rewrite Hm, H1 in *.
    destruct (one_digit _ H1) as [He Hv]. rewrite insert_single by done. rewrite Hv in *.
    change (1 + 0)%nat with 1%nat in Hf. rewrite weight_S, weight_0 in Hf. pose proof (digit_at X 0 HX) as Hd. unfold digit_ok in Hd.
    assert (digit_ok (X.[O] + 1)) as Hk by (unfold digit_ok; lia). rewrite digit_small by done. split_all; [cbn [dval]; lia|by apply Forall_singleton|done].
  - intros [= <-]. rewrite A2. apply AddOne_spec; [done|unfold AddOne_length; lia|done].
Qed.

Lemma AbsoluteAddOne_delivers X s v : digits_ok X -> (if s : bool then - (dval X + 1) else dval X + 1) = v ->
  delivers (AbsoluteAddOne Allocate X ≫= (fun r => Value (MakeImmutable s r))) (AddOne_length X) v.
Proof.
  intros HX <-. pose proof (AbsoluteAddOne_value X) as Hs. unfold AbsoluteAddOne in *. fold (AddOne_length X) in *. rewrite New_spec in *.
  unfold delivers. destruct (Z.ltb_spec kMaxLength (Z.of_nat (AddOne_length X))) as [Hl|Hl]; [done|]. cbn [mbind completion_bind] in *.
  set (r := if (length X =? 0)%nat then _ else _) in *. assert (exists zs, r = Value zs) as [zs Hr] by (subst r; repeat case_match; eauto).
  rewrite Hr in *. destruct (Hs zs HX eq_refl) as (Z1 & Z2 & Z3).
  assert (zs <> []) as Hn by (intros ->; pose proof (dval_bounds X HX); cbn [dval] in Z1; lia).
  apply gives_MakeImmutable; [done|done|by rewrite Z3|]. unfold signed. by rewrite Z1.
Qed.

Lemma AbsoluteSubOne_gives X s v : digits_ok X -> X <> [] -> Z.of_nat (length X) <= kMaxLength -> 1 <= dval X ->
  (if s : bool then - (dval X - 1) else dval X - 1) = v ->
  gives (AbsoluteSubOne Allocate X ≫= (fun r => Value (MakeImmutable s r))) v.
Proof.
  intros HX Hn Hl H1 <-. unfold AbsoluteSubOne. rewrite New_fits by done. cbn [mbind completion_bind checked].
  destruct (Allocate_ok (length X)) as [A1 A2]. destruct (Nat.eqb_spec (length X) 1) as [Ho|Ho].
  - rewrite insert_single by congruence. destruct (one_digit _ Ho) as [_ Hv]. pose proof (digit_at X 0 HX) as Hd. unfold digit_ok in Hd.
    assert (digit_ok (X.[O] - 1)) as Hk by (unfold digit_ok; lia). rewrite digit_small by done.
    apply gives_MakeImmutable; [by apply Forall_singleton|done|done|]. unfold signed. cbn [dval]. destruct s; lia.
  - rewrite A2. destruct (SubtractOne_spec (length X) X HX (le_n _) H1) as (zs & -> & Z1 & Z2 & Z3). cbn [in_range].
    apply gives_MakeImmutable; [done|intros ->; by destruct X|by rewrite Z3|]. unfold signed. by rewrite Z1.
Qed.

Lemma Copy_digits x : canonical x -> Copy Allocate x = Value (digits x).
Proof.
  intros Hx. unfold Copy. rewrite New_fits by auto with v8. cbn [mbind completion_bind checked]. destruct (Allocate_ok (length (digits x))) as [_ Hl].
  rewrite drop_ge by lia. by rewrite app_nil_r.
Qed.

Lemma UnaryMinus_gives x : canonical x -> gives (UnaryMinus Allocate x) (- value x).
Proof.
  intros Hx. unfold UnaryMinus. destruct (is_zero x) eqn:Hz; [apply gives_value; [done|apply is_zero_value in Hz; [lia|done]]|].
  rewrite Copy_digits by done. cbn [mbind completion_bind]. destruct (nonzero_digits x Hx Hz) as (_ & Hn & _).
  apply gives_MakeImmutable; auto with v8. unfold value, signed. destruct (sign x); simpl; lia.
Qed.

Lemma negative_digits x : canonical x -> sign x = true -> 1 <= dval (digits x) /\ digits x <> [].
Proof.
  intros Hx Hs. destruct (is_zero x) eqn:Hz; [apply is_zero_digits, (canonical_zero x Hx) in Hz; congruence|].
  by destruct (nonzero_digits x Hx Hz) as (? & ? & _).
Qed.

(** The digits of the result of -1 - x, x + 1 and x - 1. *)
Definition away_from_zero (away : bool) (x : bigint) : nat := if away then AddOne_length (digits x) else 0%nat.

Lemma BitwiseNot_delivers x : canonical x -> delivers (BitwiseNot Allocate x) (away_from_zero (negb (sign x)) x) (Z.lnot (value x)).
Proof.
  intros Hx. unfold BitwiseNot, value, signed, Z.lnot. destruct (sign x) eqn:Hs.
  - destruct (negative_digits x Hx Hs). apply delivers_fits; [done|]. apply AbsoluteSubOne_gives; auto with v8. lia.
  - apply AbsoluteAddOne_delivers; auto with v8. lia.
Qed.

Lemma Increment_delivers x : canonical x -> delivers (Increment Allocate x) (away_from_zero (negb (sign x)) x) (value x + 1).
Proof.
  intros Hx. unfold Increment, value, signed. destruct (sign x) eqn:Hs.
  - destruct (negative_digits x Hx Hs). apply delivers_fits; [done|]. apply AbsoluteSubOne_gives; auto with v8. lia.
  - apply AbsoluteAddOne_delivers; auto with v8.
Qed.

Lemma Decrement_delivers x : canonical x -> delivers (Decrement Allocate x) (away_from_zero (sign x) x) (value x - 1).
Proof.
  intros Hx. unfold Decrement, value, signed. destruct (sign x) eqn:Hs; [apply AbsoluteAddOne_delivers; auto with v8; lia|].
  apply delivers_fits; [done|]. destruct (is_zero x) eqn:Hz.
  - apply is_zero_digits in Hz. rewrite Hz. apply (gives_value (NewFromInt (-1))); by apply (NewFromInt_value (-1)).
  - destruct (nonzero_digits x Hx Hz) as (? & ? & _). apply AbsoluteSubOne_gives; auto with v8.
Qed.

(** ** Addition and subtraction *)

Lemma digits_sum_bound X Y n : digits_ok X -> digits_ok Y -> n = AddResultLength (length X) (length Y) -> dval X + dval Y < weight n.
Proof.
  intros HX HY ->. pose proof (dval_bounds X HX). pose proof (dval_bounds Y HY). unfold AddResultLength. rewrite Nat.add_1_r, weight_S, digit_base_eq.
  pose proof (weight_mono (length X) (Nat.max (length X) (length Y)) ltac:(lia)). pose proof (weight_mono (length Y) (Nat.max (length X) (length Y)) ltac:(lia)). lia.
Qed.

Lemma Nat_max_AddResultLength n m : (Nat.max n m <= AddResultLength n m)%nat.
Proof. unfold AddResultLength. lia. Qed.

Lemma zero_value x : canonical x -> is_zero x = true -> value x = 0.
Proof. intros Hx. by apply is_zero_value. Qed.

Lemma gives_signed_result (r : list Z * bool) n v : signed r.2 r.1 = v /\ digits_ok r.1 /\ length r.1 = n -> (1 <= n)%nat -> Z.of_nat n <= kMaxLength ->
  gives (let '(result, result_sign) := r in Value (MakeImmutable result_sign result)) v.
Proof.
  destruct r as [X s]. cbn [fst snd]. intros (H1 & H2 & <-) Hn Hl. apply gives_MakeImmutable; [done| |done|done]. intros ->. simpl in Hn. lia.
Qed.

Lemma result_length_bounds x y : canonical x -> is_zero x = false -> let n := Nat.max (length (digits x)) (length (digits y)) in
  (length (digits x) <= n /\ length (digits y) <= n /\ 1 <= n)%nat.
Proof. intros Hx Hz n. destruct (nonzero_digits x Hx Hz) as (_ & Hn & _). destruct (digits x); [done|]. simpl in *. lia. Qed.

Lemma Add_delivers x y : canonical x -> canonical y ->
  delivers (Add Allocate x y) (if is_zero x || is_zero y then 0 else AddSignedResultLength (length (digits x)) (length (digits y)) (Bool.eqb (sign x) (sign y)))
    (value x + value y).
Proof.
  intros Hx Hy. unfold Add. destruct (is_zero x) eqn:Zx; [apply delivers_fits, gives_value; [done|done|rewrite (zero_value x) by done; lia]|].
  destruct (is_zero y) eqn:Zy; [apply delivers_fits, gives_value; [done|done|rewrite (zero_value y) by done; lia]|].
  cbn [orb]. set (n := AddSignedResultLength _ _ _). apply delivers_New. intros Hl. destruct (Allocate_ok n) as [_ ->].
  destruct (result_length_bounds x y Hx Zx) as (L1 & L2 & L3).
  assert (Nat.max (length (digits x)) (length (digits y)) <= n)%nat as Hm.
  { subst n. unfold AddSignedResultLength. pose proof (Nat_max_AddResultLength (length (digits x)) (length (digits y))). destruct (Bool.eqb _ _); lia. }
  apply (gives_signed_result (AddSigned n (digits x) (sign x) (digits y) (sign y)) n); [|lia|done].
  apply AddSigned_spec; auto with v8; [lia|lia|]. intros He. apply digits_sum_bound; auto with v8. subst n. unfold AddSignedResultLength. by rewrite He, Bool.eqb_reflx.
Qed.

Lemma Subtract_delivers x y : canonical x -> canonical y ->
  delivers (Subtract Allocate x y) (if is_zero x || is_zero y then 0 else SubtractSignedResultLength (length (digits x)) (length (digits y)) (Bool.eqb (sign x) (sign y)))
    (value x - value y).
Proof.
  intros Hx Hy. unfold Subtract. destruct (is_zero y) eqn:Zy; [rewrite orb_true_r; apply delivers_fits, gives_value; [done|done|rewrite (zero_value y) by done; lia]|].
  destruct (is_zero x) eqn:Zx; [apply delivers_fits; [done|]; rewrite (zero_value x) by done; by apply UnaryMinus_gives|].
  cbn [orb]. set (n := SubtractSignedResultLength _ _ _). apply delivers_New. intros Hl. destruct (Allocate_ok n) as [_ ->].
  destruct (result_length_bounds x y Hx Zx) as (L1 & L2 & L3).
  assert (Nat.max (length (digits x)) (length (digits y)) <= n)%nat as Hm.
  { subst n. unfold SubtractSignedResultLength. pose proof (Nat_max_AddResultLength (length (digits x)) (length (digits y))). destruct (Bool.eqb _ _); lia. }
  apply (gives_signed_result (SubtractSigned n (digits x) (sign x) (digits y) (sign y)) n); [|lia|done].
  apply SubtractSigned_spec; auto with v8; [lia|lia|]. intros He. apply digits_sum_bound; auto with v8. subst n. unfold SubtractSignedResultLength. by rewrite (proj2 (Bool.eqb_false_iff _ _) He).
Qed.
(** ** Truncation to n bits *)

Lemma dval_max_bits x : canonical x -> 0 <= dval (digits x) < 2 ^ kMaxBits.
Proof.
  intros Hx. pose proof (dval_bounds (digits x) (canonical_digits x Hx)) as Hd. rewrite weight_pow2 in Hd. pose proof (canonical_length x Hx).
  assert (2 ^ (kDigitBits * Z.of_nat (length (digits x))) <= 2 ^ kMaxBits); [|lia]. apply Z.pow_le_mono_r; [lia|]. rewrite kMaxBits_eq. unfold kDigitBits. lia.
Qed.

Lemma value_max_bits x n : canonical x -> kMaxBits <= n -> - 2 ^ n < value x < 2 ^ n.
Proof.
  intros Hx Hn. pose proof (dval_max_bits x Hx). rewrite <- value_abs in * by done. pose proof (Z.pow_le_mono_r 2 kMaxBits n ltac:(lia) Hn). lia.
Qed.

Lemma AsIntN_gives n x : canonical x -> 0 <= n -> gives (BigIntObjects.AsIntN Allocate n x) (swrap n (value x)).
Proof.
  intros Hx Hn. unfold BigIntObjects.AsIntN. destruct (is_zero x) eqn:Hz.
  { apply gives_value; [done|]. rewrite (zero_value x) by done. destruct (decide (n = 0)) as [->|]; [done|]. symmetry. by apply (swrap_multiple n 0); lia. }
  destruct (Z.ltb_spec kMaxBits n) as [Hk|Hk]; cbn [orb].
  { apply gives_value; [done|]. symmetry. pose proof (value_max_bits x (n - 1) Hx ltac:(lia)). assert (0 <= kMaxBits) by done. apply swrap_id; lia. }
  destruct (Z.eqb_spec n 0) as [->|H0].
  { assert (swrap 0 (value x) = 0) as -> by (unfold swrap; change (2 ^ (0 - 1)) with 0; rewrite Z.mod_1_r; done). by apply (gives_value Zero); apply Zero_canonical. }
  pose proof (AsIntNResultLength_spec (digits x) (sign x) n (canonical_digits x Hx) ltac:(lia)) as Hl.
  destruct (AsIntNResultLength _ _ _) as [l|]; [|by apply gives_value]. destruct Hl as [-> Hl]. pose proof (canonical_length x Hx).
  rewrite New_fits by lia. cbn [mbind completion_bind checked].
  apply (gives_signed_result (DigitsBitwise.AsIntN (digits x) (sign x) n) (S (last_digit n))); [|lia|lia]. apply AsIntN_spec; auto with v8. lia.
Qed.

Lemma needed_fits n : 1 <= n -> Z.of_nat (S (last_digit n)) <= kMaxLength <-> n <= kMaxBits.
Proof. intros Hn. destruct (needed_digits_spec n Hn) as (_ & N2 & N3 & _ & _). rewrite kMaxBits_eq. unfold kDigitBits in *. lia. Qed.

Lemma gives_represents n X v : represents n X v -> (1 <= n)%nat -> Z.of_nat n <= kMaxLength -> gives (Value (MakeImmutable false X)) v.
Proof. intros (H1 & H2 & H3) Hn Hl. by apply (gives_signed_result (X, false) n). Qed.

Lemma AsUintN_delivers n x : canonical x -> 0 <= n ->
  delivers (AsUintN Allocate n x) (if sign x then AsUintN_Neg_ResultLength n else 0) (value x mod 2 ^ n).
Proof.
  intros Hx Hn. unfold AsUintN, value, signed. destruct (is_zero x) eqn:Hz.
  { rewrite (canonical_zero x Hx) by by apply is_zero_digits. apply delivers_fits, gives_value; [done|done|].
    apply is_zero_digits in Hz. unfold value, signed. rewrite Hz, Z.mod_0_l by lia. by destruct (sign x). }
  destruct (Z.eqb_spec n 0) as [->|H0].
  { rewrite Z.mod_1_r. destruct Zero_canonical. apply delivers_fits; [by destruct (sign x)|by apply gives_value]. }
  assert (1 <= n) as H1 by lia. pose proof (needed_fits n H1) as Hf. destruct (sign x) eqn:Hs.
  - rewrite AsUintN_Neg_ResultLength_spec by done. unfold delivers. destruct (Z.ltb_spec kMaxBits n), (Z.ltb_spec kMaxLength (Z.of_nat (S (last_digit n)))); try lia; [done|].
    rewrite New_fits by lia. cbn [mbind completion_bind checked]. unfold AsUintN_Neg.
    eapply gives_represents; [apply TruncateAndSubFromPowerOfTwo_spec; auto with v8|lia|done].
  - apply delivers_fits; [done|]. destruct (Z.leb_spec kMaxBits n).
    { apply gives_value; [done|]. pose proof (value_max_bits x n Hx ltac:(lia)). pose proof (dval_max_bits x Hx). unfold value, signed in *. rewrite Hs in *. symmetry. apply Z.mod_small. lia. }
    pose proof (AsUintN_Pos_ResultLength_spec (digits x) n (canonical_digits x Hx) H1) as Hl.
    destruct (AsUintN_Pos_ResultLength _ _) as [l|]; [|apply gives_value; [done|]; unfold value, signed; by rewrite Hs]. destruct Hl as [-> Hl].
    rewrite New_fits by lia. cbn [mbind completion_bind checked].
    eapply gives_represents; [apply TruncateToNBits_spec; auto with v8|lia|lia].
Qed.

(** ** Words *)

Lemma FromWords64_delivers s n words : digits_ok words -> length words = n ->
  delivers (FromWords64 Allocate s n words) n (signed s words).
Proof.
  intros Hw Hl. unfold FromWords64, delivers. destruct (Z.ltb_spec kMaxLength (Z.of_nat n)); [done|].
  destruct (Nat.eqb_spec n 0) as [H0|H0].
  - assert (words = []) as -> by (apply nil_length_inv; congruence). apply gives_value; apply Zero_canonical || by destruct s.
  - rewrite New_fits by lia. cbn [mbind completion_bind]. destruct (Allocate_ok n) as [_ La]. rewrite (take_ge words), (drop_ge (Allocate n)), app_nil_r by lia.
    apply gives_MakeImmutable; [done|intros ->; simpl in Hl; lia|lia|done].
Qed.

(** The words of a BigInt give it back. *)
Lemma ToWordsArray64_FromWords64 x available : canonical x -> (Words64Count x <= available)%nat ->
  let '(s, n, words) := ToWordsArray64 x available in FromWords64 Allocate s n words = Value x.
Proof.
  intros Hx Ha. unfold ToWordsArray64, Words64Count in *. rewrite (take_ge (digits x)) by done.
  pose proof (FromWords64_delivers (sign x) (length (digits x)) (digits x) (canonical_digits x Hx) eq_refl) as Hd.
  apply delivers_fits in Hd; [|by apply canonical_length]. destruct Hd as (z & -> & Hz & Hv). f_equal. by apply canonical_unique.
Qed.
End arithmetic.

(** ** The top digits of the results *)

Lemma top_digit_zeros n : top_digit (Clear n) = 0.
Proof. unfold top_digit, Clear. destruct (last (replicate n 0)) eqn:He; [|done]. apply last_Some_elem_of, elem_of_replicate in He. by destruct He as [-> _]. Qed.

Lemma MultiplySmall_top n X Y zs top s : MultiplySmall n X Y = (Some (zs, top), s) -> top = top_digit zs.
Proof.
  unfold MultiplySmall. destruct (_ || _); [intros [= <- <-]; by rewrite top_digit_zeros|]. destruct (if (_ <? _)%nat then _ else _) as [X' Y'].
  destruct (_ =? _)%nat; [|destruct (_ <=? _)%nat; [done|]]; intros [= He _].
  - unfold MultiplySingle in He. destruct (carry_loop _ _ _) as [? [? ?]]. by injection He as <- <-.
  - unfold MultiplySchoolbook in He. repeat case_match; injection He as <- <-; try done. by rewrite top_digit_zeros.
Qed.

Lemma DivideSmall_top n A B zs top : DivideSmall n A B = Done (zs, top) -> top = top_digit zs.
Proof.
  unfold DivideSmall. destruct (_ <? _); [intros [= <- <-]; by rewrite top_digit_zeros|]. destruct (_ =? _); [by intros [= <- <-]|].
  destruct (_ =? _)%nat; [|done]. unfold DivideSingle. repeat case_match; intros; simplify_eq; done.
Qed.

Lemma ModuloSmall_top n A B zs top : ModuloSmall n A B = Done (zs, top) -> top = top_digit zs.
Proof.
  unfold ModuloSmall. destruct (_ <? _); [by intros [= <- <-]|]. destruct (_ =? _); [intros [= <- <-]; by rewrite top_digit_zeros|].
  destruct (_ =? _)%nat; [by intros [= <- <-]|done].
Qed.

Lemma gives_MakeImmutable_top s zs n v : digits_ok zs -> length zs = n -> (1 <= n)%nat -> Z.of_nat n <= kMaxLength -> signed s zs = v ->
  gives (Value (MakeImmutable_top s zs n (top_digit zs))) v.
Proof.
  intros Hz <- Hn Hl Hv. rewrite MakeImmutable_top_immutable by (intros ->; simpl in Hn; lia). by apply gives_immutable.
Qed.

(** A call of the library. *)
Lemma computes_finish r s p n v zs (status : bool) p' : r = Some (zs, status, p') -> digits_ok zs -> length zs = n -> (1 <= n)%nat -> Z.of_nat n <= kMaxLength ->
  (status = false -> signed s zs = v) -> (undisturbed p -> status = false /\ undisturbed p') -> computes (finish r s p) p n v.
Proof.
  intros -> Hz Hl Hn Hk Hv Hu. assert (status = false -> delivers (Value (MakeImmutable s zs)) n v) as Hd.
  { intros Hs. apply delivers_fits; [done|]. apply gives_MakeImmutable; [done|intros ->; simpl in Hl; lia|by rewrite Hl|by apply Hv]. }
  unfold computes. destruct status; cbn [finish fst snd]; (split; [by auto|]); intros Hp; destruct (Hu Hp) as [? ?]; [done|by auto].
Qed.

Lemma computes_fits r p n v : Z.of_nat n <= kMaxLength -> computes r p n v -> computes r p 0 v.
Proof.
  intros Hn [Hd Hu]. unfold computes. rewrite (delivers_fits _ n) in Hd, Hu by done. rewrite !(delivers_fits _ 0) by done.
  split; [destruct Hd as [[? _]|?]; [by left|by right]|done].
Qed.

Lemma computes_TooBig p n v : kMaxLength < Z.of_nat n -> computes (TooBig, p) p n v.
Proof. intros Hn. apply computes_delivers. unfold delivers. by rewrite (proj2 (Z.ltb_lt _ _) Hn). Qed.

Section processor.
Context (Allocate : nat -> list Z).
Context (Allocate_ok : forall n, digits_ok (Allocate n) /\ length (Allocate n) = n).

(** ** Multiplication *)

Lemma signed_product (s1 s2 : bool) X Y zs : dval zs = dval X * dval Y -> signed (xorb s1 s2) zs = signed s1 X * signed s2 Y.
Proof. unfold signed. intros ->. destruct s1, s2; simpl; ring. Qed.

Definition product_length (x y : bigint) : nat := if is_zero x || is_zero y then 0 else MultiplyResultLength (digits x) (digits y).

Lemma Multiply_computes x y p : canonical x -> canonical y -> computes (Multiply Allocate x y p) p (product_length x y) (value x * value y).
Proof using Allocate_ok.
  intros Hx Hy. unfold Multiply, product_length. destruct (is_zero x) eqn:Zx; [apply computes_delivers, delivers_fits, gives_value; [done|done|rewrite (zero_value x) by done; lia]|].
  destruct (is_zero y) eqn:Zy; [apply computes_delivers, delivers_fits, gives_value; [done|done|rewrite (zero_value y) by done; lia]|].
  destruct (nonzero_digits x Hx Zx) as (_ & Nx & _). assert (1 <= length (digits x))%nat by (destruct (digits x); [done|simpl; lia]).
  cbn [orb]. unfold MultiplyResultLength. set (n := (length (digits x) + length (digits y))%nat). assert (1 <= n)%nat as Hn by (subst n; lia).
  rewrite New_spec. destruct (Z.ltb_spec kMaxLength (Z.of_nat n)) as [Hl|Hl]; [by apply computes_TooBig|].
  destruct (Allocate_ok n) as [A1 A2]. rewrite A2. destruct (MultiplySmall n (digits x) (digits y)) as [[[zs top]|] [X Y]] eqn:Hm.
  all: pose proof (MultiplySmall_spec n (digits x) (digits y) _ _ _ (canonical_digits x Hx) (canonical_digits y Hy) ltac:(subst n; lia) ltac:(rewrite kMaxLength_eq in Hl; lia) Hm) as Hs.
  all: cbv beta iota in Hs.
  - destruct Hs as (S1 & S2 & S3). rewrite (MultiplySmall_top _ _ _ _ _ _ Hm). apply computes_delivers, delivers_fits; [done|].
    apply gives_MakeImmutable_top; [done|done|done|done|]. by apply signed_product.
  - destruct Hs as (S1 & S2 & S3 & S4 & S5). pose proof kMaxNumDigits_large.
    destruct (MultiplyLarge_spec Allocate Allocate_ok (Allocate n) X Y p A1 S2 S3 S4 ltac:(by rewrite A2) ltac:(rewrite A2; lia)) as (zs & status & p' & He & L1 & L2 & L3 & L4 & L5).
    eapply computes_finish; [exact He|done|congruence|done|done| |done]. intros Hf. apply signed_product. rewrite <- S1. by apply L4.
Qed.

(** ** Division *)

Lemma quot_signed (s1 s2 : bool) a b : 0 <= a -> 0 < b ->
  (if s1 then - a else a) ÷ (if s2 then - b else b) = if xorb s1 s2 then - (a / b) else a / b.
Proof.
  intros Ha Hb. rewrite <- Z.quot_div_nonneg by lia.
  destruct s1, s2; cbn [xorb]; rewrite ?Z.quot_opp_l, ?Z.quot_opp_r, ?Z.opp_involutive by lia; done.
Qed.

Lemma rem_signed (s1 s2 : bool) a b : 0 <= a -> 0 < b ->
  Z.rem (if s1 then - a else a) (if s2 then - b else b) = if s1 then - (a mod b) else a mod b.
Proof.
  intros Ha Hb. rewrite <- Z.rem_mod_nonneg by lia. destruct s1, s2; rewrite ?Z.rem_opp_l, ?Z.rem_opp_r by lia; done.
Qed.

Lemma divisor_one y : canonical y -> (length (digits y) =? 1)%nat && ((digits y).[O] =? 1) = true -> dval (digits y) = 1.
Proof. intros Hy [H1%Nat.eqb_eq H2%Z.eqb_eq]%andb_true_iff. destruct (one_digit _ H1) as [_ ->]. done. Qed.

(** The divisor is not zero and not larger than the dividend. *)
Lemma Divide_operands x y : canonical x -> canonical y -> is_zero y = false -> (Compare (digits x) (digits y) <? 0) = false ->
  1 <= dval (digits y) <= dval (digits x) /\ digits y <> [] /\ msd (digits y) <> 0 /\ (1 <= length (digits y) <= length (digits x))%nat.
Proof.
  intros Hx Hy Zy Hc%Z.ltb_ge. destruct (Compare_cases (digits x) (digits y)) as (C1 & _ & _); auto with v8.
  destruct (nonzero_digits y Hy Zy) as (N1 & N2 & N3). assert (length (digits y) <= length (digits x))%nat by (apply normalized_le; auto with v8; lia).
  destruct (digits y) eqn:He; [done|]. split_all; [lia|lia|done|done|simpl; lia|done].
Qed.

(** The division of the digits, for any result that is long enough. *)
Lemma division_computes zs s x y p : canonical x -> canonical y -> is_zero y = false -> (Compare (digits x) (digits y) <? 0) = false ->
  digits_ok zs -> (length (digits x) - length (digits y) + 1 <= length zs)%nat -> Z.of_nat (length zs) <= kMaxLength ->
  computes match DivideSmall (length zs) (digits x) (digits y) with
    | Done (quotient, top_digit) => (Value (MakeImmutable_top s quotient (length zs) top_digit), p)
    | TooLarge => finish (DivideLarge Allocate zs (digits x) (digits y) p) s p
    | OutOfRange => (Fatal, p)
    end p 0 (if s then - (dval (digits x) / dval (digits y)) else dval (digits x) / dval (digits y)).
Proof using Allocate_ok.
  intros Hx Hy Zy Hc A1 Hl Hk. destruct (Divide_operands x y Hx Hy Zy Hc) as (D1 & D2 & D3 & D4). set (n := length zs) in *. pose proof (canonical_length x Hx) as Lx.
  pose proof (DivideSmall_spec n (digits x) (digits y) (canonical_digits x Hx) (canonical_digits y Hy) (canonical_normalized x Hx) (canonical_normalized y Hy) D2 Hl ltac:(lia)) as Hs.
  destruct (DivideSmall n (digits x) (digits y)) as [[qs top]| |] eqn:He; [| |done].
  - destruct Hs as (S1 & S2 & S3). rewrite (DivideSmall_top _ _ _ _ _ He). apply computes_delivers, delivers_fits; [done|].
    apply gives_MakeImmutable_top; [done|done|lia|done|]. unfold signed. by rewrite S1.
  - destruct Hs as (S1 & S2). pose proof kMaxNumDigits_large.
    destruct (DivideLarge_spec Allocate Allocate_ok zs (digits x) (digits y) p A1 (canonical_digits x Hx) (canonical_digits y Hy) D3 S2 ltac:(lia) ltac:(lia))
      as (qs & status & p' & He' & L1 & L2 & L3 & L4 & L5).
    apply (computes_fits _ _ n); [done|]. eapply computes_finish; [exact He'|done|done|lia|done| |done]. intros Hf. unfold signed. by rewrite L4.
Qed.

Lemma remainder_computes zs s x y p : canonical x -> canonical y -> is_zero y = false -> (Compare (digits x) (digits y) <? 0) = false ->
  digits_ok zs -> length zs = length (digits y) ->
  computes match ModuloSmall (length zs) (digits x) (digits y) with
    | Done (remainder, top_digit) => (Value (MakeImmutable_top s remainder (length zs) top_digit), p)
    | TooLarge => finish (ModuloLarge Allocate zs (digits x) (digits y) p) s p
    | OutOfRange => (Fatal, p)
    end p 0 (if s then - (dval (digits x) mod dval (digits y)) else dval (digits x) mod dval (digits y)).
Proof using Allocate_ok.
  intros Hx Hy Zy Hc A1 Hl. destruct (Divide_operands x y Hx Hy Zy Hc) as (D1 & D2 & D3 & D4). pose proof (canonical_length x Hx) as Lx. rewrite Hl. set (n := length (digits y)) in *.
  assert (Z.of_nat n <= kMaxLength) as Hk by lia.
  pose proof (ModuloSmall_spec n (digits x) (digits y) (canonical_digits x Hx) (canonical_digits y Hy) (canonical_normalized x Hx) (canonical_normalized y Hy) D2 (le_n _)) as Hs.
  destruct (ModuloSmall n (digits x) (digits y)) as [[rs top]| |] eqn:He; [| |done].
  - destruct Hs as (S1 & S2 & S3). rewrite (ModuloSmall_top _ _ _ _ _ He). apply computes_delivers, delivers_fits; [done|].
    apply gives_MakeImmutable_top; [done|done|lia|done|]. unfold signed. by rewrite S1.
  - destruct Hs as (S1 & S2). pose proof kMaxNumDigits_large.
    destruct (ModuloLarge_spec Allocate Allocate_ok zs (digits x) (digits y) p A1 (canonical_digits x Hx) (canonical_digits y Hy) D3 S2 ltac:(lia) ltac:(lia))
      as (rs & status & p' & He' & L1 & L2 & L3 & L4 & L5).
    apply (computes_fits _ _ n); [done|]. eapply computes_finish; [exact He'|done|congruence|lia|done| |done]. intros Hf. unfold signed. by rewrite L4.
Qed.

Lemma Divide_computes x y p : canonical x -> canonical y -> is_zero y = false -> computes (Divide Allocate x y p) p 0 (value x ÷ value y).
Proof using Allocate_ok.
  intros Hx Hy Zy. unfold Divide. rewrite Zy. destruct (nonzero_digits y Hy Zy) as (Y1 & _ & _).
  pose proof (dval_bounds (digits x) (canonical_digits x Hx)). rewrite !value_cases, quot_signed by lia.
  destruct (Compare (digits x) (digits y) <? 0) eqn:Hc.
  { apply Z.ltb_lt in Hc. destruct (Compare_cases (digits x) (digits y)) as (C1 & _ & _); auto with v8. apply computes_delivers, delivers_fits; [done|].
    rewrite Z.div_small by lia. destruct Zero_canonical. apply gives_value; [done|]. by destruct (xorb _ _). }
  destruct (Divide_operands x y Hx Hy Zy Hc) as (D1 & D2 & D3 & D4). destruct (_ && _) eqn:Ho.
  { rewrite (divisor_one y Hy Ho), Z.div_1_r. apply computes_delivers, delivers_fits; [done|]. destruct (Bool.eqb _ _) eqn:He.
    - apply Bool.eqb_prop in He. rewrite He. by apply gives_value.
    - replace (if xorb _ _ then _ else _) with (- value x); [by apply UnaryMinus_gives|]. rewrite value_cases. destruct (sign x), (sign y); simpl in *; try done; lia. }
  unfold DivideResultLength. pose proof (canonical_length x Hx) as Lx. rewrite New_fits by lia.
  destruct (Allocate_ok (length (digits x) - length (digits y) + 1)) as [A1 A2]. apply division_computes; [done..|by rewrite A2|rewrite A2; lia].
Qed.

Lemma Remainder_computes x y p : canonical x -> canonical y -> is_zero y = false -> computes (Remainder Allocate x y p) p 0 (Z.rem (value x) (value y)).
Proof using Allocate_ok.
  intros Hx Hy Zy. unfold Remainder. rewrite Zy. destruct (nonzero_digits y Hy Zy) as (Y1 & _ & _).
  pose proof (dval_bounds (digits x) (canonical_digits x Hx)). rewrite (value_cases x), (value_cases y), rem_signed by lia.
  destruct (Compare (digits x) (digits y) <? 0) eqn:Hc.
  { apply Z.ltb_lt in Hc. destruct (Compare_cases (digits x) (digits y)) as (C1 & _ & _); auto with v8. apply computes_delivers, delivers_fits; [done|].
    rewrite Z.mod_small by lia. by apply gives_value. }
  destruct (Divide_operands x y Hx Hy Zy Hc) as (D1 & D2 & D3 & D4). destruct (_ && _) eqn:Ho.
  { rewrite (divisor_one y Hy Ho), Z.mod_1_r. apply computes_delivers, delivers_fits; [done|]. destruct Zero_canonical. apply gives_value; [done|]. by destruct (sign x). }
  unfold ModuloResultLength. pose proof (canonical_length x Hx) as Lx. rewrite New_fits by lia.
  destruct (Allocate_ok (length (digits y))) as [A1 A2]. by apply remainder_computes.
Qed.

(** ** Powers *)

(** At least kMaxLength digits: the magnitude is 2 ^ (kMaxBits - kDigitBits) or more. *)
Definition too_long (v : Z) : Prop := kMaxBits - kDigitBits <= Z.log2 (Z.abs v).

(** The exact result, or a RangeError for a result that has kMaxLength digits or more. *)
Definition acceptable (r : completion bigint * Processor) (p : Processor) (v : Z) : Prop :=
  match r.1 with
  | Value z => canonical z /\ value z = v
  | TooBig => too_long v
  | Terminated => True
  | _ => False
  end /\ (undisturbed p -> r.1 <> Terminated /\ undisturbed r.2).

Lemma too_long_weight n v : kMaxLength <= Z.of_nat n + 1 -> weight n <= Z.abs v -> too_long v.
Proof.
  intros Hn Hv. unfold too_long. pose proof (weight_pos n). rewrite weight_pow2 in *. apply Z.log2_le_pow2 in Hv; [|lia].
  rewrite kMaxBits_eq. unfold kDigitBits in *. lia.
Qed.

Lemma too_long_mul a b : too_long a -> b <> 0 -> too_long (a * b).
Proof.
  unfold too_long. rewrite Z.abs_mul. intros Ha Hb. etransitivity; [exact Ha|]. apply Z.log2_le_mono.
  assert (1 <= Z.abs b) by lia. nia.
Qed.

Lemma value_length x : canonical x -> value x <> 0 -> (1 <= length (digits x))%nat /\ weight (length (digits x) - 1) <= Z.abs (value x).
Proof.
  intros Hx Hv. assert (digits x <> []) as Hn by (intros He; apply Hv, zero_value; [done|by apply is_zero_digits]).
  rewrite value_abs by done. split; [destruct (digits x); [done|simpl; lia]|]. apply normalized_bound; auto with v8.
Qed.

Lemma Multiply_acceptable x y p : canonical x -> canonical y -> value x <> 0 -> value y <> 0 ->
  acceptable (Multiply Allocate x y p) p (value x * value y).
Proof using Allocate_ok.
  intros Hx Hy Nx Ny. destruct (Multiply_computes x y p Hx Hy) as [Hd Hu]. unfold product_length, MultiplyResultLength in *.
  assert (is_zero x || is_zero y = false) as Hz.
  { apply orb_false_iff. split; apply not_true_is_false; by intros ?%zero_value. }
  rewrite Hz in *. destruct (value_length x Hx Nx) as [L1 W1]. destruct (value_length y Hy Ny) as [L2 W2].
  unfold delivers, acceptable in *. destruct (Z.ltb_spec kMaxLength (Z.of_nat (length (digits x) + length (digits y)))) as [Hl|Hl].
  - assert ((Multiply Allocate x y p).1 = TooBig) as He by (destruct Hd as [[_ ?]|]; [lia|done]). rewrite He in *. split; [|intros Hp; by destruct (Hu Hp)].
    apply (too_long_weight (length (digits x) - 1 + (length (digits y) - 1))); [lia|]. rewrite Z.abs_mul, weight_add.
    apply Z.mul_le_mono_nonneg; [pose proof (weight_pos (length (digits x) - 1)); lia|done|pose proof (weight_pos (length (digits y) - 1)); lia|done].
  - split; [destruct Hd as [[-> _]|(z & -> & ? & ?)]; done|]. intros Hp. destruct (Hu Hp) as [(z & -> & _) ?]. done.
Qed.

Lemma low_bit n : negb (Z.land n 1 =? 0) = Z.odd n.
Proof.
  change 1 with (Z.ones 1) at 1. rewrite Z.land_ones by lia. change (2 ^ 1) with 2. rewrite Zmod_odd. by destruct (Z.odd n).
Qed.

Lemma power_step m s n : 0 <= n ->
  m * (s * s) ^ n = (if Z.odd n then m * (s * s) else m) * ((s * s) * (s * s)) ^ (n / 2).
Proof.
  intros Hn. pose proof (Z.div_pos n 2). rewrite <- (Z.pow_2_r (s * s)), <- Z.pow_mul_r by lia.
  rewrite (Zdiv2_odd_eqn n) at 1. rewrite Z.pow_add_r, Z.div2_div by (try lia; destruct (Z.odd n); lia). destruct (Z.odd n); [rewrite Z.pow_1_r|rewrite Z.pow_0_r]; ring.
Qed.

Definition loop_acceptable (r : completion (option bigint) * Processor) (p : Processor) (started : bool) (v : Z) : Prop :=
  match r.1 with
  | Value (Some z) => canonical z /\ value z = v
  | Value None => started = false
  | TooBig => too_long v
  | Terminated => True
  | _ => False
  end /\ (undisturbed p -> r.1 <> Terminated /\ undisturbed r.2).

Definition value_or_one (result : option bigint) : Z := from_option value 1 result.

(** The result, if any, is a BigInt other than zero. *)
Definition result_ok (result : option bigint) : Prop := match result with Some z => canonical z /\ value z <> 0 | None => True end.

Definition started (result : option bigint) (n : Z) : bool := bool_decide (is_Some result) || negb (n =? 0).

Lemma started_Some z n : started (Some z) n = true.
Proof. done. Qed.

Lemma started_half result n : 0 <= n -> n <> 0 -> Z.odd n = false -> started result (n / 2) = true.
Proof.
  intros Hn Hz Ho. unfold started. pose proof (Zdiv2_odd_eqn n) as He. rewrite Ho, Z.div2_div in He.
  rewrite (proj2 (Z.eqb_neq (n / 2) 0)) by lia. apply orb_true_r.
Qed.

Lemma too_long_square s m n : too_long (s * s) -> s <> 0 -> m <> 0 -> 1 <= n -> too_long (m * (s * s) ^ n).
Proof.
  intros Ht Hs Hm Hn. replace (m * (s * s) ^ n) with ((s * s) * (m * (s * s) ^ (n - 1))).
  - apply too_long_mul; [done|]. pose proof (Z.pow_nonzero (s * s) (n - 1) ltac:(nia) ltac:(lia)). nia.
  - replace n with (Z.succ (n - 1)) at 2 by lia. rewrite Z.pow_succ_r by lia. ring.
Qed.

Lemma power_loop_spec fuel n result rs p : 0 <= n < 2 ^ Z.of_nat fuel -> canonical rs -> value rs <> 0 -> result_ok result ->
  loop_acceptable (power_loop Allocate fuel n result rs p) p (started result n) (value_or_one result * (value rs * value rs) ^ n).
Proof using Allocate_ok.
  revert n result rs p. induction fuel as [|fuel IH]; intros n result rs p Hn Hr Nr Hm; unfold loop_acceptable.
  - change (2 ^ Z.of_nat 0) with 1 in Hn. assert (n = 0) as -> by lia. cbn [power_loop fst snd]. rewrite Z.pow_0_r, Z.mul_1_r.
    destruct result as [z|]; [destruct Hm|]; (split; [done|by intros]).
  - cbn [power_loop]. destruct (Z.eqb_spec n 0) as [->|Hz].
    { cbn [fst snd]. rewrite Z.pow_0_r, Z.mul_1_r. destruct result as [z|]; [destruct Hm|]; (split; [done|by intros]). }
    assert (started result n = true) as Hst by (unfold started; rewrite (proj2 (Z.eqb_neq _ _) Hz); apply orb_true_r). rewrite Hst.
    assert (value_or_one result <> 0) as Nm by (destruct result; [apply Hm|done]).
    assert (0 <= n / 2 < 2 ^ Z.of_nat fuel) as Hh.
    { rewrite Nat2Z.inj_succ, Z.pow_succ_r in Hn by lia. split; [apply Z.div_pos; lia|apply Z.div_lt_upper_bound; lia]. }
    pose proof (Multiply_acceptable rs rs p Hr Hr Nr Nr) as [H1 U1]. destruct (Multiply Allocate rs rs p) as [[sq| | | | |] p1]; cbn [fst snd] in H1, U1; try done.
    2:{ cbn [fst snd]. split; [apply too_long_square; [done|done|done|lia]|]. intros Hp. split; [done|apply U1, Hp]. }
    2:{ cbn [fst snd]. split; [done|]. intros Hp. by destruct (U1 Hp). }
    destruct H1 as [Cs Vs]. assert (value sq <> 0) as Ns by (rewrite Vs; nia).
    rewrite low_bit, Z.shiftr_div_pow2 by lia. change (2 ^ 1) with 2. rewrite (power_step _ _ n), <- !Vs by lia. destruct (Z.odd n) eqn:Ho.
    + destruct result as [z|]; cbn [from_option value_or_one] in *.
      * destruct Hm as [Cz Nz]. pose proof (Multiply_acceptable z sq p1 Cz Cs Nz Ns) as [H2 U2].
        destruct (Multiply Allocate z sq p1) as [[z'| | | | |] p2]; cbn [fst snd] in H2, U2; try done.
        -- destruct H2 as [Cz' Vz']. destruct (IH (n / 2) (Some z') sq p2 Hh Cs Ns) as [I1 I2]; [split; [done|rewrite Vz'; nia]|].
           rewrite started_Some in I1. cbn [value_or_one from_option] in I1. rewrite Vz' in I1. split; [exact I1|]. intros Hp. apply I2, U2, U1, Hp.
        -- cbn [fst snd]. split; [|intros Hp; split; [done|apply U2, U1, Hp]]. apply too_long_mul; [done|]. apply Z.pow_nonzero; [nia|lia].
        -- cbn [fst snd]. split; [done|]. intros Hp. by destruct (U2 (proj2 (U1 Hp))).
      * destruct (IH (n / 2) (Some sq) sq p1 Hh Cs Ns) as [I1 I2]; [done|]. rewrite started_Some in I1. cbn [value_or_one from_option] in I1.
        rewrite Z.mul_1_l. split; [exact I1|]. intros Hp. apply I2, U1, Hp.
    + destruct (IH (n / 2) result sq p1 Hh Cs Ns Hm) as [I1 I2]. rewrite started_half in I1 by (done || lia). split; [exact I1|]. intros Hp. apply I2, U1, Hp.
Qed.

Lemma acceptable_gives r p v : gives r v -> acceptable (r, p) p v.
Proof. intros (z & -> & Hz & Hv). by split. Qed.

Lemma acceptable_too_long p v : too_long v -> acceptable (TooBig, p) p v.
Proof. intros Hv. by split. Qed.

(** Powers of a base other than -1, 0 and 1. *)
Lemma too_long_power b e : 2 <= Z.abs b -> kMaxBits <= e -> too_long (b ^ e).
Proof.
  intros Hb He. assert (0 <= kMaxBits - kDigitBits) as H0 by done. unfold too_long. rewrite Z.abs_pow.
  etransitivity; [|apply (Z.log2_le_mono (2 ^ e)), Z.pow_le_mono_l; lia]. rewrite Z.log2_pow2; unfold kDigitBits in *; lia.
Qed.

(** The fast path for 2 ^ n. *)
Lemma power_of_two_digits n : 0 <= n -> let k := Z.to_nat (n / kDigitBits) in
  dval (<[k := digit (Z.shiftl 1 (n mod kDigitBits))]> (Clear (1 + k))) = 2 ^ n /\
  digits_ok (<[k := digit (Z.shiftl 1 (n mod kDigitBits))]> (Clear (1 + k))).
Proof.
  intros Hn k. pose proof (Z.mod_pos_bound n kDigitBits ltac:(done)) as Hb. pose proof (Z.div_pos n kDigitBits Hn ltac:(done)) as Hk.
  assert (digit_ok (2 ^ (n mod kDigitBits))) as Hd.
  { unfold digit_ok, digit_base. split; [lia|]. apply Z.pow_lt_mono_r; lia. }
  rewrite Z.shiftl_1_l, digit_small by done. split; [|apply insert_ok; [apply zeros_ok|done]].
  rewrite dval_insert by (unfold Clear; rewrite length_replicate; lia). unfold Clear. rewrite dval_zeros, nth_lookup, lookup_replicate_2 by lia. simpl (default 0 _). rewrite weight_pow2.
  replace (Z.of_nat k) with (n / kDigitBits) by lia. rewrite Z.sub_0_r, Z.add_0_l, <- Z.pow_add_r by (unfold kDigitBits in *; lia). f_equal. symmetry. by apply Z_div_mod_eq_full.
Qed.

Lemma power_sign (s : bool) a n : 0 <= n -> (if s then - a else a) ^ n = if s && Z.odd n then - a ^ n else a ^ n.
Proof.
  intros Hn. destruct s; [|done]. cbn [andb]. destruct (Z.odd n) eqn:Ho.
  - apply Z.pow_opp_odd. by apply Z.odd_spec.
  - apply Z.pow_opp_even. apply Z.even_spec. rewrite <- Z.negb_odd. by rewrite Ho.
Qed.

Lemma power_halves b n (x : bigint) : 0 <= n -> value x = b ->
  value_or_one (if Z.odd n then Some x else None) * (b * b) ^ (n / 2) = b ^ n.
Proof.
  intros Hn Hb. pose proof (Z.div_pos n 2). rewrite <- (Z.pow_2_r b), <- Z.pow_mul_r by lia. rewrite (Zdiv2_odd_eqn n) at 3. rewrite Z.div2_div, Z.pow_add_r by (try lia; destruct (Z.odd n); lia).
  destruct (Z.odd n); cbn [value_or_one from_option]; rewrite ?Hb, ?Z.pow_1_r, ?Z.pow_0_r; ring.
Qed.

Lemma wrap_32 n : 0 <= n < kMaxBits -> wrap 32 n = n.
Proof. intros Hn. apply Z.mod_small. rewrite kMaxBits_eq, kMaxLength_eq in Hn. lia. Qed.

Lemma low_digit_odd x : canonical x -> Z.odd ((digits x).[O]) = Z.odd (value x).
Proof.
  intros Hx. rewrite value_cases. replace (Z.odd (if sign x then _ else _)) with (Z.odd (dval (digits x))) by (destruct (sign x); by rewrite ?Z.odd_opp).
  destruct (digits x) as [|d X]; [done|]. cbn [nth dval]. rewrite Z.odd_add, Z.odd_mul, digit_base_eq. by rewrite xorb_false_r.
Qed.

Lemma Exponentiate_fast x n : canonical x -> dval (digits x) = 2 -> 1 < n < kMaxBits ->
  gives (result ← New Allocate (1 + Z.to_nat (n / kDigitBits));
    Value (MakeImmutable (if sign x then negb (Z.land n 1 =? 0) else false)
      (<[(1 + Z.to_nat (n / kDigitBits) - 1)%nat := digit (Z.shiftl 1 (n mod kDigitBits))]> (Clear (1 + Z.to_nat (n / kDigitBits)))))) (value x ^ n).
Proof using Allocate_ok.
  intros Hx Hv Hn. set (k := Z.to_nat (n / kDigitBits)). pose proof (Z.div_pos n kDigitBits ltac:(lia) ltac:(done)).
  assert (Z.of_nat (1 + k) <= kMaxLength) as Hl.
  { assert (n / kDigitBits < kMaxLength); [|lia]. apply Z.div_lt_upper_bound; [done|]. rewrite kMaxBits_eq in Hn. unfold kDigitBits. lia. }
  rewrite New_fits by done. cbn [mbind completion_bind]. replace (1 + k - 1)%nat with k by lia.
  destruct (power_of_two_digits n ltac:(lia)) as [P1 P2]. fold k in P1, P2.
  assert (length (<[k := digit (Z.shiftl 1 (n mod kDigitBits))]> (Clear (1 + k))) = (1 + k)%nat) as HL by (unfold Clear; by rewrite length_insert, length_replicate).
  apply gives_MakeImmutable; [done|intros He; rewrite He in HL; done|by rewrite HL|].
  unfold signed. rewrite P1, low_bit, value_cases, Hv, power_sign by lia. by destruct (sign x), (Z.odd n).
Qed.

(** The power, where it has fewer than kMaxLength digits. *)
Lemma Exponentiate_acceptable base exponent p : canonical base -> canonical exponent -> sign exponent = false ->
  acceptable (Exponentiate Allocate base exponent p) p (value base ^ value exponent).
Proof using Allocate_ok.
  intros Hb He Hs. unfold Exponentiate. rewrite Hs. pose proof (dval_bounds (digits exponent) (canonical_digits exponent He)) as Hpos.
  assert (value exponent = dval (digits exponent)) as Ve by (unfold value, signed; by rewrite Hs).
  destruct (is_zero exponent) eqn:Ze.
  { rewrite (zero_value exponent), Z.pow_0_r by done. apply acceptable_gives, gives_value; by apply (NewFromInt_value 1). }
  destruct (nonzero_digits exponent He Ze) as (E1 & _ & _). destruct (is_zero base) eqn:Zb.
  { rewrite (zero_value base) by done. rewrite Z.pow_0_l by lia. apply acceptable_gives, gives_value; [done|by apply zero_value]. }
  destruct (_ && ((digits base).[O] =? 1)) eqn:Ho.
  { apply divisor_one in Ho; [|done]. rewrite (value_cases base), Ho, power_sign by lia. rewrite <- (low_digit_odd exponent), <- low_bit, Z.pow_1_l by (done || lia).
    apply acceptable_gives. destruct (sign base) eqn:Sb; cbn [andb].
    - destruct (Z.land _ 1 =? 0); cbn [negb].
      + replace 1 with (- value base) by (rewrite value_cases, Sb, Ho; done). by apply UnaryMinus_gives.
      + apply gives_value; [done|]. by rewrite value_cases, Sb, Ho.
    - apply gives_value; [done|]. by rewrite value_cases, Sb, Ho. }
  assert (2 <= dval (digits base)) as B2.
  { destruct (nonzero_digits base Hb Zb) as (B1 & _ & _). destruct (digit_count base Hb) as [[? _]|[(_ & Hl & Hd & _ & _)|(_ & _ & Hd)]]; [congruence| |rewrite digit_base_eq in Hd; lia].
    rewrite Hl in Ho. simpl in Ho. apply Z.eqb_neq in Ho. lia. }
  rewrite <- (value_abs base) in B2 by done. assert (kMaxBits <= digit_base) as Hk by (rewrite digit_base_eq, kMaxBits_eq, kMaxLength_eq; lia).
  destruct (digit_count exponent He) as [[? _]|[(_ & Hl & Hd & Hd' & _)|(_ & Hl & Hd)]]; [congruence| |].
  2:{ rewrite (proj2 (Nat.ltb_lt _ _) Hl). apply acceptable_too_long, too_long_power; lia. }
  rewrite Hl. simpl (1 <? 1)%nat. cbv iota. rewrite <- Hd, <- Ve. destruct (Z.eqb_spec (value exponent) 1) as [E|NE].
  { rewrite E, Z.pow_1_r. by apply acceptable_gives, gives_value. }
  destruct (Z.leb_spec kMaxBits (value exponent)) as [Hm|Hm]; [by apply acceptable_too_long, too_long_power|].
  rewrite wrap_32 by lia. set (n := value exponent) in *. destruct (_ && ((digits base).[O] =? 2)) eqn:Ht.
  { apply andb_true_iff in Ht as [H1%Nat.eqb_eq H2%Z.eqb_eq]. destruct (one_digit _ H1) as [_ Hv]. rewrite H2 in Hv.
    apply acceptable_gives. apply (Exponentiate_fast base n); [done|done|lia]. }
  rewrite low_bit, Z.shiftr_div_pow2 by lia. change (2 ^ 1) with 2. set (result := if Z.odd n then Some base else None).
  assert (value base <> 0) as Nb by lia. assert (1 <= n / 2 < 2 ^ Z.of_nat 32) as Hh.
  { split; [apply Z.div_le_lower_bound; lia|apply Z.div_lt_upper_bound; [lia|]]. rewrite kMaxBits_eq, kMaxLength_eq in Hm. change (2 ^ Z.of_nat 32) with 4294967296. lia. }
  assert (result_ok result) as Hr by (subst result; by destruct (Z.odd n)).
  destruct (power_loop_spec 32 (n / 2) result base p ltac:(lia) Hb Nb Hr) as [L1 L2].
  assert (started result (n / 2) = true) as Hst by (unfold started; rewrite (proj2 (Z.eqb_neq (n / 2) 0)) by lia; apply orb_true_r). rewrite Hst in L1.
  assert (value_or_one result * (value base * value base) ^ (n / 2) = value base ^ n) as Hp by (subst result; by apply power_halves; [lia|]). rewrite Hp in L1.
  destruct (power_loop Allocate 32 _ _ _ _) as [[[z|]| | | | |] p']; cbn [fst snd] in L1, L2; try done; (split; [done|]); intros Hu; (split; [done || by destruct (L2 Hu)|apply L2, Hu]).
Qed.
End processor.
