(* ===== verification/BigIntOperators.v ===== *)
(** The operators of BigInts: the macros of src/src/builtins/builtins-bigint.tq with the functions of
    src/src/objects/bigint.cc that they call, and the cache of the remainder operator.

    A BigInt object is a reference where its identity matters: the cache compares the divisor
    with the one of the last remainders by address. *)
From S2P Require Import Prelude Conversions JSHeap Digits DigitsLinear DigitsMultiply DigitsDivide DigitsBitwise Karatsuba Burnikel CachedMod BigIntObjects.

(** ** The state of the remainder operator *)

(** The two roots of the heap and the fields of the processor. *)
Record mod_cache := ModCache {
  cached_bigint_divisor : option ref;
  next_cached_bigint_divisor : option ref;
  divisor_count_ : Z;
  cached_divisor_ : list Z;
  cached_inverse_ : list Z
}.

Definition empty_cache : mod_cache := ModCache None None 0 [] [].

Definition kCachingThreshold : Z := 100.

(** ++divisor_count_ and reset_divisor_count, with SetNextCachedBigIntDivisor. *)
Definition inc_divisor_count (c : mod_cache) : mod_cache :=
  ModCache (cached_bigint_divisor c) (next_cached_bigint_divisor c) (swrap 32 (divisor_count_ c + 1)) (cached_divisor_ c) (cached_inverse_ c).

Definition SetNextCachedBigIntDivisor (y : ref) (c : mod_cache) : mod_cache :=
  ModCache (cached_bigint_divisor c) (Some y) 1 (cached_divisor_ c) (cached_inverse_ c).

Definition SetCachedBigIntDivisor (y : ref) (divisor inverse : list Z) (c : mod_cache) : mod_cache :=
  ModCache (Some y) (next_cached_bigint_divisor c) (divisor_count_ c) divisor inverse.

(** [divisor.len() >= 2 && divisor.len() <= kMaxCachedModDivisorSize]. *)
Definition cacheable (Y : list Z) : bool := (2 <=? length Y)%nat && (length Y <=? kMaxCachedModDivisorSize)%nat.

(** The bookkeeping before the division of a divisor that is not the cached one. *)
Definition update_cache (y : ref) (Y : list Z) (p : Processor) (c : mod_cache) : option (Processor * mod_cache) :=
  if bool_decide (Some y = next_cached_bigint_divisor c) then
    let c := inc_divisor_count c in
    if divisor_count_ c =? kCachingThreshold then
      if cacheable Y then
        '(inverse, p) ← CachedMod_MakeInverse Y p;
        Some (p, SetCachedBigIntDivisor y Y inverse c)
      else None
    else Some (p, c)
  else if cacheable Y then Some (p, SetNextCachedBigIntDivisor y c)
  else Some (p, c).

(** ** The functions of bigint.cc on an allocated result *)

(** Canonicalize with the top digit of the result, after a library call. *)
Definition finish_absolute (r : option (list Z * bool * Processor)) (result_sign : bool) (p : Processor) : completion bigint * Processor :=
  match r with
  | None => (Fatal, p)
  | Some (result, true, p) => (Terminated, p)
  | Some (result, false, p) => (Value (MakeImmutable_top result_sign result (length result) (msd result)), p)
  end.

Definition AbsoluteAddAndCanonicalize (n : nat) (s : bool) (X Y : list Z) : bigint :=
  let '(R, top) := DigitsLinear.Add n X Y in MakeImmutable_top s R n top.

Definition AbsoluteSubAndCanonicalize (n : nat) (s : bool) (X Y : list Z) : bigint :=
  let '(R, top) := DigitsLinear.Subtract n X Y in MakeImmutable_top s R n top.

Definition canonicalized (s : bool) (r : option (list Z)) : completion bigint := R ← in_range r; Value (MakeImmutable s R).

Definition RightShiftResultLength (X : list Z) (x_sign : bool) (shift : Z) : Z :=
  let '(length, must_round_down) := RightShift_ResultLength X x_sign shift in
  Z.lor (wrap 32 (Z.shiftl (Z.b2z must_round_down) 30)) (Z.of_nat length).

Section operators.
Context (Allocate : nat -> list Z).

Definition AbsoluteMulAndCanonicalize (zs : list Z) (s : bool) (X Y : list Z) (p : Processor) : completion bigint * Processor :=
  match MultiplySmall (length zs) X Y with
  | (Some (result, top_digit), _) => (Value (MakeImmutable_top s result (length zs) top_digit), p)
  | (None, (X, Y)) => finish_absolute (MultiplyLarge Allocate zs X Y p) s p
  end.

Definition AbsoluteDivAndCanonicalize (zs : list Z) (s : bool) (X Y : list Z) (p : Processor) : completion bigint * Processor :=
  match DivideSmall (length zs) X Y with
  | Done (result, top_digit) => (Value (MakeImmutable_top s result (length zs) top_digit), p)
  | TooLarge => finish_absolute (DivideLarge Allocate zs X Y p) s p
  | OutOfRange => (Fatal, p)
  end.

(** The division without the cache. *)
Definition plain_modulo (zs : list Z) (s : bool) (X Y : list Z) (p : Processor) : completion bigint * Processor :=
  match ModuloSmall (length zs) X Y with
  | Done (result, top_digit) => (Value (MakeImmutable_top s result (length zs) top_digit), p)
  | TooLarge => finish_absolute (ModuloLarge Allocate zs X Y p) s p
  | OutOfRange => (Fatal, p)
  end.

(** The small scratch of the processor has unspecified contents. *)
Definition AbsoluteModAndCanonicalize (zs : list Z) (s : bool) (X : list Z) (y : ref) (Y : list Z) (p : Processor) (c : mod_cache) :
    completion bigint * Processor * mod_cache :=
  if bool_decide (Some y = cached_bigint_divisor c) then
    if (length X <=? 2 * length (cached_divisor_ c))%nat then
      match CachedMod (cached_divisor_ c) (cached_inverse_ c) (Allocate kSmallScratchSize) zs X with
      | Some (result, top_digit) => (Value (MakeImmutable_top s result (length zs) top_digit), p, c)
      | None => (Fatal, p, c)
      end
    else (plain_modulo zs s X Y p, c)
  else
    match update_cache y Y p c with
    | Some (p, c) => (plain_modulo zs s X Y p, c)
    | None => (Fatal, p, c)
    end.

(** ** The macros *)

Definition AllocateEmptyBigIntNoThrow (length : nat) : completion (list Z) := New Allocate length.

Definition BigIntUnaryMinus (x : bigint) : completion bigint :=
  if is_zero x then Value x else result ← New Allocate (length (digits x)); Value (mkBigInt (negb (sign x)) (digits x ++ drop (length (digits x)) result)).

Definition BigIntCompareAbsolute (x y : bigint) : Z := CompareNoNormalize (digits x) (digits y).

Definition MutableBigIntAbsoluteSub (x y : bigint) (resultSign : bool) : completion bigint :=
  if is_zero x then Value x
  else if is_zero y then (if Bool.eqb resultSign (sign x) then Value x else BigIntUnaryMinus x)
  else
    result ← AllocateEmptyBigIntNoThrow (length (digits x));
    Value (AbsoluteSubAndCanonicalize (length result) resultSign (digits x) (digits y)).

Definition MutableBigIntAbsoluteAdd (x y : bigint) (resultSign : bool) : completion bigint :=
  let '(x, y) := if (length (digits x) <? length (digits y))%nat then (y, x) else (x, y) in
  if is_zero x then Value x
  else if is_zero y then (if Bool.eqb resultSign (sign x) then Value x else BigIntUnaryMinus x)
  else
    result ← AllocateEmptyBigIntNoThrow (length (digits x) + 1);
    Value (AbsoluteAddAndCanonicalize (length result) resultSign (digits x) (digits y)).

Definition BigIntAddImpl (x y : bigint) : completion bigint :=
  if Bool.eqb (sign x) (sign y) then MutableBigIntAbsoluteAdd x y (sign x)
  else if 0 <=? BigIntCompareAbsolute x y then MutableBigIntAbsoluteSub x y (sign x)
  else MutableBigIntAbsoluteSub y x (negb (sign x)).

Definition BigIntSubtractImpl (x y : bigint) : completion bigint :=
  if negb (Bool.eqb (sign x) (sign y)) then MutableBigIntAbsoluteAdd x y (sign x)
  else if 0 <=? BigIntCompareAbsolute x y then MutableBigIntAbsoluteSub x y (sign x)
  else MutableBigIntAbsoluteSub y x (negb (sign x)).

Definition BigIntMultiplyImpl (x y : bigint) (p : Processor) : completion bigint * Processor :=
  if is_zero x then (Value x, p)
  else if is_zero y then (Value y, p)
  else
    let resultSign := xorb (sign x) (sign y) in
    match AllocateEmptyBigIntNoThrow (length (digits x) + length (digits y)) with
    | Value result =>
      if (length (digits x) <? length (digits y))%nat then AbsoluteMulAndCanonicalize result resultSign (digits y) (digits x) p
      else AbsoluteMulAndCanonicalize result resultSign (digits x) (digits y) p
    | _ => (TooBig, p)
    end.

Definition BigIntDivideImpl (x y : bigint) (p : Processor) : completion bigint * Processor :=
  if is_zero y then (DivZero, p)
  else if BigIntCompareAbsolute x y <? 0 then (Value (mkBigInt false []), p)
  else
    let resultSign := xorb (sign x) (sign y) in
    if (length (digits y) =? 1)%nat && ((digits y).[O] =? 1) then
      (if Bool.eqb resultSign (sign x) then Value x else BigIntUnaryMinus x, p)
    else
      let resultLength := (length (digits x) - length (digits y) + 1)%nat in
      let resultLength := if (10 <? length (digits y))%nat then S resultLength else resultLength in
      match checked (AllocateEmptyBigIntNoThrow resultLength) with
      | Value result => AbsoluteDivAndCanonicalize result resultSign (digits x) (digits y) p
      | _ => (Fatal, p)
      end.

(** [y] is the divisor, an object of the heap. *)
Definition BigIntModulusImpl (x : bigint) (y : ref) (divisor : bigint) (p : Processor) (c : mod_cache) : completion bigint * Processor * mod_cache :=
  if is_zero divisor then (DivZero, p, c)
  else if BigIntCompareAbsolute x divisor <? 0 then (Value x, p, c)
  else if (length (digits divisor) =? 1)%nat && ((digits divisor).[O] =? 1) then (Value (mkBigInt false []), p, c)
  else
    match checked (AllocateEmptyBigIntNoThrow (length (digits divisor))) with
    | Value result => AbsoluteModAndCanonicalize result (sign x) (digits x) y (digits divisor) p c
    | _ => (Fatal, p, c)
    end.

Definition BigIntBitwiseAndImpl (x y : bigint) : completion bigint :=
  if is_zero x then Value x
  else if is_zero y then Value y
  else
    match sign x, sign y with
    | false, false =>
      result ← checked (AllocateEmptyBigIntNoThrow (Nat.min (length (digits x)) (length (digits y))));
      canonicalized false (Some (BitwiseAnd_PosPos (length result) (digits x) (digits y)))
    | true, true =>
      result ← AllocateEmptyBigIntNoThrow (Nat.max (length (digits x)) (length (digits y)) + 1);
      canonicalized true (BitwiseAnd_NegNeg (length result) (digits x) (digits y))
    | false, true =>
      result ← checked (AllocateEmptyBigIntNoThrow (length (digits x)));
      canonicalized false (Some (BitwiseAnd_PosNeg (length result) (digits x) (digits y)))
    | true, false =>
      result ← checked (AllocateEmptyBigIntNoThrow (length (digits y)));
      canonicalized false (Some (BitwiseAnd_PosNeg (length result) (digits y) (digits x)))
    end.

Definition BigIntBitwiseOrImpl (x y : bigint) : completion bigint :=
  if is_zero x then Value y
  else if is_zero y then Value x
  else
    let resultLength := Nat.max (length (digits x)) (length (digits y)) in
    result ← checked (AllocateEmptyBigIntNoThrow resultLength);
    match sign x, sign y with
    | false, false => canonicalized false (Some (BitwiseOr_PosPos (length result) (digits x) (digits y)))
    | true, true => canonicalized true (BitwiseOr_NegNeg (length result) (digits x) (digits y))
    | false, true => canonicalized true (BitwiseOr_PosNeg (length result) (digits x) (digits y))
    | true, false => canonicalized true (BitwiseOr_PosNeg (length result) (digits y) (digits x))
    end.

Definition BigIntBitwiseXorImpl (x y : bigint) : completion bigint :=
  if is_zero x then Value y
  else if is_zero y then Value x
  else
    let resultLength := Nat.max (length (digits x)) (length (digits y)) in
    match sign x, sign y with
    | false, false =>
      result ← checked (AllocateEmptyBigIntNoThrow resultLength);
      canonicalized false (Some (BitwiseXor_PosPos (length result) (digits x) (digits y)))
    | true, true =>
      result ← checked (AllocateEmptyBigIntNoThrow resultLength);
      canonicalized false (Some (BitwiseXor_NegNeg (length result) (digits x) (digits y)))
    | false, true =>
      result ← AllocateEmptyBigIntNoThrow (resultLength + 1);
      canonicalized true (BitwiseXor_PosNeg (length result) (digits x) (digits y))
    | true, false =>
      result ← AllocateEmptyBigIntNoThrow (resultLength + 1);
      canonicalized true (BitwiseXor_PosNeg (length result) (digits y) (digits x))
    end.

(** The length of the result of a left shift. *)
Definition left_shift_length (X : list Z) (shift : Z) : nat :=
  let resultLength := (length X + Z.to_nat (shift / kDigitBits))%nat in
  let bitsShift := shift mod kDigitBits in
  if negb (bitsShift =? 0) && negb (Z.shiftr (X.[(length X - 1)%nat]) (kDigitBits - bitsShift) =? 0) then S resultLength else resultLength.

Definition MutableBigIntLeftShiftByAbsolute (x y : bigint) : completion bigint :=
  if is_zero x then Value x
  else if is_zero y then Value x
  else if (1 <? length (digits y))%nat then TooBig
  else
    let shift := (digits y).[O] in
    if kMaxBits <? shift then TooBig
    else
      result ← AllocateEmptyBigIntNoThrow (left_shift_length (digits x) shift);
      Value (MakeImmutable (sign x) (LeftShift (length result) (digits x) shift)).

Definition RightShiftByMaximum (s : bool) : bigint := if s then mkBigInt true [1] else mkBigInt false [].

Definition MutableBigIntRightShiftByAbsolute (x y : bigint) : completion bigint :=
  if is_zero x then Value x
  else if is_zero y then Value x
  else if (1 <? length (digits y))%nat then Value (RightShiftByMaximum (sign x))
  else
    let shift := (digits y).[O] in
    if kMaxBits <? shift then Value (RightShiftByMaximum (sign x))
    else
      let returnVal := RightShiftResultLength (digits x) (sign x) shift in
      let mustRoundDown := Z.shiftr returnVal 30 in
      let resultLength := Z.to_nat (Z.land returnVal (Z.shiftl 1 30 - 1)) in
      if (resultLength =? 0)%nat then Value (RightShiftByMaximum (sign x))
      else
        result ← checked (AllocateEmptyBigIntNoThrow resultLength);
        canonicalized (sign x) (RightShift (length result) (digits x) shift (mustRoundDown =? 1)).

Definition BigIntShiftLeftImpl (x y : bigint) : completion bigint :=
  if sign y then MutableBigIntRightShiftByAbsolute x y else MutableBigIntLeftShiftByAbsolute x y.

Definition BigIntShiftRightImpl (x y : bigint) : completion bigint :=
  if sign y then MutableBigIntLeftShiftByAbsolute x y else MutableBigIntRightShiftByAbsolute x y.

Definition BigIntEqual (x y : bigint) : bool :=
  if xorb (sign x) (sign y) then false
  else if negb (length (digits x) =? length (digits y))%nat then false
  else forallb (fun i => (digits x).[i] =? (digits y).[i]) (seq 0 (length (digits x))).

Definition BigIntCompare (x y : bigint) : Z :=
  if xorb (sign x) (sign y) then (if negb (sign x) then 1 else -1)
  else
    let diff := BigIntCompareAbsolute x y in
    if negb (sign x) then diff else 0 - diff.

Definition BigIntLessThan (x y : bigint) : bool := BigIntCompare x y <? 0.
Definition BigIntGreaterThan (x y : bigint) : bool := 0 <? BigIntCompare x y.
Definition BigIntLessThanOrEqual (x y : bigint) : bool := BigIntCompare x y <=? 0.
Definition BigIntGreaterThanOrEqual (x y : bigint) : bool := 0 <=? BigIntCompare x y.
End operators.
