(* ===== verification/BigIntOperatorTheorems.v ===== *)
(** The operators of BigIntOperators compute the operations of the integers, and agree with the
    C++ functions of BigIntObjects. *)
From S2P Require Import Prelude Conversions JSHeap Digits DigitsLinear DigitsMultiply DigitsDivide DigitsBitwise Karatsuba Burnikel CachedMod BigIntObjects BigIntTheorems BigIntArithmetic BigIntOperators.

(** ** Comparison *)

Lemma CompareAbsolute_cases x y : canonical x -> canonical y ->
  (BigIntCompareAbsolute x y < 0 <-> dval (digits x) < dval (digits y)) /\ (BigIntCompareAbsolute x y = 0 <-> dval (digits x) = dval (digits y)) /\
  (0 < BigIntCompareAbsolute x y <-> dval (digits y) < dval (digits x)).
Proof. intros Hx Hy. apply CompareNoNormalize_cases; auto with v8. Qed.

Lemma BigIntCompare_sgn x y : canonical x -> canonical y -> Z.sgn (BigIntCompare x y) = Z.sgn (value x - value y).
Proof.
  intros Hx Hy. unfold BigIntCompare. destruct (xorb _ _) eqn:Hs.
  - apply xorb_ne in Hs. pose proof (sign_cases x Hx). pose proof (sign_cases y Hy). destruct (Z.ltb_spec (value x) 0), (Z.ltb_spec (value y) 0), (sign x), (sign y); simpl in *; try congruence; lia.
  - apply xorb_eq_false in Hs. destruct (CompareAbsolute_cases x y Hx Hy) as (C1 & C2 & C3). unfold value, signed. rewrite <- Hs. destruct (sign x); simpl; lia.
Qed.

Lemma BigIntEqual_EqualToBigInt x y : BigIntEqual x y = EqualToBigInt x y.
Proof. done. Qed.

(** ** Canonical results *)

Lemma msd_top X : msd X = top_digit X.
Proof. unfold top_digit, msd. rewrite nth_lookup, last_lookup, Nat.sub_1_r. done. Qed.

Lemma finish_absolute_eq r s p zs status p' : r = Some (zs, status, p') -> zs <> [] -> finish_absolute r s p = finish r s p.
Proof.
  intros -> Hn. destruct status; [done|]. simpl. rewrite msd_top, MakeImmutable_top_immutable, MakeImmutable_immutable; auto.
Qed.

Lemma gives_canonicalized (s : bool) n X (v : Z) : represents n X (if s then - v else v) -> (1 <= n)%nat -> Z.of_nat n <= kMaxLength -> gives (canonicalized s (Some X)) v.
Proof.
  intros (R1 & R2 & R3) Hn Hl. unfold canonicalized. cbn [in_range mbind completion_bind].
  apply gives_MakeImmutable; [done|intros ->; simpl in R3; lia|lia|]. unfold signed. rewrite R1. destruct s; lia.
Qed.

Lemma empty_canonical : canonical (mkBigInt false []) /\ value (mkBigInt false []) = 0.
Proof. apply Zero_canonical. Qed.

(** The result of an operation is determined by its value. *)
Lemma gives_unique r r' v : gives r v -> gives r' v -> r = r'.
Proof. intros (z & -> & Hz & Hv) (z' & -> & Hz' & Hv'). f_equal. apply canonical_unique; congruence. Qed.

Lemma delivers_unique r r' n v : delivers r n v -> delivers r' n v -> r = r'.
Proof. unfold delivers. destruct (_ <? _); [congruence|apply gives_unique]. Qed.

Section operators.
Context (Allocate : nat -> list Z).
Context (Allocate_ok : forall n, digits_ok (Allocate n) /\ length (Allocate n) = n).

(** ** Addition and subtraction *)

Lemma BigIntUnaryMinus_eq x : canonical x -> BigIntUnaryMinus Allocate x = UnaryMinus Allocate x.
Proof using Allocate_ok.
  intros Hx. unfold BigIntUnaryMinus, UnaryMinus. destruct (is_zero x) eqn:Hz; [done|]. rewrite Copy_digits by done. rewrite New_fits by auto with v8.
  cbn [mbind completion_bind]. destruct (Allocate_ok (length (digits x))) as [_ Hl]. rewrite drop_ge, app_nil_r by lia.
  destruct (nonzero_digits x Hx Hz) as (_ & Hn & Hm). rewrite MakeImmutable_immutable by by left. by rewrite nonzero_immutable.
Qed.

(** x with the sign [s]. *)
Lemma with_sign_gives x (s : bool) : canonical x -> gives (if Bool.eqb s (sign x) then Value x else BigIntUnaryMinus Allocate x) (if s then - dval (digits x) else dval (digits x)).
Proof using Allocate_ok.
  intros Hx. destruct (Bool.eqb s (sign x)) eqn:Hs.
  - apply Bool.eqb_prop in Hs. subst s. by apply gives_value.
  - rewrite BigIntUnaryMinus_eq by done. replace (if s then _ else _) with (- value x); [by apply UnaryMinus_gives|].
    rewrite value_cases. destruct s, (sign x); simpl in *; try done; lia.
Qed.

Lemma zero_dval x : canonical x -> is_zero x = true -> dval (digits x) = 0.
Proof. intros Hx Hz. apply is_zero_digits in Hz. by rewrite Hz. Qed.

Lemma length_nonzero x : is_zero x = false -> (1 <= length (digits x))%nat.
Proof. unfold is_zero. intros H%Nat.eqb_neq. lia. Qed.

Lemma AbsoluteSub_gives x y (s : bool) : canonical x -> canonical y -> dval (digits y) <= dval (digits x) ->
  gives (MutableBigIntAbsoluteSub Allocate x y s) (if s then - (dval (digits x) - dval (digits y)) else dval (digits x) - dval (digits y)).
Proof using Allocate_ok.
  intros Hx Hy Hl. unfold MutableBigIntAbsoluteSub. pose proof (dval_bounds (digits y) (canonical_digits y Hy)). destruct (is_zero x) eqn:Zx.
  { pose proof (zero_dval x Hx Zx) as Hz. apply gives_value; [done|]. rewrite (zero_value x) by done. destruct s; lia. }
  destruct (is_zero y) eqn:Zy; [rewrite (zero_dval y), Z.sub_0_r by done; by apply with_sign_gives|].
  unfold AllocateEmptyBigIntNoThrow. pose proof (canonical_length x Hx). rewrite New_fits by done. cbn [mbind completion_bind]. destruct (Allocate_ok (length (digits x))) as [_ ->].
  unfold AbsoluteSubAndCanonicalize. assert (length (digits y) <= length (digits x))%nat by (apply normalized_le; auto with v8).
  destruct (Subtract_spec (length (digits x)) (digits x) (digits y)) as (S1 & S2 & S3); auto with v8.
  assert ((DigitsLinear.Subtract (length (digits x)) (digits x) (digits y)).2 = top_digit (DigitsLinear.Subtract (length (digits x)) (digits x) (digits y)).1) as Ht
    by (unfold DigitsLinear.Subtract; by repeat destruct (carry_loop _ _ _)).
  destruct (DigitsLinear.Subtract _ _ _) as [R top]. cbn [fst snd] in *. subst top. pose proof (length_nonzero x Zx).
  apply gives_MakeImmutable_top; [done|congruence|lia|lia|]. unfold signed. by rewrite S1.
Qed.

Lemma AbsoluteAdd_delivers x y (s : bool) : canonical x -> canonical y ->
  delivers (MutableBigIntAbsoluteAdd Allocate x y s) (if is_zero x || is_zero y then 0 else AddResultLength (length (digits x)) (length (digits y)))
    (if s then - (dval (digits x) + dval (digits y)) else dval (digits x) + dval (digits y)).
Proof using Allocate_ok.
  assert (forall x y, canonical x -> canonical y -> (length (digits y) <= length (digits x))%nat ->
    delivers (if is_zero x then Value x else if is_zero y then (if Bool.eqb s (sign x) then Value x else BigIntUnaryMinus Allocate x)
      else result ← AllocateEmptyBigIntNoThrow Allocate (length (digits x) + 1); Value (AbsoluteAddAndCanonicalize (length result) s (digits x) (digits y)))
      (if is_zero x || is_zero y then 0 else AddResultLength (length (digits x)) (length (digits y)))
      (if s then - (dval (digits x) + dval (digits y)) else dval (digits x) + dval (digits y))) as Hmain.
  { clear x y. intros x y Hx Hy Hl. destruct (is_zero x) eqn:Zx.
    { assert (is_zero y = true) as Zy by (unfold is_zero in *; apply Nat.eqb_eq in Zx; apply Nat.eqb_eq; lia).
      apply delivers_fits; [done|]. apply gives_value; [done|]. rewrite (zero_value x), (zero_dval x), (zero_dval y) by done. by destruct s. }
    destruct (is_zero y) eqn:Zy; cbn [orb]; [apply delivers_fits; [done|]; rewrite (zero_dval y), Z.add_0_r by done; by apply with_sign_gives|].
    unfold AddResultLength. rewrite Nat.max_l by done. set (n := (length (digits x) + 1)%nat). apply delivers_New. intros Hn.
    destruct (Allocate_ok n) as [_ ->]. unfold AbsoluteAddAndCanonicalize.
    destruct (Add_spec n (digits x) (digits y)) as (S1 & S2 & S3); auto with v8; [lia|lia|apply digits_sum_bound; auto with v8; subst n; unfold AddResultLength; by rewrite Nat.max_l|].
    assert ((DigitsLinear.Add n (digits x) (digits y)).2 = top_digit (DigitsLinear.Add n (digits x) (digits y)).1) as Ht
      by (unfold DigitsLinear.Add; destruct (_ <? _)%nat; by repeat destruct (carry_loop _ _ _)).
    destruct (DigitsLinear.Add _ _ _) as [R top]. cbn [fst snd] in *. subst top.
    apply gives_MakeImmutable_top; [done|done|lia|done|]. unfold signed. by rewrite S1. }
  intros Hx Hy. unfold MutableBigIntAbsoluteAdd. destruct (Nat.ltb_spec (length (digits x)) (length (digits y))).
  - rewrite orb_comm, (Z.add_comm (dval (digits x))). unfold AddResultLength. rewrite Nat.max_comm. apply Hmain; [done|done|lia].
  - by apply Hmain.
Qed.

(** The needed digits are those of the C++ functions. *)
Lemma BigIntAddImpl_delivers x y : canonical x -> canonical y ->
  delivers (BigIntAddImpl Allocate x y) (if is_zero x || is_zero y then 0 else AddSignedResultLength (length (digits x)) (length (digits y)) (Bool.eqb (sign x) (sign y))) (value x + value y).
Proof using Allocate_ok.
  intros Hx Hy. unfold BigIntAddImpl, AddSignedResultLength. pose proof (canonical_length x Hx). pose proof (canonical_length y Hy). destruct (Bool.eqb (sign x) (sign y)) eqn:Hs.
  - apply Bool.eqb_prop in Hs. replace (value x + value y) with (if sign x then - (dval (digits x) + dval (digits y)) else dval (digits x) + dval (digits y))
      by (rewrite !value_cases, <- Hs; destruct (sign x); lia). by apply AbsoluteAdd_delivers.
  - apply Bool.eqb_false_iff in Hs. apply delivers_fits; [destruct (_ || _); [done|lia]|].
    destruct (CompareAbsolute_cases x y Hx Hy) as (C1 & C2 & C3). destruct (Z.leb_spec 0 (BigIntCompareAbsolute x y)).
    + replace (value x + value y) with (if sign x then - (dval (digits x) - dval (digits y)) else dval (digits x) - dval (digits y))
        by (rewrite !value_cases; destruct (sign x), (sign y); try congruence; lia). apply AbsoluteSub_gives; [done|done|lia].
    + replace (value x + value y) with (if negb (sign x) then - (dval (digits y) - dval (digits x)) else dval (digits y) - dval (digits x))
        by (rewrite !value_cases; destruct (sign x), (sign y); simpl; try congruence; lia). apply AbsoluteSub_gives; [done|done|lia].
Qed.

Lemma BigIntSubtractImpl_delivers x y : canonical x -> canonical y ->
  delivers (BigIntSubtractImpl Allocate x y) (if is_zero x || is_zero y then 0 else SubtractSignedResultLength (length (digits x)) (length (digits y)) (Bool.eqb (sign x) (sign y))) (value x - value y).
Proof using Allocate_ok.
  intros Hx Hy. unfold BigIntSubtractImpl, SubtractSignedResultLength. pose proof (canonical_length x Hx). pose proof (canonical_length y Hy). destruct (Bool.eqb (sign x) (sign y)) eqn:Hs; cbn [negb].
  - apply Bool.eqb_prop in Hs. apply delivers_fits; [destruct (_ || _); [done|lia]|].
    destruct (CompareAbsolute_cases x y Hx Hy) as (C1 & C2 & C3). destruct (Z.leb_spec 0 (BigIntCompareAbsolute x y)).
    + replace (value x - value y) with (if sign x then - (dval (digits x) - dval (digits y)) else dval (digits x) - dval (digits y))
        by (rewrite !value_cases, <- Hs; destruct (sign x); lia). apply AbsoluteSub_gives; [done|done|lia].
    + replace (value x - value y) with (if negb (sign x) then - (dval (digits y) - dval (digits x)) else dval (digits y) - dval (digits x))
        by (rewrite !value_cases, <- Hs; destruct (sign x); simpl; lia). apply AbsoluteSub_gives; [done|done|lia].
  - apply Bool.eqb_false_iff in Hs. replace (value x - value y) with (if sign x then - (dval (digits x) + dval (digits y)) else dval (digits x) + dval (digits y))
      by (rewrite !value_cases; destruct (sign x), (sign y); try congruence; lia). by apply AbsoluteAdd_delivers.
Qed.

(** ** Multiplication and division *)

Lemma AbsoluteMul_eq zs s x y p : canonical x -> canonical y -> is_zero x = false -> is_zero y = false -> digits_ok zs ->
  length zs = (length (digits x) + length (digits y))%nat -> Z.of_nat (length zs) <= kMaxLength ->
  AbsoluteMulAndCanonicalize Allocate zs s (digits x) (digits y) p =
  match MultiplySmall (length zs) (digits x) (digits y) with
  | (Some (result, top_digit), _) => (Value (MakeImmutable_top s result (length zs) top_digit), p)
  | (None, (X, Y)) => finish (MultiplyLarge Allocate zs X Y p) s p
  end.
Proof using Allocate_ok.
  intros Hx Hy Zx Zy Oz Lz Wz. unfold AbsoluteMulAndCanonicalize. destruct (MultiplySmall (length zs) (digits x) (digits y)) as [[[r top]|] [X Y]] eqn:Hm; [done|].
  pose proof (MultiplySmall_spec (length zs) (digits x) (digits y) _ _ _ (canonical_digits x Hx) (canonical_digits y Hy) ltac:(lia) ltac:(rewrite kMaxLength_eq in Wz; lia) Hm) as (_ & S2 & S3 & S4 & S5).
  pose proof kMaxNumDigits_large. pose proof (length_nonzero x Zx).
  destruct (MultiplyLarge_spec Allocate Allocate_ok zs X Y p Oz S2 S3 S4 S5 ltac:(lia)) as (rs & status & p' & He & L1 & L2 & _).
  eapply finish_absolute_eq; [exact He|]. intros ->. simpl in L2. lia.
Qed.

Lemma MultiplySmall_swap n X Y : X <> [] -> (length X < length Y)%nat -> MultiplySmall n Y X = MultiplySmall n X Y.
Proof.
  intros HX Hl. unfold MultiplySmall. destruct (Nat.eqb_spec (length X) 0) as [H0|_]; [by apply nil_length_inv in H0|].
  destruct (Nat.eqb_spec (length Y) 0); [lia|]. destruct (Nat.ltb_spec (length Y) (length X)); [lia|]. by rewrite (proj2 (Nat.ltb_lt _ _) Hl).
Qed.

Lemma BigIntMultiplyImpl_eq x y p : canonical x -> canonical y -> BigIntMultiplyImpl Allocate x y p = BigIntObjects.Multiply Allocate x y p.
Proof using Allocate_ok.
  intros Hx Hy. unfold BigIntMultiplyImpl, BigIntObjects.Multiply. destruct (is_zero x) eqn:Zx; [done|]. destruct (is_zero y) eqn:Zy; [done|].
  unfold AllocateEmptyBigIntNoThrow, MultiplyResultLength. rewrite New_spec. destruct (Z.ltb_spec kMaxLength (Z.of_nat (length (digits x) + length (digits y)))) as [|Hk]; [done|].
  destruct (Allocate_ok (length (digits x) + length (digits y))) as [A1 A2]. destruct (Nat.ltb_spec (length (digits x)) (length (digits y))).
  - rewrite AbsoluteMul_eq; [|done..|rewrite A2; lia|by rewrite A2]. rewrite MultiplySmall_swap; [done| |done]. destruct (nonzero_digits x Hx Zx) as (_ & ? & _). done.
  - rewrite AbsoluteMul_eq; [done|done..|by rewrite A2].
Qed.

Lemma CompareAbsolute_ltb x y : canonical x -> canonical y -> (BigIntCompareAbsolute x y <? 0) = (Compare (digits x) (digits y) <? 0).
Proof.
  intros Hx Hy. destruct (CompareAbsolute_cases x y Hx Hy) as (C1 & _ & _). destruct (Compare_cases (digits x) (digits y)) as (D1 & _ & _); auto with v8.
  destruct (Z.ltb_spec (BigIntCompareAbsolute x y) 0), (Z.ltb_spec (Compare (digits x) (digits y)) 0); try done; lia.
Qed.

Lemma AbsoluteDiv_computes zs s x y p : canonical x -> canonical y -> is_zero y = false -> (BigIntCompareAbsolute x y <? 0) = false ->
  digits_ok zs -> (length (digits x) - length (digits y) + 1 <= length zs)%nat -> Z.of_nat (length zs) <= kMaxLength ->
  computes (AbsoluteDivAndCanonicalize Allocate zs s (digits x) (digits y) p) p 0 (if s then - (dval (digits x) / dval (digits y)) else dval (digits x) / dval (digits y)).
Proof using Allocate_ok.
  intros Hx Hy Zy Hc Oz Lz Wz. rewrite CompareAbsolute_ltb in Hc by done. destruct (Divide_operands x y Hx Hy Zy Hc) as (_ & D2 & D3 & D4). pose proof (canonical_length x Hx).
  pose proof (division_computes Allocate Allocate_ok zs s x y p Hx Hy Zy Hc Oz Lz Wz) as Hd. unfold AbsoluteDivAndCanonicalize.
  pose proof (DivideSmall_spec (length zs) (digits x) (digits y) (canonical_digits x Hx) (canonical_digits y Hy) (canonical_normalized x Hx) (canonical_normalized y Hy) D2 Lz ltac:(lia)) as Hs.
  destruct (DivideSmall (length zs) (digits x) (digits y)) as [[qs top]| |]; [done| |done]. pose proof kMaxNumDigits_large.
  destruct (DivideLarge_spec Allocate Allocate_ok zs (digits x) (digits y) p Oz (canonical_digits x Hx) (canonical_digits y Hy) D3 (proj2 Hs) ltac:(lia) ltac:(lia)) as (qs & status & p' & He & _ & L2 & _).
  erewrite finish_absolute_eq; [exact Hd|exact He|]. intros ->. simpl in L2. lia.
Qed.

Lemma plain_modulo_computes zs s x y p : canonical x -> canonical y -> is_zero y = false -> (BigIntCompareAbsolute x y <? 0) = false ->
  digits_ok zs -> length zs = length (digits y) ->
  computes (plain_modulo Allocate zs s (digits x) (digits y) p) p 0 (if s then - (dval (digits x) mod dval (digits y)) else dval (digits x) mod dval (digits y)).
Proof using Allocate_ok.
  intros Hx Hy Zy Hc Oz Lz. rewrite CompareAbsolute_ltb in Hc by done. destruct (Divide_operands x y Hx Hy Zy Hc) as (_ & D2 & D3 & D4). pose proof (canonical_length x Hx).
  pose proof (remainder_computes Allocate Allocate_ok zs s x y p Hx Hy Zy Hc Oz Lz) as Hd. unfold plain_modulo.
  pose proof (ModuloSmall_spec (length zs) (digits x) (digits y) (canonical_digits x Hx) (canonical_digits y Hy) (canonical_normalized x Hx) (canonical_normalized y Hy) D2 ltac:(lia)) as Hs.
  destruct (ModuloSmall (length zs) (digits x) (digits y)) as [[qs top]| |]; [done| |done]. pose proof kMaxNumDigits_large.
  destruct (ModuloLarge_spec Allocate Allocate_ok zs (digits x) (digits y) p Oz (canonical_digits x Hx) (canonical_digits y Hy) D3 (proj2 Hs) ltac:(lia) ltac:(lia)) as (qs & status & p' & He & _ & L2 & _).
  erewrite finish_absolute_eq; [exact Hd|exact He|]. intros ->. simpl in L2. lia.
Qed.

Lemma magnitude_order x y : canonical x -> canonical y -> (BigIntCompareAbsolute x y <? 0) = true -> dval (digits x) < dval (digits y).
Proof. intros Hx Hy Hc%Z.ltb_lt. by apply (CompareAbsolute_cases x y). Qed.

Lemma BigIntDivideImpl_computes x y p : canonical x -> canonical y -> is_zero y = false -> computes (BigIntDivideImpl Allocate x y p) p 0 (value x ÷ value y).
Proof using Allocate_ok.
  intros Hx Hy Zy. unfold BigIntDivideImpl. rewrite Zy. destruct (nonzero_digits y Hy Zy) as (Y1 & _ & _).
  pose proof (dval_bounds (digits x) (canonical_digits x Hx)). rewrite !value_cases, quot_signed by lia. destruct (BigIntCompareAbsolute x y <? 0) eqn:Hc.
  { apply computes_delivers, delivers_fits; [done|]. rewrite Z.div_small by (split; [lia|by apply magnitude_order]). destruct empty_canonical. apply gives_value; [done|]. by destruct (xorb _ _). }
  destruct (_ && _) eqn:Ho.
  { rewrite (divisor_one y Hy Ho), Z.div_1_r. apply computes_delivers, delivers_fits; [done|]. by apply with_sign_gives. }
  assert ((Compare (digits x) (digits y) <? 0) = false) as Hc' by by rewrite <- CompareAbsolute_ltb. destruct (Divide_operands x y Hx Hy Zy Hc') as (_ & _ & _ & D4).
  pose proof (canonical_length x Hx). set (n := if (10 <? length (digits y))%nat then _ else _).
  assert ((length (digits x) - length (digits y) + 1 <= n)%nat /\ Z.of_nat n <= kMaxLength) as [Hn Hk] by (subst n; destruct (Nat.ltb_spec 10 (length (digits y))); lia).
  unfold AllocateEmptyBigIntNoThrow. rewrite New_fits by done. cbn [checked]. destruct (Allocate_ok n) as [A1 A2]. apply AbsoluteDiv_computes; [done..|by rewrite A2|by rewrite A2].
Qed.

(** ** The remainder and its cache *)

Lemma computes_after r p p' n v : (undisturbed p -> undisturbed p') -> computes r p' n v -> computes r p n v.
Proof. intros Hp [Hd Hu]. split; [done|]. intros H. by apply Hu, Hp. Qed.

(** The BigInts of the heap do not change. *)
Definition cache_ok (store : ref -> option bigint) (c : mod_cache) : Prop :=
  (forall r, cached_bigint_divisor c = Some r -> exists b, store r = Some b /\ canonical b /\ cacheable (digits b) = true /\
    cached_divisor_ c = digits b /\ inverse_ok (digits b) (cached_inverse_ c)) /\
  (forall r, next_cached_bigint_divisor c = Some r -> exists b, store r = Some b /\ cacheable (digits b) = true) /\
  0 <= divisor_count_ c <= kCachingThreshold /\
  (divisor_count_ c = kCachingThreshold -> next_cached_bigint_divisor c = cached_bigint_divisor c).

Lemma empty_cache_ok store : cache_ok store empty_cache.
Proof. unfold cache_ok, kCachingThreshold. simpl. split_all; by intros || lia. Qed.

Lemma cacheable_spec Y : cacheable Y = true <-> (2 <= length Y <= kMaxCachedModDivisorSize)%nat.
Proof. unfold cacheable. rewrite andb_true_iff, !Nat.leb_le. done. Qed.

(** The bookkeeping keeps the invariant; the 100th remainder in a row caches the divisor. *)
Lemma update_cache_spec store c y b p : cache_ok store c -> store y = Some b -> canonical b -> Some y <> cached_bigint_divisor c ->
  exists p' c', update_cache y (digits b) p c = Some (p', c') /\ cache_ok store c' /\ works p p'.
Proof.
  intros (C1 & C2 & C3 & C4) Hy Hb Hn. unfold update_cache, kCachingThreshold in *. destruct (bool_decide_reflect (Some y = next_cached_bigint_divisor c)) as [Hx|Hx].
  - assert (divisor_count_ c < 100) as Hlt by (destruct (decide (divisor_count_ c = 100)) as [E|]; [rewrite (C4 E) in Hx; congruence|lia]).
    assert (divisor_count_ (inc_divisor_count c) = divisor_count_ c + 1) as Hi by (simpl; apply swrap_id; lia). rewrite Hi.
    destruct (C2 y (eq_sym Hx)) as (b' & Hb' & Hk). assert (b' = b) as -> by congruence.
    destruct (Z.eqb_spec (divisor_count_ c + 1) 100) as [He|He].
    + rewrite Hk. apply cacheable_spec in Hk. destruct (normalized_cases (digits b) (canonical_normalized b Hb)) as [H0|[_ Hm]]; [rewrite H0 in Hk; simpl in Hk; lia|].
      destruct (CachedMod_MakeInverse_spec (digits b) p (canonical_digits b Hb) (proj1 Hk) Hm) as (inv & p' & -> & I1 & I2).
      do 2 eexists. split; [reflexivity|]. split; [|done]. unfold cache_ok, kCachingThreshold. cbn [cached_bigint_divisor next_cached_bigint_divisor divisor_count_ cached_divisor_ cached_inverse_ SetCachedBigIntDivisor inc_divisor_count] in *.
      split_all; [intros r [= <-]; exists b; split_all; try done; by apply cacheable_spec|done|lia|lia|by intros _].
    + do 2 eexists. split; [reflexivity|]. split; [|reflexivity]. unfold cache_ok, kCachingThreshold. rewrite Hi. split_all; [done|done|lia|lia|lia].
  - destruct (cacheable (digits b)) eqn:Hk.
    + do 2 eexists. split; [reflexivity|]. split; [|reflexivity]. unfold cache_ok, kCachingThreshold. simpl. split_all; [done|intros r [= <-]; by exists b|lia|lia|lia].
    + do 2 eexists. split; [reflexivity|]. split; [done|reflexivity].
Qed.

(** Whatever the cache holds, the remainder is the remainder. *)
Lemma BigIntModulusImpl_computes store c x y b p : cache_ok store c -> store y = Some b -> canonical x -> canonical b -> is_zero b = false ->
  let r := BigIntModulusImpl Allocate x y b p c in computes r.1 p 0 (Z.rem (value x) (value b)) /\ cache_ok store r.2.
Proof using Allocate_ok.
  intros Hc Hy Hx Hb Zb r. subst r. unfold BigIntModulusImpl. rewrite Zb. destruct (nonzero_digits b Hb Zb) as (Y1 & Nb & _).
  pose proof (dval_bounds (digits x) (canonical_digits x Hx)). rewrite (value_cases x), (value_cases b), rem_signed by lia. destruct (BigIntCompareAbsolute x b <? 0) eqn:Ho.
  { split; [|done]. apply computes_delivers, delivers_fits; [done|]. rewrite Z.mod_small by (split; [lia|by apply magnitude_order]). by apply gives_value. }
  destruct (_ && _) eqn:H1.
  { split; [|done]. rewrite (divisor_one b Hb H1), Z.mod_1_r. apply computes_delivers, delivers_fits; [done|]. destruct empty_canonical. apply gives_value; [done|]. by destruct (sign x). }
  assert ((Compare (digits x) (digits b) <? 0) = false) as Hc' by by rewrite <- CompareAbsolute_ltb. destruct (Divide_operands x b Hx Hb Zb Hc') as (_ & _ & _ & D4).
  pose proof (canonical_length b Hb). unfold AllocateEmptyBigIntNoThrow. rewrite New_fits by done. cbn [checked]. destruct (Allocate_ok (length (digits b))) as [A1 A2].
  unfold AbsoluteModAndCanonicalize. destruct (bool_decide_reflect (Some y = cached_bigint_divisor c)) as [Hi|Hi].
  - destruct Hc as (C1 & Crest). destruct (C1 y (eq_sym Hi)) as (b' & Hb' & _ & Hk & Hd & Hv). assert (b' = b) as -> by congruence. apply cacheable_spec in Hk.
    rewrite Hd. destruct (Nat.leb_spec (length (digits x)) (2 * length (digits b))) as [Hl|Hl].
    + destruct (Allocate_ok kSmallScratchSize) as [B1 B2].
      destruct (CachedMod_spec (digits b) (cached_inverse_ c) (Allocate kSmallScratchSize) (Allocate (length (digits b))) (digits x)
        (canonical_digits b Hb) Hk ltac:(lia) Hv B1 B2 (canonical_digits x Hx) ltac:(lia) A2) as (R & -> & R1 & R2 & R3).
      split; [|by split]. apply computes_delivers, delivers_fits; [done|]. apply gives_MakeImmutable_top; [done|congruence|lia|lia|]. unfold signed. by rewrite R1.
    + split; [|by split]. by apply plain_modulo_computes.
  - destruct (update_cache_spec store c y b p Hc Hy Hb Hi) as (p' & c' & -> & U1 & U2). split; [|done].
    apply (computes_after _ _ p'); [by apply works_undisturbed|]. by apply plain_modulo_computes.
Qed.

(** ** Bitwise operators *)

(** Both operands are not zero: an operation without and with an allocation that can fail. *)
Lemma delivers_allocated n (k : list Z -> completion bigint) v : (Z.of_nat n <= kMaxLength -> gives (k (Allocate n)) v) ->
  delivers (AllocateEmptyBigIntNoThrow Allocate n ≫= k) n v.
Proof. apply delivers_New. Qed.

Lemma gives_allocated n (k : list Z -> completion bigint) v : Z.of_nat n <= kMaxLength -> gives (k (Allocate n)) v ->
  gives (checked (AllocateEmptyBigIntNoThrow Allocate n) ≫= k) v.
Proof. intros Hn Hk. unfold AllocateEmptyBigIntNoThrow. by rewrite New_fits. Qed.

(** Both operands are negative, or their signs differ: one digit more than the longer one. *)
Definition one_more (x y : bigint) : nat := (Nat.max (length (digits x)) (length (digits y)) + 1)%nat.

Definition and_length (x y : bigint) : nat := if negb (is_zero x) && negb (is_zero y) && sign x && sign y then one_more x y else 0%nat.
Definition xor_length (x y : bigint) : nat := if negb (is_zero x) && negb (is_zero y) && xorb (sign x) (sign y) then one_more x y else 0%nat.

Lemma operands x : canonical x -> is_zero x = false -> digits_ok (digits x) /\ 1 <= dval (digits x) /\ (1 <= length (digits x))%nat /\ Z.of_nat (length (digits x)) <= kMaxLength.
Proof. intros Hx Hz. destruct (nonzero_digits x Hx Hz) as (? & _ & _). pose proof (length_nonzero x Hz). split_all; auto with v8. Qed.

Lemma canonicalized_some s n o X v : o = Some X -> represents n X (if s : bool then - v else v) -> (1 <= n)%nat -> Z.of_nat n <= kMaxLength -> gives (canonicalized s o) v.
Proof. intros ->. apply gives_canonicalized. Qed.

Lemma BigIntBitwiseAndImpl_delivers x y : canonical x -> canonical y ->
  delivers (BigIntBitwiseAndImpl Allocate x y) (and_length x y) (Z.land (value x) (value y)).
Proof using Allocate_ok.
  intros Hx Hy. unfold BigIntBitwiseAndImpl, and_length. destruct (is_zero x) eqn:Zx.
  { apply delivers_fits; [done|]. by apply gives_value; [|rewrite (zero_value x) by done]. }
  destruct (is_zero y) eqn:Zy; cbn [negb andb].
  { apply delivers_fits; [done|]. apply gives_value; [done|]. rewrite (zero_value y) by done. by rewrite Z.land_0_r. }
  destruct (operands x Hx Zx) as (X1 & X2 & X3 & X4). destruct (operands y Hy Zy) as (Y1 & Y2 & Y3 & Y4). rewrite !value_cases.
  destruct (sign x), (sign y); cbn [andb].
  - apply delivers_allocated. intros Hn. destruct (Allocate_ok (one_more x y)) as [_ Hl]. unfold one_more in *. rewrite Hl.
    destruct (BitwiseAnd_NegNeg_spec (Nat.max (length (digits x)) (length (digits y)) + 1) (digits x) (digits y) X1 Y1 X2 Y2 ltac:(lia)) as (r & He & Hr).
    eapply canonicalized_some; [exact He|exact Hr|lia|done].
  - apply delivers_fits; [done|]. apply gives_allocated; [done|]. destruct (Allocate_ok (length (digits y))) as [_ ->]. rewrite Z.land_comm.
    eapply canonicalized_some; [done|apply BitwiseAnd_PosNeg_spec|done|done]; done.
  - apply delivers_fits; [done|]. apply gives_allocated; [done|]. destruct (Allocate_ok (length (digits x))) as [_ ->].
    eapply canonicalized_some; [done|apply BitwiseAnd_PosNeg_spec|done|done]; done.
  - apply delivers_fits; [done|]. apply gives_allocated; [lia|]. destruct (Allocate_ok (Nat.min (length (digits x)) (length (digits y)))) as [_ ->].
    eapply canonicalized_some; [done|apply BitwiseAnd_PosPos_spec|lia|lia]; done.
Qed.

Lemma BigIntBitwiseOrImpl_gives x y : canonical x -> canonical y -> gives (BigIntBitwiseOrImpl Allocate x y) (Z.lor (value x) (value y)).
Proof using Allocate_ok.
  intros Hx Hy. unfold BigIntBitwiseOrImpl. destruct (is_zero x) eqn:Zx.
  { by apply gives_value; [|rewrite (zero_value x) by done]. }
  destruct (is_zero y) eqn:Zy; [apply gives_value; [done|]; rewrite (zero_value y) by done; by rewrite Z.lor_0_r|].
  destruct (operands x Hx Zx) as (X1 & X2 & X3 & X4). destruct (operands y Hy Zy) as (Y1 & Y2 & Y3 & Y4). rewrite !value_cases. cbv zeta.
  apply gives_allocated; [lia|]. set (n := Nat.max _ _). destruct (Allocate_ok n) as [_ ->]. assert ((1 <= n)%nat /\ Z.of_nat n <= kMaxLength) as [N1 N2] by (subst n; lia).
  destruct (sign x), (sign y).
  - destruct (BitwiseOr_NegNeg_spec n (digits x) (digits y) X1 Y1 X2 Y2 ltac:(lia)) as (r & He & Hr). by eapply canonicalized_some.
  - destruct (BitwiseOr_PosNeg_spec n (digits y) (digits x) Y1 X1 X2 ltac:(lia)) as (r & He & Hr). rewrite Z.lor_comm. by eapply canonicalized_some.
  - destruct (BitwiseOr_PosNeg_spec n (digits x) (digits y) X1 Y1 Y2 ltac:(lia)) as (r & He & Hr). by eapply canonicalized_some.
  - eapply canonicalized_some; [done|apply BitwiseOr_PosPos_spec|done|done]; done.
Qed.

Lemma BigIntBitwiseXorImpl_delivers x y : canonical x -> canonical y ->
  delivers (BigIntBitwiseXorImpl Allocate x y) (xor_length x y) (Z.lxor (value x) (value y)).
Proof using Allocate_ok.
  intros Hx Hy. unfold BigIntBitwiseXorImpl, xor_length. destruct (is_zero x) eqn:Zx.
  { apply delivers_fits; [done|]. by apply gives_value; [|rewrite (zero_value x) by done]. }
  destruct (is_zero y) eqn:Zy; cbn [negb andb].
  { apply delivers_fits; [done|]. apply gives_value; [done|]. rewrite (zero_value y) by done. by rewrite Z.lxor_0_r. }
  destruct (operands x Hx Zx) as (X1 & X2 & X3 & X4). destruct (operands y Hy Zy) as (Y1 & Y2 & Y3 & Y4). rewrite !value_cases. cbv zeta. unfold one_more.
  set (n := Nat.max (length (digits x)) (length (digits y))). assert ((1 <= n)%nat /\ Z.of_nat n <= kMaxLength) as [N1 N2] by (subst n; lia).
  destruct (sign x), (sign y); cbn [xorb].
  - apply delivers_fits; [done|]. apply gives_allocated; [done|]. destruct (Allocate_ok n) as [_ ->].
    eapply canonicalized_some; [done|apply BitwiseXor_NegNeg_spec|done|done]; done.
  - apply delivers_allocated. intros Hn. destruct (Allocate_ok (n + 1)) as [_ ->].
    destruct (BitwiseXor_PosNeg_spec (n + 1) (digits y) (digits x) Y1 X1 X2 ltac:(lia)) as (r & He & Hr). rewrite Z.lxor_comm. eapply canonicalized_some; [exact He|exact Hr|lia|done].
  - apply delivers_allocated. intros Hn. destruct (Allocate_ok (n + 1)) as [_ ->].
    destruct (BitwiseXor_PosNeg_spec (n + 1) (digits x) (digits y) X1 Y1 Y2 ltac:(lia)) as (r & He & Hr). eapply canonicalized_some; [exact He|exact Hr|lia|done].
  - apply delivers_fits; [done|]. apply gives_allocated; [done|]. destruct (Allocate_ok n) as [_ ->].
    eapply canonicalized_some; [done|apply BitwiseXor_PosPos_spec|done|done]; done.
Qed.

(** ** Shifts *)

Lemma kMaxBits_small : kMaxBits < 2 ^ 30.
Proof. done. Qed.

(** The length of a left shift is exact. *)
Lemma left_shift_length_spec X shift : digits_ok X -> X <> [] -> msd X <> 0 -> 0 <= shift ->
  let n := left_shift_length X shift in
  weight (n - 1) <= dval X * 2 ^ shift < weight n /\ (length X + Z.to_nat (shift / kDigitBits) <= n)%nat.
Proof.
  intros HX Hn Hm Hs n. subst n. unfold left_shift_length. fold (msd X). assert (0 < length X)%nat as L0 by (destruct X; [done|simpl; lia]).
  pose proof (digit_at X (length X - 1) HX) as Hd. fold (msd X) in Hd. unfold digit_ok in Hd.
  pose proof (msd_split X Hn) as Hv. pose proof (dval_take_small X (length X - 1) HX) as Ht. set (d := Z.to_nat (shift / kDigitBits)). set (b := shift mod kDigitBits).
  pose proof (Z.mod_pos_bound shift kDigitBits ltac:(done)) as Hb. fold b in Hb. pose proof (Z.div_pos shift kDigitBits Hs ltac:(done)) as Hq.
  assert (2 ^ shift = weight d * 2 ^ b) as ->.
  { rewrite weight_pow2, <- Z.pow_add_r by (unfold kDigitBits in *; lia). f_equal. subst d b. rewrite Z2Nat.id by done. by apply Z_div_mod_eq_full. }
  assert (digit_base = 2 ^ (kDigitBits - b) * 2 ^ b) as HB by (unfold digit_base; rewrite <- Z.pow_add_r by lia; f_equal; lia).
  pose proof (Z.pow_pos_nonneg 2 b ltac:(lia) ltac:(lia)) as Pb. pose proof (Z.pow_pos_nonneg 2 (kDigitBits - b) ltac:(lia) ltac:(lia)) as Pc.
  set (W := weight (length X - 1)) in *. pose proof (weight_pos (length X - 1)) as PW. fold W in PW. pose proof (weight_pos d) as Pd.
  assert (dval X * 2 ^ b < W * ((msd X + 1) * 2 ^ b)) as Hup by nia. assert (W * (msd X * 2 ^ b) <= dval X * 2 ^ b) as Hlo by nia.
  assert (Z.shiftr (msd X) (kDigitBits - b) = msd X / 2 ^ (kDigitBits - b)) as Hsh by (apply Z.shiftr_div_pow2; lia). rewrite Hsh.
  assert (weight (length X + d) = W * digit_base * weight d) as Hw.
  { replace (length X + d)%nat with (S (length X - 1) + d)%nat by lia. rewrite weight_add, weight_S. subst W. ring. }
  destruct (negb (b =? 0) && _) eqn:Hc.
  - apply andb_true_iff in Hc as [_ Hc]. apply negb_true_iff, Z.eqb_neq in Hc.
    assert (2 ^ (kDigitBits - b) <= msd X) as Hge by (destruct (Z_lt_le_dec (msd X) (2 ^ (kDigitBits - b))); [rewrite Z.div_small in Hc by lia; done|done]).
    assert (digit_base <= msd X * 2 ^ b) as H1 by nia. assert (2 ^ b <= digit_base) as H2 by nia. split; [|lia].
    replace (S (length X + d) - 1)%nat with (length X + d)%nat by lia. rewrite weight_S, Hw. split.
    + assert (W * digit_base <= dval X * 2 ^ b) by nia. nia.
    + assert ((msd X + 1) * 2 ^ b <= digit_base * digit_base) by nia. assert (dval X * 2 ^ b < W * (digit_base * digit_base)) by nia. nia.
  - assert ((msd X + 1) * 2 ^ b <= digit_base) as H1.
    { apply andb_false_iff in Hc as [Hc|Hc]; apply negb_false_iff, Z.eqb_eq in Hc.
      - rewrite Hc, Z.pow_0_r. lia.
      - apply Z.div_small_iff in Hc; [|lia]. nia. }
    split; [|lia]. rewrite Hw. replace (length X + d - 1)%nat with (length X - 1 + d)%nat by lia. rewrite weight_add. fold W. split.
    + assert (W <= dval X * 2 ^ b) by nia. nia.
    + assert (dval X * 2 ^ b < W * digit_base) by nia. nia.
Qed.

Lemma shift_amount y : canonical y -> is_zero y = false ->
  (1 <? length (digits y))%nat = true /\ kMaxBits < Z.abs (value y) \/ (1 <? length (digits y))%nat = false /\ (digits y).[O] = Z.abs (value y).
Proof.
  intros Hy Hz. pose proof kMaxBits_small. rewrite value_abs by done. destruct (digit_count y Hy) as [[? _]|[(_ & Hl & Hd & _ & _)|(_ & Hl & Hd)]]; [congruence|right|left].
  - by rewrite Hl, Hd.
  - split; [by apply Nat.ltb_lt|]. rewrite digit_base_eq in Hd. lia.
Qed.

Lemma long_shift X shift : X <> [] -> kMaxBits < shift -> kMaxLength < Z.of_nat (left_shift_length X shift).
Proof.
  intros Hn Hs. unfold left_shift_length. assert (kMaxLength <= shift / kDigitBits) as Hd.
  { apply Z.div_le_lower_bound; [done|]. rewrite kMaxBits_eq in Hs. unfold kDigitBits. lia. }
  assert (0 < length X)%nat by (destruct X; [done|simpl; lia]). assert (0 <= kMaxLength) by done. destruct (_ && _); lia.
Qed.

(** The digits of x << y. *)
Definition left_shift_needed (x : bigint) (n : Z) : nat := if is_zero x then 0%nat else left_shift_length (digits x) n.

Lemma LeftShiftByAbsolute_delivers x y : canonical x -> canonical y ->
  delivers (MutableBigIntLeftShiftByAbsolute Allocate x y) (left_shift_needed x (Z.abs (value y))) (value x * 2 ^ Z.abs (value y)).
Proof using Allocate_ok.
  intros Hx Hy. unfold MutableBigIntLeftShiftByAbsolute, left_shift_needed. destruct (is_zero x) eqn:Zx.
  { apply delivers_fits; [done|]. apply gives_value; [done|]. by rewrite (zero_value x). }
  destruct (is_zero y) eqn:Zy.
  { rewrite (zero_value y) by done. simpl (Z.abs 0). rewrite Z.pow_0_r, Z.mul_1_r. apply delivers_fits; [|by apply gives_value].
    unfold left_shift_length. simpl. rewrite Nat.add_0_r. by apply canonical_length. }
  destruct (nonzero_digits x Hx Zx) as (_ & Nx & Mx). destruct (shift_amount y Hy Zy) as [[-> Hl]|[-> ->]].
  { unfold delivers. by rewrite (proj2 (Z.ltb_lt _ _) (long_shift _ _ Nx Hl)). }
  destruct (Z.ltb_spec kMaxBits (Z.abs (value y))) as [Hl|Hl].
  { unfold delivers. by rewrite (proj2 (Z.ltb_lt _ _) (long_shift _ _ Nx Hl)). }
  set (n := Z.abs (value y)) in *. destruct (left_shift_length_spec (digits x) n (canonical_digits x Hx) Nx Mx ltac:(lia)) as [[_ B2] B3].
  apply delivers_allocated. intros Hk. destruct (Allocate_ok (left_shift_length (digits x) n)) as [_ ->].
  pose proof (length_nonzero x Zx). pose proof kMaxBits_small.
  destruct (LeftShift_spec (left_shift_length (digits x) n) (digits x) n (canonical_digits x Hx) ltac:(lia) B3 B2) as (S1 & S2 & S3).
  apply gives_MakeImmutable; [done|intros He; rewrite He in S3; simpl in S3; lia|by rewrite S3|].
  unfold value, signed. rewrite S1. destruct (sign x); lia.
Qed.

Lemma RightShiftByMaximum_gives x n : canonical x -> is_zero x = false -> 0 <= n -> dval (digits x) < 2 ^ n ->
  gives (Value (RightShiftByMaximum (sign x))) (Z.shiftr (value x) n).
Proof.
  intros Hx Hz Hn Hl. destruct (nonzero_digits x Hx Hz) as (N1 & _ & _). rewrite Z.shiftr_div_pow2, value_cases by done. destruct (sign x).
  - replace (- dval (digits x) / 2 ^ n) with (-1) by (apply (Z.div_unique_pos _ _ _ (2 ^ n - dval (digits x))); lia).
    apply gives_value; by apply (MakeImmutable_one true 1).
  - rewrite Z.div_small by lia. apply gives_value; apply empty_canonical.
Qed.

(** The packed result of RightShiftResultLength. *)
Lemma unpack_length (b : bool) n : Z.of_nat n < 2 ^ 30 -> let r := Z.lor (wrap 32 (Z.shiftl (Z.b2z b) 30)) (Z.of_nat n) in
  (Z.shiftr r 30 =? 1) = b /\ Z.to_nat (Z.land r (Z.shiftl 1 30 - 1)) = n.
Proof.
  intros Hn r. assert (r = Z.b2z b * 2 ^ 30 + Z.of_nat n) as ->.
  { subst r. rewrite Z.shiftl_mul_pow2 by lia. unfold wrap. rewrite Z.mod_small by (destruct b; simpl; lia). symmetry.
    rewrite <- Z.lxor_lor; [apply Z.add_nocarry_lxor|]; apply Z.bits_inj'; intros i Hi; rewrite Z.land_spec, Z.bits_0;
      (destruct (Z_lt_le_dec i 30); [rewrite Z.mul_pow2_bits_low by lia; done|rewrite (Z.testbit_eqb (Z.of_nat n)) by lia;
       rewrite (Z.div_small (Z.of_nat n)) by (pose proof (Z.pow_le_mono_r 2 30 i); lia); apply andb_false_r]). }
  change (Z.shiftl 1 30 - 1) with (Z.ones 30). rewrite Z.land_ones, Z.shiftr_div_pow2 by lia. rewrite Z.add_comm, Z.mod_add, Z.div_add, Z.mod_small, (Z.div_small (Z.of_nat n)), Nat2Z.id by lia.
  by destruct b.
Qed.

Lemma RightShift_ResultLength_bound X s shift : digits_ok X -> 0 <= shift < 2 ^ 38 -> ((RightShift_ResultLength X s shift).1 <= length X)%nat.
Proof.
  intros HX Hs. unfold RightShift_ResultLength. set (d := Z.to_nat _). destruct (Nat.leb_spec (length X) d); [simpl; lia|]. cbn [fst].
  destruct s; [|simpl; lia]. destruct (Z.eqb_spec (shift mod kDigitBits) 0) as [Hb|Hb]; [|rewrite andb_false_r; lia]. rewrite andb_true_r, Hb. change (Z.shiftl 1 0 - 1) with 0. rewrite Z.land_0_r. simpl negb. cbv iota.
  destruct (existsb _ (take d X)) eqn:He; [|lia]. assert (1 <= d)%nat by (destruct d; [done|lia]). destruct (digit_ismax _); lia.
Qed.

Lemma RightShiftByAbsolute_gives x y : canonical x -> canonical y -> gives (MutableBigIntRightShiftByAbsolute Allocate x y) (Z.shiftr (value x) (Z.abs (value y))).
Proof using Allocate_ok.
  intros Hx Hy. unfold MutableBigIntRightShiftByAbsolute. destruct (is_zero x) eqn:Zx.
  { apply gives_value; [done|]. rewrite (zero_value x) by done. by rewrite Z.shiftr_0_l. }
  destruct (is_zero y) eqn:Zy; [rewrite (zero_value y) by done; by apply gives_value|].
  destruct (operands x Hx Zx) as (X1 & X2 & X3 & X4). pose proof (dval_max_bits x Hx) as Hmax. pose proof kMaxBits_small as Hsmall. assert (0 <= kMaxBits) as Hnonneg by done.
  assert (kMaxBits < Z.abs (value y) -> gives (Value (RightShiftByMaximum (sign x))) (Z.shiftr (value x) (Z.abs (value y)))) as Hlong.
  { intros Hl. apply RightShiftByMaximum_gives; [done|done|lia|]. pose proof (Z.pow_le_mono_r 2 kMaxBits (Z.abs (value y)) ltac:(lia) ltac:(lia)). lia. }
  destruct (shift_amount y Hy Zy) as [[-> Hl]|[-> ->]]; [by apply Hlong|]. destruct (Z.ltb_spec kMaxBits (Z.abs (value y))) as [Hl|Hl]; [by apply Hlong|]. clear Hlong.
  set (n := Z.abs (value y)) in *. assert (0 <= n < 2 ^ 38) as Hn by lia. cbv zeta. unfold RightShiftResultLength.
  pose proof (RightShift_ResultLength_bound (digits x) (sign x) n X1 Hn) as Hb. pose proof (RightShift_ResultLength_zero (digits x) (sign x) n X1 Hn (canonical_normalized x Hx)) as Hzero.
  destruct (RightShift_ResultLength (digits x) (sign x) n) as [l round] eqn:He. cbn [fst] in *. rewrite kMaxLength_eq in X4.
  destruct (unpack_length round l ltac:(lia)) as [-> ->]. destruct (Nat.eqb_spec l 0) as [->|H0].
  - apply RightShiftByMaximum_gives; [done|done|lia|]. destruct (Hzero) as [Hz _]. specialize (Hz eq_refl). eapply Z.lt_le_trans; [exact Hz|]. rewrite weight_pow2.
    apply Z.pow_le_mono_r; [lia|]. pose proof (Z.div_pos n kDigitBits ltac:(lia) ltac:(done)). rewrite Z2Nat.id by done. apply Z.mul_div_le. done.
  - rewrite <- kMaxLength_eq in X4. apply gives_allocated; [lia|]. destruct (Allocate_ok l) as [_ ->].
    destruct (RightShift_spec (digits x) (sign x) n l round X1 Hn He H0) as (r & -> & Hr). eapply (canonicalized_some _ l); [done| |lia|lia].
    rewrite value_cases, <- shifted_magnitude_signed by lia. destruct (sign x); [rewrite Z.opp_involutive|]; done.
Qed.

Lemma BigIntShiftLeftImpl_delivers x y : canonical x -> canonical y ->
  delivers (BigIntShiftLeftImpl Allocate x y) (if sign y then 0 else left_shift_needed x (Z.abs (value y))) (Z.shiftl (value x) (value y)).
Proof using Allocate_ok.
  intros Hx Hy. unfold BigIntShiftLeftImpl. pose proof (sign_cases y Hy) as Hs. destruct (sign y).
  - symmetry in Hs. apply Z.ltb_lt in Hs. apply delivers_fits; [done|]. replace (value y) with (- Z.abs (value y)) by lia. rewrite Z.shiftl_opp_r by lia. by apply RightShiftByAbsolute_gives.
  - symmetry in Hs. apply Z.ltb_ge in Hs. rewrite Z.shiftl_mul_pow2 by done. replace (value y) with (Z.abs (value y)) at 2 by lia. by apply LeftShiftByAbsolute_delivers.
Qed.

Lemma BigIntShiftRightImpl_delivers x y : canonical x -> canonical y ->
  delivers (BigIntShiftRightImpl Allocate x y) (if sign y then left_shift_needed x (Z.abs (value y)) else 0) (Z.shiftr (value x) (value y)).
Proof using Allocate_ok.
  intros Hx Hy. unfold BigIntShiftRightImpl. pose proof (sign_cases y Hy) as Hs. destruct (sign y).
  - symmetry in Hs. apply Z.ltb_lt in Hs. replace (Z.shiftr (value x) (value y)) with (value x * 2 ^ Z.abs (value y)); [by apply LeftShiftByAbsolute_delivers|].
    rewrite <- Z.shiftl_mul_pow2 by lia. replace (Z.abs (value y)) with (- value y) by lia. by rewrite Z.shiftl_opp_r by lia.
  - symmetry in Hs. apply Z.ltb_ge in Hs. apply delivers_fits; [done|]. replace (value y) with (Z.abs (value y)) by lia. by apply RightShiftByAbsolute_gives.
Qed.
End operators.
