(* ===== verification/BigIntProperties.v ===== *)
(** The properties of BigInts: the digit algorithms agree with each other and with the integers,
    the operators compute the operations of the integers, and conversions are exact. *)
From S2P Require Import Prelude Conversions JSHeap Digits DigitsLinear DigitsMultiply DigitDivision DigitsDivide DigitsBitwise Karatsuba Burnikel CachedMod BigIntObjects BigIntTheorems BigIntArithmetic BigIntOperators BigIntOperatorTheorems.

(** An allocator of digit vectors, with any contents. *)
Definition allocates (Allocate : nat -> list Z) : Prop := forall n, digits_ok (Allocate n) /\ length (Allocate n) = n.

Lemma uninitialised_allocates : allocates uninitialised.
Proof. intros n. split; [by apply Forall_replicate|apply length_replicate]. Qed.

(** Deciding the hypotheses of the witnesses. *)
Definition digit_okb (d : Z) : bool := (0 <=? d) && (d <? digit_base).

Lemma digits_okb X : forallb digit_okb X = true -> digits_ok X.
Proof.
  rewrite forallb_forall. intros H. apply Forall_forall. intros d Hd%list_elem_of_In. apply H, andb_true_iff in Hd as [H1%Z.leb_le H2%Z.ltb_lt]. by split.
Qed.

Definition canonicalb (x : bigint) : bool :=
  forallb digit_okb (digits x) && IsDigitNormalized (digits x) && (negb (is_zero x) || negb (sign x)) && (Z.of_nat (length (digits x)) <=? kMaxLength).

Lemma canonicalb_canonical x : canonicalb x = true -> canonical x.
Proof.
  unfold canonicalb. rewrite !andb_true_iff. intros (((H1 & H2) & H3) & H4). constructor; [by apply digits_okb|done| |by apply Z.leb_le].
  intros H. apply is_zero_digits in H. rewrite H in H3. by destruct (sign x).
Qed.

Lemma quiet_undisturbed : undisturbed quiet.
Proof. by split. Qed.

(** The hypotheses of a witness, by evaluation. *)
Ltac concrete :=
  repeat match goal with |- _ /\ _ => split end;
  solve [apply digits_okb; vm_compute; reflexivity | apply canonicalb_canonical; vm_compute; reflexivity
    | apply Nat.leb_le; vm_compute; reflexivity | apply Nat.ltb_lt; vm_compute; reflexivity
    | apply Z.leb_le; vm_compute; reflexivity | vm_compute; reflexivity | vm_compute; discriminate].

(** ** Digits *)

(** The arithmetic on half digits, for machines without a double-width integer, is that of the double-width integers; both divisions of two digits by one are exact. *)
Theorem digit_helpers a b c : digit_ok a -> digit_ok b -> digit_ok c ->
  portable_add2 a b = digit_add2 a b /\ portable_add3 a b c = digit_add3 a b c /\
  portable_sub a b = digit_sub a b /\ (c <= 1 -> portable_sub2 a b c = digit_sub2 a b c) /\ portable_mul a b = digit_mul a b /\
  (a < b -> digit_div a c b = ((a * digit_base + c) / b, (a * digit_base + c) mod b) /\
    (digit_base <= 2 * b -> DigitDivision.div (new_MultiplicativeDigitDiv b) a c = digit_div a c b)).
Proof.
  intros Ha Hb Hc. pose proof (portable_add2_eq a b Ha Hb). pose proof (portable_add3_eq a b c Ha Hb Hc). pose proof (portable_sub_eq a b Ha Hb). pose proof (portable_mul_eq a b Ha Hb).
  split_all; [done|done|done| |done|]; unfold digit_ok in *.
  - intros Hc1. apply portable_sub2_eq; [done|done|lia].
  - intros Hlt. rewrite digit_div_spec by (done || lia). split; [done|]. intros Hn.
    rewrite div_spec; [done|apply ComputeInverse_spec; unfold digit_ok; lia|done|simpl; lia].
Qed.

Example digit_helpers_witness : let a := 12345678901234567890 in let b := 16045690984503098046 in
  digit_ok a /\ digit_div a 1 b = ((a * digit_base + 1) / b, (a * digit_base + 1) mod b) /\ DigitDivision.div (new_MultiplicativeDigitDiv b) a 1 = digit_div a 1 b.
Proof.
  assert (digit_ok 12345678901234567890 /\ digit_ok 16045690984503098046 /\ digit_ok 1) as (Ha & Hb & Hc) by by vm_compute.
  destruct (digit_helpers 12345678901234567890 16045690984503098046 1 Ha Hb Hc) as (_ & _ & _ & _ & _ & H).
  destruct (H eq_refl) as [H1 H2]. split; [exact Ha|split; [exact H1|]]. apply H2. by vm_compute.
Defined.

(** C29. Karatsuba multiplication gives the digits of the schoolbook algorithm, whatever the memory it allocates holds, unless an interrupt ends it; without interrupts it completes. *)
Theorem karatsuba_is_schoolbook Allocate zs X Y p : allocates Allocate -> digits_ok zs -> digits_ok X -> digits_ok Y ->
  (kKaratsubaThreshold <= length Y <= length X)%nat -> (length X + length Y <= length zs)%nat -> Z.of_nat (length zs) <= kMaxNumDigits ->
  let '(zs', p') := MultiplyKaratsuba Allocate zs X Y p in
  (should_terminate p' = false -> zs' = (MultiplySchoolbook (length zs) X Y).1 /\ dval zs' = dval X * dval Y) /\
  (undisturbed p -> should_terminate p' = false).
Proof.
  intros HA Hz HX HY Hl Lz Wz%kMaxNumDigits_small. pose proof (MultiplyKaratsuba_spec Allocate HA zs X Y p Hz HX HY Hl Lz Wz) as HK.
  destruct (MultiplyKaratsuba Allocate zs X Y p) as [zs' p']. destruct HK as (K1 & K2 & K3 & K4).
  destruct (MultiplySchoolbook_spec (length zs) X Y HX HY ltac:(lia) Lz ltac:(lia)) as (S1 & S2 & S3). split.
  - intros Ht. specialize (K4 Ht). split; [|done]. apply dval_inj; [done|done|congruence|congruence].
  - intros Hu. by apply (works_undisturbed p p').
Qed.

Example karatsuba_is_schoolbook_witness : let X := test_digits 40 123456789012345678 in let Y := test_digits 36 98765432109876543 in
  (MultiplyKaratsuba uninitialised (uninitialised 76) X Y quiet).1 = (MultiplySchoolbook 76 X Y).1.
Proof.
  assert (digits_ok (uninitialised 76) /\ digits_ok (test_digits 40 123456789012345678) /\ digits_ok (test_digits 36 98765432109876543)) as (H1 & H2 & H3)
    by (split; [|split]; concrete).
  pose proof (karatsuba_is_schoolbook uninitialised (uninitialised 76) (test_digits 40 123456789012345678) (test_digits 36 98765432109876543) quiet
    uninitialised_allocates H1 H2 H3 ltac:(concrete) ltac:(concrete) ltac:(concrete)) as H.
  cbv zeta. destruct (MultiplyKaratsuba _ _ _ _ _) as [zs' p']. destruct H as [Hd Hu]. apply (Hd (Hu quiet_undisturbed)).
Defined.

(** C14. Burnikel-Ziegler division ends, with every correction loop, and gives the quotient and the remainder of Algorithm D, unless an interrupt ends it. *)
Theorem burnikel_ziegler_is_schoolbook Allocate Q R A B p : allocates Allocate -> digits_ok Q -> digits_ok R -> digits_ok A -> digits_ok B -> msd B <> 0 ->
  (kBurnikelThreshold <= length B <= length A)%nat -> (length A < length Q + length B)%nat -> (length B <= length R)%nat -> 2 * Z.of_nat (length B) <= kMaxNumDigits ->
  exists Q' R' p', DivideBurnikelZiegler Allocate Q R A B p = Some (Q', R', p') /\
    (should_terminate p' = false -> (Q', R') = (DivideSchoolbook (length Q) (length R) A B p).1 /\ dval Q' = dval A / dval B /\ dval R' = dval A mod dval B) /\
    (undisturbed p -> should_terminate p' = false).
Proof.
  intros HA HQ HR OA OB Hm Hl LQ LR Wl. assert (kBurnikelThreshold = 57%nat) as Hk by done.
  destruct (DivideBurnikelZiegler_spec Allocate HA Q R A B p HQ HR OA OB Hm Hl LQ (or_intror LR) Wl) as (Q' & R' & p' & He & D1 & D2 & D3 & D4 & D5 & D6).
  exists Q', R', p'. split; [done|]. split; [|intros Hu; by apply (works_undisturbed p p')]. intros Ht. destruct (D6 Ht) as [E1 E2]. specialize (E2 ltac:(lia)).
  assert (B <> []) as NB by (intros ->; simpl in Hl; lia).
  destruct (DivideSchoolbook_spec (length Q) (length R) A B p OA OB Hm ltac:(lia)) as (qs & rs & p'' & -> & S1 & S2 & S3 & S4 & S5 & S6).
  - right. rewrite <- E1, <- D2. by apply dval_bounds.
  - by right.
  - cbn [fst]. specialize (S1 ltac:(lia)). specialize (S4 ltac:(lia)). split_all; [|done|done]. f_equal; apply dval_inj; done || congruence.
Qed.

Example burnikel_ziegler_is_schoolbook_witness : let A := test_digits 90 123456789012345678 in let B := test_digits 57 98765432109876543 in
  exists p', DivideBurnikelZiegler uninitialised (uninitialised 34) (uninitialised 57) A B quiet = Some ((DivideSchoolbook 34 57 A B quiet).1, p').
Proof.
  assert (digits_ok (uninitialised 34) /\ digits_ok (uninitialised 57) /\ digits_ok (test_digits 90 123456789012345678) /\ digits_ok (test_digits 57 98765432109876543)) as (H1 & H2 & H3 & H4)
    by (split; [|split; [|split]]; concrete).
  destruct (burnikel_ziegler_is_schoolbook uninitialised (uninitialised 34) (uninitialised 57) (test_digits 90 123456789012345678) (test_digits 57 98765432109876543) quiet
    uninitialised_allocates H1 H2 H3 H4 ltac:(concrete) ltac:(concrete) ltac:(concrete) ltac:(concrete) ltac:(concrete)) as (Q' & R' & p' & He & Hd & Hu).
  exists p'. rewrite He. destruct (Hd (Hu quiet_undisturbed)) as [Hq _].
  exact (f_equal (fun z => Some (z, p')) Hq).
Defined.

(** The remainder with the cached inverse is that of Algorithm D: the estimated quotient is at most two too small and one too large, and the corrections end. *)
Theorem cached_mod_is_schoolbook B p scratch R A : digits_ok B -> (2 <= length B <= kMaxCachedModDivisorSize)%nat -> msd B <> 0 ->
  digits_ok scratch -> length scratch = kSmallScratchSize -> digits_ok A -> (length B <= length A <= 2 * length B)%nat -> length R = length B ->
  exists inv p' R', CachedMod_MakeInverse B p = Some (inv, p') /\ CachedMod B inv scratch R A = Some (R', top_digit R') /\
    R' = (DivideSchoolbook 0 (length B) A B p).1.2 /\ dval R' = dval A mod dval B.
Proof.
  intros HB LB Hm Hs Ls HA LA LR. assert (B <> []) as NB by (intros ->; simpl in LB; lia).
  assert (0 < dval B) as PB by (pose proof (normalized_bound B HB ltac:(unfold IsDigitNormalized; rewrite (proj2 (Z.eqb_neq _ _) Hm); apply orb_true_r) NB); pose proof (weight_pos (length B - 1)); lia).
  destruct (CachedMod_MakeInverse_spec B p HB (proj1 LB) Hm) as (inv & p' & He & Hi & _).
  destruct (CachedMod_spec B inv scratch R A HB LB PB Hi Hs Ls HA LA LR) as (R' & Hr & R1 & R2 & R3). exists inv, p', R'. split_all; [done|done| |done].
  destruct (DivideSchoolbook_spec 0 (length B) A B p HA HB Hm ltac:(lia) (or_introl eq_refl) (or_intror (le_n _))) as (qs & rs & p'' & -> & _ & _ & _ & S4 & S5 & S6).
  cbn [fst snd]. apply dval_inj; [done|done|congruence|rewrite R1; symmetry; apply S4; lia].
Qed.

Example cached_mod_is_schoolbook_witness : let B := [0; 0; 0; 1] in let A := replicate 8 (digit_base - 1) in
  exists inv R', (fst <$> CachedMod_MakeInverse B quiet) = Some inv /\ CachedMod B inv (uninitialised 100) (uninitialised 4) A = Some (R', top_digit R') /\ R' = (DivideSchoolbook 0 4 A B quiet).1.2.
Proof.
  destruct (cached_mod_is_schoolbook [0; 0; 0; 1] quiet (uninitialised 100) (uninitialised 4) (replicate 8 (digit_base - 1))
    ltac:(concrete) ltac:(concrete) ltac:(concrete) ltac:(concrete) ltac:(concrete) ltac:(concrete) ltac:(concrete) ltac:(concrete)) as (inv & p' & R' & He & Hr & Hs & _).
  exists inv, R'. rewrite He. split; [reflexivity|]. split; [exact Hr|exact Hs].
Defined.

(** ** Operators *)

(** The digits that a sum of numbers with equal signs, or a difference with unequal signs, asks for. *)
Definition sum_needed (x y : bigint) (same_sign : bool) : nat :=
  if is_zero x || is_zero y then 0%nat else AddSignedResultLength (length (digits x)) (length (digits y)) same_sign.

(** C12. The operators of canonical BigInts compute the canonical BigInt of the operation on integers, or throw when the result length they ask for is above the limit; comparisons compare the values. *)
Theorem bigint_operators Allocate x y : allocates Allocate -> canonical x -> canonical y ->
  delivers (BigIntAddImpl Allocate x y) (sum_needed x y (Bool.eqb (sign x) (sign y))) (value x + value y) /\
  delivers (BigIntSubtractImpl Allocate x y) (sum_needed x y (negb (Bool.eqb (sign x) (sign y)))) (value x - value y) /\
  gives (BigIntUnaryMinus Allocate x) (- value x) /\
  delivers (BigIntBitwiseAndImpl Allocate x y) (and_length x y) (Z.land (value x) (value y)) /\
  gives (BigIntBitwiseOrImpl Allocate x y) (Z.lor (value x) (value y)) /\
  delivers (BigIntBitwiseXorImpl Allocate x y) (xor_length x y) (Z.lxor (value x) (value y)) /\
  delivers (BigIntShiftLeftImpl Allocate x y) (if sign y then 0 else left_shift_needed x (Z.abs (value y))) (Z.shiftl (value x) (value y)) /\
  delivers (BigIntShiftRightImpl Allocate x y) (if sign y then left_shift_needed x (Z.abs (value y)) else 0) (Z.shiftr (value x) (value y)) /\
  BigIntEqual x y = (value x =? value y) /\ BigIntLessThan x y = (value x <? value y) /\ BigIntGreaterThan x y = (value y <? value x) /\
  BigIntLessThanOrEqual x y = (value x <=? value y) /\ BigIntGreaterThanOrEqual x y = (value y <=? value x).
Proof.
  intros HA Hx Hy. unfold sum_needed. pose proof (BigIntCompare_sgn x y Hx Hy) as Hc. split_all.
  - by apply BigIntAddImpl_delivers.
  - pose proof (BigIntSubtractImpl_delivers Allocate HA x y Hx Hy) as Hs. unfold SubtractSignedResultLength, AddSignedResultLength in *. by destruct (Bool.eqb (sign x) (sign y)).
  - rewrite BigIntUnaryMinus_eq by done. by apply UnaryMinus_gives.
  - by apply BigIntBitwiseAndImpl_delivers.
  - by apply BigIntBitwiseOrImpl_gives.
  - by apply BigIntBitwiseXorImpl_delivers.
  - by apply BigIntShiftLeftImpl_delivers.
  - by apply BigIntShiftRightImpl_delivers.
  - rewrite BigIntEqual_EqualToBigInt. by apply EqualToBigInt_spec.
  - unfold BigIntLessThan. destruct (Z.ltb_spec (BigIntCompare x y) 0), (Z.ltb_spec (value x) (value y)); lia.
  - unfold BigIntGreaterThan. destruct (Z.ltb_spec 0 (BigIntCompare x y)), (Z.ltb_spec (value y) (value x)); lia.
  - unfold BigIntLessThanOrEqual. destruct (Z.leb_spec (BigIntCompare x y) 0), (Z.leb_spec (value x) (value y)); lia.
  - unfold BigIntGreaterThanOrEqual. destruct (Z.leb_spec 0 (BigIntCompare x y)), (Z.leb_spec (value y) (value x)); lia.
Qed.

(** -2^64 - 5 and 70. *)
Example bigint_operators_witness : let x := mkBigInt true [5; 1] in let y := mkBigInt false [70] in
  delivers (BigIntBitwiseXorImpl uninitialised x y) 3 (Z.lxor (value x) (value y)) /\ delivers (BigIntShiftRightImpl uninitialised x y) 0 (-1) /\
  delivers (BigIntShiftLeftImpl uninitialised x y) 4 (- (2 ^ 134 + 5 * 2 ^ 70)).
Proof.
  destruct (bigint_operators uninitialised (mkBigInt true [5; 1]) (mkBigInt false [70]) uninitialised_allocates ltac:(concrete) ltac:(concrete)) as (_ & _ & _ & _ & _ & H1 & H2 & H3 & _).
  split; [exact H1|split; [exact H3|exact H2]].
Defined.

(** C13. Products, quotients and remainders are those of the integers (truncating towards zero), with any cached divisor of the remainder operator, and powers too. A product throws when the operands have together more digits than a BigInt may have (so the product by 1n of a BigInt of the greatest length throws), a quotient and a remainder exactly when the divisor is zero, a power when the exponent is negative, or only when the exact power has kMaxLength digits or more; otherwise only an interrupt ends them without result, and none of them when nothing interrupts. The build is the one without V8_ADVANCED_BIGINT_ALGORITHMS. *)
Theorem bigint_products Allocate x y p store r c : allocates Allocate -> canonical x -> canonical y -> store r = Some y -> cache_ok store c ->
  computes (BigIntMultiplyImpl Allocate x y p) p (product_length x y) (value x * value y) /\
  (if is_zero y then BigIntDivideImpl Allocate x y p = (DivZero, p) /\ BigIntModulusImpl Allocate x r y p c = (DivZero, p, c)
   else computes (BigIntDivideImpl Allocate x y p) p 0 (value x ÷ value y) /\
     computes (BigIntModulusImpl Allocate x r y p c).1 p 0 (Z.rem (value x) (value y)) /\ cache_ok store (BigIntModulusImpl Allocate x r y p c).2) /\
  (if sign y then Exponentiate Allocate x y p = (MustBePositive, p) else acceptable (Exponentiate Allocate x y p) p (value x ^ value y)).
Proof.
  intros HA Hx Hy Hr Hc. split_all.
  - rewrite BigIntMultiplyImpl_eq by done. by apply Multiply_computes.
  - destruct (is_zero y) eqn:Hz; [unfold BigIntDivideImpl, BigIntModulusImpl; by rewrite Hz|]. split; [by apply BigIntDivideImpl_computes|].
    by apply (BigIntModulusImpl_computes Allocate HA store).
  - destruct (sign y) eqn:Hs; [unfold Exponentiate; by rewrite Hs|]. by apply Exponentiate_acceptable.
Qed.

(** Remainders by one divisor, until it is cached. *)
Definition remainders (n : nat) (x y : bigint) (c : mod_cache) : mod_cache :=
  Nat.iter n (fun c => (BigIntModulusImpl uninitialised x 7 y quiet c).2) c.

Example bigint_products_witness : let y := mkBigInt false (test_digits 2 98765432109876543) in let x := mkBigInt true (test_digits 3 123456789012345678) in
  cached_bigint_divisor (remainders 100 x y empty_cache) = Some 7%nat /\ computes (BigIntModulusImpl uninitialised x 7 y quiet (remainders 100 x y empty_cache)).1 quiet 0 (Z.rem (value x) (value y)).
Proof.
  set (y := mkBigInt false (test_digits 2 98765432109876543)). set (x := mkBigInt true (test_digits 3 123456789012345678)).
  assert (canonical x /\ canonical y) as [Hx Hy] by concrete. assert (is_zero y = false) as Hz by (vm_compute; reflexivity). cbv zeta. split; [vm_compute; reflexivity|].
  assert (forall c, cache_ok (fun _ => Some y) c -> computes (BigIntModulusImpl uninitialised x 7 y quiet c).1 quiet 0 (Z.rem (value x) (value y)) /\
    cache_ok (fun _ => Some y) (BigIntModulusImpl uninitialised x 7 y quiet c).2) as Hmod.
  { intros c Hc. destruct (bigint_products uninitialised x y quiet (fun _ => Some y) 7 c uninitialised_allocates Hx Hy eq_refl Hc) as (_ & H & _). rewrite Hz in H. destruct H as (_ & H1 & H2). split; [exact H1|exact H2]. }
  clearbody x y. assert (forall n, cache_ok (fun _ => Some y) (remainders n x y empty_cache)) as Hc.
  { induction n as [|n IH]; [apply empty_cache_ok|exact (proj2 (Hmod _ IH))]. }
  exact (proj1 (Hmod _ (Hc 100%nat))).
Defined.

(** C30. The operators of the Torque builtins and the functions of bigint.cc that the compilers, the runtime and the API call agree on canonical operands: +, -, unary minus, * and == have the same results and errors, the three-way comparisons the same sign, and / and % the same results and errors when nothing interrupts them, with any state of the cached divisor of %. *)
Theorem torque_agrees_with_cpp Allocate x y p : allocates Allocate -> canonical x -> canonical y ->
  BigIntAddImpl Allocate x y = BigIntObjects.Add Allocate x y /\
  BigIntSubtractImpl Allocate x y = BigIntObjects.Subtract Allocate x y /\
  BigIntUnaryMinus Allocate x = UnaryMinus Allocate x /\
  BigIntMultiplyImpl Allocate x y p = BigIntObjects.Multiply Allocate x y p /\
  (undisturbed p -> (BigIntDivideImpl Allocate x y p).1 = (Divide Allocate x y p).1) /\
  (undisturbed p -> forall store r c, store r = Some y -> cache_ok store c ->
     (BigIntModulusImpl Allocate x r y p c).1.1 = (Remainder Allocate x y p).1) /\
  BigIntEqual x y = EqualToBigInt x y /\
  (BigIntCompare x y < 0 <-> CompareToBigInt x y = kLessThan) /\ (0 < BigIntCompare x y <-> CompareToBigInt x y = kGreaterThan).
Proof.
  intros HA Hx Hy. pose proof (BigIntCompare_sgn x y Hx Hy) as Hc. split_all.
  - eapply delivers_unique; [by apply BigIntAddImpl_delivers|by apply Add_delivers].
  - eapply delivers_unique; [by apply BigIntSubtractImpl_delivers|by apply Subtract_delivers].
  - by apply BigIntUnaryMinus_eq.
  - by apply BigIntMultiplyImpl_eq.
  - intros Hp. destruct (is_zero y) eqn:Hz; [unfold BigIntDivideImpl, Divide; by rewrite Hz|].
    destruct (BigIntDivideImpl_computes Allocate HA x y p Hx Hy Hz) as [_ H1]. destruct (Divide_computes Allocate HA x y p Hx Hy Hz) as [_ H2].
    eapply delivers_unique; [apply (H1 Hp)|apply (H2 Hp)].
  - intros Hp store r c Hr Hs. destruct (is_zero y) eqn:Hz; [unfold BigIntModulusImpl, Remainder; by rewrite Hz|].
    destruct (BigIntModulusImpl_computes Allocate HA store c x r y p Hs Hr Hx Hy Hz) as [[_ H1] _]. destruct (Remainder_computes Allocate HA x y p Hx Hy Hz) as [_ H2].
    eapply delivers_unique; [apply (H1 Hp)|apply (H2 Hp)].
  - done.
  - rewrite CompareToBigInt_spec by done. unfold order. split; [|destruct (Z.compare_spec (value x) (value y)); [done|lia|done]].
    intros H. apply order_lt. lia.
  - rewrite CompareToBigInt_spec by done. unfold order. split; [|destruct (Z.compare_spec (value x) (value y)); [done|done|lia]].
    intros H. apply order_gt. lia.
Qed.

(** A division whose result the builtin makes one digit longer. *)
Example torque_agrees_with_cpp_witness : let x := mkBigInt true (test_digits 30 123456789012345678) in let y := mkBigInt false (test_digits 12 98765432109876543) in
  (BigIntDivideImpl uninitialised x y quiet).1 = (Divide uninitialised x y quiet).1 /\
  (BigIntModulusImpl uninitialised x 7 y quiet empty_cache).1.1 = (Remainder uninitialised x y quiet).1.
Proof.
  destruct (torque_agrees_with_cpp uninitialised (mkBigInt true (test_digits 30 123456789012345678)) (mkBigInt false (test_digits 12 98765432109876543)) quiet
    uninitialised_allocates ltac:(concrete) ltac:(concrete)) as (_ & _ & _ & _ & H & H' & _).
  split; [exact (H quiet_undisturbed)|].
  exact (H' quiet_undisturbed (fun _ => Some (mkBigInt false (test_digits 12 98765432109876543))) 7%nat empty_cache eq_refl (empty_cache_ok _)).
Defined.

(** ** Truncation and conversion *)

(** C31. BigInt.asIntN and BigInt.asUintN are the value modulo 2^n, in the signed and in the unsigned range, for every n; only the unsigned one of a negative number can be too big. The bitwise complement is -1 - x. *)
Theorem bigint_truncation Allocate x n : allocates Allocate -> canonical x -> 0 <= n ->
  gives (BigIntObjects.AsIntN Allocate n x) (swrap n (value x)) /\
  delivers (AsUintN Allocate n x) (if sign x then AsUintN_Neg_ResultLength n else 0) (value x mod 2 ^ n) /\
  delivers (BitwiseNot Allocate x) (away_from_zero (negb (sign x)) x) (Z.lnot (value x)) /\
  delivers (Increment Allocate x) (away_from_zero (negb (sign x)) x) (value x + 1) /\
  delivers (Decrement Allocate x) (away_from_zero (sign x) x) (value x - 1).
Proof.
  intros HA Hx Hn. split_all; [by apply AsIntN_gives|by apply AsUintN_delivers|by apply BitwiseNot_delivers|by apply Increment_delivers|by apply Decrement_delivers].
Qed.

Example bigint_truncation_witness : let x := mkBigInt true [2 ^ 63 + 1; 1] in
  gives (BigIntObjects.AsIntN uninitialised 64 x) (2 ^ 63 - 1) /\ delivers (AsUintN uninitialised 70 x) 2 (2 ^ 70 - 2 ^ 64 - 2 ^ 63 - 1).
Proof.
  destruct (bigint_truncation uninitialised (mkBigInt true [2 ^ 63 + 1; 1]) 64 uninitialised_allocates ltac:(concrete) ltac:(concrete)) as (H & _).
  destruct (bigint_truncation uninitialised (mkBigInt true [2 ^ 63 + 1; 1]) 70 uninitialised_allocates ltac:(concrete) ltac:(concrete)) as (_ & H' & _).
  split; [exact H|exact H'].
Defined.

(** 64-bit integers and word arrays survive the way to BigInts and back; the other way a BigInt survives exactly when the conversion says that it is lossless. *)
Theorem bigint_int64_roundtrip Allocate x n : allocates Allocate -> canonical x ->
  (int64_ok n -> AsInt64 (FromInt64 n) = (n, true)) /\ (uint64_ok n -> AsUint64 (FromUint64 n) = (n, true)) /\
  ((AsInt64 x).2 = true <-> FromInt64 (AsInt64 x).1 = x) /\ ((AsUint64 x).2 = true <-> FromUint64 (AsUint64 x).1 = x) /\
  (let '(s, count, words) := ToWordsArray64 x (Words64Count x) in FromWords64 Allocate s count words = Value x).
Proof.
  intros HA Hx. rewrite (AsInt64_spec x), (AsUint64_spec x) by done. cbn [fst snd]. split_all.
  - intros Hn. destruct (FromInt64_value n Hn) as [Hc Hv]. rewrite AsInt64_spec, Hv by done. rewrite bool_decide_true by done. f_equal. apply swrap_id; unfold int64_ok in Hn; lia.
  - intros Hn. destruct (FromUint64_value n Hn) as [Hc Hv]. rewrite AsUint64_spec, Hv by done. rewrite bool_decide_true by done. f_equal. by apply Z.mod_small.
  - split; [intros Hb%bool_decide_eq_true; rewrite swrap_id by (unfold int64_ok in Hb; lia); destruct (FromInt64_value _ Hb); by apply canonical_unique|].
    intros Hb. apply bool_decide_eq_true. pose proof (swrap_bounds 64 (value x) ltac:(lia)) as Hs. destruct (FromInt64_value (swrap 64 (value x))) as [_ Hv]; [unfold int64_ok; lia|].
    rewrite Hb in Hv. unfold int64_ok. lia.
  - split; [intros Hb%bool_decide_eq_true; rewrite Z.mod_small by done; destruct (FromUint64_value _ Hb); by apply canonical_unique|].
    intros Hb. apply bool_decide_eq_true. pose proof (Z.mod_pos_bound (value x) (2 ^ 64) ltac:(lia)) as Hs. destruct (FromUint64_value (value x mod 2 ^ 64)) as [_ Hv]; [done|].
    rewrite Hb in Hv. unfold uint64_ok. lia.
  - by apply (ToWordsArray64_FromWords64 Allocate HA x (Words64Count x)).
Qed.

Example bigint_int64_roundtrip_witness : AsInt64 (FromInt64 (- 2 ^ 63)) = (- 2 ^ 63, true) /\ FromWords64 uninitialised true 2 [5; 1] = Value (mkBigInt true [5; 1]).
Proof.
  destruct (bigint_int64_roundtrip uninitialised (mkBigInt true [5; 1]) (- 2 ^ 63) uninitialised_allocates ltac:(concrete)) as (H1 & _ & _ & _ & H2).
  split; [apply H1; unfold int64_ok; lia|exact H2].
Defined.
