(* ===== verification/BigIntDoubles.v ===== *)
(** BigInts and doubles (src/src/objects/bigint.cc): comparison of a BigInt with a number,
    FromNumber and ToNumber. A double is its 64 bits, as in Conversions; every result is
    compared with exact arithmetic on [scaled]. *)
From S2P Require Import Prelude Conversions JSHeap Digits DigitsLinear BigIntObjects BigIntTheorems.

(** ** Numbers *)

(** A Smi or the double of a heap number. *)
Inductive number := Smi (value : Z) | HeapNumber (value : Z).

Definition V8_INFINITY : Z := kInfinity.
Definition minus_infinity : Z := kInfinity + kSignMask.

Definition raw_exponent (double_bits : Z) : Z := Z.land (Z.shiftr double_bits kPhysicalSignificandSize) 0x7FF.
Definition kMantissaTopBit : Z := kSignificandSize - 1.

(** The mantissa, cut to digits from its most significant bit on: the first digit, whose most
    significant bit is [msd_topbit], then the others. The count of remaining bits is unsigned. *)
Definition first_chunk (mantissa msd_topbit : Z) : Z * Z * Z :=
  if msd_topbit <? kMantissaTopBit then
    let remaining_mantissa_bits := kMantissaTopBit - msd_topbit in
    (Z.shiftr mantissa remaining_mantissa_bits, wrap 64 (Z.shiftl mantissa (64 - remaining_mantissa_bits)), remaining_mantissa_bits)
  else (wrap 64 (Z.shiftl mantissa (msd_topbit - kMantissaTopBit)), 0, 0).

Definition next_chunk (mantissa remaining_mantissa_bits : Z) : Z * Z * Z :=
  if 0 <? remaining_mantissa_bits then (mantissa, 0, wrap 32 (remaining_mantissa_bits - kDigitBits))
  else (0, mantissa, remaining_mantissa_bits).

(** ** NewFromDouble *)

(** The digits below the first one. *)
Fixpoint more_digits (n : nat) (mantissa remaining_mantissa_bits : Z) : list Z :=
  match n with
  | O => []
  | S n =>
      let '(digit, mantissa, remaining_mantissa_bits) := next_chunk mantissa remaining_mantissa_bits in
      more_digits n mantissa remaining_mantissa_bits ++ [digit]
  end.

Definition NewFromDouble (value : Z) : bigint :=
  if scaled value =? 0 then Zero
  else
    let sign := scaled value <? 0 in
    let exponent := wrap 32 (raw_exponent value - 0x3FF) in
    let digits := exponent / kDigitBits + 1 in
    let mantissa := Z.lor (Z.land value kSignificandMask) kHiddenBit in
    let '(digit, mantissa, remaining_mantissa_bits) := first_chunk mantissa (exponent mod kDigitBits) in
    MakeImmutable sign (more_digits (Z.to_nat (digits - 1)) mantissa remaining_mantissa_bits ++ [digit]).

(** ** Comparison *)

Fixpoint compare_digits (x_sign : bool) (X : list Z) (n : nat) (mantissa remaining_mantissa_bits : Z) : ComparisonResult :=
  match n with
  | O => if negb (mantissa =? 0) then AbsoluteLess x_sign else kEqual
  | S n =>
      let '(compare_mantissa, mantissa, remaining_mantissa_bits) := next_chunk mantissa remaining_mantissa_bits in
      if compare_mantissa <? X.[n] then AbsoluteGreater x_sign
      else if X.[n] <? compare_mantissa then AbsoluteLess x_sign
      else compare_digits x_sign X n mantissa remaining_mantissa_bits
  end.

Definition CompareToDouble (x : bigint) (y : Z) : ComparisonResult :=
  if isnan y then kUndefined
  else if y =? V8_INFINITY then kLessThan
  else if y =? minus_infinity then kGreaterThan
  else
    let x_sign := sign x in
    let y_sign := scaled y <? 0 in
    if xorb x_sign y_sign then UnequalSign x_sign
    else if scaled y =? 0 then (if is_zero x then kEqual else kGreaterThan)
    else if is_zero x then kLessThan
    else
      let exponent := raw_exponent y - 0x3FF in
      if exponent <? 0 then AbsoluteGreater x_sign
      else
        let x_length := length (digits x) in
        let x_msd := (digits x).[x_length - 1] in
        let msd_leading_zeros := CountLeadingZeros kDigitBits x_msd in
        let x_bitlength := wrap 32 (Z.of_nat x_length * kDigitBits - msd_leading_zeros) in
        let y_bitlength := exponent + 1 in
        if x_bitlength <? y_bitlength then AbsoluteLess x_sign
        else if y_bitlength <? x_bitlength then AbsoluteGreater x_sign
        else
          let mantissa := Z.lor (Z.land y kSignificandMask) kHiddenBit in
          let '(compare_mantissa, mantissa, remaining_mantissa_bits) := first_chunk mantissa (kDigitBits - 1 - msd_leading_zeros) in
          if compare_mantissa <? x_msd then AbsoluteGreater x_sign
          else if x_msd <? compare_mantissa then AbsoluteLess x_sign
          else compare_digits x_sign (digits x) (x_length - 1) mantissa remaining_mantissa_bits.

Definition EqualToNumber (x : bigint) (y : number) : bool :=
  match y with
  | Smi value => EqualToSmi x value
  | HeapNumber value => match CompareToDouble x value with kEqual => true | _ => false end
  end.

Definition CompareToNumber (x : bigint) (y : number) : ComparisonResult :=
  match y with Smi value => CompareToSmi x value | HeapNumber value => CompareToDouble x value end.

(** ** Conversions *)

(** DoubleToInteger(value) == value for finite doubles: the integer part is exact. *)
Definition is_integer (value : Z) : bool := trunc value * unit =? scaled value.

(** [None]: the RangeError kBigIntFromNumber. *)
Definition FromNumber (n : number) : option bigint :=
  match n with
  | Smi value => Some (NewFromInt value)
  | HeapNumber value => if negb (isfinite value) || negb (is_integer value) then None else Some (NewFromDouble value)
  end.

Inductive Rounding := kRoundDown | kTie | kRoundUp.

(** while (digit_index > 0): is a lower digit not zero? *)
Fixpoint lower_digit (X : list Z) (digit_index : nat) : bool :=
  match digit_index with
  | O => false
  | S digit_index => if negb (X.[digit_index] =? 0) then true else lower_digit X digit_index
  end.

Definition decide_bits (X : list Z) (top_unconsumed_bit : Z) (digit_index : nat) (current_digit : Z) : Rounding :=
  let bitmask := Z.shiftl 1 top_unconsumed_bit in
  if Z.land current_digit bitmask =? 0 then kRoundDown
  else if negb (Z.land current_digit (bitmask - 1) =? 0) then kRoundUp
  else if lower_digit X digit_index then kRoundUp else kTie.

Definition DecideRounding (X : list Z) (mantissa_bits_unset : Z) (digit_index : nat) (current_digit : Z) : Rounding :=
  if 0 <? mantissa_bits_unset then kRoundDown
  else if mantissa_bits_unset <? 0 then decide_bits X (- mantissa_bits_unset - 1) digit_index current_digit
  else
    match digit_index with
    | O => kRoundDown
    | S digit_index => decide_bits X (kDigitBits - 1) digit_index (X.[digit_index])
    end.

Definition infinity (negative : bool) : Z := if negative then minus_infinity else V8_INFINITY.

(** The mantissa below the hidden bit, from the top digits: the bits that are missing (negative:
    the bits of the current digit that are left), the index and the digit where it ends. *)
Definition top_mantissa (X : list Z) : Z * Z * nat * Z :=
  let x_length := length X in
  let current_digit := X.[x_length - 1] in
  let shift := CountLeadingZeros kDigitBits current_digit + 1 + (64 - kDigitBits) in
  let digit_index := (x_length - 1)%nat in
  let mantissa := if shift =? 64 then 0 else wrap 64 (Z.shiftl current_digit shift) in
  let mantissa := Z.shiftr mantissa 12 in
  let mantissa_bits_unset := shift - 12 in
  let '(mantissa, mantissa_bits_unset, digit_index, current_digit) :=
    if (kDigitBits <=? mantissa_bits_unset) && (0 <? digit_index)%nat then
      let current_digit := X.[digit_index - 1] in
      (Z.lor mantissa (wrap 64 (Z.shiftl current_digit (mantissa_bits_unset - kDigitBits))), mantissa_bits_unset - kDigitBits, (digit_index - 1)%nat, current_digit)
    else (mantissa, mantissa_bits_unset, digit_index, current_digit) in
  if (0 <? mantissa_bits_unset) && (0 <? digit_index)%nat then
    let current_digit := X.[digit_index - 1] in
    (Z.lor mantissa (Z.shiftr current_digit (kDigitBits - mantissa_bits_unset)), mantissa_bits_unset - kDigitBits, (digit_index - 1)%nat, current_digit)
  else (mantissa, mantissa_bits_unset, digit_index, current_digit).

Definition assemble (negative : bool) (exponent mantissa : Z) : Z :=
  let sign_bit := if negative then Z.shiftl 1 63 else 0 in
  Z.lor (Z.lor sign_bit (wrap 64 (Z.shiftl (exponent + 0x3FF) kPhysicalSignificandSize))) mantissa.

Definition ToDouble (x : bigint) : Z :=
  if is_zero x then 0
  else
    let x_length := length (digits x) in
    let x_bitlength := wrap 32 (Z.of_nat x_length * kDigitBits - CountLeadingZeros kDigitBits ((digits x).[x_length - 1])) in
    if 1024 <? x_bitlength then infinity (sign x)
    else
      let exponent := x_bitlength - 1 in
      let '(mantissa, mantissa_bits_unset, digit_index, current_digit) := top_mantissa (digits x) in
      let rounding := DecideRounding (digits x) mantissa_bits_unset digit_index current_digit in
      if match rounding with kRoundUp => true | kTie => Z.land mantissa 1 =? 1 | kRoundDown => false end then
        let mantissa := mantissa + 1 in
        if negb (Z.shiftr mantissa kPhysicalSignificandSize =? 0) then
          if 1023 <? exponent + 1 then infinity (sign x) else assemble (sign x) (exponent + 1) 0
        else assemble (sign x) exponent mantissa
      else assemble (sign x) exponent mantissa.

(** The greatest Smi depends on the build: 2^31 - 1 or 2^30 - 1. *)
Definition ToNumber (kSmiMaxValue : Z) (x : bigint) : number :=
  if is_zero x then Smi 0
  else if (length (digits x) =? 1)%nat && ((digits x).[O] <? kSmiMaxValue) then
    let value := (digits x).[O] in Smi (if sign x then - value else value)
  else HeapNumber (ToDouble x).

(** ** The fields of a double *)

Lemma raw_exponent_biased y : raw_exponent y = biased y.
Proof. unfold raw_exponent, biased. change 0x7FF with (2 ^ 11 - 1). rewrite land_pow2_mask by lia. by rewrite Z.shiftr_div_pow2. Qed.

Lemma hidden_mantissa y : Z.lor (Z.land y kSignificandMask) kHiddenBit = mantissa y + 2 ^ 52.
Proof. rewrite land_significand. pose proof (mantissa_bounds y). change kHiddenBit with (1 * 2 ^ 52). by rewrite lor_disjoint. Qed.

Lemma scaled_normal y : biased y <> 0 -> scaled y = Sign y * ((mantissa y + 2 ^ 52) * 2 ^ (biased y - 1)).
Proof.
  intros Hb. unfold scaled. rewrite Significand_biased, Exponent_biased. destruct (Z.eqb_spec (biased y) 0); [done|]. rewrite Z.mul_assoc. do 2 f_equal.
  unfold kDenormalExponent, kExponentBias, kPhysicalSignificandSize. lia.
Qed.

Lemma scaled_denormal y : biased y = 0 -> Z.abs (scaled y) < 2 ^ 52.
Proof.
  intros Hb. unfold scaled. rewrite Significand_biased, Exponent_biased, Hb. pose proof (mantissa_bounds y). assert (2 ^ ((if 0 =? 0 then 1 else 0) - kExponentBias - kDenormalExponent) = 1) as -> by reflexivity.
  destruct (Sign_cases y) as [-> | ->]; simpl; lia.
Qed.

Lemma unit_eq : unit = 2 ^ 1074.
Proof. reflexivity. Qed.

Lemma scaled_sign y : scaled y < 0 -> Sign y = -1.
Proof.
  unfold scaled. pose proof (Significand_bounds y). pose proof (pow2_log2_bounds (Exponent y - kDenormalExponent) ltac:(pose proof (Exponent_bounds y); lia)).
  destruct (Sign_cases y) as [-> | ->]; [nia|done].
Qed.

Lemma scaled_abs y : scaled y = if scaled y <? 0 then - Z.abs (scaled y) else Z.abs (scaled y).
Proof. destruct (Z.ltb_spec (scaled y) 0); lia. Qed.

(** ** The chunks of a mantissa *)

Lemma first_chunk_spec M b c m r : 2 ^ 52 <= M < 2 ^ 53 -> 0 <= b < 64 -> first_chunk M b = (c, m, r) ->
  c * digit_base + m = M * 2 ^ (b + 12) /\ digit_ok c /\ 0 <= m < digit_base /\ (m = 0 \/ 0 < r) /\ 2 ^ b <= c.
Proof.
  intros HM Hb. unfold first_chunk. change kMantissaTopBit with 52. rewrite digit_base_eq. destruct (Z.ltb_spec b 52) as [Hlt|Hge]; intros He; simplify_eq.
  - set (r := 52 - b). rewrite Z.shiftr_div_pow2, Z.shiftl_mul_pow2 by lia. unfold wrap.
    assert (2 ^ 64 = 2 ^ r * 2 ^ (64 - r)) as Hp by (rewrite <- Z.pow_add_r by lia; f_equal; lia).
    pose proof (pow2_log2_bounds r ltac:(lia)). pose proof (pow2_log2_bounds (64 - r) ltac:(lia)).
    rewrite Hp, Z.mul_mod_distr_r by lia. pose proof (Z.div_mod M (2 ^ r) ltac:(lia)). pose proof (Z.mod_pos_bound M (2 ^ r) ltac:(lia)).
    assert (2 ^ (b + 12) = 2 ^ (64 - r)) as -> by (f_equal; lia). change 18446744073709551616 with (2 ^ 64). unfold digit_ok. rewrite digit_base_eq.
    change 18446744073709551616 with (2 ^ 64). assert (2 ^ b <= M / 2 ^ r) as Hlo by (apply Z.div_le_lower_bound; [lia|]; rewrite <- Z.pow_add_r by lia; replace (r + b) with 52 by lia; lia).
    assert (M / 2 ^ r < 2 ^ 64) by (apply Z.div_lt_upper_bound; nia). split_all; [rewrite Hp; nia|pose proof (Z.pow_nonneg 2 b); lia|lia|nia|rewrite Hp; nia|lia|lia].
  - rewrite Z.shiftl_mul_pow2 by lia. unfold wrap. assert (M * 2 ^ (b - 52) < 2 ^ 64).
    { assert (2 ^ 64 = 2 ^ (64 - b + 52) * 2 ^ (b - 52) * 1) as -> by (rewrite Z.mul_1_r, <- Z.pow_add_r by lia; f_equal; lia).
      assert (2 ^ 53 <= 2 ^ (64 - b + 52)) by (apply Z.pow_le_mono_r; lia). pose proof (pow2_log2_bounds (b - 52) ltac:(lia)). nia. }
    pose proof (pow2_log2_bounds (b - 52) ltac:(lia)). rewrite Z.mod_small by nia.
    assert (2 ^ (b + 12) = 2 ^ (b - 52) * 2 ^ 64) as -> by (rewrite <- Z.pow_add_r by lia; f_equal; lia).
    assert (2 ^ b = 2 ^ 52 * 2 ^ (b - 52)) as -> by (rewrite <- Z.pow_add_r by lia; f_equal; lia).
    unfold digit_ok. rewrite digit_base_eq. change 18446744073709551616 with (2 ^ 64). split_all; try lia; nia.
Qed.

Lemma next_chunk_spec m r c m' r' : 0 <= m < digit_base -> m = 0 \/ 0 < r -> next_chunk m r = (c, m', r') -> c = m /\ m' = 0.
Proof. unfold next_chunk. intros Hm Hr. destruct (Z.ltb_spec 0 r); intros He; simplify_eq; [done|lia]. Qed.

Lemma more_digits_spec n m r : 0 <= m < digit_base -> m = 0 \/ 0 < r ->
  digits_ok (more_digits n m r) /\ length (more_digits n m r) = n /\
  dval (more_digits n m r) * digit_base = (if (n =? 0)%nat then 0 else m * weight n).
Proof.
  revert m r. induction n as [|n IH]; intros m r Hm Hr; simpl; [by split_all; [constructor|..]|].
  destruct (next_chunk m r) as [[c m'] r'] eqn:Hc. destruct (next_chunk_spec _ _ _ _ _ Hm Hr Hc) as [-> ->].
  destruct (IH 0 r' ltac:(rewrite digit_base_eq; lia) ltac:(by left)) as (I1 & I2 & I3). rewrite length_app, dval_snoc, I2. split_all.
  - apply app_ok; [done|]. by repeat constructor; apply Hm.
  - simpl. lia.
  - rewrite weight_S. assert (dval (more_digits n 0 r') * digit_base = 0) by (rewrite I3; by destruct (n =? 0)%nat). nia.
Qed.

(** ** NewFromDouble *)

Lemma scaled_small y : biased y < 1023 -> Z.abs (scaled y) < unit.
Proof.
  intros Hlt. pose proof (biased_bounds y). rewrite unit_eq. destruct (decide (biased y = 0)) as [Hb|Hb].
  - pose proof (scaled_denormal y Hb). pose proof (Z.pow_le_mono_r 2 52 1074 ltac:(lia) ltac:(lia)). lia.
  - rewrite (scaled_normal y Hb). pose proof (mantissa_bounds y). pose proof (pow2_log2_bounds (biased y - 1) ltac:(lia)).
    assert (2 ^ 1074 = 2 ^ 53 * 2 ^ (1021 - (biased y - 1)) * 2 ^ (biased y - 1)) as -> by (rewrite <- !Z.pow_add_r by lia; f_equal; lia).
    pose proof (Z.pow_le_mono_r 2 0 (1021 - (biased y - 1)) ltac:(lia) ltac:(lia)). destruct (Sign_cases y) as [-> | ->]; nia.
Qed.

Lemma integer_biased y : is_integer y = true -> scaled y <> 0 -> 1023 <= biased y.
Proof.
  unfold is_integer. intros Hi%Z.eqb_eq Hs. destruct (Z.le_gt_cases 1023 (biased y)) as [|Hlt]; [done|exfalso]. pose proof (scaled_small y Hlt).
  unfold trunc in Hi. assert (Z.quot (scaled y) unit = 0) as Hq by (apply Z.quot_small_iff; [done|lia]). lia.
Qed.

(** The magnitude of a double of exponent [e] at least 0: [M * 2^(e - 52)]. *)
Lemma magnitude_large y : 1023 <= biased y -> Z.abs (scaled y) * 2 ^ 52 = (mantissa y + 2 ^ 52) * 2 ^ (biased y - 1023) * unit.
Proof.
  intros Hb. rewrite scaled_normal by lia. pose proof (mantissa_bounds y). rewrite unit_eq. pose proof (pow2_log2_bounds (biased y - 1) ltac:(lia)).
  assert (2 ^ (biased y - 1) * 2 ^ 52 = 2 ^ (biased y - 1023) * 2 ^ 1074) as He by (rewrite <- !Z.pow_add_r by lia; f_equal; lia).
  assert (0 <= (mantissa y + 2 ^ 52) * 2 ^ (biased y - 1)) by nia. rewrite Z.abs_mul, (Z.abs_eq (_ * _)) by done.
  replace (Z.abs (Sign y)) with 1 by (by destruct (Sign_cases y) as [-> | ->]). rewrite Z.mul_1_l, <- !Z.mul_assoc. by f_equal.
Qed.

Lemma finite_biased y : isfinite y = true -> biased y < 2047.
Proof. unfold isfinite. rewrite IsSpecial_biased. intros Hf%negb_true_iff%Z.eqb_neq. pose proof (biased_bounds y). lia. Qed.

Lemma weight_pow n : weight n = 2 ^ (64 * Z.of_nat n).
Proof. unfold weight, digit_base, kDigitBits. rewrite <- Z.pow_mul_r by lia. done. Qed.

Lemma NewFromDouble_spec y : isfinite y = true -> is_integer y = true ->
  canonical (NewFromDouble y) /\ value (NewFromDouble y) = trunc y.
Proof.
  intros Hf Hi. unfold NewFromDouble. destruct (Z.eqb_spec (scaled y) 0) as [Hz|Hz].
  { destruct Zero_canonical as [H1 H2]. split; [done|]. rewrite H2. unfold trunc. by rewrite Hz. }
  pose proof (integer_biased y Hi Hz) as Hb. pose proof (finite_biased y Hf). pose proof (mantissa_bounds y). rewrite raw_exponent_biased, hidden_mantissa.
  set (e := biased y - 1023). assert (wrap 32 e = e) as -> by (apply Z.mod_small; unfold e; lia). unfold kDigitBits.
  pose proof (Z.div_mod e 64 ltac:(lia)). pose proof (Z.mod_pos_bound e 64 ltac:(lia)). assert (0 <= e / 64 < 16) by (split; [apply Z.div_pos; lia|apply Z.div_lt_upper_bound; unfold e; lia]).
  destruct (first_chunk (mantissa y + 2 ^ 52) (e mod 64)) as [[c m] r] eqn:Hc.
  destruct (first_chunk_spec (mantissa y + 2 ^ 52) (e mod 64) _ _ _ ltac:(lia) ltac:(lia) Hc) as (F1 & F2 & F3 & F4 & _). replace (e / 64 + 1 - 1) with (e / 64) by lia. set (n := Z.to_nat (e / 64)).
  destruct (more_digits_spec n m r F3 F4) as (M1 & M2 & M3).
  assert (digits_ok (more_digits n m r ++ [c])) as Hok by (apply app_ok; [done|by repeat constructor; apply F2]).
  assert (trunc y * unit = scaled y) as Ht by (unfold is_integer in Hi; by apply Z.eqb_eq).
  assert (dval (more_digits n m r ++ [c]) = Z.abs (trunc y)) as Hd.
  { rewrite dval_snoc, M2. pose proof (magnitude_large y Hb) as Hm. fold e in Hm. rewrite <- Ht, Z.abs_mul in Hm. change (Z.abs unit) with unit in Hm.
    assert (0 < unit) by done. assert (Z.abs (trunc y) * 2 ^ 52 = (mantissa y + 2 ^ 52) * 2 ^ e) as Hm' by nia. clear Hm Ht Hi Hf Hok.
    pose proof (weight_pos n). rewrite digit_base_eq in *. assert (weight n * 2 ^ (e mod 64) = 2 ^ e) as Hw.
    { rewrite weight_pow, <- Z.pow_add_r by lia. f_equal. unfold n. lia. }
    rewrite Z.pow_add_r in F1 by lia. rewrite <- Hw in Hm'. set (b := 2 ^ (e mod 64)) in *. set (M := mantissa y + 2 ^ 52) in *. clearbody b M.
    destruct (Nat.eqb_spec n 0) as [Hn|Hn]; [rewrite Hn in *; change (weight 0) with 1 in *; lia|].
    assert ((dval (more_digits n m r) + weight n * c) * 18446744073709551616 = weight n * (M * (b * 2 ^ 12))) by (rewrite <- F1; lia). lia. }
  assert (0 < unit) by done. rewrite MakeImmutable_immutable by (left; intros He%app_eq_nil; by destruct He).
  destruct (immutable_spec (scaled y <? 0) (more_digits n m r ++ [c]) Hok) as [I1 I2].
  { rewrite length_app, M2, kMaxLength_eq. simpl. lia. }
  split; [done|]. rewrite I2. unfold signed. rewrite Hd. destruct (Z.ltb_spec (scaled y) 0); nia.
Qed.

(** ** Comparison *)

Lemma bit_length X : X <> [] -> digits_ok X -> msd X <> 0 ->
  let b := 63 - CountLeadingZeros kDigitBits (msd X) in
  0 <= b < 64 /\ 2 ^ b <= msd X < 2 ^ (b + 1) /\ Z.log2 (dval X) = 64 * Z.of_nat (length X - 1) + b.
Proof.
  intros Hn Hok Hm. pose proof (digit_at X (length X - 1) Hok) as Hd. unfold CountLeadingZeros, kDigitBits. destruct (Z.eqb_spec (msd X) 0); [done|].
  fold (msd X) in Hd. unfold digit_ok in Hd. rewrite digit_base_eq in Hd. replace (63 - (64 - 1 - Z.log2 (msd X))) with (Z.log2 (msd X)) by lia. simpl.
  pose proof (Z.log2_spec (msd X) ltac:(lia)) as Hl. rewrite <- Z.add_1_r in Hl. pose proof (Z.log2_nonneg (msd X)).
  assert (Z.log2 (msd X) < 64) by (apply Z.log2_lt_pow2; [lia|]; change (2 ^ 64) with 18446744073709551616; lia).
  split_all; [lia|lia|lia|lia|]. apply Z.log2_unique; [lia|]. pose proof (msd_bounds X Hok Hn) as Hb. rewrite weight_pow in Hb.
  rewrite <- Z.add_1_r, <- Z.add_assoc, !(Z.pow_add_r 2 (64 * _)) by lia. pose proof (pow2_log2_bounds (64 * Z.of_nat (length X - 1)) ltac:(lia)). nia.
Qed.

(** The order of a magnitude [a] and the digits compared so far. *)
Lemma compare_digits_spec s X n m r : digits_ok X -> (n <= length X)%nat -> 0 <= m < digit_base -> m = 0 \/ 0 < r ->
  compare_digits s X n m r = order (if s then - (dval (take n X) * digit_base) else dval (take n X) * digit_base) (if s then - (m * weight n) else m * weight n).
Proof.
  intros HX. rewrite order_signed. revert m r. induction n as [|n IH]; intros m r Hn Hm Hr; simpl.
  - change (weight 0) with 1. rewrite Z.mul_1_r, Z.mul_0_l.
    destruct (Z.eqb_spec m 0), (Z.ltb_spec m 0), (Z.ltb_spec 0 m); simpl; done || lia.
  - destruct (next_chunk m r) as [[c m'] r'] eqn:Hc. destruct (next_chunk_spec _ _ _ _ _ Hm Hr Hc) as [-> ->].
    rewrite take_S_total, dval_snoc, length_take, Nat.min_l by lia. pose proof (dval_take_small X n HX). pose proof (weight_pos n). rewrite weight_S.
    rewrite IH by (rewrite ?digit_base_eq; lia || (by left)). rewrite Z.mul_0_l. pose proof (digit_at X n HX) as Hd. unfold digit_ok in Hd. rewrite digit_base_eq in *.
    destruct (Z.ltb_spec m (X.[n])); [|destruct (Z.ltb_spec (X.[n]) m)];
      repeat match goal with |- context [?a <? ?b] => destruct (Z.ltb_spec a b) end; try done; nia.
Qed.

Lemma infinite_scaled y : isnan y = false -> isfinite y = false -> 0 <= y < 2 ^ 64 -> y = V8_INFINITY \/ y = minus_infinity.
Proof.
  unfold isnan, isfinite. rewrite IsSpecial_biased, land_significand. intros Hn Hf%negb_false_iff Hy. rewrite Hf in Hn. simpl in Hn.
  apply negb_false_iff, Z.eqb_eq in Hn. apply Z.eqb_eq in Hf. pose proof (fields y Hy) as He. rewrite Hn, Hf in He.
  assert (0 <= y / 2 ^ 63 < 2) by (split; [apply Z.div_pos; lia|apply Z.div_lt_upper_bound; lia]).
  unfold V8_INFINITY, minus_infinity, kInfinity, kSignMask. destruct (decide (y / 2 ^ 63 = 0)); [left|right]; lia.
Qed.

Lemma finite_not_infinite y : isfinite y = true -> isnan y = false /\ (y =? V8_INFINITY) = false /\ (y =? minus_infinity) = false.
Proof.
  intros Hf. unfold isnan, isfinite in *. apply negb_true_iff in Hf. rewrite Hf. split_all; [done|..]; apply Z.eqb_neq; intros ->; by vm_compute in Hf.
Qed.

Lemma order_scale k a b : 0 < k -> order (a * k) (b * k) = order a b.
Proof. intros Hk. unfold order. by rewrite <- Zmult_compare_compat_r by lia. Qed.

Lemma magnitude_bounds y : 1023 <= biased y -> 2 ^ (biased y - 1023) * unit <= Z.abs (scaled y) < 2 ^ (biased y - 1023 + 1) * unit.
Proof.
  intros Hb. pose proof (magnitude_large y Hb) as Hm. pose proof (mantissa_bounds y). rewrite Z.pow_add_r by lia.
  assert (0 < 2 ^ (biased y - 1023) * unit) by (apply Z.mul_pos_pos; [apply Z.pow_pos_nonneg; lia|done]).
  rewrite <- Z.mul_assoc in Hm. set (p := 2 ^ (biased y - 1023) * unit) in *. replace (2 ^ (biased y - 1023) * 2 ^ 1 * unit) with (2 * p) by (unfold p; lia). nia.
Qed.

(** Magnitudes of the same bit length, digit by digit. *)
Lemma compare_aligned s X y : digits_ok X -> X <> [] -> msd X <> 0 -> 1023 <= biased y -> Z.log2 (dval X) = biased y - 1023 ->
  (let '(c, m, r) := first_chunk (mantissa y + 2 ^ 52) (kDigitBits - 1 - CountLeadingZeros kDigitBits (msd X)) in
   if c <? msd X then AbsoluteGreater s else if msd X <? c then AbsoluteLess s else compare_digits s X (length X - 1) m r) =
  order (if s then - (dval X * unit) else dval X * unit) (if s then - Z.abs (scaled y) else Z.abs (scaled y)).
Proof.
  intros HX Hn Hm Hb Hlog. destruct (bit_length X Hn HX Hm) as (B1 & _ & B3). set (b := 63 - CountLeadingZeros kDigitBits (msd X)) in *.
  change (kDigitBits - 1 - CountLeadingZeros kDigitBits (msd X)) with b. pose proof (mantissa_bounds y).
  destruct (first_chunk (mantissa y + 2 ^ 52) b) as [[c m] r] eqn:Hc.
  destruct (first_chunk_spec (mantissa y + 2 ^ 52) b _ _ _ ltac:(lia) B1 Hc) as (F1 & F2 & F3 & F4 & _).
  pose proof (magnitude_large y Hb) as Hmag. assert (length X - 1 <= length X)%nat by lia. set (n := (length X - 1)%nat) in *.
  assert (Z.abs (scaled y) * digit_base = (c * digit_base + m) * weight n * unit) as HA.
  { rewrite F1, weight_pow, digit_base_eq, <- Hlog, B3 in *. rewrite Z.pow_add_r in Hmag by lia. rewrite (Z.pow_add_r 2 b) by lia.
    set (w := 2 ^ (64 * Z.of_nat n)) in *. set (p := 2 ^ b) in *. clearbody w p. set (u := unit) in *. clearbody u. lia. }
  pose proof (compare_digits_spec s X n m r HX ltac:(done) F3 F4) as Hcd. rewrite order_signed in Hcd.
  rewrite order_signed, (msd_split X Hn). fold n. pose proof (dval_take_small X n HX) as Ht. pose proof (weight_pos n) as Hw. unfold digit_ok in F2. assert (0 < unit) as Hu by done.
  rewrite digit_base_eq in *. set (u := unit) in *. clearbody u. set (w := weight n) in *. clearbody w. set (t := dval (take n X)) in *. set (A := Z.abs (scaled y)) in *. clearbody A.
  destruct (Z.ltb_spec c (msd X)) as [H1|H1]; [|destruct (Z.ltb_spec (msd X) c) as [H2|H2]].
  - assert (A < (t + w * msd X) * u) as Hlt.
    { assert ((c * 18446744073709551616 + m) * w < (t + w * msd X) * 18446744073709551616) by nia. nia. }
    by apply Z.ltb_lt in Hlt as ->.
  - assert ((t + w * msd X) * u < A) as Hlt.
    { assert ((t + w * msd X) * 18446744073709551616 < (c * 18446744073709551616 + m) * w) by nia. nia. }
    assert ((A <? (t + w * msd X) * u) = false) as -> by (apply Z.ltb_ge; lia). by apply Z.ltb_lt in Hlt as ->.
  - assert (msd X = c) as He by lia. rewrite Hcd.
    assert (A * 18446744073709551616 - (t + w * msd X) * u * 18446744073709551616 = (m * w - t * 18446744073709551616) * u) as Hd by (rewrite He; lia).
    destruct (Z.ltb_spec A ((t + w * msd X) * u)), (Z.ltb_spec (m * w) (t * 18446744073709551616)); try done; try nia.
    destruct (Z.ltb_spec ((t + w * msd X) * u) A), (Z.ltb_spec (t * 18446744073709551616) (m * w)); try done; nia.
Qed.

Lemma order_signs a b : 0 <= a -> b < 0 -> order a b = kGreaterThan.
Proof. intros. apply order_gt. lia. Qed.

Lemma CompareToDouble_finite x y : canonical x -> isfinite y = true -> CompareToDouble x y = order (value x * unit) (scaled y).
Proof.
  intros Hx Hf. destruct (finite_not_infinite y Hf) as (Hn & Hp & Hm). unfold CompareToDouble. rewrite Hn, Hp, Hm. clear Hn Hp Hm.
  assert (0 < unit) as Hu by done. pose proof (value_neg x Hx) as Hneg. pose proof (value_cases x) as Hv.
  destruct (xorb (sign x) (scaled y <? 0)) eqn:Hs.
  { apply xorb_ne in Hs. destruct (Z.ltb_spec (scaled y) 0) as [Hy|Hy]; destruct (sign x); try done; simpl.
    - symmetry. apply order_signs; [|done]. assert (0 <= value x) by (destruct (Z.le_gt_cases 0 (value x)) as [|Hlt]; [done|by apply Hneg in Hlt]). nia.
    - symmetry. apply order_lt. assert (value x < 0) by (by apply Hneg). nia. }
  apply xorb_eq_false in Hs. pose proof (scaled_abs y) as Hsy. rewrite <- Hs in Hsy. destruct (Z.eqb_spec (scaled y) 0) as [Hz|Hz].
  { rewrite Hz in *. simpl in Hs. rewrite Hs in *. simpl. pose proof (is_zero_value x Hx) as H0. pose proof (dval_bounds _ (canonical_digits x Hx)).
    destruct (is_zero x); symmetry; [apply order_eq|apply order_gt].
    - assert (value x = 0) as -> by by apply H0. lia.
    - assert (value x <> 0) by (intros Hvz; apply H0 in Hvz; done). nia. }
  rewrite Hsy. destruct (is_zero x) eqn:Hxz.
  { assert (value x = 0) as H0 by (by apply is_zero_value). rewrite H0. assert (sign x = false) as Hsx by (apply (canonical_zero x Hx); by apply is_zero_digits).
    rewrite Hsx in *. symmetry. apply order_lt. rewrite Z.mul_0_l. lia. }
  destruct (nonzero_digits x Hx Hxz) as (Hd & Hnil & Hmsd). pose proof (canonical_digits x Hx) as Hok. fold (msd (digits x)). rewrite raw_exponent_biased, hidden_mantissa.
  assert (value x * unit = if sign x then - (dval (digits x) * unit) else dval (digits x) * unit) as -> by (rewrite Hv; destruct (sign x); lia).
  destruct (Z.ltb_spec (biased y - 0x3FF) 0) as [He|He].
  { rewrite order_signed. pose proof (scaled_small y ltac:(lia)). destruct (Z.ltb_spec (Z.abs (scaled y)) (dval (digits x) * unit)); [done|nia]. }
  destruct (bit_length _ Hnil Hok Hmsd) as (B1 & _ & B3). pose proof (canonical_length x Hx) as Hlen. rewrite kMaxLength_eq in Hlen.
  assert (1 <= length (digits x))%nat by (destruct (digits x); simpl in *; [done|lia]).
  assert (wrap 32 (Z.of_nat (length (digits x)) * kDigitBits - CountLeadingZeros kDigitBits (msd (digits x))) = Z.log2 (dval (digits x)) + 1) as ->.
  { rewrite B3. unfold kDigitBits in *. unfold wrap. rewrite Z.mod_small; lia. }
  pose proof (magnitude_bounds y ltac:(lia)) as Hmag. pose proof (Z.log2_spec (dval (digits x)) ltac:(lia)) as Hlog. rewrite <- Z.add_1_r in Hlog.
  destruct (Z.ltb_spec (Z.log2 (dval (digits x)) + 1) (biased y - 0x3FF + 1)) as [Hlt|Hge]; [|destruct (Z.ltb_spec (biased y - 0x3FF + 1) (Z.log2 (dval (digits x)) + 1)) as [Hgt|Hle]].
  - rewrite order_signed. pose proof (Z.pow_le_mono_r 2 (Z.log2 (dval (digits x)) + 1) (biased y - 1023) ltac:(lia) ltac:(lia)).
    destruct (Z.ltb_spec (Z.abs (scaled y)) (dval (digits x) * unit)); [nia|]. destruct (Z.ltb_spec (dval (digits x) * unit) (Z.abs (scaled y))); [done|nia].
  - rewrite order_signed. pose proof (Z.pow_le_mono_r 2 (biased y - 1023 + 1) (Z.log2 (dval (digits x))) ltac:(lia) ltac:(lia)).
    destruct (Z.ltb_spec (Z.abs (scaled y)) (dval (digits x) * unit)); [done|nia].
  - by apply compare_aligned; [| | |lia|lia].
Qed.

(** The relation of ECMA-262 between a BigInt and a Number, on all the 2^64 doubles. *)
Definition compare_numbers (v y : Z) : ComparisonResult :=
  if isnan y then kUndefined
  else if isfinite y then order (v * unit) (scaled y)
  else if Sign y <? 0 then kGreaterThan else kLessThan.

Lemma CompareToDouble_spec x y : canonical x -> 0 <= y < 2 ^ 64 -> CompareToDouble x y = compare_numbers (value x) y.
Proof.
  intros Hx Hy. unfold compare_numbers. destruct (isfinite y) eqn:Hf.
  - rewrite CompareToDouble_finite by done. by destruct (finite_not_infinite y Hf) as (-> & _).
  - destruct (isnan y) eqn:Hn; [unfold CompareToDouble; by rewrite Hn|]. destruct (infinite_scaled y Hn Hf Hy) as [-> | ->]; unfold CompareToDouble; by rewrite Hn.
Qed.

(** ** Assembling a double *)

Lemma assemble_spec s e m : 0 <= m < 2 ^ 52 -> 0 <= e <= 1023 ->
  let d := assemble s e m in
  0 <= d < 2 ^ 64 /\ isfinite d = true /\ scaled d = (if s then - ((m + 2 ^ 52) * 2 ^ (e + 1022)) else (m + 2 ^ 52) * 2 ^ (e + 1022)).
Proof.
  intros Hm He. unfold assemble, kPhysicalSignificandSize. set (sb := if s then 1 else 0). assert (0 <= sb <= 1) as Hsb by (unfold sb; destruct s; lia).
  assert (wrap 64 (Z.shiftl (e + 0x3FF) 52) = (e + 0x3FF) * 2 ^ 52) as -> by (rewrite Z.shiftl_mul_pow2 by lia; apply Z.mod_small; lia).
  assert (Z.lor (Z.lor (if s then Z.shiftl 1 63 else 0) ((e + 0x3FF) * 2 ^ 52)) m = sb * 2 ^ 63 + (e + 1023) * 2 ^ 52 + m) as ->.
  { replace (if s then Z.shiftl 1 63 else 0) with (sb * 2 ^ 63) by (unfold sb; by destruct s).
    rewrite (Z.lor_comm (sb * _)), lor_disjoint by lia. rewrite Z.lor_comm. replace ((e + 0x3FF) * 2 ^ 52 + sb * 2 ^ 63) with ((e + 1023 + sb * 2 ^ 11) * 2 ^ 52) by lia.
    rewrite lor_disjoint by lia. lia. }
  set (d := sb * 2 ^ 63 + (e + 1023) * 2 ^ 52 + m). assert (0 <= d < 2 ^ 64) as Hd by (unfold d; lia).
  assert (biased d = e + 1023) as Hb.
  { unfold biased. assert (d / 2 ^ 52 = sb * 2 ^ 11 + (e + 1023)) as -> by (symmetry; apply (Z.div_unique _ _ _ m); unfold d; lia).
    symmetry. apply (Z.mod_unique _ _ sb); lia. }
  assert (mantissa d = m) as Hma by (unfold mantissa; symmetry; apply (Z.mod_unique _ _ (sb * 2 ^ 11 + (e + 1023))); unfold d; lia).
  split; [done|split].
  - unfold isfinite. rewrite IsSpecial_biased, Hb. apply negb_true_iff, Z.eqb_neq. lia.
  - rewrite scaled_normal by lia. rewrite Hb, Hma. replace (e + 1023 - 1) with (e + 1022) by lia.
    unfold Sign. rewrite land_sign by done. assert (d / 2 ^ 63 = sb) as -> by (symmetry; apply (Z.div_unique _ _ _ ((e + 1023) * 2 ^ 52 + m)); unfold d; lia).
    unfold sb. destruct s; simpl (_ =? _); lia.
Qed.

(** ** Rounding *)

(** How a remainder [r] of [k] bits is rounded. *)
Definition rounding_of (r k : Z) : Rounding := match 2 * r ?= 2 ^ k with Lt => kRoundDown | Eq => kTie | Gt => kRoundUp end.

Lemma rounding_down r k : 2 * r < 2 ^ k -> rounding_of r k = kRoundDown.
Proof. unfold rounding_of. by intros ->%Z.compare_lt_iff. Qed.
Lemma rounding_up r k : 2 ^ k < 2 * r -> rounding_of r k = kRoundUp.
Proof. unfold rounding_of. by intros ->%Z.compare_gt_iff. Qed.
Lemma rounding_tie r k : 2 * r = 2 ^ k -> rounding_of r k = kTie.
Proof. unfold rounding_of. by intros ->%Z.compare_eq_iff. Qed.

Lemma lower_digit_spec X j : digits_ok X -> (j <= length X)%nat -> lower_digit X j = negb (dval (take j X) =? 0).
Proof.
  intros HX. induction j as [|j IH]; intros Hj; [done|]. simpl. rewrite IH by lia. rewrite take_S_total, dval_snoc, length_take, Nat.min_l by lia.
  pose proof (dval_take_small X j HX). pose proof (weight_pos j). pose proof (digit_at X j HX) as Hd. unfold digit_ok in Hd.
  destruct (Z.eqb_spec (X.[j]) 0) as [->|Hn]; simpl; [f_equal; by rewrite Z.mul_0_r, Z.add_0_r|]. symmetry. apply negb_true_iff, Z.eqb_neq. nia.
Qed.

Lemma decide_bits_spec X t j c : digits_ok X -> (j <= length X)%nat -> 0 <= t -> 0 <= c ->
  decide_bits X t j c = rounding_of ((c mod 2 ^ (t + 1)) * weight j + dval (take j X)) (t + 1 + 64 * Z.of_nat j).
Proof.
  intros HX Hj Ht Hc. unfold decide_bits. rewrite lower_digit_spec by done.
  pose proof (dval_take_small X j HX) as Hl. pose proof (pow2_log2_bounds t Ht) as Hp. rewrite weight_pow in *.
  pose proof (pow2_log2_bounds (64 * Z.of_nat j) ltac:(lia)) as Hw. set (w := 2 ^ (64 * Z.of_nat j)) in *. set (l := dval (take j X)) in *.
  assert (2 ^ (t + 1 + 64 * Z.of_nat j) = 2 * (2 ^ t * w)) as HK by (rewrite !Z.pow_add_r by lia; unfold w; lia).
  replace (Z.shiftl 1 t) with (2 ^ t) by (by rewrite Z.shiftl_mul_pow2, Z.mul_1_l). rewrite (land_pow2_mask c t) by done.
  assert (Z.land c (2 ^ t) = (c / 2 ^ t) mod 2 * 2 ^ t) as ->.
  { replace (2 ^ t) with (Z.shiftl (Z.ones 1) t) at 1 by (rewrite Z.shiftl_mul_pow2 by done; change (Z.ones 1) with 1; lia).
    rewrite land_field by lia. by rewrite Z.shiftl_mul_pow2, Z.shiftr_div_pow2 by done. }
  assert (c mod 2 ^ (t + 1) = c mod 2 ^ t + 2 ^ t * ((c / 2 ^ t) mod 2)) as -> by (rewrite Z.pow_add_r by lia; apply Z.rem_mul_r; lia).
  pose proof (Z.mod_pos_bound c (2 ^ t) ltac:(lia)). pose proof (Z.mod_pos_bound (c / 2 ^ t) 2 ltac:(lia)). set (r := c mod 2 ^ t) in *. set (b := (c / 2 ^ t) mod 2) in *. set (p := 2 ^ t) in *.
  clearbody w l p r b. assert (b = 0 \/ b = 1) as [-> | ->] by lia.
  - rewrite Z.mul_0_l. simpl. symmetry. apply rounding_down. rewrite HK. nia.
  - rewrite Z.mul_1_l. destruct (Z.eqb_spec p 0); [lia|]. destruct (Z.eqb_spec r 0) as [->|Hr]; simpl; [destruct (Z.eqb_spec l 0) as [->|Hz]; simpl|]; symmetry.
    + apply rounding_tie. rewrite HK. lia.
    + apply rounding_up. rewrite HK. nia.
    + apply rounding_up. rewrite HK. nia.
Qed.

(** ** The top of the digits *)

(** The mantissa holds the 53 top bits of [a], or all its bits, shifted up. *)
Definition top_bits (a m : Z) : Prop :=
  let k := Z.log2 a - 52 in m + 2 ^ 52 = if k <? 0 then a * 2 ^ (- k) else a / 2 ^ k.

Lemma top_bits_bounds a m : 1 <= a -> top_bits a m -> 0 <= m < 2 ^ 52.
Proof.
  unfold top_bits. intros Ha Hm. pose proof (Z.log2_spec a ltac:(lia)) as Hl. rewrite <- Z.add_1_r in Hl. pose proof (Z.log2_nonneg a). set (n := Z.log2 a) in *.
  destruct (Z.ltb_spec (n - 52) 0).
  - pose proof (pow2_log2_bounds (- (n - 52)) ltac:(lia)). assert (2 ^ 52 = 2 ^ n * 2 ^ (- (n - 52))) as He by (rewrite <- Z.pow_add_r by lia; f_equal; lia).
    rewrite Z.pow_add_r in Hl by lia. nia.
  - pose proof (pow2_log2_bounds (n - 52) ltac:(lia)). assert (2 ^ n = 2 ^ 52 * 2 ^ (n - 52)) as He by (rewrite <- Z.pow_add_r by lia; f_equal; lia).
    rewrite Z.pow_add_r in Hl by lia. assert (2 ^ 52 <= a / 2 ^ (n - 52)) by (apply Z.div_le_lower_bound; lia). assert (a / 2 ^ (n - 52) < 2 ^ 53) by (apply Z.div_lt_upper_bound; lia). lia.
Qed.

(** Quotient and remainder of digits cut inside the digit [c]: [t] bits of it are left. *)
Lemma cut_digits hi c j l t : 0 <= t -> 0 <= l < weight j -> 0 <= c ->
  let a := (hi * digit_base + c) * weight j + l in let k := t + 64 * Z.of_nat j in
  t <= 64 -> a / 2 ^ k = (hi * digit_base + c) / 2 ^ t /\ a mod 2 ^ k = (c mod 2 ^ t) * weight j + l.
Proof.
  intros Ht Hl Hc a k Ht64. pose proof (pow2_log2_bounds t Ht). set (h := hi * digit_base + c).
  assert (2 ^ k = 2 ^ t * weight j) as Hk by (unfold k; rewrite Z.pow_add_r, weight_pow by lia; done).
  assert (c mod 2 ^ t = h mod 2 ^ t) as ->.
  { unfold h. rewrite digit_base_eq. change 18446744073709551616 with (2 ^ 64). replace (2 ^ 64) with (2 ^ (64 - t) * 2 ^ t) by (rewrite <- Z.pow_add_r by lia; f_equal; lia).
    rewrite Z.mul_assoc, Z.add_comm, Z.mod_add by lia. done. }
  pose proof (Z.div_mod h (2 ^ t) ltac:(lia)) as Hd. pose proof (Z.mod_pos_bound h (2 ^ t) ltac:(lia)).
  assert (a = 2 ^ k * (h / 2 ^ t) + (h mod 2 ^ t * weight j + l)) as Ha by (unfold a; fold h; rewrite Hk; nia).
  assert (0 <= h mod 2 ^ t * weight j + l < 2 ^ k) as Hb by (rewrite Hk; nia). split; [symmetry; by eapply Z.div_unique; [left|]|symmetry; by eapply Z.mod_unique; [left|]].
Qed.

Definition top_state (X : list Z) (m unset : Z) (j : nat) (c : Z) : Prop :=
  let a := dval X in let k := Z.log2 a - 52 in
  top_bits a m /\ (j <= length X)%nat /\ 0 <= c /\
  ((0 < unset /\ k < 0) \/ (-63 <= unset <= 0 /\ k = - unset + 64 * Z.of_nat j /\ a mod 2 ^ k = (c mod 2 ^ (- unset)) * weight j + dval (take j X))).

Lemma first_mantissa d b : 0 <= b < 64 -> 2 ^ b <= d < 2 ^ (b + 1) ->
  Z.shiftr (if 64 - b =? 64 then 0 else wrap 64 (Z.shiftl d (64 - b))) 12 = d * 2 ^ (64 - b) / 2 ^ 12 - 2 ^ 52.
Proof.
  intros Hb Hd. rewrite Z.shiftr_div_pow2 by lia. pose proof (pow2_log2_bounds (64 - b) ltac:(lia)). rewrite Z.pow_add_r in Hd by lia.
  assert (2 ^ 64 = 2 ^ b * 2 ^ (64 - b)) as He by (rewrite <- Z.pow_add_r by lia; f_equal; lia).
  assert ((if 64 - b =? 64 then 0 else wrap 64 (Z.shiftl d (64 - b))) = d * 2 ^ (64 - b) - 2 ^ 64) as ->.
  { destruct (Z.eqb_spec (64 - b) 64) as [H0|H0].
    - assert (b = 0) as -> by lia. assert (d = 1) as -> by lia. reflexivity.
    - rewrite Z.shiftl_mul_pow2 by lia. unfold wrap. symmetry. apply (Z.mod_unique _ _ 1); nia. }
  replace (d * 2 ^ (64 - b) - 2 ^ 64) with (d * 2 ^ (64 - b) + (- 2 ^ 52) * 2 ^ 12) by lia. rewrite Z.div_add by lia. lia.
Qed.

Lemma scaled_top d b : b <= 52 -> d * 2 ^ (64 - b) / 2 ^ 12 = d * 2 ^ (52 - b).
Proof.
  intros Hb. replace (2 ^ (64 - b)) with (2 ^ (52 - b) * 2 ^ 12) by (rewrite <- Z.pow_add_r by lia; f_equal; lia).
  rewrite Z.mul_assoc. by apply Z.div_mul.
Qed.

Lemma top_mantissa_spec X : digits_ok X -> X <> [] -> msd X <> 0 ->
  let '(m, unset, j, c) := top_mantissa X in top_state X m unset j c.
Proof.
  intros HX Hn Hm. destruct (bit_length X Hn HX Hm) as (B1 & B2 & B3). unfold top_mantissa. fold (msd X). set (z := CountLeadingZeros kDigitBits (msd X)) in *.
  assert (1 <= length X)%nat as Hlen by (destruct X; simpl in *; [done|lia]). pose proof (msd_split X Hn) as Hsplit.
  set (n := (length X - 1)%nat) in *. pose proof (dval_take_small X n HX) as Hl. pose proof (digit_at X n HX) as Hd. fold (msd X) in Hd. unfold digit_ok in Hd.
  set (b := 63 - z) in *. unfold kDigitBits. replace (z + 1 + (64 - 64)) with (64 - b) by (unfold b; lia). replace (64 - b - 12) with (52 - b) by lia.
  rewrite (first_mantissa (msd X) b B1 B2). assert ((64 <=? 52 - b) = false) as -> by (apply Z.leb_gt; lia). simpl (false && _).
  assert (dval X = (0 * digit_base + msd X) * weight n + dval (take n X)) as Ha by lia. unfold top_state, top_bits. rewrite B3.
  destruct (Z.ltb_spec 0 (52 - b)) as [Hb|Hb]; [destruct (Nat.ltb_spec 0 n) as [Hn0|Hn0]|]; simpl andb.
  - pose proof (digit_at X (n - 1) HX) as Hc. unfold digit_ok in Hc. set (c := X.[n - 1]) in *. replace (64 - (52 - b)) with (12 + b) by lia. replace (52 - b - 64) with (- (12 + b)) by lia.
    pose proof (dval_take_small X (n - 1) HX) as Hl'. assert (dval X = (msd X * digit_base + c) * weight (n - 1) + dval (take (n - 1) X)) as Ha'.
    { rewrite Ha. replace n with (S (n - 1)) at 1 2 by lia. rewrite take_S_total, dval_snoc, length_take, Nat.min_l, weight_S by (unfold n in *; lia). fold c. lia. }
    pose proof (cut_digits (msd X) c (n - 1) (dval (take (n - 1) X)) (12 + b) ltac:(lia) Hl' ltac:(lia)) as Hcut. simpl in Hcut. rewrite <- Ha' in Hcut. destruct (Hcut ltac:(lia)) as [C1 C2].
    replace (64 * Z.of_nat n + b - 52) with (12 + b + 64 * Z.of_nat (n - 1)) by lia. rewrite C1, C2.
    destruct (Z.ltb_spec (12 + b + 64 * Z.of_nat (n - 1)) 0); [lia|]. pose proof (pow2_log2_bounds (12 + b) ltac:(lia)).
    split_all; [|unfold n; lia|lia|right; split_all; [lia|lia|lia|by rewrite Z.opp_involutive]].
    rewrite Z.shiftr_div_pow2 by lia. assert (0 <= c / 2 ^ (12 + b) < 2 ^ (52 - b)) as Hq.
    { split; [apply Z.div_pos; lia|]. apply Z.div_lt_upper_bound; [lia|]. rewrite <- Z.pow_add_r by lia. replace (12 + b + (52 - b)) with 64 by lia. rewrite digit_base_eq in Hc. lia. }
    rewrite (scaled_top (msd X) b) by lia. assert (2 ^ 52 = 2 ^ b * 2 ^ (52 - b)) as H52 by (rewrite <- Z.pow_add_r by lia; f_equal; lia).
    assert (msd X * digit_base = msd X * 2 ^ (52 - b) * 2 ^ (12 + b)) as -> by (rewrite <- Z.mul_assoc, <- Z.pow_add_r by lia; replace (52 - b + (12 + b)) with 64 by lia; done).
    rewrite Z.div_add_l by lia. replace (msd X * 2 ^ (52 - b) - 2 ^ 52) with ((msd X - 2 ^ b) * 2 ^ (52 - b)) by lia.
    rewrite Z.lor_comm, lor_disjoint by lia. lia.
  - assert (n = 0%nat) as Hn0' by lia. rewrite Hn0' in *. destruct (Z.ltb_spec (64 * Z.of_nat 0 + b - 52) 0); [|lia].
    split_all; [|lia|lia|left; lia]. rewrite (scaled_top (msd X) b), Ha by lia. change (weight 0) with 1. change (dval (take 0 X)) with 0. replace (- (64 * Z.of_nat 0 + b - 52)) with (52 - b) by lia. lia.
  - pose proof (cut_digits 0 (msd X) n (dval (take n X)) (b - 52) ltac:(lia) Hl ltac:(lia)) as Hcut. simpl in Hcut. simpl in Ha. rewrite <- Ha in Hcut. destruct (Hcut ltac:(lia)) as [C1 C2].
    replace (64 * Z.of_nat n + b - 52) with (b - 52 + 64 * Z.of_nat n) by lia. rewrite C1, C2. destruct (Z.ltb_spec (b - 52 + 64 * Z.of_nat n) 0); [lia|].
    split_all; [|unfold n; lia|lia|right; split_all; [lia|lia|lia|by replace (- (52 - b)) with (b - 52) by lia]].
    assert (2 ^ 12 = 2 ^ (b - 52) * 2 ^ (64 - b)) as -> by (rewrite <- Z.pow_add_r by lia; f_equal; lia).
    pose proof (pow2_log2_bounds (b - 52) ltac:(lia)). pose proof (pow2_log2_bounds (64 - b) ltac:(lia)). rewrite Z.div_mul_cancel_r by lia. rewrite Z.mul_0_l, Z.add_0_l. lia.
Qed.

(** ** ToDouble *)

(** The integer [a] rounded to 53 bits, ties to even. *)
Definition round_53 (a : Z) : Z :=
  let k := Z.log2 a - 52 in
  if k <=? 0 then a
  else
    let q := a / 2 ^ k in
    match rounding_of (a mod 2 ^ k) k with
    | kRoundDown => q
    | kRoundUp => q + 1
    | kTie => if Z.even q then q else q + 1
    end * 2 ^ k.

(** The double nearest to the integer [v]: rounded, or infinite from 2^1024 on. *)
Definition is_nearest (v d : Z) : Prop :=
  if round_53 (Z.abs v) <? 2 ^ 1024 then isfinite d = true /\ scaled d = Z.sgn v * round_53 (Z.abs v) * unit
  else d = infinity (v <? 0).

Lemma DecideRounding_spec X m unset j c : digits_ok X -> 1 <= dval X -> top_state X m unset j c ->
  let k := Z.log2 (dval X) - 52 in
  DecideRounding X unset j c = if k <=? 0 then kRoundDown else rounding_of (dval X mod 2 ^ k) k.
Proof.
  intros HX Ha (Htop & Hj & Hc & Hcase) k. unfold k. unfold DecideRounding. destruct Hcase as [[Hu Hk]|(Hu & Hk & Hr)].
  - assert ((0 <? unset) = true) as -> by (by apply Z.ltb_lt). by assert ((Z.log2 (dval X) - 52 <=? 0) = true) as -> by (apply Z.leb_le; lia).
  - assert ((0 <? unset) = false) as -> by (apply Z.ltb_ge; lia). rewrite Hr. rewrite Hk. destruct (Z.ltb_spec unset 0) as [Hlt|Hge].
    + assert ((- unset + 64 * Z.of_nat j <=? 0) = false) as -> by (apply Z.leb_gt; lia). rewrite decide_bits_spec by (done || lia). by replace (- unset - 1 + 1) with (- unset) by lia.
    + assert (unset = 0) as -> by lia. destruct j as [|j]; [done|]. assert ((- 0 + 64 * Z.of_nat (S j) <=? 0) = false) as -> by (apply Z.leb_gt; lia).
      pose proof (digit_at X j HX) as Hd. unfold digit_ok in Hd. unfold kDigitBits. rewrite decide_bits_spec by (done || lia). change (- 0) with 0. change (2 ^ 0) with 1. rewrite Z.mod_1_r, Z.mul_0_l.
      rewrite take_S_total, dval_snoc, length_take, Nat.min_l by lia. change (64 - 1 + 1) with 64. f_equal; [|lia]. rewrite Z.mod_small; [lia|]. rewrite digit_base_eq in Hd. change (2 ^ 64) with 18446744073709551616. lia.
Qed.

Lemma odd_mantissa m : 0 <= m -> (Z.land m 1 =? 1) = negb (Z.even (m + 2 ^ 52)).
Proof.
  intros Hm. rewrite Z.even_add. change (Z.even (2 ^ 52)) with true. change 1 with (2 ^ 1 - 1) at 1. rewrite land_pow2_mask, Zmod_even by lia. by destruct (Z.even m).
Qed.

(** A finite result that is [a] in magnitude. *)
Lemma assembled x e m a : canonical x -> value x <> 0 -> 0 <= m < 2 ^ 52 -> 0 <= e <= 1023 -> (m + 2 ^ 52) * 2 ^ (e + 1022) = a * unit ->
  isfinite (assemble (sign x) e m) = true /\ scaled (assemble (sign x) e m) = Z.sgn (value x) * a * unit.
Proof.
  intros Hx Hv Hm He Ha. destruct (assemble_spec (sign x) e m Hm He) as (_ & Hf & Hs). split; [done|]. rewrite Hs. pose proof (value_neg x Hx) as Hn.
  destruct (sign x); [rewrite Z.sgn_neg by (by apply Hn); lia|]. rewrite Z.sgn_pos; [lia|]. destruct (Z.lt_trichotomy (value x) 0) as [Hlt|[|]]; [by apply Hn in Hlt|done|done].
Qed.

Lemma round_53_range a : 1 <= a -> (2 ^ Z.log2 a <= round_53 a) /\ (Z.log2 a <= 52 -> round_53 a = a).
Proof.
  intros Ha. unfold round_53. pose proof (Z.log2_spec a ltac:(lia)) as Hl. destruct (Z.leb_spec (Z.log2 a - 52) 0); [split; [lia|done]|]. split; [|lia].
  pose proof (pow2_log2_bounds (Z.log2 a - 52) ltac:(lia)). assert (2 ^ Z.log2 a = 2 ^ 52 * 2 ^ (Z.log2 a - 52)) as He by (rewrite <- Z.pow_add_r by lia; f_equal; lia).
  assert (2 ^ 52 <= a / 2 ^ (Z.log2 a - 52)) by (apply Z.div_le_lower_bound; lia). destruct (rounding_of _ _); [|destruct (Z.even _)|]; nia.
Qed.

(** The mantissa [m] of exponent [n], kept or incremented. *)
Lemma rounded_result x n m (up : bool) : canonical x -> value x <> 0 -> 0 <= m < 2 ^ 52 -> 52 < n <= 1023 ->
  let a := (if up then m + 2 ^ 52 + 1 else m + 2 ^ 52) * 2 ^ (n - 52) in
  let d := if up then
      if negb (Z.shiftr (m + 1) kPhysicalSignificandSize =? 0) then
        if 1023 <? n + 1 then infinity (sign x) else assemble (sign x) (n + 1) 0
      else assemble (sign x) n (m + 1)
    else assemble (sign x) n m in
  if a <? 2 ^ 1024 then isfinite d = true /\ scaled d = Z.sgn (value x) * a * unit else d = infinity (sign x).
Proof.
  intros Hx Hv Hm Hn. pose proof (pow2_log2_bounds (n - 52) ltac:(lia)) as Hp.
  assert (forall Q, Q * 2 ^ (n + 1022) = Q * 2 ^ (n - 52) * unit) as Hunit by (intros Q; rewrite unit_eq, <- Z.mul_assoc, <- Z.pow_add_r by lia; do 2 f_equal; lia).
  pose proof (Z.pow_le_mono_r 2 (n + 1) 1024 ltac:(lia) ltac:(lia)) as Hmax. assert (2 ^ (n + 1) = 2 ^ 53 * 2 ^ (n - 52)) as H53 by (rewrite <- Z.pow_add_r by lia; f_equal; lia).
  destruct up; cbv zeta; [|].
  - unfold kPhysicalSignificandSize. rewrite Z.shiftr_div_pow2 by lia. destruct (decide (m + 1 = 2 ^ 52)) as [He|He].
    + rewrite He. change (2 ^ 52 / 2 ^ 52 =? 0) with false. simpl negb. cbn match. replace (m + 2 ^ 52 + 1) with (2 ^ 53) by lia. rewrite <- H53. destruct (Z.ltb_spec 1023 (n + 1)) as [Hb|Hb].
      * assert (n = 1023) as -> by lia. change (1023 + 1) with 1024. rewrite Z.ltb_irrefl. done.
      * pose proof (Z.pow_lt_mono_r 2 (n + 1) 1024 ltac:(lia) ltac:(lia) ltac:(lia)) as Hlt. apply Z.ltb_lt in Hlt as ->.
        apply assembled; [done|done|lia|lia|]. rewrite H53, <- Hunit. replace (n + 1 + 1022) with (1 + (n + 1022)) by lia. rewrite Z.pow_add_r by lia. lia.
    + rewrite Z.div_small by lia. change (negb (0 =? 0)) with false. cbn match. assert (((m + 2 ^ 52 + 1) * 2 ^ (n - 52) <? 2 ^ 1024) = true) as -> by (apply Z.ltb_lt; nia).
      apply assembled; [done|done|lia|lia|]. rewrite <- Hunit. f_equal. lia.
  - assert (((m + 2 ^ 52) * 2 ^ (n - 52) <? 2 ^ 1024) = true) as -> by (apply Z.ltb_lt; nia). apply assembled; [done|done|lia|lia|]. apply Hunit.
Qed.

Lemma ToDouble_nonzero x : canonical x -> is_zero x = false -> is_nearest (value x) (ToDouble x).
Proof.
  intros Hx Hz. destruct (nonzero_digits x Hx Hz) as (Ha & Hnil & Hmsd). pose proof (canonical_digits x Hx) as Hok.
  assert (value x <> 0) as Hv by (intros He; apply (is_zero_value x Hx) in He; congruence). unfold is_nearest. rewrite (value_abs x Hx), <- (sign_cases x Hx).
  unfold ToDouble. rewrite Hz. fold (msd (digits x)). destruct (bit_length _ Hnil Hok Hmsd) as (B1 & _ & B3). pose proof (canonical_length x Hx) as Hlen. rewrite kMaxLength_eq in Hlen.
  assert (1 <= length (digits x))%nat by (destruct (digits x); simpl in *; [done|lia]).
  assert (wrap 32 (Z.of_nat (length (digits x)) * kDigitBits - CountLeadingZeros kDigitBits (msd (digits x))) = Z.log2 (dval (digits x)) + 1) as ->.
  { rewrite B3. unfold kDigitBits in *. unfold wrap. rewrite Z.mod_small; lia. }
  pose proof (top_mantissa_spec _ Hok Hnil Hmsd) as Htop. destruct (top_mantissa (digits x)) as [[[m unset] j] c]. pose proof (DecideRounding_spec _ _ _ _ _ Hok Ha Htop) as Hround. cbv zeta in Hround. rewrite Hround.
  destruct Htop as (Hbits & _). pose proof (top_bits_bounds _ _ Ha Hbits) as Hm. pose proof (round_53_range _ Ha) as [Hlow Hsmall]. pose proof (Z.log2_spec (dval (digits x)) ltac:(lia)) as Hl.
  clear Hround B3. pose proof (Z.log2_nonneg (dval (digits x))). unfold top_bits in Hbits. set (a := dval (digits x)) in *. set (n := Z.log2 a) in *. replace (n + 1 - 1) with n by lia.
  destruct (Z.ltb_spec 1024 (n + 1)) as [Hbig|Hle].
  { pose proof (Z.pow_le_mono_r 2 1024 n ltac:(lia) ltac:(lia)). assert ((round_53 a <? 2 ^ 1024) = false) as -> by (apply Z.ltb_ge; lia). done. }
  pose proof (Z.pow_le_mono_r 2 (Z.succ n) 1024 ltac:(lia) ltac:(lia)) as Hmax.
  destruct (Z.leb_spec (n - 52) 0) as [Hk|Hk].
  { rewrite Hsmall by lia. assert ((a <? 2 ^ 1024) = true) as -> by (apply Z.ltb_lt; lia). apply assembled; [done|done|done|lia|]. rewrite Hbits, unit_eq.
    destruct (Z.ltb_spec (n - 52) 0); [rewrite <- Z.mul_assoc, <- Z.pow_add_r by lia; do 2 f_equal; lia|]. assert (n = 52) as -> by lia. rewrite Z.div_1_r. reflexivity. }
  destruct (Z.ltb_spec (n - 52) 0); [lia|]. unfold round_53 in *. fold n in Hlow, Hsmall |- *. destruct (Z.leb_spec (n - 52) 0); [lia|]. rewrite <- Hbits.
  rewrite odd_mantissa by lia. destruct (rounding_of _ _); [apply (rounded_result x n m false)|destruct (Z.even (m + 2 ^ 52)); [apply (rounded_result x n m false)|apply (rounded_result x n m true)]|apply (rounded_result x n m true)]; done || lia.
Qed.

Lemma ToDouble_spec x : canonical x -> is_nearest (value x) (ToDouble x).
Proof.
  intros Hx. destruct (is_zero x) eqn:Hz; [|by apply ToDouble_nonzero]. unfold ToDouble. rewrite Hz. assert (value x = 0) as -> by (by apply is_zero_value). by vm_compute.
Qed.

(** [round_53] is off by at most half a unit in the last of 53 places. *)
Lemma round_53_error a : 1 <= a -> 2 * Z.abs (round_53 a - a) <= 2 ^ Z.max 0 (Z.log2 a - 52).
Proof.
  intros Ha. unfold round_53. destruct (Z.leb_spec (Z.log2 a - 52) 0); [rewrite Z.sub_diag; pose proof (Z.pow_pos_nonneg 2 (Z.max 0 (Z.log2 a - 52)) ltac:(lia) ltac:(lia)); lia|].
  rewrite Z.max_r by lia. set (k := Z.log2 a - 52) in *. pose proof (pow2_log2_bounds k ltac:(lia)). pose proof (Z.div_mod a (2 ^ k) ltac:(lia)). pose proof (Z.mod_pos_bound a (2 ^ k) ltac:(lia)).
  set (q := a / 2 ^ k) in *. set (r := a mod 2 ^ k) in *. unfold rounding_of. destruct (Z.compare_spec (2 * r) (2 ^ k)); [destruct (Z.even q)| |]; lia.
Qed.

(** ** The properties *)

Definition number_ok (n : number) : Prop := match n with Smi v => smi_ok v | HeapNumber d => 0 <= d < 2 ^ 64 end.

(** C18. Comparing a BigInt with a number is comparing their exact values, however large or fractional the number is: NaN is unordered, the infinities are beyond every BigInt, and equality holds of equal values only. *)
Theorem bigint_number_comparison x y : canonical x -> number_ok y ->
  CompareToNumber x y = match y with Smi v => order (value x) v | HeapNumber d => compare_numbers (value x) d end /\
  (EqualToNumber x y = true <-> match y with Smi v => value x = v | HeapNumber d => isfinite d = true /\ value x * unit = scaled d end).
Proof.
  intros Hx Hy. destruct y as [v|d]; simpl in *.
  - rewrite CompareToSmi_spec, EqualToSmi_spec by done. split; [done|apply Z.eqb_eq].
  - rewrite CompareToDouble_spec by done. split; [done|]. unfold compare_numbers. destruct (isnan d) eqn:Hn.
    + split; [done|intros [Hf _]]. destruct (finite_not_infinite d Hf). congruence.
    + destruct (isfinite d); [|destruct (Sign d <? 0); (split; [done|by intros [? _]])]. unfold order.
      destruct (Z.compare_spec (value x * unit) (scaled d)); split; try done; intros [_ ?]; lia.
Qed.

(** C19. ToNumber gives the Smi of the value or the double nearest to it, ties to even, and an infinity from 2^1024 - 2^970 on; the error is at most half a unit in the last of 53 places. *)
Theorem bigint_to_number kSmiMaxValue x : canonical x ->
  match ToNumber kSmiMaxValue x with
  | Smi v => v = value x
  | HeapNumber d => is_nearest (value x) d /\ value x <> 0 /\ 2 * Z.abs (round_53 (Z.abs (value x)) - Z.abs (value x)) <= 2 ^ Z.max 0 (Z.log2 (Z.abs (value x)) - 52)
  end.
Proof.
  intros Hx. unfold ToNumber. destruct (is_zero x) eqn:Hz; [symmetry; by apply is_zero_value|].
  assert (value x <> 0) as Hv by (intros He; apply (is_zero_value x Hx) in He; congruence).
  destruct ((length (digits x) =? 1)%nat && ((digits x).[O] <? kSmiMaxValue)) eqn:Hc.
  - apply andb_prop in Hc as [Hl%Nat.eqb_eq _]. destruct (one_digit _ Hl) as [_ Hd]. rewrite value_cases, Hd. by destruct (sign x).
  - split_all; [by apply ToDouble_spec|done|apply round_53_error; lia].
Qed.

Lemma round_53_exact M k : 2 ^ 52 <= M < 2 ^ 53 -> 0 <= k -> round_53 (M * 2 ^ k) = M * 2 ^ k.
Proof.
  intros HM Hk. pose proof (pow2_log2_bounds k Hk). assert (Z.log2 (M * 2 ^ k) = 52 + k) as Hl.
  { apply Z.log2_unique; [lia|]. rewrite <- Z.add_succ_l, !Z.pow_add_r by lia. change (2 ^ Z.succ 52) with (2 ^ 53). nia. }
  unfold round_53. rewrite Hl. replace (52 + k - 52) with k by lia. destruct (Z.leb_spec k 0); [done|]. rewrite Z.div_mul, Z.mod_mul by lia. by rewrite rounding_down by lia.
Qed.

Lemma round_53_trunc d : isfinite d = true -> is_integer d = true -> round_53 (Z.abs (trunc d)) = Z.abs (trunc d) /\ Z.abs (trunc d) < 2 ^ 1024.
Proof.
  intros Hf Hi. unfold is_integer in Hi. pose proof Hi as Ht. apply Z.eqb_eq in Ht. destruct (decide (scaled d = 0)) as [Hz|Hz].
  { unfold trunc. rewrite Hz. by vm_compute. }
  pose proof (integer_biased d Hi Hz) as Hb. pose proof (finite_biased d Hf). pose proof (mantissa_bounds d). pose proof (magnitude_large d Hb) as Hm. pose proof (magnitude_bounds d Hb) as [_ Hlt].
  rewrite <- Ht, Z.abs_mul in Hm, Hlt. change (Z.abs unit) with unit in Hm, Hlt. assert (0 < unit) by done. set (a := Z.abs (trunc d)) in *.
  pose proof (Z.pow_le_mono_r 2 (biased d - 1023 + 1) 1024 ltac:(lia) ltac:(lia)). split; [|nia].
  destruct (Z.le_gt_cases (biased d - 1023) 52) as [Hs|Hs].
  - destruct (decide (a = 0)) as [->|]; [done|]. apply round_53_range; [lia|]. apply Z.lt_succ_r, Z.log2_lt_pow2; [lia|].
    pose proof (Z.pow_le_mono_r 2 (biased d - 1023 + 1) (Z.succ 52) ltac:(lia) ltac:(lia)). nia.
  - assert (a = (mantissa d + 2 ^ 52) * 2 ^ (biased d - 1023 - 52)) as ->; [|apply round_53_exact; lia].
    assert (2 ^ (biased d - 1023) = 2 ^ (biased d - 1023 - 52) * 2 ^ 52) as He by (rewrite <- Z.pow_add_r by lia; f_equal; lia). rewrite He in Hm. nia.
Qed.

(** A double becomes a BigInt exactly when it is a finite integer, and the BigInt has its value; converted back it gives a double of the same value. *)
Theorem number_bigint_roundtrip d : 0 <= d < 2 ^ 64 ->
  match FromNumber (HeapNumber d) with
  | Some x => canonical x /\ value x * unit = scaled d /\ isfinite (ToDouble x) = true /\ scaled (ToDouble x) = scaled d
  | None => isfinite d = false \/ trunc d * unit <> scaled d
  end.
Proof.
  intros Hd. simpl. destruct (isfinite d) eqn:Hf; simpl; [|by left]. destruct (is_integer d) eqn:Hi; simpl; [|right; by apply Z.eqb_neq].
  destruct (NewFromDouble_spec d Hf Hi) as [Hx Hv]. pose proof Hi as Ht. unfold is_integer in Ht. apply Z.eqb_eq in Ht. rewrite Hv. split_all; [done|done|..];
    pose proof (ToDouble_spec _ Hx) as Hn; unfold is_nearest in Hn; rewrite Hv in Hn; destruct (round_53_trunc d Hf Hi) as [Hr Hlt]; rewrite Hr in Hn; apply Z.ltb_lt in Hlt; rewrite Hlt in Hn; destruct Hn as [Hfin Hs]; [done|].
  rewrite Hs. rewrite <- Ht. f_equal. lia.
Qed.

(** 2^53 + 1, whose nearest double is 2^53, and the double 2^53 + 2. *)
Definition above_2_53 : bigint := mkBigInt false [9007199254740993].

Lemma above_canonical : canonical above_2_53.
Proof. constructor; [by repeat constructor|done|done|by vm_compute]. Qed.

Example bigint_number_comparison_witness : CompareToNumber above_2_53 (HeapNumber 0x4340000000000000) = kGreaterThan /\ EqualToNumber above_2_53 (HeapNumber 0x4340000000000001) = false.
Proof.
  destruct (bigint_number_comparison above_2_53 (HeapNumber 0x4340000000000000) above_canonical ltac:(simpl; lia)) as [H1 _].
  split; [rewrite H1; vm_compute; reflexivity|vm_compute; reflexivity].
Defined.

Example bigint_to_number_witness : ToNumber (2 ^ 31 - 1) above_2_53 = HeapNumber 0x4340000000000000 /\ is_nearest (value above_2_53) 0x4340000000000000.
Proof. split; [vm_compute; reflexivity|]. exact (proj1 (bigint_to_number (2 ^ 31 - 1) above_2_53 above_canonical)). Defined.

Example number_bigint_roundtrip_witness : FromNumber (HeapNumber 0x4340000000000001) = Some (mkBigInt false [9007199254740994]) /\ ToDouble (mkBigInt false [9007199254740994]) = 0x4340000000000001 /\
  scaled (ToDouble (mkBigInt false [9007199254740994])) = scaled 0x4340000000000001.
Proof.
  split; [vm_compute; reflexivity|split; [vm_compute; reflexivity|]]. exact (proj2 (proj2 (proj2 (number_bigint_roundtrip 0x4340000000000001 ltac:(lia))))).
Defined.
