(* ===== verification/BigIntNumerals.v ===== *)
(** Characters and numerals: the tables of src/src/bigint/tostring.cc and
    src/src/bigint/bigint-inl.h that relate digits to characters, the powers of a radix that
    fit a digit, and the positional numerals that the conversions are measured against. A
    character is its code. *)
From S2P Require Import Prelude Conversions Digits.

(** ** Characters *)

Definition kConversionChars : list Z := seqZ 48 10 ++ seqZ 97 26.

(** Numerical value of the first 127 ASCII characters, 255 for an invalid one. *)
Definition kCharValue : list Z :=
  replicate 48 255 ++ seqZ 0 10 ++ replicate 7 255 ++ seqZ 10 26 ++ replicate 6 255 ++ seqZ 10 26 ++ replicate 5 255.

(** c > 127 || (d = kCharValue[c]) >= radix *)
Definition char_value (radix c : Z) : option Z :=
  if 127 <? c then None
  else
    let d := kCharValue.[Z.to_nat c] in
    if radix <=? d then None else Some d.

Definition conversion_char (d : Z) : Z := kConversionChars.[Z.to_nat d].

(** ** Constants of a radix *)

(** Maximum number of bits per character, multiplied by 32. *)
Definition kMaxBitsPerChar : list Z :=
  [0; 0; 32; 51; 64; 75; 83; 90; 96; 102; 107; 111; 115; 119; 122; 126; 128; 131; 134; 136; 139; 141; 143; 145; 147; 149; 151; 153; 154; 156; 158; 159; 160; 162; 163; 165; 166].

Definition max_bits_per_char (radix : Z) : Z := kMaxBitsPerChar.[Z.to_nat radix].

Definition kBitsPerCharTableMultiplier : Z := 32.

(** while (exponent > 0); the exponents have at most six bits. *)
Fixpoint digit_pow_loop (fuel : nat) (base exponent result : Z) : Z :=
  match fuel with
  | O => result
  | S fuel =>
    if 0 <? exponent then
      let result := if Z.land exponent 1 =? 0 then result else digit (result * base) in
      digit_pow_loop fuel (digit (base * base)) (Z.shiftr exponent 1) result
    else result
  end.

Definition digit_pow (base exponent : Z) : Z := digit_pow_loop 64 base exponent 1.

Definition IsPowerOfTwo (value : Z) : bool := (0 <? value) && (Z.land value (value - 1) =? 0).

(** The number of trailing zeros of a radix. *)
Fixpoint count_zeros (p : positive) : Z := match p with xO p => 1 + count_zeros p | _ => 0 end.

Definition CountTrailingZeros (value : Z) : Z := match value with Zpos p => count_zeros p | _ => 32 end.

(** ** Numerals *)

(** The value of a list of digits, most significant first. *)
Definition horner (r : Z) (ds : list Z) : Z := foldl (fun acc d => acc * r + d) 0 ds.

(** The [n] lowest digits of [v], most significant first. *)
Fixpoint low_digits (r : Z) (n : nat) (v : Z) : list Z :=
  match n with
  | O => []
  | S n => low_digits r n (v / r) ++ [v mod r]
  end.

Definition low_chars (r : Z) (n : nat) (v : Z) : list Z := conversion_char <$> low_digits r n v.

(** [s] is the numeral of [v] in radix [r]: lower-case digits, no leading zero, "0" for 0. *)
Record numeral_of (r v : Z) (s : list Z) : Prop := {
  numeral_digits : exists ds, s = conversion_char <$> ds /\ Forall (fun d => 0 <= d < r) ds /\ horner r ds = v;
  numeral_nonempty : s <> [];
  numeral_no_zero : head s = Some 48 -> s = [48]
}.

Definition radix_ok (r : Z) : Prop := 2 <= r <= 36.

Definition all_radixes (P : Z -> bool) : bool := forallb P (seqZ 2 35).

Lemma all_radixes_spec P r : all_radixes P = true -> radix_ok r -> P r = true.
Proof. unfold all_radixes. rewrite forallb_forall. intros H [H1 H2]. apply H, list_elem_of_In, elem_of_seqZ. lia. Qed.

(** ** Characters and digits *)

Definition char_ok (r d : Z) : bool := bool_decide (char_value r (conversion_char d) = Some d).

Lemma conversion_char_value r d : 0 <= d < r -> r <= 36 -> char_value r (conversion_char d) = Some d.
Proof.
  intros Hd Hr. assert (forallb (char_ok 36) (seqZ 0 36) = true) as Ht by (vm_compute; reflexivity).
  rewrite forallb_forall in Ht. specialize (Ht d). rewrite <- list_elem_of_In, elem_of_seqZ in Ht. specialize (Ht ltac:(lia)).
  apply bool_decide_eq_true in Ht. unfold char_value in *. destruct (127 <? conversion_char d); [done|].
  revert Ht. generalize (kCharValue.[Z.to_nat (conversion_char d)]). intros d' Ht.
  destruct (Z.leb_spec 36 d'); [done|]. injection Ht as ->.
  by destruct (Z.leb_spec r d); [lia|].
Qed.

Lemma conversion_char_range d : 0 <= d < 36 -> 48 <= conversion_char d <= 122 /\ (conversion_char d = 48 <-> d = 0).
Proof.
  intros Hd. assert (forallb (fun d => (48 <=? conversion_char d) && (conversion_char d <=? 122) && Bool.eqb (conversion_char d =? 48) (d =? 0)) (seqZ 0 36) = true) as Ht by (vm_compute; reflexivity).
  rewrite forallb_forall in Ht. specialize (Ht d). rewrite <- list_elem_of_In, elem_of_seqZ in Ht. specialize (Ht ltac:(lia)).
  rewrite !andb_true_iff in Ht. destruct Ht as ((H1%Z.leb_le & H2%Z.leb_le) & H3%Bool.eqb_prop).
  split; [done|]. rewrite <- !Z.eqb_eq, H3. done.
Qed.

Lemma char_value_range r c d : radix_ok r -> 0 <= c -> char_value r c = Some d -> 0 <= d < r.
Proof.
  intros [Hr Hr'] Hc. unfold char_value. destruct (Z.ltb_spec 127 c) as [|H1]; [done|]. destruct (Z.leb_spec r (kCharValue.[Z.to_nat c])) as [|H2]; [done|].
  intros He. apply (inj Some) in He as <-. split; [|done].
  assert (forallb (fun d => 0 <=? d) kCharValue = true) as Ht by (vm_compute; reflexivity). rewrite forallb_forall in Ht.
  apply Z.leb_le, Ht, nth_In. change (length kCharValue) with 128%nat. lia.
Qed.

(** ** Positional notation *)

Lemma horner_app r a b : horner r (a ++ b) = horner r a * r ^ Z.of_nat (length b) + horner r b.
Proof.
  induction b as [|d b IH] using rev_ind; [rewrite app_nil_r; change (horner r []) with 0; simpl; lia|].
  rewrite app_assoc, length_app, Nat2Z.inj_add, Z.pow_add_r by lia. simpl (r ^ Z.of_nat (length [d])).
  unfold horner in *. rewrite (foldl_app _ (a ++ b)), (foldl_app _ b), IH. simpl. lia.
Qed.

Lemma horner_snoc r a d : horner r (a ++ [d]) = horner r a * r + d.
Proof. by rewrite horner_app, Z.pow_1_r. Qed.

Lemma horner_bounds r ds : 1 <= r -> Forall (fun d => 0 <= d < r) ds -> 0 <= horner r ds < r ^ Z.of_nat (length ds).
Proof.
  intros Hr. induction ds as [|d ds IH] using rev_ind; [done|]. rewrite Forall_app, Forall_singleton, horner_snoc, length_app. intros [H1 H2].
  specialize (IH H1). simpl. rewrite Nat2Z.inj_add, Z.pow_add_r by lia. simpl. nia.
Qed.

Lemma horner_cons r d ds : horner r (d :: ds) = d * r ^ Z.of_nat (length ds) + horner r ds.
Proof. change (d :: ds) with ([d] ++ ds). rewrite horner_app. done. Qed.

Lemma length_low_digits r n v : length (low_digits r n v) = n.
Proof. revert v. induction n; intros v; simpl; [done|]. rewrite length_app, IHn. simpl. lia. Qed.

Lemma length_low_chars r n v : length (low_chars r n v) = n.
Proof. unfold low_chars. by rewrite length_fmap, length_low_digits. Qed.

Lemma low_digits_range r n v : 0 < r -> Forall (fun d => 0 <= d < r) (low_digits r n v).
Proof. intros Hr. revert v. induction n; intros v; simpl; [done|]. apply Forall_app. split; [done|]. apply Forall_singleton, Z.mod_pos_bound. lia. Qed.

Lemma horner_low_digits r n v : 0 < r -> horner r (low_digits r n v) = v mod r ^ Z.of_nat n.
Proof.
  intros Hr. revert v. induction n as [|n IH]; intros v; cbn [low_digits]; [by rewrite Z.mod_1_r|].
  rewrite horner_snoc, IH, Nat2Z.inj_succ, Z.pow_succ_r, Z.rem_mul_r by (try apply Z.pow_pos_nonneg; lia). lia.
Qed.

Lemma low_digits_add r n m v : 0 < r -> low_digits r (n + m) v = low_digits r n (v / r ^ Z.of_nat m) ++ low_digits r m v.
Proof.
  intros Hr. revert v. induction m as [|m IH]; intros v.
  - rewrite Nat.add_0_r, Z.pow_0_r, Z.div_1_r, app_nil_r. done.
  - rewrite Nat.add_succ_r. cbn [low_digits]. rewrite IH, Nat2Z.inj_succ, Z.pow_succ_r, Z.div_div, app_assoc by (try apply Z.pow_pos_nonneg; lia). done.
Qed.

Lemma low_digits_S r n v : 0 < r -> low_digits r (S n) v = v / r ^ Z.of_nat n mod r :: low_digits r n v.
Proof. intros Hr. change (S n) with (1 + n)%nat. rewrite low_digits_add by done. done. Qed.

Lemma low_digits_horner r ds : 0 < r -> Forall (fun d => 0 <= d < r) ds -> low_digits r (length ds) (horner r ds) = ds.
Proof.
  intros Hr. induction ds as [|d ds IH] using rev_ind; [done|]. rewrite Forall_app, Forall_singleton. intros [H1 H2].
  rewrite length_app, Nat.add_comm. cbn [low_digits length Nat.add]. rewrite horner_snoc.
  rewrite Z.div_add_l, Z.div_small, Z.add_0_r, IH by (done || lia). f_equal. f_equal. rewrite Z.add_comm, Z.mod_add by lia. by apply Z.mod_small.
Qed.

(** ** Writing a number from its lowest digit *)

(** [n] characters of [X] are written, [R] is what is left of it; none of them is a leading zero. *)
Definition printed (r X : Z) (n : nat) (out : list Z) (R : Z) : Prop :=
  out = low_chars r n X /\ R = X / r ^ Z.of_nat n /\ ((0 < n)%nat -> r ^ (Z.of_nat n - 1) <= X).

Lemma printed_0 r X : printed r X 0 [] X.
Proof. unfold printed. rewrite Z.pow_0_r, Z.div_1_r. split_all; [done|done|lia]. Qed.

Lemma printed_more r X n out R : 0 < r -> printed r X n out R -> 0 < R -> r ^ Z.of_nat n <= X.
Proof.
  intros Hr (_ & -> & _) HR. assert (0 < r ^ Z.of_nat n) by (apply Z.pow_pos_nonneg; lia).
  destruct (Z.lt_ge_cases X (r ^ Z.of_nat n)); [|done]. destruct (Z.lt_ge_cases X 0).
  - pose proof (Z.div_lt_upper_bound X (r ^ Z.of_nat n) 0). lia.
  - rewrite Z.div_small in HR; lia.
Qed.

Lemma printed_char r X n out R : 0 < r -> printed r X n out R -> 0 < R -> printed r X (S n) (conversion_char (R mod r) :: out) (R / r).
Proof.
  intros Hr HP HR. pose proof (printed_more _ _ _ _ _ Hr HP HR). destruct HP as (-> & -> & _). unfold printed. split_all.
  - unfold low_chars. by rewrite low_digits_S.
  - rewrite Nat2Z.inj_succ, Z.pow_succ_r, Z.div_div by (try apply Z.pow_pos_nonneg; lia). by rewrite Z.mul_comm.
  - intros _. rewrite Nat2Z.inj_succ. by replace (Z.succ (Z.of_nat n) - 1) with (Z.of_nat n) by lia.
Qed.

(** A whole chunk of [m] characters, when something is left above it. *)
Lemma printed_chunk r X n out R m : 0 < r -> printed r X n out R -> 0 < R / r ^ Z.of_nat m ->
  printed r X (m + n) (low_chars r m R ++ out) (R / r ^ Z.of_nat m).
Proof.
  intros Hr HP HR. assert (0 < r ^ Z.of_nat m) by (apply Z.pow_pos_nonneg; lia). assert (0 < r ^ Z.of_nat n) by (apply Z.pow_pos_nonneg; lia).
  assert (R / r ^ Z.of_nat m = X / r ^ Z.of_nat (m + n)) as Hq.
  { destruct HP as (_ & -> & _). rewrite Z.div_div, <- Z.pow_add_r by lia. do 2 f_equal. lia. }
  assert (r ^ Z.of_nat (m + n) <= X) as Hl.
  { apply (printed_more r X (m + n) (low_chars r (m + n) X) (R / r ^ Z.of_nat m)); [done| |done]. unfold printed. split_all; [done|done|].
    intros _. assert (0 < r ^ Z.of_nat (m + n)) by (apply Z.pow_pos_nonneg; lia). rewrite Hq in HR.
    assert (r ^ Z.of_nat (m + n) <= X); [|transitivity (r ^ Z.of_nat (m + n)); [apply Z.pow_le_mono_r; lia|done]].
    destruct (Z.lt_ge_cases X (r ^ Z.of_nat (m + n))); [|done]. destruct (Z.lt_ge_cases X 0); [pose proof (Z.div_lt_upper_bound X (r ^ Z.of_nat (m + n)) 0); lia|rewrite Z.div_small in HR; lia]. }
  destruct HP as (-> & -> & _). unfold printed. split_all; [|done|].
  - unfold low_chars. by rewrite low_digits_add, fmap_app.
  - intros _. transitivity (r ^ Z.of_nat (m + n)); [apply Z.pow_le_mono_r; lia|done].
Qed.

(** Nothing is left: the numeral. *)
Lemma printed_numeral r X n out : radix_ok r -> 0 < X -> printed r X n out 0 -> numeral_of r X out.
Proof.
  intros [Hr Hr'] HX (-> & H0 & Hn). assert (0 < r ^ Z.of_nat n) by (apply Z.pow_pos_nonneg; lia).
  assert (X < r ^ Z.of_nat n) as Hs by (symmetry in H0; apply Z.div_small_iff in H0; lia).
  destruct n as [|n]; [rewrite Z.pow_0_r in *; lia|]. specialize (Hn ltac:(lia)). replace (Z.of_nat (S n) - 1) with (Z.of_nat n) in Hn by lia.
  assert (0 < r ^ Z.of_nat n) by (apply Z.pow_pos_nonneg; lia).
  pose proof (low_digits_range r (S n) X ltac:(lia)) as HR. split.
  - eexists. split; [done|]. split; [done|]. rewrite horner_low_digits by lia. apply Z.mod_small. lia.
  - intros He%(f_equal length). rewrite length_low_chars in He. done.
  - unfold low_chars. rewrite low_digits_S in HR |- * by lia. simpl. intros [= He]. exfalso. apply Forall_cons in HR as [HR _].
    apply conversion_char_range in He; [|lia].
    rewrite Nat2Z.inj_succ, Z.pow_succ_r in Hs by lia. assert (X / r ^ Z.of_nat n < r) by (apply Z.div_lt_upper_bound; lia).
    assert (1 <= X / r ^ Z.of_nat n) by (apply Z.div_le_lower_bound; lia). rewrite Z.mod_small in He by lia. lia.
Qed.

(** A number below [2 ^ bits] has at most [bits * a / b] digits, rounded up, where [r ^ a >= 2 ^ b]. *)
Lemma printed_length r X n out R a b bits : 2 <= r -> printed r X n out R -> 0 < X < 2 ^ bits -> 0 <= bits -> 0 < a -> 0 < b -> 2 ^ b <= r ^ a ->
  Z.of_nat n <= (a * bits - 1) / b + 1.
Proof.
  intros Hr (_ & _ & Hn) [HX0 HX] Hbits Ha Hb Hp. destruct n as [|n]; [assert (bits <> 0) by (intros ->; lia); pose proof (Z.div_pos (a * bits - 1) b); nia|].
  specialize (Hn ltac:(lia)). replace (Z.of_nat (S n) - 1) with (Z.of_nat n) in Hn by lia.
  assert (2 ^ (b * Z.of_nat n) < 2 ^ (bits * a)) as Hlt.
  { rewrite !Z.pow_mul_r by lia. apply Z.le_lt_trans with ((r ^ a) ^ Z.of_nat n); [apply Z.pow_le_mono_l; pose proof (Z.pow_pos_nonneg 2 b); lia|].
    rewrite <- Z.pow_mul_r, Z.mul_comm, Z.pow_mul_r by lia. apply Z.pow_lt_mono_l; [lia|]. pose proof (Z.pow_pos_nonneg r (Z.of_nat n)). lia. }
  apply Z.pow_lt_mono_r_iff in Hlt; [|lia|nia]. assert (Z.of_nat n <= (a * bits - 1) / b) by (apply Z.div_le_lower_bound; lia). lia.
Qed.

(** ** Numerals are unique *)

Lemma char_inj d d' : 0 <= d < 36 -> 0 <= d' < 36 -> conversion_char d = conversion_char d' -> d = d'.
Proof. intros Hd Hd' He. pose proof (conversion_char_value 36 d Hd ltac:(lia)) as H1. rewrite He, (conversion_char_value 36 d' Hd' ltac:(lia)) in H1. congruence. Qed.

Lemma numeral_bounds r v ds : radix_ok r -> 0 < v -> numeral_of r v (conversion_char <$> ds) -> Forall (fun d => 0 <= d < r) ds -> horner r ds = v ->
  exists n, length ds = S n /\ r ^ Z.of_nat n <= v < r ^ Z.of_nat (S n).
Proof.
  intros Hr Hv [_ Hne Hz] HF Hh. pose proof (proj1 Hr) as Hr2. destruct ds as [|d ds]; [done|]. exists (length ds). split; [done|].
  pose proof (horner_bounds r (d :: ds) ltac:(lia) HF) as Hb. rewrite Hh in Hb. split; [|apply Hb]. apply Forall_cons in HF as [Hd HF].
  rewrite horner_cons in Hh. pose proof (horner_bounds r ds ltac:(lia) HF). assert (0 < r ^ Z.of_nat (length ds)) by (apply Z.pow_pos_nonneg; lia).
  destruct (Z.eq_dec d 0) as [->|]; [|nia]. simpl in Hz. specialize (Hz eq_refl). injection Hz as Hz. apply fmap_nil_inv in Hz as ->. unfold horner in *. simpl in *. lia.
Qed.

Lemma numeral_unique r v s s' : radix_ok r -> 0 < v -> numeral_of r v s -> numeral_of r v s' -> s = s'.
Proof.
  intros Hr Hv Hs Hs'. pose proof Hs as [(ds & -> & HF & Hh) _ _]. pose proof Hs' as [(ds' & -> & HF' & Hh') _ _]. pose proof (proj1 Hr) as Hr2.
  destruct (numeral_bounds r v ds Hr Hv Hs HF Hh) as (n & Hn & B1 & B2). destruct (numeral_bounds r v ds' Hr Hv Hs' HF' Hh') as (n' & Hn' & B3 & B4).
  assert (n = n') as ->.
  { destruct (Nat.lt_trichotomy n n') as [Hlt|[|Hlt]]; [|done|].
    - pose proof (Z.pow_le_mono_r r (Z.of_nat (S n)) (Z.of_nat n') ltac:(lia) ltac:(lia)). lia.
    - pose proof (Z.pow_le_mono_r r (Z.of_nat (S n')) (Z.of_nat n) ltac:(lia) ltac:(lia)). lia. }
  f_equal. rewrite <- (low_digits_horner r ds), <- (low_digits_horner r ds') by (done || lia). by rewrite Hn, Hn', Hh, Hh'.
Qed.

(** Reading a numeral gives back its digits. *)
Lemma numeral_zero r : radix_ok r -> numeral_of r 0 [48].
Proof. intros [Hr _]. split; [|done|done]. exists [0]. split_all; [done|by constructor; [lia|]|done]. Qed.
