(* ===== verification/BigIntPrinting.v ===== *)
(** BigInts to strings: the formatter of src/src/bigint/tostring.cc, in a build without the
    advanced algorithms, where the classic algorithm serves all radixes but powers of two.

    The formatter writes its buffer from right to left: [out] is the list of the characters
    written so far, the leftmost first. A write below the start of the buffer, and an index of
    digits that wraps around, are [None]. *)
From S2P Require Import Prelude Conversions Digits DigitsLinear DigitsMultiply DigitDivision DigitsDivide Karatsuba BigIntTheorems BigIntNumerals.

(** ** Single digits *)

(** '0' + (chunk % radix), or the table. *)
Definition fixed_char (radix d : Z) : Z := if radix <=? 10 then 48 + d else conversion_char d.

(** while (chunk != 0); a digit has at most 64 characters. *)
Fixpoint BasecaseFixedLast (fuel : nat) (radix chunk : Z) (out : list Z) : list Z :=
  match fuel with
  | O => out
  | S fuel => if chunk =? 0 then out else BasecaseFixedLast fuel radix (chunk / radix) (fixed_char radix (chunk mod radix) :: out)
  end.

(** do ... while (digit > 0) *)
Fixpoint basecase_loop (fuel : nat) (radix digit : Z) (out : list Z) : list Z :=
  match fuel with
  | O => out
  | S fuel =>
    let out := conversion_char (digit mod radix) :: out in
    let digit := digit / radix in
    if 0 <? digit then basecase_loop fuel radix digit out else out
  end.

Definition BasecaseLast (radix digit : Z) (out : list Z) : list Z :=
  if radix =? 10 then BasecaseFixedLast 64 10 digit out else basecase_loop 64 radix digit out.

Fixpoint BasecaseMiddle (radix : Z) (chunk_chars_ : nat) (digit : Z) (out : list Z) : list Z :=
  match chunk_chars_ with
  | O => out
  | S n => BasecaseMiddle radix n (digit / radix) (conversion_char (digit mod radix) :: out)
  end.

(** ** Division by a constant *)

Fixpoint digit_pow_rec (base : Z) (exponent : nat) : Z :=
  match exponent with
  | S (S _ as e) => digit (base * digit_pow_rec base e)
  | _ => base
  end.

(** A digit of the quotient and the remainder, half a digit at a time. *)
Definition magic_digit (chunk_divisor d remainder : Z) : Z * Z :=
  let upper := Z.lor (digit (Z.shiftl remainder kHalfDigitBits)) (Z.shiftr d kHalfDigitBits) in
  let u_result := upper / chunk_divisor in
  let remainder := upper mod chunk_divisor in
  let lower := Z.lor (digit (Z.shiftl remainder kHalfDigitBits)) (Z.land d kHalfDigitMask) in
  let l_result := lower / chunk_divisor in
  (Z.lor (digit (Z.shiftl u_result kHalfDigitBits)) l_result, lower mod chunk_divisor).

(** for (uint32_t i = input.len(); i-- > 0;) *)
Fixpoint magic_loop (chunk_divisor : Z) (input : list Z) (i : nat) (remainder : Z) : list Z * Z :=
  match i with
  | O => ([], remainder)
  | S i =>
    let '(q, remainder) := magic_digit chunk_divisor (input.[i]) remainder in
    let '(qs, remainder) := magic_loop chunk_divisor input i remainder in
    (qs ++ [q], remainder)
  end.

(** The loop over the characters of a chunk. *)
Fixpoint magic_chars (radix : Z) (n : nat) (remainder : Z) (out : list Z) : list Z :=
  match n with
  | O => out
  | S n => magic_chars radix n (remainder / radix) (fixed_char radix (remainder mod radix) :: out)
  end.

Definition DivideByMagic (radix : Z) (input out : list Z) : list Z * list Z :=
  let chunk_chars := Z.to_nat (kHalfDigitBits * kBitsPerCharTableMultiplier / max_bits_per_char radix) in
  let chunk_divisor := digit_pow_rec radix chunk_chars in
  let '(rest, remainder) := magic_loop chunk_divisor input (length input) 0 in
  (rest, magic_chars radix chunk_chars remainder out).

(** ** The classic algorithm *)

(** Start(): the characters of a chunk and its divisor. *)
Definition Start (radix : Z) : nat * Z :=
  let chunk_chars_ := kDigitBits * kBitsPerCharTableMultiplier / max_bits_per_char radix in
  (Z.to_nat chunk_chars_, digit_pow radix chunk_chars_).

(** One round: the rest of the number, the output and the work. *)
Definition classic_round (radix : Z) (chunk_chars_ : nat) (chunk_divisor_ : Z) (dividend out : list Z) (p : Processor) : option (list Z * list Z * Processor) :=
  let len := Z.of_nat (length dividend) in
  if radix =? 10 then
    let '(rest, out) := DivideByMagic 10 dividend out in
    Some (rest, out, AddWorkEstimate (len * 2) p)
  else
    match DivideSingle (length dividend) dividend chunk_divisor_ with
    | None => None
    | Some (rest, _, chunk) => Some (rest, BasecaseMiddle radix chunk_chars_ chunk out, AddWorkEstimate (len * 10) p)
    end.

(** do ... while (rest.len() > 1); the number shrinks by 29 bits at least. *)
Fixpoint classic_loop (fuel : nat) (radix : Z) (chunk_chars_ : nat) (chunk_divisor_ : Z) (dividend out : list Z) (p : Processor) : option (list Z * Processor) :=
  match fuel with
  | O => None
  | S fuel =>
    match classic_round radix chunk_chars_ chunk_divisor_ dividend out p with
    | None => None
    | Some (rest, out, p) =>
      if should_terminate p then Some (out, p)
      else
        let rest := Normalize rest in
        if (1 <? length rest)%nat then classic_loop fuel radix chunk_chars_ chunk_divisor_ rest out p
        else Some (BasecaseLast radix (rest.[O]) out, p)
    end
  end.

Definition Classic (radix : Z) (digits_ : list Z) (p : Processor) : option (list Z * Processor) :=
  let '(chunk_chars_, chunk_divisor_) := Start radix in
  if (length digits_ =? 0)%nat then Some ([48], p)
  else if (length digits_ =? 1)%nat then Some (BasecaseLast radix (digits_.[O]) [], p)
  else classic_loop (3 * length digits_) radix chunk_chars_ chunk_divisor_ digits_ [] p.

(** ** Powers of two *)

(** while (available_bits >= bits_per_char) *)
Fixpoint whole_chars (fuel : nat) (bits_per_char char_mask digit available_bits : Z) (out : list Z) : Z * Z * list Z :=
  match fuel with
  | O => (digit, available_bits, out)
  | S fuel =>
    if bits_per_char <=? available_bits then
      whole_chars fuel bits_per_char char_mask (Z.shiftr digit bits_per_char) (available_bits - bits_per_char) (conversion_char (Z.land digit char_mask) :: out)
    else (digit, available_bits, out)
  end.

(** The loop over all digits but the last. *)
Fixpoint power_of_two_loop (bits_per_char char_mask : Z) (ds : list Z) (digit_ available_bits : Z) (out : list Z) : Z * Z * list Z :=
  match ds with
  | [] => (digit_, available_bits, out)
  | new_digit :: ds =>
    let current := Z.land (Z.lor digit_ (digit (Z.shiftl new_digit available_bits))) char_mask in
    let out := conversion_char current :: out in
    let consumed_bits := bits_per_char - available_bits in
    let '(digit_, available_bits, out) := whole_chars 64 bits_per_char char_mask (Z.shiftr new_digit consumed_bits) (kDigitBits - consumed_bits) out in
    power_of_two_loop bits_per_char char_mask ds digit_ available_bits out
  end.

(** while (digit != 0) *)
Fixpoint last_chars (fuel : nat) (bits_per_char char_mask digit : Z) (out : list Z) : list Z :=
  match fuel with
  | O => out
  | S fuel =>
    if digit =? 0 then out
    else last_chars fuel bits_per_char char_mask (Z.shiftr digit bits_per_char) (conversion_char (Z.land digit char_mask) :: out)
  end.

(** For a number without digits the unsigned [len() - 1] wraps around. *)
Definition BasePowerOfTwo (radix : Z) (digits_ : list Z) : option (list Z) :=
  let bits_per_char := CountTrailingZeros radix in
  let char_mask := radix - 1 in
  if (length digits_ =? 0)%nat then None
  else
    let '(digit_, available_bits, out) := power_of_two_loop bits_per_char char_mask (removelast digits_) 0 0 [] in
    let current := Z.land (Z.lor digit_ (digit (Z.shiftl (msd digits_) available_bits))) char_mask in
    Some (last_chars 64 bits_per_char char_mask (Z.shiftr (msd digits_) (bits_per_char - available_bits)) (conversion_char current :: out)).

(** ** The formatter *)

(** while (out_ < out_end_ && *out_ == '0') out_++; *)
Fixpoint skip_zeros (out : list Z) : list Z :=
  match out with
  | c :: out' => if c =? 48 then skip_zeros out' else out
  | [] => []
  end.

(** The characters of the result; [chars_available] is the length of the buffer. *)
Definition Finish (chars_available : Z) (sign_ : bool) (out : list Z) : option (list Z) :=
  if chars_available <? Z.of_nat (length out) then None
  else
    let out := skip_zeros out in
    let out := if sign_ then 45 :: out else out in
    if chars_available <? Z.of_nat (length out) then None else Some out.

Definition ToStringImpl (chars_available : Z) (X : list Z) (radix : Z) (sign : bool) (p : Processor) : option (list Z * Processor) :=
  let digits_ := Normalize X in
  let written := if IsPowerOfTwo radix then (out ← BasePowerOfTwo radix digits_; Some (out, p)) else Classic radix digits_ p in
  '(out, p) ← written;
  s ← Finish chars_available sign out;
  Some (s, p).

(** The characters and whether the processor was interrupted. *)
Definition ToString (chars_available : Z) (X : list Z) (radix : Z) (sign : bool) (p : Processor) : option (list Z * bool * Processor) :=
  '(s, p) ← ToStringImpl chars_available X radix sign p;
  let '(status, p) := get_and_clear_status p in
  Some (s, status, p).

(** DIV_CEIL(x, y) in w-bit unsigned arithmetic. *)
Definition DIV_CEIL (w x y : Z) : Z := wrap w (wrap w (x - 1) / y + 1).

Definition BitLength_digits (X : list Z) : Z := wrap 32 (Z.of_nat (length X) * kDigitBits - CountLeadingZeros kDigitBits (msd X)).

Definition ToStringResultLength (X : list Z) (radix : Z) (sign : bool) : Z :=
  let bit_length := BitLength_digits X in
  let result :=
    if IsPowerOfTwo radix then wrap 32 (DIV_CEIL 32 bit_length (CountTrailingZeros radix) + Z.b2z sign)
    else
      let min_bits_per_char := max_bits_per_char radix - 1 in
      let chars_required := wrap 64 (bit_length * kBitsPerCharTableMultiplier) in
      wrap 32 (DIV_CEIL 64 chars_required min_bits_per_char) in
  wrap 32 (result + Z.b2z sign).

(** ** Chunks of digits *)

Lemma fixed_char_conversion radix d : radix <= 10 -> 0 <= d < radix -> fixed_char radix d = conversion_char d.
Proof.
  intros Hr Hd. unfold fixed_char. rewrite (proj2 (Z.leb_le _ _) Hr).
  assert (forallb (fun d => 48 + d =? conversion_char d) (seqZ 0 10) = true) as Ht by (vm_compute; reflexivity).
  rewrite forallb_forall in Ht. apply Z.eqb_eq, Ht, list_elem_of_In, elem_of_seqZ. lia.
Qed.

Lemma low_digits_mod r n v : 0 < r -> low_digits r n (v mod r ^ Z.of_nat n) = low_digits r n v.
Proof.
  intros Hr. rewrite <- (horner_low_digits r n v) by done. rewrite <- (length_low_digits r n v) at 1.
  by apply low_digits_horner, low_digits_range.
Qed.

Lemma BasecaseMiddle_eq r n d out : BasecaseMiddle r n d out = low_chars r n d ++ out.
Proof.
  revert d out. induction n as [|n IH]; intros d out; cbn [BasecaseMiddle]; [done|]. rewrite IH.
  unfold low_chars. cbn [low_digits]. rewrite fmap_app, <- app_assoc. done.
Qed.

Lemma magic_chars_eq r n d out : 2 <= r <= 10 -> magic_chars r n d out = low_chars r n d ++ out.
Proof.
  intros Hr. revert d out. induction n as [|n IH]; intros d out; cbn [magic_chars]; [done|]. rewrite IH.
  unfold low_chars. cbn [low_digits]. rewrite fmap_app, <- app_assoc, fixed_char_conversion by (try apply Z.mod_pos_bound; lia). done.
Qed.

Lemma fuel_quotient d r fuel : 2 <= r -> 0 <= d < 2 ^ Z.of_nat (S fuel) -> 0 <= d / r < 2 ^ Z.of_nat fuel.
Proof.
  intros Hr Hd. rewrite Nat2Z.inj_succ, Z.pow_succ_r in Hd by lia. split; [apply Z.div_pos; lia|].
  apply Z.div_lt_upper_bound; [lia|]. pose proof (Z.pow_pos_nonneg 2 (Z.of_nat fuel)). nia.
Qed.

Lemma BasecaseFixedLast_spec r X fuel n out R : radix_ok r -> r <= 10 -> printed r X n out R -> 0 <= R < 2 ^ Z.of_nat fuel ->
  exists n', printed r X n' (BasecaseFixedLast fuel r R out) 0.
Proof.
  intros Hr Hr'. unfold radix_ok in Hr. revert n out R. induction fuel as [|fuel IH]; intros n out R HP HR; cbn [BasecaseFixedLast].
  { assert (R = 0) as -> by (simpl in HR; lia). by exists n. }
  destruct (Z.eqb_spec R 0) as [->|]; [by exists n|]. rewrite fixed_char_conversion by (try apply Z.mod_pos_bound; lia).
  apply (IH (S n)); [apply printed_char; done || lia|]. apply fuel_quotient; lia.
Qed.

Lemma basecase_loop_spec r X fuel n out R : radix_ok r -> printed r X n out R -> 0 < R < 2 ^ Z.of_nat fuel ->
  exists n', printed r X n' (basecase_loop fuel r R out) 0.
Proof.
  intros Hr. unfold radix_ok in Hr. revert n out R. induction fuel as [|fuel IH]; intros n out R HP HR; cbn [basecase_loop]; [simpl in HR; lia|].
  assert (printed r X (S n) (conversion_char (R mod r) :: out) (R / r)) as HP' by (apply printed_char; done || lia).
  destruct (fuel_quotient R r fuel ltac:(lia) ltac:(lia)). destruct (Z.ltb_spec 0 (R / r)); [by apply (IH (S n))|].
  exists (S n). by replace 0 with (R / r) by lia.
Qed.

Lemma BasecaseLast_spec r X n out R : radix_ok r -> printed r X n out R -> 0 < R -> digit_ok R ->
  exists n', printed r X n' (BasecaseLast r R out) 0.
Proof.
  intros Hr HP H0 [_ HR]. unfold BasecaseLast. destruct (Z.eqb_spec r 10) as [->|].
  - apply (BasecaseFixedLast_spec 10 X 64 n); [done|done|done|]. split; [lia|exact HR].
  - apply (basecase_loop_spec r X 64 n); [done|done|]. split; [lia|exact HR].
Qed.

(** ** Division by a constant *)

Lemma half_digit a b : 0 <= a -> 0 <= b < kHalfDigitBase -> a < kHalfDigitBase ->
  Z.lor (digit (Z.shiftl a kHalfDigitBits)) b = a * kHalfDigitBase + b /\ digit_ok (a * kHalfDigitBase + b).
Proof.
  intros Ha Hb Ha'. rewrite shift_half, Z.mod_small by done.
  change kHalfDigitBase with (2 ^ 32) in *. rewrite Z.lor_comm, (Z.mul_comm (2 ^ 32)), lor_disjoint by lia.
  split; [lia|]. unfold digit_ok, digit_base, kDigitBits. change (2 ^ 64) with (2 ^ 32 * 2 ^ 32). nia.
Qed.

Lemma magic_digit_spec c d rem q rem' : digit_ok d -> 0 <= rem < c -> c <= kHalfDigitBase -> magic_digit c d rem = (q, rem') ->
  q * c + rem' = rem * digit_base + d /\ 0 <= rem' < c /\ digit_ok q.
Proof.
  intros Hd Hr Hc. unfold magic_digit. pose proof (halves d Hd) as Hh. rewrite low_half, high_half.
  assert (0 <= d / kHalfDigitBase < kHalfDigitBase) as Hhi.
  { split; [apply Z.div_pos; unfold digit_ok in Hd; lia || by compute|]. apply Z.div_lt_upper_bound; [by compute|]. rewrite half_base. apply Hd. }
  pose proof (Z.mod_pos_bound d kHalfDigitBase ltac:(by compute)) as Hlo. pose proof (Z.div_mod d kHalfDigitBase ltac:(by compute)) as Hdm.
  destruct (half_digit rem (d / kHalfDigitBase)) as [-> _]; [lia|done|lia|].
  set (upper := rem * kHalfDigitBase + d / kHalfDigitBase). pose proof (Z.mod_pos_bound upper c ltac:(lia)) as Hum. pose proof (Z.div_mod upper c ltac:(lia)) as Hud.
  destruct (half_digit (upper mod c) (d mod kHalfDigitBase)) as [-> _]; [lia|done|lia|].
  set (lower := upper mod c * kHalfDigitBase + d mod kHalfDigitBase). pose proof (Z.mod_pos_bound lower c ltac:(lia)) as Hlm. pose proof (Z.div_mod lower c ltac:(lia)) as Hld.
  assert (0 <= upper / c < kHalfDigitBase) as Hu by (split; [apply Z.div_pos; unfold upper; nia|apply Z.div_lt_upper_bound; unfold upper; nia]).
  assert (0 <= lower / c < kHalfDigitBase) as Hl by (split; [apply Z.div_pos; unfold lower; nia|apply Z.div_lt_upper_bound; unfold lower; nia]).
  destruct (half_digit (upper / c) (lower / c)) as [-> Hq]; [lia|done|lia|]. intros [= <- <-]. split_all; [|lia|lia|done].
  rewrite <- half_base. unfold lower in Hld at 1. unfold upper in Hud at 1. nia.
Qed.

Lemma magic_loop_spec c input i rem qs rem' : digits_ok input -> 0 <= rem < c -> c <= kHalfDigitBase -> (i <= length input)%nat ->
  magic_loop c input i rem = (qs, rem') ->
  dval qs * c + rem' = dval (take i input) + weight i * rem /\ 0 <= rem' < c /\ digits_ok qs /\ length qs = i.
Proof.
  intros HA Hr Hc. revert rem Hr qs rem'. induction i as [|i IH]; intros rem Hr qs rem' Hi; cbn [magic_loop].
  { intros [= <- <-]. rewrite weight_0. simpl. split_all; [lia|lia|lia|constructor|done]. }
  destruct (magic_digit _ _ _) as [q rem1] eqn:Hm. destruct (magic_loop _ _ _ _) as [qs1 rem2] eqn:He. intros [= <- <-].
  apply magic_digit_spec in Hm as (M1 & M2 & M3); [|by apply digit_at|done|done].
  destruct (IH _ M2 _ _ ltac:(lia) He) as (I1 & I2 & I3 & I4).
  rewrite dval_snoc, length_app, I4, take_S_total, dval_snoc, length_take, Nat.min_l, weight_S by lia. simpl.
  apply (f_equal (Z.mul (weight i))) in M1. split_all; [nia|lia|lia| |lia]. apply app_ok, Forall_singleton; done.
Qed.

(** ** The constants of the radixes *)

Definition radix_constants (r : Z) : bool :=
  IsPowerOfTwo r ||
  let '(n, c) := Start r in (c =? r ^ Z.of_nat n) && (c <? digit_base) && (2 ^ 29 <=? c) && (2 ^ (max_bits_per_char r - 1) <=? r ^ 32) && (50 <? max_bits_per_char r) && (max_bits_per_char r <? 200).

Lemma radix_constants_hold : all_radixes radix_constants = true.
Proof. vm_compute. reflexivity. Qed.

Lemma radix_constants_spec r : radix_ok r -> IsPowerOfTwo r = false -> let '(n, c) := Start r in
  c = r ^ Z.of_nat n /\ digit_ok c /\ 2 ^ 29 <= c /\ 2 ^ (max_bits_per_char r - 1) <= r ^ 32 /\ 50 < max_bits_per_char r < 200.
Proof.
  intros Hr Hp. pose proof (all_radixes_spec radix_constants r radix_constants_hold Hr) as Hc. unfold radix_constants in Hc.
  apply orb_true_iff in Hc as [Hc|Hc]; [congruence|]. destruct (Start r) as [n c].
  rewrite !andb_true_iff in Hc. destruct Hc as (((((H1%Z.eqb_eq & H2%Z.ltb_lt) & H3%Z.leb_le) & H4%Z.leb_le) & H5%Z.ltb_lt) & H6%Z.ltb_lt).
  unfold digit_ok. assert (0 <= c) by (clear -H3; lia). split_all; try assumption.
Qed.

(** ** The classic algorithm *)

(** A chunk of the [m] lowest characters, cut off by a division. *)
Lemma printed_division r X n out R m q chunk : 0 < r -> printed r X n out R -> R = q * r ^ Z.of_nat m + chunk -> 0 <= chunk < r ^ Z.of_nat m -> 0 < q ->
  printed r X (m + n) (low_chars r m chunk ++ out) q.
Proof.
  intros Hr HP He Hc Hq. assert (R / r ^ Z.of_nat m = q) as Hd by (symmetry; apply (Z.div_unique_pos _ _ _ chunk); lia).
  assert (R mod r ^ Z.of_nat m = chunk) as Hm by (symmetry; apply (Z.mod_unique_pos _ _ q); lia).
  assert (low_chars r m chunk = low_chars r m R) as -> by (unfold low_chars; by rewrite <- Hm, low_digits_mod).
  rewrite <- Hd. apply printed_chunk; [done|done|by rewrite Hd].
Qed.

Lemma magic_constants : max_bits_per_char 10 = 107 /\ digit_pow_rec 10 9 = 10 ^ 9.
Proof. split; reflexivity. Qed.

Lemma DivideByMagic_spec input out : digits_ok input ->
  exists rest chunk, DivideByMagic 10 input out = (rest, low_chars 10 9 chunk ++ out) /\ digits_ok rest /\ length rest = length input /\
    dval input = dval rest * 10 ^ 9 + chunk /\ 0 <= chunk < 10 ^ 9.
Proof.
  intros HA. unfold DivideByMagic. change (Z.to_nat (kHalfDigitBits * kBitsPerCharTableMultiplier / max_bits_per_char 10)) with 9%nat.
  rewrite (proj2 magic_constants). destruct (magic_loop _ _ _ _) as [rest chunk] eqn:He.
  apply magic_loop_spec in He as (M1 & M2 & M3 & M4); [|done|lia|by compute|done]. rewrite take_ge in M1 by done.
  exists rest, chunk. rewrite magic_chars_eq by lia. split_all; (done || lia).
Qed.

Lemma rest_positive D q c chunk : 0 <= chunk < c -> D = q * c + chunk -> digit_base <= D -> c < digit_base -> 0 < q.
Proof. intros Hch He HD Hb. destruct (Z.lt_ge_cases 0 q); [done|nia]. Qed.

(** The number above the chunk is smaller by 29 bits and still positive. *)
Lemma rest_bounds D q c chunk fuel : 2 ^ 29 <= c -> 0 <= chunk < c -> D = q * c + chunk -> digit_base <= D -> c < digit_base ->
  D < 2 ^ (29 * Z.of_nat (S fuel)) -> 0 < q /\ q < 2 ^ (29 * Z.of_nat fuel).
Proof.
  intros Hc Hch He HD Hb HF. pose proof (rest_positive D q c chunk Hch He HD Hb). split; [done|].
  replace (29 * Z.of_nat (S fuel)) with (29 * Z.of_nat fuel + 29) in HF by lia. rewrite Z.pow_add_r in HF by lia.
  assert (0 < 2 ^ (29 * Z.of_nat fuel)) by (apply Z.pow_pos_nonneg; lia). nia.
Qed.

Lemma two_digits X : digits_ok X -> IsDigitNormalized X = true -> (2 <= length X)%nat -> digit_base <= dval X.
Proof.
  intros HX HN Hl. transitivity (weight (length X - 1)); [|apply normalized_bound; [done|done|intros ->; simpl in Hl; lia]].
  change digit_base with (digit_base * weight 0). rewrite <- weight_S. apply weight_mono. lia.
Qed.

Lemma classic_round_spec r X n out dividend p : radix_ok r -> IsPowerOfTwo r = false -> digits_ok dividend -> digit_base <= dval dividend ->
  printed r X n out (dval dividend) ->
  let '(chunk_chars, chunk_divisor) := Start r in
  exists rest out' p' n' c, classic_round r chunk_chars chunk_divisor dividend out p = Some (rest, out', p') /\ works p p' /\
    digits_ok rest /\ length rest = length dividend /\ 0 < dval rest /\ printed r X n' out' (dval rest) /\
    2 ^ 29 <= c < digit_base /\ exists chunk, dval dividend = dval rest * c + chunk /\ 0 <= chunk < c.
Proof.
  intros Hr Hp HA HD HP. pose proof (radix_constants_spec r Hr Hp) as HC. destruct (Start r) as [cc cd]. destruct HC as (-> & Hcd & H29 & _ & _).
  unfold classic_round. destruct (Z.eqb_spec r 10) as [->|Hr10].
  - destruct (DivideByMagic_spec dividend out HA) as (rest & chunk & -> & M1 & M2 & M3 & M4).
    pose proof (rest_positive _ _ _ _ M4 M3 HD eq_refl).
    do 4 eexists. exists (10 ^ 9). split; [done|]. split_all; try done; [apply works_add| |by exists chunk].
    by apply (printed_division 10 X n out (dval dividend) 9 (dval rest) chunk).
  - assert (dividend <> []) as Hne by (intros ->; simpl in HD; rewrite digit_base_eq in HD; lia).
    assert ((2 <= length dividend)%nat) as Hl.
    { destruct dividend as [|d [|]]; [done| |simpl; lia]. apply Forall_cons in HA as [HA _]. cbn [dval] in HD. unfold digit_ok in HA. lia. }
    destruct (DivideSingle_spec (length dividend) dividend (r ^ Z.of_nat cc) HA Hcd ltac:(lia) Hne ltac:(done) (or_introl Hl)) as (rest & top & chunk & -> & D1 & D2 & D3 & D4).
    rewrite BasecaseMiddle_eq. unfold digit_ok in Hcd. pose proof (rest_positive _ _ _ _ D2 D1 HD (proj2 Hcd)).
    do 4 eexists. exists (r ^ Z.of_nat cc). split; [done|]. split_all; try done; [apply works_add| |lia|by exists chunk].
    apply (printed_division r X n out (dval dividend) cc (dval rest) chunk); try done. unfold radix_ok in Hr. lia.
Qed.

Lemma classic_loop_spec r X fuel : forall n out dividend p, radix_ok r -> IsPowerOfTwo r = false -> digits_ok dividend ->
  IsDigitNormalized dividend = true -> (2 <= length dividend)%nat -> dval dividend < 2 ^ (29 * Z.of_nat fuel) -> printed r X n out (dval dividend) ->
  let '(chunk_chars, chunk_divisor) := Start r in
  exists out' p' n' R, classic_loop fuel r chunk_chars chunk_divisor dividend out p = Some (out', p') /\ works p p' /\
    printed r X n' out' R /\ (should_terminate p' = false -> R = 0).
Proof.
  induction fuel as [|fuel IH]; intros n out dividend p Hr Hp HA HN Hl HF HP; pose proof (two_digits _ HA HN Hl) as HD.
  { simpl in HF. rewrite digit_base_eq in HD. lia. }
  pose proof (classic_round_spec r X n out dividend p Hr Hp HA HD HP) as HR. cbn [classic_loop]. specialize (fun n out dividend p => IH n out dividend p Hr Hp).
  destruct (Start r) as [cc cd]. destruct HR as (rest & out1 & p1 & n1 & c & -> & W & R1 & R2 & R3 & R4 & Hc & chunk & R5 & R6).
  destruct (should_terminate p1) eqn:Ht; [exists out1, p1, n1, (dval rest); split_all; (done || congruence)|].
  destruct (rest_bounds _ _ _ _ fuel (proj1 Hc) R6 R5 HD (proj2 Hc) HF) as [_ Hs].
  pose proof (dval_Normalize rest) as Hv. pose proof (Normalize_ok rest R1) as HO. rewrite <- Hv in *.
  destruct (Nat.ltb_spec 1 (length (Normalize rest))) as [H1|H1].
  - destruct (IH n1 out1 (Normalize rest) p1 HO (Normalize_normalized rest) H1 Hs R4) as (out' & p' & n' & R & -> & W' & Q1 & Q2).
    exists out', p', n', R. split_all; [done|by transitivity p1|done|done].
  - destruct (Normalize rest) as [|d [|]] eqn:He; [simpl in R3; lia| |simpl in H1; lia].
    apply Forall_cons in HO as [HO _]. cbn [nth]. assert (dval [d] = d) as Hd by (simpl; lia). rewrite Hd in *.
    destruct (BasecaseLast_spec r X n1 out1 d Hr R4 R3 HO) as [n' HB]. exists (BasecaseLast r d out1), p1, n', 0. by split_all.
Qed.

Lemma Classic_spec r X p : radix_ok r -> IsPowerOfTwo r = false -> digits_ok X -> IsDigitNormalized X = true -> 0 < dval X ->
  exists out p' n R, Classic r X p = Some (out, p') /\ works p p' /\ printed r (dval X) n out R /\ (should_terminate p' = false -> R = 0).
Proof.
  intros Hr Hp HA HN H0. unfold Classic. pose proof (classic_loop_spec r (dval X) (3 * length X) 0 [] X p Hr Hp HA HN) as HL.
  destruct (Start r) as [cc cd]. destruct X as [|d X]; [simpl in H0; lia|]. destruct X as [|d' X].
  - apply Forall_cons in HA as [HA _]. simpl (length [d] =? _)%nat. cbn [nth]. assert (dval [d] = d) as Hd by (simpl; lia). rewrite Hd in *.
    destruct (BasecaseLast_spec r d 0 [] d Hr (printed_0 r d) H0 HA) as [n HB]. exists (BasecaseLast r d []), p, n, 0. by split_all.
  - apply HL; [simpl; lia| |apply printed_0]. apply Z.lt_le_trans with (weight (length (d :: d' :: X))); [by apply dval_bounds|].
    unfold weight, digit_base, kDigitBits. rewrite <- Z.pow_mul_r by lia. apply Z.pow_le_mono_r; lia.
Qed.

(** ** Powers of two *)

Definition power_bits (r : Z) : bool := negb (IsPowerOfTwo r) || let b := CountTrailingZeros r in (r =? 2 ^ b) && (1 <=? b) && (b <=? 5).

Lemma power_bits_hold : all_radixes power_bits = true.
Proof. vm_compute. reflexivity. Qed.

Lemma power_bits_spec r : radix_ok r -> IsPowerOfTwo r = true -> r = 2 ^ CountTrailingZeros r /\ 1 <= CountTrailingZeros r <= 5.
Proof.
  intros Hr Hp. pose proof (all_radixes_spec power_bits r power_bits_hold Hr) as Hc. unfold power_bits in Hc.
  apply orb_true_iff in Hc as [Hc|Hc]; [by rewrite Hp in Hc|]. rewrite !andb_true_iff in Hc. destruct Hc as ((H1%Z.eqb_eq & H2%Z.leb_le) & H3%Z.leb_le). done.
Qed.

Lemma mask_modulo x b : 0 <= b -> Z.land x (2 ^ b - 1) = x mod 2 ^ b.
Proof. intros Hb. rewrite <- Z.land_ones by done. f_equal. rewrite Z.ones_equiv. lia. Qed.

(** The bits left over and the low bits of the next digit. *)
Lemma current_char dg d a b V : 0 <= a <= b -> b <= 5 -> 0 <= dg < 2 ^ a -> digit_ok d ->
  Z.land (Z.lor dg (digit (Z.shiftl d a))) (2 ^ b - 1) = (dg + 2 ^ a * (d + digit_base * V)) mod 2 ^ b.
Proof.
  intros Ha Hb Hdg Hd. rewrite mask_modulo, Z.shiftl_mul_pow2 by lia.
  assert (digit (d * 2 ^ a) = d mod 2 ^ (64 - a) * 2 ^ a) as ->.
  { rewrite digit_mod. unfold digit_base, kDigitBits. replace 64 with (64 - a + a) at 1 by lia. rewrite Z.pow_add_r by lia.
    rewrite Z.mul_mod_distr_r; [done|apply Z.pow_nonzero; lia|apply Z.pow_nonzero; lia]. }
  rewrite lor_disjoint by lia. pose proof (Z.div_mod d (2 ^ (64 - a)) ltac:(apply Z.pow_nonzero; lia)) as Hdm.
  assert (digit_base = 2 ^ (64 - b) * 2 ^ b) as HB by (rewrite <- Z.pow_add_r by lia; unfold digit_base, kDigitBits; f_equal; lia).
  assert (digit_base = 2 ^ (64 - a) * 2 ^ a) as HA by (rewrite <- Z.pow_add_r by lia; unfold digit_base, kDigitBits; f_equal; lia).
  replace (dg + 2 ^ a * (d + digit_base * V)) with (dg + d mod 2 ^ (64 - a) * 2 ^ a + (2 ^ (64 - b) * (d / 2 ^ (64 - a) + 2 ^ a * V)) * 2 ^ b); [by rewrite Z.mod_add by (apply Z.pow_nonzero; lia)|].
  replace (2 ^ (64 - b) * (d / 2 ^ (64 - a) + 2 ^ a * V) * 2 ^ b) with (digit_base * (d / 2 ^ (64 - a) + 2 ^ a * V)) by (rewrite HB; lia).
  rewrite Hdm at 3. rewrite HA at 1. ring_simplify. rewrite HA. ring.
Qed.

(** What is left when the character is written. *)
Lemma current_rest dg d a b V : 0 <= a < b -> b <= 5 -> 0 <= dg < 2 ^ a -> digit_ok d ->
  (dg + 2 ^ a * (d + digit_base * V)) / 2 ^ b = Z.shiftr d (b - a) + 2 ^ (kDigitBits - (b - a)) * V.
Proof.
  intros Ha Hb Hdg Hd. rewrite Z.shiftr_div_pow2 by lia. assert (2 ^ b = 2 ^ a * 2 ^ (b - a)) as -> by (rewrite <- Z.pow_add_r by lia; f_equal; lia).
  assert (0 < 2 ^ a) by (apply Z.pow_pos_nonneg; lia). assert (0 < 2 ^ (b - a)) by (apply Z.pow_pos_nonneg; lia).
  rewrite <- Z.div_div by lia. rewrite (Z.mul_comm (2 ^ a)), Z.div_add, (Z.div_small dg), Z.add_0_l by lia.
  assert (digit_base = 2 ^ (kDigitBits - (b - a)) * 2 ^ (b - a)) as HB by (rewrite <- Z.pow_add_r by (unfold kDigitBits; lia); unfold digit_base; f_equal; lia).
  rewrite HB. replace (2 ^ (kDigitBits - (b - a)) * 2 ^ (b - a) * V) with (2 ^ (kDigitBits - (b - a)) * V * 2 ^ (b - a)) by lia.
  by rewrite Z.div_add by lia.
Qed.

Lemma whole_chars_spec b X V fuel : forall n out dg a, 1 <= b -> 0 <= a -> a <= Z.of_nat fuel -> 0 <= dg < 2 ^ a -> 0 < V -> printed (2 ^ b) X n out (dg + 2 ^ a * V) ->
  exists n' dg' a' out', whole_chars fuel b (2 ^ b - 1) dg a out = (dg', a', out') /\ 0 <= a' < b /\ 0 <= dg' < 2 ^ a' /\ printed (2 ^ b) X n' out' (dg' + 2 ^ a' * V).
Proof.
  induction fuel as [|fuel IH]; intros n out dg a Hb Ha HF Hdg HV HP; cbn [whole_chars].
  { exists n, dg, a, out. split_all; (done || lia). }
  destruct (Z.leb_spec b a) as [Hab|Hab]; [|exists n, dg, a, out; split_all; (done || lia)].
  assert (2 ^ a = 2 ^ b * 2 ^ (a - b)) as Hp by (rewrite <- Z.pow_add_r by lia; f_equal; lia).
  assert (0 < 2 ^ b) by (apply Z.pow_pos_nonneg; lia). assert (0 < 2 ^ (a - b)) by (apply Z.pow_pos_nonneg; lia).
  rewrite mask_modulo, Z.shiftr_div_pow2 by lia.
  assert (dg mod 2 ^ b = (dg + 2 ^ a * V) mod 2 ^ b) as ->.
  { rewrite Hp. replace (dg + 2 ^ b * 2 ^ (a - b) * V) with (dg + 2 ^ (a - b) * V * 2 ^ b) by lia. by rewrite Z.mod_add by lia. }
  apply (IH (S n)); [done|lia|lia| |done|].
  - split; [apply Z.div_pos; lia|apply Z.div_lt_upper_bound; lia].
  - replace (dg / 2 ^ b + 2 ^ (a - b) * V) with ((dg + 2 ^ a * V) / 2 ^ b); [apply printed_char; [lia|done|nia]|].
    rewrite Hp. replace (dg + 2 ^ b * 2 ^ (a - b) * V) with (dg + 2 ^ (a - b) * V * 2 ^ b) by lia. by rewrite Z.div_add by lia.
Qed.

Lemma power_of_two_loop_spec b X m ds : forall n out dg a, 1 <= b <= 5 -> digits_ok ds -> 0 <= a < b -> 0 <= dg < 2 ^ a -> 0 < m ->
  printed (2 ^ b) X n out (dg + 2 ^ a * (dval ds + weight (length ds) * m)) ->
  exists n' dg' a' out', power_of_two_loop b (2 ^ b - 1) ds dg a out = (dg', a', out') /\ 0 <= a' < b /\ 0 <= dg' < 2 ^ a' /\ printed (2 ^ b) X n' out' (dg' + 2 ^ a' * m).
Proof.
  induction ds as [|d ds IH]; intros n out dg a Hb HA Ha Hdg Hm HP; cbn [power_of_two_loop].
  { exists n, dg, a, out. split_all; try (done || lia). cbn [dval length] in HP. rewrite weight_0, Z.mul_1_l in HP. done. }
  apply Forall_cons in HA as [Hd HA]. set (V := dval ds + weight (length ds) * m).
  assert (0 < V) as HV by (pose proof (dval_bounds ds HA); pose proof (weight_pos (length ds)); unfold V; nia).
  assert (dval (d :: ds) + weight (length (d :: ds)) * m = d + digit_base * V) as He by (unfold V; simpl length; rewrite weight_S; cbn [dval]; ring).
  rewrite He in HP. rewrite (current_char dg d a b V) by (done || lia).
  destruct (whole_chars_spec b X V 64 (S n) (conversion_char ((dg + 2 ^ a * (d + digit_base * V)) mod 2 ^ b) :: out) (Z.shiftr d (b - a)) (kDigitBits - (b - a)))
    as (n1 & dg1 & a1 & out1 & -> & A1 & A2 & A3); [lia|unfold kDigitBits; lia|unfold kDigitBits; lia| |done| |].
  - unfold digit_ok in Hd. rewrite Z.shiftr_div_pow2 by lia. split; [apply Z.div_pos; [lia|apply Z.pow_pos_nonneg; lia]|].
    apply Z.div_lt_upper_bound; [apply Z.pow_pos_nonneg; lia|]. rewrite <- Z.pow_add_r by (unfold kDigitBits; lia).
    replace (b - a + (kDigitBits - (b - a))) with kDigitBits by lia. apply Hd.
  - rewrite <- (current_rest dg d a b V) by (done || lia). apply printed_char; [apply Z.pow_pos_nonneg; lia|done|].
    assert (0 < 2 ^ a) by (apply Z.pow_pos_nonneg; lia). assert (1 <= d + digit_base * V) by numeric. nia.
  - by apply (IH n1).
Qed.

Lemma last_chars_spec b X fuel : forall n out dg, 1 <= b -> 0 <= dg < 2 ^ Z.of_nat fuel -> printed (2 ^ b) X n out dg ->
  exists n', printed (2 ^ b) X n' (last_chars fuel b (2 ^ b - 1) dg out) 0.
Proof.
  induction fuel as [|fuel IH]; intros n out dg Hb Hdg HP; cbn [last_chars].
  { assert (dg = 0) as -> by (simpl in Hdg; lia). by exists n. }
  destruct (Z.eqb_spec dg 0) as [->|]; [by exists n|]. assert (2 <= 2 ^ b) by (change 2 with (2 ^ 1) at 1; apply Z.pow_le_mono_r; lia).
  rewrite mask_modulo, Z.shiftr_div_pow2 by lia. apply (IH (S n)); [done|by apply fuel_quotient|]. apply printed_char; done || lia.
Qed.

Lemma BasePowerOfTwo_spec r X : radix_ok r -> IsPowerOfTwo r = true -> digits_ok X -> IsDigitNormalized X = true -> 0 < dval X ->
  exists out n, BasePowerOfTwo r X = Some out /\ printed r (dval X) n out 0.
Proof.
  intros Hr Hp HA HN H0. destruct (power_bits_spec r Hr Hp) as [Hr2 Hb]. unfold BasePowerOfTwo. set (b := CountTrailingZeros r) in *. rewrite Hr2.
  destruct (normalized_cases X HN) as [->|[Hl Hm]]; [simpl in H0; lia|]. destruct (Nat.eqb_spec (length X) 0); [lia|].
  assert (X <> []) as Hne by (by intros ->). pose proof (digit_at X (length X - 1) HA) as Hmd. fold (msd X) in Hmd.
  assert (removelast X = take (length X - 1) X) as -> by (rewrite removelast_firstn_len; f_equal; lia).
  assert (length (take (length X - 1) X) = (length X - 1)%nat) as Ht by (rewrite length_take; lia).
  destruct (power_of_two_loop_spec b (dval X) (msd X) (take (length X - 1) X) 0 [] 0 0) as (n1 & dg & a & out & -> & A1 & A2 & A3);
    [done|by apply take_ok|lia|lia|unfold digit_ok in Hmd; lia| |].
  { rewrite Ht, Z.pow_0_r, Z.mul_1_l, Z.add_0_l, <- msd_split by done. apply printed_0. }
  pose proof (current_char dg (msd X) a b 0 ltac:(lia) ltac:(lia) A2 Hmd) as HC. pose proof (current_rest dg (msd X) a b 0 A1 ltac:(lia) A2 Hmd) as HR.
  rewrite Z.mul_0_r, Z.add_0_r in HC. rewrite !Z.mul_0_r, !Z.add_0_r in HR. rewrite HC, <- HR.
  assert (0 < 2 ^ a) by (apply Z.pow_pos_nonneg; lia). assert (0 < dg + 2 ^ a * msd X) by (unfold digit_ok in Hmd; nia).
  destruct (last_chars_spec b (dval X) 64 (S n1) (conversion_char ((dg + 2 ^ a * msd X) mod 2 ^ b) :: out) ((dg + 2 ^ a * msd X) / 2 ^ b)) as [n' HL];
    [lia| |apply printed_char; [apply Z.pow_pos_nonneg; lia|done|done]|by eexists _, n'].
  rewrite HR, Z.shiftr_div_pow2 by lia. assert (0 < 2 ^ (b - a)) by (apply Z.pow_pos_nonneg; lia). unfold digit_ok in Hmd. split; [apply Z.div_pos; lia|].
  apply Z.div_lt_upper_bound; [lia|]. change (2 ^ Z.of_nat 64) with digit_base. nia.
Qed.

(** ** The result *)

Lemma CountLeadingZeros_digit d : digit_ok d -> d <> 0 -> CountLeadingZeros kDigitBits d = 63 - Z.log2 d /\ 0 <= Z.log2 d <= 63.
Proof.
  intros [H0 Hd] Hn. unfold CountLeadingZeros. rewrite (proj2 (Z.eqb_neq _ _) Hn). split; [unfold kDigitBits; lia|].
  split; [apply Z.log2_nonneg|]. assert (Z.log2 d < 64); [|lia]. apply Z.log2_lt_pow2; [lia|exact Hd].
Qed.

Lemma BitLength_digits_spec X : digits_ok X -> 0 < dval X -> Z.of_nat (length X) < 2 ^ 24 ->
  let bits := BitLength_digits X in 1 <= bits <= 64 * Z.of_nat (length X) /\ dval X < 2 ^ bits.
Proof.
  intros HA H0 Hl. assert (X <> []) as Hne by (intros ->; simpl in H0; lia). assert (1 <= length X)%nat as Hl1 by (destruct X; [done|simpl; lia]).
  pose proof (digit_at X (length X - 1) HA) as Hmd. fold (msd X) in Hmd. destruct (msd_bounds X HA Hne) as [_ Hlt].
  pose proof (weight_pos (length X - 1)) as Hw. assert (weight (length X - 1) = 2 ^ (64 * Z.of_nat (length X - 1))) as Hwp by (rewrite Z.pow_mul_r by lia; done).
  unfold BitLength_digits. destruct (Z.eq_dec (msd X) 0) as [Hz|Hm].
  - rewrite Hz in *. change (CountLeadingZeros kDigitBits 0) with 64. replace (Z.of_nat (length X) * kDigitBits - 64) with (64 * Z.of_nat (length X - 1)) by (unfold kDigitBits; lia).
    unfold wrap. rewrite Z.mod_small by lia. cbv zeta. split; [|lia]. destruct (decide (length X = 1%nat)) as [He|]; [|lia]. rewrite He in Hlt. change (weight (1 - 1)) with 1 in Hlt. lia.
  - destruct (CountLeadingZeros_digit _ Hmd Hm) as [HC Hlog]. rewrite HC.
    replace (Z.of_nat (length X) * kDigitBits - (63 - Z.log2 (msd X))) with (64 * Z.of_nat (length X - 1) + Z.succ (Z.log2 (msd X))) by (unfold kDigitBits; lia).
    unfold wrap. rewrite Z.mod_small by lia. cbv zeta. split; [lia|]. rewrite Z.pow_add_r, <- Hwp by lia.
    destruct (Z.log2_spec (msd X)) as [_ Hs]; [unfold digit_ok in Hmd; lia|]. nia.
Qed.

Lemma DIV_CEIL_exact w x y : 0 < w -> 1 <= x < 2 ^ w -> 0 < y -> (x - 1) / y + 1 < 2 ^ w -> DIV_CEIL w x y = (x - 1) / y + 1.
Proof.
  intros Hw Hx Hy Hr. unfold DIV_CEIL, wrap. rewrite (Z.mod_small (x - 1)) by lia. apply Z.mod_small.
  pose proof (Z.div_pos (x - 1) y). lia.
Qed.

(** The buffer that the callers allocate is long enough. *)
Lemma ToStringResultLength_spec r X n out R (sign : bool) : radix_ok r -> digits_ok X -> 0 < dval X -> Z.of_nat (length X) < 2 ^ 24 ->
  printed r (dval X) n out R -> Z.of_nat n + Z.b2z sign <= ToStringResultLength X r sign < 2 ^ 31.
Proof.
  intros Hr HA H0 Hl HP. destruct (BitLength_digits_spec X HA H0 Hl) as [Hb Hv]. unfold ToStringResultLength.
  set (bits := BitLength_digits X) in *. assert (0 <= Z.b2z sign <= 1) as Hs by (destruct sign; simpl; lia). pose proof (proj1 Hr) as Hr2.
  destruct (IsPowerOfTwo r) eqn:Hp.
  - destruct (power_bits_spec r Hr Hp) as [He Hc]. set (b := CountTrailingZeros r) in *.
    pose proof (printed_length r _ n out R 1 b bits Hr2 HP ltac:(lia) ltac:(lia) ltac:(lia) ltac:(lia) ltac:(rewrite Z.pow_1_r; lia)) as Hn.
    assert (0 <= (bits - 1) / b <= bits - 1) by (split; [apply Z.div_pos; lia|apply Z.div_le_upper_bound; nia]).
    rewrite DIV_CEIL_exact by lia. rewrite Z.mul_1_l in Hn. unfold wrap. rewrite !Z.mod_small by (rewrite ?Z.mod_small; lia). lia.
  - pose proof (radix_constants_spec r Hr Hp) as HC. destruct (Start r) as [cc cd]. destruct HC as (_ & _ & _ & Hmax & Hm). set (m := max_bits_per_char r - 1) in *.
    pose proof (printed_length r _ n out R 32 m bits Hr2 HP ltac:(lia) ltac:(lia) ltac:(lia) ltac:(unfold m; lia) Hmax) as Hn.
    assert (0 <= (32 * bits - 1) / m <= bits) by (split; [apply Z.div_pos; unfold m; lia|apply Z.div_le_upper_bound; unfold m; nia]).
    unfold kBitsPerCharTableMultiplier. rewrite (Z.mul_comm bits). assert (wrap 64 (32 * bits) = 32 * bits) as -> by (apply Z.mod_small; lia).
    rewrite DIV_CEIL_exact by (unfold m in *; lia). unfold wrap. rewrite !Z.mod_small by (rewrite ?Z.mod_small; lia). lia.
Qed.

Lemma length_skip_zeros out : (length (skip_zeros out) <= length out)%nat.
Proof. induction out as [|c out IH]; cbn [skip_zeros]; [done|]. destruct (c =? 48); simpl in *; lia. Qed.

Lemma numeral_head r v s : radix_ok r -> 0 < v -> numeral_of r v s -> skip_zeros s = s.
Proof.
  intros Hr Hv [(ds & Hs & HF & Hh) Hn Hz]. destruct s as [|c s]; [done|]. cbn [skip_zeros]. destruct (Z.eqb_spec c 48) as [->|]; [|done].
  specialize (Hz eq_refl). injection Hz as ->. destruct ds as [|d [|]]; [done| |done]. injection Hs as Hd. symmetry in Hd.
  apply Forall_cons in HF as [HF _]. unfold radix_ok in Hr. apply conversion_char_range in Hd; [|lia]. subst d. unfold horner in Hh. simpl in Hh. lia.
Qed.

Lemma Finish_spec avail (sign : bool) out : Z.of_nat (length out) + Z.b2z sign <= avail ->
  exists s, Finish avail sign out = Some s /\ s = (if sign then [45] else []) ++ skip_zeros out /\ Z.of_nat (length s) <= avail.
Proof.
  intros Ha. unfold Finish. pose proof (length_skip_zeros out). assert (0 <= Z.b2z sign) by (destruct sign; done).
  destruct (Z.ltb_spec avail (Z.of_nat (length out))); [lia|].
  assert (Z.of_nat (length (if sign then 45 :: skip_zeros out else skip_zeros out)) <= avail) as Hl by (destruct sign; simpl in *; lia).
  destruct (Z.ltb_spec avail (Z.of_nat (length (if sign then 45 :: skip_zeros out else skip_zeros out)))); [lia|].
  eexists. split; [done|]. split; [by destruct sign|done].
Qed.

Lemma ToString_spec r X sign p avail : radix_ok r -> digits_ok X -> 0 < dval X -> Z.of_nat (length X) < 2 ^ 24 ->
  ToStringResultLength X r sign <= avail ->
  exists s status p', ToString avail X r sign p = Some (s, status, p') /\ Z.of_nat (length s) <= avail /\ should_terminate p' = false /\
    (status = false -> exists ds, s = (if sign then [45] else []) ++ ds /\ numeral_of r (dval X) ds) /\ (undisturbed p -> status = false /\ undisturbed p').
Proof.
  intros Hr HA H0 Hl Ha. unfold ToString, ToStringImpl. pose proof (dval_Normalize X) as Hdv. pose proof (Normalize_ok X HA) as HO. pose proof (Normalize_normalized X) as HN.
  assert (exists out p' n R, (if IsPowerOfTwo r then (out ← BasePowerOfTwo r (Normalize X); Some (out, p)) else Classic r (Normalize X) p) = Some (out, p') /\ works p p' /\
    printed r (dval X) n out R /\ (should_terminate p' = false -> R = 0)) as (out & p' & n & R & -> & W & HP & HT).
  { rewrite <- Hdv in *. destruct (IsPowerOfTwo r) eqn:Hp; [|by apply Classic_spec]. destruct (BasePowerOfTwo_spec r (Normalize X) Hr Hp HO HN H0) as (out & n & -> & HP). by exists out, p, n, 0. }
  pose proof (ToStringResultLength_spec r X n out R sign Hr HA H0 Hl HP) as Hlen.
  assert (length out = n) as Hn by (destruct HP as (-> & _); apply length_low_chars).
  destruct (Finish_spec avail sign out) as (s & HF & Hs & Hsl); [lia|]. simpl. rewrite HF. simpl.
  do 3 eexists. split; [done|]. split_all; [done|done| |].
  - intros ->%HT. exists out. pose proof (printed_numeral r _ n out Hr H0 HP) as Hnum. by rewrite Hs, (numeral_head r (dval X)).
  - intros [U1 U2]%(works_undisturbed p p' W). by split.
Qed.
