(* ===== verification/BigIntParsing.v ===== *)
(** Strings to BigInts: the accumulator of src/src/bigint/bigint-inlined.h, which reads the
    characters, and src/src/bigint/fromstring.cc, which combines the parts it collected.

    A string is the list of its characters from the current position to the end; the code
    takes the character before it compares the position with the end, so a position is
    never at the end when a loop starts. [parts] and [multipliers] are pairs of a part and
    the multiplier that shifts what is in front of it. *)
From S2P Require Import Prelude Conversions Digits DigitsLinear DigitsMultiply DigitDivision DigitsDivide Karatsuba BigIntNumerals.

(** ** The accumulator *)

Inductive Result := kOk | kMaxSizeExceeded.

(** [stack_parts_] and [heap_parts_] hold the parts in use. *)
Record FromStringAccumulator := mkAccumulator {
  stack_parts_ : list Z;
  heap_parts_ : list Z;
  max_multiplier_ : Z;
  last_multiplier_ : Z;
  max_digits_ : Z;
  result_ : Result;
  inline_everything_ : bool;
  radix_ : Z
}.

Definition kStackParts : nat := 8.

(** [last_multiplier_] is not initialised. *)
Definition new_FromStringAccumulator (max_digits garbage : Z) : FromStringAccumulator :=
  mkAccumulator [] [] 0 garbage (Z.max max_digits (Z.of_nat kStackParts)) kOk false 0.

Definition ResultLength (a : FromStringAccumulator) : nat := Nat.max (length (stack_parts_ a)) (length (heap_parts_ a)).

(** AddPart(part) *)
Definition AddPart (part : Z) (a : FromStringAccumulator) : bool * FromStringAccumulator :=
  let '(mkAccumulator stack heap max_m last_m max_d result inlined radix) := a in
  if (length stack <? kStackParts)%nat then (true, mkAccumulator (stack ++ [part]) heap max_m last_m max_d result inlined radix)
  else
    let heap := if (length heap =? 0)%nat then stack else heap in
    if max_d <=? Z.of_nat (length heap) then (false, mkAccumulator stack heap max_m last_m max_d kMaxSizeExceeded inlined radix)
    else (true, mkAccumulator stack (heap ++ [part]) max_m last_m max_d result inlined radix).

(** The inlined version of MultiplySingle: the parts times the multiplier plus the part. *)
Definition inline_parts (multiplier part : Z) (stack : list Z) : list Z :=
  let '(ds, (high, carry)) := carry_loop (multiply_digit multiplier) stack (0, part) in
  let high := digit (high + carry) in
  if high =? 0 then ds else ds ++ [high].

(** AddPart(multiplier, part, is_last) *)
Definition AddPart_multiplier (multiplier part : Z) (is_last : bool) (a : FromStringAccumulator) : bool * FromStringAccumulator :=
  let '(mkAccumulator stack heap max_m last_m max_d result inlined radix) := a in
  if inlined then (true, mkAccumulator (inline_parts multiplier part stack) heap max_m last_m max_d result inlined radix)
  else if is_last then AddPart part (mkAccumulator stack heap max_m multiplier max_d result inlined radix)
  else AddPart part (mkAccumulator stack heap multiplier last_m max_d result inlined radix).

(** ** Reading characters *)

(** The loop over the characters of a part: multiplier, part, the rest of the string, done. *)
Fixpoint parse_part (radix : Z) (cs : list Z) (multiplier part : Z) : Z * Z * list Z * bool :=
  match cs with
  | [] => (multiplier, part, [], true)
  | c :: cs' =>
    match char_value radix c with
    | None => (multiplier, part, cs, true)
    | Some d =>
      if digit_base <=? multiplier * radix then (multiplier, part, cs, false)
      else parse_part radix cs' (multiplier * radix) (digit (digit (part * radix) + d))
    end
  end.

(** do ... while (!done); every part has a character. *)
Fixpoint parse_loop (fuel : nat) (radix : Z) (cs : list Z) (a : FromStringAccumulator) : list Z * FromStringAccumulator :=
  match fuel with
  | O => (cs, a)
  | S fuel =>
    let '(multiplier, part, cs, done) := parse_part radix cs 1 0 in
    let '(ok, a) := AddPart_multiplier multiplier part done a in
    if negb ok then (cs, a) else if done then (cs, a) else parse_loop fuel radix cs a
  end.

(** A map from {2,4,8,16,32} to {1,2,3,4,5}. *)
Definition kCharBits : list Z := [1; 2; 3; 0; 4; 0; 0; 0; 5].

(** The bits left in a part, the part, the rest of the string, done. *)
Fixpoint parse_bits (radix char_bits : Z) (cs : list Z) (bits_left part : Z) : Z * Z * list Z * bool :=
  match cs with
  | [] => (bits_left, part, [], true)
  | c :: cs' =>
    match char_value radix c with
    | None => (bits_left, part, cs, true)
    | Some d =>
      if bits_left <? char_bits then (bits_left, part, cs, false)
      else parse_bits radix char_bits cs' (bits_left - char_bits) (Z.lor (digit (Z.shiftl part char_bits)) d)
    end
  end.

Fixpoint power_two_loop (fuel : nat) (radix char_bits : Z) (cs : list Z) (a : FromStringAccumulator) : list Z * FromStringAccumulator :=
  match fuel with
  | O => (cs, a)
  | S fuel =>
    let '(bits_left, part, cs, done) := parse_bits radix char_bits cs kDigitBits 0 in
    let '(ok, a) := AddPart part a in
    if negb ok then (cs, a)
    else if done then
      let '(mkAccumulator stack heap max_m _ max_d result inlined radix) := a in
      (cs, mkAccumulator stack heap max_m bits_left max_d result inlined radix)
    else power_two_loop fuel radix char_bits cs a
  end.

Definition ParsePowerTwo (cs : list Z) (radix : Z) (a : FromStringAccumulator) : list Z * FromStringAccumulator :=
  let '(mkAccumulator stack heap max_m last_m max_d result inlined _) := a in
  power_two_loop (S (length cs)) radix (kCharBits.[Z.to_nat (Z.shiftr radix 2)]) cs (mkAccumulator stack heap max_m last_m max_d result inlined (wrap 8 radix)).

(** At most 5.17 bits per character. *)
Definition kInlineThreshold : Z := Z.of_nat kStackParts * kDigitBits * 100 / 517.

(** The rest of the string and the accumulator. *)
Definition Parse (cs : list Z) (radix : Z) (a : FromStringAccumulator) : list Z * FromStringAccumulator :=
  let '(mkAccumulator stack heap max_m last_m max_d result _ r) := a in
  let inlined := Z.of_nat (length cs) <=? kInlineThreshold in
  let a := mkAccumulator stack heap max_m last_m max_d result inlined r in
  if negb inlined && (Z.land radix (radix - 1) =? 0) then ParsePowerTwo cs radix a else parse_loop (S (length cs)) radix cs a.

(** ** Combining the parts, one by one *)

(** MultiplySingle(Z, already_set, multiplier); Add(Z, part); *)
Definition multiply_add (zs : list Z) (already_set : nat) (multiplier part : Z) : option (list Z) :=
  Add_digit (MultiplySingle (length zs) (take already_set zs) multiplier).1 part.

Fixpoint classic_parts (zs : list Z) (already_set : nat) (max_multiplier last_multiplier : Z) (parts : list Z) : option (list Z) :=
  match parts with
  | [] => Some zs
  | [part] => multiply_add zs already_set last_multiplier part
  | part :: parts =>
    zs ← multiply_add zs already_set max_multiplier part;
    classic_parts zs (S already_set) max_multiplier last_multiplier parts
  end.

(** The parts are on the heap when there are any; the loop is the same for both places. *)
Definition FromStringClassic (Z_len : nat) (a : FromStringAccumulator) : option (list Z) :=
  let zs := extend Z_len [(stack_parts_ a).[O]] in
  if (length (stack_parts_ a) =? 1)%nat then Some zs
  else
    let parts := if (length (heap_parts_ a) =? 0)%nat then stack_parts_ a else heap_parts_ a in
    classic_parts zs 1 (max_multiplier_ a) (last_multiplier_ a) (tail parts).

(** ** Powers of two *)

(** while (digit_bits < kDigitBits): the digit, its bits, the part read last and its unused
    bits; [parts] are the parts still to read, the last one first. *)
Fixpoint fill_digit (max_part_bits : Z) (parts : list Z) (digit_ digit_bits part part_bits : Z) : Z * Z * Z * Z * list Z :=
  if digit_bits <? kDigitBits then
    match parts with
    | [] => (digit_, digit_bits, part, part_bits, [])
    | part :: parts =>
      let digit_ := Z.lor digit_ (digit (Z.shiftl part digit_bits)) in
      let part_shift := kDigitBits - digit_bits in
      if max_part_bits <? part_shift then fill_digit max_part_bits parts digit_ (digit_bits + max_part_bits) 0 0
      else (digit_, kDigitBits, Z.shiftr part part_shift, max_part_bits - part_shift, parts)
    end
  else (digit_, digit_bits, part, part_bits, parts).

(** while (part_index >= 0) *)
Fixpoint fill_digits (fuel : nat) (max_part_bits : Z) (parts : list Z) (digit_ digit_bits : Z) : list Z :=
  match parts, fuel with
  | [], _ | _, O => if 0 <? digit_bits then [digit_] else []
  | _, S fuel =>
    let '(digit_, _, part, part_bits, parts) := fill_digit max_part_bits parts digit_ digit_bits 0 0 in
    digit_ :: fill_digits fuel max_part_bits parts part part_bits
  end.

Definition FromStringBasePowerOfTwo (Z_len : nat) (a : FromStringAccumulator) : list Z :=
  let parts := if (length (heap_parts_ a) =? 0)%nat then stack_parts_ a else heap_parts_ a in
  let char_bits := BitLength (radix_ a - 1) in
  let unused_last_part_bits := last_multiplier_ a in
  let unused_part_bits := kDigitBits mod char_bits in
  let max_part_bits := kDigitBits - unused_part_bits in
  match rev parts with
  | [] => Clear Z_len
  | digit_ :: rest =>
    if unused_last_part_bits =? 0 then extend Z_len (digit_ :: rest)
    else extend Z_len (fill_digits (length rest) max_part_bits rest digit_ (kDigitBits - unused_last_part_bits))
  end.

(** ** Combining the parts in a balanced tree *)

(** The contents of RWDigits(zs, start, length out) become [out]. *)
Definition write (zs : list Z) (start : nat) (out : list Z) : list Z := take start zs ++ out ++ drop (start + length out) zs.

(** The first iteration on the pair at [i]; [parts] becomes new_multipliers in place. *)
Definition first_pair (max_multiplier last_multiplier : Z) (num_parts i : nat) (parts new_parts : list Z) : list Z * list Z :=
  let m_in2 := if (i =? num_parts - 2)%nat then last_multiplier else max_multiplier in
  let '(p_low, p_high) := digit_mul (parts.[i]) m_in2 in
  let '(low, carry) := digit_add2 p_low (parts.[S i]) in
  let new_parts := write new_parts i [low; digit (p_high + carry)] in
  let parts :=
    if (0 <? i)%nat then
      if (2 <? i)%nat && negb (m_in2 =? last_multiplier) then write parts i [parts.[i - 2]; parts.[i - 1]]
      else
        let '(m_low, m_high) := digit_mul max_multiplier m_in2 in
        write parts i [m_low; m_high]
    else parts in
  (parts, new_parts).

(** for (; i + 1 < num_parts; i += 2), then the trailing part: parts, new_parts and num_parts. *)
Fixpoint first_pairs (fuel : nat) (max_multiplier last_multiplier : Z) (num_parts i : nat) (parts new_parts : list Z) : list Z * list Z * nat :=
  if (i + 1 <? num_parts)%nat then
    match fuel with
    | O => (parts, new_parts, num_parts)
    | S fuel =>
      let '(parts, new_parts) := first_pair max_multiplier last_multiplier num_parts i parts new_parts in
      first_pairs fuel max_multiplier last_multiplier num_parts (i + 2) parts new_parts
    end
  else if (i <? num_parts)%nat then (write parts i [last_multiplier], write new_parts i [parts.[i]], Nat.div2 (i + 2))
  else (parts, new_parts, Nat.div2 i).

Section large.
Context (Allocate : nat -> list Z).

(** A pair of chunks of [part_len] digits; [None] where a copy would leave its vector. *)
Definition large_pair (part_len i : nat) (parts multipliers new_parts : list Z) (p : Processor) : option (list Z * list Z * Processor) :=
  let new_part_len := (part_len * 2)%nat in
  let start := (i * part_len)%nat in
  let p_in := slice parts start part_len in
  let p_in2 := slice parts (start + part_len) part_len in
  let m_in := slice multipliers start part_len in
  let m_in2 := slice multipliers (start + part_len) part_len in
  '(p_out, p) ← Multiply Allocate (slice new_parts start new_part_len) p_in m_in2 p;
  if should_terminate p then Some (parts, write new_parts start p_out, p)
  else
    let p_out := (AddAndReturnOverflow p_out p_in2).1 in
    let new_parts := write new_parts start p_out in
    if (0 <? i)%nat then
      let prev_start := ((i - 2) * part_len)%nat in
      let copied := (2 <? i)%nat && (Compare m_in (slice multipliers prev_start part_len) =? 0) &&
        (Compare m_in2 (slice multipliers (prev_start + part_len) part_len) =? 0) in
      if copied then
        if (length (slice parts start new_part_len) <? new_part_len)%nat then None
        else Some (write parts start (slice parts prev_start new_part_len), new_parts, p)
      else
        '(m_out, p) ← Multiply Allocate (slice parts start new_part_len) m_in m_in2 p;
        Some (write parts start m_out, new_parts, p)
    else Some (parts, new_parts, p).

(** The loop over the pairs and the trailing chunk. *)
Fixpoint large_pairs (fuel num_parts part_len i : nat) (parts multipliers new_parts : list Z) (p : Processor) : option (list Z * list Z * nat * Processor) :=
  if (i + 1 <? num_parts)%nat then
    match fuel with
    | O => None
    | S fuel =>
      '(parts, new_parts, p) ← large_pair part_len i parts multipliers new_parts p;
      if should_terminate p then Some (parts, new_parts, num_parts, p)
      else large_pairs fuel num_parts part_len (i + 2) parts multipliers new_parts p
    end
  else if (i <? num_parts)%nat then
    let start := (i * part_len)%nat in
    let p_in := slice parts start part_len in
    let m_in := slice multipliers start part_len in
    let p_out := extend (length (slice new_parts start (part_len * 2))) p_in in
    let m_out := extend (length (slice parts start (part_len * 2))) m_in in
    Some (write parts start m_out, write new_parts start p_out, Nat.div2 (i + 2), p)
  else Some (parts, new_parts, Nat.div2 i, p).

(** while (num_parts > 1); lengths have 32 bits. *)
Fixpoint large_rounds (fuel num_parts part_len : nat) (zs parts multipliers temp : list Z) (p : Processor) : option (list Z * Processor) :=
  if (1 <? num_parts)%nat then
    match fuel with
    | O => None
    | S fuel =>
      let last := (num_parts =? 2)%nat in
      '(parts, new_parts, num_parts', p) ← large_pairs num_parts num_parts part_len 0 parts multipliers (if last then zs else temp) p;
      let zs := if last then new_parts else zs in
      if should_terminate p then Some (zs, p)
      else large_rounds fuel num_parts' (part_len * 2) zs new_parts parts multipliers p
    end
  else Some (write zs part_len (Clear (length zs - part_len)), p).

(** [zs] is the vector Z; its digits are written in the last iteration. *)
Definition FromStringLarge (zs : list Z) (a : FromStringAccumulator) (p : Processor) : option (list Z * Processor) :=
  let num_parts := length (heap_parts_ a) in
  let temp_storage := Allocate (num_parts * 2) in
  let multipliers := take num_parts temp_storage in
  let temp := drop num_parts temp_storage in
  let '(new_multipliers, new_parts, num_parts') := first_pairs num_parts (max_multiplier_ a) (last_multiplier_ a) num_parts 0 (heap_parts_ a) temp in
  let p := AddWorkEstimate (Z.of_nat num_parts') p in
  large_rounds 32 num_parts' 2 zs new_parts new_multipliers multipliers p.

(** The 64-bit platform. *)
Definition kFromStringLargeThreshold : nat := 25.

Definition FromString (zs : list Z) (a : FromStringAccumulator) (p : Processor) : option (list Z * Processor) :=
  if inline_everything_ a then Some (extend (length zs) (stack_parts_ a), p)
  else if (length (stack_parts_ a) =? 0)%nat then Some (Clear (length zs), p)
  else if IsPowerOfTwo (radix_ a) then Some (FromStringBasePowerOfTwo (length zs) a, p)
  else if (ResultLength a <? kFromStringLargeThreshold)%nat then (zs ← FromStringClassic (length zs) a; Some (zs, p))
  else FromStringLarge zs a p.

(** Processor::FromString: the digits and the status. *)
Definition Processor_FromString (zs : list Z) (a : FromStringAccumulator) (p : Processor) : option (list Z * bool * Processor) :=
  '(zs, p) ← FromString zs a p;
  let '(status, p) := get_and_clear_status p in
  Some (zs, status, p).
End large.

(** ** Parts and their multipliers *)

Definition pval (ps : list (Z * Z)) : Z := foldl (fun acc p => acc * p.1 + p.2) 0 ps.

Fixpoint pmul (ps : list (Z * Z)) : Z := match ps with [] => 1 | p :: ps => p.1 * pmul ps end.

Definition part_ok (p : Z * Z) : Prop := 0 <= p.2 < p.1 /\ p.1 < digit_base.

Lemma pmul_app a b : pmul (a ++ b) = pmul a * pmul b.
Proof. induction a as [|p a IH]; cbn [pmul app]; [lia|]. rewrite IH. ring. Qed.

Lemma pval_app a b : pval (a ++ b) = pval a * pmul b + pval b.
Proof.
  induction b as [|p b IH] using rev_ind; [rewrite app_nil_r; simpl; change (pval []) with 0; lia|].
  rewrite app_assoc, pmul_app. unfold pval in *. rewrite (foldl_app _ (a ++ b)), (foldl_app _ b), IH. simpl. ring.
Qed.

Lemma pval_snoc a p : pval (a ++ [p]) = pval a * p.1 + p.2.
Proof. rewrite pval_app. change (pval [p]) with (0 * p.1 + p.2). simpl. lia. Qed.

Lemma pval_bounds ps : Forall part_ok ps -> 0 <= pval ps < pmul ps.
Proof.
  induction ps as [|p ps IH] using rev_ind; [done|]. rewrite Forall_app. intros [H1 [Hp _]%Forall_cons].
  rewrite pval_snoc, pmul_app. simpl. specialize (IH H1). unfold part_ok in Hp. nia.
Qed.

Lemma pmul_weight ps : Forall part_ok ps -> 1 <= pmul ps <= weight (length ps).
Proof.
  induction ps as [|p ps IH]; [done|]. intros [Hp HF]%Forall_cons. specialize (IH HF). cbn [pmul length]. rewrite weight_S. unfold part_ok in Hp. nia.
Qed.

Lemma pval_weight ps : Forall part_ok ps -> 0 <= pval ps < weight (length ps).
Proof. intros HF. pose proof (pval_bounds ps HF). pose proof (pmul_weight ps HF). lia. Qed.

(** The parts of the digits [ds]: [K] digits each, but the last. *)
Inductive parts_of (r : Z) (K : nat) : list Z -> list (Z * Z) -> Prop :=
| parts_last ds : (length ds <= K)%nat -> parts_of r K ds [(r ^ Z.of_nat (length ds), horner r ds)]
| parts_more ds ps : (K < length ds)%nat -> parts_of r K (drop K ds) ps -> parts_of r K ds ((r ^ Z.of_nat K, horner r (take K ds)) :: ps).

Lemma parts_of_nonempty r K ds ps : parts_of r K ds ps -> (1 <= length ps)%nat.
Proof. destruct 1; simpl; lia. Qed.

Lemma parts_of_exists r K ds : (1 <= K)%nat -> exists ps, parts_of r K ds ps.
Proof.
  intros HK. remember (length ds) as n eqn:Hn. revert ds Hn. induction n as [n IH] using lt_wf_ind. intros ds ->.
  destruct (decide (length ds <= K)%nat) as [Hl|Hl]; [eexists; by constructor|].
  destruct (IH (length (drop K ds))) with (ds := drop K ds) as [ps Hps]; [rewrite length_drop; lia|done|]. eexists. constructor; [lia|done].
Qed.

Lemma pval_cons p ps : pval (p :: ps) = p.2 * pmul ps + pval ps.
Proof. change (p :: ps) with ([p] ++ ps). rewrite pval_app. change (pval [p]) with (0 * p.1 + p.2). lia. Qed.

Lemma parts_of_value r K ds ps : parts_of r K ds ps -> pval ps = horner r ds /\ pmul ps = r ^ Z.of_nat (length ds).
Proof.
  induction 1 as [ds Hl|ds ps Hl HP [IH1 IH2]]; [rewrite pval_cons; cbn [fst snd pmul]; change (pval []) with 0; lia|].
  rewrite pval_cons. cbn [fst snd pmul]. rewrite IH1, IH2, length_drop. split.
  - transitivity (horner r (take K ds ++ drop K ds)); [by rewrite horner_app, length_drop|by rewrite take_drop].
  - rewrite <- Z.pow_add_r by lia. f_equal. lia.
Qed.

Lemma parts_of_ok r K ds ps : 2 <= r -> r ^ Z.of_nat K < digit_base -> Forall (fun d => 0 <= d < r) ds -> parts_of r K ds ps -> Forall part_ok ps.
Proof.
  intros Hr HK HF HP. induction HP as [ds Hl|ds ps Hl HP IH]; constructor; unfold part_ok; cbn [fst snd]; auto using Forall_drop.
  - split; [by apply horner_bounds; [lia|]|]. apply Z.le_lt_trans with (r ^ Z.of_nat K); [apply Z.pow_le_mono_r; lia|done].
  - split; [|done]. pose proof (horner_bounds r (take K ds) ltac:(lia) (Forall_take _ _ _ HF)) as Hb. rewrite length_take, Nat.min_l in Hb by lia. done.
Qed.

(** The number of the parts. *)
Lemma parts_of_length r K ds ps n : parts_of r K ds ps -> (1 <= n)%nat -> (length ps <= n)%nat <-> (length ds <= K * n)%nat.
Proof.
  intros HP. revert n. induction HP as [ds Hl|ds ps Hl HP IH]; intros n Hn; simpl; [nia|]. pose proof (parts_of_nonempty _ _ _ _ HP).
  destruct n as [|[|n]]; [lia|nia|]. specialize (IH (S n) ltac:(lia)). rewrite length_drop in IH. nia.
Qed.

(** All multipliers but the last are the same. *)
Lemma parts_of_multipliers r K ds ps : parts_of r K ds ps -> exists ps' p, ps = ps' ++ [p] /\ Forall (fun q => q.1 = r ^ Z.of_nat K) ps' /\
  exists n, p.1 = r ^ Z.of_nat n /\ (n <= K)%nat /\ ((1 <= K)%nat -> ds <> [] -> (1 <= n)%nat).
Proof.
  induction 1 as [ds Hl|ds ps Hl HP (ps' & p & -> & H1 & n & H2 & H3 & H4)].
  - exists [], (r ^ Z.of_nat (length ds), horner r ds). split_all; [done|done|]. exists (length ds). split_all; [done|done|]. intros _ Hd. destruct ds; [done|simpl; lia].
  - exists ((r ^ Z.of_nat K, horner r (take K ds)) :: ps'), p. split_all; [done|by constructor|]. exists n. split_all; [done|done|]. intros HK _. apply H4; [done|].
    intros He%(f_equal length). rewrite length_drop in He. simpl in He. lia.
Qed.

(** ** Reading characters *)

(** The digits at the front of a string, and what follows them. *)
Fixpoint span_digits (radix : Z) (cs : list Z) : list Z * list Z :=
  match cs with
  | [] => ([], [])
  | c :: cs' =>
    match char_value radix c with
    | None => ([], cs)
    | Some d => let '(ds, rest) := span_digits radix cs' in (d :: ds, rest)
    end
  end.

Definition chars_ok (cs : list Z) : Prop := Forall (fun c => 0 <= c) cs.

Lemma span_digits_range r cs ds rest : radix_ok r -> chars_ok cs -> span_digits r cs = (ds, rest) -> Forall (fun d => 0 <= d < r) ds /\ (length ds + length rest = length cs)%nat /\ chars_ok rest.
Proof.
  intros Hr. revert ds rest. induction cs as [|c cs IH]; intros ds rest Hc; cbn [span_digits]; [by intros [= <- <-]|].
  pose proof Hc as [Hc0 Hc']%Forall_cons. destruct (char_value r c) as [d|] eqn:Hd; [|by intros [= <- <-]].
  destruct (span_digits r cs) as [ds' rest'] eqn:He. intros [= <- <-]. destruct (IH _ _ Hc' eq_refl) as (H1 & H2 & H3).
  split_all; [constructor; [by apply (char_value_range r c)|done]|simpl; lia|done].
Qed.

(** The digits that fit a part whose multiplier may reach [r ^ K]. *)
Lemma parse_part_spec r K cs : forall k acc ds rest, radix_ok r -> chars_ok cs -> r ^ Z.of_nat K < digit_base <= r ^ Z.of_nat (S K) -> (k <= K)%nat -> 0 <= acc < r ^ Z.of_nat k ->
  span_digits r cs = (ds, rest) ->
  exists cs', parse_part r cs (r ^ Z.of_nat k) acc = (r ^ Z.of_nat (k + Nat.min (K - k) (length ds)), acc * r ^ Z.of_nat (length (take (K - k) ds)) + horner r (take (K - k) ds), cs', (length ds <=? K - k)%nat) /\
    span_digits r cs' = (drop (K - k) ds, rest) /\ chars_ok cs' /\ (length cs' <= length cs)%nat /\ ((length ds <= K - k)%nat -> cs' = rest).
Proof.
  induction cs as [|c cs IH]; intros k acc ds rest Hr Hc HK Hk Hacc; cbn [span_digits parse_part].
  { intros [= <- <-]. exists []. rewrite take_nil, drop_nil. simpl. rewrite Nat.min_0_r, Nat.add_0_r. split_all; try done. f_equal. f_equal. f_equal. change (horner r []) with 0. lia. }
  pose proof Hc as [Hc0 Hc']%Forall_cons. destruct (char_value r c) as [d|] eqn:Hd.
  2: { intros [= <- <-]. exists (c :: cs). rewrite take_nil, drop_nil. simpl. rewrite Nat.min_0_r, Nat.add_0_r, Hd. split_all; try done. f_equal. f_equal. f_equal. change (horner r []) with 0. lia. }
  destruct (span_digits r cs) as [ds' rest'] eqn:He. intros [= <- <-]. pose proof (char_value_range r c d Hr Hc0 Hd) as Hdr. pose proof (proj1 Hr) as Hr2.
  destruct (decide (k = K)) as [->|Hkk].
  - exists (c :: cs). rewrite Nat.sub_diag, take_0, drop_0. simpl. rewrite Nat.add_0_r, Hd, He. rewrite Nat2Z.inj_succ, Z.pow_succ_r in HK by lia.
    destruct (Z.leb_spec digit_base (r ^ Z.of_nat K * r)); [|lia]. split_all; try done; [|lia]. f_equal. f_equal. f_equal. change (horner r []) with 0. lia.
  - assert (r ^ Z.of_nat k * r = r ^ Z.of_nat (S k)) as -> by (rewrite Nat2Z.inj_succ, Z.pow_succ_r by lia; lia).
    assert (r ^ Z.of_nat (S k) <= r ^ Z.of_nat K) by (apply Z.pow_le_mono_r; lia). destruct (Z.leb_spec digit_base (r ^ Z.of_nat (S k))); [lia|].
    assert (0 <= acc * r + d < r ^ Z.of_nat (S k)) by (rewrite Nat2Z.inj_succ, Z.pow_succ_r by lia; nia).
    rewrite (digit_small (acc * r)), digit_small by (unfold digit_ok; nia).
    destruct (IH (S k) (acc * r + d) ds' rest' Hr Hc' HK ltac:(lia) ltac:(lia) eq_refl) as (cs' & HP & P1 & P2 & P3 & P4). exists cs'. rewrite HP.
    replace (K - k)%nat with (S (K - S k)) by lia. cbn [take drop length]. split_all; try done; [|simpl; lia|intros; apply P4; lia].
    f_equal. f_equal. f_equal; [do 2 f_equal; lia|]. rewrite horner_cons, Nat2Z.inj_succ, Z.pow_succ_r by lia. ring.
Qed.

Lemma bits_per_part b : 1 <= b <= 5 -> let K := Z.to_nat (kDigitBits / b) in (1 <= K)%nat /\ b * Z.of_nat K <= 64 < b * Z.of_nat (S K) /\ (2 ^ b) ^ Z.of_nat K <= digit_base.
Proof.
  intros Hb K. assert (Z.of_nat K = 64 / b) as HK by (unfold K; rewrite Z2Nat.id by (apply Z.div_pos; unfold kDigitBits; lia); done).
  pose proof (Z.div_mod 64 b ltac:(lia)). pose proof (Z.mod_pos_bound 64 b ltac:(lia)). assert (1 <= 64 / b) by (apply Z.div_le_lower_bound; lia).
  split_all; [lia|nia|nia|]. rewrite <- Z.pow_mul_r by lia. apply Z.pow_le_mono_r; [lia|unfold kDigitBits; nia].
Qed.

Lemma parse_bits_spec b cs : forall k acc ds rest, 1 <= b <= 5 -> chars_ok cs -> let r := 2 ^ b in let K := Z.to_nat (kDigitBits / b) in
  radix_ok r -> (k <= K)%nat -> 0 <= acc < r ^ Z.of_nat k -> span_digits r cs = (ds, rest) ->
  exists cs', parse_bits r b cs (kDigitBits - b * Z.of_nat k) acc = (kDigitBits - b * Z.of_nat (k + Nat.min (K - k) (length ds)), acc * r ^ Z.of_nat (length (take (K - k) ds)) + horner r (take (K - k) ds), cs', (length ds <=? K - k)%nat) /\
    span_digits r cs' = (drop (K - k) ds, rest) /\ chars_ok cs' /\ (length cs' <= length cs)%nat /\ ((length ds <= K - k)%nat -> cs' = rest).
Proof.
  induction cs as [|c cs IH]; intros k acc ds rest Hb Hc r K Hr Hk Hacc; cbn [span_digits parse_bits].
  { intros [= <- <-]. exists []. rewrite take_nil, drop_nil. simpl. rewrite Nat.min_0_r, Nat.add_0_r. split_all; try done. f_equal. f_equal. f_equal. change (horner r []) with 0. lia. }
  pose proof Hc as [Hc0 Hc']%Forall_cons. destruct (char_value r c) as [d|] eqn:Hd.
  2: { intros [= <- <-]. exists (c :: cs). rewrite take_nil, drop_nil. simpl. rewrite Nat.min_0_r, Nat.add_0_r, Hd. split_all; try done. f_equal. f_equal. f_equal. change (horner r []) with 0. lia. }
  destruct (span_digits r cs) as [ds' rest'] eqn:He. intros [= <- <-]. pose proof (char_value_range r c d Hr Hc0 Hd) as Hdr. pose proof (proj1 Hr) as Hr2.
  destruct (bits_per_part b Hb) as (K1 & K2 & K3). fold K in K1, K2, K3. fold r in K3.
  destruct (Z.ltb_spec (kDigitBits - b * Z.of_nat k) b) as [Hlt|Hge].
  - assert (k = K) as ->.
    { destruct (decide (k = K)); [done|]. assert (b * Z.of_nat (S k) <= b * Z.of_nat K) by (apply Z.mul_le_mono_nonneg_l; lia). unfold kDigitBits in Hlt. lia. }
    exists (c :: cs). rewrite Nat.sub_diag, take_0, drop_0. simpl. rewrite Nat.add_0_r, Hd, He.
    split_all; try done; [|lia]. f_equal. f_equal. f_equal. change (horner r []) with 0. lia.
  - assert (k < K)%nat as Hkk.
    { destruct (decide (k = K)) as [->|]; [unfold kDigitBits in Hge; lia|lia]. }
    assert (r ^ Z.of_nat (S k) <= r ^ Z.of_nat K) by (apply Z.pow_le_mono_r; lia).
    assert (0 <= acc * r + d < r ^ Z.of_nat (S k)) by (rewrite Nat2Z.inj_succ, Z.pow_succ_r by lia; nia).
    assert (Z.lor (digit (Z.shiftl acc b)) d = acc * r + d) as ->.
    { rewrite Z.shiftl_mul_pow2 by lia. fold r. rewrite digit_small by (unfold digit_ok; nia). rewrite Z.lor_comm. unfold r. rewrite lor_disjoint by (fold r; lia). lia. }
    replace (kDigitBits - b * Z.of_nat k - b) with (kDigitBits - b * Z.of_nat (S k)) by lia.
    destruct (IH (S k) (acc * r + d) ds' rest' Hb Hc' Hr ltac:(clear -Hkk; lia) ltac:(assumption) He) as (cs' & HP & P1 & P2 & P3 & P4). exists cs'. fold r in HP. rewrite HP.
    fold K. replace (K - k)%nat with (S (K - S k)) by lia. cbn [take drop length]. split_all; try done; [|simpl; lia|intros; apply P4; lia].
    f_equal. f_equal. f_equal; [do 2 f_equal; lia|]. fold r. fold K. rewrite horner_cons, Nat2Z.inj_succ, Z.pow_succ_r by lia. ring.
Qed.

(** ** The accumulator *)

Definition parts (a : FromStringAccumulator) : list Z := if (length (heap_parts_ a) =? 0)%nat then stack_parts_ a else heap_parts_ a.

Record acc_ok (a : FromStringAccumulator) : Prop := {
  acc_places : length (heap_parts_ a) = 0%nat /\ (length (stack_parts_ a) <= kStackParts)%nat \/ length (stack_parts_ a) = kStackParts /\ exists more, heap_parts_ a = stack_parts_ a ++ more /\ more <> [];
  acc_max : Z.of_nat kStackParts <= max_digits_ a
}.

Lemma ResultLength_parts a : acc_ok a -> ResultLength a = length (parts a).
Proof.
  intros [[[H1 H2]|(H1 & more & H2 & H3)] _]; unfold ResultLength, parts; [rewrite H1; simpl; lia|].
  assert (length (heap_parts_ a) = (kStackParts + length more)%nat) as Hl by (rewrite H2, length_app; lia). change kStackParts with 8%nat in *.
  destruct (Nat.eqb_spec (length (heap_parts_ a)) 0); lia.
Qed.

(** The fields that adding a part leaves as they are. *)
Definition same_fields (a a' : FromStringAccumulator) : Prop :=
  max_multiplier_ a' = max_multiplier_ a /\ last_multiplier_ a' = last_multiplier_ a /\ max_digits_ a' = max_digits_ a /\
  inline_everything_ a' = inline_everything_ a /\ radix_ a' = radix_ a.

Lemma AddPart_spec part a : acc_ok a ->
  let '(ok, a') := AddPart part a in
  ok = (Z.of_nat (length (parts a)) <? max_digits_ a) /\ same_fields a a' /\
  if ok then parts a' = parts a ++ [part] /\ acc_ok a' /\ result_ a' = result_ a else result_ a' = kMaxSizeExceeded.
Proof.
  intros [Hp Hm]. unfold AddPart, parts. destruct a as [stack heap max_m last_m max_d result inlined radix]. cbn [stack_parts_ heap_parts_ max_digits_ result_] in *.
  change (Z.of_nat kStackParts) with 8 in Hm. change kStackParts with 8%nat in *. destruct (Nat.ltb_spec (length stack) 8) as [Hs|Hs].
  - destruct Hp as [[Hh _]|[? _]]; [|lia]. apply nil_length_inv in Hh as ->. cbn [length Nat.eqb heap_parts_ stack_parts_].
    split_all; try done; [by rewrite (proj2 (Z.ltb_lt _ _)) by lia|]. constructor; [left|done]. cbn [heap_parts_ stack_parts_]. change kStackParts with 8%nat. rewrite length_app. simpl. lia.
  - set (heap' := if (length heap =? 0)%nat then stack else heap).
    assert (exists more, heap' = stack ++ more) as [more Hm'].
    { unfold heap'. destruct (Nat.eqb_spec (length heap) 0); [exists []; by rewrite app_nil_r|]. destruct Hp as [[? _]|(_ & more & Hh & _)]; [lia|by exists more]. }
    destruct (Z.leb_spec max_d (Z.of_nat (length heap'))) as [Hle|Hlt].
    + split_all; try done. symmetry. apply Z.ltb_ge. done.
    + split_all; try done; [symmetry; apply Z.ltb_lt; done|by cbn [heap_parts_ stack_parts_]; rewrite length_app, Nat.add_1_r|].
      constructor; cbn [heap_parts_ stack_parts_ max_digits_]; [right|done]. split.
      * destruct Hp as [[_ Hp]|[Hp _]]; [change kStackParts with 8%nat in *; lia|done].
      * exists (more ++ [part]). rewrite Hm', app_assoc. split; [done|]. by destruct more.
Qed.

(** What reading the digits [ds] adds to an accumulator. *)
Definition reads (r : Z) (K : nat) (ds : list Z) (a a' : FromStringAccumulator) (ps : list (Z * Z)) : Prop :=
  parts a' = parts a ++ (snd <$> ps) /\ acc_ok a' /\ result_ a' = result_ a /\ max_digits_ a' = max_digits_ a /\ inline_everything_ a' = inline_everything_ a /\ radix_ a' = radix_ a.

Lemma parse_loop_spec r K fuel : forall cs a ds rest, radix_ok r -> chars_ok cs -> r ^ Z.of_nat K < digit_base <= r ^ Z.of_nat (S K) -> (1 <= K)%nat -> (length ds < fuel)%nat ->
  acc_ok a -> inline_everything_ a = false -> span_digits r cs = (ds, rest) ->
  exists ps, parts_of r K ds ps /\ let '(cs', a') := parse_loop fuel r cs a in
    if Z.of_nat (length (parts a) + length ps) <=? max_digits_ a then
      cs' = rest /\ reads r K ds a a' ps /\ last_multiplier_ a' = (List.last ps (0, 0)).1 /\ max_multiplier_ a' = (if (length ps =? 1)%nat then max_multiplier_ a else r ^ Z.of_nat K)
    else result_ a' = kMaxSizeExceeded.
Proof.
  induction fuel as [|fuel IH]; intros cs a ds rest Hr Hc HK HK1 HF Ha Hi He; [lia|]. cbn [parse_loop].
  destruct (parse_part_spec r K cs 0 0 ds rest Hr Hc HK ltac:(lia) ltac:(simpl; lia) He) as (cs' & HP & P1 & P2 & _ & P4).
  rewrite Z.pow_0_r in HP. rewrite HP. clear HP. rewrite Nat.sub_0_r in *. cbn [Nat.add]. rewrite Z.mul_0_l, Z.add_0_l.
  destruct (Nat.leb_spec (length ds) K) as [Hl|Hl].
  - specialize (P4 Hl). subst cs'. rewrite Nat.min_r, take_ge by lia. eexists. split; [by constructor|].
    unfold AddPart_multiplier. destruct a as [stack heap max_m last_m max_d result inlined radix]. cbn [inline_everything_] in Hi. subst inlined.
    set (a1 := mkAccumulator stack heap max_m (r ^ Z.of_nat (length ds)) max_d result false radix).
    assert (acc_ok a1) as Ha1 by (destruct Ha; by constructor). pose proof (AddPart_spec (horner r ds) a1 Ha1) as HA.
    destruct (AddPart (horner r ds) a1) as [ok a']. destruct HA as (Hok & (S1 & S2 & S3 & S4 & S5) & HA). change (parts a1) with (parts (mkAccumulator stack heap max_m last_m max_d result false radix)) in *.
    cbn [length max_digits_ a1] in *. rewrite Nat.add_1_r. destruct ok; cbn [negb].
    + symmetry in Hok. apply Z.ltb_lt in Hok. destruct (Z.leb_spec (Z.of_nat (S (length (parts (mkAccumulator stack heap max_m last_m max_d result false radix))))) max_d); [|lia].
      destruct HA as (A1 & A2 & A3). split_all; done.
    + symmetry in Hok. apply Z.ltb_ge in Hok. destruct (Z.leb_spec (Z.of_nat (S (length (parts (mkAccumulator stack heap max_m last_m max_d result false radix))))) max_d); [lia|done].
  - rewrite Nat.min_l by lia. unfold AddPart_multiplier. destruct a as [stack heap max_m last_m max_d result inlined radix]. cbn [inline_everything_] in Hi. subst inlined.
    set (a1 := mkAccumulator stack heap (r ^ Z.of_nat K) last_m max_d result false radix).
    assert (acc_ok a1) as Ha1 by (destruct Ha; by constructor). pose proof (AddPart_spec (horner r (take K ds)) a1 Ha1) as HA.
    destruct (AddPart (horner r (take K ds)) a1) as [ok a']. destruct HA as (Hok & (S1 & S2 & S3 & S4 & S5) & HA). change (parts a1) with (parts (mkAccumulator stack heap max_m last_m max_d result false radix)) in *.
    set (N := length (parts (mkAccumulator stack heap max_m last_m max_d result false radix))) in *. cbn [max_digits_ a1] in *.
    destruct (parts_of_exists r K (drop K ds) HK1) as [ps0 Hps0].
    destruct ok; cbn [negb].
    + destruct HA as (A1 & A2 & A3). destruct (IH cs' a' (drop K ds) rest Hr P2 HK HK1 ltac:(rewrite length_drop; lia) A2 S4 P1) as (ps & Hps & HL).
      exists ((r ^ Z.of_nat K, horner r (take K ds)) :: ps). split; [by constructor|]. destruct (parse_loop fuel r cs' a') as [cs2 a2].
      rewrite A1, S3, length_app in HL. cbn [length] in *. fold N in HL. replace (N + 1 + length ps)%nat with (N + S (length ps))%nat in HL by lia.
      destruct (Z.leb_spec (Z.of_nat (N + S (length ps))) max_d); [|done]. destruct HL as (-> & (R1 & R2 & R3 & R4 & R5 & R6) & L1 & L2).
      pose proof (parts_of_nonempty _ _ _ _ Hps). split_all; try done.
      * unfold reads. rewrite R1, A1, R3, A3, R4, R5, R6, <- app_assoc, S3, S4, S5. split_all; done.
      * rewrite L1. destruct ps; [simpl in *; lia|done].
      * rewrite L2, S1. destruct ps as [|? [|]]; [simpl in *; lia|done|done].
    + exists ((r ^ Z.of_nat K, horner r (take K ds)) :: ps0). split; [by constructor|]. symmetry in Hok. apply Z.ltb_ge in Hok.
      destruct (Z.leb_spec (Z.of_nat (N + length ((r ^ Z.of_nat K, horner r (take K ds)) :: ps0))) max_d) as [Hle|]; [simpl in Hle; lia|done].
Qed.

Lemma power_two_loop_spec b fuel : forall cs a ds rest, 1 <= b <= 5 -> let r := 2 ^ b in let K := Z.to_nat (kDigitBits / b) in
  radix_ok r -> chars_ok cs -> (length ds < fuel)%nat -> acc_ok a -> span_digits r cs = (ds, rest) ->
  exists ps, parts_of r K ds ps /\ let '(cs', a') := power_two_loop fuel r b cs a in
    if Z.of_nat (length (parts a) + length ps) <=? max_digits_ a then
      cs' = rest /\ reads r K ds a a' ps /\ last_multiplier_ a' = kDigitBits - Z.log2 (List.last ps (0, 0)).1
    else result_ a' = kMaxSizeExceeded.
Proof.
  induction fuel as [|fuel IH]; intros cs a ds rest Hb r K Hr Hc HF Ha He; [lia|]. cbn [power_two_loop]. destruct (bits_per_part b Hb) as (K1 & K2 & _). fold K in K1, K2.
  destruct (parse_bits_spec b cs 0 0 ds rest Hb Hc Hr ltac:(lia) ltac:(simpl; lia) He) as (cs' & HP & P1 & P2 & _ & P4).
  rewrite Z.mul_0_r, Z.sub_0_r in HP. fold r in HP, P1. fold K in HP, P1, P4. rewrite HP. clear HP. rewrite Nat.sub_0_r in *. cbn [Nat.add]. rewrite Z.mul_0_l, Z.add_0_l.
  pose proof (AddPart_spec (horner r (take K ds)) a Ha) as HA. destruct (AddPart (horner r (take K ds)) a) as [ok a']. destruct HA as (Hok & (S1 & S2 & S3 & S4 & S5) & HA).
  destruct (Nat.leb_spec (length ds) K) as [Hl|Hl].
  - specialize (P4 Hl). subst cs'. rewrite Nat.min_r by lia. rewrite take_ge in * by lia. eexists. split; [by constructor|]. cbn [length]. rewrite Nat.add_1_r.
    destruct ok; cbn [negb].
    + destruct HA as (A1 & A2 & A3). symmetry in Hok. apply Z.ltb_lt in Hok. destruct a' as [stack heap max_m last_m max_d result inlined radix]. cbn [result_ max_digits_ inline_everything_ radix_] in *.
      destruct (Z.leb_spec (Z.of_nat (S (length (parts a)))) (max_digits_ a)); [|lia].
      split_all; [done| |]; [unfold reads; destruct A2; split_all; done|]. cbn [last_multiplier_ List.last fst]. unfold r. rewrite <- Z.pow_mul_r, Z.log2_pow2 by lia. done.
    + symmetry in Hok. apply Z.ltb_ge in Hok. destruct (Z.leb_spec (Z.of_nat (S (length (parts a)))) (max_digits_ a)); [lia|done].
  - destruct ok; cbn [negb].
    + destruct HA as (A1 & A2 & A3). destruct (IH cs' a' (drop K ds) rest Hb Hr P2 ltac:(rewrite length_drop; lia) A2 P1) as (ps & Hps & HL). fold r K in Hps, HL.
      exists ((r ^ Z.of_nat K, horner r (take K ds)) :: ps). split; [by constructor|]. destruct (power_two_loop fuel r b cs' a') as [cs2 a2].
      rewrite A1, S3, length_app in HL. cbn [length] in *. replace (length (parts a) + 1 + length ps)%nat with (length (parts a) + S (length ps))%nat in HL by lia.
      destruct (Z.leb_spec (Z.of_nat (length (parts a) + S (length ps))) (max_digits_ a)); [|done]. destruct HL as (-> & (R1 & R2 & R3 & R4 & R5 & R6) & L1).
      pose proof (parts_of_nonempty _ _ _ _ Hps). split_all; [done| |].
      * unfold reads. rewrite R1, A1, R3, A3, R4, R5, R6, <- app_assoc, S3, S4, S5. split_all; done.
      * rewrite L1. destruct ps; [simpl in *; lia|done].
    + destruct (parts_of_exists r K (drop K ds) K1) as [ps0 Hps0]. exists ((r ^ Z.of_nat K, horner r (take K ds)) :: ps0). split; [by constructor|].
      symmetry in Hok. apply Z.ltb_ge in Hok.
      destruct (Z.leb_spec (Z.of_nat (length (parts a) + length ((r ^ Z.of_nat K, horner r (take K ds)) :: ps0))) (max_digits_ a)) as [Hle|]; [simpl in Hle; lia|done].
Qed.

(** ** Short strings *)

Lemma inline_digit_spec y x s d s' : digit_ok y -> digit_ok x -> 0 <= s.1 /\ 0 <= s.2 /\ s.1 + s.2 < digit_base -> multiply_digit y x s = (d, s') ->
  d + digit_base * (s'.1 + s'.2) = y * x + (s.1 + s.2) /\ digit_ok d /\ 0 <= s'.1 /\ 0 <= s'.2 /\ s'.1 + s'.2 < digit_base.
Proof.
  destruct s as [high c]. unfold multiply_digit. cbn [fst snd]. intros Hy Hx (H1 & H2 & H3).
  destruct (digit_mul x y) as [low new_high] eqn:Hm. destruct (digit_mul_spec _ _ _ _ Hm Hx Hy) as (M1 & M2 & M3).
  destruct (digit_add3 low high c) as [z c'] eqn:Ha. destruct (digit_add3_spec _ _ _ _ _ Ha M2 ltac:(unfold digit_ok; lia) ltac:(unfold digit_ok; lia)) as (A1 & A2 & A3).
  intros [= <- <-]. cbn [fst snd]. unfold digit_ok in *. split_all; [lia|lia|lia|lia|lia|nia].
Qed.

Lemma inline_parts_spec m p st : digits_ok st -> 1 <= m < digit_base -> 0 <= p < digit_base -> IsDigitNormalized st = true ->
  let st' := inline_parts m p st in dval st' = dval st * m + p /\ digits_ok st' /\ IsDigitNormalized st' = true.
Proof.
  intros HX Hm Hp HN. unfold inline_parts. destruct (carry_loop _ _ _) as [ds [high c]] eqn:He.
  eapply (carry_loop_spec _ (fun x => m * x) (fun s => s.1 + s.2) digit_ok (fun s => 0 <= s.1 /\ 0 <= s.2 /\ s.1 + s.2 < digit_base)) in He as (H1 & H2 & H3 & H4 & H5 & H6);
    [|intros; eapply inline_digit_spec; try done; unfold digit_ok; lia|done|cbn [fst snd]; lia].
  cbn [fst snd] in *. rewrite dval_scale in H1. rewrite digit_small by (unfold digit_ok; lia). destruct (Z.eqb_spec (high + c) 0) as [Hz|Hz].
  - rewrite Hz in H1. split_all; [lia|done|]. destruct (normalized_cases st HN) as [->|[Hl Hms]]; [by destruct ds|].
    unfold IsDigitNormalized. apply orb_true_iff. right. apply negb_true_iff, Z.eqb_neq. intros H0. assert (ds <> []) as Hne by (destruct ds; [simpl in *; lia|done]).
    pose proof (msd_bounds ds H2 Hne) as [_ Hb]. rewrite H0, H3 in Hb. assert (st <> []) as Hst by (by intros ->). pose proof (normalized_bound st HX HN Hst).
    pose proof (weight_pos (length st - 1)). assert (1 * dval st <= m * dval st) by (apply Z.mul_le_mono_nonneg_r; lia). lia.
  - split_all; [rewrite dval_snoc, H3; lia|apply app_ok; [done|]; repeat constructor; unfold digit_ok; lia|].
    unfold IsDigitNormalized, msd. apply orb_true_iff. right. apply negb_true_iff, Z.eqb_neq. rewrite length_app. simpl (length [_]). rewrite Nat.add_sub.
    rewrite app_nth2, Nat.sub_diag by lia. done.
Qed.

Lemma parse_loop_inline r K fuel : forall cs stack heap max_m last_m max_d result radix ds rest, radix_ok r -> chars_ok cs -> r ^ Z.of_nat K < digit_base <= r ^ Z.of_nat (S K) -> (1 <= K)%nat -> (length ds < fuel)%nat ->
  digits_ok stack -> IsDigitNormalized stack = true -> span_digits r cs = (ds, rest) ->
  exists stack', parse_loop fuel r cs (mkAccumulator stack heap max_m last_m max_d result true radix) = (rest, mkAccumulator stack' heap max_m last_m max_d result true radix) /\
    dval stack' = dval stack * r ^ Z.of_nat (length ds) + horner r ds /\ digits_ok stack' /\ IsDigitNormalized stack' = true.
Proof.
  induction fuel as [|fuel IH]; intros cs stack heap max_m last_m max_d result radix ds rest Hr Hc HK HK1 HF HS HN He; [lia|]. cbn [parse_loop].
  destruct (parse_part_spec r K cs 0 0 ds rest Hr Hc HK ltac:(lia) ltac:(simpl; lia) He) as (cs' & HP & P1 & P2 & _ & P4).
  destruct (span_digits_range r cs ds rest Hr Hc He) as (HR & _ & _). pose proof (proj1 Hr) as Hr2.
  rewrite Z.pow_0_r in HP. rewrite HP. clear HP. rewrite Nat.sub_0_r in *. cbn [Nat.add]. rewrite Z.mul_0_l, Z.add_0_l. unfold AddPart_multiplier. cbn [negb].
  pose proof (horner_bounds r (take K ds) ltac:(lia) (Forall_take _ _ _ HR)) as Hh. rewrite length_take in Hh.
  assert (r ^ Z.of_nat (Nat.min K (length ds)) <= r ^ Z.of_nat K) by (apply Z.pow_le_mono_r; lia). assert (0 < r ^ Z.of_nat (Nat.min K (length ds))) by (apply Z.pow_pos_nonneg; lia).
  destruct (inline_parts_spec (r ^ Z.of_nat (Nat.min K (length ds))) (horner r (take K ds)) stack HS ltac:(lia) ltac:(lia) HN) as (I1 & I2 & I3).
  destruct (Nat.leb_spec (length ds) K) as [Hl|Hl].
  - specialize (P4 Hl). subst cs'. eexists. split; [done|]. split_all; [by rewrite I1, Nat.min_r, take_ge by lia|done|done].
  - destruct (IH cs' (inline_parts (r ^ Z.of_nat (Nat.min K (length ds))) (horner r (take K ds)) stack) heap max_m last_m max_d result radix (drop K ds) rest Hr P2 HK HK1 ltac:(rewrite length_drop; lia) I2 I3 P1) as (st' & -> & Q1 & Q2 & Q3).
    exists st'. split_all; [done| |done|done]. rewrite Q1, I1, Nat.min_l, length_drop by lia.
    assert (horner r ds = horner r (take K ds) * r ^ Z.of_nat (length ds - K) + horner r (drop K ds)) as -> by (rewrite <- length_drop, <- horner_app, take_drop; done).
    replace (r ^ Z.of_nat (length ds)) with (r ^ Z.of_nat K * r ^ Z.of_nat (length ds - K)) by (rewrite <- Z.pow_add_r by lia; f_equal; lia). ring.
Qed.
