(* ===== verification/BigIntParts.v ===== *)
(** The three ways of src/src/bigint/fromstring.cc to combine the parts of a number give its
    value: one part after the other, shifting bits for powers of two, and in a balanced tree
    (ProcessorImpl::FromStringLarge), where after every iteration a chunk of the vectors holds
    the number of the parts it stands for and the product of their multipliers. *)
From S2P Require Import Prelude Conversions Digits DigitsLinear DigitsMultiply DigitDivision DigitsDivide Karatsuba BigIntNumerals BigIntParsing.

(** ** One after the other *)

Lemma multiply_add_spec zs i m part : digits_ok zs -> (i < length zs)%nat -> (1 <= i)%nat -> part_ok (m, part) -> dval zs < weight i ->
  exists zs', multiply_add zs i m part = Some zs' /\ dval zs' = dval zs * m + part /\ digits_ok zs' /\ length zs' = length zs /\ dval zs' < weight (S i).
Proof.
  intros HZ Hi H1 [Hp Hm] Hv. cbn [fst snd] in *. pose proof (dval_bounds zs HZ) as Hb. unfold multiply_add.
  assert (length (take i zs) = i) as Ht by (rewrite length_take; lia).
  destruct (MultiplySingle_spec (length zs) (take i zs) m (take_ok i zs HZ) ltac:(unfold digit_ok; lia) ltac:(lia)) as (M1 & M2 & M3).
  rewrite dval_take_all in M1 by done. set (w := (MultiplySingle (length zs) (take i zs) m).1) in *.
  assert (dval zs * m + part < weight (S i)) as Hs by (rewrite weight_S; nia).
  assert (weight (S i) <= weight (length zs)) by (apply weight_mono; lia).
  destruct (Add_digit_spec w part M2) as (zs' & -> & A1 & A2 & A3); [unfold digit_ok; lia|intros He; rewrite He in M3; simpl in M3; lia|rewrite M1, M3; lia|].
  exists zs'. rewrite A1, M1, A3, M3. split_all; done || lia.
Qed.

Lemma classic_parts_spec M L ps : forall zs i p, digits_ok zs -> (i + length ps < length zs)%nat -> (1 <= i)%nat -> Forall part_ok (ps ++ [p]) ->
  Forall (fun q => q.1 = M) ps -> p.1 = L -> dval zs < weight i ->
  exists zs', classic_parts zs i M L (snd <$> ps ++ [p]) = Some zs' /\ dval zs' = dval zs * pmul (ps ++ [p]) + pval (ps ++ [p]) /\ digits_ok zs' /\ length zs' = length zs.
Proof.
  induction ps as [|q ps IH]; intros zs i [m part] HZ Hi H1 HF HM HL Hv.
  - apply Forall_cons in HF as [Hp _]. cbn [fst] in HL. subst m. destruct (multiply_add_spec zs i L part HZ ltac:(simpl in Hi; lia) H1 Hp Hv) as (zs' & HE & A1 & A2 & A3 & _).
    exists zs'. split_all; try done. rewrite A1. unfold pval. simpl. lia.
  - cbn [app] in HF. apply Forall_cons in HF as [Hq HF]. apply Forall_cons in HM as [Hm HM]. destruct q as [m' part']. cbn [fst] in Hm. subst m'.
    destruct (multiply_add_spec zs i M part' HZ ltac:(simpl in Hi; lia) H1 Hq Hv) as (zs1 & HE & A1 & A2 & A3 & A4).
    destruct (IH zs1 (S i) (m, part) A2 ltac:(simpl in Hi; lia) ltac:(lia) HF HM HL A4) as (zs' & HC & B1 & B2 & B3). exists zs'. split_all; [|rewrite B1, A1; cbn [app]; rewrite pval_cons; cbn [pmul fst snd]; ring|done|lia].
    cbn [app]. rewrite fmap_cons. cbn [snd]. destruct (snd <$> ps ++ [(m, part)]) as [|x xs] eqn:Hx; [by destruct ps|]. cbn [classic_parts]. rewrite HE. exact HC.
Qed.

(** The multipliers that the accumulator remembers. *)
Definition multipliers_are (a : FromStringAccumulator) (ps : list (Z * Z)) : Prop :=
  exists ps' p, ps = ps' ++ [p] /\ (ps' <> [] -> Forall (fun q => q.1 = max_multiplier_ a) ps') /\ p.1 = last_multiplier_ a.

Lemma FromStringClassic_spec n a ps : acc_ok a -> parts a = snd <$> ps -> Forall part_ok ps -> multipliers_are a ps -> (length ps <= n)%nat ->
  exists zs, FromStringClassic n a = Some zs /\ dval zs = pval ps /\ digits_ok zs /\ length zs = n.
Proof.
  intros Ha Hps HF (ps' & p & -> & HM & HL) Hn. unfold FromStringClassic. fold (parts a). rewrite length_app in Hn. simpl in Hn.
  assert ((stack_parts_ a).[O] = (parts a).[O]) as ->.
  { unfold parts. destruct Ha as [[[Hh _]|(Hs & more & Hh & _)] _]; [by rewrite Hh|]. rewrite Hh, length_app, Hs. destruct (stack_parts_ a); done. }
  assert (length (stack_parts_ a) = 1%nat <-> ps' = []) as H1.
  { pose proof (f_equal length Hps) as Hl. rewrite length_fmap, length_app in Hl. unfold parts in Hl. change kStackParts with 8%nat in *.
    destruct Ha as [[[Hh _]|(Hs & more & Hh & _)] _].
    - rewrite Hh in Hl. simpl in Hl. split; [intros; apply nil_length_inv; lia|intros ->; simpl in Hl; lia].
    - rewrite Hh, length_app, Hs in Hl. simpl in Hl. rewrite length_app, Hs in Hl. change kStackParts with 8%nat in *. split; [lia|intros ->; simpl in Hl; lia]. }
  rewrite Hps. destruct ps' as [|q ps'].
  - rewrite (proj2 H1 eq_refl). cbn [Nat.eqb app fmap list_fmap nth]. apply Forall_cons in HF as [Hp _]. eexists. split; [done|]. rewrite dval_extend, length_extend by (simpl; lia).
    unfold part_ok in Hp. split_all; [unfold pval; simpl; lia| |done]. apply extend_ok. constructor; [unfold digit_ok; lia|done].
  - destruct (Nat.eqb_spec (length (stack_parts_ a)) 1) as [He|_]; [by apply H1 in He|]. cbn [app] in *. rewrite fmap_cons. cbn [nth tail].
    apply Forall_cons in HF as [Hq HF]. specialize (HM ltac:(done)). apply Forall_cons in HM as [_ HM]. unfold part_ok in Hq.
    destruct (classic_parts_spec (max_multiplier_ a) (last_multiplier_ a) ps' (extend n [q.2]) 1 p) as (zs & -> & A1 & A2 & A3); try done.
    + apply extend_ok. constructor; [unfold digit_ok; lia|done].
    + rewrite length_extend by (simpl; lia). simpl in Hn. lia.
    + rewrite dval_extend. change (weight 1) with (digit_base * 1). simpl. lia.
    + exists zs. rewrite A1, A3, dval_extend, length_extend, pval_cons by (simpl; lia). simpl. split_all; done || lia.
Qed.

(** ** Powers of two *)

(** The number whose lowest digits are the parts, last one first. *)
Fixpoint shifted (w : Z) (qs : list Z) : Z := match qs with [] => 0 | q :: qs => q + 2 ^ w * shifted w qs end.

Definition part_bits_ok (w q : Z) : Prop := 0 <= q < 2 ^ w.

Lemma shifted_bounds w qs : 0 <= w -> Forall (part_bits_ok w) qs -> 0 <= shifted w qs.
Proof. intros Hw. induction 1 as [|q qs Hq HF IH]; simpl; [lia|]. unfold part_bits_ok in Hq. nia. Qed.

(** The bits of [q] above [t], in a digit and what does not fit. *)
Lemma or_shifted d q t w : 0 <= t < 64 -> 0 <= d < 2 ^ t -> 0 <= w <= 64 -> part_bits_ok w q ->
  let d' := Z.lor d (digit (Z.shiftl q t)) in
  d' + digit_base * Z.shiftr q (64 - t) = d + 2 ^ t * q /\ digit_ok d' /\ (t + w <= 64 -> 0 <= d' < 2 ^ (t + w) /\ d' = d + 2 ^ t * q) /\
  (64 <= t + w -> 0 <= Z.shiftr q (64 - t) < 2 ^ (w - (64 - t))).
Proof.
  intros Ht Hd Hw Hq. unfold part_bits_ok in Hq. cbv zeta. rewrite Z.shiftl_mul_pow2, Z.shiftr_div_pow2 by lia.
  assert (digit_base = 2 ^ (64 - t) * 2 ^ t) as HB by (rewrite <- Z.pow_add_r by lia; unfold digit_base, kDigitBits; f_equal; lia).
  assert (0 < 2 ^ t) by (apply Z.pow_pos_nonneg; lia). assert (0 < 2 ^ (64 - t)) by (apply Z.pow_pos_nonneg; lia).
  assert (digit (q * 2 ^ t) = q mod 2 ^ (64 - t) * 2 ^ t) as -> by (rewrite digit_mod, HB, Z.mul_mod_distr_r by lia; done).
  rewrite lor_disjoint by lia. pose proof (Z.div_mod q (2 ^ (64 - t)) ltac:(lia)) as Hdm. pose proof (Z.mod_pos_bound q (2 ^ (64 - t)) ltac:(lia)) as Hmb.
  split_all.
  - rewrite HB. rewrite Hdm at 3. ring.
  - unfold digit_ok. rewrite HB. nia.
  - intros Hle. assert (2 ^ w <= 2 ^ (64 - t)) by (apply Z.pow_le_mono_r; lia). rewrite Z.mod_small by lia.
    rewrite Z.pow_add_r by lia. split; [nia|lia].
  - intros Hle. split; [apply Z.div_pos; lia|]. apply Z.div_lt_upper_bound; [lia|]. rewrite <- Z.pow_add_r by lia. replace (64 - t + (w - (64 - t))) with w by lia. lia.
Qed.

Lemma fill_digit_spec w qs : forall d t part bits, 1 <= w <= 64 -> 0 <= t < 64 -> 0 <= d < 2 ^ t -> Forall (part_bits_ok w) qs -> qs <> [] ->
  exists d' t' part' bits' qs', fill_digit w qs d t part bits = (d', t', part', bits', qs') /\ digit_ok d' /\ 0 <= part' < 2 ^ bits' /\ 0 <= bits' < 64 /\
    Forall (part_bits_ok w) qs' /\ (length qs' < length qs)%nat /\ d' + digit_base * (part' + 2 ^ bits' * shifted w qs') = d + 2 ^ t * shifted w qs.
Proof.
  induction qs as [|q qs IH]; intros d t part bits Hw Ht Hd HF Hne; [done|]. apply Forall_cons in HF as [Hq HF]. cbn [fill_digit shifted].
  unfold kDigitBits. rewrite (proj2 (Z.ltb_lt t 64)) by lia. destruct (or_shifted d q t w Ht Hd ltac:(lia) Hq) as (O1 & O2 & O3 & O4).
  destruct (Z.ltb_spec w (64 - t)) as [Hlt|Hge].
  - destruct (O3 ltac:(lia)) as [O5 O6]. destruct qs as [|q' qs].
    + cbn [fill_digit]. unfold kDigitBits. rewrite (proj2 (Z.ltb_lt (t + w) 64)) by lia. do 5 eexists. split; [done|]. split_all; try (done || lia).
      * simpl. lia.
      * rewrite O6. simpl. lia.
    + destruct (IH (Z.lor d (digit (Z.shiftl q t))) (t + w) 0 0 Hw ltac:(lia) O5 HF ltac:(done)) as (d' & t' & part' & bits' & qs' & -> & A1 & A2 & A3 & A4 & A5 & A6).
      do 5 eexists. split; [done|]. split_all; try (done || lia); [simpl in *; lia|]. rewrite A6, O6, Z.pow_add_r by lia. ring.
  - do 5 eexists. split; [done|]. specialize (O4 ltac:(lia)). split_all; try (done || lia); [simpl; lia|].
    rewrite Z.mul_add_distr_l, Z.add_assoc, O1.
    assert (digit_base * 2 ^ (w - (64 - t)) = 2 ^ t * 2 ^ w) as HB by (unfold digit_base, kDigitBits; rewrite <- !Z.pow_add_r by lia; f_equal; lia).
    rewrite Z.mul_assoc, HB. ring.
Qed.

Lemma fill_digits_spec w fuel : forall qs d t, 1 <= w <= 64 -> 0 <= t < 64 -> 0 <= d < 2 ^ t -> Forall (part_bits_ok w) qs -> (length qs <= fuel)%nat ->
  let ds := fill_digits fuel w qs d t in dval ds = d + 2 ^ t * shifted w qs /\ digits_ok ds /\ (length ds <= S (length qs))%nat.
Proof.
  assert (forall d t, 0 <= t < 64 -> 0 <= d < 2 ^ t -> let ds := if 0 <? t then [d] else [] in dval ds = d + 2 ^ t * 0 /\ digits_ok ds /\ (length ds <= 1)%nat) as Hlast.
  { intros d t Ht Hd. cbv zeta. destruct (Z.ltb_spec 0 t).
    - cbn [dval length]. split_all; [lia| |lia]. constructor; [|done]. unfold digit_ok, digit_base, kDigitBits. assert (2 ^ t <= 2 ^ 64) by (apply Z.pow_le_mono_r; lia). lia.
    - assert (t = 0) as -> by lia. simpl in Hd. cbn [dval length]. split_all; [lia|constructor|lia]. }
  induction fuel as [|fuel IH]; intros [|q qs] d t Hw Ht Hd HF Hl; cbn [fill_digits shifted length]; try (by apply Hlast); [simpl in Hl; lia|].
  destruct (fill_digit_spec w (q :: qs) d t 0 0 Hw Ht Hd HF ltac:(done)) as (d' & t' & part & bits & qs' & -> & A1 & A2 & A3 & A4 & A5 & A6).
  destruct (IH qs' part bits Hw A3 A2 A4 ltac:(simpl in *; lia)) as (I1 & I2 & I3). cbn [dval length].
  split_all; [rewrite I1; exact A6|by constructor|simpl in A5; lia].
Qed.

Lemma pval_shifted w ps : Forall (fun q => q.1 = 2 ^ w) ps -> pval ps = shifted w (rev (snd <$> ps)).
Proof.
  induction ps as [|q ps IH] using rev_ind; [done|]. rewrite Forall_app. intros [H1 [H2 _]%Forall_cons].
  rewrite pval_snoc, fmap_app, rev_app_distr, IH, H2 by done. simpl. lia.
Qed.

Lemma dval_shifted qs : dval qs = shifted 64 qs.
Proof. induction qs as [|q qs IH]; [done|]. cbn [dval shifted]. rewrite IH. done. Qed.

Lemma parts_of_range r K ds ps : 2 <= r -> Forall (fun d => 0 <= d < r) ds -> parts_of r K ds ps -> Forall (fun p => 0 <= p.2 < p.1) ps.
Proof.
  intros Hr HF HP. induction HP as [ds Hl|ds ps Hl HP IH]; constructor; cbn [fst snd]; auto using Forall_drop; [apply horner_bounds; [lia|done]|].
  pose proof (horner_bounds r (take K ds) ltac:(lia) (Forall_take _ _ _ HF)) as Hb. rewrite length_take, Nat.min_l in Hb by lia. done.
Qed.

Lemma char_bits_of b : 1 <= b <= 5 -> BitLength (2 ^ b - 1) = b /\ kDigitBits - kDigitBits mod b = b * (kDigitBits / b).
Proof.
  intros Hb. split; [|pose proof (Z.div_mod kDigitBits b); lia].
  assert (b = 1 \/ b = 2 \/ b = 3 \/ b = 4 \/ b = 5) as [-> | [-> | [-> | [-> | ->]]]] by lia; reflexivity.
Qed.

Lemma FromStringBasePowerOfTwo_spec n b ds a ps : 1 <= b <= 5 -> let r := 2 ^ b in let K := Z.to_nat (kDigitBits / b) in
  Forall (fun d => 0 <= d < r) ds -> parts_of r K ds ps -> parts a = snd <$> ps -> radix_ a = r ->
  last_multiplier_ a = kDigitBits - Z.log2 (List.last ps (0, 0)).1 -> (length ps <= n)%nat ->
  let zs := FromStringBasePowerOfTwo n a in dval zs = pval ps /\ digits_ok zs /\ length zs = n.
Proof.
  intros Hb r K HR HP Hps Hra HL Hn. unfold FromStringBasePowerOfTwo. fold (parts a). destruct (char_bits_of b Hb) as [C1 C2]. rewrite Hra. cbv zeta. fold r in C1. rewrite !C1, !C2.
  destruct (bits_per_part b Hb) as (K1 & K2 & _). fold K in K1, K2.
  assert (kDigitBits / b = Z.of_nat K) as HKz by (unfold K; rewrite Z2Nat.id; [done|apply Z.div_pos; unfold kDigitBits; lia]). rewrite !HKz. set (w := b * Z.of_nat K).
  assert (2 <= r) as Hr2 by (unfold r; change 2 with (2 ^ 1) at 1; apply Z.pow_le_mono_r; lia).
  pose proof (parts_of_range r K ds ps Hr2 HR HP) as HRg. destruct (parts_of_multipliers r K ds ps HP) as (ps' & p & -> & HM & m & Hm1 & Hm2 & _).
  assert (forall i, r ^ Z.of_nat i = 2 ^ (b * Z.of_nat i)) as Hpow by (intros i; unfold r; rewrite <- Z.pow_mul_r by lia; done).
  rewrite List.last_last, Hm1, Hpow, Z.log2_pow2 in HL by lia. set (t := b * Z.of_nat m) in *.
  assert (t <= w) as Htw by (unfold t, w; apply Z.mul_le_mono_nonneg_l; lia). rewrite Hps, fmap_app, rev_app_distr. cbn [fmap list_fmap rev app].
  apply Forall_app in HRg as [HRg [Hp _]%Forall_cons]. rewrite Hm1, Hpow in Hp. fold t in Hp.
  assert (Forall (part_bits_ok w) (rev (snd <$> ps'))) as HF.
  { rewrite <- Permutation_rev, Forall_fmap. apply Forall_forall. intros q Hq. pose proof (proj1 (Forall_forall _ _) HM q Hq) as E. pose proof (proj1 (Forall_forall _ _) HRg q Hq) as E'.
    cbn [compose] in *. unfold part_bits_ok. cbn in E. rewrite E, Hpow in E'. exact E'. }
  assert (pval (ps' ++ [p]) = p.2 + 2 ^ t * shifted w (rev (snd <$> ps'))) as Hv.
  { rewrite pval_snoc, Hm1, Hpow, (pval_shifted w); [fold t; lia|]. eapply Forall_impl; [exact HM|]. cbn. intros q ->. apply Hpow. }
  rewrite length_app in Hn. simpl in Hn. assert (length (rev (snd <$> ps')) = length ps') as Hlr by (rewrite length_rev, length_fmap; done).
  assert (w <= 64) as Hw by (unfold w; lia). assert (1 <= w) by (unfold w; nia). assert (0 <= t) by (unfold t; nia).
  rewrite HL, Hv. destruct (Z.eqb_spec (kDigitBits - t) 0) as [Hz|Hz].
  - assert (t = 64) as -> by (unfold kDigitBits in Hz; lia). assert (w = 64) as E by lia. rewrite E in *.
    rewrite dval_extend, length_extend by (simpl; lia). cbn [dval]. rewrite dval_shifted. split_all; [done| |done]. apply extend_ok. constructor; [exact Hp|exact HF].
  - assert (t < 64) as Ht by (unfold kDigitBits in Hz; lia). replace (kDigitBits - (kDigitBits - t)) with t by lia.
    destruct (fill_digits_spec w (length (rev (snd <$> ps'))) (rev (snd <$> ps')) p.2 t ltac:(lia) ltac:(lia) Hp HF (le_n _)) as (F1 & F2 & F3).
    rewrite dval_extend, length_extend by lia. split_all; [exact F1|by apply extend_ok|done].
Qed.

(** ** Sub-vectors *)

Definition chunk {A} (ps : list A) (l j : nat) : list A := take l (drop (j * l) ps).

Lemma chunk_slice X l j : slice X (j * l) l = chunk X l j.
Proof. done. Qed.

Lemma length_chunk {A} (ps : list A) l j : length (chunk ps l j) = Nat.min l (length ps - j * l).
Proof. unfold chunk. by rewrite length_take, length_drop. Qed.

(** Two neighbours are a chunk of the double length. *)
Lemma chunk_double {A} (ps : list A) l k : chunk ps (l * 2) k = chunk ps l (2 * k) ++ chunk ps l (2 * k + 1).
Proof.
  unfold chunk. replace (k * (l * 2))%nat with (2 * k * l)%nat by lia. replace ((2 * k + 1) * l)%nat with (2 * k * l + l)%nat by lia.
  rewrite <- drop_drop, take_take_drop. f_equal. lia.
Qed.

Lemma chunk_empty {A} (ps : list A) l j : (length ps <= j * l)%nat -> chunk ps l j = [].
Proof. intros H. unfold chunk. by rewrite drop_ge, take_nil. Qed.

Lemma chunk_drop {A} (X Y : list A) l j k : drop k X = drop k Y -> (k <= j * l)%nat -> chunk X l j = chunk Y l j.
Proof. intros He Hk. unfold chunk. replace (j * l)%nat with (k + (j * l - k))%nat by lia. by rewrite <- !drop_drop, He. Qed.

Lemma Forall_chunk {A} (P : A -> Prop) ps l j : Forall P ps -> Forall P (chunk ps l j).
Proof. intros HF. by apply Forall_take, Forall_drop. Qed.

Lemma length_write zs start out : (start + length out <= length zs)%nat -> length (write zs start out) = length zs.
Proof. intros Hl. unfold write. rewrite !length_app, length_take, length_drop. lia. Qed.

Lemma write_ok zs start out : digits_ok zs -> digits_ok out -> digits_ok (write zs start out).
Proof. intros HZ HO. unfold write. apply app_ok; [by apply take_ok|]. apply app_ok; [done|by apply drop_ok]. Qed.

Lemma drop_write zs start out k : (start + length out <= length zs)%nat -> (start + length out <= k)%nat -> drop k (write zs start out) = drop k zs.
Proof.
  intros Hl Hk. unfold write. rewrite app_assoc, drop_app_ge by (rewrite length_app, length_take; lia).
  rewrite length_app, length_take, Nat.min_l, drop_drop by lia. f_equal. lia.
Qed.

Lemma chunk_write_before zs start out l j : (j * l + l <= start)%nat -> (start <= length zs)%nat -> chunk (write zs start out) l j = chunk zs l j.
Proof.
  intros Hj Hs. unfold chunk, write. rewrite drop_app_le by (rewrite length_take; lia). rewrite take_app_le by (rewrite length_drop, length_take; lia).
  rewrite <- (take_drop start zs) at 2. rewrite (drop_app_le (take start zs)) by (rewrite length_take; lia). rewrite take_app_le by (rewrite length_drop, length_take; lia). done.
Qed.

(** The vector is written to the end of the chunk or to its own end. *)
Lemma chunk_write_at zs l j out : length out = length (chunk zs l j) -> (j * l <= length zs)%nat -> chunk (write zs (j * l) out) l j = out.
Proof.
  intros Ho Hj. rewrite length_chunk in Ho. unfold chunk, write. rewrite drop_app_length' by (rewrite length_take; lia).
  destruct (decide (l <= length zs - j * l)%nat).
  - by rewrite take_app_length' by lia.
  - rewrite drop_ge, app_nil_r by lia. rewrite take_ge by lia. done.
Qed.

Section tree.
Context (Allocate : nat -> list Z).
Context (HA : forall n, digits_ok (Allocate n) /\ length (Allocate n) = n).
Context (ps : list (Z * Z)) (M L : Z) (ps' : list (Z * Z)) (p0 : Z * Z).
Context (Hps : ps = ps' ++ [p0]) (HF : Forall part_ok ps) (HM : Forall (fun q => q.1 = M) ps') (HL : p0.1 = L) (HML : 2 <= L <= M).

Local Abbreviation N := (length ps).

(** The chunks of [l] digits of the parts and the multipliers. *)
Record chunks (l n : nat) (P Mu : list Z) : Prop := {
  chunks_parts : digits_ok P /\ length P = N;
  chunks_multipliers : digits_ok Mu /\ length Mu = N;
  chunks_number : ((n - 1) * l < N <= n * l)%nat;
  chunks_pval : forall j, (j < n)%nat -> dval (chunk P l j) = pval (chunk ps l j);
  chunks_pmul : forall j, (1 <= j < n)%nat -> dval (chunk Mu l j) = pmul (chunk ps l j)
}.

(** What is done when [2 * k] chunks were combined. *)
Record combined (l k : nat) (P0 P NP : list Z) (NP_len : nat) : Prop := {
  combined_parts : digits_ok P /\ length P = N;
  combined_new : digits_ok NP /\ length NP = NP_len;
  combined_rest : drop (2 * k * l) P = drop (2 * k * l) P0;
  combined_pval : forall j, (j < k)%nat -> dval (chunk NP (l * 2) j) = pval (chunk ps (l * 2) j);
  combined_pmul : forall j, (1 <= j < k)%nat -> dval (chunk P (l * 2) j) = pmul (chunk ps (l * 2) j)
}.

Lemma chunk_part_ok l j : Forall part_ok (chunk ps l j).
Proof using All. by apply Forall_chunk. Qed.

Lemma multiplier_max : Forall (fun q => 1 <= q.1 <= M) ps.
Proof using All.
  rewrite Hps. apply Forall_app. split; [|by repeat constructor; lia]. eapply Forall_impl; [exact HM|]. cbn. intros q ->. lia.
Qed.

Lemma pmul_max qs : Forall (fun q => 1 <= q.1 <= M) qs -> 1 <= pmul qs <= M ^ Z.of_nat (length qs).
Proof using All.
  induction 1 as [|q qs Hq HQ IH]; [done|]. cbn [pmul length]. rewrite Nat2Z.inj_succ, Z.pow_succ_r by lia. nia.
Qed.

Lemma pmul_same qs : Forall (fun q => q.1 = M) qs -> pmul qs = M ^ Z.of_nat (length qs).
Proof using All.
  induction 1 as [|q qs Hq HQ IH]; [done|]. cbn [pmul length]. rewrite Nat2Z.inj_succ, Z.pow_succ_r, IH, Hq by lia. done.
Qed.

(** A chunk before the last part has the greatest product of its length. *)
Lemma full_chunk l j : (j * l + l < N)%nat -> pmul (chunk ps l j) = M ^ Z.of_nat l.
Proof using All.
  intros Hj. assert (length (chunk ps l j) = l) as Hl by (rewrite length_chunk; lia). rewrite <- Hl at 2. apply pmul_same.
  assert (chunk ps l j = chunk ps' l j) as ->.
  { rewrite Hps in *. rewrite length_app in Hj. simpl in Hj. unfold chunk. rewrite drop_app_le by lia. rewrite take_app_le by (rewrite length_drop; lia). done. }
  by apply Forall_chunk.
Qed.

Lemma equal_product_length l i j : (i * l + l < N)%nat -> pmul (chunk ps l j) = pmul (chunk ps l i) -> (l <= length (chunk ps l j))%nat.
Proof using All.
  intros Hi He. rewrite (full_chunk l i Hi) in He. destruct (pmul_max (chunk ps l j) (Forall_chunk _ _ _ _ multiplier_max)) as [_ Hm]. rewrite He in Hm.
  apply Z.pow_le_mono_r_iff in Hm; lia.
Qed.

(** ** The first iteration *)

Lemma chunk_two {A} (X : list A) i d : (2 * i + 1 < length X)%nat -> chunk X 2 i = [nth (2 * i) X d; nth (2 * i + 1) X d].
Proof using All.
  intros Hi. unfold chunk. replace (i * 2)%nat with (2 * i)%nat by lia.
  destruct (drop (2 * i) X) as [|x [|y rest]] eqn:He; apply (f_equal length) in He as Hl; rewrite length_drop in Hl; simpl in Hl; try lia.
  assert (nth (2 * i) X d = x /\ nth (2 * i + 1) X d = y) as [-> ->]; [|done].
  rewrite <- (take_drop (2 * i) X), He. assert (length (take (2 * i) X) = (2 * i)%nat) as Ht by (rewrite length_take; lia).
  split; rewrite app_nth2 by lia; rewrite Ht.
  - by rewrite Nat.sub_diag.
  - by replace (2 * i + 1 - 2 * i)%nat with 1%nat by lia.
Qed.

Lemma product_digits a b : digit_ok a -> digit_ok b -> forall l h, digit_mul a b = (l, h) -> dval [l; h] = a * b /\ digits_ok [l; h].
Proof using All. intros Ha Hb l h Hm. destruct (digit_mul_spec _ _ _ _ Hm Ha Hb) as (M1 & M2 & M3). simpl. split; [lia|]. do 2 (constructor; [done|]). constructor. Qed.

Lemma nth_part i : (i < N)%nat -> part_ok (nth i ps (0, 0)) /\ (nth i ps (0, 0)).1 = (if (i =? N - 1)%nat then L else M) /\ (snd <$> ps).[i] = (nth i ps (0, 0)).2.
Proof using All.
  intros Hi. split_all.
  - apply (proj1 (Forall_forall _ _) HF). apply list_elem_of_In, nth_In. done.
  - rewrite Hps in *. rewrite length_app in Hi |- *. simpl in Hi |- *. destruct (Nat.eqb_spec i (length ps' + 1 - 1)) as [->|].
    + rewrite app_nth2 by lia. by replace (length ps' + 1 - 1 - length ps')%nat with O by lia.
    + rewrite app_nth1 by lia. apply (proj1 (Forall_forall _ _) HM). apply list_elem_of_In, nth_In. lia.
  - change 0 with ((0, 0) : Z * Z).2 at 1. by rewrite map_nth.
Qed.

(** Before the pair [k]: the parts from there on are as they were. *)
Lemma combined_0 P0 NP l NP_len : digits_ok P0 /\ length P0 = N -> digits_ok NP /\ length NP = NP_len -> combined l 0 P0 P0 NP NP_len.
Proof using All. intros H1 H2. split; [done|done|done|lia|lia]. Qed.

Lemma combined_step l k P0 P NP NP_len P' NP' p_out m_out : combined l k P0 P NP NP_len -> (1 <= l)%nat -> (2 * k * l <= N)%nat -> (N <= NP_len)%nat ->
  digits_ok p_out -> length p_out = length (chunk NP (l * 2) k) -> dval p_out = pval (chunk ps (l * 2) k) -> NP' = write NP (k * (l * 2)) p_out ->
  (k = O -> P' = P) -> ((0 < k)%nat -> digits_ok m_out /\ length m_out = length (chunk P (l * 2) k) /\ dval m_out = pmul (chunk ps (l * 2) k) /\ P' = write P (k * (l * 2)) m_out) ->
  combined l (S k) P0 P' NP' NP_len.
Proof using All.
  intros [[C1 C2] [C3 C4] C5 C6 C7] Hl Hk Hn Ho1 Ho2 Ho3 -> H0 H1. replace (2 * k * l)%nat with (k * (l * 2))%nat in * by lia.
  assert (k * (l * 2) + length p_out <= length NP)%nat as Hb by (rewrite Ho2, length_chunk; lia).
  assert (forall j, (j < S k)%nat -> dval (chunk (write NP (k * (l * 2)) p_out) (l * 2) j) = pval (chunk ps (l * 2) j)) as Hpv.
  { intros j Hj. destruct (decide (j = k)) as [->|]; [by rewrite chunk_write_at by (done || lia)|]. rewrite chunk_write_before by nia. apply C6. lia. }
  destruct k as [|k].
  - rewrite H0 by done. split; [done|split; [by apply write_ok|by rewrite length_write]| |exact Hpv|lia].
    change (drop 0 P = drop 0 P0) in C5. rewrite !drop_0 in C5. by rewrite C5.
  - destruct (H1 ltac:(lia)) as (M1 & M2 & M3 & ->). clear H0 H1. set (kk := S k) in *.
    assert (kk * (l * 2) + length m_out <= length P)%nat as Hb' by (rewrite M2, length_chunk; lia).
    split; [split; [by apply write_ok|by rewrite length_write]|split; [by apply write_ok|by rewrite length_write]| |exact Hpv|].
    + replace (2 * S kk * l)%nat with (kk * (l * 2) + l * 2)%nat by lia. destruct (decide (length m_out = l * 2)%nat) as [He|He].
      * rewrite drop_write by lia. rewrite <- !drop_drop, C5. done.
      * rewrite length_chunk in M2. rewrite !drop_ge; [done| |rewrite length_write; lia]. apply (f_equal length) in C5. rewrite !length_drop in C5. lia.
    + intros j Hj. destruct (decide (j = kk)) as [->|]; [by rewrite chunk_write_at by (done || lia)|]. rewrite chunk_write_before by nia. apply C7. lia.
Qed.

Lemma combined_chunks l k P0 P NP : combined l k P0 P NP N -> ((k - 1) * (l * 2) < N <= k * (l * 2))%nat -> chunks (l * 2) k NP P.
Proof using All. intros [C1 C2 C3 C4 C5] Hk. by split. Qed.

Lemma same_drop (X Y : list Z) k i : drop k X = drop k Y -> (k <= i)%nat -> X.[i] = Y.[i].
Proof using All. intros He Hi. replace i with (k + (i - k))%nat by lia. by rewrite <- !drop_at, He. Qed.

Lemma chunk_two_parts k : (2 * k + 1 < N)%nat -> let q1 := nth (2 * k) ps (0, 0) in let q2 := nth (2 * k + 1) ps (0, 0) in
  pval (chunk ps 2 k) = q1.2 * q2.1 + q2.2 /\ pmul (chunk ps 2 k) = q1.1 * q2.1.
Proof using All. intros Hk. rewrite (chunk_two ps k (0, 0)) by done. unfold pval. simpl. split; lia. Qed.

Lemma first_pair_spec k P NP : let P0 := snd <$> ps in combined 1 k P0 P NP N -> (2 * k + 1 < N)%nat ->
  let '(P', NP') := first_pair M L N (2 * k) P NP in combined 1 (S k) P0 P' NP' N.
Proof using All.
  intros P0 HC Hk. pose proof HC as [[C1 C2] [C3 C4] C5 C6 C7]. rewrite Nat.mul_1_r in C5. unfold first_pair.
  rewrite (same_drop P P0 (2 * k) (2 * k) C5) by done. rewrite (same_drop P P0 (2 * k) (S (2 * k)) C5) by lia. rewrite <- (Nat.add_1_r (2 * k)).
  destruct (nth_part (2 * k) ltac:(lia)) as (N1 & N2 & N3). destruct (nth_part (2 * k + 1) ltac:(lia)) as (N4 & N5 & N6). fold P0 in N3, N6. rewrite N3, N6.
  destruct (chunk_two_parts k Hk) as [V1 V2]. set (q1 := nth (2 * k) ps (0, 0)) in *. set (q2 := nth (2 * k + 1) ps (0, 0)) in *.
  assert (q1.1 = M) as Hq1 by (rewrite N2; destruct (Nat.eqb_spec (2 * k) (N - 1)); [lia|done]).
  assert ((if (2 * k =? N - 2)%nat then L else M) = q2.1) as -> by (rewrite N5; destruct (Nat.eqb_spec (2 * k) (N - 2)), (Nat.eqb_spec (2 * k + 1) (N - 1)); lia || done).
  unfold part_ok in N1, N4. destruct (digit_mul q1.2 q2.1) as [p_low p_high] eqn:E1. destruct (digit_mul_spec _ _ _ _ E1 ltac:(unfold digit_ok; lia) ltac:(unfold digit_ok; lia)) as (D1 & D2 & D3).
  destruct (digit_add2 p_low q2.2) as [low carry] eqn:E2. destruct (digit_add2_spec _ _ _ _ E2 D2 ltac:(unfold digit_ok; lia)) as (D4 & D5 & D6).
  assert (digit_ok (p_high + carry)) as D7.
  { unfold digit_ok in *. split; [lia|]. assert (q1.2 * q2.1 + q2.2 < digit_base * digit_base) by nia. nia. }
  rewrite (digit_small (p_high + carry)) by done.
  assert (forall X : list Z, length X = N -> length (chunk X (1 * 2) k) = 2%nat) as Hlen by (intros X HX; rewrite length_chunk, HX; lia).
  match goal with |- combined _ _ _ ?P' _ _ => set (P1 := P') end.
  apply (combined_step 1 k P0 P NP N P1 _ [low; p_high + carry] (if (k =? 0)%nat then [] else chunk P1 2 k)); try (done || lia).
  - by do 2 (constructor; [done|]).
  - by rewrite (Hlen NP C4).
  - change (1 * 2)%nat with 2%nat. rewrite V1. cbn [dval]. lia.
  - f_equal. lia.
  - intros ->. done.
  - intros Hk0. destruct (Nat.eqb_spec k 0) as [|_]; [lia|]. rewrite (Hlen P C2). change (1 * 2)%nat with 2%nat. rewrite V2, Hq1.
    assert (exists out, P1 = write P (k * 2) out /\ length out = 2%nat /\ digits_ok out /\ dval out = M * q2.1) as (out & HP1 & O1 & O2 & O3).
    { unfold P1. rewrite (proj2 (Nat.ltb_lt 0 (2 * k))) by lia. replace (2 * k)%nat with (k * 2)%nat by lia.
      destruct ((2 <? k * 2)%nat && negb (q2.1 =? L)) eqn:Hc.
      - apply andb_true_iff in Hc as [Hc1%Nat.ltb_lt Hc2%negb_true_iff%Z.eqb_neq]. eexists. split; [done|]. split; [done|].
        assert ([P.[k * 2 - 2]; P.[k * 2 - 1]] = chunk P 2 (k - 1)) as ->.
        { rewrite (chunk_two P (k - 1) 0) by (rewrite C2; lia). f_equal; [f_equal; lia|]. do 2 f_equal. lia. }
        split; [by apply Forall_chunk|]. pose proof (C7 (k - 1)%nat ltac:(lia)) as E7. change (1 * 2)%nat with 2%nat in E7. rewrite E7. destruct (chunk_two_parts (k - 1) ltac:(lia)) as [_ ->].
        destruct (nth_part (2 * (k - 1)) ltac:(lia)) as (_ & -> & _). destruct (nth_part (2 * (k - 1) + 1) ltac:(lia)) as (_ & -> & _).
        destruct (Nat.eqb_spec (2 * (k - 1)) (N - 1)); [lia|]. destruct (Nat.eqb_spec (2 * (k - 1) + 1) (N - 1)); [lia|]. f_equal.
        rewrite N5 in *. by destruct (2 * k + 1 =? N - 1)%nat.
      - destruct (digit_mul M q2.1) as [m_low m_high] eqn:E3. destruct (product_digits M q2.1 ltac:(unfold digit_ok; lia) ltac:(unfold digit_ok; lia) _ _ E3) as [G1 G2].
        eexists. split; [done|]. split_all; done. }
    assert (chunk P1 2 k = out) as -> by (rewrite HP1; apply chunk_write_at; [rewrite O1; symmetry; by apply (Hlen P)|lia]).
    by split_all.
Qed.

Lemma first_pairs_spec fuel : forall k P NP, let P0 := snd <$> ps in combined 1 k P0 P NP N -> (2 * k <= N)%nat -> (N <= fuel + 2 * k)%nat -> (2 <= N)%nat ->
  let '(Mu', P', n') := first_pairs fuel M L N (2 * k) P NP in chunks 2 n' P' Mu' /\ n' = Nat.div2 (N + 1).
Proof using All.
  induction fuel as [|fuel IH]; intros k P NP P0 HC Hk Hfu HN2; cbn [first_pairs].
  all: destruct (Nat.ltb_spec (2 * k + 1) N) as [Hlt|Hge]; [try lia|].
  2: { pose proof (first_pair_spec k P NP HC Hlt) as HS. destruct (first_pair M L N (2 * k) P NP) as [P' NP']. fold P0 in HS.
    replace (2 * k + 2)%nat with (2 * S k)%nat by lia. apply (IH (S k) P' NP' HS); lia. }
  all: destruct (Nat.ltb_spec (2 * k) N) as [Hlt|Hge2]; [lia || idtac|].
  all: try (assert (N = 2 * k)%nat as He by lia; replace (Nat.div2 (2 * k)) with k by (symmetry; apply Nat.div2_double);
    split; [apply (combined_chunks 1 k P0 P NP HC); lia|rewrite He, Nat.add_1_r, Nat.div2_succ_double; done]).
  assert (N = 2 * k + 1)%nat as He by lia. replace (Nat.div2 (2 * k + 2)) with (S k) by (replace (2 * k + 2)%nat with (2 * S k)%nat by lia; symmetry; apply Nat.div2_double).
  split; [|rewrite He; replace (2 * k + 1 + 1)%nat with (2 * S k)%nat by lia; by rewrite Nat.div2_double].
  pose proof HC as [[C1 C2] [C3 C4] C5 C6 C7]. rewrite Nat.mul_1_r in C5. rewrite (same_drop P P0 (2 * k) (2 * k) C5) by done.
  destruct (nth_part (2 * k) Hlt) as (N1 & N2 & N3). fold P0 in N3. rewrite N3. set (q := nth (2 * k) ps (0, 0)) in *. unfold part_ok in N1.
  assert (q.1 = L) as Hq by (rewrite N2; destruct (Nat.eqb_spec (2 * k) (N - 1)); [done|lia]).
  assert (chunk ps (1 * 2) k = [q]) as Hch.
  { unfold chunk. replace (k * (1 * 2))%nat with (2 * k)%nat by lia. destruct (drop (2 * k) ps) as [|x rest] eqn:Hd; apply (f_equal length) in Hd as Hd'; rewrite length_drop in Hd'; simpl in Hd'; [lia|].
    assert (rest = []) as -> by (apply nil_length_inv; lia). unfold q. rewrite <- (take_drop (2 * k) ps), Hd, app_nth2 by (rewrite length_take; lia). rewrite length_take.
    by replace (2 * k - Nat.min (2 * k) N)%nat with O by lia. }
  change 2%nat with (1 * 2)%nat at 1. apply (combined_chunks 1 (S k) P0); [|lia].
  assert (forall X : list Z, length X = N -> length (chunk X (1 * 2) k) = 1%nat) as Hlen by (intros X HX; rewrite length_chunk, HX; lia).
  apply (combined_step 1 k P0 P NP N _ _ [q.2] [L]); try (done || lia).
  - constructor; [unfold digit_ok; lia|done].
  - by rewrite (Hlen NP C4).
  - rewrite Hch. unfold pval. simpl. lia.
  - f_equal. lia.
  - intros _. rewrite (Hlen P C2), Hch. simpl pmul. split_all; [constructor; [unfold digit_ok; lia|done]|done|simpl; lia|f_equal; lia].
Qed.

(** ** The other iterations *)

Lemma chunk_equation {A} (X : list A) s s' l : s = s' -> take l (drop s X) = take l (drop s' X).
Proof using All. by intros ->. Qed.

(** The product of the parts in front of a chunk, plus the chunk, does not overflow. *)
Lemma combine_parts (A B : list (Z * Z)) out p2 : Forall part_ok (A ++ B) -> digits_ok out -> digits_ok p2 -> dval out = pval A * pmul B -> dval p2 = pval B ->
  (length (A ++ B) <= length out)%nat -> (length p2 <= length out)%nat ->
  let r := (AddAndReturnOverflow out p2).1 in dval r = pval (A ++ B) /\ digits_ok r /\ length r = length out.
Proof using All.
  intros HAB Ho Hp Hv Hv2 Hl Hl2. destruct (AddAndReturnOverflow out p2) as [r c] eqn:He. pose proof (length_Normalize p2).
  destruct (AddAndReturnOverflow_spec out p2 r c Ho Hp ltac:(lia) He) as (A1 & A2 & A3 & A4). cbn [fst].
  pose proof (pval_weight (A ++ B) HAB) as Hb. pose proof (weight_mono _ _ Hl). pose proof (dval_bounds r A2) as Hr. rewrite A3 in Hr.
  rewrite pval_app in *. rewrite Hv, Hv2 in A1. assert (c = 0) as -> by nia. split_all; [lia|done|done].
Qed.

Section pair.
Context (l n k : nat) (P0 Mu : list Z) (NP_len : nat).
Context (HC0 : chunks l n P0 Mu) (Hl : (1 <= l)%nat) (Hk : (2 * k + 1 < n)%nat) (HNP : (N <= NP_len)%nat) (Hmax : Z.of_nat NP_len <= kMaxNumDigits).

Lemma pair_fits : ((2 * k + 1) * l < N)%nat.
Proof using All. destruct HC0 as [_ _ [H1 H2] _ _]. nia. Qed.

Lemma pair_values P NP : combined l k P0 P NP NP_len ->
  dval (chunk P l (2 * k)) = pval (chunk ps l (2 * k)) /\ dval (chunk P l (2 * k + 1)) = pval (chunk ps l (2 * k + 1)) /\
  dval (chunk Mu l (2 * k + 1)) = pmul (chunk ps l (2 * k + 1)) /\ ((0 < k)%nat -> dval (chunk Mu l (2 * k)) = pmul (chunk ps l (2 * k))).
Proof using All.
  intros [_ _ C5 _ _]. rewrite (chunk_drop P P0 l (2 * k) _ C5), (chunk_drop P P0 l (2 * k + 1) _ C5) by lia. destruct HC0 as [_ _ _ V1 V2].
  split_all; [apply V1; lia|apply V1; lia|apply V2; lia|intros; apply V2; lia].
Qed.

(** The multipliers of the pair before are the same: so is their product. *)
Lemma copied_product P NP : combined l k P0 P NP NP_len -> (1 < k)%nat ->
  (Compare (chunk Mu l (2 * k)) (chunk Mu l (2 * (k - 1))) =? 0) && (Compare (chunk Mu l (2 * k + 1)) (chunk Mu l (2 * (k - 1) + 1)) =? 0) = true ->
  length (chunk P (l * 2) k) = (l * 2)%nat /\ length (chunk P (l * 2) (k - 1)) = (l * 2)%nat /\ digits_ok (chunk P (l * 2) (k - 1)) /\
  dval (chunk P (l * 2) (k - 1)) = pmul (chunk ps (l * 2) k).
Proof using All.
  intros HC Hk1 [E1%Z.eqb_eq E2%Z.eqb_eq]%andb_true_iff. pose proof HC as [[C1 C2] _ _ _ C7]. pose proof pair_fits as Hfit.
  destruct HC0 as [_ [Mu1 Mu2] _ _ V2]. apply Compare_cases in E1; [|by apply Forall_chunk..]. apply Compare_cases in E2; [|by apply Forall_chunk..].
  rewrite !V2 in E1, E2 by lia. assert (l <= length (chunk ps l (2 * k + 1)))%nat as Hfull by (apply (equal_product_length l (2 * (k - 1) + 1)); [nia|done]).
  rewrite length_chunk in Hfull. rewrite !length_chunk, C2. split_all; [nia|nia|by apply Forall_chunk|].
  rewrite C7 by lia. rewrite !chunk_double, !pmul_app. by rewrite E1, E2.
Qed.

Lemma large_pair_spec P NP p : combined l k P0 P NP NP_len ->
  exists P' NP' p', large_pair Allocate l (2 * k) P Mu NP p = Some (P', NP', p') /\ works p p' /\ (digits_ok NP' /\ length NP' = NP_len) /\
    (should_terminate p' = false -> combined l (S k) P0 P' NP' NP_len).
Proof using All.
  intros HC. pose proof HC as [[C1 C2] [C3 C4] _ _ _]. pose proof pair_fits as Hfit. destruct (pair_values P NP HC) as (V1 & V2 & V3 & V4). pose proof HC0 as [_ [Mu1 Mu2] _ _ _].
  unfold large_pair, slice. cbv zeta.
  rewrite (chunk_equation NP (2 * k * l) (k * (l * 2))), (chunk_equation P (2 * k * l + l) ((2 * k + 1) * l)), (chunk_equation Mu (2 * k * l + l) ((2 * k + 1) * l)) by lia.
  fold (chunk NP (l * 2) k) (chunk P l (2 * k)) (chunk P l (2 * k + 1)) (chunk Mu l (2 * k)) (chunk Mu l (2 * k + 1)).
  pose proof (length_chunk NP (l * 2) k) as LN. pose proof (length_chunk P l (2 * k)) as L1. pose proof (length_chunk P l (2 * k + 1)) as L2.
  pose proof (length_chunk Mu l (2 * k)) as L3. pose proof (length_chunk Mu l (2 * k + 1)) as L4. rewrite ?C2, ?C4, ?Mu2 in *.
  destruct (Multiply_spec Allocate HA (chunk NP (l * 2) k) (chunk P l (2 * k)) (chunk Mu l (2 * k + 1)) p) as (out & p1 & -> & O1 & O2 & W1 & O3);
    [by apply Forall_chunk|by apply Forall_chunk|by apply Forall_chunk|nia|lia|]. cbn [mbind option_bind].
  assert (2 * k * l = k * (l * 2))%nat as Hst by lia.
  assert (forall o : list Z, length o = length out -> length (write NP (2 * k * l) o) = NP_len) as Hw by (intros o Ho; rewrite length_write; [done|rewrite Ho, O2; lia]).
  destruct (should_terminate p1) eqn:Ht.
  { do 3 eexists. split; [done|]. split_all; [done|by apply write_ok|by apply Hw|congruence]. }
  specialize (O3 eq_refl). rewrite V1, V3 in O3.
  destruct (combine_parts (chunk ps l (2 * k)) (chunk ps l (2 * k + 1)) out (chunk P l (2 * k + 1))) as (R1 & R2 & R3);
    [rewrite <- chunk_double; by apply Forall_chunk|done|by apply Forall_chunk|done|done|rewrite <- chunk_double, length_chunk; lia|lia|].
  rewrite <- chunk_double in R1. set (res := (AddAndReturnOverflow out (chunk P l (2 * k + 1))).1) in *.
  pose proof (combined_step l k P0 P NP NP_len) as Hstep. rewrite Hst in *.
  destruct (Nat.ltb_spec 0 (2 * k)) as [H0|H0].
  2: { do 3 eexists. split; [done|]. split_all; [done|by apply write_ok|by apply Hw|]. intros _. apply (Hstep P _ res [] HC); try (done || lia). }
  rewrite (chunk_equation Mu ((2 * k - 2) * l) (2 * (k - 1) * l)), (chunk_equation Mu ((2 * k - 2) * l + l) ((2 * (k - 1) + 1) * l)), (chunk_equation P ((2 * k - 2) * l) ((k - 1) * (l * 2))) by nia.
  fold (chunk Mu l (2 * (k - 1))) (chunk Mu l (2 * (k - 1) + 1)) (chunk P (l * 2) (k - 1)) (chunk P (l * 2) k). rewrite <- andb_assoc.
  pose proof (length_chunk P (l * 2) k) as LP. rewrite C2 in LP.
  destruct ((2 <? 2 * k)%nat && _) eqn:Hcopy.
  - apply andb_true_iff in Hcopy as [Hk2%Nat.ltb_lt Hcopy]. destruct (copied_product P NP HC ltac:(lia) Hcopy) as (E1 & E2 & E3 & E4).
    destruct (Nat.ltb_spec (length (chunk P (l * 2) k)) (l * 2)); [lia|]. do 3 eexists. split; [done|]. split_all; [done|by apply write_ok|by apply Hw|]. intros _.
    apply (Hstep _ _ res (chunk P (l * 2) (k - 1)) HC); try (done || lia). intros _. split_all; (done || lia).
  - destruct (Multiply_spec Allocate HA (chunk P (l * 2) k) (chunk Mu l (2 * k)) (chunk Mu l (2 * k + 1)) p1) as (m_out & p2 & -> & Q1 & Q2 & W2 & Q3);
      [by apply Forall_chunk|by apply Forall_chunk|by apply Forall_chunk|nia|lia|]. cbn [mbind option_bind].
    do 3 eexists. split; [done|]. split_all; [by transitivity p1|by apply write_ok|by apply Hw|]. intros Ht2.
    apply (Hstep _ _ res m_out HC); try (done || lia). intros _. split_all; try done. by rewrite Q3, V3, V4, chunk_double, pmul_app by (done || lia).
Qed.
End pair.

Lemma large_pairs_spec l n P0 Mu NP_len fuel : forall k P NP p, chunks l n P0 Mu -> (1 <= l)%nat -> (N <= NP_len)%nat -> Z.of_nat NP_len <= kMaxNumDigits ->
  combined l k P0 P NP NP_len -> (2 <= n)%nat -> (2 * k <= n)%nat -> (n <= fuel + 2 * k)%nat ->
  exists P' NP' n' p', large_pairs Allocate fuel n l (2 * k) P Mu NP p = Some (P', NP', n', p') /\ works p p' /\ (digits_ok NP' /\ length NP' = NP_len) /\
    (should_terminate p' = false -> n' = Nat.div2 (n + 1) /\ combined l n' P0 P' NP' NP_len).
Proof using All.
  induction fuel as [|fuel IH]; intros k P NP p HC0 Hl HNP Hmax HC Hn2 Hk Hfu; cbn [large_pairs].
  all: destruct (Nat.ltb_spec (2 * k + 1) n) as [Hlt|Hge]; [try lia|].
  2: { destruct (large_pair_spec l n k P0 Mu NP_len HC0 Hl Hlt HNP Hmax P NP p HC) as (P1 & NP1 & p1 & -> & W1 & H1 & H2). cbn [mbind option_bind].
    destruct (should_terminate p1) eqn:Ht; [do 4 eexists; split; [done|]; split; [done|]; split; [done|congruence]|]. replace (2 * k + 2)%nat with (2 * S k)%nat by lia.
    destruct (IH (S k) P1 NP1 p1 HC0 Hl HNP Hmax (H2 eq_refl) Hn2 ltac:(lia) ltac:(lia)) as (P' & NP' & n' & p' & -> & W2 & H3 & H4).
    do 4 eexists. split_all; [done|by transitivity p1|apply H3|apply H3|done]. }
  all: pose proof HC as [[C1 C2] [C3 C4] C5 _ _]; destruct (Nat.ltb_spec (2 * k) n) as [Hlt|Hge2]; [lia || idtac|].
  all: try (assert (n = 2 * k)%nat as He by lia; do 4 eexists; split; [done|]; split_all; [done|done|done|intros _];
    rewrite He, Nat.add_1_r, Nat.div2_succ_double, Nat.div2_double; done).
  assert (n = 2 * k + 1)%nat as He by lia. do 4 eexists. split; [done|]. unfold slice. cbv zeta.
  destruct HC0 as [[Q1 Q2] [Mu1 Mu2] [H1 H2] V1 V2].
  rewrite (chunk_equation NP (2 * k * l) (k * (l * 2))), (chunk_equation P (2 * k * l) (k * (l * 2))) by lia.
  fold (chunk NP (l * 2) k). assert (2 * k * l = k * (l * 2))%nat as Hst by lia. rewrite Hst in *.
  assert (forall (X : list Z), length X = N -> take l (drop (k * (l * 2)) X) = chunk X (l * 2) k) as Hch.
  { intros X HX. unfold chunk. rewrite !take_ge; [done|rewrite length_drop; nia|rewrite length_drop; nia]. }
  assert (chunk ps (l * 2) k = chunk ps l (2 * k)) as Hps2 by (rewrite chunk_double, (chunk_empty ps l (2 * k + 1)), app_nil_r by nia; done).
  pose proof (length_chunk NP (l * 2) k) as LN. pose proof (length_chunk P (l * 2) k) as LP. pose proof (length_chunk Mu (l * 2) k) as LM. rewrite ?C2, ?C4, ?Mu2 in *.
  rewrite (Hch Mu Mu2), (Hch P C2). fold (chunk P (l * 2) k).
  set (p_out := extend (length (chunk NP (l * 2) k)) (chunk P (l * 2) k)). set (m_out := extend (length (chunk P (l * 2) k)) (chunk Mu (l * 2) k)).
  assert (length p_out = length (chunk NP (l * 2) k)) as Hpl by (apply length_extend; lia). assert (length m_out = length (chunk P (l * 2) k)) as Hml by (apply length_extend; lia).
  assert (digits_ok p_out /\ digits_ok m_out) as [Hp Hm] by (split; apply extend_ok; by apply Forall_chunk).
  replace (Nat.div2 (2 * k + 2)) with (S k) by (replace (2 * k + 2)%nat with (2 * S k)%nat by lia; symmetry; apply Nat.div2_double).
  split_all; [done|by apply write_ok|rewrite length_write; lia|]. intros _. split; [rewrite He; replace (2 * k + 1 + 1)%nat with (2 * S k)%nat by lia; by rewrite Nat.div2_double|].
  apply (combined_step l k P0 P NP NP_len _ _ p_out m_out HC); try (done || lia).
  - unfold p_out. rewrite dval_extend, Hps2, <- V1 by lia. f_equal. rewrite <- (Hch P C2). unfold chunk. rewrite Hst. by rewrite C5.
  - intros Hk0. split_all; try done. unfold m_out. rewrite dval_extend, Hps2, <- V2 by lia. f_equal. rewrite <- (Hch Mu Mu2). unfold chunk. by rewrite Hst.
Qed.

(** ** The result *)

Lemma chunk_0 {A} (X : list A) l : chunk X l 0 = take l X.
Proof using All. done. Qed.

Lemma final_digits zs l : digits_ok zs -> (1 <= l)%nat ->
  let r := write zs l (Clear (length zs - l)) in dval r = dval (chunk zs l 0) /\ digits_ok r /\ length r = length zs.
Proof using All.
  intros HZ Hl. cbv zeta. rewrite chunk_0. unfold write, Clear. rewrite drop_ge, app_nil_r by (rewrite length_replicate; lia).
  rewrite dval_app, dval_zeros, length_app, length_take, length_replicate. split_all; [lia|apply app_ok; [by apply take_ok|apply zeros_ok]|lia].
Qed.

Lemma half_rounds n fuel : (2 < n)%nat -> Z.of_nat n <= 2 ^ Z.of_nat (S fuel) -> (2 <= Nat.div2 (n + 1))%nat /\ Z.of_nat (Nat.div2 (n + 1)) <= 2 ^ Z.of_nat fuel.
Proof using All.
  intros Hn Hf. rewrite Nat2Z.inj_succ, Z.pow_succ_r in Hf by lia. pose proof (Nat.div2_odd (n + 1)) as Hd. destruct (Nat.odd (n + 1)); simpl in Hd; lia.
Qed.

Lemma large_rounds_spec fuel : forall n l zs P Mu temp p, chunks l n P Mu -> digits_ok temp /\ length temp = N -> digits_ok zs -> (N <= length zs)%nat -> Z.of_nat (length zs) <= kMaxNumDigits ->
  (2 <= n)%nat -> Z.of_nat n <= 2 ^ Z.of_nat fuel -> (1 <= l)%nat ->
  exists zs' p', large_rounds Allocate fuel n l zs P Mu temp p = Some (zs', p') /\ works p p' /\ digits_ok zs' /\ length zs' = length zs /\
    (should_terminate p' = false -> dval zs' = pval ps).
Proof using All.
  induction fuel as [|fuel IH]; intros n l zs P Mu temp p HC Ht HZ HN Hmax Hn2 Hf Hl; [simpl in Hf; lia|]. cbn [large_rounds].
  rewrite (proj2 (Nat.ltb_lt 1 n)) by lia. pose proof HC as [HP HMu [H1 H2] _ _]. change (large_pairs Allocate n n l 0) with (large_pairs Allocate n n l (2 * 0)).
  destruct (Nat.eqb_spec n 2) as [->|Hn]; cbv match zeta.
  - destruct (large_pairs_spec l 2 P Mu (length zs) 2 0 P zs p HC Hl HN Hmax (combined_0 P zs l (length zs) HP (conj HZ eq_refl)) ltac:(lia) ltac:(lia) ltac:(lia))
      as (P' & zs1 & n' & p1 & -> & W1 & [Z1 Z2] & H3). cbn [mbind option_bind].
    destruct (should_terminate p1) eqn:Ht1; [do 2 eexists; split; [done|]; split; [done|]; split; [done|]; split; [done|congruence]|].
    destruct (H3 eq_refl) as [-> [_ _ _ V _]]. destruct (final_digits zs1 (l * 2) Z1 ltac:(lia)) as (F1 & F2 & F3).
    do 2 eexists. split; [by destruct fuel|]. split_all; [done|done|by rewrite F3|]. intros _. rewrite F1, V by (simpl; lia). rewrite chunk_0, take_ge by lia. done.
  - destruct (large_pairs_spec l n P Mu N n 0 P temp p HC Hl (le_n _) ltac:(lia) (combined_0 P temp l N HP Ht) ltac:(lia) ltac:(lia) ltac:(lia))
      as (P' & NP & n' & p1 & -> & W1 & [Z1 Z2] & H3). cbn [mbind option_bind].
    destruct (should_terminate p1) eqn:Ht1; [do 2 eexists; split; [done|]; split; [done|]; split; [done|]; split; [done|congruence]|].
    destruct (H3 eq_refl) as [-> HC']. destruct (half_rounds n fuel ltac:(lia) Hf) as [Hh1 Hh2].
    assert ((Nat.div2 (n + 1) - 1) * (l * 2) < N <= Nat.div2 (n + 1) * (l * 2))%nat as Hb.
    { pose proof (Nat.div2_odd (n + 1)) as Hd. destruct (Nat.odd (n + 1)); simpl in Hd; nia. }
    destruct (IH (Nat.div2 (n + 1)) (l * 2)%nat zs NP P' Mu p1 (combined_chunks l _ P P' NP HC' Hb) HMu HZ HN Hmax Hh1 Hh2 ltac:(lia)) as (zs' & p' & -> & W2 & I1 & I2 & I3).
    do 2 eexists. split; [done|]. split_all; [by transitivity p1|done|done|done].
Qed.

Lemma FromStringLarge_spec a zs p : heap_parts_ a = snd <$> ps -> max_multiplier_ a = M -> last_multiplier_ a = L -> digits_ok zs -> (N <= length zs)%nat ->
  Z.of_nat (length zs) <= kMaxNumDigits -> (3 <= N)%nat ->
  exists zs' p', FromStringLarge Allocate zs a p = Some (zs', p') /\ works p p' /\ digits_ok zs' /\ length zs' = length zs /\ (should_terminate p' = false -> dval zs' = pval ps).
Proof using All.
  intros Hh Hm Hlm HZ HN Hmax HN3. unfold FromStringLarge. rewrite Hh, Hm, Hlm, length_fmap. destruct (HA (N * 2)%nat) as [HA1 HA2].
  set (temp_storage := Allocate (N * 2)) in *. assert (digits_ok (snd <$> ps)) as HO.
  { apply Forall_fmap. eapply Forall_impl; [exact HF|]. intros q Hq. unfold part_ok in Hq. cbn. unfold digit_ok. lia. }
  pose proof (first_pairs_spec N 0 (snd <$> ps) (drop N temp_storage)) as HFP. cbv zeta in HFP.
  specialize (HFP (combined_0 (snd <$> ps) (drop N temp_storage) 1 N (conj HO (length_fmap _ _)) ltac:(split; [by apply drop_ok|rewrite length_drop; lia])) ltac:(lia) ltac:(lia) ltac:(lia)).
  change (2 * 0)%nat with 0%nat in HFP. destruct (first_pairs _ _ _ _ _ _ _) as [[Mu NP] n']. destruct HFP as [HC ->].
  assert (Z.of_nat (Nat.div2 (N + 1)) <= 2 ^ Z.of_nat 32 /\ (2 <= Nat.div2 (N + 1))%nat) as [Hf1 Hf2].
  { unfold kMaxNumDigits in Hmax. change ((2 ^ 32 - 1) / kDigitBits) with 67108863 in Hmax. change (2 ^ Z.of_nat 32) with 4294967296.
    pose proof (Nat.div2_odd (N + 1)) as Hd. destruct (Nat.odd (N + 1)); simpl in Hd; lia. }
  destruct (large_rounds_spec 32 (Nat.div2 (N + 1)) 2 zs NP Mu (take N temp_storage) (AddWorkEstimate (Z.of_nat (Nat.div2 (N + 1))) p) HC) as (zs' & p' & -> & W & I1 & I2 & I3);
    try (done || lia); [split; [by apply take_ok|rewrite length_take; lia]|].
  do 2 eexists. split; [done|]. split_all; [|done|done|done]. transitivity (AddWorkEstimate (Z.of_nat (Nat.div2 (N + 1))) p); [apply works_add|done].
Qed.

End tree.
