(* ===== verification/BigIntStrings.v ===== *)
(** The conversions between BigInts and JavaScript strings: BigInt::ToString,
    NoSideEffectsToString, Allocate, CompareToString and EqualToString of
    src/src/objects/bigint.cc, and the parser of src/src/numbers/conversions.cc for
    BigInt(string), for comparisons with strings and for BigInt literals.

    A string is the list of its code units; the code has the same template for one-byte and
    two-byte strings. [is_space_separator] is ICU's answer whether a character above 255 has
    the category Zs. *)
From S2P Require Import Prelude Conversions JSHeap Digits DigitsLinear DigitsMultiply DigitDivision DigitsDivide DigitsBitwise Karatsuba Burnikel BigIntObjects BigIntTheorems BigIntNumerals BigIntPrinting BigIntParsing.

(** ** BigInts to strings *)

(** String::kMaxLength on 64-bit platforms. *)
Definition String_kMaxLength : Z := Z.shiftl 1 29 - 24.

(** A string; a RangeError; an empty handle without an exception; the termination of the
    execution; a write outside of the string. *)
Inductive text :=
| Text (s : list Z)
| InvalidStringLength
| NoText
| TextTerminated
| TextOverrun.

Inductive ShouldThrow := kThrowOnError | kDontThrow.

(** The fast path for one digit and radix 10. *)
Definition short_decimal (sign : bool) (digit : Z) : text :=
  let bit_length := wrap 32 (kDigitBits - CountLeadingZeros kDigitBits digit) in
  let chars_allocated := wrap 32 (wrap 32 (Z.shiftl bit_length 7) / 425 + 1 + Z.b2z sign) in
  let out := BasecaseFixedLast 64 10 digit [] in
  let out := if sign then 45 :: out else out in
  if chars_allocated <? Z.of_nat (length out) then TextOverrun else Text out.

Definition BigInt_ToString (x : bigint) (radix : Z) (should_throw : ShouldThrow) (p : Processor) : text * Processor :=
  if is_zero x then (Text [48], p)
  else if (length (digits x) =? 1)%nat && (radix =? 10) then (short_decimal (sign x) ((digits x).[O]), p)
  else
    let chars_allocated := ToStringResultLength (digits x) radix (sign x) in
    if String_kMaxLength <? chars_allocated then (match should_throw with kThrowOnError => InvalidStringLength | kDontThrow => NoText end, p)
    else
      match ToString chars_allocated (digits x) radix (sign x) p with
      | None => (TextOverrun, p)
      | Some (_, true, p) => (TextTerminated, p)
      | Some (s, false, p) => (Text s, p)
      end.

(** The text for BigInts of more than 100 digits. *)
Definition a_very_large_BigInt : list Z := (fun c => Z.of_nat (Ascii.nat_of_ascii c)) <$> String.list_ascii_of_string "<a very large BigInt>".

Definition ResetInterruptCheckBudget (p : Processor) : Processor := {| status_ := status_ p; work_estimate_ := 0; platform_ := platform_ p |}.

Definition NoSideEffectsToString (x : bigint) (p : Processor) : text * Processor :=
  if is_zero x then (Text [48], p)
  else if (100 <? length (digits x))%nat then (Text a_very_large_BigInt, p)
  else
    let chars_allocated := ToStringResultLength (digits x) 10 (sign x) in
    match ToString chars_allocated (digits x) 10 (sign x) (ResetInterruptCheckBudget p) with
    | None => (TextOverrun, p)
    | Some (s, _, p) => (Text s, p)
    end.

(** ** Characters *)

Section characters.
Context (is_space_separator : Z -> bool).

Definition IsOneByteWhitespace (c : Z) : bool := (c =? 9) || (c =? 11) || (c =? 12) || (c =? 32) || (c =? 160).

Definition IsLineTerminator (c : Z) : bool := (c =? 10) || (c =? 13) || (c =? 0x2028) || (c =? 0x2029).

Definition IsWhiteSpaceSlow (c : Z) : bool :=
  is_space_separator c || ((c <? 13) && ((c =? 9) || (c =? 11) || (c =? 12))) || (c =? 0xFEFF).

Definition IsWhiteSpaceOrLineTerminator (c : Z) : bool :=
  if (0 <=? c) && (c <=? 255) then IsOneByteWhitespace c || (c =? 13) || (c =? 10)
  else IsWhiteSpaceSlow c || IsLineTerminator c.

(** The position of the first character that is not white space; at the end, there is none. *)
Fixpoint AdvanceToNonspace (cs : list Z) : list Z :=
  match cs with
  | [] => []
  | c :: cs' => if negb (IsWhiteSpaceOrLineTerminator c) then cs else AdvanceToNonspace cs'
  end.

Definition isDigit (x radix : Z) : bool :=
  ((48 <=? x) && (x <=? 57) && (x <? 48 + radix)) ||
  ((10 <? radix) && (97 <=? x) && (x <? 97 + radix - 10)) ||
  ((10 <? radix) && (65 <=? x) && (x <? 65 + radix - 10)).

(** ** Sign, radix and leading zeros *)

Inductive State := kRunning | kError | kJunk | kEmpty | kZero | kDone.
Inductive Sign := kNegative | kPositive | kNone.

(** What the detection leaves: the rest of the string starts at the cursor. *)
Record StringToIntHelper := mkHelper { radix_ : Z; sign_ : Sign; state_ : State; rest_ : list Z }.

(** while (current is '0'); [None] at the end of the string. *)
Fixpoint skip_leading_zeros (leading_zero_ : bool) (current : list Z) : option (bool * list Z) :=
  match current with
  | [] => None
  | c :: current' => if c =? 48 then skip_leading_zeros true current' else Some (leading_zero_, current)
  end.

(** The prefix of the number: a state that ends the parsing, or the flag leading_zero_; the
    radix; the rest of the string. *)
Definition detect_prefix (radix_ : Z) (allow_binary_and_octal_prefixes_ : bool) (current : list Z) : (State + bool) * Z * list Z :=
  let hex_prefix c := (c =? 120) || (c =? 88) in
  let ended r current := match current with [] => (inl kJunk, r, []) | _ => (inr false, r, current) end in
  if radix_ =? 0 then
    match current with
    | c :: after =>
      if c =? 48 then
        match after with
        | [] => (inl kZero, 10, [])
        | c :: current' =>
          if hex_prefix c then ended 16 current'
          else if allow_binary_and_octal_prefixes_ && ((c =? 111) || (c =? 79)) then ended 8 current'
          else if allow_binary_and_octal_prefixes_ && ((c =? 98) || (c =? 66)) then ended 2 current'
          else (inr true, 10, after)
        end
      else (inr false, 10, current)
    | [] => (inr false, 10, current)
    end
  else if radix_ =? 16 then
    match current with
    | c :: after =>
      if c =? 48 then
        match after with
        | [] => (inl kZero, 16, [])
        | c :: current' => if hex_prefix c then ended 16 current' else (inr true, 16, after)
        end
      else (inr false, 16, current)
    | [] => (inr false, 16, current)
    end
  else (inr false, radix_, current).

Definition DetectRadixInternal (radix_ : Z) (allow_binary_and_octal_prefixes_ allow_trailing_junk_ : bool) (s : list Z) : StringToIntHelper :=
  match AdvanceToNonspace s with
  | [] => mkHelper radix_ kNone kEmpty []
  | c :: after =>
    let '(sign_, current) := if c =? 43 then (kPositive, after) else if c =? 45 then (kNegative, after) else (kNone, c :: after) in
    match current with
    | [] => mkHelper radix_ kNone kJunk []
    | _ =>
      match detect_prefix radix_ allow_binary_and_octal_prefixes_ current with
      | (inl state, radix_, current) => mkHelper radix_ sign_ state current
      | (inr leading_zero_, radix_, current) =>
        match skip_leading_zeros leading_zero_ current with
        | None => mkHelper radix_ sign_ kZero []
        | Some (leading_zero_, current) =>
          let digit := match current with c :: _ => isDigit c radix_ | [] => false end in
          if leading_zero_ && allow_trailing_junk_ && negb digit then mkHelper radix_ sign_ kZero current
          else if negb leading_zero_ && negb digit then mkHelper radix_ sign_ kJunk current
          else mkHelper radix_ sign_ kRunning current
        end
      end
    end
  end.

(** ** Strings to BigInts *)

Inductive Behavior := kStringToBigInt | kLiteral.

Definition is_string_to_bigint (b : Behavior) : bool := match b with kStringToBigInt => true | kLiteral => false end.

Section operations.
Context (Allocate : nat -> list Z).

(** BigInt::Allocate *)
Definition BigInt_Allocate (accumulator : FromStringAccumulator) (negative : bool) (p : Processor) : completion bigint * Processor :=
  let digits := ResultLength accumulator in
  match checked (New Allocate digits) with
  | Value result =>
    match Processor_FromString Allocate result accumulator p with
    | None => (Fatal, p)
    | Some (_, true, p) => (Terminated, p)
    | Some (result, false, p) => (Value (MakeImmutable (if (0 <? digits)%nat then negative else false) result), p)
    end
  | _ => (Fatal, p)
  end.

(** ParseInternal: the state it sets and the accumulator. *)
Definition ParseInternal (behavior_ : Behavior) (garbage : Z) (radix : Z) (current : list Z) : State * FromStringAccumulator :=
  let '(current, accumulator_) := Parse current radix (new_FromStringAccumulator kMaxLength garbage) in
  match result_ accumulator_ with
  | kMaxSizeExceeded => (kError, accumulator_)
  | kOk =>
    let junk := match AdvanceToNonspace current with [] => false | _ => true end in
    (if is_string_to_bigint behavior_ && junk then kJunk else kDone, accumulator_)
  end.

(** ParseInt: the detection, then the digits. *)
Definition ParseInt (behavior_ : Behavior) (garbage : Z) (s : list Z) : StringToIntHelper * FromStringAccumulator :=
  let h := DetectRadixInternal 0 true (negb (is_string_to_bigint behavior_)) s in
  match state_ h with
  | kRunning =>
    let '(state, accumulator_) := ParseInternal behavior_ garbage (radix_ h) (rest_ h) in
    (mkHelper (radix_ h) (sign_ h) state (rest_ h), accumulator_)
  | _ => (h, new_FromStringAccumulator kMaxLength garbage)
  end.

Definition negative (h : StringToIntHelper) : bool := match sign_ h with kNegative => true | _ => false end.

(** GetResult: [Value None] is an empty handle without an exception. *)
Definition GetResult (behavior_ : Behavior) (garbage : Z) (s : list Z) (p : Processor) : completion (option bigint) * Processor :=
  let '(h, accumulator_) := ParseInt behavior_ garbage s in
  let signed := match sign_ h with kNone => false | _ => true end in
  if is_string_to_bigint behavior_ && signed && negb (radix_ h =? 10) then (Value None, p)
  else
    match state_ h, behavior_ with
    | kJunk, _ | kError, _ => (Value None, p)
    | kZero, _ | kEmpty, kStringToBigInt => (Value (Some Zero), p)
    | kDone, _ => let '(r, p) := BigInt_Allocate accumulator_ (negative h) p in (r ≫= fun x => Value (Some x), p)
    | kEmpty, kLiteral | kRunning, _ => (Fatal, p)
    end.

Definition StringToBigInt (garbage : Z) (s : list Z) (p : Processor) : completion (option bigint) * Processor := GetResult kStringToBigInt garbage s p.

Definition BigIntLiteral (garbage : Z) (s : list Z) (p : Processor) : completion (option bigint) * Processor := GetResult kLiteral garbage s p.

(** DecimalString: the statuses of the processor are not looked at. *)
Definition BigIntLiteralToDecimal (garbage : Z) (literal : list Z) (p : Processor) : text * Processor :=
  let '(h, accumulator_) := ParseInt kLiteral garbage literal in
  match state_ h with
  | kZero => (Text [48], p)
  | _ =>
    let num_digits := ResultLength accumulator_ in
    match Processor_FromString Allocate (Allocate num_digits) accumulator_ p with
    | None => (TextOverrun, p)
    | Some (digits, _, p) =>
      let num_chars := ToStringResultLength digits 10 false in
      match ToString num_chars digits 10 false p with
      | None => (TextOverrun, p)
      | Some (s, _, p) => (Text s, p)
      end
    end
  end.

(** The outcome of a comparison with a string: the order, or the end of the execution. *)
Definition CompareToString (garbage : Z) (x : bigint) (y : list Z) (p : Processor) : completion ComparisonResult * Processor :=
  let '(maybe_ny, p) := StringToBigInt garbage y p in
  (maybe_ny ≫= fun ny => Value (match ny with Some ny => CompareToBigInt x ny | None => kUndefined end), p).

Definition EqualToString (garbage : Z) (x : bigint) (y : list Z) (p : Processor) : completion bool * Processor :=
  let '(maybe_n, p) := StringToBigInt garbage y p in
  (maybe_n ≫= fun n => Value (match n with Some n => EqualToBigInt x n | None => false end), p).
End operations.
End characters.
