(* ===== verification/BigIntStringTheorems.v ===== *)
(** What the conversions between BigInts and strings compute: the text of a BigInt is its
    numeral, the BigInt of a text is the number it denotes, and BigInts survive the way to
    text and back. *)
From S2P Require Import Prelude Conversions JSHeap Digits DigitsLinear DigitsMultiply DigitDivision DigitsDivide DigitsBitwise Karatsuba Burnikel BigIntObjects BigIntTheorems BigIntNumerals BigIntPrinting BigIntParsing BigIntParts BigIntStrings BigIntProperties.

(** ** Characters per part *)

Fixpoint fitting (fuel : nat) (r m : Z) : nat := match fuel with O => O | S fuel => if m * r <? digit_base then S (fitting fuel r (m * r)) else O end.

(** The characters of a part, by their multiplier. *)
Definition multiplier_chars (r : Z) : nat := fitting 64 r 1.

(** The characters of a full part of a long string. *)
Definition part_chars (r : Z) : nat := if IsPowerOfTwo r then Z.to_nat (kDigitBits / CountTrailingZeros r) else multiplier_chars r.

Definition parse_constants (r : Z) : bool :=
  let K := multiplier_chars r in
  (r ^ Z.of_nat K <? digit_base) && (digit_base <=? r ^ Z.of_nat (S K)) && (1 <=? K)%nat && (r ^ 99 <? 2 ^ 512) &&
  Bool.eqb (Z.land r (r - 1) =? 0) (IsPowerOfTwo r) && (12 <=? part_chars r)%nat &&
  (negb (IsPowerOfTwo r) || (kCharBits.[Z.to_nat (Z.shiftr r 2)] =? CountTrailingZeros r) && (wrap 8 r =? r)).

Lemma parse_constants_hold : all_radixes parse_constants = true.
Proof. vm_compute. reflexivity. Qed.

Lemma parse_constants_spec r : radix_ok r -> let K := multiplier_chars r in
  r ^ Z.of_nat K < digit_base <= r ^ Z.of_nat (S K) /\ (1 <= K)%nat /\ r ^ 99 < 2 ^ 512 /\ (Z.land r (r - 1) =? 0) = IsPowerOfTwo r /\ (12 <= part_chars r)%nat /\
  (IsPowerOfTwo r = true -> kCharBits.[Z.to_nat (Z.shiftr r 2)] = CountTrailingZeros r /\ wrap 8 r = r).
Proof.
  intros Hr K. pose proof (all_radixes_spec parse_constants r parse_constants_hold Hr) as Hc. unfold parse_constants in Hc. fold K in Hc.
  rewrite !andb_true_iff in Hc. destruct Hc as ((((((H1%Z.ltb_lt & H2%Z.leb_le) & H3%Nat.leb_le) & H4%Z.ltb_lt) & H5%Bool.eqb_prop) & H6%Nat.leb_le) & H7).
  split_all; try assumption. intros Hp. apply orb_true_iff in H7 as [H7|H7]; [by rewrite Hp in H7|]. apply andb_true_iff in H7 as [H7%Z.eqb_eq H8%Z.eqb_eq]. done.
Qed.

Section strings.
Context (Allocate : nat -> list Z).
Context (HA : forall n, digits_ok (Allocate n) /\ length (Allocate n) = n).

(** ** Reading the digits of a string *)

(** The accumulator gives the number [v]. *)
Definition holds_number (a : FromStringAccumulator) (v : Z) : Prop :=
  forall zs p, digits_ok zs -> length zs = ResultLength a -> Z.of_nat (length zs) <= kMaxNumDigits ->
  exists zs' status p', Processor_FromString Allocate zs a p = Some (zs', status, p') /\ digits_ok zs' /\ length zs' = length zs /\ should_terminate p' = false /\
    (status = false -> dval zs' = v) /\ (undisturbed p -> status = false /\ undisturbed p').

Lemma holds_number_result a v : (forall zs p, digits_ok zs -> length zs = ResultLength a -> Z.of_nat (length zs) <= kMaxNumDigits ->
  exists zs' p', FromString Allocate zs a p = Some (zs', p') /\ works p p' /\ digits_ok zs' /\ length zs' = length zs /\ (should_terminate p' = false -> dval zs' = v)) -> holds_number a v.
Proof using All.
  intros H zs p HZ Hl Hm. destruct (H zs p HZ Hl Hm) as (zs' & p' & HF & W & H1 & H2 & H3). unfold Processor_FromString. rewrite HF. cbn [mbind option_bind get_and_clear_status].
  do 3 eexists. split; [done|]. split_all; [done|done|done|exact H3|]. intros [U1 U2]%(works_undisturbed p p' W). by split.
Qed.

Lemma reads_initial r K ds g inlined rx max a' ps : reads r K ds (mkAccumulator [] [] 0 g max kOk inlined rx) a' ps -> parts a' = snd <$> ps /\ acc_ok a' /\ result_ a' = kOk /\ BigIntParsing.radix_ a' = rx /\ inline_everything_ a' = inlined.
Proof using All. intros (R1 & R2 & R3 & R4 & R5 & R6). by split_all. Qed.

(** *** Long strings in a radix that is not a power of two *)

Lemma holds_number_generic r K ds g a ps : radix_ok r -> r ^ Z.of_nat K < digit_base -> (1 <= K)%nat -> Forall (fun d => 0 <= d < r) ds -> parts_of r K ds ps ->
  reads r K ds (mkAccumulator [] [] 0 g (Z.max kMaxLength 8) kOk false 0) a ps -> last_multiplier_ a = (List.last ps (0, 0)).1 ->
  max_multiplier_ a = (if (length ps =? 1)%nat then 0 else r ^ Z.of_nat K) -> holds_number a (horner r ds).
Proof using All.
  intros Hr HK HK1 HR HP HRd HL HM. apply reads_initial in HRd as (H1 & H2 & H3 & H4 & H5). apply holds_number_result. intros zs p HZ Hlen Hmax.
  destruct (parts_of_value r K ds ps HP) as [HV _]. rewrite <- HV. pose proof (proj1 Hr) as Hr2. pose proof (parts_of_ok r K ds ps Hr2 HK HR HP) as HF. pose proof (parts_of_nonempty r K ds ps HP) as Hne.
  rewrite (ResultLength_parts a H2), H1, length_fmap in Hlen.
  destruct (parts_of_multipliers r K ds ps HP) as (ps' & q & Hps & HM' & m & Hm1 & Hm2 & Hm3).
  assert (length (stack_parts_ a) <> 0)%nat as Hst.
  { apply (f_equal length) in H1. rewrite length_fmap in H1. unfold parts in H1. destruct H2 as [[[He _]|[He _]] _]; change kStackParts with 8%nat in *; [rewrite He in H1; simpl in H1|]; lia. }
  unfold FromString. rewrite H5, H4. rewrite (proj2 (Nat.eqb_neq _ _) Hst). change (IsPowerOfTwo 0) with false. cbv match.
  rewrite (ResultLength_parts a H2), H1, length_fmap. destruct (Nat.ltb_spec (length ps) kFromStringLargeThreshold) as [Hlt|Hge].
  - destruct (FromStringClassic_spec (length zs) a ps H2 H1 HF) as (zs' & -> & C1 & C2 & C3); [|lia|].
    + exists ps', q. split; [done|]. split; [|rewrite HL, Hps, List.last_last; done]. intros Hne'. rewrite HM. destruct (Nat.eqb_spec (length ps) 1) as [He|]; [|done].
      rewrite Hps, length_app in He. simpl in He. destruct ps'; [done|simpl in He; lia].
    + cbn [mbind option_bind]. do 2 eexists. split; [done|]. split_all; done.
  - unfold kFromStringLargeThreshold in Hge. assert (heap_parts_ a = snd <$> ps) as Hh.
    { rewrite <- H1. unfold parts. destruct (Nat.eqb_spec (length (heap_parts_ a)) 0) as [He|]; [|done]. apply (f_equal length) in H1. rewrite length_fmap in H1. unfold parts in H1. rewrite He in H1. simpl in H1.
      destruct H2 as [[[_ Hs]|[Hs _]] _]; change kStackParts with 8%nat in *; lia. }
    assert (1 <= m)%nat as Hm by (apply Hm3; [done|]; intros ->; pose proof (parts_of_length r K [] ps 1 HP ltac:(lia)) as Hc; simpl in Hc; lia).
    apply (FromStringLarge_spec Allocate HA ps (r ^ Z.of_nat K) (r ^ Z.of_nat m) ps' q Hps HF HM' Hm1); try (done || lia).
    + split; [|apply Z.pow_le_mono_r; lia]. transitivity (r ^ 1); [lia|]. apply Z.pow_le_mono_r; lia.
    + rewrite HM. destruct (Nat.eqb_spec (length ps) 1); [lia|done].
    + by rewrite HL, Hps, List.last_last.
Qed.

(** *** Long strings in a radix that is a power of two *)

Lemma holds_number_power b ds g a ps : 1 <= b <= 5 -> let r := 2 ^ b in let K := Z.to_nat (kDigitBits / b) in radix_ok r -> IsPowerOfTwo r = true -> Forall (fun d => 0 <= d < r) ds -> parts_of r K ds ps ->
  reads r K ds (mkAccumulator [] [] 0 g (Z.max kMaxLength 8) kOk false r) a ps -> last_multiplier_ a = kDigitBits - Z.log2 (List.last ps (0, 0)).1 -> holds_number a (horner r ds).
Proof using All.
  intros Hb r K Hr Hp2 HR HP HRd HL. apply reads_initial in HRd as (H1 & H2 & H3 & H4 & H5). apply holds_number_result. intros zs p HZ Hlen Hmax.
  destruct (parts_of_value r K ds ps HP) as [HV _]. rewrite <- HV. pose proof (parts_of_nonempty r K ds ps HP) as Hne. rewrite (ResultLength_parts a H2), H1, length_fmap in Hlen.
  assert (length (stack_parts_ a) <> 0)%nat as Hst.
  { apply (f_equal length) in H1. rewrite length_fmap in H1. unfold parts in H1. destruct H2 as [[[He _]|[He _]] _]; change kStackParts with 8%nat in *; [rewrite He in H1; simpl in H1|]; lia. }
  unfold FromString. rewrite H5, H4, Hp2. rewrite (proj2 (Nat.eqb_neq _ _) Hst). cbv match.
  destruct (FromStringBasePowerOfTwo_spec (length zs) b ds a ps Hb HR HP H1 H4 HL ltac:(lia)) as (F1 & F2 & F3).
  do 2 eexists. split; [done|]. split_all; [done|done|done|intros _; exact F1].
Qed.

(** *** All strings *)

Lemma Parse_spec r cs ds rest g : radix_ok r -> chars_ok cs -> span_digits r cs = (ds, rest) ->
  let '(cs', a) := Parse cs r (new_FromStringAccumulator kMaxLength g) in
  if (Z.of_nat (length cs) <=? kInlineThreshold) || (Z.of_nat (length ds) <=? Z.of_nat (part_chars r) * kMaxLength) then
    cs' = rest /\ result_ a = kOk /\ Z.of_nat (ResultLength a) <= kMaxLength /\ holds_number a (horner r ds)
  else result_ a = kMaxSizeExceeded.
Proof using All.
  intros Hr Hc He. destruct (parse_constants_spec r Hr) as (HK & HK1 & H99 & Hpow & Hpc & Hbits). destruct (span_digits_range r cs ds rest Hr Hc He) as (HR & Hlen & _).
  pose proof (proj1 Hr) as Hr2. unfold Parse, new_FromStringAccumulator. rewrite Hpow. rewrite kMaxLength_eq. change (Z.max 16777215 (Z.of_nat kStackParts)) with (Z.max 16777215 8).
  change (Z.max 16777215 8) with (Z.max kMaxLength 8) at 1. destruct (Z.leb_spec (Z.of_nat (length cs)) kInlineThreshold) as [Hin|Hin]; cbn [negb andb orb].
  - destruct (parse_loop_inline r (multiplier_chars r) (S (length cs)) cs [] [] 0 g (Z.max kMaxLength 8) kOk 0 ds rest Hr Hc HK HK1 ltac:(lia) ltac:(constructor) eq_refl He) as (st & HPl & S1 & S2 & S3).
    change (Z.max 16777215 8) with (Z.max kMaxLength 8). rewrite HPl. simpl in S1. assert (length st <= 8)%nat as Hl8.
    { apply normalized_length; [done|done|]. rewrite S1. pose proof (horner_bounds r ds ltac:(lia) HR) as Hh. change (weight 8) with (2 ^ 512).
      assert (r ^ Z.of_nat (length ds) <= r ^ 99); [|lia]. apply Z.pow_le_mono_r; [lia|]. unfold kInlineThreshold in Hin. change (Z.of_nat kStackParts * kDigitBits * 100 / 517) with 99 in Hin. lia. }
    split_all; [done|done|unfold ResultLength; simpl; lia|]. apply holds_number_result. intros zs p HZ Hlz Hmax. unfold FromString. cbn [inline_everything_ stack_parts_].
    unfold ResultLength in Hlz. simpl in Hlz. do 2 eexists. split; [done|]. rewrite dval_extend, length_extend by lia. split_all; [done|by apply extend_ok|done|intros _; exact S1].
  - assert (Z.max 16777215 8 = 16777215) as Hmx by done. destruct (IsPowerOfTwo r) eqn:Hp.
    + destruct (power_bits_spec r Hr Hp) as [Hrb Hb]. destruct (Hbits eq_refl) as [Hkb Hw8]. unfold ParsePowerTwo. rewrite Hkb, Hw8. set (b := CountTrailingZeros r) in *.
      set (a0 := mkAccumulator [] [] 0 g (Z.max kMaxLength 8) kOk false r).
      assert (acc_ok a0) as Ha0 by (constructor; [by left; split; [|simpl; lia]|done]).
      pose proof (power_two_loop_spec b (S (length cs)) cs a0 ds rest Hb) as HL. cbv zeta in HL. rewrite <- Hrb in HL.
      destruct (HL Hr Hc ltac:(lia) Ha0 He) as (ps & Hps & HL'). clear HL. change (Z.max 16777215 8) with (Z.max kMaxLength 8). fold a0.
      destruct (power_two_loop (S (length cs)) r b cs a0) as [cs' a'].
      assert (part_chars r = Z.to_nat (kDigitBits / b)) as HKr by (unfold part_chars; by rewrite Hp). rewrite <- HKr in *.
      pose proof (parts_of_length r (part_chars r) ds ps (Z.to_nat 16777215) Hps ltac:(lia)) as Hcount. change (max_digits_ a0) with 16777215 in HL'. change (length (parts a0)) with 0%nat in HL'. cbn [Nat.add] in HL'.
      destruct (Z.leb_spec (Z.of_nat (length ps)) 16777215) as [Hle|Hgt].
      * destruct (Z.leb_spec (Z.of_nat (length ds)) (Z.of_nat (part_chars r) * 16777215)); [|lia]. destruct HL' as (-> & HRd & HLm).
        destruct (reads_initial _ _ _ _ _ _ _ _ _ HRd) as (I1 & I2 & I3 & _). split_all; [done|done|rewrite (ResultLength_parts a' I2), I1, length_fmap; lia|].
        pose proof (holds_number_power b ds g a' ps Hb) as HN. cbv zeta in HN. rewrite <- Hrb, <- HKr in HN. by apply HN.
      * destruct (Z.leb_spec (Z.of_nat (length ds)) (Z.of_nat (part_chars r) * 16777215)); [lia|done].
    + set (a0 := mkAccumulator [] [] 0 g (Z.max kMaxLength 8) kOk false 0). change (Z.max 16777215 8) with (Z.max kMaxLength 8). fold a0.
      assert (acc_ok a0) as Ha0 by (constructor; [by left; split; [|simpl; lia]|done]).
      assert (part_chars r = multiplier_chars r) as HKr by (unfold part_chars; by rewrite Hp). rewrite HKr.
      destruct (parse_loop_spec r (multiplier_chars r) (S (length cs)) cs a0 ds rest Hr Hc HK HK1 ltac:(lia) Ha0 eq_refl He) as (ps & Hps & HL').
      destruct (parse_loop (S (length cs)) r cs a0) as [cs' a'].
      pose proof (parts_of_length r (multiplier_chars r) ds ps (Z.to_nat 16777215) Hps ltac:(lia)) as Hcount. change (max_digits_ a0) with 16777215 in HL'. change (length (parts a0)) with 0%nat in HL'. cbn [Nat.add] in HL'.
      destruct (Z.leb_spec (Z.of_nat (length ps)) 16777215) as [Hle|Hgt].
      * destruct (Z.leb_spec (Z.of_nat (length ds)) (Z.of_nat (multiplier_chars r) * 16777215)); [|lia]. destruct HL' as (-> & HRd & HLm & HMm).
        destruct (reads_initial _ _ _ _ _ _ _ _ _ HRd) as (I1 & I2 & I3 & _). split_all; [done|done|rewrite (ResultLength_parts a' I2), I1, length_fmap; lia|].
        apply (holds_number_generic r (multiplier_chars r) ds g a' ps); done || apply HK.
      * destruct (Z.leb_spec (Z.of_nat (length ds)) (Z.of_nat (multiplier_chars r) * 16777215)); [lia|done].
Qed.
(** ** BigInt::Allocate *)

(** The operation ends with the BigInt of [v], unless it is interrupted. *)
Definition gives_bigint {A} (f : bigint -> A) (r : completion A * Processor) (p : Processor) (v : Z) : Prop :=
  (r.1 = Terminated \/ exists x, r.1 = Value (f x) /\ canonical x /\ value x = v) /\
  (undisturbed p -> (exists x, r.1 = Value (f x) /\ canonical x /\ value x = v) /\ undisturbed r.2).

Lemma gives_bigint_value {A} (f : bigint -> A) x p v : canonical x -> value x = v -> gives_bigint f (Value (f x), p) p v.
Proof using All. intros Hx Hv. split; [right; by exists x|]. intros Hp. split; [by exists x|done]. Qed.

Lemma BigInt_Allocate_spec a neg p v : holds_number a v -> Z.of_nat (ResultLength a) <= kMaxLength -> (ResultLength a = 0%nat -> v = 0) ->
  gives_bigint id (BigInt_Allocate Allocate a neg p) p (if neg then - v else v).
Proof using All.
  intros Hh Hl H0. unfold BigInt_Allocate, New. destruct (Z.ltb_spec kMaxLength (Z.of_nat (ResultLength a))); [lia|]. cbn [checked].
  destruct (HA (ResultLength a)) as [HA1 HA2]. destruct (Hh (Allocate (ResultLength a)) p HA1 HA2) as (zs & status & p' & -> & Z1 & Z2 & Z3 & Z4 & Z5).
  { rewrite HA2. pose proof kMaxLength_eq. change kMaxNumDigits with 67108863. lia. }
  rewrite HA2 in Z2. set (s := if (0 <? ResultLength a)%nat then neg else false).
  assert (MakeImmutable s zs = immutable s zs) as HM.
  { apply MakeImmutable_immutable. unfold s. destruct (Nat.ltb_spec 0 (ResultLength a)); [left; intros ->; simpl in Z2; lia|by right]. }
  destruct (immutable_spec s zs Z1 ltac:(lia)) as [I1 I2].
  assert (status = false -> value (immutable s zs) = (if neg then - v else v)) as Hv.
  { intros Hs. rewrite I2. unfold signed. rewrite (Z4 Hs). unfold s. destruct (Nat.ltb_spec 0 (ResultLength a)); [done|]. rewrite H0 by lia. by destruct neg. }
  destruct status; (split; [|intros Hu; specialize (Z5 Hu)]); [by left|by destruct Z5|right|]; rewrite HM; [|split; [|apply Z5]]; (eexists; split; [done|]; split; [done|by apply Hv]).
Qed.

(** ** The text of a BigInt *)

(** [s] is a minus sign for a negative number and the numeral of its absolute value. *)
Definition text_of (r v : Z) (s : list Z) : Prop := exists ds, s = (if v <? 0 then [45] else []) ++ ds /\ numeral_of r (Z.abs v) ds.

Lemma short_decimal_spec (sign : bool) d : digit_ok d -> d <> 0 -> exists ds, short_decimal sign d = Text ((if sign then [45] else []) ++ ds) /\ numeral_of 10 d ds.
Proof using All.
  intros Hd Hn. assert (radix_ok 10) as H10 by (split; lia). destruct (CountLeadingZeros_digit d Hd Hn) as [HC Hlog]. unfold digit_ok in Hd.
  destruct (BasecaseFixedLast_spec 10 d 64 0 [] d H10 ltac:(lia) (printed_0 10 d) Hd) as [n HP].
  unfold short_decimal. set (out := BasecaseFixedLast 64 10 d []) in *. rewrite HC. replace (kDigitBits - (63 - Z.log2 d)) with (Z.log2 d + 1) by (unfold kDigitBits; lia).
  set (bits := Z.log2 d + 1). assert (wrap 32 bits = bits) as -> by (apply Z.mod_small; unfold bits; lia).
  assert (length out = n) as Hlen by (destruct HP as (-> & _); apply length_low_chars).
  assert (Z.of_nat n <= (128 * bits - 1) / 425 + 1) as Hl.
  { apply (printed_length 10 d n out 0 128 425 bits); [lia|exact HP| |unfold bits; lia|lia|lia|by vm_compute].
    split; [lia|]. unfold bits. destruct (Z.log2_spec d ltac:(lia)). by rewrite Z.add_1_r. }
  assert (wrap 32 (Z.shiftl bits 7) = 128 * bits) as -> by (rewrite Z.shiftl_mul_pow2 by lia; unfold wrap; rewrite Z.mod_small; unfold bits; lia).
  assert ((128 * bits - 1) / 425 <= 128 * bits / 425) as Hd1 by (apply Z.div_le_mono; lia).
  assert (0 <= 128 * bits / 425 <= 20) as Hd2 by (unfold bits; split; [apply Z.div_pos; lia|apply Z.div_le_upper_bound; lia]).
  assert (wrap 32 (128 * bits / 425 + 1 + Z.b2z sign) = 128 * bits / 425 + 1 + Z.b2z sign) as -> by (apply Z.mod_small; destruct sign; simpl; lia).
  assert (Z.of_nat (length (if sign then 45 :: out else out)) <= 128 * bits / 425 + 1 + Z.b2z sign) as Hfit by (destruct sign; simpl; lia).
  destruct (Z.ltb_spec (128 * bits / 425 + 1 + Z.b2z sign) (Z.of_nat (length (if sign then 45 :: out else out)))); [lia|].
  exists out. split; [by destruct sign|]. apply (printed_numeral 10 d n out H10); [lia|done].
Qed.

Lemma BigInt_ToString_spec x r st p : canonical x -> radix_ok r ->
  match (BigInt_ToString x r st p).1 with
  | Text s => text_of r (value x) s
  | InvalidStringLength => st = kThrowOnError /\ String_kMaxLength < ToStringResultLength (digits x) r (sign x)
  | NoText => st = kDontThrow /\ String_kMaxLength < ToStringResultLength (digits x) r (sign x)
  | TextTerminated => True
  | TextOverrun => False
  end /\
  (undisturbed p -> (BigInt_ToString x r st p).1 <> TextTerminated /\ undisturbed (BigInt_ToString x r st p).2) /\
  (ToStringResultLength (digits x) r (sign x) <= String_kMaxLength -> (BigInt_ToString x r st p).1 <> InvalidStringLength /\ (BigInt_ToString x r st p).1 <> NoText).
Proof using All.
  intros Hx Hr. pose proof (value_abs x Hx) as Habs. pose proof (value_neg x Hx) as Hneg. unfold BigInt_ToString. destruct (is_zero x) eqn:Hz.
  { apply is_zero_value in Hz; [|done]. cbn [fst snd]. split; [|by split]. rewrite Hz. exists [48]. split; [done|]. by apply numeral_zero. }
  destruct (nonzero_digits x Hx Hz) as (N1 & N2 & N3). pose proof (canonical_digits x Hx) as HO. pose proof (canonical_length x Hx) as Hl. rewrite kMaxLength_eq in Hl.
  assert (forall ds, numeral_of r (dval (digits x)) ds -> text_of r (value x) ((if sign x then [45] else []) ++ ds)) as Htext.
  { intros ds Hds. exists ds. rewrite Habs. split; [|done]. destruct (Z.ltb_spec (value x) 0) as [Hlt|Hge]; [by rewrite (proj1 Hneg Hlt)|]. destruct (sign x); [|done]. pose proof (proj2 Hneg eq_refl). lia. }
  destruct ((length (digits x) =? 1)%nat && (r =? 10)) eqn:Hs.
  - apply andb_true_iff in Hs as [Hs1%Nat.eqb_eq ->%Z.eqb_eq]. cbn [fst snd]. destruct (digits x) as [|d [|]]; [done| |done]. cbn [nth].
    assert (dval [d] = d) as Hdv by (simpl; lia). rewrite Hdv in *. apply Forall_cons in HO as [HO _].
    destruct (short_decimal_spec (sign x) d HO ltac:(lia)) as (ds & -> & Hds). split; [by apply Htext|by split].
  - destruct (Z.ltb_spec String_kMaxLength (ToStringResultLength (digits x) r (sign x))) as [Hgt|Hle].
    { cbn [fst snd]. split; [by destruct st|]. split; [intros Hu; by destruct st|lia]. }
    assert (Z.of_nat (length (digits x)) < 2 ^ 24) as Hl24 by (clear -Hl; lia). assert (0 < dval (digits x)) as Hpos by (clear -N1; lia).
    pose proof (ToString_spec r (digits x) (sign x) p (ToStringResultLength (digits x) r (sign x)) Hr HO Hpos Hl24 (Z.le_refl _)) as HTS.
    destruct HTS as (s & status & p' & HTS & T1 & T2 & T3 & T4). rewrite HTS.
    destruct status; cbn [fst snd]; [split; [done|split; [intros Hu; by destruct (T4 Hu)|done]]|].
    split; [destruct (T3 eq_refl) as (ds & -> & Hds); by apply Htext|]. split; [intros Hu; split; [done|apply (T4 Hu)]|done].
Qed.

End strings.

(** ** The number that a string denotes *)

Section parser.
Context (is_space_separator : Z -> bool).

Local Abbreviation skip_space := (AdvanceToNonspace is_space_separator).

(** Digits of radix [r], one at least, then white space. *)
Definition number_of (r : Z) (t : list Z) : option Z :=
  let '(ds, rest) := span_digits r t in
  match ds, skip_space rest with
  | _ :: _, [] => Some (horner r ds)
  | _, _ => None
  end.

(** A literal without a sign: 0x, 0o and 0b announce the radixes 16, 8 and 2. *)
Definition unsigned_literal (t : list Z) : option Z :=
  match t with
  | c :: x :: t' =>
    if c =? 48 then
      if (x =? 120) || (x =? 88) then number_of 16 t'
      else if (x =? 111) || (x =? 79) then number_of 8 t'
      else if (x =? 98) || (x =? 66) then number_of 2 t'
      else number_of 10 t
    else number_of 10 t
  | _ => number_of 10 t
  end.

(** The grammar StringIntegerLiteral: white space around the literal is ignored, white space
    alone is 0, and a sign goes with decimal digits only. *)
Definition StringIntegerLiteral (s : list Z) : option Z :=
  match skip_space s with
  | [] => Some 0
  | c :: t =>
    if c =? 43 then number_of 10 t
    else if c =? 45 then Z.opp <$> number_of 10 t
    else unsigned_literal (c :: t)
  end.

Lemma char_value_digit r c : radix_ok r -> 0 <= c -> (char_value r c = None <-> isDigit c r = false).
Proof.
  intros Hr Hc. unfold char_value. destruct (Z.ltb_spec 127 c) as [Hgt|Hle].
  - split; [intros _|done]. unfold isDigit. destruct Hr. repeat (apply orb_false_iff; split); rewrite !andb_false_iff, ?Z.leb_gt, ?Z.ltb_ge; lia.
  - assert (forallb (fun r => forallb (fun c => Bool.eqb (r <=? kCharValue.[Z.to_nat c]) (negb (isDigit c r))) (seqZ 0 128)) (seqZ 2 35) = true) as Ht by (vm_compute; reflexivity).
    rewrite forallb_forall in Ht. destruct Hr. specialize (Ht r). rewrite <- list_elem_of_In, elem_of_seqZ in Ht. specialize (Ht ltac:(lia)).
    rewrite forallb_forall in Ht. specialize (Ht c). rewrite <- list_elem_of_In, elem_of_seqZ in Ht. specialize (Ht ltac:(lia)). apply Bool.eqb_prop in Ht. cbv zeta. rewrite Ht.
    by destruct (isDigit c r).
Qed.

Lemma zero_char r : radix_ok r -> char_value r 48 = Some 0.
Proof. intros [Hr _]. unfold char_value. change (127 <? 48) with false. change (kCharValue.[Z.to_nat 48]) with 0. cbv zeta. by destruct (Z.leb_spec r 0); [lia|]. Qed.

(** *** Leading zeros *)

Lemma skip_leading_zeros_spec lz cs :
  match skip_leading_zeros lz cs with
  | None => exists n, cs = replicate n 48
  | Some (lz', cs') => exists n, cs = replicate n 48 ++ cs' /\ lz' = lz || (0 <? n)%nat /\ exists c t, cs' = c :: t /\ c <> 48
  end.
Proof.
  revert lz. induction cs as [|c cs IH]; intros lz; cbn [skip_leading_zeros]; [by exists O|]. destruct (Z.eqb_spec c 48) as [->|Hc].
  - specialize (IH true). destruct (skip_leading_zeros true cs) as [[lz' cs']|].
    + destruct IH as (n & -> & -> & H). exists (S n). split_all; [done|by destruct lz|done].
    + destruct IH as (n & ->). by exists (S n).
  - exists O. split_all; [done|by destruct lz|by exists c, cs].
Qed.

Lemma span_zeros r n cs : radix_ok r -> span_digits r (replicate n 48 ++ cs) = (replicate n 0 ++ (span_digits r cs).1, (span_digits r cs).2).
Proof. intros Hr. induction n as [|n IH]; cbn [replicate app span_digits]; [by destruct (span_digits r cs)|]. by rewrite zero_char, IH. Qed.

Lemma horner_zeros r n ds : horner r (replicate n 0 ++ ds) = horner r ds.
Proof. induction n as [|n IH]; cbn [replicate app]; [done|]. rewrite horner_cons, IH. lia. Qed.

(** The digits that remain after the leading zeros. *)
Definition remaining_number (r : Z) (cs : list Z) : option Z :=
  let '(ds, rest) := span_digits r cs in match skip_space rest with [] => Some (horner r ds) | _ => None end.

Lemma number_of_zeros r n cs : radix_ok r -> (1 <= n)%nat -> number_of r (replicate n 48 ++ cs) = remaining_number r cs.
Proof.
  intros Hr Hn. unfold number_of, remaining_number. rewrite span_zeros by done. destruct (span_digits r cs) as [ds rest]. cbn [fst snd].
  destruct n as [|n]; [lia|]. pose proof (horner_zeros r (S n) ds) as Hh. cbn [replicate app] in *. by rewrite Hh.
Qed.

Lemma number_of_first r c t : radix_ok r -> 0 <= c -> number_of r (c :: t) = if isDigit c r then remaining_number r (c :: t) else None.
Proof.
  intros Hr Hc. pose proof (char_value_digit r c Hr Hc) as Hd. unfold number_of, remaining_number. cbn [span_digits]. destruct (char_value r c) as [d|].
  - destruct (isDigit c r); [by destruct (span_digits r t)|by destruct Hd as [_ Hd]; specialize (Hd eq_refl)].
  - by rewrite (proj1 Hd eq_refl).
Qed.

(** The part of the detection after the prefix. *)
Definition finish_detection (radix_ : Z) (sign_ : Sign) (leading_zero_ : bool) (current : list Z) : StringToIntHelper :=
  match skip_leading_zeros leading_zero_ current with
  | None => mkHelper radix_ sign_ kZero []
  | Some (leading_zero_, current) =>
    let digit := match current with c :: _ => isDigit c radix_ | [] => false end in
    if leading_zero_ && false && negb digit then mkHelper radix_ sign_ kZero current
    else if negb leading_zero_ && negb digit then mkHelper radix_ sign_ kJunk current
    else mkHelper radix_ sign_ kRunning current
  end.

(** The state agrees with the digits of [t]. *)
Definition detects (r : Z) (sg : Sign) (t : list Z) (h : StringToIntHelper) : Prop :=
  h.(radix_) = r /\ h.(sign_) = sg /\
  match h.(state_) with
  | kZero => number_of r t = Some 0
  | kJunk => number_of r t = None
  | kRunning => number_of r t = remaining_number r h.(rest_) /\ chars_ok h.(rest_) /\ (length h.(rest_) <= length t)%nat
  | _ => False
  end.

Lemma finish_detection_spec r sg (lz : bool) cs : radix_ok r -> chars_ok cs -> cs <> [] -> detects r sg (if lz then 48 :: cs else cs) (finish_detection r sg lz cs).
Proof.
  intros Hr Hc Hne. unfold finish_detection, detects. pose proof (skip_leading_zeros_spec lz cs) as H. destruct (skip_leading_zeros lz cs) as [[lz' cs']|].
  - destruct H as (n & -> & -> & c & t & -> & Hc48). rewrite andb_false_r. cbn [andb]. unfold chars_ok in Hc. rewrite Forall_app, Forall_cons in Hc. destruct Hc as (_ & Hc & Ht).
    pose proof (number_of_zeros r (if lz then S n else n) (c :: t) Hr) as Hz. pose proof (number_of_first r c t Hr Hc) as Hf.
    assert (Forall (fun c => 0 <= c) (c :: t)) by by constructor.
    destruct lz, n; cbn [orb Nat.ltb Nat.leb negb andb replicate app] in *; try (cbn [radix_ sign_ state_ rest_]; split_all; [done|done|by apply Hz; lia|done|simpl; rewrite ?length_app; simpl; lia]).
    destruct (isDigit c r); cbn [negb radix_ sign_ state_ rest_]; split_all; try done. 
  - destruct H as (n & ->). cbn [radix_ sign_ state_]. split_all; [done|done|]. replace (if lz then 48 :: replicate n 48 else replicate n 48) with (replicate (if lz then S n else n) 48 ++ []) by (rewrite app_nil_r; by destruct lz).
    rewrite number_of_zeros; [done|done|]. destruct n, lz; (done || lia).
Qed.
(** *** Prefixes *)

(** A letter after the first 0 of a decimal number is junk. *)
Lemma prefixed_decimal x t : In x [120; 88; 111; 79; 98; 66] -> number_of 10 (48 :: x :: t) = None.
Proof. intros H. unfold number_of. cbn [span_digits]. simpl in H. by destruct H as [<-|[<-|[<-|[<-|[<-|[<-|[]]]]]]]. Qed.

Lemma detect_prefix_spec cs : chars_ok cs -> cs <> [] ->
  match detect_prefix 0 true cs with
  | (inl st, r, _) => (st = kZero /\ r = 10 /\ unsigned_literal cs = Some 0 /\ number_of 10 cs = Some 0) \/ (st = kJunk /\ r <> 10 /\ unsigned_literal cs = None /\ number_of 10 cs = None)
  | (inr lz, r, cs') => radix_ok r /\ chars_ok cs' /\ cs' <> [] /\ (length (if lz then 48%Z :: cs' else cs') <= length cs)%nat /\
      number_of r (if lz then 48 :: cs' else cs') = unsigned_literal cs /\ number_of 10 cs = (if r =? 10 then unsigned_literal cs else None)
  end.
Proof.
  intros Hc Hne. destruct cs as [|c cs]; [done|]. unfold detect_prefix. change (0 =? 0) with true. cbv match. pose proof Hc as Hc'. apply Forall_cons in Hc' as [Hc0 Hc1].
  assert (radix_ok 2 /\ radix_ok 8 /\ radix_ok 10 /\ radix_ok 16) as (R2 & R8 & R10 & R16) by (unfold radix_ok; lia).
  destruct cs as [|x t]; [destruct (Z.eqb_spec c 48) as [->|]; [by left|by split_all]|].
  pose proof Hc1 as Hc2. apply Forall_cons in Hc2 as [Hx Ht]. unfold unsigned_literal at 2.
  destruct (Z.eqb_spec c 48) as [->|Hc48]; [|unfold unsigned_literal; rewrite (proj2 (Z.eqb_neq c 48)) by done; by split_all].
  unfold unsigned_literal. change (48 =? 48) with true. cbn [andb]. pose proof (prefixed_decimal x t) as HP. simpl in HP.
  assert (forall r, r <> 10 -> radix_ok r -> number_of 10 (48 :: x :: t) = None ->
    match (match t with [] => (inl kJunk, r, []) | _ => (inr false, r, t) end : (State + bool) * Z * list Z) with
    | (inl st, r, _) => (st = kZero /\ r = 10 /\ number_of r t = Some 0 /\ number_of 10 (48 :: x :: t) = Some 0) \/ (st = kJunk /\ r <> 10 /\ number_of r t = None /\ number_of 10 (48 :: x :: t) = None)
    | (inr lz, r, cs') => radix_ok r /\ chars_ok cs' /\ cs' <> [] /\ (length (if lz then 48%Z :: cs' else cs') <= length (48%Z :: x :: t))%nat /\
      number_of r (if lz then 48 :: cs' else cs') = number_of r t /\ number_of 10 (48 :: x :: t) = (if r =? 10 then number_of r t else None)
    end) as Hended.
  { intros r Hr10 Hr HN. rewrite HN. destruct t; [by right|]. split_all; [done|done|done|simpl; lia|done|]. by rewrite (proj2 (Z.eqb_neq r 10)). }
  destruct ((x =? 120) || (x =? 88)) eqn:E1; [|destruct ((x =? 111) || (x =? 79)) eqn:E2; [|destruct ((x =? 98) || (x =? 66)) eqn:E3]].
  - specialize (Hended 16 ltac:(done) R16 ltac:(apply HP; apply orb_true_iff in E1 as [E1%Z.eqb_eq|E1%Z.eqb_eq]; lia)). by destruct t.
  - specialize (Hended 8 ltac:(done) R8 ltac:(apply HP; apply orb_true_iff in E2 as [E2%Z.eqb_eq|E2%Z.eqb_eq]; lia)). by destruct t.
  - specialize (Hended 2 ltac:(done) R2 ltac:(apply HP; apply orb_true_iff in E3 as [E3%Z.eqb_eq|E3%Z.eqb_eq]; lia)). by destruct t.
  - by split_all.
Qed.

(** *** The detection *)

Definition negate (neg : bool) (v : Z) : Z := if neg then - v else v.

Definition signed_sign (sg : Sign) : bool := match sg with kNone => false | _ => true end.

(** What the detection says about the number: radix and sign decide with the state. *)
Definition detected (s : list Z) (h : StringToIntHelper) : Prop :=
  (signed_sign h.(sign_) = true -> h.(radix_) <> 10 -> StringIntegerLiteral s = None) /\
  (signed_sign h.(sign_) && negb (h.(radix_) =? 10) = false ->
  match h.(state_) with
  | kEmpty | kZero => StringIntegerLiteral s = Some 0
  | kJunk => StringIntegerLiteral s = None
  | kRunning => radix_ok h.(radix_) /\ chars_ok h.(rest_) /\ (length h.(rest_) <= length s)%nat /\
      StringIntegerLiteral s = negate (negative h) <$> remaining_number h.(radix_) h.(rest_)
  | _ => False
  end).

Lemma AdvanceToNonspace_suffix s : chars_ok s -> chars_ok (skip_space s) /\ (length (skip_space s) <= length s)%nat.
Proof. intros Hs. induction Hs as [|c s Hc Hs [IH1 IH2]]; [by split; [constructor|]|]. cbn [AdvanceToNonspace]. destruct (negb _); [by split; [constructor|]|]. split; [done|simpl; lia]. Qed.

Lemma detected_literal sg t s : chars_ok t -> t <> [] -> (length t <= length s)%nat ->
  StringIntegerLiteral s = (if signed_sign sg then negate (match sg with kNegative => true | _ => false end) <$> number_of 10 t else unsigned_literal t) ->
  detected s (match detect_prefix 0 true t with
    | (inl state, radix_, current) => mkHelper radix_ sg state current
    | (inr leading_zero_, radix_, current) => finish_detection radix_ sg leading_zero_ current
    end).
Proof.
  intros Ht Hne Hl Hs. pose proof (detect_prefix_spec t Ht Hne) as HP. destruct (detect_prefix 0 true t) as [[[st|lz] r] cs'].
  - unfold detected, negative. cbn [sign_ radix_ state_ rest_]. destruct HP as [(-> & -> & H1 & H2)|(-> & Hr & H1 & H2)].
    + split; [done|]. intros _. rewrite Hs. destruct (signed_sign sg); [|done]. rewrite H2. by destruct sg.
    + rewrite Hs. destruct (signed_sign sg); rewrite ?H2; by split.
  - destruct HP as (Hr & Hc & Hne' & Hl' & H1 & H2).
    destruct (finish_detection_spec r sg lz cs' Hr Hc Hne') as (E1 & E2 & E3). unfold detected. rewrite E1, E2. rewrite H1 in E3. split.
    + intros Hsg Hr10. rewrite Hs, Hsg, H2. by rewrite (proj2 (Z.eqb_neq r 10)).
    + intros Hok. assert (StringIntegerLiteral s = negate (negative (finish_detection r sg lz cs')) <$> unsigned_literal t) as Hs'.
      { rewrite Hs. unfold negative. rewrite E2. destruct (signed_sign sg) eqn:Hsg.
        - rewrite H2. by destruct (r =? 10).
        - destruct sg; try done. by destruct (unsigned_literal t). }
      destruct (state_ (finish_detection r sg lz cs')); try done; rewrite Hs'.
      * destruct E3 as (E3 & E4 & E5). rewrite E3. split_all; [done|done|lia|done].
      * by rewrite E3.
      * rewrite E3. unfold negate. simpl. by destruct (negative _).
Qed.

Lemma DetectRadixInternal_spec s : chars_ok s -> detected s (DetectRadixInternal is_space_separator 0 true false s).
Proof.
  intros Hs. destruct (AdvanceToNonspace_suffix s Hs) as [H1 H2]. unfold DetectRadixInternal. pose proof (eq_refl (StringIntegerLiteral s)) as HL. unfold StringIntegerLiteral at 2 in HL.
  destruct (skip_space s) as [|c t]; [by split|]. assert (chars_ok t) as Ht by (by inversion H1).
  assert (forall sg cs, chars_ok cs -> (length cs <= length s)%nat -> StringIntegerLiteral s = (if signed_sign sg then negate (match sg with kNegative => true | _ => false end) <$> number_of 10 cs else unsigned_literal cs) ->
    (cs = [] -> signed_sign sg = true) ->
    detected s (match cs with [] => mkHelper 0 kNone kJunk [] | _ => match detect_prefix 0 true cs with
    | (inl state, radix_, current) => mkHelper radix_ sg state current
    | (inr leading_zero_, radix_, current) => finish_detection radix_ sg leading_zero_ current end end)) as Hcase.
  { intros sg cs Hc Hl HS Hsg. destruct cs as [|x cs]; [|by apply detected_literal]. split; [done|]. intros _. cbn [state_]. rewrite HS, Hsg by done. done. }
  simpl length in H2. destruct (c =? 43); [|destruct (c =? 45)].
  - apply (Hcase kPositive t); [done|lia|rewrite HL; by destruct (number_of 10 t)|done].
  - apply (Hcase kNegative t); [done|lia|done|done].
  - by apply (Hcase kNone (c :: t)).
Qed.
End parser.

(** ** The BigInt of a string *)

Section conversion.
Context (is_space_separator : Z -> bool) (Allocate : nat -> list Z).
Context (HA : forall n, digits_ok (Allocate n) /\ length (Allocate n) = n).

(** The result without digits holds 0. *)
Lemma holds_number_empty a v : holds_number Allocate a v -> ResultLength a = 0%nat -> v = 0.
Proof using All.
  intros Hh H0. destruct (Hh [] quiet ltac:(constructor) ltac:(done) ltac:(done)) as (zs & st & p' & _ & _ & Hl & _ & Hv & Hu).
  destruct (Hu quiet_undisturbed) as [-> _]. rewrite <- (Hv eq_refl). by destruct zs.
Qed.

Lemma long_parts : forallb (fun r => (16 <=? part_chars r)%nat) [2; 8; 10; 16] = true.
Proof. vm_compute. reflexivity. Qed.

Lemma ParseInternal_spec r cs g : radix_ok r -> In r [2; 8; 10; 16] -> chars_ok cs -> Z.of_nat (length cs) <= 16 * kMaxLength ->
  match remaining_number is_space_separator r cs, ParseInternal is_space_separator kStringToBigInt g r cs with
  | None, (st, _) => st = kJunk
  | Some v, (st, a) => st = kDone /\ holds_number Allocate a v /\ Z.of_nat (ResultLength a) <= kMaxLength
  end.
Proof using All.
  intros Hr Hin Hc Hl. unfold remaining_number, ParseInternal. destruct (span_digits r cs) as [ds rest] eqn:He.
  pose proof (Parse_spec Allocate HA r cs ds rest g Hr Hc He) as HP. destruct (span_digits_range r cs ds rest Hr Hc He) as (_ & Hlen & _).
  pose proof long_parts as HL. rewrite forallb_forall in HL. specialize (HL r Hin). apply Nat.leb_le in HL.
  destruct (Parse cs r (new_FromStringAccumulator kMaxLength g)) as [cs' a]. rewrite kMaxLength_eq in *.
  assert ((Z.of_nat (length ds) <=? Z.of_nat (part_chars r) * 16777215) = true) as Hle by (apply Z.leb_le; nia). rewrite Hle, orb_true_r in HP.
  destruct HP as (-> & -> & H1 & H2). destruct (AdvanceToNonspace is_space_separator rest); [by split_all|done].
Qed.

Lemma completes_with {A B} (f : A -> B) (r : completion A * Processor) : (let '(r, p) := r in (r ≫= fun x => Value (f x), p)) = (r.1 ≫= (fun x => Value (f x)), r.2).
Proof using All. by destruct r. Qed.

Lemma gives_bigint_bind {A} (f : bigint -> A) r p v : gives_bigint id r p v -> gives_bigint f (r.1 ≫= (fun x => Value (f x)), r.2) p v.
Proof using All.
  intros [H1 H2]. split; cbn [fst snd].
  - destruct H1 as [->|(x & -> & H)]; [by left|right; by exists x].
  - intros Hu. destruct (H2 Hu) as [(x & -> & H) H3]. split; [by exists x|done].
Qed.

Lemma detected_radix s : In (DetectRadixInternal is_space_separator 0 true false s).(radix_) [0; 2; 8; 10; 16].
Proof using All.
  unfold DetectRadixInternal. destruct (AdvanceToNonspace is_space_separator s) as [|c t]; [by left|].
  destruct (if c =? 43 then _ else _) as [sg cs]. destruct cs as [|x cs]; [by left|].
  assert (In (detect_prefix 0 true (x :: cs)).1.2 [2; 8; 10; 16]) as H.
  { unfold detect_prefix. change (0 =? 0) with true. cbv match. repeat (case_match; simplify_eq/=; auto 6). }
  destruct (detect_prefix 0 true (x :: cs)) as [[[st|lz] r] cs']; [right; exact H|]. cbn [fst snd] in H.
  destruct (skip_leading_zeros lz cs') as [[lz' cs'']|]; [|right; exact H]. cbv zeta. destruct (_ && _ && _); [right; exact H|]. destruct (_ && _); right; exact H.
Qed.

Lemma StringToBigInt_spec g s p : chars_ok s -> Z.of_nat (length s) <= 16 * kMaxLength ->
  match StringIntegerLiteral is_space_separator s with
  | None => StringToBigInt is_space_separator Allocate g s p = (Value None, p)
  | Some v => gives_bigint Some (StringToBigInt is_space_separator Allocate g s p) p v
  end.
Proof using All.
  intros Hs Hl. unfold StringToBigInt, GetResult, ParseInt. cbn [is_string_to_bigint negb andb].
  pose proof (DetectRadixInternal_spec is_space_separator s Hs) as [D1 D2]. pose proof (detected_radix s) as Hin. set (h := DetectRadixInternal is_space_separator 0 true false s) in *.
  assert (forall (h' : StringToIntHelper), h'.(sign_) = h.(sign_) -> h'.(radix_) = h.(radix_) -> signed_sign h.(sign_) && negb (h.(radix_) =? 10) = true ->
    (match h'.(sign_) with kNone => false | _ => true end) && negb (h'.(radix_) =? 10) = true) as Hsame by (by intros h' -> ->).
  destruct (signed_sign h.(sign_) && negb (h.(radix_) =? 10)) eqn:Hsg.
  { pose proof Hsg as [Hsg1 Hsg2]%andb_true_iff. rewrite D1; [|done|by apply negb_true_iff, Z.eqb_neq in Hsg2].
    destruct (state_ h) eqn:Hst; try (by rewrite Hsame). destruct (ParseInternal _ _ _ _ _) as [st a]. by rewrite Hsame. }
  clear Hsame. specialize (D2 eq_refl). unfold signed_sign in Hsg.
  destruct (state_ h) eqn:Hst; try done; rewrite ?Hsg, ?Hst, ?D2.
  - destruct D2 as (Hr & Hc & Hlr & ->). pose proof (ParseInternal_spec (radix_ h) (rest_ h) g Hr) as HP.
    specialize (HP ltac:(destruct Hin as [Hin|Hin]; [destruct Hr; lia|done]) Hc ltac:(lia)).
    destruct (ParseInternal is_space_separator kStringToBigInt g (radix_ h) (rest_ h)) as [st a]. cbn [sign_ radix_]. rewrite Hsg. cbn [state_].
    destruct (remaining_number is_space_separator (radix_ h) (rest_ h)) as [v|]; cbn [fmap option_fmap option_map].
    + destruct HP as (-> & HP1 & HP2). rewrite completes_with. apply gives_bigint_bind. apply BigInt_Allocate_spec; [done|done|done|]. by apply holds_number_empty.
    + by rewrite HP.
  - by destruct h.
  - apply (gives_bigint_value Allocate HA); [by apply canonicalb_canonical|done].
  - apply (gives_bigint_value Allocate HA); [by apply canonicalb_canonical|done].
Qed.
End conversion.
