(* ===== verification/BigIntStringProperties.v ===== *)
(** The properties of the conversions between BigInts and strings. *)
From S2P Require Import Prelude Conversions JSHeap Digits DigitsLinear DigitsMultiply DigitDivision DigitsDivide DigitsBitwise Karatsuba Burnikel BigIntObjects BigIntTheorems BigIntNumerals BigIntPrinting BigIntParsing BigIntStrings BigIntProperties BigIntStringTheorems.

(** ** The length of the text *)

Lemma ToStringResultLength_bound r X (sign : bool) : radix_ok r -> digits_ok X -> 0 < dval X -> Z.of_nat (length X) < 2 ^ 24 ->
  ToStringResultLength X r sign <= 64 * Z.of_nat (length X) + 3 /\ (r = 10 -> ToStringResultLength X r sign <= 20 * Z.of_nat (length X) + 3).
Proof.
  intros Hr HA H0 Hl. destruct (BitLength_digits_spec X HA H0 Hl) as [Hb Hv]. unfold ToStringResultLength.
  set (bits := BitLength_digits X) in *. assert (0 <= Z.b2z sign <= 1) as Hs by (destruct sign; simpl; lia). pose proof (proj1 Hr) as Hr2.
  destruct (IsPowerOfTwo r) eqn:Hp.
  - destruct (power_bits_spec r Hr Hp) as [He Hc]. set (b := CountTrailingZeros r) in *.
    assert (0 <= (bits - 1) / b <= bits - 1) by (split; [apply Z.div_pos; lia|apply Z.div_le_upper_bound; nia]).
    rewrite DIV_CEIL_exact by lia. unfold wrap. rewrite !Z.mod_small by (rewrite ?Z.mod_small; lia). split; [lia|]. intros ->. by vm_compute in Hp.
  - pose proof (radix_constants_spec r Hr Hp) as HC. destruct (Start r) as [cc cd]. destruct HC as (_ & _ & _ & Hmax & Hm). set (m := max_bits_per_char r - 1) in *.
    assert (0 <= (32 * bits - 1) / m <= bits) by (split; [apply Z.div_pos; unfold m; lia|apply Z.div_le_upper_bound; unfold m; nia]).
    unfold kBitsPerCharTableMultiplier. rewrite (Z.mul_comm bits). assert (wrap 64 (32 * bits) = 32 * bits) as -> by (apply Z.mod_small; lia).
    rewrite DIV_CEIL_exact by (unfold m in *; lia). unfold wrap. rewrite !Z.mod_small by (rewrite ?Z.mod_small; lia). split; [lia|].
    intros ->. assert (m = 106) as -> by (by vm_compute). assert ((32 * bits - 1) / 106 <= 20 * Z.of_nat (length X)) by (apply Z.div_le_upper_bound; lia). lia.
Qed.

(** The text of a BigInt fits a string: for every radix up to 2 ^ 21 digits, for radix 10 always. *)
Lemma text_fits x r : canonical x -> is_zero x = false -> radix_ok r -> (Z.of_nat (length (digits x)) <= 2 ^ 21 \/ r = 10) ->
  ToStringResultLength (digits x) r (sign x) <= String_kMaxLength.
Proof.
  intros Hx Hz Hr Hl. destruct (nonzero_digits x Hx Hz) as (N1 & _). pose proof (canonical_length x Hx) as Hm. rewrite kMaxLength_eq in Hm.
  destruct (ToStringResultLength_bound r (digits x) (sign x) Hr (canonical_digits x Hx) ltac:(lia) ltac:(lia)) as [H1 H2].
  change String_kMaxLength with 536870888. destruct Hl as [Hl|Hl]; [lia|specialize (H2 Hl); lia].
Qed.

Lemma numeral_text_length r v s k : radix_ok r -> numeral_of r v s -> 0 < v < 2 ^ k -> 0 <= k -> Z.of_nat (length s) <= k.
Proof.
  intros Hr Hs [Hv Hk] Hk0. pose proof Hs as [(ds & -> & HF & Hh) _ _]. destruct (numeral_bounds r v ds Hr Hv Hs HF Hh) as (n & Hn & Hb & _).
  rewrite length_fmap, Hn. pose proof (Z.pow_le_mono_l 2 r (Z.of_nat n) ltac:(unfold radix_ok in Hr; lia)).
  assert (2 ^ Z.of_nat n < 2 ^ k) as Hlt by lia. apply Z.pow_lt_mono_r_iff in Hlt; lia.
Qed.

(** ** Numerals as literals *)

Section literals.
Context (is_space_separator : Z -> bool).

Lemma span_digits_chars r ds : radix_ok r -> Forall (fun d => 0 <= d < r) ds -> span_digits r (conversion_char <$> ds) = (ds, []).
Proof.
  intros Hr. induction ds as [|d ds IH]; [done|]. intros [Hd HF]%Forall_cons. rewrite fmap_cons. cbn [span_digits].
  rewrite (conversion_char_value r d Hd ltac:(apply Hr)), IH by done. done.
Qed.

Lemma number_of_numeral r v s : radix_ok r -> numeral_of r v s -> number_of is_space_separator r s = Some v.
Proof.
  intros Hr [(ds & -> & HF & <-) Hn _]. unfold number_of. rewrite span_digits_chars by done. by destruct ds.
Qed.

Lemma decimal_chars v s : numeral_of 10 v s -> Forall (fun c => 48 <= c <= 57) s.
Proof.
  intros [(ds & -> & HF & _) _ _]. apply Forall_fmap. eapply Forall_impl; [exact HF|]. intros d Hd. cbv beta in Hd. cbn [compose].
  assert (forallb (fun d => (48 <=? conversion_char d) && (conversion_char d <=? 57)) (seqZ 0 10) = true) as Ht by (vm_compute; reflexivity).
  rewrite forallb_forall in Ht. specialize (Ht d). rewrite <- list_elem_of_In, elem_of_seqZ in Ht. specialize (Ht ltac:(lia)). apply andb_true_iff in Ht. lia.
Qed.

Lemma numeral_chars_ok r v s : radix_ok r -> numeral_of r v s -> chars_ok s.
Proof.
  intros Hr [(ds & -> & HF & _) _ _]. apply Forall_fmap. eapply Forall_impl; [exact HF|]. intros d Hd. cbv beta in Hd. cbn [compose].
  unfold radix_ok in Hr. destruct (conversion_char_range d ltac:(lia)); lia.
Qed.

Lemma text_chars_ok r v s : radix_ok r -> text_of r v s -> chars_ok s.
Proof. intros Hr (ds & -> & Hds). apply Forall_app. split; [destruct (v <? 0); by repeat constructor|by apply (numeral_chars_ok r (Z.abs v))]. Qed.

Lemma literal_no_space c t : 33 <= c <= 127 -> AdvanceToNonspace is_space_separator (c :: t) = c :: t.
Proof.
  intros Hc. cbn [AdvanceToNonspace]. unfold IsWhiteSpaceOrLineTerminator, IsOneByteWhitespace.
  rewrite (proj2 (Z.leb_le 0 c)), (proj2 (Z.leb_le c 255)), !(proj2 (Z.eqb_neq c _)) by lia. done.
Qed.

Lemma literal_of_text v s : text_of 10 v s -> StringIntegerLiteral is_space_separator s = Some v.
Proof.
  assert (radix_ok 10) as H10 by (unfold radix_ok; lia). intros (ds & -> & Hds). pose proof (number_of_numeral 10 _ ds H10 Hds) as Hn. unfold StringIntegerLiteral.
  destruct (Z.ltb_spec v 0) as [Hv|Hv]; cbn [app].
  - rewrite literal_no_space by lia. cbn [Z.eqb]. change (45 =? 43) with false. change (45 =? 45) with true. cbv match. rewrite Hn. cbn [fmap option_fmap option_map]. f_equal. lia.
  - pose proof (decimal_chars _ _ Hds) as HF. destruct Hds as [_ Hne Hz]. destruct ds as [|c t]; [done|]. pose proof HF as [Hc _]%Forall_cons.
    rewrite literal_no_space by lia. rewrite (proj2 (Z.eqb_neq c 43)), (proj2 (Z.eqb_neq c 45)) by lia. rewrite Z.abs_eq in Hn by lia.
    unfold unsigned_literal. destruct t as [|x t]; [done|]. destruct (Z.eqb_spec c 48) as [->|]; [|done]. by specialize (Hz eq_refl).
Qed.

(** 0b, 0o and 0x. *)
Definition literal_prefixes : list (Z * list Z) := [(2, [48; 98]); (8, [48; 111]); (16, [48; 120])].

Lemma literal_of_prefixed r prefix v s : In (r, prefix) literal_prefixes -> numeral_of r v s -> StringIntegerLiteral is_space_separator (prefix ++ s) = Some v.
Proof.
  intros Hin Hs. assert (radix_ok r) as Hr by (simpl in Hin; destruct Hin as [[= <- _]|[[= <- _]|[[= <- _]|[]]]]; unfold radix_ok; lia).
  pose proof (number_of_numeral r v s Hr Hs) as Hn. unfold StringIntegerLiteral.
  simpl in Hin. destruct Hin as [[= <- <-]|[[= <- <-]|[[= <- <-]|[]]]]; cbn [app]; rewrite literal_no_space by lia; exact Hn.
Qed.
End literals.

Section texts.
Context (is_space_separator : Z -> bool) (Allocate : nat -> list Z) (HA : allocates Allocate).

(** The text, when nothing interrupts the conversion. *)
Lemma printed_text x r st p : canonical x -> radix_ok r -> undisturbed p -> (Z.of_nat (length (digits x)) <= 2 ^ 21 \/ r = 10) ->
  exists s p', BigInt_ToString x r st p = (Text s, p') /\ text_of r (value x) s /\ undisturbed p' /\ Z.of_nat (length s) <= 64 * Z.of_nat (length (digits x)) + 3.
Proof using All.
  intros Hx Hr Hu Hl. destruct (BigInt_ToString_spec Allocate HA x r st p Hx Hr) as (H1 & H2 & H3). destruct (H2 Hu) as [H4 H5].
  destruct (is_zero x) eqn:Hz.
  - unfold BigInt_ToString in *. rewrite Hz in *. do 2 eexists. split; [done|]. split; [exact H1|]. split; [done|simpl; lia].
  - pose proof (text_fits x r Hx Hz Hr Hl) as Hf. destruct (H3 Hf) as [H6 H7]. destruct (BigInt_ToString x r st p) as [t p'] eqn:He. cbn [fst snd] in *.
    destruct t as [s| | | |]; [|done..]. exists s, p'. split_all; [done|done|done|].
    destruct (nonzero_digits x Hx Hz) as (N1 & _). destruct (dval_bounds (digits x) (canonical_digits x Hx)) as [_ Hb].
    rewrite weight_pow2, <- (value_abs x Hx) in Hb. rewrite <- (value_abs x Hx) in N1. destruct H1 as (ds & -> & Hds).
    pose proof (numeral_text_length r _ ds (64 * Z.of_nat (length (digits x))) Hr Hds ltac:(unfold kDigitBits in Hb; lia) ltac:(lia)).
    rewrite length_app. destruct (value x <? 0); simpl; lia.
Qed.

(** The literal of a BigInt is read as that BigInt. *)
Lemma StringToBigInt_reads garbage x s p : canonical x -> undisturbed p -> chars_ok s -> Z.of_nat (length s) <= 16 * kMaxLength ->
  StringIntegerLiteral is_space_separator s = Some (value x) -> (StringToBigInt is_space_separator Allocate garbage s p).1 = Value (Some x).
Proof using All.
  intros Hx Hu Hs Hl HL. pose proof (StringToBigInt_spec is_space_separator Allocate HA garbage s p Hs Hl) as H. rewrite HL in H.
  destruct H as [_ H]. destruct (H Hu) as [(y & -> & Hy & Hv) _]. by rewrite (canonical_unique y x Hy Hx Hv).
Qed.
End texts.

(** ** BigInts beyond the parser *)

(** Its decimal text needs more parts of 19 characters than the parser allows. *)
Definition beyond_parser (x : bigint) : Prop := 10 ^ (19 * kMaxLength) <= Z.abs (value x).

Lemma numeral_long r v s k : radix_ok r -> numeral_of r v s -> 0 <= k -> r ^ k <= v -> k < Z.of_nat (length s).
Proof.
  intros Hr Hs Hk Hv. pose proof (Z.pow_pos_nonneg r k ltac:(unfold radix_ok in Hr; lia) Hk). pose proof Hs as [(ds & -> & HF & Hh) _ _].
  destruct (numeral_bounds r v ds Hr ltac:(lia) Hs HF Hh) as (n & Hn & _ & Hb). rewrite length_fmap, Hn.
  assert (r ^ k < r ^ Z.of_nat (S n)) as Hlt by lia. apply Z.pow_lt_mono_r_iff in Hlt; [done|unfold radix_ok in Hr; lia|lia].
Qed.

(** The decimal text is detected as a decimal number without leading zeros. *)
Lemma DetectRadixInternal_text is_space_separator v s : v <> 0 -> text_of 10 v s ->
  exists sg ds, numeral_of 10 (Z.abs v) ds /\ DetectRadixInternal is_space_separator 0 true false s = mkHelper 10 sg kRunning ds.
Proof.
  intros Hv (ds & -> & Hds). assert (radix_ok 10) as H10 by (unfold radix_ok; lia). pose proof (decimal_chars _ _ Hds) as HF. pose proof Hds as [(nds & Hnds & HFn & Hh) Hne Hz].
  destruct ds as [|c t]; [done|]. pose proof HF as [Hc _]%Forall_cons.
  assert (c <> 48) as Hc48.
  { intros ->. specialize (Hz eq_refl). injection Hz as ->. destruct nds as [|d [|]]; [done| |done]. injection Hnds as Hd. symmetry in Hd. apply Forall_cons in HFn as [Hd0 _].
    apply conversion_char_range in Hd; [|lia]. subst d. unfold horner in Hh. simpl in Hh. lia. }
  assert (forall sg, (match detect_prefix 0 true (c :: t) with
    | (inl state, radix_, current) => mkHelper radix_ sg state current
    | (inr leading_zero_, radix_, current) => finish_detection radix_ sg leading_zero_ current
    end) = mkHelper 10 sg kRunning (c :: t)) as Hcase.
  { intros sg. unfold detect_prefix. change (0 =? 0) with true. cbv match. rewrite (proj2 (Z.eqb_neq c 48)) by done. unfold finish_detection. cbn [skip_leading_zeros].
    rewrite (proj2 (Z.eqb_neq c 48)) by done. cbn [andb negb]. assert (isDigit c 10 = true) as ->; [|done].
    unfold isDigit. rewrite (proj2 (Z.leb_le 48 c)), (proj2 (Z.leb_le c 57)), (proj2 (Z.ltb_lt c _)) by lia. done. }
  unfold DetectRadixInternal. destruct (Z.ltb_spec v 0); cbn [app]; rewrite literal_no_space by lia.
  - exists kNegative, (c :: t). split; [done|]. apply Hcase.
  - rewrite (proj2 (Z.eqb_neq c 43)), (proj2 (Z.eqb_neq c 45)) by lia. exists kNone, (c :: t). split; [done|]. apply Hcase.
Qed.

(** [n] digits of ones. *)
Definition filled (n : nat) : bigint := {| sign := false; digits := replicate n (digit_base - 1) |}.

Lemma filled_value n : value (filled n) = weight n - 1.
Proof. unfold value, filled, signed. cbn [sign digits]. induction n as [|n IH]; [done|]. cbn [replicate dval]. rewrite weight_S. nia. Qed.

Lemma filled_canonical n : Z.of_nat n <= kMaxLength -> canonical (filled n).
Proof.
  intros Hn. constructor; cbn [filled sign digits]; [apply Forall_replicate; done| |done|by rewrite length_replicate].
  unfold IsDigitNormalized, msd. destruct n as [|n]; [done|]. rewrite length_replicate. rewrite replicate_S_end, app_nth2, length_replicate by (rewrite length_replicate; lia).
  by replace (S n - 1 - n)%nat with O by lia.
Qed.

(** ** Properties *)

(** C17. BigInt::ToString gives the numeral of the absolute value, after a minus sign for a negative number; the buffer it computes from tables of bits per character is never too small; it fails for texts that its bound puts beyond the longest string, which never happens in radix 10 nor up to 2^21 digits, and it ends without text when the processor is interrupted, and only then. The build is the one without V8_ADVANCED_BIGINT_ALGORITHMS. *)
Theorem bigint_to_string x r st p : canonical x -> radix_ok r ->
  let '(t, p') := BigInt_ToString x r st p in
  match t with
  | Text s => text_of r (value x) s
  | InvalidStringLength => st = kThrowOnError /\ String_kMaxLength < ToStringResultLength (digits x) r (sign x)
  | NoText => st = kDontThrow /\ String_kMaxLength < ToStringResultLength (digits x) r (sign x)
  | TextTerminated => ~ undisturbed p
  | TextOverrun => False
  end /\
  (Z.of_nat (length (digits x)) <= 2 ^ 21 \/ r = 10 -> t <> InvalidStringLength /\ t <> NoText) /\
  (undisturbed p -> undisturbed p').
Proof.
  intros Hx Hr. destruct (BigInt_ToString_spec uninitialised uninitialised_allocates x r st p Hx Hr) as (H1 & H2 & H3). destruct (BigInt_ToString x r st p) as [t p'] eqn:He. cbn [fst snd] in *.
  split_all; [|intros Hl|intros Hu; apply (H2 Hu)].
  - destruct t; try done. intros Hu. by destruct (H2 Hu).
  - destruct (is_zero x) eqn:Hz; [|by apply H3, text_fits]. unfold BigInt_ToString in He. rewrite Hz in He. by injection He as <- _.
Qed.

Example bigint_to_string_witness : let x := {| sign := true; digits := test_digits 9 5 |} in
  canonical x /\ exists s p', BigInt_ToString x 36 kThrowOnError quiet = (Text s, p') /\ text_of 36 (value x) s.
Proof.
  assert (canonical {| sign := true; digits := test_digits 9 5 |}) as Hx by concrete. split; [exact Hx|].
  pose proof (bigint_to_string {| sign := true; digits := test_digits 9 5 |} 36 kThrowOnError quiet Hx ltac:(split; lia)) as H.
  revert H. generalize (BigInt_ToString {| sign := true; digits := test_digits 9 5 |} 36 kThrowOnError quiet) as o. intros [t p'] (H1 & H2 & _).
  destruct H2 as [H3 H4]; [left; vm_compute; discriminate|]. exists (match t with Text s => s | _ => [] end), p'.
  destruct t as [s| | | |]; [split; [reflexivity|exact H1]|congruence|congruence|destruct (H1 quiet_undisturbed)|destruct H1].
Defined.

(** C15. On texts of at most 16 * kMaxLength characters, BigInt(string) accepts the grammar StringIntegerLiteral and gives the number that the text denotes, unless an interrupt ends the conversion; when nothing interrupts it, == and < of a BigInt and a string compare with that number. *)
Theorem string_to_bigint is_space_separator Allocate garbage s p : allocates Allocate -> chars_ok s -> Z.of_nat (length s) <= 16 * kMaxLength ->
  match StringIntegerLiteral is_space_separator s with
  | None => StringToBigInt is_space_separator Allocate garbage s p = (Value None, p)
  | Some v => gives_bigint Some (StringToBigInt is_space_separator Allocate garbage s p) p v
  end /\
  (undisturbed p -> forall x, canonical x ->
    (EqualToString is_space_separator Allocate garbage x s p).1 = Value (match StringIntegerLiteral is_space_separator s with Some v => value x =? v | None => false end) /\
    (CompareToString is_space_separator Allocate garbage x s p).1 = Value (match StringIntegerLiteral is_space_separator s with Some v => order (value x) v | None => kUndefined end)).
Proof.
  intros HA Hs Hl. pose proof (StringToBigInt_spec is_space_separator Allocate HA garbage s p Hs Hl) as H. split; [exact H|]. intros Hu x Hx.
  unfold EqualToString, CompareToString. destruct (StringIntegerLiteral is_space_separator s) as [v|]; [|by rewrite H].
  destruct H as [_ H]. destruct (H Hu) as [(y & Hy & Hc & Hv) _]. destruct (StringToBigInt _ _ _ _ _) as [r p']. cbn [fst] in *. rewrite Hy. cbn [fst mbind completion_bind].
  rewrite EqualToBigInt_spec, CompareToBigInt_spec, Hv by done. done.
Qed.

(** " -12
" *)
Example string_to_bigint_witness : let s := [32; 45; 49; 50; 10] in
  StringIntegerLiteral (fun _ => false) s = Some (-12) /\ exists x p', StringToBigInt (fun _ => false) uninitialised 7 s quiet = (Value (Some x), p') /\ value x = -12.
Proof.
  destruct (string_to_bigint (fun _ => false) uninitialised 7 [32; 45; 49; 50; 10] quiet uninitialised_allocates ltac:(by repeat constructor) ltac:(vm_compute; discriminate)) as [[_ H] _].
  split; [vm_compute; reflexivity|]. destruct (H quiet_undisturbed) as [(x & Hx & _ & Hv) _]. destruct (StringToBigInt _ _ _ _ quiet) as [r p'] eqn:He. exists x, p'. cbn [fst] in Hx. by rewrite Hx.
Defined.

(** C16. A BigInt of up to 2^21 digits survives the way to its decimal text and back, and a BigInt that is not negative the way to binary, octal and hexadecimal literals, when nothing interrupts the conversions. *)
Theorem bigint_string_roundtrip is_space_separator Allocate garbage x st p : allocates Allocate -> canonical x -> undisturbed p -> Z.of_nat (length (digits x)) <= 2 ^ 21 ->
  (exists s p', BigInt_ToString x 10 st p = (Text s, p') /\ (StringToBigInt is_space_separator Allocate garbage s p').1 = Value (Some x)) /\
  (sign x = false -> forall r prefix, In (r, prefix) literal_prefixes ->
    exists s p', BigInt_ToString x r st p = (Text s, p') /\ (StringToBigInt is_space_separator Allocate garbage (prefix ++ s) p').1 = Value (Some x)).
Proof.
  intros HA Hx Hu Hl. pose proof (StringToBigInt_reads is_space_separator Allocate HA garbage) as HR. split.
  - destruct (printed_text is_space_separator Allocate HA x 10 st p Hx ltac:(split; lia) Hu ltac:(by left)) as (s & p' & He & Ht & Hu' & Hs). exists s, p'. split; [done|].
    apply HR; [done|done|by apply (text_chars_ok 10 (value x))|rewrite kMaxLength_eq; lia|by apply literal_of_text].
  - intros Hp r prefix Hin. assert (radix_ok r /\ length prefix = 2%nat /\ chars_ok prefix) as (Hr & Hpl & Hpc).
    { simpl in Hin. destruct Hin as [[= <- <-]|[[= <- <-]|[[= <- <-]|[]]]]; (split; [split; lia|split; [done|by repeat constructor]]). }
    destruct (printed_text is_space_separator Allocate HA x r st p Hx Hr Hu ltac:(by left)) as (s & p' & He & Ht & Hu' & Hs). exists s, p'. split; [done|].
    pose proof (text_chars_ok r (value x) s Hr Ht) as Hc. destruct Ht as (ds & -> & Hds).
    assert (0 <= value x) as Hv by (destruct (Z.le_gt_cases 0 (value x)) as [|Hn]; [done|apply (value_neg x Hx) in Hn; congruence]).
    destruct (Z.ltb_spec (value x) 0); [lia|]. cbn [app] in *. rewrite Z.abs_eq in Hds by done.
    apply HR; [done|done|by apply Forall_app|rewrite length_app, kMaxLength_eq; lia|by apply (literal_of_prefixed is_space_separator r)].
Qed.

Example bigint_string_roundtrip_witness : let x := {| sign := false; digits := test_digits 9 5 |} in
  exists s p', BigInt_ToString x 16 kDontThrow quiet = (Text s, p') /\ (StringToBigInt (fun _ => false) uninitialised 7 ([48; 120] ++ s) p').1 = Value (Some x).
Proof.
  destruct (bigint_string_roundtrip (fun _ => false) uninitialised 7 {| sign := false; digits := test_digits 9 5 |} kDontThrow quiet uninitialised_allocates ltac:(concrete) quiet_undisturbed ltac:(vm_compute; discriminate)) as [_ H].
  apply (H eq_refl 16 [48; 120]). right. right. left. reflexivity.
Defined.

(** The limits of printing and parsing differ: the decimal text of a BigInt of 10^(19 * kMaxLength) or more is printed, but the parser counts 19 characters for a digit and refuses it. *)
Theorem huge_bigint_text_unparseable is_space_separator Allocate garbage x st p : allocates Allocate -> canonical x -> beyond_parser x -> undisturbed p ->
  exists s p', BigInt_ToString x 10 st p = (Text s, p') /\ StringToBigInt is_space_separator Allocate garbage s p' = (Value None, p').
Proof.
  intros HA Hx Hb Hu. assert (radix_ok 10) as H10 by (split; lia). destruct (printed_text is_space_separator Allocate HA x 10 st p Hx H10 Hu ltac:(by right)) as (s & p' & He & Ht & _).
  exists s, p'. split; [done|]. unfold beyond_parser in Hb. rewrite kMaxLength_eq in Hb. remember (19 * 16777215) as limit eqn:Hlimit.
  assert (value x <> 0) as Hv by (assert (0 <= limit) as H0 by lia; pose proof (Z.pow_pos_nonneg 10 limit eq_refl H0) as Hp; clear -Hb Hp; intros H0; rewrite H0 in Hb; change (Z.abs 0) with 0 in Hb; lia).
  destruct (DetectRadixInternal_text is_space_separator (value x) s Hv Ht) as (sg & ds & Hds & HD). pose proof (numeral_long 10 _ ds limit H10 Hds ltac:(lia) Hb) as Hlong.
  unfold StringToBigInt, GetResult, ParseInt. cbn [is_string_to_bigint negb andb]. rewrite HD. cbn [state_ sign_ BigIntStrings.radix_ rest_].
  pose proof (numeral_chars_ok 10 _ ds H10 Hds) as Hc. pose proof Hds as [(nds & Hn & HF & _) _ _]. rewrite Hn in Hc, Hlong.
  pose proof (Parse_spec Allocate HA 10 ds nds [] garbage H10) as HP. rewrite Hn in HP. specialize (HP Hc (span_digits_chars 10 nds H10 HF)). rewrite length_fmap in Hlong, HP.
  unfold ParseInternal. rewrite Hn. destruct (Parse (conversion_char <$> nds) 10 (new_FromStringAccumulator kMaxLength garbage)) as [cs' a].
  change (Z.of_nat (part_chars 10)) with 19 in HP. change kInlineThreshold with 99 in HP. rewrite kMaxLength_eq in HP.
  rewrite (proj2 (Z.leb_gt _ 99)), <- Hlimit, (proj2 (Z.leb_gt _ limit)) in HP by lia. cbn [orb] in HP. rewrite HP. cbn [sign_ BigIntStrings.radix_ state_].
  change (10 =? 10) with true. by destruct sg.
Qed.

Lemma filled_beyond n : kMaxLength <= Z.of_nat n -> beyond_parser (filled n).
Proof.
  intros Hn. unfold beyond_parser. assert (0 < kMaxLength) as Hk by (by rewrite kMaxLength_eq). revert Hn Hk. generalize kMaxLength as k. intros k Hn Hk.
  rewrite filled_value, weight_pow2, !Z.pow_mul_r by (unfold kDigitBits; lia).
  pose proof (Z.pow_lt_mono_l (10 ^ 19) (2 ^ kDigitBits) k Hk ltac:(by vm_compute)).
  pose proof (Z.pow_le_mono_r (2 ^ kDigitBits) k (Z.of_nat n) ltac:(by vm_compute) Hn). lia.
Qed.

Example huge_bigint_text_unparseable_witness : let x := filled (Z.to_nat kMaxLength) in
  exists s p', BigInt_ToString x 10 kDontThrow quiet = (Text s, p') /\ StringToBigInt (fun _ => false) uninitialised 7 s p' = (Value None, p').
Proof.
  assert (Z.of_nat (Z.to_nat kMaxLength) = kMaxLength) as Hn by (apply Z2Nat.id; rewrite kMaxLength_eq; lia).
  apply (huge_bigint_text_unparseable (fun _ => false) uninitialised 7 (filled (Z.to_nat kMaxLength)) kDontThrow quiet uninitialised_allocates).
  - apply filled_canonical. rewrite Hn. apply Z.le_refl.
  - apply filled_beyond. rewrite Hn. apply Z.le_refl.
  - exact quiet_undisturbed.
Defined.

(** ** Examples *)

Definition codes (s : String.string) : list Z := (fun c => Z.of_nat (Ascii.nat_of_ascii c)) <$> String.list_ascii_of_string s.

Definition read (s : list Z) : option (option bigint) :=
  match (StringToBigInt (fun _ => false) uninitialised 7 s quiet).1 with Value r => Some r | _ => None end.

Definition read_value (s : String.string) : option (option Z) := match read (codes s) with Some r => Some (option_map value r) | None => None end.

(** Signs, radixes, leading zeros, white space and junk. *)
Example read_small : map read_value ["  42 "; "-0012"; "0x1F"; "0B101"; "0o17"; "-0x1"; "12n"; "0x"; "   "; "-"; "00x1"]%string =
  [Some (Some 42); Some (Some (-12)); Some (Some 31); Some (Some 5); Some (Some 15); Some None; Some None; Some None; Some (Some 0); Some None; Some None].
Proof. vm_compute. reflexivity. Qed.

(** A text of 110 digits goes through the parts of the accumulator. *)
Example print_and_read : let x := {| sign := true; digits := test_digits 5 3 ++ test_digits 1 77 |} in
  match (BigInt_ToString x 10 kThrowOnError quiet).1 with Text s => (100 <? length s)%nat && bool_decide (read s = Some (Some x)) | _ => false end = true.
Proof. vm_compute. reflexivity. Qed.
