(* ===== verification/PlatformTime.v ===== *)
(** Time in the platform (src/src/libplatform): seconds as doubles, and the queues of tasks
    with deadlines that are ordered by them.

    A point in time is an IEEE double in the form of the Standard Library's SpecFloat, so the
    sum of a time and a delay rounds as in the code. Clock readings and delays are never NaN. *)
From S2P Require Import Prelude.
From Stdlib Require Import SpecFloat.

Definition time := spec_float.

(** [x < y], [x > y], [x + y], [x - y], [x * y] on doubles. *)
Definition time_ltb : time -> time -> bool := SFltb.
Definition time_gtb (x y : time) : bool := SFltb y x.
Definition time_add : time -> time -> time := SFadd 53 1024.
Definition time_sub : time -> time -> time := SFsub 53 1024.
Definition time_mul : time -> time -> time := SFmul 53 1024.

Definition is_number (x : time) : Prop := x <> S754_nan.

(** The double of a small integer. *)
Definition seconds (n : Z) : time := binary_normalize 53 1024 n 0 false.

#[global] Instance time_eq_dec : EqDecision time.
Proof. solve_decision. Defined.

(** ** The order *)

(** Doubles are compared as triples: class, exponent, mantissa. *)
Definition rank (x : time) : Z * Z * Z :=
  match x with
  | S754_nan => (0, 0, 0)
  | S754_zero _ => (0, 0, 0)
  | S754_infinity s => (if s then -2 else 2, 0, 0)
  | S754_finite s m e => if s then (-1, - e, - Zpos m) else (1, e, Zpos m)
  end.

Definition rank_lt (a b : Z * Z * Z) : Prop :=
  a.1.1 < b.1.1 \/ a.1.1 = b.1.1 /\ (a.1.2 < b.1.2 \/ a.1.2 = b.1.2 /\ a.2 < b.2).

Definition time_lt (x y : time) : Prop := time_ltb x y = true.
Definition time_le (x y : time) : Prop := time_ltb y x = false.

Lemma time_ltb_rank x y : is_number x -> is_number y -> time_lt x y <-> rank_lt (rank x) (rank y).
Proof.
  unfold is_number, time_lt, time_ltb, SFltb, rank_lt. intros Hx Hy.
  destruct x as [[]|[]| |[] m e], y as [[]|[]| |[] m' e']; try done; simpl; try (split; [done|lia]); try (split; [lia|done]).
  - destruct (Z.compare_spec e e') as [->|?|?]; [|split; [done|lia]|split; [lia|done]].
    change (Pos.compare_cont Eq m m') with (Pos.compare m m'). destruct (Pos.compare_spec m m'); simpl; split; try done; lia.
  - destruct (Z.compare_spec e e') as [->|?|?]; [|split; [lia|done]|split; [done|lia]].
    change (Pos.compare_cont Eq m m') with (Pos.compare m m'). destruct (Pos.compare_spec m m'); simpl; split; try done; lia.
Qed.

Lemma time_le_rank x y : is_number x -> is_number y -> time_le x y <-> ~ rank_lt (rank y) (rank x).
Proof. intros Hx Hy. rewrite <- time_ltb_rank by done. unfold time_le, time_lt. by destruct (time_ltb y x). Qed.

Lemma time_le_refl x : is_number x -> time_le x x.
Proof. intros Hx. apply time_le_rank; [done..|]. unfold rank_lt. lia. Qed.

Lemma time_le_trans x y z : is_number x -> is_number y -> is_number z -> time_le x y -> time_le y z -> time_le x z.
Proof. intros Hx Hy Hz. rewrite !time_le_rank by done. unfold rank_lt. lia. Qed.

Lemma time_lt_le x y : is_number x -> is_number y -> time_lt x y -> time_le x y.
Proof. intros Hx Hy. rewrite time_ltb_rank, time_le_rank by done. unfold rank_lt. lia. Qed.

Lemma time_gtb_le x y : time_gtb x y = false <-> time_le x y.
Proof. done. Qed.

(** A clock that an execution reads: the k-th reading. *)
Definition clock := nat -> time.
Definition clock_ok (c : clock) : Prop := (forall k, is_number (c k)) /\ (forall j k, (j <= k)%nat -> time_le (c j) (c k)).

Example half_second : time_add (seconds 1) (SFdiv 53 1024 (seconds 1) (seconds 2)) = SFdiv 53 1024 (seconds 3) (seconds 2).
Proof. reflexivity. Qed.
