(* ===== verification/ForegroundRunner.v ===== *)
(** The task runner of an isolate: src/src/libplatform/default-foreground-task-runner.{h,cc}
    and the loops of src/src/libplatform/default-platform.cc that pump it.

    The operations are functions on the members of the runner; [fstep] interleaves the thread
    that pumps the runner, which may pump it again from within a task, with the threads that
    post to it and with its termination. A clock reading is [time_function k] for the k-th
    call of the time function. *)
From S2P Require Import Prelude PlatformTime.

Inductive Nestability := kNestable | kNonNestable.
#[global] Instance nestability_eq_dec : EqDecision Nestability.
Proof. solve_decision. Defined.

Inductive MessageLoopBehavior := kDoNotWait | kWaitForWork.

Record DelayedEntry (T : Type) := mkDelayed { timeout_time : time; entry_nestability : Nestability; entry_task : T }.
Arguments mkDelayed {T}.
Arguments timeout_time {T}.
Arguments entry_nestability {T}.
Arguments entry_task {T}.

(** std::priority_queue with [DelayedEntryCompare]: the top is an entry that is not greater
    than another one; which one of equal entries is not specified. *)
Class PriorityQueue (T : Type) := {
  top : list (DelayedEntry T) -> nat;
  top_some q : q <> [] -> exists e, q !! top q = Some e;
  top_least q e e' : Forall (fun e => is_number (timeout_time e)) q -> q !! top q = Some e -> e' ∈ q ->
    time_gtb (timeout_time e) (timeout_time e') = false;
}.

Section foreground.
Context {T : Type} `{PriorityQueue T} (time_function : clock).

Record runner := mkRunner {
  terminated_ : bool; nesting_depth_ : Z;
  task_queue_ : list (Nestability * T);
  delayed_task_queue_ : list (DelayedEntry T);
  idle_task_queue_ : list T;
  idle_task_support_ : bool;                      (* IdleTaskSupport::kEnabled *)
}.

Definition DefaultForegroundTaskRunner (idle_task_support : bool) : runner := mkRunner false 0 [] [] [] idle_task_support.

Definition set_queue (q : list (Nestability * T)) (r : runner) : runner :=
  mkRunner (terminated_ r) (nesting_depth_ r) q (delayed_task_queue_ r) (idle_task_queue_ r) (idle_task_support_ r).
Definition set_delayed (q : list (DelayedEntry T)) (r : runner) : runner :=
  mkRunner (terminated_ r) (nesting_depth_ r) (task_queue_ r) q (idle_task_queue_ r) (idle_task_support_ r).
Definition set_idle (q : list T) (r : runner) : runner :=
  mkRunner (terminated_ r) (nesting_depth_ r) (task_queue_ r) (delayed_task_queue_ r) q (idle_task_support_ r).
Definition set_depth (d : Z) (r : runner) : runner :=
  mkRunner (terminated_ r) d (task_queue_ r) (delayed_task_queue_ r) (idle_task_queue_ r) (idle_task_support_ r).

(** RunTaskScope: its constructor and its destructor. *)
Definition enter_scope (r : runner) : runner := set_depth (nesting_depth_ r + 1) r.
Definition leave_scope (r : runner) : runner := set_depth (nesting_depth_ r - 1) r.

(** The runner and the tasks that are deleted, after the lock was released. *)
Definition Terminate (r : runner) : runner * list T :=
  (mkRunner true (nesting_depth_ r) [] [] [] (idle_task_support_ r),
   (task_queue_ r).*2 ++ (entry_task <$> delayed_task_queue_ r) ++ idle_task_queue_ r).

(** The runner, the task that is returned for deletion, and whether a waiter is notified. *)
Definition PostTaskLocked (t : T) (n : Nestability) (r : runner) : runner * option T * bool :=
  if terminated_ r then (r, Some t, false)
  else (set_queue (task_queue_ r ++ [(n, t)]) r, None, true).

Definition PostTaskImpl (t : T) (r : runner) : runner * option T * bool := PostTaskLocked t kNestable r.
Definition PostNonNestableTaskImpl (t : T) (r : runner) : runner * option T * bool := PostTaskLocked t kNonNestable r.

(** [now] is a clock reading; the task of a terminated runner is deleted. *)
Definition PostDelayedTaskLocked (t : T) (delay_in_seconds now : time) (n : Nestability) (r : runner) : runner * option T * bool :=
  if terminated_ r then (r, Some t, false)
  else (set_delayed (delayed_task_queue_ r ++ [mkDelayed (time_add now delay_in_seconds) n t]) r, None, true).

Definition PostDelayedTaskImpl (t : T) (delay now : time) (r : runner) : runner * option T * bool := PostDelayedTaskLocked t delay now kNestable r.
Definition PostNonNestableDelayedTaskImpl (t : T) (delay now : time) (r : runner) : runner * option T * bool := PostDelayedTaskLocked t delay now kNonNestable r.

(** [None] where the CHECK for idle tasks fails. *)
Definition PostIdleTaskImpl (t : T) (r : runner) : option (runner * option T) :=
  if idle_task_support_ r then
    if terminated_ r then Some (r, Some t) else Some (set_idle (idle_task_queue_ r ++ [t]) r, None)
  else None.

Definition IdleTasksEnabled (r : runner) : bool := idle_task_support_ r.

Definition HasPoppableTaskInQueue (r : runner) : bool :=
  if nesting_depth_ r =? 0 then negb (bool_decide (task_queue_ r = []))
  else existsb (fun e => bool_decide (e.1 = kNestable)) (task_queue_ r).

Definition PopTaskFromDelayedQueueLocked (now : time) (r : runner) : option (DelayedEntry T * runner) :=
  let q := delayed_task_queue_ r in
  match q !! top q with
  | None => None
  | Some e => if time_gtb (timeout_time e) now then None else Some (e, set_delayed (delete (top q) q) r)
  end.

(** The loop reads the clock at each round while there are delayed tasks: [k] counts the
    readings. With it the tasks to delete and whether a waiter is notified. *)
Fixpoint move_expired (fuel k : nat) (r : runner) : runner * nat * list T * bool :=
  match fuel with
  | O => (r, k, [], false)
  | S fuel =>
    if bool_decide (delayed_task_queue_ r = []) then (r, k, [], false)
    else
      match PopTaskFromDelayedQueueLocked (time_function k) r with
      | None => (r, S k, [], false)
      | Some (e, r) =>
        let '(r, to_delete, notify) := PostTaskLocked (entry_task e) (entry_nestability e) r in
        let '(r, k, deleted, notify') := move_expired fuel (S k) r in
        (r, k, option_list to_delete ++ deleted, notify || notify')
      end
  end.

Definition MoveExpiredDelayedTasksLocked (k : nat) (r : runner) : runner * nat * list T * bool :=
  move_expired (S (length (delayed_task_queue_ r))) k r.

(** What WaitForTaskLocked waits for. *)
Inductive wait := NoWait | WaitFor (seconds : time) | Wait.

Definition WaitForTaskLocked (k : nat) (r : runner) : nat * wait :=
  let q := delayed_task_queue_ r in
  match q !! top q with
  | Some e =>
    let time_until_task := time_sub (timeout_time e) (time_function k) in
    (S k, if time_gtb time_until_task (seconds 0) then WaitFor time_until_task else NoWait)
  | None => (k, Wait)
  end.

(** The first entry that may run at this depth, and the others. *)
Fixpoint pop_first (depth : Z) (q : list (Nestability * T)) : option (Nestability * T * list (Nestability * T)) :=
  match q with
  | [] => None
  | e :: q =>
    if (depth =? 0) || bool_decide (e.1 = kNestable) then Some (e, q)
    else '(e', q) ← pop_first depth q; Some (e', e :: q)
  end.

Inductive pop_result := Popped (e : Nestability * T) | NoTask | MustWait (w : wait).

(** PopTaskFromQueue up to its return or to its next wait, after which it runs again. *)
Definition pop_pass (wait_for_work : MessageLoopBehavior) (k : nat) (r : runner) : runner * nat * list T * pop_result :=
  let '(r, k, deleted, _) := MoveExpiredDelayedTasksLocked k r in
  if HasPoppableTaskInQueue r then
    match pop_first (nesting_depth_ r) (task_queue_ r) with
    | Some (e, q) => (set_queue q r, k, deleted, Popped e)
    | None => (r, k, deleted, NoTask)
    end
  else
    match wait_for_work with
    | kDoNotWait => (r, k, deleted, NoTask)
    | kWaitForWork => let '(k, w) := WaitForTaskLocked k r in (r, k, deleted, MustWait w)
    end.

Definition PopTaskFromIdleQueue (r : runner) : option (T * runner) :=
  match idle_task_queue_ r with
  | [] => None
  | t :: q => Some (t, set_idle q r)
  end.

(** ** The thread that pumps the runner, and the others *)

(** A task that the thread is running; idle tasks run within RunIdleTasks. *)
Inductive frame := RunTask (n : Nestability) (t : T) | RunIdle (t : T) (deadline_in_seconds : time).

Definition frame_task (f : frame) : T := match f with RunTask _ t => t | RunIdle t _ => t end.

(** Where the thread is: in a task or outside the pump ([Active]), at the start of a round of
    PopTaskFromQueue, blocked there, or at the test of the loop of RunIdleTasks. *)
Inductive pump := Active | Popping (w : MessageLoopBehavior) | Blocked (w : wait) | IdleLoop (deadline_in_seconds : time).

Record fconfig := mkConfig {
  state : runner; readings : nat; thread : pump; frames : list frame;
  (* history *)
  posted : list T; finished : list T; deleted : list T;
  entered : list (Nestability * T); started : list (Nestability * T);
  outcomes : list bool;                          (* what PumpMessageLoop returned *)
}.

Inductive flabel :=
| Post (n : Nestability) (t : T) | PostDelayed (n : Nestability) (t : T) (delay : time) | PostIdle (t : T)
| Pump (w : MessageLoopBehavior) | Round | Wake | Finish | RunIdleTasks (idle_time_in_seconds : time) | IdleRound | TerminateRunner.

(** NotifyOne wakes the thread when it is blocked. *)
Definition notified (notify : bool) (p : pump) : pump :=
  match p with Blocked _ => if notify then Popping kWaitForWork else p | _ => p end.

(** What entered the queue: it grows at its end. *)
Definition appended (q q' : list (Nestability * T)) : list (Nestability * T) := drop (length q) q'.

Definition after_post (t : T) (k : nat) (c : fconfig) (res : runner * option T * bool) : fconfig :=
  let '(r, to_delete, notify) := res in
  mkConfig r k (notified notify (thread c)) (frames c) (t :: posted c) (finished c) (option_list to_delete ++ deleted c)
    (entered c ++ appended (task_queue_ (state c)) (task_queue_ r)) (started c) (outcomes c).

(** One round of PopTaskFromQueue, and PumpMessageLoop around it. *)
Definition pump_round (w : MessageLoopBehavior) (c : fconfig) : fconfig :=
  let '(moved, _, _, _) := MoveExpiredDelayedTasksLocked (readings c) (state c) in
  let entered' := entered c ++ appended (task_queue_ (state c)) (task_queue_ moved) in
  let '(r, k, expired, result) := pop_pass w (readings c) (state c) in
  let deleted' := expired ++ deleted c in
  match result with
  | Popped e => mkConfig (enter_scope r) k Active (RunTask e.1 e.2 :: frames c) (posted c) (finished c) deleted' entered' (started c ++ [e]) (outcomes c ++ [true])
  | NoTask => mkConfig r k Active (frames c) (posted c) (finished c) deleted' entered' (started c)
      (outcomes c ++ [match w with kWaitForWork => true | kDoNotWait => false end])
  | MustWait NoWait => mkConfig r k (Popping w) (frames c) (posted c) (finished c) deleted' entered' (started c) (outcomes c)
  | MustWait b => mkConfig r k (Blocked b) (frames c) (posted c) (finished c) deleted' entered' (started c) (outcomes c)
  end.

Inductive fstep : fconfig -> flabel -> fconfig -> Prop :=
| fstep_post c n t : fstep c (Post n t) (after_post t (readings c) c (PostTaskLocked t n (state c)))
| fstep_post_delayed c n t delay : is_number delay -> is_number (time_add (time_function (readings c)) delay) ->
    fstep c (PostDelayed n t delay)
      (after_post t (if terminated_ (state c) then readings c else S (readings c)) c (PostDelayedTaskLocked t delay (time_function (readings c)) n (state c)))
| fstep_post_idle c t r to_delete : PostIdleTaskImpl t (state c) = Some (r, to_delete) ->
    fstep c (PostIdle t) (mkConfig r (readings c) (thread c) (frames c) (t :: posted c) (finished c) (option_list to_delete ++ deleted c) (entered c) (started c) (outcomes c))
| fstep_pump c w : thread c = Active ->
    fstep c (Pump w) (mkConfig (state c) (readings c) (Popping w) (frames c) (posted c) (finished c) (deleted c) (entered c) (started c) (outcomes c))
| fstep_round c w : thread c = Popping w -> fstep c Round (pump_round w c)
| fstep_wake c w : thread c = Blocked w ->                     (* the timer, or a spurious wake-up *)
    fstep c Wake (mkConfig (state c) (readings c) (Popping kWaitForWork) (frames c) (posted c) (finished c) (deleted c) (entered c) (started c) (outcomes c))
| fstep_finish c n t rest : thread c = Active -> frames c = RunTask n t :: rest ->
    fstep c Finish (mkConfig (leave_scope (state c)) (readings c) Active rest (posted c) (t :: finished c) (deleted c) (entered c) (started c) (outcomes c))
| fstep_finish_idle c t d rest : thread c = Active -> frames c = RunIdle t d :: rest ->
    fstep c Finish (mkConfig (leave_scope (state c)) (readings c) (IdleLoop d) rest (posted c) (t :: finished c) (deleted c) (entered c) (started c) (outcomes c))
| fstep_run_idle c idle_time : thread c = Active ->
    fstep c (RunIdleTasks idle_time)
      (mkConfig (state c) (S (readings c)) (IdleLoop (time_add (time_function (readings c)) idle_time)) (frames c) (posted c) (finished c) (deleted c) (entered c) (started c) (outcomes c))
| fstep_idle_out_of_time c d : thread c = IdleLoop d -> time_gtb d (time_function (readings c)) = false ->
    fstep c IdleRound (mkConfig (state c) (S (readings c)) Active (frames c) (posted c) (finished c) (deleted c) (entered c) (started c) (outcomes c))
| fstep_idle_none c d : thread c = IdleLoop d -> time_gtb d (time_function (readings c)) = true -> PopTaskFromIdleQueue (state c) = None ->
    fstep c IdleRound (mkConfig (state c) (S (readings c)) Active (frames c) (posted c) (finished c) (deleted c) (entered c) (started c) (outcomes c))
| fstep_idle_run c d t r : thread c = IdleLoop d -> time_gtb d (time_function (readings c)) = true -> PopTaskFromIdleQueue (state c) = Some (t, r) ->
    fstep c IdleRound (mkConfig (enter_scope r) (S (readings c)) Active (RunIdle t d :: frames c) (posted c) (finished c) (deleted c) (entered c) (started c) (outcomes c))
| fstep_terminate c : let '(r, dropped) := Terminate (state c) in
    fstep c TerminateRunner (mkConfig r (readings c) (thread c) (frames c) (posted c) (finished c) (dropped ++ deleted c) (entered c) (started c) (outcomes c)).

Definition fstart (idle_task_support : bool) : fconfig :=
  mkConfig (DefaultForegroundTaskRunner idle_task_support) 0 Active [] [] [] [] [] [] [].
End foreground.
Arguments runner : clear implicits.
Arguments pop_result : clear implicits.
Arguments frame : clear implicits.
Arguments fconfig : clear implicits.
Arguments flabel : clear implicits.

(** Of equal entries the first one. *)
Fixpoint first_least {T} (q : list (DelayedEntry T)) : nat :=
  match q with
  | [] => 0
  | e :: q =>
    match q !! first_least q with
    | Some e' => if time_gtb (timeout_time e) (timeout_time e') then S (first_least q) else 0
    | None => 0
    end
  end.

Lemma first_least_spec {T} (q : list (DelayedEntry T)) : Forall (fun e => is_number (timeout_time e)) q -> q <> [] ->
  exists e, q !! first_least q = Some e /\ forall e', e' ∈ q -> time_gtb (timeout_time e) (timeout_time e') = false.
Proof.
  induction q as [|e q IH]; [done|]. intros [He Hq]%Forall_cons _. simpl.
  destruct (decide (q = [])) as [->|Hn].
  { simpl. exists e. split; [done|]. intros e' ->%list_elem_of_singleton. by apply time_le_refl. }
  destruct (IH Hq Hn) as (m & Hm & Hl). rewrite Hm. assert (is_number (timeout_time m)) as Nm.
  { apply (proj1 (Forall_forall _ _) Hq m). by eapply list_elem_of_lookup_2. }
  destruct (time_gtb (timeout_time e) (timeout_time m)) eqn:Hg.
  - exists m. split; [done|]. intros e' [->|Hin]%elem_of_cons; [by apply time_lt_le|by apply Hl].
  - exists e. split; [done|]. intros e' [->|Hin]%elem_of_cons; [by apply time_le_refl|].
    apply (time_le_trans _ (timeout_time m)); [done|done| |done|by apply Hl]. by apply (proj1 (Forall_forall _ _) Hq e').
Qed.

Lemma first_least_some {T} (q : list (DelayedEntry T)) : q <> [] -> exists e, q !! first_least q = Some e.
Proof.
  induction q as [|e q IH]; [done|]. intros _. simpl. destruct (q !! first_least q) as [m|] eqn:Hm; [|by exists e].
  destruct (time_gtb _ _); [by exists m|by exists e].
Qed.

#[global] Instance first_least_queue T : PriorityQueue T.
Proof.
  refine {| top := first_least |}.
  - apply first_least_some.
  - intros q e e' Hq He Hin. destruct (first_least_spec q Hq) as (m & Hm & Hl); [by intros ->|].
    rewrite Hm in He. simplify_eq. by apply Hl.
Defined.
