(* ===== verification/ForegroundTheorems.v ===== *)
(** The task runner of an isolate neither loses nor reorders tasks, runs delayed tasks by their
    deadlines, does not sleep while a task can run, and, once terminated, never returns to a
    thread that waits for work. *)
From S2P Require Import Prelude PlatformTime ForegroundRunner.
From Stdlib Require Import Sorting.Sorted.

(** The deadlines of a queue are numbers. *)
Definition deadlines_ok {T} (q : list (DelayedEntry T)) : Prop := Forall (fun e => is_number (timeout_time e)) q.

(** A delayed task as it enters the main queue. *)
Definition queued {T} (e : DelayedEntry T) : Nestability * T := (entry_nestability e, entry_task e).

(** The tasks of one kind, in order. *)
Definition of_kind {T} (n : Nestability) (q : list (Nestability * T)) : list (Nestability * T) := filter (fun e => e.1 = n) q.

Section theorems.
Context {T : Type} `{PriorityQueue T} (time_function : clock) (readings_ok : forall k, is_number (time_function k)).

(** ** Operations *)

Lemma top_none (q : list (DelayedEntry T)) : q !! top q = None -> q = [].
Proof using. intros Hq. destruct (decide (q = [])) as [|Hn]; [done|]. destruct (top_some q Hn) as [e He]. congruence. Qed.

Lemma PopTaskFromDelayedQueueLocked_spec now (r : runner T) e r' : PopTaskFromDelayedQueueLocked now r = Some (e, r') ->
  delayed_task_queue_ r ≡ₚ e :: delayed_task_queue_ r' /\ r' = set_delayed (delayed_task_queue_ r') r /\ time_le (timeout_time e) now /\
  (deadlines_ok (delayed_task_queue_ r) -> Forall (fun e' => time_le (timeout_time e) (timeout_time e')) (delayed_task_queue_ r')).
Proof using.
  unfold PopTaskFromDelayedQueueLocked. destruct (_ !! top _) as [m|] eqn:Hm; [|done]. destruct (time_gtb _ _) eqn:Hg; [done|]. intros [= <- <-]. simpl.
  split_all; [by apply delete_Permutation|done|done|]. intros Hn. apply Forall_forall. intros e' Hin.
  apply (top_least _ _ _ Hn Hm). by eapply list_elem_of_delete_inv.
Qed.

Lemma PopTaskFromDelayedQueueLocked_none now (r : runner T) : deadlines_ok (delayed_task_queue_ r) -> is_number now ->
  PopTaskFromDelayedQueueLocked now r = None -> Forall (fun e => time_lt now (timeout_time e)) (delayed_task_queue_ r).
Proof using.
  unfold PopTaskFromDelayedQueueLocked. intros Hd Hn. destruct (_ !! top _) as [m|] eqn:Hm; [|by rewrite (top_none _ Hm)].
  destruct (time_gtb _ _) eqn:Hg; [|done]. intros _. apply Forall_forall. intros e He.
  pose proof (top_least _ _ e Hd Hm He) as Hl. pose proof (proj1 (Forall_forall _ _) Hd e He) as Ne. assert (is_number (timeout_time m)) as Nm.
  { apply (proj1 (Forall_forall _ _) Hd m). by eapply list_elem_of_lookup_2. }
  change (time_lt now (timeout_time m)) in Hg. apply time_gtb_le in Hl. apply time_ltb_rank in Hg; [|done..]. apply time_le_rank in Hl; [|done..].
  apply time_ltb_rank; [done..|]. unfold rank_lt in *. lia.
Qed.

(** The tasks that a loop of moves takes out of the delayed queue. *)
Record moves (k k' : nat) (r r' : runner T) (M : list (DelayedEntry T)) : Prop := {
  moved_state : r' = set_delayed (delayed_task_queue_ r') (set_queue (task_queue_ r ++ (queued <$> M)) r);
  moved_perm : delayed_task_queue_ r ≡ₚ M ++ delayed_task_queue_ r';
  moved_due : Forall (fun e => exists j, (k <= j < k')%nat /\ time_le (timeout_time e) (time_function j)) M;
  moved_order : deadlines_ok (delayed_task_queue_ r) ->
    Sorted (fun e e' => time_le (timeout_time e) (timeout_time e')) M /\
    Forall (fun e => Forall (fun e' => time_le (timeout_time e) (timeout_time e')) (delayed_task_queue_ r')) M;
  moved_readings : (k <= k')%nat;
}.

Lemma moves_nil k k' (r : runner T) : (k <= k')%nat -> moves k k' r r [].
Proof using. constructor; simpl; [rewrite app_nil_r; by destruct r|done|done|by repeat constructor|done]. Qed.

Lemma deadlines_ok_perm (q q' : list (DelayedEntry T)) : q ≡ₚ q' -> deadlines_ok q -> deadlines_ok q'.
Proof using. unfold deadlines_ok. by intros ->. Qed.

Lemma move_expired_moves fuel : forall k (r : runner T) r' k' deleted b, (length (delayed_task_queue_ r) < fuel)%nat -> terminated_ r = false ->
  move_expired time_function fuel k r = (r', k', deleted, b) ->
  exists M, moves k k' r r' M /\ deleted = [] /\
    (deadlines_ok (delayed_task_queue_ r) -> delayed_task_queue_ r' = [] \/ (k < k')%nat /\ Forall (fun e => time_lt (time_function (k' - 1)%nat) (timeout_time e)) (delayed_task_queue_ r')).
Proof using readings_ok.
  induction fuel as [|fuel IH]; intros k r r' k' deleted b Hf Ht; [lia|]. cbn [move_expired].
  case_bool_decide as Hd.
  { intros [= <- <- <- <-]. exists []. split; [by apply moves_nil|split; [done|by left]]. }
  destruct (PopTaskFromDelayedQueueLocked _ r) as [[e r1]|] eqn:Hp.
  2: { intros [= <- <- <- <-]. exists []. split; [apply moves_nil; lia|split; [done|]].
    intros Hok. right. split; [lia|]. replace (S k - 1)%nat with k by lia. by apply PopTaskFromDelayedQueueLocked_none. }
  destruct (PopTaskFromDelayedQueueLocked_spec _ _ _ _ Hp) as (P1 & P2 & P3 & P4).
  unfold PostTaskLocked. rewrite P2. cbn [terminated_ set_delayed]. rewrite Ht.
  destruct (move_expired _ _ _ _) as [[[r2 k2] del2] b2] eqn:Hm. intros [= <- <- <- <-].
  assert (length (delayed_task_queue_ r1) < fuel)%nat as Hf1 by (apply Permutation_length in P1; simpl in P1; lia).
  apply IH in Hm as (M & [M1 M2 M3 M4 M5] & -> & M7); [|exact Hf1|exact Ht].
  cbn in M1, M2, M4, M7.
  exists (e :: M). split; [|split; [done|]].
  - constructor.
    + rewrite M1. simpl. unfold set_queue, set_delayed. simpl. by rewrite <- app_assoc.
    + by rewrite P1, M2.
    + constructor; [exists k; split; [lia|done]|]. eapply Forall_impl; [exact M3|]. simpl. intros e' (j & Hj & Hle). exists j. split; [lia|done].
    + intros Hok. specialize (P4 Hok). assert (deadlines_ok (delayed_task_queue_ r1)) as Hok1 by (apply (deadlines_ok_perm _ _ P1) in Hok; by inversion Hok).
      destruct (M4 Hok1) as [S1 S2]. rewrite M2 in P4. apply Forall_app in P4 as [P5 P6]. split; [|by constructor].
      constructor; [done|]. destruct M; constructor. by inversion P5.
    + lia.
  - intros Hok. destruct (M7 ltac:(apply (deadlines_ok_perm _ _ P1) in Hok; by inversion Hok)) as [|[]]; [by left|right]. split; [lia|done].
Qed.

(** A terminated runner has nothing to move. *)
Lemma move_expired_empty fuel k (r : runner T) : delayed_task_queue_ r = [] -> move_expired time_function (S fuel) k r = (r, k, [], false).
Proof using. intros Hd. simpl. by rewrite bool_decide_true. Qed.

Lemma pop_first_spec depth (q : list (Nestability * T)) e q' : pop_first depth q = Some (e, q') ->
  exists q1 q2, q = q1 ++ e :: q2 /\ q' = q1 ++ q2 /\ (depth = 0 -> q1 = []) /\ (depth <> 0 -> e.1 = kNestable /\ Forall (fun e' => e'.1 = kNonNestable) q1).
Proof using.
  revert q'. induction q as [|a q IH]; [done|]. intros q'. simpl. destruct (Z.eqb_spec depth 0) as [Hd|Hd]; simpl.
  { intros [= <- <-]. exists [], q. split_all; done. }
  case_bool_decide as Hn.
  { intros [= <- <-]. exists [], q. by split_all. }
  destruct (pop_first depth q) as [[e0 q0]|]; [|done]. intros [= -> <-]. destruct (IH _ eq_refl) as (q1 & q2 & -> & -> & ? & H2). exists (a :: q1), q2.
  split_all; try done. intros _. destruct (H2 Hd) as [? ?]. split; [done|]. constructor; [by destruct (a.1)|done].
Qed.

Lemma HasPoppable_pop_first (r : runner T) : HasPoppableTaskInQueue r = true <-> exists e q', pop_first (nesting_depth_ r) (task_queue_ r) = Some (e, q').
Proof using.
  unfold HasPoppableTaskInQueue. destruct (Z.eqb_spec (nesting_depth_ r) 0) as [Hd|Hd].
  - rewrite Hd. destruct (task_queue_ r) as [|e q]; simpl; [|split; [by eauto|done]]. split; [done|by intros (? & ? & ?)].
  - induction (task_queue_ r) as [|e q IH]; simpl; [split; [done|by intros (? & ? & ?)]|].
    destruct (Z.eqb_spec (nesting_depth_ r) 0); [done|]. simpl. case_bool_decide; simpl; [split; [by eauto|done]|]. simpl in IH. rewrite IH.
    split; [intros (e' & q' & ->); simpl; eauto|]. intros (e' & q' & He). destruct (pop_first _ _) as [[]|]; [eauto|done].
Qed.

(** Taking the task out of the queue keeps the order of each kind. *)
Lemma pop_first_kind depth (q : list (Nestability * T)) e q' n : pop_first depth q = Some (e, q') -> of_kind n q = of_kind n [e] ++ of_kind n q'.
Proof using.
  intros (q1 & q2 & -> & -> & H1 & H2)%pop_first_spec. unfold of_kind. rewrite !filter_app, !filter_cons, filter_nil.
  destruct (decide (e.1 = n)) as [He|He]; [|done]. simpl.
  assert (filter (fun e' : Nestability * T => e'.1 = n) q1 = []) as ->; [|done].
  destruct (decide (depth = 0)) as [Hd|Hd]; [by rewrite (H1 Hd)|]. destruct (H2 Hd) as [H3 H4].
  clear H1 H2. induction H4 as [|a q1 Ha _ IH]; [done|]. rewrite filter_cons_False by congruence. exact IH.
Qed.

(** ** The invariant *)

(** A task that must not be nested is at the bottom of the stack of running tasks. *)
Definition not_nested (fs : list (frame T)) : Prop := forall i t, fs !! i = Some (RunTask kNonNestable t) -> S i = length fs.

(** Every task that was posted: done, running, waiting in a queue, or deleted. *)
Definition tasks_of (c : fconfig T) : list T :=
  finished c ++ (frame_task <$> frames c) ++ (task_queue_ (state c)).*2 ++ (entry_task <$> delayed_task_queue_ (state c)) ++ idle_task_queue_ (state c) ++ deleted c.

Record finv (c : fconfig T) : Prop := {
  conserved : posted c ≡ₚ tasks_of c;
  depth_frames : nesting_depth_ (state c) = Z.of_nat (length (frames c));
  nesting_ok : not_nested (frames c);
  emptied : terminated_ (state c) = true -> task_queue_ (state c) = [] /\ delayed_task_queue_ (state c) = [] /\ idle_task_queue_ (state c) = [];
  in_order : forall n, of_kind n (started c) `prefix_of` of_kind n (entered c) /\
    (terminated_ (state c) = false -> of_kind n (entered c) = of_kind n (started c) ++ of_kind n (task_queue_ (state c)));
  deadlines : deadlines_ok (delayed_task_queue_ (state c));
  blocked : forall w, thread c = Blocked w -> HasPoppableTaskInQueue (state c) = false /\ (w = Wait -> delayed_task_queue_ (state c) = []) /\ w <> NoWait;
}.

Lemma finv_start b : finv (fstart b).
Proof using. constructor; simpl; try done; by constructor. Qed.

(** The queue grew by [new]. *)
Lemma appended_app (q new : list (Nestability * T)) : appended q (q ++ new) = new.
Proof using. unfold appended. by rewrite drop_app_length. Qed.

Lemma of_kind_app n (q q' : list (Nestability * T)) : of_kind n (q ++ q') = of_kind n q ++ of_kind n q'.
Proof using. apply filter_app. Qed.

Lemma notified_blocked b p w : notified b p = Blocked w -> b = false /\ p = Blocked w.
Proof using. destruct p, b; simpl; try done. Qed.

(** What a post does to the runner: nothing and the task is deleted, or the task goes to the
    end of one of the queues and the waiter is notified. *)
Definition posted_to (t : T) (r : runner T) (res : runner T * option T * bool) : Prop :=
  if terminated_ r then res = (r, Some t, false)
  else exists q d, res = (set_delayed (delayed_task_queue_ r ++ d) (set_queue (task_queue_ r ++ q) r), None, true) /\ q.*2 ++ (entry_task <$> d) = [t] /\ deadlines_ok d.

Lemma after_post_finv t k c res : finv c -> posted_to t (state c) res -> finv (after_post t k c res).
Proof using.
  intros [C1 C2 C3 C4 C5 C6 C7]. unfold posted_to. destruct (terminated_ (state c)) eqn:Ht.
  - intros ->. constructor; simpl; try done.
    + unfold tasks_of in *. simpl. rewrite C1. solve_Permutation.
    + by rewrite Ht.
    + intros n. destruct (C5 n) as [[rest Hr] _]. unfold appended. rewrite drop_all, app_nil_r. split; [by exists rest|]. by rewrite Ht.
    + intros w [_ Hb]%notified_blocked. by apply C7.
  - intros (q & d & -> & Hqd & Hd). constructor; simpl; try done.
    + unfold tasks_of in *. simpl. rewrite !fmap_app, C1. change (t :: ?l) with ([t] ++ l). rewrite <- Hqd. solve_Permutation.
    + by rewrite Ht.
    + intros n. destruct (C5 n) as [[rest Hr] Ho]. rewrite appended_app, of_kind_app. split; [rewrite Hr; exists (rest ++ of_kind n q); by rewrite app_assoc|].
      intros _. rewrite Ho, of_kind_app, <- app_assoc by done. done.
    + by apply Forall_app.
    + intros w [? _]%notified_blocked. done.
Qed.

Lemma MoveExpired_spec k (r : runner T) r' k' del b : (terminated_ r = true -> delayed_task_queue_ r = []) -> deadlines_ok (delayed_task_queue_ r) ->
  MoveExpiredDelayedTasksLocked time_function k r = (r', k', del, b) ->
  exists M, moves k k' r r' M /\ del = [] /\
    (delayed_task_queue_ r' = [] \/ (k < k')%nat /\ Forall (fun e => time_lt (time_function (k' - 1)%nat) (timeout_time e)) (delayed_task_queue_ r')).
Proof using readings_ok.
  unfold MoveExpiredDelayedTasksLocked. intros Ht Hok. destruct (terminated_ r) eqn:Hr.
  - rewrite (Ht eq_refl). rewrite move_expired_empty by auto. intros [= <- <- <- <-]. exists []. split_all; [by apply moves_nil|done|by left; auto].
  - intros Hm. apply move_expired_moves in Hm as (M & ? & ? & Hl); [|lia|done]. exists M. split_all; auto.
Qed.

(** The runner after the moves, with the thread elsewhere. *)
Definition with_moved (r : runner T) (k : nat) (p : pump) (c : fconfig T) : fconfig T :=
  mkConfig r k p (frames c) (posted c) (finished c) (deleted c) (entered c ++ appended (task_queue_ (state c)) (task_queue_ r)) (started c) (outcomes c).

Lemma moves_finv k k' c r M p : finv c -> moves k k' (state c) r M -> (forall w, p <> Blocked w) -> finv (with_moved r k' p c).
Proof using.
  intros [C1 C2 C3 C4 C5 C6 C7] [M1 M2 M3 M4 M5] Hp. unfold with_moved. rewrite M1. constructor; simpl; try done.
  - unfold tasks_of in *. simpl. rewrite C1, M2, !fmap_app, <- list_fmap_compose. change (snd ∘ queued) with (@entry_task T). solve_Permutation.
  - intros Ht. destruct (C4 Ht) as (E1 & E2 & E3). rewrite E2 in M2. apply Permutation_nil_l in M2. symmetry in M2. apply app_eq_nil in M2 as [-> E]. by rewrite E1, E.
  - intros n. destruct (C5 n) as [[rest Hr] Ho]. rewrite appended_app, of_kind_app. split; [rewrite Hr; eexists; by rewrite <- app_assoc|].
    intros Ht. by rewrite Ho, of_kind_app, <- app_assoc.
  - apply (deadlines_ok_perm _ _ M2) in C6. by apply Forall_app in C6 as [_ ?].
  - intros w ?. by destruct (Hp w).
Qed.

(** The end of the round: the task that was found, or the answer. *)
Lemma found_finv w c e q k : finv c -> thread c = Popping w -> pop_first (nesting_depth_ (state c)) (task_queue_ (state c)) = Some (e, q) ->
  finv (mkConfig (enter_scope (set_queue q (state c))) k Active (RunTask e.1 e.2 :: frames c) (posted c) (finished c) (deleted c) (entered c) (started c ++ [e]) (outcomes c ++ [true])).
Proof using.
  intros [C1 C2 C3 C4 C5 C6 C7] _ Hp. destruct (pop_first_spec _ _ _ _ Hp) as (q1 & q2 & Hq & -> & H1 & H2). constructor; simpl; try done.
  - unfold tasks_of in *. simpl in *. rewrite C1, Hq, !fmap_app. simpl. solve_Permutation.
  - lia.
  - intros [|i] t; simpl; [|intros Hi%C3; lia]. intros [= Hn _]. destruct (decide (nesting_depth_ (state c) = 0)) as [Hz|Hz]; [lia|].
    destruct (H2 Hz) as [He _]. congruence.
  - intros Ht. destruct (C4 Ht) as (E & _). rewrite E in Hq. by destruct q1.
  - intros n. destruct (C5 n) as [_ Ho]. assert (terminated_ (state c) = false) as Ht.
    { destruct (terminated_ (state c)); [|done]. destruct (C4 eq_refl) as [E _]. rewrite E in Hq. by destruct q1. }
    rewrite (Ho Ht), (pop_first_kind _ _ _ _ n Hp), of_kind_app, <- app_assoc. split; [|done]. exists (of_kind n (q1 ++ q2)). by rewrite <- app_assoc.
Qed.

Lemma pump_round_finv w c : finv c -> thread c = Popping w -> finv (pump_round time_function w c).
Proof using readings_ok.
  intros Hc Hw. pose proof Hc as [_ _ _ C4 _ C6 _]. unfold pump_round, pop_pass.
  destruct (MoveExpiredDelayedTasksLocked _ _ _) as [[[r k] del] b] eqn:Hm.
  destruct (MoveExpired_spec _ _ _ _ _ _ (fun Ht => proj1 (proj2 (C4 Ht))) C6 Hm) as (M & HM & -> & Hl).
  destruct (HasPoppableTaskInQueue r) eqn:Hh.
  - pose proof (proj1 (HasPoppable_pop_first r) Hh) as (e & q & He). rewrite He. simpl.
    exact (found_finv w (with_moved r k (Popping w) c) e q k (moves_finv _ _ _ _ _ (Popping w) Hc HM ltac:(done)) eq_refl He).
  - pose proof (fun p Hp => moves_finv _ _ _ _ _ p Hc HM Hp) as Hf. destruct w; simpl.
    { destruct (Hf Active ltac:(done)) as [D1 D2 D3 D4 D5 D6 D7]. by constructor. }
    destruct (WaitForTaskLocked _ _ _) as [k2 wt] eqn:Hwait. destruct (Hf Active ltac:(done)) as [D1 D2 D3 D4 D5 D6 D7].
    assert (wt = Wait -> delayed_task_queue_ r = []) as Hn.
    { unfold WaitForTaskLocked in Hwait. intros ->. destruct (_ !! top _) eqn:Ht; [|by apply top_none]. by destruct (time_gtb _ _). }
    destruct wt; constructor; simpl; try done; intros w [= <-]; by split_all.
Qed.

Lemma posted_to_post t n (r : runner T) : posted_to t r (PostTaskLocked t n r).
Proof using.
  unfold posted_to, PostTaskLocked. destruct (terminated_ r); [done|]. exists [(n, t)], []. split_all; [|done|by constructor].
  unfold set_queue, set_delayed. simpl. by rewrite app_nil_r.
Qed.

Lemma posted_to_delayed t n (r : runner T) delay now : is_number (time_add now delay) -> posted_to t r (PostDelayedTaskLocked t delay now n r).
Proof using.
  intros Hn. unfold posted_to, PostDelayedTaskLocked. destruct (terminated_ r); [done|]. exists [], [mkDelayed (time_add now delay) n t].
  split_all; [|done|by repeat constructor]. unfold set_queue, set_delayed. simpl. by rewrite app_nil_r.
Qed.

(** The steps that only move the thread. *)
Lemma move_thread_finv c k p o : finv c -> (forall w, p <> Blocked w) ->
  finv (mkConfig (state c) k p (frames c) (posted c) (finished c) (deleted c) (entered c) (started c) o).
Proof using. intros [C1 C2 C3 C4 C5 C6 C7] Hp. constructor; simpl; try done. intros w ?. by destruct (Hp w). Qed.

(** A running task ends. *)
Lemma finish_finv c f rest p : finv c -> frames c = f :: rest -> (forall w, p <> Blocked w) ->
  finv (mkConfig (leave_scope (state c)) (readings c) p rest (posted c) (frame_task f :: finished c) (deleted c) (entered c) (started c) (outcomes c)).
Proof using.
  intros [C1 C2 C3 C4 C5 C6 C7] Hf Hp. constructor; simpl; try done.
  - unfold tasks_of in *. simpl. rewrite C1, Hf. simpl. solve_Permutation.
  - rewrite Hf in C2. simpl in C2. lia.
  - intros i t Hi. rewrite Hf in C3. pose proof (C3 (S i) t Hi) as Hs. simpl in Hs. lia.
  - intros w ?. by destruct (Hp w).
Qed.

Lemma idle_run_finv c t r d k : finv c -> PopTaskFromIdleQueue (state c) = Some (t, r) ->
  finv (mkConfig (enter_scope r) k Active (RunIdle t d :: frames c) (posted c) (finished c) (deleted c) (entered c) (started c) (outcomes c)).
Proof using.
  intros [C1 C2 C3 C4 C5 C6 C7]. unfold PopTaskFromIdleQueue. destruct (idle_task_queue_ (state c)) as [|t0 q] eqn:Hq; [done|]. intros [= -> <-].
  constructor; simpl; try done.
  - unfold tasks_of in *. simpl. rewrite C1, Hq. solve_Permutation.
  - lia.
  - intros [|i] u; simpl; [done|]. intros Hi%C3. lia.
  - intros Ht. destruct (C4 Ht) as (_ & _ & E). congruence.
Qed.

Lemma terminate_finv c r dropped : finv c -> Terminate (state c) = (r, dropped) ->
  finv (mkConfig r (readings c) (thread c) (frames c) (posted c) (finished c) (dropped ++ deleted c) (entered c) (started c) (outcomes c)).
Proof using.
  intros [C1 C2 C3 C4 C5 C6 C7] [= <- <-]. constructor; simpl; try done.
  - unfold tasks_of in *. simpl. rewrite C1. solve_Permutation.
  - intros n. split; [apply C5|done].
  - by constructor.
  - intros w Hw. split_all; [|done|by apply C7]. unfold HasPoppableTaskInQueue. simpl. by destruct (_ =? 0).
Qed.

Lemma post_idle_finv c t r to_delete : finv c -> PostIdleTaskImpl t (state c) = Some (r, to_delete) ->
  finv (mkConfig r (readings c) (thread c) (frames c) (t :: posted c) (finished c) (option_list to_delete ++ deleted c) (entered c) (started c) (outcomes c)).
Proof using.
  intros [C1 C2 C3 C4 C5 C6 C7]. unfold PostIdleTaskImpl. destruct (idle_task_support_ _); [|done]. destruct (terminated_ (state c)) eqn:Ht; intros [= <- <-].
  - constructor; simpl; try done; [unfold tasks_of in *; simpl; rewrite C1; solve_Permutation|by rewrite Ht|rewrite Ht; apply C5].
  - constructor; simpl; try done; [unfold tasks_of in *; simpl; rewrite C1; solve_Permutation|by rewrite Ht|rewrite Ht; apply C5].
Qed.

Lemma fstep_finv c l c' : finv c -> fstep time_function c l c' -> finv c'.
Proof using readings_ok.
  intros Hc Hs. inversion Hs; subst.
  - by apply after_post_finv, posted_to_post.
  - by apply after_post_finv, posted_to_delayed.
  - by apply post_idle_finv.
  - by apply move_thread_finv.
  - by apply pump_round_finv.
  - by apply move_thread_finv.
  - by eapply (finish_finv _ (RunTask n t)).
  - by eapply (finish_finv _ (RunIdle t d)).
  - by apply move_thread_finv.
  - by apply move_thread_finv.
  - by apply move_thread_finv.
  - by apply idle_run_finv.
  - by apply terminate_finv.
Qed.

Lemma reachable_finv b tr c : run (fstep time_function) (fstart b) tr c -> finv c.
Proof using readings_ok. intros Hr. refine (run_invariant _ finv _ _ _ _ (finv_start b) Hr). intros s l s'. apply fstep_finv. Qed.

(** ** A terminated runner *)

(** The thread waits for work in PopTaskFromQueue. *)
Definition waits (p : pump) : Prop := p = Popping kWaitForWork \/ exists w, p = Blocked w.

Lemma terminated_round k (r : runner T) : terminated_ r = true -> task_queue_ r = [] -> delayed_task_queue_ r = [] ->
  pop_pass time_function kWaitForWork k r = (r, k, [], MustWait Wait).
Proof using.
  intros Ht Hq Hd. unfold pop_pass, MoveExpiredDelayedTasksLocked. rewrite move_expired_empty by done.
  unfold HasPoppableTaskInQueue. rewrite Hq. simpl. unfold WaitForTaskLocked. rewrite Hd. simpl. by destruct (_ =? 0).
Qed.

Lemma terminated_step c l c' : finv c -> terminated_ (state c) = true -> waits (thread c) -> fstep time_function c l c' ->
  terminated_ (state c') = true /\ waits (thread c') /\ outcomes c' = outcomes c /\ started c' = started c.
Proof using.
  intros Hc Ht Hw Hs. destruct (emptied _ Hc Ht) as (E1 & E2 & E3). unfold waits in *.
  inversion Hs; subst; try (destruct Hw as [Hw|[w' Hw]]; congruence).
  - unfold PostTaskLocked, after_post. rewrite Ht. simpl. split_all; [done| |done|done]. destruct Hw as [->|[w' ->]]; [by left|right; by exists w'].
  - unfold PostDelayedTaskLocked, after_post. rewrite Ht. simpl. split_all; [done| |done|done]. destruct Hw as [->|[w' ->]]; [by left|right; by exists w'].
  - match goal with He : PostIdleTaskImpl _ _ = _ |- _ => unfold PostIdleTaskImpl in He; rewrite Ht in He; destruct (idle_task_support_ _); [|done]; injection He as <- <- end. by split_all.
  - assert (w = kWaitForWork) as -> by (destruct Hw as [Hw|[w' Hw]]; congruence). unfold pump_round.
    unfold MoveExpiredDelayedTasksLocked. rewrite move_expired_empty, terminated_round by done. simpl. split_all; [done|right; by eexists|done|done].
  - split_all; [done|by left|done|done].
  - by split_all.
Qed.
End theorems.
