(* ===== verification/WorkersRunner.v ===== *)
(** The worker threads of the platform: src/src/libplatform/delayed-task-queue.{h,cc} and
    default-worker-threads-task-runner.{h,cc}.

    The queue of immediate and delayed tasks is a value with its operations; [wstep]
    interleaves the threads of a runner, the threads that post to it and its termination, a
    section of code under the lock at a time. *)
From S2P Require Import Prelude PlatformTime.

Section workers.
Context {T : Type} (time_function : clock).

(** ** DelayedTaskQueue *)

Record DelayedTaskQueue := mkQueue {
  task_queue_ : list T;
  delayed_task_queue_ : list (time * T);          (* std::multimap: in the order of its keys *)
  queue_terminated_ : bool;
}.

Definition new_DelayedTaskQueue : DelayedTaskQueue := mkQueue [] [] false.

Definition Append (t : T) (q : DelayedTaskQueue) : DelayedTaskQueue :=
  mkQueue (task_queue_ q ++ [t]) (delayed_task_queue_ q) (queue_terminated_ q).

(** std::multimap::emplace: after the entries with equal keys. *)
Fixpoint emplace (key : time) (t : T) (m : list (time * T)) : list (time * T) :=
  match m with
  | [] => [(key, t)]
  | e :: m => if time_ltb key e.1 then (key, t) :: e :: m else e :: emplace key t m
  end.

Definition AppendDelayed (t : T) (delay_in_seconds now : time) (q : DelayedTaskQueue) : DelayedTaskQueue :=
  mkQueue (task_queue_ q) (emplace (time_add now delay_in_seconds) t (delayed_task_queue_ q)) (queue_terminated_ q).

Definition PopTaskFromDelayedQueue (now : time) (q : DelayedTaskQueue) : option (T * DelayedTaskQueue) :=
  match delayed_task_queue_ q with
  | [] => None
  | (key, t) :: m => if time_gtb key now then None else Some (t, mkQueue (task_queue_ q) m (queue_terminated_ q))
  end.

(** The inner loop of TryGetNext. *)
Fixpoint move_due (fuel : nat) (now : time) (q : DelayedTaskQueue) : DelayedTaskQueue :=
  match fuel with
  | O => q
  | S fuel =>
    match PopTaskFromDelayedQueue now q with
    | None => q
    | Some (t, q) => move_due fuel now (Append t q)
    end
  end.

Inductive MaybeNextTask := kTask (t : T) | kWaitIndefinite | kWaitDelayed (microseconds : time) | kTerminated.

Definition TryGetNext (now : time) (q : DelayedTaskQueue) : MaybeNextTask * DelayedTaskQueue :=
  let q := move_due (S (length (delayed_task_queue_ q))) now q in
  match task_queue_ q with
  | t :: rest => (kTask t, mkQueue rest (delayed_task_queue_ q) (queue_terminated_ q))
  | [] =>
    if queue_terminated_ q then (kTerminated, q)
    else
      match delayed_task_queue_ q with
      | (key, _) :: _ => (kWaitDelayed (time_mul (seconds 1000000) (time_sub key now)), q)
      | [] => (kWaitIndefinite, q)
      end
  end.

Definition Terminate_queue (q : DelayedTaskQueue) : DelayedTaskQueue := mkQueue (task_queue_ q) (delayed_task_queue_ q) true.

(** ** DefaultWorkerThreadsTaskRunner *)

Record task_runner := mkTaskRunner {
  runner_terminated_ : bool;
  idle_threads_ : list nat;                       (* indices of the pool; the last one is the back *)
  queue_ : DelayedTaskQueue;
}.

(** A thread: about to take the lock for the next round of its loop, in a task, blocked in
    Wait or WaitFor on its condition variable, or at its end. *)
Inductive worker := Ready | RunningTask (t : T) | Waiting (timed : bool) | Exited.

(** Where Terminate is: it clears the pool, so each thread in turn is notified and joined. *)
Inductive terminator := NotTerminating | Destroying (i : nat) (joining : bool).

Record wconfig := mkWorkers {
  the_runner : task_runner; threads : list worker; terminate_pc : terminator; clock_reads : nat;
  (* history *)
  w_posted : list T; w_entered : list T; w_started : list T; w_finished : list T; w_dropped : list T;
}.

Definition DefaultWorkerThreadsTaskRunner (thread_pool_size : nat) : wconfig :=
  mkWorkers (mkTaskRunner false [] new_DelayedTaskQueue) (replicate thread_pool_size Ready) NotTerminating 0 [] [] [] [] [].

(** condition_var_.NotifyAll() of a thread. *)
Definition Notify (i : nat) (ws : list worker) : list worker :=
  match ws !! i with Some (Waiting _) => <[i := Ready]> ws | _ => ws end.

(** The most recently idle thread is notified and leaves the vector. *)
Definition notify_back (idle : list nat) (ws : list worker) : list nat * list worker :=
  match last idle with
  | Some i => (removelast idle, Notify i ws)
  | None => (idle, ws)
  end.

Definition PostTaskImpl (t : T) (c : wconfig) : wconfig :=
  let r := the_runner c in
  if runner_terminated_ r then
    mkWorkers r (threads c) (terminate_pc c) (clock_reads c) (t :: w_posted c) (w_entered c) (w_started c) (w_finished c) (t :: w_dropped c)
  else
    let queue := Append t (queue_ r) in
    let '(idle, ws) := notify_back (idle_threads_ r) (threads c) in
    mkWorkers (mkTaskRunner false idle queue) ws (terminate_pc c) (clock_reads c) (t :: w_posted c) (w_entered c ++ [t]) (w_started c) (w_finished c) (w_dropped c).

Definition PostDelayedTaskImpl (t : T) (delay_in_seconds : time) (c : wconfig) : wconfig :=
  let r := the_runner c in
  if runner_terminated_ r then
    mkWorkers r (threads c) (terminate_pc c) (clock_reads c) (t :: w_posted c) (w_entered c) (w_started c) (w_finished c) (t :: w_dropped c)
  else
    let queue := AppendDelayed t delay_in_seconds (time_function (clock_reads c)) (queue_ r) in
    let '(idle, ws) := notify_back (idle_threads_ r) (threads c) in
    mkWorkers (mkTaskRunner false idle queue) ws (terminate_pc c) (S (clock_reads c)) (t :: w_posted c) (w_entered c) (w_started c) (w_finished c) (w_dropped c).

(** One round of the loop of WorkerThread::Run, up to the task, the wait or the return. *)
Definition worker_round (i : nat) (c : wconfig) : wconfig :=
  let r := the_runner c in
  let '(next_task, queue) := TryGetNext (time_function (clock_reads c)) (queue_ r) in
  let entered := w_entered c ++ drop (length (task_queue_ (queue_ r))) (task_queue_ (move_due (S (length (delayed_task_queue_ (queue_ r)))) (time_function (clock_reads c)) (queue_ r))) in
  let go idle w started := mkWorkers (mkTaskRunner (runner_terminated_ r) idle queue) (<[i := w]> (threads c)) (terminate_pc c) (S (clock_reads c))
    (w_posted c) entered (w_started c ++ started) (w_finished c) (w_dropped c) in
  match next_task with
  | kTask t => go (idle_threads_ r) (RunningTask t) [t]
  | kTerminated => go (idle_threads_ r) Exited []
  | kWaitIndefinite => go (idle_threads_ r ++ [i]) (Waiting false) []
  | kWaitDelayed _ => go (idle_threads_ r ++ [i]) (Waiting true) []
  end.

(** The section of Terminate under the lock. *)
Definition Terminate (c : wconfig) : wconfig :=
  let r := the_runner c in
  mkWorkers (mkTaskRunner true [] (Terminate_queue (queue_ r))) (threads c) (Destroying 0 false) (clock_reads c)
    (w_posted c) (w_entered c) (w_started c) (w_finished c) (w_dropped c).

Definition set_threads (ws : list worker) (p : terminator) (c : wconfig) : wconfig :=
  mkWorkers (the_runner c) ws p (clock_reads c) (w_posted c) (w_entered c) (w_started c) (w_finished c) (w_dropped c).

Inductive wlabel := PostTask (t : T) | PostDelayedTask (t : T) (delay : time) | WorkerRound (i : nat) | EndTask (i : nat) | WakeUp (i : nat)
  | CallTerminate | DestroyThread | JoinThread.

Inductive wstep : wconfig -> wlabel -> wconfig -> Prop :=
| wstep_post c t : wstep c (PostTask t) (PostTaskImpl t c)
| wstep_post_delayed c t d : wstep c (PostDelayedTask t d) (PostDelayedTaskImpl t d c)
| wstep_round c i : threads c !! i = Some Ready -> wstep c (WorkerRound i) (worker_round i c)
| wstep_end c i t : threads c !! i = Some (RunningTask t) ->
    wstep c (EndTask i) (mkWorkers (the_runner c) (<[i := Ready]> (threads c)) (terminate_pc c) (clock_reads c)
      (w_posted c) (w_entered c) (w_started c) (t :: w_finished c) (w_dropped c))
| wstep_wake c i b : threads c !! i = Some (Waiting b) ->          (* the time is over, or a spurious wake-up *)
    wstep c (WakeUp i) (set_threads (<[i := Ready]> (threads c)) (terminate_pc c) c)
| wstep_terminate c : runner_terminated_ (the_runner c) = false -> wstep c CallTerminate (Terminate c)
| wstep_destroy c i : terminate_pc c = Destroying i false -> (i < length (threads c))%nat ->
    wstep c DestroyThread (set_threads (Notify i (threads c)) (Destroying i true) c)
| wstep_join c i : terminate_pc c = Destroying i true -> threads c !! i = Some Exited ->
    wstep c JoinThread (set_threads (threads c) (Destroying (S i) false) c).
End workers.
Arguments worker : clear implicits.
Arguments wconfig : clear implicits.
Arguments wlabel : clear implicits.
Arguments DelayedTaskQueue : clear implicits.

(** ** The invariant *)

Definition awake {T} (w : worker T) : Prop := match w with Ready | RunningTask _ => True | _ => False end.
Definition some_thread {T} (P : worker T -> Prop) (ws : list (worker T)) : Prop := exists i w, ws !! i = Some w /\ P w.
Definition task_of {T} (w : worker T) : list T := match w with RunningTask t => [t] | _ => [] end.
Definition running_tasks {T} (ws : list (worker T)) : list T := ws ≫= task_of.

Section invariant.
Context {T : Type} (time_function : clock) (size : nat).
Hypothesis size_pos : (0 < size)%nat.

Record winv (c : wconfig T) : Prop := {
  w_conserved : w_posted c ≡ₚ w_finished c ++ running_tasks (threads c) ++ task_queue_ (queue_ (the_runner c)) ++ (delayed_task_queue_ (queue_ (the_runner c))).*2 ++ w_dropped c;
  w_order : w_entered c = w_started c ++ task_queue_ (queue_ (the_runner c));
  w_size : length (threads c) = size;
  w_flags : queue_terminated_ (queue_ (the_runner c)) = runner_terminated_ (the_runner c);
  w_idle : runner_terminated_ (the_runner c) = false ->
    (forall i, i ∈ idle_threads_ (the_runner c) -> (i < size)%nat) /\
    (forall i b, threads c !! i = Some (Waiting b) -> i ∈ idle_threads_ (the_runner c)) /\
    (forall i, threads c !! i <> Some Exited) /\ terminate_pc c = NotTerminating;
  w_awake : task_queue_ (queue_ (the_runner c)) <> [] -> some_thread awake (threads c);
  w_timed : runner_terminated_ (the_runner c) = false -> delayed_task_queue_ (queue_ (the_runner c)) <> [] ->
    some_thread (fun w => awake w \/ w = Waiting true) (threads c);
  w_pc : runner_terminated_ (the_runner c) = true -> exists i b, terminate_pc c = Destroying i b /\ (i <= size)%nat /\
    (b = true -> (i < size)%nat) /\
    (forall j, (j < i)%nat -> threads c !! j = Some Exited) /\ (b = true -> forall d, threads c !! i <> Some (Waiting d));
}.

Lemma running_tasks_insert i w w' (ws : list (worker T)) : ws !! i = Some w ->
  exists l1 l2, running_tasks ws = l1 ++ task_of w ++ l2 /\ running_tasks (<[i := w']> ws) = l1 ++ task_of w' ++ l2.
Proof using. apply bind_insert. Qed.

Lemma running_tasks_same i w w' (ws : list (worker T)) : ws !! i = Some w -> task_of w = task_of w' -> running_tasks (<[i := w']> ws) = running_tasks ws.
Proof using. intros Hi He. destruct (running_tasks_insert i w w' ws Hi) as (l1 & l2 & -> & ->). by rewrite He. Qed.

Lemma Notify_spec i (ws : list (worker T)) : length (Notify i ws) = length ws /\ running_tasks (Notify i ws) = running_tasks ws /\
  (forall j w, Notify i ws !! j = Some w -> ws !! j = Some w \/ j = i /\ w = Ready /\ exists b, ws !! i = Some (Waiting b)) /\
  (forall b, Notify i ws !! i <> Some (Waiting b)) /\ (forall j w, ws !! j = Some w -> awake w -> Notify i ws !! j = Some w) /\
  (forall j, ws !! j = Some Exited -> Notify i ws !! j = Some Exited).
Proof using.
  unfold Notify. destruct (ws !! i) as [[| |b|]|] eqn:Hi; try (split_all; [done|done|by left|congruence|done|done]).
  split_all.
  - apply length_insert.
  - by eapply running_tasks_same.
  - intros j w. destruct (decide (i = j)) as [<-|Hn]; [|rewrite list_lookup_insert_ne by done; by left].
    rewrite list_lookup_insert_eq by (by eapply lookup_lt_Some). intros [= <-]. right. split_all; [done|done|by exists b].
  - intros d. rewrite list_lookup_insert_eq by (by eapply lookup_lt_Some). done.
  - intros j w Hj Ha. destruct (decide (i = j)) as [<-|]; [|by rewrite list_lookup_insert_ne]. rewrite Hi in Hj. by simplify_eq.
  - intros j Hj. destruct (decide (i = j)) as [<-|]; [congruence|by rewrite list_lookup_insert_ne].
Qed.
End invariant.
