(* ===== verification/WorkersTheorems.v ===== *)
(** The worker threads of the platform lose and reorder no task, never all sleep while a task
    is queued, and stop after Terminate. *)
From S2P Require Import Prelude PlatformTime WorkersRunner.

(** ** The queue *)

Lemma move_due_spec {T} fuel now (q : DelayedTaskQueue T) : (length (delayed_task_queue_ q) < fuel)%nat ->
  exists M D, delayed_task_queue_ q = M ++ D /\ move_due fuel now q = mkQueue (task_queue_ q ++ M.*2) D (queue_terminated_ q) /\
    Forall (fun e => time_le e.1 now) M /\ (forall e D', D = e :: D' -> time_lt now e.1).
Proof.
  revert q. induction fuel as [|fuel IH]; intros q Hf; [lia|]. cbn [move_due]. unfold PopTaskFromDelayedQueue.
  destruct q as [Q [|[key t] m] b]; simpl in *.
  { exists [], []. split_all; [done|by rewrite app_nil_r|done|done]. }
  destruct (time_gtb key now) eqn:Hk.
  { exists [], ((key, t) :: m). split_all; [done|by rewrite app_nil_r|done|]. by intros e D' [= <- <-]. }
  destruct (IH (Append t (mkQueue Q m b)) ltac:(simpl; lia)) as (M & D & E1 & -> & E3 & E4). simpl in *. subst m.
  exists ((key, t) :: M), D. split_all; [done|simpl; by rewrite <- app_assoc|by constructor|done].
Qed.

(** The delayed tasks are in the order of their deadlines. *)
Definition by_deadline {T} (m : list (time * T)) : Prop :=
  Forall (fun e => is_number e.1) m /\ forall i j e e', m !! i = Some e -> m !! j = Some e' -> (i <= j)%nat -> time_le e.1 e'.1.

Lemma by_deadline_cons {T} (e : time * T) m : by_deadline (e :: m) <-> is_number e.1 /\ Forall (fun e' => time_le e.1 e'.1) m /\ by_deadline m.
Proof.
  split.
  - intros [[H1 H2]%Forall_cons H3]. split_all; [done| |split; [done|]].
    + apply Forall_lookup. intros i e' Hi. by apply (H3 0%nat (S i)); [| |lia].
    + intros i j a b Hi Hj Hij. by apply (H3 (S i) (S j)); [| |lia].
  - intros (H1 & H2 & H3 & H4). split; [by constructor|]. intros [|i] [|j] a b; simpl; intros; simplify_eq; [by apply time_le_refl| |lia|].
    + by eapply (Forall_lookup_1 _ _ j) in H2.
    + eapply (H4 i j); [done|done|lia].
Qed.

Lemma emplace_perm {T} key (t : T) m : emplace key t m ≡ₚ (key, t) :: m.
Proof. induction m as [|e m IH]; simpl; [done|]. destruct (time_ltb _ _); [done|]. rewrite IH. solve_Permutation. Qed.

Lemma emplace_by_deadline {T} key (t : T) m : is_number key -> by_deadline m -> by_deadline (emplace key t m).
Proof.
  intros Hk. induction m as [|e m IH]; simpl; intros Hm; [apply by_deadline_cons; by split_all|].
  pose proof (proj1 (by_deadline_cons e m) Hm) as (H1 & H2 & H3). destruct (time_ltb key e.1) eqn:He; apply by_deadline_cons; simpl.
  - split_all; [done| |done]. assert (time_le key e.1) as Hl by (by apply time_lt_le). constructor; [done|].
    apply Forall_forall. intros e' Hin. pose proof (proj1 (Forall_forall _ _) H2 e' Hin). pose proof (proj1 (Forall_forall _ _) (proj1 H3) e' Hin).
    by apply (time_le_trans _ e.1).
  - split_all; [done| |by apply IH]. rewrite emplace_perm. by constructor.
Qed.

(** What TryGetNext returns: the first task of the queue with the due tasks at its end; else
    the end, the time to wait, or neither. *)
Lemma TryGetNext_spec {T} now (q : DelayedTaskQueue T) : exists M D, delayed_task_queue_ q = M ++ D /\
  Forall (fun e => time_le e.1 now) M /\ (forall e D', D = e :: D' -> time_lt now e.1) /\
  drop (length (task_queue_ q)) (task_queue_ (move_due (S (length (delayed_task_queue_ q))) now q)) = M.*2 /\
  match task_queue_ q ++ M.*2 with
  | t :: rest => TryGetNext now q = (kTask t, mkQueue rest D (queue_terminated_ q))
  | [] => exists r, TryGetNext now q = (r, mkQueue [] D (queue_terminated_ q)) /\
    (if queue_terminated_ q then r = kTerminated else match D with [] => r = kWaitIndefinite | _ => exists s, r = kWaitDelayed s end)
  end.
Proof.
  destruct (move_due_spec (S (length (delayed_task_queue_ q))) now q ltac:(lia)) as (M & D & E1 & E2 & E3 & E4).
  exists M, D. split_all; [done|done|done|by rewrite E2; simpl; rewrite drop_app_length|]. unfold TryGetNext. rewrite E2. simpl.
  destruct (task_queue_ q ++ M.*2); [|done]. destruct (queue_terminated_ q); [by eexists|]. destruct D as [|[key t] D]; [by eexists|].
  eexists. split; [done|]. by eexists.
Qed.

(** ** Threads *)

Lemma running_tasks_ready {T} n : running_tasks (replicate n (@Ready T)) = [].
Proof. unfold running_tasks. by induction n. Qed.

Section threads.
Context {T : Type} (time_function : clock) (size : nat) (size_pos : (0 < size)%nat).

(** Other threads keep what they were. *)
Lemma some_thread_insert (P : worker T -> Prop) i w ws : (i < length ws)%nat -> P w -> some_thread P (<[i := w]> ws).
Proof using. intros Hi Hw. exists i, w. split; [by apply list_lookup_insert_eq|done]. Qed.

Lemma some_thread_Notify i (ws : list (worker T)) : some_thread awake ws -> some_thread awake (Notify i ws).
Proof using. intros (j & w & Hj & Hw). exists j, w. split; [by apply Notify_spec|done]. Qed.

(** After a post a thread is awake: the notified one, or one that was not in [idle_threads_]. *)
Lemma notify_back_awake idle ws idle' ws' : length ws = size ->
  (forall i, i ∈ idle -> (i < size)%nat) -> (forall i b, ws !! i = Some (Waiting b) -> i ∈ idle) -> (forall i, ws !! i <> Some Exited) ->
  notify_back idle ws = (idle', ws') ->
  length ws' = size /\ running_tasks ws' = running_tasks (T:=T) ws /\ some_thread awake ws' /\
  (forall i, i ∈ idle' -> (i < size)%nat) /\ (forall i b, ws' !! i = Some (Waiting b) -> i ∈ idle') /\ (forall i, ws' !! i <> Some Exited).
Proof using size_pos.
  intros Hl Hi Hw He. unfold notify_back. destruct (last idle) as [k|] eqn:Hk.
  - intros [= <- <-]. destruct (Notify_spec k ws) as (N1 & N2 & N3 & N4 & N5 & _).
    apply last_Some in Hk as [idle0 ->]. rewrite removelast_app in * by done. simpl in *. rewrite app_nil_r in *.
    assert (k < size)%nat as Hks by (apply Hi, elem_of_app; right; by apply list_elem_of_singleton).
    split_all; [lia|done| |intros i Hin; apply Hi, elem_of_app; by left| |].
    + destruct (lookup_lt_is_Some_2 (Notify k ws) k ltac:(lia)) as [w Hkw]. exists k, w. split; [done|].
      destruct w; try done; [by destruct (N4 timed)|]. destruct (N3 _ _ Hkw) as [H1|(_ & H1 & _)]; [by destruct (He k)|done].
    + intros i b Hib. destruct (N3 _ _ Hib) as [H1|(_ & H1 & _)]; [|done]. apply Hw in H1 as [H1|H1%list_elem_of_singleton]%elem_of_app; [done|].
      subst i. by destruct (N4 b).
    + intros i Hie. destruct (N3 _ _ Hie) as [H1|(_ & H1 & _)]; [by apply (He i)|done].
  - intros [= <- <-]. apply last_None in Hk as ->. split_all; try done.
    destruct (lookup_lt_is_Some_2 ws 0 ltac:(lia)) as [w Hw0]. exists 0%nat, w. split; [done|].
    destruct w; try done; [apply Hw in Hw0; by apply elem_of_nil in Hw0|by destruct (He 0%nat)].
Qed.

Lemma winv_start : winv size (DefaultWorkerThreadsTaskRunner (T:=T) size).
Proof using.
  constructor; simpl; try done.
  - by rewrite running_tasks_ready.
  - by rewrite length_replicate.
  - intros _. split_all; try done.
    + intros i Hin. by apply elem_of_nil in Hin.
    + intros i b [? _]%lookup_replicate. done.
    + intros i [? _]%lookup_replicate. done.
Qed.

(** A post: [r] is the runner with the new queue. *)
Lemma post_winv (c : wconfig T) t queue idle ws k entered : winv size c -> runner_terminated_ (the_runner c) = false ->
  queue_terminated_ queue = false ->
  task_queue_ queue ++ (delayed_task_queue_ queue).*2 ≡ₚ t :: task_queue_ (queue_ (the_runner c)) ++ (delayed_task_queue_ (queue_ (the_runner c))).*2 ->
  entered = w_started c ++ task_queue_ queue ->
  notify_back (idle_threads_ (the_runner c)) (threads c) = (idle, ws) ->
  winv size (mkWorkers (mkTaskRunner false idle queue) ws (terminate_pc c) k (t :: w_posted c) entered (w_started c) (w_finished c) (w_dropped c)).
Proof using size_pos.
  intros [C1 C2 C3 C4 C5 C6 C7 C8] Ht Hq Hp -> Hn. destruct (C5 Ht) as (I1 & I2 & I3 & I4).
  destruct (notify_back_awake _ _ _ _ C3 I1 I2 I3 Hn) as (N1 & N2 & N3 & N4 & N5 & N6).
  constructor; simpl; try done.
  - rewrite C1, N2. revert Hp. clear. intros Hp.
    trans (w_finished c ++ running_tasks (threads c) ++ w_dropped c ++ (t :: task_queue_ (queue_ (the_runner c)) ++ (delayed_task_queue_ (queue_ (the_runner c))).*2)); [solve_Permutation|].
    rewrite <- Hp. solve_Permutation.
  - intros _ _. destruct N3 as (i & w & Hi & Hw). exists i, w. split; [done|by left].
Qed.

Lemma PostTaskImpl_winv t (c : wconfig T) : winv size c -> winv size (PostTaskImpl t c).
Proof using size_pos.
  intros Hc. unfold PostTaskImpl. destruct (runner_terminated_ _) eqn:Ht.
  - destruct Hc as [C1 C2 C3 C4 C5 C6 C7 C8]. constructor; simpl; try done. rewrite C1. solve_Permutation.
  - destruct (notify_back _ _) as [idle ws] eqn:Hn. pose proof (w_flags _ _ Hc) as Hf. pose proof (w_order _ _ Hc) as Ho.
    apply post_winv; try done; simpl; [congruence|solve_Permutation|by rewrite Ho, app_assoc].
Qed.

Lemma PostDelayedTaskImpl_winv t d (c : wconfig T) : winv size c -> winv size (PostDelayedTaskImpl time_function t d c).
Proof using size_pos.
  intros Hc. unfold PostDelayedTaskImpl. destruct (runner_terminated_ _) eqn:Ht.
  - destruct Hc as [C1 C2 C3 C4 C5 C6 C7 C8]. constructor; simpl; try done. rewrite C1. solve_Permutation.
  - destruct (notify_back _ _) as [idle ws] eqn:Hn. pose proof (w_flags _ _ Hc) as Hf. pose proof (w_order _ _ Hc) as Ho.
    apply post_winv; try done; simpl; [congruence|rewrite emplace_perm; simpl; solve_Permutation].
Qed.

(** A thread that changes: what holds of the others. *)
Lemma insert_ready_pc (ws : list (worker T)) i w p : ws !! i = Some Ready -> (forall d, w <> Waiting d) ->
  (exists j b, p = Destroying j b /\ (j <= size)%nat /\ (b = true -> (j < size)%nat) /\ (forall k, (k < j)%nat -> ws !! k = Some Exited) /\ (b = true -> forall d, ws !! j <> Some (Waiting d))) ->
  exists j b, p = Destroying j b /\ (j <= size)%nat /\ (b = true -> (j < size)%nat) /\ (forall k, (k < j)%nat -> <[i := w]> ws !! k = Some Exited) /\ (b = true -> forall d, <[i := w]> ws !! j <> Some (Waiting d)).
Proof using.
  intros Hi Hw (j & b & Hp & Hj & Hb & He & Hn). exists j, b. split_all; try done.
  - intros k Hk. destruct (decide (i = k)) as [->|]; [|rewrite list_lookup_insert_ne by done; by apply He]. specialize (He k Hk). congruence.
  - intros Hbt d. destruct (decide (i = j)) as [->|]; [|rewrite list_lookup_insert_ne by done; by apply Hn].
    rewrite list_lookup_insert_eq by (by eapply lookup_lt_Some). intros [= Hwd]. by destruct (Hw d).
Qed.

Lemma insert_no_exited (ws : list (worker T)) i w : (forall k, ws !! k <> Some Exited) -> w <> Exited -> forall k, <[i := w]> ws !! k <> Some Exited.
Proof using. intros He Hw k. intros [(-> & [= ?] & _)|[_ Hk]]%list_lookup_insert_Some; [congruence|by apply (He k)]. Qed.

Lemma worker_round_winv i (c : wconfig T) : winv size c -> threads c !! i = Some Ready -> winv size (worker_round time_function i c).
Proof using size_pos.
  intros [C1 C2 C3 C4 C5 C6 C7 C8] Hi. unfold worker_round.
  destruct (TryGetNext_spec (time_function (clock_reads c)) (queue_ (the_runner c))) as (M & D & E1 & _ & _ & -> & Hq).
  assert (i < length (threads c))%nat as Hlt by (by eapply lookup_lt_Some). rewrite E1, fmap_app in C1.
  destruct (task_queue_ (queue_ (the_runner c)) ++ M.*2) as [|t rest] eqn:HQ.
  - destruct Hq as (r & -> & Hr). apply app_eq_nil in HQ as [HQ HM]. rewrite HQ, HM in *.
    destruct (running_tasks_insert i Ready Exited (threads c) Hi) as (l1 & l2 & R1 & R2).
    rewrite C4 in Hr. destruct (runner_terminated_ (the_runner c)) eqn:Ht.
    + subst r. constructor; simpl; try done.
      * rewrite C1. by rewrite (running_tasks_same _ Ready Exited _ Hi).
      * by rewrite C2, !app_nil_r.
      * by rewrite length_insert.
      * intros _. apply insert_ready_pc; auto.
    + destruct (C5 eq_refl) as (I1 & I2 & I3 & I4).
      assert (forall b, (D <> [] -> b = true) -> winv size (mkWorkers (mkTaskRunner false (idle_threads_ (the_runner c) ++ [i]) (mkQueue [] D false)) (<[i := Waiting b]> (threads c)) (terminate_pc c) (S (clock_reads c))
        (w_posted c) (w_entered c ++ []) (w_started c ++ []) (w_finished c) (w_dropped c))) as Hwait.
      { intros b Hb. constructor; simpl; try done.
        - rewrite C1. by rewrite (running_tasks_same _ Ready (Waiting b) _ Hi).
        - by rewrite C2, !app_nil_r.
        - by rewrite length_insert.
        - intros _. split_all; [| | |done].
          + intros j [Hj|Hj%list_elem_of_singleton]%elem_of_app; [by apply I1|lia].
          + intros j d. intros [(-> & _ & _)|[_ Hj]]%list_lookup_insert_Some; apply elem_of_app; [right; by apply list_elem_of_singleton|left; by eapply I2].
          + by apply insert_no_exited.
        - intros _ HD. apply some_thread_insert; [done|]. right. by rewrite (Hb HD). }
      rewrite C4 in *. destruct D as [|[key u] D]; [subst r; by apply Hwait|]. destruct Hr as [d ->]. by apply Hwait.
  - rewrite Hq. constructor; simpl; try done.
    + destruct (running_tasks_insert i Ready (RunningTask t) (threads c) Hi) as (l1 & l2 & R1 & R2). rewrite C1, R1, R2. simpl.
      trans (w_finished c ++ l1 ++ l2 ++ (task_queue_ (queue_ (the_runner c)) ++ M.*2) ++ D.*2 ++ w_dropped c); [solve_Permutation|]. rewrite HQ. solve_Permutation.
    + rewrite C2, <- !app_assoc, HQ. done.
    + by rewrite length_insert.
    + intros Ht. destruct (C5 Ht) as (I1 & I2 & I3 & I4). split_all; [done| |by apply insert_no_exited|done].
      intros j d [(_ & [=] & _)|[_ Hj]]%list_lookup_insert_Some. by eapply I2.
    + intros _. by apply some_thread_insert.
    + intros _ _. apply some_thread_insert; [done|by left].
    + intros Ht. apply insert_ready_pc; auto.
Qed.

(** A thread that becomes ready, from a task that ended or from a wait. *)
Lemma ready_winv i w fin (c : wconfig T) : winv size c -> threads c !! i = Some w -> w <> Exited -> fin ≡ₚ task_of w ++ w_finished c ->
  winv size (mkWorkers (the_runner c) (<[i := Ready]> (threads c)) (terminate_pc c) (clock_reads c) (w_posted c) (w_entered c) (w_started c) fin (w_dropped c)).
Proof using.
  intros [C1 C2 C3 C4 C5 C6 C7 C8] Hi Hw Hf. assert (i < length (threads c))%nat as Hlt by (by eapply lookup_lt_Some). constructor; simpl; try done.
  - destruct (running_tasks_insert i w Ready (threads c) Hi) as (l1 & l2 & R1 & R2). rewrite C1, R1, R2, Hf. simpl. solve_Permutation.
  - by rewrite length_insert.
  - intros Ht. destruct (C5 Ht) as (I1 & I2 & I3 & I4). split_all; [done| |by apply insert_no_exited|done].
    intros j d [(_ & [=] & _)|[_ Hj]]%list_lookup_insert_Some. by eapply I2.
  - intros _. by apply some_thread_insert.
  - intros _ _. apply some_thread_insert; [done|by left].
  - intros Ht. destruct (C8 Ht) as (j & b & Hp & Hj & Hb & He & Hn). exists j, b. split_all; try done.
    + intros k Hk. destruct (decide (i = k)) as [->|]; [|rewrite list_lookup_insert_ne by done; by apply He]. specialize (He k Hk). congruence.
    + intros Hbt d. intros [(_ & [=] & _)|[_ Hj']]%list_lookup_insert_Some. by apply (Hn Hbt d).
Qed.

Lemma wstep_winv (c : wconfig T) l c' : winv size c -> wstep time_function c l c' -> winv size c'.
Proof using size_pos.
  intros Hc Hs. inversion Hs; subst.
  - by apply PostTaskImpl_winv.
  - by apply PostDelayedTaskImpl_winv.
  - by apply worker_round_winv.
  - by apply (ready_winv i (RunningTask t)).
  - by apply (ready_winv i (Waiting b)).
  - destruct Hc as [C1 C2 C3 C4 C5 C6 C7 C8]. constructor; simpl; try done. intros _. exists 0%nat, false. split_all; [done|lia|done|lia|done].
  - destruct Hc as [C1 C2 C3 C4 C5 C6 C7 C8]. destruct (Notify_spec i (threads c)) as (N1 & N2 & N3 & N4 & N5 & N6).
    assert (runner_terminated_ (the_runner c) = true) as Ht by (destruct (runner_terminated_ _); [done|]; destruct (C5 eq_refl) as (_ & _ & _ & ?); congruence).
    unfold set_threads. constructor; simpl; try done; try (by rewrite Ht).
    + by rewrite N2.
    + lia.
    + intros HQ. by apply some_thread_Notify, C6.
    + intros _. destruct (C8 Ht) as (j & b & Hp & Hj & _ & He & _). assert (j = i) as -> by congruence. exists i, true.
      split_all; [done|done|lia|intros k Hk; by apply N6, He|intros _; apply N4].
  - destruct Hc as [C1 C2 C3 C4 C5 C6 C7 C8].
    assert (runner_terminated_ (the_runner c) = true) as Ht by (destruct (runner_terminated_ _); [done|]; destruct (C5 eq_refl) as (_ & _ & _ & ?); congruence).
    unfold set_threads. constructor; simpl; try done; try (by rewrite Ht).
    intros _. destruct (C8 Ht) as (j & b & Hp & Hj & Hb & He & _). assert (j = i) as -> by congruence. assert (b = true) as -> by congruence. specialize (Hb eq_refl).
    exists (S i), false. split_all; [done|lia|done| |done]. intros k Hk. destruct (decide (k = i)) as [->|]; [done|]. apply He. lia.
Qed.

Lemma reachable_winv tr (c : wconfig T) : run (wstep time_function) (DefaultWorkerThreadsTaskRunner (T:=T) size) tr c -> winv size c.
Proof using size_pos. intros Hr. refine (run_invariant _ (@winv T size) _ _ _ _ winv_start Hr). intros s l s'. apply wstep_winv. Qed.

(** ** Termination *)

Definition weight_of (w : worker T) : nat := match w with Exited => 0 | Ready => 1 | RunningTask _ => 2 | Waiting _ => 2 end.
Definition weight_all (ws : list (worker T)) : nat := list_sum (weight_of <$> ws).

(** The steps that are left once Terminate was called: tasks to take, to end, threads to wake,
    to end, to notify and to join. *)
Definition measure (c : wconfig T) : nat :=
  let q := queue_ (the_runner c) in
  3 * (length (task_queue_ q) + length (delayed_task_queue_ q)) + weight_all (threads c) +
  match terminate_pc c with Destroying i b => 2 * (length (threads c) - i) - (if b then 1 else 0) | NotTerminating => 0 end.

Lemma weight_insert i w w' (ws : list (worker T)) : ws !! i = Some w -> (weight_all (<[i := w']> ws) + weight_of w = weight_all ws + weight_of w')%nat.
Proof using size_pos. apply list_sum_insert. Qed.

Lemma weight_Notify i (ws : list (worker T)) : (weight_all (Notify i ws) <= weight_all ws)%nat.
Proof using size_pos.
  unfold Notify. destruct (ws !! i) as [[| |b|]|] eqn:Hi; try lia. pose proof (weight_insert i (Waiting b) Ready ws Hi). simpl in *. lia.
Qed.

Definition is_post (l : wlabel T) : bool := match l with PostTask _ | PostDelayedTask _ _ => true | _ => false end.

Lemma terminating_step (c : wconfig T) l c' : winv size c -> runner_terminated_ (the_runner c) = true -> wstep time_function c l c' ->
  runner_terminated_ (the_runner c') = true /\ if is_post l then measure c' = measure c else (measure c' < measure c)%nat.
Proof using size_pos.
  intros Hc Ht Hs. inversion Hs; subst; simpl.
  - unfold PostTaskImpl. rewrite Ht. by split.
  - unfold PostDelayedTaskImpl. rewrite Ht. by split.
  - unfold worker_round. destruct (TryGetNext_spec (time_function (clock_reads c)) (queue_ (the_runner c))) as (M & D & E1 & _ & _ & _ & Hq).
    unfold measure. destruct (task_queue_ (queue_ (the_runner c)) ++ M.*2) as [|t rest] eqn:HQ.
    + destruct Hq as (r & -> & Hr). rewrite (w_flags _ _ Hc), Ht in Hr. subst r. simpl. split; [done|].
      pose proof (weight_insert i Ready Exited _ ltac:(eassumption)) as Hw. apply app_eq_nil in HQ as [HQ HM]. apply fmap_nil_inv in HM. subst M.
      rewrite HQ, E1, length_insert. simpl in *. destruct (terminate_pc c); lia.
    + rewrite Hq. simpl. split; [done|]. pose proof (weight_insert i Ready (RunningTask t) _ ltac:(eassumption)) as Hw.
      apply (f_equal length) in HQ. rewrite length_app, length_fmap in HQ. rewrite E1, length_app, length_insert. simpl in *. destruct (terminate_pc c); lia.
  - split; [done|]. unfold measure. simpl. pose proof (weight_insert i (RunningTask t) Ready _ ltac:(eassumption)) as Hw. rewrite length_insert. simpl in *. lia.
  - split; [done|]. unfold measure. simpl. pose proof (weight_insert i (Waiting b) Ready _ ltac:(eassumption)) as Hw. rewrite length_insert. simpl in *. lia.
  - congruence.
  - split; [done|]. unfold measure. simpl. pose proof (weight_Notify i (threads c)). destruct (Notify_spec i (threads c)) as (N1 & _).
    match goal with Hp : terminate_pc c = _ |- _ => rewrite Hp end. lia.
  - split; [done|]. unfold measure. simpl. match goal with Hp : terminate_pc c = _, Hj : threads c !! i = _ |- _ => rewrite Hp; apply lookup_lt_Some in Hj end. lia.
Qed.

(** Until the last thread is joined, a thread can take a step. *)
Lemma terminating_progress (c : wconfig T) : winv size c -> runner_terminated_ (the_runner c) = true -> terminate_pc c <> Destroying size false ->
  exists l c', is_post l = false /\ wstep time_function c l c'.
Proof using size_pos.
  intros Hc Ht Hn. destruct (w_pc _ _ Hc Ht) as (i & b & Hp & Hi & Hb & He & Hw). pose proof (w_size _ _ Hc) as Hl.
  assert (i < size)%nat as Hlt by (destruct b; [by apply Hb|]; destruct (decide (i = size)); [by subst|lia]).
  destruct b; [|eexists DestroyThread, _; split; [done|]; eapply wstep_destroy; [exact Hp|lia]].
  destruct (lookup_lt_is_Some_2 (threads c) i ltac:(lia)) as [[|t|d|] Hs].
  - eexists (WorkerRound i), _. split; [done|]. by apply wstep_round.
  - eexists (EndTask i), _. split; [done|]. by eapply wstep_end.
  - by destruct (Hw eq_refl d).
  - eexists JoinThread, _. split; [done|]. by eapply wstep_join.
Qed.
End threads.
