(* ===== verification/Jobs.v ===== *)
(** Jobs of the platform: src/src/libplatform/default-job.{h,cc}.

    The counters of a job with every section of code under its mutex, the task ids that the
    delegates take and give back with compare-and-exchange, and the interleavings of the
    worker tasks with the owner of the handle, who joins, cancels or detaches. The answers of
    the user's GetMaxConcurrency are arguments of the steps: any number at any time. *)
From S2P Require Import Prelude.

Definition kMaxWorkersPerJob : Z := 32.

Inductive TaskPriority := kBestEffort | kUserVisible | kUserBlocking.

Record DefaultJobState := mkJob {
  priority_ : TaskPriority; active_workers_ : Z; pending_tasks_ : Z; is_canceled_ : bool;
  num_worker_threads_ : Z; assigned_task_ids_ : Z;
}.

Definition new_DefaultJobState (priority : TaskPriority) (num_worker_threads : Z) : DefaultJobState :=
  mkJob priority 0 0 false (Z.min num_worker_threads kMaxWorkersPerJob) 0.

Definition set_counters (active pending : Z) (s : DefaultJobState) : DefaultJobState :=
  mkJob (priority_ s) active pending (is_canceled_ s) (num_worker_threads_ s) (assigned_task_ids_ s).
Definition set_canceled (s : DefaultJobState) : DefaultJobState :=
  mkJob (priority_ s) (active_workers_ s) (pending_tasks_ s) true (num_worker_threads_ s) (assigned_task_ids_ s).
Definition set_ids (ids : Z) (s : DefaultJobState) : DefaultJobState :=
  mkJob (priority_ s) (active_workers_ s) (pending_tasks_ s) (is_canceled_ s) (num_worker_threads_ s) ids.

(** [answer] is what job_task_->GetMaxConcurrency(worker_count) returns. *)
Definition CappedMaxConcurrency (answer : Z) (s : DefaultJobState) : Z := Z.min answer (num_worker_threads_ s).

(** The tasks that are missing to reach the concurrency, counted as pending. *)
Definition post_missing (max_concurrency : Z) (s : DefaultJobState) : DefaultJobState * Z :=
  if active_workers_ s + pending_tasks_ s <? max_concurrency then
    let num_tasks_to_post := max_concurrency - active_workers_ s - pending_tasks_ s in
    (set_counters (active_workers_ s) (pending_tasks_ s + num_tasks_to_post) s, num_tasks_to_post)
  else (s, 0).

(** The number of worker tasks that are posted, after the lock was released. *)
Definition NotifyConcurrencyIncrease (answer : Z) (s : DefaultJobState) : DefaultJobState * Z :=
  if is_canceled_ s then (s, 0) else post_missing (CappedMaxConcurrency answer s) s.

Definition CanRunFirstTask (answer : Z) (s : DefaultJobState) : DefaultJobState * bool :=
  let s := set_counters (active_workers_ s) (pending_tasks_ s - 1) s in
  if is_canceled_ s then (s, false)
  else if CappedMaxConcurrency answer s <=? active_workers_ s then (s, false)
  else (set_counters (active_workers_ s + 1) (pending_tasks_ s) s, true).

(** With it whether the worker goes on, the tasks to post, and whether the waiter is notified. *)
Definition DidRunTask (answer : Z) (s : DefaultJobState) : DefaultJobState * bool * Z * bool :=
  let max_concurrency := CappedMaxConcurrency answer s in
  if is_canceled_ s || (max_concurrency <? active_workers_ s) then
    (set_counters (active_workers_ s - 1) (pending_tasks_ s) s, false, 0, true)
  else let '(s, n) := post_missing max_concurrency s in (s, true, n, false).

Definition CancelAndDetach (s : DefaultJobState) : DefaultJobState := set_canceled s.
Definition IsActive (answer : Z) (s : DefaultJobState) : bool := negb (answer =? 0) || negb (active_workers_ s =? 0).
Definition UpdatePriority (p : TaskPriority) (s : DefaultJobState) : DefaultJobState :=
  mkJob p (active_workers_ s) (pending_tasks_ s) (is_canceled_ s) (num_worker_threads_ s) (assigned_task_ids_ s).

(** ** Task ids *)

(** CountTrailingZeros32(~ids): the first zero bit of a uint32; 32 when there is none. *)
Fixpoint first_zero (fuel : nat) (i ids : Z) : Z :=
  match fuel with
  | O => i
  | S fuel => if Z.testbit ids i then first_zero fuel (i + 1) ids else i
  end.
Definition next_task_id (ids : Z) : Z := first_zero 32 0 ids.

(** One round of the loop of AcquireTaskId on the value that was read last: the id; or the
    value that the failed exchange read; [None]: a shift by 32, undefined behaviour. *)
Definition AcquireTaskId (assigned_task_ids : Z) (s : DefaultJobState) : option (DefaultJobState * (Z + Z)) :=
  let task_id := next_task_id assigned_task_ids in
  if task_id =? 32 then None
  else
    let new_assigned_task_ids := Z.lor assigned_task_ids (Z.shiftl 1 task_id) in
    if assigned_task_ids_ s =? assigned_task_ids then Some (set_ids new_assigned_task_ids s, inl task_id)
    else Some (s, inr (assigned_task_ids_ s)).

Definition ReleaseTaskId (task_id : Z) (s : DefaultJobState) : DefaultJobState :=
  set_ids (Z.land (assigned_task_ids_ s) (Z.lnot (Z.shiftl 1 task_id))) s.

(** ** Join *)

Inductive opportunity := MustWait | Participate (max_concurrency : Z) | Finished.

(** One test of the loop of WaitForParticipationOpportunity, and what follows it. *)
Definition WaitForParticipationOpportunity (answer : Z) (s : DefaultJobState) : DefaultJobState * opportunity :=
  let max_concurrency := CappedMaxConcurrency answer s in
  if (max_concurrency <? active_workers_ s) && (1 <? active_workers_ s) then (s, MustWait)
  else if negb (max_concurrency =? 0) then (s, Participate max_concurrency)
  else (set_canceled (set_counters 0 (pending_tasks_ s) s), Finished).

(** The reservation at the start of Join. *)
Definition Join_reserve (s : DefaultJobState) : DefaultJobState :=
  mkJob kUserBlocking (active_workers_ s + 1) (pending_tasks_ s) (is_canceled_ s) (num_worker_threads_ s + 1) (assigned_task_ids_ s).

(** ** Threads *)

(** The task id of a JobDelegate: none yet, within AcquireTaskId, or acquired. *)
Inductive delegate := NoId | Acquiring (assigned_task_ids : Z) | HasId (task_id : Z).

(** A DefaultJobWorker: posted, in job_task_->Run, back from it with its delegate destroyed,
    or at its end. The thread of Join is the first entry. *)
Inductive participant := Posted | RunningJob (d : delegate) | Returned | Done.

(** The owner of the handle. *)
Inductive owner := Holding | JoinTest (first : bool) | JoinWaiting (first : bool) | JoinRunning | Joined
  | CancelTest | CancelWaiting | Canceled | Detached.

Record jconfig := mkJobConfig { job : DefaultJobState; participants : list participant; handle : owner; undefined : bool }.

Definition jstart (p : TaskPriority) (num_worker_threads : Z) : jconfig := mkJobConfig (new_DefaultJobState p num_worker_threads) [Done] Holding false.

Inductive jlabel := Notify (answer : Z) | FirstTask (i : nat) (answer : Z) | GetTaskId (i : nat) | Cas (i : nat) | RunReturns (i : nat) | AfterTask (i : nat) (answer : Z)
  | CallJoin | TestJoin (answer : Z) | WakeOwner | JoinTaskReturns | CallCancel | TestCancel | CallDetach | SetPriority (p : TaskPriority).

Definition post (n : Z) (ps : list participant) : list participant := ps ++ replicate (Z.to_nat n) Posted.

(** worker_released_condition_.NotifyOne(): only the owner waits on it. *)
Definition notify_owner (b : bool) (o : owner) : owner :=
  match o with
  | JoinWaiting first => if b then JoinTest first else o
  | CancelWaiting => if b then CancelTest else o
  | _ => o
  end.

(** The destructor of a delegate. *)
Definition destroy_delegate (d : delegate) (s : DefaultJobState) : DefaultJobState :=
  match d with HasId task_id => ReleaseTaskId task_id s | _ => s end.

Definition in_run (o : owner) (i : nat) : Prop := i = 0%nat -> o = JoinRunning.

Inductive jstep : jconfig -> jlabel -> jconfig -> Prop :=
| jstep_notify c n s k : 0 <= n -> NotifyConcurrencyIncrease n (job c) = (s, k) ->
    jstep c (Notify n) (mkJobConfig s (post k (participants c)) (handle c) (undefined c))
| jstep_notify_late c n s k : 0 <= n -> is_canceled_ (job c) = true ->        (* is_canceled_ was read before it was set *)
    post_missing (CappedMaxConcurrency n (job c)) (job c) = (s, k) ->
    jstep c (Notify n) (mkJobConfig s (post k (participants c)) (handle c) (undefined c))
| jstep_first c i n s b : 0 <= n -> participants c !! i = Some Posted -> CanRunFirstTask n (job c) = (s, b) ->
    jstep c (FirstTask i n) (mkJobConfig s (<[i := if b then RunningJob NoId else Done]> (participants c)) (handle c) (undefined c))
| jstep_get_id c i : participants c !! i = Some (RunningJob NoId) -> in_run (handle c) i ->
    jstep c (GetTaskId i) (mkJobConfig (job c) (<[i := RunningJob (Acquiring (assigned_task_ids_ (job c)))]> (participants c)) (handle c) (undefined c))
| jstep_cas c i seen s r : participants c !! i = Some (RunningJob (Acquiring seen)) -> AcquireTaskId seen (job c) = Some (s, r) ->
    jstep c (Cas i) (mkJobConfig s (<[i := RunningJob (match r with inl id => HasId id | inr seen => Acquiring seen end)]> (participants c)) (handle c) (undefined c))
| jstep_shift c i seen : participants c !! i = Some (RunningJob (Acquiring seen)) -> AcquireTaskId seen (job c) = None ->
    jstep c (Cas i) (mkJobConfig (job c) (participants c) (handle c) true)
| jstep_returns c i d : participants c !! i = Some (RunningJob d) -> i <> 0%nat -> (forall seen, d <> Acquiring seen) ->
    jstep c (RunReturns i) (mkJobConfig (destroy_delegate d (job c)) (<[i := Returned]> (participants c)) (handle c) (undefined c))
| jstep_after c i n s b k notify : 0 <= n -> participants c !! i = Some Returned -> DidRunTask n (job c) = (s, b, k, notify) ->
    jstep c (AfterTask i n) (mkJobConfig s (post k (<[i := if b then RunningJob NoId else Done]> (participants c))) (notify_owner notify (handle c)) (undefined c))
| jstep_join c : handle c = Holding ->
    jstep c CallJoin (mkJobConfig (Join_reserve (job c)) (<[0%nat := RunningJob NoId]> (participants c)) (JoinTest true) (undefined c))
| jstep_join_wait c first n s : 0 <= n -> handle c = JoinTest first -> WaitForParticipationOpportunity n (job c) = (s, MustWait) ->
    jstep c (TestJoin n) (mkJobConfig s (participants c) (JoinWaiting first) (undefined c))
| jstep_join_run c first n s m s' k : 0 <= n -> handle c = JoinTest first -> WaitForParticipationOpportunity n (job c) = (s, Participate m) ->
    (if first then post_missing m s else (s, 0)) = (s', k) ->
    jstep c (TestJoin n) (mkJobConfig s' (post k (participants c)) JoinRunning (undefined c))
| jstep_join_done c first n s d : 0 <= n -> handle c = JoinTest first -> WaitForParticipationOpportunity n (job c) = (s, Finished) ->
    participants c !! 0%nat = Some (RunningJob d) ->
    jstep c (TestJoin n) (mkJobConfig (destroy_delegate d s) (<[0%nat := Done]> (participants c)) Joined (undefined c))
| jstep_join_returns c d : handle c = JoinRunning -> participants c !! 0%nat = Some (RunningJob d) -> (forall seen, d <> Acquiring seen) ->
    jstep c JoinTaskReturns (mkJobConfig (job c) (participants c) (JoinTest false) (undefined c))
| jstep_wake c o : notify_owner true (handle c) = o -> o <> handle c ->     (* a spurious wake-up *)
    jstep c WakeOwner (mkJobConfig (job c) (participants c) o (undefined c))
| jstep_cancel c : handle c = Holding -> jstep c CallCancel (mkJobConfig (set_canceled (job c)) (participants c) CancelTest (undefined c))
| jstep_cancel_test c : handle c = CancelTest ->
    jstep c TestCancel (mkJobConfig (job c) (participants c) (if 0 <? active_workers_ (job c) then CancelWaiting else Canceled) (undefined c))
| jstep_detach c : handle c = Holding -> jstep c CallDetach (mkJobConfig (CancelAndDetach (job c)) (participants c) Detached (undefined c))
| jstep_priority c p : jstep c (SetPriority p) (mkJobConfig (UpdatePriority p (job c)) (participants c) (handle c) (undefined c)).
