(* ===== verification/JobTheorems.v ===== *)
(** Jobs: the counters are exact and bounded, no worker runs the job once Join or Cancel has
    returned, task ids are distinct, and the owner does not wait alone. *)
From S2P Require Import Prelude Jobs.

(** ** Counting *)

Definition is_posted (p : participant) : nat := match p with Posted => 1 | _ => 0 end.
Definition is_active (p : participant) : nat := match p with RunningJob _ | Returned => 1 | _ => 0 end.
Definition id_of (p : participant) : list Z := match p with RunningJob (HasId i) => [i] | _ => [] end.
Definition count (f : participant -> nat) (ps : list participant) : nat := list_sum (f <$> ps).
Definition held (ps : list participant) : list Z := ps ≫= id_of.

Lemma count_participants_insert f i p q ps : ps !! i = Some p -> (count f (<[i := q]> ps) + f p = count f ps + f q)%nat.
Proof. apply list_sum_insert. Qed.

Lemma count_post f k ps : count f (post k ps) = (count f ps + Z.to_nat k * f Posted)%nat.
Proof.
  unfold count, post. rewrite fmap_app, list_sum_app. f_equal. rewrite fmap_replicate. induction (Z.to_nat k) as [|m IH]; [done|]. simpl. lia.
Qed.

Lemma held_post k ps : held (post k ps) = held ps.
Proof. unfold held, post. rewrite bind_app. induction (Z.to_nat k) as [|m IH]; simpl; [by rewrite app_nil_r|done]. Qed.

Lemma held_insert i p q ps : ps !! i = Some p -> exists h, held ps ≡ₚ id_of p ++ h /\ held (<[i := q]> ps) ≡ₚ id_of q ++ h.
Proof. intros Hi. destruct (bind_insert id_of i p q ps Hi) as (l1 & l2 & H1 & H2). exists (l1 ++ l2). unfold held. rewrite H1, H2. split; solve_Permutation. Qed.

Lemma held_same i p q ps : ps !! i = Some p -> id_of p = id_of q -> held (<[i := q]> ps) ≡ₚ held ps.
Proof. intros Hi He. destruct (held_insert i p q ps Hi) as (h & -> & ->). by rewrite He. Qed.

Lemma lookup_post i k ps : (i < length ps)%nat -> post k ps !! i = ps !! i.
Proof. intros. by apply lookup_app_l. Qed.

(** Whoever holds an id is active. *)
Lemma held_active ps : (length (held ps) <= count is_active ps)%nat.
Proof.
  unfold held, count. induction ps as [|p ps IH]; [done|]. rewrite bind_cons, fmap_cons, length_app.
  change (list_sum (?x :: ?l)) with (x + list_sum l)%nat. assert (length (id_of p) <= is_active p)%nat by (by destruct p as [|[| |]| |]; simpl; lia). lia.
Qed.

Lemma count_participants_pos f i p ps : ps !! i = Some p -> (f p <= count f ps)%nat.
Proof. intros Hi. unfold count. rewrite <- (take_drop_middle ps i p Hi), fmap_app, list_sum_app. simpl. lia. Qed.

(** ** Task ids *)

Lemma first_zero_spec fuel i ids : let r := first_zero fuel i ids in
  i <= r <= i + Z.of_nat fuel /\ (forall j, i <= j < r -> Z.testbit ids j = true) /\ (r < i + Z.of_nat fuel -> Z.testbit ids r = false).
Proof.
  revert i. induction fuel as [|fuel IH]; intros i; cbv zeta; simpl; [split_all; [lia|lia|lia|lia]|].
  destruct (Z.testbit ids i) eqn:Hi; [|split_all; [lia|lia|lia|done]].
  destruct (IH (i + 1)) as (H1 & H2 & H3). split_all; [lia|lia| |intros; apply H3; lia].
  intros j Hj. destruct (decide (j = i)) as [->|]; [done|]. apply H2. lia.
Qed.

(** The bits of [ids] are the ids that are held, all different and below 32. *)
Record ids_ok (ids : Z) (h : list Z) : Prop := {
  ids_nodup : NoDup h;
  ids_range : forall i, i ∈ h -> 0 <= i < 32;
  ids_bits : forall i, 0 <= i -> Z.testbit ids i = true <-> i ∈ h;
}.

#[global] Instance ids_ok_proper ids : Proper ((≡ₚ) ==> iff) (ids_ok ids).
Proof.
  intros h h' Hp. split; intros [H1 H2 H3]; constructor.
  - by rewrite <- Hp.
  - intros i. rewrite <- Hp. apply H2.
  - intros i. rewrite <- Hp. apply H3.
  - by rewrite Hp.
  - intros i. rewrite Hp. apply H2.
  - intros i. rewrite Hp. apply H3.
Qed.

Lemma next_task_id_free ids h : ids_ok ids h -> (length h < 32)%nat -> 0 <= next_task_id ids < 32 /\ next_task_id ids ∉ h.
Proof.
  intros [H1 H2 H3] Hl. unfold next_task_id. destruct (first_zero_spec 32 0 ids) as (F1 & F2 & F3). set (r := first_zero 32 0 ids) in *.
  destruct (decide (r = 32)) as [He|He].
  - exfalso. assert (seqZ 0 32 ⊆+ h) as Hs.
    { apply NoDup_submseteq; [apply NoDup_seqZ|]. intros j Hj%elem_of_seqZ. apply H3; [lia|]. apply F2. lia. }
    apply submseteq_length in Hs. rewrite length_seqZ in Hs. lia.
  - change (Z.of_nat 32) with 32 in *. split; [lia|]. intros Hin. apply H3 in Hin; [|lia]. rewrite F3 in Hin by lia. done.
Qed.

Lemma testbit_set ids i j : 0 <= i -> 0 <= j -> Z.testbit (Z.lor ids (Z.shiftl 1 i)) j = Z.testbit ids j || bool_decide (j = i).
Proof.
  intros Hi Hj. rewrite Z.lor_spec, Z.shiftl_1_l, Z.pow2_bits_eqb by done. f_equal.
  destruct (Z.eqb_spec i j); [by rewrite bool_decide_true|by rewrite bool_decide_false by congruence].
Qed.

Lemma testbit_clear ids i j : 0 <= i -> 0 <= j -> Z.testbit (Z.land ids (Z.lnot (Z.shiftl 1 i))) j = Z.testbit ids j && negb (bool_decide (j = i)).
Proof.
  intros Hi Hj. rewrite Z.land_spec, Z.lnot_spec, Z.shiftl_1_l, Z.pow2_bits_eqb by done. f_equal. f_equal.
  destruct (Z.eqb_spec i j); [by rewrite bool_decide_true|by rewrite bool_decide_false by congruence].
Qed.

Lemma acquire_ids_ok ids h i : ids_ok ids h -> 0 <= i < 32 -> i ∉ h -> ids_ok (Z.lor ids (Z.shiftl 1 i)) (i :: h).
Proof.
  intros [H1 H2 H3] Hi Hn. constructor.
  - by constructor.
  - intros j [->|Hj]%elem_of_cons; [done|by apply H2].
  - intros j Hj. rewrite testbit_set, orb_true_iff, H3, bool_decide_eq_true, elem_of_cons by lia. tauto.
Qed.

Lemma release_ids_ok ids h i : ids_ok ids (i :: h) -> ids_ok (Z.land ids (Z.lnot (Z.shiftl 1 i))) h.
Proof.
  intros [H1 H2 H3]. apply NoDup_cons in H1 as [Hn H1]. pose proof (H2 i ltac:(by left)) as Hi. constructor.
  - done.
  - intros j Hj. apply H2. by right.
  - intros j Hj. rewrite testbit_clear, andb_true_iff, H3, negb_true_iff, bool_decide_eq_false, elem_of_cons by lia. split; [tauto|].
    intros Hin. split; [by right|]. by intros ->.
Qed.

(** ** The invariant *)

Definition joins (o : owner) : bool := match o with JoinTest _ | JoinWaiting _ | JoinRunning | Joined => true | _ => false end.
Definition inside_join (o : owner) : bool := match o with JoinTest _ | JoinWaiting _ | JoinRunning => true | _ => false end.
Definition cancels (o : owner) : bool := match o with Joined | CancelTest | CancelWaiting | Canceled | Detached => true | _ => false end.
Definition over (o : owner) : bool := match o with Joined | Canceled => true | _ => false end.

(** The counters of a job that was made for [n] threads. *)
Record jinv (n : Z) (c : jconfig) : Prop := {
  j_pending : pending_tasks_ (job c) = Z.of_nat (count is_posted (participants c));
  j_active : active_workers_ (job c) = Z.of_nat (count is_active (participants c));
  j_bound : active_workers_ (job c) <= num_worker_threads_ (job c);
  j_threads : num_worker_threads_ (job c) = Z.min n kMaxWorkersPerJob + (if joins (handle c) then 1 else 0);
  j_joiner : if inside_join (handle c) then exists d, participants c !! 0%nat = Some (RunningJob d) else participants c !! 0%nat = Some Done;
  j_waits : match handle c with JoinWaiting _ => 2 <= active_workers_ (job c) | CancelWaiting => 1 <= active_workers_ (job c) | _ => True end;
  j_canceled : cancels (handle c) = true -> is_canceled_ (job c) = true;
  j_over : over (handle c) = true -> active_workers_ (job c) = 0;
}.

(** The task ids; [AcquireTaskId] has seen a value with a free bit. *)
Record tinv (c : jconfig) : Prop := {
  t_ids : ids_ok (assigned_task_ids_ (job c)) (held (participants c));
  t_seen : forall i seen, participants c !! i = Some (RunningJob (Acquiring seen)) -> 0 <= next_task_id seen < 32;
  t_defined : undefined c = false;
}.

Lemma jinv_start n p : 0 <= n -> jinv n (jstart p n).
Proof. intros Hn. constructor; simpl; try done; unfold kMaxWorkersPerJob; lia. Qed.

Lemma tinv_start n p : tinv (jstart p n).
Proof.
  constructor; simpl; [|intros [|[]] seen; simpl; done|done]. unfold held. simpl. constructor; [by constructor|by intros ? ?%elem_of_nil|].
  intros i Hi. rewrite Z.testbit_0_l, elem_of_nil. done.
Qed.

(** The tasks to post are counted. *)
Lemma post_missing_spec m s s' k : post_missing m s = (s', k) -> 0 <= k /\ s' = set_counters (active_workers_ s) (pending_tasks_ s + k) s.
Proof.
  unfold post_missing. destruct (Z.ltb_spec (active_workers_ s + pending_tasks_ s) m); intros [= <- <-]; [split; [lia|done]|].
  split; [done|]. rewrite Z.add_0_r. by destruct s.
Qed.

(** Posting changes neither who is active nor the first entry. *)
Lemma post_jinv n c s k m : jinv n c -> post_missing m (job c) = (s, k) -> jinv n (mkJobConfig s (post k (participants c)) (handle c) (undefined c)).
Proof.
  intros [C1 C2 C3 C4 C5 C6 C7 C8] [Hk ->]%post_missing_spec. constructor; simpl; try done.
  - rewrite count_post. simpl. lia.
  - rewrite count_post. simpl. lia.
  - destruct (inside_join (handle c)); [destruct C5 as [d Hd]; exists d|]; rewrite lookup_post by (by eapply lookup_lt_Some); done.
Qed.

(** A participant other than the joining thread changes. *)
Lemma insert_jinv n c i p q s o u : jinv n c -> participants c !! i = Some p -> (i <> 0%nat \/ q = p \/ (exists d d', p = RunningJob d /\ q = RunningJob d')) ->
  pending_tasks_ s = pending_tasks_ (job c) + Z.of_nat (is_posted q) - Z.of_nat (is_posted p) ->
  active_workers_ s = active_workers_ (job c) + Z.of_nat (is_active q) - Z.of_nat (is_active p) ->
  num_worker_threads_ s = num_worker_threads_ (job c) -> is_canceled_ s = is_canceled_ (job c) -> active_workers_ s <= num_worker_threads_ s ->
  joins o = joins (handle c) -> inside_join o = inside_join (handle c) ->
  match o with JoinWaiting _ => 2 <= active_workers_ s | CancelWaiting => 1 <= active_workers_ s | _ => True end ->
  (cancels o = true -> is_canceled_ s = true) -> (over o = true -> active_workers_ s = 0) ->
  jinv n (mkJobConfig s (<[i := q]> (participants c)) o u).
Proof.
  intros [C1 C2 C3 C4 C5 C6 C7 C8] Hi H0 Hp Ha Hn Hc Hb Hj Hj' Hw Hcc Ho. constructor; simpl; try done.
  - pose proof (count_participants_insert is_posted i p q _ Hi). lia.
  - pose proof (count_participants_insert is_active i p q _ Hi). lia.
  - by rewrite Hn, Hj.
  - rewrite Hj'. destruct (decide (i = 0%nat)) as [->|]; [|by rewrite list_lookup_insert_ne].
    rewrite list_lookup_insert_eq by (by eapply lookup_lt_Some). destruct H0 as [|[->|(d & d' & -> & ->)]]; [done| |].
    + rewrite Hi in C5. done.
    + rewrite Hi in C5. destruct (inside_join (handle c)); [by exists d'|done].
Qed.

(** When nobody is active nobody is in the job. *)
Lemma nobody_active ps : count is_active ps = 0%nat -> forall i d, ps !! i <> Some (RunningJob d) /\ ps !! i <> Some Returned.
Proof. intros Hz i d. split; intros Hi%(count_participants_pos is_active); simpl in Hi; lia. Qed.

(** Posts after a worker went on. *)
Lemma after_go_jinv n c i s k m : jinv n c -> participants c !! i = Some Returned -> i <> 0%nat -> post_missing m (job c) = (s, k) ->
  jinv n (mkJobConfig s (post k (<[i := RunningJob NoId]> (participants c))) (handle c) (undefined c)).
Proof.
  intros Hc Hi H0 Hp. eapply (post_jinv n (mkJobConfig (job c) _ (handle c) (undefined c))); [|exact Hp].
  pose proof Hc as [C1 C2 C3 C4 C5 C6 C7 C8]. eapply insert_jinv; try done; [by left|simpl; lia|simpl; lia].
Qed.

Lemma not_joiner n c i p : jinv n c -> participants c !! i = Some p -> p = Posted \/ p = Returned -> i <> 0%nat.
Proof.
  intros Hc Hi Hp ->. pose proof (j_joiner _ _ Hc) as Hj. destruct (inside_join (handle c)); [destruct Hj as [d Hj]|]; rewrite Hj in Hi; destruct Hp; congruence.
Qed.

Lemma post_0 ps : post 0 ps = ps.
Proof. unfold post. simpl. apply app_nil_r. Qed.

(** Steps that change only the owner, and nothing that the counters depend on. *)
Lemma owner_jinv n c s o u : jinv n c -> pending_tasks_ s = pending_tasks_ (job c) -> active_workers_ s = active_workers_ (job c) ->
  num_worker_threads_ s = num_worker_threads_ (job c) -> (is_canceled_ (job c) = true -> is_canceled_ s = true) ->
  joins o = joins (handle c) -> inside_join o = inside_join (handle c) ->
  match o with JoinWaiting _ => 2 <= active_workers_ s | CancelWaiting => 1 <= active_workers_ s | _ => True end ->
  (cancels o = true -> is_canceled_ s = true) -> (over o = true -> active_workers_ s = 0) ->
  jinv n (mkJobConfig s (participants c) o u).
Proof.
  intros [C1 C2 C3 C4 C5 C6 C7 C8] Hp Ha Hn Hc Hj Hj' Hw Hcc Ho. constructor; simpl; try done; try lia; [by rewrite Hn, Hj|by rewrite Hj'].
Qed.

(** The owner when a worker leaves. *)
Lemma notify_owner_kind b o : joins (notify_owner b o) = joins o /\ inside_join (notify_owner b o) = inside_join o /\
  cancels (notify_owner b o) = cancels o /\ over (notify_owner b o) = over o.
Proof. by destruct o, b. Qed.

Lemma active_pos n c i p : jinv n c -> participants c !! i = Some p -> is_active p = 1%nat -> 1 <= active_workers_ (job c) /\ over (handle c) = false.
Proof.
  intros Hc Hi Hp. pose proof (count_participants_pos is_active i p _ Hi). pose proof (j_active _ _ Hc). split; [lia|].
  destruct (over (handle c)) eqn:Ho; [|done]. pose proof (j_over _ _ Hc Ho). lia.
Qed.

Lemma after_leave_jinv n c i s : jinv n c -> participants c !! i = Some Returned -> s = set_counters (active_workers_ (job c) - 1) (pending_tasks_ (job c)) (job c) ->
  jinv n (mkJobConfig s (<[i := Done]> (participants c)) (notify_owner true (handle c)) (undefined c)).
Proof.
  intros Hc Hi ->. destruct (active_pos _ _ _ _ Hc Hi eq_refl) as [Ha Ho]. destruct (notify_owner_kind true (handle c)) as (K1 & K2 & K3 & K4).
  pose proof Hc as [C1 C2 C3 C4 C5 C6 C7 C8]. eapply insert_jinv; try done; simpl; try lia.
  - left. by eapply not_joiner; eauto.
  - by destruct (handle c).
  - by rewrite K3.
  - by rewrite K4, Ho.
Qed.

(** The end of Join: the joining thread is the only one (DCHECK_EQ(1, active_workers_)). *)
Lemma join_finished n c m s : jinv n c -> inside_join (handle c) = true -> 0 <= m -> WaitForParticipationOpportunity m (job c) = (s, Finished) ->
  active_workers_ (job c) = 1 /\ s = set_canceled (set_counters 0 (pending_tasks_ (job c)) (job c)).
Proof.
  intros Hc Hi Hm. unfold WaitForParticipationOpportunity, CappedMaxConcurrency. pose proof (j_joiner _ _ Hc) as Hj. rewrite Hi in Hj. destruct Hj as [d Hd].
  destruct (active_pos _ _ _ _ Hc Hd eq_refl) as [Ha _]. set (x := Z.min m (num_worker_threads_ (job c))).
  destruct (Z.ltb_spec x (active_workers_ (job c))), (Z.ltb_spec 1 (active_workers_ (job c))), (Z.eqb_spec x 0); simpl; intros [= <-]; split; lia || done.
Qed.

Lemma test_state m s s' r : WaitForParticipationOpportunity m s = (s', r) -> r <> Finished ->
  s' = s /\ (r = MustWait -> 2 <= active_workers_ s).
Proof.
  unfold WaitForParticipationOpportunity. destruct (Z.ltb_spec (CappedMaxConcurrency m s) (active_workers_ s)), (Z.ltb_spec 1 (active_workers_ s)), (CappedMaxConcurrency m s =? 0);
    simpl; intros [= <- <-] Hr; split; done || lia.
Qed.

Lemma join_done_jinv n c m s d : jinv n c -> inside_join (handle c) = true -> 0 <= m -> WaitForParticipationOpportunity m (job c) = (s, Finished) ->
  participants c !! 0%nat = Some (RunningJob d) -> jinv n (mkJobConfig (destroy_delegate d s) (<[0%nat := Done]> (participants c)) Joined (undefined c)).
Proof.
  intros Hc Hi Hm Hw Hd. destruct (join_finished _ _ _ _ Hc Hi Hm Hw) as [Ha ->]. pose proof Hc as [C1 C2 C3 C4 C5 C6 C7 C8].
  pose proof (count_participants_insert is_posted 0 (RunningJob d) Done _ Hd). pose proof (count_participants_insert is_active 0 (RunningJob d) Done _ Hd). simpl in *.
  assert (joins (handle c) = true) as Hj by (by destruct (handle c)). rewrite Hj in C4.
  constructor; destruct d; simpl; try done; try lia; by rewrite list_lookup_insert_eq by (by eapply lookup_lt_Some).
Qed.

Lemma join_start_jinv n c : jinv n c -> handle c = Holding -> jinv n (mkJobConfig (Join_reserve (job c)) (<[0%nat := RunningJob NoId]> (participants c)) (JoinTest true) (undefined c)).
Proof.
  intros [C1 C2 C3 C4 C5 C6 C7 C8] Hh. rewrite Hh in *. simpl in *.
  pose proof (count_participants_insert is_posted 0 Done (RunningJob NoId) _ C5). pose proof (count_participants_insert is_active 0 Done (RunningJob NoId) _ C5). simpl in *.
  constructor; simpl; try done; try lia. exists NoId. by rewrite list_lookup_insert_eq by (by eapply lookup_lt_Some).
Qed.

Lemma Acquire_counters seen s s' r : AcquireTaskId seen s = Some (s', r) -> exists ids, s' = set_ids ids s.
Proof.
  unfold AcquireTaskId. destruct (_ =? 32); [done|]. destruct (_ =? _); intros [= <- <-]; eexists; [done|]. instantiate (1 := assigned_task_ids_ s). by destruct s.
Qed.

Lemma first_task_jinv n c i m s b : jinv n c -> participants c !! i = Some Posted -> CanRunFirstTask m (job c) = (s, b) ->
  jinv n (mkJobConfig s (<[i := if b then RunningJob NoId else Done]> (participants c)) (handle c) (undefined c)).
Proof.
  intros Hc Hi Hr. pose proof Hc as [C1 C2 C3 C4 C5 C6 C7 C8]. assert (i <> 0%nat) as H0 by (by eapply not_joiner; eauto).
  unfold CanRunFirstTask in Hr. simpl in Hr. destruct (is_canceled_ (job c)) eqn:Hcan.
  { injection Hr as <- <-. eapply insert_jinv; try done; simpl; try lia; auto. }
  destruct (Z.leb_spec (CappedMaxConcurrency m (set_counters (active_workers_ (job c)) (pending_tasks_ (job c) - 1) (job c))) (active_workers_ (job c))) as [Hle|Hlt]; injection Hr as <- <-.
  - eapply insert_jinv; try done; simpl; try lia. by intros Hx%C7.
  - unfold CappedMaxConcurrency in Hlt. simpl in Hlt. eapply insert_jinv; try done; simpl; try lia; [destruct (handle c); done || lia|by intros Hx%C7|].
    intros Ho. assert (cancels (handle c) = true) as Hx%C7 by (by destruct (handle c)). done.
Qed.

(** What the owner does, in the goal. *)
Ltac by_handle := match goal with Ho : handle ?c = _ |- _ => rewrite Ho in *; (done || auto) end.

Lemma jstep_jinv n c l c' : jinv n c -> jstep c l c' -> jinv n c'.
Proof.
  intros Hc Hs. pose proof Hc as [C1 C2 C3 C4 C5 C6 C7 C8]. inversion Hs; subst.
  - unfold NotifyConcurrencyIncrease in *. destruct (is_canceled_ (job c)); [simplify_eq; rewrite post_0; by destruct c|by eapply post_jinv].
  - by eapply post_jinv.
  - by eapply first_task_jinv.
  - eapply insert_jinv; try done; simpl; try lia. right. right. by eauto.
  - destruct (Acquire_counters _ _ _ _ ltac:(eassumption)) as [ids ->]. eapply insert_jinv; try done; simpl; try lia. right. right. by eauto.
  - by constructor.
  - destruct (active_pos _ _ _ _ Hc ltac:(eassumption) eq_refl). eapply insert_jinv; try done; destruct d; simpl; try lia; auto.
  - match goal with Hx : DidRunTask _ _ = _ |- _ => rename Hx into Hd end. unfold DidRunTask in Hd.
    destruct (is_canceled_ (job c) || _); [simplify_eq; rewrite post_0; by eapply after_leave_jinv|].
    destruct (post_missing _ _) as [s1 k1] eqn:Hp. simplify_eq. assert (notify_owner false (handle c) = handle c) as -> by (by destruct (handle c)).
    eapply after_go_jinv; try done. eapply not_joiner; eauto.
  - by apply join_start_jinv.
  - destruct (test_state _ _ _ _ ltac:(eassumption) ltac:(done)) as [-> Hw]. eapply owner_jinv; try done; by_handle.
  - destruct (test_state _ _ _ _ ltac:(eassumption) ltac:(done)) as [-> _]. 
    assert (jinv n (mkJobConfig (job c) (participants c) JoinRunning (undefined c))) as Hr by (eapply owner_jinv; try done; by_handle).
    destruct first; [by eapply (post_jinv n (mkJobConfig (job c) (participants c) JoinRunning (undefined c)))|simplify_eq; by rewrite post_0].
  - eapply join_done_jinv; try done. by_handle.
  - eapply owner_jinv; try done; by_handle.
  - destruct (notify_owner_kind true (handle c)) as (K1 & K2 & K3 & K4). eapply owner_jinv; try done; [by destruct (handle c)|by rewrite K3|by rewrite K4].
  - eapply owner_jinv; try done; by_handle.
  - destruct (Z.ltb_spec 0 (active_workers_ (job c))); eapply owner_jinv; try done; try by_handle; simpl; try lia.
  - eapply owner_jinv; try done; by_handle.
  - eapply owner_jinv; try done.
Qed.

(** ** Task ids are free when they are taken *)

Lemma held_bound n c i p : n <= 31 -> jinv n c -> participants c !! i = Some p -> is_active p = 1%nat -> id_of p = [] -> (length (held (participants c)) < 32)%nat.
Proof.
  intros Hn Hc Hi Ha Hp. pose proof (count_participants_insert is_active i p Done _ Hi) as Hk. simpl in Hk.
  pose proof (held_same i p Done _ Hi Hp) as Hh%Permutation_length. pose proof (held_active (<[i := Done]> (participants c))).
  pose proof (j_active _ _ Hc). pose proof (j_bound _ _ Hc). pose proof (j_threads _ _ Hc). destruct (joins (handle c)); unfold kMaxWorkersPerJob in *; lia.
Qed.

(** Steps that change a participant that holds no id into another one. *)
Lemma same_ids_tinv c i p q s o k : tinv c -> participants c !! i = Some p -> id_of p = id_of q -> assigned_task_ids_ s = assigned_task_ids_ (job c) ->
  (forall seen, q = RunningJob (Acquiring seen) -> 0 <= next_task_id seen < 32) ->
  tinv (mkJobConfig s (post k (<[i := q]> (participants c))) o (undefined c)).
Proof.
  intros [C1 C2 C3] Hi He Hs Hq. constructor; simpl; [by rewrite Hs, held_post, (held_same i p q _ Hi He)| |done].
  intros j seen [Hj|[_ Hj]]%lookup_app_Some; [|by apply lookup_replicate in Hj as [? _]].
  apply list_lookup_insert_Some in Hj as [(_ & Hj & _)|[_ Hj]]; [by apply Hq|by eapply C2].
Qed.

Lemma same_participants_tinv c s o k : tinv c -> assigned_task_ids_ s = assigned_task_ids_ (job c) -> tinv (mkJobConfig s (post k (participants c)) o (undefined c)).
Proof.
  intros [C1 C2 C3] Hs. constructor; simpl; [by rewrite Hs, held_post| |done].
  intros j seen [Hj|[_ Hj]]%lookup_app_Some; [by eapply C2|by apply lookup_replicate in Hj as [? _]].
Qed.

(** A delegate is destroyed and gives its id back. *)
Lemma destroy_tinv c i d q s o : tinv c -> participants c !! i = Some (RunningJob d) -> assigned_task_ids_ s = assigned_task_ids_ (job c) -> (q = Returned \/ q = Done) ->
  tinv (mkJobConfig (destroy_delegate d s) (<[i := q]> (participants c)) o (undefined c)).
Proof.
  intros [C1 C2 C3] Hi Hs Hq. constructor; simpl; [| |done].
  - destruct (held_insert i (RunningJob d) q _ Hi) as (h & H1 & H2). rewrite H1 in C1. rewrite H2. assert (id_of q = []) as -> by (by destruct Hq as [-> | ->]).
    destruct d as [|seen|t]; simpl in *; rewrite Hs; [done|done|]. by apply release_ids_ok.
  - intros j seen [(_ & Hj & _)|[_ Hj]]%list_lookup_insert_Some; [by destruct Hq; congruence|by eapply C2].
Qed.

Lemma cas_tinv n c i seen s r : n <= 31 -> jinv n c -> tinv c -> participants c !! i = Some (RunningJob (Acquiring seen)) -> AcquireTaskId seen (job c) = Some (s, r) ->
  tinv (mkJobConfig s (<[i := RunningJob (match r with inl id => HasId id | inr seen => Acquiring seen end)]> (participants c)) (handle c) (undefined c)).
Proof.
  intros Hn Hc [C1 C2 C3] Hi. unfold AcquireTaskId. destruct (Z.eqb_spec (next_task_id seen) 32) as [|Hne]; [done|].
  pose proof (held_bound n c i _ Hn Hc Hi eq_refl eq_refl) as Hl. destruct (next_task_id_free _ _ C1 Hl) as [Hr Hf].
  destruct (Z.eqb_spec (assigned_task_ids_ (job c)) seen) as [He|He]; intros [= <- <-].
  - constructor; simpl; [| |done].
    + destruct (held_insert i _ (RunningJob (HasId (next_task_id seen))) _ Hi) as (h & H1 & H2). simpl in *. rewrite H2. rewrite H1 in C1, Hf. rewrite He in *. by apply acquire_ids_ok.
    + intros j seen' [(_ & [=] & _)|[_ Hj]]%list_lookup_insert_Some. by eapply C2.
  - pose proof (same_ids_tinv c i _ (RunningJob (Acquiring (assigned_task_ids_ (job c)))) (job c) (handle c) 0 (Build_tinv _ C1 C2 C3) Hi eq_refl eq_refl) as Ht.
    rewrite post_0 in Ht. apply Ht. intros s0 [= <-]. done.
Qed.

Lemma jstep_tinv n c l c' : n <= 31 -> jinv n c -> tinv c -> jstep c l c' -> tinv c'.
Proof.
  intros Hn Hc Ht Hs.
  assert (forall s o, assigned_task_ids_ s = assigned_task_ids_ (job c) -> tinv (mkJobConfig s (participants c) o (undefined c))) as Hsame.
  { intros s o He. rewrite <- (post_0 (participants c)). by apply same_participants_tinv. }
  assert (forall i p q s o, participants c !! i = Some p -> id_of p = id_of q -> assigned_task_ids_ s = assigned_task_ids_ (job c) ->
    (forall seen, q = RunningJob (Acquiring seen) -> 0 <= next_task_id seen < 32) -> tinv (mkJobConfig s (<[i := q]> (participants c)) o (undefined c))) as Hone.
  { intros i p q s o Hi He Hss Hq. rewrite <- (post_0 (<[i := q]> _)). by eapply same_ids_tinv. }
  inversion Hs; subst.
  - unfold NotifyConcurrencyIncrease in *. destruct (is_canceled_ (job c)); [simplify_eq; by apply same_participants_tinv|].
    match goal with Hp : post_missing _ _ = _ |- _ => apply post_missing_spec in Hp as [_ ->] end. by apply same_participants_tinv.
  - match goal with Hp : post_missing _ _ = _ |- _ => apply post_missing_spec in Hp as [_ ->] end. by apply same_participants_tinv.
  - eapply Hone; [done|by destruct b| |by destruct b]. unfold CanRunFirstTask in *. simpl in *. destruct (is_canceled_ (job c)); [by simplify_eq|]. by destruct (CappedMaxConcurrency _ _ <=? _); simplify_eq.
  - eapply Hone; [done|done|done|]. intros seen [= <-]. eapply next_task_id_free; [by apply t_ids|]. by eapply held_bound.
  - by eapply cas_tinv.
  - exfalso. pose proof (t_seen _ Ht _ _ ltac:(eassumption)) as Hseen. unfold AcquireTaskId in *. destruct (Z.eqb_spec (next_task_id seen) 32); [lia|]. by destruct (_ =? _).
  - by eapply destroy_tinv; eauto.
  - eapply same_ids_tinv; [done|done|by destruct b| |by destruct b]. unfold DidRunTask in *. destruct (is_canceled_ (job c) || _); [by simplify_eq|].
    destruct (post_missing _ _) as [s1 k1] eqn:Hp. apply post_missing_spec in Hp as [_ ->]. by simplify_eq.
  - pose proof (j_joiner _ _ Hc) as Hj. match goal with Ho : handle c = _ |- _ => rewrite Ho in Hj end. simpl in Hj. by eapply Hone.
  - match goal with Hw : WaitForParticipationOpportunity _ _ = _ |- _ => apply test_state in Hw as [-> _]; [|done] end. by apply Hsame.
  - match goal with Hw : WaitForParticipationOpportunity _ _ = _ |- _ => apply test_state in Hw as [-> _]; [|done] end.
    apply same_participants_tinv; [done|]. destruct first; [|by simplify_eq]. match goal with Hp : post_missing _ _ = _ |- _ => by apply post_missing_spec in Hp as [_ ->] end.
  - eapply destroy_tinv; [done|done| |by right]. eapply join_finished in Hc as [_ ->]; [done| |done|done]. by_handle.
  - by apply Hsame.
  - by apply Hsame.
  - by apply Hsame.
  - by apply Hsame.
  - by apply Hsame.
  - by apply Hsame.
Qed.

Lemma reachable_jinv n p tr c : 0 <= n -> run jstep (jstart p n) tr c -> jinv n c.
Proof. intros Hn Hr. refine (run_invariant _ (jinv n) _ _ _ _ (jinv_start n p Hn) Hr). intros s l s'. apply jstep_jinv. Qed.

Lemma reachable_tinv n p tr c : 0 <= n <= 31 -> run jstep (jstart p n) tr c -> tinv c.
Proof.
  intros Hn Hr. refine (proj2 (run_invariant _ (fun c => jinv n c /\ tinv c) _ _ _ _ (conj (jinv_start n p _) (tinv_start n p)) Hr)); [|lia].
  intros s l s' [Hc Ht] Hs. split; [by eapply jstep_jinv|eapply jstep_tinv; [|done..]; lia].
Qed.

(** ** Executions *)

(** The step with a label, where there is one. *)
Definition jexec (c : jconfig) (l : jlabel) : option jconfig :=
  let s := job c in let ps := participants c in let o := handle c in let u := undefined c in
  match l with
  | Notify n => if n <? 0 then None else let '(s, k) := NotifyConcurrencyIncrease n s in Some (mkJobConfig s (post k ps) o u)
  | FirstTask i n =>
    match ps !! i with
    | Some Posted => if n <? 0 then None else let '(s, b) := CanRunFirstTask n s in Some (mkJobConfig s (<[i := if b then RunningJob NoId else Done]> ps) o u)
    | _ => None
    end
  | GetTaskId i =>
    match ps !! i, i, o with
    | Some (RunningJob NoId), S _, _ | Some (RunningJob NoId), O, JoinRunning => Some (mkJobConfig s (<[i := RunningJob (Acquiring (assigned_task_ids_ s))]> ps) o u)
    | _, _, _ => None
    end
  | Cas i =>
    match ps !! i with
    | Some (RunningJob (Acquiring seen)) =>
      match AcquireTaskId seen s with
      | Some (s, r) => Some (mkJobConfig s (<[i := RunningJob (match r with inl id => HasId id | inr seen => Acquiring seen end)]> ps) o u)
      | None => Some (mkJobConfig s ps o true)
      end
    | _ => None
    end
  | RunReturns (S i) =>
    match ps !! S i with
    | Some (RunningJob (Acquiring _)) => None
    | Some (RunningJob d) => Some (mkJobConfig (destroy_delegate d s) (<[S i := Returned]> ps) o u)
    | _ => None
    end
  | AfterTask i n =>
    match ps !! i with
    | Some Returned => if n <? 0 then None else let '(s, b, k, notify) := DidRunTask n s in
        Some (mkJobConfig s (post k (<[i := if b then RunningJob NoId else Done]> ps)) (notify_owner notify o) u)
    | _ => None
    end
  | CallJoin => match o with Holding => Some (mkJobConfig (Join_reserve s) (<[0%nat := RunningJob NoId]> ps) (JoinTest true) u) | _ => None end
  | TestJoin n =>
    match o with
    | JoinTest first =>
      if n <? 0 then None else
      match WaitForParticipationOpportunity n s with
      | (s, MustWait) => Some (mkJobConfig s ps (JoinWaiting first) u)
      | (s, Participate m) => let '(s, k) := if first then post_missing m s else (s, 0) in Some (mkJobConfig s (post k ps) JoinRunning u)
      | (s, Finished) => match ps !! 0%nat with Some (RunningJob d) => Some (mkJobConfig (destroy_delegate d s) (<[0%nat := Done]> ps) Joined u) | _ => None end
      end
    | _ => None
    end
  | CallCancel => match o with Holding => Some (mkJobConfig (set_canceled s) ps CancelTest u) | _ => None end
  | TestCancel => match o with CancelTest => Some (mkJobConfig s ps (if 0 <? active_workers_ s then CancelWaiting else Canceled) u) | _ => None end
  | _ => None
  end.

Lemma jexec_sound c l c' : jexec c l = Some c' -> jstep c l c'.
Proof.
  destruct l as [n|i n|i|i|[|i]|i n| |n| | | | | |]; simpl; try done.
  - destruct (Z.ltb_spec n 0); [done|]. destruct (NotifyConcurrencyIncrease _ _) eqn:Hn. intros [= <-]. by constructor.
  - destruct (participants c !! i) as [[]|] eqn:Hi; try done. destruct (Z.ltb_spec n 0); [done|]. destruct (CanRunFirstTask _ _) eqn:Hn. intros [= <-]. by constructor.
  - destruct (participants c !! i) as [[|[]| |]|] eqn:Hi; try done. destruct i as [|i]; [destruct (handle c) eqn:Ho; try done|]; intros [= <-]; rewrite <- ?Ho; constructor; try done; by intros ?.
  - destruct (participants c !! i) as [[|[]| |]|] eqn:Hi; try done. destruct (AcquireTaskId _ _) as [[s r]|] eqn:Ha; intros [= <-]; by econstructor.
  - destruct (participants c !! S i) as [[|[| |]| |]|] eqn:Hi; try done; intros [= <-];
      match type of Hi with _ = Some (RunningJob ?d) => by apply (jstep_returns c (S i) d) end.
  - destruct (participants c !! i) as [[]|] eqn:Hi; try done. destruct (Z.ltb_spec n 0); [done|]. destruct (DidRunTask _ _) as [[[]]] eqn:Hn. intros [= <-]. by constructor.
  - destruct (handle c) eqn:Ho; try done. intros [= <-]. by constructor.
  - destruct (handle c) eqn:Ho; try done. destruct (Z.ltb_spec n 0); [done|]. destruct (WaitForParticipationOpportunity _ _) as [s []] eqn:Hw.
    + intros [= <-]. by econstructor.
    + destruct (if first then _ else _) as [s' k] eqn:Hp. intros [= <-]. by econstructor.
    + destruct (participants c !! 0%nat) as [[]|] eqn:Hi; try done. intros [= <-]. by econstructor.
  - destruct (handle c) eqn:Ho; try done. intros [= <-]. by constructor.
  - destruct (handle c) eqn:Ho; try done. intros [= <-]. by constructor.
Qed.

Fixpoint jexecs (c : jconfig) (ls : list jlabel) : option jconfig :=
  match ls with [] => Some c | l :: ls => c ← jexec c l; jexecs c ls end.

Lemma jexecs_sound ls : forall c c', jexecs c ls = Some c' -> run jstep c ls c'.
Proof.
  induction ls as [|l ls IH]; simpl; intros c c'; [intros [= <-]; constructor|].
  destruct (jexec c l) as [c1|] eqn:Hl; [|done]. simpl. intros Hr. eapply run_cons; [by apply jexec_sound|by apply IH].
Qed.

(** 32 workers, the joining thread, and a task id for each. *)
Definition thirty_three : list jlabel :=
  [Notify 32; CallJoin] ++ ((fun i => FirstTask i 33) <$> seq 1 32) ++ [TestJoin 33] ++ (seq 0 33 ≫= fun i => [GetTaskId i; Cas i]).
