(* ===== verification/TaskQueue.v ===== *)
(** The blocking task queue with a semaphore and the thread that works on it:
    src/src/libplatform/task-queue.{h,cc} and worker-thread.{h,cc}.

    A step is a section under the lock, a Wait on the semaphore that goes through, or the end
    of a task. *)
From S2P Require Import Prelude.

Section queue.
Context {T : Type}.

Record TaskQueue := mkTaskQueue { tasks : list T; process_queue_semaphore_ : nat; terminated_ : bool }.

Definition new_TaskQueue : TaskQueue := mkTaskQueue [] 0 false.

Definition Append (t : T) (q : TaskQueue) : TaskQueue := mkTaskQueue (tasks q ++ [t]) (S (process_queue_semaphore_ q)) (terminated_ q).
Definition Terminate (q : TaskQueue) : TaskQueue := mkTaskQueue (tasks q) (S (process_queue_semaphore_ q)) true.

(** One round of GetNext under the lock: the task, null, or the wait. *)
Inductive next := Got (t : T) | Null | MustWait.
Definition GetNext_round (q : TaskQueue) : TaskQueue * next :=
  match tasks q with
  | t :: rest => (mkTaskQueue rest (process_queue_semaphore_ q) (terminated_ q), Got t)
  | [] => if terminated_ q then (mkTaskQueue [] (S (process_queue_semaphore_ q)) true, Null) else (q, MustWait)
  end.

(** A WorkerThread: before a round of GetNext, in Wait, in a task, or at the end of Run. *)
Inductive thread := Checking | InWait | InTask (t : T) | Left.

Record qconfig := mkQConfig { queue : TaskQueue; workers : list thread; appended_tasks : list T; taken : list T }.
Definition qstart (n : nat) : qconfig := mkQConfig new_TaskQueue (replicate n Checking) [] [].

Inductive qlabel := DoAppend (t : T) | DoTerminate | Check (i : nat) | Wakes (i : nat) | Ends (i : nat).

(** Append and Terminate are called before Terminate only (DCHECK(!terminated_)). *)
Inductive qstep : qconfig -> qlabel -> qconfig -> Prop :=
| qstep_append c t : terminated_ (queue c) = false -> qstep c (DoAppend t) (mkQConfig (Append t (queue c)) (workers c) (appended_tasks c ++ [t]) (taken c))
| qstep_terminate c : terminated_ (queue c) = false -> qstep c DoTerminate (mkQConfig (Terminate (queue c)) (workers c) (appended_tasks c) (taken c))
| qstep_got c i q t : workers c !! i = Some Checking -> GetNext_round (queue c) = (q, Got t) ->
    qstep c (Check i) (mkQConfig q (<[i := InTask t]> (workers c)) (appended_tasks c) (taken c ++ [t]))
| qstep_null c i q : workers c !! i = Some Checking -> GetNext_round (queue c) = (q, Null) ->
    qstep c (Check i) (mkQConfig q (<[i := Left]> (workers c)) (appended_tasks c) (taken c))
| qstep_must_wait c i q : workers c !! i = Some Checking -> GetNext_round (queue c) = (q, MustWait) ->
    qstep c (Check i) (mkQConfig q (<[i := InWait]> (workers c)) (appended_tasks c) (taken c))
| qstep_wait c i n : workers c !! i = Some InWait -> process_queue_semaphore_ (queue c) = S n ->
    qstep c (Wakes i) (mkQConfig (mkTaskQueue (tasks (queue c)) n (terminated_ (queue c))) (<[i := Checking]> (workers c)) (appended_tasks c) (taken c))
| qstep_end c i t : workers c !! i = Some (InTask t) -> qstep c (Ends i) (mkQConfig (queue c) (<[i := Checking]> (workers c)) (appended_tasks c) (taken c)).

(** ** No lost signal *)

Definition checking (w : thread) : nat := match w with Checking => 1 | _ => 0 end.
Definition checkers (ws : list thread) : nat := list_sum (checking <$> ws).

(** The signals and the threads that are about to look at the queue are enough for its tasks,
    and for its end; nobody leaves before the queue is empty and terminated. *)
Record qinv (c : qconfig) : Prop := {
  q_signals : (length (tasks (queue c)) <= process_queue_semaphore_ (queue c) + checkers (workers c))%nat;
  q_end : terminated_ (queue c) = true -> (S (length (tasks (queue c))) <= process_queue_semaphore_ (queue c) + checkers (workers c))%nat;
  q_fifo : appended_tasks c = taken c ++ tasks (queue c);
  q_left : forall i, workers c !! i = Some Left -> terminated_ (queue c) = true /\ tasks (queue c) = [];
}.

Lemma checkers_insert i w w' ws : ws !! i = Some w -> (checkers (<[i := w']> ws) + checking w = checkers ws + checking w')%nat.
Proof using. apply list_sum_insert. Qed.

Lemma qinv_start n : qinv (qstart n).
Proof using. constructor; simpl; [lia|done|done|]. intros i [? _]%lookup_replicate. done. Qed.

Lemma left_insert c i w b (l : list T) : qinv c -> w <> Left -> (terminated_ (queue c) = true -> tasks (queue c) = [] -> b = true /\ l = []) ->
  forall j, <[i := w]> (workers c) !! j = Some Left -> b = true /\ l = [].
Proof using. intros Hc Hw Hq j [(_ & Hl & _)|[_ Hj]]%list_lookup_insert_Some; [congruence|]. destruct (q_left _ Hc _ Hj). by apply Hq. Qed.

Lemma qstep_qinv c l c' : qinv c -> qstep c l c' -> qinv c'.
Proof using.
  intros Hc Hs. pose proof Hc as [C1 C2 C3 C4]. inversion Hs; subst; simpl in *.
  - constructor; simpl; [rewrite length_app; simpl; lia|intros; congruence|by rewrite C3, app_assoc|]. intros i Hi. destruct (C4 i Hi). congruence.
  - constructor; simpl; [lia|intros; lia|done|]. intros i Hi. destruct (C4 i Hi). congruence.
  - pose proof (checkers_insert i _ (InTask t) _ H) as Hk. unfold GetNext_round in *. destruct (tasks (queue c)) as [|u rest] eqn:Ht; [by destruct (terminated_ _)|]. simplify_eq/=.
    constructor; simpl; [lia| |by rewrite C3, <- app_assoc|].
    + intros Hterm. specialize (C2 Hterm). lia.
    + eapply left_insert; [exact Hc|done|congruence].
  - pose proof (checkers_insert i _ Left _ H) as Hk. unfold GetNext_round in *. destruct (tasks (queue c)) eqn:Ht; [|done]. destruct (terminated_ (queue c)) eqn:Hterm; [|done]. simplify_eq/=.
    constructor; simpl; [lia|specialize (C2 eq_refl); lia|done|done].
  - pose proof (checkers_insert i _ InWait _ H) as Hk. unfold GetNext_round in *. destruct (tasks (queue c)) eqn:Ht; [|done]. destruct (terminated_ (queue c)) eqn:Hterm; [done|]. simplify_eq/=.
    constructor; simpl; [rewrite Ht; simpl; lia|congruence|by rewrite Ht|]. eapply left_insert; [exact Hc|done|by intros].
  - pose proof (checkers_insert i _ Checking _ H) as Hk. simpl in Hk. constructor; simpl; [lia|intros Hterm; specialize (C2 Hterm); lia|done|]. eapply left_insert; [exact Hc|done|by intros].
  - pose proof (checkers_insert i _ Checking _ H) as Hk. simpl in Hk. constructor; simpl; [lia|intros Hterm; specialize (C2 Hterm); lia|done|]. eapply left_insert; [exact Hc|done|by intros].
Qed.
End queue.
Arguments TaskQueue : clear implicits.
Arguments qconfig : clear implicits.
Arguments qlabel : clear implicits.
Arguments thread : clear implicits.

(** A step of a worker. *)
Definition of_worker {T} (l : qlabel T) : bool := match l with Check _ | Wakes _ | Ends _ => true | _ => false end.

(** Tasks are taken in the order in which they were appended, and no signal is lost: as long as a worker has not left, and a task is queued or the queue was terminated, a worker can take a step; a worker leaves only an empty queue that was terminated. *)
Theorem task_queue_progress {T} n tr (c : qconfig T) : run qstep (qstart n) tr c ->
  appended_tasks c = taken c ++ tasks (queue c) /\
  (forall i, workers c !! i = Some Left -> terminated_ (queue c) = true /\ tasks (queue c) = []) /\
  (forall i w, workers c !! i = Some w -> w <> Left -> tasks (queue c) <> [] \/ terminated_ (queue c) = true -> exists l c', of_worker l = true /\ qstep c l c').
Proof.
  intros Hr. pose proof (run_invariant _ qinv (fun s l s' => qstep_qinv s l s') _ _ _ (qinv_start n) Hr) as Hc. split_all; [apply Hc|apply Hc|].
  intros i w Hi Hw Hneed. destruct w as [| |t|]; [| |by eexists (Ends i), _; split; [|eapply qstep_end]|done].
  - destruct (GetNext_round (queue c)) as [q []] eqn:Hq; eexists (Check i), _; (split; [done|]); [by eapply qstep_got|by eapply qstep_null|by eapply qstep_must_wait].
  - destruct (process_queue_semaphore_ (queue c)) as [|s] eqn:Hsem; [|by eexists (Wakes i), _; split; [|eapply qstep_wait]].
    pose proof (q_signals _ Hc) as H1. pose proof (q_end _ Hc) as H2. rewrite Hsem in H1, H2.
    assert (exists j, workers c !! j = Some Checking) as [j Hj].
    { assert (0 < checkers (workers c))%nat as Hk by (destruct Hneed as [Hne|Ht]; [destruct (tasks (queue c)); [done|simpl in H1; lia]|specialize (H2 Ht); lia]).
      revert Hk. unfold checkers. clear. induction (workers c) as [|w ws IH]; [simpl; lia|]. rewrite fmap_cons. change (list_sum (?x :: ?l)) with (x + list_sum l)%nat. intros Hk.
      destruct w; [by exists 0%nat| | |]; (destruct IH as [j Hj]; [simpl in Hk; exact Hk|by exists (S j)]). }
    destruct (GetNext_round (queue c)) as [q []] eqn:Hq; eexists (Check j), _; (split; [done|]); [by eapply qstep_got|by eapply qstep_null|by eapply qstep_must_wait].
Qed.

Example task_queue_progress_witness : exists c, run (qstep (T:=nat)) (qstart 2) [Check 0; Check 1; DoAppend 5%nat; DoTerminate] c /\ exists l c', of_worker l = true /\ qstep c l c'.
Proof.
  assert (exists c, run (qstep (T:=nat)) (qstart 2) [Check 0; Check 1; DoAppend 5%nat; DoTerminate] c /\ workers c !! 0%nat = Some InWait /\ terminated_ (queue c) = true) as (c & Hr & Hw & Ht).
  { eexists. split.
    - eapply run_cons; [by eapply qstep_must_wait|]. eapply run_cons; [by eapply qstep_must_wait|]. eapply run_cons; [by apply qstep_append|]. eapply run_cons; [by apply qstep_terminate|]. constructor.
    - by split. }
  exists c. split; [exact Hr|]. destruct (task_queue_progress 2 _ c Hr) as (_ & _ & H). apply (H 0%nat InWait Hw); [discriminate|right; exact Ht].
Defined.
