(* ===== verification/Platform.v ===== *)
(** The default platform: src/src/libplatform/default-platform.{h,cc}.

    Foreground task runners are shared objects: the platform maps isolates to references, and
    whoever asked for a runner keeps its reference after the isolate was shut down. A runner is
    the record of ForegroundRunner; the runners of worker threads are those of WorkersRunner,
    one for each index of the array. *)
From S2P Require Import Prelude PlatformTime ForegroundRunner WorkersRunner Jobs.

(** ** Sizes and priorities *)

Definition kMaxThreadPoolSize : Z := 16.

(** [processors] is base::SysInfo::NumberOfProcessors(). *)
Definition GetActualThreadPoolSize (processors thread_pool_size : Z) : Z :=
  let thread_pool_size := if thread_pool_size <? 1 then processors - 1 else thread_pool_size in
  Z.max (Z.min thread_pool_size kMaxThreadPoolSize) 1.

Inductive PriorityMode := kDontApply | kApply.

Definition priority_value (p : TaskPriority) : nat := match p with kBestEffort => 0 | kUserVisible => 1 | kUserBlocking => 2 end.
Definition kMaxPriority : TaskPriority := kUserBlocking.

Definition priority_to_index (mode : PriorityMode) (p : TaskPriority) : nat := match mode with kDontApply => 0 | kApply => priority_value p end.
Definition num_worker_runners (mode : PriorityMode) : nat := priority_to_index mode kMaxPriority + 1.

(** ** The platform *)

Section platform.
Context {T : Type} `{PriorityQueue T} (time_function : clock).

Abbreviation ref := nat (only parsing).
Abbreviation isolate := nat (only parsing).

Record DefaultPlatform := mkPlatform {
  thread_pool_size_ : Z; platform_idle_task_support_ : bool; priority_mode_ : PriorityMode;
  worker_threads_task_runners_ : list (option (wconfig T));
  foreground_task_runner_map_ : gmap isolate ref;
  runners : gmap ref (runner T);                  (* the shared objects *)
}.

(** EnsureBackgroundTaskRunnerInitialized: the array has an entry for each priority. *)
Definition worker_runners (size : Z) (mode : PriorityMode) : list (option (wconfig T)) :=
  replicate (num_worker_runners mode) (if 0 <? size then Some (DefaultWorkerThreadsTaskRunner (Z.to_nat size)) else None) ++
  replicate (priority_value kMaxPriority + 1 - num_worker_runners mode) None.

Definition new_DefaultPlatform (size : Z) (idle : bool) (mode : PriorityMode) : DefaultPlatform :=
  mkPlatform size idle mode (worker_runners size mode) ∅ ∅.

Definition NewDefaultPlatform (processors size : Z) (idle : bool) (mode : PriorityMode) : DefaultPlatform :=
  new_DefaultPlatform (GetActualThreadPoolSize processors size) idle mode.

Definition NewSingleThreadedDefaultPlatform (idle : bool) : DefaultPlatform := new_DefaultPlatform 0 idle kDontApply.

Definition set_runners (m : gmap isolate ref) (rs : gmap ref (runner T)) (p : DefaultPlatform) : DefaultPlatform :=
  mkPlatform (thread_pool_size_ p) (platform_idle_task_support_ p) (priority_mode_ p) (worker_threads_task_runners_ p) m rs.
Definition set_workers (ws : list (option (wconfig T))) (p : DefaultPlatform) : DefaultPlatform :=
  mkPlatform (thread_pool_size_ p) (platform_idle_task_support_ p) (priority_mode_ p) ws (foreground_task_runner_map_ p) (runners p).

(** The runner of an isolate; it is made when there is none. *)
Definition GetForegroundTaskRunner (i : isolate) (p : DefaultPlatform) : ref * DefaultPlatform :=
  match foreground_task_runner_map_ p !! i with
  | Some r => (r, p)
  | None =>
    let r := fresh (dom (runners p)) in
    (r, set_runners (<[i := r]> (foreground_task_runner_map_ p)) (<[r := DefaultForegroundTaskRunner (platform_idle_task_support_ p)]> (runners p)) p)
  end.

(** PostTask through a reference; with it the task that is deleted. *)
Definition PostTask_to (r : ref) (t : T) (p : DefaultPlatform) : option (DefaultPlatform * option T) :=
  match runners p !! r with
  | Some rn => let '(rn, to_delete, _) := ForegroundRunner.PostTaskImpl t rn in Some (set_runners (foreground_task_runner_map_ p) (<[r := rn]> (runners p)) p, to_delete)
  | None => None
  end.

(** PumpMessageLoop up to the task that it runs, which runs within a RunTaskScope: the answer,
    or the task, or the wait of the caller. [k] counts the clock readings. *)
Inductive pumped := Answer (b : bool) | Runs (r : ref) (t : T) | Waits (r : ref) (w : wait).

Definition PumpMessageLoop (i : isolate) (wait_for_work : MessageLoopBehavior) (k : nat) (p : DefaultPlatform) : DefaultPlatform * nat * pumped :=
  let failed_result := match wait_for_work with kWaitForWork => true | kDoNotWait => false end in
  match foreground_task_runner_map_ p !! i with
  | None => (p, k, Answer failed_result)
  | Some r =>
    match runners p !! r with
    | None => (p, k, Answer failed_result)
    | Some rn =>
      let '(rn, k, _, result) := pop_pass time_function wait_for_work k rn in
      let update rn := set_runners (foreground_task_runner_map_ p) (<[r := rn]> (runners p)) p in
      match result with
      | Popped e => (update (enter_scope rn), k, Runs r e.2)
      | NoTask => (update rn, k, Answer failed_result)
      | ForegroundRunner.MustWait w => (update rn, k, Waits r w)
      end
    end
  end.

(** The platform and the tasks that are deleted; [None] where the code calls Terminate through
    a null pointer. *)
Definition NotifyIsolateShutdown (i : isolate) (p : DefaultPlatform) : option (DefaultPlatform * list T) :=
  match foreground_task_runner_map_ p !! i with
  | None => None
  | Some r =>
    match runners p !! r with
    | None => None
    | Some rn =>
      let '(rn, dropped) := ForegroundRunner.Terminate rn in
      Some (set_runners (delete i (foreground_task_runner_map_ p)) (<[r := rn]> (runners p)) p, dropped)
    end
  end.

Definition post_to_worker (post : wconfig T -> wconfig T) (priority : TaskPriority) (p : DefaultPlatform) : option DefaultPlatform :=
  let index := priority_to_index (priority_mode_ p) priority in
  match worker_threads_task_runners_ p !! index with
  | Some (Some w) => Some (set_workers (<[index := Some (post w)]> (worker_threads_task_runners_ p)) p)
  | _ => None
  end.

(** [None]: a null pointer (a single-threaded platform). *)
Definition PostTaskOnWorkerThreadImpl (priority : TaskPriority) (t : T) : DefaultPlatform -> option DefaultPlatform :=
  post_to_worker (WorkersRunner.PostTaskImpl t) priority.
Definition PostDelayedTaskOnWorkerThreadImpl (priority : TaskPriority) (t : T) (delay : time) : DefaultPlatform -> option DefaultPlatform :=
  post_to_worker (WorkersRunner.PostDelayedTaskImpl time_function t delay) priority.

Definition NumberOfWorkerThreads (p : DefaultPlatform) : Z := thread_pool_size_ p.

(** CreateJobImpl: the state of the new job. *)
Definition CreateJobImpl (priority : TaskPriority) (p : DefaultPlatform) : DefaultJobState :=
  let num_worker_threads := NumberOfWorkerThreads p in
  let num_worker_threads := match priority with kBestEffort => if 2 <? num_worker_threads then 2 else num_worker_threads | _ => num_worker_threads end in
  new_DefaultJobState priority num_worker_threads.

(** The destructor: Terminate of the runners of workers (their threads are then joined by the
    steps of WorkersRunner), then of those of the isolates in the map. *)
Definition destroy_platform (p : DefaultPlatform) : DefaultPlatform :=
  let refs := (map_to_list (foreground_task_runner_map_ p)).*2 in
  set_runners (foreground_task_runner_map_ p) (foldr (fun r rs => alter (fun rn => (ForegroundRunner.Terminate rn).1) r rs) (runners p) refs)
    (set_workers ((fun w : option (wconfig T) => WorkersRunner.Terminate <$> w) <$> worker_threads_task_runners_ p) p).

(** ** What holds of every platform *)

(** Isolates have runners that exist, different ones; a worker runner for each priority. *)
Record platform_ok (p : DefaultPlatform) : Prop := {
  map_exists : forall i r, foreground_task_runner_map_ p !! i = Some r -> is_Some (runners p !! r);
  map_injective : forall i j r, foreground_task_runner_map_ p !! i = Some r -> foreground_task_runner_map_ p !! j = Some r -> i = j;
  workers_there : 0 < thread_pool_size_ p -> forall priority, exists w, worker_threads_task_runners_ p !! priority_to_index (priority_mode_ p) priority = Some (Some w);
}.

Lemma new_platform_ok size idle mode : platform_ok (new_DefaultPlatform size idle mode).
Proof using.
  constructor; simpl; [by intros i r ?%lookup_empty_Some|by intros i j r ?%lookup_empty_Some|]. intros Hs priority.
  unfold worker_runners. rewrite (proj2 (Z.ltb_lt _ _) Hs). eexists. rewrite lookup_app_l by (rewrite length_replicate; unfold num_worker_runners; destruct mode, priority; simpl; lia).
  rewrite lookup_replicate_2 by (unfold num_worker_runners; destruct mode, priority; simpl; lia). done.
Qed.

Lemma GetForegroundTaskRunner_ok i p r p' : platform_ok p -> GetForegroundTaskRunner i p = (r, p') ->
  platform_ok p' /\ foreground_task_runner_map_ p' !! i = Some r /\ is_Some (runners p' !! r) /\
  (foreground_task_runner_map_ p !! i = None -> runners p !! r = None /\ runners p' !! r = Some (DefaultForegroundTaskRunner (platform_idle_task_support_ p))) /\
  (forall j, j <> i -> foreground_task_runner_map_ p' !! j = foreground_task_runner_map_ p !! j) /\
  (forall r', is_Some (runners p !! r') -> runners p' !! r' = runners p !! r').
Proof using.
  intros [H1 H2 H3]. unfold GetForegroundTaskRunner. destruct (foreground_task_runner_map_ p !! i) as [r0|] eqn:Hi.
  { intros [= <- <-]. split_all; try done. by eapply H1. }
  assert (runners p !! fresh (dom (runners p)) = None) as Hf by (apply not_elem_of_dom, is_fresh).
  set (f := fresh (dom (runners p))) in *. intros [= <- <-]. simpl. split_all.
  - constructor; simpl; [| |done].
    + intros j r [(<- & <-)|[_ Hj]]%lookup_insert_Some; [by rewrite lookup_insert_eq|]. destruct (decide (r = f)) as [->|]; [by rewrite lookup_insert_eq|].
      rewrite lookup_insert_ne by done. by eapply H1.
    + intros j j' r [(<- & <-)|[Hn Hj]]%lookup_insert_Some [(<- & Hr)|[Hn' Hj']]%lookup_insert_Some; try done; [| |by eapply H2].
      * apply H1 in Hj'. rewrite Hf in Hj'. by destruct Hj'.
      * subst r. apply H1 in Hj. rewrite Hf in Hj. by destruct Hj.
  - by rewrite lookup_insert_eq.
  - by rewrite lookup_insert_eq.
  - by rewrite lookup_insert_eq.
  - intros j Hj. by rewrite lookup_insert_ne.
  - intros r' Hr'. rewrite lookup_insert_ne; [done|]. intros <-. rewrite Hf in Hr'. by destruct Hr'.
Qed.
End platform.
Arguments DefaultPlatform : clear implicits.
Arguments pumped : clear implicits.
