(* ===== verification/PlatformProperties.v ===== *)
(** The properties of the platform: task runners of isolates and of worker threads, jobs, and
    the life of runners in the platform. *)
From S2P Require Import Prelude PlatformTime ForegroundRunner ForegroundTheorems WorkersRunner WorkersTheorems Jobs JobTheorems Platform.
From Stdlib Require Import Sorting.Sorted.

(** ** Foreground runners *)

(** C20. In every execution of a foreground runner the posted tasks are the finished, running, queued, delayed, idle and deleted ones, each once; the tasks of each kind start in the order in which they entered the queue; a non-nestable task runs only outside other tasks; and the thread that pumps the runner is blocked only when it has no task to run, and with a timer when there are delayed tasks. *)
Theorem foreground_runner_invariant {T} `{PriorityQueue T} (time_function : clock) idle tr (c : fconfig T) :
  (forall k, is_number (time_function k)) -> run (fstep time_function) (fstart idle) tr c ->
  posted c ≡ₚ tasks_of c /\
  (forall n, of_kind n (started c) `prefix_of` of_kind n (entered c) /\
    (terminated_ (state c) = false -> of_kind n (entered c) = of_kind n (started c) ++ of_kind n (ForegroundRunner.task_queue_ (state c)))) /\
  not_nested (frames c) /\
  (forall w, thread c = Blocked w -> HasPoppableTaskInQueue (state c) = false /\ (w = Wait -> ForegroundRunner.delayed_task_queue_ (state c) = []) /\ w <> NoWait).
Proof.
  intros Hk Hr. destruct (reachable_finv time_function Hk idle tr c Hr) as [C1 C2 C3 C4 C5 C6 C7]. by split_all.
Qed.

(** A clock that stands still, and one that reads zero five times and then one second. *)
Definition still : clock := fun _ => seconds 0.
Definition jumping : clock := fun k => if (k <? 5)%nat then seconds 0 else seconds 1.

Lemma still_ok : clock_ok still.
Proof. by split. Qed.

(** Two tasks are posted; the thread runs the first one, and in it pumps again: the second one
    must not be nested and stays. *)
Definition nested_pump : list (flabel nat) := [Post kNestable 1%nat; Post kNonNestable 2%nat; Pump kDoNotWait; Round; Pump kDoNotWait; Round].

Lemma nested_pump_run : exists c, run (fstep (T:=nat) still) (fstart false) nested_pump c /\ started c = [(kNestable, 1%nat)] /\
  frames c = [RunTask kNestable 1%nat] /\ ForegroundRunner.task_queue_ (state c) = [(kNonNestable, 2%nat)] /\ outcomes c = [true; false].
Proof.
  eexists. split.
  - unfold nested_pump. eapply run_cons; [apply fstep_post|]. eapply run_cons; [apply fstep_post|]. eapply run_cons; [by apply fstep_pump|].
    eapply run_cons; [by apply (fstep_round _ _ kDoNotWait)|]. eapply run_cons; [by apply fstep_pump|]. eapply run_cons; [by apply (fstep_round _ _ kDoNotWait)|].
    vm_compute. constructor.
  - by split_all.
Qed.

Example foreground_runner_invariant_witness : exists c, run (fstep (T:=nat) still) (fstart false) nested_pump c /\ posted c ≡ₚ tasks_of c /\ not_nested (frames c).
Proof.
  destruct nested_pump_run as (c & Hr & _). exists c. split; [exact Hr|].
  destruct (foreground_runner_invariant still false nested_pump c (proj1 still_ok) Hr) as (H1 & _ & H3 & _). split; [exact H1|exact H3].
Defined.

(** C39. When the runner looks for a task, the delayed tasks whose time has come go to the end of the queue in the order of their deadlines; the others stay, all of them later than the last reading of the clock; no task is deleted. *)
Theorem delayed_by_deadline {T} `{PriorityQueue T} (time_function : clock) k k' (r r' : runner T) deleted notify :
  clock_ok time_function -> terminated_ r = false -> deadlines_ok (ForegroundRunner.delayed_task_queue_ r) ->
  MoveExpiredDelayedTasksLocked time_function k r = (r', k', deleted, notify) ->
  exists due, r' = set_delayed (ForegroundRunner.delayed_task_queue_ r') (set_queue (ForegroundRunner.task_queue_ r ++ (queued <$> due)) r) /\
    ForegroundRunner.delayed_task_queue_ r ≡ₚ due ++ ForegroundRunner.delayed_task_queue_ r' /\ deleted = [] /\
    Sorted (fun e e' => time_le (timeout_time e) (timeout_time e')) due /\
    Forall (fun e => time_le (timeout_time e) (time_function (k' - 1)%nat)) due /\
    Forall (fun e => time_lt (time_function (k' - 1)%nat) (timeout_time e)) (ForegroundRunner.delayed_task_queue_ r').
Proof.
  intros [Hn Hm] Ht Hok Hmove. destruct (MoveExpired_spec time_function Hn k r r' k' deleted notify ltac:(congruence) Hok Hmove) as (due & [M1 M2 M3 M4 M5] & -> & Hl).
  exists due. destruct (M4 Hok) as [S1 S2]. split_all; try done.
  - apply Forall_forall. intros e He. destruct (proj1 (Forall_forall _ _) M3 e He) as (j & Hj & Hle).
    assert (is_number (timeout_time e)) as Ne by (apply (proj1 (Forall_forall _ _) Hok); rewrite M2; apply elem_of_app; by left).
    apply (time_le_trans _ (time_function j)); [done|done|done|done|]. apply Hm. lia.
  - destruct Hl as [->|[_ Hl]]; [by constructor|done].
Qed.

Example delayed_by_deadline_witness : let e1 := mkDelayed (seconds 0) kNestable 1%nat in let e2 := mkDelayed (seconds 7) kNestable 2%nat in
  exists due, [e2; e1] ≡ₚ due ++ [e2] /\ Forall (fun e => time_le (timeout_time e) (seconds 0)) due.
Proof.
  set (e1 := mkDelayed (seconds 0) kNestable 1%nat). set (e2 := mkDelayed (seconds 7) kNestable 2%nat).
  set (r := mkRunner false 0 [] [e2; e1] [] false). assert (deadlines_ok [e2; e1]) as Hd by (by repeat constructor).
  destruct (@delayed_by_deadline nat (first_least_queue nat) still 0 2 r (mkRunner false 0 [(kNestable, 1%nat)] [e2] [] false) [] true still_ok eq_refl Hd ltac:(vm_compute; reflexivity)) as (due & _ & H1 & _ & _ & H2 & _).
  exists due. split; [exact H1|exact H2].
Defined.

(** A terminated runner never answers: a thread that waits for work in PopTaskFromQueue, before or after Terminate, stays there in every continuation, spurious wake-ups included, and PumpMessageLoop does not return. *)
Theorem terminated_runner_never_answers {T} `{PriorityQueue T} (time_function : clock) idle tr (c : fconfig T) tr' c' :
  (forall k, is_number (time_function k)) -> run (fstep time_function) (fstart idle) tr c -> terminated_ (state c) = true -> waits (thread c) ->
  run (fstep time_function) c tr' c' -> waits (thread c') /\ outcomes c' = outcomes c /\ started c' = started c.
Proof.
  intros Hk Hr Ht Hw Hr'. pose proof (reachable_finv time_function Hk idle tr c Hr) as Hc. clear Hr.
  revert Hc Ht Hw. induction Hr' as [c|c l c1 tr' c' Hs Hr' IH]; intros Hc Ht Hw; [done|].
  destruct (terminated_step time_function _ _ _ Hc Ht Hw Hs) as (T1 & T2 & T3 & T4). rewrite <- T3, <- T4.
  by apply IH; [eapply fstep_finv| |].
Qed.

Example terminated_runner_never_answers_witness : exists c, run (fstep (T:=nat) still) (fstart false) [Pump kWaitForWork; Round; TerminateRunner] c /\ thread c = Blocked Wait /\
  forall tr' c', run (fstep still) c tr' c' -> outcomes c' = [].
Proof.
  assert (exists c, run (fstep (T:=nat) still) (fstart false) [Pump kWaitForWork; Round; TerminateRunner] c /\ thread c = Blocked Wait /\ outcomes c = [] /\ terminated_ (state c) = true) as (c & Hr & Hb & Ho & Ht).
  { eexists. split.
    { eapply run_cons; [by apply fstep_pump|]. eapply run_cons; [by apply (fstep_round _ _ kWaitForWork)|].
    eapply run_cons; [apply (fstep_terminate still)|]. vm_compute. constructor. }
    by split_all. }
  exists c. split; [exact Hr|split; [exact Hb|]]. intros tr' c' Hr'. rewrite <- Ho.
  apply (terminated_runner_never_answers still false _ c tr' c' (proj1 still_ok) Hr Ht (or_intror (ex_intro _ Wait Hb)) Hr').
Defined.

(** ** Worker threads *)

(** C21. In every execution of the runner of worker threads tasks are conserved and start in the order in which they entered the queue, and no wake-up is lost: while a task is queued a thread is awake, and while a task is delayed a thread is awake or waits with a timer. *)
Theorem worker_runner_invariant {T} (time_function : clock) size tr (c : wconfig T) : (0 < size)%nat ->
  run (wstep time_function) (DefaultWorkerThreadsTaskRunner size) tr c ->
  let q := queue_ (the_runner c) in
  w_posted c ≡ₚ w_finished c ++ running_tasks (threads c) ++ task_queue_ q ++ (delayed_task_queue_ q).*2 ++ w_dropped c /\
  w_entered c = w_started c ++ task_queue_ q /\
  (task_queue_ q <> [] -> some_thread awake (threads c)) /\
  (runner_terminated_ (the_runner c) = false -> delayed_task_queue_ q <> [] -> some_thread (fun w => awake w \/ w = Waiting true) (threads c)).
Proof. intros Hs Hr. destruct (reachable_winv time_function size Hs tr c Hr) as [C1 C2 C3 C4 C5 C6 C7 C8]. by split_all. Qed.

Lemma one_worker_run : exists c, run (wstep (T:=nat) still) (DefaultWorkerThreadsTaskRunner 1) [WorkerRound 0; PostTask 5%nat; PostTask 6%nat; WorkerRound 0] c /\
  w_started c = [5%nat] /\ task_queue_ (queue_ (the_runner c)) = [6%nat].
Proof.
  eexists. split.
    { eapply run_cons; [by apply wstep_round|]. eapply run_cons; [apply wstep_post|]. eapply run_cons; [apply wstep_post|].
  eapply run_cons; [by apply wstep_round|]. vm_compute. constructor. }
    by split_all.
Qed.

Example worker_runner_invariant_witness : exists c, run (wstep (T:=nat) still) (DefaultWorkerThreadsTaskRunner 1) [WorkerRound 0; PostTask 5%nat; PostTask 6%nat; WorkerRound 0] c /\ some_thread awake (threads c).
Proof.
  destruct one_worker_run as (c & Hr & _ & Hq). exists c. split; [exact Hr|].
  destruct (worker_runner_invariant still 1 _ c ltac:(lia) Hr) as (_ & _ & H & _). apply H. rewrite Hq. discriminate.
Defined.

(** C22. After Terminate every step but a post decreases a measure, and a step is possible until the last thread was joined; then the posted tasks are the finished ones, the delayed ones whose time had not come, and those posted after Terminate: every immediate task was run. *)
Theorem worker_runner_stops {T} (time_function : clock) size tr (c : wconfig T) : (0 < size)%nat ->
  run (wstep time_function) (DefaultWorkerThreadsTaskRunner size) tr c -> runner_terminated_ (the_runner c) = true ->
  (forall l c', wstep time_function c l c' -> runner_terminated_ (the_runner c') = true /\ if is_post l then WorkersTheorems.measure c' = WorkersTheorems.measure c else (WorkersTheorems.measure c' < WorkersTheorems.measure c)%nat) /\
  (terminate_pc c <> Destroying size false -> exists l c', is_post l = false /\ wstep time_function c l c') /\
  (terminate_pc c = Destroying size false -> w_posted c ≡ₚ w_finished c ++ (delayed_task_queue_ (queue_ (the_runner c))).*2 ++ w_dropped c).
Proof.
  intros Hs Hr Ht. pose proof (reachable_winv time_function size Hs tr c Hr) as Hc. split_all.
  - intros l c' Hst. by eapply terminating_step.
  - by eapply terminating_progress.
  - intros Hp. destruct (w_pc _ _ Hc Ht) as (i & b & Hp' & Hi & _ & He & _). assert (i = size) as -> by congruence.
    assert (forall w, some_thread (fun w' => w' = w) (threads c) -> w = Exited) as Hall.
    { intros w (j & w' & Hj & ->). pose proof (lookup_lt_Some _ _ _ Hj). rewrite (w_size _ _ Hc) in *. rewrite He in Hj by done. congruence. }
    assert (running_tasks (threads c) = []) as Hz.
    { unfold running_tasks. assert (Forall (fun w => w = Exited) (threads c)) as Hf by (apply Forall_lookup; intros j w Hj; apply Hall; by exists j, w).
      clear -Hf. induction Hf as [|w ws -> _ IH]; [done|exact IH]. }
    assert (task_queue_ (queue_ (the_runner c)) = []) as Hq.
    { destruct (task_queue_ (queue_ (the_runner c))) eqn:Hq; [done|]. destruct (w_awake _ _ Hc) as (j & w & Hj & Hw); [by rewrite Hq|].
      rewrite (Hall w) in Hw by (by exists j, w). done. }
    pose proof (w_conserved _ _ Hc) as Hcons. by rewrite Hz, Hq in Hcons.
Qed.

Example worker_runner_stops_witness : exists tr c, run (wstep (T:=nat) still) (DefaultWorkerThreadsTaskRunner 1) tr c /\ terminate_pc c = Destroying 1 false /\ w_posted c ≡ₚ w_finished c ++ (delayed_task_queue_ (queue_ (the_runner c))).*2 ++ w_dropped c.
Proof.
  assert (exists tr c, run (wstep (T:=nat) still) (DefaultWorkerThreadsTaskRunner 1) tr c /\ terminate_pc c = Destroying 1 false /\ runner_terminated_ (the_runner c) = true) as (tr & c & Hr & Hp & Ht).
  { exists [PostTask 5%nat; CallTerminate; WorkerRound 0; EndTask 0; WorkerRound 0; DestroyThread; JoinThread]. eexists. split.
    {
    eapply run_cons; [apply wstep_post|]. eapply run_cons; [by apply wstep_terminate|]. eapply run_cons; [by apply wstep_round|]. eapply run_cons; [by eapply wstep_end|].
    eapply run_cons; [by apply wstep_round|]. eapply run_cons; [eapply wstep_destroy; [done|vm_compute; lia]|]. eapply run_cons; [by eapply wstep_join|]. constructor. }
    by split_all. }
  exists tr, c. split; [exact Hr|split; [exact Hp|]]. apply (worker_runner_stops still 1 tr c ltac:(lia) Hr Ht). exact Hp.
Defined.

(** A worker whose timer ran out leaves its entry in idle_threads_, and the next post notifies it although it runs a task: an execution of two threads after which a task is queued, one thread runs another task, the other one sleeps with its name in idle_threads_, and only the end of the running task, the second timer (or a spurious wake-up), another post or Terminate can happen. *)
Theorem stale_idle_thread : exists tr c, run (wstep (T:=nat) jumping) (DefaultWorkerThreadsTaskRunner 2) tr c /\
  threads c = [RunningTask 2%nat; Waiting true] /\ task_queue_ (queue_ (the_runner c)) = [3%nat] /\ idle_threads_ (the_runner c) = [1%nat] /\
  (forall l c', wstep jumping c l c' -> is_post l = true \/ l = EndTask 0 \/ l = WakeUp 1 \/ l = CallTerminate).
Proof.
  exists [PostDelayedTask 1%nat (seconds 100); WorkerRound 1; WorkerRound 0; PostDelayedTask 2%nat (seconds 1); WorkerRound 0; WakeUp 0; WorkerRound 0; PostTask 3%nat]. eexists.
  split.
  { eapply run_cons; [apply wstep_post_delayed|]. eapply run_cons; [by apply wstep_round|]. eapply run_cons; [by apply wstep_round|].
    eapply run_cons; [apply wstep_post_delayed|]. eapply run_cons; [by apply wstep_round|]. eapply run_cons; [by eapply wstep_wake|].
    eapply run_cons; [by apply wstep_round|]. eapply run_cons; [apply wstep_post|]. vm_compute. constructor. }
  split_all; [done|done|done|]. intros l c' Hs. inversion Hs; subst; simpl in *; try done; auto.
  - destruct i as [|[|i]]; by simplify_eq/=.
  - destruct i as [|[|i]]; simplify_eq/=. auto.
  - destruct i as [|[|i]]; simplify_eq/=. auto.
Qed.

(** ** Jobs *)

Lemma over_step c l c' : over (handle c) = true -> jstep c l c' -> over (handle c') = true.
Proof.
  intros Ho Hs. inversion Hs; subst; simpl in *; try done; try (match goal with Hh : handle c = _ |- _ => by rewrite Hh in Ho end).
  - by destruct (notify_owner_kind notify (handle c)) as (_ & _ & _ & ->).
  - by destruct (notify_owner_kind true (handle c)) as (_ & _ & _ & ->).
Qed.

Lemma count_exists f ps : (0 < count f ps)%nat -> exists i p, ps !! i = Some p /\ (0 < f p)%nat.
Proof.
  unfold count. induction ps as [|p ps IH]; [simpl; lia|]. rewrite fmap_cons. intros Hc. change (0 < f p + list_sum (f <$> ps))%nat in Hc. destruct (decide (0 < f p)%nat); [by exists 0%nat, p|].
  destruct IH as (i & q & Hi & Hq); [lia|]. by exists (S i), q.
Qed.

(** Nobody is in the job. *)
Definition nobody_runs (c : jconfig) : Prop := forall i d, participants c !! i <> Some (RunningJob d) /\ participants c !! i <> Some Returned.

(** C23. In every execution of a job the counters are exact and the threads at work stay within the number the job was made for, one more while its owner joins; once Join or Cancel has returned nobody runs the job and nobody will; and when the owner waits another thread is at work, which will notify it. *)
Theorem job_counters n p tr c : 0 <= n -> run jstep (jstart p n) tr c ->
  pending_tasks_ (job c) = Z.of_nat (count JobTheorems.is_posted (participants c)) /\
  active_workers_ (job c) = Z.of_nat (count is_active (participants c)) /\
  active_workers_ (job c) <= num_worker_threads_ (job c) <= Z.min n kMaxWorkersPerJob + 1 /\
  (over (handle c) = true -> forall tr' c', run jstep c tr' c' -> nobody_runs c') /\
  (match handle c with JoinWaiting _ | CancelWaiting => True | _ => False end -> exists i q, i <> 0%nat /\ participants c !! i = Some q /\ is_active q = 1%nat).
Proof.
  intros Hn Hr. pose proof (reachable_jinv n p tr c Hn Hr) as Hc. pose proof Hc as [C1 C2 C3 C4 C5 C6 C7 C8].
  split_all; [done|done|done|destruct (joins (handle c)); lia| |].
  - intros Ho tr' c' Hr'. clear -Hc Ho Hr'. induction Hr' as [c|c l c1 tr' c' Hs Hr' IH].
    + intros i d. apply nobody_active. pose proof (j_active _ _ Hc). pose proof (j_over _ _ Hc Ho). lia.
    + apply IH; [by eapply jstep_jinv|by eapply over_step].
  - intros Hw. assert (exists q, participants c !! 0%nat = Some q /\ (Z.of_nat (is_active q) < active_workers_ (job c))) as (q & H0 & Hq).
    { destruct (handle c); try done; simpl in *; [destruct C5 as [d Hd]; exists (RunningJob d)|exists Done]; split; simpl; done || lia. }
    pose proof (count_participants_insert is_active 0 q Done _ H0) as Hk. simpl in Hk.
    destruct (count_exists is_active (<[0%nat := Done]> (participants c))) as (i & r & Hi & Hp); [lia|]. destruct (decide (i = 0%nat)) as [->|Hne].
    + rewrite list_lookup_insert_eq in Hi by (by eapply lookup_lt_Some). simplify_eq. simpl in Hp. lia.
    + rewrite list_lookup_insert_ne in Hi by done. exists i, r. split_all; [done|done|]. destruct r; simpl in *; lia.
Qed.

Example job_counters_witness : exists c, run jstep (jstart kUserVisible 2) [Notify 5; FirstTask 1 5; FirstTask 2 0; CallCancel; TestCancel] c /\ handle c = CancelWaiting /\
  exists i q, i <> 0%nat /\ participants c !! i = Some q /\ is_active q = 1%nat.
Proof.
  assert (exists c, jexecs (jstart kUserVisible 2) [Notify 5; FirstTask 1 5; FirstTask 2 0; CallCancel; TestCancel] = Some c /\ handle c = CancelWaiting) as (c & Hr & Hh)
    by (eexists; split; [vm_compute; reflexivity|reflexivity]).
  pose proof (jexecs_sound _ _ _ Hr) as Hrun. exists c. split; [exact Hrun|split; [exact Hh|]].
  destruct (job_counters 2 kUserVisible _ c ltac:(lia) Hrun) as (_ & _ & _ & _ & H). apply H. rewrite Hh. exact I.
Defined.

(** C38. The task ids that the delegates of a job hold are different and below 32 when the job was made for at most 31 threads; with 32 threads and a thread that joins the last id is 32, and AcquireTaskId shifts a 32-bit integer by 32. *)
Theorem job_task_ids : (forall n p tr c, 0 <= n <= 31 -> run jstep (jstart p n) tr c ->
    NoDup (held (participants c)) /\ (forall i, i ∈ held (participants c) -> 0 <= i < 32) /\ undefined c = false) /\
  (exists tr c, run jstep (jstart kUserVisible kMaxWorkersPerJob) tr c /\ undefined c = true).
Proof.
  split.
  - intros n p tr c Hn Hr. destruct (reachable_tinv n p tr c Hn Hr) as [[H1 H2 _] _ H3]. by split_all.
  - exists thirty_three. destruct (jexecs (jstart kUserVisible kMaxWorkersPerJob) thirty_three) as [c|] eqn:Hr; [|by vm_compute in Hr].
    exists c. split; [by apply jexecs_sound|]. assert ((undefined <$> jexecs (jstart kUserVisible kMaxWorkersPerJob) thirty_three) = Some true) as Hu by by vm_compute.
    rewrite Hr in Hu. by injection Hu.
Qed.

(** ** The life of runners *)

(** After the shutdown of an isolate a task posted through a reference to its runner is deleted without running; asking for the runner again makes a new one, where a task is queued although nobody pumps it; and a second notification of the shutdown calls a method through a null pointer. *)
Theorem shutdown_loses_posts {T} `{PriorityQueue T} i (p : DefaultPlatform T) r p1 : platform_ok p -> GetForegroundTaskRunner i p = (r, p1) ->
  exists p2 dropped, NotifyIsolateShutdown i p1 = Some (p2, dropped) /\ platform_ok p2 /\
    (forall t, exists p3, PostTask_to r t p2 = Some (p3, Some t)) /\
    NotifyIsolateShutdown i p2 = None /\
    let '(r', p3) := GetForegroundTaskRunner i p2 in r' <> r /\
    (forall t, exists p4 rn, PostTask_to r' t p3 = Some (p4, None) /\ runners p4 !! r' = Some rn /\ ForegroundRunner.task_queue_ rn = [(kNestable, t)] /\ terminated_ rn = false).
Proof.
  intros Hp Hg. destruct (GetForegroundTaskRunner_ok i p r p1 Hp Hg) as (P1 & P2 & [rn P3] & _). unfold NotifyIsolateShutdown. rewrite P2, P3. simpl.
  eexists _, _. split; [done|]. set (p2 := set_runners _ _ p1).
  assert (platform_ok p2) as P4.
  { destruct P1 as [M1 M2 M3]. constructor; simpl; [| |done].
    - intros j r' [_ Hj]%lookup_delete_Some. destruct (decide (r' = r)) as [->|]; [by rewrite lookup_insert_eq|]. rewrite lookup_insert_ne by done. by eapply M1.
    - intros j j' r' [_ Hj]%lookup_delete_Some [_ Hj']%lookup_delete_Some. by eapply M2. }
  split; [done|]. split_all.
  - intros t. unfold PostTask_to, p2. simpl. rewrite lookup_insert_eq. simpl. by eexists.
  - unfold p2. simpl. by rewrite lookup_delete_eq.
  - destruct (GetForegroundTaskRunner i p2) as [r' p3] eqn:Hg2. destruct (GetForegroundTaskRunner_ok i p2 r' p3 P4 Hg2) as (_ & _ & _ & Q & _).
    destruct Q as [Q1 Q2]; [unfold p2; simpl; by rewrite lookup_delete_eq|]. split.
    + intros ->. unfold p2 in Q1. simpl in Q1. by rewrite lookup_insert_eq in Q1.
    + intros t. unfold PostTask_to. rewrite Q2. simpl. eexists _, _. split; [done|]. simpl. by rewrite lookup_insert_eq.
Qed.

Example shutdown_loses_posts_witness : exists r p1 p2 dropped, GetForegroundTaskRunner 7 (NewDefaultPlatform (T:=nat) 8 0 false kDontApply) = (r, p1) /\
  NotifyIsolateShutdown 7 p1 = Some (p2, dropped) /\ exists p3, PostTask_to r 42%nat p2 = Some (p3, Some 42%nat).
Proof.
  destruct (GetForegroundTaskRunner 7 (NewDefaultPlatform (T:=nat) 8 0 false kDontApply)) as [r p1] eqn:Hg.
  destruct (shutdown_loses_posts 7 _ r p1 (new_platform_ok _ _ _) Hg) as (p2 & dropped & H1 & _ & H2 & _).
  exists r, p1, p2, dropped. split; [reflexivity|split; [exact H1|exact (H2 42%nat)]].
Defined.

(** PumpMessageLoop of an isolate is an execution of the interleaved model of its runner: it starts the task that the steps start, gives the answer that they give, or waits as they do. *)
Theorem pump_is_execution {T} `{PriorityQueue T} (time_function : clock) i r (p : DefaultPlatform T) w (c : fconfig T) :
  foreground_task_runner_map_ p !! i = Some r -> runners p !! r = Some (state c) -> thread c = Active ->
  let '(p', k, result) := PumpMessageLoop time_function i w (readings c) p in
  exists c', run (fstep time_function) c [Pump w; Round] c' /\ runners p' !! r = Some (state c') /\ readings c' = k /\
    match result with
    | Answer b => thread c' = Active /\ frames c' = frames c /\ outcomes c' = outcomes c ++ [b]
    | Runs r' t => r' = r /\ thread c' = Active /\ exists n, frames c' = RunTask n t :: frames c
    | Waits r' wt => r' = r /\ thread c' = match wt with NoWait => Popping w | _ => Blocked wt end /\ outcomes c' = outcomes c
    end.
Proof.
  intros Hi Hr Ht. unfold PumpMessageLoop. rewrite Hi, Hr.
  destruct (pop_pass time_function w (readings c) (state c)) as [[[rn k] del] result] eqn:Hp.
  assert (forall c', pump_round time_function w (mkConfig (state c) (readings c) (Popping w) (frames c) (posted c) (finished c) (deleted c) (entered c) (started c) (outcomes c)) = c' ->
    run (fstep time_function) c [Pump w; Round] c') as Hrun.
  { intros c' <-. eapply run_cons; [by apply fstep_pump|]. apply run_one. by apply fstep_round. }
  unfold pump_round in Hrun. simpl in Hrun. rewrite Hp in Hrun. destruct (MoveExpiredDelayedTasksLocked time_function (readings c) (state c)) as [[[moved k1] d1] b1].
  destruct result as [e| |wt]; simpl.
  - eexists. split; [by apply Hrun|]. simpl. rewrite lookup_insert_eq. split_all; try done. by eexists.
  - eexists. split; [by apply Hrun|]. simpl. rewrite lookup_insert_eq. by split_all.
  - destruct wt; (eexists; split; [by apply Hrun|]); simpl; rewrite lookup_insert_eq; by split_all.
Qed.

Example pump_is_execution_witness : exists r p, foreground_task_runner_map_ p !! 7%nat = Some r /\ runners p !! r = Some (state (T:=nat) (fstart false)) /\
  let '(p', k, result) := PumpMessageLoop still 7 kWaitForWork 0 p in exists c' : fconfig nat, run (fstep still) (fstart false) [Pump kWaitForWork; Round] c' /\ readings c' = k.
Proof.
  destruct (GetForegroundTaskRunner 7 (NewDefaultPlatform (T:=nat) 8 0 false kDontApply)) as [r p] eqn:Hg.
  destruct (GetForegroundTaskRunner_ok 7 _ r p (new_platform_ok _ _ _) Hg) as (_ & Hi & _ & Hr & _). destruct (Hr eq_refl) as [_ Hrn].
  exists r, p. split; [exact Hi|split; [exact Hrn|]]. pose proof (pump_is_execution still 7 r p kWaitForWork (fstart false) Hi Hrn eq_refl) as H. change (readings (fstart false)) with 0%nat in H.
  destruct (PumpMessageLoop still 7 kWaitForWork 0 p) as [[p' k] result]. destruct H as (c' & H1 & _ & H2 & _). exists c'. split; [exact H1|exact H2].
Defined.
